(* ===== verification/_CoqProject ===== *)
-Q . S2P
Prelude.v
Bytes.v
CcProtocol.v
TableName.v
Ownership.v
TxSerialize.v
MetaRecords.v
RecordOwnership.v
ReadWriteSet.v
Queue.v
CircularQueue.v
NonBlockingLock.v
DeadLockCheck.v
CcEntry.v
ExportCkpt.v
LruList.v
CcPages.v
TxKeys.v
PagesRep.v
PagesInsert.v
PagesScan.v
PagesClean.v
PagesEvict.v
ShardClean.v
RandomPairing.v
StoreSlice.v
SliceProtocol.v
SliceDemo.v
StoreRange.v
SlicePins.v
RangeEntry.v
SliceUpdate.v
RangeDemo.v
ScanCache.v
ScanNext.v
RangeScanner.v
ScanDemo.v
TxCommand.v
KeyLock.v
LockArray.v
ShardLocks.v
LockModes.v
CcMap.v
TxCommit.v
DataLog.v
CcStore.v
CommitProtocol.v
CommitOrder.v
CcMapStore.v
LogReplay.v
CommitSafety.v
CommitDemo.v
ReplayDemo.v
CcMapAnswers.v
Standby.v
StandbyGroup.v
