(* ===== verification/Prelude.v ===== *)
(** * Verification of the EloqDB transaction service

    The sources under [src/] are a distributed transaction service in C++.  A node runs
    several shards, each on one core; a shard owns concurrency-control (cc) maps, which
    cache the rows of the tables with their versions and locks.  A transaction is a state
    machine on some node, the coordinator, which sends cc requests to the shards, collects
    the answers, writes the log and post-processes the entries it read and wrote.  Around
    this core there are a deadlock detector, a checkpointer, standby nodes that receive a
    stream of changes, and the operations that change schemas and move data.

    ** Layout

    The files are listed in the order of dependency.  Each models the parts of [src/] its
    own header names; names are those of the source where Rocq allows it.

    - Foundations.  [Prelude] (machine integers, tactics, list lemmas); [Bytes] (the byte
      images the source writes with [append] and reads back at an offset); [CcProtocol]
      (the enumerations of [cc_protocol.h], [type.h], [tx_record.h], [tx_id.h], the lock
      type of an operation); [TableName] (table names, index tables, the log image of a
      schema change); [Ownership] (objects with one owner); [TxSerialize] (the helpers that
      write and read fields).
    - Keys and meta records.  [TxKeys] has the handles of keys and composite keys,
      [MetaRecords] the records of the catalog, of buckets and of the cluster
      configuration, [RecordOwnership] which record frees their values.
    - Queues and locks.  [Queue] is the interface of a double-ended queue and
      [CircularQueue] its implementation ([circular_queue.h]).  [NonBlockingLock] is the
      lock of an entry with its queue of parked requests, proved against [Queue];
      [KeyLock] adds the data of a locked entry ([KeyGapLockAndExtraData]), [LockArray]
      the array the structures live in, [ShardLocks] the bookkeeping of a shard
      ([lock_holding_txs_], acquisition, release, recovery, the deadlock report), and
      [LockModes] what one transaction can rely on.  [DeadLockCheck] is the detector.
    - Entries.  [CcEntry] is the status word and the version list of an entry with
      snapshot reads and garbage collection, [ExportCkpt] the export to the checkpointer,
      [TxCommand] the replay of commands on an object.
    - Pages.  [LruList] is the LRU list of pages; [CcPages] the sorted pages of a cc map
      with every operation on them; [PagesRep] relates them to one sorted list, and
      [PagesInsert], [PagesScan], [PagesClean] and [PagesEvict] prove insertion, searching,
      rebalancing, and eviction and kickout; [ShardClean] is the pass over a shard's LRU
      list that frees entries.
    - Range slices.  [StoreSlice] is a slice of a range with its load, its pins and the
      validity of its key cache, [SliceProtocol] the runs of the threads that use it;
      [StoreRange] the slices of a range with search, splitting and sizes, [SlicePins] the
      pins and loads of a scan over several slices, [RangeEntry] the entry of a range, its
      new ranges during a split and the dropping of unused ranges, [SliceUpdate] the cutting
      of slices during a checkpoint.  [RandomPairing] is the pool that samples keys.
      [SliceDemo] and [RangeDemo] are their examples.
    - The commit protocol.  [ReadWriteSet] holds the sets of a transaction; [CcMap] the
      handlers of the requests [ReadCc], [AcquireCc], [PostReadCc] and [PostWriteCc];
      [TxCommit] the commit path of the coordinator.  [CcStore] states what a shard promises
      a coordinator, [CommitProtocol] the interleaved runs of coordinators and shards,
      [CommitOrder] their invariant for every store with these promises; [CcMapStore]
      shows that the handlers keep the promises, and [CommitSafety] composes both.
      [CommitDemo] is a run of two transactions; [CcMapAnswers] the error branches.
    - Scans.  [ScanCache] has the caches that the cores fill for a scan and the scanner
      that merges them; [ScanNext] the transaction's side of a scan (its own writes, the read
      set, draining and closing); [RangeScanner] the parallel merge of the caches of a
      range-partitioned table; [ScanDemo] their examples.
    - Durability.  [DataLog] is the log record that a transaction writes and the parser of
      shipped records; [LogReplay] the replay on the cores of a new leader, and the theorem
      that composes all three; [ReplayDemo] replays one record.
    - Replication.  [Standby] is the primary side of the stream (buffer, retransmission,
      subscriptions), [StandbyGroup] the standby side.

    ** State and operations

    A class is a [Record] of its members and a member function a function on it.  Code
    that follows pointers returns [None] where the source would follow a null or dangling
    pointer or fail an assertion, so a theorem that a call returns [Some] says that this
    does not happen.  Pointers are integers, and objects that are shared live in a heap by
    address; the address an allocation returns is an argument.  Unsigned arithmetic that
    can leave its width is wrapped with [u64] or [u32].  Calls that leave the component
    (enqueueing a request, sending a message, an abort) are outputs.  The clock, the leader
    terms, hash functions, the data store and the types of keys, records and commands are
    parameters; what is assumed of them is a hypothesis of the theorem or a class.
    Concurrency is interleaving: a shard executes one request at a time, and the runs of
    [CommitProtocol], [ShardLocks], [Standby], [SliceProtocol] and [LruList] are sequences of
    any such steps.

    ** Theorems

    The doc comments say what each theorem states.  In groups: committed transactions are
    serializable in the order of their commit timestamps and read only committed data;
    committed writes are recovered from the log in whatever order it is replayed;
    a scan returns the rows in order with the transaction's own writes, and forgets no lock;
    cores that commit their part of a scan in parallel end with one sorted list;
    the handlers keep the cc maps well formed and answer errors without leaving locks; a
    lock is exclusive, first-in first-out and completely released, and its bookkeeping is
    exact; the deadlock search terminates and finds exactly the deadlocks when locks are
    exclusive; the cache evicts only what is flushed, snapshots read the newest visible
    version, and neither garbage collection nor commits change what they read; the pages
    implement one sorted list under insertion, scans, eviction and kickout; replay does
    not depend on the order of delivery; a pinned slice is complete and stays so, requests
    that wait for a load are answered once, the slices of a range partition it, its counter
    is exact, and slices are cut the same way however the records are batched; a standby applies the history of its primary
    without a gap; the circular queue and the LRU list refine lists; images read back are
    what was written; keys and the values of records are freed once; the version of a
    catalog entry or of a bucket does not go back.

    ** Bounds

    Loops of the source whose number of iterations is not structural have a bound that a
    theorem shows to be enough: the deadlock search ([DetectDeadLock_terminates]), the
    rounds of a kickout ([kickout_complete], as many as there are keys), the loops of a scan
    ([scan_sees_own_writes], by the rows, the writes and the cores) and the steps of a parallel
    merge ([parallel_commit_sorted]); the search of a key's slice, the run of slices to
    unpin ([pins_taken_released]), the search for split keys ([CalculateRangeSplitKeys_ok]) and
    the passes over a batch ([batches_cut_as_whole]), by the number of slices or records.

    ** Not modelled

    Remote messages and RPC (protobuf, brpc), the data store and log service behind their
    interfaces, threads and memory orders (a shard is single-threaded; what other threads
    see of it is not part of the model), memory accounting and allocators, metrics and
    tracing.  The cc maps are those of the hash-partitioned build; of the range-partitioned
    one the export to the checkpointer, the scanner and the range slices are modelled, not
    the handlers that pin slices.  Floating point (the number of sub-ranges of a split) and
    the cuckoo filter of the key cache are arguments.  Data sync tasks, the multi-stage
    operations for schema changes and range splits, bucket migration, leadership changes
    during a run, and histograms are not part of the development; the manifest lists them. *)

From stdpp Require Export base tactics numbers list gmap sets.
From Stdlib Require Export ZArith Lia.

(** ** Machine integers

    The sources use [uint64_t], [uint32_t] and [size_t].  A value is an
    integer; an operation that can leave its width is wrapped explicitly with
    [u64] or [u32]. *)

Definition UINT64_MAX : Z := 2 ^ 64 - 1.
Definition UINT32_MAX : Z := 2 ^ 32 - 1.

Definition u64 (x : Z) : Z := x mod 2 ^ 64.
Definition u32 (x : Z) : Z := x mod 2 ^ 32.

Definition is_u64 (x : Z) : Prop := (0 ≤ x < 2 ^ 64)%Z.
Definition is_u32 (x : Z) : Prop := (0 ≤ x < 2 ^ 32)%Z.

Lemma u64_small x : (0 ≤ x < 2 ^ 64)%Z → u64 x = x.
Proof. intros. unfold u64. by rewrite Z.mod_small. Qed.
Lemma u64_add x y : u64 (u64 x + y) = u64 (x + y).
Proof. unfold u64. by rewrite Zplus_mod_idemp_l. Qed.
Lemma u64_sub x y : u64 (u64 x - y) = u64 (x - y).
Proof. unfold u64. by rewrite Zminus_mod_idemp_l. Qed.

Declare Scope tx_scope.
Delimit Scope tx_scope with tx.

(** The hints the components share. *)
Create HintDb txs.

(** ** Tactics shared by the components *)

(** Splits every [if], [match] and [decide] of the goal. *)
Ltac crush_cases :=
  repeat (case_match || case_decide || case_bool_decide);
  simplify_eq/=; try done; auto with txs.

(** Turns boolean tests in the context into propositions. *)
Ltac bool_to_prop :=
  repeat match goal with
  | H : bool_decide _ = true |- _ => apply bool_decide_eq_true in H
  | H : bool_decide _ = false |- _ => apply bool_decide_eq_false in H
  | H : (_ && _) = true |- _ => apply andb_true_iff in H as [??]
  | H : (_ || _) = false |- _ => apply orb_false_iff in H as [??]
  | H : (_ || _) = true |- _ => apply orb_true_iff in H
  | H : (_ && _) = false |- _ => apply andb_false_iff in H
  | H : negb _ = true |- _ => apply negb_true_iff in H
  | H : negb _ = false |- _ => apply negb_false_iff in H
  end.

(** ** Lists *)

Section lists.
Context {A : Type}.
Implicit Types (l : list A) (x : A).

(** Two lists are equal as soon as their lengths and their in-range lookups
    agree. *)
Lemma list_eq_bounded l k :
  length l = length k →
  (∀ i, i < length l → l !! i = k !! i) →
  l = k.
Proof.
  intros Hlen Hlk. apply list_eq; intros i.
  destruct (decide (i < length l)) as [?|?]; [by apply Hlk|].
  rewrite !lookup_ge_None_2; [done|lia..].
Qed.

Lemma lookup_app_last l x : (l ++ [x]) !! length l = Some x.
Proof. by rewrite list_lookup_middle. Qed.
End lists.

Lemma log2_u64 a : is_u64 a → (Z.log2 a < 64)%Z.
Proof.
  unfold is_u64. intros Ha. destruct (decide (a = 0)%Z) as [->|]; [cbn; lia|].
  apply Z.log2_lt_pow2; lia.
Qed.

Lemma lor_u64 a b : is_u64 a → is_u64 b → is_u64 (Z.lor a b).
Proof.
  intros Ha Hb. pose proof (log2_u64 a Ha). pose proof (log2_u64 b Hb). unfold is_u64 in *.
  pose proof (proj2 (Z.lor_nonneg a b)). split; [lia|].
  destruct (decide (Z.lor a b = 0)%Z) as [->|Hne]; [lia|].
  apply Z.log2_lt_pow2; [lia|]. rewrite Z.log2_lor by lia. lia.
Qed.

Lemma land_u64 a b : is_u64 a → (0 ≤ b)%Z → is_u64 (Z.land a b).
Proof.
  intros Ha Hb. pose proof (log2_u64 a Ha). unfold is_u64 in *.
  pose proof (proj2 (Z.land_nonneg a b)). split; [lia|].
  destruct (decide (Z.land a b = 0)%Z) as [->|Hne]; [lia|].
  apply Z.log2_lt_pow2; [lia|]. pose proof (Z.log2_land a b). lia.
Qed.

Lemma filter_none {A} (P : A → Prop) `{!∀ x, Decision (P x)} (l : list A) :
  (∀ x, x ∈ l → ¬ P x) → filter P l = [].
Proof.
  induction l as [|x l IH]; intros Hl; [done|].
  rewrite filter_cons_False by (apply Hl; set_solver). apply IH. set_solver.
Qed.

Lemma filter_iff_in {A} (P Q : A → Prop) `{!∀ x, Decision (P x), !∀ x, Decision (Q x)}
    (l : list A) :
  (∀ x, x ∈ l → P x ↔ Q x) → filter P l = filter Q l.
Proof.
  induction l as [|x l IH]; intros Hl; [done|]. rewrite !filter_cons.
  rewrite IH by set_solver. pose proof (Hl x ltac:(set_solver)).
  destruct (decide (P x)), (decide (Q x)); tauto.
Qed.

Lemma sublist_fmap {A B} (f : A → B) (l k : list A) :
  sublist l k → sublist (f <$> l) (f <$> k).
Proof. induction 1; cbn; by constructor. Qed.

(** Removing the element at index [i] of a list, the effect of
    [std::vector::erase] and of the queue's [Erase]. *)
Definition remove_at {A} (i : nat) (l : list A) : list A :=
  take i l ++ drop (S i) l.

Section remove_at.
Context {A : Type}.
Implicit Types l : list A.

Lemma length_remove_at l i :
  i < length l → length (remove_at i l) = length l - 1.
Proof.
  intros. unfold remove_at. rewrite length_app, length_take, length_drop. lia.
Qed.

Lemma lookup_remove_at_lt l i j : j < i → remove_at i l !! j = l !! j.
Proof.
  intros Hj. unfold remove_at.
  destruct (decide (j < length l)).
  - rewrite lookup_app_l by (rewrite length_take; lia). by apply lookup_take_lt.
  - rewrite (lookup_ge_None_2 l) by lia. apply lookup_ge_None_2.
    rewrite length_app, length_take, length_drop. lia.
Qed.

Lemma lookup_remove_at_ge l i j :
  i ≤ j → i < length l → remove_at i l !! j = l !! S j.
Proof.
  intros ??. unfold remove_at.
  rewrite lookup_app_r by (rewrite length_take; lia).
  rewrite length_take, lookup_drop. f_equal. lia.
Qed.

Lemma remove_at_app_middle (l1 l2 : list A) x :
  remove_at (length l1) (l1 ++ x :: l2) = l1 ++ l2.
Proof.
  unfold remove_at. rewrite take_app_length.
  rewrite (drop_app_ge _ _ (S (length l1))) by lia.
  by replace (S (length l1) - length l1) with 1 by lia.
Qed.
End remove_at.

(** ** Sets *)

Section sets.
Context {A : Type} `{!EqDecision A, !Countable A}.
Implicit Types (X : gset A) (x : A).

(** [s.empty() || (s.size() == 1 && *s.begin() == x)] says the set holds at
    most [x]. *)
Lemma set_at_most_one X x :
  X = ∅ ∨ size X = 1 ∧ head (elements X) = Some x ↔ X ⊆ {[x]}.
Proof.
  split.
  - intros [->|[Hsize Hhead]]; [set_solver|].
    apply size_1_elem_of in Hsize as [y Hy]. apply leibniz_equiv in Hy as ->.
    rewrite elements_singleton in Hhead. simplify_eq/=. set_solver.
  - intros HX. destruct (decide (x ∈ X)).
    + assert (X = {[x]}) as -> by set_solver. right.
      by rewrite size_singleton, elements_singleton.
    + left. set_solver.
Qed.
End sets.

(** ** Updates of finite maps *)

Section alter.
Context `{Countable K} {A : Type}.
Implicit Types m : gmap K A.

Lemma alter_as_insert (f : A → A) m i x : m !! i = Some x → alter f i m = <[i := f x]> m.
Proof.
  intros Hx. apply map_eq. intros j. destruct (decide (j = i)) as [->|].
  - by rewrite lookup_alter_eq, lookup_insert_eq, Hx.
  - by rewrite lookup_alter_ne, lookup_insert_ne.
Qed.

Lemma alter_absent (f : A → A) m i : m !! i = None → alter f i m = m.
Proof.
  intros Hx. apply map_eq. intros j. destruct (decide (j = i)) as [->|].
  - by rewrite lookup_alter_eq, Hx.
  - by rewrite lookup_alter_ne.
Qed.

Lemma size_alter (f : A → A) m i : size (alter f i m) = size m.
Proof.
  destruct (m !! i) as [x|] eqn:E; [|by rewrite alter_absent].
  rewrite (alter_as_insert f m i x E). apply map_size_insert_Some. by eexists.
Qed.
End alter.

(** ** Sums over finite maps *)

Section map_sum.
Context `{Countable K} {A : Type} (f : K → A → Z).
Implicit Types m : gmap K A.

Definition map_sum m : Z := map_fold (λ k x acc, f k x + acc)%Z 0%Z m.

Lemma map_sum_empty : map_sum ∅ = 0%Z.
Proof. apply map_fold_empty. Qed.

Lemma map_sum_insert_None m k x : m !! k = None → map_sum (<[k := x]> m) = (f k x + map_sum m)%Z.
Proof. intros. unfold map_sum. rewrite map_fold_insert_L; [done|intros; lia|done]. Qed.

Lemma map_sum_delete m k x : m !! k = Some x → map_sum m = (f k x + map_sum (delete k m))%Z.
Proof. intros. unfold map_sum. rewrite (map_fold_delete_L _ _ k x); [done|intros; lia|done]. Qed.

Lemma map_sum_insert m k x y :
  m !! k = Some y → map_sum (<[k := x]> m) = (map_sum m - f k y + f k x)%Z.
Proof.
  intros Hk. rewrite <-insert_delete_eq. rewrite map_sum_insert_None by apply lookup_delete_eq.
  rewrite (map_sum_delete m k y Hk). lia.
Qed.

Lemma map_sum_nonneg m : (∀ k x, m !! k = Some x → 0 ≤ f k x)%Z → (0 ≤ map_sum m)%Z.
Proof.
  induction m as [|k x m Hk IH] using map_ind; intros Hf; [by rewrite map_sum_empty|].
  rewrite map_sum_insert_None by done.
  pose proof (Hf k x (lookup_insert_eq _ _ _)). enough (0 ≤ map_sum m)%Z by lia.
  apply IH. intros k' x' Hk'. apply Hf. rewrite lookup_insert_ne; [done|congruence].
Qed.

Lemma map_sum_zero m : (∀ k x, m !! k = Some x → f k x = 0%Z) → map_sum m = 0%Z.
Proof.
  induction m as [|k x m Hk IH] using map_ind; intros Hf; [apply map_sum_empty|].
  rewrite map_sum_insert_None by done. rewrite (Hf k x (lookup_insert_eq _ _ _)), IH; [done|].
  intros k' x' Hk'. apply Hf. rewrite lookup_insert_ne; [done|congruence].
Qed.

Lemma map_sum_list m : map_sum m = foldr (λ x acc, f x.1 x.2 + acc)%Z 0%Z (map_to_list m).
Proof.
  unfold map_sum. rewrite map_fold_foldr. generalize (map_to_list m).
  induction l as [|[k x] l IH]; cbn; [done|]. by rewrite IH.
Qed.
End map_sum.
