(* ===== verification/Bytes.v ===== *)
(** * Byte strings

    Values are written to strings the way the sources do it: the bytes of an
    integer in memory order ([append(reinterpret_cast<const char *>(&x),
    sizeof x)], little endian) and byte strings, and read back at an offset.  A
    byte is an integer below 256. *)

From S2P Require Import Prelude.

Definition is_byte (b : Z) : Prop := (0 ≤ b < 256)%Z.

Abbreviation bytes := (list Z).

(** The [n] low bytes of [z], least significant first. *)
Fixpoint le_bytes (n : nat) (z : Z) : bytes :=
  match n with
  | 0 => []
  | S n => (z mod 256)%Z :: le_bytes n (z / 256)
  end.

Fixpoint le_value (bs : bytes) : Z :=
  match bs with
  | [] => 0
  | b :: bs => (b + 256 * le_value bs)%Z
  end.

(** [*(T * ) (buf + offset)] for an integer type of [n] bytes; [None] past the
    end of the buffer. *)
Definition read_le (n : nat) (buf : bytes) (offset : nat) : option Z :=
  if decide (offset + n ≤ length buf) then Some (le_value (take n (drop offset buf))) else None.

(** [std::string(buf + offset, len)]. *)
Definition read_bytes (len : nat) (buf : bytes) (offset : nat) : option bytes :=
  if decide (offset + len ≤ length buf) then Some (take len (drop offset buf)) else None.

Lemma length_le_bytes n z : length (le_bytes n z) = n.
Proof. revert z. induction n; intros; cbn; auto. Qed.

Lemma le_bytes_byte n z : Forall is_byte (le_bytes n z).
Proof.
  revert z. induction n as [|n IH]; intros z; cbn; constructor; [|apply IH].
  apply Z.mod_pos_bound. lia.
Qed.

Lemma le_value_bytes n z : (0 ≤ z < 256 ^ Z.of_nat n)%Z → le_value (le_bytes n z) = z.
Proof.
  revert z. induction n as [|n IH]; intros z Hz; [cbn in *; lia|].
  change (le_value (le_bytes (S n) z)) with (z mod 256 + 256 * le_value (le_bytes n (z / 256)))%Z.
  rewrite IH.
  - pose proof (Z.div_mod z 256 ltac:(lia)). lia.
  - rewrite Nat2Z.inj_succ, Z.pow_succ_r in Hz by lia. split; [apply Z.div_pos; lia|].
    apply Z.div_lt_upper_bound; lia.
Qed.

(** Reading what was written at an offset. *)
Lemma read_le_app n pre z post :
  (0 ≤ z < 256 ^ Z.of_nat n)%Z →
  read_le n (pre ++ le_bytes n z ++ post) (length pre) = Some z.
Proof.
  intros Hz. unfold read_le.
  rewrite decide_True by (rewrite !length_app, length_le_bytes; lia).
  rewrite drop_app_length, take_app_length'; [by rewrite le_value_bytes|symmetry; apply length_le_bytes].
Qed.

Lemma read_bytes_app pre s post : read_bytes (length s) (pre ++ s ++ post) (length pre) = Some s.
Proof.
  unfold read_bytes. rewrite decide_True by (rewrite !length_app; lia).
  by rewrite drop_app_length, take_app_length.
Qed.

(** The same, for a buffer and an offset given up to equality. *)
Lemma read_le_at n buf offset pre z post :
  buf = pre ++ le_bytes n z ++ post → offset = length pre → (0 ≤ z < 256 ^ Z.of_nat n)%Z →
  read_le n buf offset = Some z.
Proof. intros -> -> ?. by apply read_le_app. Qed.

Lemma read_bytes_at len buf offset pre s post :
  buf = pre ++ s ++ post → offset = length pre → len = length s → read_bytes len buf offset = Some s.
Proof. intros -> -> ->. apply read_bytes_app. Qed.
