(* ===== verification/CcProtocol.v ===== *)
(** * Concurrency-control vocabulary

    The enumerations of [include/cc_protocol.h], [include/type.h],
    [include/tx_record.h] and [include/error_messages.h] the other files use,
    the transaction identifiers of [include/tx_id.h], and the lock type an
    operation needs ([LockTypeUtil::DeduceLockType] and
    [TransactionExecution::DeduceReadLockType]). *)

From S2P Require Import Prelude.

Inductive CcProtocol := OCC | OccRead | Locking.
Inductive CcOperation := Read | ReadForWrite | Write | ReadSkIndex.
Inductive IsolationLevel := ReadCommitted | Snapshot | RepeatableRead | Serializable.
Inductive LockType := NoLock | ReadIntent | ReadLock | WriteIntent | WriteLock.
Inductive LockOpStatus := Successful | Failed | Blocked.

Inductive TableType :=
  | Primary | Secondary | UniqueSecondary
  | Catalog | RangePartition | RangeBucket | ClusterConfig.

Inductive RecordStatus :=
  | Normal | Unknown | Deleted | RemoteUnknown | VersionUnknown
  | BaseVersionMiss | ArchiveVersionMiss | Invalid | NonExistent | Uncreated.

Inductive CcErrorCode :=
  | NO_ERROR | UNDEFINED_ERR | FORCE_FAIL | REQUESTED_NODE_NOT_LEADER
  | REQUESTED_TABLE_NOT_EXISTS | REQUESTED_INDEX_TABLE_NOT_EXISTS
  | REQUESTED_TABLE_SCHEMA_MISMATCH | NG_TERM_CHANGED
  | ACQUIRE_LOCK_BLOCKED | ACQUIRE_KEY_LOCK_FAILED_FOR_RW_CONFLICT
  | ACQUIRE_KEY_LOCK_FAILED_FOR_WW_CONFLICT | ACQUIRE_GAP_LOCK_FAILED
  | MVCC_READ_MUST_WAIT_WRITE | MVCC_READ_FOR_WRITE_CONFLICT
  | TX_NODE_NOT_LEADER | NEGOTIATED_TX_UNKNOWN | NEGOTIATE_TX_ERR
  | CRATE_CCM_SCANNER_FAILED | DUPLICATE_INSERT_ERR
  | VALIDATION_FAILED_FOR_VERSION_MISMATCH | VALIDATION_FAILED_FOR_CONFILICTED_TXS
  | GET_RANGE_ID_ERR | PIN_RANGE_SLICE_FAILED | DATA_STORE_ERR
  | LOG_CLOSURE_RESULT_UNKNOWN_ERR | WRITE_LOG_FAILED
  | DUPLICATE_MIGRATION_TX_ERR | DUPLICATE_CLUSTER_SCALE_TX_ERR
  | DEAD_LOCK_ABORT | REQUEST_LOST | OUT_OF_MEMORY
  | ACQUIRE_LEADER_TERM_ERR | ESTABLISH_NODE_CHANNEL_FAILED
  | PACK_SK_ERR | UNIQUE_CONSTRAINT | SYSTEM_HANDLER_ERR
  | DATA_NOT_ON_LOCAL_NODE | TASK_EXPIRED | LOG_NOT_TRUNCATABLE
  | UPLOAD_BATCH_REJECTED | READ_CATALOG_FAIL | READ_CATALOG_CONFLICT
  | LAST_ERROR_CODE.

(** The results of the operations on the slices of a range. *)
Inductive RangeSliceOpStatus :=
  | Slice_Successful | BlockedOnLoad | Slice_Retry | Delay | NotOwner | KeyNotExists | NotPinned | Slice_Error.

#[export] Instance RangeSliceOpStatus_eq_dec : EqDecision RangeSliceOpStatus.
Proof. solve_decision. Defined.
#[export] Instance CcProtocol_eq_dec : EqDecision CcProtocol.
Proof. solve_decision. Defined.
#[export] Instance CcOperation_eq_dec : EqDecision CcOperation.
Proof. solve_decision. Defined.
#[export] Instance IsolationLevel_eq_dec : EqDecision IsolationLevel.
Proof. solve_decision. Defined.
#[export] Instance LockType_eq_dec : EqDecision LockType.
Proof. solve_decision. Defined.
#[export] Instance LockOpStatus_eq_dec : EqDecision LockOpStatus.
Proof. solve_decision. Defined.
#[export] Instance TableType_eq_dec : EqDecision TableType.
Proof. solve_decision. Defined.
#[export] Instance RecordStatus_eq_dec : EqDecision RecordStatus.
Proof. solve_decision. Defined.
#[export] Instance CcErrorCode_eq_dec : EqDecision CcErrorCode.
Proof. solve_decision. Defined.

(** ** Lock types *)

(** [LockTypeUtil::DeduceLockType]. The code after the last branch of the C++
    function is unreachable for the four operations. *)
Definition DeduceLockType (cc_op : CcOperation) (iso_level : IsolationLevel)
    (cc_protocol : CcProtocol) (is_covering_keys : bool) : LockType :=
  match cc_op with
  | ReadSkIndex =>
      match iso_level with
      | Snapshot => NoLock
      | ReadCommitted => if is_covering_keys then NoLock else ReadLock
      | _ => ReadLock
      end
  | ReadForWrite => WriteIntent
  | Write => WriteLock
  | Read =>
      match iso_level with
      | ReadCommitted | Snapshot => NoLock
      | RepeatableRead | Serializable =>
          if decide (cc_protocol = Locking) then ReadLock else ReadIntent
      end
  end.

(** [TransactionExecution::DeduceReadLockType]; [protocol_] is the member of
    the transaction state machine. *)
Definition DeduceReadLockType (protocol_ : CcProtocol) (tbl_type : TableType)
    (read_for_write : bool) (iso_level : IsolationLevel)
    (is_covering_key : bool) (rec_status : RecordStatus) : LockType :=
  if bool_decide (rec_status = Deleted) && negb read_for_write then NoLock
  else
    let cc_op :=
      if read_for_write then ReadForWrite
      else if bool_decide (tbl_type = Secondary) ||
              bool_decide (tbl_type = UniqueSecondary) then ReadSkIndex
      else Read in
    DeduceLockType cc_op iso_level protocol_ is_covering_key.

(** [TableName::IsMeta]. *)
Definition IsMeta (type : TableType) : bool :=
  match type with
  | RangeBucket | Catalog | RangePartition | ClusterConfig => true
  | _ => false
  end.

(** The numeric value of a [LockType], which orders the modes by strength. *)
Definition lock_rank (t : LockType) : nat :=
  match t with
  | NoLock => 0 | ReadIntent => 1 | ReadLock => 2 | WriteIntent => 3 | WriteLock => 4
  end.

(** ** Transaction identifiers *)

Record TxId := mkTxId {
  global_core_id_ : Z;
  ident_ : Z;
  vec_idx_ : Z;
}.

(** [TxId(uint32_t global_core_id = UINT32_MAX)]. *)
Definition TxId_default : TxId := mkTxId UINT32_MAX 0 0.

Definition TxId_eq (a b : TxId) : bool :=
  bool_decide (global_core_id_ a = global_core_id_ b) &&
  bool_decide (ident_ a = ident_ b).

Definition TxId_Empty (a : TxId) : bool :=
  bool_decide (global_core_id_ a = UINT32_MAX).

(** [uint64_t tid = global_core_id_; return (tid << 32L) | ident_;] *)
Definition TxNumber (a : TxId) : Z :=
  Z.lor (u64 (Z.shiftl (global_core_id_ a) 32)) (ident_ a).

(** The lower ten bits of a global core id are the local core. *)
Definition GetNodeId (a : TxId) : Z := Z.shiftr (global_core_id_ a) 10.

(** [uint32_t identity = tx_number & 0xFFFFFFFF] of [CcShard::LocateTx]. *)
Definition TxNumber_identity (tx_number : Z) : Z := Z.land tx_number (2 ^ 32 - 1).

(** [uint32_t txn_node_group = lock_holding_txn >> 42L] of
    [CcShard::CheckRecoverTx]. *)
Definition TxNumber_node_group (txn : Z) : Z := u32 (Z.shiftr txn 42).

Definition txid_wf (a : TxId) : Prop :=
  is_u32 (global_core_id_ a) ∧ is_u32 (ident_ a) ∧ is_u32 (vec_idx_ a).

(** The packed number is the sum of its two halves. *)
Lemma TxNumber_arith a :
  txid_wf a → TxNumber a = (global_core_id_ a * 2 ^ 32 + ident_ a)%Z.
Proof.
  intros (Hg & Hi & _). unfold is_u32 in *. unfold TxNumber, u64.
  rewrite Z.shiftl_mul_pow2 by lia. rewrite Z.mod_small by lia.
  rewrite <-Z.add_lor_land.
  enough (Z.land (global_core_id_ a * 2 ^ 32) (ident_ a) = 0)%Z by lia.
  apply Z.bits_inj'. intros n Hn. rewrite Z.land_spec, Z.bits_0.
  destruct (decide (n < 32)%Z).
  - rewrite Z.mul_pow2_bits_low by lia. done.
  - rewrite (Z.bits_above_log2 (ident_ a)); [by rewrite andb_false_r|lia|].
    destruct (decide (ident_ a = 0)%Z) as [->|]; [cbn; lia|].
    apply Z.log2_lt_pow2; [lia|].
    apply Z.lt_le_trans with (2 ^ 32)%Z; [lia|]. apply Z.pow_le_mono_r; lia.
Qed.

(**  the packing of a transaction id into a [TxNumber] loses nothing: the
    number fits in 64 bits, its low half is the identity [LocateTx] extracts,
    its bits above 42 are the node id [CheckRecoverTx] extracts, and two ids
    have the same number exactly when [operator==] holds of them. *)
Theorem TxNumber_roundtrip a b :
  txid_wf a → txid_wf b →
  is_u64 (TxNumber a) ∧
  TxNumber_identity (TxNumber a) = ident_ a ∧
  TxNumber_node_group (TxNumber a) = GetNodeId a ∧
  (TxNumber a = TxNumber b ↔ TxId_eq a b = true).
Proof.
  intros Ha Hb. unfold TxNumber_identity, TxNumber_node_group, GetNodeId, TxId_eq.
  rewrite !TxNumber_arith by done.
  destruct Ha as (Hg & Hi & _), Hb as (Hg' & Hi' & _). unfold is_u32, is_u64 in *.
  split; [lia|]. split; [|split].
  - change (2 ^ 32 - 1)%Z with (Z.ones 32). rewrite Z.land_ones by lia.
    rewrite Z.add_comm, Z.mod_add by lia. apply Z.mod_small. lia.
  - unfold u32. rewrite !Z.shiftr_div_pow2 by lia.
    rewrite Z.mod_small by (split; [apply Z.div_pos; lia|apply Z.div_lt_upper_bound; lia]).
    change (2 ^ 42)%Z with (2 ^ 32 * 2 ^ 10)%Z. rewrite <-Z.div_div by lia.
    rewrite Z.add_comm, Z.div_add by lia. by rewrite (Z.div_small (ident_ a)) by lia.
  - rewrite andb_true_iff, !bool_decide_eq_true. lia.
Qed.

Lemma TxNumber_roundtrip_witness :
  let a := mkTxId 5123 77 3 in
  TxNumber a = 22003117457485%Z ∧ TxNumber_identity (TxNumber a) = 77%Z ∧
  TxNumber_node_group (TxNumber a) = 5%Z.
Proof.
  cbn zeta. destruct (TxNumber_roundtrip (mkTxId 5123 77 3) (mkTxId 5123 77 3))
    as (? & Hi & Hg & _); [done..|]. split; [reflexivity|].
  split; [exact Hi|]. rewrite Hg. reflexivity.
Defined.

(** The lock type deduced for an operation protects it as its isolation level
    requires: writes take an exclusive mode; at [RepeatableRead] and above no
    operation goes unprotected and under [Locking] every read is blocking; a
    snapshot read takes no lock at all; and only an optimistic protocol uses
    read intents. *)
Theorem DeduceLockType_protects op iso proto covering :
  let t := DeduceLockType op iso proto covering in
  (op = Write → t = WriteLock) ∧
  (op = ReadForWrite → t = WriteIntent) ∧
  (iso = RepeatableRead ∨ iso = Serializable → t ≠ NoLock) ∧
  (iso = RepeatableRead ∨ iso = Serializable → proto = Locking →
     lock_rank ReadLock ≤ lock_rank t) ∧
  (iso = Snapshot → op = Read ∨ op = ReadSkIndex → t = NoLock) ∧
  (t = ReadIntent → proto ≠ Locking ∧ op = Read).
Proof.
  destruct op, iso, proto, covering; cbn; repeat split; intros;
    repeat match goal with H : _ ∨ _ |- _ => destruct H end; try done; lia.
Qed.

(** A secondary-index read takes a blocking read lock even under [OCC]. *)
Lemma DeduceLockType_occ_read_lock covering :
  DeduceLockType ReadSkIndex RepeatableRead OCC covering = ReadLock.
Proof. reflexivity. Qed.
