(* ===== verification/TableName.v ===== *)
(** * Table names ([include/type.h], [include/constants.h])

    A table name carries a type and an engine.  The name of an index table is
    the base table's name followed by a marker and the index name, so type and
    base table are read off the string.  Table names key the maps of the system,
    hence equality and order.  [AlterTableInfo] lists the index tables a schema
    change adds and drops and is logged as a byte string.

    Whether a name owns its string is a matter of memory management and is left
    out.  The unordered maps of [AlterTableInfo] are lists in iteration order. *)

From S2P Require Import Prelude Bytes CcProtocol.

Inductive TableEngine := Engine_None | EloqSql | EloqKv | EloqDoc.

#[export] Instance TableEngine_eq_dec : EqDecision TableEngine.
Proof. solve_decision. Defined.

Definition engine_code (e : TableEngine) : Z :=
  match e with Engine_None => 0 | EloqSql => 1 | EloqKv => 2 | EloqDoc => 3 end.

Definition type_code (t : TableType) : Z :=
  match t with
  | Primary => 0 | Secondary => 1 | UniqueSecondary => 2 | Catalog => 3
  | RangePartition => 4 | RangeBucket => 5 | ClusterConfig => 6
  end.

Record TableName := mkTableName {
  tn_name : bytes;
  tn_type : TableType;
  tn_engine : TableEngine;
}.

#[export] Instance TableName_eq_dec : EqDecision TableName.
Proof. solve_decision. Defined.

(** [operator==]. *)
Definition TableName_eqb (a b : TableName) : bool :=
  bool_decide (tn_type a = tn_type b) && bool_decide (tn_name a = tn_name b) &&
  bool_decide (tn_engine a = tn_engine b).

(** [std::string_view::operator<]: lexicographic on unsigned bytes. *)
Fixpoint bytes_ltb (a b : bytes) : bool :=
  match a, b with
  | _, [] => false
  | [], _ :: _ => true
  | x :: a, y :: b =>
      if decide (x < y)%Z then true else if decide (y < x)%Z then false else bytes_ltb a b
  end.

(** [operator<]. *)
Definition TableName_ltb (a b : TableName) : bool :=
  bool_decide (engine_code (tn_engine a) < engine_code (tn_engine b))%Z ||
  (bool_decide (tn_engine a = tn_engine b) &&
   (bool_decide (type_code (tn_type a) < type_code (tn_type b))%Z ||
    (bool_decide (tn_type a = tn_type b) && bytes_ltb (tn_name a) (tn_name b)))).

(** ** Names of index tables *)

(** ["*$$"] and ["*~~"]. *)
Definition INDEX_NAME_PREFIX : bytes := [42; 36; 36]%Z.
Definition UNIQUE_INDEX_NAME_PREFIX : bytes := [42; 126; 126]%Z.

(** [std::string_view::find]: the first position of [pat]. *)
Fixpoint find_sub (pat s : bytes) : option nat :=
  if decide (pat `prefix_of` s) then Some 0
  else match s with
       | [] => None
       | _ :: s => S <$> find_sub pat s
       end.

Definition IsBase (s : bytes) : bool :=
  match find_sub INDEX_NAME_PREFIX s with
  | Some _ => false
  | None => match find_sub UNIQUE_INDEX_NAME_PREFIX s with Some _ => false | None => true end
  end.

Definition IsUniqueSecondary (s : bytes) : bool :=
  match find_sub UNIQUE_INDEX_NAME_PREFIX s with Some _ => true | None => false end.

Definition TableName_Type (s : bytes) : TableType :=
  if IsBase s then Primary else if IsUniqueSecondary s then UniqueSecondary else Secondary.

Definition GetBaseTableNameSV (s : bytes) : bytes :=
  match find_sub INDEX_NAME_PREFIX s with
  | Some pos => take pos s
  | None =>
      match find_sub UNIQUE_INDEX_NAME_PREFIX s with
      | Some pos => take pos s
      | None => s
      end
  end.

(** [Serialize]: the name and the engine byte. *)
Definition TableName_Serialize (t : TableName) : bytes := tn_name t ++ [engine_code (tn_engine t)].

(** ** [AlterTableInfo] *)

Record AlterTableInfo := mkAlter {
  index_add_count_ : Z;
  index_drop_count_ : Z;
  index_add_names_ : list (TableName * bytes);
  index_drop_names_ : list (TableName * bytes);
}.

Definition SPACE : Z := 32.

(** The names of one map: index table and kv table, each followed by a space. *)
Definition index_names (l : list (TableName * bytes)) : bytes :=
  l ≫= λ x, tn_name x.1 ++ [SPACE] ++ x.2 ++ [SPACE].

Definition SerializeAlteredTableInfo (a : AlterTableInfo) : bytes :=
  if bool_decide (index_add_count_ a = 0%Z) && bool_decide (index_drop_count_ a = 0%Z) then []
  else
    let add_index_name := index_names (index_add_names_ a) in
    let drop_index_name := index_names (index_drop_names_ a) in
    le_bytes 1 (index_add_count_ a) ++ le_bytes 8 (Z.of_nat (length add_index_name)) ++ add_index_name ++
    le_bytes 1 (index_drop_count_ a) ++ le_bytes 8 (Z.of_nat (length drop_index_name)) ++ drop_index_name.

(** [std::isspace] in the C locale. *)
Definition is_space (b : Z) : bool := bool_decide (b = 32)%Z || bool_decide (9 <= b <= 13)%Z.

(** The words an [istream_iterator<std::string>] yields; [w] is the word read so
    far. *)
Fixpoint words_from (w : bytes) (s : bytes) : list bytes :=
  let flush := match w with [] => [] | _ => [w] end in
  match s with
  | [] => flush
  | b :: s => if is_space b then flush ++ words_from [] s else words_from (w ++ [b]) s
  end.

(** The pairs of the token loop; [None] where it reads past the last token.
    [emplace] keeps the first of two equal names. *)
Fixpoint read_pairs (engine : TableEngine) (tokens : list bytes) (acc : list (TableName * bytes))
    : option (list (TableName * bytes)) :=
  match tokens with
  | [] => Some acc
  | [_] => None
  | name :: kv :: rest =>
      let t := mkTableName name (TableName_Type name) engine in
      read_pairs engine rest (if decide (t ∈ acc.*1) then acc else acc ++ [(t, kv)])
  end.

(** The count, the names and the offset after them. *)
Definition read_index_names (engine : TableEngine) (buf : bytes) (offset : nat)
    : option (Z * list (TableName * bytes) * nat) :=
  count ← read_le 1 buf offset;
  len ← read_le 8 buf (offset + 1);
  names ← read_bytes (Z.to_nat len) buf (offset + 9);
  l ← (if decide (0 < count)%Z then read_pairs engine (words_from [] names) [] else Some []);
  Some (count, l, offset + 9 + Z.to_nat len).

(** The maps are left as they are when the image is empty. *)
Definition DeserializeAlteredTableInfo (a : AlterTableInfo) (image : bytes) (engine : TableEngine)
    : option AlterTableInfo :=
  if decide (image = []) then Some (mkAlter 0 0 (index_add_names_ a) (index_drop_names_ a))
  else
    r ← read_index_names engine image 0;
    let '(add_count, add, offset) := r in
    r2 ← read_index_names engine image offset;
    let '(drop_count, drop, _) := r2 in
    Some (mkAlter add_count drop_count add drop).

(** ** Order *)

Lemma bytes_ltb_irrefl a : bytes_ltb a a = false.
Proof. induction a as [|x a IH]; cbn; [done|]. by rewrite !decide_False by lia. Qed.

Lemma bytes_ltb_trans a b c : bytes_ltb a b = true → bytes_ltb b c = true → bytes_ltb a c = true.
Proof.
  revert b c. induction a as [|x a IH]; intros [|y b] [|z c]; cbn; try done.
  repeat case_decide; try done; try lia. apply IH.
Qed.

Lemma bytes_ltb_total a b : a ≠ b → bytes_ltb a b = true ∨ bytes_ltb b a = true.
Proof.
  revert b. induction a as [|x a IH]; intros [|y b] Hne; cbn; try done; auto.
  repeat case_decide; auto; try lia. assert (x = y) as -> by lia. apply IH. congruence.
Qed.

Lemma engine_code_inj a b : engine_code a = engine_code b → a = b.
Proof. by destruct a, b. Qed.
Lemma type_code_inj a b : type_code a = type_code b → a = b.
Proof. by destruct a, b. Qed.

Lemma TableName_ltb_spec a b :
  TableName_ltb a b = true ↔
  (engine_code (tn_engine a) < engine_code (tn_engine b))%Z ∨
  tn_engine a = tn_engine b ∧
  ((type_code (tn_type a) < type_code (tn_type b))%Z ∨
   tn_type a = tn_type b ∧ bytes_ltb (tn_name a) (tn_name b) = true).
Proof.
  unfold TableName_ltb.
  by rewrite !orb_true_iff, !andb_true_iff, !orb_true_iff, !andb_true_iff, !bool_decide_eq_true.
Qed.

(** Table names are strictly and totally ordered, so that they can key an ordered
    map. *)
Lemma TableName_order :
  (∀ a, TableName_ltb a a = false) ∧
  (∀ a b c, TableName_ltb a b = true → TableName_ltb b c = true → TableName_ltb a c = true) ∧
  (∀ a b, TableName_eqb a b = false → TableName_ltb a b = true ∨ TableName_ltb b a = true).
Proof.
  split_and!.
  - intros a. apply not_true_iff_false. rewrite TableName_ltb_spec, bytes_ltb_irrefl. lia.
  - intros a b c. rewrite !TableName_ltb_spec.
    intros [H1|[E1 [H1|[T1 H1]]]] [H2|[E2 [H2|[T2 H2]]]]; rewrite ?E1, ?E2 in *; rewrite ?T1, ?T2 in *;
      try (left; lia); right; (split; [done|]); try (left; lia).
    right. split; [done|]. by eapply bytes_ltb_trans.
  - intros [n1 t1 e1] [n2 t2 e2] Hne. rewrite !TableName_ltb_spec. cbn.
    destruct (decide (engine_code e1 = engine_code e2)) as [He%engine_code_inj|]; [|lia].
    destruct (decide (type_code t1 = type_code t2)) as [Ht%type_code_inj|].
    + subst. destruct (bytes_ltb_total n1 n2) as [?|?]; [|tauto..]. intros ->.
      unfold TableName_eqb in Hne. cbn in Hne. by rewrite !bool_decide_eq_true_2 in Hne by done.
    + subst. destruct (Z.lt_ge_cases (type_code t1) (type_code t2)); [tauto|].
      right. right. split; [done|]. left. lia.
Qed.

(** ** Index names *)

(** A marker whose first byte does not occur again cannot straddle the border. *)
Lemma find_sub_border a b base rest :
  a ≠ b → find_sub [a; b; b] base = None →
  find_sub [a; b; b] (base ++ [a; b; b] ++ rest) = Some (length base).
Proof.
  intros Hab. induction base as [|x base IH]; intros Hn.
  - cbn. rewrite decide_True; [done|]. by exists rest.
  - cbn [find_sub app] in *. destruct (decide ([a; b; b] `prefix_of` x :: base)) as [|Hp]; [done|].
    destruct (find_sub [a; b; b] base) eqn:E; [done|]. rewrite decide_False.
    + cbn. by rewrite IH.
    + intros [k Hk]. cbn in Hk. injection Hk as -> Hk. apply Hp.
      destruct base as [|y [|z base]]; cbn in Hk; [congruence| |].
      * injection Hk as ? ?. congruence.
      * injection Hk as -> -> _. by exists base.
Qed.

Lemma find_sub_app_None pat base k : find_sub pat (base ++ k) = None → pat ≠ [] → find_sub pat base = None.
Proof.
  induction base as [|x base IH]; cbn; intros Hn Hp.
  - rewrite decide_False; [done|]. by intros ->%prefix_nil_inv.
  - destruct (decide (pat `prefix_of` x :: base ++ k)) as [|Hk]; [done|].
    rewrite decide_False; [|intros Hp1; apply Hk; by apply (prefix_app_r pat (x :: base))].
    destruct (find_sub pat (base ++ k)) eqn:E; [done|]. by rewrite IH.
Qed.

(** The type and the base table of an index are recovered from its name. *)
Lemma index_name_parsed base idx :
  IsBase base = true →
  GetBaseTableNameSV (base ++ INDEX_NAME_PREFIX ++ idx) = base ∧
  IsBase (base ++ INDEX_NAME_PREFIX ++ idx) = false ∧
  (find_sub INDEX_NAME_PREFIX (base ++ UNIQUE_INDEX_NAME_PREFIX ++ idx) = None →
   GetBaseTableNameSV (base ++ UNIQUE_INDEX_NAME_PREFIX ++ idx) = base ∧
   TableName_Type (base ++ UNIQUE_INDEX_NAME_PREFIX ++ idx) = UniqueSecondary).
Proof.
  unfold IsBase, GetBaseTableNameSV, TableName_Type, IsBase, IsUniqueSecondary.
  destruct (find_sub INDEX_NAME_PREFIX base) eqn:E1; [done|].
  destruct (find_sub UNIQUE_INDEX_NAME_PREFIX base) eqn:E2; [done|]. intros _.
  unfold INDEX_NAME_PREFIX, UNIQUE_INDEX_NAME_PREFIX in *.
  rewrite !(find_sub_border 42 36) by done. rewrite take_app_length. split_and!; [done..|].
  intros ->. rewrite !(find_sub_border 42 126) by done. by rewrite take_app_length.
Qed.

(** ** The logged schema change *)

Definition is_word (w : bytes) : Prop := w ≠ [] ∧ Forall (λ b, is_space b = false) w.

Lemma words_from_word w s rest :
  Forall (λ b, is_space b = false) s → w ++ s ≠ [] →
  words_from w (s ++ SPACE :: rest) = (w ++ s) :: words_from [] rest.
Proof.
  revert w. induction s as [|b s IH]; intros w Hs Hne; cbn.
  - rewrite app_nil_r in *. by destruct w.
  - inversion Hs as [|? ? Hb Hs']; subst. rewrite Hb. rewrite IH; [|done|by destruct w].
    by rewrite <-app_assoc.
Qed.

Lemma words_index_names l :
  Forall (λ x, is_word (tn_name x.1) ∧ is_word x.2) l →
  words_from [] (index_names l) = l ≫= λ x, [tn_name x.1; x.2].
Proof.
  induction 1 as [|x l [[Hn Hnw] [Hk Hkw]] Hl IH]; [done|].
  assert (index_names (x :: l) = tn_name x.1 ++ SPACE :: x.2 ++ SPACE :: index_names l) as ->.
  { unfold index_names. by rewrite bind_cons, <-!app_assoc. }
  rewrite words_from_word, words_from_word by done. by rewrite IH.
Qed.

Lemma read_pairs_words engine l acc :
  Forall (λ x, tn_type x.1 = TableName_Type (tn_name x.1) ∧ tn_engine x.1 = engine) l →
  NoDup (acc.*1 ++ l.*1) →
  read_pairs engine (l ≫= λ x, [tn_name x.1; x.2]) acc = Some (acc ++ l).
Proof.
  intros Hl. revert acc. induction Hl as [|[[n t e] kv] l [Ht He] Hl IH]; intros acc Hnd.
  - by rewrite app_nil_r.
  - cbn in Ht, He. subst t e. rewrite bind_cons. cbn [app].
    change (read_pairs engine (n :: kv :: (l ≫= λ x, [tn_name x.1; x.2])) acc = Some (acc ++ (mkTableName n (TableName_Type n) engine, kv) :: l)).
    cbn [read_pairs]. rewrite decide_False.
    + rewrite IH; [by rewrite <-app_assoc|]. rewrite fmap_app, <-app_assoc. done.
    + apply NoDup_app in Hnd as (_ & Hd & _). intros Hin. apply (Hd _ Hin). cbn. left.
Qed.

Lemma read_index_names_spec engine pre count l post :
  (0 ≤ count < 256)%Z → (count = 0%Z → l = []) →
  (Z.of_nat (length (index_names l)) < 2 ^ 64)%Z →
  Forall (λ x, is_word (tn_name x.1) ∧ is_word x.2) l →
  Forall (λ x, tn_type x.1 = TableName_Type (tn_name x.1) ∧ tn_engine x.1 = engine) l →
  NoDup (l.*1) →
  let block := le_bytes 1 count ++ le_bytes 8 (Z.of_nat (length (index_names l))) ++ index_names l in
  read_index_names engine (pre ++ block ++ post) (length pre) =
    Some (count, l, length pre + length block).
Proof.
  intros Hc H0 Hlen Hw Ht Hnd. cbv zeta. unfold read_index_names.
  set (names := index_names l) in *. set (len := le_bytes 8 (Z.of_nat (length names))).
  rewrite (read_le_at 1 _ _ pre count (len ++ names ++ post)); [|by rewrite <-!app_assoc|done|done].
  cbn [mbind option_bind].
  rewrite (read_le_at 8 _ _ (pre ++ le_bytes 1 count) (Z.of_nat (length names)) (names ++ post));
    [|by rewrite <-!app_assoc|by rewrite length_app, length_le_bytes|lia].
  cbn [mbind option_bind].
  rewrite (read_bytes_at _ _ _ (pre ++ le_bytes 1 count ++ len) names post);
    [|by rewrite <-!app_assoc|rewrite !length_app, length_le_bytes; unfold len; rewrite length_le_bytes; lia|lia].
  cbn [mbind option_bind]. subst names len.
  rewrite words_index_names, (read_pairs_words engine l []) by done.
  rewrite !length_app, !length_le_bytes.
  destruct (decide (0 < count)%Z); cbn [mbind option_bind].
  - do 2 f_equal. lia.
  - rewrite H0 by lia. cbn. do 2 f_equal; lia.
Qed.

Record alter_ok (engine : TableEngine) (a : AlterTableInfo) : Prop := {
  ao_add : index_add_count_ a = Z.of_nat (length (index_add_names_ a));
  ao_drop : index_drop_count_ a = Z.of_nat (length (index_drop_names_ a));
  ao_counts : (index_add_count_ a < 256 ∧ index_drop_count_ a < 256)%Z;
  ao_len : (Z.of_nat (length (index_names (index_add_names_ a))) < 2 ^ 64 ∧
            Z.of_nat (length (index_names (index_drop_names_ a))) < 2 ^ 64)%Z;
  ao_words : Forall (λ x, is_word (tn_name x.1) ∧ is_word x.2) (index_add_names_ a ++ index_drop_names_ a);
  ao_names : Forall (λ x, tn_type x.1 = TableName_Type (tn_name x.1) ∧ tn_engine x.1 = engine)
    (index_add_names_ a ++ index_drop_names_ a);
  ao_nodup : NoDup (index_add_names_ a).*1 ∧ NoDup (index_drop_names_ a).*1;
}.

(**  A schema change read back from the log is the one that was written: the
    index tables added and dropped, with their kv tables, types and engine, in
    order. The names must be words, as the format separates them by spaces. *)
Theorem AlterTableInfo_roundtrip engine a a0 :
  alter_ok engine a → index_add_names_ a0 = [] → index_drop_names_ a0 = [] →
  DeserializeAlteredTableInfo a0 (SerializeAlteredTableInfo a) engine = Some a.
Proof.
  intros [Ha Hd [Hc1 Hc2] [Hl1 Hl2] Hw Hn [Hn1 Hn2]] He1 He2.
  apply Forall_app in Hw as [Hw1 Hw2]. apply Forall_app in Hn as [Ht1 Ht2].
  unfold SerializeAlteredTableInfo, DeserializeAlteredTableInfo.
  destruct a as [ca cd add drop]. cbn [index_add_count_ index_drop_count_ index_add_names_ index_drop_names_] in *.
  destruct (bool_decide (ca = 0%Z) && bool_decide (cd = 0%Z)) eqn:E.
  - bool_to_prop. rewrite decide_True, He1, He2 by done.
    destruct add, drop; cbn in *; try lia. by subst.
  - rewrite decide_False by done.
    pose proof (read_index_names_spec engine [] ca add
      (le_bytes 1 cd ++ le_bytes 8 (Z.of_nat (length (index_names drop))) ++ index_names drop)) as R1.
    cbn [app length] in R1. rewrite <-!app_assoc in R1. rewrite R1; [|lia| |done..].
    2: { intros ->. by destruct add. }
    cbn [mbind option_bind].
    pose proof (read_index_names_spec engine
      (le_bytes 1 ca ++ le_bytes 8 (Z.of_nat (length (index_names add))) ++ index_names add) cd drop []) as R2.
    cbv zeta in R2. rewrite app_nil_r, <-!app_assoc in R2. rewrite Nat.add_0_l.
    rewrite R2; [done|lia| |done..]. intros ->. by destruct drop.
Qed.

(** Adding ["t*$$i"], stored as ["k1"], and dropping ["t*~~u"], stored as ["k2"]. *)
Definition sample_alter : AlterTableInfo :=
  mkAlter 1 1
    [(mkTableName [116; 42; 36; 36; 105]%Z Secondary EloqSql, [107; 49]%Z)]
    [(mkTableName [116; 42; 126; 126; 117]%Z UniqueSecondary EloqSql, [107; 50]%Z)].

Lemma AlterTableInfo_roundtrip_witness :
  DeserializeAlteredTableInfo (mkAlter 0 0 [] []) (SerializeAlteredTableInfo sample_alter) EloqSql =
    Some sample_alter.
Proof.
  apply (AlterTableInfo_roundtrip EloqSql sample_alter (mkAlter 0 0 [] [])); [|reflexivity..].
  split; cbn.
  - reflexivity.
  - reflexivity.
  - lia.
  - lia.
  - repeat constructor; discriminate.
  - repeat constructor.
  - split; apply NoDup_singleton.
Defined.

#[export] Instance TableType_countable : Countable TableType.
Proof.
  refine (inj_countable' type_code
    (λ z, if decide (z = 0)%Z then Primary else if decide (z = 1)%Z then Secondary
          else if decide (z = 2)%Z then UniqueSecondary else if decide (z = 3)%Z then Catalog
          else if decide (z = 4)%Z then RangePartition else if decide (z = 5)%Z then RangeBucket
          else ClusterConfig) _).
  by intros [].
Defined.

#[export] Instance TableEngine_countable : Countable TableEngine.
Proof.
  refine (inj_countable' engine_code
    (λ z, if decide (z = 0)%Z then Engine_None else if decide (z = 1)%Z then EloqSql
          else if decide (z = 2)%Z then EloqKv else EloqDoc) _).
  by intros [].
Defined.

#[export] Instance TableName_countable : Countable TableName.
Proof.
  refine (inj_countable' (λ t, (tn_name t, tn_type t, tn_engine t)) (λ x, mkTableName x.1.1 x.1.2 x.2) _).
  by intros [].
Defined.

(** [catalog_ccm_name] and [cluster_config_ccm_name]: ["__catalog"] and
    ["__cluster_config"]. *)
Definition catalog_ccm_name : TableName :=
  mkTableName [95; 95; 99; 97; 116; 97; 108; 111; 103]%Z Catalog Engine_None.
Definition cluster_config_ccm_name : TableName :=
  mkTableName [95; 95; 99; 108; 117; 115; 116; 101; 114; 95; 99; 111; 110; 102; 105; 103]%Z
    ClusterConfig Engine_None.
