(* ===== verification/Ownership.v ===== *)
(** * Objects with one owner

    Several classes hold a pointer that they own or only refer to, and say which with a flag
    (the tag bit of [TxKey], [is_owner_] of [RangeBucketRecord], [is_config_owner_] of
    [ClusterConfigRecord]).  [held_once] says that every live object has exactly one owner:
    one of these handles, or a [std::unique_ptr] somewhere else; an object without an owner
    would never be freed, and one with two would be freed twice.  The lemmas are the ways in
    which ownership changes. *)

From S2P Require Import Prelude.

(** [delete]; freeing an object that is not alive is undefined. *)
Definition Delete (h : gset Z) (a : Z) : option (gset Z) := if decide (a ∈ h) then Some (h ∖ {[a]}) else None.

(** The destructor or the assignment of a [std::unique_ptr] that holds [p]. *)
Definition delete_held (h : gset Z) (p : option Z) : option (gset Z) := match p with Some a => Delete h a | None => Some h end.

(** [h] are the live objects, [u] those held by unique pointers elsewhere, and [own] what
    a handle owns. *)
Record held_once (h u : gset Z) (own : Z → option Z) : Prop := {
  ho_uniq a : a ∈ u → a ∈ h;
  ho_live a x : own x = Some a → a ∈ h ∧ a ∉ u;
  ho_once a x y : own x = Some a → own y = Some a → x = y;
  ho_leak a : a ∈ h → a ∈ u ∨ ∃ x, own x = Some a;
}.

Definition set_own (own : Z → option Z) (x : Z) (o : option Z) : Z → option Z := λ y, if decide (x = y) then o else own y.

Section held.
Implicit Types (h u : gset Z) (own : Z → option Z).

Lemma held_ext h u own own' : held_once h u own → (∀ x, own' x = own x) → held_once h u own'.
Proof. intros [H1 H2 H3 H4] E. split; setoid_rewrite E || idtac; done. Qed.

Lemma held_empty : held_once ∅ ∅ (λ _, None).
Proof. split; set_solver. Qed.

(** [std::make_unique]. *)
Lemma held_new h u own a : held_once h u own → a ∉ h → held_once (h ∪ {[a]}) (u ∪ {[a]}) own.
Proof.
  intros [H1 H2 H3 H4] Ha. split; [set_solver| |done|].
  - intros b x Hx. destruct (H2 b x Hx). set_solver.
  - intros b [Hb|Hb]%elem_of_union; [|set_solver]. destruct (H4 b Hb); set_solver.
Qed.

(** [~unique_ptr]. *)
Lemma held_free h u own a : held_once h u own → a ∈ u → Delete h a = Some (h ∖ {[a]}) ∧ held_once (h ∖ {[a]}) (u ∖ {[a]}) own.
Proof.
  intros [H1 H2 H3 H4] Ha. split; [unfold Delete; by rewrite decide_True by by apply H1|]. split; [set_solver| |done|].
  - intros b x Hx. destruct (H2 b x Hx). set_solver.
  - intros b [Hb Hne]%elem_of_difference. destruct (H4 b Hb); set_solver.
Qed.

(** A handle that owns nothing takes over an object. *)
Lemma held_give h u own x a : held_once h u own → a ∈ u → own x = None → held_once h (u ∖ {[a]}) (set_own own x (Some a)).
Proof.
  intros [H1 H2 H3 H4] Ha Hx. unfold set_own. split; [set_solver| | |].
  - intros b y. case_decide; [intros [= <-]; set_solver|]. intros Hy. destruct (H2 b y Hy). set_solver.
  - intros b y z. repeat case_decide; naive_solver.
  - intros b Hb. destruct (decide (b = a)) as [->|]; [right; exists x; by rewrite decide_True|]. destruct (H4 b Hb) as [?|[y Hy]]; [set_solver|].
    right. exists y. rewrite decide_False; [done|congruence].
Qed.

(** A handle gives its object away. *)
Lemma held_take h u own x a : held_once h u own → own x = Some a → held_once h (u ∪ {[a]}) (set_own own x None).
Proof.
  intros [H1 H2 H3 H4] Hx. destruct (H2 a x Hx) as [Ha Hau]. unfold set_own. split; [set_solver| | |].
  - intros b y. case_decide; [done|]. intros Hy. destruct (H2 b y Hy). split; [done|]. rewrite not_elem_of_union, not_elem_of_singleton. split; [done|].
    intros ->. by assert (x = y) by by eapply H3.
  - intros b y z. repeat case_decide; try done. apply H3.
  - intros b Hb. destruct (decide (b = a)) as [->|]; [set_solver|]. destruct (H4 b Hb) as [?|[y Hy]]; [set_solver|]. right. exists y. rewrite decide_False; [done|congruence].
Qed.

(** A handle frees what it owns. *)
Lemma held_drop h u own x : held_once h u own → ∃ h', delete_held h (own x) = Some h' ∧ held_once h' u (set_own own x None) ∧ h' ⊆ h.
Proof.
  intros Hh. destruct (own x) as [a|] eqn:Hx; cbn.
  - pose proof (held_take _ _ _ _ _ Hh Hx) as Ht. destruct (held_free _ _ _ a Ht) as [Hd Hf]; [set_solver|]. exists (h ∖ {[a]}). split_and!; [done| |set_solver].
    destruct (ho_live _ _ _ Hh a x Hx) as [_ Hau]. by replace ((u ∪ {[a]}) ∖ {[a]}) with u in Hf by set_solver.
  - exists h. split_and!; [done| |done]. eapply held_ext; [done|]. intros y. unfold set_own. by case_decide; subst.
Qed.

(** The object of one handle moves to another one that owns nothing. *)
Lemma held_move h u own x y : held_once h u own → own x = None → x ≠ y → held_once h u (set_own (set_own own y None) x (own y)).
Proof.
  intros Hh Hx Hne. destruct (own y) as [a|] eqn:Hy.
  - pose proof (held_take _ _ _ _ _ Hh Hy) as Ht. destruct (ho_live _ _ _ Hh a y Hy) as [_ Hau].
    replace u with ((u ∪ {[a]}) ∖ {[a]}) by set_solver. apply held_give; [done|set_solver|]. unfold set_own. by case_decide.
  - eapply held_ext; [done|]. intros z. unfold set_own. repeat case_decide; congruence.
Qed.

Lemma held_nothing_left own h : held_once h ∅ own → (∀ x, own x = None) → h = ∅.
Proof. intros Hh Hn. apply set_eq. intros a. split; [|set_solver]. intros Ha. destruct (ho_leak _ _ _ Hh a Ha) as [?|[x Hx]]; [done|]. by rewrite Hn in Hx. Qed.
End held.
