(* ===== verification/TxSerialize.v ===== *)
(** * Serialization helpers ([include/tx_serialize.h])

    Fields are written one after the other to a string, or at an offset into a buffer, and
    read back at an offset.  An integer is written as its bytes, a string with its length
    in two bytes before it; a longer string makes [Serialize] throw, which is [None].
    [Codec] is what the key and record types promise: what was written can be read back
    wherever it is in the buffer, and the offset is then behind it. *)

From S2P Require Import Prelude Bytes.

(** ** The interface *)

Class Codec (A : Type) := {
  encode : A → option bytes;
  decode : bytes → nat → option (A * nat);
  encodable : A → Prop;
}.
(** The bytes [bs] are in the buffer at the offset. *)
Definition image_at (buf : bytes) (offset : nat) (bs : bytes) : Prop := ∃ pre post, buf = pre ++ bs ++ post ∧ offset = length pre.

Class CodecOk (A : Type) `{!Codec A} : Prop :=
  decode_encode x bs buf offset : encodable x → encode x = Some bs → image_at buf offset bs → decode buf offset = Some (x, offset + length bs).

Lemma image_app buf offset b1 b2 : image_at buf offset (b1 ++ b2) ↔ image_at buf offset b1 ∧ image_at buf (offset + length b1) b2.
Proof.
  split.
  - intros (pre & post & -> & ->). split; [exists pre, (b2 ++ post); by rewrite <- app_assoc|]. exists (pre ++ b1), post. by rewrite <- !app_assoc, length_app.
  - intros [(pre & post & -> & ->) (pre' & post' & E & El)]. exists pre, post'. split; [|done]. rewrite <- app_assoc.
    rewrite (app_assoc pre b1 post) in E. apply app_inj_1 in E as [<- ->]; [done|by rewrite length_app].
Qed.
Lemma image_here pre bs post : image_at (pre ++ bs ++ post) (length pre) bs.
Proof. by exists pre, post. Qed.

(** ** Integers and strings *)

(** [SerializeToStr] and [DesrializeFrom] of an integer of [n] bytes. *)
Definition SerializeToStr (n : nat) (v : Z) : bytes := le_bytes n v.
Definition DesrializeFrom (n : nat) (buf : bytes) (offset : nat) : option (Z * nat) :=
  v ← read_le n buf offset; Some (v, offset + n).

Definition is_uint (n : nat) (v : Z) : Prop := (0 ≤ v < 256 ^ Z.of_nat n)%Z.

Definition UINT16_MAX : Z := 2 ^ 16 - 1.

(** [Serializer<std::string>]. *)
Definition Serialize_string (s : bytes) : option bytes :=
  if decide (UINT16_MAX < Z.of_nat (length s))%Z then None else Some (le_bytes 2 (Z.of_nat (length s)) ++ s).
Definition Deserialize_string (buf : bytes) (offset : nat) : option (bytes * nat) :=
  '(len, offset1) ← DesrializeFrom 2 buf offset;
  s ← read_bytes (Z.to_nat len) buf offset1;
  Some (s, offset1 + Z.to_nat len).

Lemma DesrializeFrom_at n v buf offset : is_uint n v → image_at buf offset (SerializeToStr n v) → DesrializeFrom n buf offset = Some (v, offset + n).
Proof. intros Hv (pre & post & -> & ->). unfold DesrializeFrom, SerializeToStr. by rewrite read_le_app. Qed.

Lemma read_bytes_image s buf offset : image_at buf offset s → read_bytes (length s) buf offset = Some s.
Proof. intros (pre & post & -> & ->). apply read_bytes_app. Qed.

Lemma Deserialize_string_at s bs buf offset : Serialize_string s = Some bs → image_at buf offset bs →
  Deserialize_string buf offset = Some (s, offset + length bs).
Proof.
  unfold Serialize_string. case_decide as Hlen; [done|]. intros Hs.
  assert (bs = SerializeToStr 2 (Z.of_nat (length s)) ++ s) as -> by (unfold SerializeToStr; congruence). clear Hs.
  intros [H1 H2]%image_app. unfold Deserialize_string. rewrite (DesrializeFrom_at 2 _ _ _) with (2 := H1) by (unfold is_uint, UINT16_MAX in *; lia).
  cbn [mbind option_bind]. rewrite Nat2Z.id. unfold SerializeToStr in H2. rewrite length_le_bytes in H2. rewrite (read_bytes_image _ _ _ H2). cbn [mbind option_bind].
  unfold SerializeToStr. rewrite length_app, length_le_bytes. by rewrite Nat.add_assoc.
Qed.

(** *** Writing into a buffer *)

(** [std::copy] to an offset; a copy that leaves the buffer is [None]. *)
Definition write_at (buf : bytes) (offset : nat) (bs : bytes) : option bytes :=
  if decide (offset + length bs ≤ length buf) then Some (take offset buf ++ bs ++ drop (offset + length bs) buf) else None.
Definition resize (buf : bytes) (n : nat) : bytes := take n (buf ++ replicate n 0%Z).

Lemma write_at_Some buf offset bs buf' : write_at buf offset bs = Some buf' → offset + length bs ≤ length buf ∧ length buf' = length buf.
Proof.
  unfold write_at. case_decide; [|done]. intros [= <-]. split; [done|]. rewrite !length_app, length_take, length_drop. lia.
Qed.
Lemma length_resize buf n : length (resize buf n) = n.
Proof. unfold resize. rewrite length_take, length_app, length_replicate. lia. Qed.

(** ** Fields of a tuple *)

(** A field of a [CompositeKey] or [CompositeRecord]: an integer type of some width, or a
    string. *)
Inductive FieldType := TInt (n : nat) | TStr.
Inductive Field := FInt (n : nat) (v : Z) | FStr (s : bytes).

Definition type_of (f : Field) : FieldType := match f with FInt n _ => TInt n | FStr _ => TStr end.
Definition field_ok (f : Field) : Prop := match f with FInt n v => is_uint n v | FStr _ => True end.

(** [MemSize<T>::Size]. *)
Definition MemSize (f : Field) : nat := match f with FInt n _ => n | FStr s => length s + 2 end.

(** [Serializer<T>::Serialize(val, str)] and [Serializer<T>::Deserialize]. *)
Definition Serialize_field (f : Field) : option bytes :=
  match f with FInt n v => Some (le_bytes n v) | FStr s => Serialize_string s end.
Definition Deserialize_field (t : FieldType) (buf : bytes) (offset : nat) : option (Field * nat) :=
  match t with
  | TInt n => '(v, o) ← DesrializeFrom n buf offset; Some (FInt n v, o)
  | TStr => '(s, o) ← Deserialize_string buf offset; Some (FStr s, o)
  end.

Lemma Deserialize_field_at f bs buf offset : field_ok f → Serialize_field f = Some bs → image_at buf offset bs →
  Deserialize_field (type_of f) buf offset = Some (f, offset + length bs).
Proof.
  intros Hok Hs Hi. destruct f as [n v|s]; cbn in *.
  - injection Hs as <-. rewrite (DesrializeFrom_at n v) by done. cbn. by rewrite length_le_bytes.
  - by rewrite (Deserialize_string_at s bs).
Qed.

(** ** Lists with a count before them *)

Section counted.
Context {A : Type} `{!Codec A}.

Fixpoint encode_all (l : list A) : option bytes :=
  match l with [] => Some [] | x :: l => b ← encode x; bs ← encode_all l; Some (b ++ bs) end.
Fixpoint decode_all (n : nat) (buf : bytes) (offset : nat) : option (list A * nat) :=
  match n with
  | 0 => Some ([], offset)
  | S n => '(x, o) ← decode buf offset; '(l, o') ← decode_all n buf o; Some (x :: l, o')
  end.

Lemma decode_all_at `{!CodecOk A} l bs buf offset : Forall encodable l → encode_all l = Some bs → image_at buf offset bs →
  decode_all (length l) buf offset = Some (l, offset + length bs).
Proof.
  revert bs offset. induction l as [|x l IH]; intros bs offset Hl Hs Hi; cbn in Hs |- *.
  { injection Hs as <-. by rewrite Nat.add_0_r. }
  apply Forall_cons in Hl as [Hx Hl]. destruct (encode x) as [b|] eqn:Eb; [|done]. cbn in Hs.
  destruct (encode_all l) as [bl|]; [|done]. cbn in Hs. injection Hs as <-. apply image_app in Hi as [H1 H2].
  rewrite (decode_encode x b) by done. cbn. rewrite (IH bl) by done. cbn. by rewrite length_app, Nat.add_assoc.
Qed.
End counted.
