(* ===== verification/MetaRecords.v ===== *)
(** * Records of the meta tables

    The catalog, the buckets and the cluster configuration are tables whose rows are
    [CatalogRecord], [RangeBucketRecord] and [ClusterConfigRecord].  This file models their
    images, the version rules of the node's copies ([CatalogEntry], [BucketInfo]), and the
    pointers that the bucket and configuration records own or refer to.  Source:
    [include/catalog_key_record.h], [src/catalog_key_record.cpp],
    [include/range_bucket_key_record.h], [src/range_bucket_key_record.cpp],
    [include/cluster_config_record.h], [include/sharder.h] ([NodeConfig]). *)

From S2P Require Import Prelude Ownership Bytes CcProtocol TableName TxSerialize.

(** ** Catalog keys *)

Definition CatalogKey_Serialize (t : TableName) : bytes :=
  let len_val := (Z.of_nat (length (tn_name t)) mod 2 ^ 16)%Z in
  le_bytes 2 len_val ++ take (Z.to_nat len_val) (tn_name t) ++ [engine_code (tn_engine t)] ++ [type_code (tn_type t)].

Definition CatalogKey_SerializedLength (t : TableName) : nat := 2 + length (tn_name t) + 1.

(** The [switch] statements; an unknown engine fails an assertion, an unknown type is
    [Primary]. *)
Definition engine_of_code (c : Z) : option TableEngine :=
  if decide (c = 0)%Z then Some Engine_None else if decide (c = 1)%Z then Some EloqSql
  else if decide (c = 2)%Z then Some EloqKv else if decide (c = 3)%Z then Some EloqDoc else None.
Definition type_of_code (c : Z) : TableType :=
  if decide (c = 0)%Z then Primary else if decide (c = 1)%Z then Secondary else if decide (c = 2)%Z then UniqueSecondary
  else if decide (c = 3)%Z then Catalog else if decide (c = 4)%Z then RangePartition else Primary.

Definition CatalogKey_Deserialize (buf : bytes) (offset : nat) : option (TableName * nat) :=
  '(len_val, o1) ← DesrializeFrom 2 buf offset;
  name ← read_bytes (Z.to_nat len_val) buf o1;
  let o2 := o1 + Z.to_nat len_val in
  '(engine_val, o3) ← DesrializeFrom 1 buf o2;
  engine ← engine_of_code engine_val;
  '(type_val, o4) ← DesrializeFrom 1 buf o3;
  Some (mkTableName name (type_of_code type_val) engine, o4).

(** [Serialize(std::vector<char> &, size_t &)]: [resize], then four copies. *)
Definition CatalogKey_Serialize_vec (t : TableName) (buf : bytes) (offset : nat) : option (bytes * nat) :=
  let len_val := (Z.of_nat (length (tn_name t)) mod 2 ^ 16)%Z in
  let buf0 := resize buf (offset + 2 + Z.to_nat len_val) in
  buf1 ← write_at buf0 offset (le_bytes 2 len_val);
  buf2 ← write_at buf1 (offset + 2) (tn_name t);
  buf3 ← write_at buf2 (offset + 2 + Z.to_nat len_val) [engine_code (tn_engine t)];
  buf4 ← write_at buf3 (offset + 2 + Z.to_nat len_val + 1) [type_code (tn_type t)];
  Some (buf4, offset + 2 + Z.to_nat len_val + 2).

(** ** Catalog records *)

(** [S] are the schemas, which are shared. *)
Record CatalogRecord (S : Type) := mkCatalogRecord {
  schema_ : option S;
  dirty_schema_ : option S;
  schema_ts_ : Z;
  schema_image_ : bytes;
  dirty_schema_image_ : bytes;
}.
Arguments mkCatalogRecord {_}.
Arguments schema_ {_}.
Arguments dirty_schema_ {_}.
Arguments schema_ts_ {_}.
Arguments schema_image_ {_}.
Arguments dirty_schema_image_ {_}.

Section catalog.
Context {S : Type}.
Implicit Types (r rhs : CatalogRecord S).

Definition sized_image (s : bytes) : bytes :=
  let len_val := u32 (Z.of_nat (length s)) in le_bytes 4 len_val ++ take (Z.to_nat len_val) s.
Definition CatalogRecord_Serialize r : bytes := sized_image (dirty_schema_image_ r) ++ sized_image (schema_image_ r).
Definition CatalogRecord_SerializedLength r : nat := 4 * 2 + length (dirty_schema_image_ r) + length (schema_image_ r).
Definition read_image (buf : bytes) (offset : nat) : option (bytes * nat) :=
  '(len_val, o) ← DesrializeFrom 4 buf offset;
  s ← read_bytes (Z.to_nat len_val) buf o;
  Some (s, o + Z.to_nat len_val).
Definition CatalogRecord_Deserialize r (buf : bytes) (offset : nat) : option (CatalogRecord S * nat) :=
  '(dirty, o1) ← read_image buf offset;
  '(image, o2) ← read_image buf o1;
  Some (mkCatalogRecord (schema_ r) (dirty_schema_ r) (schema_ts_ r) image dirty, o2).

Definition CatalogRecord_Clone r : CatalogRecord S :=
  mkCatalogRecord (schema_ r) (dirty_schema_ r) (schema_ts_ r) (schema_image_ r) (dirty_schema_image_ r).
(** [operator=(const CatalogRecord &)]. *)
Definition CatalogRecord_Copy r rhs : CatalogRecord S :=
  mkCatalogRecord (schema_ rhs) (dirty_schema_ rhs) (schema_ts_ rhs) (schema_image_ r) (dirty_schema_image_ r).
Definition CatalogRecord_Set r (schema dirty_schema : option S) (schema_ts : Z) : CatalogRecord S :=
  mkCatalogRecord schema dirty_schema schema_ts (schema_image_ r) (dirty_schema_image_ r).
Definition ClearDirtySchema r : CatalogRecord S :=
  mkCatalogRecord (schema_ r) None (schema_ts_ r) (schema_image_ r) (dirty_schema_image_ r).
Definition CatalogRecord_Reset : CatalogRecord S := mkCatalogRecord None None 0 [] [].

(** ** The catalog of a node *)

Record CatalogEntry := mkCatalogEntry {
  ce_schema_ : option S;
  ce_dirty_schema_ : option S;
  schema_version_ : Z;
  dirty_schema_version_ : Z;
}.
Implicit Types (e : CatalogEntry).

Definition CatalogEntry_new : CatalogEntry := mkCatalogEntry None None 0 0.

Definition InitSchema e (schema : option S) (version_ts : Z) : CatalogEntry :=
  let e1 := if decide (schema_version_ e < version_ts)%Z
            then mkCatalogEntry schema (ce_dirty_schema_ e) version_ts (dirty_schema_version_ e) else e in
  if decide (dirty_schema_version_ e1 ≤ version_ts)%Z
  then mkCatalogEntry (ce_schema_ e1) None (schema_version_ e1) 0 else e1.

Definition SetDirtySchema e (dirty_schema : option S) (dirty_version_ts : Z) : CatalogEntry :=
  if bool_decide (dirty_schema_version_ e ≤ dirty_version_ts)%Z && bool_decide (schema_version_ e < dirty_version_ts)%Z
  then mkCatalogEntry (ce_schema_ e) dirty_schema (schema_version_ e) dirty_version_ts else e.

(** A schema that is moved leaves a null pointer. *)
Definition CommitDirtySchema e : CatalogEntry :=
  if decide (schema_version_ e < dirty_schema_version_ e)%Z
  then mkCatalogEntry (ce_dirty_schema_ e) None (dirty_schema_version_ e) 0
  else mkCatalogEntry (ce_schema_ e) None (schema_version_ e) 0.

Definition RejectDirtySchema e : CatalogEntry := mkCatalogEntry (ce_schema_ e) None (schema_version_ e) 0.
End catalog.
Arguments CatalogEntry : clear implicits.

(** ** Buckets *)

Record BucketInfo := mkBucketInfo {
  bucket_owner_ : Z;
  version_ : Z;
  dirty_bucket_owner_ : Z;
  dirty_version_ : Z;
  accepts_upload_batch_ : bool;
}.

Definition BucketInfo_new (bucket_owner version : Z) : BucketInfo := mkBucketInfo bucket_owner version UINT32_MAX 0 false.
Definition BucketInfo_Reset (b : BucketInfo) : BucketInfo := mkBucketInfo UINT32_MAX 0 UINT32_MAX 0 (accepts_upload_batch_ b).
Definition ClearDirty (b : BucketInfo) : BucketInfo := mkBucketInfo (bucket_owner_ b) (version_ b) UINT32_MAX 0 (accepts_upload_batch_ b).
Definition BucketInfo_Set (b : BucketInfo) (owner_ng version : Z) : option BucketInfo :=
  if decide (version_ b < version)%Z then
    guard (dirty_version_ b = 0)%Z;;
    Some (mkBucketInfo owner_ng version (dirty_bucket_owner_ b) (dirty_version_ b) (accepts_upload_batch_ b))
  else Some b.
Definition SetDirty (b : BucketInfo) (dirty_bucket_owner dirty_version : Z) : BucketInfo :=
  if bool_decide (version_ b < dirty_version)%Z && bool_decide (dirty_version_ b < dirty_version)%Z
  then mkBucketInfo (bucket_owner_ b) (version_ b) dirty_bucket_owner dirty_version (accepts_upload_batch_ b) else b.
Definition CommitDirty (b : BucketInfo) : BucketInfo :=
  let '(owner, version) := if decide (version_ b < dirty_version_ b)%Z then (dirty_bucket_owner_ b, dirty_version_ b) else (bucket_owner_ b, version_ b) in
  mkBucketInfo owner version UINT32_MAX 0 false.
Definition BucketInfo_Clone (b : BucketInfo) : BucketInfo :=
  SetDirty (BucketInfo_new (bucket_owner_ b) (version_ b)) (dirty_bucket_owner_ b) (dirty_version_ b).

(** The image of a bucket record is that of the info it points to. *)
Definition RangeBucketRecord_Serialize (b : BucketInfo) : bytes :=
  SerializeToStr 4 (bucket_owner_ b) ++ SerializeToStr 8 (version_ b) ++
  SerializeToStr 4 (dirty_bucket_owner_ b) ++ SerializeToStr 8 (dirty_version_ b).
Definition RangeBucketRecord_SerializedLength : nat := 4 * 2 + 8 * 2.
Definition RangeBucketRecord_Deserialize (buf : bytes) (offset : nat) : option (BucketInfo * nat) :=
  '(bucket_owner, o1) ← DesrializeFrom 4 buf offset;
  '(version, o2) ← DesrializeFrom 8 buf o1;
  '(dirty_owner, o3) ← DesrializeFrom 4 buf o2;
  '(dirty_version, o4) ← DesrializeFrom 8 buf o3;
  Some (SetDirty (BucketInfo_new bucket_owner version) dirty_owner dirty_version, o4).

(** ** The cluster configuration *)

Record NodeConfig := mkNodeConfig {
  node_id_ : Z;
  host_name_ : bytes;
  port_ : Z;
  is_candidate_ : bool;
}.

Definition NodeConfig_Serialize (c : NodeConfig) : option bytes :=
  host ← Serialize_string (host_name_ c);
  Some (SerializeToStr 4 (node_id_ c) ++ host ++ SerializeToStr 2 (port_ c) ++ SerializeToStr 1 (if is_candidate_ c then 1 else 0)).
Definition NodeConfig_Deserialize (buf : bytes) (offset : nat) : option (NodeConfig * nat) :=
  '(node_id, o1) ← DesrializeFrom 4 buf offset;
  '(host, o2) ← Deserialize_string buf o1;
  '(port, o3) ← DesrializeFrom 2 buf o2;
  '(cand, o4) ← DesrializeFrom 1 buf o3;
  Some (mkNodeConfig node_id host port (bool_decide (cand ≠ 0)%Z), o4).
Definition NodeConfig_SerializedLength (c : NodeConfig) : nat := 4 + 2 + length (host_name_ c) + 2 + 1.

#[export] Instance NodeConfig_codec : Codec NodeConfig := {|
  encode := NodeConfig_Serialize;
  decode := NodeConfig_Deserialize;
  encodable c := is_uint 4 (node_id_ c) ∧ is_uint 2 (port_ c);
|}.

(** A node group with its members, in the order of the iteration over the map. *)
Definition group_Serialize (g : Z * list NodeConfig) : option bytes :=
  nodes ← encode_all g.2;
  Some (SerializeToStr 4 g.1 ++ SerializeToStr 2 (Z.of_nat (length g.2) mod 2 ^ 16) ++ nodes).
Definition group_Deserialize (buf : bytes) (offset : nat) : option ((Z * list NodeConfig) * nat) :=
  '(ng_id, o1) ← DesrializeFrom 4 buf offset;
  '(node_count, o2) ← DesrializeFrom 2 buf o1;
  '(nodes, o3) ← decode_all (Z.to_nat node_count) buf o2;
  Some ((ng_id, nodes), o3).

#[export] Instance group_codec : Codec (Z * list NodeConfig) := {|
  encode := group_Serialize;
  decode := group_Deserialize;
  encodable g := is_uint 4 g.1 ∧ is_uint 2 (Z.of_nat (length g.2)) ∧ Forall encodable g.2;
|}.

(** What a record says: the groups, absent when the pointer is null, and the version. *)
Definition ClusterConfigRecord_Serialize (configs : option (list (Z * list NodeConfig))) (version : Z) : option bytes :=
  match configs with
  | None => Some (SerializeToStr 1 0 ++ SerializeToStr 8 version)
  | Some groups =>
      gs ← encode_all groups;
      Some (SerializeToStr 1 1 ++ SerializeToStr 2 (Z.of_nat (length groups) mod 2 ^ 16) ++ gs ++ SerializeToStr 8 version)
  end.
Definition ClusterConfigRecord_Deserialize (buf : bytes) (offset : nat) : option (option (list (Z * list NodeConfig)) * Z * nat) :=
  '(has_ng_config, o1) ← DesrializeFrom 1 buf offset;
  '(groups, o2) ← (if decide (has_ng_config = 0)%Z then Some (None, o1)
                   else '(ng_count, o) ← DesrializeFrom 2 buf o1;
                        '(gs, o') ← decode_all (Z.to_nat ng_count) buf o;
                        Some (Some gs, o'));
  '(version, o3) ← DesrializeFrom 8 buf o2;
  Some (groups, version, o3).

(** ** Images are read back *)

Lemma length_SerializeToStr n v : length (SerializeToStr n v) = n.
Proof. apply length_le_bytes. Qed.

(** Takes the image of the next field off the buffer. *)
Ltac next_field H :=
  let H1 := fresh "Hf" in
  apply image_app in H as [H1 H]; rewrite ?length_SerializeToStr in H;
  match type of H1 with
  | image_at _ _ (SerializeToStr ?n ?v) => rewrite (DesrializeFrom_at n v _ _) by done
  | _ => idtac
  end; cbn [mbind option_bind].

#[export] Instance NodeConfig_codec_ok : CodecOk NodeConfig.
Proof.
  intros [id host port cand] bs buf offset [Hid Hport] Hs Hi. cbn [encode decode NodeConfig_codec node_id_ port_] in *.
  unfold NodeConfig_Serialize in Hs. cbn [host_name_ node_id_ port_ is_candidate_] in Hs. destruct (Serialize_string host) as [hb|] eqn:Eh; [|done].
  assert (bs = SerializeToStr 4 id ++ hb ++ SerializeToStr 2 port ++ SerializeToStr 1 (if cand then 1 else 0)) as -> by (cbn [mbind option_bind] in Hs; congruence).
  unfold NodeConfig_Deserialize. next_field Hi. apply image_app in Hi as [Hh Hi]. rewrite (Deserialize_string_at host hb) by done. cbn [mbind option_bind].
  next_field Hi. rewrite (DesrializeFrom_at 1 (if cand then 1 else 0)%Z) with (2 := Hi) by (unfold is_uint; destruct cand; lia). cbn [mbind option_bind].
  rewrite !length_app, !length_SerializeToStr. f_equal. f_equal; [by destruct cand|lia].
Qed.

#[export] Instance group_codec_ok : CodecOk (Z * list NodeConfig).
Proof.
  intros [ng nodes] bs buf offset (Hng & Hcnt & Hnodes) Hs Hi. cbn [encode decode group_codec fst snd] in *.
  unfold group_Serialize in Hs. cbn [fst snd] in Hs. destruct (encode_all nodes) as [nb|] eqn:En; [|done].
  assert (bs = SerializeToStr 4 ng ++ SerializeToStr 2 (Z.of_nat (length nodes)) ++ nb) as ->.
  { cbn [mbind option_bind] in Hs. rewrite Z.mod_small in Hs by (unfold is_uint in Hcnt; lia). congruence. }
  unfold group_Deserialize. next_field Hi. next_field Hi. rewrite Nat2Z.id, (decode_all_at nodes nb) by done. cbn [mbind option_bind].
  rewrite !length_app, !length_SerializeToStr. do 2 f_equal. lia.
Qed.

(** The configuration that another node reads from the image of a cluster configuration
    record is the one it was made of: the node groups with their members, and the version. *)
Theorem ClusterConfigRecord_roundtrip configs version bs pre post :
  is_uint 8 version → (∀ groups, configs = Some groups → is_uint 2 (Z.of_nat (length groups)) ∧ Forall encodable groups) →
  ClusterConfigRecord_Serialize configs version = Some bs →
  ClusterConfigRecord_Deserialize (pre ++ bs ++ post) (length pre) = Some (configs, version, length pre + length bs).
Proof.
  intros Hv Hg Hs. pose proof (image_here pre bs post) as Hi. revert Hi. generalize (pre ++ bs ++ post), (length pre). intros buf offset Hi.
  unfold ClusterConfigRecord_Deserialize. destruct configs as [groups|]; cbn [ClusterConfigRecord_Serialize] in Hs.
  - destruct (Hg groups eq_refl) as [Hcnt Hgs]. destruct (encode_all groups) as [gb|] eqn:Eg; [|done].
    assert (bs = SerializeToStr 1 1 ++ SerializeToStr 2 (Z.of_nat (length groups)) ++ gb ++ SerializeToStr 8 version) as ->.
    { cbn [mbind option_bind] in Hs. rewrite Z.mod_small in Hs by (unfold is_uint in Hcnt; lia). congruence. }
    next_field Hi. rewrite decide_False by done. next_field Hi. apply image_app in Hi as [Hgi Hi].
    rewrite Nat2Z.id, (decode_all_at groups gb) by done. cbn [mbind option_bind]. rewrite (DesrializeFrom_at 8 version) by done. cbn [mbind option_bind].
    rewrite !length_app, !length_SerializeToStr. do 2 f_equal. lia.
  - assert (bs = SerializeToStr 1 0 ++ SerializeToStr 8 version) as -> by congruence.
    next_field Hi. rewrite decide_True by done. cbn [mbind option_bind]. rewrite (DesrializeFrom_at 8 version) by done. cbn [mbind option_bind].
    rewrite !length_app, !length_SerializeToStr. do 2 f_equal. lia.
Qed.

Definition two_nodes : list (Z * list NodeConfig) := [(3, [mkNodeConfig 1 [97; 98] 8000 true; mkNodeConfig 2 [99] 8001 false])]%Z.

Lemma ClusterConfigRecord_roundtrip_witness : ∃ bs, ClusterConfigRecord_Serialize (Some two_nodes) 7 = Some bs ∧
  ClusterConfigRecord_Deserialize ([] ++ bs ++ []) 0 = Some (Some two_nodes, 7%Z, length bs).
Proof.
  eexists. split; [reflexivity|].
  refine (ClusterConfigRecord_roundtrip (Some two_nodes) 7 _ [] [] _ _ eq_refl); [unfold is_uint; lia|].
  intros groups [= <-]. split; [unfold is_uint; cbn; lia|]. repeat constructor; unfold is_uint; cbn; lia.
Defined.

(** The image of a catalog key holds its name only if its length fits in two bytes, and the
    reader knows the types of tables that have a schema. *)
Definition catalog_key_ok (t : TableName) : Prop :=
  (Z.of_nat (length (tn_name t)) < 2 ^ 16)%Z ∧ tn_type t ≠ RangeBucket ∧ tn_type t ≠ ClusterConfig.

Lemma codes_read t : tn_type t ≠ RangeBucket → tn_type t ≠ ClusterConfig →
  engine_of_code (engine_code (tn_engine t)) = Some (tn_engine t) ∧ type_of_code (type_code (tn_type t)) = tn_type t ∧
  is_uint 1 (engine_code (tn_engine t)) ∧ is_uint 1 (type_code (tn_type t)).
Proof. intros H1 H2. unfold is_uint. destruct t as [n [] []]; cbn in *; split_and!; done || lia. Qed.

Lemma one_byte v : is_uint 1 v → SerializeToStr 1 v = [v].
Proof. intros Hv. unfold SerializeToStr. cbn [le_bytes]. by rewrite Z.mod_small. Qed.

Lemma CatalogKey_image t : catalog_key_ok t →
  CatalogKey_Serialize t = SerializeToStr 2 (Z.of_nat (length (tn_name t))) ++ tn_name t ++ SerializeToStr 1 (engine_code (tn_engine t)) ++ SerializeToStr 1 (type_code (tn_type t)).
Proof.
  intros (Hl & H1 & H2). destruct (codes_read t H1 H2) as (_ & _ & Hu1 & Hu2). unfold CatalogKey_Serialize. rewrite Z.mod_small, Nat2Z.id, take_ge by lia.
  by rewrite !one_byte.
Qed.

Lemma CatalogKey_read t buf offset : catalog_key_ok t → image_at buf offset (CatalogKey_Serialize t) →
  CatalogKey_Deserialize buf offset = Some (t, offset + length (CatalogKey_Serialize t)).
Proof.
  intros Hok Hi. rewrite (CatalogKey_image t Hok) in *. destruct Hok as (Hl & H1 & H2). destruct (codes_read t H1 H2) as (He & Ht & Hu1 & Hu2).
  assert (is_uint 2 (Z.of_nat (length (tn_name t)))) as Hu by (unfold is_uint; cbn; lia).
  unfold CatalogKey_Deserialize. next_field Hi. rewrite Nat2Z.id. apply image_app in Hi as [Hn Hi]. rewrite (read_bytes_image _ _ _ Hn). cbn [mbind option_bind].
  next_field Hi. rewrite He. cbn [mbind option_bind]. rewrite (DesrializeFrom_at 1 (type_code (tn_type t))) by done. cbn [mbind option_bind]. rewrite Ht.
  rewrite !length_app, !length_SerializeToStr. destruct t. f_equal. f_equal. lia.
Qed.

(** [SerializedLength] leaves out the byte of the engine, and the other [Serialize] makes
    room for the length and the name only: the last two bytes are written past the end. *)
Lemma CatalogKey_length_short t : catalog_key_ok t → length (CatalogKey_Serialize t) = CatalogKey_SerializedLength t + 1.
Proof. intros Hok. rewrite (CatalogKey_image t Hok), !length_app, !length_SerializeToStr. unfold CatalogKey_SerializedLength. lia. Qed.
Lemma CatalogKey_vec_overflows t buf offset : CatalogKey_Serialize_vec t buf offset = None.
Proof.
  unfold CatalogKey_Serialize_vec. set (len := Z.to_nat _). pose proof (length_resize buf (offset + 2 + len)) as Hlen. revert Hlen. generalize (resize buf (offset + 2 + len)). intros b Hlen.
  destruct (write_at b offset _) as [b1|] eqn:E1; [|done]. apply write_at_Some in E1 as [_ L1]. cbn [mbind option_bind].
  destruct (write_at b1 _ (tn_name t)) as [b2|] eqn:E2; [|done]. apply write_at_Some in E2 as [_ L2]. cbn [mbind option_bind].
  destruct (write_at b2 _ _) as [b3|] eqn:E3; [|done]. apply write_at_Some in E3 as [E3 _]. cbn in E3. lia.
Qed.

Section catalog_facts.
Context {S : Type}.
Implicit Types (r : CatalogRecord S).

Lemma read_image_at s buf offset : (Z.of_nat (length s) < 2 ^ 32)%Z → image_at buf offset (sized_image s) →
  read_image buf offset = Some (s, offset + length (sized_image s)).
Proof.
  intros Hl Hi. assert (sized_image s = SerializeToStr 4 (Z.of_nat (length s)) ++ s) as E.
  { unfold sized_image, u32. rewrite Z.mod_small, Nat2Z.id, take_ge by lia. done. }
  rewrite E in *. assert (is_uint 4 (Z.of_nat (length s))) as Hu by (unfold is_uint; cbn; lia).
  unfold read_image. next_field Hi. rewrite Nat2Z.id, (read_bytes_image _ _ _ Hi). cbn [mbind option_bind]. rewrite length_app, length_SerializeToStr. do 2 f_equal. lia.
Qed.

Lemma CatalogRecord_read r r0 buf offset : (Z.of_nat (length (schema_image_ r)) < 2 ^ 32)%Z → (Z.of_nat (length (dirty_schema_image_ r)) < 2 ^ 32)%Z →
  image_at buf offset (CatalogRecord_Serialize r) →
  CatalogRecord_Deserialize r0 buf offset =
    Some (mkCatalogRecord (schema_ r0) (dirty_schema_ r0) (schema_ts_ r0) (schema_image_ r) (dirty_schema_image_ r), offset + length (CatalogRecord_Serialize r)).
Proof.
  intros Hl1 Hl2 Hi. unfold CatalogRecord_Serialize in *. apply image_app in Hi as [H1 H2]. unfold CatalogRecord_Deserialize.
  rewrite (read_image_at (dirty_schema_image_ r)) by done. cbn [mbind option_bind]. rewrite (read_image_at (schema_image_ r)) by done. cbn [mbind option_bind].
  by rewrite length_app, Nat.add_assoc.
Qed.

(** [Copy] leaves out the images, which [Clone] has. *)
Example Copy_loses_images (r : CatalogRecord S) (img : bytes) :
  schema_image_ (CatalogRecord_Clone (mkCatalogRecord None None 5 img [] : CatalogRecord S)) = img ∧
  schema_image_ (CatalogRecord_Copy r (mkCatalogRecord None None 5 img [])) = schema_image_ r.
Proof. done. Qed.
End catalog_facts.

(** C40: A row of the catalog read back from its key and record images, one after the other as
    the log has them, is the row: the table with its engine and type, and both schema
    images. *)
Theorem catalog_row_roundtrip {S} (t : TableName) (r r0 : CatalogRecord S) pre post : catalog_key_ok t →
  (Z.of_nat (length (schema_image_ r)) < 2 ^ 32)%Z → (Z.of_nat (length (dirty_schema_image_ r)) < 2 ^ 32)%Z →
  let buf := pre ++ CatalogKey_Serialize t ++ CatalogRecord_Serialize r ++ post in
  ∃ o r', CatalogKey_Deserialize buf (length pre) = Some (t, o) ∧ CatalogRecord_Deserialize r0 buf o = Some (r', length buf - length post) ∧
    schema_image_ r' = schema_image_ r ∧ dirty_schema_image_ r' = dirty_schema_image_ r.
Proof.
  intros Ht H1 H2 buf. assert (image_at buf (length pre) (CatalogKey_Serialize t ++ CatalogRecord_Serialize r)) as [Hk Hr]%image_app.
  { exists pre, post. split; [|done]. unfold buf. by rewrite <- app_assoc. }
  eexists _, _. split; [by apply CatalogKey_read|]. split; [rewrite (CatalogRecord_read r r0) by done; do 2 f_equal|done].
  unfold buf. rewrite !length_app. lia.
Qed.

Lemma catalog_row_roundtrip_witness :
  let t := mkTableName [116; 49]%Z Primary EloqSql in
  let r := mkCatalogRecord None None 0 [1; 2; 3]%Z [4]%Z : CatalogRecord unit in
  ∃ o r', CatalogKey_Deserialize (CatalogKey_Serialize t ++ CatalogRecord_Serialize r) 0 = Some (t, o) ∧
    CatalogRecord_Deserialize (CatalogRecord_Reset (S := unit)) (CatalogKey_Serialize t ++ CatalogRecord_Serialize r) o = Some (r', 18) ∧ schema_image_ r' = [1; 2; 3]%Z.
Proof.
  intros t r. destruct (catalog_row_roundtrip t r (CatalogRecord_Reset (S := unit)) [] []) as (o & r' & H1 & H2 & H3 & _).
  - split; [cbn; lia|]. split; discriminate.
  - cbn; lia.
  - cbn; lia.
  - rewrite !app_nil_r in H1, H2. exists o, r'. split_and!; assumption.
Defined.

(** ** Versions of the catalog and of the buckets *)

(** The value of the node is the one of its version; a pending value is newer. *)
Definition versioned {A} (value : Z → A) (none : A) (cur : A) (ver : Z) (dirty : A) (dver : Z) : Prop :=
  (0 ≤ ver)%Z ∧ (ver = 0 ∨ cur = value ver)%Z ∧ ((dver = 0%Z ∧ dirty = none) ∨ (ver < dver)%Z ∧ dirty = value dver).

Section versions.
Context {S : Type} (schema_of : Z → S).

(** The calls that schema operations, their recovery and the loading of the catalog make, in
    any order and number; the schema of a version is always the same. *)
Inductive catalog_step : CatalogEntry S → CatalogEntry S → Prop :=
  | st_init e ts : (0 < ts)%Z → catalog_step e (InitSchema e (Some (schema_of ts)) ts)
  | st_dirty e ts : (0 < ts)%Z → catalog_step e (SetDirtySchema e (Some (schema_of ts)) ts)
  | st_commit e : catalog_step e (CommitDirtySchema e)
  | st_reject e : catalog_step e (RejectDirtySchema e).

Definition catalog_ok (e : CatalogEntry S) : Prop :=
  versioned (λ ts, Some (schema_of ts)) None (ce_schema_ e) (schema_version_ e) (ce_dirty_schema_ e) (dirty_schema_version_ e).

Lemma catalog_step_ok e e' : catalog_ok e → catalog_step e e' → catalog_ok e' ∧ (schema_version_ e ≤ schema_version_ e')%Z.
Proof.
  destruct e as [s d v dv]. unfold catalog_ok, versioned. cbn. intros (H0 & Hs & Hd).
  inversion 1; subst; unfold InitSchema, SetDirtySchema, CommitDirtySchema, RejectDirtySchema; cbn;
    repeat first [case_decide | case_bool_decide]; cbn in *; split; try lia; naive_solver lia.
Qed.
End versions.

(**  However schema changes are prepared, committed, rejected and loaded again, also twice or
    after they were superseded, the version of a node's catalog never goes back, its schema is
    the one of that version, and a pending schema belongs to a newer version. *)
Theorem catalog_version_monotone {S} (schema_of : Z → S) (e e' : CatalogEntry S) :
  rtc (catalog_step schema_of) CatalogEntry_new e → rtc (catalog_step schema_of) e e' →
  (schema_version_ e ≤ schema_version_ e')%Z ∧
  versioned (λ ts, Some (schema_of ts)) None (ce_schema_ e') (schema_version_ e') (ce_dirty_schema_ e') (dirty_schema_version_ e').
Proof.
  intros H0 H1. assert (catalog_ok schema_of e) as Hok.
  { assert (catalog_ok schema_of CatalogEntry_new) as Hn by (split; [done|]; split; by left).
    remember CatalogEntry_new as e0. clear Heqe0 H1. induction H0 as [|a b c Hs _ IH]; [done|]. apply IH. by eapply catalog_step_ok. }
  clear H0. induction H1 as [|a b c Hs _ IH]; [by split|]. destruct (catalog_step_ok _ _ _ Hok Hs) as [Hok' Hle]. destruct (IH Hok') as [? ?]. split; [lia|done].
Qed.

Lemma catalog_version_monotone_witness :
  let e := CommitDirtySchema (SetDirtySchema CatalogEntry_new (Some 10%Z) 10) in
  let e' := InitSchema e (Some 7%Z) 7 in
  (schema_version_ e ≤ schema_version_ e')%Z ∧ ce_schema_ e' = Some 10%Z.
Proof.
  intros e e'. destruct (catalog_version_monotone (λ ts, ts) e e') as [H _].
  - eapply rtc_l; [apply (st_dirty (λ ts, ts) _ 10); lia|]. eapply rtc_l; [apply st_commit|]. apply rtc_refl.
  - eapply rtc_l; [apply (st_init (λ ts, ts) _ 7); lia|]. apply rtc_refl.
  - split; [exact H|reflexivity].
Defined.

Section buckets.
Context (owner_of : Z → Z).

Inductive bucket_step : BucketInfo → BucketInfo → Prop :=
  | bs_set b b' ts : is_uint 8 ts → BucketInfo_Set b (owner_of ts) ts = Some b' → bucket_step b b'
  | bs_dirty b ts : is_uint 8 ts → bucket_step b (SetDirty b (owner_of ts) ts)
  | bs_commit b : bucket_step b (CommitDirty b)
  | bs_clear b : bucket_step b (ClearDirty b)
  | bs_clone b : bucket_step b (BucketInfo_Clone b)
  | bs_send b b' buf offset o : image_at buf offset (RangeBucketRecord_Serialize b) → RangeBucketRecord_Deserialize buf offset = Some (b', o) → bucket_step b b'.

Definition bucket_ok (b : BucketInfo) : Prop :=
  versioned owner_of UINT32_MAX (bucket_owner_ b) (version_ b) (dirty_bucket_owner_ b) (dirty_version_ b) ∧
  is_uint 4 (bucket_owner_ b) ∧ is_uint 8 (version_ b) ∧ is_uint 4 (dirty_bucket_owner_ b) ∧ is_uint 8 (dirty_version_ b).

(** A copy or an image of a bucket info says the same, except that the copy accepts no
    uploads. *)
Definition no_upload (b : BucketInfo) : BucketInfo := mkBucketInfo (bucket_owner_ b) (version_ b) (dirty_bucket_owner_ b) (dirty_version_ b) false.

Lemma clone_same b : bucket_ok b → BucketInfo_Clone b = no_upload b.
Proof.
  intros [(H0 & _ & Hd) _]. unfold BucketInfo_Clone, SetDirty, no_upload. cbn. destruct Hd as [[E1 E2]|[Hlt Hd]].
  - rewrite (bool_decide_eq_false_2 (version_ b < _)%Z) by lia. cbn. by rewrite E1, E2.
  - rewrite !bool_decide_eq_true_2 by lia. done.
Qed.
Lemma RangeBucketRecord_read b buf offset : bucket_ok b → image_at buf offset (RangeBucketRecord_Serialize b) →
  RangeBucketRecord_Deserialize buf offset = Some (no_upload b, offset + RangeBucketRecord_SerializedLength).
Proof.
  intros Hok Hi. rewrite <- (clone_same b Hok). destruct Hok as (_ & H1 & H2 & H3 & H4). unfold RangeBucketRecord_Serialize in Hi. unfold RangeBucketRecord_Deserialize.
  next_field Hi. next_field Hi. next_field Hi. rewrite (DesrializeFrom_at 8 (dirty_version_ b)) by done. cbn [mbind option_bind]. unfold RangeBucketRecord_SerializedLength. do 2 f_equal. lia.
Qed.

Context (Howner : ∀ ts, is_uint 4 (owner_of ts)).

Lemma bucket_step_ok b b' : bucket_ok b → bucket_step b b' → bucket_ok b' ∧ (version_ b ≤ version_ b')%Z.
Proof.
  intros Hok Hst. assert (is_uint 4 UINT32_MAX ∧ is_uint 8 0) as [Hm H8] by (unfold is_uint, UINT32_MAX; lia).
  destruct Hst as [b b' ts Hts Hs|b ts Hts|b|b|b|b b' buf offset o Hi Hd].
  - destruct b as [w v d dv acc]. unfold BucketInfo_Set in Hs. cbn in Hs. case_decide; [|by injection Hs as <-].
    apply bind_Some in Hs as (? & Hz & [= <-]). case_guard; [|done]. unfold bucket_ok, versioned in *. cbn in *. split_and!; naive_solver lia.
  - destruct b as [w v d dv acc]. unfold SetDirty. cbn. unfold bucket_ok, versioned in *. cbn in *. repeat case_bool_decide; cbn; split_and!; naive_solver lia.
  - destruct b as [w v d dv acc]. unfold CommitDirty, bucket_ok, versioned in *. cbn in *. case_decide; cbn; split_and!; naive_solver lia.
  - destruct b as [w v d dv acc]. unfold ClearDirty, bucket_ok, versioned in *. cbn in *. split_and!; naive_solver lia.
  - by rewrite (clone_same b Hok).
  - rewrite (RangeBucketRecord_read b buf offset Hok Hi) in Hd. by injection Hd as <- _.
Qed.
End buckets.

(** The owner of a bucket on a node follows the version: however migrations are prepared,
    committed and cleared, and the record is copied or sent to another node, the version
    never goes back, the owner is the one of that version, and a pending owner belongs to a
    newer version. *)
Theorem bucket_version_monotone (owner_of : Z → Z) (b b' : BucketInfo) : (∀ ts, is_uint 4 (owner_of ts)) →
  rtc (bucket_step owner_of) (BucketInfo_new UINT32_MAX 0) b → rtc (bucket_step owner_of) b b' →
  (version_ b ≤ version_ b')%Z ∧ versioned owner_of UINT32_MAX (bucket_owner_ b') (version_ b') (dirty_bucket_owner_ b') (dirty_version_ b').
Proof.
  intros Ho H0 H1. assert (bucket_ok owner_of b) as Hok.
  { assert (bucket_ok owner_of (BucketInfo_new UINT32_MAX 0)) as Hn.
    { split; [split; [done|]; split; by left|]. by vm_compute. }
    remember (BucketInfo_new UINT32_MAX 0) as b0. clear Heqb0 H1. induction H0 as [|x y z Hs _ IH]; [done|]. apply IH. by eapply bucket_step_ok. }
  clear H0. induction H1 as [|x y z Hs _ IH]; [split; [lia|apply Hok]|]. destruct (bucket_step_ok _ Ho _ _ Hok Hs) as [Hok' Hle]. destruct (IH Hok') as [? ?]. split; [lia|done].
Qed.

Lemma bucket_version_monotone_witness :
  let b := SetDirty (BucketInfo_new UINT32_MAX 0) 4 9 in let b' := CommitDirty b in
  (version_ b ≤ version_ b')%Z ∧ version_ b' = 9%Z ∧ bucket_owner_ b' = 4%Z.
Proof.
  intros b b'. destruct (bucket_version_monotone (λ _, 4%Z) b b') as [H _].
  - intros _. unfold is_uint. lia.
  - eapply rtc_l; [apply (bs_dirty (λ _, 4%Z) _ 9); unfold is_uint; lia|]. apply rtc_refl.
  - eapply rtc_l; [apply bs_commit|]. apply rtc_refl.
  - split; [exact H|split; reflexivity].
Defined.
