(* ===== verification/RecordOwnership.v ===== *)
(** * Records that own or refer to their value

    [RangeBucketRecord] and [ClusterConfigRecord] keep in a union either a raw pointer to a
    value of somebody else or a [std::unique_ptr] to their own, and a flag says which.  Both
    members are one word, so what is stored as one is read as the other.  The theorem says
    that the operations on bucket records free every value exactly once; the examples show
    where the two classes do not.  Source: [include/range_bucket_key_record.h],
    [src/range_bucket_key_record.cpp], [include/cluster_config_record.h]. *)

From S2P Require Import Prelude Ownership.

(** The union and the flag. *)
Record RecordRef := mkRef {
  info_ : option Z;
  is_owner_ : bool;
}.
(** The live values, those held by unique pointers elsewhere, and the records. *)
Record RecordState := mkRecState {
  live : gset Z;
  outside : gset Z;
  recs : gmap Z RecordRef;
}.

Definition rec_owns (m : gmap Z RecordRef) (x : Z) : option Z := r ← m !! x; if is_owner_ r then info_ r else None.

Section ops.
Implicit Types (h u : gset Z) (r rhs : RecordRef) (s : RecordState) (m : gmap Z RecordRef) (x y a : Z).

(** What the record owns is freed, and the pointer is null: [uptr.reset()], or the
    assignment of null to the raw pointer. *)
Definition release h r : option (gset Z) := if is_owner_ r then delete_held h (info_ r) else Some h.

(** ** [RangeBucketRecord] *)

(** A constructor that does not initialize the union and then assigns to the [unique_ptr]
    frees what was in the storage, [garbage]. *)
Definition RangeBucketRecord_copy_ctor h (garbage : option Z) rhs (a : Z) : option (gset Z * RecordRef) :=
  if is_owner_ rhs then _ ← info_ rhs; h1 ← delete_held h garbage; Some (h1 ∪ {[a]}, mkRef (Some a) true)
  else Some (h, mkRef (info_ rhs) false).
Definition RangeBucketRecord_move_ctor h (garbage : option Z) rhs : option (gset Z * RecordRef * RecordRef) :=
  if is_owner_ rhs then h1 ← delete_held h garbage; Some (h1, mkRef (info_ rhs) true, mkRef None true)
  else Some (h, mkRef (info_ rhs) false, rhs).
Definition RangeBucketRecord_assign h r rhs (a : Z) : option (gset Z * RecordRef) :=
  h1 ← release h r;
  if is_owner_ rhs then _ ← info_ rhs; Some (h1 ∪ {[a]}, mkRef (Some a) true) else Some (h1, mkRef (info_ rhs) false).
Definition RangeBucketRecord_destroy h r : option (gset Z) := release h r.
(** [bucket_info_uptr_ = std::make_unique<BucketInfo>(...)]. *)
Definition RangeBucketRecord_deserialized h r (a : Z) : option (gset Z * RecordRef) :=
  h1 ← release h r; Some (h1 ∪ {[a]}, mkRef (Some a) true).
Definition SetBucketInfo_ptr h r (p : option Z) : option (gset Z * RecordRef) := h1 ← release h r; Some (h1, mkRef p false).
Definition SetBucketInfo_uptr h r (p : option Z) : option (gset Z * RecordRef) := h1 ← release h r; Some (h1, mkRef p true).

(** ** [ClusterConfigRecord] *)

(** The assignment of a unique pointer frees the word that the union holds. *)
Definition ClusterConfigRecord_assign h r rhs (a : Z) : option (gset Z * RecordRef) :=
  h1 ← release h r;
  let left := if is_owner_ r then None else info_ r in
  if is_owner_ rhs then _ ← info_ rhs; h2 ← delete_held (h1 ∪ {[a]}) left; Some (h2, mkRef (Some a) true)
  else Some (h1, mkRef (info_ rhs) false).
Definition ClusterConfigRecord_deserialized h r (a : option Z) : option (gset Z * RecordRef) :=
  h1 ← delete_held h (info_ r);
  Some (match a with Some a => (h1 ∪ {[a]}, mkRef (Some a) true) | None => (h1, mkRef None true) end).
Definition SetNodeGroupConfigs_ptr h r (p : option Z) : option (gset Z * RecordRef) := h1 ← release h r; Some (h1, mkRef p false).
Definition SetNodeGroupConfigs_uptr h r (p : option Z) : option (gset Z * RecordRef) := h1 ← delete_held h (info_ r); Some (h1, mkRef p true).
Definition ClusterConfigRecord_Reset h r : option (gset Z * RecordRef) := h1 ← release h r; Some (h1, mkRef None false).

(** ** Programs on bucket records *)

Inductive bucket_op :=
  | MakeInfo (a : Z) | FreeInfo (a : Z)
  | Default (x : Z) | FromInfo (x a : Z) | CopyCtor (garbage : option Z) (x y a : Z) | MoveCtor (garbage : option Z) (x y : Z) | Assign (x y a : Z)
  | DestroyRec (x : Z) | DeserializeRec (x a : Z) | SetPtr (x : Z) (p : option Z) | SetUptr (x a : Z).

Definition put s (x : Z) (res : option (gset Z * RecordRef)) : option RecordState :=
  '(h, r) ← res; Some (mkRecState h (outside s) (<[x := r]> (recs s))).

Definition exec_bucket (op : bucket_op) s : option RecordState :=
  match op with
  | MakeInfo a => Some (mkRecState (live s ∪ {[a]}) (outside s ∪ {[a]}) (recs s))
  | FreeInfo a => h ← Delete (live s) a; Some (mkRecState h (outside s ∖ {[a]}) (recs s))
  | Default x => put s x (Some (live s, mkRef None false))
  | FromInfo x a => put s x (Some (live s, mkRef (Some a) false))
  | CopyCtor g x y a => rhs ← recs s !! y; put s x (RangeBucketRecord_copy_ctor (live s) g rhs a)
  | MoveCtor g x y =>
      rhs ← recs s !! y;
      '(h, r, rhs') ← RangeBucketRecord_move_ctor (live s) g rhs;
      Some (mkRecState h (outside s) (<[x := r]> (<[y := rhs']> (recs s))))
  | Assign x y a =>
      if decide (x = y) then Some s
      else r ← recs s !! x; rhs ← recs s !! y; put s x (RangeBucketRecord_assign (live s) r rhs a)
  | DestroyRec x => r ← recs s !! x; h ← RangeBucketRecord_destroy (live s) r; Some (mkRecState h (outside s) (delete x (recs s)))
  | DeserializeRec x a => r ← recs s !! x; put s x (RangeBucketRecord_deserialized (live s) r a)
  | SetPtr x p => r ← recs s !! x; put s x (SetBucketInfo_ptr (live s) r p)
  | SetUptr x a =>
      r ← recs s !! x;
      '(h, r') ← SetBucketInfo_uptr (live s) r (Some a);
      Some (mkRecState h (outside s ∖ {[a]}) (<[x := r']> (recs s)))
  end.

(** Allocations are fresh, new records are new variables, a record that is copied has
    not been moved from, and the copy and move constructors find zeroed storage. *)
Definition has_info s (y : Z) : Prop := ∃ r, recs s !! y = Some r ∧ (is_owner_ r = true → is_Some (info_ r)).
Definition bucket_pre (op : bucket_op) s : Prop :=
  match op with
  | MakeInfo a => a ∉ live s
  | FreeInfo a => a ∈ outside s
  | Default x | FromInfo x _ => recs s !! x = None
  | CopyCtor g x y a => g = None ∧ recs s !! x = None ∧ has_info s y ∧ a ∉ live s
  | MoveCtor g x y => g = None ∧ recs s !! x = None ∧ is_Some (recs s !! y)
  | Assign x y a => is_Some (recs s !! x) ∧ has_info s y ∧ a ∉ live s
  | DestroyRec x => is_Some (recs s !! x)
  | DeserializeRec x a => is_Some (recs s !! x) ∧ a ∉ live s
  | SetPtr x _ => is_Some (recs s !! x)
  | SetUptr x a => is_Some (recs s !! x) ∧ a ∈ outside s
  end.

(** ** One owner *)

Lemma rec_owns_insert m x r y : rec_owns (<[x := r]> m) y = if decide (x = y) then (if is_owner_ r then info_ r else None) else rec_owns m y.
Proof. unfold rec_owns. case_decide as Hxy; [subst; by rewrite lookup_insert_eq|by rewrite lookup_insert_ne]. Qed.

Definition recs_held h (u : gset Z) m : Prop := held_once h u (rec_owns m).
(** The same, with nothing owned by [x]. *)
Definition recs_held_but h (u : gset Z) m (x : Z) : Prop := held_once h u (set_own (rec_owns m) x None).

Lemma held_but_new h u m x : recs_held h u m → m !! x = None → recs_held_but h u m x.
Proof. intros Hh Hx. eapply held_ext; [done|]. intros y. unfold set_own. case_decide; [subst; unfold rec_owns; by rewrite Hx|done]. Qed.

Lemma release_ok h u m x r : recs_held h u m → m !! x = Some r → ∃ h', release h r = Some h' ∧ recs_held_but h' u m x ∧ h' ⊆ h.
Proof.
  intros Hh Hx. destruct (held_drop _ _ _ x Hh) as (h' & Hd & Hb & Hs). exists h'. split_and!; [|done..].
  unfold rec_owns in Hd. rewrite Hx in Hd. cbn in Hd. unfold release. by destruct (is_owner_ r).
Qed.

(** What [x] may become: a record that owns nothing, that owns a new value, or one that a
    unique pointer gave up. *)
Lemma put_ref h u m x p : recs_held_but h u m x → recs_held h u (<[x := mkRef p false]> m).
Proof. intros Hb. eapply held_ext; [done|]. intros y. by rewrite rec_owns_insert. Qed.

Lemma put_given h u m x a : recs_held_but h u m x → a ∈ u → recs_held h (u ∖ {[a]}) (<[x := mkRef (Some a) true]> m).
Proof.
  intros Hb Ha. eapply held_ext; [apply (held_give _ _ _ x a Hb Ha); unfold set_own; by rewrite decide_True|].
  intros y. rewrite rec_owns_insert. unfold set_own. by repeat case_decide.
Qed.

Lemma put_new h u m x a : recs_held_but h u m x → a ∉ h → recs_held (h ∪ {[a]}) u (<[x := mkRef (Some a) true]> m).
Proof.
  intros Hb Ha. assert (a ∉ u) as Hu by (intros Hu; apply Ha, (ho_uniq _ _ _ Hb a Hu)).
  replace u with ((u ∪ {[a]}) ∖ {[a]}) by set_solver. apply put_given; [by apply held_new|set_solver].
Qed.

Lemma move_ctor_ok h u m x y rhs : recs_held h u m → m !! x = None → m !! y = Some rhs → ∃ r rhs',
  RangeBucketRecord_move_ctor h None rhs = Some (h, r, rhs') ∧ recs_held h u (<[x := r]> (<[y := rhs']> m)).
Proof.
  intros Hh Hx Hy. assert (x ≠ y) as Hne by congruence. unfold RangeBucketRecord_move_ctor. destruct (is_owner_ rhs) eqn:Ho; cbn.
  - do 2 eexists. split; [done|]. assert (rec_owns m y = info_ rhs) as Ey by (unfold rec_owns; rewrite Hy; cbn; by rewrite Ho).
    assert (rec_owns m x = None) as Ex by (unfold rec_owns; by rewrite Hx).
    eapply held_ext; [apply (held_move _ _ _ x y Hh Ex Hne)|]. intros z. rewrite !rec_owns_insert, Ey. unfold set_own. by repeat case_decide.
  - do 2 eexists. split; [done|]. rewrite (insert_id m y rhs Hy). by apply put_ref, held_but_new.
Qed.

Definition recs_ok s : Prop := recs_held (live s) (outside s) (recs s).

(** An operation that first frees what the record owns. *)
Lemma put_ok s x r f : recs_ok s → recs s !! x = Some r →
  (∀ h, h ⊆ live s → recs_held_but h (outside s) (recs s) x → ∃ h' r', f h = Some (h', r') ∧ recs_held h' (outside s) (<[x := r']> (recs s))) →
  ∃ s', put s x (h ← release (live s) r; f h) = Some s' ∧ recs_ok s'.
Proof.
  intros Hok Hx Hf. destruct (release_ok _ _ _ _ _ Hok Hx) as (h & -> & Hb & Hs). cbn. destruct (Hf h Hs Hb) as (h' & r' & -> & Hr). by eexists.
Qed.

Lemma exec_recs_ok s op : recs_ok s → bucket_pre op s → ∃ s', exec_bucket op s = Some s' ∧ recs_ok s'.
Proof.
  intros Hok Hpre. destruct op as [a|a|x|x a|g x y a|g x y|x y a|x|x a|x p|x a]; cbn [exec_bucket bucket_pre] in *.
  - eexists. split; [done|]. by apply held_new.
  - destruct (held_free _ _ _ a Hok Hpre) as [-> Hf]. by eexists.
  - eexists. split; [done|]. by apply put_ref, held_but_new.
  - eexists. split; [done|]. by apply put_ref, held_but_new.
  - destruct Hpre as (-> & Hx & (rhs & Hy & Hi) & Ha). rewrite Hy. unfold RangeBucketRecord_copy_ctor. cbn. destruct (is_owner_ rhs).
    + destruct (Hi eq_refl) as [b ->]. eexists. split; [done|]. by apply put_new; [apply held_but_new|].
    + eexists. split; [done|]. by apply put_ref, held_but_new.
  - destruct Hpre as (-> & Hx & rhs & Hy). rewrite Hy. cbn. destruct (move_ctor_ok _ _ _ _ _ _ Hok Hx Hy) as (r & rhs' & -> & Hh). by eexists.
  - destruct Hpre as ([r Hx] & (rhs & Hy & Hi) & Ha). destruct (decide (x = y)); [by eexists|]. rewrite Hx, Hy. cbn.
    apply put_ok; [done..|]. intros h Hs Hb. destruct (is_owner_ rhs).
    + destruct (Hi eq_refl) as [b ->]. do 2 eexists. split; [done|]. apply put_new; set_solver.
    + do 2 eexists. split; [done|]. by apply put_ref.
  - destruct Hpre as [r Hx]. rewrite Hx. unfold RangeBucketRecord_destroy. cbn. destruct (release_ok _ _ _ _ _ Hok Hx) as (h & -> & Hb & _). cbn. eexists. split; [done|].
    eapply held_ext; [done|]. intros y. unfold rec_owns, set_own. cbn. case_decide; [subst; by rewrite lookup_delete_eq|by rewrite lookup_delete_ne].
  - destruct Hpre as [[r Hx] Ha]. rewrite Hx. cbn. apply put_ok; [done..|]. intros h Hs Hb. do 2 eexists. split; [done|]. apply put_new; set_solver.
  - destruct Hpre as [r Hx]. rewrite Hx. cbn. apply put_ok; [done..|]. intros h Hs Hb. do 2 eexists. split; [done|]. by apply put_ref.
  - destruct Hpre as [[r Hx] Ha]. rewrite Hx. unfold SetBucketInfo_uptr. cbn. destruct (release_ok _ _ _ _ _ Hok Hx) as (h & -> & Hb & _). cbn.
    eexists. split; [done|]. by apply put_given.
Qed.
End ops.

Definition recs_step (s s' : RecordState) : Prop := ∃ op, bucket_pre op s ∧ exec_bucket op s = Some s'.

(** Every [BucketInfo] is freed exactly once.  In every state that operations on bucket
    records reach, each operation whose precondition holds runs without freeing a value
    that is not alive, every live value has exactly one owner, and when the records and the
    unique pointers elsewhere are gone no value is left. *)
Theorem BucketInfo_freed_once (s : RecordState) : rtc recs_step (mkRecState ∅ ∅ ∅) s →
  (∀ op, bucket_pre op s → is_Some (exec_bucket op s)) ∧ held_once (live s) (outside s) (rec_owns (recs s)) ∧
  (outside s = ∅ → recs s = ∅ → live s = ∅).
Proof.
  intros Hr. assert (recs_ok s) as Hok.
  { assert (recs_ok (mkRecState ∅ ∅ ∅)) as H0 by (split; cbn; set_solver).
    remember (mkRecState ∅ ∅ ∅) as s0. clear Heqs0. induction Hr as [|s1 s2 s3 (op & Hpre & Hex) _ IH]; [done|]. apply IH.
    destruct (exec_recs_ok s1 op H0 Hpre) as (s' & Hex' & Hok'). congruence. }
  split_and!; [|done|].
  - intros op Hpre. destruct (exec_recs_ok s op Hok Hpre) as (s' & -> & _). by eexists.
  - intros Hu Hh. unfold recs_ok in Hok. rewrite Hu, Hh in Hok. apply (held_nothing_left _ _ Hok). intros x. unfold rec_owns. by rewrite lookup_empty.
Qed.

(** A bucket record takes over a value, and another one that referred to it becomes its
    copy. *)
Lemma BucketInfo_freed_once_witness : ∃ s, rtc recs_step (mkRecState ∅ ∅ ∅) s ∧ live s = {[16; 32]}%Z ∧
  is_Some (exec_bucket (DestroyRec 2) s) ∧ held_once (live s) (outside s) (rec_owns (recs s)).
Proof.
  eassert (rtc recs_step (mkRecState ∅ ∅ ∅) _) as Hr.
  { eapply rtc_l; [exists (MakeInfo 16); split; [|reflexivity]; cbn; set_solver|].
    eapply rtc_l; [exists (FromInfo 2 16); split; reflexivity|].
    eapply rtc_l; [exists (Default 1); split; reflexivity|].
    eapply rtc_l; [exists (SetUptr 1 16); split; [|reflexivity]; split; [by eexists|set_solver]|].
    eapply rtc_l; [exists (Assign 2 1 32); split; [|reflexivity]; split; [by eexists|]; split; [eexists; split; [reflexivity|by eexists]|set_solver]|].
    apply rtc_refl. }
  destruct (BucketInfo_freed_once _ Hr) as (H1 & H2 & _). eexists. split; [exact Hr|]. split_and!; [set_solver| |exact H2]. apply H1. cbn. by eexists.
Defined.

(** ** Cluster configurations *)

(** A cluster configuration record behaves like a bucket record as long as it owns its
    configuration or holds none. *)
Lemma cluster_ops_agree h r rhs a p : is_owner_ r = true ∨ info_ r = None →
  ClusterConfigRecord_assign h r rhs a = RangeBucketRecord_assign h r rhs a ∧
  ClusterConfigRecord_deserialized h r (Some a) = RangeBucketRecord_deserialized h r a ∧
  SetNodeGroupConfigs_uptr h r p = SetBucketInfo_uptr h r p.
Proof.
  unfold ClusterConfigRecord_assign, RangeBucketRecord_assign, ClusterConfigRecord_deserialized, RangeBucketRecord_deserialized,
    SetNodeGroupConfigs_uptr, SetBucketInfo_uptr, release.
  destruct r as [[b|] []]; cbn; intros [Hc|Hc]; try done; split_and!; try done; destruct (Delete h b) as [h1|]; cbn; try done; destruct (is_owner_ rhs), (info_ rhs); done.
Qed.

(** A record that refers to a configuration of somebody else frees it when it is
    deserialized, assigned an owned configuration, or given a unique pointer; its owner
    then frees it again. *)
Example ClusterConfigRecord_frees_referenced : let r := mkRef (Some 16%Z) false in
  Forall (λ res, (fst <$> res) ≫= (λ h, Delete h 16%Z) = None)
    [ClusterConfigRecord_deserialized {[16%Z]} r None; ClusterConfigRecord_assign {[16%Z; 32%Z]} r (mkRef (Some 32%Z) true) 48;
     SetNodeGroupConfigs_uptr {[16%Z; 32%Z]} r (Some 32%Z)] ∧
  Forall (λ res, is_Some ((fst <$> res) ≫= (λ h, Delete h 16%Z)))
    [RangeBucketRecord_deserialized {[16%Z]} r 48; RangeBucketRecord_assign {[16%Z; 32%Z]} r (mkRef (Some 32%Z) true) 48;
     SetBucketInfo_uptr {[16%Z; 32%Z]} r (Some 32%Z)].
Proof. by vm_compute; repeat constructor; eexists. Qed.

(** The copy constructor of a bucket record frees what happens to be in its storage. *)
Example copy_ctor_frees_garbage :
  RangeBucketRecord_copy_ctor {[16%Z]} (Some 7%Z) (mkRef (Some 16%Z) true) 32 = None ∧
  is_Some (RangeBucketRecord_copy_ctor {[16%Z]} None (mkRef (Some 16%Z) true) 32).
Proof. by vm_compute; split; [|eexists]. Qed.
