(* ===== verification/ReadWriteSet.v ===== *)
(** * The read and write sets of a transaction ([include/read_write_set.h])

    A transaction collects the entries it has read, with the version it saw, and
    the keys it will write.  Both sets are grouped by table.  The counters next
    to them are what the commit protocol uses to know how many answers to wait
    for, so they must agree with the sets.

    [K] and [R] are the key and record types of the storage engine; the sources
    use of them only the serialised length.  Tables are visited in an unspecified
    order, that of [map_to_list].  A member function returns [None] where the
    source would follow a null pointer. *)

From S2P Require Import Prelude CcProtocol TableName.

Inductive OperationType :=
  | OpUpdate | OpDelete | OpInsert | OpUpsert | OpCreateTable | OpDropTable
  | OpTruncateTable | OpAddIndex | OpDropIndex | OpCommitCommands.

#[export] Instance OperationType_eq_dec : EqDecision OperationType.
Proof. solve_decision. Defined.

(** [CcEntryAddr]: the lock structure of an entry, on a core of a node group, under
    the group's term.  Addresses of locks that were acquired are not null. *)
Record CcEntryAddr := mkAddr {
  cce_lock_ptr_ : Z;
  node_group_id_ : Z;
  core_id_ : Z;
  addr_term_ : Z;
}.

#[export] Instance CcEntryAddr_eq_dec : EqDecision CcEntryAddr.
Proof. solve_decision. Defined.
#[export] Instance CcEntryAddr_countable : Countable CcEntryAddr.
Proof.
  refine (inj_countable' (λ a, (cce_lock_ptr_ a, node_group_id_ a, core_id_ a, addr_term_ a))
    (λ x, mkAddr x.1.1.1 x.1.1.2 x.1.2 x.2) _).
  by intros [].
Defined.

Definition CcEntryAddr_new : CcEntryAddr := mkAddr 0 0 0 (-1).

(** [SetCceLock(0, -1, 0)], which keeps the node group. *)
Definition clear_addr (a : CcEntryAddr) : CcEntryAddr := mkAddr 0 (node_group_id_ a) 0 (-1).
Definition SetTerm (a : CcEntryAddr) (term : Z) : CcEntryAddr :=
  mkAddr (cce_lock_ptr_ a) (node_group_id_ a) (core_id_ a) term.

(** [AcquireKeyResult]: the answer to one request for a write lock. *)
Record AcquireKeyResult := mkAcquireResult {
  ar_cce_addr_ : CcEntryAddr;
  ar_last_vali_ts_ : Z;
  ar_commit_ts_ : Z;
}.

Record ReadSetEntry := mkReadEntry { version_ts_ : Z; read_cnt_ : Z }.

Record WriteSetEntry (R : Type) := mkWriteEntry {
  rec_ : option R;
  op_ : OperationType;
  cce_addr_ : CcEntryAddr;
  key_shard_code_ : Z;
  forward_addr_ : gmap Z CcEntryAddr;
}.
Arguments mkWriteEntry {_}.
Arguments rec_ {_}.
Arguments op_ {_}.
Arguments cce_addr_ {_}.
Arguments key_shard_code_ {_}.
Arguments forward_addr_ {_}.

Record ReplicaWriteSetEntry (R : Type) := mkReplicaEntry {
  replica_rec_ : option R;
  replica_op_ : OperationType;
}.
Arguments mkReplicaEntry {_}.

Inductive TxErrorCode := Tx_NO_ERROR | Tx_WRITE_SET_BYTES_COUNT_EXCEED_ERR | Tx_DUPLICATE_KEY.

Record ReadWriteSet (K R : Type) `{Countable K} := mkRwSet {
  rset_ : gmap TableName (gmap CcEntryAddr ReadSetEntry);
  read_lock_ng_terms_ : gmap Z Z;
  wset_ : gmap TableName (Z * gmap K (WriteSetEntry R));
  wset_cnt_ : Z;
  data_rset_cnt_ : Z;
  wset_bytes_cnt_ : Z;
  forward_write_cnt_ : Z;
  catalog_wset_ : gmap K (ReplicaWriteSetEntry R);
}.
Arguments mkRwSet {_ _ _ _}.
Arguments rset_ {_ _ _ _}.
Arguments read_lock_ng_terms_ {_ _ _ _}.
Arguments wset_ {_ _ _ _}.
Arguments wset_cnt_ {_ _ _ _}.
Arguments data_rset_cnt_ {_ _ _ _}.
Arguments wset_bytes_cnt_ {_ _ _ _}.
Arguments forward_write_cnt_ {_ _ _ _}.
Arguments catalog_wset_ {_ _ _ _}.

Definition MaxWriteSetBytesCnt : Z := 62 * 1024 * 1024.

Section rwset.
Context {K R : Type} `{Countable K} (key_len : K → Z) (rec_len : R → Z).
Abbreviation rwset := (ReadWriteSet K R).
Abbreviation tws := (gmap K (WriteSetEntry R)).
Implicit Types (s : rwset) (t : TableName) (a : CcEntryAddr) (k : K).

Definition set_reads s rset terms cnt : rwset :=
  mkRwSet rset terms (wset_ s) (wset_cnt_ s) cnt (wset_bytes_cnt_ s) (forward_write_cnt_ s) (catalog_wset_ s).
Definition set_writes s wset cnt bytes fwd : rwset :=
  mkRwSet (rset_ s) (read_lock_ng_terms_ s) wset cnt (data_rset_cnt_ s) bytes fwd (catalog_wset_ s).

(** The constructor and [Reset] leave the same state. *)
Definition ReadWriteSet_Reset : rwset := mkRwSet ∅ ∅ ∅ 0 0 0 0 ∅.

Definition DataReadSetSize s : Z := data_rset_cnt_ s.
Definition WriteSetSize s : Z := wset_cnt_ s.
Definition CatalogWriteSetSize s : Z := Z.of_nat (size (catalog_wset_ s)).
Definition ForwardWriteCnt s : Z := forward_write_cnt_ s.

Definition CatalogRangeReadSetSize s : Z :=
  map_sum (λ t (rs : gmap CcEntryAddr ReadSetEntry),
    if bool_decide (tn_type t = Catalog) || bool_decide (tn_type t = RangePartition) ||
       bool_decide (tn_type t = RangeBucket)
    then Z.of_nat (size rs) else 0%Z) (rset_ s).

Definition ClusterConfigReadLocked s : bool :=
  match rset_ s !! cluster_config_ccm_name with
  | Some rs => negb (bool_decide (rs = ∅))
  | None => false
  end.

Definition IncreaseFowardWriteCnt s (cnt : Z) : rwset :=
  set_writes s (wset_ s) (wset_cnt_ s) (wset_bytes_cnt_ s) (u64 (forward_write_cnt_ s + cnt)).
Definition ResetForwardWriteCount s : rwset :=
  set_writes s (wset_ s) (wset_cnt_ s) (wset_bytes_cnt_ s) 0.

(** ** Reads *)

Definition u16 (x : Z) : Z := x mod 2 ^ 16.

Definition AddRead s a (read_ts : Z) t : bool * rwset :=
  let tbl := default ∅ (rset_ s !! t) in
  match tbl !! a with
  | Some e =>
      if bool_decide (version_ts_ e < read_ts)%Z && bool_decide (version_ts_ e ≠ 0%Z) then (false, s)
      else
        let e1 := mkReadEntry (if decide (0 < read_ts)%Z then read_ts else version_ts_ e) (u16 (read_cnt_ e + 1)) in
        (true, set_reads s (<[t := <[a := e1]> tbl]> (rset_ s)) (read_lock_ng_terms_ s) (data_rset_cnt_ s))
  | None =>
      (true,
       set_reads s (<[t := <[a := mkReadEntry read_ts 1]> tbl]> (rset_ s)) (read_lock_ng_terms_ s)
         (if IsMeta (tn_type t) then data_rset_cnt_ s else u64 (data_rset_cnt_ s + 1)))
  end.

(** The first table that has the address. *)
Definition find_read s a : option (TableName * gmap CcEntryAddr ReadSetEntry * ReadSetEntry) :=
  x ← list_find (λ x : TableName * gmap CcEntryAddr ReadSetEntry, is_Some (x.2 !! a)) (map_to_list (rset_ s));
  e ← x.2.2 !! a;
  Some (x.2.1, x.2.2, e).

Definition UpdateRead s a (version_ts : Z) : rwset :=
  match find_read s a with
  | None => s
  | Some (t, tbl, e) =>
      set_reads s (<[t := <[a := mkReadEntry version_ts (read_cnt_ e)]> tbl]> (rset_ s))
        (read_lock_ng_terms_ s) (data_rset_cnt_ s)
  end.

Definition DedupRead s a : Z * rwset :=
  match find_read s a with
  | None => (0%Z, s)
  | Some (t, tbl, e) =>
      (version_ts_ e,
       set_reads s (<[t := delete a tbl]> (rset_ s)) (read_lock_ng_terms_ s)
         (if IsMeta (tn_type t) then data_rset_cnt_ s else u64 (data_rset_cnt_ s - 1)))
  end.

(** The overload that names the table. *)
Definition DedupRead_table s t a : Z * rwset :=
  match rset_ s !! t ≫= λ tbl, e ← tbl !! a; Some (tbl, e) with
  | None => (0%Z, s)
  | Some (tbl, e) =>
      let tbl1 := delete a tbl in
      (version_ts_ e,
       set_reads s (if decide (tbl1 = ∅) then delete t (rset_ s) else <[t := tbl1]> (rset_ s))
         (read_lock_ng_terms_ s)
         (if IsMeta (tn_type t) then data_rset_cnt_ s else u64 (data_rset_cnt_ s - 1)))
  end.

Definition GetReadCnt s t a : Z :=
  match rset_ s !! t ≫= (.!! a) with Some e => read_cnt_ e | None => 0 end.

(** One read less; the number of reads left. *)
Definition RemoveReadEntry s t a : Z * rwset :=
  match rset_ s !! t ≫= λ tbl, e ← tbl !! a; Some (tbl, e) with
  | None => (0%Z, s)
  | Some (tbl, e) =>
      let read_cnt := u16 (read_cnt_ e - 1) in
      if decide (read_cnt = 0%Z) then
        (0%Z, set_reads s (<[t := delete a tbl]> (rset_ s)) (read_lock_ng_terms_ s) (u64 (data_rset_cnt_ s - 1)))
      else
        (read_cnt,
         set_reads s (<[t := <[a := mkReadEntry (version_ts_ e) read_cnt]> tbl]> (rset_ s))
           (read_lock_ng_terms_ s) (data_rset_cnt_ s))
  end.

Definition is_meta_table (x : TableName * gmap CcEntryAddr ReadSetEntry) : Prop := IsMeta (tn_type x.1) = true.

(** The data tables are dropped; the terms of their locks are kept for the log. *)
Definition ClearReadSet s : rwset :=
  let keep_terms (terms : gmap Z Z) (x : CcEntryAddr * ReadSetEntry) :=
    match terms !! node_group_id_ x.1 with
    | Some _ => terms
    | None => <[node_group_id_ x.1 := addr_term_ x.1]> terms
    end in
  let step (acc : gmap Z Z * Z) (x : TableName * gmap CcEntryAddr ReadSetEntry) :=
    if IsMeta (tn_type x.1) then acc
    else (foldl keep_terms acc.1 (map_to_list x.2), u64 (acc.2 - Z.of_nat (size x.2))) in
  let '(terms, cnt) := foldl step (read_lock_ng_terms_ s, data_rset_cnt_ s) (map_to_list (rset_ s)) in
  set_reads s (filter is_meta_table (rset_ s)) terms cnt.

(** The overload that names the table, without range partitions. *)
Definition ClearReadSet_table s t : rwset :=
  match rset_ s !! t with
  | None => s
  | Some tbl =>
      set_reads s (delete t (rset_ s)) (read_lock_ng_terms_ s)
        (if TableName_eqb t catalog_ccm_name then data_rset_cnt_ s
         else u64 (data_rset_cnt_ s - Z.of_nat (size tbl)))
  end.

(** ** Writes *)

(** [None] where an assertion fails. *)
Definition ApplyToWSetEntry (e : WriteSetEntry R) (op : OperationType) (rec : option R) (check_unique : bool)
    : option (bool * WriteSetEntry R) :=
  let set (rec : option R) (op : OperationType) := Some (true, mkWriteEntry rec op (cce_addr_ e) (key_shard_code_ e) (forward_addr_ e)) in
  match op_ e, op with
  | OpInsert, OpInsert => if check_unique then Some (false, e) else set rec OpInsert
  | OpInsert, OpUpdate => set rec OpInsert
  | OpInsert, OpDelete => set None OpDelete
  | OpUpdate, OpUpdate => set rec OpUpdate
  | OpUpdate, OpDelete => set None OpDelete
  | OpDelete, OpInsert => set rec OpUpdate
  | OpDelete, OpDelete => set None OpDelete
  | _, _ => None
  end.

Definition rec_size (rec : option R) : Z := match rec with Some r => rec_len r | None => 0 end.

Definition AddWrite s t (schema_version : Z) k (rec : option R) (op_type : OperationType) (check_unique : bool)
    : option (TxErrorCode * rwset) :=
  let bytes := u64 (wset_bytes_cnt_ s + (key_len k + rec_size rec)) in
  if decide (MaxWriteSetBytesCnt < bytes)%Z then
    Some (Tx_WRITE_SET_BYTES_COUNT_EXCEED_ERR,
          set_writes s (wset_ s) (wset_cnt_ s) bytes (forward_write_cnt_ s))
  else
    let '(ver, w) := default (schema_version, ∅ : tws) (wset_ s !! t) in
    match w !! k with
    | None =>
        Some (Tx_NO_ERROR,
              set_writes s (<[t := (ver, <[k := mkWriteEntry rec op_type CcEntryAddr_new 0 ∅]> w)]> (wset_ s))
                (u64 (wset_cnt_ s + 1)) bytes (forward_write_cnt_ s))
    | Some e =>
        r ← ApplyToWSetEntry e op_type rec check_unique;
        Some (if (r.1 : bool) then Tx_NO_ERROR else Tx_DUPLICATE_KEY,
              set_writes s (<[t := (ver, <[k := r.2]> w)]> (wset_ s)) (wset_cnt_ s) bytes (forward_write_cnt_ s))
    end.

Definition AddCatalogWrite s k (rec : R) : rwset :=
  mkRwSet (rset_ s) (read_lock_ng_terms_ s) (wset_ s) (wset_cnt_ s) (data_rset_cnt_ s) (wset_bytes_cnt_ s)
    (forward_write_cnt_ s) (<[k := mkReplicaEntry (Some rec) OpUpdate]> (catalog_wset_ s)).

Definition ClearCatalogWriteSet s : rwset :=
  mkRwSet (rset_ s) (read_lock_ng_terms_ s) (wset_ s) (wset_cnt_ s) (data_rset_cnt_ s) (wset_bytes_cnt_ s)
    (forward_write_cnt_ s) ∅.

Definition FindWrite s t k : option (WriteSetEntry R) := wset_ s !! t ≫= λ w, w.2 !! k.

(** The record is dereferenced, which a delete does not have. *)
Definition DeleteWrite s t k : option rwset :=
  vw ← (wset_ s !! t : option (Z * tws));
  e ← vw.2 !! k;
  rec ← rec_ e;
  let w : tws := delete k vw.2 in
  Some (set_writes s (if decide (size w = 0) then delete t (wset_ s) else <[t := (vw.1, w)]> (wset_ s))
          (u64 (wset_cnt_ s - 1)) (u64 (wset_bytes_cnt_ s - (key_len k + rec_len rec))) (forward_write_cnt_ s)).

Definition ClearWriteSet s : rwset := set_writes s ∅ 0 0 0.

Definition entry_bytes (k : K) (e : WriteSetEntry R) : Z := (key_len k + rec_size (rec_ e))%Z.

(** The overload that names the table. *)
Definition ClearWriteSet_table s t : rwset :=
  match wset_ s !! t with
  | None => s
  | Some vw =>
      set_writes s (delete t (wset_ s)) (u64 (wset_cnt_ s - Z.of_nat (size vw.2)))
        (u64 (wset_bytes_cnt_ s - map_sum entry_bytes vw.2))
        (u64 (forward_write_cnt_ s - map_sum (λ _ e, Z.of_nat (size (forward_addr_ e))) vw.2))
  end.
End rwset.

(** ** The counters agree with the sets *)

Section counters.
Context {K R : Type} `{Countable K} (key_len : K → Z) (rec_len : R → Z).
Abbreviation rwset := (ReadWriteSet K R).
Implicit Types (s : rwset) (t : TableName) (a : CcEntryAddr) (k : K).

Definition read_weight t (rs : gmap CcEntryAddr ReadSetEntry) : Z :=
  if IsMeta (tn_type t) then 0 else Z.of_nat (size rs).
(** The number of entries of data tables that were read. *)
Definition data_reads (m : gmap TableName (gmap CcEntryAddr ReadSetEntry)) : Z := map_sum read_weight m.
(** The number of keys written. *)
Definition writes (m : gmap TableName (Z * gmap K (WriteSetEntry R))) : Z :=
  map_sum (λ _ vw, Z.of_nat (size vw.2)) m.
(** The bytes of the keys and records to be written. *)
Definition live_bytes (m : gmap TableName (Z * gmap K (WriteSetEntry R))) : Z :=
  map_sum (λ _ vw, map_sum (entry_bytes key_len rec_len) vw.2) m.

Record rw_ok s : Prop := {
  rw_reads : data_rset_cnt_ s = u64 (data_reads (rset_ s));
  rw_writes : wset_cnt_ s = u64 (writes (wset_ s));
  rw_bytes : (live_bytes (wset_ s) <= wset_bytes_cnt_ s < 2 ^ 64 ∧ live_bytes (wset_ s) <= MaxWriteSetBytesCnt)%Z;
}.

Lemma map_sum_insert_default {A} (f : TableName → A → Z) (d : A) m t x :
  f t d = 0%Z → map_sum f (<[t := x]> m) = (map_sum f m - f t (default d (m !! t)) + f t x)%Z.
Proof.
  intros Hd. destruct (m !! t) as [y|] eqn:E; cbn.
  - by rewrite (map_sum_insert f m t x y).
  - rewrite map_sum_insert_None by done. lia.
Qed.

Lemma read_weight_empty t : read_weight t ∅ = 0%Z.
Proof. unfold read_weight. rewrite map_size_empty. by destruct (IsMeta _). Qed.

Lemma data_reads_insert m t x :
  data_reads (<[t := x]> m) = (data_reads m - read_weight t (default ∅ (m !! t)) + read_weight t x)%Z.
Proof. apply map_sum_insert_default, read_weight_empty. Qed.

Lemma find_read_spec s a t tbl e :
  find_read s a = Some (t, tbl, e) → rset_ s !! t = Some tbl ∧ tbl !! a = Some e.
Proof.
  unfold find_read. destruct (list_find _ _) as [[i [t' tbl']]|] eqn:E; cbn; [|done].
  apply list_find_Some in E as (Hi & _). destruct (tbl' !! a) as [e'|] eqn:Ea; cbn; [|done].
  intros [= <- <- <-]. split; [|done]. by apply elem_of_map_to_list, list_elem_of_lookup_2 with i.
Qed.

(** The size of a table after one entry changes. *)
Lemma read_weight_insert t tbl a e :
  read_weight t (<[a := e]> tbl) =
  (read_weight t tbl + (if decide (is_Some (tbl !! a)) then 0 else if IsMeta (tn_type t) then 0 else 1))%Z.
Proof.
  unfold read_weight. destruct (decide _) as [Hs|Hn].
  - rewrite map_size_insert_Some by done. lia.
  - rewrite map_size_insert_None by (by apply eq_None_not_Some). destruct (IsMeta _); lia.
Qed.

Lemma read_weight_delete t tbl a e :
  tbl !! a = Some e →
  read_weight t (delete a tbl) = (read_weight t tbl - (if IsMeta (tn_type t) then 0 else 1))%Z.
Proof.
  intros Ha. unfold read_weight. rewrite map_size_delete_Some by eauto.
  assert (size tbl ≠ 0) by (intros H0%map_size_empty_inv; subst; done). destruct (IsMeta _); lia.
Qed.

(** Replacing one table of the read set. *)
Lemma reads_ok s t x cnt terms :
  rw_ok s → cnt = u64 (data_reads (rset_ s) - read_weight t (default ∅ (rset_ s !! t)) + read_weight t x) →
  rw_ok (set_reads s (<[t := x]> (rset_ s)) terms cnt).
Proof. intros [Hr Hw Hb] ->. split; cbn; [|done|done]. by rewrite data_reads_insert. Qed.

Lemma AddRead_ok s a ts t : rw_ok s → rw_ok (AddRead s a ts t).2.
Proof.
  intros Hs. unfold AddRead. destruct (default ∅ (rset_ s !! t) !! a) as [e|] eqn:E.
  - destruct (_ && _); [done|]. cbn. apply reads_ok; [done|].
    rewrite read_weight_insert, decide_True by eauto. rewrite (rw_reads _ Hs). f_equal. lia.
  - cbn. apply reads_ok; [done|]. rewrite read_weight_insert, decide_False by (rewrite E; by intros [? ?]).
    rewrite (rw_reads _ Hs). destruct (IsMeta _); [f_equal; lia|]. rewrite u64_add. f_equal. lia.
Qed.

Lemma UpdateRead_ok s a ts : rw_ok s → rw_ok (UpdateRead s a ts).
Proof.
  intros Hs. unfold UpdateRead. destruct (find_read s a) as [[[t tbl] e]|] eqn:E; [|done].
  apply find_read_spec in E as [Ht Ha]. apply reads_ok; [done|].
  rewrite read_weight_insert, decide_True, Ht by eauto. cbn. rewrite (rw_reads _ Hs). f_equal. lia.
Qed.

Lemma remove_read_ok s t tbl a e terms :
  rw_ok s → rset_ s !! t = Some tbl → tbl !! a = Some e →
  rw_ok (set_reads s (<[t := delete a tbl]> (rset_ s)) terms
    (if IsMeta (tn_type t) then data_rset_cnt_ s else u64 (data_rset_cnt_ s - 1))).
Proof.
  intros Hs Ht Ha. apply reads_ok; [done|]. rewrite (read_weight_delete t tbl a e), Ht by done. cbn.
  rewrite (rw_reads _ Hs). destruct (IsMeta _); [f_equal; lia|]. rewrite u64_sub. f_equal. lia.
Qed.

Lemma DedupRead_ok s a : rw_ok s → rw_ok (DedupRead s a).2.
Proof.
  intros Hs. unfold DedupRead. destruct (find_read s a) as [[[t tbl] e]|] eqn:E; [|done].
  apply find_read_spec in E as [Ht Ha]. by eapply remove_read_ok.
Qed.

Lemma lookup_read s t a tbl e :
  (rset_ s !! t ≫= λ tbl, e ← tbl !! a; Some (tbl, e)) = Some (tbl, e) →
  rset_ s !! t = Some tbl ∧ tbl !! a = Some e.
Proof.
  destruct (rset_ s !! t) as [tbl'|]; cbn; [|done]. destruct (tbl' !! a) as [e'|] eqn:E; cbn; [|done].
  by intros [= <- <-].
Qed.

Lemma DedupRead_table_ok s t a : rw_ok s → rw_ok (DedupRead_table s t a).2.
Proof.
  intros Hs. unfold DedupRead_table.
  destruct (rset_ s !! t ≫= _) as [[tbl e]|] eqn:E; [|done]. apply lookup_read in E as [Ht Ha].
  destruct (decide (delete a tbl = ∅)) as [He|_]; [|by eapply remove_read_ok].
  destruct (remove_read_ok s t tbl a e (read_lock_ng_terms_ s) Hs Ht Ha) as [Hr Hw Hb].
  split; [|done|done]. cbn in *. rewrite Hr, data_reads_insert, Ht, He. cbn. unfold data_reads.
  rewrite (map_sum_delete read_weight (rset_ s) t tbl Ht). f_equal.
  rewrite read_weight_empty. lia.
Qed.

Lemma RemoveReadEntry_ok s t a : rw_ok s → IsMeta (tn_type t) = false → rw_ok (RemoveReadEntry s t a).2.
Proof.
  intros Hs Hm. unfold RemoveReadEntry.
  destruct (rset_ s !! t ≫= _) as [[tbl e]|] eqn:E; [|done]. apply lookup_read in E as [Ht Ha].
  destruct (decide _); cbn.
  - pose proof (remove_read_ok s t tbl a e (read_lock_ng_terms_ s) Hs Ht Ha) as Hr. by rewrite Hm in Hr.
  - apply reads_ok; [done|]. rewrite read_weight_insert, decide_True, Ht by eauto. cbn.
    rewrite (rw_reads _ Hs). f_equal. lia.
Qed.

Lemma ClearReadSet_ok s : rw_ok s → rw_ok (ClearReadSet s) ∧ data_rset_cnt_ (ClearReadSet s) = 0%Z.
Proof.
  intros [Hr Hw Hb]. unfold ClearReadSet. set (step := λ (acc : gmap Z Z * Z) x, _).
  assert (∀ l terms n, (foldl step (terms, u64 n) l).2 =
    u64 (n - foldr (λ x acc, read_weight x.1 x.2 + acc)%Z 0%Z l)) as Hf.
  { induction l as [|[t tbl] l IH]; intros terms n; cbn; [f_equal; lia|].
    assert (read_weight t tbl = if IsMeta (tn_type t) then 0 else Z.of_nat (size tbl))%Z as -> by done.
    unfold step at 2. cbn. destruct (IsMeta (tn_type t)).
    - rewrite IH. f_equal.
    - rewrite u64_sub, IH. f_equal. lia. }
  specialize (Hf (map_to_list (rset_ s)) (read_lock_ng_terms_ s) (data_reads (rset_ s))).
  rewrite <-Hr, <-map_sum_list in Hf. destruct (foldl step _ _) as [terms cnt]. cbn in Hf. subst cnt. cbn.
  assert (u64 (data_reads (rset_ s) - map_sum read_weight (rset_ s)) = 0%Z) as H0
    by (unfold data_reads; by rewrite Z.sub_diag). rewrite H0. split; [|done]. split; cbn; [|done|done].
  unfold data_reads. rewrite map_sum_zero; [done|]. intros t tbl [_ Hm]%map_lookup_filter_Some.
  unfold read_weight. unfold is_meta_table in Hm. cbn in Hm. by rewrite Hm.
Qed.

Lemma ClearReadSet_table_ok s t :
  rw_ok s → IsMeta (tn_type t) = false ∨ t = catalog_ccm_name → rw_ok (ClearReadSet_table s t).
Proof.
  intros Hs Ht. pose proof Hs as [Hr Hw Hb]. unfold ClearReadSet_table.
  destruct (rset_ s !! t) as [tbl|] eqn:E; [|done]. split; [|done|done]. cbn.
  rewrite Hr. unfold data_reads at 1 2. rewrite (map_sum_delete read_weight (rset_ s) t tbl E).
  fold (data_reads (delete t (rset_ s))). unfold read_weight. destruct Ht as [Hm| ->].
  - rewrite Hm. assert (TableName_eqb t catalog_ccm_name = false) as ->.
    { apply not_true_iff_false. unfold TableName_eqb. rewrite !andb_true_iff, !bool_decide_eq_true.
      intros [[Hc _] _]. rewrite Hc in Hm. done. }
    rewrite u64_sub. f_equal. lia.
  - cbn. f_equal.
Qed.

(** *** Writes *)

Hypothesis key_len_nonneg : ∀ k, (0 <= key_len k)%Z.
Hypothesis rec_len_nonneg : ∀ r, (0 <= rec_len r)%Z.

Lemma rec_size_nonneg rec : (0 <= rec_size rec_len rec)%Z.
Proof. destruct rec; cbn; [apply rec_len_nonneg|lia]. Qed.

Lemma entry_bytes_eq k e : entry_bytes key_len rec_len k e = (key_len k + rec_size rec_len (rec_ e))%Z.
Proof. done. Qed.

Lemma entry_bytes_nonneg k e : (0 <= entry_bytes key_len rec_len k e)%Z.
Proof. unfold entry_bytes. pose proof (key_len_nonneg k). pose proof (rec_size_nonneg (rec_ e)). lia. Qed.

Lemma table_bytes_nonneg w : (0 <= map_sum (entry_bytes key_len rec_len) w)%Z.
Proof. apply map_sum_nonneg. intros. apply entry_bytes_nonneg. Qed.

Lemma live_bytes_nonneg m : (0 <= live_bytes m)%Z.
Proof. apply map_sum_nonneg. intros. apply table_bytes_nonneg. Qed.

Lemma writes_insert m t v x :
  writes (<[t := (v, x)]> m) =
  (writes m - Z.of_nat (size (default (0%Z, ∅) (m !! t)).2) + Z.of_nat (size x))%Z.
Proof.
  exact (map_sum_insert_default (λ _ vw, Z.of_nat (size vw.2)) (0%Z, ∅) m t (v, x) eq_refl).
Qed.

Lemma live_bytes_insert m t v x :
  live_bytes (<[t := (v, x)]> m) =
  (live_bytes m - map_sum (entry_bytes key_len rec_len) (default (0%Z, ∅) (m !! t)).2 +
   map_sum (entry_bytes key_len rec_len) x)%Z.
Proof.
  exact (map_sum_insert_default (λ _ vw, map_sum (entry_bytes key_len rec_len) vw.2) (0%Z, ∅) m t (v, x) eq_refl).
Qed.

Lemma default_pair (m : gmap TableName (Z * gmap K (WriteSetEntry R))) t (v : Z) : (default (v, ∅ : gmap K (WriteSetEntry R)) (m !! t)).2 = (default (0%Z, ∅) (m !! t)).2.
Proof. by destruct (m !! t). Qed.

Lemma apply_bytes e op rec cu b e' :
  ApplyToWSetEntry e op rec cu = Some (b, e') →
  (rec_size rec_len (rec_ e') <= rec_size rec_len (rec_ e) + rec_size rec_len rec)%Z.
Proof.
  pose proof (rec_size_nonneg (rec_ e)). pose proof (rec_size_nonneg rec).
  unfold ApplyToWSetEntry. destruct (op_ e), op; try done; try destruct cu; intros [= <- <-]; cbn; lia.
Qed.

Lemma AddWrite_ok s t v k rec op cu err s' :
  rw_ok s → (wset_bytes_cnt_ s + (key_len k + rec_size rec_len rec) < 2 ^ 64)%Z →
  AddWrite key_len rec_len s t v k rec op cu = Some (err, s') →
  rw_ok s'.
Proof.
  intros [Hr Hw Hb] Hlim. pose proof (key_len_nonneg k). pose proof (rec_size_nonneg rec).
  pose proof (live_bytes_nonneg (wset_ s)). unfold AddWrite.
  rewrite (u64_small (wset_bytes_cnt_ s + _)) by lia.
  destruct (decide _) as [|Hmax]; [intros [= <- <-]; split; cbn; [done|done|lia]|].
  pose proof (default_pair (wset_ s) t v) as Hd.
  destruct (default (v, ∅) (wset_ s !! t)) as [ver w]. cbn in Hd.
  destruct (w !! k) as [e|] eqn:E; [destruct (ApplyToWSetEntry e op rec cu) as [[b e']|] eqn:Ea; cbn; [|done]|];
    intros [= <- <-].
  - apply apply_bytes in Ea.
    assert (live_bytes (<[t := (ver, <[k := e']> w)]> (wset_ s)) <= wset_bytes_cnt_ s + (key_len k + rec_size rec_len rec))%Z.
    { rewrite live_bytes_insert, <-Hd, (map_sum_insert _ w k e' e E). rewrite !entry_bytes_eq. lia. }
    split; cbn; [done| |lia].
    rewrite writes_insert, <-Hd, map_size_insert_Some by eauto. rewrite Hw. f_equal. lia.
  - assert (live_bytes (<[t := (ver, <[k := mkWriteEntry rec op CcEntryAddr_new 0 ∅]> w)]> (wset_ s)) <=
      wset_bytes_cnt_ s + (key_len k + rec_size rec_len rec))%Z.
    { rewrite live_bytes_insert, <-Hd, map_sum_insert_None by done. rewrite entry_bytes_eq. cbn. lia. }
    split; cbn; [done| |lia].
    rewrite writes_insert, <-Hd, map_size_insert_None, Hw, u64_add by done. f_equal. lia.
Qed.

Lemma writes_delete m t vw :
  m !! t = Some vw → writes (delete t m) = (writes m - Z.of_nat (size vw.2))%Z.
Proof. intros Ht. unfold writes. rewrite (map_sum_delete _ m t vw Ht). cbn. lia. Qed.

Lemma live_bytes_delete m t vw :
  m !! t = Some vw → live_bytes (delete t m) = (live_bytes m - map_sum (entry_bytes key_len rec_len) vw.2)%Z.
Proof. intros Ht. unfold live_bytes. rewrite (map_sum_delete _ m t vw Ht). cbn. lia. Qed.

Lemma DeleteWrite_ok s t k s' :
  rw_ok s → DeleteWrite key_len rec_len s t k = Some s' → rw_ok s'.
Proof.
  intros [Hr Hw Hb]. unfold DeleteWrite.
  destruct (wset_ s !! t) as [[v w]|] eqn:Et; cbn [mbind option_bind fst snd]; [|done].
  destruct (w !! k) as [e|] eqn:Ek; cbn; [|done]. destruct (rec_ e) as [r|] eqn:Er; cbn; [|done].
  intros [= <-]. pose proof (map_sum_delete (entry_bytes key_len rec_len) w k e Ek) as Hsum.
  rewrite entry_bytes_eq, Er in Hsum. cbn in Hsum.
  pose proof (table_bytes_nonneg (delete k w)). pose proof (key_len_nonneg k). pose proof (rec_len_nonneg r).
  pose proof (live_bytes_delete _ _ _ Et) as Hlb. cbn in Hlb.
  pose proof (live_bytes_nonneg (delete t (wset_ s))).
  assert (size w = S (size (delete k w))) as Hsz.
  { rewrite map_size_delete_Some by eauto. assert (size w ≠ 0); [|lia].
    intros Hz%map_size_empty_inv. subst. done. }
  split; cbn; [done| |].
  - rewrite Hw, u64_sub. f_equal. destruct (decide (size (delete k w) = 0)) as [Hz|_].
    + rewrite (writes_delete _ _ _ Et). cbn. lia.
    + rewrite writes_insert, Et. cbn. lia.
  - rewrite u64_small by lia. destruct (decide (size (delete k w) = 0)) as [Hz|_]; [lia|].
    rewrite live_bytes_insert, Et. cbn. lia.
Qed.

Lemma ClearWriteSet_table_ok s t : rw_ok s → rw_ok (ClearWriteSet_table key_len rec_len s t).
Proof.
  intros [Hr Hw Hb]. unfold ClearWriteSet_table. destruct (wset_ s !! t) as [vw|] eqn:Et; [|done].
  pose proof (live_bytes_delete _ _ _ Et) as Hlb. pose proof (live_bytes_nonneg (delete t (wset_ s))).
  pose proof (table_bytes_nonneg vw.2). split; cbn; [done| |].
  - by rewrite (writes_delete _ _ _ Et), Hw, u64_sub.
  - rewrite u64_small by lia. lia.
Qed.

(** The calls the coordinator makes; sizes do not exceed the address space. *)
Inductive rw_step s : rwset → Prop :=
  | rw_add_read a ts t : rw_step s (AddRead s a ts t).2
  | rw_update_read a ts : rw_step s (UpdateRead s a ts)
  | rw_dedup a : rw_step s (DedupRead s a).2
  | rw_dedup_table t a : rw_step s (DedupRead_table s t a).2
  | rw_remove t a : IsMeta (tn_type t) = false → rw_step s (RemoveReadEntry s t a).2
  | rw_clear_reads : rw_step s (ClearReadSet s)
  | rw_clear_reads_table t :
      IsMeta (tn_type t) = false ∨ t = catalog_ccm_name → rw_step s (ClearReadSet_table s t)
  | rw_add_write t v k rec op cu err s' :
      (wset_bytes_cnt_ s + (key_len k + rec_size rec_len rec) < 2 ^ 64)%Z →
      AddWrite key_len rec_len s t v k rec op cu = Some (err, s') → rw_step s s'
  | rw_delete_write t k s' : DeleteWrite key_len rec_len s t k = Some s' → rw_step s s'
  | rw_clear_writes : rw_step s (ClearWriteSet s)
  | rw_clear_writes_table t : rw_step s (ClearWriteSet_table key_len rec_len s t)
  | rw_catalog k rec : rw_step s (AddCatalogWrite s k rec)
  | rw_clear_catalog : rw_step s (ClearCatalogWriteSet s)
  | rw_forward n : rw_step s (IncreaseFowardWriteCnt s n)
  | rw_reset_forward : rw_step s (ResetForwardWriteCount s).

Lemma rw_step_ok s s' : rw_ok s → rw_step s s' → rw_ok s'.
Proof.
  intros Hs []; try (by destruct Hs; split).
  - by apply AddRead_ok.
  - by apply UpdateRead_ok.
  - by apply DedupRead_ok.
  - by apply DedupRead_table_ok.
  - by apply RemoveReadEntry_ok.
  - by apply ClearReadSet_ok.
  - by apply ClearReadSet_table_ok.
  - by eapply AddWrite_ok.
  - by eapply DeleteWrite_ok.
  - by apply ClearWriteSet_table_ok.
Qed.

Lemma Reset_ok : rw_ok ReadWriteSet_Reset.
Proof. split; cbn; [done|done|]. unfold live_bytes. rewrite map_sum_empty. unfold MaxWriteSetBytesCnt. lia. Qed.

Lemma rw_reachable_ok s : rtc rw_step ReadWriteSet_Reset s → rw_ok s.
Proof. apply rtc_ind_r; [apply Reset_ok|]. intros. by eapply rw_step_ok. Qed.
End counters.

(**  After any calls of the coordinator the counters are those of the sets: the
    number of data entries read, which is how many validations the commit waits
    for, and the number of keys to write; and the bytes to be written are at most
    the bytes counted. *)
Theorem read_write_set_counters {K R} `{Countable K} (key_len : K → Z) (rec_len : R → Z) (s : ReadWriteSet K R) :
  (∀ k, 0 <= key_len k)%Z → (∀ r, 0 <= rec_len r)%Z →
  rtc (rw_step key_len rec_len) ReadWriteSet_Reset s →
  DataReadSetSize s = u64 (data_reads (rset_ s)) ∧ WriteSetSize s = u64 (writes (wset_ s)) ∧
  (live_bytes key_len rec_len (wset_ s) <= wset_bytes_cnt_ s)%Z.
Proof. intros Hk Hr Hs. destruct (rw_reachable_ok key_len rec_len Hk Hr s Hs) as [? ? [[? _] _]]. done. Qed.

(** A table ["t"] with integer keys and records; three reads and two writes. *)
Definition sample_table : TableName := mkTableName [116]%Z Primary EloqKv.
Definition sample_add (s : ReadWriteSet Z Z) (k : Z) (r : option Z) (op : OperationType) : ReadWriteSet Z Z :=
  match AddWrite (λ _, 8%Z) (λ _, 8%Z) s sample_table 1 k r op false with Some (_, s') => s' | None => s end.
Definition sample_rwset : ReadWriteSet Z Z :=
  let s1 := (AddRead ReadWriteSet_Reset (mkAddr 1 0 0 1) 5 sample_table).2 in
  let s2 := (AddRead s1 (mkAddr 2 0 0 1) 6 sample_table).2 in
  let s3 := (AddRead s2 (mkAddr 1 0 0 1) 5 sample_table).2 in
  sample_add (sample_add s3 1 (Some 10%Z) OpInsert) 2 None OpDelete.

Lemma sample_add_reachable s k r op :
  (wset_bytes_cnt_ s < 2 ^ 32)%Z → rtc (rw_step (λ _ : Z, 8%Z) (λ _ : Z, 8%Z)) ReadWriteSet_Reset s →
  rtc (rw_step (λ _ : Z, 8%Z) (λ _ : Z, 8%Z)) ReadWriteSet_Reset (sample_add s k r op).
Proof.
  intros Hb Hs. unfold sample_add.
  destruct (AddWrite (λ _, 8%Z) (λ _, 8%Z) s sample_table 1 k r op false) as [[err s']|] eqn:E; [|done].
  eapply rtc_r; [done|]. eapply rw_add_write; [|done]. destruct r; cbn; lia.
Qed.

Lemma read_write_set_counters_witness :
  DataReadSetSize sample_rwset = 2%Z ∧ WriteSetSize sample_rwset = 2%Z ∧
  DataReadSetSize sample_rwset = u64 (data_reads (rset_ sample_rwset)).
Proof.
  split; [vm_compute; reflexivity|]. split; [vm_compute; reflexivity|].
  apply (read_write_set_counters (λ _ : Z, 8%Z) (λ _ : Z, 8%Z) sample_rwset); [lia|lia|].
  do 2 (apply sample_add_reachable; [vm_compute; reflexivity|]).
  eapply rtc_r; [eapply rtc_r; [eapply rtc_r; [apply rtc_refl|]|]|]; apply rw_add_read.
Defined.

(** C39: The write set never holds more than [MaxWriteSetBytesCnt] bytes of keys and
    records, whatever the coordinator calls and also after a call that was refused. *)
Theorem write_set_bounded {K R} `{Countable K} (key_len : K → Z) (rec_len : R → Z) (s : ReadWriteSet K R) :
  (∀ k, 0 <= key_len k)%Z → (∀ r, 0 <= rec_len r)%Z →
  rtc (rw_step key_len rec_len) ReadWriteSet_Reset s →
  (live_bytes key_len rec_len (wset_ s) <= MaxWriteSetBytesCnt)%Z.
Proof. intros Hk Hr Hs. by destruct (rw_reachable_ok key_len rec_len Hk Hr s Hs) as [_ _ [_ ?]]. Qed.

(** Three records of 30 megabytes: the third is refused. *)
Definition large_add (s : ReadWriteSet Z Z) (k : Z) : ReadWriteSet Z Z :=
  match AddWrite (λ _, 8%Z) (λ r, Z.max 0 r) s sample_table 1 k (Some 31457280%Z) OpInsert false with
  | Some (_, s') => s' | None => s
  end.

Lemma large_add_reachable s k :
  (wset_bytes_cnt_ s < 2 ^ 32)%Z → rtc (rw_step (λ _ : Z, 8%Z) (λ r, Z.max 0 r)) ReadWriteSet_Reset s →
  rtc (rw_step (λ _ : Z, 8%Z) (λ r, Z.max 0 r)) ReadWriteSet_Reset (large_add s k).
Proof.
  intros Hb Hs. unfold large_add.
  destruct (AddWrite _ _ s sample_table 1 k (Some 31457280%Z) OpInsert false) as [[err s']|] eqn:E; [|done].
  eapply rtc_r; [done|]. eapply rw_add_write; [|done]. cbn. lia.
Qed.

Lemma write_set_bounded_witness :
  let s := large_add (large_add (large_add ReadWriteSet_Reset 1) 2) 3 in
  WriteSetSize s = 2%Z ∧ (MaxWriteSetBytesCnt < wset_bytes_cnt_ s)%Z ∧
  (live_bytes (λ _, 8%Z) (λ r, Z.max 0 r) (wset_ s) <= MaxWriteSetBytesCnt)%Z.
Proof.
  split; [vm_compute; reflexivity|]. split; [vm_compute; reflexivity|].
  apply (write_set_bounded (λ _ : Z, 8%Z) (λ r, Z.max 0 r)); [lia|lia|].
  do 3 (apply large_add_reachable; [vm_compute; reflexivity|]). apply rtc_refl.
Defined.

(** ** The net effect of the writes on one key *)

Section net_effect.
Context {K R : Type} `{Countable K} (key_len : K → Z) (rec_len : R → Z).
Implicit Types (s : ReadWriteSet K R) (st base : option R).

(** A statement on a key that is absent ([None]) or has a record: an insert needs
    an absent key, an update and a delete an existing one. *)
Definition do_op st (o : OperationType * option R) : option (option R) :=
  match o, st with
  | (OpInsert, Some r), None => Some (Some r)
  | (OpUpdate, Some r), Some _ => Some (Some r)
  | (OpDelete, _), Some _ => Some None
  | _, _ => None
  end.

Fixpoint run_ops st (ops : list (OperationType * option R)) : option (option R) :=
  match ops with
  | [] => Some st
  | o :: ops => st1 ← do_op st o; run_ops st1 ops
  end.

(** The same statements added to the write set; [None] as soon as one fails. *)
Fixpoint add_ops s t k (ops : list (OperationType * option R)) : option (ReadWriteSet K R) :=
  match ops with
  | [] => Some s
  | (op, rec) :: ops =>
      match AddWrite key_len rec_len s t 0 k rec op false with
      | Some (Tx_NO_ERROR, s1) => add_ops s1 t k ops
      | _ => None
      end
  end.

Definition ops_bytes k (ops : list (OperationType * option R)) : Z :=
  foldr (λ o acc, key_len k + rec_size rec_len o.2 + acc)%Z 0%Z ops.

Lemma ops_bytes_cons k o ops :
  ops_bytes k (o :: ops) = (key_len k + rec_size rec_len o.2 + ops_bytes k ops)%Z.
Proof. done. Qed.

(** What committing the entry leaves at the key. *)
Definition entry_effect (e : WriteSetEntry R) : option R :=
  match op_ e with OpDelete => None | _ => rec_ e end.

Record effect_ok base st (e : WriteSetEntry R) : Prop := {
  ef_state : entry_effect e = st;
  ef_op : op_ e = OpInsert ∨ op_ e = OpUpdate ∨ op_ e = OpDelete;
  ef_delete : op_ e = OpDelete ↔ st = None;
  ef_insert : op_ e = OpInsert → base = None;
}.

Lemma first_effect base o st1 addr code fwd :
  do_op base o = Some st1 → effect_ok base st1 (mkWriteEntry o.2 o.1 addr code fwd).
Proof.
  destruct o as [[] [r|]], base as [b|]; cbn; intros [= <-]; split; cbn; try done; auto.
Qed.

Lemma apply_effect base st e o st1 :
  effect_ok base st e → do_op st o = Some st1 →
  ∃ e', ApplyToWSetEntry e o.1 o.2 false = Some (true, e') ∧ effect_ok base st1 e'.
Proof.
  intros [Hs Ho [Hd1 Hd2] Hi] Hop. unfold ApplyToWSetEntry.
  destruct o as [[] [r|]], st as [x|]; cbn in Hop; simplify_eq; cbn;
    destruct Ho as [Ho|[Ho|Ho]]; rewrite Ho in *; try (by specialize (Hd2 eq_refl)); try (by specialize (Hd1 eq_refl));
    eexists; (split; [done|]); split; cbn; try done; auto.
Qed.

Hypothesis key_len_nonneg : ∀ k, (0 <= key_len k)%Z.
Hypothesis rec_len_nonneg : ∀ r, (0 <= rec_len r)%Z.

Lemma ops_bytes_nonneg k ops : (0 <= ops_bytes k ops)%Z.
Proof.
  induction ops as [|o ops IH]; [done|]. rewrite ops_bytes_cons.
  pose proof (key_len_nonneg k). pose proof (rec_size_nonneg rec_len rec_len_nonneg o.2). lia.
Qed.

Lemma add_ops_effect base ops s t k st st' e :
  FindWrite s t k = Some e → effect_ok base st e → run_ops st ops = Some st' →
  (0 <= wset_bytes_cnt_ s)%Z → (wset_bytes_cnt_ s + ops_bytes k ops <= MaxWriteSetBytesCnt)%Z →
  ∃ s' e', add_ops s t k ops = Some s' ∧ FindWrite s' t k = Some e' ∧ effect_ok base st' e'.
Proof.
  revert s st e. induction ops as [|[op rec] ops IH]; intros s st e Hf He Hrun H0 Hb.
  { cbn in Hrun. simplify_eq. cbn. eauto. }
  cbn [run_ops add_ops] in *. rewrite ops_bytes_cons in Hb. cbn [snd] in Hb.
  destruct (do_op st (op, rec)) as [st1|] eqn:Ed; cbn in Hrun; [|done].
  destruct (apply_effect base st e (op, rec) st1 He Ed) as (e1 & Ea & He1). cbn in Ea.
  pose proof (key_len_nonneg k). pose proof (rec_size_nonneg rec_len rec_len_nonneg rec).
  pose proof (ops_bytes_nonneg k ops).
  unfold FindWrite in Hf. unfold AddWrite. unfold MaxWriteSetBytesCnt in *.
  rewrite u64_small by lia. rewrite decide_False by lia.
  destruct (wset_ s !! t) as [[ver w]|] eqn:Et; cbn in Hf |- *; [|done]. rewrite Hf, Ea. cbn.
  apply (IH _ st1 e1); cbn; [|done|done|lia|lia].
  unfold FindWrite. cbn. rewrite lookup_insert_eq. cbn. by rewrite lookup_insert_eq.
Qed.
End net_effect.

(**  Statements on one key that are valid one after the other are all accepted
    by the write set, which ends up with a single entry for the key whose effect
    is the state after the last statement; and the entry is an insert only if the
    key did not exist before the transaction. *)
Theorem write_set_net_effect {K R} `{Countable K} (key_len : K → Z) (rec_len : R → Z) base ops st'
    (s : ReadWriteSet K R) t k :
  (∀ k, 0 <= key_len k)%Z → (∀ r, 0 <= rec_len r)%Z →
  FindWrite s t k = None → ops ≠ [] → run_ops base ops = Some st' →
  (0 <= wset_bytes_cnt_ s)%Z → (wset_bytes_cnt_ s + ops_bytes key_len rec_len k ops <= MaxWriteSetBytesCnt)%Z →
  ∃ s' e, add_ops key_len rec_len s t k ops = Some s' ∧ FindWrite s' t k = Some e ∧
    entry_effect e = st' ∧ (op_ e = OpInsert → base = None).
Proof.
  intros Hk Hr Hf Hne Hrun H0 Hb. destruct ops as [|[op rec] ops]; [done|].
  cbn [run_ops add_ops] in *. rewrite ops_bytes_cons in Hb. cbn [snd] in Hb.
  destruct (do_op base (op, rec)) as [st1|] eqn:Ed; cbn in Hrun; [|done].
  pose proof (Hk k). pose proof (rec_size_nonneg rec_len Hr rec).
  pose proof (ops_bytes_nonneg key_len rec_len Hk Hr k ops).
  unfold FindWrite in Hf. unfold AddWrite. unfold MaxWriteSetBytesCnt in *.
  rewrite u64_small by lia. rewrite decide_False by lia.
  destruct (default (0%Z, ∅) (wset_ s !! t)) as [ver w] eqn:Et.
  assert (w !! k = None) as Hw.
  { destruct (wset_ s !! t) as [[v' w']|]; cbn in *; simplify_eq; [done|apply lookup_empty]. }
  rewrite Hw.
  destruct (add_ops_effect key_len rec_len Hk Hr base ops
    (set_writes s (<[t := (ver, <[k := mkWriteEntry rec op CcEntryAddr_new 0 ∅]> w)]> (wset_ s))
      (u64 (wset_cnt_ s + 1)) (wset_bytes_cnt_ s + (key_len k + rec_size rec_len rec)) (forward_write_cnt_ s))
    t k st1 st' (mkWriteEntry rec op CcEntryAddr_new 0 ∅)) as (s' & e & ? & ? & [? _ _ ?]).
  - unfold FindWrite. cbn. rewrite lookup_insert_eq. cbn. by rewrite lookup_insert_eq.
  - by apply (first_effect base (op, rec)).
  - done.
  - cbn. lia.
  - cbn. unfold MaxWriteSetBytesCnt. lia.
  - eauto 10.
Qed.

Lemma write_set_net_effect_witness :
  let ops := [(OpUpdate, Some 5%Z); (OpDelete, None); (OpInsert, Some 7%Z)] in
  run_ops (Some 1%Z) ops = Some (Some 7%Z) ∧
  ∃ s' e, add_ops (λ _ : Z, 8%Z) (λ _ : Z, 8%Z) ReadWriteSet_Reset sample_table 3%Z ops = Some s' ∧
    FindWrite s' sample_table 3%Z = Some e ∧ entry_effect e = Some 7%Z ∧ (op_ e = OpInsert → Some 1%Z = None).
Proof.
  split; [reflexivity|].
  apply (write_set_net_effect (λ _ : Z, 8%Z) (λ _ : Z, 8%Z) (Some 1%Z)); try lia; try done; vm_compute; done.
Defined.

(** Inserting, deleting and inserting again a key that did not exist leaves an
    update in the write set, whose key is not checked for duplicates. *)
Lemma reinsert_becomes_update :
  let ops := [(OpInsert, Some 5%Z); (OpDelete, None); (OpInsert, Some 7%Z)] in
  run_ops None ops = Some (Some 7%Z) ∧
  (s' ← add_ops (λ _ : Z, 8%Z) (λ _ : Z, 8%Z) ReadWriteSet_Reset sample_table 3%Z ops;
   op_ <$> FindWrite s' sample_table 3%Z) = Some OpUpdate.
Proof. vm_compute. done. Qed.

(** Reverting a delete dereferences the record it does not have. *)
Lemma DeleteWrite_of_delete :
  (s' ← add_ops (λ _ : Z, 8%Z) (λ _ : Z, 8%Z) ReadWriteSet_Reset sample_table 3%Z [(OpDelete, None)];
   DeleteWrite (λ _ : Z, 8%Z) (λ _ : Z, 8%Z) s' sample_table 3%Z) = None.
Proof. vm_compute. done. Qed.
