(* ===== verification/Queue.v ===== *)
(** * What the lock promises to rely on: a double-ended queue

    [NonBlockingLock] and [KeyGapLockAndExtraData] keep their waiting requests
    in a [CircularQueue].  Their theorems are proved against this interface;
    [CircularQueue.v] discharges it.  [q_list] is the abstraction to a list and
    [q_ok] the representation invariant. *)

From S2P Require Import Prelude.

Class QueueOps (Q T : Type) := {
  q_list : Q → list T;
  q_ok : Q → Prop;
  q_size : Q → nat;
  q_peek : Q → option T;
  q_get : Q → nat → option T;
  q_enqueue : Q → T → Q;
  q_enqueue_first : Q → T → Q;
  q_dequeue : Q → Q;
  q_erase : Q → nat → Q;
  q_reset : Q → Q;
}.

Class QueueSpec (Q T : Type) `{!QueueOps Q T} : Prop := {
  q_size_spec q : q_ok q → q_size q = length (q_list q);
  q_get_spec q i : q_ok q → i < length (q_list q) → q_get q i = q_list q !! i;
  q_peek_spec q : q_ok q → q_list q ≠ [] → q_peek q = head (q_list q);
  q_enqueue_ok q x : q_ok q → q_ok (q_enqueue q x);
  q_enqueue_spec q x : q_ok q → q_list (q_enqueue q x) = q_list q ++ [x];
  q_enqueue_first_ok q x : q_ok q → q_ok (q_enqueue_first q x);
  q_enqueue_first_spec q x : q_ok q → q_list (q_enqueue_first q x) = x :: q_list q;
  q_dequeue_ok q : q_ok q → q_ok (q_dequeue q);
  q_dequeue_spec q : q_ok q → q_list (q_dequeue q) = tail (q_list q);
  q_erase_ok q i : q_ok q → i < length (q_list q) → q_ok (q_erase q i);
  q_erase_spec q i :
    q_ok q → i < length (q_list q) → q_list (q_erase q i) = remove_at i (q_list q);
  q_reset_ok q : q_ok q → q_ok (q_reset q);
  q_reset_spec q : q_ok q → q_list (q_reset q) = [];
}.

#[export] Hint Resolve q_enqueue_ok q_enqueue_first_ok q_dequeue_ok q_reset_ok : txs.
