(* ===== verification/CircularQueue.v ===== *)
(** * The circular queue ([include/circular_queue.h])

    [CircularQueue<T>] keeps its elements in a heap array [vec_] used as a ring:
    element [i] lives at index [(head_ + i) % capacity_].  The model keeps the
    four members of the class; an array access outside the array is [None].
    The theorems show that on a well-formed queue no access leaves the array
    and that every operation refines the obvious operation on lists. *)

From S2P Require Import Prelude Queue.

Section CircularQueue.
Context {T : Type} `{!Inhabited T}.

Record CircularQueue := mkQueue {
  vec_ : list T;
  head_ : nat;
  cnt_ : nat;
  capacity_ : nat;
}.

(** [std::make_unique<T[]>(n)]: [n] value-initialised elements. *)
Definition make_array (n : nat) : list T := replicate n inhabitant.

(** [vec\[i\] = x], undefined outside the array. *)
Definition array_store (vec : list T) (i : nat) (x : T) : option (list T) :=
  if decide (i < length vec) then Some (<[i := x]> vec) else None.

Definition CircularQueue_new (capacity : nat) : CircularQueue :=
  mkQueue (make_array capacity) 0 0 capacity.

Definition Size (q : CircularQueue) : nat := cnt_ q.
Definition Capacity (q : CircularQueue) : nat := capacity_ q.

Definition Reset (q : CircularQueue) : CircularQueue :=
  if decide (8 < capacity_ q)
  then mkQueue (make_array 8) 0 0 8
  else mkQueue (vec_ q) 0 0 (capacity_ q).

(** The two copies of a reallocation, head to end and start to head. *)
Definition copy_ring (q : CircularQueue) : list T :=
  drop (head_ q) (vec_ q) ++ take (head_ q) (vec_ q).

(** A fresh array of [n] elements whose first elements are the ring's. *)
Definition grown_array (q : CircularQueue) (n : nat) : option (list T) :=
  if decide (length (copy_ring q) ≤ n)
  then Some (copy_ring q ++ make_array (n - length (copy_ring q)))
  else None.

(** The body shared by the two [Enqueue] overloads; they differ in the new
    capacity of a full queue. *)
Definition enqueue_with (new_capacity : nat) (q : CircularQueue) (item : T)
    : option CircularQueue :=
  if decide (cnt_ q = 0) then
    vec ← array_store (vec_ q) 0 item;
    Some (mkQueue vec 0 1 (capacity_ q))
  else if decide (cnt_ q = capacity_ q) then
    new_vec ← grown_array q new_capacity;
    new_vec ← array_store new_vec (capacity_ q) item;
    Some (mkQueue new_vec 0 (capacity_ q + 1) new_capacity)
  else
    vec ← array_store (vec_ q) ((head_ q + cnt_ q) mod capacity_ q) item;
    Some (mkQueue vec (head_ q) (cnt_ q + 1) (capacity_ q)).

(** [Enqueue(const T &)]: a full queue doubles. *)
Definition Enqueue_copy (q : CircularQueue) (item : T) : option CircularQueue :=
  enqueue_with (2 * capacity_ q) q item.

(** [Enqueue(T &&)]: a full queue grows by half, [size_t(capacity_ * 1.5)]. *)
Definition Enqueue (q : CircularQueue) (item : T) : option CircularQueue :=
  enqueue_with (capacity_ q * 3 / 2) q item.

Definition EnqueueAsFirst (q : CircularQueue) (item : T) : option CircularQueue :=
  if decide (cnt_ q = 0) then
    vec ← array_store (vec_ q) 0 item;
    Some (mkQueue vec 0 1 (capacity_ q))
  else if decide (cnt_ q = capacity_ q) then
    let new_capacity := capacity_ q * 3 / 2 in
    new_vec ← grown_array q new_capacity;
    new_vec ← array_store new_vec (new_capacity - 1) item;
    Some (mkQueue new_vec (new_capacity - 1) (capacity_ q + 1) new_capacity)
  else if decide (head_ q ≠ 0) then
    vec ← array_store (vec_ q) (head_ q - 1) item;
    Some (mkQueue vec (head_ q - 1) (cnt_ q + 1) (capacity_ q))
  else
    vec ← array_store (vec_ q) (capacity_ q - 1) item;
    Some (mkQueue vec (capacity_ q - 1) (cnt_ q + 1) (capacity_ q)).

Definition Dequeue (q : CircularQueue) : CircularQueue :=
  if decide (0 < cnt_ q) then
    let head := S (head_ q) in
    let head := if decide (head = capacity_ q) then 0 else head in
    mkQueue (vec_ q) head (cnt_ q - 1) (capacity_ q)
  else q.

Definition Peek (q : CircularQueue) : option T := vec_ q !! head_ q.

Definition Get (q : CircularQueue) (index : nat) : option T :=
  vec_ q !! ((head_ q + index) mod capacity_ q).

(** The shifting loop of [Erase]: [n] iterations starting at [index]. *)
Fixpoint erase_shift (n : nat) (index : nat) (q : CircularQueue)
    : option (list T) :=
  match n with
  | O => Some (vec_ q)
  | S n =>
      x ← Get q (index + 1);
      vec ← array_store (vec_ q) ((head_ q + index) mod capacity_ q) x;
      erase_shift n (index + 1) (mkQueue vec (head_ q) (cnt_ q) (capacity_ q))
  end.

(** [Erase(index)].  On an empty queue [cnt_ - 1] wraps around and the loop
    does not end in any realistic time, which is not modelled: [None]. *)
Definition Erase (q : CircularQueue) (index : nat) : option CircularQueue :=
  if decide (cnt_ q = 0) then None
  else
    vec ← erase_shift (cnt_ q - 1 - index) index q;
    let cnt := cnt_ q - 1 in
    Some (mkQueue vec (if decide (cnt = 0) then 0 else head_ q) cnt (capacity_ q)).

(** ** Representation invariant and abstraction *)

Record queue_wf (q : CircularQueue) : Prop := {
  wf_vec : length (vec_ q) = capacity_ q;
  wf_head : head_ q < capacity_ q;
  wf_cnt : cnt_ q ≤ capacity_ q;
  wf_capacity : 2 ≤ capacity_ q;
}.

(** The list of elements the queue stands for, head first. *)
Definition contents (q : CircularQueue) : list T :=
  omap (Get q) (seq 0 (cnt_ q)).

(** ** The ring index *)

Lemma ring_index head i cap :
  head < cap → i ≤ cap →
  (head + i) mod cap =
    if decide (head + i < cap) then head + i else head + i - cap.
Proof.
  intros. case_decide; [apply Nat.mod_small; lia|].
  replace (head + i) with (head + i - cap + 1 * cap) at 1 by lia.
  rewrite Nat.Div0.mod_add. apply Nat.mod_small. lia.
Qed.

Lemma ring_index_lt head i cap : 2 ≤ cap → (head + i) mod cap < cap.
Proof. intros. apply Nat.mod_upper_bound. lia. Qed.

(** Distinct positions of the ring are distinct array slots. *)
Lemma ring_index_inj head i j cap :
  head < cap → i < cap → j < cap →
  (head + i) mod cap = (head + j) mod cap → i = j.
Proof. intros ???. rewrite !ring_index by lia. repeat case_decide; lia. Qed.

Lemma ring_index_succ head i cap :
  head < cap → S i ≤ cap →
  (head + S i) mod cap = (((if decide (S head = cap) then 0 else S head) + i) mod cap).
Proof.
  intros. case_decide.
  - rewrite !ring_index by lia. repeat case_decide; lia.
  - f_equal. lia.
Qed.

(** ** Abstraction lemmas *)

Lemma omap_seq_intro (f : nat → option T) j (l : list T) :
  (∀ i, i < length l → f (j + i) = l !! i) → omap f (seq j (length l)) = l.
Proof.
  revert j. induction l as [|x l IH]; intros j Hf; [done|]; cbn.
  pose proof (Hf 0 ltac:(cbn; lia)) as H0. rewrite Nat.add_0_r in H0.
  rewrite H0; cbn. f_equal. apply IH. intros i Hi.
  transitivity (f (j + S i)); [f_equal; lia|]. apply (Hf (S i)); cbn; lia.
Qed.

(** A list is the contents of a queue when it has the right length and the
    queue's accessor reads it. *)
Lemma contents_intro (q : CircularQueue) (l : list T) :
  length l = cnt_ q → (∀ i, i < cnt_ q → Get q i = l !! i) → contents q = l.
Proof.
  intros Hlen Hget. unfold contents. rewrite <-Hlen.
  apply omap_seq_intro. intros i Hi. apply Hget. lia.
Qed.

Lemma Get_is_Some q i : queue_wf q → is_Some (Get q i).
Proof.
  intros [????]. apply lookup_lt_is_Some_2. rewrite wf_vec0.
  by apply ring_index_lt.
Qed.

(** The list read off the ring by the accessor. *)
Lemma contents_spec q :
  queue_wf q →
  length (contents q) = cnt_ q ∧ ∀ i, i < cnt_ q → contents q !! i = Get q i.
Proof.
  intros Hwf.
  assert (∃ l, length l = cnt_ q ∧ ∀ i, i < cnt_ q → Get q i = l !! i)
    as (l & Hlen & Hget).
  { exists (default inhabitant <$> (Get q <$> seq 0 (cnt_ q))).
    rewrite !length_fmap, length_seq. split; [done|]. intros i Hi.
    rewrite !list_lookup_fmap, lookup_seq_lt by done. cbn.
    by destruct (Get_is_Some q i Hwf) as [x ->]. }
  rewrite (contents_intro q l) by done. split; [done|]. intros. by rewrite Hget.
Qed.

Lemma contents_length q : queue_wf q → length (contents q) = cnt_ q.
Proof. apply contents_spec. Qed.

Lemma contents_lookup q i :
  queue_wf q → i < cnt_ q → contents q !! i = Get q i.
Proof. intros Hwf. by apply contents_spec. Qed.

Lemma array_store_Some vec i (x : T) :
  i < length vec → array_store vec i x = Some (<[i := x]> vec).
Proof. intros. unfold array_store. by rewrite decide_True. Qed.

(** Reading element [i] through the accessor after storing at array slot [k]. *)
Lemma Get_store q k x i c :
  k < length (vec_ q) →
  Get (mkQueue (<[k := x]> (vec_ q)) (head_ q) c (capacity_ q)) i =
    if decide ((head_ q + i) mod capacity_ q = k) then Some x else Get q i.
Proof.
  intros Hk. unfold Get; cbn. case_decide; subst.
  - by apply list_lookup_insert_eq.
  - by rewrite list_lookup_insert_ne.
Qed.

Lemma length_copy_ring q : queue_wf q → length (copy_ring q) = capacity_ q.
Proof.
  intros [????]. unfold copy_ring. rewrite length_app, length_drop, length_take. lia.
Qed.

(** When the ring is full, the reallocation lays the contents out in order. *)
Lemma copy_ring_full q :
  queue_wf q → cnt_ q = capacity_ q → copy_ring q = contents q.
Proof.
  intros Hwf Hfull. symmetry. apply contents_intro.
  { by rewrite length_copy_ring. }
  destruct Hwf as [Hvec ???]. intros i Hi. unfold Get, copy_ring.
  rewrite ring_index by lia. case_decide.
  - rewrite lookup_app_l by (rewrite length_drop; lia). by rewrite lookup_drop.
  - rewrite lookup_app_r by (rewrite length_drop; lia).
    rewrite length_drop, lookup_take_lt by lia. f_equal. lia.
Qed.

Lemma grown_array_Some q n :
  queue_wf q → capacity_ q ≤ n →
  grown_array q n = Some (copy_ring q ++ make_array (n - capacity_ q)).
Proof.
  intros Hwf Hn. unfold grown_array.
  rewrite !length_copy_ring by done. by rewrite decide_True.
Qed.

(** ** Every operation refines the list operation *)

Lemma new_spec capacity :
  2 ≤ capacity →
  queue_wf (CircularQueue_new capacity) ∧ contents (CircularQueue_new capacity) = [].
Proof.
  intros. split; [|done]. constructor; cbn; [|lia..].
  apply length_replicate.
Qed.

Lemma Reset_spec q : queue_wf q → queue_wf (Reset q) ∧ contents (Reset q) = [].
Proof.
  intros [????]. unfold Reset. case_decide; (split; [constructor; cbn; lia|done]).
Qed.

Lemma store_first_spec q x :
  queue_wf q → cnt_ q = 0 →
  ∃ vec, array_store (vec_ q) 0 x = Some vec ∧
    queue_wf (mkQueue vec 0 1 (capacity_ q)) ∧
    contents (mkQueue vec 0 1 (capacity_ q)) = [x].
Proof.
  intros [Hvec ???] _. rewrite array_store_Some by lia. eexists; split; [done|].
  split; [constructor; cbn; rewrite ?length_insert; lia|].
  apply contents_intro; [done|]. intros i Hi; cbn in Hi.
  assert (i = 0) as -> by lia. unfold Get; cbn.
  rewrite Nat.Div0.mod_0_l. by apply list_lookup_insert_eq; lia.
Qed.

(** Appending to a queue that is full: the array is reallocated. *)
Lemma enqueue_full_spec q n x :
  queue_wf q → cnt_ q = capacity_ q → capacity_ q < n →
  ∃ vec, array_store (copy_ring q ++ make_array (n - capacity_ q)) (capacity_ q) x
           = Some vec ∧
    queue_wf (mkQueue vec 0 (capacity_ q + 1) n) ∧
    contents (mkQueue vec 0 (capacity_ q + 1) n) = contents q ++ [x].
Proof.
  intros Hwf Hfull Hn. pose proof (length_copy_ring q Hwf) as Hlen.
  assert (length (copy_ring q ++ make_array (n - capacity_ q)) = n) as Hn'.
  { rewrite length_app, Hlen. unfold make_array. rewrite length_replicate. lia. }
  rewrite array_store_Some by lia. eexists; split; [done|]. split.
  { destruct Hwf. constructor; cbn; rewrite ?length_insert; lia. }
  apply contents_intro; cbn.
  { rewrite length_app, contents_length by done. cbn. lia. }
  intros i Hi. unfold Get; cbn. rewrite Nat.mod_small by lia.
  rewrite <-(copy_ring_full q Hwf Hfull).
  destruct (decide (i = capacity_ q)) as [->|].
  - rewrite list_lookup_insert_eq by lia. by rewrite <-Hlen, lookup_app_last.
  - rewrite list_lookup_insert_ne, !lookup_app_l by lia. done.
Qed.

Lemma enqueue_with_spec n q x :
  queue_wf q → capacity_ q < n →
  ∃ q', enqueue_with n q x = Some q' ∧ queue_wf q' ∧ contents q' = contents q ++ [x].
Proof.
  intros Hwf Hn. unfold enqueue_with. case_decide as Hc.
  - destruct (store_first_spec q x Hwf Hc) as (vec & -> & ? & Hcont). cbn.
    eexists; split; [done|]. split; [done|]. rewrite Hcont.
    by rewrite (nil_length_inv (contents q)) by (rewrite contents_length; done).
  - case_decide as Hfull.
    + rewrite grown_array_Some by (done || lia). cbn.
      destruct (enqueue_full_spec q n x Hwf Hfull Hn) as (vec & -> & ? & ?). eauto.
    + pose proof Hwf as [Hvec ???]. rewrite array_store_Some.
      2:{ rewrite Hvec. by apply ring_index_lt. }
      cbn. eexists; split; [done|]. split.
      { constructor; cbn; rewrite ?length_insert; lia. }
      apply contents_intro; cbn.
      { rewrite length_app, contents_length by done. done. }
      intros i Hi. rewrite Get_store by (rewrite Hvec; by apply ring_index_lt).
      case_decide as Heq.
      * apply ring_index_inj in Heq; [|lia..]. subst.
        by rewrite <-contents_length, lookup_app_last.
      * assert (i ≠ cnt_ q) by congruence.
        rewrite lookup_app_l by (rewrite contents_length by done; lia).
        rewrite contents_lookup by (done || lia). done.
Qed.

Lemma Enqueue_spec q x :
  queue_wf q →
  ∃ q', Enqueue q x = Some q' ∧ queue_wf q' ∧ contents q' = contents q ++ [x].
Proof.
  intros Hwf. apply enqueue_with_spec; [done|]. destruct Hwf.
  apply Nat.div_le_lower_bound; lia.
Qed.

Lemma Enqueue_copy_spec q x :
  queue_wf q →
  ∃ q', Enqueue_copy q x = Some q' ∧ queue_wf q' ∧ contents q' = contents q ++ [x].
Proof. intros Hwf. apply enqueue_with_spec; [done|]. destruct Hwf. lia. Qed.

(** Prepending when the slot before the head is free. *)
Lemma store_before_head q x h :
  queue_wf q → cnt_ q < capacity_ q → h < capacity_ q →
  (h + 1) mod capacity_ q = head_ q →
  ∃ vec, array_store (vec_ q) h x = Some vec ∧
    queue_wf (mkQueue vec h (cnt_ q + 1) (capacity_ q)) ∧
    contents (mkQueue vec h (cnt_ q + 1) (capacity_ q)) = x :: contents q.
Proof.
  intros Hwf Hc Hh Hnext. pose proof Hwf as [Hvec ???].
  rewrite array_store_Some by lia. eexists; split; [done|]. split.
  { constructor; cbn; rewrite ?length_insert; lia. }
  apply contents_intro; cbn; [rewrite contents_length by done; lia|].
  intros [|i] Hi; unfold Get; cbn.
  - rewrite Nat.add_0_r, Nat.mod_small by done. apply list_lookup_insert_eq. lia.
  - rewrite contents_lookup by (done || lia). unfold Get.
    assert ((h + S i) mod capacity_ q = (head_ q + i) mod capacity_ q) as ->.
    { rewrite <-Hnext. rewrite Nat.Div0.add_mod_idemp_l. f_equal. lia. }
    apply list_lookup_insert_ne. intros Heq.
    rewrite <-Hnext, Nat.Div0.add_mod_idemp_l in Heq.
    rewrite ring_index in Hnext by lia.
    replace (h + 1 + i) with (h + S i) in Heq by lia.
    rewrite ring_index in Heq by lia. case_decide; lia.
Qed.

(** Prepending to a full queue: the head goes to the last slot of the new
    array. *)
Lemma prepend_full_spec q x :
  queue_wf q → cnt_ q = capacity_ q →
  let n := capacity_ q * 3 / 2 in
  ∃ vec, array_store (copy_ring q ++ make_array (n - capacity_ q)) (n - 1) x
           = Some vec ∧
    queue_wf (mkQueue vec (n - 1) (capacity_ q + 1) n) ∧
    contents (mkQueue vec (n - 1) (capacity_ q + 1) n) = x :: contents q.
Proof.
  intros Hwf Hfull n. pose proof (length_copy_ring q Hwf) as Hlen.
  assert (capacity_ q < n).
  { destruct Hwf. apply Nat.div_le_lower_bound; lia. }
  clearbody n.
  assert (length (copy_ring q ++ make_array (n - capacity_ q)) = n) as Hn'.
  { rewrite length_app, Hlen. unfold make_array. rewrite length_replicate. lia. }
  rewrite array_store_Some by lia. eexists; split; [done|]. split.
  { destruct Hwf. constructor; cbn; rewrite ?length_insert; lia. }
  apply contents_intro; cbn; [rewrite contents_length by done; lia|].
  intros [|i] Hi; unfold Get; cbn.
  - rewrite Nat.add_0_r, Nat.mod_small by lia. apply list_lookup_insert_eq. lia.
  - rewrite ring_index by lia. case_decide; [lia|].
    replace (n - 1 + S i - n) with i by lia.
    rewrite list_lookup_insert_ne, lookup_app_l by lia.
    by rewrite (copy_ring_full q Hwf Hfull).
Qed.

Lemma EnqueueAsFirst_spec q x :
  queue_wf q →
  ∃ q', EnqueueAsFirst q x = Some q' ∧ queue_wf q' ∧ contents q' = x :: contents q.
Proof.
  intros Hwf. pose proof Hwf as [Hvec ???]. unfold EnqueueAsFirst. case_decide as Hc.
  - destruct (store_first_spec q x Hwf Hc) as (vec & -> & ? & Hcont). cbn.
    eexists; split; [done|]. split; [done|]. rewrite Hcont.
    by rewrite (nil_length_inv (contents q)) by (rewrite contents_length; done).
  - case_decide as Hfull.
    + rewrite grown_array_Some; [|done|].
      2:{ transitivity (S (capacity_ q)); [lia|]. apply Nat.div_le_lower_bound; lia. }
      cbn -[Nat.div]. destruct (prepend_full_spec q x Hwf Hfull) as (vec & -> & ? & ?).
      eauto.
    + case_decide.
      * destruct (store_before_head q x (head_ q - 1)) as (vec & -> & ? & ?);
          [done|lia|lia| |eauto].
        rewrite ring_index by lia. case_decide; lia.
      * destruct (store_before_head q x (capacity_ q - 1)) as (vec & -> & ? & ?);
          [done|lia|lia| |eauto].
        rewrite ring_index by lia. case_decide; lia.
Qed.

Lemma Dequeue_spec q :
  queue_wf q → queue_wf (Dequeue q) ∧ contents (Dequeue q) = tail (contents q).
Proof.
  intros Hwf. pose proof Hwf as [????]. unfold Dequeue.
  case_decide.
  2:{ split; [done|].
      by rewrite (nil_length_inv (contents q)) by (rewrite contents_length; [lia|done]). }
  split; [constructor; cbn; [lia|case_decide; lia|lia|lia]|].
  replace (tail (contents q)) with (drop 1 (contents q)) by (by destruct (contents q)).
  apply contents_intro; cbn [cnt_].
  { rewrite length_drop, contents_length by done. lia. }
  intros i Hi. rewrite lookup_drop, contents_lookup by (done || lia).
  unfold Get; cbn. f_equal. symmetry. apply ring_index_succ; lia.
Qed.

Lemma Peek_spec q : queue_wf q → 0 < cnt_ q → Peek q = head (contents q).
Proof.
  intros Hwf Hc. rewrite head_lookup, contents_lookup by done.
  unfold Peek, Get. f_equal. destruct Hwf.
  by rewrite Nat.add_0_r, Nat.mod_small.
Qed.

(** The loop of [Erase] shifts the elements after [index] by one slot and
    touches nothing else. *)
Lemma erase_shift_spec n index q :
  queue_wf q → index + n < capacity_ q →
  ∃ vec, erase_shift n index q = Some vec ∧ length vec = capacity_ q ∧
    ∀ i, i < capacity_ q →
      vec !! ((head_ q + i) mod capacity_ q) =
        if decide (index ≤ i < index + n) then Get q (i + 1) else Get q i.
Proof.
  revert index q. induction n as [|n IH]; intros index q Hwf Hn; cbn [erase_shift].
  { exists (vec_ q). split; [done|]. destruct Hwf. split; [done|]. intros i Hi.
    rewrite decide_False by lia. done. }
  destruct (Get_is_Some q (index + 1) Hwf) as [x Hx]. rewrite Hx. cbn.
  pose proof Hwf as [Hvec ? Hcnt ?].
  assert (∀ j, (head_ q + j) mod capacity_ q < length (vec_ q)) as Hlt.
  { intros. rewrite Hvec. by apply ring_index_lt. }
  rewrite array_store_Some by done. cbn.
  set (q1 := mkQueue _ _ _ _).
  assert (queue_wf q1) as Hwf1 by (constructor; cbn; rewrite ?length_insert; lia).
  destruct (IH (index + 1) q1 Hwf1) as (vec & -> & Hlen & Hv); [cbn; lia|].
  exists vec. split; [done|]. split; [done|]. intros i Hi.
  subst q1. cbn [head_ capacity_] in Hv. rewrite (Hv i Hi), !Get_store by done.
  destruct (decide (i = index)) as [->|].
  - rewrite (decide_False (P := index + 1 ≤ index < _)) by lia.
    rewrite decide_True by done. by rewrite decide_True by lia.
  - rewrite (decide_False (P := (head_ q + i) mod _ = _))
      by (intros Heq; apply ring_index_inj in Heq; lia).
    destruct (decide (index + 1 ≤ i < index + 1 + n)).
    + rewrite decide_False by (intros Heq; apply ring_index_inj in Heq; lia).
      by rewrite decide_True by lia.
    + by rewrite decide_False by lia.
Qed.

Lemma Erase_spec q index :
  queue_wf q → index < cnt_ q →
  ∃ q', Erase q index = Some q' ∧ queue_wf q' ∧
    contents q' = remove_at index (contents q).
Proof.
  intros Hwf Hi. pose proof Hwf as [Hvec Hh Hc H2]. unfold Erase.
  rewrite decide_False by lia.
  destruct (erase_shift_spec (cnt_ q - 1 - index) index q Hwf ltac:(lia))
    as (vec & -> & Hlen & Hv). cbn.
  eexists; split; [done|]. split.
  { constructor; cbn; [done|case_decide; lia|lia|lia]. }
  apply contents_intro; cbn.
  { rewrite length_remove_at by (rewrite contents_length by done; done).
    by rewrite contents_length by done. }
  intros i Hii. rewrite decide_False by lia. unfold Get at 1; cbn.
  rewrite Hv by lia. case_decide.
  - rewrite lookup_remove_at_ge by (rewrite ?contents_length by done; lia).
    rewrite contents_lookup by (done || lia). f_equal. lia.
  - rewrite lookup_remove_at_lt by lia. by rewrite contents_lookup by (done || lia).
Qed.

End CircularQueue.

Arguments CircularQueue : clear implicits.

(** ** The interface the lock relies on

    A [None] of the model cannot occur on a well-formed queue, so the client
    operations are total. *)

Section interface.
Context {T : Type} `{!Inhabited T}.

#[global] Instance CircularQueue_ops : QueueOps (CircularQueue T) T := {
  q_list := contents;
  q_ok := queue_wf;
  q_size := Size;
  q_peek := Peek;
  q_get := Get;
  q_enqueue q x := default q (Enqueue q x);
  q_enqueue_first q x := default q (EnqueueAsFirst q x);
  q_dequeue := Dequeue;
  q_erase q i := default q (Erase q i);
  q_reset := Reset;
}.

#[global] Instance CircularQueue_spec : QueueSpec (CircularQueue T) T.
Proof.
  split; cbn.
  - intros q Hwf. by rewrite contents_length.
  - intros q i Hwf Hi. symmetry. apply contents_lookup; [done|].
    by rewrite <-contents_length.
  - intros q Hwf Hne. apply Peek_spec; [done|].
    rewrite <-contents_length by done. destruct (contents q); [done|cbn; lia].
  - intros q x Hwf. by destruct (Enqueue_spec q x Hwf) as (? & -> & ? & ?).
  - intros q x Hwf. by destruct (Enqueue_spec q x Hwf) as (? & -> & ? & ?).
  - intros q x Hwf. by destruct (EnqueueAsFirst_spec q x Hwf) as (? & -> & ? & ?).
  - intros q x Hwf. by destruct (EnqueueAsFirst_spec q x Hwf) as (? & -> & ? & ?).
  - intros q Hwf. by destruct (Dequeue_spec q Hwf).
  - intros q Hwf. by destruct (Dequeue_spec q Hwf).
  - intros q i Hwf Hi. rewrite contents_length in Hi by done.
    by destruct (Erase_spec q i Hwf Hi) as (? & -> & ? & ?).
  - intros q i Hwf Hi. rewrite contents_length in Hi by done.
    by destruct (Erase_spec q i Hwf Hi) as (? & -> & ? & ?).
  - intros q Hwf. by destruct (Reset_spec q Hwf).
  - intros q Hwf. by destruct (Reset_spec q Hwf).
Qed.
End interface.

(** ** Sequences of operations *)

Section refinement.
Context {T : Type} `{!Inhabited T}.

Inductive queue_op :=
  | OpEnqueue (x : T) | OpEnqueueCopy (x : T) | OpEnqueueAsFirst (x : T)
  | OpDequeue | OpErase (i : nat) | OpReset.

Definition queue_step (q : CircularQueue T) (op : queue_op) : option (CircularQueue T) :=
  match op with
  | OpEnqueue x => Enqueue q x
  | OpEnqueueCopy x => Enqueue_copy q x
  | OpEnqueueAsFirst x => EnqueueAsFirst q x
  | OpDequeue => Some (Dequeue q)
  | OpErase i => Erase q i
  | OpReset => Some (Reset q)
  end.

Fixpoint queue_run (q : CircularQueue T) (ops : list queue_op) : option (CircularQueue T) :=
  match ops with
  | [] => Some q
  | op :: ops => q' ← queue_step q op; queue_run q' ops
  end.

(** The specification: a plain list. [Erase] is specified only inside the
    queue. *)
Definition list_step (l : list T) (op : queue_op) : option (list T) :=
  match op with
  | OpEnqueue x | OpEnqueueCopy x => Some (l ++ [x])
  | OpEnqueueAsFirst x => Some (x :: l)
  | OpDequeue => Some (tail l)
  | OpErase i => if decide (i < length l) then Some (remove_at i l) else None
  | OpReset => Some []
  end.

Fixpoint list_run (l : list T) (ops : list queue_op) : option (list T) :=
  match ops with
  | [] => Some l
  | op :: ops => l' ← list_step l op; list_run l' ops
  end.

Lemma queue_step_refines q op l' :
  queue_wf q → list_step (contents q) op = Some l' →
  ∃ q', queue_step q op = Some q' ∧ queue_wf q' ∧ contents q' = l'.
Proof.
  intros Hwf. destruct op; cbn; intros Hl; simplify_eq.
  - by apply Enqueue_spec.
  - by apply Enqueue_copy_spec.
  - by apply EnqueueAsFirst_spec.
  - eexists; split; [done|]. by apply Dequeue_spec.
  - case_decide; simplify_eq. apply Erase_spec; [done|]. by rewrite <-contents_length.
  - eexists; split; [done|]. by apply Reset_spec.
Qed.

Lemma queue_run_refines ops q l' :
  queue_wf q → list_run (contents q) ops = Some l' →
  ∃ q', queue_run q ops = Some q' ∧ queue_wf q' ∧ contents q' = l'.
Proof.
  revert q. induction ops as [|op ops IH]; cbn; intros q Hwf Hl; simplify_eq; [eauto|].
  destruct (list_step (contents q) op) as [l1|] eqn:E; [|done]. cbn in Hl.
  destruct (queue_step_refines q op l1 Hwf E) as (q1 & -> & ? & <-). by apply IH.
Qed.

(** C33: a [CircularQueue] constructed with capacity at least two behaves, under any
    sequence of its operations (both [Enqueue] overloads, [EnqueueAsFirst],
    [Dequeue], [Erase] inside the queue, [Reset]) with any number of
    reallocations, like the list specification: no array access is out of
    bounds, and [Size], [Get] and [Peek] read the specified list. *)
Theorem CircularQueue_refines_list capacity ops l :
  2 ≤ capacity →
  list_run [] ops = Some l →
  ∃ q, queue_run (CircularQueue_new capacity) ops = Some q ∧
    contents q = l ∧ Size q = length l ∧
    (∀ i, i < length l → Get q i = l !! i) ∧
    (l ≠ [] → Peek q = head l).
Proof.
  intros Hcap Hl. destruct (new_spec (T := T) capacity Hcap) as [Hwf Hnil].
  destruct (queue_run_refines ops (CircularQueue_new capacity) l Hwf)
    as (q & Hrun & Hwf' & <-); [by rewrite Hnil|].
  exists q. split; [done|]. split; [done|]. split; [by rewrite contents_length|].
  split.
  - intros i Hi. rewrite contents_lookup; [done..|]. by rewrite <-contents_length.
  - exact (q_peek_spec (Q := CircularQueue T) q Hwf').
Qed.

(** A full queue of capacity one does not grow ([size_t(1 * 1.5) = 1]) and the
    append stores one past the end of the new array. *)
Lemma Enqueue_capacity_one (x y : T) :
  queue_run (CircularQueue_new 1) [OpEnqueue x; OpEnqueue y] = None.
Proof. reflexivity. Qed.
End refinement.

Arguments queue_op : clear implicits.

Lemma CircularQueue_refines_list_witness :
  2 ≤ 2 ∧
  ∃ q, queue_run (T := nat) (CircularQueue_new 2)
         [OpEnqueue 1; OpEnqueue 2; OpDequeue; OpEnqueue 3; OpEnqueueCopy 4;
          OpEnqueueAsFirst 5; OpErase 1] = Some q ∧
    contents q = [5; 3; 4].
Proof.
  split; [lia|].
  destruct (CircularQueue_refines_list (T := nat) 2
    [OpEnqueue 1; OpEnqueue 2; OpDequeue; OpEnqueue 3; OpEnqueueCopy 4;
     OpEnqueueAsFirst 5; OpErase 1] [5; 3; 4]) as (q & ? & ? & _);
    [lia|reflexivity|]. exists q. split; assumption.
Defined.
