(* ===== verification/NonBlockingLock.v ===== *)
(** * The non-blocking lock ([NonBlockingLock])

    One lock guards one cc entry.  A request that conflicts does not block the
    thread: under a blocking protocol it is parked in [blocking_queue_] and
    re-enqueued to the shard when a release makes it grantable
    ([TryPopBlockingQueue]).  Source: [include/cc/non_blocking_lock.h] and
    [src/cc/non_blocking_lock.cpp].

    A call to [ccs->Enqueue(ccs->LocalCoreId(), req)] is an output of the
    operation (the list of re-enqueued requests, in order), and so is a call to
    [req->AbortCcRequest(err)].  The queue is any implementation of [QueueOps]. *)

From S2P Require Import Prelude CcProtocol Queue CircularQueue.

(** A [CcRequestBase *] as the lock sees it: the request's identity and the
    transaction it belongs to. *)
Record CcRequestBase := mkReq { req_ptr : Z; Txn : Z }.

#[export] Instance CcRequestBase_eq_dec : EqDecision CcRequestBase.
Proof. solve_decision. Defined.

(** [NonBlockingLock::WriteLockType]. *)
Inductive WriteLockType := NoWritelock | WriteLockHeld | WriteIntentHeld.

#[export] Instance WriteLockType_eq_dec : EqDecision WriteLockType.
Proof. solve_decision. Defined.

(** [NonBlockingLock::LockQueueEntry], with its default member values. *)
Record LockQueueEntry := mkEntry { req_ : CcRequestBase; lk_type_ : LockType }.

#[export] Instance LockQueueEntry_inhabited : Inhabited LockQueueEntry :=
  populate (mkEntry (mkReq 0 0) ReadLock).

Definition entry_txn (e : LockQueueEntry) : Z := Txn (req_ e).

Record NonBlockingLock (Q : Type) := mkLock {
  read_intentions_ : gset Z;
  read_locks_ : gset Z;
  read_cnt_ : Z;
  write_lk_type_ : WriteLockType;
  write_txn_ : Z;
  wlock_ts_ : Z;
  blocking_queue_ : Q;
}.
Arguments mkLock {_}.
Arguments read_intentions_ {_}.
Arguments read_locks_ {_}.
Arguments read_cnt_ {_}.
Arguments write_lk_type_ {_}.
Arguments write_txn_ {_}.
Arguments wlock_ts_ {_}.
Arguments blocking_queue_ {_}.

Section NonBlockingLock.
Context {Q : Type} `{!QueueOps Q LockQueueEntry}.
Abbreviation lock := (NonBlockingLock Q).
Implicit Types (lk : lock) (req : CcRequestBase) (e : LockQueueEntry).

(** Member assignments. *)
Definition set_read lk (ri rl : gset Z) : lock :=
  mkLock ri rl (read_cnt_ lk) (write_lk_type_ lk) (write_txn_ lk) (wlock_ts_ lk)
    (blocking_queue_ lk).
Definition set_read_cnt lk (c : Z) : lock :=
  mkLock (read_intentions_ lk) (read_locks_ lk) c (write_lk_type_ lk)
    (write_txn_ lk) (wlock_ts_ lk) (blocking_queue_ lk).
Definition set_write lk (t : WriteLockType) (txn : Z) : lock :=
  mkLock (read_intentions_ lk) (read_locks_ lk) (read_cnt_ lk) t txn
    (wlock_ts_ lk) (blocking_queue_ lk).
Definition set_queue lk (q : Q) : lock :=
  mkLock (read_intentions_ lk) (read_locks_ lk) (read_cnt_ lk) (write_lk_type_ lk)
    (write_txn_ lk) (wlock_ts_ lk) q.

Definition SetWLockTs lk (ts : Z) : lock :=
  mkLock (read_intentions_ lk) (read_locks_ lk) (read_cnt_ lk) (write_lk_type_ lk)
    (write_txn_ lk) ts (blocking_queue_ lk).
Definition WLockTs lk : Z := wlock_ts_ lk.

Definition LockReset lk : lock :=
  mkLock ∅ ∅ 0 NoWritelock 0 0 (q_reset (blocking_queue_ lk)).

(** ** Conflict tests *)

Definition NoReadLockConflict lk (tx_number : Z) : bool :=
  if decide (read_cnt_ lk > 0)%Z then false
  else
    bool_decide (read_locks_ lk = ∅) ||
    (bool_decide (size (read_locks_ lk) = 1) &&
     bool_decide (head (elements (read_locks_ lk)) = Some tx_number)).

Definition NoWriteLockConflict lk (tx_number : Z) : bool :=
  bool_decide (write_lk_type_ lk ≠ WriteLockHeld) ||
  bool_decide (write_txn_ lk = tx_number).

Definition NoWriteConflict lk (txn : Z) : bool :=
  bool_decide (write_lk_type_ lk = NoWritelock) ||
  bool_decide (write_txn_ lk = txn).

Definition HasWriteLockOrWriteIntent lk (txn : Z) : bool :=
  bool_decide (write_lk_type_ lk ≠ NoWritelock) && bool_decide (write_txn_ lk = txn).

Definition HasWriteLock_of lk (txn : Z) : bool :=
  bool_decide (write_lk_type_ lk = WriteLockHeld) && bool_decide (write_txn_ lk = txn).

Definition HasWriteLock lk : bool := bool_decide (write_lk_type_ lk = WriteLockHeld).
Definition WriteLockTx lk : Z := write_txn_ lk.
Definition WriteTx lk : Z * WriteLockType := (write_txn_ lk, write_lk_type_ lk).

Definition IsEmpty lk : bool :=
  bool_decide (read_intentions_ lk = ∅) && bool_decide (read_locks_ lk = ∅) &&
  bool_decide (read_cnt_ lk = 0%Z) && bool_decide (write_lk_type_ lk = NoWritelock) &&
  bool_decide (q_size (blocking_queue_ lk) = 0).

Definition SearchLock lk (txn : Z) : LockType :=
  if HasWriteLockOrWriteIntent lk txn then
    if decide (write_lk_type_ lk = WriteLockHeld) then WriteLock else WriteIntent
  else if decide (txn ∈ read_locks_ lk) then ReadLock
  else if decide (txn ∈ read_intentions_ lk) then ReadIntent
  else NoLock.

(** ** Granting *)

Definition UpgradeLock lk (tx_number : Z) (lock_type : LockType) : lock :=
  let lk1 :=
    match lock_type with
    | WriteLock => set_write lk WriteLockHeld tx_number
    | WriteIntent => set_write lk WriteIntentHeld tx_number
    | _ => lk
    end in
  set_read lk1 (read_intentions_ lk1 ∖ {[tx_number]}) (read_locks_ lk1 ∖ {[tx_number]}).

Definition add_read_lock lk (txn : Z) : lock :=
  set_read lk (read_intentions_ lk ∖ {[txn]}) (read_locks_ lk ∪ {[txn]}).

(** One iteration of the loop of [TryPopBlockingQueue] on the head of the
    queue: the granted lock state, or [None] when the head conflicts. *)
Definition grant_queued lk e : option lock :=
  let queued_txn := entry_txn e in
  match lk_type_ e with
  | WriteLock =>
      if NoWriteConflict lk queued_txn && NoReadLockConflict lk queued_txn
      then Some (UpgradeLock lk queued_txn WriteLock) else None
  | WriteIntent =>
      if NoWriteConflict lk queued_txn
      then Some (UpgradeLock lk queued_txn WriteIntent) else None
  | ReadLock =>
      if NoWriteLockConflict lk queued_txn
      then Some (add_read_lock lk queued_txn) else None
  | _ => Some lk
  end.

(** The [while] loop; [fuel] bounds the iterations, each of which dequeues. *)
Fixpoint try_pop_loop (fuel : nat) lk : lock * list CcRequestBase :=
  match fuel with
  | O => (lk, [])
  | S fuel =>
      if decide (q_size (blocking_queue_ lk) = 0) then (lk, [])
      else
        match q_peek (blocking_queue_ lk) with
        | None => (lk, [])
        | Some queue_head =>
            match grant_queued lk queue_head with
            | None => (lk, [])
            | Some lk1 =>
                (* ExecuteQueuedRequest *)
                let lk2 := set_queue lk1 (q_dequeue (blocking_queue_ lk1)) in
                let '(lk3, out) := try_pop_loop fuel lk2 in
                (lk3, req_ queue_head :: out)
            end
        end
  end.

Definition TryPopBlockingQueue lk : lock * list CcRequestBase :=
  try_pop_loop (q_size (blocking_queue_ lk)) lk.

(** ** Acquiring *)

Definition enqueue lk req (t : LockType) : lock :=
  set_queue lk (q_enqueue (blocking_queue_ lk) (mkEntry req t)).

Definition AcquireWriteLock lk req (protocol : CcProtocol) : bool * lock :=
  let tx_number := Txn req in
  if HasWriteLock_of lk tx_number then (true, lk)
  else if NoWriteConflict lk tx_number && NoReadLockConflict lk tx_number then
    (true, UpgradeLock lk tx_number WriteLock)
  else
    (false,
     if bool_decide (protocol = Locking) || bool_decide (protocol = OccRead)
     then enqueue lk req WriteLock else lk).

Definition AcquireWriteIntent lk req (protocol : CcProtocol) : bool * lock :=
  let tx_number := Txn req in
  if HasWriteLockOrWriteIntent lk tx_number then (true, lk)
  else if NoWriteConflict lk tx_number && bool_decide (q_size (blocking_queue_ lk) = 0)
  then (true, UpgradeLock lk tx_number WriteIntent)
  else
    (false,
     if decide (protocol ≠ OCC) then enqueue lk req WriteIntent else lk).

(** A read lock does not conflict with a write intent at the head of the
    queue. *)
Definition no_blocking_queue_conflict lk : bool :=
  bool_decide (q_size (blocking_queue_ lk) = 0) ||
  match q_peek (blocking_queue_ lk) with
  | Some e => bool_decide (lk_type_ e = WriteIntent)
  | None => false
  end.

Definition AcquireReadLock lk req : bool * lock :=
  let tx_number := Txn req in
  if bool_decide (tx_number ∈ read_locks_ lk) || HasWriteLockOrWriteIntent lk tx_number
  then (true, lk)
  else if NoWriteLockConflict lk tx_number && no_blocking_queue_conflict lk
  then (true, add_read_lock lk tx_number)
  else (false, enqueue lk req ReadLock).

Definition AcquireReadLockFast lk (tx_number : Z) : bool * lock :=
  if NoWriteLockConflict lk tx_number && no_blocking_queue_conflict lk
  then (true, set_read_cnt lk (read_cnt_ lk + 1))
  else (false, lk).

Definition AcquireReadIntent lk (tx_number : Z) : bool * lock :=
  if bool_decide (tx_number ∈ read_locks_ lk) ||
     bool_decide (tx_number ∈ read_intentions_ lk) ||
     HasWriteLockOrWriteIntent lk tx_number
  then (false, lk)
  else (true, set_read lk (read_intentions_ lk ∪ {[tx_number]}) (read_locks_ lk)).

Definition AcquireLock lk req (cc_protocol : CcProtocol) (lock_type : LockType)
    : LockOpStatus * lock :=
  match lock_type with
  | NoLock => (Successful, lk)
  | ReadIntent => let '(_, lk') := AcquireReadIntent lk (Txn req) in (Successful, lk')
  | ReadLock =>
      let '(success, lk') := AcquireReadLock lk req in
      (if success then Successful else Blocked, lk')
  | WriteIntent =>
      let '(success, lk') := AcquireWriteIntent lk req cc_protocol in
      (if decide (cc_protocol = OCC) then
         if success then Successful else Failed
       else if success then Successful else Blocked, lk')
  | WriteLock =>
      let '(success, lk') := AcquireWriteLock lk req cc_protocol in
      (if decide (cc_protocol = OCC) then
         if success then Successful else Failed
       else if success then Successful else Blocked, lk')
  end.

Definition InsertBlockingQueue lk req (lock_type : LockType) : lock :=
  set_queue lk (q_enqueue_first (blocking_queue_ lk) (mkEntry req lock_type)).

(** ** Releasing *)

Definition with_pop (r : bool) (p : lock * list CcRequestBase)
    : bool * lock * list CcRequestBase := (r, p.1, p.2).

Definition ReleaseReadLockFast lk : bool * lock * list CcRequestBase :=
  with_pop true (TryPopBlockingQueue (set_read_cnt lk (read_cnt_ lk - 1))).

Definition ReleaseReadLock lk (tx_number : Z) : bool * lock * list CcRequestBase :=
  if decide (tx_number ∈ read_locks_ lk) then
    with_pop true (TryPopBlockingQueue
      (set_read lk (read_intentions_ lk) (read_locks_ lk ∖ {[tx_number]})))
  else (false, lk, []).

Definition ReleaseReadIntent lk (tx_number : Z) : bool * lock :=
  if decide (tx_number ∈ read_intentions_ lk) then
    (true, set_read lk (read_intentions_ lk ∖ {[tx_number]}) (read_locks_ lk))
  else (false, lk).

Definition ReleaseWriteLock lk (tx_number : Z) : bool * lock * list CcRequestBase :=
  if HasWriteLock_of lk tx_number then
    with_pop true (TryPopBlockingQueue (set_write lk NoWritelock 0))
  else (false, lk, []).

Definition ReleaseWriteIntent lk (tx_number : Z) : bool * lock * list CcRequestBase :=
  if bool_decide (write_lk_type_ lk = WriteIntentHeld) &&
     bool_decide (write_txn_ lk = tx_number) then
    with_pop true (TryPopBlockingQueue (set_write lk NoWritelock 0))
  else (false, lk, []).

Definition DowngradeWriteLock lk (tx_number : Z) : lock * list CcRequestBase :=
  if HasWriteLock_of lk tx_number then
    TryPopBlockingQueue (set_write lk WriteIntentHeld (write_txn_ lk))
  else (lk, []).

(** [ClearTx]: the first mode found, in this order, is released. *)
Definition ClearTx lk (tx_number : Z) : LockType * lock * list CcRequestBase :=
  let '(rl, lk1, out1) := ReleaseReadLock lk tx_number in
  if (rl : bool) then (ReadLock, lk1, out1)
  else
    let '(ri, lk2) := ReleaseReadIntent lk tx_number in
    if (ri : bool) then (ReadIntent, lk2, [])
    else if HasWriteLockOrWriteIntent lk tx_number then
      let return_type :=
        if decide (write_lk_type_ lk = WriteLockHeld) then WriteLock else WriteIntent in
      let '(lk3, out) := TryPopBlockingQueue (set_write lk NoWritelock 0) in
      (return_type, lk3, out)
    else (NoLock, lk, []).

(** ** The waiting queue *)

Definition GetBlockTxIds lk (exclude_id : Z) : list Z :=
  omap (λ i, e ← q_get (blocking_queue_ lk) i;
             if decide (entry_txn e = exclude_id) then None else Some (entry_txn e))
       (seq 0 (q_size (blocking_queue_ lk))).

Definition FindQueueRequest lk (txid : Z) : bool :=
  existsb (λ i, match q_get (blocking_queue_ lk) i with
                | Some e => bool_decide (entry_txn e = txid)
                | None => false
                end)
          (seq 0 (q_size (blocking_queue_ lk))).

(** The loop of [AbortQueueRequest]: the aborted requests and the queue. Each
    iteration advances [i] or shortens the queue. *)
Fixpoint abort_queue_loop (fuel i : nat) (q : Q) (txid : Z) : Q * list CcRequestBase :=
  match fuel with
  | O => (q, [])
  | S fuel =>
      if decide (i < q_size q) then
        match q_get q i with
        | None => (q, [])
        | Some ety =>
            if decide (entry_txn ety = txid) then
              let '(q', aborted) := abort_queue_loop fuel i (q_erase q i) txid in
              (q', req_ ety :: aborted)
            else abort_queue_loop fuel (S i) q txid
        end
      else (q, [])
  end.

Definition AbortQueueRequest lk (txid : Z) : lock * list CcRequestBase :=
  let '(q, aborted) :=
    abort_queue_loop (q_size (blocking_queue_ lk)) 0 (blocking_queue_ lk) txid in
  (set_queue lk q, aborted).

Definition AbortAllQueuedRequests lk : lock * list CcRequestBase :=
  (set_queue lk (q_reset (blocking_queue_ lk)),
   omap (λ i, req_ <$> q_get (blocking_queue_ lk) i)
        (seq 0 (q_size (blocking_queue_ lk)))).

End NonBlockingLock.

(** ** The loop of [TryPopBlockingQueue] *)

Section pop.
Context {Q : Type} `{!QueueOps Q LockQueueEntry, !QueueSpec Q LockQueueEntry}.
Abbreviation lock := (NonBlockingLock Q).
Implicit Types (lk : lock) (req : CcRequestBase) (e : LockQueueEntry).

(** The parked requests, head first. *)
Definition waiting lk : list LockQueueEntry := q_list (blocking_queue_ lk).

Definition queue_ok lk : Prop := q_ok (blocking_queue_ lk).

(** Granting a list of entries one after the other. *)
Fixpoint grants lk (l : list LockQueueEntry) : option lock :=
  match l with
  | [] => Some lk
  | e :: l => lk1 ← grant_queued lk e; grants lk1 l
  end.

Lemma grant_queued_queue lk e lk1 :
  grant_queued lk e = Some lk1 → blocking_queue_ lk1 = blocking_queue_ lk.
Proof. unfold grant_queued. intros. repeat case_match; by simplify_eq/=. Qed.

Lemma grant_queued_set_queue lk e q :
  grant_queued (set_queue lk q) e = (λ lk1, set_queue lk1 q) <$> grant_queued lk e.
Proof.
  unfold grant_queued. destruct (lk_type_ e); cbn [fmap option_fmap option_map]; [done..| | |].
  - change (NoWriteLockConflict (set_queue lk q)) with (NoWriteLockConflict lk).
    by case_match.
  - change (NoWriteConflict (set_queue lk q)) with (NoWriteConflict lk). by case_match.
  - change (NoWriteConflict (set_queue lk q)) with (NoWriteConflict lk).
    change (NoReadLockConflict (set_queue lk q)) with (NoReadLockConflict lk).
    by case_match.
Qed.

Lemma grants_set_queue lk l q :
  grants (set_queue lk q) l = (λ lk1, set_queue lk1 q) <$> grants lk l.
Proof.
  revert lk. induction l as [|e l IH]; intros lk; cbn; [done|].
  rewrite grant_queued_set_queue. by destruct (grant_queued lk e); cbn.
Qed.

Lemma try_pop_loop_spec n lk :
  queue_ok lk → length (waiting lk) ≤ n →
  ∃ popped rest lk1 q,
    waiting lk = popped ++ rest ∧
    grants lk popped = Some lk1 ∧
    (∀ e, head rest = Some e → grant_queued lk1 e = None) ∧
    try_pop_loop n lk = (set_queue lk1 q, req_ <$> popped) ∧
    q_ok q ∧ q_list q = rest.
Proof.
  unfold waiting, queue_ok. revert lk. induction n as [|n IH]; intros lk Hok Hn.
  { assert (q_list (blocking_queue_ lk) = []) as Hnil by (apply nil_length_inv; lia).
    exists [], [], lk, (blocking_queue_ lk). cbn. rewrite Hnil.
    repeat split; try done; by destruct lk. }
  cbn [try_pop_loop]. rewrite q_size_spec by done.
  case_decide as Hz.
  { apply nil_length_inv in Hz as Hnil.
    exists [], [], lk, (blocking_queue_ lk). cbn. rewrite Hnil.
    repeat split; try done; by destruct lk. }
  destruct (q_list (blocking_queue_ lk)) as [|e l] eqn:Hl; [done|].
  rewrite q_peek_spec by (rewrite ?Hl; done). rewrite Hl; cbn [head].
  destruct (grant_queued lk e) as [lk1|] eqn:Hg.
  - pose proof (grant_queued_queue _ _ _ Hg) as Hq.
    set (q1 := q_dequeue (blocking_queue_ lk1)).
    assert (q_ok q1) as Hok1 by (subst q1; rewrite Hq; auto with txs).
    assert (q_list q1 = l) as Hl1
      by (subst q1; rewrite Hq, q_dequeue_spec by done; by rewrite Hl).
    destruct (IH (set_queue lk1 q1)) as (popped & rest & lk2 & q & Hw & Hgs & Hh & Hp & ? & ?).
    { done. } { cbn. rewrite Hl1. cbn in Hn. lia. }
    rewrite Hp. cbn in Hw. rewrite Hl1 in Hw.
    rewrite grants_set_queue in Hgs.
    destruct (grants lk1 popped) as [lk3|] eqn:Hg3; cbn in Hgs; [|done].
    injection Hgs as <-. exists (e :: popped), rest, lk3, q. cbn. rewrite Hg, Hw. cbn.
    repeat split; try done. intros e' He'. specialize (Hh e' He').
    rewrite grant_queued_set_queue in Hh. by destruct (grant_queued lk3 e').
  - exists [], (e :: l), lk, (blocking_queue_ lk). cbn.
    repeat split; try done; [by intros ? [= <-]|by destruct lk].
Qed.

Lemma TryPopBlockingQueue_spec lk :
  queue_ok lk →
  ∃ popped rest lk1 q,
    waiting lk = popped ++ rest ∧
    grants lk popped = Some lk1 ∧
    (∀ e, head rest = Some e → grant_queued lk1 e = None) ∧
    TryPopBlockingQueue lk = (set_queue lk1 q, req_ <$> popped) ∧
    q_ok q ∧ q_list q = rest.
Proof.
  intros Hok. apply try_pop_loop_spec; [done|]. by rewrite q_size_spec.
Qed.
End pop.

(** ** Mutual exclusion *)

Section mutex.
Context {Q : Type} `{!QueueOps Q LockQueueEntry, !QueueSpec Q LockQueueEntry}.
Abbreviation lock := (NonBlockingLock Q).
Implicit Types (lk : lock) (req : CcRequestBase) (e : LockQueueEntry) (fast : list Z).

(** Every call a shard makes on a lock.  The fast catalog read only counts its
    readers; [fast] remembers who they are. *)
Inductive lock_step : lock * list Z → lock * list Z → Prop :=
  | step_acquire lk fast req proto t :
      lock_step (lk, fast) ((AcquireLock lk req proto t).2, fast)
  | step_acquire_fast lk fast txn lk' :
      AcquireReadLockFast lk txn = (true, lk') → lock_step (lk, fast) (lk', txn :: fast)
  | step_release_fast lk fast1 fast2 txn :
      lock_step (lk, fast1 ++ txn :: fast2) ((ReleaseReadLockFast lk).1.2, fast1 ++ fast2)
  | step_release_read lk fast txn :
      lock_step (lk, fast) ((ReleaseReadLock lk txn).1.2, fast)
  | step_release_read_intent lk fast txn :
      lock_step (lk, fast) ((ReleaseReadIntent lk txn).2, fast)
  | step_release_write lk fast txn :
      lock_step (lk, fast) ((ReleaseWriteLock lk txn).1.2, fast)
  | step_release_write_intent lk fast txn :
      lock_step (lk, fast) ((ReleaseWriteIntent lk txn).1.2, fast)
  | step_downgrade lk fast txn :
      lock_step (lk, fast) ((DowngradeWriteLock lk txn).1, fast)
  | step_clear lk fast txn :
      lock_step (lk, fast) ((ClearTx lk txn).1.2, fast)
  | step_insert lk fast req t :
      lock_step (lk, fast) (InsertBlockingQueue lk req t, fast)
  | step_abort lk fast txn :
      lock_step (lk, fast) ((AbortQueueRequest lk txn).1, fast)
  | step_abort_all lk fast :
      lock_step (lk, fast) ((AbortAllQueuedRequests lk).1, fast)
  | step_wlock_ts lk fast ts :
      lock_step (lk, fast) (SetWLockTs lk ts, fast)
  | step_reset lk fast :
      lock_step (lk, fast) (LockReset lk, []).

(** Whoever holds the write lock is the only reader, fast readers included. *)
Definition mutex lk fast : Prop :=
  read_cnt_ lk = Z.of_nat (length fast) ∧
  (write_lk_type_ lk = WriteLockHeld →
     read_locks_ lk ⊆ {[write_txn_ lk]} ∧ Forall (λ t, t = write_txn_ lk) fast).

(** The parts of the lock the invariant is about. *)
Lemma mutex_ext lk lk' fast :
  read_cnt_ lk' = read_cnt_ lk → write_lk_type_ lk' = write_lk_type_ lk →
  write_txn_ lk' = write_txn_ lk → read_locks_ lk' = read_locks_ lk →
  mutex lk fast → mutex lk' fast.
Proof. unfold mutex. by intros -> -> -> ->. Qed.

Lemma NoReadLockConflict_spec lk txn :
  NoReadLockConflict lk txn = true ↔ (read_cnt_ lk ≤ 0)%Z ∧ read_locks_ lk ⊆ {[txn]}.
Proof.
  unfold NoReadLockConflict. rewrite <-set_at_most_one.
  case_decide; [split; [done|lia]|].
  rewrite orb_true_iff, andb_true_iff, !bool_decide_eq_true. split; [|tauto].
  intros. split; [lia|done].
Qed.

Lemma NoWriteConflict_spec lk txn :
  NoWriteConflict lk txn = true ↔ write_lk_type_ lk = NoWritelock ∨ write_txn_ lk = txn.
Proof. unfold NoWriteConflict. by rewrite orb_true_iff, !bool_decide_eq_true. Qed.

Lemma NoWriteLockConflict_spec lk txn :
  NoWriteLockConflict lk txn = true ↔
    write_lk_type_ lk ≠ WriteLockHeld ∨ write_txn_ lk = txn.
Proof. unfold NoWriteLockConflict. by rewrite orb_true_iff, !bool_decide_eq_true. Qed.

Lemma HasWriteLockOrWriteIntent_spec lk txn :
  HasWriteLockOrWriteIntent lk txn = true ↔
    write_lk_type_ lk ≠ NoWritelock ∧ write_txn_ lk = txn.
Proof.
  unfold HasWriteLockOrWriteIntent. by rewrite andb_true_iff, !bool_decide_eq_true.
Qed.

Lemma HasWriteLock_of_spec lk txn :
  HasWriteLock_of lk txn = true ↔
    write_lk_type_ lk = WriteLockHeld ∧ write_txn_ lk = txn.
Proof. unfold HasWriteLock_of. by rewrite andb_true_iff, !bool_decide_eq_true. Qed.

Lemma mutex_upgrade_write lk fast txn :
  NoReadLockConflict lk txn = true → mutex lk fast → mutex (UpgradeLock lk txn WriteLock) fast.
Proof.
  intros [Hc Hr]%NoReadLockConflict_spec [Hcnt _].
  destruct fast as [|f fast]; [|cbn in Hcnt; lia].
  split; [done|]. intros _. cbn. split; [set_solver|constructor].
Qed.

Lemma mutex_upgrade_intent lk fast txn :
  mutex lk fast → mutex (UpgradeLock lk txn WriteIntent) fast.
Proof. intros [Hcnt _]. by split. Qed.

Lemma mutex_add_read lk fast txn :
  NoWriteLockConflict lk txn = true → mutex lk fast → mutex (add_read_lock lk txn) fast.
Proof.
  intros Hw%NoWriteLockConflict_spec [Hcnt Hm]. split; [done|]. intros Hwl.
  destruct (Hm Hwl). cbn in *. split; [|done].
  destruct Hw as [|<-]; [done|]. set_solver.
Qed.

Lemma mutex_grant lk fast e lk1 :
  grant_queued lk e = Some lk1 → mutex lk fast → mutex lk1 fast.
Proof.
  unfold grant_queued. intros Hg Hm.
  destruct (lk_type_ e); simplify_eq; [done|done|..].
  - case_match; simplify_eq. by apply mutex_add_read.
  - case_match; simplify_eq. by apply mutex_upgrade_intent.
  - case_match; simplify_eq. bool_to_prop. by apply mutex_upgrade_write.
Qed.

Lemma mutex_grants lk fast l lk1 :
  grants lk l = Some lk1 → mutex lk fast → mutex lk1 fast.
Proof.
  revert lk. induction l as [|e l IH]; cbn; intros lk Hg Hm; simplify_eq; [done|].
  destruct (grant_queued lk e) as [lk2|] eqn:E; [|done].
  eapply IH; [done|]. by eapply mutex_grant.
Qed.

Lemma mutex_pop lk fast :
  queue_ok lk → mutex lk fast → mutex (TryPopBlockingQueue lk).1 fast.
Proof.
  intros Hok Hm.
  destruct (TryPopBlockingQueue_spec lk Hok) as (? & ? & lk1 & q & _ & Hg & _ & -> & _).
  eapply (mutex_ext lk1); [done..|]. by eapply mutex_grants.
Qed.

Lemma queue_ok_pop lk : queue_ok lk → queue_ok (TryPopBlockingQueue lk).1.
Proof.
  intros Hok.
  by destruct (TryPopBlockingQueue_spec lk Hok) as (? & ? & ? & q & _ & _ & _ & -> & ? & _).
Qed.

(** The abort loop keeps the queue well formed and filters it. *)
Lemma abort_queue_loop_spec n i q txid :
  q_ok q → i ≤ length (q_list q) → length (q_list q) - i ≤ n →
  let '(q', aborted) := abort_queue_loop n i q txid in
  q_ok q' ∧
  q_list q' = take i (q_list q) ++
              filter (λ e, entry_txn e ≠ txid) (drop i (q_list q)) ∧
  aborted = req_ <$> filter (λ e, entry_txn e = txid) (drop i (q_list q)).
Proof.
  revert i q. induction n as [|n IH]; intros i q Hok Hi Hn; cbn [abort_queue_loop].
  { assert (i = length (q_list q)) as -> by lia.
    rewrite drop_ge, take_ge by lia. cbn. by rewrite app_nil_r. }
  rewrite q_size_spec by done. case_decide as Hlt.
  2:{ rewrite drop_ge, take_ge by lia. cbn. by rewrite app_nil_r. }
  rewrite q_get_spec by done.
  destruct (lookup_lt_is_Some_2 _ _ Hlt) as [e He]. rewrite He.
  rewrite (drop_S _ _ _ He).
  case_decide as Ht.
  - pose proof (q_erase_ok q i Hok Hlt). pose proof (q_erase_spec q i Hok Hlt) as Hl.
    specialize (IH i (q_erase q i)). rewrite Hl in IH.
    rewrite length_remove_at in IH by done.
    destruct (abort_queue_loop n i (q_erase q i) txid) as [q' ab].
    destruct IH as (? & Hq' & Hab); [done|lia|lia|].
    unfold remove_at in Hq', Hab.
    assert (length (take i (q_list q)) = i) as Hti by (rewrite length_take; lia).
    rewrite take_app_length', drop_app_length' in Hq' by done.
    rewrite drop_app_length' in Hab by done.
    rewrite filter_cons_False, filter_cons_True by (done || tauto).
    split; [done|]. split; [done|]. cbn. by rewrite Hab.
  - specialize (IH (S i) q).
    destruct (abort_queue_loop n (S i) q txid) as [q' ab].
    destruct IH as (? & Hq' & Hab); [done|lia|lia|].
    rewrite filter_cons_True, filter_cons_False by done.
    split; [done|]. split; [|done].
    rewrite Hq', (take_S_r _ _ _ He), <-app_assoc. done.
Qed.

Definition lock_ok (s : lock * list Z) : Prop := queue_ok s.1 ∧ mutex s.1 s.2.

(** A release weakens the holders and then pops the queue. *)
Lemma lock_ok_pop lk fast :
  lock_ok (lk, fast) → lock_ok ((TryPopBlockingQueue lk).1, fast).
Proof. intros [??]. split; [by apply queue_ok_pop|by apply mutex_pop]. Qed.

Lemma lock_ok_set_read lk fast ri rl :
  rl ⊆ read_locks_ lk → lock_ok (lk, fast) → lock_ok (set_read lk ri rl, fast).
Proof.
  intros Hrl [Hok [Hc Hm]]. split; [done|]. split; [done|]. cbn in *.
  intros Hw. destruct (Hm Hw). split; [set_solver|done].
Qed.

Lemma lock_ok_set_write lk fast t txn :
  t ≠ WriteLockHeld → lock_ok (lk, fast) → lock_ok (set_write lk t txn, fast).
Proof. intros Ht [Hok [Hc _]]. split; [done|]. by split. Qed.

Lemma lock_ok_set_queue lk fast q :
  q_ok q → lock_ok (lk, fast) → lock_ok (set_queue lk q, fast).
Proof. intros Hq [_ Hm]. by split. Qed.

Lemma lock_ok_enqueue lk fast req t :
  lock_ok (lk, fast) → lock_ok (enqueue lk req t, fast).
Proof. intros H. apply lock_ok_set_queue; [|done]. apply q_enqueue_ok, H. Qed.

Lemma lock_ok_acquire_read_intent lk fast txn :
  lock_ok (lk, fast) → lock_ok ((AcquireReadIntent lk txn).2, fast).
Proof.
  intros H. unfold AcquireReadIntent. case_match; [done|]. by apply lock_ok_set_read.
Qed.

Lemma lock_ok_acquire_read lk fast req :
  lock_ok (lk, fast) → lock_ok ((AcquireReadLock lk req).2, fast).
Proof.
  intros H. unfold AcquireReadLock. case_match; [done|].
  case_match; bool_to_prop; [|by apply lock_ok_enqueue].
  destruct H. split; [done|]. by apply mutex_add_read.
Qed.

Lemma lock_ok_acquire_intent lk fast req proto :
  lock_ok (lk, fast) → lock_ok ((AcquireWriteIntent lk req proto).2, fast).
Proof.
  intros H. unfold AcquireWriteIntent. case_match; [done|].
  case_match; [|cbn; destruct (decide (proto ≠ OCC)); [by apply lock_ok_enqueue|done]].
  destruct H. split; [done|]. by apply mutex_upgrade_intent.
Qed.

Lemma lock_ok_acquire_write lk fast req proto :
  lock_ok (lk, fast) → lock_ok ((AcquireWriteLock lk req proto).2, fast).
Proof.
  intros H. unfold AcquireWriteLock. case_match; [done|].
  case_match; bool_to_prop; [|cbn; case_match; [by apply lock_ok_enqueue|done]].
  destruct H. split; [done|]. by apply mutex_upgrade_write.
Qed.

Lemma AcquireLock_state lk req proto t :
  (AcquireLock lk req proto t).2 =
    match t with
    | NoLock => lk
    | ReadIntent => (AcquireReadIntent lk (Txn req)).2
    | ReadLock => (AcquireReadLock lk req).2
    | WriteIntent => (AcquireWriteIntent lk req proto).2
    | WriteLock => (AcquireWriteLock lk req proto).2
    end.
Proof.
  destruct t; cbn; [done|by destruct (AcquireReadIntent _ _)
    |by destruct (AcquireReadLock _ _)|by destruct (AcquireWriteIntent _ _ _)
    |by destruct (AcquireWriteLock _ _ _)].
Qed.

Lemma lock_ok_acquire lk fast req proto t :
  lock_ok (lk, fast) → lock_ok ((AcquireLock lk req proto t).2, fast).
Proof.
  rewrite AcquireLock_state. destruct t; [done|apply lock_ok_acquire_read_intent
    |apply lock_ok_acquire_read|apply lock_ok_acquire_intent|apply lock_ok_acquire_write].
Qed.

Lemma lock_ok_release_read lk fast txn :
  lock_ok (lk, fast) → lock_ok ((ReleaseReadLock lk txn).1.2, fast).
Proof.
  intros. unfold ReleaseReadLock. case_decide; [|done]. cbn.
  apply lock_ok_pop, lock_ok_set_read; [set_solver|done].
Qed.

Lemma lock_ok_release_read_intent lk fast txn :
  lock_ok (lk, fast) → lock_ok ((ReleaseReadIntent lk txn).2, fast).
Proof.
  intros. unfold ReleaseReadIntent. case_decide; [|done]. by apply lock_ok_set_read.
Qed.

Lemma lock_ok_clear lk fast txn :
  lock_ok (lk, fast) → lock_ok ((ClearTx lk txn).1.2, fast).
Proof.
  intros H. unfold ClearTx.
  pose proof (lock_ok_release_read lk fast txn H) as Hr.
  destruct (ReleaseReadLock lk txn) as [[[] lk1] out1]; [done|].
  pose proof (lock_ok_release_read_intent lk fast txn H) as Hi.
  destruct (ReleaseReadIntent lk txn) as [[] lk2]; [done|].
  case_match; [|done].
  pose proof (lock_ok_pop (set_write lk NoWritelock 0) fast) as Hp.
  destruct (TryPopBlockingQueue _) as [lk3 out]. apply Hp. by apply lock_ok_set_write.
Qed.

Lemma AbortQueueRequest_spec lk txid :
  queue_ok lk →
  ∃ q, AbortQueueRequest lk txid =
         (set_queue lk q, req_ <$> filter (λ e, entry_txn e = txid) (waiting lk)) ∧
    q_ok q ∧ q_list q = filter (λ e, entry_txn e ≠ txid) (waiting lk).
Proof.
  intros Hok. unfold AbortQueueRequest.
  pose proof (abort_queue_loop_spec (q_size (blocking_queue_ lk)) 0
                (blocking_queue_ lk) txid Hok) as Hspec.
  destruct (abort_queue_loop _ _ _ _) as [q ab].
  destruct Hspec as (? & Hq & ->); [lia|rewrite q_size_spec by done; lia|].
  rewrite take_0, drop_0 in Hq. exists q. by rewrite drop_0.
Qed.

Lemma lock_ok_abort lk fast txid :
  lock_ok (lk, fast) → lock_ok ((AbortQueueRequest lk txid).1, fast).
Proof.
  intros H. destruct (AbortQueueRequest_spec lk txid) as (q & -> & ? & _); [apply H|].
  by apply lock_ok_set_queue.
Qed.

Lemma lock_ok_step s s' : lock_step s s' → lock_ok s → lock_ok s'.
Proof.
  intros [] Hs; pose proof Hs as [Hok Hm]; cbn in Hok, Hm.
  - by apply lock_ok_acquire.
  - match goal with H : AcquireReadLockFast _ _ = _ |- _ => revert H end.
    unfold AcquireReadLockFast. case_match; [|done]. bool_to_prop. intros [= <-].
    destruct Hm as [Hc Hm]. split; [done|]. split; cbn; [lia|].
    intros Hw. destruct (Hm Hw). split; [done|]. constructor; [|done].
    rewrite NoWriteLockConflict_spec in *. destruct_or!; done.
  - cbn. apply lock_ok_pop. destruct Hm as [Hc Hm]. split; [done|].
    split; cbn; [rewrite length_app in *; cbn in *; lia|].
    intros Hw. destruct (Hm Hw) as [? [? [_ ?]%Forall_cons]%Forall_app].
    split; [done|]. by apply Forall_app.
  - by apply lock_ok_release_read.
  - by apply lock_ok_release_read_intent.
  - unfold ReleaseWriteLock. case_match; [|done]. by apply lock_ok_pop, lock_ok_set_write.
  - unfold ReleaseWriteIntent. case_match; [|done]. by apply lock_ok_pop, lock_ok_set_write.
  - unfold DowngradeWriteLock. case_match; [|done]. by apply lock_ok_pop, lock_ok_set_write.
  - by apply lock_ok_clear.
  - apply lock_ok_set_queue; [|done]. by apply q_enqueue_first_ok.
  - by apply lock_ok_abort.
  - apply lock_ok_set_queue; [|done]. by apply q_reset_ok.
  - done.
  - split; [by apply q_reset_ok|]. by split.
Qed.

(** The states of a lock after [Reset] and any calls. *)
Definition lock_reachable (s : lock * list Z) : Prop :=
  ∃ lk0, queue_ok lk0 ∧ rtc lock_step (LockReset lk0, []) s.

Lemma lock_reachable_ok s : lock_reachable s → lock_ok s.
Proof.
  intros (lk0 & Hok & Hsteps).
  assert (lock_ok (LockReset lk0, [])) as Hinit
    by (split; [by apply q_reset_ok|by split]).
  revert Hinit. induction Hsteps as [|s1 s2 s3 Hstep _ IH]; [done|].
  intros H1. by apply IH, (lock_ok_step s1).
Qed.
End mutex.

(** C18: mutual exclusion.  Whatever calls the transactions make and in whatever
    order, once a transaction [w] holds the write lock no other transaction
    holds a read lock (ordinary or through the fast catalog path), a write
    intent or a write lock on the entry. *)
Theorem write_lock_exclusive (lk : NonBlockingLock (CircularQueue LockQueueEntry))
    (fast : list Z) (w : Z) :
  lock_reachable (lk, fast) →
  HasWriteLock_of lk w = true →
  ∀ t, t ≠ w → lock_rank (SearchLock lk t) < lock_rank ReadLock ∧ t ∉ fast.
Proof.
  intros [_ [_ Hm]]%lock_reachable_ok [Hw Hwt]%HasWriteLock_of_spec t Ht.
  destruct (Hm Hw) as [Hr Hf]. cbn in *. rewrite Hwt in *. split.
  - unfold SearchLock. case_match eqn:E.
    + apply HasWriteLockOrWriteIntent_spec in E as [_ E]. congruence.
    + case_decide; [set_solver|]. case_decide; cbn; lia.
  - intros Hin. rewrite Forall_forall in Hf.
    by apply Ht, Hf.
Qed.

Definition new_lock : NonBlockingLock (CircularQueue LockQueueEntry) :=
  LockReset (mkLock ∅ ∅ 0 NoWritelock 0 0 (CircularQueue_new 8)).

Lemma new_lock_queue_ok :
  queue_ok (mkLock ∅ ∅ 0 NoWritelock 0 0 (CircularQueue_new (T := LockQueueEntry) 8)).
Proof. apply (new_spec 8). lia. Qed.

Lemma write_lock_exclusive_witness :
  let lk := (AcquireLock new_lock (mkReq 1 7) Locking WriteLock).2 in
  HasWriteLock_of lk 7 = true ∧ lock_rank (SearchLock lk 8) < lock_rank ReadLock ∧ 8%Z ∉ [].
Proof.
  cbn zeta. split; [reflexivity|].
  apply (write_lock_exclusive _ [] 7); [|reflexivity|lia].
  eexists. split; [exact new_lock_queue_ok|]. apply rtc_once. apply step_acquire.
Defined.

(** ** One mode per transaction *)

Section orderly.
Context {Q : Type} `{!QueueOps Q LockQueueEntry, !QueueSpec Q LockQueueEntry}.
Abbreviation lock := (NonBlockingLock Q).
Implicit Types (lk : lock) (req : CcRequestBase) (e : LockQueueEntry)
  (w : list LockQueueEntry).

Definition is_writer lk (txn : Z) : Prop :=
  write_lk_type_ lk ≠ NoWritelock ∧ write_txn_ lk = txn.

Definition queued lk (txn : Z) : Prop := txn ∈ entry_txn <$> waiting lk.

(** A transaction that waits for a read lock or a write intent. *)
Definition wants_weak e : Prop := lk_type_ e = ReadLock ∨ lk_type_ e = WriteIntent.

(** A transaction holds the entry in at most one mode, and waits at most once,
    for a mode it does not have. *)
Record one_mode lk w : Prop := {
  om_disjoint : read_intentions_ lk ## read_locks_ lk;
  om_writer : ∀ t, is_writer lk t → t ∉ read_intentions_ lk ∪ read_locks_ lk;
  om_nodup : NoDup (entry_txn <$> w);
  om_weak : ∀ e, e ∈ w → wants_weak e → ¬ is_writer lk (entry_txn e);
}.

Definition orderly lk : Prop := queue_ok lk ∧ one_mode lk (waiting lk).

(** The calls of well-behaved transactions: one that waits in the queue makes
    no further acquire call on the same entry until it is resumed or aborted. *)
Inductive orderly_step : lock → lock → Prop :=
  | ostep_acquire lk req proto t :
      ¬ queued lk (Txn req) → orderly_step lk (AcquireLock lk req proto t).2
  | ostep_acquire_fast lk txn : orderly_step lk (AcquireReadLockFast lk txn).2
  | ostep_release_fast lk : orderly_step lk (ReleaseReadLockFast lk).1.2
  | ostep_release_read lk txn : orderly_step lk (ReleaseReadLock lk txn).1.2
  | ostep_release_read_intent lk txn : orderly_step lk (ReleaseReadIntent lk txn).2
  | ostep_release_write lk txn : orderly_step lk (ReleaseWriteLock lk txn).1.2
  | ostep_release_write_intent lk txn : orderly_step lk (ReleaseWriteIntent lk txn).1.2
  | ostep_downgrade lk txn : orderly_step lk (DowngradeWriteLock lk txn).1
  | ostep_clear lk txn : orderly_step lk (ClearTx lk txn).1.2
  | ostep_insert lk req t :
      ¬ queued lk (Txn req) → ¬ is_writer lk (Txn req) →
      orderly_step lk (InsertBlockingQueue lk req t)
  | ostep_abort lk txn : orderly_step lk (AbortQueueRequest lk txn).1
  | ostep_abort_all lk : orderly_step lk (AbortAllQueuedRequests lk).1
  | ostep_wlock_ts lk ts : orderly_step lk (SetWLockTs lk ts)
  | ostep_reset lk : orderly_step lk (LockReset lk).

Lemma not_writer_bool lk txn :
  HasWriteLockOrWriteIntent lk txn = false ↔ ¬ is_writer lk txn.
Proof.
  unfold is_writer. rewrite <-HasWriteLockOrWriteIntent_spec.
  by destruct (HasWriteLockOrWriteIntent lk txn).
Qed.

Lemma one_mode_upgrade lk w txn t :
  t = WriteLock ∨ t = WriteIntent → txn ∉ entry_txn <$> w →
  one_mode lk w → one_mode (UpgradeLock lk txn t) w.
Proof.
  intros Ht Hq [Hd Hw Hn Hk].
  assert (∀ t', is_writer (UpgradeLock lk txn t) t' → t' = txn) as Hwr
    by (intros t' [_ <-]; by destruct Ht as [-> | ->]).
  assert (read_intentions_ (UpgradeLock lk txn t) = read_intentions_ lk ∖ {[txn]}) as Hri
    by (by destruct Ht as [-> | ->]).
  assert (read_locks_ (UpgradeLock lk txn t) = read_locks_ lk ∖ {[txn]}) as Hrl
    by (by destruct Ht as [-> | ->]).
  split; [rewrite Hri, Hrl; set_solver| |done|].
  - intros t' ->%Hwr. rewrite Hri, Hrl. set_solver.
  - intros e He _ Heq%Hwr. apply Hq. apply list_elem_of_fmap. eauto.
Qed.

Lemma one_mode_add_read lk w txn :
  ¬ is_writer lk txn → one_mode lk w → one_mode (add_read_lock lk txn) w.
Proof.
  intros Hnw [Hd Hw Hn Hk]. split; [cbn; set_solver| |done|done].
  intros t Ht. cbn. change (is_writer lk t) in Ht.
  assert (t ≠ txn) by congruence. pose proof (Hw t Ht). set_solver.
Qed.

Lemma one_mode_grant lk e w lk1 :
  grant_queued lk e = Some lk1 → one_mode lk (e :: w) → one_mode lk1 w.
Proof.
  intros Hg [Hd Hw [He Hn]%NoDup_cons Hk].
  assert (one_mode lk w) as Hm by (split; [done..|set_solver]).
  unfold grant_queued in Hg. destruct (lk_type_ e) eqn:Ht; simplify_eq; [done|done|..].
  - case_match; simplify_eq. apply one_mode_add_read; [|done].
    apply Hk; [by left|by left].
  - case_match; simplify_eq. apply one_mode_upgrade; auto.
  - case_match; simplify_eq. apply one_mode_upgrade; auto.
Qed.

Lemma one_mode_grants lk popped rest lk1 :
  grants lk popped = Some lk1 → one_mode lk (popped ++ rest) → one_mode lk1 rest.
Proof.
  revert lk. induction popped as [|e l IH]; cbn; intros lk Hg Hm; simplify_eq; [done|].
  destruct (grant_queued lk e) as [lk2|] eqn:E; [|done].
  eapply IH; [done|]. by eapply one_mode_grant.
Qed.

Lemma orderly_pop lk : orderly lk → orderly (TryPopBlockingQueue lk).1.
Proof.
  intros [Hok Hm].
  destruct (TryPopBlockingQueue_spec lk Hok)
    as (popped & rest & lk1 & q & Hw & Hg & _ & -> & Hq & Hl).
  split; [done|]. unfold waiting; cbn. rewrite Hl.
  rewrite Hw in Hm. pose proof (one_mode_grants _ _ _ _ Hg Hm) as []. by split.
Qed.

(** Changes that only drop holders keep the invariant. *)
Lemma orderly_weaken lk lk' :
  blocking_queue_ lk' = blocking_queue_ lk →
  read_intentions_ lk' ⊆ read_intentions_ lk → read_locks_ lk' ⊆ read_locks_ lk →
  (∀ t, is_writer lk' t → is_writer lk t) →
  orderly lk → orderly lk'.
Proof.
  unfold orderly, queue_ok, waiting. intros -> Hi Hl Hwr [Hok [Hd Hw Hn Hk]].
  split; [done|]. split; [set_solver|set_solver|done|].
  intros e He Hwk Hw'. by eapply Hk, Hwr.
Qed.

Lemma orderly_enqueue lk req t :
  ¬ queued lk (Txn req) → (wants_weak (mkEntry req t) → ¬ is_writer lk (Txn req)) →
  orderly lk → orderly (enqueue lk req t).
Proof.
  unfold queued. intros Hq Hnw [Hok [Hd Hw Hn Hk]]. unfold orderly, queue_ok, waiting in *.
  cbn. rewrite q_enqueue_spec by done.
  split; [by apply q_enqueue_ok|]. split; [done|done| |].
  - rewrite fmap_app. cbn. apply NoDup_app. split; [done|]. split; [|apply NoDup_singleton].
    intros x Hx ->%list_elem_of_singleton. done.
  - intros e [He| ->%list_elem_of_singleton]%elem_of_app; [by apply Hk|done].
Qed.

Lemma orderly_acquire lk req proto t :
  ¬ queued lk (Txn req) → orderly lk → orderly (AcquireLock lk req proto t).2.
Proof.
  intros Hq H. pose proof H as [Hok Hm]. rewrite AcquireLock_state. destruct t.
  - done.
  - unfold AcquireReadIntent. case_match; [done|].
    bool_to_prop. split; [done|]. destruct Hm as [Hd Hw Hn Hk].
    rewrite not_writer_bool in *.
    split; [cbn; set_solver| |done|done].
    intros t Ht. change (is_writer lk t) in Ht. cbn.
    assert (t ≠ Txn req) by congruence. pose proof (Hw t Ht). set_solver.
  - unfold AcquireReadLock. case_match; [done|]. bool_to_prop. rewrite not_writer_bool in *.
    case_match; [|by apply orderly_enqueue]. split; [done|]. by apply one_mode_add_read.
  - unfold AcquireWriteIntent. case_match; [done|]. rewrite not_writer_bool in *.
    case_match; cbn [snd].
    + split; [done|]. apply one_mode_upgrade; auto.
    + destruct (decide (proto ≠ OCC)); [|done]. by apply orderly_enqueue.
  - unfold AcquireWriteLock. case_match; [done|]. case_match; cbn [snd].
    + split; [done|]. apply one_mode_upgrade; auto.
    + destruct (bool_decide (proto = Locking) || bool_decide (proto = OccRead)); [|done].
      apply orderly_enqueue; [done| |done]. by intros [|].
Qed.

Lemma orderly_release_read lk txn : orderly lk → orderly (ReleaseReadLock lk txn).1.2.
Proof.
  intros. unfold ReleaseReadLock. case_decide; [|done]. cbn.
  apply orderly_pop. eapply orderly_weaken; [..|done]; cbn; [done|set_solver|set_solver|done].
Qed.

Lemma orderly_release_read_intent lk txn :
  orderly lk → orderly (ReleaseReadIntent lk txn).2.
Proof.
  intros. unfold ReleaseReadIntent. case_decide; [|done]. cbn.
  eapply orderly_weaken; [..|done]; cbn; [done|set_solver|set_solver|done].
Qed.

Lemma orderly_set_no_writer lk : orderly lk → orderly (set_write lk NoWritelock 0).
Proof. intros. eapply orderly_weaken; [..|done]; [done..|]. by intros t [? _]. Qed.

Lemma orderly_set_intent lk txn :
  HasWriteLock_of lk txn = true → orderly lk →
  orderly (set_write lk WriteIntentHeld (write_txn_ lk)).
Proof.
  intros [E _]%HasWriteLock_of_spec ?. eapply orderly_weaken; [..|done]; [done..|].
  intros t [_ <-]. split; [|done]. by rewrite E.
Qed.

Lemma orderly_release_writer lk :
  orderly lk → orderly (TryPopBlockingQueue (set_write lk NoWritelock 0)).1.
Proof. intros. by apply orderly_pop, orderly_set_no_writer. Qed.

Lemma orderly_clear lk txn : orderly lk → orderly (ClearTx lk txn).1.2.
Proof.
  intros H. unfold ClearTx.
  pose proof (orderly_release_read lk txn H).
  destruct (ReleaseReadLock lk txn) as [[[] lk1] out1]; [done|].
  pose proof (orderly_release_read_intent lk txn H).
  destruct (ReleaseReadIntent lk txn) as [[] lk2]; [done|].
  case_match; [|done]. pose proof (orderly_release_writer lk H).
  by destruct (TryPopBlockingQueue _).
Qed.

Lemma orderly_set_queue lk q :
  q_ok q → sublist (q_list q) (waiting lk) → orderly lk → orderly (set_queue lk q).
Proof.
  intros Hq Hsub [Hok [Hd Hw Hn Hk]]. split; [done|]. unfold waiting; cbn.
  split; [done|done| |].
  - eapply sublist_NoDup; [exact Hn|]. by apply sublist_fmap.
  - intros e He. apply Hk. by eapply elem_of_sublist.
Qed.

Lemma orderly_insert lk req t :
  ¬ queued lk (Txn req) → ¬ is_writer lk (Txn req) →
  orderly lk → orderly (InsertBlockingQueue lk req t).
Proof.
  unfold queued. intros Hq Hnw [Hok [Hd Hw Hn Hk]]. unfold orderly, queue_ok, waiting in *.
  cbn. rewrite q_enqueue_first_spec by done.
  split; [by apply q_enqueue_first_ok|]. split; [done|done| |].
  - cbn. by apply NoDup_cons.
  - intros e [->|He]%elem_of_cons; [done|by apply Hk].
Qed.

Lemma orderly_step_ok lk lk' : orderly_step lk lk' → orderly lk → orderly lk'.
Proof.
  intros Hstep Hord; pose proof Hord as [Hok Hm]; destruct Hstep.
  - by apply orderly_acquire.
  - unfold AcquireReadLockFast. case_match; [|done]. by eapply orderly_weaken; [..|done].
  - apply orderly_pop. by eapply orderly_weaken; [..|done].
  - by apply orderly_release_read.
  - by apply orderly_release_read_intent.
  - unfold ReleaseWriteLock. case_match; [|done]. by apply orderly_release_writer.
  - unfold ReleaseWriteIntent. case_match; [|done]. by apply orderly_release_writer.
  - unfold DowngradeWriteLock. case_match eqn:E; [|done].
    by eapply orderly_pop, orderly_set_intent.
  - by apply orderly_clear.
  - by apply orderly_insert.
  - destruct (AbortQueueRequest_spec lk txn Hok) as (q & -> & Hq & Hl).
    apply orderly_set_queue; [done| |done]. rewrite Hl. apply sublist_filter.
  - apply orderly_set_queue; [by apply q_reset_ok| |done].
    rewrite q_reset_spec by done. apply sublist_nil_l.
  - by eapply orderly_weaken; [..|done].
  - split; [by apply q_reset_ok|]. unfold waiting; cbn. rewrite q_reset_spec by done.
    split; [set_solver|by intros t [? _]|constructor|set_solver].
Qed.

Definition orderly_reachable lk : Prop :=
  ∃ lk0, queue_ok lk0 ∧ rtc orderly_step (LockReset lk0) lk.

Lemma orderly_reachable_ok lk : orderly_reachable lk → orderly lk.
Proof.
  intros (lk0 & Hok & Hsteps).
  assert (orderly (LockReset lk0)) as Hinit.
  { split; [by apply q_reset_ok|]. unfold waiting; cbn. rewrite q_reset_spec by done.
    split; [set_solver|by intros t [? _]|constructor|set_solver]. }
  revert Hinit. induction Hsteps as [|s1 s2 s3 Hstep _ IH]; [done|].
  intros H1. by apply IH, (orderly_step_ok s1).
Qed.

(** ** What the pops leave untouched *)

Lemma SearchLock_NoLock lk t :
  SearchLock lk t = NoLock ↔
    ¬ is_writer lk t ∧ t ∉ read_locks_ lk ∧ t ∉ read_intentions_ lk.
Proof.
  unfold SearchLock. rewrite <-not_writer_bool.
  destruct (HasWriteLockOrWriteIntent lk t); [case_decide; naive_solver|].
  repeat case_decide; naive_solver.
Qed.

Lemma SearchLock_ext lk lk' t :
  (is_writer lk t ↔ is_writer lk' t) →
  (is_writer lk t → write_lk_type_ lk = write_lk_type_ lk') →
  (t ∈ read_locks_ lk ↔ t ∈ read_locks_ lk') →
  (t ∈ read_intentions_ lk ↔ t ∈ read_intentions_ lk') →
  SearchLock lk t = SearchLock lk' t.
Proof.
  unfold is_writer. rewrite <-!HasWriteLockOrWriteIntent_spec.
  intros Hw Hty Hr Hi. unfold SearchLock.
  destruct (HasWriteLockOrWriteIntent lk t).
  - assert (HasWriteLockOrWriteIntent lk' t = true) as -> by tauto. by rewrite Hty.
  - destruct (HasWriteLockOrWriteIntent lk' t); [by destruct Hw as [_ Hw]; discriminate Hw|].
    repeat case_decide; tauto.
Qed.

Lemma UpgradeLock_other lk t t' m :
  NoWriteConflict lk t = true → t' ≠ t →
  SearchLock (UpgradeLock lk t m) t' = SearchLock lk t'.
Proof.
  intros Hc Ht. rewrite NoWriteConflict_spec in Hc. unfold is_writer.
  apply SearchLock_ext; destruct m; cbn; try set_solver; unfold is_writer; cbn;
    naive_solver congruence.
Qed.

Lemma add_read_lock_other lk t t' :
  t' ≠ t → SearchLock (add_read_lock lk t) t' = SearchLock lk t'.
Proof. intros Ht. apply SearchLock_ext; cbn; set_solver. Qed.

Lemma UpgradeLock_self lk t m :
  m = WriteIntent ∨ m = WriteLock → SearchLock (UpgradeLock lk t m) t = m.
Proof.
  unfold SearchLock, HasWriteLockOrWriteIntent.
  by intros [-> | ->]; cbn; rewrite (bool_decide_eq_true_2 (t = t)).
Qed.

Lemma add_read_lock_self lk t :
  ¬ is_writer lk t → SearchLock (add_read_lock lk t) t = ReadLock.
Proof.
  intros Hw%not_writer_bool. unfold SearchLock.
  change (HasWriteLockOrWriteIntent (add_read_lock lk t) t)
    with (HasWriteLockOrWriteIntent lk t).
  rewrite Hw, decide_True; [done|]. cbn. set_solver.
Qed.

(** A grant to one transaction leaves the modes of all others alone. *)
Lemma grant_other lk e lk1 t :
  grant_queued lk e = Some lk1 → t ≠ entry_txn e → SearchLock lk1 t = SearchLock lk t.
Proof.
  unfold grant_queued. intros Hg Ht.
  destruct (lk_type_ e); simplify_eq; [done|done|..]; case_match; simplify_eq; bool_to_prop.
  - by apply add_read_lock_other.
  - by apply UpgradeLock_other.
  - by apply UpgradeLock_other.
Qed.

Lemma grants_other lk popped lk1 t :
  grants lk popped = Some lk1 → t ∉ entry_txn <$> popped →
  SearchLock lk1 t = SearchLock lk t.
Proof.
  revert lk. induction popped as [|e l IH]; cbn; intros lk Hg Ht; simplify_eq; [done|].
  destruct (grant_queued lk e) as [lk2|] eqn:E; [|done].
  rewrite (IH lk2) by set_solver. eapply grant_other; [done|set_solver].
Qed.

(** A popped request holds what it waited for. *)
Lemma grants_self lk popped rest lk1 e :
  grants lk popped = Some lk1 → one_mode lk (popped ++ rest) → e ∈ popped →
  lock_rank ReadLock ≤ lock_rank (lk_type_ e) →
  SearchLock lk1 (entry_txn e) = lk_type_ e.
Proof.
  revert lk. induction popped as [|e' l IH]; cbn; intros lk Hg Hm He Ht; [set_solver|].
  destruct (grant_queued lk e') as [lk2|] eqn:E; [|done].
  assert (one_mode lk2 (l ++ rest)) as Hm2 by by eapply one_mode_grant.
  apply elem_of_cons in He as [->|He]; [|by eapply IH].
  destruct Hm as [_ _ Hn Hk]. cbn in Hn. apply NoDup_cons in Hn as [Hn _].
  rewrite (grants_other _ _ _ _ Hg) by (rewrite fmap_app in Hn; set_solver).
  specialize (Hk e' ltac:(set_solver)). unfold wants_weak in Hk. unfold grant_queued in E.
  destruct (lk_type_ e') eqn:Et; cbn in Ht; try lia; case_match; simplify_eq.
  - apply add_read_lock_self. auto.
  - apply UpgradeLock_self. auto.
  - apply UpgradeLock_self. auto.
Qed.

Lemma pop_other_NoLock lk t :
  queue_ok lk → ¬ queued lk t → SearchLock lk t = NoLock →
  SearchLock (TryPopBlockingQueue lk).1 t = NoLock.
Proof.
  intros Hok Hq Ht.
  destruct (TryPopBlockingQueue_spec lk Hok)
    as (popped & rest & lk1 & q & Hw & Hg & _ & -> & _).
  change (SearchLock lk1 t = NoLock). unfold queued in Hq. rewrite Hw, fmap_app in Hq.
  rewrite (grants_other _ _ _ _ Hg); [done|set_solver].
Qed.

(** [ClearTx] on a transaction that is not waiting: it reports the mode the
    transaction held and leaves it none. *)
Lemma ClearTx_clears lk t :
  orderly lk → ¬ queued lk t →
  (ClearTx lk t).1.1 = SearchLock lk t ∧ SearchLock (ClearTx lk t).1.2 t = NoLock.
Proof.
  intros [Hok [Hd Hw _ _]] Hq. unfold ClearTx, ReleaseReadLock.
  destruct (decide (t ∈ read_locks_ lk)) as [Hr|Hr]; cbn.
  { assert (¬ is_writer lk t) as Hnw by (intros ?%Hw; set_solver).
    split.
    - unfold SearchLock. apply not_writer_bool in Hnw as ->. by rewrite decide_True.
    - apply pop_other_NoLock; [done|done|]. apply SearchLock_NoLock. cbn.
      split; [done|]. set_solver. }
  unfold ReleaseReadIntent.
  destruct (decide (t ∈ read_intentions_ lk)) as [Hi|Hi]; cbn.
  { assert (¬ is_writer lk t) as Hnw by (intros ?%Hw; set_solver).
    split.
    - unfold SearchLock. apply not_writer_bool in Hnw as ->.
      by rewrite decide_False, decide_True.
    - apply SearchLock_NoLock. cbn. split; [done|]. set_solver. }
  destruct (HasWriteLockOrWriteIntent lk t) eqn:E.
  - pose proof (pop_other_NoLock (set_write lk NoWritelock 0) t Hok Hq) as Hp.
    destruct (TryPopBlockingQueue _) as [lk3 out]. cbn in *.
    split; [unfold SearchLock; by rewrite E|]. apply Hp, SearchLock_NoLock.
    split; [by intros [? _]|done].
  - cbn. assert (SearchLock lk t = NoLock) as ->; [|done].
    apply SearchLock_NoLock. by rewrite <-not_writer_bool.
Qed.

(** ** The compatibility matrix *)

(** Whether a request for [wanted] must wait for another holder of [held]. *)
Definition incompatible (held wanted : LockType) : bool :=
  match wanted, held with
  | WriteLock, (ReadLock | WriteIntent | WriteLock) => true
  | WriteIntent, (WriteIntent | WriteLock) => true
  | ReadLock, WriteLock => true
  | _, _ => false
  end.

(** A request is blocked by another transaction's mode, or by a reader of the
    fast catalog path when it wants to write. *)
Definition blocked lk e : Prop :=
  (∃ t, t ≠ entry_txn e ∧ incompatible (SearchLock lk t) (lk_type_ e) = true) ∨
  (lk_type_ e = WriteLock ∧ (0 < read_cnt_ lk)%Z).

Lemma SearchLock_writer lk t :
  is_writer lk t ↔ SearchLock lk t = WriteLock ∨ SearchLock lk t = WriteIntent.
Proof.
  unfold is_writer, SearchLock. rewrite <-HasWriteLockOrWriteIntent_spec.
  destruct (HasWriteLockOrWriteIntent lk t); [case_decide; tauto|].
  repeat case_decide; naive_solver.
Qed.

Lemma SearchLock_WriteLock lk t :
  SearchLock lk t = WriteLock ↔ write_lk_type_ lk = WriteLockHeld ∧ write_txn_ lk = t.
Proof.
  unfold SearchLock.
  destruct (HasWriteLockOrWriteIntent lk t) eqn:E.
  - apply HasWriteLockOrWriteIntent_spec in E as [? ?]. case_decide; naive_solver.
  - apply not_writer_bool in E. split; [by repeat case_decide|].
    intros [Hty Htx]. destruct E. split; [by rewrite Hty|done].
Qed.

Lemma SearchLock_ReadLock lk t :
  SearchLock lk t = ReadLock ↔ ¬ is_writer lk t ∧ t ∈ read_locks_ lk.
Proof.
  unfold SearchLock. rewrite <-not_writer_bool.
  destruct (HasWriteLockOrWriteIntent lk t); [case_decide; naive_solver|].
  repeat case_decide; naive_solver.
Qed.

Lemma no_write_conflict_other lk txn :
  NoWriteConflict lk txn = true ↔ ∀ t, t ≠ txn → ¬ is_writer lk t.
Proof.
  rewrite NoWriteConflict_spec. unfold is_writer. split; [naive_solver|].
  intros H. destruct (decide (write_lk_type_ lk = NoWritelock)); [by left|right].
  destruct (decide (write_txn_ lk = txn)); [done|]. naive_solver.
Qed.

Lemma incompatible_spec lk t wanted :
  incompatible (SearchLock lk t) wanted = true ↔
    match wanted with
    | WriteLock => is_writer lk t ∨ t ∈ read_locks_ lk
    | WriteIntent => is_writer lk t
    | ReadLock => write_lk_type_ lk = WriteLockHeld ∧ write_txn_ lk = t
    | _ => False
    end.
Proof.
  destruct wanted; cbn; [done|done|..].
  - rewrite <-SearchLock_WriteLock. by destruct (SearchLock lk t).
  - rewrite SearchLock_writer. destruct (SearchLock lk t); naive_solver.
  - pose proof (SearchLock_writer lk t) as Hw. pose proof (SearchLock_ReadLock lk t) as Hr.
    destruct (decide (t ∈ read_locks_ lk)), (SearchLock lk t); naive_solver.
Qed.

(** The code's test on the head of the queue is the compatibility matrix. *)
Lemma grant_queued_blocked lk e : grant_queued lk e = None ↔ blocked lk e.
Proof.
  unfold grant_queued, blocked. setoid_rewrite incompatible_spec.
  destruct (lk_type_ e); [naive_solver|naive_solver|..].
  - destruct (NoWriteLockConflict lk (entry_txn e)) eqn:E.
    + apply NoWriteLockConflict_spec in E. naive_solver.
    + apply not_true_iff_false in E. rewrite NoWriteLockConflict_spec in E.
      split; [|done]. intros _. left. exists (write_txn_ lk).
      destruct (write_lk_type_ lk); naive_solver.
  - destruct (NoWriteConflict lk (entry_txn e)) eqn:E.
    + rewrite no_write_conflict_other in E. naive_solver.
    + apply not_true_iff_false in E. rewrite NoWriteConflict_spec in E.
      split; [|done]. intros _. left. exists (write_txn_ lk). split; [naive_solver|].
      split; naive_solver.
  - destruct (NoWriteConflict lk (entry_txn e)) eqn:E; cbn.
    2: { apply not_true_iff_false in E. rewrite NoWriteConflict_spec in E.
         split; [|done]. intros _. left. exists (write_txn_ lk). split; [naive_solver|].
         left. split; naive_solver. }
    rewrite no_write_conflict_other in E.
    destruct (NoReadLockConflict lk (entry_txn e)) eqn:E'.
    + apply NoReadLockConflict_spec in E' as [? Hr]. split; [done|].
      intros [(t & Ht & [Hw|Hin])|[_ ?]]; [naive_solver|set_solver|lia].
    + apply not_true_iff_false in E'. rewrite NoReadLockConflict_spec in E'.
      split; [|done]. intros _. destruct (decide (0 < read_cnt_ lk)%Z); [by right|left].
      destruct (set_choose_or_empty (read_locks_ lk ∖ {[entry_txn e]})) as [[t Ht]|He].
      * exists t. set_solver.
      * exfalso. apply E'. split; [lia|]. intros t Ht.
        destruct (decide (t = entry_txn e)); set_solver.
Qed.

(** What a release does to the queue: the longest grantable prefix leaves in
    FIFO order, every popped request holds its mode, nobody else's mode
    changes, and the request left at the head has a blocker. *)
Lemma pop_contract lk :
  orderly lk →
  ∃ popped rest,
    waiting lk = popped ++ rest ∧
    waiting (TryPopBlockingQueue lk).1 = rest ∧
    (TryPopBlockingQueue lk).2 = req_ <$> popped ∧
    (∀ e, e ∈ popped → lock_rank ReadLock ≤ lock_rank (lk_type_ e) →
          SearchLock (TryPopBlockingQueue lk).1 (entry_txn e) = lk_type_ e) ∧
    (∀ t, t ∉ entry_txn <$> popped →
          SearchLock (TryPopBlockingQueue lk).1 t = SearchLock lk t) ∧
    (∀ e, head rest = Some e → blocked (TryPopBlockingQueue lk).1 e).
Proof.
  intros [Hok Hm].
  destruct (TryPopBlockingQueue_spec lk Hok)
    as (popped & rest & lk1 & q & Hw & Hg & Hh & -> & Hq & Hl).
  rewrite Hw in Hm. exists popped, rest. cbn [fst snd]. repeat split; [done|done|..].
  - intros e He Ht. change (SearchLock lk1 (entry_txn e) = lk_type_ e).
    by eapply grants_self.
  - intros t Ht. change (SearchLock lk1 t = SearchLock lk t). by eapply grants_other.
  - intros e He. apply grant_queued_blocked. rewrite grant_queued_set_queue.
    by rewrite (Hh e He).
Qed.

(** No request is parked without a reason. *)
Definition head_blocked lk : Prop := ∀ e, head (waiting lk) = Some e → blocked lk e.

Lemma head_blocked_pop lk : orderly lk → head_blocked (TryPopBlockingQueue lk).1.
Proof.
  intros (popped & rest & _ & Hr & _ & _ & _ & Hb)%pop_contract.
  unfold head_blocked. by rewrite Hr.
Qed.

(** A change of the holders that keeps every blocker of waiting transactions. *)
Lemma head_blocked_mono lk lk' :
  waiting lk' = waiting lk →
  (read_cnt_ lk ≤ read_cnt_ lk')%Z →
  (∀ t m, incompatible (SearchLock lk t) m = true →
          incompatible (SearchLock lk' t) m = true) →
  head_blocked lk → head_blocked lk'.
Proof.
  unfold head_blocked, blocked. intros -> Hc Hi Hh e He.
  destruct (Hh e He) as [(t & ? & ?)|[? ?]]; [left; eauto|right]. split; [done|lia].
Qed.

Lemma incompatible_mono held held' m :
  lock_rank held ≤ lock_rank held' →
  incompatible held m = true → incompatible held' m = true.
Proof. by destruct held, held', m; cbn; try lia. Qed.

Lemma waiting_enqueue lk req t :
  queue_ok lk → waiting (enqueue lk req t) = waiting lk ++ [mkEntry req t].
Proof. intros. unfold waiting; cbn. by rewrite q_enqueue_spec. Qed.

Lemma q_empty lk : queue_ok lk → q_size (blocking_queue_ lk) = 0 ↔ waiting lk = [].
Proof.
  intros. rewrite q_size_spec by done. split; [apply nil_length_inv|].
  unfold waiting. by intros ->.
Qed.

(** ** The outcome of an acquire *)

(** What each answer of [AcquireLock] promises. *)
Definition acquire_outcome lk req (proto : CcProtocol) (t : LockType)
    (r : LockOpStatus * lock) : Prop :=
  let e := mkEntry req t in
  match r with
  | (Successful, lk') =>
      waiting lk' = waiting lk ∧ read_cnt_ lk' = read_cnt_ lk ∧
      lock_rank t ≤ lock_rank (SearchLock lk' (Txn req)) ∧
      lock_rank (SearchLock lk (Txn req)) ≤ lock_rank (SearchLock lk' (Txn req)) ∧
      (∀ t', t' ≠ Txn req → SearchLock lk' t' = SearchLock lk t') ∧
      (lock_rank t ≤ lock_rank (SearchLock lk (Txn req)) ∨ ¬ blocked lk e)
  | (Blocked, lk') =>
      lk' = enqueue lk req t ∧ (proto = OCC → t = ReadLock) ∧
      (blocked lk e ∨ waiting lk ≠ [])
  | (Failed, lk') =>
      lk' = lk ∧ proto = OCC ∧ lock_rank WriteIntent ≤ lock_rank t ∧
      (blocked lk e ∨ waiting lk ≠ [])
  end.

Lemma outcome_held lk req proto t :
  lock_rank t ≤ lock_rank (SearchLock lk (Txn req)) →
  acquire_outcome lk req proto t (Successful, lk).
Proof. cbn. auto 10. Qed.

Lemma outcome_upgrade lk req proto t :
  t = WriteIntent ∨ t = WriteLock → grant_queued lk (mkEntry req t) ≠ None →
  lock_rank (SearchLock lk (Txn req)) ≤ lock_rank t →
  acquire_outcome lk req proto t (Successful, UpgradeLock lk (Txn req) t).
Proof.
  intros Ht Hg Hr. cbn. rewrite UpgradeLock_self by done.
  assert (NoWriteConflict lk (Txn req) = true) as Hc.
  { unfold grant_queued, entry_txn in Hg. cbn [lk_type_ req_] in Hg.
    destruct Ht as [-> | ->], (NoWriteConflict lk (Txn req)); cbn in Hg; done. }
  rewrite <-grant_queued_blocked.
  split_and!; [by destruct Ht as [-> | ->]|by destruct Ht as [-> | ->]|done|done| |by right].
  intros t' ?. by apply UpgradeLock_other.
Qed.

Lemma rank_not_writer lk t :
  ¬ is_writer lk t → lock_rank (SearchLock lk t) ≤ lock_rank ReadLock.
Proof.
  rewrite SearchLock_writer. destruct (SearchLock lk t); cbn; try lia; naive_solver.
Qed.

Lemma rank_writer lk t :
  is_writer lk t → lock_rank WriteIntent ≤ lock_rank (SearchLock lk t).
Proof. rewrite SearchLock_writer. intros [-> | ->]; cbn; lia. Qed.

Lemma outcome_write lk req proto t (success : bool) lk' :
  lock_rank WriteIntent ≤ lock_rank t →
  (success = true → acquire_outcome lk req proto t (Successful, lk')) →
  (success = false →
     lk' = (if decide (proto = OCC) then lk else enqueue lk req t) ∧
     (blocked lk (mkEntry req t) ∨ waiting lk ≠ [])) →
  acquire_outcome lk req proto t
    (if decide (proto = OCC) then if success then Successful else Failed
     else if success then Successful else Blocked, lk').
Proof.
  intros Hr Ht Hf. destruct success; [by case_decide; apply Ht|].
  destruct (Hf eq_refl) as [-> Hb]. by destruct (decide (proto = OCC)).
Qed.

Lemma AcquireWriteLock_outcome lk req proto :
  acquire_outcome lk req proto WriteLock (AcquireLock lk req proto WriteLock).
Proof.
  cbn [AcquireLock]. destruct (AcquireWriteLock lk req proto) as [success lk'] eqn:E.
  apply outcome_write; [cbn; lia|..]; intros ->; revert E; unfold AcquireWriteLock;
    (destruct (HasWriteLock_of lk (Txn req)) eqn:Hh;
     [|destruct (NoWriteConflict lk (Txn req) && NoReadLockConflict lk (Txn req)) eqn:Hc]);
    intros [= <-].
  - apply outcome_held. apply HasWriteLock_of_spec in Hh. by apply SearchLock_WriteLock in Hh as ->.
  - apply outcome_upgrade; [auto| |destruct (SearchLock lk (Txn req)); cbn; lia].
    unfold grant_queued, entry_txn; cbn [lk_type_ req_]. by rewrite Hc.
  - split; [by destruct proto|]. left. apply grant_queued_blocked.
    unfold grant_queued, entry_txn; cbn [lk_type_ req_]. by rewrite Hc.
Qed.

Lemma AcquireWriteIntent_outcome lk req proto :
  queue_ok lk →
  acquire_outcome lk req proto WriteIntent (AcquireLock lk req proto WriteIntent).
Proof.
  intros Hok. cbn [AcquireLock].
  destruct (AcquireWriteIntent lk req proto) as [success lk'] eqn:E.
  apply outcome_write; [done|..]; intros ->; revert E; unfold AcquireWriteIntent;
    (destruct (HasWriteLockOrWriteIntent lk (Txn req)) eqn:Hh;
     [|destruct (NoWriteConflict lk (Txn req)) eqn:Hc;
       [destruct (bool_decide_reflect (q_size (blocking_queue_ lk) = 0)) as [Hq|Hq]|]]);
    cbn [andb]; intros [= <-].
  - apply outcome_held, rank_writer. by apply HasWriteLockOrWriteIntent_spec.
  - apply not_writer_bool, rank_not_writer in Hh.
    apply outcome_upgrade; [auto| |cbn in *; lia].
    unfold grant_queued, entry_txn; cbn [lk_type_ req_]. by rewrite Hc.
  - split; [by destruct proto|]. right. by rewrite <-q_empty.
  - split; [by destruct proto|]. left. apply grant_queued_blocked.
    unfold grant_queued, entry_txn; cbn [lk_type_ req_]. by rewrite Hc.
Qed.

Lemma AcquireReadLock_outcome lk req proto :
  queue_ok lk → acquire_outcome lk req proto ReadLock (AcquireLock lk req proto ReadLock).
Proof.
  intros Hok. cbn [AcquireLock]. unfold AcquireReadLock.
  destruct (bool_decide (Txn req ∈ read_locks_ lk) || HasWriteLockOrWriteIntent lk (Txn req))
    eqn:E.
  { apply outcome_held. apply orb_true_iff in E as [Hr|Hw]; bool_to_prop.
    - destruct (HasWriteLockOrWriteIntent lk (Txn req)) eqn:Hw.
      + apply HasWriteLockOrWriteIntent_spec, rank_writer in Hw. cbn in *; lia.
      + apply not_writer_bool in Hw. by rewrite (proj2 (SearchLock_ReadLock _ _) (conj Hw Hr)).
    - apply HasWriteLockOrWriteIntent_spec, rank_writer in Hw. cbn in *; lia. }
  apply orb_false_iff in E as [_ Hw]. apply not_writer_bool in Hw.
  destruct (NoWriteLockConflict lk (Txn req)) eqn:Hc; cbn [andb].
  2: { split; [done|]. split; [done|]. left. apply grant_queued_blocked.
       unfold grant_queued, entry_txn; cbn [lk_type_ req_]. by rewrite Hc. }
  destruct (no_blocking_queue_conflict lk) eqn:Hq; cbn.
  - rewrite add_read_lock_self by done. rewrite <-grant_queued_blocked.
    split_and!; [done|done|done|by apply rank_not_writer|by intros; apply add_read_lock_other|].
    right. unfold grant_queued, entry_txn; cbn [lk_type_ req_]. by rewrite Hc.
  - split; [done|]. split; [done|]. right. rewrite <-q_empty by done.
    unfold no_blocking_queue_conflict in Hq. apply orb_false_iff in Hq as [Hq _].
    by bool_to_prop.
Qed.

Lemma AcquireReadIntent_outcome lk req proto :
  acquire_outcome lk req proto ReadIntent (AcquireLock lk req proto ReadIntent).
Proof.
  cbn [AcquireLock]. unfold AcquireReadIntent.
  destruct (bool_decide (Txn req ∈ read_locks_ lk) ||
            bool_decide (Txn req ∈ read_intentions_ lk) ||
            HasWriteLockOrWriteIntent lk (Txn req)) eqn:E.
  - apply outcome_held. unfold SearchLock. destruct (HasWriteLockOrWriteIntent _ _).
    { destruct (decide (write_lk_type_ lk = WriteLockHeld)); cbn; lia. }
    destruct (decide (Txn req ∈ read_locks_ lk)) as [|Hr]; [cbn; lia|].
    destruct (decide (Txn req ∈ read_intentions_ lk)) as [|Hi]; [done|].
    by rewrite !bool_decide_eq_false_2 in E by done.
  - apply orb_false_iff in E as [E Hw]. bool_to_prop. apply not_writer_bool in Hw. cbn.
    set (lk' := set_read _ _ _).
    assert (SearchLock lk (Txn req) = NoLock) as -> by (apply SearchLock_NoLock; naive_solver).
    split_and!; [done|done| |cbn; lia| |].
    + unfold SearchLock. change (HasWriteLockOrWriteIntent lk' (Txn req))
        with (HasWriteLockOrWriteIntent lk (Txn req)).
      apply not_writer_bool in Hw. rewrite Hw. rewrite decide_False by naive_solver.
      rewrite decide_True; [done|]. cbn. set_solver.
    + intros t Ht. apply SearchLock_ext; cbn; set_solver.
    + right. rewrite <-grant_queued_blocked. done.
Qed.

Lemma AcquireLock_outcome_ok lk req proto t :
  queue_ok lk → acquire_outcome lk req proto t (AcquireLock lk req proto t).
Proof.
  intros. destruct t; [apply outcome_held; cbn; lia|..].
  - apply AcquireReadIntent_outcome.
  - by apply AcquireReadLock_outcome.
  - by apply AcquireWriteIntent_outcome.
  - apply AcquireWriteLock_outcome.
Qed.

(** ** No lost wakeups *)

(** The calls that keep the head of the queue blocked: all of them but
    [AbortQueueRequest], and [InsertBlockingQueue] for a request that conflicts,
    as its callers use it (a read behind another transaction's write lock). *)
Inductive prompt_step : lock → lock → Prop :=
  | pstep_acquire lk req proto t :
      ¬ queued lk (Txn req) → prompt_step lk (AcquireLock lk req proto t).2
  | pstep_acquire_fast lk txn : prompt_step lk (AcquireReadLockFast lk txn).2
  | pstep_release_fast lk : prompt_step lk (ReleaseReadLockFast lk).1.2
  | pstep_release_read lk txn : prompt_step lk (ReleaseReadLock lk txn).1.2
  | pstep_release_read_intent lk txn : prompt_step lk (ReleaseReadIntent lk txn).2
  | pstep_release_write lk txn : prompt_step lk (ReleaseWriteLock lk txn).1.2
  | pstep_release_write_intent lk txn : prompt_step lk (ReleaseWriteIntent lk txn).1.2
  | pstep_downgrade lk txn : prompt_step lk (DowngradeWriteLock lk txn).1
  | pstep_clear lk txn : prompt_step lk (ClearTx lk txn).1.2
  | pstep_insert lk req t :
      ¬ queued lk (Txn req) → ¬ is_writer lk (Txn req) → blocked lk (mkEntry req t) →
      prompt_step lk (InsertBlockingQueue lk req t)
  | pstep_abort_all lk : prompt_step lk (AbortAllQueuedRequests lk).1
  | pstep_wlock_ts lk ts : prompt_step lk (SetWLockTs lk ts)
  | pstep_reset lk : prompt_step lk (LockReset lk).

Lemma prompt_orderly lk lk' : prompt_step lk lk' → orderly_step lk lk'.
Proof. intros []; by constructor. Qed.

Lemma head_blocked_nil lk : waiting lk = [] → head_blocked lk.
Proof. intros Hn e. by rewrite Hn. Qed.

Lemma head_blocked_acquire lk req proto t :
  queue_ok lk → head_blocked lk → head_blocked (AcquireLock lk req proto t).2.
Proof.
  intros Hok Hb. pose proof (AcquireLock_outcome_ok lk req proto t Hok) as Ho.
  destruct (AcquireLock lk req proto t) as [[] lk']; cbn in Ho |- *.
  - destruct Ho as (Hw & Hc & _ & Hr & Ho & _).
    eapply head_blocked_mono; [exact Hw|lia| |done]. intros t' m.
    destruct (decide (t' = Txn req)) as [->|]; [by apply incompatible_mono|by rewrite Ho].
  - by destruct Ho as [-> _].
  - destruct Ho as (-> & _ & Hbl). intros e. rewrite waiting_enqueue by done.
    destruct (waiting lk) as [|e' l] eqn:E; cbn; intros [= <-].
    + by destruct Hbl.
    + apply (Hb e'). by rewrite E.
Qed.

Lemma head_blocked_release_intent lk txn :
  orderly lk → head_blocked lk → head_blocked (ReleaseReadIntent lk txn).2.
Proof.
  intros [_ [Hd Hw _ _]] Hb. unfold ReleaseReadIntent.
  destruct (decide (txn ∈ read_intentions_ lk)); [|done]. cbn.
  eapply head_blocked_mono; [..|exact Hb]; [done|done|].
  intros t m. by rewrite !incompatible_spec.
Qed.

Lemma head_blocked_step lk lk' :
  prompt_step lk lk' → orderly lk → head_blocked lk → head_blocked lk'.
Proof.
  intros Hstep Ho Hb. pose proof (orderly_step_ok _ _ (prompt_orderly _ _ Hstep) Ho) as Ho'.
  pose proof Ho as [Hok _]. destruct Hstep.
  - by apply head_blocked_acquire.
  - unfold AcquireReadLockFast. case_match; [|done]. eapply head_blocked_mono; [..|exact Hb];
      [done|cbn; lia|done].
  - apply head_blocked_pop. by eapply orderly_weaken; [..|exact Ho].
  - unfold ReleaseReadLock. destruct (decide _); [|done]. apply head_blocked_pop.
    eapply orderly_weaken; [..|exact Ho]; cbn; [done|set_solver|set_solver|done].
  - by apply head_blocked_release_intent.
  - unfold ReleaseWriteLock. case_match; [|done]. by apply head_blocked_pop, orderly_set_no_writer.
  - unfold ReleaseWriteIntent. case_match; [|done].
    by apply head_blocked_pop, orderly_set_no_writer.
  - unfold DowngradeWriteLock. case_match eqn:E; [|done].
    by eapply head_blocked_pop, orderly_set_intent.
  - unfold ClearTx, ReleaseReadLock. destruct (decide _); cbn.
    { apply head_blocked_pop.
      eapply orderly_weaken; [..|exact Ho]; cbn; [done|set_solver|set_solver|done]. }
    pose proof (head_blocked_release_intent lk txn Ho Hb) as Hi.
    destruct (ReleaseReadIntent lk txn) as [[] lk2]; [done|]. case_match; [|done].
    pose proof (head_blocked_pop _ (orderly_set_no_writer lk Ho)).
    by destruct (TryPopBlockingQueue _).
  - intros e. unfold waiting; cbn. rewrite q_enqueue_first_spec by done. by intros [= <-].
  - apply head_blocked_nil. unfold waiting; cbn. by apply q_reset_spec.
  - by eapply head_blocked_mono; [..|exact Hb].
  - apply head_blocked_nil. unfold waiting; cbn. by apply q_reset_spec.
Qed.

Lemma prompt_reachable_ok lk0 lk :
  queue_ok lk0 → rtc prompt_step (LockReset lk0) lk → orderly lk ∧ head_blocked lk.
Proof.
  intros Hok Hsteps.
  assert (orderly (LockReset lk0) ∧ head_blocked (LockReset lk0)) as Hinit.
  { split; [apply orderly_reachable_ok; by exists lk0; split; [|apply rtc_refl]|].
    apply head_blocked_nil. unfold waiting; cbn. by apply q_reset_spec. }
  revert Hinit. induction Hsteps as [|s1 s2 s3 Hstep _ IH]; [done|].
  intros [H1 H2]. apply IH. split; [|by eapply head_blocked_step].
  by eapply orderly_step_ok; [apply prompt_orderly|].
Qed.

(** ** Inspecting the queue *)

Lemma q_get_waiting lk i :
  queue_ok lk → i ∈ seq 0 (q_size (blocking_queue_ lk)) →
  q_get (blocking_queue_ lk) i = waiting lk !! i.
Proof.
  intros Hok Hi. rewrite q_size_spec in Hi by done. apply elem_of_seq in Hi.
  apply q_get_spec; [done|lia].
Qed.

Lemma FindQueueRequest_spec lk txid :
  queue_ok lk → FindQueueRequest lk txid = true ↔ queued lk txid.
Proof.
  intros Hok. unfold FindQueueRequest, queued. rewrite existsb_exists, list_elem_of_fmap.
  split.
  - intros (i & Hin%list_elem_of_In & Hi). rewrite q_get_waiting in Hi by done.
    destruct (waiting lk !! i) as [e|] eqn:E; [|done]. bool_to_prop.
    exists e. split; [done|]. by eapply list_elem_of_lookup_2.
  - intros (e & -> & [i Hi]%list_elem_of_lookup_1). exists i.
    assert (i ∈ seq 0 (q_size (blocking_queue_ lk))) as Hin.
    { rewrite q_size_spec by done. apply elem_of_seq.
      apply lookup_lt_Some in Hi. unfold waiting in Hi. lia. }
    split; [by apply list_elem_of_In|]. rewrite q_get_waiting, Hi by done.
    by apply bool_decide_eq_true.
Qed.

(** The waiters of an entry as the deadlock detector collects them. *)
Lemma GetBlockTxIds_spec lk exclude_id :
  queue_ok lk →
  GetBlockTxIds lk exclude_id =
    filter (λ t, t ≠ exclude_id) (entry_txn <$> waiting lk).
Proof.
  intros Hok. unfold GetBlockTxIds.
  trans (omap (λ i, e ← waiting lk !! i;
                    if decide (entry_txn e = exclude_id) then None else Some (entry_txn e))
              (seq 0 (length (waiting lk)))).
  { change (length (waiting lk)) with (length (q_list (blocking_queue_ lk))).
    rewrite <-q_size_spec by done. apply list_omap_ext.
    apply Forall2_same_length_lookup_2; [done|]. intros i x y Hx Hy. simplify_eq.
    rewrite q_get_waiting; [done|done|]. by eapply list_elem_of_lookup_2. }
  induction (waiting lk) as [|e l IH] using rev_ind; [done|].
  rewrite length_app, seq_app, omap_app, fmap_app, filter_app. f_equal.
  - rewrite <-IH. apply list_omap_ext. apply Forall2_same_length_lookup_2; [done|].
    intros i x y Hx Hy. simplify_eq. apply lookup_seq in Hx as [-> ?]. cbn.
    by rewrite lookup_app_l.
  - cbn. rewrite lookup_app_r by lia. rewrite Nat.sub_diag. cbn.
    repeat case_decide; naive_solver.
Qed.
End orderly.

(**  at commit or abort [ClearTx] releases everything.  As long as a waiting
    transaction issues no second acquire on the same entry, a transaction
    holds an entry in at most one mode; [ClearTx] on a transaction that is not
    waiting returns that mode, and afterwards the transaction holds nothing
    there, even though the release may have granted queued requests. *)
Theorem ClearTx_complete (lk : NonBlockingLock (CircularQueue LockQueueEntry)) (t : Z) :
  orderly_reachable lk → ¬ queued lk t →
  (ClearTx lk t).1.1 = SearchLock lk t ∧ SearchLock (ClearTx lk t).1.2 t = NoLock.
Proof. intros ?%orderly_reachable_ok. by apply ClearTx_clears. Qed.

(** Two states for the witnesses: transaction 1 reads, 2 waits to write, 3
    waits to read behind it. *)
Definition lock_r1_w2_r3 : NonBlockingLock (CircularQueue LockQueueEntry) :=
  let a lk r t := (AcquireLock lk r Locking t).2 in
  a (a (a new_lock (mkReq 11 1) ReadLock) (mkReq 12 2) WriteLock) (mkReq 13 3) ReadLock.

Lemma lock_r1_w2_r3_prompt : rtc prompt_step new_lock lock_r1_w2_r3.
Proof.
  eapply rtc_l; [apply (pstep_acquire _ (mkReq 11 1) Locking ReadLock)|].
  { apply (bool_decide_unpack (_ ∉ _)). vm_compute. exact I. }
  eapply rtc_l; [apply (pstep_acquire _ (mkReq 12 2) Locking WriteLock)|].
  { apply (bool_decide_unpack (_ ∉ _)). vm_compute. exact I. }
  eapply rtc_l; [apply (pstep_acquire _ (mkReq 13 3) Locking ReadLock)|].
  { apply (bool_decide_unpack (_ ∉ _)). vm_compute. exact I. }
  apply rtc_refl.
Defined.

Lemma lock_r1_w2_r3_orderly : orderly_reachable lock_r1_w2_r3.
Proof.
  eexists. split; [exact new_lock_queue_ok|].
  eapply (rtc_subrel _ _ _ _ prompt_orderly). exact lock_r1_w2_r3_prompt.
Qed.

Lemma ClearTx_complete_witness :
  ¬ queued lock_r1_w2_r3 1 ∧
  (ClearTx lock_r1_w2_r3 1).1.1 = ReadLock ∧
  SearchLock (ClearTx lock_r1_w2_r3 1).1.2 1 = NoLock.
Proof.
  assert (¬ queued lock_r1_w2_r3 1) as Hq.
  { apply (bool_decide_unpack (_ ∉ _)). vm_compute. exact I. }
  split; [exact Hq|]. apply (ClearTx_complete lock_r1_w2_r3 1);
    [exact lock_r1_w2_r3_orderly|exact Hq].
Defined.

(**  the queue is served first-come first-served.  Every release ends in
    [TryPopBlockingQueue], which removes a prefix of the queue and re-enqueues
    exactly those requests in order; each of them then holds the mode it asked
    for, no other transaction's mode changes, and the request left at the head
    is blocked by a holder (or a fast-path reader). *)
Theorem TryPopBlockingQueue_fifo (lk : NonBlockingLock (CircularQueue LockQueueEntry)) :
  orderly_reachable lk →
  ∃ popped rest,
    waiting lk = popped ++ rest ∧
    waiting (TryPopBlockingQueue lk).1 = rest ∧
    (TryPopBlockingQueue lk).2 = req_ <$> popped ∧
    (∀ e, e ∈ popped → lock_rank ReadLock ≤ lock_rank (lk_type_ e) →
          SearchLock (TryPopBlockingQueue lk).1 (entry_txn e) = lk_type_ e) ∧
    (∀ t, t ∉ entry_txn <$> popped →
          SearchLock (TryPopBlockingQueue lk).1 t = SearchLock lk t) ∧
    (∀ e, head rest = Some e → blocked (TryPopBlockingQueue lk).1 e).
Proof. intros ?%orderly_reachable_ok. by apply pop_contract. Qed.

Lemma TryPopBlockingQueue_fifo_witness :
  ∃ popped rest, waiting lock_r1_w2_r3 = popped ++ rest ∧
    (TryPopBlockingQueue lock_r1_w2_r3).2 = req_ <$> popped.
Proof.
  destruct (TryPopBlockingQueue_fifo lock_r1_w2_r3 lock_r1_w2_r3_orderly)
    as (popped & rest & Hw & _ & Ho & _).
  exists popped, rest. split; assumption.
Defined.

(** C19: no lost wakeups.  As long as no waiter is aborted individually, the
    request at the head of the queue always has a reason to wait: some other
    transaction holds an incompatible mode, or the fast path holds reads. *)
Theorem parked_head_blocked (lk0 lk : NonBlockingLock (CircularQueue LockQueueEntry)) :
  queue_ok lk0 → rtc prompt_step (LockReset lk0) lk →
  ∀ e, head (waiting lk) = Some e → blocked lk e.
Proof. intros Hok Hsteps. by destruct (prompt_reachable_ok lk0 lk Hok Hsteps). Qed.

Lemma parked_head_blocked_witness : blocked lock_r1_w2_r3 (mkEntry (mkReq 12 2) WriteLock).
Proof.
  apply (parked_head_blocked _ _ new_lock_queue_ok lock_r1_w2_r3_prompt). reflexivity.
Defined.

(** The proviso matters: aborting the waiting writer leaves the reader behind
    it parked although nothing blocks it any more. *)
Lemma AbortQueueRequest_leaves_grantable_head :
  let lk := (AbortQueueRequest lock_r1_w2_r3 2).1 in
  head (waiting lk) = Some (mkEntry (mkReq 13 3) ReadLock) ∧
  grant_queued lk (mkEntry (mkReq 13 3) ReadLock) ≠ None.
Proof. by vm_compute. Qed.

(**  the three answers of [AcquireLock].  Successful: the requester's mode is
    at least the requested one, the queue and everyone else are unchanged, and
    the request was compatible with all holders (or already covered).  Blocked:
    the request joined the tail of the queue and nothing else changed; under
    OCC only a read lock blocks.  Failed: nothing changed, and only a write
    request under OCC fails.  A refused request had a conflict or a queue in
    front of it. *)
Theorem AcquireLock_outcome (lk : NonBlockingLock (CircularQueue LockQueueEntry))
    (req : CcRequestBase) (proto : CcProtocol) (t : LockType) :
  queue_ok lk → acquire_outcome lk req proto t (AcquireLock lk req proto t).
Proof. apply AcquireLock_outcome_ok. Qed.

Lemma AcquireLock_outcome_witness :
  acquire_outcome lock_r1_w2_r3 (mkReq 14 4) Locking WriteIntent
    (AcquireLock lock_r1_w2_r3 (mkReq 14 4) Locking WriteIntent) ∧
  (AcquireLock lock_r1_w2_r3 (mkReq 14 4) Locking WriteIntent).1 = Blocked.
Proof.
  split; [|vm_compute; reflexivity].
  apply AcquireLock_outcome. apply (orderly_reachable_ok _ lock_r1_w2_r3_orderly).
Defined.

(**  aborting a deadlock victim removes exactly its parked requests, tells
    exactly those requests, and keeps the others in order; no holder changes. *)
Theorem AbortQueueRequest_removes
    (lk : NonBlockingLock (CircularQueue LockQueueEntry)) (txid : Z) :
  queue_ok lk →
  let '(lk', aborted) := AbortQueueRequest lk txid in
  aborted = req_ <$> filter (λ e, entry_txn e = txid) (waiting lk) ∧
  waiting lk' = filter (λ e, entry_txn e ≠ txid) (waiting lk) ∧
  FindQueueRequest lk' txid = false ∧
  (∀ t, SearchLock lk' t = SearchLock lk t).
Proof.
  intros Hok. destruct (AbortQueueRequest_spec lk txid Hok) as (q & -> & Hq & Hl).
  split_and!; [done|done| |done].
  apply not_true_iff_false. rewrite FindQueueRequest_spec by done.
  unfold queued, waiting. cbn [blocking_queue_ set_queue]. rewrite Hl. intros (e & -> & He)%list_elem_of_fmap.
  by apply list_elem_of_filter in He as [? _].
Qed.

Lemma AbortQueueRequest_removes_witness :
  let '(lk', aborted) := AbortQueueRequest lock_r1_w2_r3 2 in
  aborted = [mkReq 12 2] ∧ FindQueueRequest lk' 2 = false.
Proof.
  assert (queue_ok lock_r1_w2_r3) as Hok
    by exact (proj1 (orderly_reachable_ok _ lock_r1_w2_r3_orderly)).
  pose proof (AbortQueueRequest_removes lock_r1_w2_r3 2 Hok) as H.
  destruct (AbortQueueRequest lock_r1_w2_r3 2) as [lk' aborted].
  destruct H as (-> & _ & Hf & _). split; [vm_compute; reflexivity|exact Hf].
Defined.
