(* ===== verification/DeadLockCheck.v ===== *)
(** * The global deadlock detector ([DeadLockCheck])

    One node gathers, from every node, which transactions hold and which wait
    for each blocked cc entry, turns the answers into a wait-for graph over
    transactions, searches it for cycles and aborts one transaction of each.
    Source: [include/dead_lock_check.h] and [src/dead_lock_check.cpp].

    The graph is a [std::map] of edges ordered by [EdgeLess]; nothing is
    inserted while it is searched, so an iterator is an index of the ordered
    list of edges and [end()] is its length.  Unordered containers are finite
    maps and sets; the one place where the code picks an arbitrary element of
    an unordered set ([lock_node_set.begin()]) takes the choice as an argument. *)

From S2P Require Import Prelude.
From stdpp Require Import relations sorting.

(** ** The gathered lock information *)

(** A cc entry as a [LockNode]: two nodes are the same entry when [node_id] and
    [ety_addr] agree; [core_id] does not take part in the comparison. *)
Abbreviation entry_key := (Z * Z)%type.

(** [BlockEntry] of [DeadLockResponse], and an [EntryLockInfo] of
    [CheckDeadLockResult] with its core and address. *)
Record BlockEntry := mkBlockEntry {
  be_core_id : Z;
  be_entry : Z;
  be_locked_tids : list Z;
  be_waited_tids : list Z;
}.

(** [DeadLockResponse]. *)
Record DeadLockResponse := mkResponse {
  rsp_node_id : Z;
  rsp_block_entry : list BlockEntry;
  rsp_tx_etys : list (Z * Z);
}.

(** [CheckDeadLockResult::EntryLockInfo]. *)
Record EntryLockInfo := mkEntryLockInfo { lock_txids : gset Z; wait_txids : gset Z }.

(** [CheckDeadLockResult]: one map per core. *)
Record CheckDeadLockResult := mkResult {
  entry_lock_info_vec_ : list (gmap Z EntryLockInfo);
  txid_ety_lock_count_ : list (gmap Z Z);
}.

Record DeadLockCheck := mkDeadLockCheck {
  entry_locked_txid_map_ : gmap entry_key (gset Z);
  (** the waited entries of a transaction, each with its core *)
  txid_waited_entry_map_ : gmap Z (gmap entry_key Z);
  txid_ety_count_map_ : gmap Z Z;
  reply_map_ : gmap Z bool;
  node_unfinished_ : Z;
  last_check_time_ : Z;
  check_node_id_ : Z;
  requested_check_ : bool;
}.

Definition set_maps (d : DeadLockCheck) locked waited counts : DeadLockCheck :=
  mkDeadLockCheck locked waited counts (reply_map_ d) (node_unfinished_ d)
    (last_check_time_ d) (check_node_id_ d) (requested_check_ d).

Definition set_replies (d : DeadLockCheck) replies unfinished : DeadLockCheck :=
  mkDeadLockCheck (entry_locked_txid_map_ d) (txid_waited_entry_map_ d)
    (txid_ety_count_map_ d) replies unfinished
    (last_check_time_ d) (check_node_id_ d) (requested_check_ d).

Definition set_check (d : DeadLockCheck) ts node requested : DeadLockCheck :=
  mkDeadLockCheck (entry_locked_txid_map_ d) (txid_waited_entry_map_ d)
    (txid_ety_count_map_ d) (reply_map_ d) (node_unfinished_ d) ts node requested.

(** The holders of an entry, none when the entry is not in the map. *)
Definition holders (d : DeadLockCheck) (k : entry_key) : gset Z :=
  default ∅ (entry_locked_txid_map_ d !! k).

Definition waited (d : DeadLockCheck) (t : Z) : gmap entry_key Z :=
  default ∅ (txid_waited_entry_map_ d !! t).

(** [try_emplace(tx)] and then [lock_node_set.insert(le)]: an entry already in
    the set keeps its first [core_id]. *)
Definition add_wait (k : entry_key) (core : Z) (m : gmap Z (gmap entry_key Z)) (t : Z)
    : gmap Z (gmap entry_key Z) :=
  let s := default ∅ (m !! t) in
  <[t := match s !! k with Some _ => s | None => <[k := core]> s end]> m.

(** The body of the loop over the entries of one answer. *)
Definition merge_entry (node : Z) (d : DeadLockCheck) (be : BlockEntry) : DeadLockCheck :=
  let le := (node, be_entry be) in
  set_maps d
    (<[le := holders d le ∪ list_to_set (be_locked_tids be)]> (entry_locked_txid_map_ d))
    (fold_left (add_wait le (be_core_id be)) (be_waited_tids be) (txid_waited_entry_map_ d))
    (txid_ety_count_map_ d).

(** [try_emplace(txid, 0)] and [+= count] on a [uint32_t]. *)
Definition merge_count (d : DeadLockCheck) (te : Z * Z) : DeadLockCheck :=
  set_maps d (entry_locked_txid_map_ d) (txid_waited_entry_map_ d)
    (<[te.1 := u32 (default 0%Z (txid_ety_count_map_ d !! te.1) + te.2)]>
       (txid_ety_count_map_ d)).

(** [reply_map_[node_id] = true; node_unfinished_--]. *)
Definition note_reply (node : Z) (d : DeadLockCheck) : DeadLockCheck :=
  set_replies d (<[node := true]> (reply_map_ d)) (node_unfinished_ d - 1).

Definition MergeRemoteWaitingLockInfo (d : DeadLockCheck) (rsp : DeadLockResponse)
    : DeadLockCheck :=
  let node_id := rsp_node_id rsp in
  let d1 := fold_left (merge_entry node_id) (rsp_block_entry rsp) d in
  let d2 := fold_left merge_count (rsp_tx_etys rsp) d1 in
  note_reply node_id d2.

(** The entries of one core's map, as the loop visits them. *)
Definition local_entries (i : nat) (m : gmap Z EntryLockInfo) : list BlockEntry :=
  (λ '(addr, info),
     mkBlockEntry (u32 (Z.of_nat i)) addr (elements (lock_txids info))
       (elements (wait_txids info))) <$> map_to_list m.

Definition MergeLocalWaitingLockInfo (node : Z) (d : DeadLockCheck)
    (dlres : CheckDeadLockResult) : DeadLockCheck :=
  let bes := concat (imap local_entries (entry_lock_info_vec_ dlres)) in
  let d1 := fold_left (merge_entry node) bes d in
  let d2 := fold_left merge_count (concat (map_to_list <$> txid_ety_lock_count_ dlres)) d1 in
  note_reply node d2.

(** ** Who raises a check *)

Definition UpdateCheckNodeId (clock_ts time_interval : Z) (d : DeadLockCheck) (node_id : Z)
    : DeadLockCheck :=
  let check :=
    if bool_decide (node_id < check_node_id_ d)%Z ||
       bool_decide (u64 (time_interval * 5) < u64 (clock_ts - last_check_time_ d))%Z
    then node_id else check_node_id_ d in
  set_check d (if decide (check = node_id) then clock_ts else last_check_time_ d) check
    (requested_check_ d).

Definition MICRO_SECOND : Z := 1000000.

(** The decision of one turn of [Run]: whether the turn calls
    [GatherLockDependancy], with [requested_check_] cleared when it does. *)
Definition run_turn (clock_ts time_interval node_id primary_node_term : Z) (stop : bool)
    (d : DeadLockCheck) : bool * DeadLockCheck :=
  let ival := u64 (clock_ts - last_check_time_ d) in
  if stop || (bool_decide (ival < time_interval)%Z && negb (requested_check_ d)) then (false, d)
  else if decide (0 < primary_node_term)%Z then (false, d)
  else if bool_decide (ival < u64 (time_interval * 2 + node_id * MICRO_SECOND))%Z &&
          bool_decide (check_node_id_ d ≠ node_id) then (false, d)
  else (true, set_check d (last_check_time_ d) (check_node_id_ d) false).

(** ** Asking the nodes *)

Inductive gather_msg := AskLocal | AskRemote (node : Z).

(** The loop over the node groups: [leader] is [Sharder::LeaderNodeId],
    [sent] the answer of [SendMessageToNode]. *)
Definition gather_one (leader : Z → Z) (sent : Z → bool) (self : Z)
    (acc : gmap Z bool * list gather_msg) (ng_id : Z) : gmap Z bool * list gather_msg :=
  let node_id := leader ng_id in
  match acc.1 !! node_id with
  | Some _ => acc
  | None =>
      if decide (node_id = self) then (<[node_id := false]> acc.1, acc.2 ++ [AskLocal])
      else if sent node_id then (<[node_id := false]> acc.1, acc.2 ++ [AskRemote node_id])
      else acc
  end.

Definition gather_start (leader : Z → Z) (sent : Z → bool) (self clock_ts time_interval : Z)
    (all_node_groups : list Z) (d : DeadLockCheck) : DeadLockCheck * list gather_msg :=
  let d0 := set_maps (UpdateCheckNodeId clock_ts time_interval d self) ∅ ∅ ∅ in
  let '(replies, msgs) := fold_left (gather_one leader sent self) all_node_groups (∅, []) in
  (set_replies d0 replies (Z.of_nat (size replies)), msgs).

(** ** The wait-for graph *)

Record TxEdge := mkEdge { tx_wait_ : Z; tx_lock_ : Z }.

#[export] Instance TxEdge_eq_dec : EqDecision TxEdge.
Proof. solve_decision. Defined.
#[export] Instance TxEdge_countable : Countable TxEdge.
Proof.
  refine (inj_countable' (λ e, (tx_wait_ e, tx_lock_ e)) (λ p, mkEdge p.1 p.2) _).
  by intros [].
Defined.

Definition EdgeLess (lhs rhs : TxEdge) : bool :=
  if decide (tx_wait_ lhs = tx_wait_ rhs) then bool_decide (tx_lock_ lhs < tx_lock_ rhs)%Z
  else bool_decide (tx_wait_ lhs < tx_wait_ rhs)%Z.

(** The ordered map: edges with the round that visited them (-1: none). *)
Abbreviation edge_map := (list (TxEdge * Z)).

(** [std::map::emplace]: an edge already present is left alone. *)
Fixpoint map_emplace (e : TxEdge) (v : Z) (m : edge_map) : edge_map :=
  match m with
  | [] => [(e, v)]
  | (e', v') :: m' =>
      if EdgeLess e e' then (e, v) :: m
      else if EdgeLess e' e then (e', v') :: map_emplace e v m'
      else m
  end.

(** [std::map::lower_bound]: the first edge that is not less than the key. *)
Fixpoint lower_bound (key : TxEdge) (m : edge_map) : nat :=
  match m with
  | [] => 0
  | (e, _) :: m => if EdgeLess e key then S (lower_bound key m) else 0
  end.

Definition graph_entry (d : DeadLockCheck) (tx_waiting : Z) (m : edge_map) (k : entry_key)
    : edge_map :=
  match entry_locked_txid_map_ d !! k with
  | None => m
  | Some lock_node_set =>
      fold_left (λ m tx_holding,
        if decide (tx_waiting = tx_holding) then m
        else map_emplace (mkEdge tx_waiting tx_holding) (-1) m) (elements lock_node_set) m
  end.

Definition GenerateTxWaitGraph (d : DeadLockCheck) : edge_map :=
  fold_left (λ m p, fold_left (graph_entry d p.1) (map_to_list p.2).*1 m)
    (map_to_list (txid_waited_entry_map_ d)) [].

(** ** The search *)

(** The copy of the cycle: the edges of the stack, top first, down to but not
    including the edge that was met again. *)
Fixpoint cycle_edges (m : edge_map) (st : list nat) (e : TxEdge) : list TxEdge :=
  match st with
  | [] => []
  | i :: st =>
      match m !! i with
      | Some (e', _) => if decide (e' = e) then [] else e' :: cycle_edges m st e
      | None => []
      end
  end.

(** The [while (true)] loop.  [st] is [vct_iter] with its back at the head of
    the list; [None] means that [fuel] ran out. *)
Fixpoint detect_loop (fuel : nat) (iround : Z) (m : edge_map) (set_dup : gset TxEdge)
    (st : list nat) (tx_id : Z) (iter : nat) (out : list (list TxEdge))
    : option (edge_map * list (list TxEdge)) :=
  match fuel with
  | O => None
  | S fuel =>
      let pop :=
        match tail st with
        | top :: next :: below =>
            match m !! top with
            | Some (e, _) =>
                detect_loop fuel iround m (set_dup ∖ {[e]}) (top :: next :: below)
                  (tx_wait_ e) (S top) out
            | None => None
            end
        | _ => Some (m, out)
        end in
      match m !! iter with
      | None => pop
      | Some (e, mark) =>
          if decide (tx_wait_ e ≠ tx_id) then pop
          else if decide (mark = iround) then
            if decide (e ∉ set_dup) then
              detect_loop fuel iround m set_dup st tx_id (S iter) out
            else
              detect_loop fuel iround m set_dup st tx_id (S iter)
                (out ++ [e :: cycle_edges m st e])
          else if decide (0 < mark)%Z then
            detect_loop fuel iround m set_dup st tx_id (S iter) out
          else
            let m' := <[iter := (e, iround)]> m in
            detect_loop fuel iround m' (set_dup ∪ {[e]}) (iter :: st) (tx_lock_ e)
              (lower_bound (mkEdge (tx_lock_ e) 0) m') out
      end
  end.

(** Each turn of the loop marks an edge, pops the stack or advances. *)
Definition detect_fuel (n : nat) : nat := n * (2 * n + 4) + 3 * n + 5.

(** The [for] loop over the edges, from index [i]. *)
Fixpoint detect_rounds (idxs : list nat) (iround : Z) (m : edge_map)
    (out : list (list TxEdge)) : option (edge_map * list (list TxEdge)) :=
  match idxs with
  | [] => Some (m, out)
  | i :: idxs =>
      match m !! i with
      | None => Some (m, out)
      | Some (e, mark) =>
          if decide (0 < mark)%Z then detect_rounds idxs iround m out
          else
            let m1 := <[i := (e, iround)]> m in
            r ← detect_loop (detect_fuel (length m)) iround m1 {[e]} [i] (tx_lock_ e)
                  (lower_bound (mkEdge (tx_lock_ e) 0) m1) out;
            detect_rounds idxs (iround + 1) r.1 r.2
      end
  end.

Definition DetectDeadLock (map_edge : edge_map) : option (list (list TxEdge)) :=
  snd <$> detect_rounds (seq 0 (length map_edge)) 1 map_edge [].

(** ** Choosing the victim *)

(** The loop over the edges of one cycle: the victim so far and its count. *)
Definition victim_step (d : DeadLockCheck) (acc : Z * Z) (edge : TxEdge) : Z * Z :=
  let '(tx_id, min_ety) := acc in
  match txid_ety_count_map_ d !! tx_wait_ edge with
  | None => acc
  | Some cnt =>
      if decide (cnt < min_ety)%Z then (tx_wait_ edge, cnt)
      else if bool_decide (cnt = min_ety) && bool_decide (tx_wait_ edge < tx_id)%Z
      then (tx_wait_ edge, min_ety)
      else acc
  end.

Definition victim (d : DeadLockCheck) (dead : list TxEdge) : Z :=
  (fold_left (victim_step d) dead (0, UINT32_MAX)%Z).1.

(** The abort requests sent: entry address, holder named in the request,
    victim, node and core of the entry; [begin] picks the holder. *)
Record AbortMsg := mkAbort {
  ab_entry : Z; ab_lock_tx : Z; ab_wait_tx : Z; ab_node : Z; ab_core : Z }.

(** [None]: [find] returned [end()] and was dereferenced. *)
Definition abort_entry (begin : gset Z → Z) (d : DeadLockCheck) (tx_id : Z)
    (p : entry_key * Z) : option AbortMsg :=
  s ← entry_locked_txid_map_ d !! p.1;
  Some (mkAbort p.1.2 (begin s) tx_id p.1.1 p.2).

Definition abort_victim (begin : gset Z → Z) (d : DeadLockCheck) (dead : list TxEdge)
    : option (list AbortMsg) :=
  let tx_id := victim d dead in
  lety ← txid_waited_entry_map_ d !! tx_id;
  mapM (abort_entry begin d tx_id) (map_to_list lety).

Definition RemoveDeadTransaction (begin : gset Z → Z) (d : DeadLockCheck)
    (vct_dead : list (list TxEdge)) : option (list AbortMsg) :=
  mjoin <$> mapM (abort_victim begin d) vct_dead.

(** The rest of [GatherLockDependancy], once every node has answered. *)
Definition resolve_deadlocks (begin : gset Z → Z) (d : DeadLockCheck)
    : option (list AbortMsg) :=
  vct_dead ← DetectDeadLock (GenerateTxWaitGraph d);
  RemoveDeadTransaction begin d vct_dead.

(** ** What the merged answers say *)

(** [t] waits for an entry; [t] holds an entry. *)
Definition waits (d : DeadLockCheck) (t : Z) (k : entry_key) : Prop := is_Some (waited d t !! k).
Definition holds (d : DeadLockCheck) (t : Z) (k : entry_key) : Prop := t ∈ holders d k.

(** Every entry somebody waits for has a holder list. *)
Definition maps_ok (d : DeadLockCheck) : Prop :=
  ∀ t k, waits d t k → is_Some (entry_locked_txid_map_ d !! k).

Lemma add_wait_lookup k core m t t' k' :
  is_Some (default ∅ (add_wait k core m t !! t') !! k') ↔
    is_Some (default ∅ (m !! t') !! k') ∨ (t' = t ∧ k' = k).
Proof.
  unfold add_wait. destruct (decide (t' = t)) as [->|Ht].
  - rewrite lookup_insert_eq. cbn. destruct (default ∅ (m !! t) !! k) eqn:E.
    + split; [by left|]. intros [?|[_ ->]]; [done|]. by rewrite E.
    + destruct (decide (k' = k)) as [->|Hk].
      * rewrite lookup_insert_eq. split; [by right|by eexists].
      * rewrite lookup_insert_ne by done. naive_solver.
  - rewrite lookup_insert_ne by done. naive_solver.
Qed.

Lemma add_waits_lookup k core ts m t' k' :
  is_Some (default ∅ (fold_left (add_wait k core) ts m !! t') !! k') ↔
    is_Some (default ∅ (m !! t') !! k') ∨ (t' ∈ ts ∧ k' = k).
Proof.
  revert m. induction ts as [|t ts IH]; intros m; cbn; [set_solver|].
  rewrite IH, add_wait_lookup, elem_of_cons. tauto.
Qed.

Lemma merge_entry_waits node d be t k :
  waits (merge_entry node d be) t k ↔
    waits d t k ∨ (t ∈ be_waited_tids be ∧ k = (node, be_entry be)).
Proof. apply add_waits_lookup. Qed.

Lemma merge_entry_holds node d be t k :
  holds (merge_entry node d be) t k ↔
    holds d t k ∨ (t ∈ be_locked_tids be ∧ k = (node, be_entry be)).
Proof.
  unfold holds, holders at 1; cbn. destruct (decide (k = (node, be_entry be))) as [->|Hk].
  - rewrite lookup_insert_eq. cbn. set_solver.
  - rewrite lookup_insert_ne by done. unfold holders. naive_solver.
Qed.

Lemma merge_entry_locked node d be k :
  is_Some (entry_locked_txid_map_ (merge_entry node d be) !! k) ↔
    is_Some (entry_locked_txid_map_ d !! k) ∨ k = (node, be_entry be).
Proof. cbn. rewrite lookup_insert_is_Some. destruct (decide (k = (node, be_entry be))); naive_solver. Qed.

Lemma merge_entries_spec node bes d t k :
  let d' := fold_left (merge_entry node) bes d in
  (waits d' t k ↔ waits d t k ∨
     ∃ be, be ∈ bes ∧ t ∈ be_waited_tids be ∧ k = (node, be_entry be)) ∧
  (holds d' t k ↔ holds d t k ∨
     ∃ be, be ∈ bes ∧ t ∈ be_locked_tids be ∧ k = (node, be_entry be)).
Proof.
  revert d. induction bes as [|be bes IH]; intros d; cbn; [set_solver|].
  destruct (IH (merge_entry node d be)) as [-> ->].
  rewrite merge_entry_waits, merge_entry_holds. setoid_rewrite elem_of_cons.
  split; naive_solver.
Qed.

Lemma merge_entries_ok node bes d :
  maps_ok d → maps_ok (fold_left (merge_entry node) bes d).
Proof.
  revert d. induction bes as [|be bes IH]; intros d Hd; cbn; [done|].
  apply IH. intros t k. rewrite merge_entry_waits, merge_entry_locked. naive_solver.
Qed.

Lemma merge_counts_maps tes d :
  entry_locked_txid_map_ (fold_left merge_count tes d) = entry_locked_txid_map_ d ∧
  txid_waited_entry_map_ (fold_left merge_count tes d) = txid_waited_entry_map_ d.
Proof.
  revert d. induction tes as [|te tes IH]; intros d; cbn; [done|].
  by destruct (IH (merge_count d te)) as [-> ->].
Qed.

Lemma merge_counts_relations tes d :
  (∀ t k, waits (fold_left merge_count tes d) t k ↔ waits d t k) ∧
  (∀ t k, holds (fold_left merge_count tes d) t k ↔ holds d t k) ∧
  (maps_ok d → maps_ok (fold_left merge_count tes d)).
Proof.
  unfold maps_ok, waits, holds, waited, holders.
  by destruct (merge_counts_maps tes d) as [-> ->].
Qed.

(** An answer adds exactly the holders and waiters it names. *)
Lemma MergeRemote_relations d rsp t k :
  (waits (MergeRemoteWaitingLockInfo d rsp) t k ↔ waits d t k ∨
     ∃ be, be ∈ rsp_block_entry rsp ∧ t ∈ be_waited_tids be ∧
           k = (rsp_node_id rsp, be_entry be)) ∧
  (holds (MergeRemoteWaitingLockInfo d rsp) t k ↔ holds d t k ∨
     ∃ be, be ∈ rsp_block_entry rsp ∧ t ∈ be_locked_tids be ∧
           k = (rsp_node_id rsp, be_entry be)).
Proof.
  unfold MergeRemoteWaitingLockInfo.
  change (waits (note_reply (rsp_node_id rsp) ?d) t k) with (waits d t k).
  change (holds (note_reply (rsp_node_id rsp) ?d) t k) with (holds d t k).
  destruct (merge_counts_relations (rsp_tx_etys rsp)
    (fold_left (merge_entry (rsp_node_id rsp)) (rsp_block_entry rsp) d)) as (-> & -> & _).
  apply merge_entries_spec.
Qed.

Lemma MergeRemote_ok d rsp : maps_ok d → maps_ok (MergeRemoteWaitingLockInfo d rsp).
Proof.
  intros Hd. apply (merge_counts_relations (rsp_tx_etys rsp)). by apply merge_entries_ok.
Qed.

Lemma MergeLocal_ok node d dlres : maps_ok d → maps_ok (MergeLocalWaitingLockInfo node d dlres).
Proof.
  intros Hd. apply (merge_counts_relations (concat (map_to_list <$> _))).
  by apply merge_entries_ok.
Qed.

Lemma MergeLocal_relations node d dlres t k :
  (waits (MergeLocalWaitingLockInfo node d dlres) t k ↔ waits d t k ∨
     ∃ i m a info, entry_lock_info_vec_ dlres !! i = Some m ∧ m !! a = Some info ∧
       t ∈ wait_txids info ∧ k = (node, a)) ∧
  (holds (MergeLocalWaitingLockInfo node d dlres) t k ↔ holds d t k ∨
     ∃ i m a info, entry_lock_info_vec_ dlres !! i = Some m ∧ m !! a = Some info ∧
       t ∈ lock_txids info ∧ k = (node, a)).
Proof.
  unfold MergeLocalWaitingLockInfo.
  change (waits (note_reply node ?d) t k) with (waits d t k).
  change (holds (note_reply node ?d) t k) with (holds d t k).
  set (bes := concat (imap _ _)).
  assert (∀ be, be ∈ bes ↔ ∃ i m a info, entry_lock_info_vec_ dlres !! i = Some m ∧
    m !! a = Some info ∧ be = mkBlockEntry (u32 (Z.of_nat i)) a (elements (lock_txids info))
       (elements (wait_txids info))) as Hbes.
  { intros be. unfold bes. rewrite list_elem_of_In, in_concat. setoid_rewrite <-list_elem_of_In.
    split.
    - intros (l & (i & m & -> & Hm)%elem_of_lookup_imap & (p & -> & Hp)%list_elem_of_fmap).
      destruct p as [a info]. apply elem_of_map_to_list in Hp. eauto 10.
    - intros (i & m & a & info & Hi & Ha & ->). exists (local_entries i m). split.
      + apply elem_of_lookup_imap. eauto.
      + apply list_elem_of_fmap. exists (a, info). by rewrite elem_of_map_to_list. }
  destruct (merge_counts_relations (concat (map_to_list <$> txid_ety_lock_count_ dlres))
    (fold_left (merge_entry node) bes d)) as (-> & -> & _).
  destruct (merge_entries_spec node bes d t k) as [-> ->]. setoid_rewrite Hbes.
  split; f_equiv; split.
  - intros (be & (i & m & a & info & ? & ? & ->) & Ht & ->). cbn in *.
    rewrite elem_of_elements in Ht. eauto 10.
  - intros (i & m & a & info & ? & ? & Ht & ->). eexists. split; [eauto 10|]. cbn.
    by rewrite elem_of_elements.
  - intros (be & (i & m & a & info & ? & ? & ->) & Ht & ->). cbn in *.
    rewrite elem_of_elements in Ht. eauto 10.
  - intros (i & m & a & info & ? & ? & Ht & ->). eexists. split; [eauto 10|]. cbn.
    by rewrite elem_of_elements.
Qed.

(** ** The graph *)

Lemma EdgeLess_spec a b :
  EdgeLess a b = true ↔
    (tx_wait_ a < tx_wait_ b)%Z ∨ (tx_wait_ a = tx_wait_ b ∧ (tx_lock_ a < tx_lock_ b)%Z).
Proof.
  unfold EdgeLess. destruct (decide (tx_wait_ a = tx_wait_ b)); rewrite bool_decide_eq_true; lia.
Qed.

Lemma EdgeLess_trans a b c : EdgeLess a b = true → EdgeLess b c = true → EdgeLess a c = true.
Proof. rewrite !EdgeLess_spec. lia. Qed.

Lemma EdgeLess_eq a b : EdgeLess a b = false → EdgeLess b a = false → a = b.
Proof.
  rewrite <-!not_true_iff_false, !EdgeLess_spec. destruct a, b; cbn. intros.
  f_equal; lia.
Qed.

(** The keys increase strictly. *)
Definition edges_sorted (m : edge_map) : Prop :=
  StronglySorted (λ a b, EdgeLess a.1 b.1 = true) m.

Definition edges (m : edge_map) : list TxEdge := m.*1.
#[local] Arguments edges : simpl never.

Lemma elem_of_map_emplace e v m e' :
  e' ∈ edges (map_emplace e v m) ↔ e' = e ∨ e' ∈ edges m.
Proof.
  unfold edges. induction m as [|[e1 v1] m IH]; cbn; [set_solver|].
  destruct (EdgeLess e e1) eqn:E1; [set_solver|]. destruct (EdgeLess e1 e) eqn:E2; cbn.
  - set_solver.
  - pose proof (EdgeLess_eq _ _ E1 E2). set_solver.
Qed.

Lemma map_emplace_sorted e v m : edges_sorted m → edges_sorted (map_emplace e v m).
Proof.
  unfold edges_sorted. induction 1 as [|[e1 v1] m Hs IH Hall]; cbn; [repeat constructor|].
  destruct (EdgeLess e e1) eqn:E1.
  - constructor; [by constructor|]. constructor; [done|].
    eapply Forall_impl; [done|]. intros [e2 v2] ?. by eapply EdgeLess_trans.
  - destruct (EdgeLess e1 e) eqn:E2; [|by constructor]. constructor; [done|].
    apply Forall_forall. intros [e2 v2] He.
    assert (e2 ∈ edges (map_emplace e v m)) as Hin by (apply list_elem_of_fmap; by exists (e2, v2)).
    apply elem_of_map_emplace in Hin as [->|Hin]; [done|].
    apply list_elem_of_fmap in Hin as ([e3 v3] & -> & Hin).
    rewrite Forall_forall in Hall. apply (Hall _ Hin).
Qed.

Lemma map_emplace_fresh e m : Forall (λ p, p.2 = -1)%Z m → Forall (λ p, p.2 = -1)%Z (map_emplace e (-1) m).
Proof.
  induction 1 as [|[e1 v1] m Hv Hall IH]; cbn; [by repeat constructor|].
  destruct (EdgeLess e e1); [by repeat constructor|].
  destruct (EdgeLess e1 e); by constructor.
Qed.

(** A fresh graph: sorted, nothing visited yet. *)
Definition fresh_graph (m : edge_map) : Prop :=
  edges_sorted m ∧ Forall (λ p, p.2 = -1)%Z m.

Lemma emplace_fresh_graph e m : fresh_graph m → fresh_graph (map_emplace e (-1) m).
Proof. intros []. split; [by apply map_emplace_sorted|by apply map_emplace_fresh]. Qed.

Lemma graph_entry_spec d t m k e :
  (fresh_graph m → fresh_graph (graph_entry d t m k)) ∧
  (e ∈ edges (graph_entry d t m k) ↔
     e ∈ edges m ∨ (tx_wait_ e = t ∧ tx_lock_ e ≠ t ∧ holds d (tx_lock_ e) k)).
Proof.
  unfold graph_entry, holds, holders.
  destruct (entry_locked_txid_map_ d !! k) as [s|]; cbn; [|set_solver].
  setoid_rewrite <-(elem_of_elements s). revert m.
  induction (elements s) as [|h l IH]; intros m; cbn; [set_solver|].
  destruct (decide (t = h)) as [->|Hh].
  - destruct (IH m) as [Hf He]. split; [done|]. rewrite He, elem_of_cons. naive_solver.
  - destruct (IH (map_emplace (mkEdge t h) (-1) m)) as [Hf He]. split.
    { intros. by apply Hf, emplace_fresh_graph. }
    rewrite He, elem_of_map_emplace, elem_of_cons. destruct e as [a b]; cbn.
    naive_solver congruence.
Qed.

Lemma graph_entries_spec d t ks m e :
  (fresh_graph m → fresh_graph (fold_left (graph_entry d t) ks m)) ∧
  (e ∈ edges (fold_left (graph_entry d t) ks m) ↔
     e ∈ edges m ∨
     (tx_wait_ e = t ∧ tx_lock_ e ≠ t ∧ ∃ k, k ∈ ks ∧ holds d (tx_lock_ e) k)).
Proof.
  revert m. induction ks as [|k ks IH]; intros m; cbn; [set_solver|].
  destruct (IH (graph_entry d t m k)) as [Hf ->].
  destruct (graph_entry_spec d t m k e) as [Hg ->].
  split; [by eauto|]. setoid_rewrite elem_of_cons. naive_solver.
Qed.

(** [a] waits for an entry that another transaction [b] holds. *)
Definition waits_for (d : DeadLockCheck) (a b : Z) : Prop :=
  a ≠ b ∧ ∃ k, waits d a k ∧ holds d b k.

Lemma GenerateTxWaitGraph_spec d e :
  fresh_graph (GenerateTxWaitGraph d) ∧
  (e ∈ edges (GenerateTxWaitGraph d) ↔ waits_for d (tx_wait_ e) (tx_lock_ e)).
Proof.
  unfold GenerateTxWaitGraph.
  assert (∀ l m,
    (fresh_graph m → fresh_graph
       (fold_left (λ m p, fold_left (graph_entry d p.1) (map_to_list p.2).*1 m) l m)) ∧
    (e ∈ edges (fold_left (λ m p, fold_left (graph_entry d p.1) (map_to_list p.2).*1 m) l m) ↔
     e ∈ edges m ∨ (tx_wait_ e ≠ tx_lock_ e ∧ ∃ s k, (tx_wait_ e, s) ∈ l ∧
       is_Some ((s : gmap entry_key Z) !! k) ∧ holds d (tx_lock_ e) k))) as Hl.
  { induction l as [|[t s] l IH]; intros m; cbn; [set_solver|].
    destruct (IH (fold_left (graph_entry d t) (map_to_list s).*1 m)) as [Hf ->].
    destruct (graph_entries_spec d t (map_to_list s).*1 m e) as [Hg ->].
    split; [by eauto|]. setoid_rewrite elem_of_cons.
    assert (∀ k, k ∈ (map_to_list s).*1 ↔ is_Some (s !! k)) as Hs.
    { intros k. rewrite list_elem_of_fmap. split.
      - intros ([k' c] & -> & Hk%elem_of_map_to_list). by eexists.
      - intros [c Hc]. exists (k, c). by rewrite elem_of_map_to_list. }
    setoid_rewrite Hs. naive_solver. }
  destruct (Hl (map_to_list (txid_waited_entry_map_ d)) []) as [Hf ->].
  split; [apply Hf; split; by constructor|]. unfold waits_for, waits, waited.
  setoid_rewrite elem_of_map_to_list. split.
  - intros [[]%elem_of_nil|(Hne & s & k & Hs & Hk & Hh)]. split; [done|]. exists k.
    by rewrite Hs.
  - intros (Hne & k & Hw & Hh). right. split; [done|].
    destruct (txid_waited_entry_map_ d !! tx_wait_ e) as [s|] eqn:Hs; [eauto|].
    cbn in Hw. by destruct Hw.
Qed.

(** ** The search terminates *)

Definition unvisited (m : edge_map) : nat := length (filter (λ p, p.2 ≤ 0)%Z m).

(** Marking an edge changes no key. *)
Lemma edges_mark m i e v r : m !! i = Some (e, v) → edges (<[i := (e, r)]> m) = edges m.
Proof.
  intros Hi. unfold edges. rewrite list_fmap_insert. apply list_insert_id.
  by rewrite list_lookup_fmap, Hi.
Qed.

Lemma lower_bound_edges key m m' : edges m = edges m' → lower_bound key m = lower_bound key m'.
Proof.
  revert m'. unfold edges. induction m as [|[e v] m IH]; intros [|[e' v'] m']; cbn; try done.
  intros [= -> Hm]. by rewrite (IH m').
Qed.

Lemma edges_length m m' : edges m = edges m' → length m = length m'.
Proof.
  unfold edges. intros H. rewrite <-(length_fmap fst m), H. apply length_fmap.
Qed.

Lemma lower_bound_le key m : lower_bound key m ≤ length m.
Proof. induction m as [|[e v] m IH]; cbn; [done|]. case_match; lia. Qed.

Lemma edges_lookup m i e : edges m !! i = Some e ↔ ∃ v, m !! i = Some (e, v).
Proof.
  unfold edges. rewrite list_lookup_fmap. destruct (m !! i) as [[e' v]|]; cbn; naive_solver.
Qed.

Lemma unvisited_mark m i e v r :
  m !! i = Some (e, v) → (v ≤ 0)%Z → (0 < r)%Z →
  S (unvisited (<[i := (e, r)]> m)) = unvisited m.
Proof.
  intros Hi Hv Hr. unfold unvisited.
  rewrite insert_take_drop by (by apply lookup_lt_Some in Hi).
  rewrite <-(take_drop_middle m i (e, v) Hi) at 3.
  rewrite !filter_app, !length_app, !filter_cons. cbn.
  rewrite decide_False by lia. rewrite decide_True by lia. cbn. lia.
Qed.

Lemma unvisited_le m : unvisited m ≤ length m.
Proof. apply length_filter. Qed.

(** Every iterator on the stack points into the map. *)
Definition stack_ok (m : edge_map) (st : list nat) : Prop := Forall (λ i, i < length m) st.

(** Strictly decreases at every turn of the loop. *)
Definition measure (m : edge_map) (st : list nat) (iter : nat) : nat :=
  unvisited m * (2 * length m + 4) + length st * (length m + 2) + (length m + 1 - iter).

Lemma cycle_edges_in m st e : Forall (λ e', e' ∈ edges m) (cycle_edges m st e).
Proof.
  induction st as [|i st IH]; cbn; [constructor|].
  destruct (m !! i) as [[e' v]|] eqn:E; [|constructor].
  case_decide; [constructor|]. constructor; [|done].
  apply (list_elem_of_lookup_2 _ i), edges_lookup. eauto.
Qed.

(** What one run of the loop does to the marks and to the report. *)
Record loop_result (iround : Z) (m : edge_map) (out : list (list TxEdge))
    (r : edge_map * list (list TxEdge)) : Prop := {
  lr_edges : edges r.1 = edges m;
  lr_marks : ∀ i e v, m !! i = Some (e, v) → (0 < v)%Z → r.1 !! i = Some (e, v);
  lr_out : ∃ new, r.2 = out ++ new ∧ Forall (λ c, c ≠ [] ∧ Forall (λ e, e ∈ edges m) c) new;
}.

Lemma loop_result_refl iround m out : loop_result iround m out (m, out).
Proof. split; [done|done|]. exists []. by rewrite app_nil_r. Qed.

Lemma loop_result_trans iround m1 out1 m2 out2 r :
  loop_result iround m1 out1 (m2, out2) → loop_result iround m2 out2 r →
  loop_result iround m1 out1 r.
Proof.
  intros [He Hm (n1 & Hn1 & Hf1)] [He' Hm' (n2 & Hn2 & Hf2)]. cbn in *.
  split; [by rewrite He'|by eauto|]. exists (n1 ++ n2). rewrite Hn2, Hn1, app_assoc.
  split; [done|]. apply Forall_app. split; [done|]. by rewrite He in Hf2.
Qed.

Lemma loop_result_report iround m out e st i v :
  m !! i = Some (e, v) →
  loop_result iround m out (m, out ++ [e :: cycle_edges m st e]).
Proof.
  intros Hi. split; [done|done|]. eexists. split; [done|]. constructor; [|constructor].
  split; [done|]. constructor; [|apply cycle_edges_in].
  apply (list_elem_of_lookup_2 _ i), edges_lookup. eauto.
Qed.

Lemma loop_result_mark iround m out i e v :
  m !! i = Some (e, v) → (v ≤ 0)%Z →
  loop_result iround m out (<[i := (e, iround)]> m, out).
Proof.
  intros Hi Hv. split; cbn; [by eapply edges_mark| |by exists []; rewrite app_nil_r].
  intros j e' v' Hj Hp. destruct (decide (i = j)) as [->|]; [|by rewrite list_lookup_insert_ne].
  simplify_eq. lia.
Qed.

Lemma detect_loop_total fuel iround m dup st tx iter out :
  (0 < iround)%Z → stack_ok m st → st ≠ [] → iter ≤ length m →
  measure m st iter < fuel →
  ∃ r, detect_loop fuel iround m dup st tx iter out = Some r ∧ loop_result iround m out r.
Proof.
  intros Hr. revert m dup st tx iter out.
  induction fuel as [|fuel IH]; intros m dup st tx iter out Hst Hne Hit Hfuel; [lia|].
  cbn [detect_loop].
  match goal with
  | |- ∃ r, match m !! iter with Some _ => _ | None => ?p end = _ ∧ _ => set (pop := p)
  end.
  assert (∃ r, pop = Some r ∧ loop_result iround m out r) as Hpop.
  { subst pop. destruct st as [|t0 [|top below]]; cbn; [done|eauto using loop_result_refl|].
    destruct below as [|b below]; [eauto using loop_result_refl|].
    apply Forall_cons in Hst as [_ Hst]. pose proof Hst as [Htop _]%Forall_cons.
    destruct (lookup_lt_is_Some_2 _ _ Htop) as [[e v] He]. rewrite He.
    apply IH; [done|done|lia|]. unfold measure in *. cbn in *. lia. }
  destruct (m !! iter) as [[e mark]|] eqn:Hi; [|done].
  assert (iter < length m) as Hlt by by eapply lookup_lt_Some.
  assert (measure m st (S iter) < fuel) as Hnext by (unfold measure in *; lia).
  case_decide; [done|]. case_decide.
  { case_decide; [by apply IH|].
    destruct (IH m dup st tx (S iter) (out ++ [e :: cycle_edges m st e])) as (r & -> & Hlr);
      [done..|]. eexists. split; [done|].
    eapply loop_result_trans; [by eapply loop_result_report|done]. }
  case_decide; [by apply IH|].
  pose proof (loop_result_mark iround m out iter e mark Hi ltac:(lia)) as Hlm.
  set (m' := <[iter := (e, iround)]> m) in *.
  assert (length m' = length m) as Hlen by by apply length_insert.
  destruct (IH m' (dup ∪ {[e]}) (iter :: st) (tx_lock_ e)
    (lower_bound (mkEdge (tx_lock_ e) 0) m') out) as (r & -> & Hlr).
  - unfold stack_ok. rewrite Hlen. by constructor.
  - done.
  - apply lower_bound_le.
  - pose proof (unvisited_mark m iter e mark iround Hi ltac:(lia) Hr) as Hu. fold m' in Hu.
    unfold measure in *. rewrite Hlen, <-Hu in *. cbn [length]. nia.
  - eexists. split; [done|]. by eapply loop_result_trans.
Qed.

Lemma detect_round_total iround m i e v out :
  (0 < iround)%Z → m !! i = Some (e, v) → (v ≤ 0)%Z →
  let m1 := <[i := (e, iround)]> m in
  ∃ r, detect_loop (detect_fuel (length m)) iround m1 {[e]} [i] (tx_lock_ e)
         (lower_bound (mkEdge (tx_lock_ e) 0) m1) out = Some r ∧ loop_result iround m out r ∧
       r.1 !! i = Some (e, iround).
Proof.
  intros Hr Hi Hv m1. assert (length m1 = length m) as Hlen by by apply length_insert.
  destruct (detect_loop_total (detect_fuel (length m)) iround m1 {[e]} [i] (tx_lock_ e)
    (lower_bound (mkEdge (tx_lock_ e) 0) m1) out) as (r & -> & Hlr); [done| |done| | |].
  - constructor; [|constructor]. rewrite Hlen. by eapply lookup_lt_Some.
  - apply lower_bound_le.
  - pose proof (unvisited_mark m i e v iround Hi Hv Hr) as Hu. fold m1 in Hu.
    pose proof (unvisited_le m). unfold measure, detect_fuel. rewrite Hlen. cbn [length]. nia.
  - eexists. split; [done|].
    split; [eapply loop_result_trans; [by eapply loop_result_mark|done]|].
    apply Hlr; [|done]. apply list_lookup_insert_eq. by eapply lookup_lt_Some.
Qed.

Lemma detect_rounds_total idxs iround m out :
  (0 < iround)%Z →
  ∃ r, detect_rounds idxs iround m out = Some r ∧ edges r.1 = edges m ∧
    ∃ new, r.2 = out ++ new ∧ Forall (λ c, c ≠ [] ∧ Forall (λ e, e ∈ edges m) c) new.
Proof.
  revert iround m out. induction idxs as [|i idxs IH]; intros iround m out Hr.
  { exists (m, out). split; [done|]. split; [done|]. exists []. by rewrite app_nil_r. }
  cbn [detect_rounds]. destruct (m !! i) as [[e v]|] eqn:Hi.
  2: { exists (m, out). split; [done|]. split; [done|]. exists []. by rewrite app_nil_r. }
  case_decide; [by apply IH|].
  destruct (detect_round_total iround m i e v out Hr Hi ltac:(lia))
    as ([m2 out2] & -> & [He _ (n1 & Hn1 & Hf1)] & _). cbn in *.
  destruct (IH (iround + 1)%Z m2 out2 ltac:(lia)) as (r & -> & He' & n2 & Hn2 & Hf2).
  exists r. split; [done|]. split; [congruence|]. exists (n1 ++ n2).
  rewrite Hn2, Hn1, app_assoc. split; [done|]. apply Forall_app.
  split; [done|]. by rewrite He in Hf2.
Qed.

(** ** The search is exact when every transaction waits for one holder *)

Lemma tc_on_path {A} (R : relation A) (Hdet : ∀ x y z, R x y → R x z → y = z) a b :
  tc R a a → rtc R a b → tc R b b ∧ rtc R b a.
Proof.
  intros Ha Hab. revert Ha. induction Hab as [x|x y z Hxy Hyz IH]; intros Hx.
  { split; [done|apply rtc_refl]. }
  assert (rtc R y x) as Hyx.
  { inversion Hx as [? ? Hxx|? y' ? Hxy' Hr]; subst.
    - by rewrite (Hdet _ _ _ Hxy Hxx); apply rtc_refl.
    - rewrite (Hdet _ _ _ Hxy Hxy'). by apply tc_rtc. }
  assert (tc R y y) as Hy by (eapply tc_rtc_l; [exact Hyx|]; by constructor).
  destruct (IH Hy) as [Hz Hzy]. split; [done|]. by etrans.
Qed.

Section exact.
Context (es : list TxEdge).
Context (Hfun : ∀ i j a b, es !! i = Some a → es !! j = Some b →
                  tx_wait_ a = tx_wait_ b → i = j).
Context (Hsort : ∀ i j a b, es !! i = Some a → es !! j = Some b → i < j →
                   EdgeLess a b = true).
Context (Hpos : ∀ i e, es !! i = Some e → (0 ≤ tx_lock_ e)%Z).

(** The edge at [j] leaves the transaction the edge at [i] waits for. *)
Definition follows (i j : nat) : Prop :=
  ∃ a b, es !! i = Some a ∧ es !! j = Some b ∧ tx_lock_ a = tx_wait_ b.

Lemma follows_det i j k : follows i j → follows i k → j = k.
Proof.
  intros (a & b & Ha & Hb & E) (a' & c & Ha' & Hc & E'). simplify_eq.
  eapply Hfun; [done..|]. congruence.
Qed.

(** The stack is a path, its top at the head. *)
Fixpoint path (st : list nat) : Prop :=
  match st with
  | [] => True
  | b :: st' => match st' with a :: _ => follows a b | [] => True end ∧ path st'
  end.

Lemma path_tail i st : path (i :: st) → path st.
Proof. by intros []. Qed.

(** An edge below the top is followed by the one above it. *)
Lemma path_closed p st i j : path (p :: st) → i ∈ st → follows i j → j ∈ p :: st.
Proof.
  revert p. induction st as [|a st IH]; intros p [Hap Hp] Hi Hij; [set_solver|].
  apply elem_of_cons in Hi as [->|Hi].
  - rewrite (follows_det _ _ _ Hij Hap). set_solver.
  - specialize (IH a Hp Hi Hij). set_solver.
Qed.

Lemma path_rtc_top i st x : path (i :: st) → x ∈ i :: st → rtc follows x i.
Proof.
  revert i. induction st as [|a st IH]; intros i Hp Hx.
  { apply list_elem_of_singleton in Hx as ->. apply rtc_refl. }
  destruct Hp as [Hai Hp]. apply elem_of_cons in Hx as [->|Hx]; [apply rtc_refl|].
  eapply rtc_r; [by apply (IH a)|done].
Qed.

Lemma path_rtc_bottom s1 j s2 x : path (s1 ++ j :: s2) → x ∈ s1 ++ [j] → rtc follows j x.
Proof.
  revert x. induction s1 as [|b s1 IH]; intros x Hp Hx; cbn in *.
  { apply list_elem_of_singleton in Hx as ->. apply rtc_refl. }
  apply elem_of_cons in Hx as [->|Hx].
  2: { apply IH; [|done]. apply Hp. }
  destruct s1 as [|a s1]; cbn in *; destruct Hp as [Hf Hp].
  - by apply rtc_once.
  - eapply rtc_r; [|exact Hf]. apply IH; [done|set_solver].
Qed.

Lemma path_prefix q s1 j s2 : path (q :: s1 ++ j :: s2) → path (q :: s1 ++ [j]).
Proof.
  revert q. induction s1 as [|a s1 IH]; intros q [Hq Hp]; cbn in *; [by split; [|split]|].
  split; [done|]. by apply IH.
Qed.

Definition on_cycle (i : nat) : Prop := tc follows i i.

Definition edge_at (i : nat) : TxEdge := default (mkEdge 0 0) (es !! i).

(** After some rounds: [V] are the visited edges. *)
Record search_inv (V : nat → Prop) (out : list (list TxEdge)) : Prop := {
  si_closed : ∀ i j, V i → follows i j → V j;
  si_complete : ∀ i, V i → on_cycle i → ∃ js, edge_at <$> js ∈ out ∧ i ∈ js;
  si_sound : ∀ c, c ∈ out → ∃ js, c = edge_at <$> js ∧
    (∀ a, a ∈ js → is_Some (es !! a)) ∧ (∀ a b, a ∈ js → b ∈ js → tc follows a b);
}.

Lemma search_inv_iff V V' out : (∀ i, V i ↔ V' i) → search_inv V out → search_inv V' out.
Proof. intros Hiff [H1 H2 H3]. split; [|by setoid_rewrite <-Hiff|done].
  intros i j. rewrite <-!Hiff. eauto. Qed.

(** A path that ends at a transaction that waits for nobody, or that runs into
    an edge of an earlier round, holds no cycle. *)
Lemma search_inv_no_cycle V out p st :
  search_inv V out → path (p :: st) → (∀ i, i ∈ p :: st → ¬ V i) →
  (∀ j, follows p j → V j) →
  search_inv (λ i, V i ∨ i ∈ p :: st) out.
Proof.
  intros [Hc Hcm Hs] Hp Hnew Hend.
  assert (∀ i, i ∈ p :: st → ¬ on_cycle i) as Hno.
  { intros i Hi Hcyc. pose proof (path_rtc_top _ _ _ Hp Hi) as Hip.
    destruct (tc_on_path follows follows_det i p Hcyc Hip) as [Hpp _].
    assert (∃ j, follows p j ∧ rtc follows j p) as (j & Hpj & Hjp).
    { inversion Hpp; subst; [eexists; split; [done|apply rtc_refl]|].
      eexists; split; [done|]. by apply tc_rtc. }
    apply Hend in Hpj. apply (Hnew p); [set_solver|]. clear -Hc Hpj Hjp.
    induction Hjp; eauto. }
  split; [|intros i [Hi|Hi] Hcyc; [by apply Hcm|by destruct (Hno i)]|done].
  intros i j [Hi|Hi] Hij; [left; eauto|].
  apply elem_of_cons in Hi as [->|Hi]; [left; eauto|right]. by eapply path_closed.
Qed.

(** A path that runs into one of its own edges closes a cycle, which is the
    part of the stack above that edge. *)
Lemma search_inv_cycle V out p st s1 j s2 :
  search_inv V out → path (p :: st) → (∀ i, i ∈ p :: st → ¬ V i ∧ is_Some (es !! i)) →
  p :: st = s1 ++ j :: s2 → follows p j →
  search_inv (λ i, V i ∨ i ∈ p :: st) (out ++ [edge_at <$> j :: s1]).
Proof.
  intros [Hc Hcm Hs] Hp Hnew Hst Hpj.
  assert (∀ x, x ∈ j :: s1 → x ∈ p :: st) as Hsub by (rewrite Hst; set_solver).
  assert (∀ x, x ∈ j :: s1 → rtc follows x p) as Htop
    by (intros x Hx; eapply path_rtc_top; eauto).
  assert (∀ x, x ∈ j :: s1 → rtc follows j x) as Hbot
    by (intros x Hx; eapply path_rtc_bottom; [rewrite <-Hst; done|set_solver]).
  assert (∀ i k, i ∈ j :: s1 → follows i k → k ∈ j :: s1) as Hcl.
  { intros i k Hi Hik. destruct s1 as [|q s1]; cbn in Hst; simplify_eq.
    - apply list_elem_of_singleton in Hi as ->. rewrite (follows_det _ _ _ Hik Hpj). set_solver.
    - destruct (decide (i = q)) as [->|Hne];
        [rewrite (follows_det _ _ _ Hik Hpj); set_solver|].
      assert (path (q :: s1 ++ [j])) as Hpre by (by eapply path_prefix).
      pose proof (path_closed q (s1 ++ [j]) i k Hpre ltac:(set_solver) Hik). set_solver. }
  split.
  - intros i k [Hi|Hi] Hik; [left; eauto|right].
    apply elem_of_cons in Hi as [->|Hi]; [|by eapply path_closed].
    rewrite (follows_det _ _ _ Hik Hpj). apply Hsub. set_solver.
  - intros i [Hi|Hi] Hcyc.
    { destruct (Hcm i Hi Hcyc) as (js & ? & ?). exists js. set_solver. }
    exists (j :: s1). split; [set_solver|].
    pose proof (path_rtc_top _ _ _ Hp Hi) as Hip.
    destruct (tc_on_path follows follows_det i p Hcyc Hip) as [_ Hpi].
    assert (p ∈ j :: s1) as Hpin by (destruct s1; cbn in Hst; simplify_eq; set_solver).
    clear -Hcl Hpi Hpin. induction Hpi; eauto.
  - intros c [Hin|Hin%list_elem_of_singleton]%elem_of_app; [by apply Hs|].
    exists (j :: s1). split; [done|]. split; [intros a Ha; by apply Hnew, Hsub|].
    intros a b Ha Hb. eapply tc_rtc_l; [by apply Htop|]. eapply tc_rtc_r; [by constructor|].
    by apply Hbot.
Qed.

(** ** One round *)

Lemma lower_bound_at key m j :
  (∀ i e, edges m !! i = Some e → i < j → EdgeLess e key = true) →
  (∃ e, edges m !! j = Some e ∧ EdgeLess e key = false) → lower_bound key m = j.
Proof.
  revert j. induction m as [|[e v] m IH]; intros j Hlt (ej & Hj & Hge); [done|]. cbn.
  destruct j as [|j].
  - injection Hj as ->. by rewrite Hge.
  - rewrite (Hlt 0 e); [|done|lia]. f_equal. apply IH; [|by exists ej].
    intros i e' Hi ?. apply (Hlt (S i)); [done|lia].
Qed.

(** [lower_bound(TxEdge(tx, 0))] finds the edge that leaves [tx]. *)
Lemma lower_bound_next m i j e :
  edges m = es → es !! i = Some e → follows i j →
  lower_bound (mkEdge (tx_lock_ e) 0) m = j.
Proof.
  intros Hes Hi (a & b & Ha & Hb & Hab). assert (a = e) as -> by congruence.
  apply lower_bound_at; rewrite Hes.
  - intros k c Hk Hlt. pose proof (Hsort _ _ _ _ Hk Hb Hlt) as Hl.
    apply EdgeLess_spec in Hl. apply EdgeLess_spec. cbn. rewrite Hab.
    destruct (decide (tx_wait_ c = tx_wait_ b)) as [E|E]; [|lia].
    pose proof (Hfun _ _ _ _ Hk Hb E). lia.
  - exists b. split; [done|]. apply not_true_iff_false. rewrite EdgeLess_spec; cbn.
    pose proof (Hpos _ _ Hb). lia.
Qed.

(** The iterator has left the edges of [tx_id]. *)
Lemma detect_loop_end fuel iround m dup st tx iter out :
  (∀ e v, m !! iter = Some (e, v) → tx_wait_ e ≠ tx) →
  detect_loop (S fuel) iround m dup st tx iter out =
    match tail st with
    | top :: next :: below =>
        match m !! top with
        | Some (e, _) =>
            detect_loop fuel iround m (dup ∖ {[e]}) (top :: next :: below)
              (tx_wait_ e) (S top) out
        | None => None
        end
    | _ => Some (m, out)
    end.
Proof.
  intros Hend. cbn [detect_loop]. destruct (m !! iter) as [[e v]|] eqn:E; [|done].
  by rewrite decide_True by eauto.
Qed.

(** Then the loop unwinds the stack and visits nothing more. *)
Lemma detect_unwind fuel iround m dup st tx iter out r :
  edges m = es →
  (∀ e v, m !! iter = Some (e, v) → tx_wait_ e ≠ tx) →
  detect_loop fuel iround m dup st tx iter out = Some r → r = (m, out).
Proof.
  intros Hes. revert dup st tx iter.
  induction fuel as [|fuel IH]; intros dup st tx iter Hend; [done|].
  rewrite detect_loop_end by done.
  destruct st as [|t0 [|top [|next below]]]; cbn [tail]; [congruence..|].
  destruct (m !! top) as [[e v]|] eqn:Etop; [|done]. apply IH.
  intros e' v' He' Heq. assert (S top = top); [|lia]. eapply Hfun; [..|exact Heq];
    rewrite <-Hes; apply edges_lookup; eauto.
Qed.

(** The state of the loop on its way down: [V] was visited in earlier rounds,
    the stack holds exactly the edges of this round. *)
Record descending (V : nat → Prop) (iround : Z) (m : edge_map) (dup : gset TxEdge)
    (st : list nat) : Prop := {
  de_edges : edges m = es;
  de_path : path st;
  de_stack : ∀ i, i ∈ st → ¬ V i ∧ is_Some (es !! i);
  de_round : ∀ i e v, m !! i = Some (e, v) → v = iround ↔ i ∈ st;
  de_visited : ∀ i e v, m !! i = Some (e, v) → (0 < v)%Z ↔ V i ∨ i ∈ st;
  de_dup : ∀ i, i ∈ st → edge_at i ∈ dup;
}.

Definition visited (m : edge_map) (i : nat) : Prop := ∃ e v, m !! i = Some (e, v) ∧ (0 < v)%Z.

Lemma descending_visited V iround m dup st i :
  descending V iround m dup st → (∀ i, V i → is_Some (es !! i)) →
  V i ∨ i ∈ st ↔ visited m i.
Proof.
  intros [Hes _ Hst _ Hv _] HV. split.
  - intros Hi. assert (is_Some (edges m !! i)) as [e He].
    { rewrite Hes. destruct Hi; [by apply HV|by apply Hst]. }
    apply edges_lookup in He as [v He]. exists e, v. split; [done|]. by eapply Hv.
  - intros (e & v & He & Hpos'). by eapply Hv.
Qed.

Lemma edge_at_lookup m i e v : edges m = es → m !! i = Some (e, v) → es !! i = Some e ∧ edge_at i = e.
Proof.
  intros Hes Hi. assert (es !! i = Some e) as H by (rewrite <-Hes; apply edges_lookup; eauto).
  unfold edge_at. by rewrite H.
Qed.

Lemma edge_at_inj i j : is_Some (es !! i) → is_Some (es !! j) → edge_at i = edge_at j → i = j.
Proof.
  intros [a Ha] [b Hb]. unfold edge_at. rewrite Ha, Hb. cbn. intros ->. by eapply Hfun.
Qed.

(** The copy loop stops at the edge that was met again. *)
Lemma cycle_edges_split m s1 j s2 :
  edges m = es → (∀ i, i ∈ s1 ++ j :: s2 → is_Some (es !! i)) → j ∉ s1 →
  cycle_edges m (s1 ++ j :: s2) (edge_at j) = edge_at <$> s1.
Proof.
  intros Hes Hin Hj. induction s1 as [|i s1 IH]; cbn.
  - destruct (m !! j) as [[e v]|] eqn:E; [|done].
    destruct (edge_at_lookup m j e v Hes E) as [_ ->]. by rewrite decide_True.
  - destruct (Hin i) as [e He]; [set_solver|]. pose proof He as He'. rewrite <-Hes in He'.
    apply edges_lookup in He' as [v Hm]. rewrite Hm.
    destruct (edge_at_lookup m i e v Hes Hm) as [_ Hat]. rewrite decide_False.
    + rewrite IH by set_solver. by rewrite Hat.
    + rewrite <-Hat. intros Heq. apply edge_at_inj in Heq; [set_solver|by eexists|].
      apply Hin. set_solver.
Qed.

Lemma descending_push V iround m dup st p j b v :
  (0 < iround)%Z → descending V iround m dup (p :: st) → m !! j = Some (b, v) → (v ≤ 0)%Z →
  follows p j → descending V iround (<[j := (b, iround)]> m) (dup ∪ {[b]}) (j :: p :: st).
Proof.
  intros Hr [Hes Hp Hst Hrd Hv Hd] Hj Hle Hpj.
  destruct (edge_at_lookup m j b v Hes Hj) as [Hb Hat].
  assert (¬ (V j ∨ j ∈ p :: st)) as Hnv by (rewrite <-(Hv j b v Hj); lia).
  assert (∀ i e w, <[j := (b, iround)]> m !! i = Some (e, w) →
    (i = j ∧ w = iround) ∨ (i ≠ j ∧ m !! i = Some (e, w))) as Hins.
  { intros i e w. destruct (decide (i = j)) as [->|Hne].
    - rewrite list_lookup_insert_eq by (by eapply lookup_lt_Some). naive_solver.
    - rewrite list_lookup_insert_ne by done. naive_solver. }
  split.
  - by rewrite (edges_mark m j b v).
  - by split.
  - intros i [->|Hi]%elem_of_cons; [|by apply Hst]. split; [tauto|by eexists].
  - intros i e w [[-> ->]|[Hne Hi]]%Hins; [set_solver|].
    rewrite (Hrd i e w Hi). set_solver.
  - intros i e w [[-> ->]|[Hne Hi]]%Hins; [set_solver|].
    rewrite (Hv i e w Hi). set_solver.
  - intros i [->|Hi]%elem_of_cons; [rewrite Hat; set_solver|]. apply Hd in Hi. set_solver.
Qed.

(** One round keeps the search invariant. *)
Lemma detect_descend fuel V iround m dup st p e out r :
  (0 < iround)%Z → search_inv V out → (∀ i, V i → is_Some (es !! i)) →
  descending V iround m dup (p :: st) → es !! p = Some e →
  (∀ i e v, m !! i = Some (e, v) → (v ≤ iround)%Z) →
  detect_loop fuel iround m dup (p :: st) (tx_lock_ e)
    (lower_bound (mkEdge (tx_lock_ e) 0) m) out = Some r →
  edges r.1 = es ∧ search_inv (visited r.1) r.2 ∧
  (∀ i e v, r.1 !! i = Some (e, v) → (v ≤ iround)%Z).
Proof.
  intros Hr Hinv HV. revert m dup st p e.
  induction fuel as [|fuel IH]; intros m dup st p e Hde Hp Hmax; [done|].
  pose proof Hde as [Hes Hpath Hst Hrd Hvis Hd].
  set (iter := lower_bound _ m).
  assert (∀ j, follows p j → j = iter) as Hiter
    by (intros j Hj; by rewrite <-(lower_bound_next m p j e Hes Hp Hj)).
  assert (∀ out' r', search_inv (λ i, V i ∨ i ∈ p :: st) out' → r' = (m, out') →
    edges r'.1 = es ∧ search_inv (visited r'.1) r'.2 ∧
    (∀ i e v, r'.1 !! i = Some (e, v) → (v ≤ iround)%Z)) as Hdone.
  { intros out' r' Hs ->. split; [done|]. split; [|done]. eapply search_inv_iff; [|done].
    intros i. by eapply descending_visited. }
  destruct (m !! iter) as [[b v]|] eqn:Hb; [destruct (decide (tx_wait_ b = tx_lock_ e)) as [Hwb|Hwb]|].
  2, 3: intros Hl%detect_unwind; [|done|by rewrite Hb; intros ? ? [= <- <-] || rewrite Hb];
    eapply (Hdone out); [|exact Hl]; apply search_inv_no_cycle; [done..|by apply Hst|];
    intros j Hj; pose proof (Hiter j Hj) as ->; destruct Hj as (a & b' & Ha & Hb' & Hab);
    rewrite <-Hes in Hb'; apply edges_lookup in Hb' as [v' Hb']; naive_solver congruence.
  destruct (edge_at_lookup m iter b v Hes Hb) as [Hbes Hat].
  assert (follows p iter) as Hpi by (exists e, b; naive_solver).
  assert (∀ e' v', m !! S iter = Some (e', v') → tx_wait_ e' ≠ tx_lock_ e) as Hsucc.
  { intros e' v' [He' _]%edge_at_lookup Heq; [|done]. assert (S iter = iter); [|lia].
    eapply Hfun; [done|exact Hbes|congruence]. }
  cbn [detect_loop]. rewrite Hb, decide_False by naive_solver.
  case_decide as Hround.
  - apply (Hrd _ _ _ Hb) in Hround.
    rewrite decide_False by (rewrite <-Hat; intros H; apply H; by apply Hd).
    apply list_elem_of_split_l in Hround as (s1 & s2 & Hsplit & Hs1).
    intros Hl%detect_unwind; [|done|done]. eapply Hdone; [|exact Hl].
    rewrite Hsplit, <-Hat, cycle_edges_split; [|done|rewrite <-Hsplit; by apply Hst|done].
    rewrite <-Hsplit.
    by apply (search_inv_cycle V out p st s1 iter s2).
  - case_decide as Hpv.
    + intros Hl%detect_unwind; [|done|done]. eapply (Hdone out); [|exact Hl].
      apply search_inv_no_cycle; [done|done|by apply Hst|]. intros j ->%Hiter.
      apply (Hvis _ _ _ Hb) in Hpv as [?|Hin]; [done|]. by apply (Hrd _ _ _ Hb) in Hin.
    + apply IH; [|done|].
      * by apply (descending_push _ _ _ _ _ _ _ _ v); [done..|lia|].
      * intros i e' v' Hi. destruct (decide (i = iter)) as [->|Hne].
        { rewrite list_lookup_insert_eq in Hi by (by eapply lookup_lt_Some). naive_solver lia. }
        rewrite list_lookup_insert_ne in Hi by done. by eapply Hmax.
Qed.

(** The first edge of a round is marked and pushed. *)
Lemma descending_start iround m i e v :
  (0 < iround)%Z → edges m = es → m !! i = Some (e, v) → (v ≤ 0)%Z →
  (∀ i e v, m !! i = Some (e, v) → (v < iround)%Z) →
  descending (visited m) iround (<[i := (e, iround)]> m) {[e]} [i] ∧
  (∀ k e' w, <[i := (e, iround)]> m !! k = Some (e', w) → (w ≤ iround)%Z).
Proof.
  intros Hr Hes Hi Hv Hmax. destruct (edge_at_lookup m i e v Hes Hi) as [Hie Hat].
  assert (∀ k e' w, <[i := (e, iround)]> m !! k = Some (e', w) →
    (k = i ∧ w = iround) ∨ (k ≠ i ∧ m !! k = Some (e', w))) as Hins.
  { intros k e' w. destruct (decide (k = i)) as [->|Hne].
    - rewrite list_lookup_insert_eq by (by eapply lookup_lt_Some). naive_solver.
    - rewrite list_lookup_insert_ne by done. naive_solver. }
  split; [split|].
  - by rewrite (edges_mark m i e v).
  - by split.
  - intros k ->%list_elem_of_singleton. split; [|by eexists]. intros (? & ? & ? & ?).
    simplify_eq. lia.
  - intros k e' w [[-> ->]|[Hne Hk]]%Hins; [set_solver|]. apply Hmax in Hk.
    rewrite list_elem_of_singleton. naive_solver lia.
  - intros k e' w [[-> ->]|[Hne Hk]]%Hins; [set_solver|]. unfold visited.
    rewrite list_elem_of_singleton. naive_solver.
  - intros k ->%list_elem_of_singleton. rewrite Hat. set_solver.
  - intros k e' w [[-> ->]|[Hne Hk]]%Hins; [done|]. apply Hmax in Hk. lia.
Qed.

(** All rounds: at the end every edge is visited. *)
Lemma detect_rounds_inv idxs iround m out r :
  (0 < iround)%Z → edges m = es → search_inv (visited m) out →
  Forall (λ i, i < length m) idxs →
  (∀ i e v, m !! i = Some (e, v) → (v < iround)%Z) →
  detect_rounds idxs iround m out = Some r →
  search_inv (visited r.1) r.2 ∧ (∀ i, i ∈ idxs ∨ visited m i → visited r.1 i).
Proof.
  revert iround m out. induction idxs as [|i idxs IH]; intros iround m out Hr Hes Hinv Hidx Hmax.
  { intros [= <-]. split; [done|]. set_solver. }
  cbn [detect_rounds]. apply Forall_cons in Hidx as [Hlt Hidx].
  destruct (lookup_lt_is_Some_2 _ _ Hlt) as [[e v] Hi]. rewrite Hi. case_decide as Hv.
  { intros Hd. destruct (IH _ _ _ Hr Hes Hinv Hidx Hmax Hd) as [H1 H2]. split; [done|].
    intros k [[->|Hk]%elem_of_cons|Hk]; apply H2; [|by left|by right]. right. by exists e, v. }
  destruct (detect_round_total iround m i e v out Hr Hi ltac:(lia)) as (r1 & Hloop & Hlr & Hri).
  rewrite Hloop. cbn [mbind option_bind]. intros Hd.
  assert (∀ k, visited m k → is_Some (es !! k)) as HV.
  { intros k (e' & v' & Hk & _). by destruct (edge_at_lookup m k e' v' Hes Hk); eexists. }
  destruct (descending_start iround m i e v Hr Hes Hi ltac:(lia) Hmax) as [Hde Hle].
  destruct (edge_at_lookup m i e v Hes Hi) as [Hie _].
  destruct (detect_descend _ _ _ _ _ _ _ _ _ _ Hr Hinv HV Hde Hie Hle Hloop) as (He1 & Hs1 & Hm1).
  destruct (IH (iround + 1)%Z r1.1 r1.2) as [H1 H2]; [lia|done|done| | |done|].
  { rewrite (edges_length r1.1 m); [done|]. by rewrite He1, Hes. }
  { intros k e' w Hk%Hm1. lia. }
  split; [done|]. destruct Hlr as [_ Hmk _].
  intros k [[->|Hk]%elem_of_cons|Hk]; apply H2; [|by left|]; right.
  - by exists e, iround.
  - destruct Hk as (e' & w & Hk & Hw). exists e', w. split; [by apply Hmk|done].
Qed.
End exact.

(** [a] waits for [b] in the graph. *)
Definition waits_edge (m : edge_map) (a b : Z) : Prop := mkEdge a b ∈ edges m.

(** Every transaction waits for at most one other. *)
Definition single_wait (m : edge_map) : Prop :=
  ∀ a b, a ∈ edges m → b ∈ edges m → tx_wait_ a = tx_wait_ b → a = b.

(** Transaction numbers are unsigned. *)
Definition unsigned_edges (m : edge_map) : Prop := ∀ e, e ∈ edges m → (0 ≤ tx_lock_ e)%Z.

Lemma edges_sorted_lookup m i j a b :
  edges_sorted m → edges m !! i = Some a → edges m !! j = Some b → i < j →
  EdgeLess a b = true.
Proof.
  unfold edges_sorted. intros Hs. revert i j. induction Hs as [|p m Hs IH Hall]; [done|].
  intros [|i] [|j] Ha Hb Hij; [lia| |lia|].
  - injection Ha as <-. apply (list_elem_of_lookup_2 _ j), list_elem_of_fmap in Hb as (q & -> & Hq).
    rewrite Forall_forall in Hall. by apply Hall.
  - apply (IH i j); [done..|lia].
Qed.

Lemma follows_waits m i j :
  follows (edges m) i j →
  waits_edge m (tx_wait_ (edge_at (edges m) i)) (tx_wait_ (edge_at (edges m) j)).
Proof.
  intros (a & b & Ha & Hb & Hab). unfold edge_at. rewrite Ha, Hb. cbn. rewrite <-Hab.
  unfold waits_edge. destruct a. by eapply list_elem_of_lookup_2.
Qed.

(** A path of transactions that ends at one that waits is a path of edges. *)
Lemma waits_follows m t t' j b :
  edges m !! j = Some b → tx_wait_ b = t' → tc (waits_edge m) t t' →
  ∃ i a, edges m !! i = Some a ∧ tx_wait_ a = t ∧ tc (follows (edges m)) i j.
Proof.
  intros Hj Hb Htc. revert Hb. induction Htc as [t t' Htt|t t1 t' Htt Htc IH]; intros Hb.
  - apply list_elem_of_lookup_1 in Htt as [i Hi]. exists i, (mkEdge t t').
    split; [done|]. split; [done|]. constructor. by exists (mkEdge t t'), b.
  - destruct (IH Hb) as (k & c & Hk & Hc & Hkj).
    apply list_elem_of_lookup_1 in Htt as [i Hi]. exists i, (mkEdge t t1).
    split; [done|]. split; [done|]. eapply tc_l; [|done]. by exists (mkEdge t t1), c.
Qed.

Lemma waits_first m t t' :
  tc (waits_edge m) t t' → ∃ j b, edges m !! j = Some b ∧ tx_wait_ b = t.
Proof.
  intros Ht. assert (∃ t1, waits_edge m t t1) as [t1 [j Hj]%list_elem_of_lookup_1]
    by (inversion Ht; eauto). by exists j, (mkEdge t t1).
Qed.

Lemma single_wait_index m :
  edges_sorted m → single_wait m → ∀ i j a b, edges m !! i = Some a →
  edges m !! j = Some b → tx_wait_ a = tx_wait_ b → i = j.
Proof.
  intros Hs Hone i j a b Ha Hb Hab.
  pose proof (Hone a b (list_elem_of_lookup_2 _ _ _ Ha) (list_elem_of_lookup_2 _ _ _ Hb) Hab)
    as <-.
  destruct (lt_eq_lt_dec i j) as [[Hlt|]|Hlt]; [|done|].
  - pose proof (edges_sorted_lookup m i j a a Hs Ha Hb Hlt) as H.
    apply EdgeLess_spec in H. lia.
  - pose proof (edges_sorted_lookup m j i a a Hs Hb Ha Hlt) as H.
    apply EdgeLess_spec in H. lia.
Qed.

(** The report of a search that has visited every edge. *)
Lemma search_inv_exact m V out :
  (∀ i, i < length m → V i) → edges_sorted m → single_wait m →
  search_inv (edges m) V out →
  (∀ t, (∃ c, c ∈ out ∧ t ∈ tx_wait_ <$> c) ↔ tc (waits_edge m) t t) ∧
  (∀ c a b, c ∈ out → a ∈ tx_wait_ <$> c → b ∈ tx_wait_ <$> c → tc (waits_edge m) a b).
Proof.
  intros Hall Hs Hone [_ Hcm Hsd].
  assert (∀ c a b, c ∈ out → a ∈ tx_wait_ <$> c → b ∈ tx_wait_ <$> c →
    tc (waits_edge m) a b) as Hsound.
  { intros c a b (js & -> & _ & Hjs)%Hsd. rewrite !list_elem_of_fmap.
    intros (ea & -> & (ia & -> & Hia)%list_elem_of_fmap)
      (eb & -> & (ib & -> & Hib)%list_elem_of_fmap).
    apply (tc_congruence (λ i, tx_wait_ (edge_at (edges m) i)) (R := follows (edges m)));
      [apply follows_waits|by apply Hjs]. }
  split; [|done]. intros t. split; [intros (c & Hc & Ht); by eapply Hsound|]. intros Ht.
  destruct (waits_first m t t Ht) as (j & b & Hj & Hb).
  destruct (waits_follows m t t j b Hj Hb Ht) as (i & a & Hi & Ha & Hij).
  assert (i = j) as -> by (eapply single_wait_index; [done..|congruence]).
  destruct (Hcm j) as (js & Hjs & Hj').
  { apply Hall. apply lookup_lt_Some in Hj. unfold edges in Hj. by rewrite length_fmap in Hj. }
  { done. }
  eexists. split; [exact Hjs|]. apply list_elem_of_fmap. exists b. split; [done|].
  apply list_elem_of_fmap. exists j. split; [|done]. unfold edge_at. by rewrite Hj.
Qed.

Lemma detect_exact m :
  fresh_graph m → unsigned_edges m → single_wait m →
  ∃ out, DetectDeadLock m = Some out ∧
    (∀ t, (∃ c, c ∈ out ∧ t ∈ tx_wait_ <$> c) ↔ tc (waits_edge m) t t) ∧
    (∀ c a b, c ∈ out → a ∈ tx_wait_ <$> c → b ∈ tx_wait_ <$> c → tc (waits_edge m) a b).
Proof.
  intros [Hs Hfresh] Hpos Hone.
  assert (∀ i e v, m !! i = Some (e, v) → v = -1)%Z as Hm1.
  { intros i e v Hi. rewrite Forall_forall in Hfresh.
    apply (Hfresh (e, v)). by eapply list_elem_of_lookup_2. }
  assert (∀ i, ¬ visited m i) as Hnv by (intros i (e & v & Hi & ?); apply Hm1 in Hi; lia).
  unfold DetectDeadLock.
  destruct (detect_rounds_total (seq 0 (length m)) 1 m [] ltac:(lia)) as (r & Hr & _).
  rewrite Hr. exists r.2. split; [done|].
  destruct (detect_rounds_inv (edges m) (single_wait_index m Hs Hone)
    (λ i j a b, edges_sorted_lookup m i j a b Hs)
    (λ i e H, Hpos e (list_elem_of_lookup_2 _ _ _ H))
    (seq 0 (length m)) 1 m [] r) as [Hinv Hall]; [lia|done|..|done|].
  - split; [by intros i j ?%Hnv|by intros i ?%Hnv|set_solver].
  - apply Forall_forall. intros i Hi%elem_of_seq. lia.
  - by intros i e v ->%Hm1.
  - apply (search_inv_exact m (visited r.1)); [|done..].
    intros i Hi. apply Hall. left. apply elem_of_seq. lia.
Qed.

(** C25: the deadlock search is exact when every waiting transaction waits for
    a single holder (all locks exclusive): it terminates, a transaction is part
    of a reported deadlock exactly when it waits, through a chain of other
    transactions, for itself, and the transactions of one report all wait for
    each other. *)
Theorem DetectDeadLock_exact (m : edge_map) :
  fresh_graph m → unsigned_edges m → single_wait m →
  ∃ out, DetectDeadLock m = Some out ∧
    (∀ t, (∃ c, c ∈ out ∧ t ∈ tx_wait_ <$> c) ↔ tc (waits_edge m) t t) ∧
    (∀ c a b, c ∈ out → a ∈ tx_wait_ <$> c → b ∈ tx_wait_ <$> c → tc (waits_edge m) a b).
Proof. apply detect_exact. Qed.

Definition two_cycles : edge_map :=
  [(mkEdge 1 2, -1); (mkEdge 2 1, -1); (mkEdge 3 1, -1); (mkEdge 4 5, -1);
   (mkEdge 5 6, -1); (mkEdge 6 4, -1)]%Z.

Lemma two_cycles_fresh : fresh_graph two_cycles.
Proof. split; [|by repeat constructor]. repeat constructor. Qed.

Lemma DetectDeadLock_exact_witness :
  ∃ out, DetectDeadLock two_cycles = Some out ∧ length out = 2 ∧
    tc (waits_edge two_cycles) 6%Z 5%Z.
Proof.
  destruct (DetectDeadLock_exact two_cycles) as (out & Hd & _ & Hc).
  - exact two_cycles_fresh.
  - intros e He. vm_compute in He. set_unfold. naive_solver lia.
  - intros a b Ha Hb. vm_compute in Ha, Hb. set_unfold. naive_solver lia.
  - exists out. split; [exact Hd|]. vm_compute in Hd. injection Hd as <-.
    split; [reflexivity|].
    apply (Hc [mkEdge 4 5; mkEdge 6 4; mkEdge 5 6]%Z); cbn; set_solver.
Defined.

Lemma detect_terminates m :
  ∃ out, DetectDeadLock m = Some out ∧
    ∀ c, c ∈ out → c ≠ [] ∧ ∀ e, e ∈ c → e ∈ edges m.
Proof.
  unfold DetectDeadLock.
  destruct (detect_rounds_total (seq 0 (length m)) 1 m [] ltac:(lia))
    as (r & -> & _ & new & Hn & Hf).
  exists r.2. split; [done|]. intros c Hc. rewrite Hn in Hc. cbn in Hc.
  rewrite Forall_forall in Hf. destruct (Hf c Hc) as [? Hall]. by rewrite Forall_forall in Hall.
Qed.

(**  on every wait-for graph the search terminates within its bound, and
    what it reports are non-empty lists of edges of the graph. *)
Theorem DetectDeadLock_terminates (m : edge_map) :
  ∃ out, DetectDeadLock m = Some out ∧
    ∀ c, c ∈ out → c ≠ [] ∧ ∀ e, e ∈ c → e ∈ edges m.
Proof. apply detect_terminates. Qed.

(** When a transaction waits for several holders the search is not exact.
    After the subtree of an edge is exhausted the loop resumes after the edge
    above it on the stack, not after the edge itself, so siblings are skipped
    and edges stay in [set_dup] or leave it too early. *)

(** A cycle 2 -> 3 -> 5 -> 2 that is not reported. *)
Definition missed_graph : edge_map :=
  [(mkEdge 1 2, -1); (mkEdge 2 3, -1); (mkEdge 3 4, -1); (mkEdge 3 5, -1);
   (mkEdge 5 2, -1)]%Z.

Lemma DetectDeadLock_misses_cycle :
  fresh_graph missed_graph ∧ tc (waits_edge missed_graph) 2%Z 2%Z ∧
  DetectDeadLock missed_graph = Some [].
Proof.
  split; [split; repeat constructor|]. split; [|by vm_compute].
  assert (∀ a b, mkEdge a b ∈ edges missed_graph → waits_edge missed_graph a b) as H by done.
  eapply tc_l; [apply (H 2 3)%Z; vm_compute; set_solver|].
  eapply tc_l; [apply (H 3 5)%Z; vm_compute; set_solver|].
  apply tc_once, H. vm_compute. set_solver.
Qed.

(** A graph without any cycle that is reported as a deadlock. *)
Definition acyclic_graph : edge_map :=
  [(mkEdge 1 2, -1); (mkEdge 2 3, -1); (mkEdge 2 5, -1); (mkEdge 3 7, -1);
   (mkEdge 5 3, -1)]%Z.

Lemma DetectDeadLock_false_alarm :
  fresh_graph acyclic_graph ∧ (∀ t, ¬ tc (waits_edge acyclic_graph) t t) ∧
  ∃ c, DetectDeadLock acyclic_graph = Some [c].
Proof.
  split; [split; repeat constructor|]. split; [|by vm_compute; eexists].
  (* the order 1, 2, 5, 3, 7 of the transactions rules a cycle out *)
  set (rank t := if decide (t = 1)%Z then 0 else if decide (t = 2)%Z then 1
                 else if decide (t = 5)%Z then 2 else if decide (t = 3)%Z then 3 else 4).
  assert (∀ a b, waits_edge acyclic_graph a b → rank a < rank b) as Hrank.
  { intros a b H. unfold waits_edge in H. vm_compute in H. set_unfold.
    destruct_or!; simplify_eq; vm_compute; lia. }
  assert (∀ a b, tc (waits_edge acyclic_graph) a b → rank a < rank b) as Htc.
  { induction 1 as [a b Hab|a b c Hab _ IH]; apply Hrank in Hab; lia. }
  intros t Ht%Htc. lia.
Qed.

(** ** The victim *)

(** [a] is a better victim than [b]: fewer locks, then the smaller number. *)
Definition better_victim (a b : Z * Z) : Prop := (a.2 < b.2)%Z ∨ (a.2 = b.2 ∧ (a.1 ≤ b.1)%Z).

Lemma victim_loop_spec d dead acc :
  Forall (λ e, ∃ n, txid_ety_count_map_ d !! tx_wait_ e = Some n) dead →
  let r := fold_left (victim_step d) dead acc in
  (r = acc ∨ ∃ e, e ∈ dead ∧ r.1 = tx_wait_ e ∧
     txid_ety_count_map_ d !! tx_wait_ e = Some r.2) ∧
  better_victim r acc ∧
  (∀ e n, e ∈ dead → txid_ety_count_map_ d !! tx_wait_ e = Some n →
     better_victim r (tx_wait_ e, n)).
Proof.
  intros Hall. revert acc. induction Hall as [|e dead [n Hn] Hall IH]; intros [t m]; cbn.
  { split; [by left|]. split; [right; cbn; lia|set_solver]. }
  rewrite Hn.
  set (acc1 := if decide (n < m)%Z then _ else _).
  assert ((acc1 = (t, m) ∨ (acc1.1 = tx_wait_ e ∧ acc1.2 = n)) ∧
          better_victim acc1 (t, m) ∧ better_victim acc1 (tx_wait_ e, n)) as (Hor & Hb1 & Hb2).
  { subst acc1. unfold better_victim. destruct (decide (n < m)%Z); cbn; [naive_solver lia|].
    destruct (bool_decide_reflect (n = m)) as [->|]; cbn; [|naive_solver lia].
    destruct (bool_decide_reflect (tx_wait_ e < t)%Z); cbn; naive_solver lia. }
  clearbody acc1. specialize (IH acc1). cbn in IH.
  set (r := fold_left _ dead acc1) in *. destruct IH as (Hr & Hbr & Hbd).
  assert (∀ x y z, better_victim x y → better_victim y z → better_victim x z) as Htr
    by (unfold better_victim; lia).
  split; [|split; [by eapply Htr|]].
  - destruct Hr as [->|(e' & He' & ? & ?)]; [|right; exists e'; set_solver].
    destruct Hor as [->|[E1 E2]]; [by left|right]. exists e. rewrite E1, E2. set_solver.
  - intros e' n' [->|He']%elem_of_cons Hn'; [|by apply Hbd].
    assert (n' = n) as -> by congruence. by eapply Htr.
Qed.

Lemma victim_spec d dead :
  dead ≠ [] →
  Forall (λ e, ∃ n, txid_ety_count_map_ d !! tx_wait_ e = Some n ∧ (n < UINT32_MAX)%Z) dead →
  ∃ e n, e ∈ dead ∧ victim d dead = tx_wait_ e ∧
    txid_ety_count_map_ d !! tx_wait_ e = Some n ∧
    (∀ e' n', e' ∈ dead → txid_ety_count_map_ d !! tx_wait_ e' = Some n' →
       better_victim (tx_wait_ e, n) (tx_wait_ e', n')).
Proof.
  intros Hne Hall.
  destruct (victim_loop_spec d dead (0, UINT32_MAX)%Z) as (Hr & _ & Hb).
  { eapply Forall_impl; [done|]. naive_solver. }
  unfold victim. set (r := fold_left _ _ _) in *.
  destruct Hr as [Hr|(e & He & Hr1 & Hr2)].
  - destruct dead as [|e dead]; [done|]. apply Forall_cons in Hall as [(n & Hn & Hlt) _].
    specialize (Hb e n ltac:(set_solver) Hn). rewrite Hr in Hb.
    unfold better_victim in Hb. cbn in Hb. lia.
  - exists e, r.2. split; [done|]. split; [done|]. split; [done|].
    intros e' n' He' Hn'. rewrite <-Hr1. specialize (Hb e' n' He' Hn'). by destruct r.
Qed.

(** ** Resolving *)

Section resolve.
Context (begin : gset Z → Z) (d : DeadLockCheck).
Context (Hok : maps_ok d).

Lemma waits_edge_graph a b : waits_edge (GenerateTxWaitGraph d) a b ↔ waits_for d a b.
Proof. apply (GenerateTxWaitGraph_spec d (mkEdge a b)). Qed.

Lemma tc_waits_graph a b :
  tc (waits_edge (GenerateTxWaitGraph d)) a b ↔ tc (waits_for d) a b.
Proof.
  split; intros Htc; (eapply (tc_congruence id); [|exact Htc]); intros x y; apply waits_edge_graph.
Qed.

(** The requests for one victim name every entry it waits for. *)
Lemma abort_victim_spec dead v :
  victim d dead = v → (∃ k, waits d v k) →
  ∃ msgs, abort_victim begin d dead = Some msgs ∧
    (∀ msg, msg ∈ msgs → ab_wait_tx msg = v ∧ waits d v (ab_node msg, ab_entry msg)) ∧
    (∀ k, waits d v k → ∃ msg, msg ∈ msgs ∧ ab_wait_tx msg = v ∧ (ab_node msg, ab_entry msg) = k).
Proof.
  intros Hv [k0 Hk0]. unfold abort_victim. rewrite Hv. unfold waits, waited in *.
  destruct (txid_waited_entry_map_ d !! v) as [s|] eqn:Hs; cbn in *; [|by destruct Hk0].
  assert (∀ l, (∀ p, p ∈ l → p ∈ map_to_list s) →
    ∃ msgs, mapM (abort_entry begin d v) l = Some msgs ∧
      Forall2 (λ p msg, ab_wait_tx msg = v ∧ (ab_node msg, ab_entry msg) = p.1) l msgs) as Hmap.
  { induction l as [|[[n a] c] l IH]; intros Hl; [by exists []|].
    destruct (Hok v (n, a)) as [hs Hhs].
    { unfold waits, waited. rewrite Hs. cbn. exists c. apply elem_of_map_to_list.
      apply Hl. set_solver. }
    assert (abort_entry begin d v (n, a, c) = Some (mkAbort a (begin hs) v n c)) as Hab
      by (unfold abort_entry; cbn [fst snd]; by rewrite Hhs).
    destruct IH as (msgs & Hm & Hf); [set_solver|]. cbn [mapM]. rewrite Hab, Hm.
    eexists. split; [done|]. by constructor. }
  destruct (Hmap (map_to_list s)) as (msgs & -> & Hf); [done|]. exists msgs.
  split; [done|]. split.
  - intros msg Hin. apply list_elem_of_lookup_1 in Hin as [i Hi].
    destruct (Forall2_lookup_r _ _ _ _ _ Hf Hi) as ([k c] & Hk & ? & E). split; [done|].
    cbn in E. rewrite E. exists c. apply elem_of_map_to_list. by eapply list_elem_of_lookup_2.
  - intros k [c Hc]. apply elem_of_map_to_list, list_elem_of_lookup_1 in Hc as [i Hi].
    destruct (Forall2_lookup_l _ _ _ _ _ Hf Hi) as (msg & Hmsg & ? & E). exists msg.
    split; [by eapply list_elem_of_lookup_2|]. by cbn in E.
Qed.

(** The choice of a victim for one reported deadlock. *)
Definition good_victim (c : list TxEdge) (v : Z) : Prop :=
  v = victim d c ∧ v ∈ tx_wait_ <$> c ∧ ∃ k, waits d v k.

Lemma RemoveDeadTransaction_spec out :
  Forall (λ c, ∃ v, good_victim c v) out →
  ∃ msgs, RemoveDeadTransaction begin d out = Some msgs ∧
    (∀ msg, msg ∈ msgs → ∃ c, c ∈ out ∧ good_victim c (ab_wait_tx msg) ∧
       waits d (ab_wait_tx msg) (ab_node msg, ab_entry msg)) ∧
    (∀ c v k, c ∈ out → good_victim c v → waits d v k →
       ∃ msg, msg ∈ msgs ∧ ab_wait_tx msg = v ∧ (ab_node msg, ab_entry msg) = k).
Proof.
  unfold RemoveDeadTransaction. induction 1 as [|c out (v & Hv & Hvc & Hvk) Hall IH].
  { exists []. split; [done|]. split; set_solver. }
  destruct (abort_victim_spec c v (eq_sym Hv) Hvk) as (m1 & Hm1 & Hs1 & Hc1).
  destruct IH as (m2 & Hm2 & Hs2 & Hc2). cbn. rewrite Hm1. cbn.
  destruct (mapM (abort_victim begin d) out) as [ms|]; [|done]. cbn in *.
  injection Hm2 as <-. exists (m1 ++ mjoin ms). split; [done|]. split.
  - intros msg [Hin|Hin]%elem_of_app.
    + destruct (Hs1 msg Hin) as [<- ?]. exists c. split; [set_solver|]. by split.
    + destruct (Hs2 msg Hin) as (c' & ? & ?). exists c'. set_solver.
  - intros c' v' k [->|Hc']%elem_of_cons Hv' Hk.
    + assert (v' = v) as -> by (destruct Hv' as [-> _]; by rewrite Hv).
      destruct (Hc1 k Hk) as (msg & ? & ?). exists msg. set_solver.
    + destruct (Hc2 c' v' k Hc' Hv' Hk) as (msg & ? & ?). exists msg. set_solver.
Qed.

Lemma good_victim_exists c :
  c ≠ [] →
  (∀ t, t ∈ tx_wait_ <$> c → tc (waits_for d) t t ∧
     ∃ n, txid_ety_count_map_ d !! t = Some n ∧ (n < UINT32_MAX)%Z) →
  ∃ v, good_victim c v.
Proof.
  intros Hne Hall. destruct (victim_spec d c Hne) as (e & n & He & Hv & _).
  { apply Forall_forall. intros e He. apply Hall. apply list_elem_of_fmap. eauto. }
  assert (tx_wait_ e ∈ tx_wait_ <$> c) as Hin by (apply list_elem_of_fmap; eauto).
  exists (tx_wait_ e). split; [done|]. split; [done|].
  destruct (Hall _ Hin) as [Htc _].
  assert (∃ b, waits_for d (tx_wait_ e) b) as (b & _ & k & ? & _) by (inversion Htc; eauto).
  eauto.
Qed.
End resolve.

(** C26: from the merged lock information to the aborts.  When every waiting
    transaction waits for one holder and the lock counts of deadlocked
    transactions are known, the detector completes; it aborts only
    transactions that are in a deadlock; and from every deadlock one
    transaction is aborted on every entry it waits for. *)
Theorem resolve_deadlocks_breaks (begin : gset Z → Z) (d : DeadLockCheck) :
  maps_ok d →
  (∀ a b c, waits_for d a b → waits_for d a c → b = c) →
  (∀ a b, waits_for d a b → 0 ≤ b)%Z →
  (∀ t, tc (waits_for d) t t →
     ∃ n, txid_ety_count_map_ d !! t = Some n ∧ (n < UINT32_MAX)%Z) →
  ∃ msgs, resolve_deadlocks begin d = Some msgs ∧
    (∀ msg, msg ∈ msgs → tc (waits_for d) (ab_wait_tx msg) (ab_wait_tx msg) ∧
       waits d (ab_wait_tx msg) (ab_node msg, ab_entry msg)) ∧
    (∀ t, tc (waits_for d) t t → ∃ v, tc (waits_for d) t v ∧ tc (waits_for d) v t ∧
       ∀ k, waits d v k →
         ∃ msg, msg ∈ msgs ∧ ab_wait_tx msg = v ∧ (ab_node msg, ab_entry msg) = k).
Proof.
  intros Hok Hone Hpos Hcnt. unfold resolve_deadlocks.
  set (g := GenerateTxWaitGraph d).
  assert (∀ e, e ∈ edges g ↔ waits_for d (tx_wait_ e) (tx_lock_ e)) as Hg
    by (intros e; apply GenerateTxWaitGraph_spec).
  destruct (detect_exact g) as (out & Hd & Hex & Hsame).
  { apply (GenerateTxWaitGraph_spec d (mkEdge 0 0)). }
  { intros e He%Hg. by eapply Hpos. }
  { intros [a b] [a' c] Hb%Hg Hc%Hg E. cbn in *. subst a'. f_equal. by eapply Hone. }
  assert (∀ a b, tc (waits_edge g) a b ↔ tc (waits_for d) a b) as Htc by apply tc_waits_graph.
  setoid_rewrite Htc in Hsame. setoid_rewrite Htc in Hex.
  rewrite Hd. cbn [mbind option_bind].
  assert (∀ c t, c ∈ out → t ∈ tx_wait_ <$> c → tc (waits_for d) t t) as Hcyc
    by (intros c t Hc Ht; apply Hex; eauto).
  assert (Forall (λ c, ∃ v, good_victim d c v) out) as Hgood.
  { apply Forall_forall. intros c Hc. apply good_victim_exists; [|by eauto].
    destruct (detect_terminates g) as (out' & Ho' & Hne). rewrite Hd in Ho'. simplify_eq.
    by apply Hne. }
  destruct (RemoveDeadTransaction_spec begin d Hok out Hgood) as (msgs & -> & Hs & Hc).
  exists msgs. split; [done|]. split.
  - intros msg (c & Hin & (_ & Hv & _) & Hw)%Hs. eauto.
  - intros t Ht. apply Hex in Ht as (c & Hin & Ht). rewrite Forall_forall in Hgood.
    destruct (Hgood c Hin) as (v & Hv). exists v. pose proof Hv as (_ & Hvc & _).
    split; [by eapply Hsame|]. split; [by eapply Hsame|]. intros k Hk. by eapply Hc.
Qed.

(** Two transactions that wait for each other on two nodes. *)
Definition no_locks : DeadLockCheck := mkDeadLockCheck ∅ ∅ ∅ ∅ 2 0 0 false.

Lemma no_locks_relations t k : ¬ waits no_locks t k ∧ ¬ holds no_locks t k.
Proof.
  split; [intros [? H]|intros H]; unfold waited, holds, holders in H; cbn in H.
  - by rewrite !lookup_empty in H.
  - rewrite lookup_empty in H. set_solver.
Qed.

Definition deadlock_12 : DeadLockCheck :=
  MergeRemoteWaitingLockInfo
    (MergeRemoteWaitingLockInfo no_locks
       (mkResponse 7 [mkBlockEntry 0 100 [1] [2]] [(1, 3)])%Z)
    (mkResponse 8 [mkBlockEntry 1 200 [2] [1]] [(2, 5)])%Z.

Lemma deadlock_12_waits t k :
  waits deadlock_12 t k ↔ (t = 2 ∧ k = (7, 100))%Z ∨ (t = 1 ∧ k = (8, 200))%Z.
Proof.
  unfold deadlock_12. rewrite (proj1 (MergeRemote_relations _ _ t k)).
  rewrite (proj1 (MergeRemote_relations _ _ t k)). cbn -[no_locks].
  destruct (no_locks_relations t k) as [Hw Hh]. split.
  - intros [[?|(? & ->%list_elem_of_singleton & Ht%list_elem_of_singleton & ->)]
           |(? & ->%list_elem_of_singleton & Ht%list_elem_of_singleton & ->)]; naive_solver.
  - intros [[-> ->]|[-> ->]]; [left|]; right;
      (eexists; split; [by apply list_elem_of_singleton|set_solver]).
Qed.

Lemma deadlock_12_holds t k :
  holds deadlock_12 t k ↔ (t = 1 ∧ k = (7, 100))%Z ∨ (t = 2 ∧ k = (8, 200))%Z.
Proof.
  unfold deadlock_12. rewrite (proj2 (MergeRemote_relations _ _ t k)).
  rewrite (proj2 (MergeRemote_relations _ _ t k)). cbn -[no_locks].
  destruct (no_locks_relations t k) as [Hw Hh]. split.
  - intros [[?|(? & ->%list_elem_of_singleton & Ht%list_elem_of_singleton & ->)]
           |(? & ->%list_elem_of_singleton & Ht%list_elem_of_singleton & ->)]; naive_solver.
  - intros [[-> ->]|[-> ->]]; [left|]; right;
      (eexists; split; [by apply list_elem_of_singleton|set_solver]).
Qed.

Lemma deadlock_12_waits_for a b :
  waits_for deadlock_12 a b ↔ (a = 1 ∧ b = 2)%Z ∨ (a = 2 ∧ b = 1)%Z.
Proof.
  unfold waits_for. setoid_rewrite deadlock_12_waits. setoid_rewrite deadlock_12_holds.
  split; [naive_solver|]. intros [[-> ->]|[-> ->]]; (split; [lia|]); naive_solver.
Qed.

Lemma resolve_deadlocks_breaks_witness :
  ∃ msgs, resolve_deadlocks (λ s, default 0%Z (head (elements s))) deadlock_12 = Some msgs ∧
    msgs = [mkAbort 200 2 1 8 1]%Z ∧ tc (waits_for deadlock_12) 1%Z 1%Z.
Proof.
  assert (tc (waits_for deadlock_12) 1%Z 1%Z) as H1.
  { eapply (tc_l _ _ 2%Z); [apply deadlock_12_waits_for; naive_solver|].
    apply tc_once, deadlock_12_waits_for. naive_solver. }
  destruct (resolve_deadlocks_breaks (λ s, default 0%Z (head (elements s))) deadlock_12)
    as (msgs & Hr & _ & _).
  - do 2 apply MergeRemote_ok. intros t k Hw. by destruct (no_locks_relations t k).
  - intros a b c. rewrite !deadlock_12_waits_for. naive_solver lia.
  - intros a b. rewrite deadlock_12_waits_for. naive_solver lia.
  - intros t Ht. assert (t = 1 ∨ t = 2)%Z as [-> | ->].
    + assert (∃ b, waits_for deadlock_12 t b) as [b Hb] by (inversion Ht; eauto).
      apply deadlock_12_waits_for in Hb. naive_solver.
    + exists 3%Z. split; [vm_compute; reflexivity|reflexivity].
    + exists 5%Z. split; [vm_compute; reflexivity|reflexivity].
  - exists msgs. split; [exact Hr|]. split; [|exact H1]. vm_compute in Hr. by injection Hr.
Defined.

(** ** Counting the answers *)

(** The nodes asked in this round that have not answered. *)
Definition unanswered (d : DeadLockCheck) : gmap Z bool :=
  filter (λ p, p.2 = false) (reply_map_ d).

Definition replies_ok (d : DeadLockCheck) : Prop :=
  node_unfinished_ d = Z.of_nat (size (unanswered d)).

Lemma merge_entries_replies node bes d :
  reply_map_ (fold_left (merge_entry node) bes d) = reply_map_ d ∧
  node_unfinished_ (fold_left (merge_entry node) bes d) = node_unfinished_ d.
Proof.
  revert d. induction bes as [|be bes IH]; intros d; cbn; [done|].
  by destruct (IH (merge_entry node d be)) as [-> ->].
Qed.

Lemma merge_counts_replies tes d :
  reply_map_ (fold_left merge_count tes d) = reply_map_ d ∧
  node_unfinished_ (fold_left merge_count tes d) = node_unfinished_ d.
Proof.
  revert d. induction tes as [|te tes IH]; intros d; cbn; [done|].
  by destruct (IH (merge_count d te)) as [-> ->].
Qed.

Lemma MergeRemote_replies d rsp :
  reply_map_ (MergeRemoteWaitingLockInfo d rsp) = <[rsp_node_id rsp := true]> (reply_map_ d) ∧
  node_unfinished_ (MergeRemoteWaitingLockInfo d rsp) = (node_unfinished_ d - 1)%Z.
Proof.
  unfold MergeRemoteWaitingLockInfo, note_reply; cbn.
  match goal with |- context [fold_left merge_count ?l ?x] =>
    destruct (merge_counts_replies l x) as [-> ->] end.
  by destruct (merge_entries_replies (rsp_node_id rsp) (rsp_block_entry rsp) d) as [-> ->].
Qed.

Lemma MergeRemote_replies_ok d rsp :
  replies_ok d → reply_map_ d !! rsp_node_id rsp = Some false →
  replies_ok (MergeRemoteWaitingLockInfo d rsp).
Proof.
  unfold replies_ok, unanswered. intros Hok Hn.
  destruct (MergeRemote_replies d rsp) as [-> ->]. rewrite Hok.
  set (n := rsp_node_id rsp) in *.
  assert (filter (λ p, p.2 = false) (reply_map_ d) !! n = Some false) as Hin
    by (by apply map_lookup_filter_Some).
  rewrite map_filter_insert_False by done. rewrite map_filter_delete, map_size_delete, Hin.
  assert (size (filter (λ p : Z * bool, p.2 = false) (reply_map_ d)) ≠ 0); [|lia].
  rewrite map_size_ne_0_lookup. by exists n; eexists.
Qed.

Lemma merge_all_replies rsps d :
  replies_ok d → NoDup (rsp_node_id <$> rsps) →
  (∀ rsp, rsp ∈ rsps → reply_map_ d !! rsp_node_id rsp = Some false) →
  replies_ok (fold_left MergeRemoteWaitingLockInfo rsps d) ∧
  ∀ n, unanswered (fold_left MergeRemoteWaitingLockInfo rsps d) !! n =
       (if decide (n ∈ rsp_node_id <$> rsps) then None else unanswered d !! n).
Proof.
  revert d. induction rsps as [|rsp rsps IH]; intros d Hok Hnd Hask; cbn.
  { split; [done|]. intros n. by rewrite decide_False by set_solver. }
  apply NoDup_cons in Hnd as [Hnotin Hnd].
  destruct (MergeRemote_replies d rsp) as [Hr _].
  destruct (IH (MergeRemoteWaitingLockInfo d rsp)) as [H1 H2].
  { apply MergeRemote_replies_ok; [done|]. apply Hask. set_solver. }
  { done. }
  { intros rsp' Hin. rewrite Hr, lookup_insert_ne; [apply Hask; set_solver|].
    intros E. apply Hnotin. rewrite E. by apply list_elem_of_fmap_2. }
  split; [done|]. intros n. rewrite H2. unfold unanswered. rewrite Hr.
  rewrite map_filter_insert_False by done. rewrite map_filter_delete.
  destruct (decide (n = rsp_node_id rsp)) as [->|Hne].
  - rewrite lookup_delete_eq. rewrite (decide_True (P := _ ∈ _ :: _)) by set_solver.
    by case_decide.
  - rewrite lookup_delete_ne by done.
    destruct (decide (n ∈ rsp_node_id <$> rsps)).
    + by rewrite decide_True by set_solver.
    + by rewrite decide_False by set_solver.
Qed.

Lemma gather_one_spec leader sent self acc ng :
  (∀ n b, acc.1 !! n = Some b → b = false) → length acc.2 = size acc.1 →
  let acc' := gather_one leader sent self acc ng in
  (∀ n b, acc'.1 !! n = Some b → b = false) ∧ length acc'.2 = size acc'.1 ∧
  (∀ n, is_Some (acc'.1 !! n) ↔
     is_Some (acc.1 !! n) ∨ (n = leader ng ∧ (n = self ∨ sent n = true))).
Proof.
  intros Hf Hl. unfold gather_one. destruct (acc.1 !! leader ng) eqn:E; [naive_solver|].
  assert (∀ msg, (∀ n b, <[leader ng:=false]> acc.1 !! n = Some b → b = false) ∧
    length (acc.2 ++ [msg]) = size (<[leader ng:=false]> acc.1) ∧
    ∀ n, is_Some (<[leader ng:=false]> acc.1 !! n) ↔ is_Some (acc.1 !! n) ∨ n = leader ng)
    as Hask.
  { intros msg. split; [|split].
    - intros n b [[<- <-]|[? ?]]%lookup_insert_Some; eauto.
    - rewrite length_app, map_size_insert, E. cbn. lia.
    - intros n. rewrite lookup_insert_is_Some. destruct (decide (leader ng = n)); naive_solver. }
  destruct (decide (leader ng = self)) as [Hs|Hs].
  { destruct (Hask AskLocal) as (? & ? & Hd). split; [done|]. split; [done|].
    intros n. cbn. rewrite Hd. split; [|tauto]. intros [?| ->]; auto. }
  destruct (sent (leader ng)) eqn:Es.
  - destruct (Hask (AskRemote (leader ng))) as (? & ? & Hd). split; [done|]. split; [done|].
    intros n. cbn. rewrite Hd. split; [|tauto]. intros [?| ->]; auto.
  - split; [done|]. split; [done|]. intros n. split; [by left|].
    intros [?|[-> [?|?]]]; congruence.
Qed.

Lemma gather_all_spec leader sent self ngs acc :
  (∀ n b, acc.1 !! n = Some b → b = false) → length acc.2 = size acc.1 →
  let acc' := fold_left (gather_one leader sent self) ngs acc in
  (∀ n b, acc'.1 !! n = Some b → b = false) ∧ length acc'.2 = size acc'.1 ∧
  (∀ n, is_Some (acc'.1 !! n) ↔
     is_Some (acc.1 !! n) ∨ (n ∈ leader <$> ngs ∧ (n = self ∨ sent n = true))).
Proof.
  revert acc. induction ngs as [|ng ngs IH]; intros acc Hf Hl; cbn.
  { split; [done|]. split; [done|]. set_solver. }
  destruct (gather_one_spec leader sent self acc ng Hf Hl) as (Hf1 & Hl1 & Hd1).
  destruct (IH (gather_one leader sent self acc ng) Hf1 Hl1) as (Hf2 & Hl2 & Hd2).
  split; [done|]. split; [done|]. intros n. rewrite Hd2, Hd1. set_solver.
Qed.

Definition asked (leader : Z → Z) (sent : Z → bool) (self : Z) (ngs : list Z) (n : Z) : Prop :=
  n ∈ leader <$> ngs ∧ (n = self ∨ sent n = true).

(**  a round waits for exactly the nodes it asked.  Each group leader is
    asked once, when it is this node or the send succeeded; and when every
    answer comes from a node of the round and no node answers twice, the
    count of unfinished nodes is the number of asked nodes that are still
    missing, so it reaches zero exactly when all have answered. *)
Theorem gather_waits_for_all (leader : Z → Z) (sent : Z → bool) (self clock_ts interval : Z)
    (ngs : list Z) (d d0 : DeadLockCheck) (msgs : list gather_msg)
    (rsps : list DeadLockResponse) :
  gather_start leader sent self clock_ts interval ngs d = (d0, msgs) →
  NoDup (rsp_node_id <$> rsps) →
  (∀ rsp, rsp ∈ rsps → asked leader sent self ngs (rsp_node_id rsp)) →
  Z.of_nat (length msgs) = node_unfinished_ d0 ∧
  (node_unfinished_ (fold_left MergeRemoteWaitingLockInfo rsps d0) = 0%Z ↔
   ∀ n, asked leader sent self ngs n → n ∈ rsp_node_id <$> rsps).
Proof.
  unfold gather_start.
  pose proof (gather_all_spec leader sent self ngs (∅, [])) as Hg.
  destruct (fold_left (gather_one leader sent self) ngs (∅, [])) as [replies msgs'].
  cbn in Hg. destruct Hg as (Hf & Hl & Hd); [by intros ? ? ?%lookup_empty_Some|by rewrite map_size_empty|].
  intros [= Hd0 ->] Hnd Hask.
  assert (reply_map_ d0 = replies ∧ node_unfinished_ d0 = Z.of_nat (size replies)) as [Er Eu]
    by (by rewrite <-Hd0).
  assert (∀ n, asked leader sent self ngs n ↔ unanswered d0 !! n = Some false) as Hasked.
  { intros n. unfold unanswered, asked. rewrite Er. rewrite map_lookup_filter_Some. cbn.
    specialize (Hd n). rewrite lookup_empty in Hd. split.
    - intros Hn. destruct (proj2 Hd (or_intror Hn)) as [b Hb]. by rewrite (Hf n b Hb) in Hb.
    - intros [Hn _]. destruct (proj1 Hd) as [[? ?]|?]; [by eexists|done|done]. }
  assert (replies_ok d0) as Hok.
  { unfold replies_ok, unanswered. rewrite Er, Eu. f_equal. symmetry. f_equal.
    apply map_filter_id. intros n b Hb. by apply (Hf n). }
  destruct (merge_all_replies rsps d0 Hok Hnd) as [Hr Hu].
  { intros rsp Hin%Hask%Hasked. by apply map_lookup_filter_Some in Hin as [? _]. }
  split; [rewrite Eu; cbn; lia|]. rewrite Hr. setoid_rewrite Hasked.
  split.
  - intros H0 n Hn. assert (size (unanswered (fold_left MergeRemoteWaitingLockInfo rsps d0)) = 0)
      as Hz%map_size_empty_iff by lia.
    specialize (Hu n). rewrite Hz, lookup_empty in Hu. case_decide; [done|congruence].
  - intros Hall. assert (unanswered (fold_left MergeRemoteWaitingLockInfo rsps d0) = ∅) as ->;
      [|by rewrite map_size_empty].
    apply map_empty. intros n. rewrite Hu. case_decide; [done|].
    destruct (unanswered d0 !! n) as [b|] eqn:E; [|done].
    pose proof E as [_ Hb]%map_lookup_filter_Some. cbn in Hb. subst b. by apply Hall in E.
Qed.

Lemma gather_waits_for_all_witness :
  node_unfinished_ (fold_left MergeRemoteWaitingLockInfo
    [mkResponse 2 [] []; mkResponse 1 [] []]%Z
    (gather_start id (λ _, true) 1 0 0 [1; 2]%Z no_locks).1) = 0%Z.
Proof.
  eapply (gather_waits_for_all id (λ _, true) 1 0 0 [1; 2]%Z no_locks).
  - reflexivity.
  - cbn. apply NoDup_ListNoDup. repeat constructor; set_solver.
  - intros rsp Hin. unfold asked. set_solver.
  - intros n [Hn _]. set_solver.
Defined.

(** The answers carry no round number.  A late answer of an earlier round counts
    as an answer of this one: here node 1 answers twice and the round completes
    without the answer of node 2. *)
Lemma stale_answer_ends_round :
  let d := fold_left MergeRemoteWaitingLockInfo [mkResponse 1 [] []; mkResponse 1 [] []]%Z
             (gather_start id (λ _, true) 0 0 0 [1; 2]%Z no_locks).1 in
  node_unfinished_ d = 0%Z ∧ reply_map_ d !! 2%Z = Some false.
Proof. by vm_compute. Qed.
