(* ===== verification/CcEntry.v ===== *)
(** * Concurrency-control entries ([CcEntry])

    A cc entry caches the newest committed version of one key, and, for
    multi-versioned tables, the history that running snapshots may still read.
    Source: [include/cc/cc_entry.h] and [src/cc/cc_entry.cpp].

    The first part is the packed word [commit_ts_and_status_]: the commit
    timestamp in the upper 7 bytes, the record status in bits 0-3, the flushed
    bit (4) and the being-checkpointed bit (5).  The second part is the version
    list and its operations; the third is the export to the checkpointer.

    A payload is a value: [SetCurrentPayload] overwrites a shared payload only
    when nobody else holds it and allocates a new one otherwise, so a version
    handed out earlier never changes.  A moved-from [shared_ptr] is null. *)

From S2P Require Import Prelude CcProtocol.
From stdpp Require Import sorting.

(** ** The packed word *)

(** The values of the [RecordStatus] enum. *)
Definition status_code (s : RecordStatus) : Z :=
  match s with
  | Normal => 0 | Unknown => 1 | Deleted => 2 | RemoteUnknown => 3
  | VersionUnknown => 4 | BaseVersionMiss => 5 | ArchiveVersionMiss => 6
  | Invalid => 7 | NonExistent => 8 | Uncreated => 9
  end.

(** [static_cast<RecordStatus>]; the entry never stores another value. *)
Definition status_of_code (z : Z) : RecordStatus :=
  match z with
  | 0 => Normal | 1 => Unknown | 2 => Deleted | 3 => RemoteUnknown
  | 4 => VersionUnknown | 5 => BaseVersionMiss | 6 => ArchiveVersionMiss
  | 7 => Invalid | 8 => NonExistent | _ => Uncreated
  end%Z.

(** [VersionRecord]. *)
Record VersionRecord (V : Type) := mkVersion {
  payload_ : option V;
  commit_ts_ : Z;
  payload_status_ : RecordStatus;
}.
Arguments mkVersion {_}.
Arguments payload_ {_}.
Arguments commit_ts_ {_}.
Arguments payload_status_ {_}.

Definition INT32_MAX : Z := 2147483647.

(** A versioned entry carries [VersionedEntryInfo] and an archive list; a
    non-versioned one uses only the word and the current payload. *)
Record CcEntry (V : Type) := mkCce {
  commit_ts_and_status_ : Z;
  data_store_size_ : Z;
  ckpt_ts_ : Z;
  cur_payload_ : option V;
  archives_ : option (list (VersionRecord V));
}.
Arguments mkCce {_}.
Arguments commit_ts_and_status_ {_}.
Arguments data_store_size_ {_}.
Arguments ckpt_ts_ {_}.
Arguments cur_payload_ {_}.
Arguments archives_ {_}.

Section entry.
Context {V : Type}.
Implicit Types (e : CcEntry V) (v : VersionRecord V).

Definition set_word e (w : Z) : CcEntry V :=
  mkCce w (data_store_size_ e) (ckpt_ts_ e) (cur_payload_ e) (archives_ e).
Definition set_ckpt e (ts : Z) : CcEntry V :=
  mkCce (commit_ts_and_status_ e) (data_store_size_ e) ts (cur_payload_ e) (archives_ e).
Definition set_payload e (p : option V) : CcEntry V :=
  mkCce (commit_ts_and_status_ e) (data_store_size_ e) (ckpt_ts_ e) p (archives_ e).
Definition set_archives e (a : option (list (VersionRecord V))) : CcEntry V :=
  mkCce (commit_ts_and_status_ e) (data_store_size_ e) (ckpt_ts_ e) (cur_payload_ e) a.
Definition set_store_size e (n : Z) : CcEntry V :=
  mkCce (commit_ts_and_status_ e) n (ckpt_ts_ e) (cur_payload_ e) (archives_ e).

(** The constructor: timestamp 0, status unknown. *)
Definition CcEntry_new : CcEntry V :=
  mkCce (Z.lor (Z.shiftl 0 8) (status_code Unknown)) INT32_MAX 0 None None.

Definition CommitTs e : Z := Z.shiftr (commit_ts_and_status_ e) 8.

Definition PayloadStatus e : RecordStatus :=
  status_of_code (Z.land (commit_ts_and_status_ e) 15).

(** [versioned] is the template argument, [skip_kv] the global
    [txservice_skip_kv]. *)
Definition SetCommitTsPayloadStatus (versioned skip_kv : bool) e (ts : Z)
    (status : RecordStatus) : CcEntry V :=
  let curr_ts := Z.shiftr (commit_ts_and_status_ e) 8 in
  let e1 :=
    if decide (curr_ts < ts)%Z
    then set_word e (Z.lor (u64 (Z.shiftl ts 8)) (status_code status)) else e in
  if negb versioned && skip_kv && bool_decide (status = Deleted)
  then set_word e1 (Z.lor (commit_ts_and_status_ e1) 16) else e1.

Definition SetCkptTs (versioned : bool) e (ts : Z) : CcEntry V :=
  if versioned then
    if decide (ckpt_ts_ e <= ts)%Z then set_ckpt e ts else e
  else
    let curr_val := commit_ts_and_status_ e in
    if decide (Z.shiftr curr_val 8 <= ts)%Z then set_word e (Z.lor curr_val 16) else e.

(** [standby_shared]: this node is a standby over shared storage. *)
Definition IsPersistent (versioned standby_shared : bool) e : bool :=
  if standby_shared then true
  else if versioned then bool_decide (CommitTs e <= ckpt_ts_ e)%Z
  else bool_decide (Z.land (commit_ts_and_status_ e) 16 ≠ 0%Z).

(** [no_lock]: [cc_lock_and_extra_ == nullptr]. *)
Definition IsFree (versioned standby_shared no_lock : bool) e : bool :=
  no_lock && IsPersistent versioned standby_shared e.

Definition NeedCkpt (versioned standby_shared : bool) e : bool :=
  negb (IsPersistent versioned standby_shared e) &&
  (bool_decide (PayloadStatus e = Normal) || bool_decide (PayloadStatus e = Deleted)).

Definition SetBeingCkpt e : CcEntry V := set_word e (Z.lor (commit_ts_and_status_ e) 32).

Definition ClearBeingCkpt e : CcEntry V :=
  set_word e (Z.land (commit_ts_and_status_ e) (Z.land UINT64_MAX (Z.lxor UINT64_MAX (Z.shiftl 1 5)))).

Definition GetBeingCkpt e : bool :=
  bool_decide (Z.land (commit_ts_and_status_ e) 32 ≠ 0%Z).

(** ** Versions *)

(** [ArchiveBeforeUpdate]: the current version moves to the front of the
    archives. *)
Definition ArchiveBeforeUpdate e : CcEntry V :=
  let rec_status := PayloadStatus e in
  if decide (rec_status = Unknown) then e
  else
    let archives := default [] (archives_ e) in
    set_archives (set_payload e None)
      (Some (mkVersion (cur_payload_ e) (CommitTs e) rec_status :: archives)).

(** The position of the first archive that is not newer than [ts]. *)
Fixpoint skip_newer (ts : Z) (l : list (VersionRecord V)) : list (VersionRecord V) * list (VersionRecord V) :=
  match l with
  | [] => ([], [])
  | v :: l' =>
      if decide (commit_ts_ v <= ts)%Z then ([], l)
      else let '(a, b) := skip_newer ts l' in (v :: a, b)
  end.

(** The second loop of [AddArchiveRecords], from the iterator on. *)
Fixpoint insert_versions (v_recs l : list (VersionRecord V)) : list (VersionRecord V) :=
  match v_recs with
  | [] => l
  | vrec :: v_recs =>
      match l with
      | v :: l' =>
          if decide (commit_ts_ v = commit_ts_ vrec) then v :: insert_versions v_recs l'
          else vrec :: insert_versions v_recs l
      | [] => vrec :: insert_versions v_recs []
      end
  end.

Definition AddArchiveRecords e (v_recs : list (VersionRecord V)) : CcEntry V :=
  match v_recs with
  | [] => e
  | v0 :: _ =>
      let '(newer, rest) := skip_newer (commit_ts_ v0) (default [] (archives_ e)) in
      set_archives e (Some (newer ++ insert_versions v_recs rest))
  end.

Definition AddArchiveRecord e (payload : option V) (status : RecordStatus) (commit_ts : Z)
    : CcEntry V :=
  if bool_decide (commit_ts = 1%Z) && bool_decide (status = Deleted) then e
  else
    let '(newer, rest) := skip_newer commit_ts (default [] (archives_ e)) in
    let fresh := mkVersion payload commit_ts status in
    set_archives e (Some (newer ++
      match rest with
      | [] => [fresh]
      | v :: _ => if decide (commit_ts_ v < commit_ts)%Z then fresh :: rest else rest
      end)).

Definition KickOutArchiveRecords e (oldest_active_tx_ts : Z) : CcEntry V :=
  match archives_ e with
  | None => e
  | Some archives =>
      if decide (CommitTs e <= oldest_active_tx_ts)%Z then set_archives e None
      else if decide (length archives <= 1) then e
      else
        let '(newer, rest) := skip_newer oldest_active_tx_ts archives in
        match rest with
        | [] => e
        | v :: _ => set_archives e (Some (newer ++ [v]))
        end
  end.

(** The result of a snapshot read ([VersionResultRecord]). *)
Record VersionResultRecord := mkResultRecord {
  res_payload : option V;
  res_status : RecordStatus;
  res_commit_ts : Z;
}.

(** The loop over the archives. *)
Fixpoint mvcc_find (ts : Z) (l : list (VersionRecord V)) : option (VersionRecord V) :=
  match l with
  | [] => None
  | v :: l => if decide (commit_ts_ v <= ts)%Z then Some v else mvcc_find ts l
  end.

Definition version_result (rec : VersionResultRecord) v : VersionResultRecord :=
  mkResultRecord
    (if decide (payload_status_ v = Normal) then payload_ v else res_payload rec)
    (payload_status_ v) (commit_ts_ v).

(** The record and the shard's [last_read_ts] afterwards. *)
Definition MvccGet e (ts last_read_ts : Z) (rec : VersionResultRecord)
    : VersionResultRecord * Z :=
  let commit_ts := CommitTs e in
  let rec_status := PayloadStatus e in
  if decide (rec_status = Unknown) then
    (mkResultRecord (res_payload rec) Unknown commit_ts, last_read_ts)
  else if decide (commit_ts <= ts)%Z then
    (version_result rec (mkVersion (cur_payload_ e) commit_ts rec_status), Z.max ts last_read_ts)
  else
    match mvcc_find ts (default [] (archives_ e)) with
    | Some v => (version_result rec v, last_read_ts)
    | None =>
        let status :=
          if decide (ckpt_ts_ e = 0%Z) then VersionUnknown
          else if decide (ckpt_ts_ e <= ts)%Z then BaseVersionMiss
          else ArchiveVersionMiss in
        (mkResultRecord (res_payload rec) status 1, last_read_ts)
    end.

Definition HasVisibleVersion e (read_ts : Z) : bool :=
  if decide (CommitTs e <= read_ts)%Z then true
  else
    match last (default [] (archives_ e)) with
    | Some v => bool_decide (commit_ts_ v <= read_ts)%Z
    | None => false
    end.

Definition ArchiveRecordsCount e : nat := length (default [] (archives_ e)).
Definition ClearArchives e : CcEntry V := set_archives e None.

(** [SliceDataItem] of a versioned table. *)
Record SliceDataItem := mkSliceItem {
  item_record : option V;
  item_version_ts : Z;
  item_is_deleted : bool;
}.

Definition item_status (item : SliceDataItem) : RecordStatus :=
  if item_is_deleted item then Deleted else Normal.

(** [UpdateCcEntry] for [VersionedRecord = true]; [item_size] is the size of key
    and record in the data store. *)
Definition UpdateCcEntry_versioned (enable_mvcc : bool) (item_size : Z) e
    (item : SliceDataItem) : CcEntry V :=
  let e0 :=
    if decide (data_store_size_ e = INT32_MAX)
    then set_store_size e (if item_is_deleted item then 0 else item_size) else e in
  let cce_version := CommitTs e0 in
  let e1 :=
    if decide (cce_version < item_version_ts item)%Z then
      let e' := set_payload e0 (if item_is_deleted item then None else item_record item) in
      SetCommitTsPayloadStatus true false e' (item_version_ts item) (item_status item)
    else e0 in
  if bool_decide (1 < cce_version)%Z && bool_decide (item_version_ts item < cce_version)%Z &&
     enable_mvcc
  then AddArchiveRecord e1 (item_record item) (item_status item) (item_version_ts item)
  else SetCkptTs true e1 (item_version_ts item).
End entry.

Arguments VersionResultRecord : clear implicits.
Arguments SliceDataItem : clear implicits.

(** ** The packed word: lemmas *)

(** Timestamps fit in the upper 7 bytes. *)
Definition is_ts (ts : Z) : Prop := (0 ≤ ts < 2 ^ 56)%Z.

Lemma status_code_range s : (0 ≤ status_code s < 16)%Z.
Proof. destruct s; cbn; lia. Qed.

Lemma status_of_code_code s : status_of_code (status_code s) = s.
Proof. by destruct s. Qed.

Lemma pack_ts ts c :
  is_ts ts → (0 ≤ c < 256)%Z → Z.shiftr (Z.lor (u64 (Z.shiftl ts 8)) c) 8 = ts.
Proof.
  intros Hts Hc. unfold u64, is_ts in *. rewrite Z.shiftl_mul_pow2 by lia.
  rewrite Z.mod_small by lia. rewrite <-Z.shiftl_mul_pow2, Z.shiftr_lor by lia.
  rewrite Z.shiftr_shiftl_l by lia. rewrite (Z.shiftr_div_pow2 c), (Z.div_small c) by lia.
  by rewrite Z.lor_0_r, Z.shiftl_0_r.
Qed.

(** Bits below 8 of a packed word come from the low byte. *)
Lemma pack_low ts c k :
  is_ts ts → (0 ≤ k < 256)%Z → Z.land (Z.lor (u64 (Z.shiftl ts 8)) c) k = Z.land c k.
Proof.
  intros Hts Hk. unfold u64, is_ts in *. rewrite Z.shiftl_mul_pow2 by lia.
  rewrite Z.mod_small by lia. rewrite Z.land_lor_distr_l.
  replace (Z.land (ts * 2 ^ 8) k) with 0%Z; [done|].
  rewrite <-(Z.mod_small k (2 ^ 8)) by lia. rewrite <-Z.land_ones by lia.
  rewrite (Z.land_comm k), Z.land_assoc, Z.land_ones by lia.
  by rewrite Z.mod_mul by lia.
Qed.

Section word.
Context {V : Type}.
Implicit Types (e : CcEntry V).

Definition flushed_bit e : bool := bool_decide (Z.land (commit_ts_and_status_ e) 16 ≠ 0%Z).

(** Setting one of the flag bits touches neither timestamp nor status. *)
Lemma set_flag_ts e k :
  k = 16%Z ∨ k = 32%Z → CommitTs (set_word e (Z.lor (commit_ts_and_status_ e) k)) = CommitTs e.
Proof.
  unfold CommitTs; cbn. rewrite Z.shiftr_lor. intros [-> | ->]; cbn; by rewrite Z.lor_0_r.
Qed.

Lemma set_flag_status e k :
  k = 16%Z ∨ k = 32%Z →
  PayloadStatus (set_word e (Z.lor (commit_ts_and_status_ e) k)) = PayloadStatus e.
Proof.
  unfold PayloadStatus; cbn. rewrite Z.land_lor_distr_l.
  intros [-> | ->]; cbn; by rewrite Z.lor_0_r.
Qed.

Lemma lor_land_self w k : (0 < k)%Z → Z.land (Z.lor w k) k ≠ 0%Z.
Proof.
  intros Hk. rewrite Z.land_lor_distr_l, Z.land_diag. intros H%Z.lor_eq_0_iff. lia.
Qed.

Lemma SetCommitTs_CommitTs versioned skip_kv e ts s :
  is_ts ts → CommitTs (SetCommitTsPayloadStatus versioned skip_kv e ts s) = Z.max (CommitTs e) ts.
Proof.
  intros Hts. unfold SetCommitTsPayloadStatus.
  set (e1 := if decide _ then _ else _).
  assert (CommitTs e1 = Z.max (CommitTs e) ts) as He1.
  { subst e1. fold (CommitTs e). destruct (decide (CommitTs e < ts)%Z); [|lia].
    unfold CommitTs at 1; cbn. rewrite pack_ts; [lia|done|]. pose proof (status_code_range s). lia. }
  destruct (_ && _); [|done]. by rewrite set_flag_ts by auto.
Qed.

Lemma SetCommitTs_newer versioned skip_kv e ts s :
  is_ts ts → (CommitTs e < ts)%Z →
  let e' := SetCommitTsPayloadStatus versioned skip_kv e ts s in
  PayloadStatus e' = s ∧ GetBeingCkpt e' = false ∧
  flushed_bit e' = (negb versioned && skip_kv && bool_decide (s = Deleted)).
Proof.
  intros Hts Hlt. unfold SetCommitTsPayloadStatus. fold (CommitTs e).
  rewrite decide_True by done. pose proof (status_code_range s) as Hc.
  set (e1 := set_word e _).
  assert (∀ k, (0 ≤ k < 256)%Z →
    Z.land (commit_ts_and_status_ e1) k = Z.land (status_code s) k) as Hlow
    by (intros; by apply pack_low).
  assert (PayloadStatus e1 = s) as Hs.
  { unfold PayloadStatus. rewrite Hlow by lia. change 15%Z with (Z.ones 4).
    rewrite Z.land_ones, Z.mod_small by (cbn; lia). apply status_of_code_code. }
  assert (Z.land (commit_ts_and_status_ e1) 32 = 0%Z ∧
          Z.land (commit_ts_and_status_ e1) 16 = 0%Z) as [H32 H16]
    by (rewrite !Hlow by lia; by destruct s).
  clearbody e1.
  destruct (negb versioned && skip_kv && bool_decide (s = Deleted)) eqn:E; cbn.
  - split; [by rewrite set_flag_status by auto|]. unfold GetBeingCkpt, flushed_bit; cbn.
    rewrite Z.land_lor_distr_l, H32. split; [done|].
    by apply bool_decide_eq_true, lor_land_self.
  - split; [done|]. unfold GetBeingCkpt, flushed_bit. by rewrite H32, H16.
Qed.

Lemma SetCommitTs_older versioned e ts s :
  (ts ≤ CommitTs e)%Z → SetCommitTsPayloadStatus versioned false e ts s = e.
Proof.
  intros Hle. unfold SetCommitTsPayloadStatus. fold (CommitTs e).
  rewrite decide_False by lia. by rewrite andb_false_r.
Qed.

Lemma SetCommitTs_other versioned skip_kv e ts s :
  let e' := SetCommitTsPayloadStatus versioned skip_kv e ts s in
  archives_ e' = archives_ e ∧ cur_payload_ e' = cur_payload_ e ∧ ckpt_ts_ e' = ckpt_ts_ e.
Proof. unfold SetCommitTsPayloadStatus. destruct (decide _), (_ && _); done. Qed.

Lemma ClearBeingCkpt_word e :
  is_u64 (commit_ts_and_status_ e) →
  commit_ts_and_status_ (ClearBeingCkpt e) = Z.ldiff (commit_ts_and_status_ e) 32.
Proof.
  intros Hw. unfold ClearBeingCkpt; cbn [commit_ts_and_status_ set_word].
  set (w := commit_ts_and_status_ e) in *. apply Z.bits_inj'. intros n Hn.
  rewrite Z.ldiff_spec, Z.land_spec.
  change (Z.land UINT64_MAX (Z.lxor UINT64_MAX (Z.shiftl 1 5))) with (Z.lxor (Z.ones 64) 32).
  rewrite Z.lxor_spec. destruct (decide (n < 64)%Z).
  - rewrite Z.ones_spec_low by lia. by destruct (Z.testbit w n), (Z.testbit 32 n).
  - assert (Z.testbit w n = false) as ->; [|done]. unfold is_u64 in Hw.
    destruct (decide (w = 0)%Z) as [->|]; [apply Z.bits_0|].
    apply Z.bits_above_log2; [lia|]. apply Z.log2_lt_pow2; [lia|].
    apply Z.lt_le_trans with (2 ^ 64)%Z; [lia|]. apply Z.pow_le_mono_r; lia.
Qed.

Lemma ClearBeingCkpt_u64 e :
  is_u64 (commit_ts_and_status_ e) → is_u64 (commit_ts_and_status_ (ClearBeingCkpt e)).
Proof.
  intros Hw. by apply land_u64.
Qed.

Lemma ClearBeingCkpt_spec e :
  is_u64 (commit_ts_and_status_ e) →
  CommitTs (ClearBeingCkpt e) = CommitTs e ∧ PayloadStatus (ClearBeingCkpt e) = PayloadStatus e ∧
  flushed_bit (ClearBeingCkpt e) = flushed_bit e ∧ GetBeingCkpt (ClearBeingCkpt e) = false.
Proof.
  intros Hw. pose proof (ClearBeingCkpt_word e Hw) as Hword.
  unfold CommitTs, PayloadStatus, flushed_bit, GetBeingCkpt. rewrite Hword.
  rewrite Z.shiftr_ldiff. cbn [Z.shiftr Z.shiftl].
  assert (∀ k, Z.land (Z.ldiff (commit_ts_and_status_ e) 32) k =
               Z.land (commit_ts_and_status_ e) (Z.ldiff k 32)) as Hl.
  { intros k. apply Z.bits_inj'. intros n Hn. rewrite !Z.land_spec, !Z.ldiff_spec.
    by destruct (Z.testbit (commit_ts_and_status_ e) n), (Z.testbit 32 n), (Z.testbit k n). }
  rewrite !Hl. cbn. rewrite Z.ldiff_0_r, Z.land_0_r. done.
Qed.
End word.

(** ** An evictable entry has been flushed *)

(** The calls that change the word, with the newest timestamp up to which the
    entry's versions have been reported flushed. *)
Inductive word_step {V} (versioned : bool) : CcEntry V * Z → CcEntry V * Z → Prop :=
  | wstep_commit e fl ts s :
      is_ts ts → word_step versioned (e, fl) (SetCommitTsPayloadStatus versioned false e ts s, fl)
  | wstep_ckpt e fl ts :
      word_step versioned (e, fl) (SetCkptTs versioned e ts, Z.max fl ts)
  | wstep_being e fl : word_step versioned (e, fl) (SetBeingCkpt e, fl)
  | wstep_clear e fl : word_step versioned (e, fl) (ClearBeingCkpt e, fl)
  | wstep_payload e fl p a : word_step versioned (e, fl) (set_archives (set_payload e p) a, fl).

Section evict.
Context {V : Type} (versioned : bool).
Implicit Types (e : CcEntry V).

Definition flush_inv (s : CcEntry V * Z) : Prop :=
  let '(e, fl) := s in
  is_u64 (commit_ts_and_status_ e) ∧
  (if versioned then ckpt_ts_ e ≤ fl else flushed_bit e = true → CommitTs e ≤ fl)%Z.

Lemma commit_u64 skip_kv e ts s :
  is_u64 (commit_ts_and_status_ e) →
  is_u64 (commit_ts_and_status_ (SetCommitTsPayloadStatus versioned skip_kv e ts s)).
Proof.
  intros Hw. unfold SetCommitTsPayloadStatus.
  set (e1 := if decide _ then _ else _).
  assert (is_u64 (commit_ts_and_status_ e1)).
  { subst e1. case_decide; [|done]. cbn. apply lor_u64; [apply Z.mod_pos_bound; lia|].
    pose proof (status_code_range s). unfold is_u64. lia. }
  clearbody e1. destruct (_ && _); [|done]. cbn. apply lor_u64; [done|]. unfold is_u64. lia.
Qed.

Lemma flush_inv_step s s' : word_step versioned s s' → flush_inv s → flush_inv s'.
Proof.
  intros Hstep. destruct Hstep as [e fl ts s Hts|e fl ts|e fl|e fl|e fl p a];
    intros [Hw Hinv]; unfold flush_inv, SetBeingCkpt.
  - split; [by apply commit_u64|]. destruct versioned.
    + by rewrite (proj2 (proj2 (SetCommitTs_other true false e ts s))).
    + destruct (decide (CommitTs e < ts)%Z) as [Hlt|].
      * pose proof (SetCommitTs_newer false false e ts s Hts Hlt) as (_ & _ & ->). done.
      * rewrite SetCommitTs_older by lia. done.
  - unfold SetCkptTs. destruct versioned.
    + split; [by case_decide|]. case_decide; cbn; lia.
    + fold (CommitTs e). destruct (decide (CommitTs e ≤ ts)%Z).
      * split; [apply lor_u64; [done|unfold is_u64; lia]|]. intros _.
        rewrite set_flag_ts by auto. lia.
      * split; [done|]. intros Hf%Hinv. lia.
  - split; [apply lor_u64; [done|unfold is_u64; lia]|]. destruct versioned; [done|].
    rewrite set_flag_ts by auto. intros Hf. apply Hinv. revert Hf.
    unfold flushed_bit; cbn. rewrite Z.land_lor_distr_l. cbn. by rewrite Z.lor_0_r.
  - split; [by apply ClearBeingCkpt_u64|]. destruct (ClearBeingCkpt_spec e Hw) as (-> & _ & -> & _).
    by destruct versioned.
  - by split.
Qed.
End evict.

(**  the cache never drops an unflushed version.  However commits,
    checkpoints and the checkpoint marks interleave, an entry that [IsFree]
    lets the cache evict has no newer version than the newest one reported
    flushed, in the versioned layout (checkpoint timestamp) as in the packed
    one (flushed bit). *)
Theorem evictable_entry_flushed {V} (versioned no_lock : bool) (e : CcEntry V) (fl : Z) :
  rtc (word_step versioned) (CcEntry_new, 0%Z) (e, fl) →
  IsFree versioned false no_lock e = true → (CommitTs e ≤ fl)%Z.
Proof.
  intros Hsteps Hfree.
  assert (flush_inv versioned (e, fl)) as [_ Hinv].
  { assert (flush_inv versioned (@CcEntry_new V, 0%Z)) as Hinit.
    { split; [vm_compute; by split|]. destruct versioned; cbn; [lia|]. by intros ?. }
    remember (@CcEntry_new V, 0%Z) as s0. clear Heqs0.
    induction Hsteps as [|s1 s2 s3 Hs _ IH]; [done|]. by apply IH, (flush_inv_step _ s1). }
  unfold IsFree, IsPersistent in Hfree. destruct no_lock; [|done]. cbn in Hfree.
  destruct versioned; [|by apply Hinv]. bool_to_prop. lia.
Qed.

Lemma evictable_entry_flushed_witness :
  let e := SetCkptTs false (SetCommitTsPayloadStatus false false (@CcEntry_new Z) 42 Normal) 50 in
  IsFree false false true e = true ∧ (CommitTs e ≤ 50)%Z.
Proof.
  split; [vm_compute; reflexivity|].
  apply (evictable_entry_flushed false true _ 50%Z); [|vm_compute; reflexivity].
  eapply rtc_l; [apply (wstep_commit _ _ _ 42%Z Normal); unfold is_ts; lia|].
  eapply rtc_l; [apply (wstep_ckpt _ _ _ 50%Z)|]. apply rtc_refl.
Defined.

(** ** Snapshot reads *)

Section mvcc.
Context {V : Type}.
Implicit Types (e : CcEntry V) (v : VersionRecord V) (l : list (VersionRecord V)).

Definition cur_version e : VersionRecord V :=
  mkVersion (cur_payload_ e) (CommitTs e) (PayloadStatus e).

(** All versions in memory, newest first. *)
Definition versions e : list (VersionRecord V) :=
  (if decide (PayloadStatus e = Unknown) then [] else [cur_version e]) ++
  default [] (archives_ e).

Definition descending l : Prop := StronglySorted (λ a b, commit_ts_ b < commit_ts_ a)%Z l.

(** Versions are in strictly descending order of their commit timestamps. *)
Definition mvcc_wf e : Prop := descending (versions e).

Lemma descending_app l1 l2 :
  descending (l1 ++ l2) ↔ descending l1 ∧ descending l2 ∧
    ∀ a b, a ∈ l1 → b ∈ l2 → (commit_ts_ b < commit_ts_ a)%Z.
Proof.
  unfold descending. induction l1 as [|a l1 IH]; cbn.
  { split; [|tauto]. intros. split; [constructor|]. split; [done|]. set_solver. }
  split.
  - intros Hs. apply StronglySorted_inv in Hs as [Hs Hall]. apply IH in Hs as (H1 & H2 & H3).
    apply Forall_app in Hall as [Ha1 Ha2]. split; [by constructor|]. split; [done|].
    intros x y [->|Hx]%elem_of_cons Hy; [|by apply H3]. rewrite Forall_forall in Ha2. by apply Ha2.
  - intros (H1 & H2 & H3). apply StronglySorted_inv in H1 as [H1 Hall]. constructor.
    + apply IH. split; [done|]. split; [done|]. intros. apply H3; set_solver.
    + apply Forall_app. split; [done|]. apply Forall_forall. intros. apply H3; set_solver.
Qed.

Lemma descending_cons v l :
  descending (v :: l) ↔ (∀ b, b ∈ l → commit_ts_ b < commit_ts_ v)%Z ∧ descending l.
Proof.
  unfold descending. split.
  - intros [Hs Hall]%StronglySorted_inv. by rewrite Forall_forall in Hall.
  - intros [Hall Hs]. constructor; [done|]. by apply Forall_forall.
Qed.

(** The loop finds the newest version that is not newer than [ts]. *)
Lemma mvcc_find_newest ts l :
  descending l →
  match mvcc_find ts l with
  | Some v => v ∈ l ∧ (commit_ts_ v ≤ ts)%Z ∧
      ∀ v', v' ∈ l → (commit_ts_ v' ≤ ts)%Z → (commit_ts_ v' ≤ commit_ts_ v)%Z
  | None => ∀ v, v ∈ l → (ts < commit_ts_ v)%Z
  end.
Proof.
  induction l as [|v l IH]; cbn; [set_solver|]. intros [Hv Hl]%descending_cons.
  case_decide as Hts.
  - split; [set_solver|]. split; [done|]. intros v' [->|Hin]%elem_of_cons _; [lia|].
    apply Hv in Hin. lia.
  - specialize (IH Hl). destruct (mvcc_find ts l) as [w|].
    + destruct IH as (Hw & Hle & Hmax). split; [set_solver|]. split; [done|].
      intros v' [->|Hin]%elem_of_cons Hv'; [lia|by apply Hmax].
    + intros v' [->|Hin]%elem_of_cons; [lia|by apply IH].
Qed.

Lemma mvcc_find_app ts l1 l2 :
  mvcc_find ts (l1 ++ l2) =
    match mvcc_find ts l1 with Some v => Some v | None => mvcc_find ts l2 end.
Proof. induction l1 as [|v l1 IH]; cbn; [done|]. by case_decide. Qed.

(** What a read of an entry returns for a version of it, or for none. *)
Definition miss_result e (ts : Z) (rec : VersionResultRecord V) : VersionResultRecord V :=
  mkResultRecord (res_payload rec)
    (if decide (ckpt_ts_ e = 0%Z) then VersionUnknown
     else if decide (ckpt_ts_ e ≤ ts)%Z then BaseVersionMiss else ArchiveVersionMiss) 1.

Lemma MvccGet_find e ts lr rec :
  PayloadStatus e ≠ Unknown →
  MvccGet e ts lr rec =
    (match mvcc_find ts (versions e) with
     | Some v => version_result rec v
     | None => miss_result e ts rec
     end, if decide (CommitTs e ≤ ts)%Z then Z.max ts lr else lr).
Proof.
  intros Hs. unfold MvccGet, versions. rewrite !(decide_False (P := _ = Unknown)) by done.
  cbn. case_decide; [done|]. by destruct (mvcc_find ts (default [] (archives_ e))).
Qed.

(** ** Garbage collection of versions *)

Lemma skip_newer_app ts l a b : skip_newer ts l = (a, b) → l = a ++ b.
Proof.
  revert a b. induction l as [|v l IH]; cbn; intros a b.
  - by intros [= <- <-].
  - case_decide; [by intros [= <- <-]|]. destruct (skip_newer ts l) as [a' b'].
    intros [= <- <-]. cbn. f_equal. by apply IH.
Qed.

Lemma skip_newer_spec ts l a b :
  skip_newer ts l = (a, b) →
  (∀ v, v ∈ a → (ts < commit_ts_ v)%Z) ∧
  (∀ v, head b = Some v → (commit_ts_ v ≤ ts)%Z).
Proof.
  revert a b. induction l as [|v l IH]; cbn; intros a b.
  - intros [= <- <-]. set_solver.
  - case_decide.
    + intros [= <- <-]. split; [set_solver|]. cbn. by intros ? [= <-].
    + destruct (skip_newer ts l) as [a' b'] eqn:E. intros [= <- <-].
      destruct (IH a' b' eq_refl) as [H1 H2]. split; [|done].
      intros w [->|Hw]%elem_of_cons; [lia|by apply H1].
Qed.

Lemma KickOut_reads e oldest ts lr rec :
  (oldest ≤ ts)%Z → MvccGet (KickOutArchiveRecords e oldest) ts lr rec = MvccGet e ts lr rec.
Proof.
  intros Hts. unfold KickOutArchiveRecords.
  destruct (archives_ e) as [archives|] eqn:Ha; [|done].
  destruct (decide (CommitTs e ≤ oldest)%Z) as [Hc|Hc].
  { unfold MvccGet. change (CommitTs (set_archives e None)) with (CommitTs e).
    change (PayloadStatus (set_archives e None)) with (PayloadStatus e).
    case_decide; [done|]. rewrite !decide_True by lia. done. }
  destruct (decide (length archives ≤ 1)); [done|].
  destruct (skip_newer oldest archives) as [newer rest] eqn:Hsk.
  destruct rest as [|v rest]; [done|].
  apply skip_newer_app in Hsk as Happ. apply skip_newer_spec in Hsk as [_ Hv].
  specialize (Hv v eq_refl). unfold MvccGet. cbn [archives_ set_archives]. rewrite Ha. cbn [from_option id].
  change (CommitTs (set_archives e ?x)) with (CommitTs e).
  change (PayloadStatus (set_archives e ?x)) with (PayloadStatus e).
  change (cur_payload_ (set_archives e ?x)) with (cur_payload_ e).
  change (ckpt_ts_ (set_archives e ?x)) with (ckpt_ts_ e).
  rewrite Happ, !mvcc_find_app. cbn. by rewrite !(decide_True (P := commit_ts_ v ≤ ts)%Z) by lia.
Qed.

Lemma KickOut_sublist e oldest :
  sublist (versions (KickOutArchiveRecords e oldest)) (versions e).
Proof.
  unfold KickOutArchiveRecords, versions.
  destruct (archives_ e) as [archives|] eqn:Ha; [|by rewrite Ha].
  assert (∀ a, sublist (default [] a) archives →
    sublist ((if decide (PayloadStatus (set_archives e a) = Unknown) then []
              else [cur_version (set_archives e a)]) ++ default [] a)
            ((if decide (PayloadStatus e = Unknown) then [] else [cur_version e]) ++
             archives)) as Hsub.
  { intros a Hsub. by apply sublist_app. }
  destruct (decide (CommitTs e ≤ oldest)%Z); [apply Hsub, sublist_nil_l|].
  destruct (decide (length archives ≤ 1)); [by rewrite Ha|].
  destruct (skip_newer oldest archives) as [newer [|v rest]] eqn:Hsk; [by rewrite Ha|].
  apply Hsub. cbn. rewrite (skip_newer_app _ _ _ _ Hsk). apply sublist_app; [done|].
  constructor. apply sublist_nil_l.
Qed.

Lemma descending_sublist l k : sublist l k → descending k → descending l.
Proof.
  unfold descending. induction 1 as [|x l k Hsub IH|x l k Hsub IH]; intros Hs; [done|..];
    apply StronglySorted_inv in Hs as [Hs Hall]; [|by apply IH].
  constructor; [by apply IH|]. apply Forall_forall. rewrite Forall_forall in Hall.
  intros y Hy. apply Hall. by eapply elem_of_sublist.
Qed.

(** ** Installing a version *)

(** The three calls with which a committed write installs its version. *)
Definition install_version e (p : option V) (ts : Z) (status : RecordStatus) : CcEntry V :=
  SetCommitTsPayloadStatus true false (set_payload (ArchiveBeforeUpdate e) p) ts status.

Lemma ArchiveBeforeUpdate_word e p :
  CommitTs (set_payload (ArchiveBeforeUpdate e) p) = CommitTs e ∧
  PayloadStatus (set_payload (ArchiveBeforeUpdate e) p) = PayloadStatus e.
Proof. unfold ArchiveBeforeUpdate. by case_decide. Qed.

Lemma ArchiveBeforeUpdate_archives e :
  default [] (archives_ (ArchiveBeforeUpdate e)) = versions e.
Proof. unfold ArchiveBeforeUpdate, versions. by destruct (decide (PayloadStatus e = Unknown)). Qed.

(** The new version goes in front of all the old ones. *)
Lemma install_version_versions e p ts status :
  is_ts ts → (CommitTs e < ts)%Z → status ≠ Unknown →
  versions (install_version e p ts status) = mkVersion p ts status :: versions e.
Proof.
  intros Hts Hlt Hst. destruct (ArchiveBeforeUpdate_word e p) as [Hc Hs].
  unfold install_version. set (e1 := set_payload _ p) in *.
  pose proof (SetCommitTs_newer true false e1 ts status Hts ltac:(lia)) as (Hst' & _ & _).
  pose proof (SetCommitTs_CommitTs true false e1 ts status Hts) as Hct.
  destruct (SetCommitTs_other true false e1 ts status) as (Ha & Hp & _).
  unfold versions at 1, cur_version. rewrite Hst', Hct, Ha, Hp.
  rewrite decide_False by done. rewrite Z.max_r by lia. cbn. f_equal.
  apply ArchiveBeforeUpdate_archives.
Qed.

Lemma install_version_status e p ts status :
  is_ts ts → (CommitTs e < ts)%Z →
  PayloadStatus (install_version e p ts status) = status ∧
  CommitTs (install_version e p ts status) = ts ∧
  ckpt_ts_ (install_version e p ts status) = ckpt_ts_ e.
Proof.
  intros Hts Hlt. destruct (ArchiveBeforeUpdate_word e p) as [Hc Hs].
  unfold install_version. set (e1 := set_payload _ p) in *.
  pose proof (SetCommitTs_newer true false e1 ts status Hts ltac:(lia)) as (-> & _ & _).
  rewrite SetCommitTs_CommitTs by done. split; [done|]. split; [lia|].
  destruct (SetCommitTs_other true false e1 ts status) as (_ & _ & ->).
  unfold e1, ArchiveBeforeUpdate. by case_decide.
Qed.

(** All versions are at most as new as the entry. *)
Definition versions_bounded e : Prop := ∀ v, v ∈ versions e → (commit_ts_ v ≤ CommitTs e)%Z.

Lemma install_version_wf e p ts status :
  is_ts ts → (CommitTs e < ts)%Z → status ≠ Unknown →
  mvcc_wf e → versions_bounded e →
  mvcc_wf (install_version e p ts status) ∧ versions_bounded (install_version e p ts status).
Proof.
  intros Hts Hlt Hst Hwf Hb. unfold mvcc_wf, versions_bounded.
  rewrite install_version_versions by done. split.
  - apply descending_cons. split; [|done]. intros b Hin%Hb. cbn. lia.
  - destruct (install_version_status e p ts status Hts Hlt) as (_ & -> & _).
    intros v [->|Hin%Hb]%elem_of_cons; cbn; lia.
Qed.

(** ** Loading old versions *)

Lemma skip_newer_sorted ts l a b :
  descending l → skip_newer ts l = (a, b) →
  l = a ++ b ∧ (∀ v, v ∈ a → (ts < commit_ts_ v)%Z) ∧ (∀ v, v ∈ b → (commit_ts_ v ≤ ts)%Z).
Proof.
  intros Hd Hs. apply skip_newer_app in Hs as Happ. apply skip_newer_spec in Hs as [Ha Hb].
  split; [done|]. split; [done|]. subst l. apply descending_app in Hd as (_ & Hd & _).
  destruct b as [|w b]; [set_solver|]. specialize (Hb w eq_refl).
  apply descending_cons in Hd as [Hd _]. intros v [->|Hv]%elem_of_cons; [done|].
  apply Hd in Hv. lia.
Qed.

(** A batch that names every in-memory version it spans, newest first, none of
    them older than its first. *)
Record batch_ok (vs l : list (VersionRecord V)) : Prop := {
  bo_batch : descending vs;
  bo_archives : descending l;
  bo_spans : ∀ v w, v ∈ l → w ∈ vs → (commit_ts_ w ≤ commit_ts_ v)%Z →
    ∃ w', w' ∈ vs ∧ commit_ts_ w' = commit_ts_ v;
  bo_top : ∀ v w, head vs = Some w → v ∈ l → (commit_ts_ v ≤ commit_ts_ w)%Z;
}.

Lemma batch_ok_tail w vs l l' :
  batch_ok (w :: vs) l → sublist l' l → (∀ v, v ∈ l' → (commit_ts_ v < commit_ts_ w)%Z) →
  batch_ok vs l'.
Proof.
  intros [Hvs Hl Hgap Htop] Hsub Hlt. apply descending_cons in Hvs as [Hw Hvs].
  split; [done|by eapply descending_sublist|..].
  - intros v x Hv Hx Hxv. destruct (Hgap v x (elem_of_sublist _ _ _ Hv Hsub)) as (y & Hy & E);
      [set_solver|done|]. apply elem_of_cons in Hy as [->|Hy]; [|eauto]. apply Hlt in Hv. lia.
  - intros v x Hx Hv. destruct vs as [|x' vs]; [done|]. injection Hx as ->.
    destruct (decide (commit_ts_ v ≤ commit_ts_ x)%Z) as [|Hgt]; [done|].
    destruct (Hgap v x (elem_of_sublist _ _ _ Hv Hsub)) as (y & Hy & E); [set_solver|lia|].
    apply Hlt in Hv. apply elem_of_cons in Hy as [->|Hy]; [lia|].
    apply descending_cons in Hvs as [Hx' _].
    apply elem_of_cons in Hy as [->|Hy]; [lia|]. apply Hx' in Hy. lia.
Qed.

(** The batch loop then merges. *)
Lemma insert_versions_merge vs l :
  batch_ok vs l →
  descending (insert_versions vs l) ∧
  ∀ v, v ∈ insert_versions vs l ↔
     v ∈ l ∨ (v ∈ vs ∧ ∀ w, w ∈ l → commit_ts_ w ≠ commit_ts_ v).
Proof.
  revert l. induction vs as [|w vs IH]; intros l Hb; cbn; [split; [apply Hb|set_solver]|].
  pose proof Hb as [Hvs Hl _ Htop]. apply descending_cons in Hvs as [Hw _].
  assert (∀ l', batch_ok vs l' → (∀ v, v ∈ l' → (commit_ts_ v < commit_ts_ w)%Z) →
    ∀ v, v ∈ insert_versions vs l' → (commit_ts_ v < commit_ts_ w)%Z) as Hbelow.
  { intros l' Hb' Hlt v Hv. apply (IH l' Hb') in Hv as [Hv|[Hv _]]; auto. }
  destruct l as [|v0 l].
  { assert (batch_ok vs []) as Hb' by (eapply batch_ok_tail; [done|done|set_solver]).
    destruct (IH [] Hb') as [H1 H2]. split; [|set_solver].
    apply descending_cons. split; [|done]. apply (Hbelow [] Hb'). set_solver. }
  apply descending_cons in Hl as [Hv0 Hl].
  pose proof (Htop v0 w eq_refl ltac:(set_solver)) as Hle.
  destruct (decide (commit_ts_ v0 = commit_ts_ w)) as [E|E].
  - assert (∀ v, v ∈ l → (commit_ts_ v < commit_ts_ w)%Z) as Hlt by (intros v Hv%Hv0; lia).
    assert (batch_ok vs l) as Hb' by (eapply batch_ok_tail; [done|by constructor|done]).
    destruct (IH l Hb') as [H1 H2]. split.
    + apply descending_cons. split; [|done]. intros b Hin. rewrite E. by eapply Hbelow.
    + intros v. rewrite !elem_of_cons, H2. split.
      * intros [->|[?|[Hv Hn]]]; [by do 2 left|by left; right|]. right. split; [by right|].
        intros x [->|Hx]%elem_of_cons; [apply Hw in Hv; lia|by apply Hn].
      * intros [[->|?]|[[->|Hv] Hn]]; [by left|by right; left|set_solver|].
        right. right. split; [done|]. intros. apply Hn. set_solver.
  - assert (∀ v, v ∈ v0 :: l → (commit_ts_ v < commit_ts_ w)%Z) as Hlt
      by (intros v [->|Hv%Hv0]%elem_of_cons; lia).
    assert (batch_ok vs (v0 :: l)) as Hb' by (eapply batch_ok_tail; [done|done|done]).
    destruct (IH (v0 :: l) Hb') as [H1 H2]. split.
    + apply descending_cons. split; [|done]. by apply Hbelow.
    + intros v. rewrite elem_of_cons, H2. split.
      * intros [->|[?|[Hv Hn]]]; [|by left|right; split; [by right|done]].
        right. split; [by left|]. intros x Hx%Hlt Heq. lia.
      * intros [?|[[->|Hv]%elem_of_cons Hn]]; [by right; left|by left|]. by right; right.
Qed.

Definition archived e : list (VersionRecord V) := default [] (archives_ e).

(** The batch leaves no gap: an in-memory version between its first and last
    version is in it. *)
Definition no_gap (vs l : list (VersionRecord V)) : Prop :=
  ∀ v w0 w, v ∈ l → head vs = Some w0 → w ∈ vs →
    (commit_ts_ w ≤ commit_ts_ v ≤ commit_ts_ w0)%Z →
    ∃ w', w' ∈ vs ∧ commit_ts_ w' = commit_ts_ v.

Lemma AddArchiveRecords_merge e vs :
  descending vs → descending (archived e) → no_gap vs (archived e) →
  descending (archived (AddArchiveRecords e vs)) ∧
  ∀ v, v ∈ archived (AddArchiveRecords e vs) ↔
     v ∈ archived e ∨ (v ∈ vs ∧ ∀ w, w ∈ archived e → commit_ts_ w ≠ commit_ts_ v).
Proof.
  intros Hvs Hd Hgap. unfold AddArchiveRecords.
  destruct vs as [|w0 vs]; [split; [done|set_solver]|]. fold (archived e).
  destruct (skip_newer (commit_ts_ w0) (archived e)) as [a b] eqn:Hs.
  destruct (skip_newer_sorted _ _ _ _ Hd Hs) as (Happ & Ha & Hb).
  pose proof Hvs as [Hw0 _]%descending_cons.
  assert (∀ w, w ∈ w0 :: vs → (commit_ts_ w ≤ commit_ts_ w0)%Z) as Hmax
    by (intros w [->|Hw%Hw0]%elem_of_cons; lia).
  destruct (insert_versions_merge (w0 :: vs) b) as [H1 H2].
  { split; [done|rewrite Happ in Hd; by apply descending_app in Hd as (_ & ? & _)|..].
    - intros v w Hv Hw Hle. apply (Hgap v w0 w); [rewrite Happ; set_solver|done|done|].
      split; [done|by apply Hb].
    - intros v w [= <-] Hv. by apply Hb. }
  rewrite Happ in Hd. apply descending_app in Hd as (Hda & _ & Hab).
  change (archived (set_archives e (Some ?l))) with l. split.
  - apply descending_app. split; [done|]. split; [done|].
    intros x y Hx [Hy|[Hy _]]%H2; [by apply Hab|]. apply Ha in Hx. apply Hmax in Hy. lia.
  - intros v. rewrite elem_of_app, H2, Happ, elem_of_app. split.
    + intros [?|[?|[Hv Hn]]]; [by do 2 left|by left; right|]. right. split; [done|].
      intros x [Hx|Hx]%elem_of_app; [|by apply Hn]. apply Ha in Hx. apply Hmax in Hv. lia.
    + intros [[?|?]|[Hv Hn]]; [by left|by right; left|]. right. right. split; [done|].
      intros x Hx. apply Hn. set_solver.
Qed.

(** A single version is a batch of one. *)
Lemma AddArchiveRecord_batch e p status ts :
  ¬ (ts = 1%Z ∧ status = Deleted) →
  AddArchiveRecord e p status ts = AddArchiveRecords e [mkVersion p ts status].
Proof.
  intros Hn. unfold AddArchiveRecord, AddArchiveRecords. cbn [commit_ts_].
  destruct (bool_decide_reflect (ts = 1%Z)), (bool_decide_reflect (status = Deleted));
    cbn [andb]; [tauto|..];
  (destruct (skip_newer ts (default [] (archives_ e))) as [a b] eqn:Hs;
   apply skip_newer_spec in Hs as [_ Hb]; do 3 f_equal; destruct b as [|v b]; [done|];
   specialize (Hb v eq_refl); cbn;
   destruct (decide (commit_ts_ v < ts)%Z), (decide (commit_ts_ v = ts)); (done || lia)).
Qed.

Lemma AddArchiveRecords_word e vs :
  CommitTs (AddArchiveRecords e vs) = CommitTs e ∧
  PayloadStatus (AddArchiveRecords e vs) = PayloadStatus e ∧
  cur_payload_ (AddArchiveRecords e vs) = cur_payload_ e.
Proof. unfold AddArchiveRecords. destruct vs; [done|]. by destruct (skip_newer _ _). Qed.

Lemma HasVisibleVersion_spec e ts :
  mvcc_wf e → PayloadStatus e ≠ Unknown →
  HasVisibleVersion e ts = true ↔ ∃ v, v ∈ versions e ∧ (commit_ts_ v ≤ ts)%Z.
Proof.
  unfold mvcc_wf, versions, HasVisibleVersion. intros Hwf Hs.
  rewrite (decide_False (P := PayloadStatus e = Unknown)) in * by done. cbn in *.
  apply descending_cons in Hwf as [_ Hd].
  destruct (decide (CommitTs e ≤ ts)%Z) as [|Hc].
  { split; [|done]. intros _. exists (cur_version e). split; [set_solver|done]. }
  setoid_rewrite elem_of_cons.
  assert (¬ ∃ v, (v = cur_version e ∨ v ∈ []) ∧ (commit_ts_ v ≤ ts)%Z) as Hnone
    by (by intros (v & [->|[]%elem_of_nil] & ?)).
  destruct (archives_ e) as [l|]; cbn in *; [|done].
  destruct l as [|v l _] using rev_ind; [done|]. rewrite last_snoc, bool_decide_eq_true.
  apply descending_app in Hd as (_ & _ & Hl). split.
  - intros Hle. exists v. split; [right; set_solver|done].
  - intros (w & [->|[Hw| ->%list_elem_of_singleton]%elem_of_app] & Hle); [done| |done].
    specialize (Hl w v Hw ltac:(set_solver)). lia.
Qed.
End mvcc.


(** A versioned entry with three versions. *)
Definition entry_3 : CcEntry Z :=
  install_version (install_version (install_version CcEntry_new (Some 10%Z) 4 Normal)
    (Some 20%Z) 8 Normal) None 15 Deleted.

Lemma entry_3_wf : mvcc_wf entry_3 ∧ versions_bounded entry_3.
Proof.
  assert (mvcc_wf (@CcEntry_new Z) ∧ versions_bounded (@CcEntry_new Z)) as [H0 H0'].
  { split; [constructor|]. intros v Hv. vm_compute in Hv. set_solver. }
  assert (∀ ts, (0 <= ts < 100)%Z → is_ts ts) as Hts by (unfold is_ts; lia).
  unfold entry_3.
  repeat (apply install_version_wf; [apply Hts; lia|vm_compute; reflexivity|discriminate| |]); done.
Qed.


(**  garbage collection of versions is invisible to running snapshots.
    After [KickOutArchiveRecords oldest] every read at a timestamp of at least
    [oldest] gives the same answer as before, hit or miss; the versions kept
    are a subsequence of the old ones. *)
Theorem KickOut_invisible {V} (e : CcEntry V) (oldest : Z) :
  (∀ ts lr rec, (oldest ≤ ts)%Z →
     MvccGet (KickOutArchiveRecords e oldest) ts lr rec = MvccGet e ts lr rec) ∧
  sublist (versions (KickOutArchiveRecords e oldest)) (versions e) ∧
  (mvcc_wf e → mvcc_wf (KickOutArchiveRecords e oldest)).
Proof.
  split; [intros; by apply KickOut_reads|]. split; [apply KickOut_sublist|].
  apply descending_sublist, KickOut_sublist.
Qed.

(**  snapshots are stable under commits.  Installing a version at [ts]
    changes no read below [ts], and every read at or above [ts] returns exactly
    that version; the order of the versions is kept. *)
Theorem install_version_snapshots {V} (e : CcEntry V) (p : option V) (ts : Z)
    (status : RecordStatus) :
  mvcc_wf e → versions_bounded e → PayloadStatus e ≠ Unknown →
  is_ts ts → (CommitTs e < ts)%Z → status ≠ Unknown →
  let e' := install_version e p ts status in
  mvcc_wf e' ∧ versions_bounded e' ∧
  (∀ r lr rec, (r < ts)%Z → (MvccGet e' r lr rec).1 = (MvccGet e r lr rec).1) ∧
  (∀ r lr rec, (ts ≤ r)%Z →
     MvccGet e' r lr rec = (version_result rec (mkVersion p ts status), Z.max r lr)).
Proof.
  intros Hwf Hb Hs Hts Hlt Hst e'.
  destruct (install_version_wf e p ts status Hts Hlt Hst Hwf Hb) as [Hwf' Hb'].
  destruct (install_version_status e p ts status Hts Hlt) as (Hs' & Hc' & Hk').
  split; [done|]. split; [done|].
  split; intros r lr rec Hr; rewrite (MvccGet_find e') by (unfold e'; by rewrite Hs');
    unfold e'; rewrite install_version_versions by done; cbn [mvcc_find commit_ts_].
  - rewrite MvccGet_find by done. cbn [fst]. rewrite decide_False by lia.
    unfold miss_result. by rewrite Hk'.
  - rewrite decide_True by lia. rewrite Hc'. by rewrite decide_True by lia.
Qed.

Lemma install_version_snapshots_witness :
  let e' := install_version entry_3 (Some 30%Z) 20 Normal in
  mvcc_wf e' ∧ (MvccGet e' 9 0 (mkResultRecord None Unknown 1)).1 =
               (MvccGet entry_3 9 0 (mkResultRecord None Unknown 1)).1.
Proof.
  destruct (install_version_snapshots entry_3 (Some 30%Z) 20 Normal) as (Hwf & _ & Hr & _).
  - exact (proj1 entry_3_wf).
  - exact (proj2 entry_3_wf).
  - vm_compute. discriminate.
  - unfold is_ts. lia.
  - vm_compute. reflexivity.
  - discriminate.
  - split; [exact Hwf|]. apply Hr. lia.
Defined.

(**  loading historical versions from the data store merges them into the
    archives: the result is in order and holds the old versions and those of
    the batch whose timestamp was not there yet.  The batch must be in
    descending order and name every in-memory version between its first and
    last. *)
Theorem AddArchiveRecords_merges {V} (e : CcEntry V) (vs : list (VersionRecord V)) :
  descending vs → descending (archived e) → no_gap vs (archived e) →
  descending (archived (AddArchiveRecords e vs)) ∧
  (∀ v, v ∈ archived (AddArchiveRecords e vs) ↔
     v ∈ archived e ∨ (v ∈ vs ∧ ∀ w, w ∈ archived e → commit_ts_ w ≠ commit_ts_ v)) ∧
  CommitTs (AddArchiveRecords e vs) = CommitTs e ∧
  PayloadStatus (AddArchiveRecords e vs) = PayloadStatus e.
Proof.
  intros Hvs Hd Hg. destruct (AddArchiveRecords_merge e vs Hvs Hd Hg) as [H1 H2].
  destruct (AddArchiveRecords_word e vs) as (? & ? & _). by split_and!.
Qed.

Lemma AddArchiveRecords_merges_witness :
  let vs := [mkVersion (Some 20%Z) 8 Normal; mkVersion (Some 5%Z) 6 Normal;
             mkVersion (Some 10%Z) 4 Normal; mkVersion (Some 1%Z) 2 Normal] in
  commit_ts_ <$> archived (AddArchiveRecords entry_3 vs) = [8; 6; 4; 2]%Z ∧
  descending (archived (AddArchiveRecords entry_3 vs)).
Proof.
  intros vs. split; [vm_compute; reflexivity|].
  apply (AddArchiveRecords_merges entry_3 vs).
  - repeat constructor.
  - change (descending [mkVersion (Some 20%Z) 8 Normal; mkVersion (Some 10%Z) 4 Normal]).
    repeat constructor.
  - intros v w0 w Hv _ _ _. vm_compute in Hv.
    apply elem_of_cons in Hv as [->|Hv]; [|apply list_elem_of_singleton in Hv as ->].
    + exists (mkVersion (Some 20%Z) 8 Normal). split; [set_solver|reflexivity].
    + exists (mkVersion (Some 10%Z) 4 Normal). split; [set_solver|reflexivity].
Defined.

(** Descending order alone is not enough: a batch that skips an in-memory
    version puts an older version in front of it, and a read at 5 then
    returns version 3 instead of version 5. *)
Lemma AddArchiveRecords_gap_breaks_order :
  let e := set_archives (SetCommitTsPayloadStatus true false (@CcEntry_new Z) 10 Normal)
             (Some [mkVersion (Some 50%Z) 5 Normal]) in
  let e' := AddArchiveRecords e [mkVersion (Some 80%Z) 8 Normal; mkVersion (Some 30%Z) 3 Normal] in
  commit_ts_ <$> archived e' = [8; 3; 5]%Z ∧
  res_commit_ts (MvccGet e' 5 0 (mkResultRecord None Unknown 1)).1 = 3%Z.
Proof. by vm_compute. Qed.
