(* ===== verification/ExportCkpt.v ===== *)
(** * Exporting versions to the checkpointer ([CcEntry::ExportForCkpt])

    A checkpoint round with timestamp [to_ts] collects, entry by entry, the
    records to flush: into the base table the newest version not newer than
    [to_ts], into the archives table the older versions that are not there
    yet.  Source: [include/cc/cc_entry.h], [ExportForCkpt] and [FlushRecord].

    [ckpt_vec] is a preallocated vector whose slots are reused; the call
    overwrites the fields of the next slot, so fields it does not assign keep
    their old value.  The model is the range-partitioned build, in which the
    size after the flush is recorded.  The running total [mem_usage] is not
    part of the model: it depends on allocator sizes. *)

From S2P Require Import Prelude CcProtocol CcEntry.

(** [FlushRecord]: a key or the index of one, whether the record points back at
    the entry ([cce_]), and the version. *)
Inductive flush_key (K : Type) := FlushTxKey (k : K) | FlushKeyIndex (i : nat).
Arguments FlushTxKey {_}.
Arguments FlushKeyIndex {_}.

Record FlushRecord (K V : Type) := mkFlush {
  fr_key : flush_key K;
  fr_has_cce : bool;
  fr_payload : option V;
  fr_status : RecordStatus;
  fr_commit_ts : Z;
  fr_post_flush_size : Z;
}.
Arguments mkFlush {_ _}.
Arguments fr_key {_ _}.
Arguments fr_has_cce {_ _}.
Arguments fr_payload {_ _}.
Arguments fr_status {_ _}.
Arguments fr_commit_ts {_ _}.
Arguments fr_post_flush_size {_ _}.

Section export.
Context {K V : Type} (key_size : K → Z) (payload_size : V → Z).
Implicit Types (e : CcEntry V) (v : VersionRecord V) (r : FlushRecord K V).

Record export_state := mkExport {
  ex_cce : CcEntry V;
  ex_ckpt_vec : list (FlushRecord K V);
  ex_ckpt_vec_size : nat;
  ex_akv_vec : list (FlushRecord K V);
  ex_exported_count : nat;
}.

(** [FlushRecord &ref = ckpt_vec[ckpt_vec_size++]], the assignments [f] to it,
    and [exported_count++]. *)
Definition put_slot (f : FlushRecord K V → FlushRecord K V) (st : export_state) : export_state :=
  mkExport (ex_cce st) (alter f (ex_ckpt_vec_size st) (ex_ckpt_vec st))
    (S (ex_ckpt_vec_size st)) (ex_akv_vec st) (S (ex_exported_count st)).

(** [akv_vec.emplace_back()] and its assignments. *)
Definition put_archive (r : FlushRecord K V) (st : export_state) : export_state :=
  mkExport (ex_cce st) (ex_ckpt_vec st) (ex_ckpt_vec_size st) (ex_akv_vec st ++ [r])
    (S (ex_exported_count st)).

Definition mark_being_ckpt (st : export_state) : export_state :=
  mkExport (SetBeingCkpt (ex_cce st)) (ex_ckpt_vec st) (ex_ckpt_vec_size st) (ex_akv_vec st)
    (ex_exported_count st).

(** The payload of a record for a version: only normal versions have one. *)
Definition flush_payload v : option V :=
  if decide (payload_status_ v = Normal) then payload_ v else None.

Definition flush_size (p : option V) : Z := match p with Some x => payload_size x | None => 0 end.

(** A record of a version for the base table. [has_cce] is [cce_ = this]. *)
Definition base_record (k : K) (has_cce : bool) v (size : Z) r : FlushRecord K V :=
  mkFlush (FlushTxKey k) has_cce (flush_payload v) (payload_status_ v) (commit_ts_ v) size.

(** The same without the payload, which the slot keeps. *)
Definition key_record (k : K) v (size : Z) r : FlushRecord K V :=
  mkFlush (FlushTxKey k) false (fr_payload r) (payload_status_ v) (commit_ts_ v) size.

Definition archive_record (ckpt_idx : nat) v : FlushRecord K V :=
  mkFlush (FlushKeyIndex ckpt_idx) true (flush_payload v) (payload_status_ v) (commit_ts_ v) 0.

Definition normal_size (k : K) v : Z :=
  if decide (payload_status_ v = Normal) then (key_size k + flush_size (payload_ v))%Z else 0%Z.

(** The branch for an entry whose newest version is in the data store. *)
Definition export_persisted (k : K) (to_ts : Z) (persisted_item persisted_key : bool)
    (st : export_state) : export_state :=
  let v := cur_version (ex_cce st) in
  let wanted :=
    bool_decide (commit_ts_ v ≠ 1%Z) && bool_decide (commit_ts_ v <= to_ts)%Z &&
    (bool_decide (payload_status_ v = Normal) || bool_decide (payload_status_ v = Deleted)) in
  if persisted_item && wanted then put_slot (base_record k false v (normal_size k v)) st
  else if persisted_key && wanted then put_slot (key_record k v (normal_size k v)) st
  else st.

(** The current version of an entry that is not persistent. *)
Definition export_current (versioned : bool) (k : K) (to_ts : Z) (st : export_state)
    : export_state :=
  let v := cur_version (ex_cce st) in
  if negb versioned || bool_decide (commit_ts_ v <= to_ts)%Z then
    let size :=
      if decide (payload_status_ v ≠ Deleted)
      then (key_size k + flush_size (flush_payload v))%Z else 0%Z in
    put_slot (base_record k true v size) (mark_being_ckpt st)
  else st.

(** The loop over the archives, newest first. *)
Fixpoint export_archives (k : K) (to_ts ckpt_ts : Z) (ckpt_idx : nat)
    (persisted_item persisted_key : bool) (l : list (VersionRecord V)) (st : export_state)
    : export_state :=
  match l with
  | [] => st
  | v :: l =>
      if decide (to_ts < commit_ts_ v)%Z then
        export_archives k to_ts ckpt_ts ckpt_idx persisted_item persisted_key l st
      else if bool_decide (commit_ts_ v < ckpt_ts)%Z || bool_decide (commit_ts_ v = 1%Z) then st
      else if decide (commit_ts_ v = ckpt_ts) then
        if decide (ex_exported_count st ≠ 0) then
          put_archive (archive_record ckpt_idx v) (mark_being_ckpt st)
        else if persisted_item then put_slot (base_record k false v (normal_size k v)) st
        else if persisted_key then put_slot (key_record k v (normal_size k v)) st
        else st
      else
        let st1 :=
          if decide (ex_exported_count st = 0) then
            put_slot (base_record k true v (normal_size k v)) (mark_being_ckpt st)
          else put_archive (archive_record ckpt_idx v) (mark_being_ckpt st) in
        export_archives k to_ts ckpt_ts ckpt_idx persisted_item persisted_key l st1
  end.

(** The whole call: the state afterwards and the additions to [mv_base_vec]. *)
Definition ExportForCkpt (versioned standby_shared mvcc_enabled persisted_item base_only
    persisted_key : bool) (k : K) (to_ts oldest_active_tx_ts : Z) (ckpt_vec akv_vec : list (FlushRecord K V))
    (ckpt_vec_size : nat) e : export_state * list nat :=
  let st := mkExport e ckpt_vec ckpt_vec_size akv_vec 0 in
  if versioned && IsPersistent versioned standby_shared e then
    (export_persisted k to_ts persisted_item persisted_key st, [])
  else
    let ckpt_idx := ckpt_vec_size in
    let st1 := export_current versioned k to_ts st in
    if negb mvcc_enabled || base_only then (st1, [])
    else if versioned then
      let ckpt_ts := ckpt_ts_ e in
      let st2 := export_archives k to_ts ckpt_ts ckpt_idx persisted_item persisted_key
                   (default [] (archives_ e)) st1 in
      (st2,
       if bool_decide (0 < ex_exported_count st2) && bool_decide (ckpt_ts = 0%Z) &&
          negb (HasVisibleVersion (ex_cce st2) oldest_active_tx_ts)
       then [ckpt_idx] else [])
    else (st1, []).

(** ** What a round exports *)

(** The archived versions a round moves to the archives table: not newer than
    [to_ts], not older than the last checkpoint.  A version at timestamp 1
    stands for a key that never existed. *)
Definition in_round (ckpt_ts to_ts : Z) v : Prop :=
  (ckpt_ts ≤ commit_ts_ v ∧ 1 < commit_ts_ v ∧ commit_ts_ v ≤ to_ts)%Z.

#[local] Instance in_round_dec ckpt_ts to_ts v : Decision (in_round ckpt_ts to_ts v).
Proof. unfold in_round. apply _. Defined.

(** The versions a round must flush. *)
Definition unflushed e (to_ts : Z) : list (VersionRecord V) :=
  filter (λ v, ckpt_ts_ e < commit_ts_ v ∧ 1 < commit_ts_ v ∧ commit_ts_ v ≤ to_ts)%Z (versions e).

(** The version that the base table holds since the last checkpoint, if it is
    still in the archives. *)
Definition base_version e (to_ts : Z) : list (VersionRecord V) :=
  filter (λ v, commit_ts_ v = ckpt_ts_ e ∧ 1 < commit_ts_ v ∧ commit_ts_ v ≤ to_ts)%Z
    (archived e).

(** Below the last checkpoint a descending list has nothing for the round. *)
Lemma in_round_none ckpt_ts to_ts v l :
  descending (v :: l) → (commit_ts_ v ≤ ckpt_ts ∨ commit_ts_ v = 1)%Z →
  filter (in_round ckpt_ts to_ts) l = [].
Proof.
  intros [Hv _]%descending_cons Hle. apply filter_none. intros x Hx%Hv. unfold in_round. lia.
Qed.

(** Versions start at timestamp 1. *)
Definition positive (l : list (VersionRecord V)) : Prop := ∀ v, v ∈ l → (0 < commit_ts_ v)%Z.

(** The loop once a record has been exported: everything in the round goes to
    the archives table, in order. *)
Lemma export_archives_more k to_ts ckpt_ts idx pi pk l st :
  descending l → positive l → ex_exported_count st ≠ 0 →
  let st' := export_archives k to_ts ckpt_ts idx pi pk l st in
  ex_ckpt_vec st' = ex_ckpt_vec st ∧ ex_ckpt_vec_size st' = ex_ckpt_vec_size st ∧
  ex_akv_vec st' = ex_akv_vec st ++ (archive_record idx <$> filter (in_round ckpt_ts to_ts) l) ∧
  ex_exported_count st' = ex_exported_count st + length (filter (in_round ckpt_ts to_ts) l).
Proof.
  revert st. induction l as [|v l IH]; intros st Hd Hpos Hc; cbn [export_archives].
  { rewrite app_nil_r. auto with lia. }
  pose proof Hd as [_ Hd']%descending_cons. pose proof (Hpos v ltac:(set_solver)).
  assert (positive l) as Hpos' by (intros x Hx; apply Hpos; set_solver).
  destruct (decide (to_ts < commit_ts_ v)%Z) as [Hto|Hto].
  { rewrite filter_cons_False by (unfold in_round; lia). by apply IH. }
  destruct (decide (commit_ts_ v < ckpt_ts ∨ commit_ts_ v = 1)%Z) as [Hstop|Hgo].
  { rewrite filter_cons_False by (unfold in_round; lia).
    rewrite (in_round_none _ _ v) by (done || lia). rewrite app_nil_r.
    assert (bool_decide (commit_ts_ v < ckpt_ts)%Z || bool_decide (commit_ts_ v = 1%Z) = true) as ->
      by (rewrite orb_true_iff, !bool_decide_eq_true; done). auto with lia. }
  rewrite !bool_decide_eq_false_2 by tauto. cbn [orb].
  rewrite filter_cons_True by (unfold in_round; lia).
  destruct (decide (commit_ts_ v = ckpt_ts)) as [Heq|Hne].
  { rewrite (in_round_none _ _ v) by (done || lia). rewrite decide_True by done. cbn. auto with lia. }
  rewrite decide_False by lia.
  destruct (IH (put_archive (archive_record idx v) (mark_being_ckpt st))) as (-> & -> & -> & ->);
    [done|done|done|]. cbn. rewrite <-app_assoc. auto with lia.
Qed.

(** The loop before anything has been exported. *)
Lemma export_archives_first k to_ts ckpt_ts idx l st :
  descending l → positive l → ex_exported_count st = 0 →
  let st' := export_archives k to_ts ckpt_ts idx false false l st in
  match filter (λ v, ckpt_ts < commit_ts_ v ∧ 1 < commit_ts_ v ∧ commit_ts_ v ≤ to_ts)%Z l with
  | [] =>
      ex_ckpt_vec st' = ex_ckpt_vec st ∧ ex_ckpt_vec_size st' = ex_ckpt_vec_size st ∧
      ex_akv_vec st' = ex_akv_vec st ∧ ex_exported_count st' = 0
  | v0 :: _ =>
      ex_ckpt_vec st' = alter (base_record k true v0 (normal_size k v0)) (ex_ckpt_vec_size st)
                          (ex_ckpt_vec st) ∧
      ex_ckpt_vec_size st' = S (ex_ckpt_vec_size st) ∧
      ex_akv_vec st' = ex_akv_vec st ++
        (archive_record idx <$> tail (filter (in_round ckpt_ts to_ts) l)) ∧
      ex_exported_count st' = length (filter (in_round ckpt_ts to_ts) l)
  end.
Proof.
  revert st. induction l as [|v l IH]; intros st Hd Hpos Hc; cbn [export_archives]; [done|].
  pose proof Hd as [Hv Hd']%descending_cons. pose proof (Hpos v ltac:(set_solver)).
  assert (positive l) as Hpos' by (intros x Hx; apply Hpos; set_solver).
  destruct (decide (to_ts < commit_ts_ v)%Z) as [Hto|Hto].
  { rewrite !filter_cons_False by (unfold in_round; lia). by apply IH. }
  destruct (decide (commit_ts_ v < ckpt_ts ∨ commit_ts_ v = 1)%Z) as [Hstop|Hgo].
  { rewrite filter_none by (intros x [->|Hx%Hv]%elem_of_cons; lia).
    assert (bool_decide (commit_ts_ v < ckpt_ts)%Z || bool_decide (commit_ts_ v = 1%Z) = true) as ->
      by (rewrite orb_true_iff, !bool_decide_eq_true; done). auto with lia. }
  rewrite !bool_decide_eq_false_2 by tauto. cbn [orb].
  destruct (decide (commit_ts_ v = ckpt_ts)) as [Heq|Hne].
  { rewrite filter_none by (intros x [->|Hx%Hv]%elem_of_cons; lia).
    rewrite decide_False by lia. auto with lia. }
  rewrite filter_cons_True by lia. rewrite decide_True by done.
  rewrite (filter_cons_True (in_round ckpt_ts to_ts)) by (unfold in_round; lia).
  destruct (export_archives_more k to_ts ckpt_ts idx false false l
    (put_slot (base_record k true v (normal_size k v)) (mark_being_ckpt st)))
    as (-> & -> & -> & ->); [done|done|done|]. cbn. rewrite Hc. auto with lia.
Qed.

(** On a descending list the round is the unflushed versions and then the one
    the base table holds. *)
Lemma round_split ckpt_ts to_ts l :
  descending l →
  filter (in_round ckpt_ts to_ts) l =
    filter (λ v, ckpt_ts < commit_ts_ v ∧ 1 < commit_ts_ v ∧ commit_ts_ v ≤ to_ts)%Z l ++
    filter (λ v, commit_ts_ v = ckpt_ts ∧ 1 < commit_ts_ v ∧ commit_ts_ v ≤ to_ts)%Z l.
Proof.
  induction l as [|v l IH]; [done|]. intros Hd. pose proof Hd as [Hv Hd']%descending_cons.
  specialize (IH Hd'). destruct (decide (in_round ckpt_ts to_ts v)) as [Hin|Hout].
  2: { rewrite !filter_cons_False by (unfold in_round in *; lia). done. }
  rewrite (filter_cons_True (in_round ckpt_ts to_ts)) by done. unfold in_round in Hin.
  destruct (decide (commit_ts_ v = ckpt_ts)) as [Heq|Hne].
  - rewrite (in_round_none _ _ v) by (done || lia).
    rewrite (filter_none _ (v :: l)) by (intros x [->|Hx%Hv]%elem_of_cons; lia).
    rewrite filter_cons_True by lia. rewrite (filter_none _ l) by (intros x Hx%Hv; lia). done.
  - rewrite filter_cons_True by lia. rewrite filter_cons_False by lia. by rewrite IH.
Qed.
End export.


