(* ===== verification/LruList.v ===== *)
(** * The LRU list of pages

    The pages of the data tables of a shard form one doubly linked list between
    [head_ccp_] and [tail_ccp_], in the order of their last access; a cleaning pass
    walks it from [clean_start_ccp_].  [cc_shard.cpp] moves pages in it, and the cc
    maps insert, move and merge pages when they split and rebalance.  The theorem says
    that the links always form one list without a dangling page, and which page each
    operation puts where. *)

From S2P Require Import Prelude.

(** ** Doubly linked lists *)

Section chain.
Implicit Types (nx pv : Z → option Z) (l : list Z) (a b p x : Z).

(** Consecutive elements point to each other. *)
Fixpoint chain nx pv l : Prop :=
  match l with
  | a :: (b :: _) as t => nx a = Some b ∧ pv b = Some a ∧ chain nx pv t
  | _ => True
  end.

Lemma link_chain_app nx pv l1 a l2 : chain nx pv (l1 ++ a :: l2) ↔ chain nx pv (l1 ++ [a]) ∧ chain nx pv (a :: l2).
Proof.
  induction l1 as [|x l1 IH]; [cbn; tauto|]. destruct l1 as [|y l1]; [cbn; tauto|].
  change ((x :: y :: l1) ++ a :: l2) with (x :: y :: (l1 ++ a :: l2)).
  change ((x :: y :: l1) ++ [a]) with (x :: y :: (l1 ++ [a])).
  cbn [chain]. change (y :: l1 ++ a :: l2) with ((y :: l1) ++ a :: l2). change (y :: l1 ++ [a]) with ((y :: l1) ++ [a]).
  rewrite IH. tauto.
Qed.

Lemma chain_ext_cons nx pv nx' pv' a l :
  chain nx pv (a :: l) → (∀ x, x ∈ a :: l → nx' x = nx x) → (∀ x, x ∈ l → pv' x = pv x) → chain nx' pv' (a :: l).
Proof.
  revert a. induction l as [|b l IH]; intros a Hc Hn Hp; [done|]. destruct Hc as (H1 & H2 & Hc).
  cbn [chain]. rewrite Hn, Hp by set_solver. split_and!; [done|done|]. apply IH; [done|set_solver..].
Qed.

Lemma chain_ext_snoc nx pv nx' pv' l a :
  chain nx pv (l ++ [a]) → (∀ x, x ∈ l → nx' x = nx x) → (∀ x, x ∈ l ++ [a] → pv' x = pv x) → chain nx' pv' (l ++ [a]).
Proof.
  induction l as [|b l IH]; intros Hc Hn Hp; [done|].
  destruct l as [|c l]; cbn in Hc |- *.
  - destruct Hc as (H1 & H2 & _). rewrite Hn, Hp by set_solver. done.
  - destruct Hc as (H1 & H2 & Hc). rewrite Hn, Hp by set_solver. split_and!; [done|done|].
    apply IH; [done|set_solver..].
Qed.

(** The list with its end points: nothing before the first and after the last. *)
Record linked nx pv l : Prop := {
  lk_dup : NoDup l;
  lk_chain : chain nx pv l;
}.

Lemma linked_next nx pv l1 a b l2 : linked nx pv (l1 ++ a :: b :: l2) → nx a = Some b ∧ pv b = Some a.
Proof. intros [_ Hc]. apply link_chain_app in Hc as [_ (? & ? & _)]. done. Qed.

(** Insertion of [p] between [a] and [b]. *)
Lemma linked_insert nx pv nx' pv' l1 a b l2 p :
  linked nx pv (l1 ++ a :: b :: l2) → p ∉ l1 ++ a :: b :: l2 →
  nx' a = Some p → nx' p = Some b → pv' b = Some p → pv' p = Some a →
  (∀ x, x ∈ l1 ++ b :: l2 → nx' x = nx x) → (∀ x, x ∈ l1 ++ a :: l2 → pv' x = pv x) →
  linked nx' pv' (l1 ++ a :: p :: b :: l2).
Proof.
  intros [Hd Hc] Hp Ha Hpn Hb Hpp Hn Hpv. apply link_chain_app in Hc as [H1 (_ & _ & H2)]. split.
  - apply NoDup_app in Hd as (D1 & D2 & D3). apply NoDup_app. split_and!; [done|set_solver|].
    apply NoDup_cons in D3 as [D3 D4]. apply NoDup_cons. split; [set_solver|]. apply NoDup_cons. set_solver.
  - apply link_chain_app. split.
    + apply (chain_ext_snoc nx pv); [done|set_solver..].
    + cbn [chain]. split_and!; try done. apply (chain_ext_cons nx pv); [done|set_solver..].
Qed.

(** Removal of [p] between [a] and [b]. *)
Lemma linked_remove nx pv nx' pv' l1 a p b l2 :
  linked nx pv (l1 ++ a :: p :: b :: l2) → nx' a = Some b → pv' b = Some a →
  (∀ x, x ∈ l1 ++ b :: l2 → nx' x = nx x) → (∀ x, x ∈ l1 ++ a :: l2 → pv' x = pv x) →
  linked nx' pv' (l1 ++ a :: b :: l2).
Proof.
  intros [Hd Hc] Ha Hb Hn Hp. apply link_chain_app in Hc as [H1 (_ & _ & _ & _ & H2)]. split.
  - eapply sublist_NoDup; [exact Hd|]. apply sublist_app; [done|]. by apply sublist_skip, sublist_cons.
  - apply link_chain_app. split.
    + apply (chain_ext_snoc nx pv); [done|set_solver..].
    + cbn [chain]. split_and!; [done|done|]. apply (chain_ext_cons nx pv); [done|set_solver..].
Qed.

(** Replacement of [p] by [q]. *)
Lemma linked_replace nx pv nx' pv' l1 a p b l2 q :
  linked nx pv (l1 ++ a :: p :: b :: l2) → q ∉ l1 ++ a :: b :: l2 →
  nx' a = Some q → nx' q = Some b → pv' b = Some q → pv' q = Some a →
  (∀ x, x ∈ l1 ++ b :: l2 → nx' x = nx x) → (∀ x, x ∈ l1 ++ a :: l2 → pv' x = pv x) →
  linked nx' pv' (l1 ++ a :: q :: b :: l2).
Proof.
  intros [Hd Hc] Hq Ha Hqn Hb Hqp Hn Hp. apply link_chain_app in Hc as [H1 (_ & _ & _ & _ & H2)]. split.
  - apply NoDup_app in Hd as (D1 & D2 & D3). apply NoDup_app. split_and!; [done|set_solver|].
    rewrite !NoDup_cons in *. set_solver.
  - apply link_chain_app. split.
    + apply (chain_ext_snoc nx pv); [done|set_solver..].
    + cbn [chain]. split_and!; try done. apply (chain_ext_cons nx pv); [done|set_solver..].
Qed.
End chain.

(** ** The list of a shard *)

(** The members [lru_prev_], [lru_next_] and [last_access_ts_] of the pages, by the
    address of the page; a null pointer is a missing key. *)
Record LruList := mkLru {
  lru_prev_ : gmap Z Z;
  lru_next_ : gmap Z Z;
  last_access_ts_ : gmap Z Z;
  access_counter_ : Z;
  clean_start_ccp_ : option Z;
}.

(** The addresses of the members [head_ccp_] and [tail_ccp_] of the shard. *)
Definition head_ccp_ : Z := -1.
Definition tail_ccp_ : Z := -2.

Section lru.
Implicit Types (s : LruList) (p q : Z).

Definition lru_init : LruList := mkLru {[tail_ccp_ := head_ccp_]} {[head_ccp_ := tail_ccp_]} ∅ 0 None.

Definition set_links s (pv nx : gmap Z Z) : LruList :=
  mkLru pv nx (last_access_ts_ s) (access_counter_ s) (clean_start_ccp_ s).
Definition set_access s p (ts : Z) : LruList :=
  mkLru (lru_prev_ s) (lru_next_ s) (<[p := ts]> (last_access_ts_ s)) (access_counter_ s) (clean_start_ccp_ s).
Definition set_clean_start s (c : option Z) : LruList :=
  mkLru (lru_prev_ s) (lru_next_ s) (last_access_ts_ s) (access_counter_ s) c.
Definition access_ts s p : Z := default 0%Z (last_access_ts_ s !! p).

(** [++access_counter_; page->last_access_ts_ = access_counter_]. *)
Definition touch s p : LruList :=
  let n := u64 (access_counter_ s + 1) in
  mkLru (lru_prev_ s) (lru_next_ s) (<[p := n]> (last_access_ts_ s)) n (clean_start_ccp_ s).

(** [None] is the failure of the assertion that the page is in the list. *)
Definition DetachLru s p : option LruList :=
  prev ← lru_prev_ s !! p;
  next ← lru_next_ s !! p;
  let s1 := if decide (clean_start_ccp_ s = Some p) then set_clean_start s (Some next) else s in
  Some (set_links s1 (delete p (<[next := prev]> (lru_prev_ s1))) (delete p (<[prev := next]> (lru_next_ s1)))).

Definition detach_if_linked s p : option LruList :=
  match lru_next_ s !! p with Some _ => DetachLru s p | None => Some s end.

(** The page goes between [a] and [b]. *)
Definition link_between s a p b : LruList :=
  set_links s (<[p := a]> (<[b := p]> (lru_prev_ s))) (<[p := b]> (<[a := p]> (lru_next_ s))).

Definition ReplaceLru s old_page new_page : option LruList :=
  prev ← lru_prev_ s !! old_page;
  next ← lru_next_ s !! old_page;
  let s1 := if decide (clean_start_ccp_ s = Some old_page) then set_clean_start s (Some new_page) else s in
  Some (link_between (set_links s1 (delete old_page (lru_prev_ s1)) (delete old_page (lru_next_ s1)))
          prev new_page next).

(** [is_data]: the table is a data table. *)
Definition UpdateLruList s (is_data : bool) p (is_emplace : bool) : option LruList :=
  if negb is_data then Some s
  else if bool_decide (lru_next_ s !! p = Some tail_ccp_) && bool_decide (lru_prev_ s !! tail_ccp_ = Some p) then
    Some (touch s p)
  else
    s1 ← detach_if_linked s p;
    second_tail ← lru_prev_ s1 !! tail_ccp_;
    let s2 := touch (link_between s1 second_tail p tail_ccp_) p in
    Some (if is_emplace && bool_decide (clean_start_ccp_ s2 = Some tail_ccp_) then set_clean_start s2 (Some p) else s2).

(** A split puts the new page behind the old one, if that is in the list. *)
Definition lru_split s old_page new_page : option LruList :=
  match lru_next_ s !! old_page with
  | None => Some s
  | Some next => Some (set_access (link_between s old_page new_page next) new_page (access_ts s old_page))
  end.

(** The redistribution of entries puts the less recently used page behind the more
    recently used one. *)
Definition lru_redistribute s page1 page2 : option LruList :=
  let '(more, less) := if decide (access_ts s page2 < access_ts s page1)%Z then (page1, page2) else (page2, page1) in
  s1 ← detach_if_linked s less;
  next ← lru_next_ s1 !! more;
  Some (set_access (link_between s1 more less next) less (access_ts s1 more)).

(** The merge of [page2] into [page1] leaves [page1] at the place of the more recently
    used one. *)
Definition lru_merge s page1 page2 : option LruList :=
  if bool_decide (lru_next_ s !! page1 = Some page2) || bool_decide (lru_prev_ s !! page1 = Some page2) then
    detach_if_linked s page2
  else
    let '(recent, ts) :=
      if decide (access_ts s page2 < access_ts s page1)%Z then (page1, access_ts s page1) else (page2, access_ts s page2) in
    prev ← lru_prev_ s !! recent;
    next ← lru_next_ s !! recent;
    s1 ← detach_if_linked s page1;
    s2 ← detach_if_linked s1 page2;
    Some (set_access (link_between s2 prev page1 next) page1 ts).
End lru.

(** ** The links form one list *)

Section lru_spec.
Implicit Types (s : LruList) (p q a b : Z) (xs l : list Z).

(** The pages of the list are [xs]: exactly they have links, and a cleaning pass
    starts at one of them or at the end. *)
Record lru_ok s xs : Prop := {
  lo_linked : linked (λ p, lru_next_ s !! p) (λ p, lru_prev_ s !! p) (head_ccp_ :: xs ++ [tail_ccp_]);
  lo_next : ∀ p, is_Some (lru_next_ s !! p) → p ∈ head_ccp_ :: xs;
  lo_prev : ∀ p, is_Some (lru_prev_ s !! p) → p ∈ xs ++ [tail_ccp_];
  lo_clean : ∀ c, clean_start_ccp_ s = Some c → c ∈ xs ++ [tail_ccp_];
}.

Lemma lru_init_ok : lru_ok lru_init [].
Proof.
  split; cbn.
  - split; [|by cbn]. apply NoDup_cons. split; [|apply NoDup_singleton]. rewrite list_elem_of_singleton. done.
  - intros p [x Hx]. apply lookup_singleton_Some in Hx as [<- _]. set_solver.
  - intros p [x Hx]. apply lookup_singleton_Some in Hx as [<- _]. set_solver.
  - done.
Qed.

(** The neighbours of a place. *)
Definition pred_of l1 : Z := default head_ccp_ (last l1).
Definition succ_of l2 : Z := default tail_ccp_ (head l2).

Lemma pred_split l1 : ∃ L, head_ccp_ :: l1 = L ++ [pred_of l1].
Proof.
  unfold pred_of. destruct l1 as [|x l1 _] using rev_ind; [by exists []|]. exists (head_ccp_ :: l1).
  by rewrite last_snoc.
Qed.
Lemma succ_split l2 : ∃ L, l2 ++ [tail_ccp_] = succ_of l2 :: L.
Proof. destruct l2 as [|x l2]; cbn; eauto. Qed.

Lemma place_split l1 l2 : ∃ L1 L2,
  head_ccp_ :: l1 = L1 ++ [pred_of l1] ∧ l2 ++ [tail_ccp_] = succ_of l2 :: L2 ∧
  (∀ p, head_ccp_ :: (l1 ++ p :: l2) ++ [tail_ccp_] = L1 ++ pred_of l1 :: p :: succ_of l2 :: L2) ∧
  head_ccp_ :: (l1 ++ l2) ++ [tail_ccp_] = L1 ++ pred_of l1 :: succ_of l2 :: L2.
Proof.
  destruct (pred_split l1) as [L1 H1], (succ_split l2) as [L2 H2]. exists L1, L2. split_and!; [done|done| |].
  - intros p. rewrite <-app_assoc, app_comm_cons, H1, <-app_assoc. cbn. by rewrite H2.
  - by rewrite <-app_assoc, app_comm_cons, H1, <-app_assoc, H2.
Qed.

Lemma lru_links s l1 p l2 :
  lru_ok s (l1 ++ p :: l2) → lru_prev_ s !! p = Some (pred_of l1) ∧ lru_next_ s !! p = Some (succ_of l2).
Proof.
  intros Hok. destruct (place_split l1 l2) as (L1 & L2 & _ & _ & Hp & _). pose proof (lo_linked _ _ Hok) as Hl.
  rewrite Hp in Hl. destruct (linked_next _ _ _ _ _ _ Hl) as [_ ?]. split; [done|].
  change (L1 ++ pred_of l1 :: p :: succ_of l2 :: L2) with (L1 ++ [pred_of l1] ++ p :: succ_of l2 :: L2) in Hl.
  rewrite app_assoc in Hl. by destruct (linked_next _ _ _ _ _ _ Hl).
Qed.

Lemma lru_distinct s xs : lru_ok s xs → NoDup xs ∧ head_ccp_ ∉ xs ∧ tail_ccp_ ∉ xs.
Proof.
  intros Hok. pose proof (lk_dup _ _ _ (lo_linked _ _ Hok)) as Hd. apply NoDup_cons in Hd as [H1 Hd].
  apply NoDup_app in Hd as (H2 & H3 & _). split; [done|]. split; [set_solver|]. intros Ht. apply (H3 _ Ht). set_solver.
Qed.

Lemma lru_absent s xs p :
  lru_ok s xs → p ∉ xs → p ≠ head_ccp_ → p ≠ tail_ccp_ → lru_next_ s !! p = None ∧ lru_prev_ s !! p = None.
Proof.
  intros Hok Hp Hh Ht. split; apply eq_None_not_Some; intros Hs.
  - apply (lo_next _ _ Hok) in Hs. set_solver.
  - apply (lo_prev _ _ Hok) in Hs. set_solver.
Qed.

Lemma DetachLru_ok s l1 p l2 :
  lru_ok s (l1 ++ p :: l2) →
  ∃ s', DetachLru s p = Some s' ∧ lru_ok s' (l1 ++ l2) ∧ last_access_ts_ s' = last_access_ts_ s ∧
    access_counter_ s' = access_counter_ s.
Proof.
  intros Hok. destruct (lru_links _ _ _ _ Hok) as [Hpv Hnx]. destruct (lru_distinct _ _ Hok) as (Hd & Hh & Ht).
  destruct (place_split l1 l2) as (L1 & L2 & E1 & E2 & E3 & E4).
  pose proof (lo_linked _ _ Hok) as Hl. rewrite E3 in Hl. pose proof (lk_dup _ _ _ Hl) as Hdl.
  assert (p ∉ L1 ++ pred_of l1 :: succ_of l2 :: L2) as Hp.
  { apply NoDup_app in Hdl as (_ & H2 & H3). rewrite !NoDup_cons in H3. set_solver. }
  assert (pred_of l1 ∉ L1 ++ succ_of l2 :: L2 ∧ succ_of l2 ∉ L1 ++ pred_of l1 :: L2) as [Ha Hb].
  { apply NoDup_app in Hdl as (_ & H2 & H3). rewrite !NoDup_cons in H3. set_solver. }
  assert (l1 ++ l2 ⊆ l1 ++ p :: l2) as Hsub by set_solver.
  unfold DetachLru. rewrite Hpv, Hnx. cbn [mbind option_bind]. eexists. split; [done|].
  set (s1 := if decide (clean_start_ccp_ s = Some p) then _ else s).
  assert (lru_prev_ s1 = lru_prev_ s ∧ lru_next_ s1 = lru_next_ s ∧ last_access_ts_ s1 = last_access_ts_ s ∧
    access_counter_ s1 = access_counter_ s) as (F1 & F2 & F3 & F4) by (unfold s1; by case_decide).
  split; [|done]. split; cbn; rewrite ?F1, ?F2.
  - rewrite E4. eapply linked_remove; [exact Hl|..].
    + by rewrite lookup_delete_ne, lookup_insert_eq by set_solver.
    + by rewrite lookup_delete_ne, lookup_insert_eq by set_solver.
    + intros x Hx. by rewrite lookup_delete_ne, lookup_insert_ne by set_solver.
    + intros x Hx. by rewrite lookup_delete_ne, lookup_insert_ne by set_solver.
  - intros q [x Hq]. apply lookup_delete_Some in Hq as [Hne Hq].
    assert (q ∈ head_ccp_ :: l1 ++ p :: l2) as Hin; [|set_solver].
    apply lookup_insert_Some in Hq as [[<- _]|[_ Hq]]; [|apply (lo_next _ _ Hok); by eexists].
    assert (pred_of l1 ∈ head_ccp_ :: l1) by (rewrite E1; set_solver). set_solver.
  - intros q [x Hq]. apply lookup_delete_Some in Hq as [Hne Hq].
    assert (q ∈ (l1 ++ p :: l2) ++ [tail_ccp_]) as Hin; [|set_solver].
    apply lookup_insert_Some in Hq as [[<- _]|[_ Hq]]; [|apply (lo_prev _ _ Hok); by eexists].
    assert (succ_of l2 ∈ l2 ++ [tail_ccp_]) by (rewrite E2; set_solver). set_solver.
  - intros c Hc. unfold s1 in Hc. case_decide as Hcs; cbn in Hc.
    + injection Hc as <-. assert (succ_of l2 ∈ l2 ++ [tail_ccp_]) by (rewrite E2; set_solver). set_solver.
    + apply (lo_clean _ _ Hok) in Hc as Hin. assert (c ≠ p) by congruence. set_solver.
Qed.

Lemma link_between_ok s l1 p l2 :
  lru_ok s (l1 ++ l2) → p ∉ head_ccp_ :: (l1 ++ l2) ++ [tail_ccp_] →
  lru_ok (link_between s (pred_of l1) p (succ_of l2)) (l1 ++ p :: l2).
Proof.
  intros Hok Hp. destruct (place_split l1 l2) as (L1 & L2 & E1 & E2 & E3 & E4).
  pose proof (lo_linked _ _ Hok) as Hl. rewrite E4 in Hl. rewrite E4 in Hp. pose proof (lk_dup _ _ _ Hl) as Hdl.
  assert (pred_of l1 ∉ L1 ++ succ_of l2 :: L2 ∧ succ_of l2 ∉ L1 ++ pred_of l1 :: L2) as [Ha Hb].
  { apply NoDup_app in Hdl as (_ & H2 & H3). rewrite !NoDup_cons in H3. set_solver. }
  assert (pred_of l1 ∈ head_ccp_ :: l1 ∧ succ_of l2 ∈ l2 ++ [tail_ccp_]) as [I1 I2] by (rewrite E1, E2; set_solver).
  split; cbn.
  - rewrite E3. eapply linked_insert; [exact Hl|exact Hp|..].
    + by rewrite lookup_insert_ne, lookup_insert_eq by set_solver.
    + by rewrite lookup_insert_eq.
    + by rewrite lookup_insert_ne, lookup_insert_eq by set_solver.
    + by rewrite lookup_insert_eq.
    + intros x Hx. by rewrite !lookup_insert_ne by set_solver.
    + intros x Hx. by rewrite !lookup_insert_ne by set_solver.
  - intros q [x [[<- _]|[_ [[<- _]|[_ Hq]]%lookup_insert_Some]]%lookup_insert_Some]; [set_solver..|].
    pose proof (lo_next _ _ Hok q ltac:(by eexists)). set_solver.
  - intros q [x [[<- _]|[_ [[<- _]|[_ Hq]]%lookup_insert_Some]]%lookup_insert_Some]; [set_solver..|].
    pose proof (lo_prev _ _ Hok q ltac:(by eexists)). set_solver.
  - intros c Hc%(lo_clean _ _ Hok). set_solver.
Qed.

Lemma lru_ok_access s s' xs :
  lru_ok s xs → lru_prev_ s' = lru_prev_ s → lru_next_ s' = lru_next_ s → clean_start_ccp_ s' = clean_start_ccp_ s →
  lru_ok s' xs.
Proof. intros [H1 H2 H3 H4] E1 E2 E3. split; rewrite ?E1, ?E2, ?E3; done. Qed.

(** *** The operations on lists *)

Definition without p xs : list Z := filter (λ x, x ≠ p) xs.
Definition behind a p xs : list Z := xs ≫= λ x, if decide (x = a) then [x; p] else [x].
Definition replaced q p xs : list Z := (λ x, if decide (x = q) then p else x) <$> xs.

Lemma without_absent p xs : p ∉ xs → without p xs = xs.
Proof.
  unfold without. induction xs as [|x xs IH]; intros Hp; [done|].
  rewrite filter_cons, decide_True, IH by set_solver. done.
Qed.
Lemma without_split p l1 l2 : p ∉ l1 ++ l2 → without p (l1 ++ p :: l2) = l1 ++ l2.
Proof.
  intros Hp. unfold without. rewrite filter_app, filter_cons, decide_False by naive_solver. fold (without p l1) (without p l2).
  by rewrite !without_absent by set_solver.
Qed.
Lemma elem_of_without p x xs : x ∈ without p xs ↔ x ∈ xs ∧ x ≠ p.
Proof. unfold without. rewrite list_elem_of_filter. tauto. Qed.
Lemma behind_absent a p xs : a ∉ xs → behind a p xs = xs.
Proof. unfold behind. induction xs as [|x xs IH]; intros Ha; [done|]. cbn. rewrite decide_False, IH by set_solver. done. Qed.
Lemma behind_split a p l1 l2 : a ∉ l1 ++ l2 → behind a p (l1 ++ a :: l2) = l1 ++ a :: p :: l2.
Proof.
  intros Ha. unfold behind. rewrite bind_app. cbn. rewrite decide_True by done. fold (behind a p l1) (behind a p l2).
  rewrite !behind_absent by set_solver. done.
Qed.
Lemma replaced_absent q p xs : q ∉ xs → replaced q p xs = xs.
Proof.
  unfold replaced. induction xs as [|x xs IH]; intros Hq; [done|]. cbn. rewrite decide_False by set_solver.
  by rewrite IH by set_solver.
Qed.
Lemma replaced_split q p l1 l2 : q ∉ l1 ++ l2 → replaced q p (l1 ++ q :: l2) = l1 ++ p :: l2.
Proof.
  intros Hq. unfold replaced. rewrite fmap_app, fmap_cons. rewrite decide_True by done.
  fold (replaced q p l1) (replaced q p l2). by rewrite !replaced_absent by set_solver.
Qed.

Lemma split_distinct l1 p l2 : NoDup (l1 ++ p :: l2) → p ∉ l1 ++ l2.
Proof. intros (_ & H1 & H2)%NoDup_app. apply NoDup_cons in H2. set_solver. Qed.

Definition is_page p : Prop := p ≠ head_ccp_ ∧ p ≠ tail_ccp_.

Lemma detach_ok s xs p :
  lru_ok s xs → is_page p →
  ∃ s', detach_if_linked s p = Some s' ∧ lru_ok s' (without p xs) ∧ last_access_ts_ s' = last_access_ts_ s ∧
    access_counter_ s' = access_counter_ s.
Proof.
  intros Hok [Hh Ht]. unfold detach_if_linked. destruct (decide (p ∈ xs)) as [Hin|Hni].
  - apply list_elem_of_split in Hin as (l1 & l2 & ->). destruct (lru_distinct _ _ Hok) as (Hd & _).
    destruct (lru_links _ _ _ _ Hok) as [_ ->]. rewrite without_split by by apply split_distinct. by apply DetachLru_ok.
  - destruct (lru_absent _ _ _ Hok Hni Hh Ht) as [-> _]. rewrite without_absent by done. by exists s.
Qed.

Lemma link_behind_ok s xs a p nx :
  lru_ok s xs → a ∈ xs → is_page p → p ∉ xs → lru_next_ s !! a = Some nx → lru_ok (link_between s a p nx) (behind a p xs).
Proof.
  intros Hok Ha [Hh Ht] Hp Hnx. destruct (lru_distinct _ _ Hok) as (Hd & _).
  apply list_elem_of_split in Ha as (l1 & l2 & ->). destruct (lru_links _ _ _ _ Hok) as [_ Hs]. rewrite Hs in Hnx. injection Hnx as <-.
  rewrite behind_split by by apply split_distinct.
  replace (l1 ++ a :: p :: l2) with ((l1 ++ [a]) ++ p :: l2) by by rewrite <-app_assoc.
  replace a with (pred_of (l1 ++ [a])) at 1 by (unfold pred_of; by rewrite last_snoc).
  apply link_between_ok; rewrite <-app_assoc; [done|]. cbn. set_solver.
Qed.

Lemma UpdateLruList_ok s xs p is_emplace :
  lru_ok s xs → is_page p →
  ∃ s', UpdateLruList s true p is_emplace = Some s' ∧ lru_ok s' (without p xs ++ [p]).
Proof.
  intros Hok Hp. destruct (lru_distinct _ _ Hok) as (Hd & Hh & Ht). unfold UpdateLruList. cbn [negb].
  destruct (bool_decide (lru_next_ s !! p = Some tail_ccp_) && _) eqn:E.
  - bool_to_prop. assert (p ∈ xs) as Hin. { pose proof (lo_next _ _ Hok p ltac:(by eexists)). destruct Hp. set_solver. }
    apply list_elem_of_split in Hin as (l1 & l2 & ->). destruct (lru_links _ _ _ _ Hok) as [_ Hnx]. rewrite Hnx in *.
    destruct l2 as [|y l2]; cbn in *; [|simplify_eq; set_solver]. eexists. split; [done|].
    rewrite without_split by by apply split_distinct. rewrite app_nil_r. by apply (lru_ok_access s).
  - destruct (detach_ok s xs p Hok Hp) as (s1 & -> & Hok1 & _). cbn [mbind option_bind].
    assert (lru_prev_ s1 !! tail_ccp_ = Some (pred_of (without p xs))) as ->.
    { destruct (place_split (without p xs) []) as (L1 & L2 & E1 & E2 & E3 & E4). pose proof (lo_linked _ _ Hok1) as Hl.
      rewrite app_nil_r in E4. rewrite E4 in Hl. by destruct (linked_next _ _ _ _ _ _ Hl). }
    cbn [mbind option_bind]. eexists. split; [done|].
    assert (lru_ok (link_between s1 (pred_of (without p xs)) p tail_ccp_) (without p xs ++ [p])) as Hok2.
    { apply (link_between_ok s1 (without p xs) p []); rewrite app_nil_r; [done|]. destruct Hp.
      rewrite elem_of_cons, elem_of_app, elem_of_without. set_solver. }
    apply (lru_ok_access _ (touch (link_between s1 (pred_of (without p xs)) p tail_ccp_) p)) in Hok2; [|done..].
    case_match; [|done]. destruct Hok2 as [H1 H2 H3 H4]. split; cbn; [done..|]. intros c [= <-]. set_solver.
Qed.

Lemma lru_split_ok s xs old_page new_page :
  lru_ok s xs → is_page new_page → is_page old_page → new_page ∉ xs →
  ∃ s', lru_split s old_page new_page = Some s' ∧ lru_ok s' (behind old_page new_page xs).
Proof.
  intros Hok Hn Ho Hni. unfold lru_split. destruct (lru_next_ s !! old_page) as [nx|] eqn:E.
  - eexists. split; [done|]. assert (old_page ∈ xs) as Hin.
    { pose proof (lo_next _ _ Hok old_page ltac:(by eexists)). destruct Ho. set_solver. }
    pose proof (link_behind_ok _ _ _ _ _ Hok Hin Hn Hni E) as Hok2. by apply (lru_ok_access _ _ _ Hok2).
  - exists s. split; [done|]. rewrite behind_absent; [done|]. intros Hin.
    apply list_elem_of_split in Hin as (l1 & l2 & ->). destruct (lru_links _ _ _ _ Hok). congruence.
Qed.

(** The more recently used of two pages. *)
Definition more_recent s p q : Z * Z := if decide (access_ts s q < access_ts s p)%Z then (p, q) else (q, p).

Lemma lru_redistribute_ok s xs p q :
  lru_ok s xs → is_page p → is_page q → p ≠ q → (more_recent s p q).1 ∈ xs →
  ∃ s', lru_redistribute s p q = Some s' ∧
    let '(more, less) := more_recent s p q in lru_ok s' (behind more less (without less xs)).
Proof.
  intros Hok Hp Hq Hne Hin. unfold lru_redistribute. fold (more_recent s p q).
  assert (is_page (more_recent s p q).1 ∧ is_page (more_recent s p q).2 ∧ (more_recent s p q).1 ≠ (more_recent s p q).2)
    as (Hm & Hl & Hml) by (unfold more_recent; case_decide; naive_solver).
  destruct (more_recent s p q) as [more less]. cbn [fst snd] in *.
  destruct (detach_ok s xs less Hok Hl) as (s1 & -> & Hok1 & _). cbn [mbind option_bind].
  assert (more ∈ without less xs) as Hin1 by (by apply elem_of_without).
  pose proof Hin1 as (l1 & l2 & E)%list_elem_of_split. pose proof Hok1 as Hok1'. rewrite E in Hok1'.
  destruct (lru_links _ _ _ _ Hok1') as [_ Hnx]. rewrite Hnx. cbn [mbind option_bind]. eexists. split; [done|].
  assert (less ∉ without less xs) as Hnl by (rewrite elem_of_without; tauto).
  pose proof (link_behind_ok _ _ _ _ _ Hok1 Hin1 Hl Hnl Hnx) as Hok2. by apply (lru_ok_access _ _ _ Hok2).
Qed.

Lemma without_app p l1 l2 : without p (l1 ++ l2) = without p l1 ++ without p l2.
Proof. apply filter_app. Qed.

(** Removing a page that is not next to the place keeps the neighbours. *)
Lemma pred_without p l : last l ≠ Some p → pred_of (without p l) = pred_of l.
Proof.
  intros Hl. unfold pred_of. destruct l as [|x l _] using rev_ind; [done|]. rewrite last_snoc in Hl.
  unfold without. rewrite filter_app, filter_cons, decide_True by congruence.
  by rewrite filter_nil, !last_snoc.
Qed.
Lemma succ_without p l : head l ≠ Some p → succ_of (without p l) = succ_of l.
Proof.
  intros Hl. unfold succ_of. destruct l as [|x l]; [done|]. cbn in Hl. unfold without.
  by rewrite filter_cons, decide_True by congruence.
Qed.

(** The neighbours of a page, seen from the neighbours. *)
Lemma neighbours s l1 p l2 q :
  lru_ok s (l1 ++ p :: l2) → is_page p →
  (last l1 = Some q → lru_next_ s !! q = Some p) ∧ (head l2 = Some q → lru_prev_ s !! q = Some p).
Proof.
  intros Hok Hp. split.
  - destruct l1 as [|x l1 _] using rev_ind; [done|]. rewrite last_snoc. intros [= ->]. rewrite <-app_assoc in Hok.
    by destruct (lru_links _ _ _ _ Hok) as [_ ->].
  - destruct l2 as [|x l2]; [done|]. cbn. intros [= ->]. replace (l1 ++ p :: q :: l2) with ((l1 ++ [p]) ++ q :: l2) in Hok by by rewrite <-app_assoc.
    destruct (lru_links _ _ _ _ Hok) as [-> _]. unfold pred_of. by rewrite last_snoc.
Qed.

(** The list after a merge of [q] into [p]: [p] has the place of the more recent. *)
Definition merged_list s p q xs : list Z :=
  if decide (access_ts s q < access_ts s p)%Z then without q xs else replaced q p (without p xs).

Lemma merged_adjacent s p q l1 l2 xs :
  p ≠ q → xs = l1 ++ p :: q :: l2 ∨ xs = l1 ++ q :: p :: l2 → NoDup xs → merged_list s p q xs = without q xs.
Proof.
  intros Hne Hxs Hd. unfold merged_list. case_decide; [done|].
  assert (p ∉ l1 ++ l2 ∧ q ∉ l1 ++ l2) as [Hp Hq].
  { destruct Hxs as [->| ->]; apply NoDup_app in Hd as (_ & H1 & H2); rewrite !NoDup_cons in H2; set_solver. }
  assert (without p xs = l1 ++ q :: l2 ∧ without q xs = l1 ++ p :: l2) as [-> ->].
  { assert (∀ a b k, without b (l1 ++ a :: b :: k) = without b ((l1 ++ [a]) ++ b :: k)) as Hassoc
      by (intros; by rewrite <-app_assoc).
    destruct Hxs as [->| ->]; rewrite Hassoc, !without_split by set_solver; by rewrite <-app_assoc. }
  by rewrite replaced_split.
Qed.

Lemma detach_twice s l1 r l2 p q :
  lru_ok s (l1 ++ r :: l2) → is_page p → is_page q → r = p ∨ r = q → p ≠ q →
  last l1 ≠ Some (if decide (r = p) then q else p) → head l2 ≠ Some (if decide (r = p) then q else p) →
  let w := without (if decide (r = p) then q else p) in
  ∃ s1 s2, detach_if_linked s p = Some s1 ∧ detach_if_linked s1 q = Some s2 ∧ lru_ok s2 (w l1 ++ w l2) ∧
    pred_of (w l1) = pred_of l1 ∧ succ_of (w l2) = succ_of l2.
Proof.
  intros Hok Hp Hq Hr Hne Hl Hh w. destruct (lru_distinct _ _ Hok) as (Hd & _). pose proof (split_distinct _ _ _ Hd) as Hnr.
  destruct (detach_ok s _ p Hok Hp) as (s1 & E1 & Hok1 & _). destruct (detach_ok s1 _ q Hok1 Hq) as (s2 & E2 & Hok2 & _).
  exists s1, s2. split_and!; [done|done| |by apply pred_without|by apply succ_without].
  enough (without q (without p (l1 ++ r :: l2)) = w l1 ++ w l2) as <- by done. subst w.
  destruct (decide (r = p)) as [->|].
  - by rewrite without_split, without_app by done.
  - assert (r = q) as -> by naive_solver. unfold without at 2. rewrite filter_app, filter_cons, decide_True by done.
    fold (without p l1) (without p l2). rewrite without_split; [done|]. rewrite elem_of_app, !elem_of_without. set_solver.
Qed.

Lemma lru_merge_ok s xs p q :
  lru_ok s xs → is_page p → is_page q → p ≠ q → (more_recent s p q).1 ∈ xs →
  ∃ s', lru_merge s p q = Some s' ∧ lru_ok s' (merged_list s p q xs).
Proof.
  intros Hok Hp Hq Hne Hin. destruct (lru_distinct _ _ Hok) as (Hd & _). unfold lru_merge.
  destruct (bool_decide (lru_next_ s !! p = Some q) || bool_decide (lru_prev_ s !! p = Some q)) eqn:E.
  - rewrite orb_true_iff, !bool_decide_eq_true in E.
    assert (∃ l1 l2, xs = l1 ++ p :: q :: l2 ∨ xs = l1 ++ q :: p :: l2) as (l1 & l2 & Hxs).
    { assert (p ∈ xs) as Hpx.
      { destruct E as [E|E]; [pose proof (lo_next _ _ Hok p ltac:(by eexists))|
          pose proof (lo_prev _ _ Hok p ltac:(by eexists))]; destruct Hp; set_solver. }
      apply list_elem_of_split in Hpx as (k1 & k2 & ->). destruct (lru_links _ _ _ _ Hok) as [Hpv Hnx].
      rewrite Hpv, Hnx in E. unfold pred_of, succ_of in E. destruct E as [E|E].
      - destruct k2 as [|y k2]; cbn in E; [destruct Hq; congruence|]. injection E as ->. exists k1, k2. by left.
      - destruct k1 as [|y k1 _] using rev_ind; cbn in E; [destruct Hq; congruence|]. rewrite last_snoc in E. cbn in E.
        injection E as ->. exists k1, k2. right. by rewrite <-app_assoc. }
    destruct (detach_ok s xs q Hok Hq) as (s' & -> & Hok' & _). exists s'. split; [done|].
    by rewrite (merged_adjacent s p q l1 l2 xs).
  - apply orb_false_iff in E as [En%bool_decide_eq_false Ep%bool_decide_eq_false].
    apply list_elem_of_split in Hin as (l1 & l2 & Hxs). rewrite Hxs in Hok, Hd. set (r := (more_recent s p q).1) in *.
    assert (is_page r ∧ (r = p ∨ r = q)) as [Hr Hrc] by (unfold r, more_recent; case_decide; auto).
    pose proof (neighbours s l1 r l2 (if decide (r = p) then q else p) Hok Hr) as [N1 N2].
    destruct (lru_links _ _ _ _ Hok) as [Hpv Hnx].
    destruct (detach_twice s l1 r l2 p q Hok Hp Hq Hrc Hne) as (s1 & s2 & E1 & E2 & Hok2 & P1 & P2).
    { destruct (decide (r = p)) as [Er|]; [|destruct Hrc as [?|Er]; [done|]]; rewrite Er in *; [|intros ?%N1; congruence].
      intros Hl. destruct l1 as [|x l1 _] using rev_ind; [done|]. rewrite last_snoc in Hl. injection Hl as ->.
      apply Ep. rewrite Hpv. unfold pred_of. by rewrite last_snoc. }
    { destruct (decide (r = p)) as [Er|]; [|destruct Hrc as [?|Er]; [done|]]; rewrite Er in *; [|intros ?%N2; congruence].
      intros Hl. destruct l2 as [|x l2]; [done|]. cbn in Hl. injection Hl as ->. apply En. by rewrite Hnx. }
    assert (∀ ts, lru_ok (set_access (link_between s2 (pred_of l1) p (succ_of l2)) p ts)
      (without (if decide (r = p) then q else p) l1 ++ p :: without (if decide (r = p) then q else p) l2)) as Hfin.
    { intros ts. rewrite <-P1, <-P2. assert (p ∉ l1 ++ l2 ∨ r ≠ p) as Hpn.
      { destruct (decide (r = p)) as [Er|]; [left|by right]. rewrite Er in Hd. by apply split_distinct. }
      eapply lru_ok_access; [apply link_between_ok; [exact Hok2|]|done..]. destruct Hp.
      rewrite elem_of_cons, !elem_of_app, !elem_of_without. destruct (decide (r = p)); set_solver. }
    clear N1 N2 P1 P2 Hok2. unfold merged_list. unfold r, more_recent in *.
    destruct (decide (access_ts s q < access_ts s p)%Z) as [Hts|Hts]; cbn [fst] in *;
      rewrite Hpv, Hnx; cbn [mbind option_bind]; rewrite E1; cbn [mbind option_bind]; rewrite E2; cbn [mbind option_bind];
      eexists; (split; [done|]); rewrite Hxs.
    + rewrite decide_True in Hfin by done. unfold without. rewrite filter_app, filter_cons, decide_True by done. apply Hfin.
    + rewrite decide_False in Hfin by done. rewrite without_app. change (q :: l2) with ([q] ++ l2). rewrite without_app.
      rewrite (without_absent p [q]) by set_solver. cbn [app]. rewrite replaced_split; [apply Hfin|].
      pose proof (split_distinct _ _ _ Hd). rewrite elem_of_app, !elem_of_without. set_solver.
Qed.

Lemma ReplaceLru_ok s xs p q :
  lru_ok s xs → p ∈ xs → is_page q → q ∉ xs → ∃ s', ReplaceLru s p q = Some s' ∧ lru_ok s' (replaced p q xs).
Proof.
  intros Hok Hin [Hqh Hqt] Hq. destruct (lru_distinct _ _ Hok) as (Hd & Hh & Ht).
  apply list_elem_of_split in Hin as (l1 & l2 & ->). pose proof (split_distinct _ _ _ Hd) as Hp.
  destruct (lru_links _ _ _ _ Hok) as [Hpv Hnx]. destruct (DetachLru_ok s l1 p l2 Hok) as (s1 & Hs1 & Hok1 & _).
  rewrite replaced_split by done. unfold ReplaceLru. rewrite Hpv, Hnx. cbn [mbind option_bind]. eexists. split; [done|].
  assert (lru_ok (link_between s1 (pred_of l1) q (succ_of l2)) (l1 ++ q :: l2)) as [L1 L2 L3 _].
  { apply link_between_ok; [done|]. set_solver. }
  unfold DetachLru in Hs1. rewrite Hpv, Hnx in Hs1. cbn [mbind option_bind] in Hs1. injection Hs1 as <-.
  set (c := if decide (clean_start_ccp_ s = Some p) then set_clean_start s (Some q) else s).
  assert (lru_prev_ c = lru_prev_ s ∧ lru_next_ c = lru_next_ s) as [F1 F2] by (unfold c; by case_decide).
  cbn in L1, L2, L3. assert (pred_of l1 ≠ p ∧ succ_of l2 ≠ p) as [Hp1 Hp2].
  { destruct (place_split l1 l2) as (L & L' & _ & _ & E & _). pose proof (lk_dup _ _ _ (lo_linked _ _ Hok)) as Hdl.
    rewrite E in Hdl. apply NoDup_app in Hdl as (_ & _ & Hdl). rewrite !NoDup_cons in Hdl. set_solver. }
  assert (lru_prev_ (if decide (clean_start_ccp_ s = Some p) then set_clean_start s (Some (succ_of l2)) else s) = lru_prev_ s ∧
    lru_next_ (if decide (clean_start_ccp_ s = Some p) then set_clean_start s (Some (succ_of l2)) else s) = lru_next_ s)
    as [G1 G2] by (by case_decide). rewrite G1, G2 in *.
  split; cbn; rewrite ?F1, ?F2.
  - rewrite delete_insert_ne, insert_insert_eq in L1 by done. rewrite delete_insert_ne, insert_insert_eq in L1 by done. exact L1.
  - rewrite delete_insert_ne, insert_insert_eq in L2 by done. exact L2.
  - rewrite delete_insert_ne, insert_insert_eq in L3 by done. exact L3.
  - intros x Hx. unfold c in Hx. case_decide as Hcs; cbn in Hx; [injection Hx as <-; set_solver|].
    pose proof (lo_clean _ _ Hok x Hx). assert (x ≠ p) by congruence. set_solver.
Qed.

(** *** Operations *)

Inductive lru_op :=
  | LruUpdate p (is_emplace : bool)
  | LruDetach p
  | LruReplace (old_page new_page : Z)
  | LruSplit (old_page new_page : Z)
  | LruRedistribute (page1 page2 : Z)
  | LruMerge (page1 page2 : Z).

Definition exec_op s (op : lru_op) : option LruList :=
  match op with
  | LruUpdate p e => UpdateLruList s true p e
  | LruDetach p => DetachLru s p
  | LruReplace p q => ReplaceLru s p q
  | LruSplit p q => lru_split s p q
  | LruRedistribute p q => lru_redistribute s p q
  | LruMerge p q => lru_merge s p q
  end.

(** What the operation makes of the list of pages. *)
Definition spec_op s (op : lru_op) xs : list Z :=
  match op with
  | LruUpdate p _ => without p xs ++ [p]
  | LruDetach p => without p xs
  | LruReplace p q => replaced p q xs
  | LruSplit p q => behind p q xs
  | LruRedistribute p q => let '(more, less) := more_recent s p q in behind more less (without less xs)
  | LruMerge p q => merged_list s p q xs
  end.

(** Where the operation is used: on pages, and a page that has to be in the list is. *)
Definition valid_op s (op : lru_op) xs : Prop :=
  match op with
  | LruUpdate p _ => is_page p
  | LruDetach p => p ∈ xs
  | LruReplace p q => p ∈ xs ∧ is_page q ∧ q ∉ xs
  | LruSplit p q => is_page p ∧ is_page q ∧ q ∉ xs
  | LruRedistribute p q | LruMerge p q => is_page p ∧ is_page q ∧ p ≠ q ∧ (more_recent s p q).1 ∈ xs
  end.

Lemma exec_op_ok s op xs :
  lru_ok s xs → valid_op s op xs → ∃ s', exec_op s op = Some s' ∧ lru_ok s' (spec_op s op xs).
Proof.
  intros Hok. destruct op; cbn [exec_op spec_op valid_op].
  - intros. by apply UpdateLruList_ok.
  - intros Hin. destruct (lru_distinct _ _ Hok) as (Hd & _). apply list_elem_of_split in Hin as (l1 & l2 & ->).
    rewrite without_split by by apply split_distinct. destruct (DetachLru_ok s l1 p l2 Hok) as (s' & ? & ? & _). eauto.
  - intros (? & ? & ?). by apply ReplaceLru_ok.
  - intros (? & ? & ?). by apply lru_split_ok.
  - intros (? & ? & ? & ?). destruct (lru_redistribute_ok s xs page1 page2) as (s' & ? & ?); [done..|].
    exists s'. split; [done|]. by destruct (more_recent s page1 page2).
  - intros (? & ? & ? & ?). by apply lru_merge_ok.
Qed.

(** The states of the list, with the pages it stands for. *)
Inductive lru_reachable : LruList → list Z → Prop :=
  | lru_start : lru_reachable lru_init []
  | lru_exec s xs op s' :
      lru_reachable s xs → valid_op s op xs → exec_op s op = Some s' → lru_reachable s' (spec_op s op xs).
End lru_spec.

(** C20: The pointers of the LRU list implement the operations on a list of pages.  After any
    sequence of operations the links run through the pages of that list in its order and
    through nothing else, so no removed page can be reached, and the place where the next
    cleaning starts is in the list; and the next operation finds every pointer it follows. *)
Theorem lru_links_refine_list s xs :
  lru_reachable s xs →
  lru_ok s xs ∧ ∀ op, valid_op s op xs → ∃ s', exec_op s op = Some s' ∧ lru_ok s' (spec_op s op xs).
Proof.
  intros Hr. assert (lru_ok s xs) as Hok.
  { induction Hr as [|s xs op s' _ Hok Hv He]; [apply lru_init_ok|].
    destruct (exec_op_ok s op xs Hok Hv) as (s1 & E & ?). congruence. }
  split; [done|]. intros op. by apply exec_op_ok.
Qed.

(** Three pages are created and accessed, and one of them is split. *)
Definition lru_demo_ops : list lru_op :=
  [LruUpdate 10 true; LruUpdate 20 true; LruUpdate 30 false; LruUpdate 20 false; LruSplit 20 21]%Z.
Fixpoint exec_ops (l : list lru_op) (s : LruList) : option LruList :=
  match l with [] => Some s | op :: l => s' ← exec_op s op; exec_ops l s' end.
Definition lru_demo_state : LruList := default lru_init (exec_ops lru_demo_ops lru_init).

Lemma lru_links_refine_list_witness :
  lru_ok lru_demo_state [10; 30; 20; 21]%Z ∧
  ∀ op, valid_op lru_demo_state op [10; 30; 20; 21]%Z →
    ∃ s', exec_op lru_demo_state op = Some s' ∧ lru_ok s' (spec_op lru_demo_state op [10; 30; 20; 21]%Z).
Proof.
  apply (lru_links_refine_list lru_demo_state [10; 30; 20; 21]%Z).
  assert (∀ s xs op xs' s', lru_reachable s xs → valid_op s op xs → exec_op s op = Some s' → spec_op s op xs = xs' →
    lru_reachable s' xs') as Hstep by (intros; subst; by eapply lru_exec).
  set (st := λ n, default lru_init (exec_ops (take n lru_demo_ops) lru_init)).
  apply (Hstep (st 4) [10; 30; 20]%Z (LruSplit 20 21)); [|cbn; unfold is_page; set_solver by lia|vm_compute; done|vm_compute; done].
  apply (Hstep (st 3) [10; 20; 30]%Z (LruUpdate 20 false)); [|cbn; unfold is_page; done|vm_compute; done|vm_compute; done].
  apply (Hstep (st 2) [10; 20]%Z (LruUpdate 30 false)); [|cbn; unfold is_page; done|vm_compute; done|vm_compute; done].
  apply (Hstep (st 1) [10]%Z (LruUpdate 20 true)); [|cbn; unfold is_page; done|vm_compute; done|vm_compute; done].
  apply (Hstep (st 0) [] (LruUpdate 10 true)); [|cbn; unfold is_page; done|vm_compute; done|vm_compute; done].
  apply lru_start.
Defined.
