(* ===== verification/CcPages.v ===== *)
(** * The pages of a cc map ([CcPage], [TemplateCcMap])

    A cc map keeps its keys sorted in pages of at most 64 keys.  [ccmp_] is a
    [absl::btree_map] from the smallest key of a page to the page; the pages are
    linked with [prev_page_] and [next_page_] between two sentinel pages, and the
    pages of data tables are in the LRU list of the shard (file LruList).  This file
    holds the operations: lookup, insertion with page splits, iterators, scan starts,
    redistribution and merging of pages, eviction, and the request [KickoutCcEntryCc].
    Source: [include/cc/cc_entry.h], [include/cc/template_cc_map.h],
    [include/cc/cc_page_clean_guard.h], [include/cc/cc_request.h].

    The pages of a map are in a heap by their address.  An address that an allocation
    returns is an argument of the operation.  [ccmp_] is the sorted list of its nodes
    and an iterator of it is an index.  [std::lower_bound] and the like are the
    partition point they are documented to return.  [None] stands for an access through
    a null or dangling pointer, an out-of-range index or a failed assertion. *)

From S2P Require Import Prelude CcProtocol CcEntry LruList.

(** ** Keys *)

(** The comparison operators of [KeyT]. *)
Class KeyOrder (K : Type) := {
  key_lt : relation K;
  key_eq_dec :: EqDecision K;
  key_lt_dec :: RelDecision key_lt;
  key_strict :: StrictOrder key_lt;
  key_total : ∀ a b, key_lt a b ∨ a = b ∨ key_lt b a;
}.
Infix "<k" := key_lt (at level 70) : tx_scope.
Open Scope tx_scope.

(** A key of a request; [KeyT::NegativeInfinity()] and [KeyT::PositiveInfinity()] are
    objects of their own. *)
Inductive SearchKey (K : Type) := NegativeInfinity | Ordinary (k : K) | PositiveInfinity.
Arguments NegativeInfinity {_}.
Arguments Ordinary {_}.
Arguments PositiveInfinity {_}.

#[export] Instance SearchKey_eq_dec `{EqDecision K} : EqDecision (SearchKey K).
Proof. solve_decision. Defined.

(** The number of elements before the first one that does not satisfy [P]: the result of
    [std::lower_bound] and [std::upper_bound] on a range partitioned by [P]. *)
Fixpoint partition_point {A} (P : A → Prop) `{!∀ x, Decision (P x)} (l : list A) : nat :=
  match l with [] => 0 | x :: l => if decide (P x) then S (partition_point P l) else 0 end.

Section keys.
Context {K : Type} `{!KeyOrder K}.
Implicit Types (k : K) (s : SearchKey K).

Definition search_lt (a b : SearchKey K) : bool :=
  match a, b with
  | NegativeInfinity, NegativeInfinity => false
  | NegativeInfinity, _ => true
  | Ordinary x, Ordinary y => bool_decide (x <k y)
  | Ordinary _, PositiveInfinity => true
  | _, _ => false
  end.

Definition lower_bound s (l : list K) : nat := partition_point (λ x, search_lt (Ordinary x) s = true) l.
Definition upper_bound s (l : list K) : nat := partition_point (λ x, search_lt s (Ordinary x) = false) l.

Definition insert_at {A} (i : nat) (x : A) (l : list A) : list A := take i l ++ x :: drop i l.

(** *** [absl::btree_map] *)

Definition map_lower_bound s (m : list (K * Z)) : nat := lower_bound s m.*1.
Definition map_upper_bound s (m : list (K * Z)) : nat := upper_bound s m.*1.
Definition map_find k (m : list (K * Z)) : nat :=
  let i := map_lower_bound (Ordinary k) m in
  if decide (m.*1 !! i = Some k) then i else length m.

(** [try_emplace]: the position of the key, and the map. *)
Definition map_emplace k (p : Z) (m : list (K * Z)) : nat * list (K * Z) :=
  let i := map_lower_bound (Ordinary k) m in
  (i, if decide (m.*1 !! i = Some k) then m else insert_at i (k, p) m).
End keys.

(** ** Pages *)

Definition split_threshold_ : nat := 64.
Definition merge_threshold_ : nat := 32.

(** The addresses of [neg_inf_page_] and [pos_inf_page_] of a map, of its entry
    [neg_inf_], and a null pointer. *)
Definition neg_inf_page_ : Z := -3.
Definition pos_inf_page_ : Z := -4.
Definition neg_inf_ : Z := -5.
Definition nullptr : Z := 0.

Record CcPage (K : Type) := mkPage {
  keys_ : list K;
  entries_ : list Z;
  prev_page_ : option Z;
  next_page_ : option Z;
  last_dirty_commit_ts_ : Z;
  smallest_ttl_ : Z;
}.
Arguments mkPage {_}.
Arguments keys_ {_}.
Arguments entries_ {_}.
Arguments prev_page_ {_}.
Arguments next_page_ {_}.
Arguments last_dirty_commit_ts_ {_}.
Arguments smallest_ttl_ {_}.

(** The entries and their locks are objects of the shard: [cces] by address; [lock_page]
    is the member [page_] of the lock structure of an entry that has one. *)
Record Ccm (K V : Type) := mkCcm {
  heap : gmap Z (CcPage K);
  ccmp_ : list (K * Z);
  cces : gmap Z (CcEntry V);
  lock_page : gmap Z Z;
  size_ : Z;
  normal_obj_sz_ : Z;
  ccm_has_full_entries_ : bool;
}.
Arguments mkCcm {_ _}.
Arguments heap {_ _}.
Arguments ccmp_ {_ _}.
Arguments cces {_ _}.
Arguments lock_page {_ _}.
Arguments size_ {_ _}.
Arguments normal_obj_sz_ {_ _}.
Arguments ccm_has_full_entries_ {_ _}.

Section page.
Context {K : Type} `{!KeyOrder K}.
Implicit Types (p : CcPage K) (k : K) (h : gmap Z (CcPage K)).

Definition page_size p : nat := length (keys_ p).
Definition Full p : bool := bool_decide (page_size p = split_threshold_).
Definition Empty p : bool := bool_decide (page_size p = 0).

Definition IsNegInf p : bool := bool_decide (prev_page_ p = None).
Definition IsPosInf p : bool := bool_decide (next_page_ p = None).

Definition FirstKey p : option (SearchKey K) :=
  if IsNegInf p then Some NegativeInfinity else if IsPosInf p then Some PositiveInfinity
  else Ordinary <$> head (keys_ p).
Definition LastKey p : option (SearchKey K) :=
  if IsNegInf p then Some NegativeInfinity else if IsPosInf p then Some PositiveInfinity
  else Ordinary <$> last (keys_ p).

(** [CcPage::Find]; the size of the page when the key is not in it. *)
Definition page_find p k : nat :=
  match head (keys_ p), last (keys_ p) with
  | Some front, Some back =>
      if bool_decide (k <k front) || bool_decide (back <k k) then page_size p
      else
        let idx_in_page := lower_bound (Ordinary k) (keys_ p) in
        if decide (keys_ p !! idx_in_page = Some k) then idx_in_page else page_size p
  | _, _ => page_size p
  end.

Definition page_lower_bound p (s : SearchKey K) : nat := lower_bound s (keys_ p).
Definition page_upper_bound p (s : SearchKey K) : nat := upper_bound s (keys_ p).

Definition with_content p (ks : list K) (es : list Z) : CcPage K :=
  mkPage ks es (prev_page_ p) (next_page_ p) (last_dirty_commit_ts_ p) (smallest_ttl_ p).
Definition with_prev p (a : option Z) : CcPage K :=
  mkPage (keys_ p) (entries_ p) a (next_page_ p) (last_dirty_commit_ts_ p) (smallest_ttl_ p).
Definition with_next p (a : option Z) : CcPage K :=
  mkPage (keys_ p) (entries_ p) (prev_page_ p) a (last_dirty_commit_ts_ p) (smallest_ttl_ p).
Definition with_dirty p (ts : Z) : CcPage K :=
  mkPage (keys_ p) (entries_ p) (prev_page_ p) (next_page_ p) ts (smallest_ttl_ p).
Definition with_ttl p (ttl : Z) : CcPage K :=
  mkPage (keys_ p) (entries_ p) (prev_page_ p) (next_page_ p) (last_dirty_commit_ts_ p) ttl.

(** [CcPage::Emplace] of the key with the new entry [cce]: the position. *)
Definition page_emplace p k (cce : Z) : nat * CcPage K :=
  let insert_pos :=
    match last (keys_ p) with
    | Some back => if bool_decide (back <k k) then page_size p else lower_bound (Ordinary k) (keys_ p)
    | None => lower_bound (Ordinary k) (keys_ p)
    end in
  (insert_pos, with_content p (insert_at insert_pos k (keys_ p)) (insert_at insert_pos cce (entries_ p))).

Definition page_remove p (idx : nat) : CcPage K :=
  with_content p (remove_at idx (keys_ p)) (remove_at idx (entries_ p)).

(** [FindEntry]: the number of entries before [cce]. *)
Definition FindEntry p (cce : Z) : nat := partition_point (λ e, e ≠ cce) (entries_ p).

(** *** Construction and destruction *)

Definition CcPage_new h (a prev_page next_page : Z) (ks : list K) (es : list Z) : gmap Z (CcPage K) :=
  let p := mkPage ks es (Some prev_page) (Some next_page) 0 UINT64_MAX in
  alter (λ q, with_prev q (Some a)) next_page (alter (λ q, with_next q (Some a)) prev_page (<[a := p]> h)).

(** The destructor links the neighbours, and the memory is gone. *)
Definition CcPage_delete h (a : Z) : gmap Z (CcPage K) :=
  match h !! a with
  | None => h
  | Some p =>
      let h1 := match prev_page_ p with Some pv => alter (λ q, with_next q (next_page_ p)) pv h | None => h end in
      let h2 := match next_page_ p with Some nx => alter (λ q, with_prev q (prev_page_ p)) nx h1 | None => h1 end in
      delete a h2
  end.
End page.

(** ** Iterators and searches *)

Record Iterator (K : Type) := mkIter {
  it_key : SearchKey K;
  it_cce : Z;
  current_page_ : Z;
  idx_in_page_ : nat;
}.
Arguments mkIter {_}.
Arguments it_key {_}.
Arguments it_cce {_}.
Arguments current_page_ {_}.
Arguments idx_in_page_ {_}.

Inductive ScanType := ScanKey | ScanGap | ScanBoth | ScanUnknow.

#[export] Instance ScanType_eq_dec : EqDecision ScanType.
Proof. solve_decision. Defined.

Section search.
Context {K V : Type} `{!KeyOrder K}.
Implicit Types (m : Ccm K V) (k : K) (s : SearchKey K) (it : Iterator K).

(** [UpdateCurrent]. *)
Definition Iterator_at m (page : Z) (idx : nat) : option (Iterator K) :=
  p ← heap m !! page; k ← keys_ p !! idx; e ← entries_ p !! idx; Some (mkIter (Ordinary k) e page idx).

Definition Begin : Iterator K := mkIter NegativeInfinity neg_inf_ neg_inf_page_ 0.
Definition End_ : Iterator K := mkIter PositiveInfinity nullptr pos_inf_page_ 0.

(** Iterators are equal if they point to the same entry. *)
Definition iter_eq it (it' : Iterator K) : bool := bool_decide (it_cce it = it_cce it').

Definition forward_page m it (page : Z) : option (Iterator K) :=
  p ← heap m !! page;
  next_page ← next_page_ p;
  q ← heap m !! next_page;
  if IsPosInf q then Some (mkIter PositiveInfinity nullptr next_page (idx_in_page_ it)) else Iterator_at m next_page 0.

Definition backward_page m it (page : Z) : option (Iterator K) :=
  p ← heap m !! page;
  prev_page ← prev_page_ p;
  q ← heap m !! prev_page;
  if IsNegInf q then Some (mkIter NegativeInfinity neg_inf_ prev_page (idx_in_page_ it))
  else Iterator_at m prev_page (page_size q - 1).

(** [operator++]. *)
Definition iter_next m it : option (Iterator K) :=
  match it_key it with
  | NegativeInfinity => forward_page m it (current_page_ it)
  | Ordinary _ =>
      p ← heap m !! current_page_ it;
      if decide (idx_in_page_ it + 1 = page_size p) then forward_page m it (current_page_ it)
      else Iterator_at m (current_page_ it) (idx_in_page_ it + 1)
  | PositiveInfinity => Some it
  end.

(** [operator--]. *)
Definition iter_prev m it : option (Iterator K) :=
  match it_key it with
  | PositiveInfinity => backward_page m it (current_page_ it)
  | Ordinary _ =>
      if decide (idx_in_page_ it = 0) then backward_page m it (current_page_ it)
      else Iterator_at m (current_page_ it) (idx_in_page_ it - 1)
  | NegativeInfinity => Some it
  end.

(** The two pages around the position [i] of [ccmp_]: the one before and the one at it. *)
Definition pages_around m (i : nat) : option Z * option Z :=
  ((if decide (i = 0) then None else snd <$> ccmp_ m !! (i - 1)), snd <$> ccmp_ m !! i).

(** The last key of [page1], if there is a [page1]. *)
Definition last_key m (page1 : option Z) : option (option (SearchKey K)) :=
  match page1 with
  | None => Some None
  | Some a => p ← heap m !! a; l ← LastKey p; Some (Some l)
  end.

Definition first_of m (page : option Z) : option (Iterator K) := a ← page; Iterator_at m a 0.

Definition LowerBound m s : option (Iterator K) :=
  if decide (s = NegativeInfinity) then Some Begin
  else
    let '(page1, page2) := pages_around m (map_lower_bound s (ccmp_ m)) in
    last1 ← last_key m page1;
    if bool_decide (page2 = None) && from_option (λ l1, search_lt l1 s) true last1 then Some End_
    else
      match page1, last1 with
      | Some a1, Some l1 =>
          if search_lt l1 s then first_of m page2
          else p1 ← heap m !! a1; Iterator_at m a1 (page_lower_bound p1 s)
      | _, _ => first_of m page2
      end.

Definition UpperBound m s : option (Iterator K) :=
  let '(page1, page2) := pages_around m (map_upper_bound s (ccmp_ m)) in
  last1 ← last_key m page1;
  if bool_decide (page2 = None) && from_option (λ l1, negb (search_lt s l1)) true last1 then Some End_
  else
    match page1, last1 with
    | Some a1, Some l1 =>
        if search_lt s l1 then p1 ← heap m !! a1; Iterator_at m a1 (page_upper_bound p1 s)
        else first_of m page2
    | _, _ => first_of m page2
    end.

Definition Floor m s : option (Iterator K) :=
  it ← LowerBound m s;
  if negb (bool_decide (it_key it = s)) || iter_eq it End_ then
    if iter_eq it Begin then None else iter_prev m it
  else Some it.

(** [include_floor]: [is_include_floor_cce], and the answer of [GetScanType]. *)
Definition MakeForwardScanPair (include_floor : bool) it : Iterator K * ScanType :=
  (it, if include_floor then ScanBoth else ScanGap).

Definition ForwardScanStart m s (inclusive include_floor : bool) : option (Iterator K * ScanType) :=
  match s with
  | NegativeInfinity => Some (MakeForwardScanPair include_floor Begin)
  | PositiveInfinity => Some (MakeForwardScanPair include_floor End_)
  | Ordinary _ =>
      if inclusive || include_floor then
        lb_it ← LowerBound m s;
        if iter_eq lb_it End_ || negb (bool_decide (it_key lb_it = s)) then
          if iter_eq lb_it Begin then Some (MakeForwardScanPair include_floor lb_it)
          else it ← iter_prev m lb_it; Some (MakeForwardScanPair include_floor it)
        else Some (lb_it, ScanBoth)
      else
        ub_it ← UpperBound m s;
        if iter_eq ub_it Begin then Some (ub_it, ScanGap)
        else it ← iter_prev m ub_it; Some (it, ScanGap)
  end.

Definition BackwardScanStart m s (inclusive : bool) : option (Iterator K * ScanType) :=
  if decide (s = PositiveInfinity) then
    it ← iter_prev m End_;
    Some (it, if decide (it_key it = NegativeInfinity) then ScanGap else ScanBoth)
  else if inclusive then
    ub_it ← UpperBound m s;
    if iter_eq ub_it Begin then Some (ub_it, ScanGap)
    else it ← iter_prev m ub_it; Some (it, if decide (it_key it = s) then ScanKey else ScanBoth)
  else
    lb_it ← LowerBound m s;
    if iter_eq lb_it Begin then Some (lb_it, ScanGap)
    else it ← iter_prev m lb_it; Some (it, ScanBoth).

(** [Find]; [is_data]: the table is a data table, whose pages are in the LRU list. *)
Definition ccm_find m (lru : LruList) (is_data : bool) s : option (Iterator K * LruList) :=
  if decide (s = NegativeInfinity) then Some (Begin, lru)
  else
    lb_it ← LowerBound m s;
    if negb (iter_eq lb_it End_) && bool_decide (it_key lb_it = s) then
      lru' ← UpdateLruList lru is_data (current_page_ lb_it) false; Some (lb_it, lru')
    else Some (End_, lru).
End search.

Arguments Begin {_}.
Arguments End_ {_}.

(** ** Insertion *)

Section modify.
Context {K V : Type} `{!KeyOrder K}.
(** [HasTTL] and [GetTTL] of a record. *)
Context (record_ttl : V → option Z).
Implicit Types (m : Ccm K V) (k : K) (s : SearchKey K) (p : CcPage K) (lru : LruList).

Definition set_heap m (h : gmap Z (CcPage K)) : Ccm K V :=
  mkCcm h (ccmp_ m) (cces m) (lock_page m) (size_ m) (normal_obj_sz_ m) (ccm_has_full_entries_ m).
Definition set_ccmp m (c : list (K * Z)) : Ccm K V :=
  mkCcm (heap m) c (cces m) (lock_page m) (size_ m) (normal_obj_sz_ m) (ccm_has_full_entries_ m).
Definition set_cces m (c : gmap Z (CcEntry V)) : Ccm K V :=
  mkCcm (heap m) (ccmp_ m) c (lock_page m) (size_ m) (normal_obj_sz_ m) (ccm_has_full_entries_ m).
Definition set_locks m (l : gmap Z Z) : Ccm K V :=
  mkCcm (heap m) (ccmp_ m) (cces m) l (size_ m) (normal_obj_sz_ m) (ccm_has_full_entries_ m).
Definition set_size m (n : Z) : Ccm K V :=
  mkCcm (heap m) (ccmp_ m) (cces m) (lock_page m) n (normal_obj_sz_ m) (ccm_has_full_entries_ m).
Definition set_normal m (n : Z) : Ccm K V :=
  mkCcm (heap m) (ccmp_ m) (cces m) (lock_page m) (size_ m) n (ccm_has_full_entries_ m).
Definition set_full_entries m (b : bool) : Ccm K V :=
  mkCcm (heap m) (ccmp_ m) (cces m) (lock_page m) (size_ m) (normal_obj_sz_ m) b.
Definition set_page m (a : Z) p : Ccm K V := set_heap m (<[a := p]> (heap m)).

(** The constructor of the map. *)
Definition Ccm_new (full_entries : bool) : Ccm K V :=
  mkCcm (<[neg_inf_page_ := mkPage [] [] None (Some pos_inf_page_) 0 UINT64_MAX]>
          {[pos_inf_page_ := mkPage [] [] (Some neg_inf_page_) None 0 UINT64_MAX]}) [] ∅ ∅ 0 0 full_entries.

(** [UpdateCcPage] of each entry of a list. *)
Definition UpdateCcPage (page : Z) (locks : gmap Z Z) (cce : Z) : gmap Z Z := alter (λ _, page) cce locks.
Definition UpdateCcPages m (page : Z) (es : list Z) : Ccm K V := set_locks m (foldl (UpdateCcPage page) (lock_page m) es).

(** [TryUpdatePageKey]: the position of the page afterwards. *)
Definition TryUpdatePageKey m (i : nat) : option (nat * Ccm K V) :=
  '(k0, a) ← ccmp_ m !! i;
  p ← heap m !! a;
  match FirstKey p with
  | Some (Ordinary k) =>
      if decide (k0 = k) then Some (i, m)
      else let '(j, c) := map_emplace k a (remove_at i (ccmp_ m)) in Some (j, set_ccmp m c)
  | _ => None
  end.

(** What [Split] computes for the entries it moves. *)
Definition max_commit_ts m (es : list Z) : Z :=
  foldl (λ ts e, Z.max ts (default 0%Z (CommitTs <$> cces m !! e))) 0%Z es.
Definition entry_ttl (e : CcEntry V) : option Z :=
  if decide (PayloadStatus e = Deleted) then Some 0%Z
  else if decide (PayloadStatus e = Normal) then cur_payload_ e ≫= record_ttl else None.
Definition split_ttl m (es : list Z) : Z :=
  foldl (λ ttl e, if decide (ttl = 0%Z) then ttl else
    match cces m !! e ≫= entry_ttl with Some t => Z.min ttl t | None => ttl end) UINT64_MAX es.

(** The page the key goes to when the page [t] that was found is full: [t], the next page
    or the page before, which may be new. *)
Definition choose_page m (t : nat) (target_page : Z) p k (page_addr : Z) : option (nat * Ccm K V) :=
  if negb (Full p) then Some (t, m)
  else
    last ← LastKey p;
    first ← FirstKey p;
    if search_lt last (Ordinary k) then
      if decide (S t = length (ccmp_ m)) then
        next ← next_page_ p;
        let m1 := set_heap m (CcPage_new (heap m) page_addr target_page next [] []) in
        let '(j, c) := map_emplace k page_addr (ccmp_ m1) in Some (j, set_ccmp m1 c)
      else Some (S t, m)
    else if search_lt (Ordinary k) first then
      if decide (t = 0) then
        prev ← prev_page_ p;
        let m1 := set_heap m (CcPage_new (heap m) page_addr prev target_page [] []) in
        let '(j, c) := map_emplace k page_addr (ccmp_ m1) in Some (j, set_ccmp m1 c)
      else Some (t - 1, m)
    else Some (t, m).

(** The page at position [t] is split if it is full; the position of the page the key
    goes to. *)
Definition split_page m lru (t : nat) k (page_addr : Z) : option (nat * Ccm K V * LruList) :=
  '(_, target_page) ← ccmp_ m !! t;
  p ← heap m !! target_page;
  if negb (Full p) then Some (t, m, lru)
  else
    next ← next_page_ p;
    let split_pos := page_size p / 2 in
    let new_keys := drop split_pos (keys_ p) in
    let new_entries := drop split_pos (entries_ p) in
    let ts := max_commit_ts m new_entries in
    let ttl := split_ttl m new_entries in
    let m1 := set_page m target_page (with_content p (take split_pos (keys_ p)) (take split_pos (entries_ p))) in
    key_of_new_page ← head new_keys;
    let m2 := set_heap m1 (alter (λ q, with_ttl (with_dirty q ts) ttl) page_addr
                (CcPage_new (heap m1) page_addr target_page next new_keys new_entries)) in
    let '(j, c) := map_emplace key_of_new_page page_addr (ccmp_ m2) in
    let m3 := UpdateCcPages (set_ccmp m2 c) page_addr new_entries in
    lru' ← lru_split lru target_page page_addr;
    Some (if search_lt (Ordinary k) (Ordinary key_of_new_page) then j - 1 else j, m3, lru').

(** [full]: the memory limit of the shard is reached.  The result is the iterator and
    whether the key was inserted. *)
Definition FindEmplace m lru (is_data is_meta full force_emplace read_only_req : bool) s (page_addr cce_addr : Z)
    : option (Iterator K * bool * Ccm K V * LruList) :=
  match s with
  | NegativeInfinity => Some (Begin, false, m, lru)
  | PositiveInfinity => Some (End_, false, m, lru)
  | Ordinary k =>
      if full && negb force_emplace && negb is_meta && negb read_only_req then Some (End_, false, m, lru)
      else
        let fail_if_not_found := full && read_only_req in
        if bool_decide (ccmp_ m = []) && fail_if_not_found then Some (End_, false, m, lru)
        else
          let m0 := if decide (ccmp_ m = []) then
                      set_ccmp (set_heap m (CcPage_new (heap m) page_addr neg_inf_page_ pos_inf_page_ [] []))
                        (map_emplace k page_addr (ccmp_ m)).2
                    else m in
          let t := map_upper_bound s (ccmp_ m0) - 1 in
          '(_, target_page) ← ccmp_ m0 !! t;
          p ← heap m0 !! target_page;
          let idx_in_page := page_find p k in
          if decide (idx_in_page < page_size p) then
            lru' ← UpdateLruList lru is_data target_page false;
            it ← Iterator_at m0 target_page idx_in_page;
            Some (it, false, m0, lru')
          else if fail_if_not_found then Some (End_, false, m0, lru)
          else
            '(t1, m1) ← choose_page m0 t target_page p k page_addr;
            '(t2, m2, lru2) ← split_page m1 lru t1 k page_addr;
            '(_, target) ← ccmp_ m2 !! t2;
            p2 ← heap m2 !! target;
            let '(idx, p3) := page_emplace p2 k cce_addr in
            let m3 := set_page (set_cces m2 (<[cce_addr := CcEntry_new]> (cces m2))) target p3 in
            '(_, m4) ← TryUpdatePageKey m3 t2;
            lru' ← UpdateLruList lru2 is_data target true;
            it ← Iterator_at m4 target idx;
            Some (it, true, set_size m4 (u64 (size_ m4 + 1)), lru')
  end.
End modify.

(** ** Eviction *)

Inductive CleanType :=
  | CleanRangeData | CleanRangeDataForMigration | CleanBucketData | CleanForAlterTable | CleanCcm | CleanDeletedData.

#[export] Instance CleanType_eq_dec : EqDecision CleanType.
Proof. solve_decision. Defined.

(** What the request [KickoutCcEntryCc] says: the keys are null pointers when absent. *)
Record KickoutCcEntryCc (K : Type) := mkKickout {
  clean_type_ : CleanType;
  start_key_ : option (SearchKey K);
  end_key_ : option (SearchKey K);
  bucket_ids_ : list Z;
  clean_ts_ : Z;
  resume_key_ : option (SearchKey K);
}.
Arguments mkKickout {_}.
Arguments clean_type_ {_}.
Arguments start_key_ {_}.
Arguments end_key_ {_}.
Arguments bucket_ids_ {_}.
Arguments clean_ts_ {_}.
Arguments resume_key_ {_}.

(** The members of [CcPageCleanGuard] that change while a page is marked. *)
Record CleanGuard := mkGuard {
  clean_set_ : list bool;
  free_cnt_ : nat;
  evicted_valid_key_ : bool;
  clean_obj_cnt_ : nat;
  clean_success_ : bool;
}.

(** What the code reads of its surroundings: the template argument [VersionedRecord],
    [standby_shared] as in [IsPersistent], [txservice_skip_kv], the time, the bucket of a
    key, and whether buckets are migrating. *)
Record CleanEnv (K : Type) := mkEnv {
  versioned_record : bool;
  standby_shared : bool;
  skip_kv : bool;
  now_ms : Z;
  bucket_of : K → Z;
  buckets_migrating : bool;
}.
Arguments mkEnv {_}.
Arguments versioned_record {_}.
Arguments standby_shared {_}.
Arguments skip_kv {_}.
Arguments now_ms {_}.
Arguments bucket_of {_}.
Arguments buckets_migrating {_}.

Section clean.
Context {K V : Type} `{!KeyOrder K}.
Context (record_ttl : V → option Z).
Context (env : CleanEnv K).
Implicit Types (m : Ccm K V) (k : K) (p : CcPage K) (lru : LruList) (g : CleanGuard) (req : option (KickoutCcEntryCc K)).

Definition entry_free m (cce : Z) (e : CcEntry V) : bool :=
  IsFree (versioned_record env) (standby_shared env) (bool_decide (lock_page m !! cce = None)) e && negb (GetBeingCkpt e).

(** [KickoutCcEntryCc::IsCleanTarget]. *)
Definition request_target (r : KickoutCcEntryCc K) k (e : CcEntry V) : bool :=
  match clean_type_ r with
  | CleanRangeData | CleanRangeDataForMigration =>
      from_option (λ start, negb (search_lt (Ordinary k) start)) true (start_key_ r) &&
      from_option (λ end_, search_lt (Ordinary k) end_) true (end_key_ r)
  | CleanBucketData => bool_decide (bucket_of env k ∈ bucket_ids_ r)
  | CleanForAlterTable => bool_decide (CommitTs e <= clean_ts_ r)%Z && bool_decide (1 < CommitTs e)%Z
  | CleanDeletedData =>
      bool_decide (PayloadStatus e = Deleted) ||
      from_option (λ ttl, bool_decide (ttl < now_ms env)%Z) false (cur_payload_ e ≫= record_ttl)
  | CleanCcm => false
  end.

(** [KickoutCcEntryCc::CanBeCleaned]. *)
Definition request_cleanable (r : KickoutCcEntryCc K) m (cce : Z) (e : CcEntry V) : bool :=
  match clean_type_ r with
  | CleanRangeData | CleanRangeDataForMigration | CleanBucketData => true
  | CleanForAlterTable => entry_free m cce e
  | CleanDeletedData => if skip_kv env then bool_decide (lock_page m !! cce = None) else entry_free m cce e
  | CleanCcm => false
  end.

(** The virtual functions of the guard; [req] is null for the regular cleaning. *)
Definition IsCleanTarget req k (e : CcEntry V) : bool :=
  match req with None => true | Some r => request_target r k e end.
Definition CanBeCleaned req m (cce : Z) (e : CcEntry V) : bool :=
  match req with None => entry_free m cce e | Some r => request_cleanable r m cce e end.
Definition AffectCacheCompleteness req : bool :=
  match req with None => true | Some r => bool_decide (clean_type_ r = CleanForAlterTable) end.
Definition Reserve req g (is_clean_target : bool) : CleanGuard :=
  match req with
  | None => g
  | Some _ => if is_clean_target
              then mkGuard (clean_set_ g) (free_cnt_ g) (evicted_valid_key_ g) (clean_obj_cnt_ g) false else g
  end.

(** [MarkClean]; [ClearLocks] leaves the entry without a lock structure. *)
Definition MarkClean req m g (idx : nat) (cce : Z) (e : CcEntry V) : Ccm K V * CleanGuard :=
  let normal := bool_decide (PayloadStatus e = Normal) in
  (set_locks m (delete cce (lock_page m)),
   mkGuard (<[idx := true]> (clean_set_ g)) (free_cnt_ g + 1)
     (evicted_valid_key_ g || (normal && AffectCacheCompleteness req))
     (if normal then clean_obj_cnt_ g + 1 else clean_obj_cnt_ g) (clean_success_ g)).

Definition MarkCleanForOrphanKey req p (st : Ccm K V * CleanGuard) (idx : nat) : option (Ccm K V * CleanGuard) :=
  let '(m, g) := st in
  k ← keys_ p !! idx;
  cce ← entries_ p !! idx;
  e ← cces m !! cce;
  let is_clean_target := IsCleanTarget req k e in
  if is_clean_target && CanBeCleaned req m cce e then Some (MarkClean req m g idx cce e)
  else Some (m, Reserve req g is_clean_target).

Fixpoint mark_from req p (st : Ccm K V * CleanGuard) (idx n : nat) : option (Ccm K V * CleanGuard) :=
  match n with
  | 0 => Some st
  | S n => st' ← MarkCleanForOrphanKey req p st idx; mark_from req p st' (S idx) n
  end.

(** [KickoutPage] of the hash-partitioned build.  The third component is the keys whose
    buckets stop accepting uploads. *)
Definition KickoutPage req m (g : CleanGuard) p : option (Ccm K V * CleanGuard * list K) :=
  '(m', g') ← mark_from req p (m, g) 0 (page_size p);
  Some (m', g',
    if buckets_migrating env
    then omap (λ '(k, cce), if decide (cce = nullptr) then Some k else None) (zip (keys_ p) (entries_ p)) else []).

(** [Compact]: the entries that are not marked stay. *)
Definition kept {A} (clean : list bool) (l : list A) : list A :=
  omap (λ '(c, x), if (c : bool) then None else Some x) (zip clean l).

Definition compact_ttl m (es : list Z) : Z :=
  foldl (λ ttl cce,
    match cces m !! cce with
    | None => ttl
    | Some e =>
        if decide (PayloadStatus e = Normal) then
          match cur_payload_ e ≫= record_ttl with Some t => if decide (t < ttl)%Z then t else ttl | None => ttl end
        else if decide (PayloadStatus e = Deleted) then 0%Z else ttl
    end) UINT64_MAX es.

(** [UpdatePageDirtyCommitTs]. *)
Definition kept_dirty req m p (es : list Z) : Z :=
  match req with
  | Some r =>
      if bool_decide (clean_type_ r = CleanRangeData) || bool_decide (clean_type_ r = CleanRangeDataForMigration) ||
         bool_decide (clean_type_ r = CleanBucketData)
      then if decide (es = []) then 0%Z else Z.min (max_commit_ts m es) (last_dirty_commit_ts_ p)
      else last_dirty_commit_ts_ p
  | None => last_dirty_commit_ts_ p
  end.

Definition Compact req m (a : Z) p g : Ccm K V :=
  let ks := kept (clean_set_ g) (keys_ p) in
  let es := kept (clean_set_ g) (entries_ p) in
  let gone := omap (λ '(c, e), if (c : bool) then Some e else None) (zip (clean_set_ g) (entries_ p)) in
  set_cces (set_page m a (with_dirty (with_ttl (with_content p ks es) (compact_ttl m es)) (kept_dirty req m p es)))
    (foldl (λ c e, delete e c) (cces m) gone).

(** The guard is made for the page, marks its entries and compacts it.  The position of
    the page in [ccmp_] is looked up when the first key goes. *)
Definition CleanPage m (a : Z) req : option (bool * nat * option nat * list K * Ccm K V) :=
  p ← heap m !! a;
  '(m1, g, kicked) ← KickoutPage req m (mkGuard (replicate split_threshold_ false) 0 false 0 true) p;
  page_it ← (if default false (head (clean_set_ g)) then k ← head (keys_ p); Some (Some (map_find k (ccmp_ m1))) else Some None);
  let m2 := if decide (0 < free_cnt_ g) then Compact req m1 a p g else m1 in
  let m3 := if versioned_record env then m2 else set_normal m2 (u64 (normal_obj_sz_ m2 - Z.of_nat (clean_obj_cnt_ g))) in
  let m4 := set_size m3 (u64 (size_ m3 - Z.of_nat (free_cnt_ g))) in
  let m5 := if evicted_valid_key_ g then set_full_entries m4 false else m4 in
  Some (clean_success_ g, free_cnt_ g, page_it, kicked, m5).
End clean.

(** ** Rebalancing *)

Section rebalance.
Context {K V : Type} `{!KeyOrder K}.
Implicit Types (m : Ccm K V) (p : CcPage K) (lru : LruList).

(** Entries move between two neighbouring pages, and the less recently used one is put
    behind the other in the LRU list.  The position of the first page afterwards. *)
Definition RedistributeBetweenPages m lru (i1 i2 : nat) : option (nat * Ccm K V * LruList) :=
  '(k1, a1) ← ccmp_ m !! i1;
  '(k2, a2) ← ccmp_ m !! i2;
  p1 ← heap m !! a1;
  p2 ← heap m !! a2;
  guard (next_page_ p1 = Some a2 ∧ prev_page_ p2 = Some a1);;
  guard (FirstKey p1 = Some (Ordinary k1) ∧ FirstKey p2 = Some (Ordinary k2));;
  let dirty := Z.max (last_dirty_commit_ts_ p1) (last_dirty_commit_ts_ p2) in
  let '(p1', p2', m1) :=
    if decide (page_size p2 < page_size p1) then
      let move_pos := (page_size p1 + page_size p2) / 2 in
      (with_content p1 (take move_pos (keys_ p1)) (take move_pos (entries_ p1)),
       with_dirty (with_content p2 (drop move_pos (keys_ p1) ++ keys_ p2) (drop move_pos (entries_ p1) ++ entries_ p2)) dirty,
       UpdateCcPages m a2 (drop move_pos (entries_ p1)))
    else
      let move_idx := page_size p2 - (page_size p1 + page_size p2) / 2 in
      (with_dirty (with_content p1 (keys_ p1 ++ take move_idx (keys_ p2)) (entries_ p1 ++ take move_idx (entries_ p2))) dirty,
       with_content p2 (drop move_idx (keys_ p2)) (drop move_idx (entries_ p2)),
       UpdateCcPages m a1 (take move_idx (entries_ p2))) in
  let m2 := set_page (set_page m1 a1 p1') a2 p2' in
  guard (FirstKey p1' = Some (Ordinary k1) ∧ FirstKey p2' ≠ Some (Ordinary k2));;
  '(j, m3) ← TryUpdatePageKey m2 i2;
  lru' ← lru_redistribute lru a1 a2;
  Some (j - 1, m3, lru').

(** The content of the second page goes to the first one; the second one is freed. *)
Definition MergePages m lru (i1 i2 : nat) : option (Ccm K V * LruList) :=
  '(_, a1) ← ccmp_ m !! i1;
  '(_, a2) ← ccmp_ m !! i2;
  p1 ← heap m !! a1;
  p2 ← heap m !! a2;
  map_prev ← prev_page_ p1;
  map_next ← next_page_ p2;
  let m1 := UpdateCcPages m a1 (entries_ p2) in
  let merged := with_next (with_content p1 (keys_ p1 ++ keys_ p2) (entries_ p1 ++ entries_ p2)) (Some map_next) in
  let h := alter (λ q, with_prev q (Some a1)) map_next
             (alter (λ q, with_next q (Some a1)) map_prev (<[a1 := merged]> (heap m1))) in
  lru' ← lru_merge lru a1 a2;
  let h' := alter (λ q, with_ttl (with_dirty q (Z.max (last_dirty_commit_ts_ p1) (last_dirty_commit_ts_ p2)))
                           (Z.min (smallest_ttl_ p1) (smallest_ttl_ p2))) a1 h in
  Some (set_ccmp (set_heap m1 (CcPage_delete h' a2)) (remove_at i2 (ccmp_ m1)), lru').

Definition page_position m p (page_it : option nat) : option nat :=
  match page_it with
  | Some i => Some i
  | None => match FirstKey p with Some (Ordinary k) => Some (map_find k (ccmp_ m)) | _ => None end
  end.

(** [page_it] is the position of the page if its first key was removed.  The result is the
    page to clean next. *)
Definition RebalancePage m lru (a : Z) (page_it : option nat) (success use_lru_list : bool)
    : option (option Z * Ccm K V * LruList) :=
  p ← heap m !! a;
  let next_page := if use_lru_list then lru_next_ lru !! a else next_page_ p in
  if Empty p then
    lru' ← detach_if_linked lru a;
    i ← page_it;
    guard (i < length (ccmp_ m));;
    Some (next_page, set_ccmp (set_heap m (CcPage_delete (heap m) a)) (remove_at i (ccmp_ m)), lru')
  else
    '(it, m1) ← match page_it with
                | Some i => '(j, m1) ← TryUpdatePageKey m i; Some (Some j, m1)
                | None => Some (None, m)
                end;
    if decide (merge_threshold_ ≤ page_size p) then
      Some (if negb use_lru_list && negb success then Some a else next_page, m1, lru)
    else
      prev ← prev_page_ p;
      next ← next_page_ p;
      pp ← heap m1 !! prev;
      np ← heap m1 !! next;
      let too_many q := bool_decide (split_threshold_ < page_size p + page_size q) in
      let has_prev := negb (bool_decide (prev = neg_inf_page_)) in
      let has_next := negb (bool_decide (next = pos_inf_page_)) in
      let can_borrow_from_prev := has_prev && too_many pp in
      let can_borrow_from_next := has_next && too_many np in
      let can_merge_with_prev := has_prev && negb (too_many pp) in
      let can_merge_with_next := has_next && negb (too_many np) in
      if can_borrow_from_prev || can_borrow_from_next then
        i ← page_position m1 p it;
        '(_, m2, lru2) ← (if can_borrow_from_prev then guard (0 < i);; RedistributeBetweenPages m1 lru (i - 1) i
                          else RedistributeBetweenPages m1 lru i (i + 1));
        let page_needs_reclean := negb can_borrow_from_prev && can_borrow_from_next in
        Some (if negb use_lru_list && ((success && page_needs_reclean) || negb success) then Some a else next_page, m2, lru2)
      else if can_merge_with_prev || can_merge_with_next then
        i ← page_position m1 p it;
        guard (can_merge_with_prev = true → 0 < i);;
        let i1 := if can_merge_with_prev then i - 1 else i in
        let i2 := if can_merge_with_prev then i else i + 1 in
        '(_, merged_page) ← ccmp_ m1 !! i1;
        '(_, discarded_page) ← ccmp_ m1 !! i2;
        let next_page1 := if use_lru_list && bool_decide (next_page = Some discarded_page) then Some merged_page else next_page in
        '(m2, lru2) ← MergePages m1 lru i1 i2;
        mp ← heap m2 !! merged_page;
        Some (if negb use_lru_list then (if can_merge_with_prev && success then next_page_ mp else Some merged_page)
              else next_page1, m2, lru2)
      else Some (next_page, m1, lru).
End rebalance.

Section cleaning.
Context {K V : Type} `{!KeyOrder K}.
Context (record_ttl : V → option Z).
Context (env : CleanEnv K).
Implicit Types (m : Ccm K V) (lru : LruList) (req : option (KickoutCcEntryCc K)).

Definition CleanPageAndReBalance m lru (a : Z) req : option (nat * bool * option Z * Ccm K V * LruList) :=
  '(success, free_cnt, page_it, _, m1) ← CleanPage record_ttl env m a req;
  '(next_page, m2, lru2) ← RebalancePage m1 lru a page_it success (bool_decide (req = None));
  Some (free_cnt, success, next_page, m2, lru2).

(** The entry is removed from its page. *)
Definition CleanEntry m lru (cce a : Z) : option (Ccm K V * LruList) :=
  p ← heap m !! a;
  e0 ← head (entries_ p);
  page_it ← (if decide (e0 = cce) then
               match FirstKey p with Some (Ordinary k) => Some (Some (map_find k (ccmp_ m))) | _ => None end
             else Some None);
  let idx := FindEntry p cce in
  guard (idx < page_size p);;
  let m1 := set_cces (set_page m a (page_remove p idx)) (delete cce (cces m)) in
  '(_, m2, lru2) ← RebalancePage m1 lru a page_it true true;
  Some (m2, lru2).

(** One round of the request: at most [KickoutPageBatchSize] pages.  [timeout] says, for
    each page, whether the time is up when it comes to the test of the clock. *)
Inductive KickoutResult (K : Type) := KickoutDone | KickoutResume (k : SearchKey K).
Arguments KickoutDone {_}.
Arguments KickoutResume {_}.

Definition KickoutPageBatchSize : nat := 32.

Fixpoint kickout_pages (r : KickoutCcEntryCc K) (end_key : SearchKey K) (timeout : list bool) (n clean_page_cnt : nat)
    m lru (ccp : Z) : option (Z * Ccm K V * LruList) :=
  match n with
  | 0 => Some (ccp, m, lru)
  | S n =>
      p ← heap m !! ccp;
      first ← FirstKey p;
      if negb (search_lt first end_key) || bool_decide (ccp = pos_inf_page_) then Some (ccp, m, lru)
      else if bool_decide (0 < clean_page_cnt) && Nat.even clean_page_cnt && default false (head timeout) then Some (ccp, m, lru)
      else if bool_decide (clean_type_ r = CleanDeletedData) && bool_decide (now_ms env < smallest_ttl_ p)%Z then
        next ← next_page_ p; kickout_pages r end_key (tail timeout) n clean_page_cnt m lru next
      else
        '(freed_cnt, is_success, next_page, m', lru') ← CleanPageAndReBalance m lru ccp (Some r);
        next ← next_page;
        if negb is_success && negb (bool_decide (clean_type_ r = CleanDeletedData)) then Some (next, m', lru')
        else kickout_pages r end_key (tail timeout) n (if decide (0 < freed_cnt) then clean_page_cnt + 1 else clean_page_cnt) m' lru' next
  end.

(** [Execute(KickoutCcEntryCc)] of a local request, whose keys need no decoding. *)
Definition Execute_Kickout (r : KickoutCcEntryCc K) (timeout : list bool) m lru : option (KickoutResult K * Ccm K V * LruList) :=
  let start_key := default NegativeInfinity (start_key_ r) in
  let end_key := default PositiveInfinity (end_key_ r) in
  ccp ← match resume_key_ r with
        | Some resume_key => it ← Floor m resume_key; Some (current_page_ it)
        | None =>
            it ← Floor m start_key;
            if decide (it_key it = NegativeInfinity) then p ← heap m !! neg_inf_page_; next_page_ p
            else Some (current_page_ it)
        end;
  '(ccp', m', lru') ← kickout_pages r end_key timeout KickoutPageBatchSize 0 m lru ccp;
  p ← heap m' !! ccp';
  first ← FirstKey p;
  if bool_decide (ccp' = pos_inf_page_) || negb (search_lt first end_key) then Some (KickoutDone, m', lru')
  else Some (KickoutResume first, m', lru').
End cleaning.
