(* ===== verification/TxKeys.v ===== *)
(** * Keys ([include/tx_key.h])

    [TxKey] is a type-erased handle: an address whose lowest bit says whether the handle
    owns the key.  The first part models its operations on a heap of keys; the theorem says
    that a key is freed exactly once.  The second part is [CompositeKey], a tuple of
    integers and strings with two distinguished keys, negative and positive infinity: its
    order, which makes it a key of a cc map, and its images. *)

From S2P Require Import Prelude Ownership Bytes TableName LruList CcProtocol CcEntry CcPages TxSerialize.

(** ** Ownership *)

Section handle.
Implicit Types (v : Z).

Definition mask : Z := UINT64_MAX - 1.
Definition IsOwner v : bool := bool_decide (Z.land v 1 ≠ 0)%Z.
Definition GetPtr v : Z := Z.land v mask.
Definition owned (a : Z) : Z := Z.lor a 1.

(** The keys that are alive, those held by a [std::unique_ptr] outside of any handle, and
    the handles by their variables. *)
Record KeyState := mkKeyState {
  objs : gset Z;
  uniq : gset Z;
  handles : gmap Z Z;
}.
Implicit Types (s : KeyState).

Definition delete_if_owner (h : gset Z) v : option (gset Z) := if IsOwner v then Delete h (GetPtr v) else Some h.

Inductive key_op :=
  | MakeUnique (a : Z)                 (* std::make_unique *)
  | FreeUnique (a : Z)                 (* ~unique_ptr *)
  | FromUnique (x a : Z)               (* TxKey(std::unique_ptr<T> key) *)
  | FromPtr (x a : Z)                  (* TxKey(const T *key) *)
  | MoveConstruct (x y : Z)            (* TxKey(TxKey &&rhs) *)
  | MoveAssign (x y : Z)               (* operator=(TxKey &&rhs) *)
  | Destroy (x : Z)                    (* ~TxKey *)
  | MoveKey (x : Z)
  | GetShallowCopy (x y : Z).

Definition exec_key (op : key_op) s : option KeyState :=
  match op with
  | MakeUnique a => Some (mkKeyState (objs s ∪ {[a]}) (uniq s ∪ {[a]}) (handles s))
  | FreeUnique a => h ← Delete (objs s) a; Some (mkKeyState h (uniq s ∖ {[a]}) (handles s))
  | FromUnique x a => Some (mkKeyState (objs s) (uniq s ∖ {[a]}) (<[x := owned a]> (handles s)))
  | FromPtr x a => Some (mkKeyState (objs s) (uniq s) (<[x := a]> (handles s)))
  | MoveConstruct x y =>
      v ← handles s !! y;
      Some (mkKeyState (objs s) (uniq s) (<[x := v]> (<[y := GetPtr v]> (handles s))))
  | MoveAssign x y =>
      if decide (x = y) then Some s
      else
        u ← handles s !! x;
        v ← handles s !! y;
        h ← delete_if_owner (objs s) u;
        Some (mkKeyState h (uniq s) (<[x := v]> (<[y := GetPtr v]> (handles s))))
  | Destroy x =>
      v ← handles s !! x;
      h ← delete_if_owner (objs s) v;
      Some (mkKeyState h (uniq s) (delete x (handles s)))
  | MoveKey x =>
      v ← handles s !! x;
      if IsOwner v then Some (mkKeyState (objs s) (uniq s ∪ {[GetPtr v]}) (<[x := GetPtr v]> (handles s))) else None
  | GetShallowCopy x y =>
      v ← handles s !! y;
      Some (mkKeyState (objs s) (uniq s) (<[x := GetPtr v]> (handles s)))
  end.

(** An allocation returns an even address that is not in use; a new handle is a new
    variable; a handle is used while it exists. *)
Definition is_addr (a : Z) : Prop := (0 < a < 2 ^ 64)%Z ∧ Z.even a = true.
Definition key_pre (op : key_op) s : Prop :=
  match op with
  | MakeUnique a => is_addr a ∧ a ∉ objs s
  | FreeUnique a => a ∈ uniq s
  | FromUnique x a => a ∈ uniq s ∧ handles s !! x = None
  | FromPtr x a => a ∈ objs s ∧ handles s !! x = None
  | MoveConstruct x y => handles s !! x = None ∧ is_Some (handles s !! y)
  | MoveAssign x y => is_Some (handles s !! x) ∧ is_Some (handles s !! y)
  | Destroy x => is_Some (handles s !! x)
  | MoveKey x => ∃ v, handles s !! x = Some v ∧ IsOwner v = true
  | GetShallowCopy x y => handles s !! x = None ∧ is_Some (handles s !! y)
  end.

(** What a handle owns. *)
Definition owns (hs : gmap Z Z) (x : Z) : option Z := v ← hs !! x; if IsOwner v then Some (GetPtr v) else None.

Record keys_ok s : Prop := {
  ko_addr a : a ∈ objs s → is_addr a;
  ko_handle x v : handles s !! x = Some v → ∃ a, is_addr a ∧ (v = a ∨ v = owned a);
  ko_held : held_once (objs s) (uniq s) (owns (handles s));
}.

Lemma GetPtr_half v : is_u64 v → GetPtr v = (v / 2 * 2)%Z.
Proof.
  intros Hv. unfold GetPtr. replace mask with (Z.ldiff (Z.ones 64) (Z.ones 1)) by reflexivity.
  rewrite Z.ldiff_land, Z.land_assoc, <- Z.ldiff_land, Z.land_ones, Z.mod_small, Z.ldiff_ones_r by (unfold is_u64 in Hv; lia).
  by rewrite Z.shiftr_div_pow2, Z.shiftl_mul_pow2 by lia.
Qed.

(** The tag bit of an even address. *)
Lemma addr_facts a : is_addr a →
  IsOwner a = false ∧ GetPtr a = a ∧ IsOwner (owned a) = true ∧ GetPtr (owned a) = a ∧ owned a ≠ a.
Proof.
  intros [Hr He]. apply Z.even_spec in He as [k ->].
  assert (∀ v, Z.land v 1 = v mod 2)%Z as Hl by (intros v; apply (Z.land_ones v 1); lia).
  assert ((2 * k) mod 2 = 0)%Z as Hm by (rewrite Z.mul_comm; by apply Z.mod_mul).
  assert (owned (2 * k) = 2 * k + 1)%Z as Ho by (unfold owned; rewrite <- Z.add_nocarry_lor; [done|]; by rewrite Hl).
  unfold IsOwner. rewrite Ho, !Hl, !GetPtr_half by (unfold is_u64; change (2 ^ 64)%Z with 18446744073709551616%Z in *; lia).
  split_and!.
  - apply bool_decide_eq_false. tauto.
  - rewrite (Z.mul_comm 2 k), Z.div_mul by lia. lia.
  - apply bool_decide_eq_true. rewrite Z.add_comm, (Z.mul_comm 2 k), Z.mod_add by lia. done.
  - rewrite <- (Z.div_unique (2 * k + 1) 2 k 1) by lia. lia.
  - lia.
Qed.

Lemma owns_insert hs x v y : owns (<[x := v]> hs) y = if decide (x = y) then (if IsOwner v then Some (GetPtr v) else None) else owns hs y.
Proof. unfold owns. case_decide; [subst; by rewrite lookup_insert_eq|by rewrite lookup_insert_ne]. Qed.
Lemma owns_delete hs x y : owns (delete x hs) y = if decide (x = y) then None else owns hs y.
Proof. unfold owns. case_decide; [subst; by rewrite lookup_delete_eq|by rewrite lookup_delete_ne]. Qed.
Lemma owns_new hs x : hs !! x = None → owns hs x = None.
Proof. unfold owns. by intros ->. Qed.

(** The value of a handle: an address, tagged or not. *)
Lemma handle_cases s x v : keys_ok s → handles s !! x = Some v →
  ∃ a, is_addr a ∧ GetPtr v = a ∧ IsOwner a = false ∧ owns (handles s) x = (if IsOwner v then Some a else None).
Proof.
  intros Hok Hx. destruct (ko_handle _ Hok x v Hx) as (a & Ha & Hv). destruct (addr_facts a Ha) as (F1 & F2 & F3 & F4 & _).
  exists a. unfold owns. rewrite Hx. cbn. destruct Hv as [->| ->]; rewrite ?F1, ?F3, ?F2, ?F4; done.
Qed.

Lemma delete_if_owner_held s x v : keys_ok s → handles s !! x = Some v → delete_if_owner (objs s) v = delete_held (objs s) (owns (handles s) x).
Proof. intros Hok Hx. destruct (handle_cases _ _ _ Hok Hx) as (a & _ & Hp & _ & ->). unfold delete_if_owner. rewrite Hp. by destruct (IsOwner v). Qed.

Lemma handle_insert (hs : gmap Z Z) x v (P : Z → Prop) : (∀ y w, hs !! y = Some w → P w) → P v → ∀ y w, <[x := v]> hs !! y = Some w → P w.
Proof. intros Hh Hv y w [[<- <-]|[_ Hy]]%lookup_insert_Some; [done|by eapply Hh]. Qed.

(** A new variable refers to a key. *)
Lemma keys_unowned s x a : keys_ok s → is_addr a → handles s !! x = None → keys_ok (mkKeyState (objs s) (uniq s) (<[x := a]> (handles s))).
Proof.
  intros [KA KH KO] Ha Hx%owns_new. destruct (addr_facts a Ha) as (F1 & _). split; cbn; [done| |].
  - apply handle_insert; [done|]. exists a. auto.
  - eapply held_ext; [done|]. intros y. rewrite owns_insert, F1. by case_decide; subst.
Qed.

(** [y] hands over to [x] what it owns, and keeps the address. *)
Lemma keys_moved s h x y v : keys_ok s → handles s !! y = Some v → x ≠ y → h ⊆ objs s →
  held_once h (uniq s) (set_own (owns (handles s)) x None) →
  keys_ok (mkKeyState h (uniq s) (<[x := v]> (<[y := GetPtr v]> (handles s)))).
Proof.
  intros Hok Hy Hne Hsub Hh. destruct (handle_cases _ _ _ Hok Hy) as (a & Ha & Hp & Hna & Ho). pose proof Hok as [KA KH KO]. split; cbn; [set_solver| |].
  - apply handle_insert; [apply handle_insert; [done|]|by apply (KH y)]. rewrite Hp. exists a. auto.
  - eapply held_ext; [apply (held_move h (uniq s) _ x y Hh); [unfold set_own; by rewrite decide_True|done]|].
    intros z. unfold set_own. rewrite !owns_insert, Hp, Hna, Ho. repeat case_decide; congruence.
Qed.

Lemma exec_key_ok s op : keys_ok s → key_pre op s → ∃ s', exec_key op s = Some s' ∧ keys_ok s'.
Proof.
  intros Hok Hpre. pose proof Hok as [KA KH KO]. destruct op as [a|a|x a|x a|x y|x y|x|x|x y]; cbn [exec_key key_pre] in *.
  - destruct Hpre as [Ha Hn]. eexists. split; [done|]. split; cbn; [set_solver|done|by apply held_new].
  - destruct (held_free _ _ _ a KO Hpre) as [-> Hf]. cbn. eexists. split; [done|]. split; cbn; [set_solver|done|done].
  - destruct Hpre as [Ha Hx]. destruct (addr_facts a (KA a (ho_uniq _ _ _ KO a Ha))) as (_ & _ & F3 & F4 & _).
    eexists. split; [done|]. split; cbn; [done|apply handle_insert; [done|]; exists a; split; [apply KA, (ho_uniq _ _ _ KO a Ha)|by right]|].
    eapply held_ext; [apply (held_give _ _ _ x a KO Ha (owns_new _ _ Hx))|]. intros y. by rewrite owns_insert, F3, F4.
  - destruct Hpre as [Ha Hx]. eexists. split; [done|]. by apply (keys_unowned s x a Hok (KA a Ha)).
  - destruct Hpre as [Hx [v Hy]]. rewrite Hy. cbn. eexists. split; [done|]. apply keys_moved; [done..|congruence|done|].
    eapply held_ext; [done|]. intros z. unfold set_own. case_decide; [subst; by rewrite owns_new|done].
  - destruct (decide (x = y)) as [->|Hne]; [by eexists|]. destruct Hpre as [[u Hx] [v Hy]]. rewrite Hx, Hy. cbn.
    rewrite (delete_if_owner_held s x u Hok Hx). destruct (held_drop _ _ _ x KO) as (h & -> & Hh & Hsub). cbn. eexists. split; [done|]. by apply keys_moved.
  - destruct Hpre as [v Hx]. rewrite Hx. cbn. rewrite (delete_if_owner_held s x v Hok Hx). destruct (held_drop _ _ _ x KO) as (h & -> & Hh & Hsub). cbn.
    eexists. split; [done|]. split; cbn; [set_solver|intros y w [_ Hy]%lookup_delete_Some; by apply (KH y)|].
    eapply held_ext; [done|]. intros y. by rewrite owns_delete.
  - destruct Hpre as (v & Hx & Hv). rewrite Hx. cbn. rewrite Hv. eexists. split; [done|].
    destruct (handle_cases _ _ _ Hok Hx) as (a & Ha & -> & Hna & Ho). rewrite Hv in Ho. split; cbn; [done|apply handle_insert; [done|]; exists a; auto|].
    eapply held_ext; [apply (held_take _ _ _ x a KO Ho)|]. intros y. by rewrite owns_insert, Hna.
  - destruct Hpre as [Hx [v Hy]]. rewrite Hy. cbn. eexists. split; [done|]. destruct (handle_cases _ _ _ Hok Hy) as (a & Ha & -> & _). by apply keys_unowned.
Qed.
End handle.

Definition keys_step (s s' : KeyState) : Prop := ∃ op, key_pre op s ∧ exec_key op s = Some s'.



(** ** Composite keys *)

(** The tuple of the fields. *)
Fixpoint Tuple (ts : list FieldType) : Type :=
  match ts with [] => unit | TInt _ :: ts => Z * Tuple ts | TStr :: ts => bytes * Tuple ts end.

(** The fields of a default-constructed key. *)
Fixpoint tuple_default (ts : list FieldType) : Tuple ts :=
  match ts with [] => tt | TInt _ :: ts => (0%Z, tuple_default ts) | TStr :: ts => ([], tuple_default ts) end.

Fixpoint tuple_eqb (ts : list FieldType) : Tuple ts → Tuple ts → bool :=
  match ts with
  | [] => λ _ _, true
  | TInt _ :: ts => λ a b, bool_decide (a.1 = b.1) && tuple_eqb ts a.2 b.2
  | TStr :: ts => λ a b, bool_decide (a.1 = b.1) && tuple_eqb ts a.2 b.2
  end.

(** [operator<] of [std::tuple]. *)
Fixpoint tuple_ltb (ts : list FieldType) : Tuple ts → Tuple ts → bool :=
  match ts with
  | [] => λ _ _, false
  | TInt _ :: ts => λ a b, bool_decide (a.1 < b.1)%Z || (negb (bool_decide (b.1 < a.1)%Z) && tuple_ltb ts a.2 b.2)
  | TStr :: ts => λ a b, bytes_ltb a.1 b.1 || (negb (bytes_ltb b.1 a.1) && tuple_ltb ts a.2 b.2)
  end.

(** [neg_inf] and [pos_inf] are objects that are told apart by their address. *)
Definition key_fields {ts} (k : SearchKey (Tuple ts)) : Tuple ts :=
  match k with Ordinary f => f | _ => tuple_default ts end.

Definition CompositeKey_eqb {ts} (this rhs : SearchKey (Tuple ts)) : bool :=
  match rhs with
  | NegativeInfinity => match this with NegativeInfinity => true | _ => false end
  | PositiveInfinity => match this with PositiveInfinity => true | _ => false end
  | Ordinary f => tuple_eqb ts (key_fields this) f
  end.

Definition CompositeKey_ltb {ts} (this rhs : SearchKey (Tuple ts)) : bool :=
  match this, rhs with
  | PositiveInfinity, _ | _, NegativeInfinity => false
  | NegativeInfinity, _ | _, PositiveInfinity => true
  | Ordinary a, Ordinary b => tuple_ltb ts a b
  end.

Lemma tuple_eqb_eq ts a b : tuple_eqb ts a b = true ↔ a = b.
Proof.
  induction ts as [|[n|] ts IH]; cbn in *; [by destruct a, b| |]; destruct a as [x a], b as [y b]; cbn;
    rewrite andb_true_iff, bool_decide_eq_true, IH; (split; [by intros [-> ->]|by intros [= -> ->]]).
Qed.

(** A lexicographic step. *)
Lemma lex_order {A B} `{EqDecision A} (lt : A → A → bool) (ltb : B → B → bool) :
  (∀ x, lt x x = false) → (∀ x y z, lt x y = true → lt y z = true → lt x z = true) → (∀ x y, x ≠ y → lt x y = true ∨ lt y x = true) →
  (∀ x, ltb x x = false) → (∀ x y z, ltb x y = true → ltb y z = true → ltb x z = true) → (∀ x y, ltb x y = true ∨ x = y ∨ ltb y x = true) →
  let l (a b : A * B) := lt a.1 b.1 || (negb (lt b.1 a.1) && ltb a.2 b.2) in
  (∀ x, l x x = false) ∧ (∀ x y z, l x y = true → l y z = true → l x z = true) ∧ (∀ x y, l x y = true ∨ x = y ∨ l y x = true).
Proof.
  intros Hi Ht Hto Hi' Ht' Hto' l.
  assert (∀ x y, lt x y = true → lt y x = false) as Hasym.
  { intros x y Hxy. destruct (lt y x) eqn:E; [|done]. pose proof (Ht _ _ _ Hxy E) as Hc. by rewrite Hi in Hc. }
  assert (∀ a b, l a b = true ↔ lt a.1 b.1 = true ∨ (a.1 = b.1 ∧ ltb a.2 b.2 = true)) as Hl.
  { intros [a a'] [b b']. unfold l. cbn [fst snd]. rewrite orb_true_iff, andb_true_iff, negb_true_iff. split.
    - intros [?|[Hn ?]]; [by left|]. destruct (decide (a = b)) as [->|Hne]; [by right|]. left. destruct (Hto a b Hne) as [?|E]; [done|congruence].
    - intros [?|[-> ?]]; [by left|]. right. by rewrite Hi. }
  split_and!.
  - intros x. apply not_true_iff_false. rewrite Hl. intros [E|[_ E]]; by rewrite ?Hi, ?Hi' in E.
  - intros x y z. rewrite !Hl. intros [H1|[E1 H1]] [H2|[E2 H2]]; rewrite ?E1, <- ?E2 in *; [left; by eapply Ht|by left|by left|]. right. split; [done|]. by eapply Ht'.
  - intros [x x'] [y y']. rewrite !Hl. cbn [fst snd]. destruct (decide (x = y)) as [->|Hne]; [|destruct (Hto x y Hne); auto].
    destruct (Hto' x' y') as [?|[->|?]]; auto.
Qed.

Lemma tuple_order ts :
  (∀ x, tuple_ltb ts x x = false) ∧ (∀ x y z, tuple_ltb ts x y = true → tuple_ltb ts y z = true → tuple_ltb ts x z = true) ∧
  (∀ x y, tuple_ltb ts x y = true ∨ x = y ∨ tuple_ltb ts y x = true).
Proof.
  induction ts as [|[n|] ts (I1 & I2 & I3)].
  - split_and!; [done..|]. intros [] []. auto.
  - pose proof (lex_order (λ x y : Z, bool_decide (x < y)%Z) (tuple_ltb ts)) as Hlex. apply Hlex; clear Hlex; try done.
    + intros x. apply bool_decide_eq_false. lia.
    + intros x y z. rewrite !bool_decide_eq_true. lia.
    + intros x y. rewrite !bool_decide_eq_true. lia.
  - apply (lex_order bytes_ltb (tuple_ltb ts)); try done; [apply bytes_ltb_irrefl|apply bytes_ltb_trans|apply bytes_ltb_total].
Qed.

(** The keys of a table whose primary key has the fields [ts] are keys of a cc map. *)
#[export] Program Instance Tuple_key (ts : list FieldType) : KeyOrder (Tuple ts) :=
  {| key_lt a b := tuple_ltb ts a b = true |}.
Next Obligation. intros ts a b. destruct (tuple_eqb ts a b) eqn:E; [left|right]; [by apply tuple_eqb_eq|]. intros H%tuple_eqb_eq. congruence. Defined.
Next Obligation. intros ts a b. cbn. apply _. Defined.
Next Obligation. intros ts. destruct (tuple_order ts) as (I1 & I2 & _). split; [|exact I2]. intros x. unfold complement. cbn. by rewrite I1. Qed.
Next Obligation. intros ts. apply tuple_order. Qed.

Lemma CompositeKey_ltb_search {ts} (a b : SearchKey (Tuple ts)) : CompositeKey_ltb a b = search_lt a b.
Proof. destruct a, b; cbn; try done. case_bool_decide as E; [done|by apply not_true_is_false]. Qed.

(** Negative infinity equals a key with default fields, which does not equal negative
    infinity. *)
Example composite_eq_asymmetric :
  CompositeKey_eqb (ts := [TInt 4]) NegativeInfinity (Ordinary (0%Z, tt)) = true ∧
  CompositeKey_eqb (ts := [TInt 4]) (Ordinary (0%Z, tt)) NegativeInfinity = false.
Proof. done. Qed.

(** *** Images *)

Fixpoint tuple_fields (ts : list FieldType) : Tuple ts → list Field :=
  match ts with
  | [] => λ _, []
  | TInt n :: ts => λ t, FInt n t.1 :: tuple_fields ts t.2
  | TStr :: ts => λ t, FStr t.1 :: tuple_fields ts t.2
  end.

(** [CompositeKey::Serialize(std::string &)]. *)
Fixpoint Serialize_fields (l : list Field) : option bytes :=
  match l with [] => Some [] | f :: l => b ← Serialize_field f; bs ← Serialize_fields l; Some (b ++ bs) end.
Definition CompositeKey_Serialize {ts} (t : Tuple ts) : option bytes := Serialize_fields (tuple_fields ts t).

(** [CompositeKey::Deserialize]. *)
Fixpoint CompositeKey_Deserialize (ts : list FieldType) (buf : bytes) (offset : nat) : option (Tuple ts * nat) :=
  match ts with
  | [] => Some (tt, offset)
  | TInt n :: ts =>
      '(v, o) ← DesrializeFrom n buf offset; '(t, o') ← CompositeKey_Deserialize ts buf o; Some ((v, t), o')
  | TStr :: ts =>
      '(s, o) ← Deserialize_string buf offset; '(t, o') ← CompositeKey_Deserialize ts buf o; Some ((s, t), o')
  end.

#[export] Instance CompositeKey_codec (ts : list FieldType) : Codec (Tuple ts) := {|
  encode := CompositeKey_Serialize;
  decode := CompositeKey_Deserialize ts;
  encodable t := Forall field_ok (tuple_fields ts t);
|}.

#[export] Instance CompositeKey_codec_ok (ts : list FieldType) : CodecOk (Tuple ts).
Proof.
  unfold CodecOk. cbn [encode decode encodable CompositeKey_codec]. unfold CompositeKey_Serialize.
  induction ts as [|[n|] ts IH]; intros t bs buf offset Hok Hs Hi; cbn [tuple_fields Serialize_fields CompositeKey_Deserialize] in *.
  - injection Hs as <-. destruct t. by rewrite Nat.add_0_r.
  - destruct t as [v t]. cbn [fst snd Serialize_field mbind option_bind] in *. apply Forall_cons in Hok as [Hv Hok].
    destruct (Serialize_fields _) as [bt|] eqn:Et; [|done]. assert (bs = SerializeToStr n v ++ bt) as -> by (cbn [mbind option_bind] in Hs; unfold SerializeToStr; congruence).
    apply image_app in Hi as [H1 H2]. unfold SerializeToStr in H2 at 1. rewrite length_le_bytes in H2. rewrite (DesrializeFrom_at n v) by done. cbn [mbind option_bind].
    rewrite (IH t bt) by done. cbn [mbind option_bind]. unfold SerializeToStr. by rewrite length_app, length_le_bytes, Nat.add_assoc.
  - destruct t as [v t]. cbn [fst snd Serialize_field mbind option_bind] in *. apply Forall_cons in Hok as [Hv Hok].
    destruct (Serialize_string v) as [bv|] eqn:Ev; [|done]. cbn [mbind option_bind] in Hs.
    destruct (Serialize_fields _) as [bt|] eqn:Et; [|done]. assert (bs = bv ++ bt) as -> by (cbn [mbind option_bind] in Hs; congruence).
    apply image_app in Hi as [H1 H2]. rewrite (Deserialize_string_at v bv) by done. cbn [mbind option_bind].
    rewrite (IH t bt) by done. cbn [mbind option_bind]. by rewrite length_app, Nat.add_assoc.
Qed.

(** [CompositeKey::Serialize(std::vector<char> &, size_t &)]: the buffer is enlarged to hold
    the fields, which are then copied into it. *)
Definition Serialize_field_vec (f : Field) (buf : bytes) (offset : nat) : option (bytes * nat) :=
  match f with
  | FInt n v => buf' ← write_at buf offset (le_bytes n v); Some (buf', offset + n)
  | FStr s =>
      if decide (UINT16_MAX < Z.of_nat (length s))%Z then None
      else
        buf1 ← write_at buf offset (le_bytes 2 (Z.of_nat (length s)));
        buf2 ← write_at buf1 (offset + 2) s;
        Some (buf2, offset + 2 + MemSize f)
  end.
Fixpoint Serialize_fields_vec (l : list Field) (buf : bytes) (offset : nat) : option (bytes * nat) :=
  match l with [] => Some (buf, offset) | f :: l => '(buf', o) ← Serialize_field_vec f buf offset; Serialize_fields_vec l buf' o end.
Definition CompositeKey_Serialize_vec {ts} (t : Tuple ts) (buf : bytes) (offset : nat) : option (bytes * nat) :=
  let mem_size := sum_list (MemSize <$> tuple_fields ts t) in
  let buf' := if decide (length buf - offset < mem_size) then resize buf (offset + mem_size) else buf in
  Serialize_fields_vec (tuple_fields ts t) buf' offset.

(** The offset goes two bytes too far behind a string: what follows is written outside of
    the buffer that was made for the key. *)
Lemma string_then_field_overflows n (s : bytes) (v : Z) : 0 < n →
  CompositeKey_Serialize_vec (ts := [TStr; TInt n]) (s, (v, tt)) [] 0 = None.
Proof.
  intros Hn. unfold CompositeKey_Serialize_vec. cbn [tuple_fields fst snd fmap list_fmap].
  assert (sum_list [MemSize (FStr s); MemSize (FInt n v)] = length s + 2 + n) as -> by (cbn; lia).
  rewrite decide_True by (cbn; lia). pose proof (length_resize [] (0 + (length s + 2 + n))) as Hlen. revert Hlen. generalize (resize [] (0 + (length s + 2 + n))). intros buf Hlen.
  cbn [Serialize_fields_vec Serialize_field_vec]. case_decide; [done|].
  destruct (write_at buf 0 _) as [b1|] eqn:E1; [|done]. apply write_at_Some in E1 as [_ L1]. cbn [mbind option_bind].
  destruct (write_at b1 (0 + 2) s) as [b2|] eqn:E2; [|done]. apply write_at_Some in E2 as [_ L2]. cbn [mbind option_bind].
  destruct (write_at b2 _ (le_bytes n v)) as [b3|] eqn:E3; [|done]. apply write_at_Some in E3 as [E3 _]. rewrite length_le_bytes in E3. cbn in E3. lia.
Qed.

(** A composite key read back from its image is the key, wherever the image stands in the
    buffer, and the offset is then behind it; so a key sent to another node has the same
    place in the order of the keys there. *)
Theorem CompositeKey_roundtrip ts (t : Tuple ts) bs pre post : Forall field_ok (tuple_fields ts t) → CompositeKey_Serialize t = Some bs →
  CompositeKey_Deserialize ts (pre ++ bs ++ post) (length pre) = Some (t, length pre + length bs).
Proof. intros Hok Hs. apply (CompositeKey_codec_ok ts t bs); [done..|apply image_here]. Qed.

Lemma CompositeKey_roundtrip_witness :
  CompositeKey_Deserialize [TStr; TInt 4] ([9; 9] ++ [2; 0; 65; 66; 1; 2; 0; 0] ++ [])%Z 2 = Some (([65; 66], (513, tt))%Z, 10).
Proof.
  apply (CompositeKey_roundtrip [TStr; TInt 4] ([65; 66], (513, tt))%Z [2; 0; 65; 66; 1; 2; 0; 0]%Z [9; 9]%Z []); [|reflexivity].
  repeat constructor; unfold is_uint; cbn; lia.
Defined.
