(* ===== verification/PagesRep.v ===== *)
(** * Pages as a sorted list

    The pages of a cc map (file CcPages) stand for one sorted list of keys with their
    entries, cut into pages.  [ccm_ok m ps] relates a map to the list [ps] of its pages
    with their contents: the heap, the links between the pages and the index [ccmp_]
    agree, and the sentinels are at the ends.  The lemmas say what the building blocks of
    the operations (searching, inserting, updating, freeing a page) do to [ps]. *)

From S2P Require Import Prelude CcProtocol CcEntry LruList CcPages.
From stdpp Require Import sorting.

(** ** Lists *)

Section partition.
Context {A : Type} (P : A → Prop) `{!∀ x, Decision (P x)}.

Lemma partition_point_all l : Forall P l → partition_point P l = length l.
Proof. induction 1; cbn; [done|]. rewrite decide_True by done. by f_equal. Qed.

Lemma partition_point_mid l1 x l2 : Forall P l1 → ¬ P x → partition_point P (l1 ++ x :: l2) = length l1.
Proof. induction 1; intros; cbn; [by rewrite decide_False|]. rewrite decide_True by done. f_equal. auto. Qed.

Lemma partition_point_app l1 l2 : Forall P l1 → (∀ x, head l2 = Some x → ¬ P x) → partition_point P (l1 ++ l2) = length l1.
Proof.
  intros H1 H2. destruct l2 as [|x l2]; [rewrite app_nil_r; by apply partition_point_all|].
  apply partition_point_mid; [done|]. by apply H2.
Qed.

Lemma partition_point_spec l : ∃ l1 l2,
  l = l1 ++ l2 ∧ length l1 = partition_point P l ∧ Forall P l1 ∧ ∀ x, head l2 = Some x → ¬ P x.
Proof.
  induction l as [|x l (l1 & l2 & -> & HL & H1 & H2)]; [by exists [], []|].
  cbn. case_decide; [exists (x :: l1), l2|exists [], (x :: l1 ++ l2)].
  - cbn. split_and!; [done|by rewrite HL|by constructor|done].
  - split_and!; [done..|]. by intros ? [= ->].
Qed.
End partition.

Lemma insert_at_app {A} (l1 l2 : list A) x : insert_at (length l1) x (l1 ++ l2) = l1 ++ x :: l2.
Proof. unfold insert_at. by rewrite take_app_length, drop_app_length. Qed.

Lemma fmap_insert_at {A B} (f : A → B) i x l : f <$> insert_at i x l = insert_at i (f x) (f <$> l).
Proof. unfold insert_at. by rewrite fmap_app, fmap_cons, fmap_take, fmap_drop. Qed.

Lemma length_insert_at {A} i (x : A) l : length (insert_at i x l) = S (length l).
Proof. unfold insert_at. rewrite length_app, length_take. cbn. rewrite length_drop. lia. Qed.

Lemma head_sorted {A} (R : relation A) l x y : StronglySorted R l → head l = Some x → y ∈ l → y = x ∨ R x y.
Proof.
  destruct 1 as [|z l Hs Hf]; [done|]. intros [= ->] [->|Hy]%elem_of_cons; [by left|].
  right. by rewrite Forall_forall in Hf; apply Hf.
Qed.

Lemma last_sorted {A} (R : relation A) l x y : StronglySorted R l → last l = Some x → y ∈ l → y = x ∨ R y x.
Proof.
  intros Hs Hl Hy. apply last_Some in Hl as [l' ->]. apply elem_of_app in Hy as [Hy|Hy%list_elem_of_singleton]; [|by left].
  right. eapply StronglySorted_app_1_elem_of; [exact Hs|done|by left].
Qed.

Section order.
Context {K : Type} `{!KeyOrder K}.
Implicit Types (k x y : K) (l : list K).

Lemma key_lt_irrefl k : ¬ k <k k.
Proof. apply irreflexivity. apply _. Qed.
Lemma key_lt_trans k x y : k <k x → x <k y → k <k y.
Proof. apply transitivity. Qed.
Lemma key_lt_asym x y : x <k y → ¬ y <k x.
Proof. intros H1 H2. by apply (key_lt_irrefl x), (key_lt_trans x y x). Qed.
Lemma key_not_lt x y : ¬ x <k y → x = y ∨ y <k x.
Proof. destruct (key_total x y) as [?|[?|?]]; naive_solver. Qed.
Lemma key_le_lt k x y : k = x ∨ k <k x → x <k y → k <k y.
Proof. intros [->|?]; [done|]. by apply key_lt_trans. Qed.
Lemma key_lt_le k x y : k <k x → x = y ∨ x <k y → k <k y.
Proof. intros ? [->|?]; [done|]. by eapply key_lt_trans. Qed.

Lemma search_lt_ordinary x y : search_lt (Ordinary x) (Ordinary y) = true ↔ x <k y.
Proof. cbn. apply bool_decide_eq_true. Qed.

Lemma sorted_NoDup l : StronglySorted key_lt l → NoDup l.
Proof.
  induction 1 as [|x l Hs IH Hf]; constructor; [|done]. intros Hx. rewrite Forall_forall in Hf.
  by apply (key_lt_irrefl x), Hf.
Qed.

Lemma sorted_insert l1 k l2 :
  StronglySorted key_lt (l1 ++ l2) → (∀ x, x ∈ l1 → x <k k) → (∀ x, x ∈ l2 → k <k x) →
  StronglySorted key_lt (l1 ++ k :: l2).
Proof.
  rewrite !StronglySorted_app. intros (Hx & H1 & H2) Hl Hr. split_and!; [|done|].
  - intros x y Hix [->|Hy]%elem_of_cons; [by apply Hl|by apply Hx].
  - constructor; [done|]. by rewrite Forall_forall.
Qed.
Lemma sorted_sublist (L L' : list K) : sublist L L' → StronglySorted key_lt L' → StronglySorted key_lt L.
Proof.
  induction 1 as [|x L L' Hs IH|x L L' Hs IH]; [done|..]; inversion 1 as [|? ? H1 H2]; subst; [|auto].
  constructor; [auto|]. rewrite Forall_forall in *. intros y Hy. apply H2. eapply elem_of_submseteq; [done|]. by apply sublist_submseteq.
Qed.
End order.

(** ** The representation *)

Section rep.
Context {K V : Type} `{!KeyOrder K}.
Implicit Types (ps : list (Z * list (K * Z))) (l : list (K * Z)) (h : gmap Z (CcPage K)) (a b : Z) (k : K).

(** The keys and entries of a list of pages, in order. *)
Definition content ps : list (K * Z) := concat ps.*2.

Lemma content_app ps1 ps2 : content (ps1 ++ ps2) = content ps1 ++ content ps2.
Proof. unfold content. by rewrite fmap_app, concat_app. Qed.
Lemma content_cons a l ps : content ((a, l) :: ps) = l ++ content ps.
Proof. done. Qed.
Lemma content_mid ps1 a l ps2 : content (ps1 ++ (a, l) :: ps2) = content ps1 ++ l ++ content ps2.
Proof. by rewrite content_app, content_cons. Qed.

Lemma elem_content ps a l x : (a, l) ∈ ps → x ∈ l → x ∈ content ps.
Proof. intros (ps1 & ps2 & ->)%list_elem_of_split Hx. rewrite content_mid, !elem_of_app. auto. Qed.
Lemma elem_content_cce ps a l e : (a, l) ∈ ps → e ∈ l.*2 → e ∈ (content ps).*2.
Proof. intros Hin (x & -> & Hx)%list_elem_of_fmap. apply list_elem_of_fmap_2. by eapply elem_content. Qed.

(** Pages are distinct objects, hold between one and 64 keys, and are sorted. *)
Record ps_ok ps : Prop := {
  po_len a l : (a, l) ∈ ps → 0 < length l ≤ split_threshold_;
  po_sorted : StronglySorted key_lt (content ps).*1;
  po_cces : NoDup (content ps).*2;
}.

(** The pages with the sentinels. *)
Definition full ps : list (Z * list (K * Z)) := (neg_inf_page_, []) :: ps ++ [(pos_inf_page_, [])].

Definition next_of h a : option Z := p ← h !! a; next_page_ p.
Definition prev_of h a : option Z := p ← h !! a; prev_page_ p.

Record heap_ok h ps : Prop := {
  ho_page a l : (a, l) ∈ full ps → ∃ p, h !! a = Some p ∧ keys_ p = l.*1 ∧ entries_ p = l.*2;
  ho_dom a : is_Some (h !! a) → a ∈ (full ps).*1;
  ho_links : linked (next_of h) (prev_of h) (full ps).*1;
  ho_first : prev_of h neg_inf_page_ = None;
  ho_last : next_of h pos_inf_page_ = None;
}.

(** [ccmp_] has a node for each page, with its first key. *)
Definition index_ok (c : list (K * Z)) ps : Prop :=
  Forall2 (λ x y, x.2 = y.1 ∧ head y.2.*1 = Some x.1) c ps.

(** The lock of an entry knows its page. *)
Definition locks_ok (lp : gmap Z Z) ps : Prop :=
  ∀ a l e pg, (a, l) ∈ ps → e ∈ l.*2 → lp !! e = Some pg → pg = a.

Record ccm_ok (m : Ccm K V) ps : Prop := {
  co_ps : ps_ok ps;
  co_heap : heap_ok (heap m) ps;
  co_index : index_ok (ccmp_ m) ps;
  co_locks : locks_ok (lock_page m) ps;
  co_cces e : e ∈ (content ps).*2 → is_Some (cces m !! e) ∧ e ≠ nullptr ∧ e ≠ neg_inf_;
  co_size : size_ m = u64 (Z.of_nat (length (content ps)));
}.

(** *** Neighbours *)

Definition before ps1 : Z := default neg_inf_page_ (last ps1.*1).
Definition after ps2 : Z := default pos_inf_page_ (head ps2.*1).

Lemma before_snoc ps1 a l : before (ps1 ++ [(a, l)]) = a.
Proof. unfold before. rewrite fmap_app. cbn. by rewrite last_snoc. Qed.

Lemma before_split ps1 : ∃ L, neg_inf_page_ :: ps1.*1 = L ++ [before ps1].
Proof.
  unfold before. destruct ps1 as [|x ps _] using rev_ind; [by exists []|].
  rewrite fmap_app. cbn. rewrite last_snoc. by exists (neg_inf_page_ :: ps.*1).
Qed.
Lemma after_split ps2 : ∃ L, ps2.*1 ++ [pos_inf_page_] = after ps2 :: L.
Proof. unfold after. destruct ps2 as [|x ps2]; cbn; [by exists []|]. by eexists. Qed.

Lemma full_split ps1 ps2 : ∃ L1 L2,
  neg_inf_page_ :: ps1.*1 = L1 ++ [before ps1] ∧ ps2.*1 ++ [pos_inf_page_] = after ps2 :: L2 ∧
  (full (ps1 ++ ps2)).*1 = L1 ++ before ps1 :: after ps2 :: L2 ∧
  ∀ x, (full (ps1 ++ x :: ps2)).*1 = L1 ++ before ps1 :: x.1 :: after ps2 :: L2.
Proof.
  destruct (before_split ps1) as [L1 E1], (after_split ps2) as [L2 E2]. exists L1, L2. split_and!; [done|done|..].
  - unfold full. rewrite fmap_cons, !fmap_app. cbn. rewrite <- app_assoc, E2, app_comm_cons, E1, <- app_assoc. done.
  - intros x. unfold full. rewrite fmap_cons, !fmap_app. cbn. rewrite <- app_assoc, <- app_comm_cons, E2, app_comm_cons, E1, <- app_assoc. done.
Qed.

Lemma full_app ps1 ps2 x : x ∈ full (ps1 ++ ps2) ↔ x ∈ full ps1 ∨ x ∈ full ps2.
Proof. unfold full. set_solver. Qed.

Lemma full_dup h ps a l l' : heap_ok h ps → (a, l) ∈ full ps → (a, l') ∈ full ps → l = l'.
Proof.
  intros Ho H1 H2. destruct (ho_page h ps Ho a l H1) as (p & Hp & Hk & He). destruct (ho_page h ps Ho a l' H2) as (p' & Hp' & Hk' & He').
  rewrite Hp in Hp'. injection Hp' as <-. rewrite <- (zip_fst_snd l), <- (zip_fst_snd l'). congruence.
Qed.

Lemma linked_ext (nx nx' pv pv' : Z → option Z) L :
  linked nx pv L → (∀ x, nx' x = nx x) → (∀ x, pv' x = pv x) → linked nx' pv' L.
Proof.
  intros [Hd Hc] Hn Hp. split; [done|]. clear Hd. destruct L as [|x L]; [done|].
  by apply (chain_ext_cons nx pv).
Qed.

Lemma heap_neighbours h ps1 a l ps2 p :
  heap_ok h (ps1 ++ (a, l) :: ps2) → h !! a = Some p → prev_page_ p = Some (before ps1) ∧ next_page_ p = Some (after ps2).
Proof.
  intros Ho Hp. destruct (full_split ps1 ps2) as (L1 & L2 & _ & _ & _ & E). pose proof (ho_links _ _ Ho) as Hl.
  rewrite (E (a, l)) in Hl. cbn in Hl.
  destruct (linked_next _ _ _ _ _ _ Hl) as [_ H1]. change (L1 ++ before ps1 :: a :: after ps2 :: L2) with
    (L1 ++ [before ps1] ++ a :: after ps2 :: L2) in Hl. rewrite app_assoc in Hl.
  destruct (linked_next _ _ _ _ _ _ Hl) as [H2 _]. unfold next_of, prev_of in *. rewrite Hp in *. done.
Qed.

Lemma heap_distinct h ps : heap_ok h ps → NoDup ps.*1 ∧ neg_inf_page_ ∉ ps.*1 ∧ pos_inf_page_ ∉ ps.*1.
Proof.
  intros Ho. pose proof (lk_dup _ _ _ (ho_links _ _ Ho)) as Hd. unfold full in Hd. rewrite fmap_cons, fmap_app in Hd.
  cbn in Hd. apply NoDup_cons in Hd as [Hn (H1 & H2 & _)%NoDup_app]. split_and!; [done|set_solver|].
  intros Hi. apply (H2 _ Hi). by left.
Qed.

Lemma heap_page h ps1 a l ps2 : heap_ok h (ps1 ++ (a, l) :: ps2) → ∃ p, h !! a = Some p ∧ keys_ p = l.*1 ∧ entries_ p = l.*2.
Proof. intros Ho. apply (ho_page _ _ Ho). unfold full. set_solver. Qed.

(** *** Heap operations *)

Lemma full_mid ps1 a l ps2 x : x ∈ full (ps1 ++ (a, l) :: ps2) ↔ x = (a, l) ∨ x ∈ full (ps1 ++ ps2).
Proof. unfold full. set_solver. Qed.

Lemma full_mid_fst ps1 a l ps2 x : x ∈ (full (ps1 ++ (a, l) :: ps2)).*1 ↔ x = a ∨ x ∈ (full (ps1 ++ ps2)).*1.
Proof.
  destruct (full_split ps1 ps2) as (L1 & L2 & _ & _ & E1 & E2). rewrite E1, (E2 (a, l)). cbn. set_solver.
Qed.

Lemma heap_rest h ps1 a l ps2 b lb : heap_ok h (ps1 ++ (a, l) :: ps2) → (b, lb) ∈ full (ps1 ++ ps2) → b ≠ a.
Proof.
  intros Ho Hb ->. pose proof (lk_dup _ _ _ (ho_links _ _ Ho)) as Hd.
  destruct (full_split ps1 ps2) as (L1 & L2 & _ & _ & E1 & E2). rewrite (E2 (a, l)) in Hd. cbn in Hd.
  apply (list_elem_of_fmap_2 fst) in Hb. rewrite E1 in Hb. cbn in Hb.
  apply NoDup_app in Hd as (_ & D1 & D2). rewrite !NoDup_cons in D2. set_solver.
Qed.

Lemma heap_content h ps1 a l ps2 p p' l' :
  heap_ok h (ps1 ++ (a, l) :: ps2) → h !! a = Some p → keys_ p' = l'.*1 → entries_ p' = l'.*2 →
  prev_page_ p' = prev_page_ p → next_page_ p' = next_page_ p → heap_ok (<[a := p']> h) (ps1 ++ (a, l') :: ps2).
Proof.
  intros Ho Hp Hk He Hpv Hnx.
  assert (∀ x, next_of (<[a := p']> h) x = next_of h x) as Hn.
  { intros x. unfold next_of. destruct (decide (x = a)) as [->|]; [|by rewrite lookup_insert_ne].
    rewrite lookup_insert_eq, Hp. cbn. done. }
  assert (∀ x, prev_of (<[a := p']> h) x = prev_of h x) as Hv.
  { intros x. unfold prev_of. destruct (decide (x = a)) as [->|]; [|by rewrite lookup_insert_ne].
    rewrite lookup_insert_eq, Hp. cbn. done. }
  split.
  - intros b lb [[= -> ->]|Hb]%full_mid; [rewrite lookup_insert_eq; eauto|].
    rewrite lookup_insert_ne by (apply not_eq_sym; by eapply heap_rest). apply (ho_page _ _ Ho), full_mid. by right.
  - intros x Hx. rewrite full_mid_fst. destruct (decide (x = a)) as [->|Hne]; [by left|]. rewrite lookup_insert_ne in Hx by done.
    apply (ho_dom _ _ Ho), full_mid_fst in Hx. done.
  - assert ((full (ps1 ++ (a, l') :: ps2)).*1 = (full (ps1 ++ (a, l) :: ps2)).*1) as ->.
    { destruct (full_split ps1 ps2) as (L1 & L2 & _ & _ & _ & E). by rewrite !E. }
    by apply (linked_ext (next_of h) _ (prev_of h)), Hv; [apply (ho_links _ _ Ho)|].
  - rewrite Hv. apply (ho_first _ _ Ho).
  - rewrite Hn. apply (ho_last _ _ Ho).
Qed.

Lemma CcPage_new_lookup h a pv nx ks es x : a ≠ pv → a ≠ nx → pv ≠ nx →
  CcPage_new h a pv nx ks es !! x =
    if decide (x = a) then Some (mkPage ks es (Some pv) (Some nx) 0 UINT64_MAX)
    else if decide (x = pv) then (λ q, with_next q (Some a)) <$> h !! x
    else if decide (x = nx) then (λ q, with_prev q (Some a)) <$> h !! x else h !! x.
Proof.
  intros. unfold CcPage_new. destruct (decide (x = nx)) as [->|].
  - rewrite lookup_alter_eq, lookup_alter_ne, lookup_insert_ne by done. by rewrite !decide_False by done.
  - rewrite lookup_alter_ne by done. destruct (decide (x = pv)) as [->|].
    + rewrite lookup_alter_eq, lookup_insert_ne by done. by rewrite decide_False by done.
    + rewrite lookup_alter_ne by done. destruct (decide (x = a)) as [->|]; by rewrite ?lookup_insert_eq, ?lookup_insert_ne.
Qed.

Lemma place_distinct h ps1 ps2 : heap_ok h (ps1 ++ ps2) → before ps1 ≠ after ps2 ∧ is_Some (h !! before ps1) ∧ is_Some (h !! after ps2).
Proof.
  intros Ho. destruct (full_split ps1 ps2) as (L1 & L2 & _ & _ & E & _). pose proof (lk_dup _ _ _ (ho_links _ _ Ho)) as Hd.
  rewrite E in Hd. apply NoDup_app in Hd as (_ & _ & [Hd _]%NoDup_cons). split; [set_solver|].
  assert (∀ x, x ∈ (full (ps1 ++ ps2)).*1 → is_Some (h !! x)) as Hall.
  { intros x ([y lx] & -> & Hy)%list_elem_of_fmap. destruct (ho_page _ _ Ho _ _ Hy) as (p & Hp & _). cbn. rewrite Hp. by eexists. }
  split; apply Hall; rewrite E; set_solver.
Qed.

Lemma heap_new h ps1 ps2 a l :
  heap_ok h (ps1 ++ ps2) → h !! a = None →
  heap_ok (CcPage_new h a (before ps1) (after ps2) l.*1 l.*2) (ps1 ++ (a, l) :: ps2).
Proof.
  intros Ho Ha. destruct (place_distinct _ _ _ Ho) as (Hne & [pb Hpb] & [pa Hpa]).
  assert (a ≠ before ps1 ∧ a ≠ after ps2) as [Hab Haa] by (split; congruence).
  pose proof (λ x, CcPage_new_lookup h a (before ps1) (after ps2) l.*1 l.*2 x Hab Haa Hne) as Hlk.
  set (h' := CcPage_new _ _ _ _ _ _) in *.
  assert (∀ x, next_of h' x = if decide (x = a) then Some (after ps2) else if decide (x = before ps1) then Some a else next_of h x) as Hn.
  { intros x. unfold next_of. rewrite Hlk. repeat case_decide; subst; try done; [by rewrite Hpb|by rewrite Hpa]. }
  assert (∀ x, prev_of h' x = if decide (x = a) then Some (before ps1) else if decide (x = after ps2) then Some a else prev_of h x) as Hv.
  { intros x. unfold prev_of. rewrite Hlk. repeat case_decide; subst; try done; [by rewrite Hpb|by rewrite Hpa]. }
  destruct (full_split ps1 ps2) as (L1 & L2 & Eb & Ea & E1 & E2).
  pose proof (lk_dup _ _ _ (ho_links _ _ Ho)) as Hd. rewrite E1 in Hd. apply NoDup_app in Hd as (_ & D1 & D2). rewrite !NoDup_cons in D2.
  assert (a ∉ (full (ps1 ++ ps2)).*1) as Hfr.
  { intros ([y ly] & -> & Hy)%list_elem_of_fmap. cbn in Ha. destruct (ho_page _ _ Ho _ _ Hy) as (p & Hp & _). congruence. }
  rewrite E1 in Hfr.
  split.
  - intros b lb [[= -> ->]|Hb]%full_mid; [rewrite Hlk, decide_True by done; eauto|].
    destruct (ho_page _ _ Ho _ _ Hb) as (p & Hp & Hk & He). rewrite Hlk, Hp, decide_False by congruence.
    repeat case_decide; cbn; eauto.
  - intros x Hx. rewrite full_mid_fst. rewrite Hlk in Hx. destruct (decide (x = a)); [by left|]. right. apply (ho_dom _ _ Ho).
    repeat case_decide; cbn in *; [by apply fmap_is_Some in Hx..|done].
  - pose proof (ho_links _ _ Ho) as Hl. rewrite E1 in Hl. rewrite (E2 (a, l)).
    eapply linked_insert; [exact Hl|set_solver|..]; rewrite ?Hn, ?Hv; repeat case_decide; try done.
    + intros x Hx. rewrite Hn, !decide_False; set_solver.
    + intros x Hx. rewrite Hv, !decide_False; set_solver.
  - rewrite Hv, !decide_False; [apply (ho_first _ _ Ho)|..]; intros E;
      assert (neg_inf_page_ ∈ L1 ++ [before ps1]) as Hi by (rewrite <- Eb; by left); rewrite E in Hi; set_solver.
  - rewrite Hn, !decide_False; [apply (ho_last _ _ Ho)|..]; intros E;
      assert (pos_inf_page_ ∈ after ps2 :: L2) as Hi by (rewrite <- Ea; set_solver); rewrite E in Hi; set_solver.
Qed.

Lemma CcPage_delete_lookup h a p pv nx x : h !! a = Some p → prev_page_ p = Some pv → next_page_ p = Some nx →
  a ≠ pv → a ≠ nx → pv ≠ nx →
  CcPage_delete h a !! x =
    if decide (x = a) then None
    else if decide (x = pv) then (λ q, with_next q (Some nx)) <$> h !! x
    else if decide (x = nx) then (λ q, with_prev q (Some pv)) <$> h !! x else h !! x.
Proof.
  intros Hp Hpv Hnx ???. unfold CcPage_delete. rewrite Hp, Hpv, Hnx. destruct (decide (x = a)) as [->|]; [by rewrite lookup_delete_eq|].
  rewrite lookup_delete_ne by done. destruct (decide (x = nx)) as [->|].
  - rewrite lookup_alter_eq, lookup_alter_ne by done. by rewrite decide_False by done.
  - rewrite lookup_alter_ne by done. destruct (decide (x = pv)) as [->|]; [by rewrite lookup_alter_eq|by rewrite lookup_alter_ne].
Qed.

Lemma heap_delete h ps1 a l ps2 : heap_ok h (ps1 ++ (a, l) :: ps2) → heap_ok (CcPage_delete h a) (ps1 ++ ps2).
Proof.
  intros Ho. destruct (heap_page _ _ _ _ _ Ho) as (p & Hp & _). destruct (heap_neighbours _ _ _ _ _ _ Ho Hp) as [Hpv Hnx].
  destruct (full_split ps1 ps2) as (L1 & L2 & Eb & Ea & E1 & E2). pose proof (ho_links _ _ Ho) as Hl. rewrite (E2 (a, l)) in Hl.
  pose proof (lk_dup _ _ _ Hl) as Hd. apply NoDup_app in Hd as (_ & D1 & D2). rewrite !NoDup_cons in D2. cbn in Hl, D1, D2.
  assert (a ≠ before ps1 ∧ a ≠ after ps2 ∧ before ps1 ≠ after ps2) as (Hab & Haa & Hne) by set_solver.
  pose proof (λ x, CcPage_delete_lookup h a p _ _ x Hp Hpv Hnx Hab Haa Hne) as Hlk. set (h' := CcPage_delete h a) in *.
  assert (∀ x, x ∈ (full (ps1 ++ (a, l) :: ps2)).*1 → is_Some (h !! x)) as Hall.
  { intros x ([y lx] & -> & Hy)%list_elem_of_fmap. destruct (ho_page _ _ Ho _ _ Hy) as (q & Hq & _). cbn. rewrite Hq. by eexists. }
  destruct (Hall (before ps1)) as [pb Hpb]; [rewrite (E2 (a, l)); set_solver|].
  destruct (Hall (after ps2)) as [pa Hpa]; [rewrite (E2 (a, l)); set_solver|].
  assert (∀ x, x ≠ a → next_of h' x = if decide (x = before ps1) then Some (after ps2) else next_of h x) as Hn.
  { intros x Hx. unfold next_of. rewrite Hlk, decide_False by done. repeat case_decide; subst; [by rewrite Hpb|by rewrite Hpa|done]. }
  assert (∀ x, x ≠ a → prev_of h' x = if decide (x = after ps2) then Some (before ps1) else prev_of h x) as Hv.
  { intros x Hx. unfold prev_of. rewrite Hlk, decide_False by done. repeat case_decide; subst; try done; [by rewrite Hpb|by rewrite Hpa]. }
  assert (neg_inf_page_ ∈ L1 ++ [before ps1]) as Hneg by (rewrite <- Eb; by left).
  assert (pos_inf_page_ ∈ after ps2 :: L2) as Hpos by (rewrite <- Ea; set_solver).
  split.
  - intros b lb Hb. pose proof (heap_rest _ _ _ _ _ _ _ Ho Hb) as Hba.
    destruct (ho_page _ _ Ho b lb) as (q & Hq & Hk & He); [apply full_mid; by right|].
    rewrite Hlk, Hq, decide_False by done. repeat case_decide; cbn; eauto.
  - intros x Hx. rewrite Hlk in Hx. destruct (decide (x = a)); [by destruct Hx|]. assert (x ∈ (full (ps1 ++ (a, l) :: ps2)).*1) as Hi.
    { apply (ho_dom _ _ Ho). repeat case_decide; cbn in *; [by apply fmap_is_Some in Hx..|done]. }
    apply full_mid_fst in Hi as [|]; done.
  - rewrite E1. eapply linked_remove; [exact Hl|..].
    + rewrite Hn, decide_True by done. done.
    + rewrite Hv, decide_True by done. done.
    + intros x Hx. rewrite Hn, decide_False; [done|..]; set_solver.
    + intros x Hx. rewrite Hv, decide_False; [done|..]; set_solver.
  - rewrite Hv, decide_False; [apply (ho_first _ _ Ho)|..]; intros E; rewrite E in Hneg; set_solver.
  - rewrite Hn, decide_False; [apply (ho_last _ _ Ho)|..]; intros E; rewrite E in Hpos; set_solver.
Qed.

(** *** The index *)

Lemma index_first c ps x : index_ok c ps → x ∈ c.*1 → x ∈ (content ps).*1.
Proof.
  induction 1 as [|[k a] [b l] c ps [_ Hh] _ IH]; [done|]. cbn in Hh. rewrite fmap_cons, content_cons, fmap_app.
  intros [->|Hx]%elem_of_cons; [|set_solver]. apply elem_of_app. left. by apply head_Some_elem_of.
Qed.

Lemma index_sorted c ps : index_ok c ps → StronglySorted key_lt (content ps).*1 → StronglySorted key_lt c.*1.
Proof.
  induction 1 as [|[k a] [b l] c ps [_ Hh] Hc IH]; [constructor|]. cbn in Hh. rewrite fmap_cons, content_cons, fmap_app.
  intros (H1 & H2 & H3)%StronglySorted_app. constructor; [by apply IH|]. rewrite Forall_forall. intros x Hx.
  apply H1; [by apply head_Some_elem_of|]. by eapply index_first.
Qed.

Lemma index_split c ps1 a l ps2 : index_ok c (ps1 ++ (a, l) :: ps2) →
  ∃ c1 k c2, c = c1 ++ (k, a) :: c2 ∧ length c1 = length ps1 ∧ head l.*1 = Some k ∧ index_ok c1 ps1 ∧ index_ok c2 ps2.
Proof.
  intros Hi. apply Forall2_app_inv_r in Hi as (c1 & c2 & H1 & H2 & ->). inversion H2 as [|[k b] ? c2' ? [Hb Hk] H3]; subst.
  cbn in *. subst. exists c1, k, c2'. split_and!; try done. by eapply Forall2_length.
Qed.

Lemma map_emplace_mid c1 c2 k a : (∀ x, x ∈ c1.*1 → x <k k) → (∀ x, x ∈ c2.*1 → k <k x) →
  map_emplace k a (c1 ++ c2) = (length c1, c1 ++ (k, a) :: c2).
Proof.
  intros H1 H2. unfold map_emplace, map_lower_bound, lower_bound. rewrite fmap_app, partition_point_app.
  - rewrite length_fmap, decide_False; [by rewrite insert_at_app|].
    intros E. rewrite lookup_app_r, length_fmap, Nat.sub_diag in E by (rewrite length_fmap; done).
    apply list_elem_of_lookup_2, H2 in E. by apply key_lt_irrefl in E.
  - rewrite Forall_forall. intros x Hx. apply search_lt_ordinary. auto.
  - intros x Hx%head_Some_elem_of. rewrite search_lt_ordinary. by apply key_lt_asym, H2.
Qed.

Lemma map_find_mid c1 c2 k a : StronglySorted key_lt (c1 ++ (k, a) :: c2).*1 → map_find k (c1 ++ (k, a) :: c2) = length c1.
Proof.
  intros Hs. rewrite fmap_app in Hs. apply StronglySorted_app in Hs as (H1 & _ & _).
  unfold map_find, map_lower_bound, lower_bound. rewrite fmap_app, fmap_cons, partition_point_mid.
  - rewrite length_fmap, decide_True; [done|]. rewrite <- (length_fmap fst c1). by apply list_lookup_middle.
  - rewrite Forall_forall. intros x Hx. apply search_lt_ordinary. apply H1; [done|]. by left.
  - rewrite search_lt_ordinary. apply key_lt_irrefl.
Qed.

Lemma set_ccmp_same (m : Ccm K V) : set_ccmp m (ccmp_ m) = m.
Proof. by destruct m. Qed.

Lemma page_ends h ps1 a l ps2 p : heap_ok h (ps1 ++ (a, l) :: ps2) → h !! a = Some p →
  FirstKey p = Ordinary <$> head l.*1 ∧ LastKey p = Ordinary <$> last l.*1.
Proof.
  intros Ho Hp. destruct (heap_neighbours _ _ _ _ _ _ Ho Hp) as [Hpv Hnx]. destruct (heap_page _ _ _ _ _ Ho) as (p' & Hp' & Hk & _).
  rewrite Hp in Hp'. injection Hp' as <-. unfold FirstKey, LastKey, IsNegInf, IsPosInf. by rewrite Hpv, Hnx, Hk.
Qed.

Lemma TryUpdatePageKey_ok (m : Ccm K V) c1 k0 a c2 p k :
  ccmp_ m = c1 ++ (k0, a) :: c2 → heap m !! a = Some p → FirstKey p = Some (Ordinary k) →
  (∀ x, x ∈ c1.*1 → x <k k) → (∀ x, x ∈ c2.*1 → k <k x) →
  TryUpdatePageKey m (length c1) = Some (length c1, set_ccmp m (c1 ++ (k, a) :: c2)).
Proof.
  intros Hc Hp Hf H1 H2. unfold TryUpdatePageKey. rewrite Hc, list_lookup_middle by done. cbn [mbind option_bind].
  rewrite Hp. cbn [mbind option_bind]. rewrite Hf. case_decide; subst.
  - rewrite <- Hc. by rewrite set_ccmp_same.
  - rewrite remove_at_app_middle, map_emplace_mid by done. done.
Qed.

(** *** Searching *)

Lemma partition_point_fmap {A B} (f : A → B) (P : B → Prop) `{!∀ x, Decision (P x)} (l : list A) :
  partition_point P (f <$> l) = partition_point (λ x, P (f x)) l.
Proof. induction l as [|x l IH]; [done|]. cbn. case_decide; [by f_equal|done]. Qed.

Lemma content_from c ps (Q : K → Prop) : (∀ x y, Q x → x <k y → Q y) →
  index_ok c ps → StronglySorted key_lt (content ps).*1 → (∀ x, head c = Some x → Q x.1) → ∀ y, y ∈ (content ps).*1 → Q y.
Proof.
  intros Hup Hi Hs Hh y Hy. destruct Hi as [|[k a] [b l] c ps [_ Hl] _]; [by apply elem_of_nil in Hy|]. cbn in Hl. specialize (Hh _ eq_refl). cbn in Hh.
  destruct (head_sorted key_lt (content ((b, l) :: ps)).*1 k y) as [->|?]; try done; [|by eapply Hup].
  rewrite content_cons, fmap_app, head_app, Hl. done.
Qed.

Lemma content_below c1 k a l ps1 ps2 x y :
  index_ok (c1 ++ [(k, a)]) (ps1 ++ [(a, l)]) → StronglySorted key_lt (content (ps1 ++ (a, l) :: ps2)).*1 →
  x ∈ (content ps1).*1 → y = k ∨ k <k y → x <k y.
Proof.
  intros Hi Hs Hx Hy. apply index_split in Hi as (c1' & k' & c2 & E & HL & Hk & H1 & H2). inversion H2; subst.
  apply app_inj_tail in E as [-> [= ->]]. rewrite content_mid, !fmap_app in Hs. apply StronglySorted_app in Hs as (Hs & _).
  assert (x <k k') by (apply Hs; [done|]; apply elem_of_app; left; by apply head_Some_elem_of).
  destruct Hy as [->|]; [done|by eapply key_lt_trans].
Qed.

Lemma index_cut c1 c2 ps : index_ok (c1 ++ c2) ps → ∃ ps1 ps2, ps = ps1 ++ ps2 ∧ index_ok c1 ps1 ∧ index_ok c2 ps2 ∧ length c1 = length ps1.
Proof. intros (ps1 & ps2 & H1 & H2 & ->)%Forall2_app_inv_l. exists ps1, ps2. split_and!; try done. by eapply Forall2_length. Qed.

(** The pages before the one found hold smaller keys than [k], those behind it larger ones. *)
Lemma locate_upper c ps k : ps_ok ps → index_ok c ps → ps ≠ [] → ∃ ps1 a l ps2,
  ps = ps1 ++ (a, l) :: ps2 ∧ map_upper_bound (Ordinary k) c - 1 = length ps1 ∧
  (∀ x, x ∈ (content ps1).*1 → x <k k) ∧ (∀ x, x ∈ (content ps2).*1 → k <k x).
Proof.
  intros Hok Hi Hne. pose proof (po_sorted _ Hok) as Hs. unfold map_upper_bound, upper_bound. rewrite partition_point_fmap.
  destruct (partition_point_spec (λ x : K * Z, search_lt (Ordinary k) (Ordinary x.1) = false) c) as (c1 & c2 & -> & HL & H1 & H2).
  rewrite <- HL. clear HL. apply index_cut in Hi as (ps1 & ps2 & -> & I1 & I2 & HL).
  assert (∀ y, y ∈ (content ps2).*1 → k <k y) as Habove.
  { apply (content_from c2 ps2 (λ x, k <k x)); [intros ??; apply key_lt_trans|done| |].
    - rewrite content_app, fmap_app in Hs. by apply StronglySorted_app_1_r in Hs.
    - intros x Hx%H2. by apply not_false_iff_true, search_lt_ordinary in Hx. }
  destruct c1 as [|[k' a] c1 _] using rev_ind.
  - destruct ps1; [|done]. destruct ps2 as [|[a l] ps2]; [done|]. exists [], a, l, ps2. split_and!; [done|done|by intros ? ?%elem_of_nil|].
    intros x Hx. apply Habove. rewrite content_cons, fmap_app. set_solver.
  - destruct ps1 as [|[b l] ps1 _] using rev_ind; [rewrite length_app in HL; cbn in HL; lia|].
    rewrite !length_app in HL. cbn in HL. assert (b = a) as ->.
    { apply Forall2_app_inv in I1 as [_ I1]; [|lia]. by inversion I1 as [|?? ? ? [? _]]. }
    exists ps1, a, l, ps2. rewrite <- app_assoc in Hs |- *. split_and!; [done|rewrite length_app; cbn; lia| |done].
    intros x Hx. eapply (content_below c1 k' a l ps1 ps2); [done..|].
    apply Forall_app in H1 as [_ H1]. rewrite Forall_singleton in H1. cbn [fst] in H1.
    apply not_true_iff_false in H1. rewrite search_lt_ordinary in H1. destruct (key_not_lt _ _ H1); auto.
Qed.
End rep.
