(* ===== verification/PagesInsert.v ===== *)
(** * Insertion into the pages of a cc map

    [FindEmplace] finds a key or inserts it, splitting a full page when the neighbours
    cannot take the key.  The theorem says that it implements the lookup and the insertion
    of a sorted list and keeps the pages, the index, the links and the LRU list in order. *)

From S2P Require Import Prelude CcProtocol CcEntry LruList CcPages PagesRep.
From stdpp Require Import sorting.

Section insert.
Context {K V : Type} `{!KeyOrder K}.
Context (record_ttl : V → option Z).
Implicit Types (m : Ccm K V) (ps : list (Z * list (K * Z))) (l : list (K * Z)) (k : K) (p : CcPage K) (xs : list Z).

(** ** In a page *)

Lemma sorted_cut l k : StronglySorted key_lt l.*1 → ∃ l1 l2,
  l = l1 ++ l2 ∧ lower_bound (Ordinary k) l.*1 = length l1 ∧ (∀ x, x ∈ l1.*1 → x <k k) ∧ (∀ x, x ∈ l2.*1 → k = x ∨ k <k x).
Proof.
  intros Hs. unfold lower_bound. rewrite partition_point_fmap.
  destruct (partition_point_spec (λ x : K * Z, search_lt (Ordinary x.1) (Ordinary k) = true) l) as (l1 & l2 & -> & HL & H1 & H2).
  exists l1, l2. split_and!; [done|done|..].
  - intros x ([y e] & -> & Hy)%list_elem_of_fmap. rewrite Forall_forall in H1. by apply search_lt_ordinary, H1.
  - intros x Hx. rewrite fmap_app in Hs. apply StronglySorted_app_1_r in Hs. destruct l2 as [|[y e] l2]; [by apply elem_of_nil in Hx|].
    specialize (H2 _ eq_refl). cbn [fst] in H2. rewrite search_lt_ordinary in H2. apply key_not_lt in H2.
    destruct (head_sorted key_lt _ y x Hs eq_refl Hx) as [->|]; [naive_solver|]. right. destruct H2 as [->|]; [done|by eapply key_lt_trans].
Qed.

Lemma page_find_in p l1 k e l2 :
  keys_ p = (l1 ++ (k, e) :: l2).*1 → StronglySorted key_lt (keys_ p) → page_find p k = length l1.
Proof.
  intros Hk Hs. unfold page_find. assert (k ∈ keys_ p) as Hin by (rewrite Hk, fmap_app; set_solver).
  destruct (head (keys_ p)) as [front|] eqn:Hh; [|by destruct (keys_ p); [apply elem_of_nil in Hin|]].
  destruct (last (keys_ p)) as [back|] eqn:Hl; [|by apply last_None in Hl; rewrite Hl in Hin; apply elem_of_nil in Hin].
  rewrite !bool_decide_eq_false_2. 
  - cbn [orb]. assert (lower_bound (Ordinary k) (keys_ p) = length l1) as ->.
    { unfold lower_bound. rewrite Hk, fmap_app, fmap_cons in *. rewrite partition_point_mid, length_fmap; [done|..].
      - rewrite Forall_forall. intros x Hx. apply search_lt_ordinary.
        eapply StronglySorted_app_1_elem_of; [exact Hs|done|by left].
      - rewrite search_lt_ordinary. apply key_lt_irrefl. }
    rewrite decide_True; [done|]. rewrite Hk, fmap_app, fmap_cons, <- (length_fmap fst l1). by apply list_lookup_middle.
  - destruct (last_sorted key_lt _ back k Hs Hl Hin) as [->|?]; [apply key_lt_irrefl|by apply key_lt_asym].
  - destruct (head_sorted key_lt _ front k Hs Hh Hin) as [->|?]; [apply key_lt_irrefl|by apply key_lt_asym].
Qed.

Lemma page_find_out p k : k ∉ keys_ p → page_find p k = page_size p.
Proof.
  intros Hk. unfold page_find. destruct (head (keys_ p)), (last (keys_ p)); try done. destruct (_ || _); [done|].
  rewrite decide_False; [done|]. intros E. apply Hk. by eapply list_elem_of_lookup_2.
Qed.

Lemma page_emplace_spec p l k e :
  keys_ p = l.*1 → entries_ p = l.*2 → StronglySorted key_lt l.*1 → k ∉ l.*1 → ∃ l1 l2,
    l = l1 ++ l2 ∧ (∀ x, x ∈ l1.*1 → x <k k) ∧ (∀ x, x ∈ l2.*1 → k <k x) ∧
    page_emplace p k e = (length l1, with_content p (l1 ++ (k, e) :: l2).*1 (l1 ++ (k, e) :: l2).*2).
Proof.
  intros Hk He Hs Hn. destruct (sorted_cut l k Hs) as (l1 & l2 & -> & Hlb & H1 & H2). exists l1, l2.
  assert (∀ x, x ∈ l2.*1 → k <k x) as H2'.
  { intros x Hx. destruct (H2 x Hx) as [->|]; [|done]. destruct Hn. rewrite fmap_app. set_solver. }
  split_and!; [done..|]. unfold page_emplace.
  assert (match last (keys_ p) with Some back => if bool_decide (back <k k) then page_size p else lower_bound (Ordinary k) (keys_ p)
    | None => lower_bound (Ordinary k) (keys_ p) end = length l1) as ->.
  { unfold page_size. rewrite Hk, Hlb. destruct (last _) as [back|] eqn:Hl; [|done]. case_bool_decide as Hb; [|done].
    destruct l2 as [|[x ex] l2]; [by rewrite length_fmap, app_nil_r|]. exfalso. rewrite fmap_app in *.
    destruct (last_sorted key_lt _ back x Hs Hl) as [->|Hx]; [set_solver| |].
    - by apply (key_lt_asym back k), H2'; [|left].
    - apply (key_lt_asym x k); [by eapply key_lt_trans|]. apply H2'. by left. }
  rewrite Hk, He. change k with (k, e).1 at 1. change e with (k, e).2 at 2. by rewrite <- !fmap_insert_at, insert_at_app.
Qed.

(** ** Placing a key *)

(** A page that can take the key: it is not full, and the keys of the other pages are on
    the right sides.  It may be new and empty, with the key as its node. *)
Record insert_ready m ps1 (a : Z) l ps2 k : Prop := {
  ir_heap : heap_ok (heap m) (ps1 ++ (a, l) :: ps2);
  ir_index : ∃ c1 k0 c2, ccmp_ m = c1 ++ (k0, a) :: c2 ∧ index_ok c1 ps1 ∧ index_ok c2 ps2;
  ir_len b lb : (b, lb) ∈ ps1 ++ ps2 → 0 < length lb ≤ split_threshold_;
  ir_room : length l < split_threshold_;
  ir_sorted : StronglySorted key_lt (content (ps1 ++ (a, l) :: ps2)).*1;
  ir_dup : NoDup (content (ps1 ++ (a, l) :: ps2)).*2;
  ir_locks : locks_ok (lock_page m) (ps1 ++ (a, l) :: ps2);
  ir_cces e : e ∈ (content (ps1 ++ (a, l) :: ps2)).*2 → is_Some (cces m !! e) ∧ e ≠ nullptr ∧ e ≠ neg_inf_;
  ir_size : size_ m = u64 (Z.of_nat (length (content (ps1 ++ (a, l) :: ps2))));
  ir_below x : x ∈ (content ps1).*1 → x <k k;
  ir_above x : x ∈ (content ps2).*1 → k <k x;
}.

Lemma ready_of_ok m ps1 a l ps2 k :
  ccm_ok m (ps1 ++ (a, l) :: ps2) → length l < split_threshold_ → (∀ x, x ∈ (content ps1).*1 → x <k k) →
  (∀ x, x ∈ (content ps2).*1 → k <k x) → insert_ready m ps1 a l ps2 k.
Proof.
  intros [[Hl Hs Hd] Hh Hi Hlo Hc Hz] Hroom Hb Ha. split; try done.
  - apply index_split in Hi as (c1 & k0 & c2 & ? & _ & _ & ? & ?). by exists c1, k0, c2.
  - intros b lb Hin. apply (Hl b). set_solver.
Qed.

(** An address that an allocation may return. *)
Definition new_cce m ps (cce : Z) : Prop :=
  cce ∉ (content ps).*2 ∧ cce ≠ nullptr ∧ cce ≠ neg_inf_ ∧ lock_page m !! cce = None.

Lemma NoDup_insert_mid {A} (l1 l2 : list A) x : NoDup (l1 ++ l2) → x ∉ l1 ++ l2 → NoDup (l1 ++ x :: l2).
Proof. intros Hd Hx. rewrite NoDup_app, NoDup_cons in *. set_solver. Qed.

(** The first key of the page after the insertion is between the nodes of its neighbours. *)
Lemma inserted_head (c1 c2 : list (K * Z)) ps1 ps2 l1 l2 k cce :
  index_ok c1 ps1 → index_ok c2 ps2 → StronglySorted key_lt ((content ps1 ++ l1) ++ l2 ++ content ps2).*1 →
  (∀ x, x ∈ (content ps1).*1 → x <k k) → (∀ x, x ∈ (content ps2).*1 → k <k x) → 
  ∃ f, head (l1 ++ (k, cce) :: l2).*1 = Some f ∧ (∀ x, x ∈ c1.*1 → x <k f) ∧ (∀ x, x ∈ c2.*1 → f <k x).
Proof.
  intros I1 I2 Hs Hb Ha. destruct l1 as [|[f e] l1]; cbn.
  - exists k. split_and!; [done|..]; intros x Hx; [apply Hb|apply Ha]; by eapply index_first.
  - exists f. rewrite !fmap_app in Hs. cbn in Hs. rewrite <- app_assoc in Hs. apply StronglySorted_app in Hs as (H1 & _ & H2).
    inversion H2 as [|? ? ? H3]; subst. rewrite Forall_forall in H3. split_and!; [done|..].
    + intros x Hx. apply H1; [|by left]. by eapply index_first.
    + intros x Hx. apply H3. apply elem_of_app. right. apply elem_of_app. right. by eapply index_first.
Qed.

Lemma emplace_ok m ps1 a l ps2 k cce :
  insert_ready m ps1 a l ps2 k → k ∉ l.*1 → new_cce m (ps1 ++ (a, l) :: ps2) cce →
  ∃ l1 l2 p m4, l = l1 ++ l2 ∧ (∀ x, x ∈ l1.*1 → x <k k) ∧ (∀ x, x ∈ l2.*1 → k <k x) ∧ heap m !! a = Some p ∧
    (page_emplace p k cce).1 = length l1 ∧
    TryUpdatePageKey (set_page (set_cces m (<[cce := CcEntry_new]> (cces m))) a (page_emplace p k cce).2) (length ps1) = Some (length ps1, m4) ∧
    Iterator_at m4 a (length l1) = Some (mkIter (Ordinary k) cce a (length l1)) ∧
    ccm_ok (set_size m4 (u64 (size_ m4 + 1))) (ps1 ++ (a, l1 ++ (k, cce) :: l2) :: ps2).
Proof.
  intros [Hh (c1 & k0 & c2 & Hc & I1 & I2) Hlen Hroom Hs Hd Hlo Hce Hz Hb Ha] Hk (Hn1 & Hn2 & Hn3 & Hn4).
  destruct (heap_page _ _ _ _ _ Hh) as (p & Hp & Hks & Hes).
  assert (StronglySorted key_lt l.*1) as Hsl.
  { rewrite content_mid, !fmap_app in Hs. by apply StronglySorted_app_1_r, StronglySorted_app_1_l in Hs. }
  destruct (page_emplace_spec p l k cce Hks Hes Hsl Hk) as (l1 & l2 & -> & H1 & H2 & Hpe).
  set (l' := l1 ++ (k, cce) :: l2) in *. set (m3 := set_page (set_cces m (<[cce := CcEntry_new]> (cces m))) a (page_emplace p k cce).2).
  assert (heap_ok (heap m3) (ps1 ++ (a, l') :: ps2)) as Hh'.
  { unfold m3. rewrite Hpe. cbn [heap set_page set_heap set_cces snd]. by eapply heap_content. }
  assert (content (ps1 ++ (a, l1 ++ l2) :: ps2) = (content ps1 ++ l1) ++ l2 ++ content ps2) as E1 by (by rewrite content_mid, <- !app_assoc).
  assert (content (ps1 ++ (a, l') :: ps2) = (content ps1 ++ l1) ++ (k, cce) :: l2 ++ content ps2) as E2.
  { unfold l'. by rewrite content_mid, <- !app_assoc. }
  rewrite E1 in Hs, Hd, Hz, Hce, Hn1.
  assert (∃ f, head l'.*1 = Some f ∧ (∀ x, x ∈ c1.*1 → x <k f) ∧ (∀ x, x ∈ c2.*1 → f <k x)) as (f & Hf & Hf1 & Hf2).
  { eapply inserted_head; [exact I1|exact I2|done..]. }
  destruct (heap_page _ _ _ _ _ Hh') as (p' & Hp' & Hk' & He').
  exists l1, l2, p, (set_ccmp m3 (c1 ++ (f, a) :: c2)). split_and!; try done.
  - by rewrite Hpe.
  - replace (length ps1) with (length c1) by by eapply Forall2_length.
    eapply TryUpdatePageKey_ok; [exact Hc|exact Hp'| |done..].
    destruct (page_ends _ _ _ _ _ _ Hh' Hp') as [-> _]. by rewrite Hf.
  - unfold Iterator_at. cbn [heap set_ccmp]. rewrite Hp'. cbn [mbind option_bind]. rewrite Hk', He'. unfold l'.
    rewrite !list_lookup_fmap, list_lookup_middle by done. done.
  - fold l'. split; cbn; rewrite ?E2.
    + split.
      * intros b lb [Hin|[[= -> ->]|Hin]%elem_of_cons]%elem_of_app; [apply (Hlen b); set_solver| |apply (Hlen b); set_solver].
        unfold l'. rewrite length_app in Hroom |- *. cbn. lia.
      * rewrite E2, fmap_app, fmap_cons. rewrite fmap_app in Hs.
        apply sorted_insert; [done|..]; rewrite fmap_app; intros x [?|?]%elem_of_app; auto.
      * rewrite E2, fmap_app, fmap_cons. rewrite fmap_app in Hd, Hn1. by apply NoDup_insert_mid.
    + done.
    + by apply Forall2_app; [|constructor].
    + intros b lb e pg Hin He Hpg. apply elem_of_app in Hin as [Hin|[[= -> ->]|Hin]%elem_of_cons].
      * eapply (Hlo b lb); [set_solver|done..].
      * unfold l' in He. rewrite fmap_app, fmap_cons in He. cbn in He.
        assert (e = cce ∨ e ∈ (l1 ++ l2).*2) as [->|Hel] by (rewrite fmap_app; set_solver); [congruence|].
        eapply (Hlo a (l1 ++ l2)); [set_solver|done..].
      * eapply (Hlo b lb); [set_solver|done..].
    + intros e. rewrite fmap_app, fmap_cons. intros [He|[->|He]%elem_of_cons]%elem_of_app.
      * destruct (decide (e = cce)) as [->|]; [by rewrite lookup_insert_eq|]. rewrite lookup_insert_ne by done.
        apply Hce. rewrite fmap_app, elem_of_app. by left.
      * cbn. by rewrite lookup_insert_eq.
      * destruct (decide (e = cce)) as [->|]; [by rewrite lookup_insert_eq|]. rewrite lookup_insert_ne by done.
        apply Hce. rewrite fmap_app, elem_of_app. by right.
    + rewrite Hz, u64_add. f_equal. rewrite !length_app. cbn [length]. rewrite !length_app. lia.
Qed.

(** *** A page for the key *)

(** The result of the choice: a page that can take the key, or a full one that has to be
    split. *)
Definition chosen m m1 ps (t1 : nat) k (page_addr : Z) : Prop :=
  ∃ ps1 a l ps2, t1 = length ps1 ∧ content (ps1 ++ (a, l) :: ps2) = content ps ∧ k ∉ l.*1 ∧
    lock_page m1 = lock_page m ∧ cces m1 = cces m ∧
    ((length l < split_threshold_ ∧ insert_ready m1 ps1 a l ps2 k ∧
      (ps1 ++ (a, l) :: ps2 = ps ∨ a = page_addr ∧ ps1 ++ ps2 = ps)) ∨
     (length l = split_threshold_ ∧ m1 = m ∧ ps = ps1 ++ (a, l) :: ps2 ∧
      (∀ x, x ∈ (content ps1).*1 → x <k k) ∧ (∀ x, x ∈ (content ps2).*1 → k <k x))).

(** A page of the map on the right side of the key. *)
Lemma chosen_here m ps1 a l ps2 k page_addr :
  ccm_ok m (ps1 ++ (a, l) :: ps2) → k ∉ l.*1 → (∀ x, x ∈ (content ps1).*1 → x <k k) → (∀ x, x ∈ (content ps2).*1 → k <k x) →
  chosen m m (ps1 ++ (a, l) :: ps2) (length ps1) k page_addr.
Proof.
  intros Hok Hk Hb Ha. exists ps1, a, l, ps2. split_and!; try done.
  destruct (po_len _ (co_ps _ _ Hok) a l) as [_ Hle]; [set_solver|]. destruct (decide (length l = split_threshold_)).
  - right. done.
  - left. split_and!; [lia| |by left]. apply ready_of_ok; [done|lia|done..].
Qed.

(** A new page between two pages. *)
Lemma chosen_new m ps1 ps2 k page_addr :
  ccm_ok m (ps1 ++ ps2) → heap m !! page_addr = None → (∀ x, x ∈ (content ps1).*1 → x <k k) → (∀ x, x ∈ (content ps2).*1 → k <k x) →
  let m1 := set_heap m (CcPage_new (heap m) page_addr (before ps1) (after ps2) [] []) in
  ∃ c, map_emplace k page_addr (ccmp_ m1) = (length ps1, c) ∧ chosen m (set_ccmp m1 c) (ps1 ++ ps2) (length ps1) k page_addr.
Proof.
  intros [[Hl Hs Hd] Hh Hi Hlo Hc Hz] Hfr Hb Ha m1. apply Forall2_app_inv_r in Hi as (c1 & c2 & I1 & I2 & Hcc).
  exists (c1 ++ (k, page_addr) :: c2). split.
  - unfold m1. cbn [ccmp_ set_heap]. rewrite Hcc, map_emplace_mid; [|intros x Hx; apply Hb; by eapply index_first|intros x Hx; apply Ha; by eapply index_first].
    f_equal. by eapply Forall2_length.
  - assert (content (ps1 ++ (page_addr, []) :: ps2) = content (ps1 ++ ps2)) as E by by rewrite content_mid, content_app.
    exists ps1, page_addr, [], ps2. split_and!; try done; [cbn; by intros ?%elem_of_nil|]. left. split_and!; [cbn; unfold split_threshold_; lia| |by right].
    split; rewrite ?E; try done.
    + cbn. by apply (heap_new _ _ _ _ []).
    + by exists c1, k, c2.
    + cbn. unfold split_threshold_. lia.
    + intros b lb e pg Hin. apply elem_of_app in Hin as [Hin|[[= -> ->]|Hin]%elem_of_cons]; [|by intros ?%elem_of_nil|]; apply (Hlo b lb); set_solver.
Qed.

Lemma choose_page_ok m ps1 a l ps2 p k page_addr :
  ccm_ok m (ps1 ++ (a, l) :: ps2) → heap m !! a = Some p → k ∉ l.*1 → heap m !! page_addr = None →
  (∀ x, x ∈ (content ps1).*1 → x <k k) → (∀ x, x ∈ (content ps2).*1 → k <k x) →
  ∃ t1 m1, choose_page m (length ps1) a p k page_addr = Some (t1, m1) ∧ chosen m m1 (ps1 ++ (a, l) :: ps2) t1 k page_addr.
Proof.
  intros Hok Hp Hk Hfr Hb Ha. unfold choose_page. pose proof (co_heap _ _ Hok) as Hh.
  destruct (heap_neighbours _ _ _ _ _ _ Hh Hp) as [Hpv Hnx]. destruct (page_ends _ _ _ _ _ _ Hh Hp) as [Hf Hl].
  pose proof (po_sorted _ (co_ps _ _ Hok)) as Hs. rewrite content_mid, !fmap_app in Hs. apply StronglySorted_app in Hs as (Hs1 & _ & Hs).
  apply StronglySorted_app in Hs as (Hs2 & Hs3 & _).
  destruct (Full p); cbn [negb]; [|by eexists _, _; split; [|apply chosen_here]].
  destruct (po_len _ (co_ps _ _ Hok) a l) as [Hpos _]; [set_solver|].
  destruct (last l.*1) as [lk|] eqn:El; [|apply last_None, fmap_nil_inv in El; subst; cbn in Hpos; lia].
  destruct (head l.*1) as [fk|] eqn:Ef; [|destruct l; [cbn in Hpos; lia|done]].
  rewrite Hf, Hl. cbn [mbind option_bind fmap option_fmap option_map].
  rewrite (Forall2_length _ _ _ (co_index _ _ Hok)), length_app. cbn [length].
  destruct (search_lt (Ordinary lk) (Ordinary k)) eqn:Elt; [|destruct (search_lt (Ordinary k) (Ordinary fk)) eqn:Egt].
  - apply search_lt_ordinary in Elt. assert (∀ x, x ∈ (content (ps1 ++ [(a, l)])).*1 → x <k k) as Hb'.
    { intros x. rewrite content_mid, !fmap_app. intros [Hx|[Hx|Hx%elem_of_nil]%elem_of_app]%elem_of_app; [by apply Hb| |done].
      eapply key_le_lt; [by eapply last_sorted|done]. }
    replace (ps1 ++ (a, l) :: ps2) with ((ps1 ++ [(a, l)]) ++ ps2) in * by by rewrite <- app_assoc.
    case_decide as Hend.
    + destruct ps2; [|cbn in Hend; lia]. rewrite Hnx. cbn [mbind option_bind].
      destruct (chosen_new m (ps1 ++ [(a, l)]) [] k page_addr Hok Hfr Hb' Ha) as (c & Hc & Hch).
      rewrite before_snoc in Hc, Hch. change (after []) with pos_inf_page_ in *. cbn zeta. rewrite Hc. by eexists _, _.
    + destruct ps2 as [|[b lb] ps2]; [cbn in Hend; lia|]. eexists _, _. split; [done|].
      replace (S (length ps1)) with (length (ps1 ++ [(a, l)])) by (rewrite length_app; cbn; lia).
      apply chosen_here; [done| |done|intros x].
      * intros Hx. apply (key_lt_irrefl k). apply Ha. rewrite content_cons, fmap_app. by apply elem_of_app; left.
      * intros Hx. apply Ha. rewrite content_cons, fmap_app. by apply elem_of_app; right.
  - apply search_lt_ordinary in Egt. assert (∀ x, x ∈ (content ((a, l) :: ps2)).*1 → k <k x) as Ha'.
    { intros x. rewrite content_cons, !fmap_app. intros [Hx|Hx]%elem_of_app; [|by apply Ha].
      eapply key_lt_le; [done|]. destruct (head_sorted key_lt _ fk x Hs3 Ef Hx); auto. }
    case_decide as Hend.
    + destruct ps1; [|done]. rewrite Hpv. cbn [mbind option_bind].
      destruct (chosen_new m [] ((a, l) :: ps2) k page_addr Hok Hfr Hb Ha') as (c & Hc & Hch).
      change (before []) with neg_inf_page_ in *. change (after ((a, l) :: ps2)) with a in *. cbn zeta. rewrite Hc. by eexists _, _.
    + destruct ps1 as [|[b lb] ps1 _] using rev_ind; [done|]. eexists _, _. split; [done|]. rewrite <- app_assoc in Hok |- *. cbn [app] in *.
      rewrite length_app. cbn [length]. replace (length ps1 + 1 - 1) with (length ps1) by lia. apply chosen_here; [done|..|done].
      * intros Hx. apply (key_lt_irrefl k). apply Hb. rewrite content_mid, !fmap_app, !elem_of_app. auto.
      * intros x Hx. apply Hb. rewrite content_mid, !fmap_app, !elem_of_app. auto.
  - eexists _, _. split; [done|]. by apply chosen_here.
Qed.

(** *** Splitting *)

Lemma UpdateCcPages_lookup (lp : gmap Z Z) pg es e :
  foldl (UpdateCcPage pg) lp es !! e = if decide (e ∈ es) then (λ _, pg) <$> lp !! e else lp !! e.
Proof.
  revert lp. induction es as [|x es IH]; intros lp; [done|]. cbn [foldl]. rewrite IH. unfold UpdateCcPage.
  destruct (decide (e = x)) as [->|Hne].
  - rewrite lookup_alter_eq. destruct (decide (x ∈ x :: es)) as [_|Hn]; [|set_solver]. case_decide; [|done]. by destruct (lp !! x).
  - rewrite lookup_alter_ne by done. assert (e ∈ x :: es ↔ e ∈ es) by set_solver. repeat case_decide; tauto.
Qed.

(** Entries [l2] of a page move to a page with the address [b]. *)
Lemma locks_move (lp : gmap Z Z) ps ps' b (l2 : list (K * Z)) :
  locks_ok lp ps → (∀ a l e, (a, l) ∈ ps' → e ∈ l.*2 → (e ∈ l2.*2 ∧ a = b) ∨ (e ∉ l2.*2 ∧ ∃ l0, (a, l0) ∈ ps ∧ e ∈ l0.*2)) →
  locks_ok (foldl (UpdateCcPage b) lp l2.*2) ps'.
Proof.
  intros Hlo Hm a l e pg Hin He Hpg. rewrite UpdateCcPages_lookup in Hpg.
  destruct (Hm a l e Hin He) as [[H1 ->]|[H1 (l0 & Hin' & He')]].
  - rewrite decide_True in Hpg by done. destruct (lp !! e); by simplify_eq/=.
  - rewrite decide_False in Hpg by done. by eapply (Hlo a l0).
Qed.

(** The state after the split of [l] into [l1] and [l2]. *)
Definition split_state m (a page_addr : Z) p next (l1 l2 : list (K * Z)) (c : list (K * Z)) : Ccm K V :=
  let m1 := set_page m a (with_content p l1.*1 l1.*2) in
  UpdateCcPages (set_ccmp (set_heap m1 (alter (λ q, with_ttl (with_dirty q (max_commit_ts m l2.*2)) (split_ttl record_ttl m l2.*2)) page_addr
    (CcPage_new (heap m1) page_addr a next l2.*1 l2.*2))) c) page_addr l2.*2.

Lemma split_ok m ps1 a l1 l2 ps2 p page_addr kn :
  ccm_ok m (ps1 ++ (a, l1 ++ l2) :: ps2) → heap m !! a = Some p → heap m !! page_addr = None →
  0 < length l1 → head l2.*1 = Some kn →
  ∃ c, map_emplace kn page_addr (ccmp_ m) = (S (length ps1), c) ∧
    ccm_ok (split_state m a page_addr p (after ps2) l1 l2 c) (ps1 ++ (a, l1) :: (page_addr, l2) :: ps2).
Proof.
  intros [[Hl Hs Hd] Hh Hi Hlo Hce Hz] Hp Hfr Hl1 Hkn. pose proof Hi as Hi'.
  apply index_split in Hi' as (c1 & k0 & c2 & Hc & HL & Hk0 & I1 & I2).
  assert (content (ps1 ++ (a, l1) :: (page_addr, l2) :: ps2) = content (ps1 ++ (a, l1 ++ l2) :: ps2)) as E.
  { rewrite !content_mid, content_cons. by rewrite <- app_assoc. }
  pose proof Hs as Hs'. rewrite content_mid, !fmap_app in Hs'. apply StronglySorted_app in Hs' as (Hs1 & _ & Hs2).
  rewrite <- app_assoc in Hs2. apply StronglySorted_app in Hs2 as (Hs2 & Hs3 & Hs4). apply StronglySorted_app in Hs4 as (Hs4 & _).
  assert (kn ∈ l2.*1) as Hkin by by apply head_Some_elem_of.
  assert (k0 ∈ l1.*1) as Hk0in. { destruct l1; [cbn in Hl1; lia|]. cbn in Hk0 |- *. injection Hk0 as ->. by left. }
  exists ((c1 ++ [(k0, a)]) ++ (kn, page_addr) :: c2). split.
  { rewrite Hc. replace (c1 ++ (k0, a) :: c2) with ((c1 ++ [(k0, a)]) ++ c2) by by rewrite <- app_assoc.
    rewrite map_emplace_mid; [rewrite length_app; cbn; do 2 f_equal; lia|..].
    - intros x. rewrite fmap_app, elem_of_app. intros [Hx|Hx%list_elem_of_singleton].
      + apply Hs1; [by eapply index_first|]. rewrite !elem_of_app. auto.
      + subst. apply Hs2; [done|]. rewrite elem_of_app. by left.
    - intros x Hx. apply Hs4; [done|]. by eapply index_first. }
  assert (NoDup (l1.*2 ++ l2.*2)) as Hdl.
  { rewrite content_mid, !fmap_app in Hd. apply NoDup_app in Hd as (_ & _ & Hd). by apply NoDup_app in Hd as (Hd & _). }
  split; cbn [heap ccmp_ cces lock_page size_ split_state UpdateCcPages set_locks set_ccmp set_heap set_page]; rewrite ?E; try done.
  - split; rewrite ?E; [|done..]. intros b lb Hin. destruct (Hl a (l1 ++ l2)) as [_ Hle]; [set_solver|]. rewrite length_app in Hle.
    assert (length l2 ≠ 0) by (destruct l2; [done|cbn; lia]).
    apply elem_of_app in Hin as [Hin|[[= -> ->]|[[= -> ->]|Hin]%elem_of_cons]%elem_of_cons]; [|lia..|]; apply (Hl b); set_solver.
  - assert (heap_ok (<[a := with_content p l1.*1 l1.*2]> (heap m)) ((ps1 ++ [(a, l1)]) ++ ps2)) as Hh1.
    { rewrite <- app_assoc. by eapply heap_content. }
    apply (heap_new _ _ _ page_addr l2) in Hh1; [|rewrite lookup_insert_ne; [done|congruence]]. rewrite before_snoc in Hh1.
    destruct (heap_page _ _ _ _ _ Hh1) as (q & Hq & Hkq & Heq). erewrite alter_as_insert by exact Hq.
    replace (ps1 ++ (a, l1) :: (page_addr, l2) :: ps2) with ((ps1 ++ [(a, l1)]) ++ (page_addr, l2) :: ps2) by by rewrite <- app_assoc.
    by eapply heap_content.
  - rewrite <- app_assoc. apply Forall2_app; [done|]. constructor; [split; [done|]|by constructor].
    cbn. destruct l1; [cbn in Hl1; lia|]. exact Hk0.
  - rewrite content_mid, !fmap_app in Hd. apply NoDup_app in Hd as (_ & D1 & (_ & D2 & _)%NoDup_app).
    eapply locks_move; [done|]. intros b lb e Hin He. apply NoDup_app in Hdl as (_ & Hdl & _).
    apply elem_of_app in Hin as [Hin|[[= -> ->]|[[= -> ->]|Hin]%elem_of_cons]%elem_of_cons].
    + right. pose proof (elem_content_cce _ _ _ _ Hin He) as Hec. split; [|exists lb; set_solver].
      intros H2. apply (D1 e Hec). rewrite !elem_of_app. auto.
    + right. split; [by apply Hdl|]. exists (l1 ++ l2). rewrite fmap_app, elem_of_app. set_solver.
    + by left.
    + right. pose proof (elem_content_cce _ _ _ _ Hin He) as Hec. split; [|exists lb; set_solver].
      intros H2. apply (D2 e); [|done]. rewrite elem_of_app. auto.
Qed.

(** ** The LRU list *)

(** The pages of a data table are in the LRU list, those of other tables are not. *)
Definition in_lru (is_data : bool) xs ps : Prop := ∀ a, a ∈ ps.*1 → is_page a ∧ (a ∈ xs ↔ is_data = true).

Lemma elem_of_behind a b x xs : x ∈ behind a b xs ↔ x ∈ xs ∨ (x = b ∧ a ∈ xs).
Proof.
  unfold behind. rewrite list_elem_of_bind. split.
  - intros (y & Hx & Hy). case_decide; subst; set_solver.
  - intros [Hx|[-> Ha]].
    + exists x. split; [|done]. case_decide; set_solver.
    + exists a. split; [|done]. rewrite decide_True by done. set_solver.
Qed.

(** After the choice and the split. *)
Record placed m xs ps k (page_addr : Z) (is_data : bool) m2 lru2 xs2 ps1 (a : Z) l ps2 : Prop := {
  pl_ready : insert_ready m2 ps1 a l ps2 k;
  pl_out : k ∉ l.*1;
  pl_content : content (ps1 ++ (a, l) :: ps2) = content ps;
  pl_lru : lru_ok lru2 xs2;
  pl_target : is_page a ∧ (a ∈ xs2 → is_data = true);
  pl_others b : b ∈ (ps1 ++ ps2).*1 → is_page b ∧ (b ∈ xs2 ↔ is_data = true);
  pl_frame b : b ≠ page_addr → b ∈ xs2 ↔ b ∈ xs;
  pl_old b : b ∈ (ps1 ++ (a, l) :: ps2).*1 → b ∈ ps.*1 ∨ b = page_addr;
  pl_locks e : lock_page m !! e = None → lock_page m2 !! e = None;
}.

(** The half that takes the key. *)
Lemma split_target m ps1 a l1 page_addr l2 ps2 k kn :
  ccm_ok m (ps1 ++ (a, l1) :: (page_addr, l2) :: ps2) → k ∉ (l1 ++ l2).*1 → length l1 < split_threshold_ → length l2 < split_threshold_ →
  head l2.*1 = Some kn → (∀ x, x ∈ (content ps1).*1 → x <k k) → (∀ x, x ∈ (content ps2).*1 → k <k x) →
  ∃ qs1 b lb qs2, ps1 ++ (a, l1) :: (page_addr, l2) :: ps2 = qs1 ++ (b, lb) :: qs2 ∧ insert_ready m qs1 b lb qs2 k ∧ k ∉ lb.*1 ∧
    (if search_lt (Ordinary k) (Ordinary kn) then S (length ps1) - 1 else S (length ps1)) = length qs1.
Proof.
  intros Hok Hk Hl1 Hl2 Hkn Hb Ha. pose proof (po_sorted _ (co_ps _ _ Hok)) as Hs. rewrite content_mid, content_cons, !fmap_app in Hs.
  apply StronglySorted_app in Hs as (_ & _ & Hs). apply StronglySorted_app in Hs as (Hs1 & _ & Hs). apply StronglySorted_app in Hs as (_ & Hs2 & _).
  rewrite fmap_app in Hk. destruct (search_lt (Ordinary k) (Ordinary kn)) eqn:E.
  - apply search_lt_ordinary in E. exists ps1, a, l1, ((page_addr, l2) :: ps2). split_and!; [done| |set_solver|lia].
    apply ready_of_ok; [done..|]. intros x. rewrite content_cons, fmap_app. intros [Hx|Hx]%elem_of_app; [|by apply Ha].
    eapply key_lt_le; [done|]. destruct (head_sorted key_lt _ kn x Hs2 Hkn Hx); auto.
  - apply not_true_iff_false in E. rewrite search_lt_ordinary in E. apply key_not_lt in E.
    assert (kn ∈ l2.*1) as Hkn2 by by apply head_Some_elem_of. destruct E as [->|E]; [set_solver|].
    exists (ps1 ++ [(a, l1)]), page_addr, l2, ps2. split_and!; [by rewrite <- app_assoc| |set_solver|rewrite length_app; cbn; lia].
    apply ready_of_ok; [by rewrite <- app_assoc|done| |done]. intros x. rewrite content_mid, !fmap_app.
    intros [Hx|[Hx|Hx%elem_of_nil]%elem_of_app]%elem_of_app; [by apply Hb| |done].
    eapply key_lt_trans; [|exact E]. apply Hs1; [done|]. rewrite elem_of_app. by left.
Qed.

Lemma split_page_ok m m1 lru xs ps t1 k page_addr is_data :
  ccm_ok m ps → chosen m m1 ps t1 k page_addr → heap m !! page_addr = None → lru_ok lru xs → in_lru is_data xs ps →
  is_page page_addr → page_addr ∉ xs →
  ∃ m2 lru2 xs2 ps1 a l ps2, split_page record_ttl m1 lru t1 k page_addr = Some (length ps1, m2, lru2) ∧
    placed m xs ps k page_addr is_data m2 lru2 xs2 ps1 a l ps2.
Proof.
  intros Hok (ps1 & a & l & ps2 & -> & Hcont & Hk & Hlk & Hcc & Hcase) Hfr Hlru Hin Hpa Hxs. unfold split_page.
  destruct Hcase as [(Hlen & Hr & Hps)|(Hlen & -> & -> & Hb & Ha)].
  - destruct (ir_index _ _ _ _ _ _ Hr) as (c1 & k0 & c2 & -> & I1 & _). apply Forall2_length in I1 as HL.
    rewrite <- HL, list_lookup_middle by done. cbn [mbind option_bind].
    destruct (heap_page _ _ _ _ _ (ir_heap _ _ _ _ _ _ Hr)) as (p & Hp & Hks & _). rewrite Hp. cbn [mbind option_bind].
    unfold Full, page_size. rewrite Hks, length_fmap, bool_decide_eq_false_2 by lia. cbn [negb].
    exists m1, lru, xs, ps1, a, l, ps2. rewrite HL. split; [done|]. split; try done.
    + destruct Hps as [<-|[-> _]]; [|done]. destruct (Hin a); [rewrite fmap_app; set_solver|]. naive_solver.
    + intros b Hbi. apply Hin. destruct Hps as [<-|[_ <-]]; rewrite fmap_app in *; set_solver.
    + intros b Hbi. destruct Hps as [<-|[-> <-]]; [by left|]. rewrite fmap_app in *. set_solver.
    + intros e. by rewrite Hlk.
  - destruct (index_split _ _ _ _ _ (co_index _ _ Hok)) as (c1 & k0 & c2 & Hc & HL & _).
    rewrite Hc, <- HL, list_lookup_middle by done. cbn [mbind option_bind].
    destruct (heap_page _ _ _ _ _ (co_heap _ _ Hok)) as (p & Hp & Hks & Hes). rewrite Hp. cbn [mbind option_bind].
    unfold Full. assert (page_size p = 64) as Hsz by (unfold page_size; by rewrite Hks, length_fmap).
    rewrite bool_decide_eq_true_2 by done. cbn [negb]. destruct (heap_neighbours _ _ _ _ _ _ (co_heap _ _ Hok) Hp) as [_ Hnx].
    rewrite Hnx. cbn [mbind option_bind]. rewrite Hsz, Hks, Hes. change (64 / 2) with 32. rewrite <- !fmap_drop, <- !fmap_take.
    rewrite <- (take_drop 32 l) in Hok, Hk. assert (length (take 32 l) = 32) as Hl1 by (rewrite length_take, Hlen; done).
    assert (length (drop 32 l) = 32) as Hl2 by (rewrite length_drop, Hlen; done).
    set (l1 := take 32 l) in *. set (l2 := drop 32 l) in *.
    destruct (head l2.*1) as [kn|] eqn:Hkn; [|by destruct l2]. cbn [mbind option_bind].
    destruct (split_ok m ps1 a l1 l2 ps2 p page_addr kn Hok Hp Hfr ltac:(lia) Hkn) as (c & Hem & Hok2).
    cbn [ccmp_ set_heap set_page]. rewrite Hem. destruct (Hin a) as [Hpga Hina]; [rewrite fmap_app; set_solver|].
    destruct (lru_split_ok lru xs a page_addr Hlru Hpa Hpga Hxs) as (lru2 & -> & Hlru2). cbn [mbind option_bind].
    destruct (split_target _ ps1 a l1 page_addr l2 ps2 k kn Hok2 Hk ltac:(unfold split_threshold_; lia) ltac:(unfold split_threshold_; lia) Hkn Hb Ha) as (qs1 & b & lb & qs2 & E & Hr & Hkb & Ht).
    eexists _, lru2, (behind a page_addr xs), qs1, b, lb, qs2. rewrite Ht. split; [done|].
    assert (∀ x, x ∈ (qs1 ++ (b, lb) :: qs2).*1 ↔ x = page_addr ∨ x ∈ (ps1 ++ (a, l) :: ps2).*1) as Hpages.
    { intros x. rewrite <- E, !fmap_app, !fmap_cons, !elem_of_app, !elem_of_cons. cbn [fst]. tauto. }
    assert (∀ x, x ∈ (qs1 ++ (b, lb) :: qs2).*1 → is_page x ∧ (x ∈ behind a page_addr xs ↔ is_data = true)) as Hall.
    { intros x [->|Hx]%Hpages; rewrite elem_of_behind.
      - split; [done|]. naive_solver.
      - destruct (Hin x Hx) as [? ?]. split; [done|]. naive_solver. }
    split; try done.
    + rewrite <- E, !content_mid, content_cons, <- (take_drop 32 l), <- app_assoc. done.
    + destruct (Hall b); [rewrite fmap_app; set_solver|]. naive_solver.
    + intros x Hx. apply Hall. rewrite fmap_app in *. set_solver.
    + intros x Hx. rewrite elem_of_behind. naive_solver.
    + intros x. rewrite Hpages. tauto.
    + intros e He. cbn. rewrite UpdateCcPages_lookup, He. by case_decide.
Qed.

(** ** Lookup and insertion *)

(** The same on a sorted list: the key and the entry of the answer, whether the key was
    inserted, and the list afterwards. *)
Definition emplace_spec (L : list (K * Z)) k (cce : Z) (is_meta full force_emplace read_only_req : bool)
    : SearchKey K * Z * bool * list (K * Z) :=
  if full && negb force_emplace && negb is_meta && negb read_only_req then (PositiveInfinity, nullptr, false, L)
  else
    match list_find (λ x, x.1 = k) L with
    | Some (_, (_, e)) => (Ordinary k, e, false, L)
    | None =>
        if full && read_only_req then (PositiveInfinity, nullptr, false, L)
        else (Ordinary k, cce, true, insert_at (lower_bound (Ordinary k) L.*1) (k, cce) L)
    end.

Lemma find_present (L1 L2 : list (K * Z)) k e :
  StronglySorted key_lt (L1 ++ (k, e) :: L2).*1 → list_find (λ x, x.1 = k) (L1 ++ (k, e) :: L2) = Some (length L1, (k, e)).
Proof.
  intros Hs. apply list_find_Some. split_and!; [by apply list_lookup_middle|done|]. intros i [k' e'] Hi Hlt.
  rewrite lookup_app_l in Hi by done. apply list_elem_of_lookup_2, (list_elem_of_fmap_2 fst) in Hi. rewrite fmap_app in Hs.
  cbn in Hi |- *. intros ->. apply (key_lt_irrefl k). eapply StronglySorted_app_1_elem_of; [exact Hs|done|by left].
Qed.

Lemma find_absent (L : list (K * Z)) k : k ∉ L.*1 → list_find (λ x, x.1 = k) L = None.
Proof. intros Hk. apply list_find_None, Forall_forall. intros [x e] Hx. cbn. intros ->. apply Hk. by apply (list_elem_of_fmap_2 fst) in Hx. Qed.

Lemma insert_sorted (L1 L2 : list (K * Z)) k e :
  (∀ x, x ∈ L1.*1 → x <k k) → (∀ x, x ∈ L2.*1 → k <k x) →
  insert_at (lower_bound (Ordinary k) (L1 ++ L2).*1) (k, e) (L1 ++ L2) = L1 ++ (k, e) :: L2.
Proof.
  intros H1 H2. unfold lower_bound. rewrite fmap_app, partition_point_app, length_fmap; [apply insert_at_app|..].
  - rewrite Forall_forall. intros x Hx. by apply search_lt_ordinary, H1.
  - intros x Hx%head_Some_elem_of. rewrite search_lt_ordinary. by apply key_lt_asym, H2.
Qed.

Lemma update_lru lru xs is_data a is_emplace :
  lru_ok lru xs → is_page a → ∃ lru' xs', UpdateLruList lru is_data a is_emplace = Some lru' ∧ lru_ok lru' xs' ∧
    ∀ b, b ∈ xs' ↔ b ∈ xs ∨ (b = a ∧ is_data = true).
Proof.
  intros Hok Ha. destruct is_data; [|exists lru, xs; split_and!; [done..|naive_solver]].
  destruct (UpdateLruList_ok lru xs a is_emplace Hok Ha) as (lru' & ? & ?). exists lru', (without a xs ++ [a]).
  split_and!; [done..|]. intros b. rewrite elem_of_app, elem_of_without, list_elem_of_singleton.
  destruct (decide (b = a)); naive_solver.
Qed.

(** What the result of [FindEmplace] is to satisfy. *)
Definition emplaced_ok xs ps k page_addr cce is_data is_meta full force_emplace read_only_req
    (r : option (Iterator K * bool * Ccm K V * LruList)) : Prop :=
  ∃ it emplace m' lru' ps' xs', r = Some (it, emplace, m', lru') ∧ ccm_ok m' ps' ∧ lru_ok lru' xs' ∧ in_lru is_data xs' ps' ∧
    (it_key it, it_cce it, emplace, content ps') = emplace_spec (content ps) k cce is_meta full force_emplace read_only_req ∧
    (it_key it = Ordinary k → Iterator_at m' (current_page_ it) (idx_in_page_ it) = Some it) ∧
    ∀ b, b ∉ ps.*1 → b ≠ page_addr → b ∈ xs' ↔ b ∈ xs.

(** The part after the page for the key was found. *)
Lemma emplace_placed m lru xs ps k page_addr cce is_data is_meta full force_emplace read_only_req t1 m1 :
  ccm_ok m ps → chosen m m1 ps t1 k page_addr → heap m !! page_addr = None → lru_ok lru xs → in_lru is_data xs ps →
  is_page page_addr → page_addr ∉ xs → new_cce m ps cce → k ∉ (content ps).*1 →
  full && negb force_emplace && negb is_meta && negb read_only_req = false → full && read_only_req = false →
  emplaced_ok xs ps k page_addr cce is_data is_meta full force_emplace read_only_req (
    '(t2, m2, lru2) ← split_page record_ttl m1 lru t1 k page_addr;
    '(_, target) ← ccmp_ m2 !! t2;
    p2 ← heap m2 !! target;
    let '(idx, p3) := page_emplace p2 k cce in
    let m3 := set_page (set_cces m2 (<[cce := CcEntry_new]> (cces m2))) target p3 in
    '(_, m4) ← TryUpdatePageKey m3 t2;
    lru' ← UpdateLruList lru2 is_data target true;
    it ← Iterator_at m4 target idx;
    Some (it, true, set_size m4 (u64 (size_ m4 + 1)), lru')).
Proof.
  intros Hok Hch Hfr Hlru Hin Hpa Hxs (Hn1 & Hn2 & Hn3 & Hn4) Hk Hr1 Hr2.
  destruct (split_page_ok m m1 lru xs ps t1 k page_addr is_data Hok Hch Hfr Hlru Hin Hpa Hxs)
    as (m2 & lru2 & xs2 & ps1 & a & l & ps2 & -> & [Hr Hkl Hcont Hlru2 [Hpa1 Hpa2] Hoth Hframe Hold Hlk]).
  cbn [mbind option_bind]. destruct (ir_index _ _ _ _ _ _ Hr) as (c1 & k0 & c2 & Hc & I1 & _).
  rewrite Hc, <- (Forall2_length _ _ _ I1), list_lookup_middle by done. cbn [mbind option_bind].
  rewrite (Forall2_length _ _ _ I1).
  destruct (emplace_ok m2 ps1 a l ps2 k cce Hr Hkl) as (l1 & l2 & p & m4 & -> & H1 & H2 & Hp & Hidx & Htry & Hit & Hok').
  { split_and!; try done; [by rewrite Hcont|by apply Hlk]. }
  rewrite Hp. cbn [mbind option_bind]. destruct (page_emplace p k cce) as [idx p3]. cbn in Hidx, Htry. subst idx.
  cbn zeta. rewrite Htry. cbn [mbind option_bind].
  destruct (update_lru lru2 xs2 is_data a true Hlru2 Hpa1) as (lru' & xs' & -> & Hlru' & Hxs'). cbn [mbind option_bind].
  rewrite Hit. cbn [mbind option_bind].
  eexists _, _, _, _, (ps1 ++ (a, l1 ++ (k, cce) :: l2) :: ps2), xs'. split_and!; [done|done|done|..].
  - intros b Hb. assert (b = a ∨ b ∈ (ps1 ++ ps2).*1) as [->|Hb'].
    { rewrite !fmap_app, !fmap_cons, !elem_of_app, !elem_of_cons in *. cbn in Hb. tauto. }
    + split; [done|]. rewrite Hxs'. naive_solver.
    + destruct (Hoth b Hb') as [? ?]. split; [done|]. rewrite Hxs'. destruct (decide (b = a)) as [->|]; naive_solver.
  - cbn. unfold emplace_spec. rewrite Hr1, Hr2, find_absent by done. f_equal.
    rewrite <- Hcont. rewrite !content_mid, <- !app_assoc, (app_assoc (content ps1) l1), (app_assoc (content ps1) l1). cbn [app].
    symmetry. apply insert_sorted; intros x; rewrite fmap_app; intros [Hx|Hx]%elem_of_app; auto;
      [by apply (ir_below _ _ _ _ _ _ Hr)|by apply (ir_above _ _ _ _ _ _ Hr)].
  - intros _. exact Hit.
  - intros b Hb Hba. rewrite Hxs', Hframe by done. destruct (Hold a) as [|]; [rewrite fmap_app; set_solver| |]; naive_solver.
Qed.

Lemma emplace_empty m lru xs k page_addr cce is_data is_meta full force_emplace read_only_req :
  ccm_ok m [] → lru_ok lru xs → heap m !! page_addr = None → is_page page_addr → page_addr ∉ xs → new_cce m [] cce →
  emplaced_ok xs [] k page_addr cce is_data is_meta full force_emplace read_only_req
    (FindEmplace record_ttl m lru is_data is_meta full force_emplace read_only_req (Ordinary k) page_addr cce).
Proof.
  intros Hok Hlru Hfr Hpa Hxs Hcce. unfold FindEmplace.
  assert (ccmp_ m = []) as Hc by (pose proof (co_index _ _ Hok) as Hi; by inversion Hi).
  assert (∀ r, emplace_spec (content []) k cce is_meta full force_emplace read_only_req = (PositiveInfinity, nullptr, false, []) →
    r = Some (End_, false, m, lru) → emplaced_ok xs [] k page_addr cce is_data is_meta full force_emplace read_only_req r) as Hno.
  { intros r E ->. eexists _, _, _, _, [], xs. split_and!; try done; intros ? ?%elem_of_nil; done. }
  destruct (full && negb force_emplace && negb is_meta && negb read_only_req) eqn:Er1;
    [by apply Hno; [unfold emplace_spec; rewrite Er1|]|].
  rewrite Hc. cbn [bool_decide andb]. destruct (full && read_only_req) eqn:Er2; [by apply Hno; [unfold emplace_spec; rewrite Er1, Er2|]|].
  cbn [andb]. rewrite decide_True by done.
  destruct (chosen_new m [] [] k page_addr Hok Hfr) as (c & Hem & Hch); [by intros ? ?%elem_of_nil..|].
  change (before []) with neg_inf_page_ in *. change (after []) with pos_inf_page_ in *.
  cbn [ccmp_ set_heap] in Hem. rewrite Hc in Hem. rewrite Hem. cbn [snd]. set (m0 := set_ccmp _ c) in *.
  assert (c = [(k, page_addr)]) as -> by by injection Hem.
  assert (map_upper_bound (Ordinary k) (ccmp_ m0) - 1 = 0) as ->.
  { cbn. rewrite bool_decide_eq_false_2 by apply key_lt_irrefl. done. }
  cbn [ccmp_ set_ccmp m0 lookup list_lookup mbind option_bind].
  assert (heap m0 !! page_addr = Some (mkPage [] [] (Some neg_inf_page_) (Some pos_inf_page_) 0 UINT64_MAX)) as Hp.
  { unfold m0. cbn [heap set_ccmp set_heap].
    assert (is_Some (heap m !! neg_inf_page_) ∧ is_Some (heap m !! pos_inf_page_)) as [[? ?] [? ?]].
    { destruct (place_distinct _ [] [] (co_heap _ _ Hok)) as (_ & ? & ?). done. }
    rewrite CcPage_new_lookup; [by rewrite decide_True|congruence|congruence|done]. }
  rewrite Hp. cbn [mbind option_bind]. rewrite decide_False by (cbn; lia). cbn [choose_page Full page_size keys_ length negb].
  apply (emplace_placed m); try done; [by intros ? ?%elem_of_nil|by intros ?%elem_of_nil].
Qed.
End insert.

(** C21: [FindEmplace] implements lookup and insertion in a sorted list, on every path: the key
    is found, the key is inserted into its page, into a neighbour of a full page, into a
    new page or into one half of a split page, or the request is refused because the
    memory is full.  It finds every pointer it follows, keeps the pages, the index, the
    links, the pages known to the locks and the LRU list in order, and changes no other
    page's membership of the LRU list. *)
Theorem FindEmplace_refines {K V} `{!KeyOrder K} (record_ttl : V → option Z) (m : Ccm K V) lru xs ps k
    (page_addr cce : Z) (is_data is_meta full force_emplace read_only_req : bool) :
  ccm_ok m ps → lru_ok lru xs → in_lru is_data xs ps →
  heap m !! page_addr = None → is_page page_addr → page_addr ∉ xs → new_cce m ps cce →
  emplaced_ok xs ps k page_addr cce is_data is_meta full force_emplace read_only_req
    (FindEmplace record_ttl m lru is_data is_meta full force_emplace read_only_req (Ordinary k) page_addr cce).
Proof.
  intros Hok Hlru Hin Hfr Hpa Hxs Hcce. destruct (decide (ps = [])) as [->|Hne]; [by apply emplace_empty|]. unfold FindEmplace.
  assert (ccmp_ m ≠ []) as Hc by (pose proof (co_index _ _ Hok) as Hi; intros E; rewrite E in Hi; by inversion Hi).
  assert (∀ r, emplace_spec (content ps) k cce is_meta full force_emplace read_only_req = (PositiveInfinity, nullptr, false, content ps) →
    r = Some (End_, false, m, lru) → emplaced_ok xs ps k page_addr cce is_data is_meta full force_emplace read_only_req r) as Hno.
  { intros r E ->. by eexists _, _, _, _, ps, xs. }
  destruct (full && negb force_emplace && negb is_meta && negb read_only_req) eqn:Er1;
    [by apply Hno; [unfold emplace_spec; rewrite Er1|]|].
  rewrite bool_decide_eq_false_2 by done. cbn [andb]. rewrite decide_False by done.
  destruct (locate_upper (ccmp_ m) ps k (co_ps _ _ Hok) (co_index _ _ Hok) Hne) as (ps1 & a & l & ps2 & -> & -> & Hb & Ha).
  destruct (index_split _ _ _ _ _ (co_index _ _ Hok)) as (c1 & k0 & c2 & Hcc & HL & _ & _).
  assert (ccmp_ m !! length ps1 = Some (k0, a)) as -> by (rewrite Hcc, <- HL; by apply list_lookup_middle).
  cbn [mbind option_bind]. destruct (heap_page _ _ _ _ _ (co_heap _ _ Hok)) as (p & Hp & Hks & Hes). rewrite Hp. cbn [mbind option_bind].
  pose proof (po_sorted _ (co_ps _ _ Hok)) as Hs.
  assert (StronglySorted key_lt l.*1) as Hsl.
  { rewrite content_mid, !fmap_app in Hs. by apply StronglySorted_app_1_r, StronglySorted_app_1_l in Hs. }
  destruct (decide (k ∈ l.*1)) as [Hkl|Hkl].
  - apply list_elem_of_fmap in Hkl as ([k' e] & Ek & Hkl). cbn in Ek. subst k'. apply list_elem_of_split in Hkl as (l1 & l2 & ->).
    rewrite (page_find_in p l1 k e l2) by (by rewrite ?Hks).
    rewrite decide_True by (unfold page_size; rewrite Hks, length_fmap, length_app; cbn; lia).
    destruct (Hin a) as [Hpga Hina]; [rewrite fmap_app; set_solver|].
    destruct (update_lru lru xs is_data a false Hlru Hpga) as (lru' & xs' & -> & Hlru' & Hxs'). cbn [mbind option_bind].
    assert (Iterator_at m a (length l1) = Some (mkIter (Ordinary k) e a (length l1))) as Hit.
    { unfold Iterator_at. rewrite Hp. cbn [mbind option_bind]. by rewrite Hks, Hes, !list_lookup_fmap, list_lookup_middle by done. }
    rewrite Hit. cbn [mbind option_bind]. eexists _, _, _, _, _, xs'. split_and!; try done.
    + intros b Hbi. destruct (Hin b Hbi). split; [done|]. rewrite Hxs'. destruct (decide (b = a)) as [->|]; naive_solver.
    + cbn. unfold emplace_spec. rewrite Er1, content_mid. rewrite content_mid in Hs.
      replace (content ps1 ++ (l1 ++ (k, e) :: l2) ++ content ps2) with ((content ps1 ++ l1) ++ (k, e) :: (l2 ++ content ps2)) in *
        by by rewrite <- !app_assoc. by rewrite find_present.
    + intros b Hbi Hba. rewrite Hxs'. assert (b ≠ a) by (intros ->; apply Hbi; rewrite fmap_app; set_solver). naive_solver.
  - assert (k ∉ (content (ps1 ++ (a, l) :: ps2)).*1) as Hout.
    { rewrite content_mid, !fmap_app, !elem_of_app. intros [Hx|[Hx|Hx]]; [|done|]; by apply (key_lt_irrefl k); auto. }
    rewrite page_find_out by by rewrite Hks. rewrite decide_False by lia.
    destruct (full && read_only_req) eqn:Er2; [by apply Hno; [unfold emplace_spec; rewrite Er1, find_absent, Er2|]|].
    destruct (choose_page_ok m ps1 a l ps2 p k page_addr Hok Hp Hkl Hfr Hb Ha) as (t1 & m1 & -> & Hch). cbn [mbind option_bind].
    by eapply emplace_placed.
Qed.

(** ** Examples *)

#[export] Instance Z_key : KeyOrder Z.
Proof.
  refine (Build_KeyOrder Z Z.lt _ _ _ _).
  - intros a b. lia.
Defined.

Lemma Ccm_new_ok {K V} `{!KeyOrder K} (full_entries : bool) : ccm_ok (Ccm_new (K := K) (V := V) full_entries) [].
Proof.
  split; cbn; try done.
  - split; [by intros ? ? ?%elem_of_nil|constructor|constructor].
  - split; cbn; try done.
    + intros a l [[= -> ->]|[[= -> ->]|?%elem_of_nil]%elem_of_cons]%elem_of_cons; [..|done].
      * by eexists.
      * by eexists.
    + intros a [p Hp]. apply lookup_insert_Some in Hp as [[<- _]|[_ Hp]]; [by left|].
      apply lookup_singleton_Some in Hp as [<- _]. right. by left.
    + split; [|done]. apply NoDup_cons. split; [by intros ?%list_elem_of_singleton|]. apply NoDup_singleton.
  - constructor.
  - by intros ? ?%elem_of_nil.
Qed.

Definition no_ttl (v : Z) : option Z := None.

Lemma FindEmplace_refines_witness :
  emplaced_ok (V := Z) [] [] 7%Z 10 100 true false true true false
    (FindEmplace no_ttl (Ccm_new false) lru_init true false true true false (Ordinary 7%Z) 10 100).
Proof.
  apply (FindEmplace_refines no_ttl (Ccm_new false) lru_init [] [] 7%Z 10 100 true false true true false).
  - apply Ccm_new_ok.
  - apply lru_init_ok.
  - by intros ? ?%elem_of_nil.
  - reflexivity.
  - split; done.
  - by intros ?%elem_of_nil.
  - split_and!; [by intros ?%elem_of_nil|done..].
Defined.

(** Descending insertions fill the first page; the next key splits it. *)
Fixpoint insert_all (l : list Z) (m : Ccm Z Z) (lru : LruList) : option (Ccm Z Z * LruList) :=
  match l with
  | [] => Some (m, lru)
  | k :: l =>
      '(_, _, m', lru') ← FindEmplace no_ttl m lru true false false false false (Ordinary k) (1000 + k) (2000 + k);
      insert_all l m' lru'
  end.
Definition page_sizes (m : Ccm Z Z) : list (Z * Z * nat) :=
  (λ '(k, a), (k, a, default 0 (page_size <$> heap m !! a))) <$> ccmp_ m.

Example page_splits :
  (page_sizes ∘ fst) <$> insert_all ((λ n, 2 * Z.of_nat n)%Z <$> seq 1 64 ++ [20]%nat) (Ccm_new false) lru_init = Some [(2, 1002, 64%nat)]%Z ∧
  (page_sizes ∘ fst) <$> insert_all (((λ n, 2 * Z.of_nat n)%Z <$> seq 1 64) ++ [5]%Z) (Ccm_new false) lru_init
    = Some [(2, 1002, 33%nat); (66, 1005, 32%nat)]%Z ∧
  (page_sizes ∘ fst) <$> insert_all (((λ n, 2 * Z.of_nat n)%Z <$> seq 1 64) ++ [200]%Z) (Ccm_new false) lru_init
    = Some [(2, 1002, 64%nat); (200, 1200, 1%nat)]%Z.
Proof. vm_compute. done. Qed.
