(* ===== verification/PagesScan.v ===== *)
(** * Searching and scanning the pages of a cc map

    The iterators, the bound searches and the scan starts of [TemplateCcMap], related to
    positions in the sorted list that the pages stand for. *)

From S2P Require Import Prelude CcProtocol CcEntry LruList CcPages PagesRep PagesInsert.
From stdpp Require Import sorting.

Section scan.
Context {K V : Type} `{!KeyOrder K}.
Implicit Types (m : Ccm K V) (ps : list (Z * list (K * Z))) (l : list (K * Z)) (k : K) (s : SearchKey K) (it : Iterator K).

(** ** Iterators

    Position 0 is negative infinity, position [i + 1] the [i]-th key, and the last one
    positive infinity. *)

Inductive points ps : Iterator K → nat → Prop :=
  | points_neg i : points ps (mkIter NegativeInfinity neg_inf_ neg_inf_page_ i) 0
  | points_at ps1 a l1 k e l2 ps2 : ps = ps1 ++ (a, l1 ++ (k, e) :: l2) :: ps2 →
      points ps (mkIter (Ordinary k) e a (length l1)) (S (length (content ps1) + length l1))
  | points_pos i : points ps (mkIter PositiveInfinity nullptr pos_inf_page_ i) (S (length (content ps))).

Lemma Iterator_at_page m ps1 a l1 k e l2 ps2 :
  heap_ok (heap m) (ps1 ++ (a, l1 ++ (k, e) :: l2) :: ps2) → Iterator_at m a (length l1) = Some (mkIter (Ordinary k) e a (length l1)).
Proof.
  intros Hh. destruct (heap_page _ _ _ _ _ Hh) as (p & Hp & Hk & He). unfold Iterator_at. rewrite Hp. cbn [mbind option_bind].
  by rewrite Hk, He, !list_lookup_fmap, list_lookup_middle.
Qed.

Lemma links_at (h : gmap Z (CcPage K)) ps1 ps2 : heap_ok h (ps1 ++ ps2) →
  next_of h (before ps1) = Some (after ps2) ∧ prev_of h (after ps2) = Some (before ps1).
Proof.
  intros Hh. destruct (full_split ps1 ps2) as (L1 & L2 & _ & _ & E & _). pose proof (ho_links _ _ Hh) as Hl. rewrite E in Hl.
  by apply linked_next in Hl.
Qed.

Lemma forward_page_ok m ps1 ps2 it : ccm_ok m (ps1 ++ ps2) →
  ∃ it', forward_page m it (before ps1) = Some it' ∧ points (ps1 ++ ps2) it' (S (length (content ps1))).
Proof.
  intros Hok. pose proof (co_heap _ _ Hok) as Hh. destruct (links_at _ _ _ Hh) as [Hnx _]. unfold forward_page, next_of in *.
  destruct (heap m !! before ps1) as [p|]; [|done]. cbn [mbind option_bind] in *. rewrite Hnx. cbn [mbind option_bind].
  destruct ps2 as [|[b lb] ps2].
  - change (after []) with pos_inf_page_ in *. pose proof (ho_last _ _ Hh) as Hl.
    destruct (ho_page _ _ Hh pos_inf_page_ []) as (q & Hq & _); [unfold full; set_solver|]. unfold next_of in Hl. rewrite Hq in *. cbn in Hl |- *.
    unfold IsPosInf. rewrite bool_decide_eq_true_2 by done. eexists. split; [done|]. rewrite app_nil_r. constructor.
  - change (after ((b, lb) :: ps2)) with b in *. destruct (heap_page _ _ _ _ _ Hh) as (q & Hq & _). rewrite Hq. cbn [mbind option_bind].
    destruct (heap_neighbours _ _ _ _ _ _ Hh Hq) as [_ Hnq]. unfold IsPosInf. rewrite Hnq. cbn [bool_decide].
    destruct (po_len _ (co_ps _ _ Hok) b lb) as [Hpos _]; [set_solver|]. destruct lb as [|[k e] lb]; [cbn in Hpos; lia|].
    eexists. split; [apply (Iterator_at_page m ps1 b [] k e lb ps2 Hh)|].
    replace (length (content ps1)) with (length (content ps1) + length (@nil (K * Z))) by (cbn; lia). by apply points_at with lb ps2.
Qed.

Lemma backward_page_ok m ps1 ps2 it : ccm_ok m (ps1 ++ ps2) →
  ∃ it', backward_page m it (after ps2) = Some it' ∧ points (ps1 ++ ps2) it' (length (content ps1)).
Proof.
  intros Hok. pose proof (co_heap _ _ Hok) as Hh. destruct (links_at _ _ _ Hh) as [_ Hpv]. unfold backward_page, prev_of in *.
  destruct (heap m !! after ps2) as [p|]; [|done]. cbn [mbind option_bind] in *. rewrite Hpv. cbn [mbind option_bind].
  destruct ps1 as [|[b lb] ps1 _] using rev_ind.
  - change (before []) with neg_inf_page_ in *. pose proof (ho_first _ _ Hh) as Hl.
    destruct (ho_page _ _ Hh neg_inf_page_ []) as (q & Hq & _); [unfold full; set_solver|]. unfold prev_of in Hl. rewrite Hq in *. cbn in Hl |- *.
    unfold IsNegInf. rewrite bool_decide_eq_true_2 by done. eexists. split; [done|]. constructor.
  - rewrite before_snoc in *. rewrite <- app_assoc in Hok, Hh |- *. cbn [app] in *.
    destruct (heap_page _ _ _ _ _ Hh) as (q & Hq & Hkq & _). rewrite Hq. cbn [mbind option_bind].
    destruct (heap_neighbours _ _ _ _ _ _ Hh Hq) as [Hpq _]. unfold IsNegInf. rewrite Hpq. cbn [bool_decide].
    destruct (po_len _ (co_ps _ _ Hok) b lb) as [Hpos _]; [set_solver|]. destruct lb as [|[k e] lb _] using rev_ind; [cbn in Hpos; lia|].
    unfold page_size. rewrite Hkq, length_fmap, length_app. cbn [length]. rewrite Nat.add_sub.
    eexists. split; [apply (Iterator_at_page m ps1 b lb k e [] ps2 Hh)|].
    rewrite content_app, content_cons, !length_app. cbn [length content concat fmap list_fmap]. 
    replace (length (content ps1) + (length lb + 1 + 0)) with (S (length (content ps1) + length lb)) by lia. by apply points_at with [] ps2.
Qed.

Lemma iter_next_ok m ps it n : ccm_ok m ps → points ps it n → n ≤ length (content ps) →
  ∃ it', iter_next m it = Some it' ∧ points ps it' (S n).
Proof.
  intros Hok [i|ps1 a l1 k e l2 ps2 ->|i] Hn; unfold iter_next; cbn [it_key current_page_ idx_in_page_]; [| |lia].
  - apply (forward_page_ok m [] ps); done.
  - pose proof (co_heap _ _ Hok) as Hh. destruct (heap_page _ _ _ _ _ Hh) as (p & Hp & Hkp & _). rewrite Hp. cbn [mbind option_bind].
    unfold page_size. rewrite Hkp, length_fmap, length_app. cbn [length]. destruct l2 as [|[k' e'] l2]; cbn [length].
    + rewrite decide_True by lia. destruct (forward_page_ok m (ps1 ++ [(a, l1 ++ [(k, e)])]) ps2 (mkIter (Ordinary k) e a (length l1))) as (it' & Hit & Hpt);
        [by rewrite <- app_assoc|]. rewrite before_snoc in Hit. exists it'. split; [done|]. rewrite <- app_assoc in Hpt.
      rewrite content_app, content_cons, !length_app in Hpt. cbn [length content concat fmap list_fmap] in Hpt.
      by replace (S (S (length (content ps1) + length l1))) with (S (length (content ps1) + (length l1 + 1 + 0))) by lia.
    + rewrite decide_False by lia. replace (l1 ++ (k, e) :: (k', e') :: l2) with ((l1 ++ [(k, e)]) ++ (k', e') :: l2) in * by by rewrite <- app_assoc.
      exists (mkIter (Ordinary k') e' a (length (l1 ++ [(k, e)]))). split.
      * replace (length l1 + 1) with (length (l1 ++ [(k, e)])) by (rewrite length_app; cbn; lia). by eapply Iterator_at_page.
      * replace (S (S (length (content ps1) + length l1))) with (S (length (content ps1) + length (l1 ++ [(k, e)])))
          by (rewrite length_app; cbn; lia). by apply points_at with l2 ps2.
Qed.

Lemma iter_prev_ok m ps it n : ccm_ok m ps → points ps it (S n) → ∃ it', iter_prev m it = Some it' ∧ points ps it' n.
Proof.
  intros Hok Hpt. inversion Hpt as [|ps1 a l1 k e l2 ps2|]; subst; unfold iter_prev; cbn [it_key current_page_ idx_in_page_].
  - pose proof (co_heap _ _ Hok) as Hh. case_decide as Hl1.
    + destruct l1; [|done]. cbn [app] in *. destruct (backward_page_ok m ps1 ((a, (k, e) :: l2) :: ps2) (mkIter (Ordinary k) e a 0) Hok) as (it' & Hit & Hp').
      exists it'. split; [done|]. by rewrite Nat.add_0_r.
    + destruct l1 as [|[k' e'] l1 _] using rev_ind; [done|]. rewrite length_app. cbn [length]. rewrite Nat.add_sub.
      rewrite <- app_assoc in Hh |- *. cbn [app] in *. exists (mkIter (Ordinary k') e' a (length l1)). split.
      * by eapply Iterator_at_page.
      * replace (length (content ps1) + (length l1 + 1)) with (S (length (content ps1) + length l1)) by lia. by eapply points_at.
  - pose proof (backward_page_ok m ps [] (mkIter PositiveInfinity nullptr pos_inf_page_ i)) as Hb. rewrite app_nil_r in Hb. by apply Hb.
Qed.

(** ** Bounds *)

Lemma first_of_ok m ps1 ps2 : ccm_ok m (ps1 ++ ps2) → ps2 ≠ [] →
  ∃ it, first_of m (head ps2.*1) = Some it ∧ points (ps1 ++ ps2) it (S (length (content ps1))).
Proof.
  intros Hok Hne. destruct ps2 as [|[b lb] ps2]; [done|]. destruct (po_len _ (co_ps _ _ Hok) b lb) as [Hpos _]; [set_solver|].
  destruct lb as [|[k e] lb]; [cbn in Hpos; lia|]. eexists. split; [apply (Iterator_at_page m ps1 b [] k e lb ps2 (co_heap _ _ Hok))|].
  replace (length (content ps1)) with (length (content ps1) + length (@nil (K * Z))) by (cbn; lia). by apply points_at with lb ps2.
Qed.

Lemma content_not_nil ps : ps_ok ps → ps ≠ [] → content ps ≠ [].
Proof.
  intros Hok Hne. destruct ps as [|[b lb] ps]; [done|]. destruct (po_len _ Hok b lb) as [Hpos _]; [by left|].
  rewrite content_cons. by destruct lb; [cbn in Hpos; lia|].
Qed.

Section bound.
Context (P : K → Prop) `{!∀ x, Decision (P x)} (Pdown : ∀ x y, x <k y → P y → P x).

(** The two pages that the search looks at.  Either everything in the pages before the
    second one satisfies [P], or the bound is in the first one. *)
Inductive bound_found m ps : option Z * option Z → Prop :=
  | bound_between ps1 ps2 : ps = ps1 ++ ps2 → partition_point P (content ps).*1 = length (content ps1) →
      (ps1 = [] ∨ ∃ lk, last_key m (last ps1.*1) = Some (Some (Ordinary lk)) ∧ P lk) →
      bound_found m ps (last ps1.*1, head ps2.*1)
  | bound_inside ps1 a l ps2 p lk it : ps = ps1 ++ (a, l) :: ps2 → heap m !! a = Some p → keys_ p = l.*1 →
      last_key m (Some a) = Some (Some (Ordinary lk)) → ¬ P lk → Iterator_at m a (partition_point P l.*1) = Some it →
      points ps it (S (partition_point P (content ps).*1)) → bound_found m ps (Some a, head ps2.*1).

Lemma pages_around_app m ps1 ps2 : index_ok (ccmp_ m) (ps1 ++ ps2) → pages_around m (length ps1) = (last ps1.*1, head ps2.*1).
Proof.
  intros Hi. apply Forall2_app_inv_r in Hi as (c1 & c2 & I1 & I2 & Hc). unfold pages_around. rewrite Hc.
  assert (∀ c ps, index_ok c ps → c.*2 = ps.*1) as Hsnd.
  { intros c ps. induction 1 as [|[k a] [b l] c' ps' [E _] _ IH]; [done|]. cbn in E. subst. cbn. by f_equal. }
  apply Forall2_length in I1 as HL. rewrite <- HL. f_equal.
  - rewrite <- (Hsnd _ _ I1). destruct c1 as [|x c1 _] using rev_ind; [done|]. rewrite length_app, fmap_app. cbn [length fmap list_fmap].
    rewrite last_snoc, decide_False by lia. rewrite Nat.add_sub, <- app_assoc. cbn [app]. by rewrite list_lookup_middle.
  - rewrite <- (Hsnd _ _ I2). rewrite lookup_app_r, Nat.sub_diag by lia. by destruct c2.
Qed.

Lemma bound_search m ps : ccm_ok m ps → bound_found m ps (pages_around m (partition_point P (ccmp_ m).*1)).
Proof.
  intros Hok. rewrite partition_point_fmap.
  destruct (partition_point_spec (λ x : K * Z, P x.1) (ccmp_ m)) as (c1 & c2 & Hc & HL & H1 & H2). rewrite <- HL.
  pose proof (co_index _ _ Hok) as Hi. pose proof (po_sorted _ (co_ps _ _ Hok)) as Hs. rewrite Hc in Hi.
  destruct (index_cut _ _ _ Hi) as (ps1 & ps2 & -> & I1 & I2 & HL1). rewrite HL1.
  rewrite <- Hc in Hi. rewrite (pages_around_app _ _ _ Hi).
  assert (∀ x, x ∈ (content ps2).*1 → ¬ P x) as Hps2.
  { apply (content_from c2 ps2 (λ x, ¬ P x)); [|done| |done].
    - intros x y Hx Hxy Hy. by apply Hx, (Pdown x y).
    - rewrite content_app, fmap_app in Hs. by apply StronglySorted_app_1_r in Hs. }
  destruct ps1 as [|[a l] ps1 _] using rev_ind.
  { apply bound_between; [done| |by left]. change ([] ++ ps2) with ps2. apply (partition_point_app P []); [constructor|].
    intros x Hx%head_Some_elem_of. auto. }
  destruct c1 as [|[k0 a'] c1 _] using rev_ind; [rewrite length_app in HL1; cbn in HL1; lia|].
  apply Forall2_app_inv in I1 as [I1 I1']; [|rewrite !length_app in HL1; cbn in HL1; lia].
  inversion I1' as [|? ? ? ? [E Hk0] _]; subst. cbn in E, Hk0. subst a'. apply Forall_app in H1 as [_ H1]. rewrite Forall_singleton in H1. cbn in H1.
  rewrite <- app_assoc in Hok, Hs |- *. cbn [app] in *. pose proof (co_heap _ _ Hok) as Hh.
  destruct (heap_page _ _ _ _ _ Hh) as (p & Hp & Hkp & _). destruct (page_ends _ _ _ _ _ _ Hh Hp) as [_ Hlast].
  destruct (last l.*1) as [lk|] eqn:El; [|apply last_None in El; rewrite El in Hk0; done].
  assert (last_key m (Some a) = Some (Some (Ordinary lk))) as Hlk.
  { unfold last_key. rewrite Hp. cbn [mbind option_bind]. by rewrite Hlast. }
  rewrite fmap_app. cbn [fmap list_fmap fst]. rewrite last_snoc.
  pose proof Hs as Hs'. rewrite content_mid, !fmap_app in Hs'. apply StronglySorted_app in Hs' as (Hs1 & _ & Hs2). apply StronglySorted_app in Hs2 as (_ & Hs2 & _).
  assert (∀ x, x ∈ (content ps1).*1 → P x) as Hps1.
  { intros x Hx. apply (Pdown x k0); [|done]. apply Hs1; [done|]. rewrite elem_of_app. left. by apply head_Some_elem_of. }
  destruct (decide (P lk)) as [HP|HP].
  - replace (Some a) with (last (ps1 ++ [(a, l)]).*1) by (rewrite fmap_app; cbn; by rewrite last_snoc).
    apply bound_between; [by rewrite <- app_assoc| |right; exists lk; rewrite fmap_app; cbn; by rewrite last_snoc].
    rewrite content_mid, app_assoc, fmap_app, partition_point_app.
    + rewrite length_fmap, content_app, content_cons, app_nil_r. done.
    + rewrite Forall_forall. intros x. rewrite fmap_app, elem_of_app. intros [Hx|Hx]; [auto|].
      destruct (last_sorted key_lt _ lk x Hs2 El Hx) as [->|?]; [done|]. by eapply Pdown.
    + intros x Hx%head_Some_elem_of. auto.
  - destruct (partition_point_spec (λ x : K * Z, P x.1) l) as (l1 & l2 & -> & HL2 & H3 & H4).
    destruct l2 as [|[k e] l2].
    { destruct HP. rewrite app_nil_r in El. apply last_Some_elem_of in El. apply list_elem_of_fmap in El as (x & -> & Hx).
      rewrite Forall_forall in H3. by apply H3. }
    specialize (H4 _ eq_refl). cbn in H4.
    eapply (bound_inside _ _ ps1 a (l1 ++ (k, e) :: l2) ps2 p lk); try done.
    + rewrite partition_point_fmap, <- HL2. by eapply Iterator_at_page.
    + rewrite content_mid, fmap_app, (fmap_app fst (l1 ++ _)), (fmap_app fst l1), <- app_assoc, app_assoc, <- fmap_app, partition_point_app.
      * rewrite length_fmap, length_app. by eapply points_at.
      * rewrite Forall_forall. intros x. rewrite fmap_app, elem_of_app. intros [Hx|Hx]; [auto|].
        apply list_elem_of_fmap in Hx as (y & -> & Hy). rewrite Forall_forall in H3. by apply H3.
      * intros x Hx. cbn in Hx. by injection Hx as <-.
Qed.

Lemma bound_result m ps (T : SearchKey K → bool) pages : (∀ x, T (Ordinary x) = true ↔ P x) →
  ccm_ok m ps → bound_found m ps pages →
  ∃ it, (let '(page1, page2) := pages in
    last1 ← last_key m page1;
    if bool_decide (page2 = None) && from_option T true last1 then Some End_
    else
      match page1, last1 with
      | Some a1, Some l1 => if T l1 then first_of m page2 else p1 ← heap m !! a1; Iterator_at m a1 (partition_point P (keys_ p1))
      | _, _ => first_of m page2
      end) = Some it ∧ points ps it (S (partition_point P (content ps).*1)).
Proof.
  intros HT Hok [ps1 ps2 -> Hn Hl|ps1 a l ps2 p lk it -> Hp Hk Hlk HP Hit Hpt].
  - assert (from_option T true (default None (last_key m (last ps1.*1))) = true ∧ is_Some (last_key m (last ps1.*1))) as [Hb [last1 Hl1]].
    { destruct Hl as [->|(lk & -> & HP)]; [done|]. split; [by apply HT|by eexists]. }
    rewrite Hl1 in Hb |- *. cbn [mbind option_bind]. cbn in Hb. cbn. rewrite Hb, andb_true_r, Hn.
    case_bool_decide as Hp2.
    + assert (ps2 = []) as -> by by destruct ps2. rewrite app_nil_r. eexists. split; [done|]. apply (points_pos ps1 0).
    + destruct (first_of_ok m ps1 ps2 Hok) as (it & Hit & Hpt); [by intros ->|]. exists it. split; [|done].
      destruct (last ps1.*1), last1; try done. cbn in Hb. by rewrite Hb.
  - rewrite Hlk. cbn [mbind option_bind from_option]. assert (T (Ordinary lk) = false) as -> by (apply not_true_iff_false; by rewrite HT).
    rewrite andb_false_r, Hp. cbn [mbind option_bind]. rewrite Hk. eauto.
Qed.
End bound.

Lemma search_lt_down s x y : x <k y → search_lt (Ordinary y) s = true → search_lt (Ordinary x) s = true.
Proof. destruct s; cbn; try done. rewrite !bool_decide_eq_true. apply key_lt_trans. Qed.
Lemma search_le_down s x y : x <k y → search_lt s (Ordinary y) = false → search_lt s (Ordinary x) = false.
Proof. destruct s; cbn; try done. rewrite !bool_decide_eq_false. intros Hxy Hy Hx. apply Hy. by eapply key_lt_trans. Qed.

Lemma LowerBound_ok m ps s : ccm_ok m ps → s ≠ NegativeInfinity →
  ∃ it, LowerBound m s = Some it ∧ points ps it (S (lower_bound s (content ps).*1)).
Proof.
  intros Hok Hs. unfold LowerBound. rewrite decide_False by done. unfold map_lower_bound, lower_bound, page_lower_bound, lower_bound.
  apply (bound_result (λ x, search_lt (Ordinary x) s = true) m ps (λ t, search_lt t s)); [done..|].
  apply bound_search; [|done]. intros x y. apply search_lt_down.
Qed.

Lemma UpperBound_ok m ps s : ccm_ok m ps → ∃ it, UpperBound m s = Some it ∧ points ps it (S (upper_bound s (content ps).*1)).
Proof.
  intros Hok. unfold UpperBound, map_upper_bound, upper_bound, page_upper_bound, upper_bound.
  destruct (bound_result (λ x, search_lt s (Ordinary x) = false) m ps (λ t, negb (search_lt s t))
    (pages_around m (partition_point (λ x, search_lt s (Ordinary x) = false) (ccmp_ m).*1))) as (it & Hit & Hpt).
  - intros x. apply negb_true_iff.
  - done.
  - apply bound_search; [|done]. intros x y. apply search_le_down.
  - exists it. split; [|done]. rewrite <- Hit. destruct (pages_around _ _) as [page1 page2]. destruct (last_key m page1) as [last1|]; [|done].
    cbn [mbind option_bind]. destruct (bool_decide (page2 = None) && _); [done|]. destruct page1 as [a1|], last1 as [t|]; try done. by destruct (search_lt s t).
Qed.

(** *** What an iterator points to *)

Lemma points_lookup ps it n : points ps it n → ps_ok ps → (∀ e, e ∈ (content ps).*2 → e ≠ nullptr ∧ e ≠ neg_inf_) →
  match it_key it with
  | NegativeInfinity => n = 0
  | Ordinary k => ∃ i, n = S i ∧ content ps !! i = Some (k, it_cce it)
  | PositiveInfinity => n = S (length (content ps))
  end ∧ iter_eq it Begin = bool_decide (n = 0) ∧ iter_eq it End_ = bool_decide (n = S (length (content ps))).
Proof.
  intros [i|ps1 a l1 k e l2 ps2 ->|i] Hok Hcce; cbn [it_key it_cce].
  - split_and!; [done|done|]. rewrite bool_decide_eq_false_2 by lia. done.
  - assert (content (ps1 ++ (a, l1 ++ (k, e) :: l2) :: ps2) !! (length (content ps1) + length l1) = Some (k, e)) as Hlk.
    { rewrite content_mid, <- app_assoc, app_assoc, <- length_app. cbn [app]. by rewrite list_lookup_middle. }
    split; [by eexists|]. apply lookup_lt_Some in Hlk as Hlt.
    destruct (Hcce e) as [He1 He2]; [apply list_elem_of_lookup_2, (list_elem_of_fmap_2 snd) in Hlk; exact Hlk|].
    unfold iter_eq. cbn. rewrite !bool_decide_eq_false_2 by (done || lia). done.
  - split_and!; [done|done|]. by rewrite bool_decide_eq_true_2.
Qed.

Lemma points_ok m ps it n : ccm_ok m ps → points ps it n →
  (∀ k, it_key it = Ordinary k ↔ ∃ i, n = S i ∧ (content ps).*1 !! i = Some k) ∧
  (it_key it = NegativeInfinity ↔ n = 0) ∧ (it_key it = PositiveInfinity ↔ n = S (length (content ps))) ∧
  iter_eq it Begin = bool_decide (n = 0) ∧ iter_eq it End_ = bool_decide (n = S (length (content ps))).
Proof.
  intros Hok Hpt. destruct (points_lookup ps it n Hpt (co_ps _ _ Hok)) as (H1 & H2 & H3).
  { intros e He. by apply (co_cces _ _ Hok) in He as (_ & ?). }
  split_and!; [..|done|done]; destruct (it_key it) as [|k|] eqn:E.
  - intros k. split; [done|]. naive_solver.
  - intros k'. destruct H1 as (i & -> & Hi). split.
    + intros [= ->]. exists i. split; [done|]. by rewrite list_lookup_fmap, Hi.
    + intros (j & [= ->] & Hj). rewrite list_lookup_fmap, Hi in Hj. by injection Hj as ->.
  - intros k. split; [done|]. intros (i & -> & Hi). injection H1 as ->. apply lookup_lt_Some in Hi. rewrite length_fmap in Hi. lia.
  - done.
  - destruct H1 as (i & -> & _). done.
  - subst n. done.
  - subst n. done.
  - destruct H1 as (i & -> & Hi). split; [done|]. intros [= ->]. apply lookup_lt_Some in Hi. lia.
  - done.
Qed.

Lemma bounds_present (L : list K) k : StronglySorted key_lt L → k ∈ L →
  L !! lower_bound (Ordinary k) L = Some k ∧ upper_bound (Ordinary k) L = S (lower_bound (Ordinary k) L).
Proof.
  intros Hs (L1 & L2 & ->)%list_elem_of_split. pose proof Hs as Hs'. apply StronglySorted_app in Hs' as (H1 & _ & H2).
  inversion H2 as [|? ? _ H3]; subst. rewrite Forall_forall in H3.
  assert (lower_bound (Ordinary k) (L1 ++ k :: L2) = length L1) as ->.
  { apply partition_point_mid; [|rewrite search_lt_ordinary; apply key_lt_irrefl]. rewrite Forall_forall. intros x Hx.
    apply search_lt_ordinary, H1; [done|by left]. }
  split; [by apply list_lookup_middle|]. replace (L1 ++ k :: L2) with ((L1 ++ [k]) ++ L2) by by rewrite <- app_assoc.
  unfold upper_bound. rewrite partition_point_app; [rewrite length_app; cbn; lia|..].
  - rewrite Forall_forall. intros x [Hx|Hx%list_elem_of_singleton]%elem_of_app; apply not_true_iff_false; rewrite search_lt_ordinary.
    + apply key_lt_asym, H1; [done|by left].
    + subst. apply key_lt_irrefl.
  - intros x Hx%head_Some_elem_of. rewrite not_false_iff_true, search_lt_ordinary. auto.
Qed.

Lemma bounds_absent (L : list K) k : k ∉ L → upper_bound (Ordinary k) L = lower_bound (Ordinary k) L ∧ L !! lower_bound (Ordinary k) L ≠ Some k.
Proof.
  intros Hk. split; [|intros Hi; by apply list_elem_of_lookup_2 in Hi]. induction L as [|x L IH]; [done|]. apply not_elem_of_cons in Hk as [Hne Hk].
  unfold upper_bound, lower_bound in *. cbn [partition_point]. rewrite IH by done. destruct (key_total k x) as [H|[->|H]]; [|done|].
  - rewrite decide_False by (by rewrite not_false_iff_true, search_lt_ordinary).
    rewrite decide_False by (rewrite search_lt_ordinary; by apply key_lt_asym). done.
  - rewrite decide_True by (apply not_true_iff_false; rewrite search_lt_ordinary; by apply key_lt_asym).
    rewrite decide_True by (by rewrite search_lt_ordinary). done.
Qed.

Lemma bounds_pos (L : list K) : lower_bound PositiveInfinity L = length L ∧ upper_bound PositiveInfinity L = length L.
Proof. split; apply partition_point_all, Forall_forall; done. Qed.
Lemma upper_bound_neg (L : list K) : upper_bound NegativeInfinity L = 0.
Proof. by destruct L. Qed.

(** The greatest key that is at most [s], or negative infinity. *)
Lemma Floor_ok m ps s : ccm_ok m ps → ∃ it, Floor m s = Some it ∧ points ps it (upper_bound s (content ps).*1).
Proof.
  intros Hok. unfold Floor. pose proof (po_sorted _ (co_ps _ _ Hok)) as Hs. destruct s as [|k|].
  - cbn. eexists. split; [done|]. rewrite upper_bound_neg. apply (points_neg ps 0).
  - destruct (LowerBound_ok m ps (Ordinary k) Hok) as (it & -> & Hpt); [done|]. cbn [mbind option_bind].
    destruct (points_ok m ps it _ Hok Hpt) as (Hk & _ & _ & -> & ->). rewrite (bool_decide_eq_false_2 (S _ = 0)) by done.
    destruct (decide (k ∈ (content ps).*1)) as [Hin|Hni].
    + destruct (bounds_present _ _ Hs Hin) as [Hlb ->]. rewrite (bool_decide_eq_true_2 (it_key it = Ordinary k)) by (apply Hk; by eexists).
      apply lookup_lt_Some in Hlb. rewrite length_fmap in Hlb. rewrite bool_decide_eq_false_2 by lia. cbn. eauto.
    + destruct (bounds_absent _ _ Hni) as [-> Hlb]. rewrite (bool_decide_eq_false_2 (it_key it = Ordinary k)).
      * cbn. by apply iter_prev_ok.
      * intros (i & [= <-] & Hi)%Hk. done.
  - destruct (LowerBound_ok m ps PositiveInfinity Hok) as (it & -> & Hpt); [done|]. cbn [mbind option_bind].
    destruct (points_ok m ps it _ Hok Hpt) as (_ & _ & _ & -> & ->). rewrite (bool_decide_eq_false_2 (S _ = 0)) by done.
    destruct (bounds_pos (content ps).*1) as [E1 E2]. rewrite E1, E2 in *. rewrite length_fmap in *.
    rewrite (bool_decide_eq_true_2 (S _ = S _)) by done. rewrite orb_true_r. by apply iter_prev_ok.
Qed.

(** ** Scans *)

Lemma ForwardScanStart_ok m ps k inclusive : ccm_ok m ps →
  ∃ it, ForwardScanStart m (Ordinary k) inclusive false =
      Some (it, if inclusive && bool_decide (k ∈ (content ps).*1) then ScanBoth else ScanGap) ∧
    points ps it (upper_bound (Ordinary k) (content ps).*1).
Proof.
  intros Hok. pose proof (po_sorted _ (co_ps _ _ Hok)) as Hs. unfold ForwardScanStart, MakeForwardScanPair. rewrite orb_false_r. destruct inclusive; cbn [andb].
  - destruct (LowerBound_ok m ps (Ordinary k) Hok) as (it & -> & Hpt); [done|]. cbn [mbind option_bind].
    destruct (points_ok m ps it _ Hok Hpt) as (Hk & _ & _ & -> & ->). rewrite (bool_decide_eq_false_2 (S _ = 0)) by done.
    destruct (decide (k ∈ (content ps).*1)) as [Hin|Hni].
    + rewrite (bool_decide_eq_true_2 (k ∈ _)) by done. destruct (bounds_present _ _ Hs Hin) as [Hlb ->].
      rewrite (bool_decide_eq_true_2 (it_key it = _)) by (apply Hk; by eexists).
      apply lookup_lt_Some in Hlb. rewrite length_fmap in Hlb. rewrite bool_decide_eq_false_2 by lia. cbn. eauto.
    + rewrite (bool_decide_eq_false_2 (k ∈ _)) by done. destruct (bounds_absent _ _ Hni) as [-> Hlb].
      rewrite (bool_decide_eq_false_2 (it_key it = _)) by by intros (i & [= <-] & Hi)%Hk.
      rewrite orb_true_r. destruct (iter_prev_ok m ps it _ Hok Hpt) as (it' & -> & Hpt'). cbn [mbind option_bind]. eauto.
  - destruct (UpperBound_ok m ps (Ordinary k) Hok) as (it & -> & Hpt). cbn [mbind option_bind].
    destruct (points_ok m ps it _ Hok Hpt) as (_ & _ & _ & -> & _). rewrite bool_decide_eq_false_2 by done.
    destruct (iter_prev_ok m ps it _ Hok Hpt) as (it' & -> & Hpt'). cbn [mbind option_bind]. eauto.
Qed.

Lemma BackwardScanStart_ok m ps k inclusive : ccm_ok m ps →
  ∃ it, BackwardScanStart m (Ordinary k) inclusive =
      Some (it, if inclusive && bool_decide (k ∈ (content ps).*1) then ScanKey else ScanBoth) ∧
    points ps it (if inclusive then upper_bound (Ordinary k) (content ps).*1 else lower_bound (Ordinary k) (content ps).*1).
Proof.
  intros Hok. pose proof (po_sorted _ (co_ps _ _ Hok)) as Hs. unfold BackwardScanStart. rewrite decide_False by done. destruct inclusive; cbn [andb].
  - destruct (UpperBound_ok m ps (Ordinary k) Hok) as (it & -> & Hpt). cbn [mbind option_bind].
    destruct (points_ok m ps it _ Hok Hpt) as (_ & _ & _ & -> & _). rewrite (bool_decide_eq_false_2 (S _ = 0)) by done.
    destruct (iter_prev_ok m ps it _ Hok Hpt) as (it' & -> & Hpt'). cbn [mbind option_bind]. exists it'. split; [|done].
    destruct (points_ok m ps it' _ Hok Hpt') as (Hk & _). do 2 f_equal. destruct (decide (k ∈ (content ps).*1)) as [Hin|Hni].
    + rewrite bool_decide_eq_true_2 by done. destruct (bounds_present _ _ Hs Hin) as [Hlb Eub].
      rewrite decide_True; [done|]. apply Hk. rewrite Eub. by eexists.
    + rewrite bool_decide_eq_false_2 by done. rewrite decide_False; [done|]. intros (i & _ & Hi)%Hk. apply Hni. by eapply list_elem_of_lookup_2.
  - destruct (LowerBound_ok m ps (Ordinary k) Hok) as (it & -> & Hpt); [done|]. cbn [mbind option_bind].
    destruct (points_ok m ps it _ Hok Hpt) as (_ & _ & _ & -> & _). rewrite bool_decide_eq_false_2 by done.
    destruct (iter_prev_ok m ps it _ Hok Hpt) as (it' & -> & Hpt'). cbn [mbind option_bind]. eauto.
Qed.

Lemma partition_point_le {A} (P : A → Prop) `{!∀ x, Decision (P x)} (L : list A) : partition_point P L ≤ length L.
Proof. induction L; cbn; [done|]. case_decide; lia. Qed.

Lemma partition_point_before {A} (P : A → Prop) `{!∀ x, Decision (P x)} (L : list A) i x : L !! i = Some x → i < partition_point P L → P x.
Proof.
  revert i. induction L as [|y L IH]; intros i Hi Hlt; [done|]. cbn [partition_point] in Hlt. case_decide; [|lia].
  destruct i as [|i]; [by injection Hi as <-|]. apply (IH i Hi). lia.
Qed.

(** The keys and entries from the iterator on, in the direction of the scan. *)
Fixpoint collect_forward m (fuel : nat) it : option (list (K * Z)) :=
  match fuel with
  | 0 => None
  | S fuel =>
      match it_key it with
      | PositiveInfinity => Some []
      | NegativeInfinity => it' ← iter_next m it; collect_forward m fuel it'
      | Ordinary k => it' ← iter_next m it; r ← collect_forward m fuel it'; Some ((k, it_cce it) :: r)
      end
  end.

Fixpoint collect_backward m (fuel : nat) it : option (list (K * Z)) :=
  match fuel with
  | 0 => None
  | S fuel =>
      match it_key it with
      | NegativeInfinity => Some []
      | PositiveInfinity => it' ← iter_prev m it; collect_backward m fuel it'
      | Ordinary k => it' ← iter_prev m it; r ← collect_backward m fuel it'; Some ((k, it_cce it) :: r)
      end
  end.

Lemma collect_forward_ok m ps it n fuel : ccm_ok m ps → points ps it (S n) → n ≤ length (content ps) → length (content ps) - n < fuel →
  collect_forward m fuel it = Some (drop n (content ps)).
Proof.
  intros Hok. revert it n. induction fuel as [|fuel IH]; intros it n Hpt Hn Hf; [lia|]. cbn [collect_forward].
  destruct (points_lookup ps it _ Hpt (co_ps _ _ Hok)) as (Hl & _). { intros e He. by apply (co_cces _ _ Hok) in He as (_ & ?). }
  destruct (it_key it) as [|k|]; [done| |].
  - destruct Hl as (i & [= <-] & Hi). apply lookup_lt_Some in Hi as Hlt.
    destruct (iter_next_ok m ps it _ Hok Hpt) as (it' & -> & Hpt'); [lia|]. cbn [mbind option_bind].
    rewrite (IH it' (S n)) by (done || lia). cbn [mbind option_bind]. by rewrite (drop_S _ _ _ Hi).
  - injection Hl as ->. by rewrite drop_ge.
Qed.

Lemma collect_backward_ok m ps it n fuel : ccm_ok m ps → points ps it n → n ≤ length (content ps) → n < fuel →
  collect_backward m fuel it = Some (reverse (take n (content ps))).
Proof.
  intros Hok. revert it n. induction fuel as [|fuel IH]; intros it n Hpt Hn Hf; [lia|]. cbn [collect_backward].
  destruct (points_lookup ps it _ Hpt (co_ps _ _ Hok)) as (Hl & _). { intros e He. by apply (co_cces _ _ Hok) in He as (_ & ?). }
  destruct (it_key it) as [|k|]; [by subst n| |lia].
  destruct Hl as (i & -> & Hi). destruct (iter_prev_ok m ps it _ Hok Hpt) as (it' & -> & Hpt'). cbn [mbind option_bind].
  rewrite (IH it' i) by (done || lia). cbn [mbind option_bind]. by rewrite (take_S_r _ _ _ Hi), reverse_snoc.
Qed.

Lemma filter_from {A} (P : K → Prop) `{!∀ x, Decision (P x)} (l : list (K * A)) : (∀ x y, x <k y → P y → P x) → StronglySorted key_lt l.*1 →
  filter (λ x, ¬ P x.1) l = drop (partition_point P l.*1) l ∧ filter (λ x, P x.1) l = take (partition_point P l.*1) l.
Proof.
  intros Hd Hs. induction l as [|[k e] l IH]; [done|]. cbn in Hs. inversion Hs as [|? ? Hs' Hf]; subst. rewrite Forall_forall in Hf.
  rewrite !filter_cons. cbn [fmap list_fmap fst partition_point]. destruct (IH Hs') as [IH1 IH2]. destruct (decide (P k)) as [HP|HP].
  - rewrite decide_False by (cbn; tauto). cbn [drop take]. split; [done|]. f_equal. done.
  - rewrite decide_True by (cbn; tauto). assert (partition_point P l.*1 = 0) as E.
    { destruct l as [|[k' e'] l]; [done|]. cbn. rewrite decide_False; [done|]. intros Hk'. apply HP. apply (Hd k k'); [|done]. apply Hf. by left. }
    rewrite E in *. cbn [drop take] in *. split; [by rewrite IH1|done].
Qed.

(** A scan as the handlers run it: the gap of the start is skipped. *)
Definition scan_forward m k (inclusive : bool) (fuel : nat) : option (list (K * Z)) :=
  '(it, scan_type) ← ForwardScanStart m (Ordinary k) inclusive false;
  it' ← (if decide (scan_type = ScanGap) then iter_next m it else Some it);
  collect_forward m fuel it'.
Definition scan_backward m k (inclusive : bool) (fuel : nat) : option (list (K * Z)) :=
  '(it, _) ← BackwardScanStart m (Ordinary k) inclusive;
  collect_backward m fuel it.

(** The keys in the direction of the scan from [k] on. *)
Definition keys_from k (inclusive : bool) l : list (K * Z) :=
  if inclusive then filter (λ x, ¬ x.1 <k k) l else filter (λ x, k <k x.1) l.
Definition keys_to k (inclusive : bool) l : list (K * Z) :=
  if inclusive then filter (λ x, ¬ k <k x.1) l else filter (λ x, x.1 <k k) l.

Lemma keys_bounds k inclusive l : StronglySorted key_lt l.*1 →
  keys_from k inclusive l = drop (if inclusive then lower_bound (Ordinary k) l.*1 else upper_bound (Ordinary k) l.*1) l ∧
  keys_to k inclusive l = take (if inclusive then upper_bound (Ordinary k) l.*1 else lower_bound (Ordinary k) l.*1) l.
Proof.
  intros Hs. destruct (filter_from (λ x, search_lt (Ordinary x) (Ordinary k) = true) l (search_lt_down (Ordinary k)) Hs) as [L1 L2].
  destruct (filter_from (λ x, search_lt (Ordinary k) (Ordinary x) = false) l (search_le_down (Ordinary k)) Hs) as [U1 U2].
  unfold keys_from, keys_to, lower_bound, upper_bound. destruct inclusive; rewrite <- ?L1, <- ?L2, <- ?U1, <- ?U2; split; apply filter_iff_in;
    intros x _; rewrite ?search_lt_ordinary, ?not_false_iff_true, ?search_lt_ordinary; try done; rewrite <- not_true_iff_false, search_lt_ordinary; done.
Qed.
End scan.

(** C22: The iterators and scan starts enumerate the keys of a map: a forward scan from a key
    visits exactly the keys at or above it (above it when the key is excluded) in ascending
    order, a backward scan those at or below it in descending order, each key with its
    entry, across page borders; it ends after at most as many steps as there are keys. *)
Theorem scans_enumerate {K V} `{!KeyOrder K} (m : Ccm K V) ps k (inclusive : bool) (fuel : nat) :
  ccm_ok m ps → length (content ps) < fuel →
  scan_forward m k inclusive fuel = Some (keys_from k inclusive (content ps)) ∧
  scan_backward m k inclusive fuel = Some (reverse (keys_to k inclusive (content ps))).
Proof.
  intros Hok Hf. pose proof (po_sorted _ (co_ps _ _ Hok)) as Hs. destruct (keys_bounds k inclusive _ Hs) as [-> ->].
  assert (∀ s, lower_bound s (content ps).*1 ≤ length (content ps) ∧ upper_bound s (content ps).*1 ≤ length (content ps)) as Hle.
  { intros s. rewrite <- (length_fmap fst). split; apply partition_point_le. }
  unfold scan_forward, scan_backward. split.
  - destruct (ForwardScanStart_ok m ps k inclusive Hok) as (it & -> & Hpt). cbn [mbind option_bind].
    destruct (inclusive && bool_decide (k ∈ (content ps).*1)) eqn:E.
    + apply andb_true_iff in E as [-> Hin]. apply bool_decide_eq_true in Hin. destruct (bounds_present _ _ Hs Hin) as [_ Eub]. rewrite Eub in Hpt.
      rewrite decide_False by done. apply collect_forward_ok; [done..|apply Hle|lia].
    + destruct (iter_next_ok m ps it _ Hok Hpt) as (it' & Hn & Hpt'); [apply Hle|]. rewrite decide_True, Hn by done. cbn [mbind option_bind].
      rewrite (collect_forward_ok m ps it' _ _ Hok Hpt') by (apply Hle || lia). do 2 f_equal. destruct inclusive; [|done].
      cbn in E. apply bool_decide_eq_false in E. by destruct (bounds_absent _ _ E).
  - destruct (BackwardScanStart_ok m ps k inclusive Hok) as (it & -> & Hpt). cbn [mbind option_bind].
    apply collect_backward_ok; [done..| |]; destruct inclusive; pose proof (Hle (Ordinary k)); lia.
Qed.

(** A backward scan from a key below every key of the map starts at negative infinity and
    is told to include its key, where the comments of the code promise its gap only. *)
Lemma BackwardScanStart_below {K V} `{!KeyOrder K} (m : Ccm K V) ps k (inclusive : bool) :
  ccm_ok m ps → (∀ x, x ∈ (content ps).*1 → k <k x) →
  ∃ it, BackwardScanStart m (Ordinary k) inclusive = Some (it, ScanBoth) ∧ it_key it = NegativeInfinity.
Proof.
  intros Hok Hb. destruct (BackwardScanStart_ok m ps k inclusive Hok) as (it & -> & Hpt). exists it.
  assert (k ∉ (content ps).*1) as Hni by (intros Hk; apply (key_lt_irrefl k); auto).
  rewrite (bool_decide_eq_false_2 _ Hni), andb_false_r. split; [done|]. apply (points_ok m ps it _ Hok Hpt).
  assert (∀ s, s = Ordinary k → lower_bound s (content ps).*1 = 0) as Hlb.
  { intros s ->. unfold lower_bound. destruct (content ps).*1 as [|x L]; [done|]. cbn [partition_point].
    rewrite decide_False; [done|]. rewrite search_lt_ordinary. apply key_lt_asym, Hb. by left. }
  destruct inclusive; [|by apply Hlb]. destruct (bounds_absent _ _ Hni) as [-> _]. by apply Hlb.
Qed.

(** A map with one key. *)
Definition one_key : Ccm Z Z :=
  from_option (λ r, r.1.2) (Ccm_new false)
    (FindEmplace no_ttl (Ccm_new false) lru_init true false false false false (Ordinary 7%Z) 10 100).

Lemma one_key_ok : ∃ ps, ccm_ok one_key ps ∧ content ps = [(7, 100)]%Z.
Proof.
  destruct (emplace_empty no_ttl (Ccm_new false) lru_init [] 7%Z 10 100 true false false false false)
    as (it & e & m' & lru' & ps' & xs' & E & Hok & _ & _ & Hsp & _).
  - apply Ccm_new_ok.
  - apply lru_init_ok.
  - reflexivity.
  - done.
  - by intros ?%elem_of_nil.
  - split_and!; [by intros ?%elem_of_nil|done..].
  - exists ps'. split; [unfold one_key; by rewrite E|]. by injection Hsp.
Qed.

Lemma scans_enumerate_witness : ∃ ps, content ps = [(7, 100)]%Z ∧
  scan_forward one_key 5%Z true 2 = Some (keys_from 5%Z true (content ps)) ∧
  scan_backward one_key 5%Z true 2 = Some (reverse (keys_to 5%Z true (content ps))).
Proof.
  destruct one_key_ok as (ps & Hok & E). exists ps. split; [exact E|].
  apply (scans_enumerate one_key ps 5%Z true 2); [exact Hok|rewrite E; cbn; lia].
Defined.
