(* ===== verification/PagesClean.v ===== *)
(** * Rebalancing and eviction

    After entries were removed from a page, the page is freed if it is empty, and gets
    entries from a neighbour or is merged with one if it is less than half full.  The
    lemmas show that this keeps the list of keys and entries, the index, the links, the
    pages known to the locks and the LRU list in order, and that the page handed out as
    the next one to clean is alive. *)

From S2P Require Import Prelude CcProtocol CcEntry LruList CcPages PagesRep PagesInsert PagesScan.
From stdpp Require Import sorting.

Section rebalance.
Context {K V : Type} `{!KeyOrder K}.
Implicit Types (m : Ccm K V) (ps : list (Z * list (K * Z))) (l : list (K * Z)) (k : K) (p : CcPage K) (xs : list Z).

(** ** Moving entries between neighbours *)

(** The pages [a1] and [a2] with new contents; [b] is the page that got the entries [lm]. *)
Lemma move_ok m ps1 a1 l1 a2 l2 ps2 p1 p2 l1' l2' p1' p2' b (lm : list (K * Z)) k2 :
  ccm_ok m (ps1 ++ (a1, l1) :: (a2, l2) :: ps2) → heap m !! a1 = Some p1 → heap m !! a2 = Some p2 →
  l1' ++ l2' = l1 ++ l2 → 0 < length l1' ≤ split_threshold_ → 0 < length l2' ≤ split_threshold_ → head l1'.*1 = head l1.*1 → head l2'.*1 = Some k2 →
  keys_ p1' = l1'.*1 → entries_ p1' = l1'.*2 → prev_page_ p1' = prev_page_ p1 → next_page_ p1' = next_page_ p1 →
  keys_ p2' = l2'.*1 → entries_ p2' = l2'.*2 → prev_page_ p2' = prev_page_ p2 → next_page_ p2' = next_page_ p2 →
  (∀ e, e ∈ lm.*2 → e ∈ (l1 ++ l2).*2) →
  (∀ e, e ∈ l1'.*2 → (e ∈ lm.*2 ∧ b = a1) ∨ (e ∉ lm.*2 ∧ e ∈ l1.*2)) → (∀ e, e ∈ l2'.*2 → (e ∈ lm.*2 ∧ b = a2) ∨ (e ∉ lm.*2 ∧ e ∈ l2.*2)) →
  let m2 := set_page (set_page (UpdateCcPages m b lm.*2) a1 p1') a2 p2' in
  ∃ c, TryUpdatePageKey m2 (S (length ps1)) = Some (S (length ps1), set_ccmp m2 c) ∧
    ccm_ok (set_ccmp m2 c) (ps1 ++ (a1, l1') :: (a2, l2') :: ps2) ∧
    FirstKey p1' = FirstKey p1 ∧ FirstKey p2' = Some (Ordinary k2).
Proof.
  intros [[Hl Hs Hd] Hh Hi Hlo Hce Hz] Hp1 Hp2 E Hn1 Hn2 Hh1 Hh2 K1 E1 P1 N1 K2 E2 P2 N2 Hlm M1 M2 m2.
  assert (content (ps1 ++ (a1, l1') :: (a2, l2') :: ps2) = content (ps1 ++ (a1, l1) :: (a2, l2) :: ps2)) as Ec.
  { rewrite !content_mid, !content_cons. by rewrite (app_assoc l1'), E, <- app_assoc. }
  assert (a1 ≠ a2) as Hne.
  { destruct (heap_distinct _ _ Hh) as [Hdp _]. rewrite fmap_app in Hdp. apply NoDup_app in Hdp as (_ & _ & Hdp). cbn in Hdp.
    apply NoDup_cons in Hdp as [Hdp _]. set_solver. }
  assert (heap_ok (heap m2) (ps1 ++ (a1, l1') :: (a2, l2') :: ps2)) as Hh'.
  { cbn. apply (heap_content _ _ _ _ _ p1 p1' l1') in Hh; [|done..].
    replace (ps1 ++ (a1, l1') :: (a2, l2) :: ps2) with ((ps1 ++ [(a1, l1')]) ++ (a2, l2) :: ps2) in Hh by by rewrite <- app_assoc.
    apply (heap_content _ _ _ _ _ p2 p2' l2') in Hh; [|rewrite ?lookup_insert_ne by done; done..]. by rewrite <- app_assoc in Hh. }
  destruct (index_split _ _ _ _ _ Hi) as (c1 & k1 & c2 & Hc & HL & Hk1 & I1 & I2).
  inversion I2 as [|[k2' a2'] ? c3 ? [Ea Hk2] I3]; subst. cbn in Ea, Hk2. subst a2'.
  assert (k2 ∈ l2'.*1) as Hk2in by by apply head_Some_elem_of.
  rewrite <- Ec in Hs. pose proof Hs as Hs'. rewrite content_mid, !fmap_app in Hs'. apply StronglySorted_app in Hs' as (S1 & _ & S2).
  rewrite content_cons, fmap_app in S1, S2. apply StronglySorted_app in S2 as (S2 & _ & S3). apply StronglySorted_app in S3 as (S3 & _).
  exists ((c1 ++ [(k1, a1)]) ++ (k2, a2) :: c3).
  assert (FirstKey p2' = Some (Ordinary k2)) as Hf2.
  { assert (heap m2 !! a2 = Some p2') as Hp2' by (cbn; by rewrite lookup_insert_eq).
    replace (ps1 ++ (a1, l1') :: (a2, l2') :: ps2) with ((ps1 ++ [(a1, l1')]) ++ (a2, l2') :: ps2) in Hh' by by rewrite <- app_assoc.
    destruct (page_ends _ _ _ _ _ _ Hh' Hp2') as [-> _]. by rewrite Hh2. }
  assert (head l1'.*1 = Some k1) as Hh1' by by rewrite Hh1.
  split_and!; [|split|..|done].
  - replace (S (length ps1)) with (length (c1 ++ [(k1, a1)])) by (rewrite length_app; cbn; lia).
    apply (TryUpdatePageKey_ok m2 _ k2' a2 _ p2'); [cbn; by rewrite Hc, <- app_assoc|cbn; by rewrite lookup_insert_eq|done|..].
    + intros x. rewrite fmap_app, elem_of_app. intros [Hx|Hx%list_elem_of_singleton].
      * apply S1; [by eapply index_first|]. rewrite !elem_of_app. auto.
      * subst x. apply S2; [by apply head_Some_elem_of|]. rewrite elem_of_app. auto.
    + intros x Hx. apply S3; [done|]. by eapply index_first.
  - split; rewrite ?Ec; [|by rewrite <- Ec|done]. intros b' lb Hin.
    apply elem_of_app in Hin as [Hin|[[= -> ->]|[[= -> ->]|Hin]%elem_of_cons]%elem_of_cons]; try lia; apply (Hl b'); set_solver.
  - done.
  - cbn. rewrite <- app_assoc. apply Forall2_app; [done|]. constructor; [done|]. by constructor.
  - cbn. rewrite content_mid, content_cons, !fmap_app in Hd. apply NoDup_app in Hd as (_ & D1 & D2). rewrite app_assoc in D2. apply NoDup_app in D2 as (_ & D2 & _).
    assert (∀ e, e ∈ lm.*2 → e ∈ l1.*2 ∨ e ∈ l2.*2) as Hlm' by (intros e He; by apply Hlm in He; rewrite fmap_app, elem_of_app in He).
    assert (∀ e, e ∈ (content ps1).*2 → e ∉ lm.*2) as X1.
    { intros e He Hm. apply (D1 e He). rewrite !elem_of_app. apply Hlm' in Hm. tauto. }
    assert (∀ e, e ∈ (content ps2).*2 → e ∉ lm.*2) as X2 by (intros e He Hm; apply (D2 e); [rewrite elem_of_app; auto|done]).
    eapply locks_move; [done|]. intros b' lb e Hin He.
    apply elem_of_app in Hin as [Hin|[[= -> ->]|[[= -> ->]|Hin]%elem_of_cons]%elem_of_cons].
    + right. split; [apply X1; by eapply elem_content_cce|]. exists lb. set_solver.
    + destruct (M1 e He) as [[? <-]|[? ?]]; [by left|]. right. split; [done|]. exists l1. set_solver.
    + destruct (M2 e He) as [[? <-]|[? ?]]; [by left|]. right. split; [done|]. exists l2. set_solver.
    + right. split; [apply X2; by eapply elem_content_cce|]. exists lb. set_solver.
  - intros e. rewrite Ec. apply Hce.
  - cbn. by rewrite Ec.
  - destruct (heap_page _ _ _ _ _ Hh) as (q & Hq & Hkq & _). rewrite Hp1 in Hq. injection Hq as <-.
    unfold FirstKey, IsNegInf, IsPosInf. by rewrite P1, N1, K1, Hh1, Hkq.
Qed.

Lemma two_positions m ps1 a1 l1 a2 l2 ps2 : ccm_ok m (ps1 ++ (a1, l1) :: (a2, l2) :: ps2) →
  ∃ k1 k2 p1 p2, ccmp_ m !! length ps1 = Some (k1, a1) ∧ ccmp_ m !! S (length ps1) = Some (k2, a2) ∧
    heap m !! a1 = Some p1 ∧ heap m !! a2 = Some p2 ∧ keys_ p1 = l1.*1 ∧ entries_ p1 = l1.*2 ∧ keys_ p2 = l2.*1 ∧ entries_ p2 = l2.*2 ∧
    head l1.*1 = Some k1 ∧ head l2.*1 = Some k2 ∧ FirstKey p1 = Some (Ordinary k1) ∧ FirstKey p2 = Some (Ordinary k2) ∧
    prev_page_ p1 = Some (before ps1) ∧ next_page_ p1 = Some a2 ∧ prev_page_ p2 = Some a1 ∧ next_page_ p2 = Some (after ps2) ∧ a1 ≠ a2.
Proof.
  intros Hok. pose proof (co_heap _ _ Hok) as Hh. pose proof (co_index _ _ Hok) as Hi.
  destruct (index_split _ _ _ _ _ Hi) as (c1 & k1 & c2 & Hc & HL & Hk1 & I1 & I2).
  inversion I2 as [|[k2 a2'] ? c3 ? [Ea Hk2] I3]; subst. cbn in Ea, Hk2. subst a2'.
  destruct (heap_page _ _ _ _ _ Hh) as (p1 & Hp1 & K1 & E1). destruct (heap_neighbours _ _ _ _ _ _ Hh Hp1) as [P1 N1].
  destruct (page_ends _ _ _ _ _ _ Hh Hp1) as [F1 _].
  replace (ps1 ++ (a1, l1) :: (a2, l2) :: ps2) with ((ps1 ++ [(a1, l1)]) ++ (a2, l2) :: ps2) in Hh by by rewrite <- app_assoc.
  destruct (heap_page _ _ _ _ _ Hh) as (p2 & Hp2 & K2 & E2). destruct (heap_neighbours _ _ _ _ _ _ Hh Hp2) as [P2 N2].
  destruct (page_ends _ _ _ _ _ _ Hh Hp2) as [F2 _]. rewrite before_snoc in P2.
  assert (a1 ≠ a2) as Hne.
  { destruct (heap_distinct _ _ Hh) as [Hdp _]. rewrite !fmap_app, NoDup_app in Hdp. destruct Hdp as (_ & Hdp & _). cbn in Hdp.
    intros ->. apply (Hdp a2); [rewrite elem_of_app; right; by left|by left]. }
  rewrite Hk1 in F1. rewrite Hk2 in F2. exists k1, k2, p1, p2. split_and!; try done.
  - rewrite Hc, <- HL. by apply list_lookup_middle.
  - rewrite Hc. change (c1 ++ (k1, a1) :: (k2, a2) :: c3) with (c1 ++ [(k1, a1)] ++ (k2, a2) :: c3). rewrite app_assoc.
    apply list_lookup_middle. rewrite length_app. cbn. lia.
Qed.

Lemma redistributed_lru lru xs a1 a2 : lru_ok lru xs → is_page a1 → is_page a2 → a1 ≠ a2 → a1 ∈ xs → a2 ∈ xs →
  ∃ lru' xs', lru_redistribute lru a1 a2 = Some lru' ∧ lru_ok lru' xs' ∧ ∀ x, x ∈ xs' ↔ x ∈ xs.
Proof.
  intros Hok P1 P2 Hne H1 H2. destruct (lru_redistribute_ok lru xs a1 a2) as (lru' & E & Hok'); [done..| |].
  { unfold more_recent. case_decide; done. }
  unfold more_recent in Hok'. case_decide; eexists lru', _; (split_and!; [done|exact Hok'|]); intros x; rewrite elem_of_behind, !elem_of_without;
    destruct (decide (x = a1)), (decide (x = a2)); naive_solver.
Qed.

Lemma head_take {A} n (l : list A) : 0 < n → head (take n l) = head l.
Proof. destruct n; [lia|]. by destruct l. Qed.
Lemma head_app_l {A} (l1 l2 : list A) : 0 < length l1 → head (l1 ++ l2) = head l1.
Proof. destruct l1; [cbn; lia|done]. Qed.

Lemma elem_of_cut {A B} (f : A → B) n (l : list A) (x : B) : x ∈ f <$> l ↔ x ∈ f <$> take n l ∨ x ∈ f <$> drop n l.
Proof. by rewrite <- (take_drop n l) at 1; rewrite fmap_app, elem_of_app. Qed.
Lemma NoDup_cut {A B} (f : A → B) n (l : list A) (x : B) : NoDup (f <$> l) → x ∈ f <$> take n l → x ∉ f <$> drop n l.
Proof. rewrite <- (take_drop n l) at 1. rewrite fmap_app, NoDup_app. intros (_ & H & _). apply H. Qed.

(** Entries of the fuller page go to the other one. *)
Lemma Redistribute_ok m lru xs ps1 a1 l1 a2 l2 ps2 :
  ccm_ok m (ps1 ++ (a1, l1) :: (a2, l2) :: ps2) → lru_ok lru xs → is_page a1 → is_page a2 → a1 ∈ xs → a2 ∈ xs →
  split_threshold_ < length l1 + length l2 → length l1 < merge_threshold_ ∨ length l2 < merge_threshold_ →
  ∃ m' lru' l1' l2' xs', RedistributeBetweenPages m lru (length ps1) (S (length ps1)) = Some (length ps1, m', lru') ∧
    l1' ++ l2' = l1 ++ l2 ∧ ccm_ok m' (ps1 ++ (a1, l1') :: (a2, l2') :: ps2) ∧ lru_ok lru' xs' ∧ (∀ x, x ∈ xs' ↔ x ∈ xs) ∧
    (length l1 < merge_threshold_ → ∃ lx, l1' = l1 ++ lx ∧ lx ≠ []) ∧ (length l2 < merge_threshold_ → ∃ lx, l1 = l1' ++ lx).
Proof.
  intros Hok Hlru P1 P2 X1 X2 Hsum Hsmall. unfold split_threshold_, merge_threshold_ in *.
  destruct (two_positions _ _ _ _ _ _ _ Hok) as (k1 & k2 & p1 & p2 & C1 & C2 & Hp1 & Hp2 & K1 & E1 & K2 & E2 & Hk1 & Hk2 & F1 & F2 & Pv1 & Nx1 & Pv2 & Nx2 & Hne).
  destruct (po_len _ (co_ps _ _ Hok) a1 l1) as [Hl1 Hl1']; [set_solver|]. destruct (po_len _ (co_ps _ _ Hok) a2 l2) as [Hl2 Hl2']; [set_solver|].
  unfold split_threshold_ in *. destruct (redistributed_lru lru xs a1 a2) as (lru' & xs' & Hred & Hlru' & Hxs'); [done..|].
  assert (NoDup (l1.*2 ++ l2.*2)) as Hdl.
  { pose proof (po_cces _ (co_ps _ _ Hok)) as Hd. rewrite content_mid, content_cons, !fmap_app in Hd.
    apply NoDup_app in Hd as (_ & _ & Hd). rewrite app_assoc in Hd. by apply NoDup_app in Hd as (Hd & _). }
  pose proof (po_sorted _ (co_ps _ _ Hok)) as Hs. rewrite content_mid, content_cons, !fmap_app in Hs.
  apply StronglySorted_app in Hs as (_ & _ & Hs). apply StronglySorted_app in Hs as (Hs12 & Hs1 & Hs). apply StronglySorted_app in Hs as (_ & Hs2 & _).
  apply sorted_NoDup in Hs2 as Hn2.
  unfold RedistributeBetweenPages. rewrite C1, C2. cbn [mbind option_bind]. rewrite Hp1, Hp2. cbn [mbind option_bind].
  rewrite Nx1, Pv2, F1, F2. rewrite !option_guard_True by done. cbn [mbind option_bind].
  unfold page_size. rewrite K1, K2, E1, E2, !length_fmap. apply NoDup_app in Hdl as (D1 & D12 & D2).
  pose proof (Nat.div_mod_eq (length l1 + length l2) 2). pose proof (Nat.mod_upper_bound (length l1 + length l2) 2 ltac:(lia)).
  destruct (decide (length l2 < length l1)) as [Hlt|Hge].
  - set (n := (length l1 + length l2) / 2) in *. rewrite <- !fmap_take, <- !fmap_drop, <- !fmap_app.
    assert (0 < n < length l1) as Hn by lia. assert (0 < length (drop n l1)) as Hd by (rewrite length_drop; lia).
    destruct (head (drop n l1 ++ l2).*1) as [k2'|] eqn:Hk2'; [|destruct (drop n l1); [cbn in Hd; lia|done]].
    assert (k2' ∈ l1.*1) as Hk2in.
    { apply (elem_of_cut fst n). right. apply head_Some_elem_of. rewrite <- Hk2', fmap_app, head_app_l; [done|by rewrite length_fmap]. }
    destruct (move_ok m ps1 a1 l1 a2 l2 ps2 p1 p2 (take n l1) (drop n l1 ++ l2) (with_content p1 (take n l1).*1 (take n l1).*2)
      (with_dirty (with_content p2 (drop n l1 ++ l2).*1 (drop n l1 ++ l2).*2) (Z.max (last_dirty_commit_ts_ p1) (last_dirty_commit_ts_ p2)))
      a2 (drop n l1) k2' Hok Hp1 Hp2) as (c & Htry & Hok' & Hf1 & Hf2); try done.
    + by rewrite app_assoc, take_drop.
    + rewrite length_take. unfold split_threshold_. lia.
    + rewrite length_app, length_drop. unfold split_threshold_. lia.
    + rewrite fmap_take, head_take by lia. done.
    + intros e He. rewrite fmap_app, elem_of_app. left. apply (elem_of_cut snd n). by right.
    + intros e He. right. split; [by eapply NoDup_cut|]. apply (elem_of_cut snd n). by left.
    + intros e. rewrite fmap_app, elem_of_app. intros [He|He]; [by left|]. right. split; [|done]. intros He'. apply (D12 e); [|done].
      apply (elem_of_cut snd n). by right.
    + rewrite Hf1, Hf2, F1. rewrite option_guard_True. 2: { split; [done|]. intros [= ->]. apply (key_lt_irrefl k2). apply Hs12; [done|].
        rewrite elem_of_app. left. by apply head_Some_elem_of. }
      cbn [mbind option_bind]. rewrite Htry. cbn [mbind option_bind]. rewrite Hred. cbn [mbind option_bind].
      eexists _, lru', (take n l1), (drop n l1 ++ l2), xs'. split_and!; try done.
      * do 3 f_equal. lia.
      * by rewrite app_assoc, take_drop.
      * lia.
      * intros _. exists (drop n l1). by rewrite take_drop.
  - set (n := length l2 - (length l1 + length l2) / 2) in *. rewrite <- !fmap_take, <- !fmap_drop, <- !fmap_app.
    assert (0 < n < length l2) as Hn by (unfold n; lia). assert (0 < length (drop n l2)) as Hd by (rewrite length_drop; lia).
    destruct (head (drop n l2).*1) as [k2'|] eqn:Hk2'; [|destruct (drop n l2); [cbn in Hd; lia|done]].
    destruct (move_ok m ps1 a1 l1 a2 l2 ps2 p1 p2 (l1 ++ take n l2) (drop n l2)
      (with_dirty (with_content p1 (l1 ++ take n l2).*1 (l1 ++ take n l2).*2) (Z.max (last_dirty_commit_ts_ p1) (last_dirty_commit_ts_ p2)))
      (with_content p2 (drop n l2).*1 (drop n l2).*2) a1 (take n l2) k2' Hok Hp1 Hp2) as (c & Htry & Hok' & Hf1 & Hf2); try done.
    + by rewrite <- app_assoc, take_drop.
    + rewrite length_app, length_take. unfold split_threshold_, n. lia.
    + rewrite length_drop. unfold split_threshold_. lia.
    + rewrite fmap_app, head_app_l; [done|]. rewrite length_fmap. lia.
    + intros e He. rewrite fmap_app, elem_of_app. right. apply (elem_of_cut snd n). by left.
    + intros e. rewrite fmap_app, elem_of_app. intros [He|He]; [|by left]. right. split; [|done]. intros He'. apply (D12 e); [done|].
      apply (elem_of_cut snd n). by left.
    + intros e He. right. split; [|apply (elem_of_cut snd n); by right]. intros He'. by apply (NoDup_cut snd n l2 e).
    + rewrite Hf1, Hf2, F1. rewrite option_guard_True. 2: { split; [done|]. intros [= ->]. apply (NoDup_cut fst n l2 k2 Hn2);
        apply head_Some_elem_of; [|done]. rewrite fmap_take, head_take by lia. done. }
      cbn [mbind option_bind]. rewrite Htry. cbn [mbind option_bind]. rewrite Hred. cbn [mbind option_bind].
      eexists _, lru', (l1 ++ take n l2), (drop n l2), xs'. split_and!; try done.
      * do 3 f_equal. lia.
      * by rewrite <- app_assoc, take_drop.
      * intros _. eexists. split; [done|]. intros Ht. apply (f_equal length) in Ht. rewrite length_take in Ht. cbn in Ht. lia.
      * lia.
Qed.

(** ** Merging *)

Lemma merged_lru lru xs a1 a2 : lru_ok lru xs → is_page a1 → is_page a2 → a1 ≠ a2 → a1 ∈ xs → a2 ∈ xs →
  ∃ lru' xs', lru_merge lru a1 a2 = Some lru' ∧ lru_ok lru' xs' ∧ ∀ x, x ∈ xs' ↔ x ∈ xs ∧ x ≠ a2.
Proof.
  intros Hok P1 P2 Hne H1 H2. destruct (lru_merge_ok lru xs a1 a2) as (lru' & E & Hok'); [done..| |].
  { unfold more_recent. case_decide; done. }
  exists lru', (merged_list lru a1 a2 xs). split_and!; [done..|]. intros x. unfold merged_list. case_decide.
  - by rewrite elem_of_without.
  - unfold replaced. rewrite list_elem_of_fmap. split.
    + intros (y & -> & [Hy Hya]%elem_of_without). by case_decide.
    + intros [Hx Hxa]. destruct (decide (x = a1)) as [->|Hx1].
      * exists a2. rewrite decide_True by done. split; [done|]. by apply elem_of_without.
      * exists x. rewrite decide_False by done. split; [done|]. by apply elem_of_without.
Qed.

Lemma with_next_same p : with_next p (next_page_ p) = p.
Proof. by destruct p. Qed.

(** The heap after a merge: the second page is gone, the first one has its entries. *)
Lemma merged_heap (h : gmap Z (CcPage K)) ps1 a1 l1 a2 l2 ps2 p1 p2 dirty ttl :
  heap_ok h (ps1 ++ (a1, l1) :: (a2, l2) :: ps2) → h !! a1 = Some p1 → h !! a2 = Some p2 →
  keys_ p1 = l1.*1 → entries_ p1 = l1.*2 → keys_ p2 = l2.*1 → entries_ p2 = l2.*2 →
  heap_ok (CcPage_delete (alter (λ q, with_ttl (with_dirty q dirty) ttl) a1
    (alter (λ q, with_prev q (Some a1)) (after ps2) (alter (λ q, with_next q (Some a1)) (before ps1)
      (<[a1 := with_next (with_content p1 (keys_ p1 ++ keys_ p2) (entries_ p1 ++ entries_ p2)) (Some (after ps2))]> h)))) a2)
    (ps1 ++ (a1, l1 ++ l2) :: ps2).
Proof.
  intros Hh Hp1 Hp2 K1 E1 K2 E2. set (merged := with_next _ _). set (final := with_ttl (with_dirty merged dirty) ttl).
  assert (heap_ok h ((ps1 ++ [(a1, l1)]) ++ (a2, l2) :: ps2)) as Hh2 by by rewrite <- app_assoc.
  destruct (heap_neighbours _ _ _ _ _ _ Hh Hp1) as [P1 N1]. destruct (heap_neighbours _ _ _ _ _ _ Hh2 Hp2) as [P2 N2]. rewrite before_snoc in P2.
  destruct (full_split ps1 ((a1, l1) :: (a2, l2) :: ps2)) as (L1 & L2 & Eb & Ea & E & _). pose proof (ho_links _ _ Hh) as Hl.
  pose proof (lk_dup _ _ _ Hl) as Hd. rewrite E in Hd, Hl. destruct (after_split ps2) as (L3 & Ea').
  cbn in Ea. rewrite Ea' in Ea. injection Ea as <-.
  apply NoDup_app in Hd as (_ & _ & Hd). cbn in Hd. rewrite !NoDup_cons in Hd. rewrite !not_elem_of_cons in Hd.
  destruct Hd as ((? & ? & ? & _) & (? & ? & _) & (? & _) & _).
  change (after ((a1, l1) :: (a2, l2) :: ps2)) with a1 in *.
  assert (CcPage_delete (alter (λ q, with_ttl (with_dirty q dirty) ttl) a1 (alter (λ q, with_prev q (Some a1)) (after ps2)
    (alter (λ q, with_next q (Some a1)) (before ps1) (<[a1 := merged]> h)))) a2 = <[a1 := final]> (CcPage_delete h a2)) as ->.
  - apply map_eq. intros x. rewrite (CcPage_delete_lookup _ a2 p2 a1 (after ps2)); [|by rewrite !lookup_alter_ne, lookup_insert_ne by done|done..].
    destruct (decide (x = a1)) as [->|Hx1].
    { rewrite lookup_insert_eq, decide_False by done. rewrite lookup_alter_eq, !lookup_alter_ne, lookup_insert_eq by done. done. }
    rewrite lookup_insert_ne by done. rewrite (CcPage_delete_lookup h a2 p2 a1 (after ps2)) by done.
    destruct (decide (x = a2)) as [->|Hx2]; [done|]. rewrite lookup_alter_ne by done.
    destruct (decide (x = after ps2)) as [->|Hx3].
    { rewrite lookup_alter_eq, lookup_alter_ne, lookup_insert_ne by done. repeat case_decide; try done; by destruct (h !! after ps2). }
    rewrite lookup_alter_ne by done. rewrite decide_False by done. destruct (decide (x = before ps1)) as [->|Hx4].
    + rewrite lookup_alter_eq, lookup_insert_ne by done. destruct (linked_next _ _ _ _ _ _ Hl) as [Hn _]. unfold next_of in Hn.
      destruct (h !! before ps1) as [q|] eqn:Hq; [|done]. cbn in Hn |- *. f_equal. rewrite <- Hn. by rewrite with_next_same.
    + by rewrite lookup_alter_ne, lookup_insert_ne by done.
  - apply heap_delete in Hh2. rewrite <- app_assoc in Hh2. cbn [app] in Hh2.
    assert (CcPage_delete h a2 !! a1 = Some (with_next p1 (Some (after ps2)))) as Hq.
    { rewrite (CcPage_delete_lookup h a2 p2 a1 (after ps2)) by done. rewrite decide_False, decide_True by done. by rewrite Hp1. }
    eapply heap_content; [exact Hh2|exact Hq|..]; cbn; rewrite ?K1, ?K2, ?E1, ?E2, ?fmap_app; done.
Qed.

(** The second page is merged into the first one. *)
Lemma Merge_ok m lru xs ps1 a1 l1 a2 l2 ps2 :
  ccm_ok m (ps1 ++ (a1, l1) :: (a2, l2) :: ps2) → lru_ok lru xs → is_page a1 → is_page a2 → a1 ∈ xs → a2 ∈ xs →
  length l1 + length l2 ≤ split_threshold_ →
  ∃ m' lru' xs', MergePages m lru (length ps1) (S (length ps1)) = Some (m', lru') ∧
    ccm_ok m' (ps1 ++ (a1, l1 ++ l2) :: ps2) ∧ lru_ok lru' xs' ∧ (∀ x, x ∈ xs' ↔ x ∈ xs ∧ x ≠ a2).
Proof.
  intros Hok Hlru Pg1 Pg2 X1 X2 Hsum.
  destruct (two_positions _ _ _ _ _ _ _ Hok) as (k1 & k2 & p1 & p2 & C1 & C2 & Hp1 & Hp2 & K1 & E1 & K2 & E2 & Hk1 & Hk2 & F1 & F2 & Pv1 & Nx1 & Pv2 & Nx2 & Hne).
  destruct (merged_lru lru xs a1 a2) as (lru' & xs' & Hm & Hlru' & Hxs'); [done..|].
  unfold MergePages. rewrite C1, C2. cbn [mbind option_bind]. rewrite Hp1, Hp2. cbn [mbind option_bind]. rewrite Pv1, Nx2. cbn [mbind option_bind].
  rewrite Hm. cbn [mbind option_bind]. eexists _, lru', xs'. split_and!; [done| |done|done].
  destruct Hok as [[Hl Hs Hd] Hh Hi Hlo Hce Hz].
  assert (content (ps1 ++ (a1, l1 ++ l2) :: ps2) = content (ps1 ++ (a1, l1) :: (a2, l2) :: ps2)) as Ec.
  { rewrite !content_mid, content_cons. by rewrite <- app_assoc. }
  split; rewrite ?Ec; try done.
  - split; rewrite ?Ec; [|done..]. intros b lb Hin. destruct (Hl a1 l1) as [? _]; [set_solver|].
    apply elem_of_app in Hin as [Hin|[[= -> ->]|Hin]%elem_of_cons]; [|rewrite length_app; lia|]; apply (Hl b); set_solver.
  - cbn [heap set_ccmp set_heap UpdateCcPages set_locks]. by eapply merged_heap.
  - cbn [ccmp_ set_ccmp set_heap UpdateCcPages set_locks]. destruct (index_split _ _ _ _ _ Hi) as (c1 & k1' & c2 & -> & HL & Hk1' & I1 & I2).
    inversion I2 as [|[k2' a2'] ? c3 ? [Ea Hk2'] I3]; subst. cbn in Ea, Hk2'. subst a2'.
    replace (c1 ++ (k1', a1) :: (k2', a2) :: c3) with ((c1 ++ [(k1', a1)]) ++ (k2', a2) :: c3) by by rewrite <- app_assoc.
    replace (S (length ps1)) with (length (c1 ++ [(k1', a1)])) by (rewrite length_app; cbn; lia). rewrite remove_at_app_middle, <- app_assoc.
    apply Forall2_app; [done|]. constructor; [|done]. split; [done|]. cbn. by destruct l1.
  - cbn [lock_page set_ccmp set_heap UpdateCcPages set_locks]. rewrite E2. eapply locks_move; [done|].
    rewrite content_mid, content_cons, !fmap_app in Hd. apply NoDup_app in Hd as (_ & D1 & D2). apply NoDup_app in D2 as (_ & D2 & D3).
    apply NoDup_app in D3 as (_ & D3 & _). intros b lb e Hin He.
    apply elem_of_app in Hin as [Hin|[[= -> ->]|Hin]%elem_of_cons].
    + right. split; [|exists lb; set_solver]. intros He'. apply (D1 e); [by eapply elem_content_cce|]. rewrite !elem_of_app. auto.
    + rewrite fmap_app, elem_of_app in He. destruct He as [He|He]; [right|by left]. split; [|exists l1; set_solver].
      intros He'. apply (D2 e He). rewrite elem_of_app. auto.
    + right. split; [|exists lb; set_solver]. intros He'. apply (D3 e He'). by eapply elem_content_cce.
Qed.

(** ** [RebalancePage] *)

(** Entries were removed from the page; [page_it] is the position of the page if its first
    key went. *)
Record page_dirty m ps1 (a : Z) l ps2 (page_it : option nat) : Prop := {
  pd_heap : heap_ok (heap m) (ps1 ++ (a, l) :: ps2);
  pd_index : ∃ c1 k0 c2, ccmp_ m = c1 ++ (k0, a) :: c2 ∧ index_ok c1 ps1 ∧ index_ok c2 ps2 ∧ (page_it = None → head l.*1 = Some k0);
  pd_it i : page_it = Some i → i = length ps1;
  pd_len b lb : (b, lb) ∈ ps1 ++ ps2 → 0 < length lb ≤ split_threshold_;
  pd_room : length l ≤ split_threshold_;
  pd_sorted : StronglySorted key_lt (content (ps1 ++ (a, l) :: ps2)).*1;
  pd_dup : NoDup (content (ps1 ++ (a, l) :: ps2)).*2;
  pd_locks : locks_ok (lock_page m) (ps1 ++ (a, l) :: ps2);
  pd_cces e : e ∈ (content (ps1 ++ (a, l) :: ps2)).*2 → is_Some (cces m !! e) ∧ e ≠ nullptr ∧ e ≠ neg_inf_;
  pd_size : size_ m = u64 (Z.of_nat (length (content (ps1 ++ (a, l) :: ps2))));
}.

Lemma dirty_fixed m ps1 a l ps2 page_it : page_dirty m ps1 a l ps2 page_it → l ≠ [] →
  ∃ it m1, match page_it with Some i => '(j, m1) ← TryUpdatePageKey m i; Some (Some j, m1) | None => Some (None, m) end = Some (it, m1) ∧
    ccm_ok m1 (ps1 ++ (a, l) :: ps2) ∧ heap m1 = heap m ∧ (∀ i, it = Some i → i = length ps1).
Proof.
  intros [Hh (c1 & k0 & c2 & Hc & I1 & I2 & Hk0) Hit Hlen Hroom Hs Hd Hlo Hce Hz] Hne.
  assert (∀ k c, head l.*1 = Some k → c = c1 ++ (k, a) :: c2 → ccm_ok (set_ccmp m c) (ps1 ++ (a, l) :: ps2)) as Hok.
  { intros k c Hk ->. split; try done.
    - split; [|done..]. intros b lb [Hin|[[= -> ->]|Hin]%elem_of_cons]%elem_of_app; [apply (Hlen b); set_solver| |apply (Hlen b); set_solver].
      split; [|done]. destruct l; [done|cbn; lia].
    - cbn. by apply Forall2_app; [|constructor]. }
  destruct page_it as [i|].
  - rewrite (Hit i eq_refl). destruct (head l.*1) as [k|] eqn:Hk; [|by destruct l]. destruct (heap_page _ _ _ _ _ Hh) as (p & Hp & _).
    destruct (page_ends _ _ _ _ _ _ Hh Hp) as [Hf _]. rewrite Hk in Hf.
    pose proof Hs as Hs'. rewrite content_mid, !fmap_app in Hs'. apply StronglySorted_app in Hs' as (S1 & _ & S2). apply StronglySorted_app in S2 as (S2 & _).
    replace (length ps1) with (length c1) by by eapply Forall2_length.
    rewrite (TryUpdatePageKey_ok m c1 k0 a c2 p k Hc Hp Hf).
    + cbn [mbind option_bind]. eexists _, _. split_and!; [done|by eapply Hok|done|]. by intros ? [= <-].
    + intros x Hx. apply S1; [by eapply index_first|]. rewrite elem_of_app. left. by apply head_Some_elem_of.
    + intros x Hx. apply S2; [by apply head_Some_elem_of|]. by eapply index_first.
  - eexists _, _. split_and!; [done| |done|done]. rewrite <- (set_ccmp_same m). by eapply Hok; [apply Hk0|].
Qed.

Lemma dirty_removed m ps1 a ps2 page_it : page_dirty m ps1 a [] ps2 page_it →
  page_it = Some (length ps1) ∧ length ps1 < length (ccmp_ m) ∧
  ccm_ok (set_ccmp (set_heap m (CcPage_delete (heap m) a)) (remove_at (length ps1) (ccmp_ m))) (ps1 ++ ps2).
Proof.
  intros [Hh (c1 & k0 & c2 & Hc & I1 & I2 & Hk0) Hit Hlen Hroom Hs Hd Hlo Hce Hz].
  assert (content (ps1 ++ (a, []) :: ps2) = content (ps1 ++ ps2)) as E by by rewrite content_mid, content_app. rewrite E in *.
  split_and!.
  - destruct page_it as [i|]; [f_equal; by apply Hit|]. by specialize (Hk0 eq_refl).
  - rewrite Hc, length_app, <- (Forall2_length _ _ _ I1). cbn. lia.
  - split; try done.
    + cbn. by eapply heap_delete.
    + cbn. rewrite Hc. replace (length ps1) with (length c1) by by eapply Forall2_length. rewrite remove_at_app_middle. by apply Forall2_app.
    + intros b lb e pg Hin. apply (Hlo b lb). set_solver.
Qed.

Lemma page_position_ok m ps1 a l ps2 p it : ccm_ok m (ps1 ++ (a, l) :: ps2) → heap m !! a = Some p → (∀ i, it = Some i → i = length ps1) →
  page_position m p it = Some (length ps1).
Proof.
  intros Hok Hp Hit. destruct it as [i|]; cbn; [by rewrite (Hit i)|].
  destruct (page_ends _ _ _ _ _ _ (co_heap _ _ Hok) Hp) as [-> _]. pose proof (co_index _ _ Hok) as Hi.
  pose proof (index_sorted _ _ Hi (po_sorted _ (co_ps _ _ Hok))) as Hs.
  destruct (index_split _ _ _ _ _ Hi) as (c1 & k0 & c2 & Hc & HL & Hk & _). rewrite Hk. cbn. rewrite Hc in *. by rewrite map_find_mid, HL.
Qed.

Lemma lru_next_in lru xs a : lru_ok lru xs → a ∈ xs → ∃ nx, lru_next_ lru !! a = Some nx ∧ nx ∈ xs ++ [tail_ccp_] ∧ nx ≠ a.
Proof.
  intros Hok Ha. destruct (lru_distinct _ _ Hok) as (Hd & _ & Ht). pose proof Ha as (L1 & L2 & ->)%list_elem_of_split.
  destruct (lru_links _ _ _ _ Hok) as [_ Hn]. exists (succ_of L2). split; [done|]. unfold succ_of. apply NoDup_app in Hd as (_ & _ & [Hd _]%NoDup_cons).
  destruct L2 as [|y L2]; cbn; [set_solver|]. split; set_solver.
Qed.

(** What [RebalancePage] leaves behind.  The next page to clean is one of the LRU list or
    its end; without the list it is the page at which the part of the keys that has been
    cleaned ends, or the page itself when it got entries of its successor. *)
Record rebalanced xs ps1 (a : Z) l ps2 (success use_lru_list : bool) (next : Z) m' lru' ps' xs' : Prop := {
  rb_ok : ccm_ok m' ps';
  rb_content : content ps' = content (ps1 ++ (a, l) :: ps2);
  rb_lru : lru_ok lru' xs';
  rb_in : in_lru true xs' ps';
  rb_pages b : b ∈ ps'.*1 → b ∈ (ps1 ++ (a, l) :: ps2).*1;
  rb_frame b : b ∈ xs' ↔ b ∈ xs ∧ (b ∈ (ps1 ++ (a, l) :: ps2).*1 → b ∈ ps'.*1);
  rb_next_lru : use_lru_list = true → next ∈ xs' ++ [tail_ccp_];
  rb_next_page : use_lru_list = false → ∃ qs1 qs2, ps' = qs1 ++ qs2 ∧ next = after qs2 ∧
    content qs1 `prefix_of` content ps1 ++ l ∧
    (success = true → content qs1 = content ps1 ++ l ∨ (qs1 = ps1 ∧ ∃ lx qs3, qs2 = (a, l ++ lx) :: qs3 ∧ lx ≠ []));
}.

Lemma rebalance_empty m lru xs ps1 a ps2 page_it success use_lru_list :
  page_dirty m ps1 a [] ps2 page_it → lru_ok lru xs → in_lru true xs (ps1 ++ (a, []) :: ps2) →
  ∃ next m' lru' ps' xs', RebalancePage m lru a page_it success use_lru_list = Some (Some next, m', lru') ∧
    rebalanced xs ps1 a [] ps2 success use_lru_list next m' lru' ps' xs'.
Proof.
  intros Hdirty Hlru Hin. pose proof (pd_heap _ _ _ _ _ _ Hdirty) as Hh. destruct (heap_page _ _ _ _ _ Hh) as (p & Hp & Hk & _).
  destruct (heap_neighbours _ _ _ _ _ _ Hh Hp) as [_ Hnx]. destruct (dirty_removed _ _ _ _ _ Hdirty) as (-> & Hlt & Hok).
  destruct (Hin a) as [Hpa Hina]; [rewrite fmap_app; set_solver|]. assert (a ∈ xs) as Ha by by apply Hina.
  destruct (lru_next_in lru xs a Hlru Ha) as (nx & Hlnx & Hnxin & Hnxa). destruct (detach_ok lru xs a Hlru Hpa) as (lru' & Hdet & Hlru' & _).
  unfold RebalancePage. rewrite Hp. cbn [mbind option_bind]. unfold CcPages.Empty, page_size. rewrite Hk. cbn [fmap list_fmap length].
  rewrite bool_decide_eq_true_2 by done. rewrite Hdet. cbn [mbind option_bind]. rewrite option_guard_True by done. cbn [mbind option_bind].
  rewrite Hlnx, Hnx. assert ((if use_lru_list then Some nx else Some (after ps2)) = Some (if use_lru_list then nx else after ps2)) as ->
    by by destruct use_lru_list.
  eexists _, _, lru', (ps1 ++ ps2), (without a xs). split; [done|].
  assert (a ∉ (ps1 ++ ps2).*1) as Hna.
  { destruct (heap_distinct _ _ Hh) as [Hd _]. rewrite fmap_app, NoDup_app, fmap_cons, NoDup_cons in Hd. rewrite fmap_app, elem_of_app.
    destruct Hd as (_ & Hd1 & [Hd2 _]). intros [H|H]; [|done]. apply (Hd1 a H). by left. }
  split; try done.
  - by rewrite content_mid, content_app.
  - intros b Hb. destruct (Hin b) as [Hpb Hib]; [rewrite fmap_app in *; set_solver|]. split; [done|]. rewrite elem_of_without.
    assert (b ≠ a) by (intros ->; done). naive_solver.
  - intros b. rewrite !fmap_app. set_solver.
  - intros b. rewrite elem_of_without. rewrite !fmap_app in *. rewrite fmap_cons, !elem_of_app, elem_of_cons in *. cbn [fst]. 
    destruct (decide (b = a)) as [->|]; naive_solver.
  - intros ->. rewrite elem_of_app, elem_of_without. rewrite elem_of_app in Hnxin. naive_solver.
  - intros ->. exists ps1, ps2. rewrite app_nil_r. split_and!; auto.
Qed.

(** Nothing moves. *)
Lemma rebalance_keep m lru xs ps1 a l ps2 success use_lru_list next :
  ccm_ok m (ps1 ++ (a, l) :: ps2) → lru_ok lru xs → in_lru true xs (ps1 ++ (a, l) :: ps2) →
  (use_lru_list = true → next ∈ xs ++ [tail_ccp_]) →
  (use_lru_list = false → next = after ps2 ∨ (next = a ∧ success = false)) →
  rebalanced xs ps1 a l ps2 success use_lru_list next m lru (ps1 ++ (a, l) :: ps2) xs.
Proof.
  intros Hok Hlru Hin H1 H2. split; try done.
  - intros b. split; [done|naive_solver].
  - intros ->. destruct (H2 eq_refl) as [->|[-> ->]].
    + exists (ps1 ++ [(a, l)]), ps2. assert (content (ps1 ++ [(a, l)]) = content ps1 ++ l) as -> by by rewrite content_app, content_cons, app_nil_r.
      split_and!; [by rewrite <- app_assoc|done|done|by left].
    + exists ps1, ((a, l) :: ps2). split_and!; [done|done|by eexists|done].
Qed.

(** The pages stay the same ones. *)
Lemma rebalance_same_pages xs ps1 a l ps2 success use_lru_list next m' lru' ps' xs' :
  ccm_ok m' ps' → content ps' = content (ps1 ++ (a, l) :: ps2) → lru_ok lru' xs' → in_lru true xs (ps1 ++ (a, l) :: ps2) →
  ps'.*1 = (ps1 ++ (a, l) :: ps2).*1 → (∀ x, x ∈ xs' ↔ x ∈ xs) → (use_lru_list = true → next ∈ xs ++ [tail_ccp_]) →
  (use_lru_list = false → ∃ qs1 qs2, ps' = qs1 ++ qs2 ∧ next = after qs2 ∧ content qs1 `prefix_of` content ps1 ++ l ∧
    (success = true → content qs1 = content ps1 ++ l ∨ (qs1 = ps1 ∧ ∃ lx qs3, qs2 = (a, l ++ lx) :: qs3 ∧ lx ≠ []))) →
  rebalanced xs ps1 a l ps2 success use_lru_list next m' lru' ps' xs'.
Proof.
  intros Hok Hc Hlru Hin Hpg Hxs H1 H2. split; try done.
  - intros b. rewrite Hpg, Hxs. apply Hin.
  - intros b. by rewrite Hpg.
  - intros b. rewrite Hpg, Hxs. naive_solver.
  - intros Hu. specialize (H1 Hu). rewrite elem_of_app in *. by rewrite Hxs.
Qed.

(** The page [c] is gone. *)
Lemma rebalance_one_less xs ps1 a l ps2 success use_lru_list next m' lru' ps' xs' c :
  ccm_ok m' ps' → content ps' = content (ps1 ++ (a, l) :: ps2) → lru_ok lru' xs' → in_lru true xs (ps1 ++ (a, l) :: ps2) →
  (∀ b, b ∈ ps'.*1 ↔ b ∈ (ps1 ++ (a, l) :: ps2).*1 ∧ b ≠ c) → (∀ x, x ∈ xs' ↔ x ∈ xs ∧ x ≠ c) → c ∈ (ps1 ++ (a, l) :: ps2).*1 →
  (use_lru_list = true → next ∈ xs ++ [tail_ccp_] ∧ next ≠ c) →
  (use_lru_list = false → ∃ qs1 qs2, ps' = qs1 ++ qs2 ∧ next = after qs2 ∧ content qs1 `prefix_of` content ps1 ++ l ∧
    (success = true → content qs1 = content ps1 ++ l ∨ (qs1 = ps1 ∧ ∃ lx qs3, qs2 = (a, l ++ lx) :: qs3 ∧ lx ≠ []))) →
  rebalanced xs ps1 a l ps2 success use_lru_list next m' lru' ps' xs'.
Proof.
  intros Hok Hc Hlru Hin Hpg Hxs Hci H1 H2. split; try done.
  - intros b [Hb Hbc]%Hpg. destruct (Hin b Hb). rewrite Hxs. naive_solver.
  - intros b Hb. by apply Hpg in Hb as [? _].
  - intros b. rewrite Hpg, Hxs. naive_solver.
  - intros Hu. destruct (H1 Hu) as [Hn Hnc]. rewrite elem_of_app in *. rewrite Hxs. naive_solver.
Qed.

Lemma content_snoc ps a l : content (ps ++ [(a, l)]) = content ps ++ l.
Proof. by rewrite content_app, content_cons, app_nil_r. Qed.

Section cases.
Context (m1 : Ccm K V) (lru : LruList) (xs : list Z) (ps1 : list (Z * list (K * Z))) (a : Z) (l : list (K * Z)) (ps2 : list (Z * list (K * Z))).
Context (success use_lru_list : bool) (nx : Z).
Context (Hok : ccm_ok m1 (ps1 ++ (a, l) :: ps2)) (Hlru : lru_ok lru xs) (Hin : in_lru true xs (ps1 ++ (a, l) :: ps2)).
Context (Hsmall : length l < merge_threshold_) (Hnx : nx ∈ xs ++ [tail_ccp_]) (Hnxa : nx ≠ a).

Lemma borrow_prev qs b lb : ps1 = qs ++ [(b, lb)] → split_threshold_ < length l + length lb →
  ∃ m2 lru2 ps' xs', RedistributeBetweenPages m1 lru (length ps1 - 1) (length ps1) = Some (length ps1 - 1, m2, lru2) ∧
    rebalanced xs ps1 a l ps2 success use_lru_list
      (if use_lru_list then nx else if success then after ps2 else a) m2 lru2 ps' xs'.
Proof.
  intros -> Hsum. rewrite length_app. cbn [length]. rewrite Nat.add_sub, Nat.add_1_r. rewrite <- app_assoc in Hok, Hin. cbn [app] in Hok, Hin.
  destruct (Hin b) as [Pb Xb]; [rewrite fmap_app; set_solver|]. destruct (Hin a) as [Pa Xa]; [rewrite fmap_app; set_solver|].
  destruct (Redistribute_ok m1 lru xs qs b lb a l ps2 Hok Hlru Pb Pa) as (m2 & lru2 & lb' & l' & xs' & -> & E & Hok2 & Hlru2 & Hxs & _ & H2);
    [by apply Xb|by apply Xa|lia|by right|]. destruct (H2 Hsmall) as (lx & ->).
  exists m2, lru2, (qs ++ (b, lb') :: (a, l') :: ps2), xs'. split; [done|].
  rewrite <- app_assoc in E. apply app_inv_head in E. subst l'.
  apply rebalance_same_pages; try done.
  - rewrite <- !app_assoc. cbn [app]. rewrite !content_mid, !content_cons, <- !app_assoc. done.
  - by rewrite <- app_assoc.
  - rewrite <- app_assoc, !fmap_app. done.
  - by intros ->.
  - intros ->. rewrite content_snoc. destruct success.
    + exists (qs ++ [(b, lb'); (a, lx ++ l)]), ps2. change [(b, lb'); (a, lx ++ l)] with ([(b, lb')] ++ [(a, lx ++ l)]). rewrite app_assoc, !content_snoc.
      split_and!; [by rewrite <- !app_assoc|done| |left]; rewrite <- !app_assoc; done.
    + exists (qs ++ [(b, lb')]), ((a, lx ++ l) :: ps2). rewrite content_snoc. split_and!; [by rewrite <- app_assoc|done| |done].
      exists (lx ++ l). by rewrite <- !app_assoc.
Qed.

Lemma borrow_next c lc ps3 : ps2 = (c, lc) :: ps3 → split_threshold_ < length l + length lc →
  ∃ m2 lru2 ps' xs', RedistributeBetweenPages m1 lru (length ps1) (length ps1 + 1) = Some (length ps1, m2, lru2) ∧
    rebalanced xs ps1 a l ps2 success use_lru_list (if use_lru_list then nx else a) m2 lru2 ps' xs'.
Proof.
  intros -> Hsum. rewrite Nat.add_1_r.
  destruct (Hin c) as [Pc Xc]; [rewrite fmap_app; set_solver|]. destruct (Hin a) as [Pa Xa]; [rewrite fmap_app; set_solver|].
  destruct (Redistribute_ok m1 lru xs ps1 a l c lc ps3 Hok Hlru Pa Pc) as (m2 & lru2 & l' & lc' & xs' & -> & E & Hok2 & Hlru2 & Hxs & H1 & _);
    [by apply Xa|by apply Xc|lia|by left|]. destruct (H1 Hsmall) as (lx & -> & Hlx).
  exists m2, lru2, (ps1 ++ (a, l ++ lx) :: (c, lc') :: ps3), xs'. split; [done|].
  rewrite <- app_assoc in E. apply app_inv_head in E. subst lc.
  apply rebalance_same_pages; try done.
  - rewrite !content_mid, !content_cons, <- !app_assoc. done.
  - by rewrite !fmap_app.
  - by intros ->.
  - intros ->. exists ps1, ((a, l ++ lx) :: (c, lc') :: ps3). split_and!; [done|done|by eexists|]. intros _. right. split; [done|]. eauto.
Qed.

Lemma merge_prev qs b lb : ps1 = qs ++ [(b, lb)] → length l + length lb ≤ split_threshold_ →
  ∃ m2 lru2 ps' xs' mp, MergePages m1 lru (length ps1 - 1) (length ps1) = Some (m2, lru2) ∧ heap m2 !! b = Some mp ∧ next_page_ mp = Some (after ps2) ∧
    rebalanced xs ps1 a l ps2 success use_lru_list (if use_lru_list then nx else if success then after ps2 else b) m2 lru2 ps' xs'.
Proof.
  intros -> Hsum. rewrite length_app. cbn [length]. rewrite Nat.add_sub, Nat.add_1_r. rewrite <- app_assoc in Hok, Hin. cbn [app] in Hok, Hin.
  destruct (Hin b) as [Pb Xb]; [rewrite fmap_app; set_solver|]. destruct (Hin a) as [Pa Xa]; [rewrite fmap_app; set_solver|].
  destruct (Merge_ok m1 lru xs qs b lb a l ps2 Hok Hlru Pb Pa) as (m2 & lru2 & xs' & -> & Hok2 & Hlru2 & Hxs); [by apply Xb|by apply Xa|lia|].
  destruct (heap_page _ _ _ _ _ (co_heap _ _ Hok2)) as (mp & Hmp & _). destruct (heap_neighbours _ _ _ _ _ _ (co_heap _ _ Hok2) Hmp) as [_ Hn].
  exists m2, lru2, (qs ++ (b, lb ++ l) :: ps2), xs', mp. split_and!; [done..|].
  destruct (heap_distinct _ _ (co_heap _ _ Hok)) as [Hd _].
  apply (rebalance_one_less _ _ _ _ _ _ _ _ _ _ _ _ a); try done.
  - rewrite <- app_assoc. cbn [app]. rewrite !content_mid, !content_cons, <- !app_assoc. done.
  - by rewrite <- app_assoc.
  - intros x. rewrite <- app_assoc. cbn [app]. rewrite !fmap_app, !fmap_cons in *. rewrite !elem_of_app, !elem_of_cons. cbn [fst] in *.
    apply NoDup_app in Hd as (_ & D1 & D2). rewrite !NoDup_cons in D2. rewrite not_elem_of_cons in D2. split; [|naive_solver].
    intros Hx. split; [naive_solver|]. intros ->. destruct Hx as [Hx|[Hx|Hx]]; [|naive_solver..]. apply (D1 a Hx). right. by left.
  - rewrite <- app_assoc, fmap_app. set_solver.
  - by intros ->.
  - intros ->. rewrite content_snoc. destruct success.
    + exists (qs ++ [(b, lb ++ l)]), ps2. rewrite content_snoc, app_assoc. split_and!; [by rewrite <- app_assoc|done|done|by left].
    + exists qs, ((b, lb ++ l) :: ps2). split_and!; [done|done| |done]. exists (lb ++ l). by rewrite app_assoc.
Qed.

Lemma merge_next c lc ps3 : ps2 = (c, lc) :: ps3 → length l + length lc ≤ split_threshold_ →
  ∃ m2 lru2 ps' xs' mp, MergePages m1 lru (length ps1) (length ps1 + 1) = Some (m2, lru2) ∧ heap m2 !! a = Some mp ∧
    rebalanced xs ps1 a l ps2 success use_lru_list (if use_lru_list then (if decide (nx = c) then a else nx) else a) m2 lru2 ps' xs'.
Proof.
  intros -> Hsum. rewrite Nat.add_1_r.
  destruct (Hin c) as [Pc Xc]; [rewrite fmap_app; set_solver|]. destruct (Hin a) as [Pa Xa]; [rewrite fmap_app; set_solver|].
  destruct (Merge_ok m1 lru xs ps1 a l c lc ps3 Hok Hlru Pa Pc) as (m2 & lru2 & xs' & -> & Hok2 & Hlru2 & Hxs); [by apply Xa|by apply Xc|lia|].
  destruct (heap_page _ _ _ _ _ (co_heap _ _ Hok2)) as (mp & Hmp & _).
  exists m2, lru2, (ps1 ++ (a, l ++ lc) :: ps3), xs', mp. split_and!; [done..|].
  destruct (heap_distinct _ _ (co_heap _ _ Hok)) as [Hd _].
  rewrite !fmap_app, !fmap_cons in Hd. cbn [fst] in Hd. apply NoDup_app in Hd as (_ & D1 & D2). rewrite !NoDup_cons in D2. rewrite not_elem_of_cons in D2.
  apply (rebalance_one_less _ _ _ _ _ _ _ _ _ _ _ _ c); try done.
  - rewrite !content_mid, !content_cons, <- !app_assoc. done.
  - intros x. rewrite !fmap_app, !fmap_cons, !elem_of_app, !elem_of_cons. cbn [fst]. split; [|naive_solver].
    intros Hx. split; [naive_solver|]. intros ->. destruct Hx as [Hx|[Hx|Hx]]; [|naive_solver..]. apply (D1 c Hx). right. by left.
  - rewrite fmap_app. set_solver.
  - intros ->. case_decide; [|done]. split; [|naive_solver]. rewrite elem_of_app. left. by apply Xa.
  - intros ->. exists ps1, ((a, l ++ lc) :: ps3). split_and!; [done|done|by eexists|]. intros _. right. split; [done|].
    exists lc, ps3. split; [done|]. destruct (po_len _ (co_ps _ _ Hok) c lc) as [Hp _]; [set_solver|]. intros ->. cbn in Hp. lia.
Qed.
End cases.

Lemma RebalancePage_ok m lru xs ps1 a l ps2 page_it success use_lru_list :
  page_dirty m ps1 a l ps2 page_it → lru_ok lru xs → in_lru true xs (ps1 ++ (a, l) :: ps2) →
  ∃ next m' lru' ps' xs', RebalancePage m lru a page_it success use_lru_list = Some (Some next, m', lru') ∧
    rebalanced xs ps1 a l ps2 success use_lru_list next m' lru' ps' xs'.
Proof.
  intros Hdirty Hlru Hin. destruct (decide (l = [])) as [->|Hne]; [by apply rebalance_empty|].
  pose proof (pd_heap _ _ _ _ _ _ Hdirty) as Hh. destruct (heap_page _ _ _ _ _ Hh) as (p & Hp & Hk & _).
  destruct (heap_neighbours _ _ _ _ _ _ Hh Hp) as [Hpv Hnxt]. assert (page_size p = length l) as Hsz by (unfold page_size; by rewrite Hk, length_fmap).
  destruct (Hin a) as [Hpa Hina]; [rewrite fmap_app; set_solver|]. assert (a ∈ xs) as Ha by by apply Hina.
  destruct (lru_next_in lru xs a Hlru Ha) as (nx & Hlnx & Hnxin & Hnxa).
  unfold RebalancePage. rewrite Hp. cbn [mbind option_bind]. unfold CcPages.Empty. rewrite Hsz.
  rewrite bool_decide_eq_false_2 by (by destruct l). destruct (dirty_fixed _ _ _ _ _ _ Hdirty Hne) as (it & m1 & -> & Hok & Hheap & Hit).
  cbn [mbind option_bind]. rewrite Hlnx, Hnxt, Hpv. set (np0 := if use_lru_list then Some nx else Some (after ps2)).
  assert (np0 = Some (if use_lru_list then nx else after ps2)) as -> by by destruct use_lru_list.
  destruct (decide (merge_threshold_ ≤ length l)) as [Hbig|Hsmall].
  { eexists (if use_lru_list then nx else if success then after ps2 else a), m1, lru, _, xs. split; [by destruct use_lru_list, success|].
    apply rebalance_keep; [done..|by intros ->|]. intros ->. destruct success; auto. }
  assert (length l < merge_threshold_) as Hsm by lia. cbn [mbind option_bind]. rewrite Hheap.
  destruct (place_distinct _ ps1 ((a, l) :: ps2) Hh) as (_ & [pp Hpp] & _).
  assert (heap_ok (heap m) ((ps1 ++ [(a, l)]) ++ ps2)) as Hh2 by by rewrite <- app_assoc.
  destruct (place_distinct _ (ps1 ++ [(a, l)]) ps2 Hh2) as (_ & _ & [np Hnp]). rewrite Hpp, Hnp. cbn [mbind option_bind].
  assert (heap m1 !! a = Some p) as Hp1 by by rewrite Hheap. rewrite (page_position_ok m1 ps1 a l ps2 p it Hok Hp1 Hit). cbn [mbind option_bind].
  destruct (heap_distinct _ _ Hh) as (_ & Hneg & Hpos).
  assert (ps1 = [] ∧ before ps1 = neg_inf_page_ ∨ ∃ qs b lb, ps1 = qs ++ [(b, lb)] ∧ before ps1 = b ∧ b ≠ neg_inf_page_ ∧ page_size pp = length lb) as Hprev.
  { destruct ps1 as [|[b lb] qs _] using rev_ind; [by left|]. right. exists qs, b, lb. rewrite before_snoc in *. split_and!; [done..| |].
    - intros ->. apply Hneg. rewrite !fmap_app. set_solver.
    - rewrite <- app_assoc in Hh. destruct (heap_page _ _ _ _ _ Hh) as (q & Hq & Hkq & _). rewrite Hq in Hpp. injection Hpp as <-.
      unfold page_size. by rewrite Hkq, length_fmap. }
  assert (ps2 = [] ∧ after ps2 = pos_inf_page_ ∨ ∃ c lc ps3, ps2 = (c, lc) :: ps3 ∧ after ps2 = c ∧ c ≠ pos_inf_page_ ∧ page_size np = length lc) as Hnext.
  { destruct ps2 as [|[c lc] ps3]; [by left|]. right. exists c, lc, ps3. change (after ((c, lc) :: ps3)) with c in *. split_and!; [done..| |].
    - intros ->. apply Hpos. rewrite !fmap_app. set_solver.
    - destruct (heap_page _ _ _ _ _ Hh2) as (q & Hq & Hkq & _). rewrite Hq in Hnp. injection Hnp as <-. unfold page_size. by rewrite Hkq, length_fmap. }
  clear Hpp Hnp Hh2.
  destruct (negb (bool_decide (before ps1 = neg_inf_page_)) && bool_decide (split_threshold_ < length l + page_size pp)) eqn:EA.
  { apply andb_true_iff in EA as [E1%negb_true_iff%bool_decide_eq_false E2%bool_decide_eq_true].
    destruct Hprev as [[_ ?]|(qs & b & lb & Hqs & _ & _ & Hlb)]; [done|]. rewrite Hlb in E2. cbn [orb negb andb].
    rewrite option_guard_True by (rewrite Hqs, length_app; cbn; lia). cbn [mbind option_bind].
    destruct (borrow_prev m1 lru xs ps1 a l ps2 success use_lru_list nx Hok Hlru Hin Hsm Hnxin Hnxa qs b lb Hqs E2) as (m2 & lru2 & ps' & xs' & -> & Hr).
    cbn [mbind option_bind]. eexists _, _, _, ps', xs'. split; [|exact Hr]. destruct use_lru_list, success; done. }
  destruct (negb (bool_decide (after ps2 = pos_inf_page_)) && bool_decide (split_threshold_ < length l + page_size np)) eqn:EB.
  { apply andb_true_iff in EB as [E1%negb_true_iff%bool_decide_eq_false E2%bool_decide_eq_true].
    destruct Hnext as [[_ ?]|(c & lc & ps3 & Hps & _ & _ & Hlc)]; [done|]. rewrite Hlc in E2. cbn [orb negb andb].
    destruct (borrow_next m1 lru xs ps1 a l ps2 success use_lru_list nx Hok Hlru Hin Hsm Hnxin Hnxa c lc ps3 Hps E2) as (m2 & lru2 & ps' & xs' & -> & Hr).
    cbn [mbind option_bind]. eexists _, _, _, ps', xs'. split; [|exact Hr]. destruct use_lru_list, success; done. }
  cbn [orb].
  destruct (negb (bool_decide (before ps1 = neg_inf_page_)) && negb (bool_decide (split_threshold_ < length l + page_size pp))) eqn:EC.
  { apply andb_true_iff in EC as [E1%negb_true_iff%bool_decide_eq_false E2%negb_true_iff%bool_decide_eq_false].
    destruct Hprev as [[_ ?]|(qs & b & lb & Hqs & _ & _ & Hlb)]; [done|]. rewrite Hlb in E2. cbn [orb negb andb].
    rewrite option_guard_True by (intros _; rewrite Hqs, length_app; cbn; lia). cbn [mbind option_bind].
    destruct (merge_prev m1 lru xs ps1 a l ps2 success use_lru_list nx Hok Hlru Hin Hsm Hnxin Hnxa qs b lb Hqs ltac:(lia)) as (m2 & lru2 & ps' & xs' & mp & -> & Hmp & Hmn & Hr).
    pose proof Hok as Hok0. rewrite Hqs, <- app_assoc in Hok0. cbn [app] in Hok0. destruct (two_positions _ _ _ _ _ _ _ Hok0) as (k1 & k2 & _ & _ & C1 & C2 & _).
    assert (length ps1 - 1 = length qs ∧ length ps1 = S (length qs)) as [L1 L2] by (rewrite Hqs, length_app; cbn; lia).
    rewrite L1, L2 in *. rewrite C1. cbn [mbind option_bind]. rewrite C2. cbn [mbind option_bind]. rewrite Hmp. cbn [mbind option_bind]. rewrite Hmn.
    eexists _, _, _, ps', xs'. split; [|exact Hr]. destruct use_lru_list, success; cbn; try done; rewrite bool_decide_eq_false_2 by congruence; done. }
  destruct (negb (bool_decide (after ps2 = pos_inf_page_)) && negb (bool_decide (split_threshold_ < length l + page_size np))) eqn:ED.
  { apply andb_true_iff in ED as [E1%negb_true_iff%bool_decide_eq_false E2%negb_true_iff%bool_decide_eq_false].
    destruct Hnext as [[_ ?]|(c & lc & ps3 & Hps & _ & _ & Hlc)]; [done|]. rewrite Hlc in E2. cbn [orb negb andb].
    rewrite option_guard_True by done. cbn [mbind option_bind].
    destruct (merge_next m1 lru xs ps1 a l ps2 success use_lru_list nx Hok Hlru Hin Hsm Hnxin Hnxa c lc ps3 Hps ltac:(lia)) as (m2 & lru2 & ps' & xs' & mp & -> & Hmp & Hr).
    pose proof Hok as Hok0. rewrite Hps in Hok0. destruct (two_positions _ _ _ _ _ _ _ Hok0) as (k1 & k2 & _ & _ & C1 & C2 & _).
    rewrite Nat.add_1_r, C1. cbn [mbind option_bind]. rewrite C2. cbn [mbind option_bind]. rewrite Hmp. cbn [mbind option_bind].
    eexists _, _, _, ps', xs'. split; [|exact Hr]. destruct use_lru_list; cbn; [|done]. destruct (decide (nx = c)) as [->|].
    - by rewrite bool_decide_eq_true_2.
    - by rewrite bool_decide_eq_false_2 by congruence. }
  cbn [orb]. eexists _, m1, lru, _, xs. split; [done|]. apply rebalance_keep; [done..|by intros ->|]. intros ->. by left.
Qed.
End rebalance.
