(* ===== verification/PagesEvict.v ===== *)
(** * Eviction from the pages of a cc map

    A cleaning pass marks the entries of a page that may go, compacts the page and
    rebalances it.  The theorems say which entries go, that everything else stays, and
    what a request that kicks out a range or a bucket leaves behind. *)

From S2P Require Import Prelude CcProtocol CcEntry LruList CcPages PagesRep PagesInsert PagesScan PagesClean.
From stdpp Require Import sorting.

Section mark.
Context {K V : Type} `{!KeyOrder K}.
Context (record_ttl : V → option Z) (env : CleanEnv K).
Implicit Types (m : Ccm K V) (ps : list (Z * list (K * Z))) (l : list (K * Z)) (k : K) (p : CcPage K) (req : option (KickoutCcEntryCc K)).

(** ** Marking *)

(** The request asks for the entry, and it can go. *)
Definition target m req (x : K * Z) : bool :=
  match cces m !! x.2 with Some e => IsCleanTarget record_ttl env req x.1 e | None => false end.
Definition mark m req (x : K * Z) : bool :=
  match cces m !! x.2 with
  | Some e => IsCleanTarget record_ttl env req x.1 e && CanBeCleaned env req m x.2 e
  | None => false
  end.
Definition is_normal m (x : K * Z) : bool :=
  match cces m !! x.2 with Some e => bool_decide (PayloadStatus e = Normal) | None => false end.

(** What the guard has after it looked at the entries [l]. *)
Definition guard_of m req l : CleanGuard :=
  mkGuard ((mark m req <$> l) ++ replicate (split_threshold_ - length l) false)
    (length (filter (λ x, mark m req x = true) l))
    (existsb (λ x, mark m req x && (is_normal m x && AffectCacheCompleteness req)) l)
    (length (filter (λ x, mark m req x && is_normal m x = true) l))
    (match req with None => true | Some _ => forallb (λ x, negb (target m req x) || mark m req x) l end).
Definition locks_after m req l : gmap Z Z := foldl (λ lp x, if mark m req x then delete x.2 lp else lp) (lock_page m) l.

Lemma locks_after_snoc m req l x : locks_after m req (l ++ [x]) = if mark m req x then delete x.2 (locks_after m req l) else locks_after m req l.
Proof. unfold locks_after. by rewrite foldl_snoc. Qed.

Lemma locks_after_lookup m req l e : locks_after m req l !! e = if decide (e ∈ (filter (λ x, mark m req x = true) l).*2) then None else lock_page m !! e.
Proof.
  induction l as [|x l IH] using rev_ind; [rewrite decide_False; [done|by intros ?%elem_of_nil]|].
  rewrite locks_after_snoc, filter_app, fmap_app. destruct (mark m req x) eqn:E.
  - rewrite filter_cons_True, filter_nil by done. cbn [fmap list_fmap]. destruct (decide (e = x.2)) as [->|Hne].
    + rewrite lookup_delete_eq, decide_True; [done|]. rewrite elem_of_app. right. by left.
    + rewrite lookup_delete_ne, IH by done. assert (∀ L, e ∈ L ++ [x.2] ↔ e ∈ L) as HL.
      { intros L. rewrite elem_of_app, list_elem_of_singleton. tauto. }
      repeat case_decide; try done; by rewrite HL in *.
  - rewrite filter_cons_False, filter_nil by (by rewrite E). cbn. by rewrite app_nil_r.
Qed.

Lemma insert_clean (b : list bool) n : <[length b := true]> (b ++ replicate (S n) false) = (b ++ [true]) ++ replicate n false.
Proof. cbn [replicate]. rewrite insert_app_r_alt, Nat.sub_diag by lia. cbn. by rewrite <- app_assoc. Qed.

(** One entry. *)
Lemma guard_snoc m req p l1 x l2 :
  keys_ p = (l1 ++ x :: l2).*1 → entries_ p = (l1 ++ x :: l2).*2 → NoDup (l1 ++ x :: l2).*2 → is_Some (cces m !! x.2) →
  length (l1 ++ x :: l2) ≤ split_threshold_ →
  MarkCleanForOrphanKey record_ttl env req p (set_locks m (locks_after m req l1), guard_of m req l1) (length l1) =
    Some (set_locks m (locks_after m req (l1 ++ [x])), guard_of m req (l1 ++ [x])).
Proof.
  intros Hk He Hd [e Hx] Hlen. unfold MarkCleanForOrphanKey. rewrite Hk, He, !list_lookup_fmap, list_lookup_middle by done.
  cbn [fmap option_fmap option_map mbind option_bind cces set_locks]. rewrite Hx. cbn [mbind option_bind].
  assert (CanBeCleaned env req (set_locks m (locks_after m req l1)) x.2 e = CanBeCleaned env req m x.2 e) as Ecan.
  { assert (lock_page (set_locks m (locks_after m req l1)) !! x.2 = lock_page m !! x.2) as El.
    { cbn. rewrite locks_after_lookup, decide_False; [done|]. intros Hin. rewrite fmap_app in Hd. apply NoDup_app in Hd as (_ & Hd & _).
      apply list_elem_of_fmap in Hin as (y & Ey & [_ Hy]%list_elem_of_filter). apply (Hd x.2); [rewrite Ey; by apply list_elem_of_fmap_2|by left]. }
    unfold CanBeCleaned, request_cleanable, entry_free. by rewrite El. }
  rewrite Ecan. assert (IsCleanTarget record_ttl env req x.1 e && CanBeCleaned env req m x.2 e = mark m req x) as Em by (unfold mark; by rewrite Hx).
  assert (IsCleanTarget record_ttl env req x.1 e = target m req x) as Et by (unfold target; by rewrite Hx). rewrite Em, Et.
  assert (∃ n, split_threshold_ - length l1 = S n ∧ split_threshold_ - length (l1 ++ [x]) = n) as (n & N1 & N2).
  { rewrite length_app in Hlen |- *. cbn [length] in *. exists (split_threshold_ - length l1 - 1). lia. }
  rewrite locks_after_snoc. unfold guard_of. rewrite N1, N2, fmap_app, !filter_app, !length_app, existsb_app, !filter_cons, !filter_nil. cbn [fmap list_fmap existsb].
  destruct (mark m req x) eqn:E.
  - unfold MarkClean, set_locks. cbn [lock_page]. assert (bool_decide (PayloadStatus e = Normal) = is_normal m x) as -> by (unfold is_normal; by rewrite Hx).
    cbn [clean_set_ free_cnt_ evicted_valid_key_ clean_obj_cnt_ clean_success_]. rewrite decide_True by done. do 2 f_equal.
    rewrite <- (length_fmap (mark m req) l1), insert_clean. f_equal.
    + by rewrite andb_true_l, orb_false_r.
    + rewrite andb_true_l. destruct (is_normal m x); [rewrite decide_True by done|rewrite decide_False by done]; cbn; lia.
    + destruct req; [|done]. rewrite forallb_app. cbn. by rewrite E, orb_true_r, !andb_true_r.
  - rewrite decide_False by done. unfold Reserve, set_locks. cbn [lock_page]. do 2 f_equal. cbn [length]. rewrite !Nat.add_0_r, andb_false_l, orb_false_r.
    assert ((mark m req <$> l1) ++ replicate (S n) false = ((mark m req <$> l1) ++ [false]) ++ replicate n false) as -> by (by rewrite <- app_assoc).
    destruct req as [r|]; [|done]. rewrite forallb_app. cbn [forallb clean_set_ free_cnt_ evicted_valid_key_ clean_obj_cnt_ clean_success_].
    rewrite E, orb_false_r, andb_true_r. destruct (target m (Some r) x); cbn [negb]; [by rewrite andb_false_r|by rewrite andb_true_r].
Qed.

Lemma mark_from_ok m req p l1 l2 :
  keys_ p = (l1 ++ l2).*1 → entries_ p = (l1 ++ l2).*2 → NoDup (l1 ++ l2).*2 → (∀ x, x ∈ l1 ++ l2 → is_Some (cces m !! x.2)) →
  length (l1 ++ l2) ≤ split_threshold_ →
  mark_from record_ttl env req p (set_locks m (locks_after m req l1), guard_of m req l1) (length l1) (length l2) =
    Some (set_locks m (locks_after m req (l1 ++ l2)), guard_of m req (l1 ++ l2)).
Proof.
  revert l1. induction l2 as [|x l2 IH]; intros l1 Hk He Hd Hc Hlen; [by rewrite app_nil_r|]. cbn [length mark_from].
  rewrite (guard_snoc m req p l1 x l2) by (done || (apply Hc; set_solver)). cbn [mbind option_bind].
  replace (l1 ++ x :: l2) with ((l1 ++ [x]) ++ l2) in * by by rewrite <- app_assoc.
  replace (S (length l1)) with (length (l1 ++ [x])) by (rewrite length_app; cbn; lia). by apply IH.
Qed.

(** The entries that stay. *)
Definition stay m req l : list (K * Z) := filter (λ x, mark m req x = false) l.

Lemma kept_zip {A} (f : K * Z → A) m req l rest : kept ((mark m req <$> l) ++ rest) (f <$> l) = f <$> stay m req l.
Proof.
  unfold kept, stay. induction l as [|x l IH]; [by destruct rest|]. cbn [fmap list_fmap app zip zip_with omap list_omap].
  change (list_omap _ _ _ _) with (omap (λ '(c, y), if (c : bool) then None else Some y) (zip ((mark m req <$> l) ++ rest) (f <$> l))).
  rewrite IH, filter_cons. destruct (mark m req x); [by rewrite decide_False|by rewrite decide_True].
Qed.

Lemma gone_zip m req l rest :
  omap (λ '(c, e), if (c : bool) then Some e else None) (zip ((mark m req <$> l) ++ rest) l.*2) = (filter (λ x, mark m req x = true) l).*2.
Proof.
  induction l as [|x l IH]; [by destruct rest|]. cbn [fmap list_fmap app zip zip_with omap list_omap].
  change (list_omap _ _ _ _) with (omap (λ '(c, e), if (c : bool) then Some e else None) (zip ((mark m req <$> l) ++ rest) l.*2)).
  rewrite IH, filter_cons. destruct (mark m req x); [by rewrite decide_True|by rewrite decide_False].
Qed.

Lemma foldl_delete_lookup {A} (c : gmap Z A) es e : foldl (λ c e, delete e c) c es !! e = if decide (e ∈ es) then None else c !! e.
Proof.
  revert c. induction es as [|x es IH]; intros c; [done|]. cbn [foldl]. rewrite IH. destruct (decide (e = x)) as [->|Hne].
  - rewrite lookup_delete_eq. destruct (decide (x ∈ x :: es)) as [_|Hn]; [by case_decide|]. destruct Hn. by left.
  - rewrite lookup_delete_ne by done. assert (e ∈ x :: es ↔ e ∈ es) by (rewrite elem_of_cons; tauto). repeat case_decide; tauto.
Qed.

Lemma stay_length m req l : length (stay m req l) + length (filter (λ x, mark m req x = true) l) = length l.
Proof.
  unfold stay. induction l as [|x l IH]; [done|]. rewrite !filter_cons. destruct (mark m req x); repeat case_decide; try done; cbn; lia.
Qed.

Lemma stay_all m req l : filter (λ x, mark m req x = true) l = [] → stay m req l = l.
Proof.
  intros H. unfold stay. induction l as [|x l IH]; [done|]. rewrite filter_cons in *. destruct (mark m req x); [done|].
  rewrite decide_False in H by done. rewrite decide_True by done. f_equal. by apply IH.
Qed.

(** ** Cleaning a page *)

Lemma content_stay m req ps1 a l ps2 : sublist (content (ps1 ++ (a, stay m req l) :: ps2)) (content (ps1 ++ (a, l) :: ps2)).
Proof. rewrite !content_mid. apply sublist_app; [done|]. apply sublist_app; [|done]. apply sublist_filter. Qed.

Lemma gone_elsewhere m req ps1 a l ps2 e :
  NoDup (content (ps1 ++ (a, l) :: ps2)).*2 → e ∈ (content (ps1 ++ (a, stay m req l) :: ps2)).*2 →
  e ∉ (filter (λ x, mark m req x = true) l).*2.
Proof.
  intros Hd He Hg. rewrite content_mid, !fmap_app in Hd, He. apply NoDup_app in Hd as (_ & D1 & D2). apply NoDup_app in D2 as (D2 & D3 & _).
  apply list_elem_of_fmap in Hg as (y & -> & [Hm Hy]%list_elem_of_filter). assert (y.2 ∈ l.*2) as Hy2 by by apply list_elem_of_fmap_2.
  rewrite !elem_of_app in He. destruct He as [He|[He|He]].
  - apply (D1 _ He). rewrite elem_of_app. by left.
  - apply list_elem_of_fmap in He as (z & Ez & [Hz Hzl]%list_elem_of_filter).
    assert (y = z) as ->; [|congruence]. apply list_elem_of_lookup_1 in Hy as [i Hi]. apply list_elem_of_lookup_1 in Hzl as [j Hj].
    assert (i = j) as ->; [|congruence]. eapply (NoDup_lookup _ _ _ y.2 D2); rewrite list_lookup_fmap, ?Hi, ?Hj; cbn; by rewrite ?Ez.
  - by apply (D3 _ Hy2).
Qed.

Lemma set_locks_same m : set_locks m (lock_page m) = m.
Proof. by destruct m. Qed.

Lemma page_dirty_other m m' ps1 a l ps2 page_it :
  page_dirty m ps1 a l ps2 page_it → heap m' = heap m → ccmp_ m' = ccmp_ m → cces m' = cces m → lock_page m' = lock_page m → size_ m' = size_ m →
  page_dirty m' ps1 a l ps2 page_it.
Proof. intros [? ? ? ? ? ? ? ? ? ?] E1 E2 E3 E4 E5. split; rewrite ?E1, ?E2, ?E3, ?E4, ?E5; done. Qed.

(** The page after marking and compaction; the locks of the entries that go are cleared. *)
Lemma compacted m req ps1 a l ps2 p p' page_it n :
  ccm_ok m (ps1 ++ (a, l) :: ps2) → heap m !! a = Some p → prev_page_ p' = prev_page_ p → next_page_ p' = next_page_ p →
  keys_ p' = (stay m req l).*1 → entries_ p' = (stay m req l).*2 →
  page_it = (if default false (mark m req <$> head l) then Some (length ps1) else None) →
  n = u64 (size_ m - Z.of_nat (length (filter (λ x, mark m req x = true) l))) →
  page_dirty (mkCcm (<[a := p']> (heap m)) (ccmp_ m) (foldl (λ c e, delete e c) (cces m) (filter (λ x, mark m req x = true) l).*2)
    (locks_after m req l) n (normal_obj_sz_ m) (ccm_has_full_entries_ m)) ps1 a (stay m req l) ps2 page_it.
Proof.
  intros [[Hl Hs Hd] Hh Hi Hlo Hce Hz] Hp Hpv Hnx Hk He -> ->.
  pose proof (content_stay m req ps1 a l ps2) as Hsub. split; cbn [heap ccmp_ cces lock_page size_].
  - by eapply heap_content.
  - destruct (index_split _ _ _ _ _ Hi) as (c1 & k0 & c2 & Hc & HL & Hk0 & I1 & I2). exists c1, k0, c2. split_and!; [done..|].
    destruct l as [|x l]; [done|]. cbn in Hk0. unfold stay. rewrite filter_cons. change (default false (mark m req <$> head (x :: l))) with (mark m req x).
    destruct (mark m req x); [done|]. intros _. rewrite decide_True by done. exact Hk0.
  - intros i. case_match; [|done]. by intros [= <-].
  - intros b lb Hin. apply (Hl b). set_solver.
  - destruct (Hl a l) as [_ Hle]; [set_solver|]. pose proof (stay_length m req l). lia.
  - eapply sorted_sublist; [|exact Hs]. by apply sublist_fmap.
  - eapply sublist_NoDup; [exact Hd|]. by apply sublist_fmap.
  - intros b lb e pg Hin Heb Hpg. rewrite locks_after_lookup in Hpg. case_decide; [done|].
    apply elem_of_app in Hin as [Hin|[[= -> ->]|Hin]%elem_of_cons]; [eapply (Hlo b lb); [set_solver|done..]| |eapply (Hlo b lb); [set_solver|done..]].
    eapply (Hlo a l); [set_solver| |done]. apply list_elem_of_fmap in Heb as (y & -> & [_ Hy]%list_elem_of_filter). by apply list_elem_of_fmap_2.
  - intros e Hin. rewrite foldl_delete_lookup, decide_False by (by eapply gone_elsewhere). apply Hce.
    eapply elem_of_submseteq; [exact Hin|]. apply sublist_submseteq. by apply sublist_fmap.
  - rewrite Hz, u64_sub. f_equal. rewrite !content_mid, !length_app. pose proof (stay_length m req l). lia.
Qed.

Lemma CleanPage_ok m req ps1 a l ps2 : ccm_ok m (ps1 ++ (a, l) :: ps2) →
  ∃ page_it m', CleanPage record_ttl env m a req =
      Some (clean_success_ (guard_of m req l), length (filter (λ x, mark m req x = true) l), page_it, [], m') ∧
    page_dirty m' ps1 a (stay m req l) ps2 page_it ∧
    cces m' = foldl (λ c e, delete e c) (cces m) (filter (λ x, mark m req x = true) l).*2 ∧ lock_page m' = locks_after m req l.
Proof.
  intros Hok. pose proof (co_heap _ _ Hok) as Hh. destruct (heap_page _ _ _ _ _ Hh) as (p & Hp & Hk & He).
  destruct (po_len _ (co_ps _ _ Hok) a l) as [Hpos Hle]; [set_solver|].
  assert (∀ x, x ∈ l → is_Some (cces m !! x.2) ∧ x.2 ≠ nullptr) as Hce.
  { intros x Hx. assert (x.2 ∈ (content (ps1 ++ (a, l) :: ps2)).*2) as Hin.
    { apply list_elem_of_fmap_2. rewrite content_mid, !elem_of_app. auto. } by apply (co_cces _ _ Hok) in Hin as (? & ? & _). }
  unfold CleanPage. rewrite Hp. cbn [mbind option_bind]. unfold KickoutPage.
  assert (mark_from record_ttl env req p (m, mkGuard (replicate split_threshold_ false) 0 false 0 true) 0 (page_size p) =
    Some (set_locks m (locks_after m req l), guard_of m req l)) as ->.
  { assert (mkGuard (replicate split_threshold_ false) 0 false 0 true = guard_of m req []) as -> by (unfold guard_of; by destruct req).
    rewrite <- (set_locks_same m) at 1. unfold page_size. rewrite Hk, length_fmap.
    apply (mark_from_ok m req p [] l); try done; [|intros x Hx; by apply Hce].
    pose proof (po_cces _ (co_ps _ _ Hok)) as Hd. rewrite content_mid, !fmap_app in Hd. apply NoDup_app in Hd as (_ & _ & Hd). by apply NoDup_app in Hd as (Hd & _). }
  cbn [mbind option_bind].
  assert ((if buckets_migrating env then omap (λ '(k, cce), if decide (cce = nullptr) then Some k else None) (zip (keys_ p) (entries_ p)) else []) = []) as ->.
  { destruct (buckets_migrating env); [|done]. rewrite Hk, He, zip_fst_snd. clear - Hce. induction l as [|[k e] l IH]; [done|].
    cbn. rewrite decide_False by (by apply (Hce (k, e)); left). apply IH. intros x Hx. apply Hce. by right. }
  set (page_it := if default false (mark m req <$> head l) then Some (length ps1) else None).
  assert ((if default false (head (clean_set_ (guard_of m req l))) then k ← head (keys_ p); Some (Some (map_find k (ccmp_ (set_locks m (locks_after m req l))))) else Some None)
    = Some page_it) as ->.
  { destruct (index_split _ _ _ _ _ (co_index _ _ Hok)) as (c1 & k0 & c2 & Hc & HL & Hk0 & _ & _).
    pose proof (index_sorted _ _ (co_index _ _ Hok) (po_sorted _ (co_ps _ _ Hok))) as Hs. rewrite Hk, Hk0. unfold page_it.
    destruct l as [|x l]; [done|]. cbn [guard_of clean_set_ fmap list_fmap app head default option_fmap option_map].
    change (id ?b) with b. destruct (mark m req x); [|done]. cbn. rewrite Hc in *. by rewrite map_find_mid, HL. }
  cbn [mbind option_bind]. eexists page_it, _. split; [done|].
  assert (∃ p', (if decide (0 < free_cnt_ (guard_of m req l)) then Compact record_ttl req (set_locks m (locks_after m req l)) a p (guard_of m req l)
      else set_locks m (locks_after m req l)) =
    mkCcm (<[a := p']> (heap m)) (ccmp_ m) (foldl (λ c e, delete e c) (cces m) (filter (λ x, mark m req x = true) l).*2)
      (locks_after m req l) (size_ m) (normal_obj_sz_ m) (ccm_has_full_entries_ m) ∧
    prev_page_ p' = prev_page_ p ∧ next_page_ p' = next_page_ p ∧ keys_ p' = (stay m req l).*1 ∧ entries_ p' = (stay m req l).*2)
    as (p' & -> & Hpv & Hnx & Hk' & He').
  { cbn [free_cnt_ guard_of]. case_decide as Hz.
    - eexists. split; [unfold Compact, set_cces, set_page, set_heap, set_locks; cbn [heap ccmp_ cces lock_page size_ normal_obj_sz_ ccm_has_full_entries_ clean_set_ guard_of];
        rewrite He, gone_zip; reflexivity|]. cbn. rewrite Hk. split_and!; [done..|apply (kept_zip fst)|apply (kept_zip snd)].
    - assert (filter (λ x, mark m req x = true) l = []) as E by (destruct (filter _ l); [done|cbn in Hz; lia]).
      exists p. rewrite E, stay_all by done. cbn [fmap list_fmap foldl]. rewrite insert_id by done. by destruct m. }
  pose proof (compacted m req ps1 a l ps2 p p' page_it _ Hok Hp Hpv Hnx Hk' He' eq_refl eq_refl) as Hdirty.
  destruct (evicted_valid_key_ (guard_of m req l)), (versioned_record env); (split; [|done]); eapply page_dirty_other; (exact Hdirty || done).
Qed.

(** Rebalancing does not touch the entries. *)
Ltac step_binds :=
  repeat match goal with
  | H : mbind _ ?o = Some _ |- _ => let E := fresh "E" in destruct o eqn:E; cbn [mbind option_bind] in H; [|discriminate H]
  | H : (let '(_, _) := ?x in _) = Some _ |- _ => let E := fresh "E" in destruct x eqn:E
  | H : Some _ = Some _ |- _ => injection H; clear H; intros; subst
  end.

(** Rebalancing moves entries; it changes neither the entries nor which of them have locks. *)
Definition same_entries m m' : Prop := cces m' = cces m ∧ dom (lock_page m') = dom (lock_page m).

Lemma UpdateCcPages_entries m a es : same_entries m (UpdateCcPages m a es).
Proof.
  split; [done|]. unfold UpdateCcPages. cbn [set_locks lock_page]. generalize (lock_page m). induction es as [|e es IH]; intros lp; [done|].
  cbn [foldl]. rewrite IH. unfold UpdateCcPage. apply dom_alter_L.
Qed.
Lemma TryUpdatePageKey_entries m i j m' : TryUpdatePageKey m i = Some (j, m') → same_entries m m'.
Proof.
  unfold TryUpdatePageKey. intros H. step_binds. destruct (FirstKey _) as [[]|]; try done. case_decide; [by simplify_eq|].
  destruct (map_emplace _ _ _). by simplify_eq.
Qed.
Lemma Redistribute_entries m lru i1 i2 j m' lru' : RedistributeBetweenPages m lru i1 i2 = Some (j, m', lru') → same_entries m m'.
Proof.
  unfold RedistributeBetweenPages. intros H. step_binds.
  match goal with H : TryUpdatePageKey _ _ = _ |- _ => apply TryUpdatePageKey_entries in H; destruct H as [H1 H2] end.
  unfold same_entries. rewrite H1, H2. cbn [set_page set_heap cces lock_page]. case_decide; simplify_eq; apply UpdateCcPages_entries.
Qed.
Lemma Merge_entries m lru i1 i2 m' lru' : MergePages m lru i1 i2 = Some (m', lru') → same_entries m m'.
Proof. unfold MergePages. intros H. step_binds. apply UpdateCcPages_entries. Qed.

Lemma RebalancePage_entries m lru a it su ul n m' lru' : RebalancePage m lru a it su ul = Some (n, m', lru') → same_entries m m'.
Proof.
  unfold RebalancePage. intros H. step_binds. destruct (CcPages.Empty _); [by step_binds|]. step_binds.
  match goal with H : match it with _ => _ end = Some (_, ?m1) |- _ =>
    assert (same_entries m m1) as [F1 F2] by (destruct it; step_binds; [by eapply TryUpdatePageKey_entries|done]) end.
  unfold same_entries. rewrite <- F1, <- F2. case_decide; [by step_binds|]. step_binds.
  destruct (negb _ && _ || _); [|destruct (negb _ && _ || _)]; step_binds; [|by eapply Merge_entries|done].
  destruct (negb _ && _); step_binds; by eapply Redistribute_entries.
Qed.

(** Everything a cleaning pass over one page does. *)
Lemma clean_page_ok m lru xs req ps1 a l ps2 :
  ccm_ok m (ps1 ++ (a, l) :: ps2) → lru_ok lru xs → in_lru true xs (ps1 ++ (a, l) :: ps2) →
  ∃ next m' lru' ps' xs', CleanPageAndReBalance record_ttl env m lru a req =
      Some (length (filter (λ x, mark m req x = true) l), clean_success_ (guard_of m req l), Some next, m', lru') ∧
    rebalanced xs ps1 a (stay m req l) ps2 (clean_success_ (guard_of m req l)) (bool_decide (req = None)) next m' lru' ps' xs' ∧
    (∀ e, e ∈ (content ps').*2 → cces m' !! e = cces m !! e ∧ (lock_page m' !! e = None ↔ lock_page m !! e = None)).
Proof.
  intros Hok Hlru Hin. destruct (CleanPage_ok m req ps1 a l ps2 Hok) as (page_it & m1 & Hclean & Hdirty & Hcc & Hlk).
  assert (in_lru true xs (ps1 ++ (a, stay m req l) :: ps2)) as Hin'.
  { intros b Hb. apply Hin. rewrite fmap_app in *. exact Hb. }
  destruct (RebalancePage_ok m1 lru xs ps1 a (stay m req l) ps2 page_it (clean_success_ (guard_of m req l)) (bool_decide (req = None)) Hdirty Hlru Hin')
    as (next & m' & lru' & ps' & xs' & Hreb & Hr).
  unfold CleanPageAndReBalance. rewrite Hclean. cbn [mbind option_bind]. rewrite Hreb. cbn [mbind option_bind].
  eexists _, _, _, ps', xs'. split_and!; [done|exact Hr|]. intros e He.
  rewrite (rb_content _ _ _ _ _ _ _ _ _ _ _ _ Hr) in He.
  assert (e ∉ (filter (λ x, mark m req x = true) l).*2) as Hg by (eapply gone_elsewhere; [apply (po_cces _ (co_ps _ _ Hok))|exact He]).
  destruct (RebalancePage_entries _ _ _ _ _ _ _ _ _ Hreb) as [-> Hdom]. rewrite Hcc, foldl_delete_lookup, decide_False by done. split; [done|].
  rewrite <- !not_elem_of_dom, Hdom, Hlk, !not_elem_of_dom, locks_after_lookup, decide_False by done. done.
Qed.
End mark.

(** ** Kicking out a range or a bucket *)

Section kickout.
Context {K V : Type} `{!KeyOrder K}.
Context (record_ttl : V → option Z) (env : CleanEnv K).
Implicit Types (m : Ccm K V) (ps qs : list (Z * list (K * Z))) (l : list (K * Z)) (k : K) (r : KickoutCcEntryCc K).

(** The requests whose targets may always go: the node does not own the data any more. *)
Definition unconditional r : Prop :=
  clean_type_ r = CleanRangeData ∨ clean_type_ r = CleanRangeDataForMigration ∨ clean_type_ r = CleanBucketData.

(** Such a request asks for keys, whatever their entries are. *)
Definition asked r k : bool :=
  match clean_type_ r with
  | CleanBucketData => bool_decide (bucket_of env k ∈ bucket_ids_ r)
  | _ => negb (search_lt (Ordinary k) (default NegativeInfinity (start_key_ r))) &&
         search_lt (Ordinary k) (default PositiveInfinity (end_key_ r))
  end.
Definition spared r l : list (K * Z) := filter (λ x, asked r x.1 = false) l.

Lemma mark_asked m r x : unconditional r → is_Some (cces m !! x.2) →
  mark record_ttl env m (Some r) x = asked r x.1 ∧ target record_ttl env m (Some r) x = asked r x.1.
Proof.
  intros Hr [e He]. unfold mark, target, asked. rewrite He. cbn [IsCleanTarget CanBeCleaned]. unfold request_target, request_cleanable.
  destruct Hr as [->|[->| ->]]; rewrite ?andb_true_r; split; try done; f_equal; by destruct (start_key_ r), (end_key_ r).
Qed.

Lemma stay_spared m r l : unconditional r → (∀ x, x ∈ l → is_Some (cces m !! x.2)) →
  stay record_ttl env m (Some r) l = spared r l ∧ clean_success_ (guard_of record_ttl env m (Some r) l) = true.
Proof.
  intros Hr Hl. split.
  - unfold stay, spared. apply filter_iff_in. intros x Hx. by rewrite (proj1 (mark_asked m r x Hr (Hl x Hx))).
  - cbn [guard_of clean_success_]. apply forallb_forall. intros x Hx%list_elem_of_In.
    destruct (mark_asked m r x Hr (Hl x Hx)) as [-> ->]. by destruct (asked r x.1).
Qed.

(** The pages [qs1] are behind the request; of the next page [lc] was seen already, which
    happens when the page borrowed entries after it was cleaned. *)
Definition cursor r qs1 qs2 (seen rest : list (K * Z)) : Prop :=
  ∃ lc, seen = content qs1 ++ lc ∧ content qs2 = lc ++ rest ∧ spared r lc = lc ∧
    match qs2 with [] => True | (_, l) :: _ => length lc < length l end.

Lemma spared_app r l1 l2 : spared r (l1 ++ l2) = spared r l1 ++ spared r l2.
Proof. apply filter_app. Qed.
Lemma spared_spared r l : spared r (spared r l) = spared r l.
Proof. unfold spared. rewrite list_filter_filter. apply list_filter_iff. tauto. Qed.

Lemma spared_elem r (l1 l2 l3 : list (K * Z)) e : e ∈ (l1 ++ spared r l2 ++ l3).*2 → e ∈ (l1 ++ l2 ++ l3).*2.
Proof.
  rewrite !fmap_app, !elem_of_app. intros [He|[He|He]]; [tauto| |tauto].
  right. left. apply list_elem_of_fmap in He as (y & -> & [_ Hy]%list_elem_of_filter). by apply list_elem_of_fmap_2.
Qed.

Lemma cursor_content r qs1 qs2 seen rest : cursor r qs1 qs2 seen rest → content (qs1 ++ qs2) = seen ++ rest.
Proof. intros (lc & -> & E & _). by rewrite content_app, E, app_assoc. Qed.

Lemma cursor_start r qs1 qs2 : ps_ok (qs1 ++ qs2) → cursor r qs1 qs2 (content qs1) (content qs2).
Proof.
  intros Hok. exists []. rewrite app_nil_r. split_and!; [done..|]. destruct qs2 as [|[a l] qs2]; [done|]. apply (po_len _ Hok a l). set_solver.
Qed.

(** One page of an unconditional request. *)
Lemma kick_step m lru xs r qs1 a l qs2 seen rest : unconditional r →
  ccm_ok m (qs1 ++ (a, l) :: qs2) → lru_ok lru xs → in_lru true xs (qs1 ++ (a, l) :: qs2) → cursor r qs1 ((a, l) :: qs2) seen rest →
  ∃ n m' lru' xs' qs1' qs2' gone rest', CleanPageAndReBalance record_ttl env m lru a (Some r) = Some (n, true, Some (after qs2'), m', lru') ∧
    ccm_ok m' (qs1' ++ qs2') ∧ lru_ok lru' xs' ∧ in_lru true xs' (qs1' ++ qs2') ∧
    rest = gone ++ rest' ∧ gone ≠ [] ∧ cursor r qs1' qs2' (seen ++ spared r gone) rest' ∧
    (∀ e, e ∈ (content (qs1' ++ qs2')).*2 → cces m' !! e = cces m !! e).
Proof.
  intros Hr Hok Hlru Hin (lc & -> & E & Hlc & Hlen). rewrite content_cons in E.
  destruct (clean_page_ok record_ttl env m lru xs (Some r) qs1 a l qs2 Hok Hlru Hin) as (next & m' & lru' & ps' & xs' & Hclean & Hreb & Hcc).
  destruct (stay_spared m r l Hr) as [Hst Hsu].
  { intros x Hx. apply (co_cces _ _ Hok), list_elem_of_fmap_2. rewrite content_mid, !elem_of_app. auto. }
  rewrite Hst, Hsu in *. destruct (rb_next_page _ _ _ _ _ _ _ _ _ _ _ _ Hreb) as (qs1' & qs2' & -> & -> & _ & Hnext); [by apply bool_decide_eq_false|].
  destruct Hreb as [Hok' Hcont Hlru' Hin' _ _ _ _].
  assert (∃ lu, l = lc ++ lu ∧ lu ≠ [] ∧ rest = lu ++ content qs2) as (lu & -> & Hlu & ->).
  { apply app_eq_inv in E as [(lu & -> & ->)|(lu & -> & E)].
    - exists lu. split_and!; [done| |done]. intros ->. rewrite app_nil_r in Hlen. lia.
    - rewrite length_app in Hlen. lia. }
  rewrite content_mid, spared_app, Hlc in Hcont. rewrite content_app in Hcont.
  eexists _, m', lru', xs', qs1', qs2', lu, (content qs2). split_and!; try done; [|intros e He; by apply Hcc].
  rewrite spared_app, Hlc in Hnext. destruct (Hnext eq_refl) as [E1|[-> (lx & qs3 & -> & Hlx)]].
  - rewrite E1, <- !app_assoc in Hcont. repeat apply app_inv_head in Hcont. exists []. rewrite E1, app_nil_r, <- !app_assoc. split_and!; [done..|].
    destruct qs2' as [|[b lb] qs2']; [done|]. apply (po_len _ (co_ps _ _ Hok') b lb). set_solver.
  - exists (lc ++ spared r lu). rewrite <- !app_assoc. split_and!; [done| | |].
    + apply app_inv_head in Hcont. by rewrite <- !app_assoc in Hcont.
    + by rewrite spared_app, Hlc, spared_spared.
    + rewrite !length_app. destruct lx; [done|]. cbn. lia.
Qed.

Definition first_key qs : SearchKey K := from_option Ordinary PositiveInfinity (head (content qs).*1).
Definition end_of r : SearchKey K := default PositiveInfinity (end_key_ r).
Definition start_of r : SearchKey K := default NegativeInfinity (start_key_ r).

Lemma first_key_ok m qs1 qs2 : ccm_ok m (qs1 ++ qs2) →
  ∃ p, heap m !! after qs2 = Some p ∧ FirstKey p = Some (first_key qs2) ∧ (after qs2 = pos_inf_page_ ↔ qs2 = []).
Proof.
  intros Hok. pose proof (co_heap _ _ Hok) as Hh. destruct qs2 as [|[a l] qs2].
  - destruct (ho_page _ _ Hh pos_inf_page_ []) as (p & Hp & _); [unfold full; set_solver|]. pose proof (ho_last _ _ Hh) as Hl.
    destruct (links_at _ _ _ Hh) as [_ Hpv]. change (after []) with pos_inf_page_ in *. unfold next_of, prev_of in *. rewrite Hp in *. cbn [mbind option_bind] in *.
    exists p. split_and!; [done| |done]. unfold FirstKey, IsNegInf, IsPosInf. by rewrite Hpv, Hl.
  - destruct (heap_page _ _ _ _ _ Hh) as (p & Hp & _). exists p. destruct (page_ends _ _ _ _ _ _ Hh Hp) as [-> _].
    destruct (po_len _ (co_ps _ _ Hok) a l) as [Hpos _]; [set_solver|]. destruct l as [|x l]; [cbn in Hpos; lia|].
    split_and!; [done|done|]. split; [|done]. change (after ((a, x :: l) :: qs2)) with a. intros ->.
    destruct (heap_distinct _ _ Hh) as (_ & _ & []). rewrite fmap_app, elem_of_app. right. by left.
Qed.

Lemma past_end qs1 qs2 (E : SearchKey K) x : ps_ok (qs1 ++ qs2) → search_lt (first_key qs2) E = false → x ∈ content qs2 → search_lt (Ordinary x.1) E = false.
Proof.
  intros Hok Hf Hx. pose proof (po_sorted _ Hok) as Hs. rewrite content_app, fmap_app in Hs. apply StronglySorted_app_1_r in Hs.
  unfold first_key in Hf. destruct (content qs2) as [|y L]; [by apply elem_of_nil in Hx|]. cbn [fmap list_fmap head from_option] in Hf, Hs.
  apply elem_of_cons in Hx as [->|Hx]; [done|]. inversion Hs as [|? ? _ Hall]; subst. rewrite Forall_forall in Hall.
  apply not_true_iff_false. intros Hlt. apply not_true_iff_false in Hf. apply Hf. eapply search_lt_down; [|exact Hlt]. by apply Hall, list_elem_of_fmap_2.
Qed.

(** The loop of a round. *)
Lemma kickout_pages_ok r n : unconditional r → ∀ cnt timeout m lru xs qs1 qs2 seen rest,
  ccm_ok m (qs1 ++ qs2) → lru_ok lru xs → in_lru true xs (qs1 ++ qs2) → cursor r qs1 qs2 seen rest →
  ∃ m' lru' xs' qs1' qs2' gone rest', kickout_pages record_ttl env r (end_of r) timeout n cnt m lru (after qs2) = Some (after qs2', m', lru') ∧
    ccm_ok m' (qs1' ++ qs2') ∧ lru_ok lru' xs' ∧ in_lru true xs' (qs1' ++ qs2') ∧
    rest = gone ++ rest' ∧ cursor r qs1' qs2' (seen ++ spared r gone) rest' ∧
    (∀ e, e ∈ (content (qs1' ++ qs2')).*2 → cces m' !! e = cces m !! e) ∧
    (gone = [] → n = 0 ∨ cnt ≠ 0 ∨ search_lt (first_key qs2') (end_of r) = false).
Proof.
  intros Hr. induction n as [|n IH]; intros cnt timeout m lru xs qs1 qs2 seen rest Hok Hlru Hin Hcur.
  { exists m, lru, xs, qs1, qs2, [], rest. rewrite app_nil_r. split_and!; try done. by left. }
  assert (∀ P : Prop, P → ∃ m' lru' xs' qs1' qs2' gone rest', Some (after qs2, m, lru) = Some (after qs2', m', lru') ∧
    ccm_ok m' (qs1' ++ qs2') ∧ lru_ok lru' xs' ∧ in_lru true xs' (qs1' ++ qs2') ∧ rest = gone ++ rest' ∧ cursor r qs1' qs2' (seen ++ spared r gone) rest' ∧
    (∀ e, e ∈ (content (qs1' ++ qs2')).*2 → cces m' !! e = cces m !! e) ∧ (qs2' = qs2 ∧ P)) as Hstop.
  { intros P HP. exists m, lru, xs, qs1, qs2, [], rest. rewrite app_nil_r. by split_and!. }
  cbn [kickout_pages]. destruct (first_key_ok _ _ _ Hok) as (p & -> & Hf & Hpos). cbn [mbind option_bind]. rewrite Hf. cbn [mbind option_bind].
  destruct (search_lt (first_key qs2) (end_of r)) eqn:Hend; cbn [negb orb].
  2:{ destruct (Hstop _ I) as (? & ? & ? & ? & ? & ? & ? & Hs). naive_solver. }
  destruct qs2 as [|[a l] qs2]; [done|]. rewrite (bool_decide_eq_false_2 (after _ = _)) by (by rewrite Hpos).
  destruct (bool_decide (0 < cnt) && Nat.even cnt && default false (head timeout)) eqn:Hto.
  { apply andb_true_iff in Hto as [[Hc%bool_decide_eq_true _]%andb_true_iff _].
    destruct (Hstop _ Hc) as (m' & lru' & xs' & qs1' & qs2' & gone & rest' & Hs). exists m', lru', xs', qs1', qs2', gone, rest'. naive_solver lia. }
  rewrite (bool_decide_eq_false_2 (clean_type_ r = _)) by (destruct Hr as [->|[->| ->]]; done). cbn [andb].
  destruct (kick_step m lru xs r qs1 a l qs2 seen rest Hr Hok Hlru Hin Hcur) as (k & m1 & lru1 & xs1 & qs1' & qs2' & gone & rest1 & Hstep & Hok1 & Hlru1 & Hin1 & -> & Hg & Hcur1 & Hcc1).
  change (after ((a, l) :: qs2)) with a. rewrite Hstep. cbn [mbind option_bind negb andb].
  destruct (IH (if decide (0 < k) then cnt + 1 else cnt) (tail timeout) m1 lru1 xs1 qs1' qs2' _ rest1 Hok1 Hlru1 Hin1 Hcur1)
    as (m2 & lru2 & xs2 & qs1'' & qs2'' & gone2 & rest2 & Hres & Hok2 & Hlru2 & Hin2 & -> & Hcur2 & Hcc2 & _).
  exists m2, lru2, xs2, qs1'', qs2'', (gone ++ gone2), rest2. rewrite spared_app, !app_assoc. split_and!; try done.
  - intros e He. rewrite Hcc2 by done. apply Hcc1. rewrite (cursor_content _ _ _ _ _ Hcur1). rewrite (cursor_content _ _ _ _ _ Hcur2) in He.
    rewrite <- (app_assoc (seen ++ _)) in He. by eapply spared_elem.
  - intros [-> _]%app_eq_nil. done.
Qed.

Definition kickout_page r m : option Z :=
  match resume_key_ r with
  | Some resume_key => it ← Floor m resume_key; Some (current_page_ it)
  | None =>
      it ← Floor m (start_of r);
      if decide (it_key it = NegativeInfinity) then p ← heap m !! neg_inf_page_; next_page_ p
      else Some (current_page_ it)
  end.

Lemma Execute_Kickout_eq r timeout m lru : Execute_Kickout record_ttl env r timeout m lru =
  (ccp ← kickout_page r m;
   '(ccp', m', lru') ← kickout_pages record_ttl env r (end_of r) timeout KickoutPageBatchSize 0 m lru ccp;
   p ← heap m' !! ccp';
   first ← FirstKey p;
   if bool_decide (ccp' = pos_inf_page_) || negb (search_lt first (end_of r)) then Some (KickoutDone K, m', lru')
   else Some (KickoutResume K first, m', lru')).
Proof. reflexivity. Qed.

(** One round, from the page it starts with. *)
Lemma round_ok r timeout m lru xs qs1 qs2 seen rest : unconditional r →
  ccm_ok m (qs1 ++ qs2) → lru_ok lru xs → in_lru true xs (qs1 ++ qs2) → cursor r qs1 qs2 seen rest → kickout_page r m = Some (after qs2) →
  ∃ res m' lru' xs' qs1' qs2' gone rest', Execute_Kickout record_ttl env r timeout m lru = Some (res, m', lru') ∧
    ccm_ok m' (qs1' ++ qs2') ∧ lru_ok lru' xs' ∧ in_lru true xs' (qs1' ++ qs2') ∧
    rest = gone ++ rest' ∧ cursor r qs1' qs2' (seen ++ spared r gone) rest' ∧
    (∀ e, e ∈ (content (qs1' ++ qs2')).*2 → cces m' !! e = cces m !! e) ∧
    match res with
    | KickoutDone _ => search_lt (first_key qs2') (end_of r) = false
    | KickoutResume _ k => gone ≠ [] ∧ k = first_key qs2' ∧ qs2' ≠ []
    end.
Proof.
  intros Hr Hok Hlru Hin Hcur Hpage. rewrite Execute_Kickout_eq, Hpage. assert (KickoutPageBatchSize ≠ 0) as Hn by done. revert Hn. generalize KickoutPageBatchSize. intros n Hn. cbn [mbind option_bind].
  destruct (kickout_pages_ok r n Hr 0 timeout m lru xs qs1 qs2 seen rest Hok Hlru Hin Hcur)
    as (m' & lru' & xs' & qs1' & qs2' & gone & rest' & -> & Hok' & Hlru' & Hin' & Hrest & Hcur' & Hcc & Hprog). cbn [mbind option_bind].
  destruct (first_key_ok _ _ _ Hok') as (p & -> & Hf & Hpos). cbn [mbind option_bind]. rewrite Hf. cbn [mbind option_bind].
  destruct (search_lt (first_key qs2') (end_of r)) eqn:Hend; cbn [negb].
  - assert (qs2' ≠ []) as Hne by (by intros ->). rewrite (bool_decide_eq_false_2 (after _ = _)) by (by rewrite Hpos). cbn [orb].
    eexists (KickoutResume _ _), m', lru', xs', qs1', qs2', gone, rest'. split_and!; try done. intros ->. destruct (Hprog eq_refl) as [?|[?|?]]; congruence.
  - rewrite orb_true_r. exists (KickoutDone K), m', lru', xs', qs1', qs2', gone, rest'. split_and!; (assumption || reflexivity).
Qed.

(** A new request starts with the page of the greatest key that is at most its start key. *)
Lemma kickout_page_start m ps r : ccm_ok m ps → resume_key_ r = None →
  ∃ qs1 qs2, ps = qs1 ++ qs2 ∧ kickout_page r m = Some (after qs2) ∧ ∀ x, x ∈ content qs1 → search_lt (Ordinary x.1) (start_of r) = true.
Proof.
  intros Hok Hr. unfold kickout_page. rewrite Hr. destruct (Floor_ok m ps (start_of r) Hok) as (it & -> & Hpt). cbn [mbind option_bind].
  pose proof (partition_point_le (λ x, search_lt (start_of r) (Ordinary x) = false) (content ps).*1) as Hle. fold (upper_bound (start_of r) (content ps).*1) in Hle.
  destruct (points_ok m ps it _ Hok Hpt) as (Hk & _ & _ & _). inversion Hpt as [i E1 E2|ps1 a l1 k e l2 ps2 Hps E1 E2|i E1 E2]; subst it; cbn [it_key current_page_] in *.
  - rewrite decide_True by done. exists [], ps. split_and!; [done| |by intros x ?%elem_of_nil].
    destruct (links_at (heap m) [] ps (co_heap _ _ Hok)) as [Hnx _]. exact Hnx.
  - rewrite decide_False by done. exists ps1, ((a, l1 ++ (k, e) :: l2) :: ps2). split_and!; [done..|]. intros x Hx.
    assert (x.1 <k k) as Hlt.
    { pose proof (po_sorted _ (co_ps _ _ Hok)) as Hs. rewrite Hps, content_mid, fmap_app in Hs. apply StronglySorted_app in Hs as (Hs & _ & _).
      apply Hs; [by apply list_elem_of_fmap_2|]. rewrite !fmap_app, fmap_cons, !elem_of_app, elem_of_cons. auto. }
    assert (search_lt (start_of r) (Ordinary k) = false) as Hle'.
    { destruct (proj1 (Hk k) eq_refl) as (i & Ei & Hi). eapply (partition_point_before (λ x, search_lt (start_of r) (Ordinary x) = false)); [exact Hi|].
      fold (upper_bound (start_of r) (content ps).*1). lia. }
    destruct (start_of r) as [|s|]; cbn in *; [done| |done]. apply bool_decide_eq_true. apply bool_decide_eq_false in Hle'.
    destruct (key_total k s) as [?|[->|?]]; [by eapply key_lt_trans|done|done].
  - rewrite length_fmap in Hle. lia.
Qed.

(** A round that ends before the request is finished leaves the first key of the page to
    go on with, and the next round finds that page. *)
Lemma kickout_page_resume m qs1 qs2 r : ccm_ok m (qs1 ++ qs2) → qs2 ≠ [] → resume_key_ r = Some (first_key qs2) →
  kickout_page r m = Some (after qs2).
Proof.
  intros Hok Hne Hr. unfold kickout_page. rewrite Hr. destruct qs2 as [|[a l] qs2]; [done|].
  destruct (po_len _ (co_ps _ _ Hok) a l) as [Hpos _]; [set_solver|]. destruct l as [|[k e] l]; [cbn in Hpos; lia|].
  change (first_key _) with (Ordinary k). change (after _) with a.
  destruct (Floor_ok m _ (Ordinary k) Hok) as (it & -> & Hpt). cbn [mbind option_bind]. f_equal.
  pose proof (po_sorted _ (co_ps _ _ Hok)) as Hs. rewrite content_mid, fmap_app in Hpt, Hs. cbn [app] in Hpt, Hs. rewrite fmap_cons in Hpt, Hs. cbn [fst] in Hpt, Hs.
  assert (upper_bound (Ordinary k) ((content qs1).*1 ++ k :: (l ++ content qs2).*1) = S (length (content qs1))) as Hub.
  { destruct (bounds_present _ k Hs) as [_ ->]; [rewrite elem_of_app; right; by left|]. f_equal. unfold lower_bound.
    rewrite partition_point_mid; [by rewrite length_fmap| |rewrite search_lt_ordinary; apply key_lt_irrefl].
    apply Forall_forall. intros x Hx. apply search_lt_ordinary. apply StronglySorted_app in Hs as (Hs & _). apply Hs; [done|by left]. }
  rewrite Hub in Hpt. inversion Hpt as [|ps1 b l1 k' e' l2 ps2 Hps Hit Hlen|i Hit Hlen]; subst; cbn [current_page_].
  - apply app_eq_inv in Hps as [(qs & -> & Hps)|(qs & -> & Hps)]; (destruct qs as [|y qs]; [by injection Hps|]); exfalso; injection Hps as <- Hps;
      rewrite content_app, content_cons, !length_app in Hlen; cbn in Hlen; rewrite ?length_app in Hlen; cbn in Hlen; lia.
  - exfalso. rewrite content_mid, !length_app in Hlen. cbn in Hlen. lia.
Qed.

(** The request is executed again until it is finished, and no other request comes between. *)
Definition with_resume r (k : SearchKey K) : KickoutCcEntryCc K :=
  mkKickout (clean_type_ r) (start_key_ r) (end_key_ r) (bucket_ids_ r) (clean_ts_ r) (Some k).
Fixpoint kickout_rounds r (timeout : nat → list bool) (n : nat) m lru : option (Ccm K V * LruList) :=
  match n with
  | 0 => None
  | S n =>
      '(res, m', lru') ← Execute_Kickout record_ttl env r (timeout n) m lru;
      match res with
      | KickoutDone _ => Some (m', lru')
      | KickoutResume _ k => kickout_rounds (with_resume r k) timeout n m' lru'
      end
  end.

Lemma rounds_ok timeout n r m lru xs qs1 qs2 seen rest : unconditional r → length rest < n →
  ccm_ok m (qs1 ++ qs2) → lru_ok lru xs → in_lru true xs (qs1 ++ qs2) → cursor r qs1 qs2 seen rest → kickout_page r m = Some (after qs2) →
  ∃ m' lru' xs' ps' gone rest', kickout_rounds r timeout n m lru = Some (m', lru') ∧
    ccm_ok m' ps' ∧ lru_ok lru' xs' ∧ in_lru true xs' ps' ∧
    rest = gone ++ rest' ∧ content ps' = seen ++ spared r gone ++ rest' ∧
    (∀ e, e ∈ (content ps').*2 → cces m' !! e = cces m !! e) ∧
    (∀ x, x ∈ rest' → search_lt (Ordinary x.1) (end_of r) = false).
Proof.
  revert r m lru xs qs1 qs2 seen rest. induction n as [|n IH]; intros r m lru xs qs1 qs2 seen rest Hr Hn Hok Hlru Hin Hcur Hpage; [lia|]. cbn [kickout_rounds].
  destruct (round_ok r (timeout n) m lru xs qs1 qs2 seen rest Hr Hok Hlru Hin Hcur Hpage)
    as (res & m' & lru' & xs' & qs1' & qs2' & gone & rest' & -> & Hok' & Hlru' & Hin' & -> & Hcur' & Hcc & Hres). cbn [mbind option_bind].
  destruct res as [|k].
  - exists m', lru', xs', (qs1' ++ qs2'), gone, rest'. rewrite (cursor_content _ _ _ _ _ Hcur'), <- app_assoc. split_and!; try done.
    + by rewrite (cursor_content _ _ _ _ _ Hcur'), <- app_assoc in Hcc.
    + intros x Hx. eapply past_end; [apply (co_ps _ _ Hok')|done|]. destruct Hcur' as (lc & _ & -> & _). rewrite elem_of_app. by right.
  - destruct Hres as (Hg & -> & Hne).
    destruct (IH (with_resume r (first_key qs2')) m' lru' xs' qs1' qs2' (seen ++ spared r gone) rest') as (m2 & lru2 & xs2 & ps2 & gone2 & rest2 & Hrun & Hok2 & Hlru2 & Hin2 & -> & Hcont & Hcc2 & Hend);
      try done; [|by eapply kickout_page_resume|].
    + rewrite length_app in Hn. destruct gone; [done|]. cbn in Hn. lia.
    + exists m2, lru2, xs2, ps2, (gone ++ gone2), rest2. rewrite spared_app, <- !app_assoc. rewrite <- app_assoc in Hcont. split_and!; try done.
      intros e He. rewrite Hcc2 by done. apply Hcc. rewrite (cursor_content _ _ _ _ _ Hcur'). rewrite Hcont in He.
      rewrite app_assoc in He. by eapply spared_elem.
Qed.
End kickout.


(** ** What the cleaning does *)

(**  The cleaning of one page removes exactly the entries it marks: for the regular
    cleaning those that are free and not being checkpointed, for a request the targets
    that can be cleaned.  Whatever the neighbours look like, the call returns, every other
    entry stays as it was, the sorted content, the index, the page links and the LRU list
    stay in order, and the page to go on with exists. *)
Theorem page_cleaning_exact {K V} `{!KeyOrder K} (record_ttl : V → option Z) env (m : Ccm K V) lru xs req ps1 a l ps2 :
  ccm_ok m (ps1 ++ (a, l) :: ps2) → lru_ok lru xs → in_lru true xs (ps1 ++ (a, l) :: ps2) →
  ∃ freed success next m' lru' ps' xs',
    CleanPageAndReBalance record_ttl env m lru a req = Some (freed, success, Some next, m', lru') ∧
    ccm_ok m' ps' ∧ lru_ok lru' xs' ∧ in_lru true xs' ps' ∧
    content ps' = content ps1 ++ filter (λ x, mark record_ttl env m req x = false) l ++ content ps2 ∧
    freed + length (content ps') = length (content (ps1 ++ (a, l) :: ps2)) ∧
    (∀ e, e ∈ (content ps').*2 → cces m' !! e = cces m !! e) ∧
    (if decide (req = None) then next ∈ xs' ++ [tail_ccp_] else ∃ qs1 qs2, ps' = qs1 ++ qs2 ∧ next = after qs2).
Proof.
  intros Hok Hlru Hin. destruct (clean_page_ok record_ttl env m lru xs req ps1 a l ps2 Hok Hlru Hin) as (next & m' & lru' & ps' & xs' & Hclean & [Hok' Hcont Hlru' Hin' _ _ Hnl Hnp] & Hcc).
  eexists _, _, next, m', lru', ps', xs'. rewrite content_mid in Hcont. split_and!; try done.
  - rewrite Hcont, content_mid, !length_app. pose proof (stay_length record_ttl env m req l). lia.
  - intros e He. by apply Hcc.
  - destruct (decide (req = None)) as [->|Hr]; [by apply Hnl, bool_decide_eq_true|].
    destruct Hnp as (qs1 & qs2 & ? & ? & _); [by apply bool_decide_eq_false|]. by exists qs1, qs2.
Qed.


(** ** Examples *)

Definition plain_env : CleanEnv Z := mkEnv false false false 0 (λ k, k mod 4)%Z false.
Definition one_lru : LruList :=
  from_option (λ r, r.2) lru_init (FindEmplace no_ttl (Ccm_new (V := Z) false) lru_init true false false false false (Ordinary 7%Z) 10 100).

Lemma one_key_state : ∃ xs, ccm_ok one_key [(10, [(7, 100)])]%Z ∧ lru_ok one_lru xs ∧ in_lru true xs [(10, [(7, 100)])]%Z ∧ ∀ x, x ∈ xs → x = 10%Z.
Proof.
  destruct (emplace_empty no_ttl (Ccm_new false) lru_init [] 7%Z 10 100 true false false false false)
    as (it & e & m' & lru' & ps' & xs' & E & Hok & Hlru & Hin & Hsp & _ & Hfr).
  - apply Ccm_new_ok.
  - apply lru_init_ok.
  - reflexivity.
  - done.
  - by intros ?%elem_of_nil.
  - split_and!; [by intros ?%elem_of_nil|done..].
  - assert (∀ x, x ∈ xs' → x = 10%Z) as H10.
    { intros x Hx. destruct (decide (x = 10%Z)) as [|Hne]; [done|]. apply Hfr in Hx; [by apply elem_of_nil in Hx|by intros ?%elem_of_nil|done]. }
    assert (∀ a, a ∈ ps'.*1 → a = 10%Z) as Hp10 by (intros a Ha; apply H10; by apply Hin).
    assert (ps' = [(10, [(7, 100)])]%Z) as ->.
    { injection Hsp as _ _ _ Hc. destruct ps' as [|[a l] ps2]; [done|]. assert (a = 10%Z) as -> by (apply Hp10; by left).
      destruct ps2 as [|[b l2] ps2]; [rewrite content_cons, app_nil_r in Hc; by rewrite Hc|]. exfalso.
      destruct (heap_distinct _ _ (co_heap _ _ Hok)) as [Hd _]. apply NoDup_cons in Hd as [Hd _]. apply Hd. assert (b = 10%Z) as -> by (apply Hp10; right; by left). by left. }
    exists xs'. unfold one_key, one_lru. rewrite E. by split_and!.
Qed.

Lemma page_cleaning_exact_witness : ∃ freed success next m' lru' ps' xs',
  CleanPageAndReBalance no_ttl plain_env one_key one_lru 10 None = Some (freed, success, Some next, m', lru') ∧
  ccm_ok m' ps' ∧ lru_ok lru' xs' ∧ freed + length (content ps') = 1.
Proof.
  destruct one_key_state as (xs & Hok & Hlru & Hin & _).
  destruct (page_cleaning_exact no_ttl plain_env one_key one_lru xs None [] 10 [(7, 100)]%Z [] Hok Hlru Hin)
    as (freed & su & next & m' & lru' & ps' & xs' & H1 & H2 & H3 & _ & _ & H4 & _).
  exists freed, su, next, m', lru', ps', xs'. split_and!; assumption.
Defined.

Definition range_request (start end_ : Z) : KickoutCcEntryCc Z :=
  mkKickout CleanRangeData (Some (Ordinary start)) (Some (Ordinary end_)) [] 0 None.


(** A range is kicked out of three pages, and what is left fits in two. *)
Definition filled (n : nat) : option (Ccm Z Z * LruList) := insert_all (Z.of_nat <$> seq 1 n) (Ccm_new false) lru_init.
Definition kick (r : KickoutCcEntryCc Z) (timeout : list bool) (st : Ccm Z Z * LruList) := Execute_Kickout no_ttl plain_env r timeout st.1 st.2.

Example kickout_range :
  page_sizes ∘ fst <$> filled 130 = Some [(1, 1001, 64%nat); (65, 1065, 64%nat); (129, 1129, 2%nat)]%Z ∧
  (st ← filled 130; '(res, m, _) ← kick (range_request 50 129) [] st; Some (res, page_sizes m)) =
    Some (KickoutDone Z, [(1, 1001, 49%nat); (129, 1129, 2%nat)]%Z) ∧
  (st ← filled 130; kickout_rounds no_ttl plain_env (range_request 50 129) (λ _, [true; true; true]) 3 st.1 st.2) =
  (st ← filled 130; '(_, m, lru) ← kick (range_request 50 129) [] st; Some (m, lru)).
Proof. vm_compute. done. Qed.

(** A request over all keys is interrupted after two pages; before it goes on, the rest of
    the map, whose entries are flushed, is evicted.  No key at or below its resume key is left, so it goes on with the
    page of negative infinity, whose removal from [ccmp_] is undefined. *)
Definition everything : KickoutCcEntryCc Z := mkKickout CleanRangeData None None [] 0 None.
Definition flush_all (m : Ccm Z Z) : Ccm Z Z :=
  set_cces m ((λ _, SetCkptTs false (SetCommitTsPayloadStatus false false (@CcEntry_new Z) 42 Normal) 50) <$> cces m).
Example kickout_resume_evicted :
  (st ← filled 130; '(res, m, lru) ← kick everything [false; false; true] st;
   Some (res, page_sizes m)) = Some (KickoutResume Z (Ordinary 129%Z), [(129, 1129, 2%nat)]%Z) ∧
  (st ← filled 130; '(_, m, lru) ← kick everything [false; false; true] st;
   '(_, _, _, m1, lru1) ← CleanPageAndReBalance no_ttl plain_env (flush_all m) lru 1129 None;
   Some (page_sizes m1, kick (with_resume everything (Ordinary 129%Z)) [] (m1, lru1))) = Some ([], None).
Proof. vm_compute. done. Qed.

(** A request of [CleanForAlterTable] on a map of one small page finishes although the page
    has an entry that it asks for and cannot remove. *)
Definition locked_one : Ccm Z Z :=
  set_locks (set_cces one_key {[100%Z := SetCommitTsPayloadStatus false false (@CcEntry_new Z) 42 Normal]}) {[100%Z := 10%Z]}.
Example alter_table_unfinished :
  let r := mkKickout CleanForAlterTable None None [] 50 None in
  mark no_ttl plain_env locked_one (Some r) (7, 100)%Z = false ∧ target no_ttl plain_env locked_one (Some r) (7, 100)%Z = true ∧
  (λ x, (x.1.1, page_sizes x.1.2)) <$> kick r [] (locked_one, one_lru) = Some (KickoutDone Z, [(7, 10, 1%nat)]%Z).
Proof. vm_compute. done. Qed.

(** Removing a single entry leaves [size_] as it was. *)
Example clean_entry_size :
  (λ x, (page_sizes x.1, size_ x.1)) <$> CleanEntry one_key one_lru 100 10 = Some ([], 1%Z).
Proof. vm_compute. done. Qed.

(** Entries that expire move to a page that is marked as having none: the marks are not
    moved with them, and a request that purges deleted entries skips the page. *)
Definition expiring : option (Ccm Z Z * LruList) :=
  '(m, lru) ← filled 100;
  Some (set_heap m (alter (λ p, with_ttl p 5%Z) 1001%Z (heap m)), lru).
Example redistribute_ttl :
  (st ← expiring; Some (page_sizes st.1)) = Some [(1, 1001, 64%nat); (65, 1065, 36%nat)]%Z ∧
  (st ← expiring; '(_, m, _) ← RedistributeBetweenPages st.1 st.2 0 1;
   p ← heap m !! 1065%Z; Some (page_sizes m, smallest_ttl_ p)) = Some ([(1, 1001, 50%nat); (51, 1065, 50%nat)]%Z, UINT64_MAX).
Proof. vm_compute. done. Qed.
