(* ===== verification/ShardClean.v ===== *)
(** * Cleaning the cc maps of a shard

    When a shard is short of memory, [ShardCleanCc] walks its LRU list of pages and cleans
    them, a few pages per execution ([CcShard::Clean]); when a table is dropped, its map is
    emptied ([Clean], [CleanBatchPages]).  The pages of all data tables share the LRU list;
    [parent_map_] of a page is its map.  The theorems say that whichever pages are visited,
    every map stays in order, what is evicted is free, and an emptied map leaves nothing in
    the list.  Source: [src/cc/cc_shard.cpp], [include/cc/template_cc_map.h],
    [include/cc/cc_request.h]. *)

From S2P Require Import Prelude CcProtocol CcEntry LruList CcPages PagesRep PagesInsert PagesScan PagesClean PagesEvict.
From stdpp Require Import sorting.

(** ** Operations *)

(** The data tables are numbered.  *)
Record ShardPages (K V : Type) := mkShardPages {
  ccms : gmap Z (Ccm K V);
  shard_lru : LruList;
  parent_map_ : gmap Z Z;
}.
Arguments mkShardPages {_ _}.
Arguments ccms {_ _}.
Arguments shard_lru {_ _}.
Arguments parent_map_ {_ _}.

Definition freeBatchSize : nat := 10.

Section ops.
Context {K V : Type} `{!KeyOrder K}.
Context (record_ttl : V → option Z) (env : Z → CleanEnv K).
Implicit Types (s : ShardPages K V) (m : Ccm K V) (lru : LruList).

(** The loop of [Clean]: the page it stops at and the number of entries freed.  [timeout]
    says, for each page, whether the time is up. *)
Fixpoint clean_pages (timeout : list bool) (n clean_page_cnt free_cnt : nat) s (ccp : Z) : option (nat * Z * ShardPages K V) :=
  match n with
  | 0 => Some (free_cnt, ccp, s)
  | S n =>
      if decide (ccp = tail_ccp_) then Some (free_cnt, ccp, s)
      else
        c ← parent_map_ s !! ccp;
        m ← ccms s !! c;
        '(freed, _, next, m', lru') ← CleanPageAndReBalance record_ttl (env c) m (shard_lru s) ccp None;
        next ← next;
        let s' := mkShardPages (<[c := m']> (ccms s)) lru' (parent_map_ s) in
        let clean_page_cnt := if decide (0 < freed) then clean_page_cnt + 1 else clean_page_cnt in
        if decide (clean_page_cnt mod 4 = 0) then
          if default false (head timeout) then Some (free_cnt + freed, next, s')
          else clean_pages (tail timeout) n clean_page_cnt (free_cnt + freed) s' next
        else clean_pages timeout n clean_page_cnt (free_cnt + freed) s' next
  end.

(** The entries freed, and whether there are pages left to visit. *)
Definition CcShard_Clean (skip_kv : bool) (timeout : list bool) s : option (nat * bool * ShardPages K V) :=
  ccp ← match (if skip_kv then None else clean_start_ccp_ (shard_lru s)) with
        | Some c => Some c
        | None => lru_next_ (shard_lru s) !! head_ccp_
        end;
  '(free_cnt, ccp', s') ← clean_pages timeout freeBatchSize 0 0 s ccp;
  Some (free_cnt, bool_decide (ccp' ≠ tail_ccp_),
        mkShardPages (ccms s') (set_clean_start (shard_lru s') (Some ccp')) (parent_map_ s')).

(** What [ShardCleanCc] does besides cleaning: it comes again, wakes up requests that wait
    for memory or aborts them, and asks for a checkpoint.  [wait_list_empty] is the answer
    of [DequeueWaitListAfterMemoryFree], [full] and [full_after] whether the heap is full
    and worth cleaning before and after. *)
Inductive ShardCleanAction := CleanAgain | AbortWaiting (notify_ckpt : bool) | ResumeWaiting (finished : bool).

Definition ShardCleanCc_Execute (skip_kv : bool) (timeout : list bool) (full need_clean full_after is_waiting_ckpt defrag wait_list_empty : bool)
    (free_count : nat) s : option (ShardCleanAction * nat * ShardPages K V) :=
  if full then
    '(free_size, need_yield, s') ← (if need_clean then CcShard_Clean skip_kv timeout s else Some (0, false, s));
    let free_count := free_count + free_size in
    if full_after then
      if (need_yield : bool) then Some (CleanAgain, free_count, s')
      else Some (AbortWaiting (bool_decide (free_count = 0) && negb is_waiting_ckpt && negb defrag), 0, s')
    else Some (ResumeWaiting wait_list_empty, if wait_list_empty then 0 else free_count, s')
  else Some (ResumeWaiting wait_list_empty, free_count, s).

(** ** Emptying a map *)

Definition drop_page (versioned : bool) m lru (a : Z) : option (Ccm K V * LruList) :=
  p ← heap m !! a;
  lru' ← detach_if_linked lru a;
  es ← mapM (λ e, cces m !! e) (entries_ p);
  let normal := length (filter (λ e, PayloadStatus e = Normal) es) in
  Some (mkCcm (heap m) (ccmp_ m) (cces m) (foldl (λ lp e, delete e lp) (lock_page m) (entries_ p))
          (u64 (size_ m - Z.of_nat (page_size p)))
          (if versioned then normal_obj_sz_ m else u64 (normal_obj_sz_ m - Z.of_nat normal)) (ccm_has_full_entries_ m), lru').

(** The first page is erased from [ccmp_] with its entries. *)
Definition erase_first m : Ccm K V :=
  match ccmp_ m with
  | [] => m
  | (_, a) :: c =>
      mkCcm (CcPage_delete (heap m) a) c
        (foldl (λ cs e, delete e cs) (cces m) (from_option entries_ [] (heap m !! a))) (lock_page m)
        (size_ m) (normal_obj_sz_ m) (ccm_has_full_entries_ m)
  end.

Fixpoint CleanBatchPages (versioned : bool) (n : nat) m lru : option (bool * Ccm K V * LruList) :=
  match n, ccmp_ m with
  | _, [] => Some (true, m, lru)
  | 0, _ => Some (false, m, lru)
  | S n, (_, a) :: _ => '(m', lru') ← drop_page versioned m lru a; CleanBatchPages versioned n (erase_first m') lru'
  end.
End ops.

(** ** Cleaning under memory pressure *)

Section clean.
Context {K V : Type} `{!KeyOrder K}.
Context (record_ttl : V → option Z) (env : Z → CleanEnv K).
Implicit Types (s : ShardPages K V) (m : Ccm K V) (ps : list (Z * list (K * Z))) (pages : gmap Z (list (Z * list (K * Z)))).

(** [pages] are the pages of every table: together they are the LRU list. *)
Record shard_ok s pages (xs : list Z) : Prop := {
  so_map c m : ccms s !! c = Some m → ∃ ps, pages !! c = Some ps ∧ ccm_ok m ps;
  so_pages c ps : pages !! c = Some ps → is_Some (ccms s !! c);
  so_lru : lru_ok (shard_lru s) xs;
  so_in c ps a : pages !! c = Some ps → a ∈ ps.*1 → is_page a ∧ a ∈ xs ∧ parent_map_ s !! a = Some c;
  so_owner a : a ∈ xs → ∃ c ps, pages !! c = Some ps ∧ a ∈ ps.*1;
}.

Definition entries_left pages : nat := map_fold (λ _ ps n, length (content ps) + n) 0 pages.

Lemma entries_left_new pages c ps : pages !! c = None → entries_left (<[c := ps]> pages) = length (content ps) + entries_left pages.
Proof. intros Hc. unfold entries_left. rewrite map_fold_insert_L; [done| |done]. intros; lia. Qed.
Lemma entries_left_split pages c ps : pages !! c = Some ps → entries_left pages = length (content ps) + entries_left (delete c pages).
Proof. intros Hc. rewrite <- (entries_left_new (delete c pages) c) by apply lookup_delete_eq. by rewrite insert_delete_eq, insert_id. Qed.

(** What happened to a table: entries went that were free when the pass began, and the
    others are as they were. *)
Record evicted (c : Z) m m' ps ps' : Prop := {
  ev_sublist : sublist (content ps') (content ps);
  ev_free x : x ∈ content ps → x ∉ content ps' → ∃ e, cces m !! x.2 = Some e ∧ entry_free (env c) m x.2 e = true;
  ev_stay e : e ∈ (content ps').*2 → cces m' !! e = cces m !! e ∧ (lock_page m' !! e = None ↔ lock_page m !! e = None);
}.
Definition all_evicted s s' pages pages' : Prop := ∀ c m ps, ccms s !! c = Some m → pages !! c = Some ps →
  ∃ m' ps', ccms s' !! c = Some m' ∧ pages' !! c = Some ps' ∧ evicted c m m' ps ps'.

Lemma evicted_refl c m ps : evicted c m m ps ps.
Proof. split; [done|by intros|done]. Qed.
Lemma evicted_trans c m1 m2 m3 ps1 ps2 ps3 : evicted c m1 m2 ps1 ps2 → evicted c m2 m3 ps2 ps3 → evicted c m1 m3 ps1 ps3.
Proof.
  intros [S1 F1 T1] [S2 F2 T2].
  assert (∀ e, e ∈ (content ps3).*2 → e ∈ (content ps2).*2) as Hsub.
  { intros e He. eapply elem_of_submseteq; [exact He|]. apply sublist_submseteq. by apply sublist_fmap. }
  split; [by etrans| |].
  - intros x Hx Hn. destruct (decide (x ∈ content ps2)) as [H2|H2]; [|by apply F1].
    destruct (F2 x H2 Hn) as (e & He & Hf). destruct (T1 x.2) as [E1 E2]; [by apply list_elem_of_fmap_2|]. rewrite E1 in He. exists e. split; [done|].
    unfold entry_free in *. replace (bool_decide (lock_page m1 !! x.2 = None)) with (bool_decide (lock_page m2 !! x.2 = None)); [done|]. by apply bool_decide_ext.
  - intros e He. destruct (T2 e He) as [-> Hl]. destruct (T1 e (Hsub e He)) as [-> Hl1]. split; [done|]. by rewrite Hl.
Qed.

Lemma evicted_page c m req ps1 a l ps2 m' ps' : req = None → ccm_ok m (ps1 ++ (a, l) :: ps2) →
  content ps' = content ps1 ++ stay record_ttl (env c) m req l ++ content ps2 →
  (∀ e, e ∈ (content ps').*2 → cces m' !! e = cces m !! e ∧ (lock_page m' !! e = None ↔ lock_page m !! e = None)) →
  evicted c m m' (ps1 ++ (a, l) :: ps2) ps'.
Proof.
  intros -> Hok Hc Hst. split; [| |done].
  - rewrite Hc, <- (content_mid ps1 a). apply content_stay.
  - intros x Hx Hn. rewrite Hc in Hn. rewrite content_mid in Hx. rewrite !elem_of_app in Hx, Hn.
    assert (x ∈ l ∧ mark record_ttl (env c) m None x ≠ false) as [Hl Hm].
    { destruct Hx as [?|[?|?]]; try tauto. split; [done|]. intros E. apply Hn. right. left. by apply list_elem_of_filter. }
    unfold mark in Hm. destruct (cces m !! x.2) as [e|] eqn:He; [|done]. exists e. split; [done|]. cbn in Hm. by apply not_false_is_true.
Qed.

(** One page. *)
Lemma clean_step s pages xs ccp : shard_ok s pages xs → ccp ∈ xs →
  ∃ c m freed su next m' lru' pages' xs', parent_map_ s !! ccp = Some c ∧ ccms s !! c = Some m ∧
    CleanPageAndReBalance record_ttl (env c) m (shard_lru s) ccp None = Some (freed, su, Some next, m', lru') ∧
    let s' := mkShardPages (<[c := m']> (ccms s)) lru' (parent_map_ s) in
    shard_ok s' pages' xs' ∧ next ∈ xs' ++ [tail_ccp_] ∧ all_evicted s s' pages pages' ∧
    freed + entries_left pages' = entries_left pages.
Proof.
  intros [Hm Hp Hl Hin Hown] Hx. destruct (Hown ccp Hx) as (c & ps & Hps & Ha). destruct (Hin c ps ccp Hps Ha) as (_ & _ & Hpar).
  destruct (Hp c ps Hps) as [m Hcm]. destruct (Hm c m Hcm) as (ps0 & Hps0 & Hok). rewrite Hps in Hps0. injection Hps0 as <-.
  apply list_elem_of_fmap in Ha as ([a l] & -> & (ps1 & ps2 & ->)%list_elem_of_split). cbn [fst] in *.
  destruct (clean_page_ok record_ttl (env c) m (shard_lru s) xs None ps1 a l ps2 Hok Hl) as (next & m' & lru' & ps' & xs' & Hclean & [Hok' Hcont Hlru' Hin' Hsub Hfr Hnl _] & Hst).
  { intros b Hb. destruct (Hin c _ b Hps Hb) as (? & ? & _). split; [done|]. tauto. }
  rewrite content_mid in Hcont.
  assert ((ps1 ++ (a, stay record_ttl (env c) m None l) :: ps2).*1 = (ps1 ++ (a, l) :: ps2).*1) as HE by by rewrite !fmap_app.
  setoid_rewrite HE in Hsub. setoid_rewrite HE in Hfr. clear HE.
  exists c, m. eexists _, _, next, m', lru', (<[c := ps']> pages), xs'. split_and!; [done|done|exact Hclean| | | |].
  - split; cbn [ccms shard_lru parent_map_].
    + intros c' mc Hc'. destruct (decide (c = c')) as [<-|Hne]; [|rewrite lookup_insert_ne in Hc' by done; destruct (Hm _ _ Hc') as (psc & ? & ?); exists psc; by rewrite lookup_insert_ne].
      rewrite lookup_insert_eq in Hc'. injection Hc' as <-. exists ps'. by rewrite lookup_insert_eq.
    + intros c' psc Hc'. destruct (decide (c = c')) as [<-|Hne]; [by rewrite lookup_insert_eq; eexists|].
      rewrite lookup_insert_ne in Hc' by done. rewrite lookup_insert_ne by done. by eapply Hp.
    + done.
    + intros c' psc b Hc' Hb. destruct (decide (c = c')) as [<-|Hne].
      * rewrite lookup_insert_eq in Hc'. injection Hc' as <-. destruct (Hin c _ b Hps (Hsub b Hb)) as (? & ? & ?). split_and!; [done| |done]. by apply Hfr.
      * rewrite lookup_insert_ne in Hc' by done. destruct (Hin c' psc b Hc' Hb) as (? & ? & Hpb). split_and!; [done| |done]. apply Hfr. split; [done|].
        intros Hbc. destruct (Hin c _ b Hps Hbc) as (_ & _ & Hpb'). congruence.
    + intros b [Hb Hbc]%Hfr. destruct (Hown b Hb) as (c' & psc & Hc' & Hbp). destruct (decide (c = c')) as [<-|Hne].
      * rewrite Hps in Hc'. injection Hc' as <-. exists c, ps'. rewrite lookup_insert_eq. split; [done|]. by apply Hbc.
      * exists c', psc. by rewrite lookup_insert_ne.
  - by apply Hnl.
  - intros c' mc psc Hc' Hpc'. cbn [ccms]. destruct (decide (c = c')) as [<-|Hne].
    + exists m', ps'. rewrite !lookup_insert_eq. split_and!; [done..|]. rewrite Hps in Hpc'. injection Hpc' as <-. rewrite Hcm in Hc'. injection Hc' as <-.
      by eapply evicted_page.
    + exists mc, psc. rewrite !lookup_insert_ne by done. split_and!; [done..|]. apply evicted_refl.
  - rewrite (entries_left_split pages c _ Hps), <- insert_delete_eq, entries_left_new by apply lookup_delete_eq.
    rewrite Hcont, content_mid, !length_app. pose proof (stay_length record_ttl (env c) m None l). lia.
Qed.

Lemma all_evicted_refl s pages : all_evicted s s pages pages.
Proof. intros c m ps ??. exists m, ps. split_and!; [done..|apply evicted_refl]. Qed.
Lemma all_evicted_trans s1 s2 s3 p1 p2 p3 : all_evicted s1 s2 p1 p2 → all_evicted s2 s3 p2 p3 → all_evicted s1 s3 p1 p3.
Proof.
  intros H1 H2 c m ps Hm Hps. destruct (H1 c m ps Hm Hps) as (m2 & ps2 & Hm2 & Hps2 & E1).
  destruct (H2 c m2 ps2 Hm2 Hps2) as (m3 & ps3 & Hm3 & Hps3 & E2). exists m3, ps3. split_and!; [done..|]. by eapply evicted_trans.
Qed.

Lemma clean_pages_ok n : ∀ timeout cnt free s pages xs ccp, shard_ok s pages xs → ccp ∈ xs ++ [tail_ccp_] →
  ∃ freed ccp' s' pages' xs', clean_pages record_ttl env timeout n cnt free s ccp = Some (free + freed, ccp', s') ∧
    shard_ok s' pages' xs' ∧ ccp' ∈ xs' ++ [tail_ccp_] ∧ all_evicted s s' pages pages' ∧ freed + entries_left pages' = entries_left pages.
Proof.
  induction n as [|n IH]; intros timeout cnt free s pages xs ccp Hok Hin; cbn [clean_pages].
  { exists 0, ccp, s, pages, xs. rewrite Nat.add_0_r. split_and!; try done. apply all_evicted_refl. }
  destruct (decide (ccp = tail_ccp_)) as [Et|Hne].
  { exists 0, ccp, s, pages, xs. rewrite Nat.add_0_r. split_and!; try done. apply all_evicted_refl. }
  assert (ccp ∈ xs) as Hx. { apply elem_of_app in Hin as [?|?%list_elem_of_singleton]; done. }
  destruct (clean_step s pages xs ccp Hok Hx) as (c & m & freed & su & next & m' & lru' & pages' & xs' & -> & Hc & Hclean & Hok' & Hnext & Hev & Hcnt).
  cbn [mbind option_bind]. rewrite Hc. cbn [mbind option_bind]. rewrite Hclean. cbn [mbind option_bind].
  set (s' := mkShardPages _ _ _) in *. set (cnt' := if decide (0 < freed) then cnt + 1 else cnt).
  assert (∀ timeout, ∃ freed2 ccp' s2 pages2 xs2, clean_pages record_ttl env timeout n cnt' (free + freed) s' next = Some (free + freed2, ccp', s2) ∧
    shard_ok s2 pages2 xs2 ∧ ccp' ∈ xs2 ++ [tail_ccp_] ∧ all_evicted s s2 pages pages2 ∧ freed2 + entries_left pages2 = entries_left pages) as Hgo.
  { intros timeout'. destruct (IH timeout' cnt' (free + freed) s' pages' xs' next Hok' Hnext) as (f2 & ccp' & s2 & pages2 & xs2 & Hrun & Hok2 & Hin2 & Hev2 & Hcnt2).
    exists (freed + f2), ccp', s2, pages2, xs2. rewrite Nat.add_assoc. split_and!; [done..|by eapply all_evicted_trans|lia]. }
  case_decide; [destruct (default false (head timeout)); [|apply Hgo]|apply Hgo].
  by exists freed, next, s', pages', xs'.
Qed.
End clean.

(** C24: One execution of [CcShard::Clean] keeps every cc map of the shard in order, whichever
    pages it gets to: it returns, the pages of the maps are again the LRU list, the entries
    that went were free and not being checkpointed when it began (no lock, newest version
    flushed), as many as it says, every other entry is as it was, and the next execution
    goes on with a page of the list, or has visited all of them. *)
Theorem Clean_evicts_free {K V} `{!KeyOrder K} (record_ttl : V → option Z) env skip_kv timeout (s : ShardPages K V) pages xs :
  shard_ok s pages xs →
  ∃ freed yield s' pages' xs' ccp, CcShard_Clean record_ttl env skip_kv timeout s = Some (freed, yield, s') ∧
    shard_ok s' pages' xs' ∧ all_evicted env s s' pages pages' ∧ freed + entries_left pages' = entries_left pages ∧
    clean_start_ccp_ (shard_lru s') = Some ccp ∧ ccp ∈ xs' ++ [tail_ccp_] ∧ (yield = false ↔ ccp = tail_ccp_).
Proof.
  intros Hok. pose proof (so_lru _ _ _ Hok) as Hlru.
  assert (∃ ccp, match (if skip_kv then None else clean_start_ccp_ (shard_lru s)) with Some c => Some c | None => lru_next_ (shard_lru s) !! head_ccp_ end
    = Some ccp ∧ ccp ∈ xs ++ [tail_ccp_]) as (ccp & Hccp & Hin).
  { assert (∃ ccp, lru_next_ (shard_lru s) !! head_ccp_ = Some ccp ∧ ccp ∈ xs ++ [tail_ccp_]) as Hfirst.
    { pose proof (lo_linked _ _ Hlru) as Hl. destruct xs as [|x xs].
      - exists tail_ccp_. split; [|by left]. by apply (linked_next _ _ [] _ _ []) in Hl as [Hl _].
      - exists x. split; [|by left]. by apply (linked_next _ _ [] _ _ (xs ++ [tail_ccp_])) in Hl as [Hl _]. }
    destruct skip_kv; [done|]. destruct (clean_start_ccp_ (shard_lru s)) as [c|] eqn:E; [|done]. exists c. split; [done|]. by apply (lo_clean _ _ Hlru). }
  unfold CcShard_Clean. generalize freeBatchSize. intros n. rewrite Hccp. cbn [mbind option_bind].
  destruct (clean_pages_ok record_ttl env n timeout 0 0 s pages xs ccp Hok Hin) as (freed & ccp' & s' & pages' & xs' & -> & Hok' & Hin' & Hev & Hcnt).
  cbn [mbind option_bind]. eexists _, _, _, pages', xs', ccp'. split; [done|]. split_and!; try done.
  - destruct Hok' as [? ? [L1 L2 L3 L4] ? ?]. split; try done. split; try done. cbn. by intros ? [= <-].
  - rewrite bool_decide_eq_false. split; [|tauto]. intros H. destruct (decide (ccp' = tail_ccp_)); tauto.
Qed.

(** ** Dropping a map *)

Section drop.
Context {K V : Type} `{!KeyOrder K}.
Implicit Types (m : Ccm K V) (ps : list (Z * list (K * Z))) (lru : LruList) (xs : list Z).

Lemma mapM_total {A B} (f : A → option B) (L : list A) : (∀ x, x ∈ L → is_Some (f x)) → is_Some (mapM f L).
Proof. intros H. apply mapM_is_Some. by apply Forall_forall. Qed.

Lemma drop_first versioned is_data m lru xs a l ps : ccm_ok m ((a, l) :: ps) → lru_ok lru xs → in_lru is_data xs ((a, l) :: ps) →
  ∃ m' lru', drop_page versioned m lru a = Some (m', lru') ∧ ccm_ok (erase_first m') ps ∧ lru_ok lru' (without a xs) ∧ in_lru is_data (without a xs) ps ∧
    head (ccmp_ m).*2 = Some a.
Proof.
  intros Hok Hlru Hin. pose proof (co_heap _ _ Hok) as Hh. destruct (heap_page _ [] _ _ _ Hh) as (p & Hp & Hk & He).
  destruct (Hin a) as [Hpa _]; [by left|]. destruct (detach_ok lru xs a Hlru Hpa) as (lru' & Hdet & Hlru' & _).
  destruct (heap_distinct _ _ Hh) as [Hd _]. apply NoDup_cons in Hd as [Hd _].
  unfold drop_page. rewrite Hp. cbn [mbind option_bind]. rewrite Hdet. cbn [mbind option_bind].
  destruct (mapM_total (λ e, cces m !! e) (entries_ p)) as [es ->].
  { rewrite He. intros e Hin'. apply (co_cces _ _ Hok). rewrite content_cons, fmap_app, elem_of_app. by left. }
  cbn [mbind option_bind]. eexists _, lru'. split; [done|].
  destruct (ccmp_ m) as [|[k0 a0] c] eqn:Ec; [pose proof (co_index _ _ Hok) as Hi; rewrite Ec in Hi; by inversion Hi|].
  pose proof (co_index _ _ Hok) as Hi. rewrite Ec in Hi. inversion Hi as [|? ? ? ? [E0 _] Hi']; subst. cbn in E0. subst a0.
  split_and!; [|done| |done].
  - unfold erase_first. cbn [ccmp_ heap cces lock_page size_]. rewrite Hp. cbn [from_option].
    destruct Hok as [[Hl Hs Hnd] _ _ Hlo Hce Hz]. rewrite content_cons in Hs, Hnd, Hce, Hz.
    split; cbn [heap ccmp_ cces lock_page size_].
    + split.
      * intros b lb Hb. apply (Hl b). by right.
      * rewrite fmap_app in Hs. by apply StronglySorted_app_1_r in Hs.
      * rewrite fmap_app in Hnd. by apply NoDup_app in Hnd as (_ & _ & ?).
    + by apply (heap_delete _ [] a l ps).
    + done.
    + intros b lb e pg Hb Heb. rewrite foldl_delete_lookup. case_decide; [done|]. apply (Hlo b lb e pg); [by right|done].
    + intros e Hc. rewrite foldl_delete_lookup, decide_False; [apply Hce; rewrite fmap_app, elem_of_app; by right|].
      rewrite He. intros Hc'. rewrite fmap_app in Hnd. apply NoDup_app in Hnd as (_ & Hnd & _). by apply (Hnd e).
    + rewrite Hz, u64_sub, length_app. f_equal. unfold page_size. rewrite Hk, length_fmap. lia.
  - intros b Hb. destruct (Hin b) as [? Hbx]; [by right|]. split; [done|]. rewrite elem_of_without, <- Hbx.
    assert (b ≠ a) by (by intros ->). tauto.
Qed.

Lemma emptied m : ccm_ok m [] → size_ m = 0%Z ∧ ccmp_ m = [].
Proof. intros Hok. split; [by rewrite (co_size _ _ Hok)|]. pose proof (co_index _ _ Hok) as Hi. by inversion Hi. Qed.
Lemma filter_not_in_nil (L : list Z) : filter (λ x, x ∉ @nil Z) L = L.
Proof. induction L as [|x L IH]; [done|]. rewrite filter_cons_True by (by intros ?%elem_of_nil). by f_equal. Qed.
End drop.

(** A dropped map is emptied batch by batch: a call erases the first [n] pages with their
    entries and locks and takes them out of the LRU list; the map stays in order, so that
    requests may still come between the calls; the answer says whether it is empty, and then
    its size is 0, as the source asserts. *)
Theorem CleanBatchPages_empties {K V} `{!KeyOrder K} versioned is_data n (m : Ccm K V) lru xs ps :
  ccm_ok m ps → lru_ok lru xs → in_lru is_data xs ps →
  ∃ m' lru', CleanBatchPages versioned n m lru = Some (bool_decide (length ps ≤ n), m', lru') ∧ ccm_ok m' (drop n ps) ∧
    lru_ok lru' (filter (λ x, x ∉ (take n ps).*1) xs) ∧ (length ps ≤ n → size_ m' = 0%Z ∧ ccmp_ m' = []).
Proof.
  revert m lru xs ps. induction n as [|n IH]; intros m lru xs ps Hok Hlru Hin; pose proof (co_index _ _ Hok) as Hi; destruct ps as [|[a l] ps].
  - destruct (emptied _ Hok) as [E1 E2]. cbn. rewrite E2, filter_not_in_nil. by exists m, lru.
  - inversion Hi as [|x y c ps' ? ? E]; subst. cbn [CleanBatchPages]. rewrite <- E. exists m, lru. cbn [take drop fmap list_fmap length].
    rewrite filter_not_in_nil. split_and!; try done. lia.
  - destruct (emptied _ Hok) as [E1 E2]. cbn. rewrite E2, filter_not_in_nil. by exists m, lru.
  - destruct (drop_first versioned is_data m lru xs a l ps Hok Hlru Hin) as (m1 & lru1 & Hdrop & Hok1 & Hlru1 & Hin1 & Hhd).
    destruct (ccmp_ m) as [|[k0 a0] c] eqn:Ec; [done|]. injection Hhd as ->. cbn [CleanBatchPages]. rewrite Ec, Hdrop. cbn [mbind option_bind].
    destruct (IH (erase_first m1) lru1 (without a xs) ps Hok1 Hlru1 Hin1) as (m' & lru' & Hrun & Hok' & Hlru' & Hz).
    exists m', lru'. rewrite Hrun. cbn [length drop take fmap list_fmap]. split_and!; try done.
    + do 3 f_equal. apply bool_decide_ext. lia.
    + replace (filter (λ x, x ∉ a :: (take n ps).*1) xs) with (filter (λ x, x ∉ (take n ps).*1) (without a xs)); [done|].
      unfold without. rewrite list_filter_filter. apply list_filter_iff. intros x. rewrite not_elem_of_cons. tauto.
    + intros Hle. apply Hz. lia.
Qed.

(** A shard with one table of one key. *)
Definition one_shard : ShardPages Z Z := mkShardPages {[1%Z := one_key]} one_lru {[10%Z := 1%Z]}.

Lemma one_shard_ok : ∃ xs, shard_ok one_shard {[1 := [(10, [(7, 100)])]]}%Z xs.
Proof.
  destruct one_key_state as (xs & Hok & Hlru & Hin & H10). exists xs. split; cbn [one_shard ccms shard_lru parent_map_].
  - intros c m [<- <-]%lookup_singleton_Some. eexists. by rewrite lookup_singleton_eq.
  - intros c ps [<- <-]%lookup_singleton_Some. rewrite lookup_singleton_eq. by eexists.
  - done.
  - intros c ps a [<- <-]%lookup_singleton_Some Ha. destruct (Hin a Ha) as [? Hx]. split_and!; [done|by apply Hx|].
    apply list_elem_of_singleton in Ha as ->. by rewrite lookup_singleton_eq.
  - intros a ->%H10. exists 1%Z. eexists. rewrite lookup_singleton_eq. split; [done|]. by left.
Qed.

Lemma Clean_evicts_free_witness : ∃ freed yield s' pages',
  CcShard_Clean no_ttl (λ _, plain_env) false [] one_shard = Some (freed, yield, s') ∧ freed + entries_left (K := Z) pages' = 1.
Proof.
  destruct one_shard_ok as [xs Hok].
  destruct (Clean_evicts_free no_ttl (λ _, plain_env) false [] one_shard _ xs Hok) as (freed & yield & s' & pages' & xs' & ccp & H1 & _ & _ & H2 & _).
  exists freed, yield, s', pages'. split; [exact H1|]. rewrite H2. reflexivity.
Defined.

Lemma CleanBatchPages_empties_witness : ∃ m' lru', CleanBatchPages false 32 one_key one_lru = Some (true, m', lru') ∧ ccmp_ m' = [] ∧ size_ m' = 0%Z.
Proof.
  destruct one_key_state as (xs & Hok & Hlru & Hin & _).
  destruct (CleanBatchPages_empties false true 32 one_key one_lru xs [(10, [(7, 100)])]%Z Hok Hlru Hin) as (m' & lru' & H1 & _ & _ & H2).
  destruct H2 as [Hz Hc]; [cbn; lia|]. exists m', lru'. split_and!; assumption.
Defined.
