(* ===== verification/RandomPairing.v ===== *)
(** * Sampling keys ([RandomPairing], [include/random_pairing.h])

    A sample of bounded size of a set of keys that grows and shrinks: reservoir sampling, in
    which the deletions are counted and made good by later insertions.  The statistics of a
    table and the choice of split keys of a range use it.  The sample is kept sorted.

    A random number is an argument, any integer, taken into the interval that the source asks
    for; so the theorems hold whatever the generator returns.  [None] is a failed assertion or an
    access out of range. *)

From stdpp Require Import sorting.
From S2P Require Import Prelude CcProtocol CcEntry LruList CcPages PagesRep.

(** [std::uniform_int_distribution(0, bound)]. *)
Definition random_dis (bound r : Z) : Z := r mod (bound + 1).

Record RandomPairing (K : Type) := mkRandomPairing {
  c1_ : Z;
  c2_ : Z;
  sample_pool_ : list K;
  capacity_ : Z;
}.
Arguments mkRandomPairing {_}.
Arguments c1_ {_}.
Arguments c2_ {_}.
Arguments sample_pool_ {_}.
Arguments capacity_ {_}.

Section sampling.
Context {K : Type} `{!KeyOrder K}.
Implicit Types (p : RandomPairing K) (l : list K) (key : K).

Definition RandomPairing_new (capacity : Z) : RandomPairing K := mkRandomPairing 0 0 [] capacity.
Definition set_pool p l : RandomPairing K := mkRandomPairing (c1_ p) (c2_ p) l (capacity_ p).
Definition set_counters p (c1 c2 : Z) : RandomPairing K := mkRandomPairing c1 c2 (sample_pool_ p) (capacity_ p).

Definition pool_size p : Z := Z.of_nat (length (sample_pool_ p)).

(** The private [Insert(key)]. *)
Definition insert_key p key : option (RandomPairing K) :=
  if decide (pool_size p < capacity_ p)%Z then
    let i := lower_bound (Ordinary key) (sample_pool_ p) in
    let l := match sample_pool_ p !! i with
             | Some x => if decide (key <k x) then insert_at i key (sample_pool_ p) else sample_pool_ p
             | None => sample_pool_ p ++ [key]
             end in
    if decide (Z.of_nat (length l) ≤ capacity_ p)%Z then Some (set_pool p l) else None
  else None.

(** The two loops of [Replace] that bring the new key to its place. *)
Fixpoint sift_right (fuel i : nat) l : list K :=
  match fuel with
  | 0 => l
  | S fuel =>
      match l !! i, l !! S i with
      | Some x, Some y => if decide (y <k x) then sift_right fuel (S i) (<[i := y]> (<[S i := x]> l)) else l
      | _, _ => l
      end
  end.
Fixpoint sift_left (i : nat) l : list K :=
  match i with
  | 0 => l
  | S j =>
      match l !! i, l !! j with
      | Some x, Some y => if decide (x <k y) then sift_left j (<[i := y]> (<[j := x]> l)) else l
      | _, _ => l
      end
  end.

Definition Replace p (random : nat) key : option (RandomPairing K) :=
  let l := sample_pool_ p in
  if decide (l !! lower_bound (Ordinary key) l = Some key) then Some p
  else if decide (random < length l) then
    Some (set_pool p (sift_left random (sift_right (length l) random (<[random := key]> l))))
  else None.

Definition Insert p key (dataset r : Z) : option (RandomPairing K) :=
  if decide (u32 (c1_ p + c2_ p) ≤ 0)%Z then
    if decide (u32 (pool_size p) < capacity_ p)%Z then insert_key p key
    else
      let random := random_dis (u64 (dataset - 1)) r in
      if decide (random < capacity_ p)%Z then Replace p (Z.to_nat random) key else Some p
  else
    let random := random_dis (u32 (c1_ p + c2_ p - 1)) r in
    if decide (random < c1_ p)%Z then
      if decide (pool_size p < capacity_ p ∧ 0 < c1_ p)%Z then insert_key (set_counters p (c1_ p - 1) (c2_ p)) key else None
    else if decide (0 < c2_ p)%Z then Some (set_counters p (c1_ p) (c2_ p - 1)) else None.

Definition Delete p key (dataset r : Z) : option (RandomPairing K) :=
  let l := sample_pool_ p in
  let i := lower_bound (Ordinary key) l in
  if decide (l !! i = Some key) then
    let p' := set_pool (set_counters p (u32 (c1_ p + 1)) (c2_ p)) (remove_at i l) in
    if decide (pool_size p' < capacity_ p)%Z then Some p' else None
  else if decide (l = []) then Some p
  else if decide (pool_size p ≤ dataset)%Z then Some (set_counters p (c1_ p) (u32 (c2_ p + 1)))
  else
    let random := Z.to_nat (random_dis dataset r) in
    if decide (random < length l) then Some (set_pool p (remove_at random l)) else None.

Definition ClearCounter p : RandomPairing K := set_counters p 0 0.
Definition Clear p : RandomPairing K := set_pool (ClearCounter p) [].

(** The constructor that samples from a list of keys. *)
Fixpoint insert_all p (keys : list K) (i : nat) (rs : nat → Z) : option (RandomPairing K) :=
  match keys with
  | [] => Some p
  | key :: keys => p' ← Insert p key (Z.of_nat i + 1) (rs i); insert_all p' keys (S i) rs
  end.
Definition RandomPairing_from (keys : list K) (capacity : Z) (rs : nat → Z) : option (RandomPairing K) :=
  insert_all (RandomPairing_new capacity) keys 0 rs.

(** ** The sample *)

Definition sorted_keys l : Prop := StronglySorted key_lt l.

Record rp_ok p : Prop := {
  rp_sorted : sorted_keys (sample_pool_ p);
  rp_size : (pool_size p + c1_ p ≤ capacity_ p < 2 ^ 32)%Z;
  rp_c1 : (0 ≤ c1_ p)%Z;
  rp_c2 : (0 ≤ c2_ p)%Z;
}.

(** Where the key is, or belongs. *)
Lemma lower_bound_split l key : sorted_keys l → ∃ l1 l2, l = l1 ++ l2 ∧ lower_bound (Ordinary key) l = length l1 ∧
  (∀ x, x ∈ l1 → x <k key) ∧ (∀ x, x ∈ l2 → x = key ∨ key <k x) ∧ ((key ∈ l ∧ head l2 = Some key) ∨ (key ∉ l ∧ ∀ x, x ∈ l2 → key <k x)).
Proof.
  intros Hs. destruct (partition_point_spec (λ x, search_lt (Ordinary x) (Ordinary key) = true) l) as (l1 & l2 & -> & HL & H1 & H2).
  exists l1, l2. rewrite Forall_forall in H1. setoid_rewrite search_lt_ordinary in H1. setoid_rewrite search_lt_ordinary in H2.
  apply StronglySorted_app in Hs as (_ & _ & Hs2). split_and!; [done|unfold lower_bound; by rewrite <- HL|done|..].
  - intros x Hx. destruct l2 as [|y l2]; [by apply not_elem_of_nil in Hx|]. destruct (key_not_lt y key (H2 y eq_refl)) as [->|Hy].
    + destruct (head_sorted _ _ _ x Hs2 eq_refl Hx); [by left|by right].
    + right. destruct (head_sorted _ _ _ x Hs2 eq_refl Hx) as [->|]; [done|]. by eapply key_lt_trans.
  - destruct l2 as [|y l2].
    + right. rewrite app_nil_r. split; [intros Hk; by apply (key_lt_irrefl key), H1|by intros x ?%not_elem_of_nil].
    + destruct (key_not_lt y key (H2 y eq_refl)) as [->|Hy]; [left; split; [set_solver|done]|right].
      assert (∀ x, x ∈ y :: l2 → key <k x) as Hall.
      { intros x Hx. destruct (head_sorted _ _ _ x Hs2 eq_refl Hx) as [->|]; [done|]. by eapply key_lt_trans. }
      split; [|done]. intros [Hk|Hk]%elem_of_app; [by apply (key_lt_irrefl key), H1|by apply (key_lt_irrefl key), Hall].
Qed.

Lemma lookup_lower_bound l key : sorted_keys l → l !! lower_bound (Ordinary key) l = Some key ↔ key ∈ l.
Proof.
  intros Hs. split; [apply list_elem_of_lookup_2|]. intros Hin.
  destruct (lower_bound_split l key Hs) as (l1 & l2 & -> & -> & _ & _ & [[_ Hh]|[Hn _]]); [|done]. destruct l2 as [|x l2]; [done|].
  injection Hh as ->. by apply list_lookup_middle.
Qed.

Lemma insert_key_ok p key : sorted_keys (sample_pool_ p) → (pool_size p < capacity_ p)%Z → ∃ l,
  insert_key p key = Some (set_pool p l) ∧ sorted_keys l ∧ (∀ x, x ∈ l ↔ x = key ∨ x ∈ sample_pool_ p) ∧
  length l = length (sample_pool_ p) + (if decide (key ∈ sample_pool_ p) then 0 else 1).
Proof.
  intros Hs Hc. unfold insert_key. rewrite decide_True by done. unfold pool_size in Hc. set (l0 := sample_pool_ p) in *.
  enough (∃ l, match l0 !! lower_bound (Ordinary key) l0 with Some x => if decide (key <k x) then insert_at (lower_bound (Ordinary key) l0) key l0 else l0 | None => l0 ++ [key] end = l ∧
    sorted_keys l ∧ (∀ x, x ∈ l ↔ x = key ∨ x ∈ l0) ∧ length l = length l0 + (if decide (key ∈ l0) then 0 else 1)) as (l & E & H1 & H2 & H3).
  { exists l. rewrite E. split_and!; [|done..]. rewrite decide_True; [done|]. rewrite H3. case_decide; lia. }
  destruct (lower_bound_split l0 key Hs) as (l1 & l2 & E & -> & Hl1 & _ & [[Hin Hh]|[Hn Hl2]]).
  - destruct l2 as [|x l2]; [done|]. injection Hh as ->. exists l0. rewrite E at 1. rewrite list_lookup_middle by done.
    rewrite decide_False by apply key_lt_irrefl. rewrite decide_True by done. split_and!; [done..|set_solver|lia].
  - exists (l1 ++ key :: l2). split_and!.
    + rewrite E. destruct l2 as [|x l2]; [rewrite app_nil_r, lookup_ge_None_2 by done; done|].
      rewrite list_lookup_middle by done. rewrite decide_True by (apply Hl2; by left). apply insert_at_app.
    + apply sorted_insert; [by rewrite <- E|done|done].
    + intros x. rewrite E. set_solver.
    + rewrite decide_False, E by done. rewrite !length_app. cbn. lia.
Qed.

(** *** Replacing a key of the sample *)

Lemma sift_right_spec key l2 : ∀ l1 fuel, length l2 < fuel → ∃ a b, l2 = a ++ b ∧ (∀ x, x ∈ a → x <k key) ∧ (∀ x, head b = Some x → ¬ x <k key) ∧
  sift_right fuel (length l1) (l1 ++ key :: l2) = l1 ++ a ++ key :: b.
Proof.
  induction l2 as [|y l2 IH]; intros l1 [|fuel] Hf; cbn [length] in Hf; [lia| |lia|]; cbn [sift_right]; rewrite list_lookup_middle by done.
  - rewrite lookup_ge_None_2 by (rewrite length_app; cbn; lia). exists [], []. split_and!; [done|by intros x ?%not_elem_of_nil|done|done].
  - assert ((l1 ++ key :: y :: l2) !! S (length l1) = Some y) as -> by (rewrite lookup_app_r by lia; by replace (S (length l1) - length l1) with 1 by lia).
    case_decide as Hy; [|exists [], (y :: l2); split_and!; [done|by intros x ?%not_elem_of_nil|by intros x [= <-]|done]].
    assert (<[length l1:=y]> (<[S (length l1):=key]> (l1 ++ key :: y :: l2)) = (l1 ++ [y]) ++ key :: l2) as ->.
    { rewrite insert_app_r_alt by lia. replace (S (length l1) - length l1) with 1 by lia. cbn. rewrite insert_app_r_alt by lia. rewrite Nat.sub_diag. cbn. by rewrite <- app_assoc. }
    replace (S (length l1)) with (length (l1 ++ [y])) by (rewrite length_app; cbn; lia).
    destruct (IH (l1 ++ [y]) fuel) as (a & b & -> & Ha & Hb & ->); [lia|]. exists (y :: a), b.
    split_and!; [done|set_solver|done|by rewrite <- app_assoc].
Qed.

Lemma sift_left_spec key b : ∀ l1, ∃ c d, l1 = c ++ d ∧ (∀ x, x ∈ d → key <k x) ∧ (∀ x, last c = Some x → ¬ key <k x) ∧
  sift_left (length l1) (l1 ++ key :: b) = c ++ key :: d ++ b.
Proof.
  intros l1. revert b. induction l1 as [|y l1 IH] using rev_ind; intros b; [exists [], []; split_and!; [done|by intros x ?%not_elem_of_nil|done|done]|].
  rewrite length_app. cbn [length]. rewrite Nat.add_1_r. cbn [sift_left]. rewrite <- app_assoc. cbn [app].
  assert ((l1 ++ y :: key :: b) !! S (length l1) = Some key) as -> by (rewrite lookup_app_r by lia; by replace (S (length l1) - length l1) with 1 by lia).
  rewrite list_lookup_middle by done. case_decide as Hy.
  - assert (<[S (length l1):=y]> (<[length l1:=key]> (l1 ++ y :: key :: b)) = l1 ++ key :: y :: b) as ->.
    { rewrite insert_app_r_alt by lia. rewrite Nat.sub_diag. cbn. rewrite insert_app_r_alt by lia. by replace (S (length l1) - length l1) with 1 by lia. }
    destruct (IH (y :: b)) as (c & d & -> & Hd & Hc & ->). exists c, (d ++ [y]). rewrite <- !app_assoc. split_and!; [done|set_solver|done|done].
  - exists (l1 ++ [y]), []. split_and!; [by rewrite app_nil_r|by intros x ?%not_elem_of_nil| |by rewrite <- app_assoc].
    intros x. rewrite last_snoc. by intros [= <-].
Qed.

Lemma sorted_around l1 l2 key : sorted_keys (l1 ++ l2) → key ∉ l1 ++ l2 → (∀ x, last l1 = Some x → ¬ key <k x) → (∀ x, head l2 = Some x → ¬ x <k key) →
  sorted_keys (l1 ++ key :: l2).
Proof.
  intros Hs Hn H1 H2. pose proof Hs as (Hs12 & Hs1 & Hs2)%StronglySorted_app. apply sorted_insert; [done|..].
  - intros x Hx. destruct (last l1) as [z|] eqn:El; [|by apply last_None in El as ->; apply not_elem_of_nil in Hx].
    destruct (key_not_lt key z (H1 z eq_refl)) as [->|Hz]; [apply last_Some in El as [l' ->]; set_solver|].
    destruct (last_sorted _ _ _ x Hs1 El Hx) as [->|]; [done|by eapply key_lt_trans].
  - intros x Hx. destruct l2 as [|z l2]; [by apply not_elem_of_nil in Hx|]. destruct (key_not_lt z key (H2 z eq_refl)) as [->|Hz]; [set_solver|].
    destruct (head_sorted _ _ _ x Hs2 eq_refl Hx) as [->|]; [done|by eapply key_lt_trans].
Qed.

Lemma sorted_delete_mid l1 x l2 : sorted_keys (l1 ++ x :: l2) → sorted_keys (l1 ++ l2).
Proof.
  intros (H12 & H1 & H2)%StronglySorted_app. apply StronglySorted_inv in H2 as [H2 _]. apply StronglySorted_app. split_and!; [|done|done].
  intros a b Ha Hb. apply H12; [done|by right].
Qed.

Lemma Replace_ok p random key : sorted_keys (sample_pool_ p) → random < length (sample_pool_ p) → ∃ l,
  Replace p random key = Some (set_pool p l) ∧ sorted_keys l ∧ (∀ x, x ∈ l → x = key ∨ x ∈ sample_pool_ p) ∧ length l = length (sample_pool_ p).
Proof.
  intros Hs Hr. unfold Replace. destruct (decide (_ !! _ = Some key)) as [Hin|Hin].
  { exists (sample_pool_ p). split_and!; [by destruct p|done|by right|done]. }
  rewrite lookup_lower_bound in Hin by done. rewrite decide_True by done. set (l := sample_pool_ p) in *.
  eexists. split; [done|]. destruct (lookup_lt_is_Some_2 l random Hr) as [old Hold].
  destruct (list_elem_of_split_length _ _ _ Hold) as (l1 & l2 & El & Elen). subst random. rewrite El in *. rewrite insert_app_r_alt by lia. rewrite Nat.sub_diag. cbn [list_insert insert].
  assert (sorted_keys (l1 ++ l2)) as Hs' by by eapply sorted_delete_mid. assert (key ∉ l1 ++ l2) as Hk by set_solver.
  destruct (sift_right_spec key l2 l1 (length (l1 ++ old :: l2))) as (a & b & -> & Ha & Hb & ->); [rewrite length_app; cbn; lia|].
  destruct a as [|z a].
  - cbn [app] in *. destruct (sift_left_spec key b l1) as (c & d & -> & Hd & Hc & ->). rewrite <- app_assoc in Hs', Hk. split_and!.
    + apply sorted_around; [done|done|done|]. intros x Hx. destruct d as [|y d]; [by apply Hb|]. injection Hx as ->. apply key_lt_asym, Hd. by left.
    + set_solver.
    + rewrite !length_app. cbn. rewrite !length_app. lia.
  - assert (sift_left (length l1) (l1 ++ (z :: a) ++ key :: b) = l1 ++ (z :: a) ++ key :: b) as ->.
    { destruct l1 as [|y l1 _] using rev_ind; [done|]. rewrite length_app, Nat.add_1_r. cbn [sift_left length]. rewrite <- app_assoc.
      assert ((l1 ++ [y] ++ (z :: a) ++ key :: b) !! S (length l1) = Some z) as -> by (rewrite lookup_app_r by lia; by replace (S (length l1) - length l1) with 1 by lia).
      change (l1 ++ [y] ++ (z :: a) ++ key :: b) with (l1 ++ y :: (z :: a) ++ key :: b). rewrite list_lookup_middle by done. rewrite decide_False; [done|]. apply key_lt_asym.
      apply StronglySorted_app in Hs' as (H12 & _). apply H12; [set_solver|by left]. }
    split_and!.
    + rewrite app_assoc. apply sorted_around; [by rewrite <- app_assoc|by rewrite <- app_assoc| |done].
      intros x Hx. apply key_lt_asym, Ha. rewrite last_app_cons in Hx. by apply last_Some_elem_of in Hx.
    + set_solver.
    + rewrite !length_app. cbn. rewrite !length_app. cbn. lia.
Qed.

(** ** Insertions and deletions *)

Lemma random_dis_bound b r : (0 ≤ b)%Z → (0 ≤ random_dis b r ≤ b)%Z.
Proof. intros. unfold random_dis. pose proof (Z.mod_pos_bound r (b + 1)). lia. Qed.
Lemma u32_small x : (0 ≤ x < 2 ^ 32)%Z → u32 x = x.
Proof. intros. unfold u32. by rewrite Z.mod_small. Qed.

(** A new key is sampled while there is room and no deletion has to be made good. *)
Definition grown p (key : K) : nat := if decide (pool_size p < capacity_ p ∧ key ∉ sample_pool_ p)%Z then 1 else 0.

Record inserted p key p' : Prop := {
  in_ok : rp_ok p';
  in_pool x : x ∈ sample_pool_ p' → x = key ∨ x ∈ sample_pool_ p;
  in_capacity : capacity_ p' = capacity_ p;
  in_counters : (c1_ p' + c2_ p' ≤ c1_ p + c2_ p)%Z;
  in_grown : (c1_ p + c2_ p = 0)%Z → length (sample_pool_ p') = length (sample_pool_ p) + grown p key;
}.

Lemma insert_key_inserted p key c1 c2 : rp_ok p → (pool_size p + c1 < capacity_ p)%Z → (0 ≤ c1)%Z → (0 ≤ c2)%Z → (c1 + c2 ≤ c1_ p + c2_ p)%Z →
  ∃ p', insert_key (set_counters p c1 c2) key = Some p' ∧ inserted p key p'.
Proof.
  intros [Hs Hz H1 H2] Hc Hc1 Hc2 Hle. destruct (insert_key_ok (set_counters p c1 c2) key) as (l & E & Hsl & Hin & Hlen); [done|cbn; change (pool_size _) with (pool_size p); lia|].
  cbn in Hin, Hlen. eexists. split; [exact E|]. unfold pool_size in *. split; cbn.
  - split; cbn; [done| |done|done]. unfold pool_size; cbn. rewrite Hlen. case_decide; lia.
  - intros x Hx. by apply Hin.
  - done.
  - lia.
  - intros _. rewrite Hlen. unfold grown, pool_size. f_equal. destruct (decide (key ∈ sample_pool_ p)) as [Hk|Hk]; [by rewrite decide_False by naive_solver|].
    rewrite decide_True; [done|]. split; [lia|done].
Qed.

Lemma Insert_ok p key dataset r : rp_ok p → (c1_ p + c2_ p < 2 ^ 32)%Z → ∃ p', Insert p key dataset r = Some p' ∧ inserted p key p'.
Proof.
  intros Hok Hc. pose proof Hok as [Hs Hz H1 H2]. unfold Insert. rewrite (u32_small (c1_ p + c2_ p)) by lia.
  destruct (decide (c1_ p + c2_ p ≤ 0)%Z) as [Hc0|Hc0].
  - rewrite u32_small by (unfold pool_size in *; lia). destruct (decide (pool_size p < capacity_ p)%Z) as [Hroom|Hfull].
    { destruct (insert_key_inserted p key (c1_ p) (c2_ p)) as (p' & E & Hi); [done|lia..|]. exists p'. split; [|done]. by destruct p. }
    assert (∀ p', grown p key = 0) as Hg by (intros _; unfold grown; rewrite decide_False; [done|lia]).
    destruct (decide (_ < capacity_ p)%Z) as [Hr|Hr].
    + pose proof (random_dis_bound (u64 (dataset - 1)) r). pose proof (Z.mod_pos_bound (dataset - 1) (2 ^ 64)). unfold u64 in *.
      destruct (Replace_ok p (Z.to_nat (random_dis ((dataset - 1) mod 2 ^ 64) r)) key) as (l & E & Hsl & Hin & Hlen); [done|unfold pool_size in *; lia|].
      eexists. split; [exact E|]. split; cbn; [split; cbn; [done|unfold pool_size in *; cbn; rewrite Hlen; lia|done|done]|done|done|lia|]. intros _. rewrite Hlen, (Hg p). lia.
    + exists p. split; [done|]. split; [done|by right|done|lia|]. intros _. rewrite (Hg p). lia.
  - rewrite u32_small by lia. pose proof (random_dis_bound (c1_ p + c2_ p - 1) r). destruct (decide (_ < c1_ p)%Z) as [Hr|Hr].
    + rewrite decide_True by lia. destruct (insert_key_inserted p key (c1_ p - 1) (c2_ p)) as (p' & E & Hi); [done|lia..|]. by exists p'.
    + rewrite decide_True by lia. eexists. split; [done|]. split; cbn; [split; cbn; [done|exact Hz|done|lia]|by right|done|lia|lia].
Qed.

Record deleted p key p' : Prop := {
  de_ok : rp_ok p';
  de_pool x : x ∈ sample_pool_ p' → x ≠ key ∧ x ∈ sample_pool_ p;
  de_capacity : capacity_ p' = capacity_ p;
  de_counters : (c1_ p' + c2_ p' ≤ c1_ p + c2_ p + 1)%Z;
}.

Lemma remove_at_split l1 x l2 : remove_at (length l1) (l1 ++ x :: l2) = l1 ++ l2.
Proof. unfold remove_at. rewrite take_app_length. rewrite drop_app_ge by lia. by replace (S (length l1) - length l1) with 1 by lia. Qed.
Lemma remove_at_sorted l i : sorted_keys l → i < length l → ∃ x, l !! i = Some x ∧ sorted_keys (remove_at i l) ∧ (∀ y, y ∈ remove_at i l → y ≠ x ∧ y ∈ l) ∧ S (length (remove_at i l)) = length l.
Proof.
  intros Hs Hi. destruct (lookup_lt_is_Some_2 l i Hi) as [x Hx]. exists x. split; [done|].
  destruct (list_elem_of_split_length _ _ _ Hx) as (l1 & l2 & -> & ->). rewrite remove_at_split. split_and!.
  - by eapply sorted_delete_mid.
  - intros y Hy. split; [|set_solver]. intros ->. apply sorted_NoDup in Hs. apply NoDup_app in Hs as (_ & H12 & [Hn _]%NoDup_cons). set_solver.
  - rewrite !length_app. cbn. lia.
Qed.

Lemma sample_Delete_ok p key dataset r : rp_ok p → (c1_ p + c2_ p + 1 < 2 ^ 32)%Z → (0 ≤ dataset)%Z → ∃ p', Delete p key dataset r = Some p' ∧ deleted p key p'.
Proof.
  intros [Hs Hz H1 H2] Hc Hd. unfold Delete. unfold pool_size in *. rewrite !u32_small by lia.
  destruct (decide (_ !! _ = Some key)) as [Hk|Hk].
  - destruct (remove_at_sorted (sample_pool_ p) _ Hs (lookup_lt_Some _ _ _ Hk)) as (x & Hx & Hs' & Hin & Hlen). rewrite Hk in Hx. injection Hx as <-.
    unfold pool_size. cbn [set_pool set_counters sample_pool_]. rewrite decide_True by lia. eexists. split; [done|]. split; cbn; [split; cbn; [done|unfold pool_size; cbn; lia|lia|done]|done|done|lia].
  - rewrite lookup_lower_bound in Hk by done. destruct (decide (sample_pool_ p = [])) as [He|He].
    { exists p. split; [done|]. split; [split; done|rewrite He; by intros x ?%not_elem_of_nil|done|lia]. }
    destruct (decide (_ ≤ dataset)%Z) as [Hle|Hle].
    + eexists. split; [done|]. split; cbn; [split; cbn; [done|exact Hz|done|lia]|intros x Hx; split; [by intros ->|done]|done|lia].
    + pose proof (random_dis_bound dataset r Hd). rewrite decide_True by lia. eexists. split; [done|].
      destruct (remove_at_sorted (sample_pool_ p) (Z.to_nat (random_dis dataset r)) Hs) as (x & _ & Hs' & Hin & Hlen); [lia|].
      split; cbn; [split; cbn; [done|unfold pool_size; cbn; lia|done|done]| |done|lia]. intros y [_ Hy]%Hin. split; [by intros ->|done].
Qed.

(** ** The life of a sample *)

Inductive SampleOp := SampleInsert (key : K) (dataset r : Z) | SampleDelete (key : K) (dataset r : Z) | SampleClear | SampleClearCounter.
Definition sample_op p (o : SampleOp) : option (RandomPairing K) :=
  match o with
  | SampleInsert key dataset r => Insert p key dataset r
  | SampleDelete key dataset r => Delete p key dataset r
  | SampleClear => Some (Clear p)
  | SampleClearCounter => Some (ClearCounter p)
  end.
Fixpoint sample_run p (os : list SampleOp) : option (RandomPairing K) :=
  match os with [] => Some p | o :: os => p' ← sample_op p o; sample_run p' os end.

(** The keys that are to be sampled. *)
Definition data_op (D : list K) (o : SampleOp) : list K :=
  match o with SampleInsert key _ _ => key :: D | SampleDelete key _ _ => filter (.≠ key) D | SampleClear => [] | SampleClearCounter => D end.
Definition is_delete (o : SampleOp) : Prop := match o with SampleDelete _ _ _ => True | _ => False end.
#[export] Instance is_delete_dec o : Decision (is_delete o).
Proof. destruct o; apply _. Defined.
Definition unsigned_op (o : SampleOp) : Prop := match o with SampleDelete _ dataset _ => (0 ≤ dataset)%Z | _ => True end.

Lemma sample_op_ok p o D : rp_ok p → (∀ x, x ∈ sample_pool_ p → x ∈ D) → (c1_ p + c2_ p + (if decide (is_delete o) then 1 else 0) < 2 ^ 32)%Z → unsigned_op o →
  ∃ p', sample_op p o = Some p' ∧ rp_ok p' ∧ capacity_ p' = capacity_ p ∧ (∀ x, x ∈ sample_pool_ p' → x ∈ data_op D o) ∧
    (c1_ p' + c2_ p' ≤ c1_ p + c2_ p + (if decide (is_delete o) then 1 else 0))%Z.
Proof.
  intros Hok HD Hc Hu. pose proof Hok as [Hs Hz H1 H2]. destruct o as [key dataset r|key dataset r| |]; cbn [is_delete sample_op data_op] in *.
  - rewrite decide_False in * by tauto. destruct (Insert_ok p key dataset r Hok) as (p' & E & [I1 I2 I3 I4 _]); [lia|]. exists p'. split_and!; [done..| |lia].
    intros x [->|Hx]%I2; [by left|right; by apply HD].
  - rewrite decide_True in * by done. destruct (sample_Delete_ok p key dataset r Hok) as (p' & E & [I1 I2 I3 I4]); [lia|done|]. exists p'. split_and!; [done..| |lia].
    intros x [Hne Hx]%I2. apply list_elem_of_filter. split; [done|by apply HD].
  - rewrite decide_False in * by tauto. eexists. split; [done|]. unfold pool_size in *. split_and!; [split; cbn; [constructor|unfold pool_size; cbn; lia|lia|lia]|done|cbn; by intros x ?%not_elem_of_nil|cbn; lia].
  - rewrite decide_False in * by tauto. eexists. split; [done|]. split_and!; [split; cbn; [done|change (pool_size (ClearCounter p)) with (pool_size p); lia|lia|lia]|done|done|cbn; lia].
Qed.

Lemma sample_run_ok os : ∀ p D, rp_ok p → (∀ x, x ∈ sample_pool_ p → x ∈ D) → (c1_ p + c2_ p + Z.of_nat (length (filter is_delete os)) < 2 ^ 32)%Z → Forall unsigned_op os →
  ∃ p', sample_run p os = Some p' ∧ rp_ok p' ∧ capacity_ p' = capacity_ p ∧ ∀ x, x ∈ sample_pool_ p' → x ∈ foldl data_op D os.
Proof.
  induction os as [|o os IH]; intros p D Hok HD Hc Hu; cbn [sample_run foldl]; [by exists p|]. apply Forall_cons in Hu as [Ho Hu].
  rewrite filter_cons in Hc. destruct (sample_op_ok p o D Hok HD) as (p1 & -> & Hok1 & Hcap & HD1 & Hc1); [destruct (decide (is_delete o)); cbn [length] in Hc; lia|done|].
  cbn [mbind option_bind]. destruct (IH p1 (data_op D o)) as (p' & -> & Hok' & Hcap' & HD'); [done|done| |done|].
  - destruct (decide (is_delete o)); cbn [length] in Hc; lia.
  - exists p'. split_and!; [done|done|congruence|done].
Qed.

Lemma new_ok capacity : (0 ≤ capacity < 2 ^ 32)%Z → rp_ok (RandomPairing_new capacity).
Proof. intros. split; cbn; [constructor|unfold pool_size; cbn; lia|lia|lia]. Qed.

(** A sample is always a sorted list of different keys of the data set, at most as many as its
    capacity, and no assertion fails, whatever keys come and go and whatever the random numbers
    are. *)
Theorem sample_of_dataset capacity os : (0 ≤ capacity < 2 ^ 32)%Z → Forall unsigned_op os → (Z.of_nat (length (filter is_delete os)) < 2 ^ 32)%Z →
  ∃ p, sample_run (RandomPairing_new capacity) os = Some p ∧ StronglySorted key_lt (sample_pool_ p) ∧ (Z.of_nat (length (sample_pool_ p)) ≤ capacity)%Z ∧
    ∀ x, x ∈ sample_pool_ p → x ∈ foldl data_op [] os.
Proof.
  intros Hc Hu Hd. destruct (sample_run_ok os (RandomPairing_new capacity) []) as (p & E & [Hs Hz H1 H2] & Hcap & HD); [by apply new_ok|done|cbn; lia|done|].
  exists p. split_and!; [done|done| |done]. cbn in Hcap. unfold pool_size in Hz. lia.
Qed.

(** Sampling from a list of different keys takes as many of them as there is room for. *)
Lemma insert_all_ok keys : ∀ p i rs, rp_ok p → (c1_ p + c2_ p = 0)%Z → NoDup keys → (∀ x, x ∈ keys → x ∉ sample_pool_ p) →
  ∃ p', insert_all p keys i rs = Some p' ∧ rp_ok p' ∧ capacity_ p' = capacity_ p ∧ (∀ x, x ∈ sample_pool_ p' → x ∈ keys ∨ x ∈ sample_pool_ p) ∧
    pool_size p' = Z.min (capacity_ p) (pool_size p + Z.of_nat (length keys)).
Proof.
  induction keys as [|key keys IH]; intros p i rs Hok Hc Hnd Hnew; cbn [insert_all].
  { exists p. split_and!; [done..|by right|]. destruct Hok. cbn. lia. }
  apply NoDup_cons in Hnd as [Hk Hnd]. destruct (Insert_ok p key (Z.of_nat i + 1) (rs i) Hok) as (p1 & -> & [Hok1 Hin1 Hcap1 Hc1 Hg1]); [lia|].
  cbn [mbind option_bind]. destruct (IH p1 (S i) rs) as (p' & -> & Hok' & Hcap' & Hin' & Hlen').
  - done.
  - destruct Hok1. lia.
  - done.
  - intros x Hx [->|Hp]%Hin1; [done|]. apply (Hnew x); [by right|done].
  - exists p'. split_and!; [done|done|congruence| |].
    + intros x [Hx|[->|Hx]%Hin1]%Hin'; [left; by right|left; by left|by right].
    + rewrite Hlen', Hcap1. specialize (Hg1 Hc). unfold grown in Hg1. unfold pool_size in *. cbn [length]. destruct Hok. unfold pool_size in *.
      destruct (decide (Z.of_nat (length (sample_pool_ p)) < capacity_ p)%Z) as [Hr|Hr].
      * rewrite decide_True in Hg1; [lia|]. split; [done|]. apply Hnew. by left.
      * rewrite decide_False in Hg1; [lia|]. by intros [? _].
Qed.
End sampling.
