(* ===== verification/StoreSlice.v ===== *)
(** * Slices of a range ([StoreSlice], [include/cc/range_slice.h], [src/cc/range_slice.cpp])

    A range of a table is cut into slices; a slice is the unit that is read from the data store.
    A slice is fully cached when all its keys are in memory; then a request may pin it, and a
    scan or a read that finds no key need not ask the data store.  A slice that is not cached
    is loaded: the request waits in the slice's queue, the data store delivers the records
    ([FillStoreSliceCc], an object from a pool), each core puts its part into memory, and the
    last core commits the load and wakes up the requests.

    The operations under the slice's mutex are functions on the slice.  Each also returns by
    how much it changes the counter [pins_] of the range, and what it sends.  The clock and
    the object taken from the pool are arguments.  [None] is a failed assertion. *)

From S2P Require Import Prelude CcProtocol CcPages.

Definition u16 (x : Z) : Z := x mod 2 ^ 16.

Inductive SliceStatus := PartiallyCached | FullyCached | BeingLoaded.
#[export] Instance SliceStatus_eq_dec : EqDecision SliceStatus.
Proof. solve_decision. Defined.

(** [DataStoreHandler::DataStoreOpStatus]. *)
Inductive DataStoreOpStatus := StoreSuccess | StoreRetry | StoreError.

(** A request and the shard it belongs to. *)
Definition Waiter : Type := Z * Z.

(** What a slice sends. *)
Inductive SliceOutput :=
  | EnqueueCc (w : Waiter)
  | AbortCc (w : Waiter) (err : CcErrorCode)
  | EnqueueFill (core : nat)
  | EnqueueInitKeyCache (core : nat).

(** ** Filling a slice *)

(** A record of the data store: its key, the bytes of key and record, and whether it is
    deleted. *)
Record SliceDataItem (K : Type) := mkItem { it_key : K; it_key_size : Z; it_rec_size : Z; it_version_ts : Z; it_deleted : bool }.
Arguments mkItem {_}.
Arguments it_key {_}.
Arguments it_key_size {_}.
Arguments it_rec_size {_}.
Arguments it_version_ts {_}.
Arguments it_deleted {_}.

Record FillStoreSliceCc (K : Type) := mkFill {
  force_load_ : bool;
  finish_cnt_ : Z;
  core_cnt_ : nat;
  err_code_ : CcErrorCode;
  next_idxs_ : list nat;
  partitioned_slice_data_ : list (list (SliceDataItem K));
  fill_start_key_ : SearchKey K;
  fill_end_key_ : SearchKey K;
  slice_size_ : Z;
  rec_cnt_ : Z;
}.
Arguments mkFill {_}.
Arguments force_load_ {_}.
Arguments finish_cnt_ {_}.
Arguments core_cnt_ {_}.
Arguments err_code_ {_}.
Arguments next_idxs_ {_}.
Arguments partitioned_slice_data_ {_}.
Arguments fill_start_key_ {_}.
Arguments fill_end_key_ {_}.
Arguments slice_size_ {_}.
Arguments rec_cnt_ {_}.

Section fill.
Context {K : Type} (hash : K → Z).
Implicit Types f : FillStoreSliceCc K.

(** A new object. *)
Definition FillStoreSliceCc_new : FillStoreSliceCc K := mkFill false 0 0 NO_ERROR [] [] NegativeInfinity PositiveInfinity 0 0.

(** [Reset] when the object is taken from the pool; [err_code_], [slice_size_] and [rec_cnt_]
    keep what they had. *)
Definition fill_Reset f (force_load : bool) (cores : nat) (start_key end_key : SearchKey K) : FillStoreSliceCc K :=
  mkFill force_load 0 cores (err_code_ f) (replicate cores 0) (replicate cores []) start_key end_key (slice_size_ f) (rec_cnt_ f).

Definition SetForceLoad f (force_load : bool) : FillStoreSliceCc K :=
  mkFill force_load (finish_cnt_ f) (core_cnt_ f) (err_code_ f) (next_idxs_ f) (partitioned_slice_data_ f) (fill_start_key_ f) (fill_end_key_ f) (slice_size_ f) (rec_cnt_ f).
Definition set_data f data (size cnt : Z) : FillStoreSliceCc K :=
  mkFill (force_load_ f) (finish_cnt_ f) (core_cnt_ f) (err_code_ f) (next_idxs_ f) data (fill_start_key_ f) (fill_end_key_ f) size cnt.
Definition set_finished f (cnt : Z) (err : CcErrorCode) : FillStoreSliceCc K :=
  mkFill (force_load_ f) cnt (core_cnt_ f) err (next_idxs_ f) (partitioned_slice_data_ f) (fill_start_key_ f) (fill_end_key_ f) (slice_size_ f) (rec_cnt_ f).

Definition fill_core f (key : K) : nat := Z.to_nat (Z.land (hash key) 0x3FF mod Z.of_nat (core_cnt_ f)).
Definition AddDataItem f (item : SliceDataItem K) : option (FillStoreSliceCc K) :=
  let core_id := fill_core f (it_key item) in
  items ← partitioned_slice_data_ f !! core_id;
  Some (set_data f (<[core_id := items ++ [item]]> (partitioned_slice_data_ f))
    (u32 (slice_size_ f + it_key_size item + it_rec_size item))
    (if it_deleted item then rec_cnt_ f else u32 (rec_cnt_ f + 1))).

Definition SliceData f (core_id : nat) : option (list (SliceDataItem K)) := partitioned_slice_data_ f !! core_id.
Definition NextIndex f (core_id : nat) : option nat :=
  i ← next_idxs_ f !! core_id; items ← partitioned_slice_data_ f !! core_id;
  if decide (i ≤ length items) then Some i else None.
Definition SetNextIndex f (core_id index : nat) : option (FillStoreSliceCc K) :=
  items ← partitioned_slice_data_ f !! core_id;
  if decide (index ≤ length items)
  then Some (mkFill (force_load_ f) (finish_cnt_ f) (core_cnt_ f) (err_code_ f) (<[core_id := index]> (next_idxs_ f)) (partitioned_slice_data_ f)
               (fill_start_key_ f) (fill_end_key_ f) (slice_size_ f) (rec_cnt_ f))
  else None.
End fill.

(** ** The slice *)

Record StoreSlice (K : Type) := mkSlice {
  sl_start_key_ : SearchKey K;
  sl_end_key_ : SearchKey K;
  sl_size_ : Z;
  post_ckpt_size_ : Z;
  sl_status_ : SliceStatus;
  sl_pins_ : Z;
  to_alter_ : bool;
  fetch_slice_cc_ : option (FillStoreSliceCc K);
  init_key_cache_cc_ : option Z;
  cc_queue_ : list Waiter;
  last_load_ts_ : Z;
  cache_validity_ : list Z;
}.
Arguments mkSlice {_}.
Arguments sl_start_key_ {_}.
Arguments sl_end_key_ {_}.
Arguments sl_size_ {_}.
Arguments post_ckpt_size_ {_}.
Arguments sl_status_ {_}.
Arguments sl_pins_ {_}.
Arguments to_alter_ {_}.
Arguments fetch_slice_cc_ {_}.
Arguments init_key_cache_cc_ {_}.
Arguments cc_queue_ {_}.
Arguments last_load_ts_ {_}.
Arguments cache_validity_ {_}.

Definition slice_upper_bound : Z := 16 * 1024.

Section slice.
Context {K : Type}.
Implicit Types (s : StoreSlice K) (f : FillStoreSliceCc K).

Definition set_end_key s (e : SearchKey K) : StoreSlice K :=
  mkSlice (sl_start_key_ s) e (sl_size_ s) (post_ckpt_size_ s) (sl_status_ s) (sl_pins_ s) (to_alter_ s) (fetch_slice_cc_ s) (init_key_cache_cc_ s) (cc_queue_ s) (last_load_ts_ s) (cache_validity_ s).
Definition set_sizes s (size post : Z) : StoreSlice K :=
  mkSlice (sl_start_key_ s) (sl_end_key_ s) size post (sl_status_ s) (sl_pins_ s) (to_alter_ s) (fetch_slice_cc_ s) (init_key_cache_cc_ s) (cc_queue_ s) (last_load_ts_ s) (cache_validity_ s).
Definition set_status s (st : SliceStatus) : StoreSlice K :=
  mkSlice (sl_start_key_ s) (sl_end_key_ s) (sl_size_ s) (post_ckpt_size_ s) st (sl_pins_ s) (to_alter_ s) (fetch_slice_cc_ s) (init_key_cache_cc_ s) (cc_queue_ s) (last_load_ts_ s) (cache_validity_ s).
Definition set_pins s (n : Z) : StoreSlice K :=
  mkSlice (sl_start_key_ s) (sl_end_key_ s) (sl_size_ s) (post_ckpt_size_ s) (sl_status_ s) n (to_alter_ s) (fetch_slice_cc_ s) (init_key_cache_cc_ s) (cc_queue_ s) (last_load_ts_ s) (cache_validity_ s).
Definition set_alter s (b : bool) : StoreSlice K :=
  mkSlice (sl_start_key_ s) (sl_end_key_ s) (sl_size_ s) (post_ckpt_size_ s) (sl_status_ s) (sl_pins_ s) b (fetch_slice_cc_ s) (init_key_cache_cc_ s) (cc_queue_ s) (last_load_ts_ s) (cache_validity_ s).
Definition set_load s (f : option (FillStoreSliceCc K)) (q : list Waiter) : StoreSlice K :=
  mkSlice (sl_start_key_ s) (sl_end_key_ s) (sl_size_ s) (post_ckpt_size_ s) (sl_status_ s) (sl_pins_ s) (to_alter_ s) f (init_key_cache_cc_ s) q (last_load_ts_ s) (cache_validity_ s).
Definition set_init s (n : option Z) : StoreSlice K :=
  mkSlice (sl_start_key_ s) (sl_end_key_ s) (sl_size_ s) (post_ckpt_size_ s) (sl_status_ s) (sl_pins_ s) (to_alter_ s) (fetch_slice_cc_ s) n (cc_queue_ s) (last_load_ts_ s) (cache_validity_ s).
Definition UpdateLastLoadTs s (ts : Z) : StoreSlice K :=
  mkSlice (sl_start_key_ s) (sl_end_key_ s) (sl_size_ s) (post_ckpt_size_ s) (sl_status_ s) (sl_pins_ s) (to_alter_ s) (fetch_slice_cc_ s) (init_key_cache_cc_ s) (cc_queue_ s) ts (cache_validity_ s).
Definition set_validity s (v : list Z) : StoreSlice K :=
  mkSlice (sl_start_key_ s) (sl_end_key_ s) (sl_size_ s) (post_ckpt_size_ s) (sl_status_ s) (sl_pins_ s) (to_alter_ s) (fetch_slice_cc_ s) (init_key_cache_cc_ s) (cc_queue_ s) (last_load_ts_ s) v.

(** [init_key_cache] is together with the flag that enables key caches. *)
Definition StoreSlice_new (start_key end_key : SearchKey K) (size : Z) (status : SliceStatus) (init_key_cache empty_slice : bool) (cores : nat) : StoreSlice K :=
  mkSlice start_key end_key size UINT64_MAX status 0 false None None [] 1
    (if init_key_cache then replicate cores (if empty_slice then 1%Z else 0%Z) else []).

Definition NeedSplitOrMerge s : bool :=
  bool_decide (slice_upper_bound < sl_size_ s)%Z || bool_decide (sl_size_ s < Z.shiftr slice_upper_bound 2)%Z.

Definition Kickout s : bool * StoreSlice K :=
  if bool_decide (0 < sl_pins_ s)%Z || bool_decide (sl_status_ s = BeingLoaded) then (false, s)
  else (true, set_status s PartiallyCached).

Definition UpdateSize s : bool * StoreSlice K :=
  if decide (post_ckpt_size_ s ≠ UINT64_MAX) then (true, set_sizes s (post_ckpt_size_ s) UINT64_MAX) else (false, s).
Definition SetPostCkptSize s (size : Z) : StoreSlice K := set_sizes s (sl_size_ s) size.
Definition ChangeAllowed s : bool := bool_decide (sl_pins_ s = 0%Z).

(** *** The key cache of the slice

    One byte per core: bit 0 says that the cache is valid, bit 1 that it is being filled. *)

Definition IsValidInKeyCache s (core_id : nat) : option bool := v ← cache_validity_ s !! core_id; Some (Z.testbit v 0).
Definition IsLoadingKeyCache s (core_id : nat) : option bool := v ← cache_validity_ s !! core_id; Some (Z.testbit v 1).
Definition set_cache_bit s (core_id : nat) (bit : Z) (b : bool) : option (StoreSlice K) :=
  v ← cache_validity_ s !! core_id;
  Some (set_validity s (<[core_id := if b then Z.lor v (Z.shiftl 1 bit) else Z.land v (Z.lnot (Z.shiftl 1 bit))]> (cache_validity_ s))).
Definition SetKeyCacheValidity s (core_id : nat) (valid : bool) : option (StoreSlice K) := set_cache_bit s core_id 0 valid.
Definition SetLoadingKeyCache s (core_id : nat) (status : bool) : option (StoreSlice K) := set_cache_bit s core_id 1 status.

(** ** Loading a slice *)

(** A slice, the change of the range's [pins_], and what was sent. *)
Definition SliceResult : Type := StoreSlice K * Z * list SliceOutput.

Definition StartLoading s (cores : nat) : option SliceResult :=
  if decide (sl_pins_ s = 0%Z) then Some (set_status s BeingLoaded, 0%Z, EnqueueFill <$> seq 0 cores) else None.

Definition CommitLoading s (slice_size : Z) : option SliceResult :=
  if decide (sl_pins_ s = 0%Z ∧ sl_status_ s = BeingLoaded)
  then Some (set_load (set_sizes (set_status s FullyCached) slice_size (post_ckpt_size_ s)) None [], (-1)%Z, EnqueueCc <$> cc_queue_ s)
  else None.

Definition SetLoadingError s (err_code : CcErrorCode) : option SliceResult :=
  if decide (sl_pins_ s = 0%Z)
  then Some (set_load (set_status s PartiallyCached) None [], (-1)%Z, (λ w, AbortCc w err_code) <$> cc_queue_ s)
  else None.

(** The last core that finishes ends the load. *)
Definition with_fill s f : StoreSlice K := set_load s (Some f) (cc_queue_ s).
Definition fill_SetFinish s f : option (bool * SliceResult) :=
  let f' := set_finished f (u16 (finish_cnt_ f + 1)) (err_code_ f) in
  if decide (finish_cnt_ f' = Z.of_nat (core_cnt_ f)) then
    r ← (if decide (err_code_ f = NO_ERROR) then CommitLoading (with_fill s f') (slice_size_ f) else SetLoadingError (with_fill s f') (err_code_ f));
    Some (true, r)
  else Some (false, (with_fill s f', 0%Z, [])).
Definition fill_SetError s f (err : CcErrorCode) : option (bool * SliceResult) :=
  let f' := set_finished f (u16 (finish_cnt_ f + 1)) err in
  if decide (finish_cnt_ f' = Z.of_nat (core_cnt_ f)) then r ← SetLoadingError (with_fill s f') err; Some (true, r)
  else Some (false, (with_fill s f', 0%Z, [])).

(** The data store has delivered the records, or failed. *)
Definition SetKvFinish s (success : bool) (cur_ts : Z) (cores : nat) : option SliceResult :=
  let s := UpdateLastLoadTs s cur_ts in
  if success then StartLoading s cores else SetLoadingError s DATA_STORE_ERR.

Definition IsRecentLoad s (now : Z) : bool := bool_decide ((u64 (now - last_load_ts_ s) + 2 ^ 63) mod 2 ^ 64 - 2 ^ 63 < 4000000)%Z.

(** [LoadSlice] up to the call of the data store.  [LoadCalls] means that the data store has to be
    called; the result is then that of [LoadSlice_return]. *)
Inductive LoadSliceStatus := LoadSuccess | LoadDelay | LoadRetry | LoadError.
#[export] Instance LoadSliceStatus_eq_dec : EqDecision LoadSliceStatus.
Proof. solve_decision. Defined.
Inductive LoadStart := LoadReturns (st : LoadSliceStatus) | LoadCalls.

Definition queue_request s (w : option Waiter) : StoreSlice K :=
  match w with Some w => set_load s (fetch_slice_cc_ s) (cc_queue_ s ++ [w]) | None => s end.

Definition LoadSlice_start s (force_load : bool) (w : option Waiter) (now : Z) (pooled : FillStoreSliceCc K) (cores : nat) : LoadStart * (StoreSlice K * Z) :=
  match fetch_slice_cc_ s with
  | None =>
      if negb force_load && IsRecentLoad s now then (LoadReturns LoadDelay, (s, 0%Z))
      else (LoadCalls, (queue_request (set_load s (Some (fill_Reset pooled force_load cores (sl_start_key_ s) (sl_end_key_ s))) (cc_queue_ s)) w, 1%Z))
  | Some f =>
      if force_load && negb (force_load_ f) then
        if decide (sl_status_ s ≠ BeingLoaded) then (LoadReturns LoadSuccess, (queue_request (set_load s (Some (SetForceLoad f true)) (cc_queue_ s)) w, 0%Z))
        else (LoadReturns LoadRetry, (s, 0%Z))
      else (LoadReturns LoadSuccess, (queue_request s w, 0%Z))
  end.

(** After the call.  When the caller waits for the result it answers the first request of the queue
    itself; a task on another core ([async]) answers all. *)
Definition LoadSlice_return s (async : bool) (kv : DataStoreOpStatus) : LoadSliceStatus * SliceResult :=
  let others := if async then cc_queue_ s else tail (cc_queue_ s) in
  match kv with
  | StoreSuccess => (LoadSuccess, (s, 0%Z, []))
  | StoreRetry => (LoadRetry, (set_load s None [], (-1)%Z, EnqueueCc <$> others))
  | StoreError => (LoadError, (set_load s None [], (-1)%Z, (λ w, AbortCc w DATA_STORE_ERR) <$> others))
  end.

(** ** Pins *)

Definition pin s : StoreSlice K := set_pins s (u16 (sl_pins_ s + 1)).

(** [UnpinSlice]: also whether the thread that wants to alter the slice has to be woken up. *)
Definition UnpinSlice s : bool * (StoreSlice K * Z) :=
  let '(s', d) := if decide (0 < sl_pins_ s)%Z then (set_pins s (sl_pins_ s - 1), (-1)%Z) else (s, 0%Z) in
  (bool_decide (sl_pins_ s' = 0%Z) && to_alter_ s', (s', d)).

Definition InitKeyCache s (cores : nat) : SliceResult :=
  if decide (sl_status_ s = FullyCached ∧ init_key_cache_cc_ s = None)
  then (set_init (pin s) (Some (Z.of_nat cores)), 1%Z, EnqueueInitKeyCache <$> seq 0 cores)
  else (s, 0%Z, []).

(** [InitKeyCacheCc::SetFinish] of a core. *)
Definition init_SetFinish s (core : nat) (succ : bool) : option (bool * (StoreSlice K * Z)) :=
  n ← init_key_cache_cc_ s;
  s1 ← (if succ then SetKeyCacheValidity s core true else Some s);
  s2 ← SetLoadingKeyCache s1 core false;
  let s3 := set_init s2 (Some (u16 (n - 1))) in
  if decide (n = 1%Z) then let '(wake, (s4, d)) := UnpinSlice s3 in Some (wake, (set_init s4 None, d)) else Some (false, (s3, 0%Z)).
End slice.
