(* ===== verification/SliceProtocol.v ===== *)
(** * The life of a slice

    The requests, the data store and the cores use a slice (file StoreSlice) at the same time.
    This file has their steps: pinning and unpinning, loading with its phases, eviction of keys
    from memory, filling the key cache, and the thread that alters the slice, which waits until
    nobody has pinned it.  Three things are shown of every run.

    - A slice is complete while it is pinned: all keys of the data store are in memory, and nothing is
      evicted.  This needs that no key is evicted between the read of the data store and the
      start of the filling; the source does not see to that ([evicted_while_reading]).
    - No request that waits for a load is lost or answered twice, and a load can always be
      brought to its end.
    - The thread that waits for the pins to go away is not forgotten.

    A step is an operation under the mutex of the slice.  The counter of the range is kept
    with the pins that come from elsewhere. *)

From S2P Require Import Prelude CcProtocol CcPages StoreSlice.

(** ** States *)

Inductive Phase (D : Type) :=
  | Idle
  | Calling (w : option Waiter) (async : bool)
  | Reading (data : option D)
  | Filling (data : D) (pending : list nat).
Arguments Idle {_}.
Arguments Calling {_}.
Arguments Reading {_}.
Arguments Filling {_}.

(** The thread that alters the slice. *)
Inductive AlterState := NoAlter | Asleep | Woken.

Record sys (K : Type) `{Countable K} := mkSys {
  slice : StoreSlice K;
  range_pins : Z;
  others : Z;
  holders : list Waiter;
  phase : Phase (gset K);
  entered : list Waiter;
  answered : list Waiter;
  init_pending : list nat;
  alter_state : AlterState;
  notifiers : nat;
  mem : gset K;
  store : gset K;
}.
Arguments mkSys {_ _ _}.
Arguments slice {_ _ _}.
Arguments range_pins {_ _ _}.
Arguments others {_ _ _}.
Arguments holders {_ _ _}.
Arguments phase {_ _ _}.
Arguments entered {_ _ _}.
Arguments answered {_ _ _}.
Arguments init_pending {_ _ _}.
Arguments alter_state {_ _ _}.
Arguments notifiers {_ _ _}.
Arguments mem {_ _ _}.
Arguments store {_ _ _}.

Section protocol.
Context {K : Type} `{Countable K} (hash : K → Z) (cores : nat).
Implicit Types (y : sys K) (s : StoreSlice K) (f : FillStoreSliceCc K).

(** The requests that are answered. *)
Definition answers (out : list SliceOutput) : list Waiter :=
  omap (λ o, match o with EnqueueCc w | AbortCc w _ => Some w | _ => None end) out.

(** Setting parts of the state. *)
Definition on_slice y s (d : Z) : sys K :=
  mkSys s (u32 (range_pins y + d)) (others y) (holders y) (phase y) (entered y) (answered y) (init_pending y) (alter_state y) (notifiers y) (mem y) (store y).
Definition on_phase y (p : Phase (gset K)) (new old : list Waiter) : sys K :=
  mkSys (slice y) (range_pins y) (others y) (holders y) p (entered y ++ new) (answered y ++ old) (init_pending y) (alter_state y) (notifiers y) (mem y) (store y).
Definition on_pins y (h : list Waiter) (i : list nat) : sys K :=
  mkSys (slice y) (range_pins y) (others y) h (phase y) (entered y) (answered y) i (alter_state y) (notifiers y) (mem y) (store y).
Definition on_alter y (a : AlterState) (n : nat) : sys K :=
  mkSys (slice y) (range_pins y) (others y) (holders y) (phase y) (entered y) (answered y) (init_pending y) a n (mem y) (store y).
Definition on_data y (m d : gset K) : sys K :=
  mkSys (slice y) (range_pins y) (others y) (holders y) (phase y) (entered y) (answered y) (init_pending y) (alter_state y) (notifiers y) m d.
Definition on_others y (n : Z) : sys K :=
  mkSys (slice y) (u32 (range_pins y + n)) (others y + n) (holders y) (phase y) (entered y) (answered y) (init_pending y) (alter_state y) (notifiers y) (mem y) (store y).

Definition apply y (r : SliceResult (K := K)) (p : Phase (gset K)) (old : list Waiter) : sys K :=
  on_phase (on_slice y r.1.1 r.1.2) p [] (answers r.2 ++ old).

Definition wake_up (a : AlterState) : AlterState := match a with Asleep => Woken | _ => a end.
Definition count (b : bool) : nat := if b then 1 else 0.

(** The part of the records that a core puts into memory. *)
Definition part f (c : nat) (data : gset K) : gset K := filter (λ k, fill_core hash f k = c) data.

(** The data store has been read and the filling has not begun. *)
Definition reading y : Prop := match phase y with Reading (Some _) => True | _ => False end.

(** The slice after the thread has changed its bounds and sizes. *)
Definition alter_done s (e : SearchKey K) (size post : Z) : StoreSlice K := set_alter (set_sizes (set_end_key s e) size post) false.

(** ** Steps

    With [strict], keys are not evicted while the data store is being read, and a thread
    that loads a slice and waits for the data store does so for a request. *)
Inductive step (strict : bool) y : sys K → Prop :=
  | st_pin w : sl_status_ (slice y) = FullyCached → to_alter_ (slice y) = false →
      step strict y (on_pins (on_slice y (pin (slice y)) 1) (w :: holders y) (init_pending y))
  | st_unpin w h1 h2 wake s' d : holders y = h1 ++ w :: h2 → UnpinSlice (slice y) = (wake, (s', d)) →
      step strict y (on_alter (on_pins (on_slice y s' d) (h1 ++ h2) (init_pending y)) (alter_state y) (notifiers y + count wake))
  | st_unpin_shared w h1 h2 wake s' d : holders y = h1 ++ w :: h2 → UnpinSlice (slice y) = (wake, (s', d)) →
      step strict y (on_alter (on_pins (on_slice y s' d) (h1 ++ h2) (init_pending y)) (if wake then wake_up (alter_state y) else alter_state y) (notifiers y))
  | st_notify n : notifiers y = S n → step strict y (on_alter y (wake_up (alter_state y)) n)
  | st_load w force async now pooled s' d : sl_status_ (slice y) ≠ FullyCached →
      LoadSlice_start (slice y) force w now pooled cores = (LoadCalls, (s', d)) → (async = true → w = None) → (strict = true → async = false → w ≠ None) →
      step strict y (on_phase (on_slice y s' d) (Calling w async) (option_list w) [])
  | st_join w force now pooled s' d : sl_status_ (slice y) ≠ FullyCached →
      LoadSlice_start (slice y) force w now pooled cores = (LoadReturns LoadSuccess, (s', d)) →
      step strict y (on_phase (on_slice y s' d) (phase y) (option_list w) [])
  | st_accept w async : phase y = Calling w async → step strict y (on_phase y (Reading None) [] [])
  | st_reject w async kv st r : phase y = Calling w async → kv ≠ StoreSuccess → LoadSlice_return (slice y) async kv = (st, r) →
      step strict y (apply y r Idle (if async then [] else option_list w))
  | st_read : phase y = Reading None → step strict y (on_phase y (Reading (Some (store y))) [] [])
  | st_kv_ok data ts r : phase y = Reading (Some data) → SetKvFinish (slice y) true ts cores = Some r →
      step strict y (apply y r (Filling data (seq 0 cores)) [])
  | st_kv_error data ts r : phase y = Reading data → SetKvFinish (slice y) false ts cores = Some r → step strict y (apply y r Idle [])
  | st_fill data p1 c p2 f fin r : phase y = Filling data (p1 ++ c :: p2) → fetch_slice_cc_ (slice y) = Some f →
      fill_SetFinish (slice y) f = Some (fin, r) →
      step strict y (on_data (apply y r (if fin : bool then Idle else Filling data (p1 ++ p2)) []) (mem y ∪ part f c data) (store y))
  | st_fill_error data p1 c p2 f fin r err : phase y = Filling data (p1 ++ c :: p2) → fetch_slice_cc_ (slice y) = Some f → err ≠ NO_ERROR →
      fill_SetError (slice y) f err = Some (fin, r) →
      step strict y (apply y r (if fin : bool then Idle else Filling data (p1 ++ p2)) [])
  | st_evict k s' : Kickout (slice y) = (true, s') → (strict = true → ¬ reading y) → step strict y (on_data (on_slice y s' 0) (mem y ∖ {[ k ]}) (store y))
  | st_insert k : step strict y (on_data y (mem y ∪ {[ k ]}) (store y))
  | st_flush k : k ∈ mem y → step strict y (on_data y (mem y) (store y ∪ {[ k ]}))
  | st_delete k : step strict y (on_data y (mem y) (store y ∖ {[ k ]}))
  | st_init s' d out : InitKeyCache (slice y) cores = (s', d, out) →
      step strict y (on_pins (on_slice y s' d) (holders y) (if decide (d = 0)%Z then init_pending y else seq 0 cores))
  | st_init_finish p1 c p2 succ wake s' d : init_pending y = p1 ++ c :: p2 → init_SetFinish (slice y) c succ = Some (wake, (s', d)) →
      step strict y (on_alter (on_pins (on_slice y s' d) (holders y) (p1 ++ p2)) (alter_state y) (notifiers y + count wake))
  | st_alter e size post : alter_state y = NoAlter →
      step strict y (if ChangeAllowed (slice y) then on_slice y (alter_done (slice y) e size post) 0 else on_alter (on_slice y (set_alter (slice y) true) 0) Asleep (notifiers y))
  | st_alter_woken e size post : alter_state y = Woken →
      step strict y (if ChangeAllowed (slice y) then on_alter (on_slice y (alter_done (slice y) e size post) 0) NoAlter (notifiers y) else on_alter y Asleep (notifiers y))
  | st_others n : (0 ≤ others y + n)%Z → step strict y (on_others y n).

(** Counters do not overflow: fewer than 2^16 requests pin the slice, and fewer than 2^32 the
    range. *)
Definition pin_count y : nat := length (holders y) + (if decide (init_pending y = []) then 0 else 1).
Definition weight s : Z := sl_pins_ s + (if fetch_slice_cc_ s then 1 else 0).
Definition few y : Prop := (Z.of_nat (pin_count y) < 2 ^ 16)%Z ∧ (Z.of_nat (pin_count y) + 1 + others y < 2 ^ 32)%Z.

(** A slice nobody uses. *)
Definition initial (s : StoreSlice K) (m d : gset K) : sys K := mkSys s 0 0 [] Idle [] [] [] NoAlter 0 m d.
Record fresh_slice s (m d : gset K) : Prop := {
  fs_pins : sl_pins_ s = 0%Z;
  fs_alter : to_alter_ s = false;
  fs_load : fetch_slice_cc_ s = None ∧ cc_queue_ s = [] ∧ init_key_cache_cc_ s = None;
  fs_status : sl_status_ s = PartiallyCached ∨ sl_status_ s = FullyCached ∧ d ⊆ m;
}.
Definition run strict : sys K → sys K → Prop := rtc (λ y y', step strict y y' ∧ few y').

(** ** What each operation does *)

Hypothesis cores_pos : (0 < Z.of_nat cores < 2 ^ 16)%Z.

Lemma u16_small x : (0 ≤ x < 2 ^ 16)%Z → u16 x = x.
Proof. intros. unfold u16. by rewrite Z.mod_small. Qed.
Lemma u32_add x d : u32 (u32 x + d) = u32 (x + d).
Proof. unfold u32. by rewrite Zplus_mod_idemp_l. Qed.

Lemma UnpinSlice_pinned s : (0 < sl_pins_ s)%Z → UnpinSlice s = (bool_decide (sl_pins_ s = 1%Z) && to_alter_ s, (set_pins s (sl_pins_ s - 1), (-1)%Z)).
Proof. intros Hp. unfold UnpinSlice. rewrite decide_True by done. cbn. do 2 f_equal. apply bool_decide_ext. lia. Qed.

(** Two requests of the pool that differ in the force flag. *)
Definition same_fill f f' : Prop := err_code_ f' = err_code_ f ∧ finish_cnt_ f' = finish_cnt_ f ∧ core_cnt_ f' = core_cnt_ f.

Lemma queue_request_eq s w : queue_request s w = set_load s (fetch_slice_cc_ s) (cc_queue_ s ++ option_list w).
Proof. destruct w, s; [done|]. cbn. by rewrite app_nil_r. Qed.

Lemma LoadSlice_start_calls s force w now pooled s' d : LoadSlice_start s force w now pooled cores = (LoadCalls, (s', d)) →
  ∃ f, fetch_slice_cc_ s = None ∧ d = 1%Z ∧ s' = set_load s (Some f) (cc_queue_ s ++ option_list w) ∧ core_cnt_ f = cores ∧ finish_cnt_ f = 0%Z.
Proof.
  unfold LoadSlice_start. destruct (fetch_slice_cc_ s) as [f|]; [by repeat case_match|]. destruct (negb force && _); [done|].
  intros [= <- <-]. rewrite queue_request_eq. by eexists.
Qed.

Lemma LoadSlice_start_joins s force w now pooled s' d : LoadSlice_start s force w now pooled cores = (LoadReturns LoadSuccess, (s', d)) →
  ∃ f f', fetch_slice_cc_ s = Some f ∧ d = 0%Z ∧ s' = set_load s (Some f') (cc_queue_ s ++ option_list w) ∧ same_fill f f'.
Proof.
  unfold LoadSlice_start. destruct (fetch_slice_cc_ s) as [f|] eqn:E; [|by destruct (negb force && _)].
  destruct (force && _); [destruct (decide _); [|done]|]; intros [= <- <-]; rewrite queue_request_eq; cbn.
  - exists f, (SetForceLoad f true). done.
  - exists f, f. rewrite E. done.
Qed.

(** The end of a load. *)
Lemma answers_woken l : answers (EnqueueCc <$> l) = l.
Proof. induction l as [|w l IH]; [done|]. cbn. by f_equal. Qed.
Lemma answers_aborted l err : answers ((λ w, AbortCc w err) <$> l) = l.
Proof. induction l as [|w l IH]; [done|]. cbn. by f_equal. Qed.
Lemma answers_fill l : answers (EnqueueFill <$> l) = [].
Proof. induction l as [|w l IH]; [done|]. cbn. done. Qed.

Definition load_over s (r : SliceResult) (st : SliceStatus) : Prop :=
  r.1.2 = (-1)%Z ∧ answers r.2 = cc_queue_ s ∧ ∃ size ts, r.1.1 = set_load (set_sizes (set_status (UpdateLastLoadTs s ts) st) size (post_ckpt_size_ s)) None [].

Lemma SetLoadingError_over s err : sl_pins_ s = 0%Z → ∃ r, SetLoadingError s err = Some r ∧ load_over s r PartiallyCached.
Proof.
  intros Hp. unfold SetLoadingError. rewrite decide_True by done. eexists. split; [done|]. split_and!; [done|apply answers_aborted|].
  exists (sl_size_ s), (last_load_ts_ s). by destruct s.
Qed.
Lemma CommitLoading_over s size : sl_pins_ s = 0%Z → sl_status_ s = BeingLoaded → ∃ r, CommitLoading s size = Some r ∧ load_over s r FullyCached.
Proof.
  intros Hp Hst. unfold CommitLoading. rewrite decide_True by done. eexists. split; [done|]. split_and!; [done|apply answers_woken|].
  exists size, (last_load_ts_ s). by destruct s.
Qed.

Definition counted s f (e : CcErrorCode) : StoreSlice K := set_load s (Some (set_finished f (finish_cnt_ f + 1) e)) (cc_queue_ s).

#[local] Arguments answers : simpl never.

(** A core has finished; the others have [n] of [cores]. *)
Lemma fill_step s f (n : nat) err : sl_pins_ s = 0%Z → sl_status_ s = BeingLoaded → fetch_slice_cc_ s = Some f → core_cnt_ f = cores → finish_cnt_ f = (Z.of_nat cores - Z.of_nat (S n))%Z → S n ≤ cores →
  let step := match err with None => fill_SetFinish s f | Some e => fill_SetError s f e end in
  let e := default (err_code_ f) err in
  if decide (n = 0) then ∃ r, step = Some (true, r) ∧ ∃ s1 st, load_over s1 r st ∧ (st = FullyCached → e = NO_ERROR ∧ err = None) ∧ (st ≠ BeingLoaded) ∧
      ∃ f', s1 = set_load s (Some f') (cc_queue_ s)
  else step = Some (false, (set_load s (Some (set_finished f (finish_cnt_ f + 1) e)) (cc_queue_ s), 0%Z, [])).
Proof.
  intros Hp Hst Hf Hc Hn Hle. cbv zeta. unfold fill_SetFinish, fill_SetError, with_fill. cbn [set_finished finish_cnt_]. rewrite u16_small by lia. rewrite Hc.
  destruct (decide (n = 0)) as [->|Hn0].
  - destruct err as [e|]; rewrite decide_True by lia; cbn [default].
    + destruct (SetLoadingError_over (counted s f e) e) as (r & E & Hr); [done|]. unfold counted in E. rewrite E. exists r. split; [done|].
      exists (counted s f e), PartiallyCached. split_and!; [done|done|done|by eexists].
    + destruct (decide (err_code_ f = NO_ERROR)) as [He|He].
      * destruct (CommitLoading_over (counted s f (err_code_ f)) (slice_size_ f)) as (r & E & Hr); [done|done|]. unfold counted in E. rewrite E. exists r. split; [done|].
        exists (counted s f (err_code_ f)), FullyCached. split_and!; [done|done|done|by eexists].
      * destruct (SetLoadingError_over (counted s f (err_code_ f)) (err_code_ f)) as (r & E & Hr); [done|]. unfold counted in E. rewrite E. exists r. split; [done|].
        exists (counted s f (err_code_ f)), PartiallyCached. split_and!; [done|done|done|by eexists].
  - destruct err; by rewrite decide_False by lia.
Qed.

(** ** The invariant *)

Definition loading_cnt f (n : nat) : Prop := core_cnt_ f = cores ∧ finish_cnt_ f = Z.of_nat n.

Definition phase_ok s (p : Phase (gset K)) : Prop :=
  match p with
  | Idle => fetch_slice_cc_ s = None ∧ cc_queue_ s = [] ∧ sl_status_ s ≠ BeingLoaded
  | Calling w async => (∃ f, fetch_slice_cc_ s = Some f ∧ loading_cnt f 0) ∧ sl_status_ s = PartiallyCached ∧ (async = false → ∃ w' q, w = Some w' ∧ cc_queue_ s = w' :: q)
  | Reading _ => (∃ f, fetch_slice_cc_ s = Some f ∧ loading_cnt f 0) ∧ sl_status_ s = PartiallyCached
  | Filling _ pending => (∃ f, fetch_slice_cc_ s = Some f ∧ loading_cnt f (cores - length pending)) ∧ sl_status_ s = BeingLoaded ∧ 0 < length pending ≤ cores
  end.

(** The keys of the data store that are in memory, or on their way. *)
Definition data_ok s (p : Phase (gset K)) (m d : gset K) : Prop :=
  (sl_status_ s = FullyCached → d ⊆ m) ∧
  match p with
  | Reading (Some data) => d ⊆ m ∪ data
  | Filling data pending => ∀ f, fetch_slice_cc_ s = Some f → err_code_ f = NO_ERROR → ∀ k, k ∈ d → k ∈ m ∨ k ∈ data ∧ fill_core hash f k ∈ pending
  | _ => True
  end.

Record inv y : Prop := {
  iv_pins : sl_pins_ (slice y) = Z.of_nat (pin_count y);
  iv_init : init_key_cache_cc_ (slice y) = if decide (init_pending y = []) then None else Some (Z.of_nat (length (init_pending y)));
  iv_cores : length (init_pending y) ≤ cores;
  iv_full : (0 < sl_pins_ (slice y))%Z → sl_status_ (slice y) = FullyCached;
  iv_phase : phase_ok (slice y) (phase y);
  iv_requests : entered y ≡ₚ cc_queue_ (slice y) ++ answered y;
  iv_range : range_pins y = u32 (weight (slice y) + others y);
  iv_others : (0 ≤ others y)%Z;
  iv_alter : to_alter_ (slice y) = match alter_state y with NoAlter => false | _ => true end;
  iv_asleep : alter_state y = Asleep → (0 < sl_pins_ (slice y))%Z ∨ 0 < notifiers y;
  iv_data : data_ok (slice y) (phase y) (mem y) (store y);
}.

Lemma not_idle_unpinned y : inv y → phase y ≠ Idle → sl_pins_ (slice y) = 0%Z.
Proof.
  intros [Hp _ _ Hfull Hph _ _ _ _ _ _] Hne. destruct (decide (0 < sl_pins_ (slice y))%Z) as [H0|H0]; [|lia]. specialize (Hfull H0).
  destruct (phase y) as [|w a|o|data pend]; cbn in Hph; [done|destruct Hph as (_ & E & _)|destruct Hph as (_ & E)|destruct Hph as (_ & E & _)]; by rewrite Hfull in E.
Qed.

Lemma range_moves y s' d : range_pins y = u32 (weight (slice y) + others y) → weight s' = (weight (slice y) + d)%Z → u32 (range_pins y + d) = u32 (weight s' + others y).
Proof. intros -> ->. rewrite u32_add. f_equal. lia. Qed.

(** *** Pins *)

Lemma inv_pin y w : inv y → sl_status_ (slice y) = FullyCached → to_alter_ (slice y) = false →
  let y' := on_pins (on_slice y (pin (slice y)) 1) (w :: holders y) (init_pending y) in few y' → inv y'.
Proof.
  intros [Hp Hi Hc Hf Hph Hr Hra Ho Ha Has Hd] Hst Hal y' [Hfew _]. unfold pin_count in Hfew; cbn in Hfew.
  assert (u16 (sl_pins_ (slice y) + 1) = sl_pins_ (slice y) + 1)%Z as E by (apply u16_small; rewrite Hp; unfold pin_count; case_decide; lia).
  split; cbn; try done.
  - rewrite E, Hp. unfold pin_count; cbn. lia.
  - apply range_moves; [done|]. unfold weight; cbn. rewrite E. lia.
  - intros Hx. rewrite Hal, Hx in Ha. done.
Qed.

(** A pin is given back; [b] says that the thread that alters the slice is woken up at once. *)
Lemma inv_unpin y h i b wake s0 s' d : inv y → UnpinSlice s0 = (wake, (s', d)) → s0 = set_init (set_validity (slice y) (cache_validity_ s0)) (init_key_cache_cc_ s0) →
  let y' := on_alter (on_pins (on_slice y (set_init s' (if decide (i = []) then None else Some (Z.of_nat (length i)))) d) h i)
    (if b && wake then wake_up (alter_state y) else alter_state y) (if b then notifiers y else notifiers y + count wake) in
  length i ≤ cores → S (length h + (if decide (i = []) then 0 else 1)) = pin_count y → inv y'.
Proof.
  intros [Hp Hi Hc Hf Hph Hr Hra Ho Ha Has Hd] Hu Es y' Hic Hcnt. subst y'. rewrite Es in Hu. rewrite UnpinSlice_pinned in Hu by (cbn; lia). cbn [set_init set_validity sl_pins_ to_alter_] in Hu.
  injection Hu as <- <- <-. split; cbn; try done.
  - rewrite Hp, <- Hcnt. unfold pin_count; cbn. lia.
  - intros Hpos. apply Hf. lia.
  - apply range_moves; [done|]. unfold weight; cbn. lia.
  - rewrite Ha. by destruct b, (bool_decide _), (alter_state y).
  - intros Hasl. destruct (decide (sl_pins_ (slice y) = 1%Z)) as [E1|E1]; [|left; assert (0 < pin_count y)%nat by lia; lia]. rewrite bool_decide_eq_true_2 in Hasl |- * by done.
    rewrite Ha in Hasl |- *. destruct b, (alter_state y); cbn in *; try done; right; lia.
Qed.

Lemma inv_notify y n : inv y → notifiers y = S n → inv (on_alter y (wake_up (alter_state y)) n).
Proof. intros [Hp Hi Hc Hf Hph Hr Hra Ho Ha Has Hd] Hn. split; cbn; try done; by destruct (alter_state y). Qed.

Lemma inv_init_start y s' d out : inv y → InitKeyCache (slice y) cores = (s', d, out) →
  let y' := on_pins (on_slice y s' d) (holders y) (if decide (d = 0)%Z then init_pending y else seq 0 cores) in few y' → inv y'.
Proof.
  intros Hinv Hini. pose proof Hinv as [Hp Hi Hc Hf Hph Hr Hra Ho Ha Has Hd]. unfold InitKeyCache in Hini. destruct (decide _) as [[Hst Hn]|_].
  - injection Hini as <- <- <-. rewrite decide_False by done. rewrite Hi in Hn. destruct (decide (init_pending y = [])) as [E0|]; [|done].
    intros y' [Hfew _]. unfold pin_count in Hfew; cbn in Hfew. assert (seq 0 cores ≠ []) as Hne by (destruct cores; [lia|done]). rewrite decide_False in Hfew by done.
    unfold pin_count in Hp. rewrite E0, decide_True in Hp by done. assert (u16 (sl_pins_ (slice y) + 1) = sl_pins_ (slice y) + 1)%Z as E by (apply u16_small; lia).
    split; cbn; try done.
    + unfold pin_count; cbn. rewrite decide_False, E by done. lia.
    + by rewrite decide_False, length_seq by done.
    + by rewrite length_seq.
    + apply range_moves; [done|]. unfold weight; cbn. rewrite E. lia.
    + intros Hx. left. rewrite E. lia.
  - injection Hini as <- <- <-. rewrite decide_True by done. intros y' _. split; cbn; try done. apply range_moves; [done|]. unfold weight. lia.
Qed.

Lemma inv_init_finish y p1 c p2 succ wake s' d : inv y → init_pending y = p1 ++ c :: p2 → init_SetFinish (slice y) c succ = Some (wake, (s', d)) →
  inv (on_alter (on_pins (on_slice y s' d) (holders y) (p1 ++ p2)) (alter_state y) (notifiers y + count wake)).
Proof.
  intros Hinv Hpe Hfin. pose proof Hinv as [Hp Hi Hc Hf Hph Hr Hra Ho Ha Has Hd]. unfold init_SetFinish in Hfin. rewrite Hi in Hfin.
  rewrite Hpe, decide_False in Hfin by by destruct p1. rewrite Hpe in Hc. rewrite length_app in Hc, Hfin. cbn [length] in Hc, Hfin. cbn [mbind option_bind] in Hfin.
  assert (∃ v, (s1 ← (if succ then SetKeyCacheValidity (slice y) c true else Some (slice y)); SetLoadingKeyCache s1 c false) = Some (set_validity (slice y) v) ∨
    (s1 ← (if succ then SetKeyCacheValidity (slice y) c true else Some (slice y)); SetLoadingKeyCache s1 c false) = None) as [v Hv].
  { unfold SetKeyCacheValidity, SetLoadingKeyCache, set_cache_bit. destruct succ; cbn; destruct (cache_validity_ (slice y) !! c); cbn; [|by exists []; right| |by exists []; right].
    - destruct (<[_:=_]> _ !! c); cbn; [eexists; by left|by exists []; right].
    - eexists. by left. }
  destruct (if succ then _ else _) as [s1|]; cbn [mbind option_bind] in Hfin, Hv; [|done]. destruct Hv as [Hv|Hv]; rewrite Hv in Hfin; [|done]. cbn [mbind option_bind] in Hfin.
  destruct (decide (_ = 1%Z)) as [E1|E1].
  - assert (p1 = [] ∧ p2 = []) as [-> ->] by (destruct p1, p2; cbn in E1; (done || lia)). cbn [app].
    destruct (UnpinSlice _) as [wake' [s4 d']] eqn:EU. injection Hfin as <- <- <-.
    pose proof (inv_unpin y (holders y) [] false wake' _ s4 d' Hinv EU eq_refl) as HX. cbn -[UnpinSlice] in HX. apply HX; [lia|].
    unfold pin_count. rewrite Hpe. rewrite decide_True, decide_False by done. lia.
  - injection Hfin as <- <- <-. rewrite u16_small by lia. assert (p1 ++ p2 ≠ []) as Hne by (destruct p1; [destruct p2; [cbn in E1; lia|done]|done]).
    cbn [count]. rewrite Nat.add_0_r. split; cbn; try done.
    + unfold pin_count in *; cbn. rewrite decide_False by done. rewrite Hpe, decide_False in Hp by by destruct p1. done.
    + rewrite decide_False by done. rewrite length_app. f_equal. lia.
    + rewrite length_app. lia.
    + apply range_moves; [done|]. unfold weight; cbn. lia.
Qed.

(** *** Loads *)

Lemma phase_fetch s p : phase_ok s p → is_Some (fetch_slice_cc_ s) ↔ p ≠ Idle.
Proof.
  destruct p; cbn; [intros (-> & _); split; [by intros [??]|done]|..]; intros [(f & -> & _) _]; (split; [done|by eexists]).
Qed.

Lemma inv_load y w force async now pooled s' d : inv y → sl_status_ (slice y) ≠ FullyCached →
  LoadSlice_start (slice y) force w now pooled cores = (LoadCalls, (s', d)) → (async = false → w ≠ None) →
  inv (on_phase (on_slice y s' d) (Calling w async) (option_list w) []).
Proof.
  intros [Hp Hi Hc Hf Hph Hr Hra Ho Ha Has [Hd _]] Hst (f & Hno & -> & -> & Hcnt & Hfin)%LoadSlice_start_calls Hw.
  assert (phase y = Idle) as E by (destruct (phase y); [done|..]; cbn in Hph; destruct Hph as [(? & Hs & _) _]; by rewrite Hno in Hs). rewrite E in Hph. destruct Hph as (_ & Hq & Hnb).
  split; cbn; try done.
  - split_and!; [by exists f|by destruct (sl_status_ (slice y))|]. intros Ha'. destruct w as [w|]; [|by destruct (Hw Ha')]. exists w, []. by rewrite Hq.
  - rewrite Hr, Hq, app_nil_r. cbn. by rewrite Permutation_app_comm.
  - apply range_moves; [done|]. unfold weight; cbn. rewrite Hno. lia.
Qed.

Lemma inv_join y w force now pooled s' d : inv y → LoadSlice_start (slice y) force w now pooled cores = (LoadReturns LoadSuccess, (s', d)) →
  inv (on_phase (on_slice y s' d) (phase y) (option_list w) []).
Proof.
  intros [Hp Hi Hc Hf Hph Hr Hra Ho Ha Has [Hd Hdp]] (f & f' & Hf0 & -> & -> & He & Hfin & Hcnt)%LoadSlice_start_joins.
  split; cbn; try done.
  - destruct (phase y) as [|w0 a|o|data pend]; cbn in Hph |- *; [by destruct Hph as (H0 & _); rewrite Hf0 in H0|..]; destruct Hph as [(f0 & E0 & [L1 L2]) Hph]; rewrite Hf0 in E0; injection E0 as <-;
      (split; [exists f'; split; [done|split; congruence]|]); [|done|done]. destruct Hph as [Hst Hq]. split; [done|]. intros [w' (q & -> & Hq')]%Hq. exists w', (q ++ option_list w). by rewrite Hq'.
  - rewrite app_nil_r, Hr. solve_Permutation.
  - apply range_moves; [done|]. unfold weight; cbn. rewrite Hf0. lia.
  - split; [done|]. destruct (phase y) as [|w0 a|o|data pend]; try done. intros f1 [= <-] He1 k Hk. destruct (Hdp f Hf0) with k as [|[? ?]]; [congruence|done|by left|right].
    split; [done|]. unfold fill_core in *. by rewrite Hcnt.
Qed.

Lemma inv_phase y p : inv y → phase_ok (slice y) p → data_ok (slice y) p (mem y) (store y) → inv (on_phase y p [] []).
Proof. intros [Hp Hi Hc Hf Hph Hr Hra Ho Ha Has Hd] H1 H2. split; cbn; try done. by rewrite !app_nil_r. Qed.

Lemma inv_reject y w async kv st r : inv y → phase y = Calling w async → kv ≠ StoreSuccess → LoadSlice_return (slice y) async kv = (st, r) →
  inv (apply y r Idle (if async then [] else option_list w)).
Proof.
  intros Hinv Hph Hkv Hret. pose proof (not_idle_unpinned y Hinv) as Hp0. rewrite Hph in Hp0. specialize (Hp0 ltac:(done)).
  destruct Hinv as [Hp Hi Hc Hf Hphase Hr Hra Ho Ha Has [Hd _]]. rewrite Hph in Hphase. destruct Hphase as ((f & Hf0 & _) & Hst & Hq).
  assert (∃ out, r = (set_load (slice y) None [], (-1)%Z, out) ∧ answers out = if async then cc_queue_ (slice y) else tail (cc_queue_ (slice y))) as (out & -> & Hout).
  { unfold LoadSlice_return in Hret. destruct kv; [done|..]; injection Hret as <- <-; eexists; (split; [done|]); [apply answers_woken|apply answers_aborted]. }
  unfold apply; cbn [fst snd]. split; cbn; try done.
  - by rewrite Hst.
  - rewrite app_nil_r, Hr, Hout. destruct async; [rewrite app_nil_r; apply Permutation_app_comm|]. destruct (Hq eq_refl) as (w' & q & -> & ->). cbn. solve_Permutation.
  - apply range_moves; [done|]. unfold weight; cbn. rewrite Hf0. lia.
Qed.

(** The load is over. *)
Lemma inv_over y s1 r st m : inv y → phase y ≠ Idle → (∃ fo, s1 = set_load (slice y) fo (cc_queue_ (slice y))) → load_over s1 r st → st ≠ BeingLoaded →
  (st = FullyCached → store y ⊆ m) → inv (on_data (apply y r Idle []) m (store y)).
Proof.
  intros Hinv Hne [fo ->] (Ed & Hout & size & ts & Es) Hst Hdata. pose proof (not_idle_unpinned y Hinv Hne) as Hp0. destruct Hinv as [Hp Hi Hc Hf Hph Hr Hra Ho Ha Has _].
  destruct r as [[s' d] out]. cbn in Ed, Hout, Es. subst d s'. unfold apply; cbn [fst snd]. apply phase_fetch in Hph as [_ Hfetch]. destruct (Hfetch Hne) as [f Hf0]. split; cbn; try done.
  - intros Hpos. by rewrite Hp0 in Hpos.
  - rewrite !app_nil_r, Hr, Hout. apply Permutation_app_comm.
  - apply range_moves; [done|]. unfold weight; cbn. rewrite Hf0. lia.
Qed.

Lemma on_data_same y : on_data y (mem y) (store y) = y.
Proof. by destruct y. Qed.

Lemma inv_kv y ok data ts r : inv y → phase y = Reading data → SetKvFinish (slice y) ok ts cores = Some r →
  match ok, data with
  | true, Some data => inv (apply y r (Filling data (seq 0 cores)) [])
  | true, None => True
  | false, _ => inv (apply y r Idle [])
  end.
Proof.
  intros Hinv Hph Hkv. pose proof (not_idle_unpinned y Hinv) as Hp0. rewrite Hph in Hp0. specialize (Hp0 ltac:(done)). destruct ok.
  - destruct data as [data|]; [|done]. destruct Hinv as [Hp Hi Hc Hf Hphase Hr Hra Ho Ha Has [_ Hd]]. rewrite Hph in Hphase, Hd. destruct Hphase as ((f & Hf0 & Hcnt) & Hst).
    unfold SetKvFinish, StartLoading in Hkv. cbn [UpdateLastLoadTs sl_pins_] in Hkv. rewrite decide_True in Hkv by done. injection Hkv as <-. unfold apply; cbn [fst snd]. split; cbn; try done.
    + intros Hpos. by rewrite Hp0 in Hpos.
    + rewrite length_seq. split; [exists f; split; [done|]; by rewrite Nat.sub_diag|]. split; [done|lia].
    + rewrite answers_fill, !app_nil_r. done.
    + apply range_moves; [done|]. unfold weight; cbn. lia.
    + split; [done|]. intros f1 Hf1 _ k [Hk|Hk]%Hd%elem_of_union; [by left|right]. split; [done|]. cbn in Hf1. rewrite Hf0 in Hf1. injection Hf1 as <-.
      destruct Hcnt as [Hcnt _]. unfold fill_core. rewrite Hcnt. apply elem_of_seq. pose proof (Z.mod_pos_bound (Z.land (hash k) 1023) (Z.of_nat cores)). lia.
  - unfold SetKvFinish in Hkv. destruct (SetLoadingError_over (UpdateLastLoadTs (slice y) ts) DATA_STORE_ERR) as (r' & E & Hov); [done|]. rewrite E in Hkv. injection Hkv as <-.
    rewrite <- (on_data_same (apply y r' Idle [])). apply (inv_over y (slice y) r' PartiallyCached); [done|by rewrite Hph|exists (fetch_slice_cc_ (slice y)); by destruct (slice y)| |done|done].
    destruct Hov as (H1 & H2 & size & ts' & H3). split_and!; [done|done|]. exists size, ts'. by rewrite H3.
Qed.

Lemma elem_part f c data k : k ∈ part f c data ↔ fill_core hash f k = c ∧ k ∈ data.
Proof. unfold part. by rewrite elem_of_filter. Qed.

Lemma inv_fill y data p1 c p2 f fin r (err : option CcErrorCode) (m := mem y ∪ (if err then ∅ else part f c data)) : inv y → phase y = Filling data (p1 ++ c :: p2) → fetch_slice_cc_ (slice y) = Some f → err ≠ Some NO_ERROR →
  match err with None => fill_SetFinish (slice y) f | Some e => fill_SetError (slice y) f e end = Some (fin, r) →
  inv (on_data (apply y r (if fin : bool then Idle else Filling data (p1 ++ p2)) []) m (store y)).
Proof.
  intros Hinv Hph Hf0 Herr Hstep. pose proof (not_idle_unpinned y Hinv) as Hp0. rewrite Hph in Hp0. specialize (Hp0 ltac:(done)).
  pose proof Hinv as [Hp Hi Hc Hf Hphase Hr Hra Ho Ha Has [_ Hd]]. rewrite Hph in Hphase, Hd. destruct Hphase as ((f0 & E0 & [Hcnt Hfin]) & Hst & Hlen).
  rewrite Hf0 in E0. injection E0 as <-. rewrite length_app in Hlen, Hfin. cbn [length] in Hlen, Hfin. specialize (Hd f Hf0).
  assert (default (err_code_ f) err = NO_ERROR → err = None ∧ ∀ k, k ∈ store y → k ∈ m ∨ k ∈ data ∧ fill_core hash f k ∈ p1 ++ p2) as Hdata.
  { intros He. destruct err as [e|]; [by destruct Herr; cbn in He; subst|]. split; [done|]. intros k Hk. subst m. destruct (Hd He k Hk) as [?|[Hkd Hcore]]; [left; set_solver|].
    destruct (decide (fill_core hash f k = c)); [left; apply elem_of_union_r, elem_part; done|right; split; [done|set_solver]]. }
  pose proof (fill_step (slice y) f (length (p1 ++ p2)) err Hp0 Hst Hf0 Hcnt) as Hfs. cbv zeta in Hfs. rewrite Hstep in Hfs. rewrite length_app in Hfs.
  specialize (Hfs ltac:(lia) ltac:(lia)). destruct (decide (length p1 + length p2 = 0)) as [E0|E0].
  - destruct Hfs as (r' & Er & s1 & st & Hov & Hfull & Hnb & f' & ->). injection Er as -> ->.
    apply (inv_over y (set_load (slice y) (Some f') (cc_queue_ (slice y))) r' st m); [done|by rewrite Hph|by eexists|done|done|]. intros [He Hn]%Hfull k Hk. destruct (Hdata He) as [_ Hx]. destruct (Hx k Hk) as [|[_ Hin]]; [done|].
    destruct p1, p2; try (cbn in E0; lia). by apply not_elem_of_nil in Hin.
  - injection Hfs as -> ->. unfold apply; cbn [fst snd]. split; cbn; try done.
    + split; [eexists; split; [done|]; split; [done|]; cbn; rewrite Hfin, length_app; lia|]. split; [done|]. rewrite length_app. lia.
    + by rewrite !app_nil_r.
    + apply range_moves; [done|]. unfold weight; cbn. rewrite Hf0. lia.
    + split; [intros E; cbn in E; by rewrite Hst in E|]. intros f1 [= <-] He k Hk. cbn in He. destruct (Hdata He) as [_ Hx]. by apply Hx.
Qed.

(** *** Memory, the data store, and altering *)

Lemma inv_evict y k s' : inv y → Kickout (slice y) = (true, s') → ¬ reading y → inv (on_data (on_slice y s' 0) (mem y ∖ {[ k ]}) (store y)).
Proof.
  intros [Hp Hi Hc Hf Hph Hr Hra Ho Ha Has [Hd Hdp]] Hk Hnr. unfold Kickout in Hk. destruct (_ || _) eqn:E; [done|]. injection Hk as <-.
  apply orb_false_iff in E as [E1%bool_decide_eq_false E2%bool_decide_eq_false]. split; cbn; try done.
  - destruct (phase y) as [|w a|o|data pend]; cbn in Hph |- *; [by destruct Hph as (? & ? & _)|destruct Hph as (? & _ & ?); done|by destruct Hph as [? _]|by destruct Hph as (_ & ? & _)].
  - apply range_moves; [done|]. unfold weight; cbn. lia.
  - split; [done|]. unfold reading in Hnr. destruct (phase y) as [|w a|[data|]|data pend]; try done. cbn in Hph. by destruct Hph as (_ & ? & _).
Qed.

Lemma inv_on_data y m d : inv y → mem y ⊆ m → (∀ k, k ∈ d → k ∈ store y ∨ k ∈ mem y) → inv (on_data y m d).
Proof.
  intros [Hp Hi Hc Hf Hph Hr Hra Ho Ha Has [Hd Hdp]] Hm Hs. split; cbn; try done. split.
  - intros Hst k [Hk|Hk]%Hs; [by apply Hm, Hd|by apply Hm].
  - destruct (phase y) as [|w a|[data|]|data pend]; try done.
    + intros k [Hk|Hk]%Hs; [|apply elem_of_union_l; by apply Hm]. specialize (Hdp k Hk). set_solver.
    + intros f Hf0 He k [Hk|Hk]%Hs; [|left; by apply Hm]. destruct (Hdp f Hf0 He k Hk) as [?|?]; [left; by apply Hm|by right].
Qed.

Lemma alter_done_ok y e size post n : inv y → sl_pins_ (slice y) = 0%Z → inv (on_alter (on_slice y (alter_done (slice y) e size post) 0) NoAlter n).
Proof.
  intros [Hp Hi Hc Hf Hph Hr Hra Ho Ha Has Hd] H0. split; cbn; try done. apply range_moves; [done|]. unfold weight; cbn. lia.
Qed.

Lemma inv_alter y e size post : inv y → alter_state y = NoAlter →
  inv (if ChangeAllowed (slice y) then on_slice y (alter_done (slice y) e size post) 0 else on_alter (on_slice y (set_alter (slice y) true) 0) Asleep (notifiers y)).
Proof.
  intros Hinv Hno. unfold ChangeAllowed. destruct (decide (sl_pins_ (slice y) = 0%Z)) as [E|E].
  - rewrite bool_decide_eq_true_2 by done. pose proof (alter_done_ok y e size post (notifiers y) Hinv E) as HX. rewrite <- Hno in HX. by destruct y.
  - rewrite bool_decide_eq_false_2 by done. destruct Hinv as [Hp Hi Hc Hf Hph Hr Hra Ho Ha Has Hd]. split; cbn; try done.
    + apply range_moves; [done|]. unfold weight; cbn. lia.
    + intros _. left. lia.
Qed.

Lemma inv_alter_woken y e size post : inv y → alter_state y = Woken →
  inv (if ChangeAllowed (slice y) then on_alter (on_slice y (alter_done (slice y) e size post) 0) NoAlter (notifiers y) else on_alter y Asleep (notifiers y)).
Proof.
  intros Hinv Hw. unfold ChangeAllowed. destruct (decide (sl_pins_ (slice y) = 0%Z)) as [E|E].
  - rewrite bool_decide_eq_true_2 by done. by apply alter_done_ok.
  - rewrite bool_decide_eq_false_2 by done. destruct Hinv as [Hp Hi Hc Hf Hph Hr Hra Ho Ha Has Hd]. split; cbn; try done.
    + by rewrite Hw in Ha.
    + intros _. left. lia.
Qed.

Lemma inv_others y n : inv y → (0 ≤ others y + n)%Z → inv (on_others y n).
Proof. intros [Hp Hi Hc Hf Hph Hr Hra Ho Ha Has Hd] Hn. split; cbn; try done. rewrite Hra, u32_add. f_equal. lia. Qed.

(** ** Every run *)

Lemma step_inv y y' : inv y → few y' → step true y y' → inv y'.
Proof.
  intros Hinv Hfew Hstep. destruct Hstep as [w Hst Hal|w h1 h2 wake s' d Hh Hu|w h1 h2 wake s' d Hh Hu|n Hn|w force async now pooled s' d Hst Hl Hw Hstr|w force now pooled s' d Hst Hl
    |w async Hph|w async kv st r Hph Hkv Hret|Hph|data ts r Hph Hkv|data ts r Hph Hkv|data p1 c p2 f fin r Hph Hf0 Hfin|data p1 c p2 f fin r err Hph Hf0 He Hfin
    |k s' Hk Hnr|k|k Hk|k|s' d out Hini|p1 c p2 succ wake s' d Hpe Hfin|e size post Ha|e size post Ha|n Hn].
  - by apply inv_pin.
  - pose proof Hinv as [Hp Hi Hc _ _ _ _ _ _ _ _]. pose proof (inv_unpin y (h1 ++ h2) (init_pending y) false wake (slice y) s' d Hinv Hu) as HX. cbn -[UnpinSlice] in HX.
    rewrite <- Hi in HX. rewrite UnpinSlice_pinned in Hu by (rewrite Hp; unfold pin_count; rewrite Hh, length_app; cbn; lia). injection Hu as <- <- <-. apply HX; [by destruct (slice y)|done|].
    unfold pin_count. rewrite Hh, !length_app. cbn. lia.
  - pose proof Hinv as [Hp Hi Hc _ _ _ _ _ _ _ _]. pose proof (inv_unpin y (h1 ++ h2) (init_pending y) true wake (slice y) s' d Hinv Hu) as HX. cbn -[UnpinSlice] in HX.
    rewrite <- Hi in HX. rewrite UnpinSlice_pinned in Hu by (rewrite Hp; unfold pin_count; rewrite Hh, length_app; cbn; lia). injection Hu as <- <- <-. apply HX; [by destruct (slice y)|done|].
    unfold pin_count. rewrite Hh, !length_app. cbn. lia.
  - by apply inv_notify.
  - eapply inv_load; [done..|]. by apply Hstr.
  - by eapply inv_join.
  - apply inv_phase; [done|..]; destruct Hinv as [_ _ _ _ Hphase _ _ _ _ _ [Hd _]]; rewrite Hph in Hphase; destruct Hphase as (? & ? & _); [by split|by split].
  - by eapply inv_reject.
  - apply inv_phase; [done|..]; destruct Hinv as [_ _ _ _ Hphase _ _ _ _ _ [Hd _]]; rewrite Hph in Hphase; [done|]. split; [done|]. set_solver.
  - exact (inv_kv y true (Some data) ts r Hinv Hph Hkv).
  - exact (inv_kv y false data ts r Hinv Hph Hkv).
  - exact (inv_fill y data p1 c p2 f fin r None Hinv Hph Hf0 ltac:(done) Hfin).
  - pose proof (inv_fill y data p1 c p2 f fin r (Some err) Hinv Hph Hf0 ltac:(naive_solver) Hfin) as HX. cbn in HX. by rewrite union_empty_r_L in HX.
  - apply inv_evict; [done..|]. by apply Hnr.
  - apply inv_on_data; [done|set_solver|by left].
  - apply inv_on_data; [done|done|set_solver].
  - apply inv_on_data; [done|done|set_solver].
  - by eapply inv_init_start.
  - by eapply inv_init_finish.
  - by apply inv_alter.
  - by apply inv_alter_woken.
  - by apply inv_others.
Qed.

Lemma inv_initial s m d : fresh_slice s m d → inv (initial s m d).
Proof.
  intros [Hp Ha (Hf & Hq & Hi) Hst]. split; cbn; try done.
  - lia.
  - by rewrite Hp.
  - split_and!; [done|done|]. by destruct Hst as [-> | [-> _]].
  - by rewrite Hq.
  - unfold weight. rewrite Hp, Hf. done.
  - split; [|done]. destruct Hst as [-> | [_ ?]]; done.
Qed.

Lemma slice_run_inv s m d y : fresh_slice s m d → run true (initial s m d) y → inv y.
Proof.
  intros Hfs. intros Hr. assert (inv (initial s m d)) as Hi by by apply inv_initial. revert Hi. induction Hr as [|y1 y2 y3 [Hs Hf] _ IH]; [done|]. intros Hi. apply IH. by eapply step_inv.
Qed.


(** ** Loads come to an end *)

Definition same_pins y y' : Prop := holders y' = holders y ∧ init_pending y' = init_pending y ∧ others y' = others y.
Lemma few_same y y' : few y → same_pins y y' → few y'.
Proof. unfold few, pin_count. intros H1 (-> & -> & ->). done. Qed.

Lemma run_step y y' : step true y y' → few y → same_pins y y' → run true y y'.
Proof. intros Hs Hf Hp. apply rtc_once. split; [done|by eapply few_same]. Qed.

Definition load_ends y : Prop := ∃ y', run true y y' ∧ phase y' = Idle ∧ cc_queue_ (slice y') = [].
Lemma load_ends_step y y' : step true y y' → few y → same_pins y y' → inv y → (few y' → inv y' → load_ends y') → load_ends y.
Proof.
  intros Hs Hf Hp Hi IH. assert (few y') as Hf' by by eapply few_same. destruct (IH Hf') as (y2 & Hr & Hx); [by eapply step_inv|]. exists y2. split; [|done]. etrans; [|exact Hr]. by apply run_step.
Qed.

Lemma filling_ends n : ∀ y data pending, phase y = Filling data pending → length pending = S n → few y → inv y → load_ends y.
Proof.
  induction n as [|n IH]; intros y data [|c pending] Hph Hlen Hfew Hinv; try done; pose proof Hinv as [_ _ _ _ Hphase _ _ _ _ _ _]; rewrite Hph in Hphase;
    destruct Hphase as ((f & Hf0 & Hcnt & Hfin) & Hst & Hle); cbn [length] in Hlen, Hle, Hfin; injection Hlen as Hlen;
    pose proof (fill_step (slice y) f (length pending) None (not_idle_unpinned y Hinv ltac:(by rewrite Hph)) Hst Hf0 Hcnt ltac:(lia) ltac:(lia)) as Hfs; cbv zeta in Hfs; rewrite Hlen in Hfs.
  - rewrite decide_True in Hfs by done. destruct Hfs as (r & Er & s1 & st & (_ & _ & size & ts & Es) & _ & _ & f' & ->). eexists. split; [apply run_step; [apply (st_fill true y data [] c pending f true r Hph Hf0 Er)|done|done]|].
    split; [done|]. cbn. by rewrite Es.
  - rewrite decide_False in Hfs by done. eapply load_ends_step; [apply (st_fill true y data [] c pending f false _ Hph Hf0 Hfs)|done|done|done|]. intros Hf' Hi'. by eapply IH.
Qed.

Lemma load_can_end y : few y → inv y → load_ends y.
Proof.
  assert (∀ y data, phase y = Reading (Some data) → few y → inv y → load_ends y) as Hread.
  { intros y0 data Hph Hf Hi. assert (sl_pins_ (slice y0) = 0%Z) as Hp by (apply not_idle_unpinned; [done|by rewrite Hph]).
    destruct (SetKvFinish (slice y0) true 0 cores) as [r|] eqn:E; [|by unfold SetKvFinish, StartLoading in E; cbn [UpdateLastLoadTs sl_pins_] in E; rewrite decide_True in E].
    eapply load_ends_step; [by eapply st_kv_ok|done|done|done|]. intros Hf' Hi'. eapply (filling_ends (cores - 1)); [done|rewrite length_seq; lia|done|done]. }
  assert (∀ y o, phase y = Reading o → few y → inv y → load_ends y) as Hread'.
  { intros y0 [data|] Hph Hf Hi; [by eapply Hread|]. eapply load_ends_step; [by apply st_read|done|done|done|]. intros Hf' Hi'. by eapply Hread. }
  intros Hf Hi. destruct (phase y) as [|w a|o|data pend] eqn:Hph.
  - exists y. split; [apply rtc_refl|]. split; [done|]. destruct Hi as [_ _ _ _ Hphase _ _ _ _ _ _]. rewrite Hph in Hphase. by destruct Hphase as (_ & ? & _).
  - eapply load_ends_step; [by eapply st_accept|done|done|done|]. intros Hf' Hi'. by eapply Hread'.
  - by eapply Hread'.
  - pose proof Hi as [_ _ _ _ Hphase _ _ _ _ _ _]. rewrite Hph in Hphase. destruct Hphase as (_ & _ & Hlen). destruct (length pend) as [|n] eqn:E; [lia|]. by eapply filling_ends.
Qed.


(** The thread that waits to alter a slice: while it sleeps somebody has pinned the slice, or a thread
    is on its way to wake it up; and nobody can pin the slice any more. *)
Theorem alter_not_forgotten s m d y : fresh_slice s m d → run true (initial s m d) y → alter_state y = Asleep →
  to_alter_ (slice y) = true ∧ (holders y ≠ [] ∨ init_pending y ≠ [] ∨ 0 < notifiers y).
Proof.
  intros Hfs Hr Ha. destruct (slice_run_inv s m d y Hfs Hr) as [Hp Hi Hc Hf Hph Hrq Hra Ho Hal Has Hd]. rewrite Ha in Hal. split; [done|].
  destruct (Has Ha) as [Hpos|?]; [|by right; right]. rewrite Hp in Hpos. unfold pin_count in Hpos. destruct (holders y); [|by left]. cbn in Hpos. case_decide; [lia|]. by right; left.
Qed.
End protocol.
