(* ===== verification/SliceDemo.v ===== *)
(** * Runs of one slice

    A slice with one core: a load that lets a request pin the slice, and runs in which the source
    does not do what it is meant to: a key that is evicted while the data store is being read, a
    request that is forgotten, and objects of the pool that keep what they had before. *)

From S2P Require Import Prelude CcProtocol CcPages StoreSlice SliceProtocol.

Definition zero_hash (k : Z) : Z := 0.
Definition cold : StoreSlice Z := StoreSlice_new (Ordinary 0%Z) (Ordinary 10%Z) 0 PartiallyCached false false 1.
Definition pooled : FillStoreSliceCc Z := FillStoreSliceCc_new.
Definition reader : Waiter := (7%Z, 0%Z).
Definition start_state (m d : gset Z) : sys Z := initial cold m d.

Lemma cold_fresh m d : fresh_slice cold m d.
Proof. split; [done..|by left]. Qed.
Lemma one_core : (0 < Z.of_nat 1 < 2 ^ 16)%Z.
Proof. lia. Qed.

(** The data store has the keys 1 and 2; the request loads the slice and pins it. *)
Definition loaded (y : sys Z) : Prop := holders y = [reader] ∧ answered y = [reader] ∧ entered y = [reader].
Lemma load_run : ∃ y, run zero_hash 1 true (start_state ∅ {[ 1%Z; 2%Z ]}) y ∧ loaded y ∧ few y.
Proof.
  eexists. split; [|split].
  - eapply rtc_l. split; [eapply (st_load _ _ _ _ (Some reader) true false 0 pooled); [done|vm_compute; reflexivity|done|done]|by split; vm_compute].
    eapply rtc_l. split; [eapply st_accept; reflexivity|by split; vm_compute].
    eapply rtc_l. split; [eapply st_read; reflexivity|by split; vm_compute].
    eapply rtc_l. split; [eapply (st_kv_ok _ _ _ _ _ 0); [reflexivity|vm_compute; reflexivity]|by split; vm_compute].
    eapply rtc_l. split; [eapply (st_fill _ _ _ _ _ [] 0 []); [reflexivity|reflexivity|vm_compute; reflexivity]|by split; vm_compute].
    eapply rtc_l. split; [eapply (st_pin _ _ _ _ reader); reflexivity|by split; vm_compute].
    apply rtc_refl.
  - done.
  - by split; vm_compute.
Qed.



(** ** A key that is evicted while the data store is read

    Key 3 is in memory and not in the data store when the data store is read.  It is flushed
    and evicted before the records arrive, which [Kickout] allows because the slice is only partially
    cached.  The slice is then marked as fully cached and pinned, without key 3. *)
Lemma evicted_while_reading : ∃ y, run zero_hash 1 false (start_state {[ 3%Z ]} {[ 1%Z ]}) y ∧
  holders y = [reader] ∧ sl_status_ (slice y) = FullyCached ∧ 3%Z ∈ store y ∧ 3%Z ∉ mem y.
Proof.
  eexists. split; [|split_and!].
  - eapply rtc_l. split; [eapply (st_load _ _ _ _ (Some reader) true false 0 pooled); [done|vm_compute; reflexivity|done|done]|by split; vm_compute].
    eapply rtc_l. split; [eapply st_accept; reflexivity|by split; vm_compute].
    eapply rtc_l. split; [eapply st_read; reflexivity|by split; vm_compute].
    eapply rtc_l. split; [eapply (st_flush _ _ _ _ 3%Z); vm_compute; reflexivity|by split; vm_compute].
    eapply rtc_l. split; [eapply (st_evict _ _ _ _ 3%Z); [vm_compute; reflexivity|done]|by split; vm_compute].
    eapply rtc_l. split; [eapply (st_kv_ok _ _ _ _ _ 0); [reflexivity|vm_compute; reflexivity]|by split; vm_compute].
    eapply rtc_l. split; [eapply (st_fill _ _ _ _ _ [] 0 []); [reflexivity|reflexivity|vm_compute; reflexivity]|by split; vm_compute].
    eapply rtc_l. split; [eapply (st_pin _ _ _ _ reader); reflexivity|by split; vm_compute].
    apply rtc_refl.
  - done.
  - done.
  - vm_compute. done.
  - vm_compute. intros Hx. discriminate Hx.
Qed.

(** ** A request that is forgotten

    A slice is prefetched without a request by a caller that waits for the data store; a request joins the
    load; the data store asks to retry.  The caller drops the first request of the queue, which it takes
    for its own. *)
Lemma prefetch_forgets_request : ∃ y, run zero_hash 1 false (start_state ∅ ∅) y ∧
  phase y = Idle ∧ entered y = [reader] ∧ cc_queue_ (slice y) = [] ∧ answered y = [].
Proof.
  eexists. split; [|split_and!].
  - eapply rtc_l. split; [eapply (st_load _ _ _ _ None true false 0 pooled); [done|vm_compute; reflexivity|done|done]|by split; vm_compute].
    eapply rtc_l. split; [eapply (st_join _ _ _ _ (Some reader) false 0 pooled); [done|vm_compute; reflexivity]|by split; vm_compute].
    eapply rtc_l. split; [eapply (st_reject _ _ _ _ _ _ StoreRetry); [reflexivity|done|vm_compute; reflexivity]|by split; vm_compute].
    apply rtc_refl.
  - done.
  - done.
  - done.
  - done.
Qed.

(** ** Objects of the pool

    An object that has been used for a load that failed makes the next load fail, although every
    core has filled its part; and the size of a slice is the sum of all slices that the object has
    loaded. *)
Definition used : FillStoreSliceCc Z := mkFill false 1 1 OUT_OF_MEMORY [0] [[]] (Ordinary 0%Z) (Ordinary 10%Z) 0 0.
Definition being_loaded (f : FillStoreSliceCc Z) : StoreSlice Z := set_load (set_status cold BeingLoaded) (Some f) [reader].

Lemma reused_fill_fails : let f := fill_Reset used false 1 (Ordinary 0%Z) (Ordinary 10%Z) in
  ∃ s', fill_SetFinish (being_loaded f) f = Some (true, (s', (-1)%Z, [AbortCc reader OUT_OF_MEMORY])) ∧ sl_status_ s' = PartiallyCached.
Proof. eexists. split; [vm_compute; reflexivity|done]. Qed.

Definition big_item (k : Z) : SliceDataItem Z := mkItem k 8 92 5 false.
Lemma reused_fill_size :
  let first := fill_Reset pooled false 1 (Ordinary 0%Z) (Ordinary 10%Z) in
  ∃ f1 f2 s', AddDataItem zero_hash first (big_item 1) = Some f1 ∧ AddDataItem zero_hash (fill_Reset f1 false 1 (Ordinary 10%Z) (Ordinary 20%Z)) (big_item 11) = Some f2 ∧
    fill_SetFinish (being_loaded f2) f2 = Some (true, (s', (-1)%Z, [EnqueueCc reader])) ∧ sl_size_ s' = 200%Z.
Proof. do 3 eexists. split; [vm_compute; reflexivity|]. split; [vm_compute; reflexivity|]. split; [vm_compute; reflexivity|]. reflexivity. Qed.
