(* ===== verification/StoreRange.v ===== *)
(** * Ranges and their slices ([TemplateStoreRange], [include/cc/range_slice.h])

    A range is cut into slices by a sorted vector of boundary keys; slice [i] goes from the boundary
    before it to the one behind it.  The file has the search for the slice of a key, the
    construction of a range, the splitting of a slice and of the range, the sizes that the
    checkpointer keeps, and the choice of the keys at which a range is split.  The theorems
    say that the slices always partition the range: every key is in exactly one slice, the one that
    the search finds, whatever slices have been split.

    A pointer to a slice is its start key, which never changes and by which the source itself
    finds the position of a slice.  [None] is a failed assertion or an access out of range. *)

From stdpp Require Import sorting.
From S2P Require Import Prelude CcProtocol CcEntry LruList CcPages PagesRep RandomPairing StoreSlice.

Record SliceInitInfo (K : Type) := mkInitInfo { ii_key_ : SearchKey K; ii_size_ : Z; ii_status_ : SliceStatus }.
Arguments mkInitInfo {_}.
Arguments ii_key_ {_}.
Arguments ii_size_ {_}.
Arguments ii_status_ {_}.

Record SliceChangeInfo (K : Type) := mkChangeInfo { ci_key_ : SearchKey K; ci_cur_size_ : Z; ci_post_update_size_ : Z }.
Arguments mkChangeInfo {_}.
Arguments ci_key_ {_}.
Arguments ci_cur_size_ {_}.
Arguments ci_post_update_size_ {_}.

Record StoreRange (K : Type) := mkRange {
  range_start_key_ : SearchKey K;
  range_end_key_ : option (SearchKey K);
  boundary_keys_ : list K;
  slices_ : list (StoreSlice K);
}.
Arguments mkRange {_}.
Arguments range_start_key_ {_}.
Arguments range_end_key_ {_}.
Arguments boundary_keys_ {_}.
Arguments slices_ {_}.

Section range.
Context {K : Type} `{!KeyOrder K} (key_cache : bool) (cores : nat).
Implicit Types (rg : StoreRange K) (s : StoreSlice K) (key : SearchKey K) (l : list K).

Definition set_slices rg bs (ss : list (StoreSlice K)) : StoreRange K := mkRange (range_start_key_ rg) (range_end_key_ rg) bs ss.

(** The constructor: one slice. *)
Definition StoreRange_new (start_key end_key : SearchKey K) (empty_range : bool) : StoreRange K :=
  mkRange start_key (Some end_key) []
    [StoreSlice_new start_key end_key 0 (if empty_range then FullyCached else PartiallyCached) key_cache (empty_range && key_cache) cores].

(** [SetRangeEndKey]. *)
Definition SetRangeEndKey rg (end_key : SearchKey K) : option (StoreRange K) :=
  s ← last (slices_ rg);
  Some (mkRange (range_start_key_ rg) (Some end_key) (boundary_keys_ rg) (take (length (slices_ rg) - 1) (slices_ rg) ++ [set_end_key s end_key])).

(** ** Searching *)

Fixpoint lower_bound_loop (fuel : nat) l key (first_idx len : nat) : option nat :=
  match fuel with
  | 0 => None
  | S fuel =>
      if decide (len = 0) then Some first_idx
      else
        let half_len := Nat.div2 len in
        let middle_idx := first_idx + half_len in
        k ← l !! middle_idx;
        if search_lt (Ordinary k) key then lower_bound_loop fuel l key (middle_idx + 1) (len - half_len - 1)
        else lower_bound_loop fuel l key first_idx half_len
  end.
Definition LowerBound l key : option nat := lower_bound_loop (S (length l)) l key 0 (length l).

Definition SearchSlice rg key (inclusive_slice : bool) : option nat :=
  i ← LowerBound (boundary_keys_ rg) key;
  if decide (i = length (boundary_keys_ rg)) then Some i
  else
    b ← boundary_keys_ rg !! i;
    Some (if bool_decide (Ordinary b = key) && inclusive_slice then i + 1 else i).

Definition FindSlice rg key : option (StoreSlice K) := i ← SearchSlice rg key true; slices_ rg !! i.
Definition SubSlices rg start_key end_key (inclusive : bool) : option (list (StoreSlice K)) :=
  i ← SearchSlice rg start_key true;
  j ← SearchSlice rg end_key inclusive;
  Some (take (S j - i) (drop i (slices_ rg))).

(** ** Building a range *)

(** The slices behind the first one, with the next start keys. *)
Fixpoint init_slices (infos : list (SliceInitInfo K)) (end_key : SearchKey K) : list (StoreSlice K) :=
  match infos with
  | [] => []
  | info :: rest =>
      StoreSlice_new (ii_key_ info) (match rest with next :: _ => ii_key_ next | [] => end_key end) (ii_size_ info) (ii_status_ info) key_cache false cores
      :: init_slices rest end_key
  end.
Definition normal_key key : option K := match key with Ordinary k => Some k | _ => None end.
Definition InitSlices rg (infos : list (SliceInitInfo K)) : option (StoreRange K) :=
  end_key ← range_end_key_ rg;
  match infos with
  | [] => None
  | info :: rest =>
      bs ← mapM (normal_key ∘ ii_key_) rest;
      Some (set_slices rg bs (init_slices (mkInitInfo (range_start_key_ rg) (ii_size_ info) (ii_status_ info) :: rest) end_key))
  end.

(** ** Splitting a slice *)

(** A new sub-slice takes over the state of the slice. *)
Definition sub_slice s (info : SliceChangeInfo K) (sub_end : SearchKey K) : StoreSlice K :=
  let n := StoreSlice_new (ci_key_ info) sub_end (ci_cur_size_ info) PartiallyCached (bool_decide (cache_validity_ s ≠ [])) false cores in
  set_validity (UpdateLastLoadTs (set_status (SetPostCkptSize n (ci_post_update_size_ info)) (sl_status_ s)) (last_load_ts_ s)) (cache_validity_ s).

Fixpoint update_loop rg s (slice_end : SearchKey K) (slice_idx idx : nat) (infos : list (SliceChangeInfo K)) : option (StoreRange K) :=
  match infos with
  | [] => Some rg
  | info :: rest =>
      k ← normal_key (ci_key_ info);
      let sub_end := match rest with next :: _ => ci_key_ next | [] => slice_end end in
      update_loop (set_slices rg (insert_at (slice_idx + idx - 1) k (boundary_keys_ rg)) (insert_at (slice_idx + idx) (sub_slice s info sub_end) (slices_ rg)))
        s slice_end slice_idx (S idx) rest
  end.

Definition UpdateSlice rg (slice : SearchKey K) (split_keys : list (SliceChangeInfo K)) : option (StoreRange K) :=
  match split_keys with
  | first :: rest =>
      second ← head rest;
      slice_idx ← (if decide (slice = NegativeInfinity) then Some 0 else SearchSlice rg slice true);
      s ← slices_ rg !! slice_idx;
      let s' := set_sizes (set_end_key s (ci_key_ second)) (ci_cur_size_ first) (ci_post_update_size_ first) in
      update_loop (set_slices rg (boundary_keys_ rg) (<[slice_idx := s']> (slices_ rg))) s' (sl_end_key_ s) slice_idx 1 rest
  | [] => None
  end.

(** ** Splitting a range *)

Definition slice_busy s : bool :=
  bool_decide (0 < sl_pins_ s)%Z || bool_decide (sl_status_ s = BeingLoaded)
  || (if fetch_slice_cc_ s then true else false) || (if init_key_cache_cc_ s then true else false).

Definition init_info (b : K) s : SliceInitInfo K := mkInitInfo (Ordinary b) (u32 (sl_size_ s)) (sl_status_ s).

(** The slices from [new_end] on are taken out; [false] when a slice is in use. *)
Definition SplitRange rg (new_end : SearchKey K) : option (bool * list (SliceInitInfo K) * StoreRange K) :=
  remove_offset ← SearchSlice rg new_end true;
  if decide (remove_offset = 0) then Some (true, [], rg)
  else if existsb slice_busy (slices_ rg) then Some (false, [], rg)
  else
    let removed := zip_with init_info (drop (remove_offset - 1) (boundary_keys_ rg)) (drop remove_offset (slices_ rg)) in
    if decide (removed = []) then None
    else Some (true, removed, mkRange (range_start_key_ rg) None (take (remove_offset - 1) (boundary_keys_ rg)) (take remove_offset (slices_ rg))).

(** ** Sizes *)

Definition slice_post_size s : Z := if decide (post_ckpt_size_ s ≠ UINT64_MAX) then post_ckpt_size_ s else sl_size_ s.
Definition PostCkptSize rg : Z := foldl (λ size s, u64 (size + slice_post_size s)) 0%Z (slices_ rg).

Definition update_after_flush (flush_res : bool) s : bool * StoreSlice K :=
  if flush_res then UpdateSize s else (false, SetPostCkptSize s UINT64_MAX).
(** The slices of [start_key, end_key), or all of them. *)
Definition flushed_slices rg (bounds : option (SearchKey K * SearchKey K)) : option (nat * nat) :=
  match bounds with
  | None => Some (0, length (slices_ rg))
  | Some (start_key, end_key) =>
      i ← SearchSlice rg start_key true;
      Some (i, i + 1 + partition_point (λ s, search_lt (sl_start_key_ s) end_key = true) (drop (i + 1) (slices_ rg)))
  end.
Definition UpdateSliceSizeAfterFlush rg (bounds : option (SearchKey K * SearchKey K)) (flush_res : bool) : option (bool * StoreRange K) :=
  '(i, j) ← flushed_slices rg bounds;
  let flushed := update_after_flush flush_res <$> take (j - i) (drop i (slices_ rg)) in
  Some (existsb fst flushed, set_slices rg (boundary_keys_ rg) (take i (slices_ rg) ++ flushed.*2 ++ drop j (slices_ rg))).

(** ** The keys at which a range is split *)

(** [UpdateSliceSpec(slice, split_keys)], once the pins of the slice are gone: nobody else alters the
    slice. *)
Definition alter_slice rg s (split_keys : list (SliceChangeInfo K)) : option (StoreRange K) :=
  if to_alter_ s then None else UpdateSlice rg (sl_start_key_ s) split_keys.

(** [UpdateSliceSpec(slice, new_range_keys, first_idx, subslice_cnt)]; [ks] are the new keys of the
    slice. *)
Definition UpdateSliceSpec rg s (ks : list K) : option (StoreRange K) :=
  let cnt := Z.of_nat (S (length ks)) in
  let info key := mkChangeInfo key (u32 (sl_size_ s / cnt)) (u32 (post_ckpt_size_ s / cnt)) in
  alter_slice rg s (info (sl_start_key_ s) :: (info ∘ Ordinary <$> ks)).

(** The slices of the next sub-range: how many, and the slice that is too large for one. *)
Fixpoint next_subrange (ss : list (StoreSlice K)) (cur avg : Z) : nat * option (StoreSlice K) :=
  match ss with
  | [] => (0, None)
  | s :: ss =>
      if decide (cur < avg)%Z then
        if decide (post_ckpt_size_ s ≠ UINT64_MAX ∧ avg < post_ckpt_size_ s)%Z then (0, Some s)
        else let '(n, large) := next_subrange ss (u64 (cur + slice_post_size s)) avg in (S n, large)
      else (0, None)
  end.

Section split_keys.
(** [SampleSubRangeKeys]: up to as many keys of the slice as asked for. *)
Context (sample : StoreSlice K → nat → option (list K)).

Definition subrange_start rg (idx : nat) (keys : list K) : option (list K) :=
  if decide (idx = 0) then Some keys
  else s ← slices_ rg !! idx; k ← normal_key (sl_start_key_ s); Some (keys ++ [k]).

Fixpoint split_keys_loop (fuel : nat) rg (avg : Z) (slice_idx : nat) (keys : list K) : option (bool * list K * StoreRange K) :=
  match fuel with
  | 0 => None
  | S fuel =>
      if decide (slice_idx < length (slices_ rg)) then
        let '(n, large) := next_subrange (drop slice_idx (slices_ rg)) 0 avg in
        keys1 ← subrange_start rg slice_idx keys;
        match large with
        | None => split_keys_loop fuel rg avg (slice_idx + n) keys1
        | Some s =>
            let cnt := (post_ckpt_size_ s / avg)%Z in
            match sample s (Z.to_nat (if decide (cnt < 2)%Z then 2 else cnt) - 1) with
            | None => Some (false, keys1, rg)
            | Some ks =>
                rg' ← (if decide (ks = []) then Some rg else UpdateSliceSpec rg s ks);
                split_keys_loop fuel rg' avg (slice_idx + n + S (length ks)) (keys1 ++ ks)
            end
        end
      else Some (true, keys, rg)
  end.

(** [subrange_cnt] is the number of sub-ranges, which the source computes in floating point. *)
Definition CalculateRangeSplitKeys rg (post_ckpt_size subrange_cnt : Z) : option (bool * list K * StoreRange K) :=
  split_keys_loop (S (length (slices_ rg))) rg (post_ckpt_size / subrange_cnt) 0 [].
End split_keys.

(** *** Sampling the keys of a slice *)

(** The last part of [Execute(SampleSubRangeKeysCc)]: keys at equal distances. *)
Definition target_keys (sample_keys : list K) (target_cnt : nat) : list K :=
  let step_size := Nat.max 1 (length sample_keys / (target_cnt + 1)) in
  omap (λ i, sample_keys !! (step_size * (i + 1))) (seq 0 target_cnt).

(** [scan] is what the handler finds in the cc map, in order: the keys of the slice that are committed
    and not deleted. *)
Definition sample_capacity (target_cnt : nat) : Z := Z.max 1024 (u32 (Z.of_nat target_cnt * 10)).
Definition SampleSubRangeKeys (scan : StoreSlice K → option (list K)) (rs : nat → Z) s (target_cnt : nat) : option (list K) :=
  keys ← scan s;
  p ← insert_all (RandomPairing_new (sample_capacity target_cnt)) keys 0 rs;
  Some (target_keys (sample_pool_ p) target_cnt).

(** ** The slices partition the range *)

Definition span s : SearchKey K * SearchKey K := (sl_start_key_ s, sl_end_key_ s).

(** The intervals between the boundaries. *)
Fixpoint spans (start_key : SearchKey K) l (end_key : SearchKey K) : list (SearchKey K * SearchKey K) :=
  match l with [] => [(start_key, end_key)] | b :: l => (start_key, Ordinary b) :: spans (Ordinary b) l end_key end.

Lemma spans_app start_key l1 b l2 end_key : spans start_key (l1 ++ b :: l2) end_key = spans start_key l1 (Ordinary b) ++ spans (Ordinary b) l2 end_key.
Proof. revert start_key. induction l1 as [|a l1 IH]; intros; [done|]. cbn. by rewrite IH. Qed.
Lemma length_spans start_key l end_key : length (spans start_key l end_key) = S (length l).
Proof. revert start_key. induction l; intros; cbn; [done|]. by f_equal. Qed.

(** [a] is at most [b], and less than [b]. *)
Definition key_le (a b : SearchKey K) : Prop := search_lt b a = false.
Definition key_less (a b : SearchKey K) : Prop := search_lt a b = true.

Record range_ok rg (end_key : SearchKey K) : Prop := {
  ro_sorted : StronglySorted key_lt (boundary_keys_ rg);
  ro_inside b : b ∈ boundary_keys_ rg → key_less (range_start_key_ rg) (Ordinary b) ∧ key_less (Ordinary b) end_key;
  ro_spans : span <$> slices_ rg = spans (range_start_key_ rg) (boundary_keys_ rg) end_key;
}.

(** *** Searching *)

Lemma search_lt_trans a b c : key_less a b → key_less b c → key_less a c.
Proof.
  unfold key_less. destruct a as [|x|], b as [|z|], c as [|u|]; cbn; try done. rewrite !bool_decide_eq_true. apply key_lt_trans.
Qed.
Lemma key_less_le a b c : key_le a b → key_less b c → key_less a c.
Proof.
  unfold key_le, key_less. destruct a as [|x|], b as [|z|], c as [|u|]; cbn; try done. rewrite bool_decide_eq_false, !bool_decide_eq_true. intros Hx Hz.
  destruct (key_not_lt _ _ Hx) as [->|?]; [done|]. by eapply key_lt_trans.
Qed.
Lemma key_le_not a b : ¬ key_less a b ↔ key_le b a.
Proof. unfold key_less, key_le. by destruct (search_lt a b). Qed.

Lemma key_less_irrefl a : ¬ key_less a a.
Proof. unfold key_less. destruct a as [|x|]; cbn; [done| |done]. rewrite bool_decide_eq_true. apply key_lt_irrefl. Qed.
Lemma key_less_weaken a b : key_less a b → key_le a b.
Proof. intros Hl. apply key_le_not. intros Hg. by apply (key_less_irrefl a), (search_lt_trans a b a). Qed.

Lemma search_split l key : StronglySorted key_lt l → ∃ l1 l2, l = l1 ++ l2 ∧ length l1 = lower_bound key l ∧
  (∀ x, x ∈ l1 → key_less (Ordinary x) key) ∧ (∀ x, x ∈ l2 → key_le key (Ordinary x)).
Proof.
  intros Hs. destruct (partition_point_spec (λ x, search_lt (Ordinary x) key = true) l) as (l1 & l2 & -> & Hl & H1 & H2). exists l1, l2.
  rewrite Forall_forall in H1. split_and!; [done|done|done|]. apply StronglySorted_app in Hs as (_ & _ & Hs2). intros x Hx. destruct l2 as [|z l2]; [by apply not_elem_of_nil in Hx|].
  specialize (H2 z eq_refl). apply key_le_not in H2. destruct (head_sorted _ _ _ x Hs2 eq_refl Hx) as [->|Hz]; [done|].
  apply key_le_not. intros Hx'. apply (key_le_not (Ordinary z) key); [done|]. eapply search_lt_trans; [|exact Hx']. by apply search_lt_ordinary.
Qed.

Lemma lower_bound_loop_ok l key : StronglySorted key_lt l → ∀ fuel first len, len < fuel → first ≤ lower_bound key l ≤ first + len → first + len ≤ length l →
  lower_bound_loop fuel l key first len = Some (lower_bound key l).
Proof.
  intros Hs. destruct (search_split l key Hs) as (l1 & l2 & El & Hl & H1 & H2).
  induction fuel as [|fuel IH]; intros first len Hf Hb Hlen; [lia|]. cbn [lower_bound_loop]. destruct (decide (len = 0)); [f_equal; lia|].
  assert (Nat.div2 len < len) as Hd by (apply Nat.lt_div2; lia). set (h := Nat.div2 len) in *. destruct (lookup_lt_is_Some_2 l (first + h)) as [k Hk]; [lia|].
  rewrite Hk. cbn [mbind option_bind]. destruct (search_lt (Ordinary k) key) eqn:E.
  - apply IH; [lia| |lia]. split; [|lia]. destruct (decide (first + h < lower_bound key l)); [lia|]. exfalso. rewrite El, lookup_app_r in Hk by lia.
    apply list_elem_of_lookup_2, H2 in Hk. by apply key_le_not in Hk.
  - apply IH; [lia| |lia]. split; [lia|]. destruct (decide (lower_bound key l ≤ first + h)); [lia|]. exfalso. rewrite El, lookup_app_l in Hk by lia.
    apply list_elem_of_lookup_2, H1 in Hk. unfold key_less in Hk. by rewrite Hk in E.
Qed.

Lemma boundary_LowerBound_ok l key : StronglySorted key_lt l → LowerBound l key = Some (lower_bound key l).
Proof.
  intros Hs. apply lower_bound_loop_ok; [done|lia| |lia]. destruct (search_split l key Hs) as (l1 & l2 & -> & <- & _). rewrite length_app. lia.
Qed.

(** The index that the search returns: before it the boundaries are at most (less than) the key,
    behind it they are greater (not less). *)
Lemma SearchSlice_ok rg end_key key incl : range_ok rg end_key → ∃ l1 l2, boundary_keys_ rg = l1 ++ l2 ∧ SearchSlice rg key incl = Some (length l1) ∧
  if incl : bool then (∀ x, x ∈ l1 → key_le (Ordinary x) key) ∧ (∀ x, x ∈ l2 → key_less key (Ordinary x))
  else (∀ x, x ∈ l1 → key_less (Ordinary x) key) ∧ (∀ x, x ∈ l2 → key_le key (Ordinary x)).
Proof.
  intros [Hs _ _]. unfold SearchSlice. rewrite boundary_LowerBound_ok by done. cbn [mbind option_bind]. destruct (search_split _ key Hs) as (l1 & l2 & El & <- & H1 & H2).
  assert (∀ x, x ∈ l1 → key_le (Ordinary x) key) as H1' by (intros x Hx; by apply key_less_weaken, H1).
  destruct l2 as [|b l2].
  - rewrite El, app_nil_r. rewrite decide_True by done. exists l1, []. rewrite app_nil_r. split; [done|]. split; [done|]. destruct incl; (split; [done|by intros x ?%not_elem_of_nil]).
  - rewrite El. rewrite decide_False by (rewrite length_app; cbn; lia). rewrite list_lookup_middle by done. cbn [mbind option_bind].
    destruct (bool_decide (Ordinary b = key) && incl) eqn:E.
    + apply andb_true_iff in E as [<-%bool_decide_eq_true ->]. exists (l1 ++ [b]), l2. rewrite <- app_assoc, length_app. split; [done|]. split; [done|].
      rewrite El in Hs. apply StronglySorted_app in Hs as (_ & _ & [_ Hs2]%StronglySorted_inv). rewrite Forall_forall in Hs2. split.
      * intros x [Hx|Hx%list_elem_of_singleton]%elem_of_app; [by apply H1'|]. subst x. apply H2. by left.
      * intros x Hx. apply search_lt_ordinary. by apply Hs2.
    + exists l1, (b :: l2). split; [done|]. split; [done|]. destruct incl; [|done]. split; [done|]. rewrite andb_true_r in E. apply bool_decide_eq_false in E.
      rewrite El in Hs. apply StronglySorted_app in Hs as (_ & _ & Hs2).
      assert (key_less key (Ordinary b)) as Hb.
      { specialize (H2 b (list_elem_of_here _ _)). unfold key_le, key_less in *. destruct key as [|k|]; cbn in *; [done| |done]. apply bool_decide_eq_false in H2. apply bool_decide_eq_true.
        destruct (key_not_lt _ _ H2) as [->|]; [by destruct E|done]. }
      intros x Hx. destruct (head_sorted _ _ _ x Hs2 eq_refl Hx) as [->|Hz]; [done|]. eapply search_lt_trans; [exact Hb|by apply search_lt_ordinary].
Qed.

(** The bounds of the slice between the boundaries [l1] and [l2]. *)
Definition low_key start_key l1 : SearchKey K := default start_key (Ordinary <$> last l1).
Definition high_key l2 end_key : SearchKey K := default end_key (Ordinary <$> head l2).

Lemma spans_at start_key l1 l2 end_key : spans start_key (l1 ++ l2) end_key !! length l1 = Some (low_key start_key l1, high_key l2 end_key).
Proof.
  destruct l1 as [|b l1 _] using rev_ind; [by destruct l2|]. rewrite <- app_assoc. cbn [app]. rewrite spans_app, length_app. cbn [length].
  rewrite lookup_app_r by (rewrite length_spans; lia). rewrite length_spans. replace (length l1 + 1 - S (length l1)) with 0 by lia. unfold low_key. rewrite last_snoc. by destruct l2.
Qed.

Lemma spans_split start_key l end_key i : i < length (spans start_key l end_key) → ∃ l1 l2, l = l1 ++ l2 ∧ length l1 = i.
Proof. rewrite length_spans. intros Hi. exists (take i l), (drop i l). rewrite take_drop, length_take. split; [done|lia]. Qed.

(** The slice at an index, and its bounds. *)
Lemma slice_at rg end_key i s : range_ok rg end_key → slices_ rg !! i = Some s → ∃ l1 l2, boundary_keys_ rg = l1 ++ l2 ∧ length l1 = i ∧
  sl_start_key_ s = low_key (range_start_key_ rg) l1 ∧ sl_end_key_ s = high_key l2 end_key.
Proof.
  intros [_ _ Hsp] Hs. assert ((span <$> slices_ rg) !! i = Some (span s)) as E by by rewrite list_lookup_fmap, Hs.
  rewrite Hsp in E. destruct (spans_split _ _ _ i (lookup_lt_Some _ _ _ E)) as (l1 & l2 & El & <-). rewrite El, spans_at in E. injection E as E1 E2. by exists l1, l2.
Qed.

Lemma slice_exists rg end_key l1 l2 : range_ok rg end_key → boundary_keys_ rg = l1 ++ l2 → ∃ s, slices_ rg !! length l1 = Some s ∧
  sl_start_key_ s = low_key (range_start_key_ rg) l1 ∧ sl_end_key_ s = high_key l2 end_key.
Proof.
  intros [_ _ Hsp] El. pose proof (spans_at (range_start_key_ rg) l1 l2 end_key) as E. rewrite <- El, <- Hsp, list_lookup_fmap in E.
  destruct (slices_ rg !! length l1) as [s|]; [|done]. injection E as E1 E2. by exists s.
Qed.

Definition contains s key : Prop := key_le (sl_start_key_ s) key ∧ key_less key (sl_end_key_ s).

Lemma low_key_le start_key l1 key : key_le start_key key → (∀ x, x ∈ l1 → key_le (Ordinary x) key) → key_le (low_key start_key l1) key.
Proof. intros H0 H1. unfold low_key. destruct (last l1) as [x|] eqn:E; [|done]. cbn. apply H1. by apply last_Some_elem_of. Qed.
Lemma high_key_less l2 end_key key : key_less key end_key → (∀ x, x ∈ l2 → key_less key (Ordinary x)) → key_less key (high_key l2 end_key).
Proof. intros H0 H1. unfold high_key. destruct l2 as [|x l2]; [done|]. cbn. apply H1. by left. Qed.

Lemma low_key_bound rg end_key l1 l2 x : range_ok rg end_key → boundary_keys_ rg = l1 ++ l2 → x ∈ l1 → key_le (Ordinary x) (low_key (range_start_key_ rg) l1).
Proof.
  intros [Hs _ _] El Hx. unfold low_key. destruct (last l1) as [z|] eqn:E; [|by apply last_None in E as ->; apply not_elem_of_nil in Hx]. cbn.
  rewrite El in Hs. apply StronglySorted_app in Hs as (_ & Hs1 & _). destruct (last_sorted _ _ _ x Hs1 E Hx) as [->|Hz]; [apply key_le_not, key_less_irrefl|].
  apply key_less_weaken, search_lt_ordinary. done.
Qed.
Lemma high_key_bound rg end_key l1 l2 x : range_ok rg end_key → boundary_keys_ rg = l1 ++ l2 → x ∈ l2 → key_le (high_key l2 end_key) (Ordinary x).
Proof.
  intros [Hs _ _] El Hx. unfold high_key. destruct l2 as [|z l2]; [by apply not_elem_of_nil in Hx|]. cbn.
  rewrite El in Hs. apply StronglySorted_app in Hs as (_ & _ & Hs2). destruct (head_sorted _ _ _ x Hs2 eq_refl Hx) as [->|Hz]; [apply key_le_not, key_less_irrefl|].
  apply key_less_weaken, search_lt_ordinary. done.
Qed.

Lemma key_le_trans a b c : key_le a b → key_le b c → key_le a c.
Proof.
  intros H1 H2. apply key_le_not. intros H3. apply key_le_not in H2. apply H2. clear H2. unfold key_le, key_less in *. destruct a as [|x|], b as [|z|], c as [|u|]; cbn in *; try done.
  apply bool_decide_eq_true. apply bool_decide_eq_true in H3. apply bool_decide_eq_false in H1. destruct (key_not_lt _ _ H1) as [->|?]; [done|by eapply key_lt_trans].
Qed.

(** Every key of the range is in one slice, the one that [FindSlice] returns. *)
Lemma FindSlice_ok rg end_key key : range_ok rg end_key → key_le (range_start_key_ rg) key → key_less key end_key → ∃ s i,
  FindSlice rg key = Some s ∧ slices_ rg !! i = Some s ∧ contains s key ∧ ∀ j s', slices_ rg !! j = Some s' → contains s' key → j = i.
Proof.
  intros Hok Hlo Hhi. destruct (SearchSlice_ok rg end_key key true Hok) as (l1 & l2 & El & Es & H1 & H2).
  destruct (slice_exists rg end_key l1 l2 Hok El) as (s & Hs & Hst & Hen). exists s, (length l1). unfold FindSlice. rewrite Es. split; [done|]. split; [done|]. split.
  - split; [rewrite Hst; by apply low_key_le|rewrite Hen; by apply high_key_less].
  - intros j s' Hj [C1 C2]. destruct (slice_at rg end_key j s' Hok Hj) as (m1 & m2 & Em & <- & Hst' & Hen'). rewrite Hst' in C1. rewrite Hen' in C2.
    destruct (Nat.lt_trichotomy (length m1) (length l1)) as [Hlt|[?|Hgt]]; [|done|].
    + exfalso. destruct (lookup_lt_is_Some_2 l1 (length m1) Hlt) as [x Hx]. assert (x ∈ m2) as Hm.
      { assert ((l1 ++ l2) !! length m1 = Some x) as E by by rewrite lookup_app_l by done. rewrite <- El, Em, lookup_app_r, Nat.sub_diag in E by lia. by eapply list_elem_of_lookup_2. }
      apply (key_le_not key (high_key m2 end_key)); [|done]. eapply key_le_trans; [exact (high_key_bound rg end_key m1 m2 x Hok Em Hm)|]. apply H1. by eapply list_elem_of_lookup_2.
    + exfalso. destruct (lookup_lt_is_Some_2 m1 (length l1) Hgt) as [x Hx]. assert (x ∈ l2) as Hl.
      { assert ((m1 ++ m2) !! length l1 = Some x) as E by by rewrite lookup_app_l by done. rewrite <- Em, El, lookup_app_r, Nat.sub_diag in E by lia. by eapply list_elem_of_lookup_2. }
      apply (key_le_not key (Ordinary x)); [|by apply H2]. eapply key_le_trans; [|exact C1]. apply (low_key_bound rg end_key m1 m2); [done|done|]. by eapply list_elem_of_lookup_2.
Qed.

(** A boundary belongs to the slice behind it. *)
Lemma SearchSlice_boundary rg end_key l1 b l2 : range_ok rg end_key → boundary_keys_ rg = l1 ++ b :: l2 → SearchSlice rg (Ordinary b) true = Some (S (length l1)).
Proof.
  intros Hok El. pose proof Hok as [Hso _ _]. destruct (SearchSlice_ok rg end_key (Ordinary b) true Hok) as (m1 & m2 & Em & -> & H1 & H2). f_equal.
  rewrite El in Hso. apply StronglySorted_app in Hso as (H12 & _ & [_ Hs2]%StronglySorted_inv). rewrite Forall_forall in Hs2.
  destruct (Nat.lt_trichotomy (length m1) (S (length l1))) as [Hlt|[?|Hgt]]; [|done|]; exfalso.
  - assert (b ∈ m2) as Hb; [|by apply (key_less_irrefl (Ordinary b)), H2].
    assert ((m1 ++ m2) !! length l1 = Some b) as E by by rewrite <- Em, El, list_lookup_middle. rewrite lookup_app_r in E by lia. by eapply list_elem_of_lookup_2.
  - destruct (lookup_lt_is_Some_2 m1 (S (length l1)) Hgt) as [x Hx]. apply (key_le_not (Ordinary b) (Ordinary x)); [apply H1; by eapply list_elem_of_lookup_2|]. apply search_lt_ordinary, Hs2.
    assert ((m1 ++ m2) !! S (length l1) = Some x) as E by by rewrite lookup_app_l by done. rewrite <- Em, El, lookup_app_r in E by lia.
    replace (S (length l1) - length l1) with 1 in E by lia. by eapply (list_elem_of_lookup_2 _ 0).
Qed.

(** The start key of a slice finds it. *)
Lemma SearchSlice_start rg end_key i s : range_ok rg end_key → slices_ rg !! i = Some s →
  (if decide (sl_start_key_ s = NegativeInfinity) then Some 0 else SearchSlice rg (sl_start_key_ s) true) = Some i.
Proof.
  intros Hok Hs. destruct (slice_at rg end_key i s Hok Hs) as (l1 & l2 & El & <- & Hst & Hen). rewrite Hst. pose proof Hok as [Hso Hin _].
  destruct l1 as [|b l1 _] using rev_ind.
  - change (low_key (range_start_key_ rg) []) with (range_start_key_ rg). destruct (decide (range_start_key_ rg = NegativeInfinity)); [done|]. destruct (SearchSlice_ok rg end_key (range_start_key_ rg) true Hok) as (m1 & m2 & Em & -> & H1 & _).
    destruct m1 as [|x m1]; [done|]. exfalso. apply (key_le_not (range_start_key_ rg) (Ordinary x)); [apply H1; by left|]. apply Hin. rewrite Em. by left.
  - assert (low_key (range_start_key_ rg) (l1 ++ [b]) = Ordinary b) as -> by (unfold low_key; by rewrite last_snoc). rewrite decide_False by done.
    rewrite <- app_assoc in El. rewrite (SearchSlice_boundary rg end_key l1 b l2 Hok El), length_app. cbn. f_equal. lia.
Qed.

Lemma SearchSlice_slice rg end_key i s : range_ok rg end_key → slices_ rg !! i = Some s → SearchSlice rg (sl_start_key_ s) true = Some i.
Proof.
  intros Hok Hs. pose proof (SearchSlice_start rg end_key i s Hok Hs) as E. destruct (decide (sl_start_key_ s = NegativeInfinity)) as [->|]; [|done]. injection E as <-.
  destruct (SearchSlice_ok rg end_key NegativeInfinity true Hok) as (l1 & l2 & _ & -> & H1 & _). destruct l1 as [|x l1]; [done|]. by specialize (H1 x (list_elem_of_here _ _)).
Qed.

(** ** Splitting a slice keeps the partition *)

(** The sub-slices behind the first one. *)
Fixpoint sub_slices s (infos : list (SliceChangeInfo K)) (slice_end : SearchKey K) : list (StoreSlice K) :=
  match infos with
  | [] => []
  | info :: rest => sub_slice s info (match rest with next :: _ => ci_key_ next | [] => slice_end end) :: sub_slices s rest slice_end
  end.

Lemma sub_slices_spans s infos slice_end ks start_key : ci_key_ <$> infos = Ordinary <$> ks →
  (start_key, high_key ks slice_end) :: (span <$> sub_slices s infos slice_end) = spans start_key ks slice_end.
Proof.
  revert ks start_key. induction infos as [|info rest IH]; intros [|k ks] start_key E; try done. injection E as E1 E2. cbn [sub_slices spans fmap list_fmap].
  rewrite <- (IH ks (Ordinary k) E2). unfold high_key at 1. cbn. f_equal. f_equal. unfold span; cbn. rewrite E1. f_equal. destruct rest as [|next rest], ks as [|k' ks]; try done. cbn in E2 |- *. by injection E2 as ->.
Qed.

Lemma update_loop_ok s slice_end slice_idx (infos : list (SliceChangeInfo K)) (ks : list K) : ci_key_ <$> infos = Ordinary <$> ks → ∀ rg idx (b1 l2 : list K) (p ss : list (StoreSlice K)), 0 < idx →
  boundary_keys_ rg = b1 ++ l2 → length b1 = slice_idx + idx - 1 → slices_ rg = p ++ ss → length p = slice_idx + idx →
  update_loop rg s slice_end slice_idx idx infos = Some (set_slices rg (b1 ++ ks ++ l2) (p ++ sub_slices s infos slice_end ++ ss)).
Proof.
  revert ks. induction infos as [|info rest IH]; intros [|k ks] E rg idx b1 l2 p ss Hidx Hb Hlb Hs Hlp; try done; cbn [update_loop sub_slices app].
  - destruct rg as [a b c d]. cbn in *. by subst.
  - injection E as E1 E2. rewrite E1. cbn [normal_key mbind option_bind]. rewrite (IH ks E2 _ (S idx) (b1 ++ [k]) l2 (p ++ [sub_slice s info (match rest with next :: _ => ci_key_ next | [] => slice_end end)]) ss).
    + unfold set_slices; cbn. by rewrite <- !app_assoc.
    + lia.
    + cbn. rewrite Hb, <- Hlb. rewrite insert_at_app. by rewrite <- app_assoc.
    + rewrite length_app. cbn. lia.
    + cbn. rewrite Hs, <- Hlp. rewrite insert_at_app. by rewrite <- app_assoc.
    + rewrite length_app. cbn. lia.
Qed.

Lemma spans_insert start_key l1 l2 end_key ks a b : a = low_key start_key l1 → b = high_key l2 end_key →
  take (length l1) (spans start_key (l1 ++ l2) end_key) ++ spans a ks b ++ drop (S (length l1)) (spans start_key (l1 ++ l2) end_key) = spans start_key (l1 ++ ks ++ l2) end_key.
Proof.
  intros -> ->. revert start_key. induction l1 as [|x l1 IH]; intros start_key; cbn [app length take drop spans].
  - unfold low_key; cbn. destruct l2 as [|z l2]; [by rewrite app_nil_r, app_nil_r|]. cbn. by rewrite spans_app.
  - f_equal. rewrite <- (IH (Ordinary x)). f_equal. f_equal. unfold low_key. rewrite last_cons. by destruct (last l1).
Qed.

(** The keys are new boundaries inside the slice. *)
Definition inside s (ks : list K) : Prop :=
  StronglySorted key_lt ks ∧ ∀ k, k ∈ ks → key_less (sl_start_key_ s) (Ordinary k) ∧ key_less (Ordinary k) (sl_end_key_ s).

Lemma low_high_in rg end_key l1 l2 : range_ok rg end_key → boundary_keys_ rg = l1 ++ l2 →
  key_le (range_start_key_ rg) (low_key (range_start_key_ rg) l1) ∧ key_le (high_key l2 end_key) end_key.
Proof.
  intros [_ Hin _] El. split.
  - unfold low_key. destruct (last l1) as [x|] eqn:E; cbn; [|apply key_le_not, key_less_irrefl]. apply key_less_weaken, Hin. rewrite El. apply elem_of_app. left. by apply last_Some_elem_of.
  - unfold high_key. destruct l2 as [|x l2]; cbn; [apply key_le_not, key_less_irrefl|]. apply key_less_weaken, Hin. rewrite El. apply elem_of_app. right. by left.
Qed.
Lemma key_less_le_r a b c : key_less a b → key_le b c → key_less a c.
Proof.
  intros Hab Hbc. destruct (search_lt a c) eqn:E; [done|]. exfalso. apply key_le_not in Hbc. apply Hbc. eapply key_less_le; [|exact Hab]. done.
Qed.

Lemma boundaries_insert rg end_key l1 l2 s ks : range_ok rg end_key → boundary_keys_ rg = l1 ++ l2 → slices_ rg !! length l1 = Some s → inside s ks →
  StronglySorted key_lt (l1 ++ ks ++ l2) ∧ ∀ b, b ∈ l1 ++ ks ++ l2 → key_less (range_start_key_ rg) (Ordinary b) ∧ key_less (Ordinary b) end_key.
Proof.
  intros Hok El Hs [Hso Hin]. pose proof Hok as [Hsb Hib _]. destruct (slice_at rg end_key _ s Hok Hs) as (m1 & m2 & Em & Hlen & Hst & Hen).
  assert (m1 = l1 ∧ m2 = l2) as [-> ->] by (apply app_inj_1; [done|congruence]). rewrite El in Hsb, Hib. apply StronglySorted_app in Hsb as (H12 & H1 & H2).
  assert (∀ x k, x ∈ l1 → k ∈ ks → x <k k) as Hlo.
  { intros x k Hx Hk. apply search_lt_ordinary. eapply key_less_le; [by apply (low_key_bound rg end_key l1 l2)|]. rewrite <- Hst. by apply Hin. }
  assert (∀ k x, k ∈ ks → x ∈ l2 → k <k x) as Hhi.
  { intros k x Hk Hx. apply search_lt_ordinary. destruct (Hin k Hk) as [_ Hk2]. rewrite Hen in Hk2. eapply key_less_le_r; [exact Hk2|]. by apply (high_key_bound rg end_key l1 l2). }
  destruct (low_high_in rg end_key l1 l2 Hok El) as [Hl Hh].
  split.
  - apply StronglySorted_app. split_and!; [|done|apply StronglySorted_app; done]. intros x z Hx [Hz|Hz]%elem_of_app; [by apply Hlo|by apply H12].
  - intros b [Hb|[Hb|Hb]%elem_of_app]%elem_of_app; [apply Hib; set_solver| |apply Hib; set_solver]. destruct (Hin b Hb) as [B1 B2]. split.
    + eapply key_less_le; [|exact B1]. by rewrite Hst.
    + eapply key_less_le_r; [exact B2|]. by rewrite Hen.
Qed.

(** What a split of slice [i] at the keys [ks] leaves: the bounds are the old ones and the new keys,
    the slices before and behind are the old ones, and the parts have the state of the slice. *)
Record slice_split rg rg' (i : nat) s (ks : list K) : Prop := {
  sp_start : range_start_key_ rg' = range_start_key_ rg ∧ range_end_key_ rg' = range_end_key_ rg;
  sp_bounds : boundary_keys_ rg' = take i (boundary_keys_ rg) ++ ks ++ drop i (boundary_keys_ rg);
  sp_slices : ∃ s' subs, slices_ rg' = take i (slices_ rg) ++ s' :: subs ++ drop (S i) (slices_ rg) ∧ length subs = length ks ∧ sl_start_key_ s' = sl_start_key_ s ∧
    (sl_pins_ s' = sl_pins_ s ∧ fetch_slice_cc_ s' = fetch_slice_cc_ s ∧ cc_queue_ s' = cc_queue_ s ∧ to_alter_ s' = to_alter_ s) ∧
    (∀ x, x ∈ s' :: subs → sl_status_ x = sl_status_ s ∧ last_load_ts_ x = last_load_ts_ s ∧ cache_validity_ x = cache_validity_ s) ∧
    ∀ x, x ∈ subs → sl_pins_ x = 0%Z ∧ to_alter_ x = false ∧ fetch_slice_cc_ x = None ∧ cc_queue_ x = [];
}.

Lemma sub_slices_elem s infos slice_end x : x ∈ sub_slices s infos slice_end →
  (sl_status_ x = sl_status_ s ∧ last_load_ts_ x = last_load_ts_ s ∧ cache_validity_ x = cache_validity_ s) ∧ sl_pins_ x = 0%Z ∧ to_alter_ x = false ∧ fetch_slice_cc_ x = None ∧ cc_queue_ x = [].
Proof. induction infos as [|info rest IH]; cbn; [by intros ?%not_elem_of_nil|]. intros [->|Hx]%elem_of_cons; [done|by apply IH]. Qed.
Lemma length_sub_slices s infos slice_end : length (sub_slices s infos slice_end) = length infos.
Proof. induction infos as [|info rest IH]; [done|]. cbn. by f_equal. Qed.

Lemma UpdateSlice_ok rg end_key i s first infos ks : range_ok rg end_key → slices_ rg !! i = Some s → ks ≠ [] →
  ci_key_ <$> infos = Ordinary <$> ks → inside s ks →
  ∃ rg', UpdateSlice rg (sl_start_key_ s) (first :: infos) = Some rg' ∧ range_ok rg' end_key ∧ slice_split rg rg' i s ks.
Proof.
  intros Hok Hs Hne E Hin. unfold UpdateSlice. destruct infos as [|second rest]; [by destruct ks|]. cbn [head mbind option_bind].
  rewrite (SearchSlice_start rg end_key i s Hok Hs). cbn [mbind option_bind]. rewrite Hs. cbn [mbind option_bind].
  set (s' := set_sizes (set_end_key s (ci_key_ second)) _ _). destruct (slice_at rg end_key i s Hok Hs) as (l1 & l2 & El & Hli & Hst & Hen).
  assert (slices_ rg = take i (slices_ rg) ++ s :: drop (S i) (slices_ rg)) as Esl by (symmetry; by apply take_drop_middle).
  assert (length (take i (slices_ rg)) = i) as Hti by (apply lookup_lt_Some in Hs; rewrite length_take; lia).
  assert (<[i:=s']> (slices_ rg) = (take i (slices_ rg) ++ [s']) ++ drop (S i) (slices_ rg)) as Eins.
  { rewrite <- app_assoc. rewrite Esl at 1. rewrite insert_app_r_alt by lia. rewrite Hti, Nat.sub_diag. done. }
  rewrite (update_loop_ok s' (sl_end_key_ s) i (second :: rest) ks E _ 1 l1 l2 (take i (slices_ rg) ++ [s']) (drop (S i) (slices_ rg))); [|lia|done|lia|exact Eins|rewrite length_app, Hti; cbn; lia].
  eexists. split; [done|]. destruct (boundaries_insert rg end_key l1 l2 s ks) as [Hso Hib]; [done|done|by rewrite Hli|done|].
  assert (sl_end_key_ s' = high_key ks (sl_end_key_ s)) as Hes by (destruct ks as [|k ks']; [done|]; cbn in E |- *; by injection E as -> _).
  split.
  - split; [done|done|]. pose proof (sub_slices_spans s' (second :: rest) (sl_end_key_ s) ks (sl_start_key_ s) E) as Hsub. cbn [set_slices slices_ boundary_keys_ range_start_key_].
    set (subs := sub_slices s' (second :: rest) (sl_end_key_ s)) in *. rewrite <- app_assoc, fmap_app. change ([s'] ++ subs ++ ?l) with ((s' :: subs) ++ l). rewrite fmap_app, fmap_cons.
    assert (span s' = (sl_start_key_ s, high_key ks (sl_end_key_ s))) as -> by (unfold span; by rewrite Hes). rewrite Hsub.
    rewrite fmap_take, fmap_drop. pose proof Hok as [_ _ ->]. rewrite El, <- Hli. apply spans_insert; [by rewrite Hst|by rewrite Hen].
  - split; [done|cbn; by rewrite El, <- Hli, take_app_length, drop_app_length|]. exists s', (sub_slices s' (second :: rest) (sl_end_key_ s)). split_and!; try done.
    + cbn. by rewrite <- !app_assoc.
    + rewrite length_sub_slices. apply (f_equal length) in E. by rewrite !length_fmap in E.
    + intros x [->|Hx]%elem_of_cons; [done|]. by apply sub_slices_elem in Hx as [? _].
    + intros x Hx. by apply sub_slices_elem in Hx as [_ ?].
Qed.

(** ** Building and splitting ranges *)

Lemma StoreRange_new_ok start_key end_key empty : range_ok (StoreRange_new start_key end_key empty) end_key.
Proof. split; cbn; [constructor|by intros b ?%not_elem_of_nil|done]. Qed.

Lemma init_slices_spans infos ks end_key start_key size st : ii_key_ <$> infos = Ordinary <$> ks →
  span <$> init_slices (mkInitInfo start_key size st :: infos) end_key = spans start_key ks end_key.
Proof.
  revert ks start_key size st. induction infos as [|[key size' st'] rest IH]; intros [|k ks] start_key size st E; try done. injection E as -> E2.
  change (span <$> init_slices (mkInitInfo start_key size st :: mkInitInfo (Ordinary k) size' st' :: rest) end_key)
    with ((start_key, Ordinary k) :: (span <$> init_slices (mkInitInfo (Ordinary k) size' st' :: rest) end_key)). by rewrite (IH ks).
Qed.

Lemma mapM_keys (infos : list (SliceInitInfo K)) ks : ii_key_ <$> infos = Ordinary <$> ks → mapM (normal_key ∘ ii_key_) infos = Some ks.
Proof.
  intros E. apply mapM_Some_2. revert ks E. induction infos as [|info rest IH]; intros [|k ks] E; try done. injection E as E1 E2. constructor; [|by apply IH].
  unfold compose. by rewrite E1.
Qed.

(** The content of a slice that survives a restart of the range. *)
Definition slice_spec s : (SearchKey K * SearchKey K) * (Z * SliceStatus) := (span s, (sl_size_ s, sl_status_ s)).

Lemma init_slices_sizes infos end_key : (λ s, (sl_size_ s, sl_status_ s)) <$> init_slices infos end_key = (λ info, (ii_size_ info, ii_status_ info)) <$> infos.
Proof. induction infos as [|info rest IH]; [done|]. cbn. by f_equal. Qed.

Lemma InitSlices_ok rg info infos ks end_key : range_end_key_ rg = Some end_key → ii_key_ <$> infos = Ordinary <$> ks → StronglySorted key_lt ks →
  (∀ b, b ∈ ks → key_less (range_start_key_ rg) (Ordinary b) ∧ key_less (Ordinary b) end_key) →
  ∃ rg', InitSlices rg (info :: infos) = Some rg' ∧ range_ok rg' end_key ∧ (boundary_keys_ rg' = ks ∧ range_start_key_ rg' = range_start_key_ rg) ∧
    (λ s, (sl_size_ s, sl_status_ s)) <$> slices_ rg' = (λ i, (ii_size_ i, ii_status_ i)) <$> info :: infos.
Proof.
  intros He E Hs Hin. unfold InitSlices. rewrite He. cbn [mbind option_bind]. rewrite (mapM_keys infos ks E). cbn [mbind option_bind]. eexists. split; [done|]. split; [|split; [done|]].
  - split; [done|done|]. cbn [set_slices slices_ boundary_keys_ range_start_key_]. by apply init_slices_spans.
  - cbn [set_slices slices_]. by rewrite init_slices_sizes.
Qed.

Lemma SetRangeEndKey_ok rg l ss s end_key old : slices_ rg = ss ++ [s] → boundary_keys_ rg = l → span <$> slices_ rg = spans (range_start_key_ rg) l old →
  SetRangeEndKey rg end_key = Some (mkRange (range_start_key_ rg) (Some end_key) l (ss ++ [set_end_key s end_key])) ∧
  span <$> (ss ++ [set_end_key s end_key]) = spans (range_start_key_ rg) l end_key.
Proof.
  intros Hs Hl Hsp. unfold SetRangeEndKey. rewrite Hs, last_snoc, Hl. cbn [mbind option_bind]. split.
  { do 2 f_equal. rewrite length_app. cbn. replace (length ss + 1 - 1) with (length ss) by lia. by rewrite take_app_length. }
  rewrite Hs in Hsp. clear Hs Hl. revert ss Hsp. generalize (range_start_key_ rg). induction l as [|b l IH]; intros sk ss Hsp.
  - destruct ss as [|x [|? ?]]; try done. cbn in Hsp |- *. unfold span in *; cbn. by injection Hsp as -> _.
  - destruct ss as [|x ss]; [by destruct l|]. cbn in Hsp |- *. injection Hsp as H1 H1' H2. f_equal; [unfold span; congruence|]. by apply IH.
Qed.

(** What the slices behind the boundary hand over to the new range. *)
Lemma removed_infos (bs : list K) ss sk end_key : span <$> ss = spans sk bs end_key → ∀ b, 
  ii_key_ <$> zip_with init_info (b :: bs) ss = Ordinary <$> b :: bs.
Proof.
  revert ss sk. induction bs as [|b' bs IH]; intros [|s ss] sk E b; try done.
  injection E as _ _ E. cbn [zip_with]. rewrite !fmap_cons. f_equal. by apply (IH ss _ E).
Qed.
Lemma removed_sizes (bs : list K) ss : length bs = length ss → (∀ s, s ∈ ss → 0 ≤ sl_size_ s < 2 ^ 32)%Z →
  (λ i, (ii_size_ i, ii_status_ i)) <$> zip_with init_info bs ss = (λ s, (sl_size_ s, sl_status_ s)) <$> ss.
Proof.
  revert ss. induction bs as [|b bs IH]; intros [|s ss] E Hsz; try done. injection E as E. cbn. rewrite IH; [|done|intros; apply Hsz; by right].
  f_equal. f_equal. apply u32_small, Hsz. by left.
Qed.

Lemma slice_spec_eq (ss ss' : list (StoreSlice K)) : span <$> ss = span <$> ss' → (λ s, (sl_size_ s, sl_status_ s)) <$> ss = (λ s, (sl_size_ s, sl_status_ s)) <$> ss' → slice_spec <$> ss = slice_spec <$> ss'.
Proof.
  revert ss'. induction ss as [|s ss IH]; intros [|s' ss'] E1 E2; try done. cbn in E1, E2 |- *. injection E1 as E11 E12 E13. injection E2 as E21 E22 E23. f_equal; [|by apply IH]. unfold slice_spec, span. congruence.
Qed.

(** The slices before the boundary stay; the infos of the others are taken out. *)
Lemma SplitRange_parts rg end_key l1 b l2 : range_ok rg end_key → boundary_keys_ rg = l1 ++ b :: l2 →
  if existsb slice_busy (slices_ rg) then SplitRange rg (Ordinary b) = Some (false, [], rg)
  else ∃ (s1 : list (StoreSlice K)) (x : StoreSlice K) (s2 : list (StoreSlice K)), slices_ rg = (s1 ++ [x]) ++ s2 ∧ span <$> s2 = spans (Ordinary b) l2 end_key ∧
    SplitRange rg (Ordinary b) = Some (true, zip_with init_info (b :: l2) s2, mkRange (range_start_key_ rg) None l1 (s1 ++ [x])) ∧ sl_end_key_ x = Ordinary b ∧
    let rg1 := mkRange (range_start_key_ rg) (Some (Ordinary b)) l1 (s1 ++ [set_end_key x (Ordinary b)]) in
    SetRangeEndKey (mkRange (range_start_key_ rg) None l1 (s1 ++ [x])) (Ordinary b) = Some rg1 ∧ range_ok rg1 (Ordinary b).
Proof.
  intros Hok El. pose proof Hok as [Hs Hin Hsp]. unfold SplitRange. rewrite (SearchSlice_boundary rg end_key l1 b l2 Hok El). cbn [mbind option_bind].
  rewrite decide_False by lia. destruct (existsb slice_busy (slices_ rg)); [done|]. rewrite El, spans_app in Hsp. apply fmap_app_inv in Hsp as (s1 & s2 & Hs1%eq_sym & Hs2%eq_sym & Ess).
  assert (length s1 = S (length l1)) as Hl1 by (apply (f_equal length) in Hs1; by rewrite length_fmap, length_spans in Hs1).
  replace (S (length l1) - 1) with (length l1) by lia. rewrite El, drop_app_length, take_app_length, Ess, <- Hl1, drop_app_length, take_app_length.
  pose proof (removed_infos l2 s2 (Ordinary b) end_key Hs2 b) as Hkeys. rewrite decide_False by (intros E; by rewrite E in Hkeys).
  destruct s1 as [|x s1 _] using rev_ind; [done|]. exists s1, x, s2. split; [done|]. split; [done|]. split; [done|].
  destruct (SetRangeEndKey_ok (mkRange (range_start_key_ rg) None l1 (s1 ++ [x])) l1 s1 x (Ordinary b) (Ordinary b) eq_refl eq_refl Hs1) as [E1 Hsp1]. split.
  - apply (f_equal last) in Hs1. rewrite fmap_app in Hs1. cbn in Hs1. rewrite last_snoc in Hs1. destruct l1 as [|z l1 _] using rev_ind; [cbn in Hs1; injection Hs1; congruence|].
    rewrite spans_app in Hs1. cbn in Hs1. rewrite last_snoc in Hs1. injection Hs1. congruence.
  - split; [exact E1|]. rewrite El in Hs. apply StronglySorted_app in Hs as (H12 & Hso1 & _). split; [done| |exact Hsp1]. intros z Hz. split; [apply Hin; rewrite El; set_solver|].
    apply search_lt_ordinary, H12; [done|by left].
Qed.

(** C30: Splitting a range at a boundary: what is taken out builds the new range, and both ranges have
    together the slices of the old one, with their bounds, sizes and states.  If a slice is in use
    nothing is changed. *)
Theorem SplitRange_ok rg end_key l1 b l2 : range_ok rg end_key → boundary_keys_ rg = l1 ++ b :: l2 → (∀ s, s ∈ slices_ rg → 0 ≤ sl_size_ s < 2 ^ 32)%Z →
  if existsb slice_busy (slices_ rg) then SplitRange rg (Ordinary b) = Some (false, [], rg)
  else ∃ removed rg0 rg1 rg2, SplitRange rg (Ordinary b) = Some (true, removed, rg0) ∧
    SetRangeEndKey rg0 (Ordinary b) = Some rg1 ∧ range_ok rg1 (Ordinary b) ∧
    InitSlices (StoreRange_new (Ordinary b) end_key false) removed = Some rg2 ∧ range_ok rg2 end_key ∧
    slice_spec <$> slices_ rg1 ++ slices_ rg2 = slice_spec <$> slices_ rg.
Proof.
  intros Hok El Hsz. pose proof (SplitRange_parts rg end_key l1 b l2 Hok El) as Hparts. destruct (existsb slice_busy (slices_ rg)); [done|].
  destruct Hparts as (s1 & x & s2 & Ess & Hs2 & E & Hx & E1 & Hok1). pose proof (removed_infos l2 s2 (Ordinary b) end_key Hs2 b) as Hkeys.
  destruct (zip_with init_info (b :: l2) s2) as [|info infos] eqn:Er; [done|]. injection Hkeys as Hk0 Hks. pose proof Hok as [Hs Hin _].
  rewrite El in Hs. apply StronglySorted_app in Hs as (_ & _ & [Hso3 Hb]%StronglySorted_inv). rewrite Forall_forall in Hb.
  destruct (InitSlices_ok (StoreRange_new (Ordinary b) end_key false) info infos l2 end_key eq_refl Hks Hso3) as (rg2 & E2 & Hok2 & [Hb2 Hst2] & Hsz2).
  { intros z Hz. split; [by apply search_lt_ordinary, Hb|]. apply Hin. rewrite El. set_solver. }
  eexists _, _, _, rg2. split; [exact E|]. split; [exact E1|]. split; [done|]. split; [exact E2|]. split; [done|]. cbn [slices_]. rewrite Ess, !fmap_app. f_equal; [f_equal|].
  - rewrite !list_fmap_singleton. f_equal. unfold slice_spec, span. cbn. by rewrite Hx.
  - apply slice_spec_eq; [rewrite Hs2; pose proof Hok2 as [_ _ ->]; by rewrite Hb2, Hst2|]. rewrite Hsz2, <- Er. apply removed_sizes; [|intros; apply Hsz; rewrite Ess; set_solver].
    apply (f_equal length) in Hs2. rewrite length_fmap, length_spans in Hs2. done.
Qed.

(** ** The keys at which a range is split are boundaries of slices *)

Lemma next_subrange_ok ss cur avg n large : next_subrange ss cur avg = (n, large) →
  match large with Some s => ss !! n = Some s | None => (cur < avg)%Z → ss ≠ [] → 0 < n end.
Proof.
  revert cur n. induction ss as [|s ss IH]; intros cur n E; cbn in E; [by injection E as <- <-|]. destruct (decide (cur < avg)%Z); [|by injection E as <- <-].
  destruct (decide _); [by injection E as <- <-|]. destruct (next_subrange ss _ avg) as [m lg] eqn:En. injection E as <- <-. specialize (IH _ _ En). destruct lg; [done|lia].
Qed.

Lemma sublist_take_le {A} (l : list A) n m : n ≤ m → take n l `sublist_of` take m l.
Proof. intros. replace n with (n `min` m) by lia. rewrite <- take_take. apply sublist_take. Qed.
Lemma length_slices rg end_key : range_ok rg end_key → length (slices_ rg) = S (length (boundary_keys_ rg)).
Proof. intros [_ _ E%(f_equal length)]. by rewrite length_fmap, length_spans in E. Qed.

Lemma subrange_start_ok rg end_key idx keys s : range_ok rg end_key → slices_ rg !! idx = Some s → keys `sublist_of` take (idx - 1) (boundary_keys_ rg) →
  ∃ keys1, subrange_start rg idx keys = Some keys1 ∧ keys1 `sublist_of` take idx (boundary_keys_ rg).
Proof.
  intros Hok Hs Hk. unfold subrange_start. destruct (decide (idx = 0)) as [->|Hi]; [by exists keys|]. rewrite Hs. cbn [mbind option_bind].
  destruct (slice_at rg end_key idx s Hok Hs) as (l1 & l2 & El & Hl & -> & _). destruct l1 as [|b l1 _] using rev_ind; [cbn in Hl; lia|].
  unfold low_key. rewrite last_snoc. cbn [fmap option_fmap option_map default from_option normal_key mbind option_bind]. eexists. split; [done|].
  rewrite El, <- Hl, take_app_length. rewrite El, <- Hl, length_app, Nat.add_sub, <- app_assoc, take_app_length in Hk. by apply sublist_app.
Qed.

Lemma UpdateSliceSpec_ok rg end_key i s ks : range_ok rg end_key → slices_ rg !! i = Some s → to_alter_ s = false → ks ≠ [] → inside s ks →
  ∃ rg', UpdateSliceSpec rg s ks = Some rg' ∧ range_ok rg' end_key ∧ slice_split rg rg' i s ks.
Proof.
  intros Hok Hs Hal Hne Hin. unfold UpdateSliceSpec, alter_slice. rewrite Hal. apply (UpdateSlice_ok rg end_key i); [done..| |done]. rewrite <- list_fmap_compose. by apply list_fmap_ext.
Qed.

Section split_keys_ok.
Context (sample : StoreSlice K → nat → option (list K)) (Hsample : ∀ s n ks, sample s n = Some ks → inside s ks).

(** The outcome: the slices are those of the range, some of them split, and the keys are among their
    boundaries, in their order. *)
Record split_keys_ok rg end_key (keys : list K) rg' : Prop := {
  sk_ok : range_ok rg' end_key;
  sk_start : range_start_key_ rg' = range_start_key_ rg ∧ range_end_key_ rg' = range_end_key_ rg;
  sk_old : boundary_keys_ rg `sublist_of` boundary_keys_ rg';
  sk_keys : keys `sublist_of` boundary_keys_ rg';
}.

Lemma slice_split_sublist rg rg' i s ks : slice_split rg rg' i s ks → boundary_keys_ rg `sublist_of` boundary_keys_ rg'.
Proof. intros [_ -> _]. rewrite <- (take_drop i (boundary_keys_ rg)) at 1. apply sublist_app; [done|]. by apply sublist_inserts_l. Qed.

Lemma slice_split_length rg rg' i s ks : slices_ rg !! i = Some s → slice_split rg rg' i s ks → length (slices_ rg') = length (slices_ rg) + length ks.
Proof.
  intros Hs%lookup_lt_Some [_ _ (s' & subs & -> & Hl & _)]. rewrite length_app, length_cons, length_app, length_take, length_drop, Hl. lia.
Qed.

(** No slice waits to be altered; only one thread alters slices. *)
Definition unaltered rg : Prop := ∀ s, s ∈ slices_ rg → to_alter_ s = false.
Lemma slice_split_unaltered rg rg' i s ks : unaltered rg → slices_ rg !! i = Some s → slice_split rg rg' i s ks → unaltered rg'.
Proof.
  intros Hu Hs [_ _ (s' & subs & Ess & _ & _ & (_ & _ & _ & Ha) & _ & Hsubs)] x. rewrite Ess. intros [Hx|[->|[Hx|Hx]%elem_of_app]%elem_of_cons]%elem_of_app.
  - apply Hu. by apply (subseteq_take i).
  - rewrite Ha. apply Hu. by eapply list_elem_of_lookup_2.
  - by apply Hsubs.
  - apply Hu. by apply (subseteq_drop (S i)).
Qed.

Lemma split_keys_loop_ok end_key avg : (0 < avg)%Z → ∀ fuel rg idx keys, length (slices_ rg) - idx < fuel → range_ok rg end_key → unaltered rg → keys `sublist_of` take (idx - 1) (boundary_keys_ rg) →
  ∃ ok keys' rg', split_keys_loop sample fuel rg avg idx keys = Some (ok, keys', rg') ∧ split_keys_ok rg end_key keys' rg'.
Proof.
  intros Havg. induction fuel as [|fuel IH]; intros rg idx keys Hf Hok Hun Hk; [lia|]. cbn [split_keys_loop]. destruct (decide (idx < length (slices_ rg))) as [Hidx|Hidx].
  2:{ exists true, keys, rg. split; [done|]. split; try done. etrans; [exact Hk|]. apply sublist_take. }
  destruct (lookup_lt_is_Some_2 _ _ Hidx) as [s0 Hs0]. destruct (subrange_start_ok rg end_key idx keys s0 Hok Hs0 Hk) as (keys1 & -> & Hk1).
  destruct (next_subrange (drop idx (slices_ rg)) 0 avg) as [n [s|]] eqn:En; apply next_subrange_ok in En; cbn [mbind option_bind].
  - rewrite lookup_drop in En. set (m := idx + n) in *. assert (keys1 `sublist_of` take m (boundary_keys_ rg)) as Hkm by (etrans; [exact Hk1|apply sublist_take_le; lia]).
    destruct (sample s _) as [ks|] eqn:Es; [|exists false, keys1, rg; split; [done|]; split; try done; etrans; [exact Hk1|]; apply sublist_take].
    apply Hsample in Es. pose proof (lookup_lt_Some _ _ _ En) as Hm. destruct (decide (ks = [])) as [->|Hne]; cbn [mbind option_bind].
    + destruct (IH rg (m + 1) (keys1 ++ [])) as (ok & keys' & rg' & E & Hsk); [lia|done|done|rewrite app_nil_r; by rewrite Nat.add_sub|]. by exists ok, keys', rg'.
    + destruct (UpdateSliceSpec_ok rg end_key m s ks Hok En (Hun s (list_elem_of_lookup_2 _ _ _ En)) Hne Es) as (rg1 & -> & Hok1 & Hsp). cbn [mbind option_bind].
      pose proof (slice_split_length _ _ _ _ _ En Hsp) as Hlen.
      destruct (IH rg1 (m + S (length ks)) (keys1 ++ ks)) as (ok & keys' & rg' & E & [Hok' [Hst Hen] Hold Hkeys]); [lia|done|by eapply slice_split_unaltered| |].
      { destruct Hsp as [_ -> _]. rewrite app_assoc. pose proof (length_slices rg end_key Hok). rewrite take_app_length' by (rewrite length_app, length_take; lia). by apply sublist_app. }
      exists ok, keys', rg'. split; [done|]. pose proof Hsp as [[Hst1 Hen1] _ _]. split; [done|by rewrite Hst, Hen|etrans; [by eapply slice_split_sublist|done]|done].
  - assert (0 < n) by (apply En; [done|]; intros E%(f_equal length); rewrite length_drop in E; cbn in E; lia).
    destruct (IH rg (idx + n) keys1) as (ok & keys' & rg' & E & Hsk); [lia|done|done| |by exists ok, keys', rg'].
    etrans; [exact Hk1|]. apply sublist_take_le. lia.
Qed.
End split_keys_ok.

(** *** The sampled keys are inside the slice *)

Lemma target_keys_sublist (l : list K) n : target_keys l n `sublist_of` drop 1 l.
Proof.
  unfold target_keys. set (step := Nat.max 1 _). assert (1 ≤ step) as Hst by (unfold step; lia). clearbody step.
  assert (∀ m i l0, (∀ j, l !! (step * i + 1 + j) = l0 !! j) → omap (λ i, l !! (step * (i + 1))) (seq i m) `sublist_of` l0) as Hg; [|apply (Hg n 0); intros j; by rewrite lookup_drop, Nat.mul_0_r].
  induction m as [|m IH]; intros i l0 Hl; [apply sublist_nil_l|]. cbn [seq omap list_omap]. pose proof (Hl (step - 1)) as Hx. replace (step * i + 1 + (step - 1)) with (step * (i + 1)) in Hx by lia.
  assert (∀ j, l !! (step * S i + 1 + j) = drop step l0 !! j) as Hl' by (intros j; rewrite lookup_drop, <- Hl; f_equal; lia).
  destruct (l !! (step * (i + 1))) as [x|] eqn:E.
  - destruct (list_elem_of_split_length l0 (step - 1) x) as (a & b & -> & Hs1); [done|]. apply sublist_inserts_l, sublist_skip, IH. intros j. rewrite Hl'. f_equal.
    rewrite drop_app_ge by lia. by replace (step - length a) with 1 by lia.
  - etrans; [by apply IH|]. apply sublist_drop.
Qed.

(** The keys that a scan of the slice can return. *)
Definition scanned s (ks : list K) : Prop := StronglySorted key_lt ks ∧ ∀ k, k ∈ ks → contains s (Ordinary k).

Lemma pool_scanned cap rs s ks p : (0 ≤ cap < 2 ^ 32)%Z → scanned s ks → insert_all (RandomPairing_new cap) ks 0 rs = Some p → scanned s (sample_pool_ p).
Proof.
  intros Hc [Hs Hin] E. destruct (insert_all_ok ks (RandomPairing_new cap) 0 rs) as (p' & E' & Hok & _ & Hp & _); [by apply new_ok|done|by apply sorted_NoDup|set_solver|].
  rewrite E in E'. injection E' as <-. destruct Hok as [Hs' _ _ _]. split; [done|]. intros k [Hk|Hk%not_elem_of_nil]%Hp; [by apply Hin|done].
Qed.

Lemma scanned_inside s ks ks' : scanned s ks → ks' `sublist_of` drop 1 ks → inside s ks'.
Proof.
  intros [Hs Hin] Hsub. destruct ks as [|k0 ks]; [by apply sublist_nil_r in Hsub as ->; split; [constructor|by intros k ?%not_elem_of_nil]|]. change (drop 1 (k0 :: ks)) with ks in Hsub.
  apply StronglySorted_inv in Hs as [Hs H0]. rewrite Forall_forall in H0. split; [by eapply sorted_sublist|]. intros k Hk.
  assert (k ∈ ks) as Hk' by (eapply elem_of_submseteq; [exact Hk|]; by apply sublist_submseteq). destruct (Hin k) as [_ H2]; [by right|]. destruct (Hin k0) as [H1 _]; [by left|].
  split; [|done]. eapply key_less_le; [exact H1|]. by apply search_lt_ordinary, H0.
Qed.

Lemma length_omap {A B} (f : A → option B) (l : list A) : length (omap f l) ≤ length l.
Proof. induction l as [|x l IH]; [done|]. cbn. destruct (f x); cbn; lia. Qed.
Lemma SampleSubRangeKeys_inside scan rs s n ks : (∀ s ks, scan s = Some ks → scanned s ks) → SampleSubRangeKeys scan rs s n = Some ks → inside s ks ∧ length ks ≤ n.
Proof.
  intros Hscan E. unfold SampleSubRangeKeys in E. destruct (scan s) as [keys|] eqn:Ek; [|done]. cbn in E. destruct (insert_all _ keys 0 rs) as [p|] eqn:Ep; [|done]. injection E as <-.
  apply Hscan in Ek. apply pool_scanned with (s := s) in Ep; [|unfold sample_capacity, u32; pose proof (Z.mod_pos_bound (Z.of_nat n * 10) (2 ^ 32)); lia|done]. split.
  - eapply scanned_inside; [exact Ep|]. apply target_keys_sublist.
  - unfold target_keys. etrans; [apply length_omap|by rewrite length_seq].
Qed.

(** C31: The split keys of a range that has become too large: the search ends, whatever the sizes of the
    slices are and whatever is sampled; the keys are sorted and different; each of them starts a
    slice of the range, whose slices are the old ones, some of them cut. *)
Theorem CalculateRangeSplitKeys_ok scan rs rg end_key size cnt : range_ok rg end_key → unaltered rg → (0 < cnt ≤ size)%Z → (∀ s ks, scan s = Some ks → scanned s ks) →
  ∃ ok keys rg', CalculateRangeSplitKeys (SampleSubRangeKeys scan rs) rg size cnt = Some (ok, keys, rg') ∧ range_ok rg' end_key ∧
    StronglySorted key_lt keys ∧ keys `sublist_of` boundary_keys_ rg' ∧ boundary_keys_ rg `sublist_of` boundary_keys_ rg' ∧
    (range_start_key_ rg' = range_start_key_ rg ∧ range_end_key_ rg' = range_end_key_ rg).
Proof.
  intros Hok Hun Hc Hscan. unfold CalculateRangeSplitKeys. destruct (split_keys_loop_ok (SampleSubRangeKeys scan rs)) with (end_key := end_key) (avg := (size / cnt)%Z) (fuel := S (length (slices_ rg))) (rg := rg) (idx := 0) (keys := @nil K)
    as (ok & keys & rg' & E & [Hok' Hse Hold Hkeys]).
  - intros s n ks Hs. by apply (SampleSubRangeKeys_inside scan rs s n ks Hscan).
  - apply Z.div_str_pos. lia.
  - lia.
  - done.
  - done.
  - done.
  - exists ok, keys, rg'. split_and!; try done; [|apply Hse..]. eapply sorted_sublist; [exact Hkeys|]. apply Hok'.
Qed.

(** ** The sizes after a flush *)

(** The slices that a flush of [start_key, end_key) is about. *)
Definition flushed (bounds : option (SearchKey K * SearchKey K)) s : Prop :=
  match bounds with
  | None => True
  | Some (start_key, end_key) => contains s start_key ∨ (key_less start_key (sl_start_key_ s) ∧ key_less (sl_start_key_ s) end_key)
  end.

(** The slice [i] is the one of the key; the slices behind it start behind the key. *)
Lemma slices_around rg end_key key : range_ok rg end_key → key_le (range_start_key_ rg) key → key_less key end_key → ∃ i, SearchSlice rg key true = Some i ∧ i < length (slices_ rg) ∧
  ∀ j s, slices_ rg !! j = Some s → (j < i → ¬ contains s key ∧ ¬ key_less key (sl_start_key_ s)) ∧ (j = i → contains s key) ∧ (i < j → ¬ contains s key ∧ key_less key (sl_start_key_ s)).
Proof.
  intros Hok Hlo Hhi. destruct (FindSlice_ok rg end_key key Hok Hlo Hhi) as (s0 & i & Hf & Hi & Hc & Huniq).
  destruct (SearchSlice_ok rg end_key key true Hok) as (l1 & l2 & El & Es & H1 & H2).
  assert (i = length l1) as ->.
  { unfold FindSlice in Hf. rewrite Es in Hf. cbn in Hf. symmetry. by apply (Huniq _ s0). }
  exists (length l1). split; [done|]. split; [by eapply lookup_lt_Some|]. intros j s Hj. split_and!.
  - intros Hlt. split; [intros Hcj; specialize (Huniq j s Hj Hcj); lia|]. destruct (slice_at rg end_key j s Hok Hj) as (m1 & m2 & Em & Hm & -> & _). apply key_le_not. apply low_key_le; [done|]. intros x Hx. apply H1.
    assert (m1 = take (length m1) l1) as Et by (rewrite <- (take_app_le l1 l2) by lia; by rewrite <- El, Em, take_app_length).
    rewrite Et in Hx. by apply (subseteq_take (length m1) l1).
  - intros ->. rewrite Hi in Hj. by injection Hj as <-.
  - intros Hlt. split; [intros Hcj; specialize (Huniq j s Hj Hcj); lia|]. destruct (slice_at rg end_key j s Hok Hj) as (m1 & m2 & Em & <- & -> & _).
    unfold low_key. destruct (last m1) as [b|] eqn:Eb; [|apply last_None in Eb as ->; cbn in Hlt; lia]. cbn. apply H2.
    assert ((l1 ++ l2) !! (length m1 - 1) = Some b) as Hb.
    { rewrite <- El, Em, lookup_app_l by lia. rewrite last_lookup in Eb. rewrite <- Eb. f_equal. lia. }
    rewrite lookup_app_r in Hb by lia. by eapply list_elem_of_lookup_2.
Qed.

Lemma sorted_lookup (l : list K) i j x z : StronglySorted key_lt l → l !! i = Some x → l !! j = Some z → i < j → x <k z.
Proof.
  intros Hs Hi Hj Hlt. destruct (list_elem_of_split_length _ _ _ Hi) as (l1 & l2 & -> & ->). apply StronglySorted_app in Hs as (_ & _ & [_ Hx]%StronglySorted_inv). rewrite Forall_forall in Hx. apply Hx.
  rewrite lookup_app_r in Hj by lia. destruct (j - length l1) as [|m] eqn:E; [lia|]. by eapply list_elem_of_lookup_2.
Qed.
Lemma start_keys_sorted rg end_key i j s s' : range_ok rg end_key → slices_ rg !! i = Some s → slices_ rg !! j = Some s' → i < j → key_less (sl_start_key_ s) (sl_start_key_ s').
Proof.
  intros Hok Hi Hj Hlt. destruct (slice_at rg end_key i s Hok Hi) as (l1 & l2 & El & <- & -> & _). destruct (slice_at rg end_key j s' Hok Hj) as (m1 & m2 & Em & <- & -> & _).
  pose proof Hok as [Hs Hin _]. unfold low_key at 2. destruct (last m1) as [b|] eqn:Eb; [|apply last_None in Eb as ->; cbn in Hlt; lia]. cbn.
  unfold low_key. destruct (last l1) as [x|] eqn:Ex; cbn; [|apply Hin; rewrite Em; apply elem_of_app; left; by apply last_Some_elem_of].
  rewrite last_lookup in Eb, Ex. assert (boundary_keys_ rg !! pred (length l1) = Some x) as Hx by (rewrite El; by apply lookup_app_l_Some). assert (boundary_keys_ rg !! pred (length m1) = Some b) as Hb by (rewrite Em; by apply lookup_app_l_Some).
  apply search_lt_ordinary. apply lookup_lt_Some in Ex as Hl. eapply (sorted_lookup (boundary_keys_ rg) (pred (length l1)) (pred (length m1))); [done..|lia].
Qed.

(** The slices from the first to the last one of the flush. *)
Lemma flushed_slices_ok rg end_key bounds : range_ok rg end_key → (∀ start_key e, bounds = Some (start_key, e) → key_le (range_start_key_ rg) start_key ∧ key_less start_key end_key) →
  ∃ i k, flushed_slices rg bounds = Some (i, k) ∧ i ≤ k ≤ length (slices_ rg) ∧ ∀ j s, slices_ rg !! j = Some s → (i ≤ j < k ↔ flushed bounds s).
Proof.
  intros Hok Hb. unfold flushed_slices. destruct bounds as [[sk ek]|].
  2:{ eexists _, _. split; [done|]. split; [lia|]. intros j s Hj%lookup_lt_Some. cbn. split; [done|lia]. }
  destruct (Hb sk ek eq_refl) as [Hlo Hhi]. destruct (slices_around rg end_key sk Hok Hlo Hhi) as (i & -> & Hi & Hall). cbn [mbind option_bind].
  destruct (partition_point_spec (λ s, search_lt (sl_start_key_ s) ek = true) (drop (i + 1) (slices_ rg))) as (l1 & l2 & El & Hl & H1 & H2). rewrite <- Hl. rewrite Forall_forall in H1.
  eexists _, _. split; [done|]. assert (length (drop (i + 1) (slices_ rg)) = length l1 + length l2) as Hlen by (rewrite El; apply length_app). rewrite length_drop in Hlen. split; [lia|].
  intros j s Hj. destruct (Hall j s Hj) as (A1 & A2 & A3). cbn [flushed]. destruct (Nat.lt_trichotomy j i) as [Hlt|[->|Hgt]].
  - destruct (A1 Hlt). split; [lia|tauto].
  - split; [intros _; left; by apply A2|lia].
  - destruct (A3 Hgt) as [Hnc Hks]. assert (drop (i + 1) (slices_ rg) !! (j - (i + 1)) = Some s) as Hjd by (rewrite lookup_drop; rewrite <- Hj; f_equal; lia). rewrite El in Hjd.
    destruct (decide (j - (i + 1) < length l1)) as [Hin|Hout].
    + rewrite lookup_app_l in Hjd by done. split; [|lia]. intros _. right. split; [done|]. apply H1. by eapply list_elem_of_lookup_2.
    + split; [lia|]. intros [?|[_ Hlt]]; [done|]. exfalso. rewrite lookup_app_r in Hjd by lia. destruct l2 as [|s0 l2]; [done|]. specialize (H2 s0 eq_refl). apply H2.
      destruct (decide (j - (i + 1) - length l1 = 0)) as [E0|E0]; [rewrite E0 in Hjd; by injection Hjd as ->|]. eapply search_lt_trans; [|exact Hlt].
      apply (start_keys_sorted rg end_key (i + 1 + length l1) j); [done| |done|lia]. rewrite <- lookup_drop, El, list_lookup_middle; done.
Qed.

Lemma range_ok_slices rg end_key ss : range_ok rg end_key → span <$> ss = span <$> slices_ rg → range_ok (set_slices rg (boundary_keys_ rg) ss) end_key.
Proof. intros [H1 H2 H3] E. split; [done|done|]. cbn. by rewrite E. Qed.

(** After a flush exactly the slices it was about take over the size of the checkpoint, or forget it
    when the flush has failed; the others are as before. *)
Theorem UpdateSliceSizeAfterFlush_ok rg end_key bounds ok : range_ok rg end_key → (∀ start_key e, bounds = Some (start_key, e) → key_le (range_start_key_ rg) start_key ∧ key_less start_key end_key) →
  ∃ updated rg', UpdateSliceSizeAfterFlush rg bounds ok = Some (updated, rg') ∧ range_ok rg' end_key ∧ length (slices_ rg') = length (slices_ rg) ∧
    (∀ j s, slices_ rg !! j = Some s → ∃ s', slices_ rg' !! j = Some s' ∧ (flushed bounds s → s' = (update_after_flush ok s).2) ∧ (¬ flushed bounds s → s' = s)) ∧
    (updated = true ↔ ok = true ∧ ∃ s, s ∈ slices_ rg ∧ flushed bounds s ∧ post_ckpt_size_ s ≠ UINT64_MAX).
Proof.
  intros Hok Hb. unfold UpdateSliceSizeAfterFlush. destruct (flushed_slices_ok rg end_key bounds Hok Hb) as (i & k & -> & Hik & Hfl). cbn [mbind option_bind]. eexists _, _. split; [done|].
  set (mid := take (k - i) (drop i (slices_ rg))). assert (slices_ rg = take i (slices_ rg) ++ mid ++ drop k (slices_ rg)) as Ess.
  { unfold mid. replace (drop k (slices_ rg)) with (drop (k - i) (drop i (slices_ rg))) by (rewrite drop_drop; f_equal; lia). by rewrite !take_drop. }
  assert (length (take i (slices_ rg)) = i) as Hli by (rewrite length_take; lia). assert (length mid = k - i) as Hlm by (unfold mid; rewrite length_take, length_drop; lia).
  assert ((update_after_flush ok <$> mid).*2 = (λ s, (update_after_flush ok s).2) <$> mid) as Em by by rewrite <- list_fmap_compose.
  cbn [set_slices slices_]. rewrite Em. split_and!.
  - apply range_ok_slices; [done|]. rewrite Ess at 3. rewrite !fmap_app, <- list_fmap_compose. f_equal. f_equal. apply list_fmap_ext. intros _ s _. cbn. unfold update_after_flush, UpdateSize. destruct ok; [by destruct (decide _)|done].
  - rewrite Ess at 3. by rewrite !length_app, length_fmap.
  - intros j s Hj. pose proof (Hfl j s Hj) as Hjf. rewrite Ess in Hj. apply lookup_app_Some in Hj as [Hj|[Hj1 [Hj|[Hj2 Hj]]%lookup_app_Some]].
    + exists s. pose proof (lookup_lt_Some _ _ _ Hj). split; [by apply lookup_app_l_Some|]. split; [intros Hf%Hjf; lia|done].
    + eexists. split; [rewrite lookup_app_r by done; apply lookup_app_l_Some; by rewrite list_lookup_fmap, Hj|]. pose proof (lookup_lt_Some _ _ _ Hj). split; [done|]. intros Hn. exfalso. apply Hn, Hjf. lia.
    + exists s. split; [rewrite lookup_app_r by done; rewrite lookup_app_r by (rewrite length_fmap; lia); by rewrite length_fmap|]. split; [intros Hf%Hjf; lia|done].
  - rewrite existsb_exists. split.
    + intros (p & (s & -> & Hs)%list_elem_of_In%list_elem_of_fmap & Hp). unfold update_after_flush, UpdateSize in Hp. destruct ok; [|done]. split; [done|]. exists s. destruct (decide _) as [Hne|]; [|done].
      split; [rewrite Ess; set_solver|]. split; [|done]. apply list_elem_of_lookup in Hs as [j Hj]. apply (Hfl (i + j)); [|apply lookup_lt_Some in Hj; lia].
      rewrite Ess, lookup_app_r by lia. apply lookup_app_l_Some. rewrite <- Hj. f_equal. lia.
    + intros [-> (s & Hs & Hf & Hne)]. exists (update_after_flush true s). split; [|cbn; unfold UpdateSize; by rewrite decide_True]. apply list_elem_of_In, list_elem_of_fmap. exists s. split; [done|].
      apply list_elem_of_lookup in Hs as [j Hj]. apply (Hfl j s Hj) in Hf. rewrite Ess, lookup_app_r in Hj by lia. rewrite lookup_app_l in Hj by lia. by eapply list_elem_of_lookup_2.
Qed.
End range.
