(* ===== verification/SlicePins.v ===== *)
(** * Pinning the slices of a scan ([include/cc/range_slice.h], [src/cc/range_slice.cpp])

    A request pins the slice of its key and, if the slice is in memory, the slices behind it (or
    before it) that are in memory as well, up to a bound; other slices are loaded in advance.
    The request releases all pins at once by the first and the last slice.  The theorems say
    which slices are pinned, that they are whole, and that releasing gives back exactly what was
    taken. *)

From S2P Require Import Prelude CcProtocol CcEntry LruList CcPages PagesRep RandomPairing StoreSlice StoreRange.

(** A range with its own pin counter. *)
Record PinnedRange (K : Type) := mkPinned { pr_range : StoreRange K; pr_pins_ : Z }.
Arguments mkPinned {_}.
Arguments pr_range {_}.
Arguments pr_pins_ {_}.

(** What is sent; [DispatchLoad] is the task that calls the data store on another core. *)
Inductive PinOutput (K : Type) := OfSlice (o : SliceOutput) | DispatchLoad (slice : SearchKey K) (executor : Z).
Arguments OfSlice {_}.
Arguments DispatchLoad {_}.

(** [LoadSliceController]; the submitter is its core and the number of cores. *)
Record LoadSliceController := mkCtrl { ctrl_force_load_ : bool; ctrl_async_emit_ : bool; ctrl_submitter_ : option (Z * Z); ctrl_executor_ : Z }.
Definition ForceLoadConotroller : LoadSliceController := mkCtrl true false None 65535.
Definition NonForceLoadController (async_emit : bool) (core_id core_cnt : Z) : LoadSliceController :=
  mkCtrl false async_emit (Some (core_id, core_cnt)) (if async_emit then core_id else 65535).
Definition NextExecutor (c : LoadSliceController) : option (Z * LoadSliceController) :=
  '(_, core_cnt) ← ctrl_submitter_ c;
  if ctrl_force_load_ c then None
  else
    let e := if decide (ctrl_executor_ c = core_cnt) then 0%Z else u16 (ctrl_executor_ c + 1) in
    Some (e, mkCtrl false (ctrl_async_emit_ c) (ctrl_submitter_ c) e).

(** What a call meets: the clock, the fill request from the pool and the answer of the data store of
    each load. *)
Record PinEnv (K : Type) := mkEnv { pe_now : Z; pe_pool : nat → FillStoreSliceCc K; pe_kv : nat → DataStoreOpStatus; pe_core_id : Z; pe_cores : nat }.
Arguments pe_now {_}.
Arguments pe_pool {_}.
Arguments pe_kv {_}.
Arguments pe_core_id {_}.
Arguments pe_cores {_}.

(** The arguments of [PinSlices] that matter here. *)
Record PinArgs (K : Type) := mkPinArgs {
  pa_search_key : SearchKey K;
  pa_inclusive : bool;
  pa_end_key : option (SearchKey K);
  pa_end_inclusive : bool;
  pa_cc_request : option Waiter;
  pa_force_load : bool;
  pa_prefetch_size : nat;
  pa_max_pin_cnt : nat;
  pa_forward_pin : bool;
  pa_check_key_cache : bool;
  pa_shard_id : nat;
  pa_no_load_on_miss : bool;
  pa_prefetch_force_load : bool;
}.
Arguments mkPinArgs {_}.
Arguments pa_search_key {_}.
Arguments pa_inclusive {_}.
Arguments pa_end_key {_}.
Arguments pa_end_inclusive {_}.
Arguments pa_cc_request {_}.
Arguments pa_force_load {_}.
Arguments pa_prefetch_size {_}.
Arguments pa_max_pin_cnt {_}.
Arguments pa_forward_pin {_}.
Arguments pa_check_key_cache {_}.
Arguments pa_shard_id {_}.
Arguments pa_no_load_on_miss {_}.
Arguments pa_prefetch_force_load {_}.

(** The outcome: the status, the slice of the key, the last pinned slice, the range, and what was
    sent. *)
Record PinResult (K : Type) := mkPinResult {
  pin_status : RangeSliceOpStatus;
  pin_slice : SearchKey K;
  last_pinned_slice : option (SearchKey K);
  pin_range : PinnedRange K;
  pin_sent : list (PinOutput K);
}.
Arguments mkPinResult {_}.
Arguments pin_status {_}.
Arguments pin_slice {_}.
Arguments last_pinned_slice {_}.
Arguments pin_range {_}.
Arguments pin_sent {_}.

Section pins.
Context {K : Type} `{!KeyOrder K}.
(** [ContainsKey]: the filter of the keys of a core; [next_prefetch_slice]: the order of
    loads in advance. *)
Context (ContainsKey : SearchKey K → nat → bool) (next_prefetch_slice : Z → bool → Z).
Implicit Types (r : PinnedRange K) (s : StoreSlice K) (args : PinArgs K) (env : PinEnv K) (c : LoadSliceController).

Definition with_slices r (ss : list (StoreSlice K)) (d : Z) : PinnedRange K :=
  mkPinned (set_slices (pr_range r) (boundary_keys_ (pr_range r)) ss) (u32 (pr_pins_ r + d)).

(** [LoadSlice] of the [n]-th slice that the call loads. *)
Definition LoadSlice env (n : nat) s (w : option Waiter) c : option (LoadSliceStatus * (StoreSlice K * Z * list (PinOutput K)) * LoadSliceController) :=
  match LoadSlice_start s (ctrl_force_load_ c) w (pe_now env) (pe_pool env n) (pe_cores env) with
  | (LoadReturns st, (s', d)) => Some (st, (s', d, []), c)
  | (LoadCalls, (s', d)) =>
      if ctrl_async_emit_ c then
        '(e, c') ← NextExecutor c;
        Some (LoadSuccess, (s', d, [DispatchLoad (sl_start_key_ s') e]), c')
      else
        let '(st, (s'', d', sent)) := LoadSlice_return s' false (pe_kv env n) in
        Some (st, (s'', (d + d')%Z, OfSlice <$> sent), c)
  end.

(** ** Pinning *)

(** The slices beyond the end key of the request. *)
Definition beyond_end args s : bool :=
  match pa_end_key args with
  | None => false
  | Some e =>
      if pa_forward_pin args
      then negb (search_lt (sl_start_key_ s) e || pa_end_inclusive args && bool_decide (sl_start_key_ s = e))
      else negb (search_lt e (sl_end_key_ s))
  end.

Definition pinnable s : bool := negb (to_alter_ s) && bool_decide (sl_status_ s = FullyCached).

(** The slices next to the first one, in the direction of the scan: how many are pinned, and
    whether slices may be loaded in advance. *)
Fixpoint pin_more args (cnt : nat) (ss : list (StoreSlice K)) : nat * bool * list (StoreSlice K) :=
  match ss with
  | [] => (0, true, [])
  | s :: rest =>
      if decide (cnt < pa_max_pin_cnt args) then
        if beyond_end args s then (0, false, ss)
        else if pinnable s then let '(n, ok, rest') := pin_more args (S cnt) rest in (S n, ok, pin s :: rest')
        else (0, true, ss)
      else (0, true, ss)
  end.

(** The slice at [idx] is in memory: it and its neighbours are pinned. *)
Definition pin_from args (ss : list (StoreSlice K)) (idx : nat) s : nat * bool * list (StoreSlice K) :=
  if pa_forward_pin args then
    let '(n, ok, behind) := pin_more args 1 (drop (S idx) ss) in
    (S n, ok, take idx ss ++ pin s :: behind)
  else
    let '(n, ok, before) := pin_more args 1 (reverse (take idx ss)) in
    (S n, ok, reverse before ++ pin s :: drop (S idx) ss).

Definition last_pinned args (idx n : nat) : nat := if pa_forward_pin args then idx + (n - 1) else idx - (n - 1).

(** ** Loading slices in advance *)

Fixpoint prefetch (next : Z → bool → Z) args env c (k n : nat) (sid : Z) (ss : list (StoreSlice K)) (d : Z) (sent : list (PinOutput K)) : option (list (StoreSlice K) * Z * list (PinOutput K)) :=
  match k with
  | 0 => Some (ss, d, sent)
  | S k =>
      let go := if pa_forward_pin args then bool_decide (0 ≤ sid < Z.of_nat (length ss))%Z else bool_decide (-1 < sid)%Z in
      if go then
        s ← ss !! Z.to_nat sid;
        if beyond_end args s then Some (ss, d, sent)
        else if decide (sl_status_ s = PartiallyCached) then
          '(_, (s', d', out), c') ← LoadSlice env n s None c;
          prefetch next args env c' k (S n) (next sid (pa_forward_pin args)) (<[Z.to_nat sid := s']> ss) (d + d') (sent ++ out)
        else prefetch next args env c k n (next sid (pa_forward_pin args)) ss d sent
      else Some (ss, d, sent)
  end.

Definition prefetch_from args env (idx pinned : nat) (ss : list (StoreSlice K)) : option (list (StoreSlice K) * Z * list (PinOutput K)) :=
  let c := if pa_prefetch_force_load args then ForceLoadConotroller else NonForceLoadController true (pe_core_id env) (Z.of_nat (pe_cores env)) in
  if pa_forward_pin args || bool_decide (0 < idx)
  then prefetch next_prefetch_slice args env c (pa_prefetch_size args) 1 (next_prefetch_slice (Z.of_nat (last_pinned args idx (Nat.max 1 pinned))) (pa_forward_pin args)) ss 0 []
  else Some (ss, 0%Z, []).

(** ** The whole operation *)

(** The slice is not in memory: the answer if the key cache has one, and whether the slice may
    stay out of memory. *)
Definition key_cache_answer args s : option (option RangeSliceOpStatus * bool) :=
  if pa_check_key_cache args then
    if decide (pa_prefetch_size args = 0) then
      valid ← IsValidInKeyCache s (pa_shard_id args);
      if valid : bool then Some (if ContainsKey (pa_search_key args) (pa_shard_id args) then None else Some KeyNotExists, pa_no_load_on_miss args)
      else loading ← IsLoadingKeyCache s (pa_shard_id args); Some (if loading : bool then Some Slice_Retry else None, false)
    else None
  else Some (None, pa_no_load_on_miss args).

Definition load_status (st : LoadSliceStatus) : RangeSliceOpStatus :=
  match st with LoadSuccess => BlockedOnLoad | LoadDelay => Delay | LoadRetry => Slice_Retry | LoadError => Slice_Error end.

Definition maybe_prefetch (b : bool) args env (idx pinned : nat) (ss : list (StoreSlice K)) : option (list (StoreSlice K) * Z * list (PinOutput K)) :=
  if b && bool_decide (0 < pa_prefetch_size args) then prefetch_from args env idx pinned ss else Some (ss, 0%Z, []).

Definition load_controller env (force_load : bool) : LoadSliceController :=
  if force_load then ForceLoadConotroller else NonForceLoadController false (pe_core_id env) (Z.of_nat (pe_cores env)).

Definition pin_cached r args env (idx : nat) s : option (PinResult K) :=
  let '(n, ok, ss) := pin_from args (slices_ (pr_range r)) idx s in
  last ← ss !! last_pinned args idx n;
  '(ss', d, sent) ← maybe_prefetch ok args env idx n ss;
  Some (mkPinResult Slice_Successful (sl_start_key_ s) (Some (sl_start_key_ last)) (with_slices r ss' (Z.of_nat n + d)) sent).

Definition pin_missing r args env (idx : nat) s : option (PinResult K) :=
  '(answer, no_load_on_miss) ← key_cache_answer args s;
  match answer with
  | Some st => Some (mkPinResult st (sl_start_key_ s) None r [])
  | None =>
      if no_load_on_miss : bool then (if decide (pa_prefetch_size args = 0) then Some (mkPinResult NotPinned (sl_start_key_ s) None r []) else None)
      else
        '(st, (s', d, sent), _) ← LoadSlice env 0 s (pa_cc_request args) (load_controller env (pa_force_load args));
        '(ss, d', sent') ← maybe_prefetch true args env idx 0 (<[idx := s']> (slices_ (pr_range r)));
        Some (mkPinResult (load_status st) (sl_start_key_ s) None (with_slices r ss (d + d')) (sent ++ sent'))
  end.

Definition PinSlices r args env : option (PinResult K) :=
  idx ← SearchSlice (pr_range r) (pa_search_key args) (pa_forward_pin args || pa_inclusive args);
  s ← slices_ (pr_range r) !! idx;
  if to_alter_ s then Some (mkPinResult Slice_Retry (sl_start_key_ s) None r [])
  else if decide (sl_status_ s = FullyCached) then pin_cached r args env idx s
  else pin_missing r args env idx s.

(** [PinSlice] of the checkpointer: one slice, given by its start key. *)
Definition PinSlice r (slice : SearchKey K) (w : option Waiter) (force_load : bool) (prefetch_size : nat) env : option (RangeSliceOpStatus * PinnedRange K * list (PinOutput K)) :=
  idx ← SearchSlice (pr_range r) slice true;
  s ← slices_ (pr_range r) !! idx;
  if to_alter_ s then None
  else if decide (sl_status_ s = FullyCached) then Some (Slice_Successful, with_slices r (<[idx := pin s]> (slices_ (pr_range r))) 1, [])
  else
    '(st, (s', d, sent), _) ← LoadSlice env 0 s w (load_controller env force_load);
    if decide (st = LoadDelay) then None
    else
      '(ss, d', sent') ← prefetch (λ i _, (i + 1)%Z) (mkPinArgs slice true None false w force_load prefetch_size 1 true false 0 false false) env
         (NonForceLoadController true (pe_core_id env) (Z.of_nat (pe_cores env))) prefetch_size 1 (Z.of_nat idx + 1) (<[idx := s']> (slices_ (pr_range r))) 0 [];
      Some (load_status st, with_slices r ss (d + d'), sent ++ sent').

(** ** Releasing *)

Fixpoint unpin_run (fuel : nat) (ss : list (StoreSlice K)) (idx : nat) (end_slice : SearchKey K) (forward_dir : bool) (d : Z) (wake : bool) : option (list (StoreSlice K) * Z * bool) :=
  match fuel with
  | 0 => None
  | S fuel =>
      s ← ss !! idx;
      let '(w, (s', d')) := UnpinSlice s in
      let ss' := <[idx := s']> ss in
      if decide (sl_start_key_ s = end_slice) then Some (ss', (d + d')%Z, wake || w)
      else if forward_dir then unpin_run fuel ss' (S idx) end_slice forward_dir (d + d') (wake || w)
      else if decide (idx = 0) then None
      else unpin_run fuel ss' (idx - 1) end_slice forward_dir (d + d') (wake || w)
  end.

(** Also whether the thread that waits to alter a slice is woken up. *)
Definition BatchUnpinSlices r (start_slice end_slice : SearchKey K) (forward_dir : bool) : option (PinnedRange K * bool) :=
  idx ← SearchSlice (pr_range r) start_slice true;
  '(ss, d, wake) ← unpin_run (length (slices_ (pr_range r))) (slices_ (pr_range r)) idx end_slice forward_dir 0 false;
  Some (with_slices r ss d, wake).

(** ** Which slices are pinned *)

Lemma pin_more_ok args cnt ss : ∃ n ok, pin_more args cnt ss = (n, ok, (pin <$> take n ss) ++ drop n ss) ∧ n ≤ length ss ∧ cnt + n ≤ Nat.max cnt (pa_max_pin_cnt args) ∧
  (∀ s, s ∈ take n ss → pinnable s = true ∧ beyond_end args s = false) ∧
  (∀ s, ss !! n = Some s → cnt + n < pa_max_pin_cnt args → pinnable s = false ∨ beyond_end args s = true).
Proof.
  revert cnt. induction ss as [|s ss IH]; intros cnt; cbn [pin_more]; [exists 0, true; split_and!; [done|cbn; lia|lia|by intros s ?%not_elem_of_nil|done]|].
  assert (∀ ok, ∃ n ok', (0, ok, s :: ss) = (n, ok', (pin <$> take n (s :: ss)) ++ drop n (s :: ss)) ∧ n = 0) as H0 by (intros ok; by exists 0, ok).
  destruct (decide (cnt < pa_max_pin_cnt args)) as [Hc|Hc].
  2:{ exists 0, true. split_and!; [done|cbn; lia|lia|by intros x ?%not_elem_of_nil|intros; lia]. }
  destruct (beyond_end args s) eqn:Eb; [exists 0, false; split_and!; [done|cbn; lia|lia|by intros x ?%not_elem_of_nil|intros ? [= <-]; auto]|].
  destruct (pinnable s) eqn:Ep; [|exists 0, true; split_and!; [done|cbn; lia|lia|by intros x ?%not_elem_of_nil|intros ? [= <-]; auto]].
  destruct (IH (S cnt)) as (n & ok & -> & Hn & Hm & Hp & Hx). exists (S n), ok. split_and!; [done|cbn; lia|lia| |].
  - cbn [take]. intros x [->|Hx']%elem_of_cons; [done|by apply Hp].
  - cbn. intros x Hx' Hlt. apply Hx; [done|lia].
Qed.

(** The run of pinned slices: the slice of the key is its first one, or its last one if the scan
    goes backward. *)
Record pinned_run args (ss ss' : list (StoreSlice K)) (idx : nat) (a run b : list (StoreSlice K)) : Prop := {
  run_split : ss = a ++ run ++ b ∧ ss' = a ++ (pin <$> run) ++ b;
  run_length : 0 < length run ≤ Nat.max 1 (pa_max_pin_cnt args);
  run_position : idx = if pa_forward_pin args then length a else length a + (length run - 1);
  run_pinnable s : s ∈ run → pinnable s = true;
  run_inside j s : run !! j = Some s → length a + j ≠ idx → beyond_end args s = false;
}.

Lemma pin_from_ok args ss idx s : ss !! idx = Some s → pinnable s = true →
  ∃ ok ss' a run b, pin_from args ss idx s = (length run, ok, ss') ∧ pinned_run args ss ss' idx a run b.
Proof.
  intros Hs Hp. destruct (list_elem_of_split_length _ _ _ Hs) as (a & b & -> & ->). unfold pin_from. rewrite take_app_length.
  rewrite drop_app_ge by lia. replace (S (length a) - length a) with 1 by lia. change (drop 1 (s :: b)) with b. destruct (pa_forward_pin args) eqn:Ef.
  - destruct (pin_more_ok args 1 b) as (n & ok & -> & Hn & Hm & Hr & _). exists ok, (a ++ pin s :: (pin <$> take n b) ++ drop n b), a, (s :: take n b), (drop n b).
    split; [by rewrite length_cons, length_take, Nat.min_l|]. split.
    + cbn. by rewrite take_drop.
    + rewrite length_cons, length_take. lia.
    + by rewrite Ef.
    + intros x [->|Hx]%elem_of_cons; [done|by apply Hr].
    + intros [|j] x Hx Hj; [lia|]. apply Hr. by eapply list_elem_of_lookup_2.
  - destruct (pin_more_ok args 1 (reverse a)) as (n & ok & -> & Hn & Hm & Hr & _). rewrite length_reverse in Hn.
    rewrite <- (take_drop (length a - n) a) in Hr |- *. set (a1 := take _ a) in *. set (a2 := drop _ a) in *. assert (length a2 = n) as Hl by (unfold a2; rewrite length_drop; lia).
    assert (take n (reverse (a1 ++ a2)) = reverse a2) as Et by (rewrite reverse_app; apply take_app_length'; by rewrite length_reverse).
    rewrite Et in Hr |- *. assert (drop n (reverse (a1 ++ a2)) = reverse a1) as -> by (rewrite reverse_app; apply drop_app_length'; by rewrite length_reverse).
    eexists ok, _, a1, (a2 ++ [s]), b. split; [rewrite length_app, Hl; cbn; f_equal; f_equal; lia|]. split.
    + split; [by rewrite <- !app_assoc|]. rewrite reverse_app, reverse_involutive, fmap_app, <- fmap_reverse, reverse_involutive. by rewrite <- !app_assoc.
    + rewrite length_app. cbn. lia.
    + rewrite Ef, !length_app. cbn. lia.
    + intros x [Hx|Hx%list_elem_of_singleton]%elem_of_app; [|by rewrite Hx]. apply Hr. by apply elem_of_reverse.
    + intros j x Hx Hj. rewrite length_app in Hj. apply lookup_app_Some in Hx as [Hx|[Hj' Hx]]; [apply Hr, elem_of_reverse; by eapply list_elem_of_lookup_2|].
      apply lookup_lt_Some in Hx. cbn in Hx. lia.
Qed.

(** ** The pins of the range

    The range counts the pins of its slices and the slices that are being loaded. *)

Definition weight s : Z := sl_pins_ s + (if fetch_slice_cc_ s then 1 else 0).
Definition total (ss : list (StoreSlice K)) : Z := foldr Z.add 0%Z (weight <$> ss).

Lemma total_app ss1 ss2 : total (ss1 ++ ss2) = (total ss1 + total ss2)%Z.
Proof. unfold total. induction ss1 as [|s ss1 IH]; [done|]. cbn. rewrite IH. lia. Qed.
Lemma total_cons s ss : total (s :: ss) = (weight s + total ss)%Z.
Proof. done. Qed.
Lemma total_insert ss i s s' : ss !! i = Some s → total (<[i := s']> ss) = (total ss + (weight s' - weight s))%Z.
Proof.
  intros Hs. destruct (list_elem_of_split_length _ _ _ Hs) as (a & b & -> & ->). rewrite insert_app_r_alt by lia. rewrite Nat.sub_diag. cbn. rewrite !total_app, !total_cons. lia.
Qed.

(** A load changes only what belongs to the load. *)
Definition kept s s' : Prop := ∃ f q, s' = set_load s f q.
#[local] Instance kept_preorder : PreOrder kept.
Proof. split; [intros s; exists (fetch_slice_cc_ s), (cc_queue_ s); by destruct s|]. intros s1 s2 s3 (f & q & ->) (f' & q' & ->). by exists f', q'. Qed.

Definition ctrl_ok c : Prop := ctrl_async_emit_ c = true → ctrl_force_load_ c = false ∧ is_Some (ctrl_submitter_ c).

Lemma LoadSlice_ok env n s w c : ctrl_ok c → ∃ st s' d out c', LoadSlice env n s w c = Some (st, (s', d, out), c') ∧ kept s s' ∧ weight s' = (weight s + d)%Z ∧ ctrl_ok c'.
Proof.
  intros Hc. unfold LoadSlice, LoadSlice_start, weight. destruct (fetch_slice_cc_ s) as [f|] eqn:Ef.
  - assert (∀ f', kept s (queue_request (set_load s (Some f') (cc_queue_ s)) w) ∧ weight (queue_request (set_load s (Some f') (cc_queue_ s)) w) = (sl_pins_ s + 1 + 0)%Z) as Hq.
    { intros f'. unfold queue_request, weight. destruct w as [w|]; cbn; (split; [eexists _, _; done|lia]). }
    assert (kept s (queue_request s w) ∧ weight (queue_request s w) = (sl_pins_ s + 1 + 0)%Z) as Hq0.
    { unfold queue_request, weight. destruct w as [w|]; cbn; [split; [eexists _, _; done|rewrite Ef; lia]|split; [reflexivity|rewrite Ef; lia]]. }
    destruct (ctrl_force_load_ c && negb (force_load_ f)); [destruct (decide _)|]; eexists _, _, _, _, _; (split; [done|]); unfold weight in *; [destruct (Hq (SetForceLoad f true)); done| |by destruct Hq0].
    split; [reflexivity|]. rewrite Ef. split; [lia|done].
  - destruct (negb (ctrl_force_load_ c) && IsRecentLoad s (pe_now env)).
    { eexists _, _, _, _, _. split; [done|]. split; [reflexivity|]. rewrite Ef. split; [lia|done]. }
    set (s1 := queue_request _ w). assert (kept s s1 ∧ sl_pins_ s1 = sl_pins_ s ∧ is_Some (fetch_slice_cc_ s1)) as (Hk & Hp & [f Hf]).
    { unfold s1, queue_request. destruct w; cbn; (split; [eexists _, _; done|split; [done|by eexists]]). }
    destruct (ctrl_async_emit_ c) eqn:Ea.
    + destruct (Hc Ea) as [Hff [[ci cc] Hs]]. unfold NextExecutor. rewrite Hs, Hff. cbn [mbind option_bind]. eexists _, _, _, _, _. split; [done|]. split; [done|]. rewrite Hf, Hp.
      split; [lia|]. intros _. split; [done|by eexists].
    + unfold LoadSlice_return. destruct (pe_kv env n); eexists _, _, _, _, _; (split; [done|]); [split; [done|]; rewrite Hf, Hp; split; [lia|done]|..].
      all: destruct Hk as (f' & q' & Ek); rewrite Ek; (split; [eexists _, _; done|]); cbn; (split; [lia|done]).
Qed.

Definition prefetch_next_ok (next : Z → bool → Z) : Prop := ∀ i, (next i false < i)%Z.

Lemma prefetch_ok next args env : (pa_forward_pin args = false → prefetch_next_ok next) → ∀ k c n sid ss d sent, ctrl_ok c → (pa_forward_pin args = false → (sid < Z.of_nat (length ss))%Z) →
  ∃ ss' d' sent', prefetch next args env c k n sid ss d sent = Some (ss', d', sent') ∧ Forall2 kept ss ss' ∧ (total ss' = total ss + (d' - d))%Z.
Proof.
  intros Hnext. induction k as [|k IH]; intros c n sid ss d sent Hc Hsid; cbn [prefetch].
  { exists ss, d, sent. split; [done|]. split; [reflexivity|lia]. }
  assert (∀ ss' : list (StoreSlice K), ∃ ss' d' sent', Some (ss, d, sent) = Some (ss', d', sent') ∧ Forall2 kept ss ss' ∧ (total ss' = total ss + (d' - d))%Z) as Hstop.
  { intros _. exists ss, d, sent. split; [done|]. split; [reflexivity|lia]. }
  destruct (if pa_forward_pin args then _ else _) eqn:Ego; [|by apply Hstop].
  assert (0 ≤ sid < Z.of_nat (length ss))%Z as Hr by (destruct (pa_forward_pin args); apply bool_decide_eq_true in Ego; [done|]; specialize (Hsid eq_refl); lia).
  destruct (lookup_lt_is_Some_2 ss (Z.to_nat sid)) as [s Hs]; [lia|]. rewrite Hs. cbn [mbind option_bind]. destruct (beyond_end args s); [by apply Hstop|].
  assert (pa_forward_pin args = false → next sid (pa_forward_pin args) < Z.of_nat (length ss))%Z as Hn by (intros Eb; rewrite Eb; specialize (Hnext Eb sid); lia).
  destruct (decide _) as [Hst|Hst]; [|by apply IH].
  destruct (LoadSlice_ok env n s None c Hc) as (st & s' & d' & out & c' & -> & Hk & Hw & Hc'). cbn [mbind option_bind].
  destruct (IH c' (S n) (next sid (pa_forward_pin args)) (<[Z.to_nat sid:=s']> ss) (d + d')%Z (sent ++ out) Hc') as (ss' & d'' & sent' & -> & Hkk & Ht).
  { rewrite length_insert. done. }
  exists ss', d'', sent'. split; [done|]. split; [|rewrite Ht, (total_insert _ _ s) by done; lia].
  etrans; [|exact Hkk]. rewrite <- (list_insert_id ss (Z.to_nat sid) s) at 1 by done. apply Forall2_insert; [reflexivity|done].
Qed.

(** ** The outcome of [PinSlices] *)

Definition few (ss : list (StoreSlice K)) : Prop := ∀ s, s ∈ ss → (0 ≤ sl_pins_ s < 2 ^ 16 - 1)%Z.

(** The assertions about the arguments. *)
Record args_ok r args : Prop := {
  ao_cache : pa_check_key_cache args = true → pa_prefetch_size args = 0 ∧ ∀ s, s ∈ slices_ (pr_range r) → pa_shard_id args < length (cache_validity_ s);
  ao_no_load : pa_no_load_on_miss args = true → pa_prefetch_size args = 0;
}.

Lemma weight_pin s : (0 ≤ sl_pins_ s < 2 ^ 16 - 1)%Z → weight (pin s) = (weight s + 1)%Z.
Proof. intros. unfold weight, pin, u16. cbn. rewrite Z.mod_small by lia. lia. Qed.
Lemma total_pin run : few run → total (pin <$> run) = (total run + Z.of_nat (length run))%Z.
Proof.
  induction run as [|s run IH]; intros Hf; [done|]. rewrite fmap_cons, !total_cons, weight_pin by (apply Hf; by left). rewrite IH by (intros x Hx; apply Hf; by right). cbn [length]. lia.
Qed.
Lemma total_pinned_run args ss ss' idx a run b : pinned_run args ss ss' idx a run b → few ss → total ss' = (total ss + Z.of_nat (length run))%Z.
Proof. intros [[-> ->] _ _ _ _] Hf. rewrite !total_app, total_pin; [lia|]. intros s Hs. apply Hf. set_solver. Qed.

Lemma maybe_prefetch_ok b args env idx pinned ss : prefetch_next_ok next_prefetch_slice → idx < length ss → (pa_forward_pin args = false → pinned ≤ S idx) →
  ∃ ss' d sent, maybe_prefetch b args env idx pinned ss = Some (ss', d, sent) ∧ Forall2 kept ss ss' ∧ (total ss' = total ss + d)%Z.
Proof.
  intros Hnext Hidx Hp. unfold maybe_prefetch. destruct (b && _); [|exists ss, 0%Z, []; split; [done|split; [reflexivity|lia]]].
  unfold prefetch_from. destruct (_ || _); [|exists ss, 0%Z, []; split; [done|split; [reflexivity|lia]]].
  destruct (prefetch_ok next_prefetch_slice args env (λ _, Hnext) (pa_prefetch_size args) (if pa_prefetch_force_load args then ForceLoadConotroller else NonForceLoadController true (pe_core_id env) (Z.of_nat (pe_cores env)))
     1 (next_prefetch_slice (Z.of_nat (last_pinned args idx (Nat.max 1 pinned))) (pa_forward_pin args)) ss 0 []) as (ss' & d & sent & -> & Hk & Ht).
  - intros Ha. destruct (pa_prefetch_force_load args); [done|]. split; [done|by eexists].
  - intros Ef. rewrite Ef. pose proof (Hnext (Z.of_nat (last_pinned args idx (Nat.max 1 pinned)))). unfold last_pinned in *. rewrite Ef in *. lia.
  - exists ss', d, sent. split; [done|]. split; [done|lia].
Qed.

(** The slice of the last pin. *)
Definition run_last args (run : list (StoreSlice K)) : option (StoreSlice K) := if pa_forward_pin args then last run else head run.

Record pin_outcome r args (res : PinResult K) : Prop := {
  po_bounds : boundary_keys_ (pr_range (pin_range res)) = boundary_keys_ (pr_range r) ∧ range_start_key_ (pr_range (pin_range res)) = range_start_key_ (pr_range r) ∧
    range_end_key_ (pr_range (pin_range res)) = range_end_key_ (pr_range r);
  po_count : pr_pins_ (pin_range res) = u32 (pr_pins_ r + (total (slices_ (pr_range (pin_range res))) - total (slices_ (pr_range r))));
  po_slices : ∃ idx s, SearchSlice (pr_range r) (pa_search_key args) (pa_forward_pin args || pa_inclusive args) = Some idx ∧
    slices_ (pr_range r) !! idx = Some s ∧ pin_slice res = sl_start_key_ s ∧
    if decide (pin_status res = Slice_Successful)
    then ∃ ss a run b, pinned_run args (slices_ (pr_range r)) ss idx a run b ∧ Forall2 kept ss (slices_ (pr_range (pin_range res))) ∧
      last_pinned_slice res = sl_start_key_ <$> run_last args run
    else Forall2 kept (slices_ (pr_range r)) (slices_ (pr_range (pin_range res))) ∧ last_pinned_slice res = None;
}.

Lemma pin_cached_ok r args env idx s : prefetch_next_ok next_prefetch_slice → few (slices_ (pr_range r)) →
  SearchSlice (pr_range r) (pa_search_key args) (pa_forward_pin args || pa_inclusive args) = Some idx → slices_ (pr_range r) !! idx = Some s → pinnable s = true →
  ∃ res, pin_cached r args env idx s = Some res ∧ pin_status res = Slice_Successful ∧ pin_outcome r args res.
Proof.
  intros Hnext Hf Hse Hs Hp. unfold pin_cached. destruct (pin_from_ok args _ idx s Hs Hp) as (ok & ss & a & run & b & -> & Hrun). pose proof Hrun as [[Ess Ess'] Hl Hpos _ _].
  destruct (lookup_lt_is_Some_2 run (if pa_forward_pin args then length run - 1 else 0)) as [x Hx]; [destruct (pa_forward_pin args); lia|].
  assert (ss !! last_pinned args idx (length run) = Some (pin x)) as ->.
  { rewrite Ess', lookup_app_r by (unfold last_pinned; destruct (pa_forward_pin args); lia). rewrite lookup_app_l by (rewrite length_fmap; unfold last_pinned; destruct (pa_forward_pin args); lia).
    rewrite list_lookup_fmap. replace (last_pinned args idx (length run) - length a) with (if pa_forward_pin args then length run - 1 else 0); [by rewrite Hx|].
    unfold last_pinned. destruct (pa_forward_pin args); lia. }
  cbn [mbind option_bind]. destruct (maybe_prefetch_ok ok args env idx (length run) ss Hnext) as (ss' & d & sent & -> & Hk & Ht).
  { rewrite Ess', !length_app, length_fmap. destruct (pa_forward_pin args); lia. }
  { intros Ef. rewrite Ef in Hpos. lia. }
  cbn [mbind option_bind]. eexists. split; [done|]. split; [done|]. pose proof (total_pinned_run _ _ _ _ _ _ _ Hrun Hf) as Hrt. split; cbn [pin_range pin_slice pin_status last_pinned_slice].
  - done.
  - cbn [with_slices pr_pins_ pr_range slices_ set_slices]. rewrite Ht, Hrt. f_equal. lia.
  - exists idx, s. split_and!; [done|done|done|]. rewrite decide_True by done. exists ss, a, run, b. split; [done|]. split; [done|].
    unfold run_last. destruct (pa_forward_pin args); [rewrite last_lookup; replace (pred (length run)) with (length run - 1) by lia; by rewrite Hx|]. by rewrite head_lookup, Hx.
Qed.

Lemma pin_missing_ok r args env idx s : prefetch_next_ok next_prefetch_slice → args_ok r args →
  SearchSlice (pr_range r) (pa_search_key args) (pa_forward_pin args || pa_inclusive args) = Some idx → slices_ (pr_range r) !! idx = Some s →
  (pr_pins_ r = u32 (pr_pins_ r))%Z → ∃ res, pin_missing r args env idx s = Some res ∧ pin_status res ≠ Slice_Successful ∧ pin_outcome r args res.
Proof.
  intros Hnext [Hcache Hno] Hse Hs Hu. unfold pin_missing.
  assert (∀ st, st ≠ Slice_Successful → pin_outcome r args (mkPinResult st (sl_start_key_ s) None r [])) as Hsame.
  { intros st Hst. split; cbn [pin_range pin_slice pin_status last_pinned_slice]; [done|by rewrite Z.sub_diag, Z.add_0_r|]. exists idx, s. split_and!; [done..|]. rewrite decide_False by done. done. }
  assert (∃ ans nl, key_cache_answer args s = Some (ans, nl) ∧ ans ≠ Some Slice_Successful ∧ (nl = true → pa_prefetch_size args = 0)) as (ans & nl & -> & Hans & Hnl).
  { unfold key_cache_answer, IsValidInKeyCache, IsLoadingKeyCache. destruct (pa_check_key_cache args); [|by eexists _, _]. destruct (Hcache eq_refl) as [-> Hlen]. rewrite decide_True by done.
    destruct (lookup_lt_is_Some_2 (cache_validity_ s) (pa_shard_id args)) as [v Hv]; [apply Hlen; by eapply list_elem_of_lookup_2|]. rewrite Hv. cbn [mbind option_bind].
    destruct (Z.testbit v 0); [destruct (ContainsKey _ _)|destruct (Z.testbit v 1)]; eexists _, _; (split; [done|split; [done|]]); done. }
  cbn [mbind option_bind]. destruct ans as [st|]; [eexists; split; [done|]; split; [cbn; congruence|]; apply Hsame; congruence|].
  destruct nl. { rewrite decide_True by auto. eexists. split; [done|]. split; [done|by apply Hsame]. }
  destruct (LoadSlice_ok env 0 s (pa_cc_request args) (load_controller env (pa_force_load args))) as (st & s' & d & out & c' & -> & Hk & Hw & _); [by destruct (pa_force_load args)|].
  cbn [mbind option_bind]. pose proof (lookup_lt_Some _ _ _ Hs) as Hlt.
  destruct (maybe_prefetch_ok true args env idx 0 (<[idx:=s']> (slices_ (pr_range r))) Hnext) as (ss' & d' & sent' & -> & Hkk & Ht); [by rewrite length_insert|lia|].
  cbn [mbind option_bind]. eexists. split; [done|]. split; [by destruct st|]. split; cbn [pin_range pin_slice pin_status last_pinned_slice].
  - done.
  - cbn [with_slices pr_pins_ pr_range slices_ set_slices]. rewrite Ht, (total_insert _ _ s) by done. f_equal. lia.
  - exists idx, s. split_and!; [done..|]. rewrite decide_False by (by destruct st). split; [|done]. cbn. etrans; [|exact Hkk].
    rewrite <- (list_insert_id (slices_ (pr_range r)) idx s) at 1 by done. apply Forall2_insert; [reflexivity|done].
Qed.

(** [PinSlices] always returns, and pins a run of slices that are in memory. *)
Lemma PinSlices_ok r end_key args env : range_ok (pr_range r) end_key → prefetch_next_ok next_prefetch_slice → args_ok r args → few (slices_ (pr_range r)) → (0 ≤ pr_pins_ r < 2 ^ 32)%Z →
  ∃ res, PinSlices r args env = Some res ∧ pin_outcome r args res.
Proof.
  intros Hok Hnext Ha Hf Hp. unfold PinSlices. destruct (SearchSlice_ok (pr_range r) end_key (pa_search_key args) (pa_forward_pin args || pa_inclusive args) Hok) as (l1 & l2 & El & Hse & _).
  destruct (slice_exists _ _ _ _ Hok El) as (s & Hs & _). rewrite Hse. cbn [mbind option_bind]. rewrite Hs. cbn [mbind option_bind].
  assert (pr_pins_ r = u32 (pr_pins_ r)) as Hu by (symmetry; by apply u32_small).
  destruct (to_alter_ s) eqn:Et.
  { eexists. split; [done|]. split; cbn [pin_range pin_slice pin_status last_pinned_slice]; [done|by rewrite Z.sub_diag, Z.add_0_r|]. exists (length l1), s. split_and!; [done..|]. by rewrite decide_False. }
  destruct (decide (sl_status_ s = FullyCached)) as [Hst|Hst].
  - destruct (pin_cached_ok r args env (length l1) s) as (res & E & _ & H); [done..|unfold pinnable; by rewrite Et, bool_decide_eq_true_2|]. by exists res.
  - destruct (pin_missing_ok r args env (length l1) s) as (res & E & _ & H); [done..|]. by exists res.
Qed.

(** ** Releasing gives back what was taken *)

Definition unpin s : StoreSlice K := (UnpinSlice s).2.1.

Lemma unpin_eq s : (0 < sl_pins_ s)%Z → UnpinSlice s = (bool_decide (sl_pins_ s = 1%Z) && to_alter_ s, (set_pins s (sl_pins_ s - 1), (-1)%Z)).
Proof. intros. unfold UnpinSlice. rewrite decide_True by done. cbn. f_equal. f_equal. apply bool_decide_ext. lia. Qed.

Lemma unpin_weight s : weight (unpin s) = (weight s + (UnpinSlice s).2.2)%Z.
Proof. unfold unpin, UnpinSlice, weight. destruct (decide _); cbn; lia. Qed.

Lemma total_unpin run : (∀ s, s ∈ run → 0 < sl_pins_ s)%Z → total (unpin <$> run) = (total run - Z.of_nat (length run))%Z.
Proof.
  induction run as [|s run IH]; intros Hp; [done|]. rewrite fmap_cons, !total_cons, unpin_weight, unpin_eq by (apply Hp; by left). rewrite IH by (intros; apply Hp; by right). cbn. lia.
Qed.

Lemma unpin_run_forward run : ∀ e a b fuel d wake, length run ≤ fuel → last run = Some e → NoDup (sl_start_key_ <$> run) → (∀ s, s ∈ run → 0 < sl_pins_ s)%Z →
  ∃ wake', unpin_run fuel (a ++ run ++ b) (length a) (sl_start_key_ e) true d wake = Some (a ++ (unpin <$> run) ++ b, (d - Z.of_nat (length run))%Z, wake').
Proof.
  induction run as [|s run IH]; intros e a b fuel d wake Hf He Hnd Hp; [done|]. destruct fuel as [|fuel]; [cbn in Hf; lia|]. cbn [unpin_run app]. rewrite list_lookup_middle by done. cbn [mbind option_bind].
  assert (unpin s = set_pins s (sl_pins_ s - 1)) as Eu by (unfold unpin; by rewrite unpin_eq by (apply Hp; by left)).
  rewrite unpin_eq by (apply Hp; by left). rewrite insert_app_r_alt, Nat.sub_diag by lia. cbn [insert list_insert]. rewrite fmap_cons in Hnd. apply NoDup_cons in Hnd as [Hn Hnd].
  destruct run as [|s2 run]; [injection He as <-; rewrite decide_True by done; eexists; cbn; by rewrite Eu|].
  rewrite decide_False.
  2:{ intros E. apply Hn. rewrite E. apply list_elem_of_fmap. exists e. split; [done|]. rewrite last_cons_cons in He. by apply last_Some_elem_of. }
  rewrite last_cons_cons in He. destruct (IH e (a ++ [set_pins s (sl_pins_ s - 1)]) b fuel (d + -1)%Z (wake || (bool_decide (sl_pins_ s = 1%Z) && to_alter_ s))) as [wake' E]; [cbn in Hf |- *; lia|done|done|intros; apply Hp; by right|].
  rewrite <- app_assoc, length_app, Nat.add_1_r in E. cbn [app] in E |- *. exists wake'. rewrite E, (fmap_cons unpin s), Eu, <- app_assoc. replace (d + -1 - Z.of_nat (length (s2 :: run)))%Z with (d - Z.of_nat (length (s :: s2 :: run)))%Z by (cbn; lia). done.
Qed.

Lemma unpin_run_backward run : ∀ e a b fuel d wake, length run ≤ fuel → head run = Some e → NoDup (sl_start_key_ <$> run) → (∀ s, s ∈ run → 0 < sl_pins_ s)%Z →
  ∃ wake', unpin_run fuel (a ++ run ++ b) (length a + (length run - 1)) (sl_start_key_ e) false d wake = Some (a ++ (unpin <$> run) ++ b, (d - Z.of_nat (length run))%Z, wake').
Proof.
  induction run as [|s run IH] using rev_ind; intros e a b fuel d wake Hf He Hnd Hp; [done|]. rewrite length_app in *. cbn [length] in *. destruct fuel as [|fuel]; [lia|]. cbn [unpin_run].
  assert (unpin s = set_pins s (sl_pins_ s - 1)) as Eu by (unfold unpin; by rewrite unpin_eq by (apply Hp; set_solver)).
  replace (length a + (length run + 1 - 1)) with (length (a ++ run)) by (rewrite length_app; lia). rewrite <- app_assoc. cbn [app]. rewrite (app_assoc a). rewrite list_lookup_middle by done. cbn [mbind option_bind].
  rewrite unpin_eq by (apply Hp; set_solver). rewrite insert_app_r_alt, Nat.sub_diag by lia. cbn [insert list_insert]. rewrite fmap_app in Hnd. apply NoDup_app in Hnd as (Hnd & Hn & _).
  destruct (decide (run = [])) as [->|Hne]; [injection He as <-; rewrite decide_True by done; eexists; cbn; by rewrite Eu, app_nil_r|].
  assert (head run = Some e) as He' by (by destruct run). rewrite decide_False.
  2:{ intros E. apply (Hn (sl_start_key_ e)); [|rewrite <- E; by left]. apply list_elem_of_fmap. exists e. split; [done|]. by apply head_Some_elem_of. }
  assert (0 < length run) by (destruct run; [done|cbn; lia]). rewrite decide_False by (rewrite length_app; lia).
  destruct (IH e a (set_pins s (sl_pins_ s - 1) :: b) fuel (d + -1)%Z (wake || (bool_decide (sl_pins_ s = 1%Z) && to_alter_ s))) as [wake' E]; [lia|done|done|intros; apply Hp; set_solver|].
  rewrite length_app. replace (length a + length run - 1) with (length a + (length run - 1)) by lia. rewrite <- app_assoc. exists wake'. rewrite E, fmap_app, <- app_assoc.
  replace (d + -1 - Z.of_nat (length run))%Z with (d - Z.of_nat (length run + 1))%Z by lia. cbn. by rewrite Eu.
Qed.

Lemma start_keys_NoDup rg end_key : range_ok rg end_key → NoDup (sl_start_key_ <$> slices_ rg).
Proof.
  intros Hok. apply NoDup_alt. intros i j k Hi Hj. rewrite list_lookup_fmap in Hi, Hj. destruct (slices_ rg !! i) as [s|] eqn:Es; [|done]. destruct (slices_ rg !! j) as [s'|] eqn:Es'; [|done].
  injection Hi as Hi. injection Hj as Hj. pose proof (SearchSlice_start rg end_key i s Hok Es) as E. pose proof (SearchSlice_start rg end_key j s' Hok Es') as E'. rewrite Hi in E. rewrite Hj in E'. rewrite E in E'. by injection E'.
Qed.

(** A run of pinned slices is released, whatever has happened to the other slices. *)
Lemma BatchUnpinSlices_ok r end_key a run b (fwd : bool) first last' : range_ok (pr_range r) end_key → slices_ (pr_range r) = a ++ run ++ b → (∀ s, s ∈ run → 0 < sl_pins_ s)%Z →
  (if fwd then head run else last run) = Some first → (if fwd then last run else head run) = Some last' →
  ∃ wake, BatchUnpinSlices r (sl_start_key_ first) (sl_start_key_ last') fwd = Some (with_slices r (a ++ (unpin <$> run) ++ b) (- Z.of_nat (length run)), wake).
Proof.
  intros Hok Ess Hp Hfirst Hlast. unfold BatchUnpinSlices. pose proof (start_keys_NoDup _ _ Hok) as Hnd. rewrite Ess, !fmap_app in Hnd. apply NoDup_app in Hnd as (_ & _ & (Hnd & _)%NoDup_app).
  assert (slices_ (pr_range r) !! (if fwd then length a else length a + (length run - 1)) = Some first) as Hf.
  { rewrite Ess, lookup_app_r by (destruct fwd; lia). destruct fwd; [rewrite head_lookup in Hfirst|rewrite last_lookup in Hfirst]; rewrite lookup_app_l.
    - by rewrite Nat.sub_diag.
    - rewrite Nat.sub_diag. by apply lookup_lt_Some in Hfirst.
    - rewrite <- Hfirst. f_equal. lia.
    - apply lookup_lt_Some in Hfirst. lia. }
  rewrite (SearchSlice_slice _ _ _ _ Hok Hf). cbn [mbind option_bind]. rewrite Ess.
  destruct fwd.
  - destruct (unpin_run_forward run last' a b (length (a ++ run ++ b)) 0 false) as [wake ->]; [rewrite !length_app; lia|done..|]. by exists wake.
  - destruct (unpin_run_backward run last' a b (length (a ++ run ++ b)) 0 false) as [wake ->]; [rewrite !length_app; lia|done..|]. by exists wake.
Qed.

Lemma kept_span s s' : kept s s' → span s' = span s ∧ sl_pins_ s' = sl_pins_ s ∧ sl_start_key_ s' = sl_start_key_ s.
Proof. by intros (f & q & ->). Qed.
Lemma Forall2_fmap_eq {B} (f : StoreSlice K → B) (R : StoreSlice K → StoreSlice K → Prop) ss ss' : (∀ s s', R s s' → f s' = f s) → Forall2 R ss ss' → f <$> ss' = f <$> ss.
Proof. intros Hf. induction 1; [done|]. rewrite !fmap_cons. f_equal; [by apply Hf|done]. Qed.
Lemma kept_fmap {B} (f : StoreSlice K → B) ss ss' : (∀ s s', kept s s' → f s' = f s) → Forall2 kept ss ss' → f <$> ss' = f <$> ss.
Proof. apply Forall2_fmap_eq. Qed.
Lemma range_ok_eq rg rg' end_key : range_ok rg end_key → boundary_keys_ rg' = boundary_keys_ rg → range_start_key_ rg' = range_start_key_ rg → span <$> slices_ rg' = span <$> slices_ rg → range_ok rg' end_key.
Proof. intros [H1 H2 H3] E1 E2 E3. split; rewrite ?E1, ?E2, ?E3; done. Qed.

Lemma pinned_run_span args ss ss' idx a run b : pinned_run args ss ss' idx a run b → span <$> ss' = span <$> ss.
Proof. intros [[-> ->] _ _ _ _]. rewrite !fmap_app, <- list_fmap_compose. f_equal. Qed.

Lemma pin_outcome_range r end_key args res : range_ok (pr_range r) end_key → pin_outcome r args res → range_ok (pr_range (pin_range res)) end_key.
Proof.
  intros Hok [(B1 & B2 & _) _ (idx & s & _ & _ & _ & Hcase)]. eapply range_ok_eq; [exact Hok|done..|].
  destruct (decide _) as [_|_]; [destruct Hcase as (ss & a & run & b & Hrun & Hk & _)|destruct Hcase as [Hk _]].
  - etrans; [eapply kept_fmap; [|exact Hk]; intros; by apply kept_span|by eapply pinned_run_span].
  - eapply kept_fmap; [|exact Hk]. intros. by apply kept_span.
Qed.

Lemma few_pin_pos run : few run → ∀ s, s ∈ pin <$> run → (0 < sl_pins_ s)%Z.
Proof. intros Hf s (x & -> & Hx)%list_elem_of_fmap. specialize (Hf x Hx). cbn. unfold u16. rewrite Z.mod_small; lia. Qed.

Lemma unpin_pins_kept run run' : few run → Forall2 kept (pin <$> run) run' → sl_pins_ <$> (unpin <$> run') = sl_pins_ <$> run.
Proof.
  intros Hf Hk. rewrite <- list_fmap_compose. revert run' Hk. induction run as [|s run IH]; intros run' Hk; [by apply Forall2_nil_inv_l in Hk as ->|].
  rewrite fmap_cons in Hk. apply Forall2_cons_inv_l in Hk as (s' & run2 & (f & q & ->) & Hk & ->). rewrite !fmap_cons. f_equal; [|apply IH; [|done]; intros x Hx; apply Hf; by right].
  specialize (Hf s (list_elem_of_here _ _)). unfold compose, unpin, UnpinSlice. cbn. unfold u16. rewrite Z.mod_small by lia. rewrite decide_True by lia. cbn. lia.
Qed.

Lemma ends_fmap {A B} (f : A → B) (l l' : list A) : f <$> l' = f <$> l → f <$> head l' = f <$> head l ∧ f <$> last l' = f <$> last l.
Proof.
  intros E. assert (length l' = length l) as Hl by (apply (f_equal length) in E; by rewrite !length_fmap in E).
  rewrite !head_lookup, !last_lookup, <- !list_lookup_fmap, E, Hl. done.
Qed.
Lemma run_first args ss ss' idx a run b s : pinned_run args ss ss' idx a run b → ss !! idx = Some s → (if pa_forward_pin args then head run else last run) = Some s.
Proof.
  intros [[-> _] Hl -> _ _] Hs. rewrite lookup_app_r in Hs by (destruct (pa_forward_pin args); lia). rewrite lookup_app_l in Hs by (destruct (pa_forward_pin args); lia).
  rewrite head_lookup, last_lookup. destruct (pa_forward_pin args); rewrite <- Hs; f_equal; lia.
Qed.

(** C11: A request that has pinned its slices and releases them with [BatchUnpinSlices] leaves every slice
    pinned as often as before, and the counter of the range counts the loads that it has started
    and nothing else. *)
Theorem pins_taken_released r end_key args env : range_ok (pr_range r) end_key → prefetch_next_ok next_prefetch_slice → args_ok r args → few (slices_ (pr_range r)) → (0 ≤ pr_pins_ r < 2 ^ 32)%Z →
  ∃ res, PinSlices r args env = Some res ∧ (pin_status res = Slice_Successful → ∃ last r' wake, last_pinned_slice res = Some last ∧
    BatchUnpinSlices (pin_range res) (pin_slice res) last (pa_forward_pin args) = Some (r', wake) ∧ sl_pins_ <$> slices_ (pr_range r') = sl_pins_ <$> slices_ (pr_range r) ∧
    pr_pins_ r' = u32 (pr_pins_ r + (total (slices_ (pr_range r')) - total (slices_ (pr_range r))))).
Proof.
  intros Hok Hnext Ha Hf Hp. destruct (PinSlices_ok r end_key args env Hok Hnext Ha Hf Hp) as (res & E & Hout). exists res. split; [done|]. intros Hst.
  pose proof (pin_outcome_range _ _ _ _ Hok Hout) as Hok2. destruct Hout as [_ Hcnt (idx & s & _ & Hs & Hsl & Hcase)]. rewrite decide_True in Hcase by done.
  destruct Hcase as (ss & a & run & b & Hrun & Hk & Hlast). pose proof (run_first _ _ _ _ _ _ _ _ Hrun Hs) as Hfirst. destruct Hrun as [[Ess Ess'] Hl Hpos _ _]. rewrite Ess' in Hk.
  apply Forall2_app_inv_l in Hk as (a' & rb' & Hka & (run' & b' & Hkr & Hkb & ->)%Forall2_app_inv_l & Ess2).
  assert (few run) as Hfr by (intros x Hx; apply Hf; rewrite Ess; set_solver).
  assert (∀ x, x ∈ run' → 0 < sl_pins_ x)%Z as Hpr.
  { intros x Hx. apply list_elem_of_lookup in Hx as [j Hj]. destruct (Forall2_lookup_r _ _ _ _ _ Hkr Hj) as (y & Hy & Hyx). destruct (kept_span _ _ Hyx) as (_ & -> & _). apply (few_pin_pos run Hfr). by eapply list_elem_of_lookup_2. }
  assert (length run' = length run) as Hlr by (rewrite <- (length_fmap pin run); symmetry; by eapply Forall2_length).
  assert (sl_start_key_ <$> run' = sl_start_key_ <$> run) as Hst'.
  { etrans; [eapply kept_fmap; [|exact Hkr]; intros; by apply kept_span|]. by rewrite <- list_fmap_compose. }
  destruct (ends_fmap sl_start_key_ _ _ Hst') as [Hh Hla]. set (fwd := pa_forward_pin args) in *.
  assert (∃ f', (if fwd then head run' else last run') = Some f' ∧ sl_start_key_ f' = pin_slice res) as (f' & Hf' & Hfs).
  { rewrite Hsl. destruct fwd; [rewrite Hfirst in Hh; destruct (head run') as [f'|]|rewrite Hfirst in Hla; destruct (last run') as [f'|]]; try done; exists f'; (split; [done|cbn in Hh, Hla; congruence]). }
  assert (∃ l', (if fwd then last run' else head run') = Some l' ∧ last_pinned_slice res = Some (sl_start_key_ l')) as (l' & Hl' & Hls).
  { rewrite Hlast. unfold run_last. fold fwd. destruct run' as [|x run'']; [cbn in Hlr; lia|].
    destruct fwd; [rewrite <- Hla|rewrite <- Hh]; [|by exists x]. destruct (last (x :: run'')) as [l'|] eqn:El; [by exists l'|]. by apply last_None in El. }
  destruct (BatchUnpinSlices_ok (pin_range res) end_key a' run' b' fwd f' l' Hok2 Ess2 Hpr Hf' Hl') as [wake Eb]. rewrite Hfs in Eb. eexists _, _, wake. split; [done|]. split; [exact Eb|].
  cbn [with_slices pr_range pr_pins_ slices_ set_slices]. split.
  - rewrite Ess, !fmap_app. f_equal; [eapply kept_fmap; [|exact Hka]; intros; by apply kept_span|]. f_equal; [by apply unpin_pins_kept|]. eapply kept_fmap; [|exact Hkb]. intros. by apply kept_span.
  - rewrite Hcnt, Ess2. unfold u32. rewrite Z.add_mod_idemp_l by done. f_equal. rewrite !total_app, (total_unpin run' Hpr). lia.
Qed.

(** ** Accounting

    Every operation keeps the bounds of the slices and changes the counter of the range by what it
    adds to the pins and the loads of the slices. *)

Record accounted r r' : Prop := {
  ac_bounds : boundary_keys_ (pr_range r') = boundary_keys_ (pr_range r) ∧ range_start_key_ (pr_range r') = range_start_key_ (pr_range r) ∧
    range_end_key_ (pr_range r') = range_end_key_ (pr_range r);
  ac_spans : span <$> slices_ (pr_range r') = span <$> slices_ (pr_range r);
  ac_count : pr_pins_ r' = u32 (pr_pins_ r + (total (slices_ (pr_range r')) - total (slices_ (pr_range r))));
  ac_pins : (∀ s, s ∈ slices_ (pr_range r) → (0 ≤ sl_pins_ s)%Z) → ∀ s, s ∈ slices_ (pr_range r') → (0 ≤ sl_pins_ s)%Z;
}.

Lemma with_slices_accounted r ss d : span <$> ss = span <$> slices_ (pr_range r) → total ss = (total (slices_ (pr_range r)) + d)%Z →
  ((∀ s, s ∈ slices_ (pr_range r) → (0 ≤ sl_pins_ s)%Z) → ∀ s, s ∈ ss → (0 ≤ sl_pins_ s)%Z) → accounted r (with_slices r ss d).
Proof. intros H1 H2 H3. split; [done|done| |done]. cbn [with_slices pr_range pr_pins_ slices_ set_slices]. rewrite H2. f_equal. lia. Qed.

Lemma Forall2_kept_pins ss ss' : Forall2 kept ss ss' → (∀ s, s ∈ ss → (0 ≤ sl_pins_ s)%Z) → ∀ s, s ∈ ss' → (0 ≤ sl_pins_ s)%Z.
Proof.
  intros Hk Hp s [j Hj]%list_elem_of_lookup. destruct (Forall2_lookup_r _ _ _ _ _ Hk Hj) as (x & Hx & Hxs). destruct (kept_span _ _ Hxs) as (_ & -> & _). apply Hp. by eapply list_elem_of_lookup_2.
Qed.

Lemma pin_outcome_accounted r args res : pin_outcome r args res → accounted r (pin_range res).
Proof.
  intros [HB HC (idx & s & _ & _ & _ & Hcase)]. split; [done| |done|].
  - destruct (decide _) as [_|_]; [destruct Hcase as (ss & a & run & b & Hrun & Hk & _)|destruct Hcase as [Hk _]].
    + etrans; [eapply kept_fmap; [|exact Hk]; intros; by apply kept_span|by eapply pinned_run_span].
    + eapply kept_fmap; [|exact Hk]. intros. by apply kept_span.
  - intros Hp. destruct (decide _) as [_|_]; [destruct Hcase as (ss & a & run & b & [[Ess ->] _ _ _ _] & Hk & _)|destruct Hcase as [Hk _]; by eapply Forall2_kept_pins].
    eapply Forall2_kept_pins; [exact Hk|]. rewrite Ess in Hp. intros x [Hx|[(z & -> & Hz)%list_elem_of_fmap|Hx]%elem_of_app]%elem_of_app; [apply Hp; set_solver| |apply Hp; set_solver].
    cbn. unfold u16. apply Z.mod_pos_bound. lia.
Qed.

Lemma insert_accounted r i s s' d : slices_ (pr_range r) !! i = Some s → span s' = span s → weight s' = (weight s + d)%Z → ((0 ≤ sl_pins_ s)%Z → (0 ≤ sl_pins_ s')%Z) →
  accounted r (with_slices r (<[i := s']> (slices_ (pr_range r))) d).
Proof.
  intros Hs Hsp Hw Hp. apply with_slices_accounted.
  - rewrite list_fmap_insert, Hsp. apply list_insert_id. by rewrite list_lookup_fmap, Hs.
  - rewrite (total_insert _ _ s) by done. lia.
  - intros Hall x [j Hj]%list_elem_of_lookup. apply list_lookup_insert_Some in Hj as [(-> & <- & _)|[_ Hj]]; [apply Hp, Hall|apply Hall]; by eapply list_elem_of_lookup_2.
Qed.

Lemma unpin_ok s : span (unpin s) = span s ∧ ((0 ≤ sl_pins_ s)%Z → (0 ≤ sl_pins_ (unpin s))%Z).
Proof. unfold unpin, UnpinSlice. destruct (decide _); cbn; split; [done|lia|done|lia]. Qed.

Lemma unpin_run_accounted fuel : ∀ ss idx e fwd d wake ss' d' wake', unpin_run fuel ss idx e fwd d wake = Some (ss', d', wake') →
  span <$> ss' = span <$> ss ∧ (total ss' = total ss + (d' - d))%Z ∧ ((∀ s, s ∈ ss → (0 ≤ sl_pins_ s)%Z) → ∀ s, s ∈ ss' → (0 ≤ sl_pins_ s)%Z).
Proof.
  induction fuel as [|fuel IH]; intros ss idx e fwd d wake ss' d' wake' E; [done|]. cbn [unpin_run] in E. destruct (ss !! idx) as [s|] eqn:Es; [|done]. cbn [mbind option_bind] in E.
  destruct (UnpinSlice s) as [w [s' dd]] eqn:Eu. assert (s' = unpin s) as -> by (unfold unpin; by rewrite Eu). pose proof (unpin_weight s) as Hw. rewrite Eu in Hw. cbn in Hw. destruct (unpin_ok s) as [Hsp Hp].
  assert (span <$> <[idx:=unpin s]> ss = span <$> ss) as H1 by (rewrite list_fmap_insert, Hsp; apply list_insert_id; by rewrite list_lookup_fmap, Es).
  assert (total (<[idx:=unpin s]> ss) = total ss + dd)%Z as H2 by (rewrite (total_insert _ _ s) by done; lia).
  assert ((∀ s, s ∈ ss → (0 ≤ sl_pins_ s)%Z) → ∀ x, x ∈ <[idx:=unpin s]> ss → (0 ≤ sl_pins_ x)%Z) as H3.
  { intros Hall x [j Hj]%list_elem_of_lookup. apply list_lookup_insert_Some in Hj as [(-> & <- & _)|[_ Hj]]; [apply Hp, Hall|apply Hall]; by eapply list_elem_of_lookup_2. }
  destruct (decide _); [injection E as <- <- <-; split_and!; [done|lia|done]|]. destruct fwd; [|destruct (decide (idx = 0)); [done|]].
  all: destruct (IH _ _ _ _ _ _ _ _ _ E) as (I1 & I2 & I3); split_and!; [by rewrite I1|lia|auto].
Qed.
Lemma BatchUnpin_accounted r start_slice end_slice fwd r' wake : BatchUnpinSlices r start_slice end_slice fwd = Some (r', wake) → accounted r r'.
Proof.
  unfold BatchUnpinSlices. intros E. destruct (SearchSlice _ _ _) as [idx|]; [|done]. cbn [mbind option_bind] in E. destruct (unpin_run _ _ _ _ _ _ _) as [[[ss d] w]|] eqn:Eu; [|done]. injection E as <- <-.
  apply unpin_run_accounted in Eu as (H1 & H2 & H3). apply with_slices_accounted; [done|lia|done].
Qed.

Lemma PinSlice_accounted r slice w force n env st r' sent : few (slices_ (pr_range r)) → PinSlice r slice w force n env = Some (st, r', sent) → accounted r r'.
Proof.
  unfold PinSlice. intros Hf E. destruct (SearchSlice _ _ _) as [idx|]; [|done]. cbn [mbind option_bind] in E. destruct (slices_ (pr_range r) !! idx) as [s|] eqn:Es; [|done]. cbn [mbind option_bind] in E.
  assert (0 ≤ sl_pins_ s < 2 ^ 16 - 1)%Z as Hs by (apply Hf; by eapply list_elem_of_lookup_2).
  destruct (to_alter_ s); [done|]. destruct (decide _).
  { injection E as <- <- <-. apply (insert_accounted r idx s); [done|done|by apply weight_pin|]. intros _. cbn. unfold u16. apply Z.mod_pos_bound. lia. }
  destruct (LoadSlice_ok env 0 s w (load_controller env force)) as (st' & s' & d & out & c' & El & Hk & Hw & _); [by destruct force|]. rewrite El in E. cbn [mbind option_bind] in E. destruct (decide _); [done|].
  destruct (prefetch_ok (λ i _, (i + 1)%Z) (mkPinArgs slice true None false w force n 1 true false 0 false false) env) with (k := n) (c := NonForceLoadController true (pe_core_id env) (Z.of_nat (pe_cores env))) (n := 1) (sid := (Z.of_nat idx + 1)%Z)
    (ss := <[idx:=s']> (slices_ (pr_range r))) (d := 0%Z) (sent := @nil (PinOutput K)) as (ss' & d' & sent' & Ep & Hkk & Ht).
  { done. }
  { intros _. split; [done|by eexists]. }
  { done. }
  rewrite Ep in E. cbn [mbind option_bind] in E. injection E as <- <- <-. apply with_slices_accounted.
  - etrans; [eapply kept_fmap; [|exact Hkk]; intros; by apply kept_span|]. destruct (kept_span _ _ Hk) as (Hsp & _). rewrite list_fmap_insert, Hsp. apply list_insert_id. by rewrite list_lookup_fmap, Es.
  - rewrite Ht, (total_insert _ _ s) by done. lia.
  - intros Hall. eapply Forall2_kept_pins; [exact Hkk|]. destruct (kept_span _ _ Hk) as (_ & Hp & _).
    intros x [j Hj]%list_elem_of_lookup. apply list_lookup_insert_Some in Hj as [(-> & <- & _)|[_ Hj]]; [rewrite Hp; lia|apply Hall; by eapply list_elem_of_lookup_2].
Qed.
End pins.
