(* ===== verification/RangeEntry.v ===== *)
(** * Table range entries ([include/range_record.h])

    The entry of a range in the table of ranges holds the bounds and versions of the range, the
    ranges that an unfinished split will create, and the slices of the range while they are in
    memory.  The slices may be dropped when nobody uses them, which the entry reads off the pin
    counter of the range.  The theorems say that the counter is exact, so that slices in use are
    never dropped, and that the slices of an entry partition its range. *)

From stdpp Require Import sorting gmap.
From S2P Require Import Prelude CcProtocol CcEntry LruList CcPages PagesRep RandomPairing StoreSlice StoreRange SlicePins.

(** ** Range info *)

Record RangeInfo (K : Type) := mkRangeInfo {
  ri_start_key_ : SearchKey K;
  ri_end_key_ : option (SearchKey K);
  partition_id_ : Z;
  is_dirty_ : bool;
  version_ts_ : Z;
  new_partition_id_ : list Z;
  new_key_ : list K;
  dirty_ts_ : Z;
}.
Arguments mkRangeInfo {_}.
Arguments ri_start_key_ {_}.
Arguments ri_end_key_ {_}.
Arguments partition_id_ {_}.
Arguments is_dirty_ {_}.
Arguments version_ts_ {_}.
Arguments new_partition_id_ {_}.
Arguments new_key_ {_}.
Arguments dirty_ts_ {_}.

Section info.
Context {K : Type} `{!KeyOrder K}.
Implicit Types (i : RangeInfo K).

Definition RangeInfo_new (start_key : SearchKey K) (version_ts partition_id : Z) (end_key : option (SearchKey K)) (is_dirty : bool) : RangeInfo K :=
  mkRangeInfo start_key end_key partition_id is_dirty version_ts [] [] 0.

Definition set_new i (keys : list K) (ids : list Z) (dirty_ts : Z) (dirty : bool) (version_ts : Z) : RangeInfo K :=
  mkRangeInfo (ri_start_key_ i) (ri_end_key_ i) (partition_id_ i) dirty version_ts ids keys dirty_ts.
Definition SetDirty i (keys : list K) (ids : list Z) (dirty_ts : Z) : option (RangeInfo K) :=
  if decide (version_ts_ i ≤ dirty_ts ∧ dirty_ts_ i ≤ dirty_ts)%Z then
    if decide (length keys = length ids) then Some (set_new i keys ids dirty_ts true (version_ts_ i)) else None
  else Some i.
Definition CommitDirty i : RangeInfo K :=
  if decide (version_ts_ i ≤ dirty_ts_ i)%Z then set_new i (new_key_ i) (new_partition_id_ i) (dirty_ts_ i) false (dirty_ts_ i) else i.
Definition ClearDirty i (commit_ts : Z) : RangeInfo K :=
  set_new i [] [] 0 false (if decide (commit_ts ≠ 0 ∧ version_ts_ i < commit_ts)%Z then commit_ts else version_ts_ i).
Definition SetNewRanges i (ranges : list (SearchKey K * Z)) : option (RangeInfo K) :=
  keys ← mapM (normal_key ∘ fst) ranges; Some (set_new i keys ranges.*2 (dirty_ts_ i) (is_dirty_ i) (version_ts_ i)).
Definition info_SetEndKey i (end_key : option (SearchKey K)) : RangeInfo K :=
  mkRangeInfo (ri_start_key_ i) end_key (partition_id_ i) (is_dirty_ i) (version_ts_ i) (new_partition_id_ i) (new_key_ i) (dirty_ts_ i).
Definition DirtyTs i : Z := if is_dirty_ i then dirty_ts_ i else 0.
Definition NewKey i : option (list K) := if is_dirty_ i then Some (new_key_ i) else None.
Definition NewPartitionId i : option (list Z) := if is_dirty_ i then Some (new_partition_id_ i) else None.

Fixpoint new_range_loop (keys : list K) (key : SearchKey K) (idx : nat) : nat :=
  match keys with [] => idx | k :: keys => if search_lt key (Ordinary k) then idx else new_range_loop keys key (S idx) end.
(** The new range that a key will belong to; -1 if it stays. *)
Definition GetKeyNewRangeId i (key : SearchKey K) : option Z :=
  if is_dirty_ i then
    first ← head (new_key_ i);
    if search_lt key (Ordinary first) then Some (-1)%Z
    else new_partition_id_ i !! (new_range_loop (tail (new_key_ i)) key 1 - 1)
  else Some (-1)%Z.
End info.

(** ** The entry *)

(** [dirty_range_slices_]: the slices of the ranges that a split creates. *)
Record DirtySlices (K : Type) := mkDirty { accept_data : bool; has_dml_since_ddl : bool; new_slices : gmap Z (list (SliceInitInfo K)) }.
Arguments mkDirty {_}.
Arguments accept_data {_}.
Arguments has_dml_since_ddl {_}.
Arguments new_slices {_}.

Record TableRangeEntry (K : Type) := mkEntry {
  te_range_info_ : RangeInfo K;
  te_last_sync_ts_ : Z;
  te_range_slices_ : option (PinnedRange K);
  te_fetching : bool;
  te_dirty_range_slices_ : option (DirtySlices K);
}.
Arguments mkEntry {_}.
Arguments te_range_info_ {_}.
Arguments te_last_sync_ts_ {_}.
Arguments te_range_slices_ {_}.
Arguments te_fetching {_}.
Arguments te_dirty_range_slices_ {_}.

Section entry.
Context {K : Type} `{!KeyOrder K} (cores : nat).
Implicit Types (e : TableRangeEntry K).

Definition TableRangeEntry_new (start_key : SearchKey K) (version_ts partition_id : Z) (slices : option (PinnedRange K)) : TableRangeEntry K :=
  mkEntry (RangeInfo_new start_key version_ts partition_id None false) 0 slices false None.
Definition with_range e (r : option (PinnedRange K)) : TableRangeEntry K :=
  mkEntry (te_range_info_ e) (te_last_sync_ts_ e) r (te_fetching e) (te_dirty_range_slices_ e).
Definition with_info e (i : RangeInfo K) : TableRangeEntry K :=
  mkEntry i (te_last_sync_ts_ e) (te_range_slices_ e) (te_fetching e) (te_dirty_range_slices_ e).
Definition with_dirty e (d : option (DirtySlices K)) : TableRangeEntry K :=
  mkEntry (te_range_info_ e) (te_last_sync_ts_ e) (te_range_slices_ e) (te_fetching e) d.
Definition add_pins (r : PinnedRange K) (d : Z) : PinnedRange K := mkPinned (pr_range r) (u32 (pr_pins_ r + d)).

Definition PinStoreRange e : bool * TableRangeEntry K :=
  match te_range_slices_ e with Some r => (true, with_range e (Some (add_pins r 1))) | None => (false, e) end.
Definition UnPinStoreRange e : TableRangeEntry K :=
  match te_range_slices_ e with Some r => with_range e (Some (add_pins r (-1))) | None => e end.

Definition UpdateRangeEntry e (version_ts : Z) (slices : option (PinnedRange K)) : TableRangeEntry K :=
  let i := te_range_info_ e in
  with_range (with_info e (set_new i (new_key_ i) (new_partition_id_ i) (dirty_ts_ i) (is_dirty_ i) version_ts)) slices.
Definition entry_SetRangeEndKey e (end_key : SearchKey K) : option (TableRangeEntry K) :=
  let e' := with_info e (info_SetEndKey (te_range_info_ e) (Some end_key)) in
  match te_range_slices_ e with
  | Some r => rg ← SetRangeEndKey (pr_range r) end_key; Some (with_range e' (Some (mkPinned rg (pr_pins_ r))))
  | None => Some e'
  end.
Definition InitRangeSlices e (slices : list (SliceInitInfo K)) (init_key_cache empty_range : bool) : option (TableRangeEntry K) :=
  end_key ← ri_end_key_ (te_range_info_ e);
  let rg := StoreRange_new init_key_cache cores (ri_start_key_ (te_range_info_ e)) end_key empty_range in
  rg' ← (if empty_range then Some rg else InitSlices init_key_cache cores rg slices);
  Some (with_range e (Some (mkPinned rg' 0))).

Definition IsStoreRangeFree e (sync_info : bool) : bool :=
  match te_range_slices_ e with
  | Some r => bool_decide (pr_pins_ r = 0%Z)
  | None => if sync_info then negb (te_fetching e) else true
  end.
Definition DropStoreRange e : option (TableRangeEntry K) :=
  match te_range_slices_ e with
  | Some r => if decide (pr_pins_ r = 0%Z) then Some (with_range e None) else None
  | None => Some e
  end.

Definition UpdateLastDataSyncTS e (ts : Z) : TableRangeEntry K :=
  mkEntry (te_range_info_ e) (if decide (te_last_sync_ts_ e < ts)%Z then ts else te_last_sync_ts_ e) (te_range_slices_ e) (te_fetching e) (te_dirty_range_slices_ e).
Definition UploadNewRangeInfo e (keys : list K) (ids : list Z) (commit_ts : Z) : option (TableRangeEntry K) :=
  if decide (DirtyTs (te_range_info_ e) ≤ commit_ts)%Z then i ← SetDirty (te_range_info_ e) keys ids commit_ts; Some (with_info e i) else None.

(** *** The slices of the new ranges *)

Definition UploadDirtyRangeSlices e (new_partition_id dirty_ts : Z) (dml : bool) (slices : list (SliceInitInfo K)) : bool * TableRangeEntry K :=
  if is_dirty_ (te_range_info_ e) && bool_decide (dirty_ts = DirtyTs (te_range_info_ e)) then
    let d := default (mkDirty true dml ∅) (te_dirty_range_slices_ e) in
    (true, with_dirty e (Some (mkDirty (accept_data d) (has_dml_since_ddl d) (<[new_partition_id := slices]> (new_slices d)))))
  else (false, e).

Definition set_cached (slices : list (SliceInitInfo K)) (idx : nat) : option (list (SliceInitInfo K)) :=
  info ← slices !! idx; Some (<[idx := mkInitInfo (ii_key_ info) (ii_size_ info) FullyCached]> slices).
Fixpoint set_all_cached (slices : list (SliceInitInfo K)) (idxs : list nat) : option (list (SliceInitInfo K)) :=
  match idxs with [] => Some slices | idx :: idxs => slices' ← set_cached slices idx; set_all_cached slices' idxs end.
Definition UpdateDirtyRangeSlice e (new_partition_id : Z) (idxs : list nat) (dirty_version : Z) : option (TableRangeEntry K) :=
  match te_dirty_range_slices_ e with
  | Some d =>
      if is_dirty_ (te_range_info_ e) && bool_decide (DirtyTs (te_range_info_ e) = dirty_version) then
        if accept_data d then
          slices ← new_slices d !! new_partition_id;
          slices' ← set_all_cached slices idxs;
          Some (with_dirty e (Some (mkDirty true (has_dml_since_ddl d) (<[new_partition_id := slices']> (new_slices d)))))
        else Some e
      else Some e
  | None => Some e
  end.
Definition AcceptsDirtyRangeData e (dirty_version : Z) : bool :=
  match te_dirty_range_slices_ e with Some d => bool_decide (DirtyTs (te_range_info_ e) = dirty_version) && accept_data d | None => false end.
Definition SetAcceptsDirtyRangeData e (accept : bool) : TableRangeEntry K :=
  match te_dirty_range_slices_ e with Some d => with_dirty e (Some (mkDirty accept (has_dml_since_ddl d) (new_slices d))) | None => e end.
Definition not_cached (info : SliceInitInfo K) : SliceInitInfo K := mkInitInfo (ii_key_ info) (ii_size_ info) PartiallyCached.
Definition release (d : DirtySlices K) : DirtySlices K :=
  if accept_data d then d else mkDirty false (has_dml_since_ddl d) ((λ slices : list (SliceInitInfo K), not_cached <$> slices) <$> new_slices d).
Definition ReleaseDirtyRangeSlices e : option (DirtySlices K) * TableRangeEntry K := (release <$> te_dirty_range_slices_ e, with_dirty e None).

(** ** The new range of a key *)

Lemma new_range_loop_ok keys key : StronglySorted key_lt keys → ∀ idx, ∃ l1 l2, keys = l1 ++ l2 ∧ (∀ k, k ∈ l1 → key_le (Ordinary k) key) ∧ (∀ k, k ∈ l2 → key_less key (Ordinary k)) ∧
  new_range_loop keys key idx = idx + length l1.
Proof.
  induction keys as [|k keys IH]; intros Hs idx; cbn [new_range_loop].
  { exists [], []. split_and!; [done|by intros k ?%not_elem_of_nil..|cbn; lia]. }
  apply StronglySorted_inv in Hs as [Hs Hk]. rewrite Forall_forall in Hk. destruct (search_lt key (Ordinary k)) eqn:E.
  - exists [], (k :: keys). split_and!; [done|by intros x ?%not_elem_of_nil| |cbn; lia]. intros x [->|Hx]%elem_of_cons; [done|]. eapply search_lt_trans; [exact E|]. by apply search_lt_ordinary, Hk.
  - destruct (IH Hs (S idx)) as (l1 & l2 & -> & H1 & H2 & ->). exists (k :: l1), l2. split_and!; [done| |done|cbn; lia]. intros x [->|Hx]%elem_of_cons; [done|by apply H1].
Qed.

(** While a split is going on, a key belongs to the new range with the greatest start key that is
    not greater than it, and stays in the old range if there is none. *)
Theorem GetKeyNewRangeId_ok (i : RangeInfo K) (key : SearchKey K) : is_dirty_ i = true → new_key_ i ≠ [] → length (new_key_ i) = length (new_partition_id_ i) → StronglySorted key_lt (new_key_ i) →
  ∃ l1 l2, new_key_ i = l1 ++ l2 ∧ (∀ k, k ∈ l1 → key_le (Ordinary k) key) ∧ (∀ k, k ∈ l2 → key_less key (Ordinary k)) ∧
    GetKeyNewRangeId i key = (if decide (l1 = []) then Some (-1)%Z else new_partition_id_ i !! (length l1 - 1)) ∧ is_Some (GetKeyNewRangeId i key).
Proof.
  intros Hd Hne Hl Hs. unfold GetKeyNewRangeId. rewrite Hd. destruct (new_key_ i) as [|k keys] eqn:Ek; [done|]. cbn [head mbind option_bind tail].
  apply StronglySorted_inv in Hs as [Hs Hk]. rewrite Forall_forall in Hk. destruct (search_lt key (Ordinary k)) eqn:E.
  - exists [], (k :: keys). split_and!; [done|by intros x ?%not_elem_of_nil| |done|by eexists]. intros x [->|Hx]%elem_of_cons; [done|]. eapply search_lt_trans; [exact E|]. by apply search_lt_ordinary, Hk.
  - destruct (new_range_loop_ok keys key Hs 1) as (l1 & l2 & -> & H1 & H2 & ->). exists (k :: l1), l2. split_and!; [done| |done|rewrite decide_False by done; f_equal; cbn; lia|].
    + intros x [->|Hx]%elem_of_cons; [done|by apply H1].
    + apply lookup_lt_is_Some_2. cbn in Hl. rewrite length_app in Hl. lia.
Qed.
End entry.

(** ** The life of the slices of an entry *)

Section life.
Context {K : Type} `{!KeyOrder K} (cores : nat).
Context (ContainsKey : SearchKey K → nat → bool) (next_prefetch_slice : Z → bool → Z) (next_ok : prefetch_next_ok next_prefetch_slice).
Implicit Types (e : TableRangeEntry K) (r : PinnedRange K) (s : StoreSlice K).

(** What happens to one slice, with the change of the counter of the range. *)
Inductive slice_event s : StoreSlice K → Z → Prop :=
  | ev_kv_finish f success ts s' d sent : fetch_slice_cc_ s = Some f → SetKvFinish s success ts cores = Some (s', d, sent) → slice_event s s' d
  | ev_fill_finish f done s' d sent : fetch_slice_cc_ s = Some f → fill_SetFinish s f = Some (done, (s', d, sent)) → slice_event s s' d
  | ev_fill_error f err done s' d sent : fetch_slice_cc_ s = Some f → fill_SetError s f err = Some (done, (s', d, sent)) → slice_event s s' d
  | ev_load_task f kv st s' d sent : fetch_slice_cc_ s = Some f → LoadSlice_return s true kv = (st, (s', d, sent)) → slice_event s s' d
  | ev_init_cache s' d sent : (0 ≤ sl_pins_ s < 2 ^ 16 - 1)%Z → InitKeyCache s cores = (s', d, sent) → slice_event s s' d
  | ev_cache_ready core succ wake s' d : init_SetFinish s core succ = Some (wake, (s', d)) → slice_event s s' d
  | ev_unpin wake s' d : UnpinSlice s = (wake, (s', d)) → slice_event s s' d
  | ev_kickout out s' : Kickout s = (out, s') → slice_event s s' 0
  | ev_alter b : slice_event s (set_alter s b) 0
  | ev_post_size size : slice_event s (SetPostCkptSize s size) 0
  | ev_loading_cache core b s' : SetLoadingKeyCache s core b = Some s' → slice_event s s' 0
  | ev_cache_valid core b s' : SetKeyCacheValidity s core b = Some s' → slice_event s s' 0.

Record event_ok s s' (d : Z) : Prop := {
  eo_span : span s' = span s;
  eo_weight : weight s' = (weight s + d)%Z;
  eo_pins : (0 ≤ sl_pins_ s)%Z → (0 ≤ sl_pins_ s')%Z;
}.

Lemma loading_end s f s' : fetch_slice_cc_ s = Some f → span s' = span s → sl_pins_ s' = sl_pins_ s → fetch_slice_cc_ s' = None → event_ok s s' (-1).
Proof. intros Hf Hsp Hp Hn. split; [done| |lia]. unfold weight. rewrite Hp, Hn, Hf. lia. Qed.
Lemma loading_goes_on s f f' s' : fetch_slice_cc_ s = Some f → span s' = span s → sl_pins_ s' = sl_pins_ s → fetch_slice_cc_ s' = Some f' → event_ok s s' 0.
Proof. intros Hf Hsp Hp Hn. split; [done| |lia]. unfold weight. rewrite Hp, Hn, Hf. lia. Qed.
Lemma quiet_event s s' : span s' = span s → sl_pins_ s' = sl_pins_ s → fetch_slice_cc_ s' = fetch_slice_cc_ s → event_ok s s' 0.
Proof. intros Hsp Hp Hf. split; [done| |lia]. unfold weight. rewrite Hp, Hf. lia. Qed.

Lemma set_cache_bit_ok s core bit b s' : set_cache_bit s core bit b = Some s' → event_ok s s' 0 ∧ init_key_cache_cc_ s' = init_key_cache_cc_ s.
Proof. unfold set_cache_bit. destruct (cache_validity_ s !! core); [|done]. intros [= <-]. split; [by apply quiet_event|done]. Qed.

Lemma unpin_event s wake s' d : UnpinSlice s = (wake, (s', d)) → event_ok s s' d.
Proof.
  intros E. assert (s' = unpin s) as -> by (unfold unpin; by rewrite E). pose proof (unpin_weight s) as Hw. rewrite E in Hw. destruct (unpin_ok s) as [H1 H2]. by split.
Qed.

Lemma event_trans s1 s2 s3 d1 d2 : event_ok s1 s2 d1 → event_ok s2 s3 d2 → event_ok s1 s3 (d1 + d2).
Proof. intros [A1 A2 A3] [B1 B2 B3]. split; [congruence|lia|auto]. Qed.

Lemma slice_event_ok s s' d : slice_event s s' d → event_ok s s' d.
Proof.
  destruct 1 as [f success ts s' d sent Hf E|f done s' d sent Hf E|f err done s' d sent Hf E|f kv st s' d sent Hf E|s' d sent Hp E|core succ wake s' d E|wake s' d E|out s' E|b|size|core b s' E|core b s' E].
  - unfold SetKvFinish, StartLoading, SetLoadingError in E. destruct success, (decide _); try done; injection E as <- <- <-; [by eapply loading_goes_on|by eapply loading_end].
  - unfold fill_SetFinish, CommitLoading, SetLoadingError in E. destruct (decide (finish_cnt_ _ = _)); [destruct (decide (err_code_ f = _)), (decide _)|]; try done; cbn in E; injection E as <- <- <- <-; [by eapply loading_end..|by eapply loading_goes_on].
  - unfold fill_SetError, SetLoadingError in E. destruct (decide (finish_cnt_ _ = _)); [destruct (decide _)|]; try done; cbn in E; injection E as <- <- <- <-; [by eapply loading_end|by eapply loading_goes_on].
  - unfold LoadSlice_return in E. destruct kv; injection E as <- <- <- <-; [by apply quiet_event|by eapply loading_end..].
  - unfold InitKeyCache in E. destruct (decide _); injection E as <- <- <-; [|by apply quiet_event]. split; [done| |].
    + change (weight (set_init (pin s) (Some (Z.of_nat cores)))) with (weight (pin s)). by rewrite weight_pin.
    + intros _. cbn. unfold u16. apply Z.mod_pos_bound. lia.
  - unfold init_SetFinish in E. destruct (init_key_cache_cc_ s) as [n|]; [|done]. cbn [mbind option_bind] in E.
    destruct (if succ then _ else _) as [s1|] eqn:E1; [|done]. cbn [mbind option_bind] in E. assert (event_ok s s1 0) as H1 by (destruct succ; [by eapply set_cache_bit_ok|injection E1 as <-; by apply quiet_event]).
    destruct (SetLoadingKeyCache s1 core false) as [s2|] eqn:E2; [|done]. cbn [mbind option_bind] in E. apply set_cache_bit_ok in E2 as [H2 _].
    assert (event_ok s (set_init s2 (Some (u16 (n - 1)))) 0) as H3 by (apply (event_trans _ s2 _ 0 0); [by apply (event_trans _ s1 _ 0 0)|by apply quiet_event]).
    destruct (decide _); [|by injection E as <- <- <-]. destruct (UnpinSlice _) as [w [s4 d4]] eqn:E4. injection E as <- <- <-. apply unpin_event in E4.
    replace d4 with (0 + d4 + 0)%Z by lia. eapply event_trans; [by eapply event_trans|by apply quiet_event].
  - by eapply unpin_event.
  - unfold Kickout in E. destruct (_ || _); injection E as <- <-; by apply quiet_event.
  - by apply quiet_event.
  - by apply quiet_event.
  - by apply set_cache_bit_ok in E as [? _].
  - by apply set_cache_bit_ok in E as [? _].
Qed.

(** What happens to the slices of a range while they are in memory. *)
Inductive use_step r : PinnedRange K → Prop :=
  | use_pin args env res : args_ok r args → few (slices_ (pr_range r)) → PinSlices ContainsKey next_prefetch_slice r args env = Some res → use_step r (pin_range res)
  | use_pin_one slice w force n env st r' sent : few (slices_ (pr_range r)) → PinSlice r slice w force n env = Some (st, r', sent) → use_step r r'
  | use_unpin start_slice end_slice fwd r' wake : BatchUnpinSlices r start_slice end_slice fwd = Some (r', wake) → use_step r r'
  | use_slice i s s' d : slices_ (pr_range r) !! i = Some s → slice_event s s' d → use_step r (with_slices r (<[i := s']> (slices_ (pr_range r))) d)
  | use_split i s ks rg' : slices_ (pr_range r) !! i = Some s → ks ≠ [] → inside s ks → ChangeAllowed s = true → UpdateSliceSpec cores (pr_range r) s ks = Some rg' → use_step r (mkPinned rg' (pr_pins_ r))
  | use_flush bounds ok updated rg' : UpdateSliceSizeAfterFlush (pr_range r) bounds ok = Some (updated, rg') → use_step r (mkPinned rg' (pr_pins_ r)).

(** The slices are those of the range, and the counter is the number of users: [n] of them have
    pinned the range itself. *)
Record range_inv r (start_key end_key : SearchKey K) (n : Z) : Prop := {
  rv_ok : range_ok (pr_range r) end_key;
  rv_keys : range_start_key_ (pr_range r) = start_key ∧ range_end_key_ (pr_range r) = Some end_key;
  rv_pins s : s ∈ slices_ (pr_range r) → (0 ≤ sl_pins_ s)%Z;
  rv_count : pr_pins_ r = u32 (total (slices_ (pr_range r)) + n);
}.

Lemma u32_idem x y : u32 (u32 x + y) = u32 (x + y).
Proof. unfold u32. apply Z.add_mod_idemp_l. lia. Qed.
Lemma u32_bounds x : (0 ≤ u32 x < 2 ^ 32)%Z.
Proof. apply Z.mod_pos_bound. lia. Qed.

Lemma accounted_inv r r' start_key end_key n : range_inv r start_key end_key n → accounted r r' → range_inv r' start_key end_key n.
Proof.
  intros [H1 [H2 H3] H4 H5] [(A1 & A2 & A3) A4 A5 A6]. split; [by eapply range_ok_eq|split; congruence|by apply A6|]. rewrite A5, H5, u32_idem. f_equal. lia.
Qed.

Lemma slice_split_total rg rg' i s ks : slices_ rg !! i = Some s → slice_split rg rg' i s ks → total (slices_ rg') = total (slices_ rg).
Proof.
  intros Hs [_ _ (s' & subs & -> & _ & _ & (Hp & Hf & _) & _ & Hsubs)]. rewrite <- (take_drop_middle (slices_ rg) i s Hs) at 3. rewrite !total_app, !total_cons, total_app.
  assert (total subs = 0%Z) as ->; [|unfold weight; rewrite Hp, Hf; lia]. clear -Hsubs. induction subs as [|x subs IH]; [done|]. rewrite total_cons, IH by (intros; apply Hsubs; by right).
  destruct (Hsubs x (list_elem_of_here _ _)) as (Hp & _ & Hf & _). unfold weight. by rewrite Hp, Hf.
Qed.

Lemma split_inv r i s ks rg' start_key end_key n : range_inv r start_key end_key n → slices_ (pr_range r) !! i = Some s → ks ≠ [] → inside s ks →
  UpdateSliceSpec cores (pr_range r) s ks = Some rg' → range_inv (mkPinned rg' (pr_pins_ r)) start_key end_key n.
Proof.
  intros [H1 [H2 H3] H4 H5] Hs Hne Hin E. destruct (to_alter_ s) eqn:Ha; [unfold UpdateSliceSpec, alter_slice in E; by rewrite Ha in E|].
  destruct (UpdateSliceSpec_ok cores (pr_range r) end_key i s ks H1 Hs Ha Hne Hin) as (rg2 & E2 & Hok & Hsp). rewrite E in E2. injection E2 as <-.
  pose proof (slice_split_total _ _ _ _ _ Hs Hsp) as Ht. destruct Hsp as [[S1 S2] _ (s' & subs & Ess & _ & _ & (Hp & _) & _ & Hsubs)]. split; cbn; [done|split; congruence| |by rewrite Ht].
  rewrite Ess. intros x [Hx|[->|[Hx|Hx]%elem_of_app]%elem_of_cons]%elem_of_app.
  - apply H4. by apply (subseteq_take i).
  - rewrite Hp. apply H4. by eapply list_elem_of_lookup_2.
  - destruct (Hsubs x Hx) as (-> & _). lia.
  - apply H4. by apply (subseteq_drop (S i)).
Qed.

Lemma flush_inv r bounds ok updated rg' start_key end_key n : range_inv r start_key end_key n → UpdateSliceSizeAfterFlush (pr_range r) bounds ok = Some (updated, rg') →
  range_inv (mkPinned rg' (pr_pins_ r)) start_key end_key n.
Proof.
  intros [H1 [H2 H3] H4 H5] E. unfold UpdateSliceSizeAfterFlush in E. destruct (flushed_slices _ _) as [[i k]|] eqn:Ef; [|done]. cbn [mbind option_bind] in E. injection E as _ <-.
  assert (i ≤ k) as Hik.
  { unfold flushed_slices in Ef. destruct bounds as [[sk ek]|]; [|injection Ef as <- <-; lia]. destruct (SearchSlice _ _ _); [|done]. injection Ef as <- <-. lia. }
  set (ss := slices_ (pr_range r)) in *. set (mid := take (k - i) (drop i ss)) in *. set (up := λ s, (update_after_flush ok s).2).
  assert (ss = take i ss ++ mid ++ drop k ss) as Ess.
  { unfold mid. replace (drop k ss) with (drop (k - i) (drop i ss)) by (rewrite drop_drop; f_equal; lia). by rewrite !take_drop. }
  assert ((update_after_flush ok <$> mid).*2 = up <$> mid) as -> by by rewrite <- list_fmap_compose.
  assert (∀ s, span (up s) = span s ∧ weight (up s) = weight s ∧ sl_pins_ (up s) = sl_pins_ s) as Hup by (intros s; unfold up, update_after_flush, UpdateSize; destruct ok; [by destruct (decide _)|done]).
  assert (∀ {B} (f : StoreSlice K → B), (∀ s, f (up s) = f s) → f <$> take i ss ++ (up <$> mid) ++ drop k ss = f <$> ss) as Hf.
  { intros B f Hf. rewrite Ess at 3. rewrite !fmap_app. f_equal. f_equal. rewrite <- list_fmap_compose. apply list_fmap_ext. intros. apply Hf. }
  split; cbn [set_slices pr_range pr_pins_ slices_ range_start_key_ range_end_key_].
  - apply range_ok_slices; [done|]. apply Hf. apply Hup.
  - done.
  - intros x Hx. assert (sl_pins_ x ∈ sl_pins_ <$> ss) as (y & -> & Hy)%list_elem_of_fmap; [|by apply H4]. rewrite <- (Hf Z sl_pins_) by apply Hup. by apply list_elem_of_fmap_2.
  - rewrite H5. unfold total. rewrite (Hf Z weight) by apply Hup. done.
Qed.

Lemma use_step_inv r r' start_key end_key n : range_inv r start_key end_key n → use_step r r' → range_inv r' start_key end_key n.
Proof.
  intros Hinv Hst. destruct Hst as [args env res Ha Hf E|slice w force k env st r' sent Hf E|start_slice end_slice fwd r' wake E|i s s' d Hs He|i s ks rg' Hs Hne Hin _ E|bounds ok updated rg' E].
  - eapply accounted_inv; [done|]. pose proof Hinv as [Hok _ _ Hc]. destruct (PinSlices_ok ContainsKey next_prefetch_slice r end_key args env) as (res' & E' & Hout); [done..|rewrite Hc; apply u32_bounds|].
    rewrite E in E'. injection E' as <-. by eapply pin_outcome_accounted.
  - eapply accounted_inv; [done|]. by eapply PinSlice_accounted.
  - eapply accounted_inv; [done|]. by eapply BatchUnpin_accounted.
  - eapply accounted_inv; [done|]. apply slice_event_ok in He as [? ? ?]. by apply (insert_accounted r i s).
  - by eapply split_inv.
  - by eapply flush_inv.
Qed.

(** The entry, and how many users have pinned the range itself. *)
Record Life := mkLife { lf_entry : TableRangeEntry K; lf_pins : Z }.

(** All users of the slices. *)
Definition users (l : Life) : Z := match te_range_slices_ (lf_entry l) with Some r => total (slices_ (pr_range r)) + lf_pins l | None => lf_pins l end.

(** The slices that are read from the data store are in order and inside the range. *)
Definition infos_ok e (infos : list (SliceInitInfo K)) : Prop :=
  ∃ info rest ks, infos = info :: rest ∧ ii_key_ <$> rest = Ordinary <$> ks ∧ StronglySorted key_lt ks ∧
    ∀ b end_key, b ∈ ks → ri_end_key_ (te_range_info_ e) = Some end_key → key_less (ri_start_key_ (te_range_info_ e)) (Ordinary b) ∧ key_less (Ordinary b) end_key.

Inductive life_step : Life → Life → Prop :=
  | life_pin e e' n : PinStoreRange e = (true, e') → life_step (mkLife e n) (mkLife e' (n + 1))
  | life_unpin e n : (0 < n)%Z → life_step (mkLife e n) (mkLife (UnPinStoreRange e) (n - 1))
  | life_use e r r' n : te_range_slices_ e = Some r → use_step r r' → life_step (mkLife e n) (mkLife (with_range e (Some r')) n)
  | life_init e infos key_cache empty e' n : te_range_slices_ e = None → (empty = false → infos_ok e infos) → InitRangeSlices cores e infos key_cache empty = Some e' → life_step (mkLife e n) (mkLife e' n)
  | life_drop e sync e' n : (users (mkLife e n) < 2 ^ 32)%Z → IsStoreRangeFree e sync = true → DropStoreRange e = Some e' → life_step (mkLife e n) (mkLife e' n)
  | life_split e r b removed rg e' n : te_range_slices_ e = Some r → b ∈ boundary_keys_ (pr_range r) → SplitRange (pr_range r) (Ordinary b) = Some (true, removed, rg) →
      entry_SetRangeEndKey (with_range e (Some (mkPinned rg (pr_pins_ r)))) (Ordinary b) = Some e' → life_step (mkLife e n) (mkLife e' n)
  | life_info e i n : ri_start_key_ i = ri_start_key_ (te_range_info_ e) → ri_end_key_ i = ri_end_key_ (te_range_info_ e) → life_step (mkLife e n) (mkLife (with_info e i) n)
  | life_dirty e d n : life_step (mkLife e n) (mkLife (with_dirty e d) n)
  | life_sync e ts n : life_step (mkLife e n) (mkLife (UpdateLastDataSyncTS e ts) n).

Definition life_inv (l : Life) : Prop := (0 ≤ lf_pins l)%Z ∧
  match te_range_slices_ (lf_entry l) with
  | None => lf_pins l = 0%Z
  | Some r => ∃ end_key, ri_end_key_ (te_range_info_ (lf_entry l)) = Some end_key ∧ range_inv r (ri_start_key_ (te_range_info_ (lf_entry l))) end_key (lf_pins l)
  end.

Lemma range_inv_pins r start_key end_key n d : range_inv r start_key end_key n → range_inv (add_pins r d) start_key end_key (n + d).
Proof. intros [H1 H2 H3 H4]. split; [done|done|done|]. cbn. rewrite H4, u32_idem. f_equal. lia. Qed.

Lemma weight_nonneg s : (0 ≤ sl_pins_ s)%Z → (0 ≤ weight s)%Z.
Proof. unfold weight. destruct (fetch_slice_cc_ s); lia. Qed.
Lemma total_zero ss : (∀ s, s ∈ ss → (0 ≤ sl_pins_ s)%Z) → (0 ≤ total ss)%Z ∧ (total ss = 0%Z ↔ ∀ s, s ∈ ss → sl_pins_ s = 0%Z ∧ fetch_slice_cc_ s = None).
Proof.
  induction ss as [|s ss IH]; intros Hp; [split; [done|]; split; [by intros _ s ?%not_elem_of_nil|done]|]. rewrite total_cons. pose proof (Hp s (list_elem_of_here _ _)) as Hs. pose proof (weight_nonneg s Hs) as Hw.
  destruct IH as [I1 I2]; [intros; apply Hp; by right|]. split; [lia|]. split.
  - intros E. assert (weight s = 0%Z) as Ew by lia. assert (total ss = 0%Z) as Et by lia. intros x [->|Hx]%elem_of_cons; [|by apply I2]. unfold weight in Ew. destruct (fetch_slice_cc_ s); [lia|]. split; [lia|done].
  - intros Hall. assert (total ss = 0%Z) as -> by (apply I2; intros; apply Hall; by right). destruct (Hall s (list_elem_of_here _ _)) as [E1 E2]. unfold weight. by rewrite E1, E2.
Qed.

(** The counter is zero exactly when there is no user. *)
Lemma counter_exact r start_key end_key n : range_inv r start_key end_key n → (0 ≤ n)%Z → (total (slices_ (pr_range r)) + n < 2 ^ 32)%Z →
  pr_pins_ r = 0%Z ↔ n = 0%Z ∧ ∀ s, s ∈ slices_ (pr_range r) → sl_pins_ s = 0%Z ∧ fetch_slice_cc_ s = None.
Proof.
  intros [_ _ Hp Hc] Hn Hb. destruct (total_zero _ Hp) as [H0 Hz]. rewrite Hc, u32_small by lia. split.
  - intros E. assert (n = 0%Z) as -> by lia. split; [done|]. apply Hz. lia.
  - intros [-> Hall]. apply Hz in Hall. lia.
Qed.

Lemma init_slices_idle key_cache infos end_key s : s ∈ init_slices key_cache cores infos end_key → sl_pins_ s = 0%Z ∧ fetch_slice_cc_ s = None.
Proof. induction infos as [|info rest IH]; cbn; [by intros ?%not_elem_of_nil|]. intros [->|Hs]%elem_of_cons; [done|by apply IH]. Qed.

Lemma idle_inv rg start_key end_key : range_ok rg end_key → range_start_key_ rg = start_key → range_end_key_ rg = Some end_key →
  (∀ s, s ∈ slices_ rg → sl_pins_ s = 0%Z ∧ fetch_slice_cc_ s = None) → range_inv (mkPinned rg 0) start_key end_key 0.
Proof.
  intros Hok Hs He Hidle. assert (∀ s, s ∈ slices_ rg → (0 ≤ sl_pins_ s)%Z) as Hp by (intros s Hsl; destruct (Hidle s Hsl) as [-> _]; lia).
  split; [done|done|done|]. cbn. destruct (total_zero _ Hp) as [_ Hz]. apply Hz in Hidle. by rewrite Hidle.
Qed.

Lemma init_inv e infos key_cache empty e' : (empty = false → infos_ok e infos) → InitRangeSlices cores e infos key_cache empty = Some e' →
  ∃ r end_key, te_range_slices_ e' = Some r ∧ te_range_info_ e' = te_range_info_ e ∧ ri_end_key_ (te_range_info_ e) = Some end_key ∧ range_inv r (ri_start_key_ (te_range_info_ e)) end_key 0.
Proof.
  intros Hinfo E. unfold InitRangeSlices in E. destruct (ri_end_key_ (te_range_info_ e)) as [end_key|] eqn:Ee; [|done]. cbn [mbind option_bind] in E. destruct empty.
  - injection E as <-. eexists _, end_key. split; [done|]. split; [done|]. split; [done|]. apply idle_inv; [apply StoreRange_new_ok|done|done|]. cbn. by intros s ->%list_elem_of_singleton.
  - destruct (Hinfo eq_refl) as (info & rest & ks & -> & Hks & Hso & Hin). set (rg := StoreRange_new _ _ _ _ _) in E.
    destruct (InitSlices_ok key_cache cores rg info rest ks end_key eq_refl Hks Hso) as (rg' & E' & Hok & [_ Hst] & _); [intros b Hb; by apply Hin|]. rewrite E' in E. injection E as <-.
    eexists _, end_key. split; [done|]. split; [done|]. split; [done|]. unfold InitSlices in E'. cbn [mbind option_bind rg StoreRange_new range_end_key_] in E'.
    rewrite (mapM_keys rest ks Hks) in E'. injection E' as <-. apply idle_inv; [done|done|done|]. intros s. cbn [set_slices slices_]. intros [->|Hs]%elem_of_cons; [done|by eapply init_slices_idle].
Qed.

Lemma not_busy_idle s : (0 ≤ sl_pins_ s)%Z → slice_busy s = false → sl_pins_ s = 0%Z ∧ fetch_slice_cc_ s = None.
Proof.
  unfold slice_busy. intros Hp [[[H1%bool_decide_eq_false _]%orb_false_iff H2]%orb_false_iff _]%orb_false_iff. destruct (fetch_slice_cc_ s); [done|]. split; [lia|done].
Qed.

Lemma split_range_inv r b removed rg start_key end_key n : range_inv r start_key end_key n → b ∈ boundary_keys_ (pr_range r) → SplitRange (pr_range r) (Ordinary b) = Some (true, removed, rg) →
  ∃ rg1, SetRangeEndKey rg (Ordinary b) = Some rg1 ∧ range_inv (mkPinned rg1 (pr_pins_ r)) start_key (Ordinary b) n.
Proof.
  intros [H1 [H2 H3] H4 H5] (l1 & l2 & El)%list_elem_of_split E. pose proof (SplitRange_parts _ end_key l1 b l2 H1 El) as Hp. destruct (existsb slice_busy _) eqn:Ebusy; [congruence|].
  destruct Hp as (s1 & x & s2 & Ess & _ & E' & Hx & E1 & Hok1). rewrite E in E'. injection E' as -> ->. eexists. split; [exact E1|].
  assert (∀ s, s ∈ slices_ (pr_range r) → sl_pins_ s = 0%Z ∧ fetch_slice_cc_ s = None) as Hidle.
  { intros s Hs. apply not_busy_idle; [by apply H4|]. destruct (slice_busy s) eqn:Eb; [|done]. exfalso. assert (existsb slice_busy (slices_ (pr_range r)) = true) as Ht; [|congruence].
    apply existsb_exists. exists s. split; [by apply list_elem_of_In|done]. }
  assert (∀ s, s ∈ s1 ++ [set_end_key x (Ordinary b)] → sl_pins_ s = 0%Z ∧ fetch_slice_cc_ s = None) as Hidle1.
  { intros s [Hs| ->%list_elem_of_singleton]%elem_of_app; [|cbn]; apply Hidle; rewrite Ess; set_solver. }
  destruct (total_zero (slices_ (pr_range r))) as [_ Hz]; [done|]. destruct (idle_inv _ (range_start_key_ (pr_range r)) (Ordinary b) Hok1 eq_refl eq_refl Hidle1) as [I1 I2 I3 I4].
  split; cbn [pr_range] in *; [done|cbn; split; [done|done]|done|]. cbn [pr_pins_]. rewrite H5. f_equal. rewrite (proj2 Hz Hidle).
  destruct (total_zero (s1 ++ [set_end_key x (Ordinary b)])) as [_ Hz1]; [intros s Hs; destruct (Hidle1 s Hs) as [-> _]; lia|]. cbn [slices_]. by rewrite (proj2 Hz1 Hidle1).
Qed.

Lemma life_step_inv l l' : life_inv l → life_step l l' → life_inv l'.
Proof.
  intros [Hn Hinv] Hst. destruct Hst as [e e' n E|e n Hpos|e r r' n Hr Hu|e infos kc empty e' n Hr Hi E|e sync e' n Hb Hfree E|e r b removed rg e' n Hr Hbk Es E|e i n H1 H2|e d n|e ts n]; cbn [lf_entry lf_pins] in *.
  - unfold PinStoreRange in E. destruct (te_range_slices_ e) as [r|] eqn:Hr; [|done]. injection E as <-. split; cbn; [lia|]. destruct Hinv as (end_key & He & Hinv). exists end_key. split; [done|]. by apply range_inv_pins.
  - unfold UnPinStoreRange. destruct (te_range_slices_ e) as [r|] eqn:Hr; [|lia]. split; cbn; [lia|]. destruct Hinv as (end_key & He & Hinv). exists end_key. split; [done|]. by apply (range_inv_pins _ _ _ _ (-1)).
  - rewrite Hr in Hinv. destruct Hinv as (end_key & He & Hinv). split; [done|]. exists end_key. split; [done|]. by eapply use_step_inv.
  - rewrite Hr in Hinv. cbn in Hinv. subst n. destruct (init_inv _ _ _ _ _ Hi E) as (r & end_key & Hr' & Hinfo & He & Hri). split; [done|]. cbn. rewrite Hr', Hinfo. by exists end_key.
  - unfold DropStoreRange in E. destruct (te_range_slices_ e) as [r|] eqn:Hr; [|injection E as <-; split; [done|]; cbn; by rewrite Hr].
    destruct (decide (pr_pins_ r = 0%Z)) as [Hz|]; [|done]. injection E as <-. split; [done|]. cbn. destruct Hinv as (end_key & _ & Hinv). unfold users in Hb. cbn in Hb. rewrite Hr in Hb.
    by apply (counter_exact _ _ _ _ Hinv Hn Hb) in Hz as [? _].
  - rewrite Hr in Hinv. destruct Hinv as (end_key & He & Hinv). destruct (split_range_inv _ _ _ _ _ _ _ Hinv Hbk Es) as (rg1 & E1 & Hinv1). unfold entry_SetRangeEndKey in E. cbn [with_range te_range_slices_ pr_range] in E.
    rewrite E1 in E. injection E as <-. split; [done|]. exists (Ordinary b). by split.
  - split; [done|]. cbn. destruct (te_range_slices_ e) as [r|]; [|done]. by rewrite H1, H2.
  - split; [done|]. done.
  - split; [done|]. done.
Qed.

(** An entry whose slices have not been read. *)
Definition life_start (l : Life) : Prop := te_range_slices_ (lf_entry l) = None ∧ lf_pins l = 0%Z.

Lemma life_inv_reachable l0 l : life_start l0 → rtc life_step l0 l → life_inv l.
Proof.
  intros [H1 H2] Hr. assert (life_inv l0) as H0 by (split; [lia|by rewrite H1]). clear H1 H2. induction Hr as [|x y z Hxy _ IH]; [done|]. apply IH. by eapply life_step_inv.
Qed.

(** C9: The slices of a range can be dropped exactly when nobody uses them: neither the range nor one
    of its slices is pinned and no slice is being loaded. *)
Theorem store_range_free_exact l0 l r sync : life_start l0 → rtc life_step l0 l → te_range_slices_ (lf_entry l) = Some r → (users l < 2 ^ 32)%Z →
  (IsStoreRangeFree (lf_entry l) sync = true ↔ lf_pins l = 0%Z ∧ ∀ s, s ∈ slices_ (pr_range r) → sl_pins_ s = 0%Z ∧ fetch_slice_cc_ s = None) ∧
  (IsStoreRangeFree (lf_entry l) sync = false → DropStoreRange (lf_entry l) = None).
Proof.
  intros Hs Hr Hsl Hb. destruct (life_inv_reachable _ _ Hs Hr) as [Hn Hinv]. rewrite Hsl in Hinv. destruct Hinv as (end_key & _ & Hinv). unfold users in Hb. rewrite Hsl in Hb.
  pose proof (counter_exact _ _ _ _ Hinv Hn Hb) as Hex. unfold IsStoreRangeFree, DropStoreRange. rewrite Hsl, bool_decide_eq_true, bool_decide_eq_false. split; [done|]. intros. by rewrite decide_False.
Qed.

(** C10: Whatever requests, loads, flushes and splits have happened, the slices partition the range: the
    slice that the search finds for a key of the range contains it, and no other slice does. *)
Theorem slices_partition_range l0 l r end_key key : life_start l0 → rtc life_step l0 l → te_range_slices_ (lf_entry l) = Some r → ri_end_key_ (te_range_info_ (lf_entry l)) = Some end_key →
  key_le (ri_start_key_ (te_range_info_ (lf_entry l))) key → key_less key end_key →
  ∃ i s, FindSlice (pr_range r) key = Some s ∧ slices_ (pr_range r) !! i = Some s ∧ contains s key ∧ ∀ j s', slices_ (pr_range r) !! j = Some s' → contains s' key → j = i.
Proof.
  intros Hs Hr Hsl He Hlo Hhi. destruct (life_inv_reachable _ _ Hs Hr) as [_ Hinv]. rewrite Hsl in Hinv. destruct Hinv as (end_key' & He' & [Hok [Hk1 _] _ _]). rewrite He in He'. injection He' as <-.
  destruct (FindSlice_ok (pr_range r) end_key key Hok) as (s & i & H1 & H2 & H3 & H4); [by rewrite Hk1|done|]. by exists i, s.
Qed.
End life.

(** ** Dropping the slices of ranges that have not been used for a while

    [LocalCcShards::KickoutRangeSlices].  [accessed] is the time of the last access of each range, and
    [enough n] whether there is enough memory after [n] ranges have been dropped. *)

Section kickout.
Context {K : Type} `{!KeyOrder K} (now : Z) (accessed : nat → Z) (enough : nat → bool).
Implicit Types (e : TableRangeEntry K) (es : list (TableRangeEntry K)) (idxs : list nat).

Definition idle_for (limit : Z) (i : nat) : Prop := (accessed i < now ∧ limit < now - accessed i)%Z.
#[export] Instance idle_for_dec limit i : Decision (idle_for limit i).
Proof. unfold idle_for. apply _. Defined.

(** The ranges in the given order, until there is enough memory. *)
Fixpoint kick idxs es (n : nat) : bool * list (TableRangeEntry K) * nat :=
  match idxs with
  | [] => (false, es, n)
  | i :: idxs =>
      match es !! i with
      | Some e =>
          if IsStoreRangeFree e false then
            match DropStoreRange e with
            | Some e' => if enough (S n) then (true, <[i := e']> es, S n) else kick idxs (<[i := e']> es) (S n)
            | None => kick idxs es n
            end
          else kick idxs es n
      | None => kick idxs es n
      end
  end.

Definition in_memory es (i : nat) : bool := match es !! i with Some e => if te_range_slices_ e then true else false | None => false end.
Definition older (i j : nat) : Prop := (accessed i ≤ accessed j)%Z.
#[export] Instance older_dec : RelDecision older.
Proof. intros i j. unfold older. apply _. Defined.

Definition ranges_in_memory es : list nat := filter (λ i, in_memory es i = true) (seq 0 (length es)).
Definition old_ranges es : list nat := filter (idle_for 600000000) (ranges_in_memory es).
Definition scanned_ranges es : list nat := merge_sort older (filter (λ i, ¬ idle_for 600000000 i ∧ idle_for 4000000 i) (ranges_in_memory es)).
Definition KickoutRangeSlices es : list (TableRangeEntry K) :=
  let '(done, es1, n1) := kick (old_ranges es) es 0 in
  if done : bool then es1 else (kick (scanned_ranges es) es1 n1).1.2.

Definition dropped_or_kept e e' : Prop := e' = e ∨ (IsStoreRangeFree e false = true ∧ e' = with_range e None).

Lemma kick_ok idxs : ∀ es n done es' n', kick idxs es n = (done, es', n') → length es' = length es ∧ ∀ i e, es !! i = Some e → ∃ e', es' !! i = Some e' ∧ dropped_or_kept e e' ∧ (i ∉ idxs → e' = e) ∧
  (done = false → i ∈ idxs → IsStoreRangeFree e false = true → te_range_slices_ e' = None).
Proof.
  induction idxs as [|j idxs IH]; intros es n done es' n' E; cbn [kick] in E.
  { injection E as <- <- <-. split; [done|]. intros i e Hi. exists e. split_and!; [done|by left|done|by intros _ ?%not_elem_of_nil]. }
  assert (∀ es n, kick idxs es n = (done, es', n') → (∀ e, es !! j = Some e → IsStoreRangeFree e false = true → te_range_slices_ e = None) → length es' = length es ∧ ∀ i e, es !! i = Some e → ∃ e', es' !! i = Some e' ∧ dropped_or_kept e e' ∧ (i ∉ j :: idxs → e' = e) ∧
    (done = false → i ∈ j :: idxs → IsStoreRangeFree e false = true → te_range_slices_ e' = None)) as Hskip.
  { clear E. intros es0 n0 E Hj. destruct (IH _ _ _ _ _ E) as [Hl HI]. split; [done|]. intros i e Hi. destruct (HI i e Hi) as (e' & H1 & H2 & H3 & H4). exists e'. split_and!; [done|done|intros Hn; apply H3; set_solver|].
    intros Hd [->|Hin]%elem_of_cons Hfr; [|by apply H4]. specialize (Hj e Hi Hfr). destruct H2 as [->|[_ ->]]; done. }
  destruct (es !! j) as [e0|] eqn:Ej; [|apply (Hskip _ _ E); congruence]. destruct (IsStoreRangeFree e0 false) eqn:Ef; [|apply (Hskip _ _ E); congruence].
  assert (DropStoreRange e0 = Some (with_range e0 None)) as Ed.
  { unfold IsStoreRangeFree in Ef. unfold DropStoreRange. destruct (te_range_slices_ e0) eqn:Es; [apply bool_decide_eq_true in Ef; by rewrite decide_True|]. destruct e0. cbn in Es. by subst. }
  rewrite Ed in E. pose proof (lookup_lt_Some _ _ _ Ej) as Hlt. destruct (enough (S n)).
  - injection E as <- <- <-. split; [by rewrite length_insert|]. intros i e Hi. destruct (decide (i = j)) as [->|Hne].
    + rewrite Ej in Hi. injection Hi as <-. exists (with_range e0 None). split_and!; [by apply list_lookup_insert_eq|by right|set_solver|done].
    + exists e. rewrite list_lookup_insert_ne by done. split_and!; [done|by left|done|done].
  - destruct (Hskip _ _ E) as [Hl HI]; [intros e; rewrite list_lookup_insert_eq by done; by intros [= <-]|]. rewrite length_insert in Hl. split; [done|]. intros i e Hi. destruct (decide (i = j)) as [->|Hne].
    + rewrite Ej in Hi. injection Hi as <-. destruct (HI j (with_range e0 None)) as (e' & H1 & H2 & _ & H4); [by apply list_lookup_insert_eq|]. exists e'. assert (e' = with_range e0 None) as -> by (by destruct H2 as [->|[_ ->]]).
      split_and!; [done|by right|set_solver|done].
    + apply HI. by rewrite list_lookup_insert_ne.
Qed.

Lemma dropped_trans e e1 e2 : dropped_or_kept e e1 → dropped_or_kept e1 e2 → dropped_or_kept e e2.
Proof. intros [->|[H1 ->]] [->|[H2 ->]]; [by left|by right..]. Qed.
Lemma kick_not_done idxs : (∀ n, enough n = false) → ∀ es n, (kick idxs es n).1.1 = false.
Proof.
  intros Hen. induction idxs as [|i idxs IH]; intros es n; cbn [kick]; [done|]. destruct (es !! i) as [e|]; [|done]. destruct (IsStoreRangeFree e false); [|done]. destruct (DropStoreRange e); [|done]. by rewrite Hen.
Qed.

(** Only ranges that nobody uses and that have not been accessed for four seconds lose their slices; if
    there is still not enough memory, all of them do. *)
Theorem KickoutRangeSlices_ok es : length (KickoutRangeSlices es) = length es ∧ (∀ i e, es !! i = Some e → ∃ e', KickoutRangeSlices es !! i = Some e' ∧ dropped_or_kept e e' ∧ (¬ idle_for 4000000 i → e' = e)) ∧
  ((∀ n, enough n = false) → ∀ i e, es !! i = Some e → idle_for 4000000 i → IsStoreRangeFree e false = true → ∃ e', KickoutRangeSlices es !! i = Some e' ∧ te_range_slices_ e' = None).
Proof.
  assert (∀ i, i ∈ old_ranges es ↔ idle_for 600000000 i ∧ i ∈ ranges_in_memory es) as Hold by (intros i; apply list_elem_of_filter).
  assert (∀ i, i ∈ scanned_ranges es ↔ (¬ idle_for 600000000 i ∧ idle_for 4000000 i) ∧ i ∈ ranges_in_memory es) as Hscan by (intros i; unfold scanned_ranges; rewrite merge_sort_Permutation, list_elem_of_filter; done).
  assert (∀ i, idle_for 600000000 i → idle_for 4000000 i) as Hlim by (unfold idle_for; intros; lia).
  unfold KickoutRangeSlices. destruct (kick (old_ranges es) es 0) as [[done es1] n1] eqn:E1. destruct (kick_ok _ _ _ _ _ _ E1) as [Hl1 H1].
  destruct (kick (scanned_ranges es) es1 n1) as [[done2 es2] n2] eqn:E2. destruct (kick_ok _ _ _ _ _ _ E2) as [Hl2 H2]. cbn [fst snd]. split; [destruct done; congruence|]. split.
  - intros i e Hi. destruct (H1 i e Hi) as (e1 & Hi1 & Hd1 & Hk1 & _). destruct done; [exists e1; split_and!; [done|done|]; intros Hn; apply Hk1; rewrite Hold; naive_solver|].
    destruct (H2 i e1 Hi1) as (e2 & Hi2 & Hd2 & Hk2 & _). exists e2. split_and!; [done|by eapply dropped_trans|]. intros Hn. rewrite Hk2 by (rewrite Hscan; naive_solver). apply Hk1. rewrite Hold. naive_solver.
  - intros Hen i e Hi Hidle Hfr. pose proof (kick_not_done (old_ranges es) Hen es 0) as D1. rewrite E1 in D1. cbn in D1. subst done. pose proof (kick_not_done (scanned_ranges es) Hen es1 n1) as D2. rewrite E2 in D2. cbn in D2. subst done2.
    destruct (H1 i e Hi) as (e1 & Hi1 & Hd1 & Hk1 & Hf1). destruct (H2 i e1 Hi1) as (e2 & Hi2 & Hd2 & Hk2 & Hf2). exists e2. split; [done|].
    assert (te_range_slices_ e1 = None → te_range_slices_ e2 = None) as Hgone by (destruct Hd2 as [->|[_ ->]]; done). destruct (te_range_slices_ e) as [r|] eqn:Er.
    + assert (i ∈ ranges_in_memory es) as Hm.
      { apply list_elem_of_filter. unfold in_memory. rewrite Hi, Er. split; [done|]. apply elem_of_seq. apply lookup_lt_Some in Hi. lia. }
      destruct (decide (idle_for 600000000 i)) as [Ho|Hy]; [apply Hgone, Hf1; [done|by apply Hold|done]|]. rewrite Hk1 in Hf2 by (rewrite Hold; tauto). apply Hf2; [done|by apply Hscan|done].
    + apply Hgone. destruct Hd1 as [->|[_ ->]]; done.
Qed.
End kickout.

(** ** The slices of the new ranges of a split *)

Section dirty.
Context {K : Type} `{!KeyOrder K}.
Implicit Types (e : TableRangeEntry K).

(** The new owner receives the slices and their data. *)
Inductive dirty_step e : TableRangeEntry K → Prop :=
  | dirty_upload id ts dml slices : dirty_step e (UploadDirtyRangeSlices e id ts dml slices).2
  | dirty_update id idxs ts e' : UpdateDirtyRangeSlice e id idxs ts = Some e' → dirty_step e e'
  | dirty_info e' : te_dirty_range_slices_ e' = te_dirty_range_slices_ e → dirty_step e e'.

Definition refuses e : Prop := ∃ d, te_dirty_range_slices_ e = Some d ∧ accept_data d = false.

Lemma dirty_step_refuses e e' : refuses e → dirty_step e e' → refuses e'.
Proof.
  intros (d & Hd & Ha) Hst. destruct Hst as [id ts dml slices|id idxs ts e' E|e' E].
  - unfold UploadDirtyRangeSlices. rewrite Hd. destruct (_ && _); [|by exists d]. cbn. eexists. split; [done|]. done.
  - unfold UpdateDirtyRangeSlice in E. rewrite Hd, Ha in E. destruct (_ && _); injection E as <-; by exists d.
  - exists d. by rewrite E.
Qed.

(** Once data of the new ranges has been thrown out of memory, no slice of them is taken for
    complete, whatever is uploaded or reported afterwards. *)
Theorem kicked_slices_not_cached e e' id slices info : is_Some (te_dirty_range_slices_ e) → rtc dirty_step (SetAcceptsDirtyRangeData e false) e' →
  (ReleaseDirtyRangeSlices e').1 ≫= (λ d, new_slices d !! id) = Some slices → info ∈ slices → ii_status_ info = PartiallyCached.
Proof.
  intros [d Hd] Hr E Hin. assert (refuses e') as (d' & Hd' & Ha).
  { assert (refuses (SetAcceptsDirtyRangeData e false)) as H0 by (unfold SetAcceptsDirtyRangeData; rewrite Hd; eexists; by split). clear -Hr H0. induction Hr as [|x y z Hxy _ IH]; [done|]. apply IH. by eapply dirty_step_refuses. }
  unfold ReleaseDirtyRangeSlices in E. rewrite Hd' in E. cbn in E. unfold release in E. rewrite Ha in E. cbn in E. rewrite lookup_fmap in E. destruct (new_slices d' !! id) as [old|]; [|done]. injection E as <-.
  by apply list_elem_of_fmap in Hin as (x & -> & _).
Qed.
End dirty.
