(* ===== verification/SliceUpdate.v ===== *)
(** * Splitting slices during a checkpoint ([src/cc/local_cc_shards.cpp], [UpdateSlices])

    While the checkpointer exports the records of a range, it cuts the slices that will become too
    large, at keys of the exported records, so that the parts have about the same size.  The records come in
    batches; a slice whose records are not all in a batch is continued in the next one.  The
    theorems say that the slices are cut as if all records had come in one batch, and what
    the parts of a slice are. *)

From stdpp Require Import sorting.
From S2P Require Import Prelude CcProtocol CcEntry LruList CcPages PagesRep RandomPairing StoreSlice StoreRange.

(** The slice whose records are not complete yet: its start key, its records so far, and its parts so
    far. *)
Record UpdateSliceStatus (K : Type) := mkStatus {
  paused_slice_ : option (SearchKey K);
  paused_slice_rec_cnt_ : Z;
  paused_split_keys_ : list (SliceChangeInfo K);
}.
Arguments mkStatus {_}.
Arguments paused_slice_ {_}.
Arguments paused_slice_rec_cnt_ {_}.
Arguments paused_split_keys_ {_}.

Section update.
Context {K : Type} `{!KeyOrder K} (cores : nat).
(** A record is its key and its size after the flush. *)
Implicit Types (rg : StoreRange K) (s : StoreSlice K) (recs : list (K * Z)) (keys : list (SliceChangeInfo K)) (status : UpdateSliceStatus K).

Definition status_Reset : UpdateSliceStatus K := mkStatus None 0 [].

(** ** The sizes for the checkpoint *)

(** [UpdateSlicePostCkptSize]: the changes of the sizes, by keys of the slices. *)
Definition set_post_size rg (key : SearchKey K) (delta : Z) : option (StoreRange K) :=
  i ← SearchSlice rg key true;
  s ← slices_ rg !! i;
  let sum := (sl_size_ s + delta)%Z in
  Some (set_slices rg (boundary_keys_ rg) (<[i := SetPostCkptSize s (if decide (0 < sum)%Z then sum else 0)]> (slices_ rg))).
Fixpoint UpdateSlicePostCkptSize rg (deltas : list (SearchKey K * Z)) : option (StoreRange K) :=
  match deltas with [] => Some rg | (key, delta) :: deltas => rg' ← set_post_size rg key delta; UpdateSlicePostCkptSize rg' deltas end.

(** [CalculateRangeUpdate]: the keys at which a range that is too large is split. *)
Definition CalculateRangeUpdate (sample : StoreSlice K → nat → option (list K)) rg (range_max_size subrange_cnt : Z) : option (bool * list K * StoreRange K) :=
  if decide (range_max_size < PostCkptSize rg)%Z then CalculateRangeSplitKeys cores sample rg (PostCkptSize rg) subrange_cnt else Some (true, [], rg).

(** ** The parts of a slice *)

(** The lambda [update_new_subslices]: the first part has the start key of the slice; a part that is
    not full is continued; otherwise a new part starts at [search_key]. *)
Definition update_new_subslices s (subslice_size avg : Z) (search_key : option K) (post : Z) keys : option (list (SliceChangeInfo K)) :=
  match last keys with
  | None => Some [mkChangeInfo (sl_start_key_ s) subslice_size post]
  | Some back =>
      if decide (ci_post_update_size_ back < avg)%Z then
        if decide (ci_cur_size_ back = subslice_size) then Some (take (length keys - 1) keys ++ [mkChangeInfo (ci_key_ back) (ci_cur_size_ back) post]) else None
      else key ← search_key; Some (keys ++ [mkChangeInfo (Ordinary key) subslice_size post])
  end.

(** The loop over the records of the slice. *)
Fixpoint subslices s (subslice_size avg : Z) recs (search_key : option K) (post cnt : Z) keys : option (list (SliceChangeInfo K) * Z * Z * option K) :=
  match recs with
  | [] => Some (keys, post, cnt, search_key)
  | (key, size) :: rest =>
      let post := u32 (post + size) in
      let cnt := if decide (size ≠ 0%Z) then (cnt + 1)%Z else cnt in
      if decide (avg ≤ post)%Z then keys' ← update_new_subslices s subslice_size avg search_key post keys; subslices s subslice_size avg rest (fst <$> head rest) 0 cnt keys'
      else subslices s subslice_size avg rest search_key post cnt keys
  end.

Definition subslice_cnt s : Z := Z.max 2 (u32 (post_ckpt_size_ s / slice_upper_bound)).
Definition avg_size s : Z := u32 (post_ckpt_size_ s / subslice_cnt s).
Definition sub_size s : Z := u32 (sl_size_ s / subslice_cnt s).

(** All parts, with the one that is not full. *)
Definition close_parts s (state : list (SliceChangeInfo K) * Z * Z * option K) : option (list (SliceChangeInfo K) * Z) :=
  let '(keys, post, cnt, search_key) := state in
  keys' ← (if decide (0 < post)%Z then update_new_subslices s (sub_size s) (avg_size s) search_key post keys else Some keys); Some (keys', cnt).
Definition resume_post s status : option Z :=
  if paused_slice_ status then back ← last (paused_split_keys_ status); Some (if decide (ci_post_update_size_ back < avg_size s)%Z then ci_post_update_size_ back else 0%Z) else Some 0%Z.
Definition slice_parts s recs status : option (list (SliceChangeInfo K) * Z) :=
  post ← resume_post s status;
  state ← subslices s (sub_size s) (avg_size s) recs (fst <$> head recs) post (paused_slice_rec_cnt_ status) (paused_split_keys_ status);
  close_parts s state.

(** ** The slices *)

(** The slice is altered if it has more than one part. *)
Definition cut_slice rg s keys : option (StoreRange K) :=
  if decide (1 < length keys) then alter_slice cores rg s keys else Some rg.
(** [SetEstimateRecordSize] of the base table. *)
Definition estimate (base : bool) s (cnt : Z) : list Z := if base && bool_decide (cnt ≠ 0%Z) then [(post_ckpt_size_ s / cnt)%Z] else [].

Definition slice_by_start rg (start_key : SearchKey K) : option (StoreSlice K) :=
  i ← SearchSlice rg start_key true; slices_ rg !! i.

(** A slice that was not complete is, when the next record is not one of it. *)
Definition finish_paused rg (base : bool) status s : option (StoreRange K * UpdateSliceStatus K * list Z) :=
  match paused_slice_ status with
  | Some start_key =>
      if decide (start_key = sl_start_key_ s) then Some (rg, status, [])
      else
        p ← slice_by_start rg start_key;
        rg' ← cut_slice rg p (paused_split_keys_ status);
        Some (rg', status_Reset, estimate base p (paused_slice_rec_cnt_ status))
  | None => Some (rg, status, [])
  end.

Definition small_slice s : bool := bool_decide (post_ckpt_size_ s = UINT64_MAX) || bool_decide (post_ckpt_size_ s ≤ slice_upper_bound)%Z.
Definition slice_end rg s recs : nat :=
  if decide (Some (sl_end_key_ s) = range_end_key_ rg) then length recs else partition_point (λ r, search_lt (Ordinary r.1) (sl_end_key_ s) = true) recs.

Definition update_slice rg (base exported : bool) s recs status : option (StoreRange K * UpdateSliceStatus K * list Z) :=
  if small_slice s then (if paused_slice_ status then None else Some (rg, status, []))
  else
    '(keys, cnt) ← slice_parts s recs status;
    if exported then
      rg' ← cut_slice rg s keys;
      Some (rg', (if paused_slice_ status then status_Reset else mkStatus None (paused_slice_rec_cnt_ status) []), estimate base s cnt)
    else Some (rg, mkStatus (Some (sl_start_key_ s)) cnt keys, []).

Fixpoint update_slices (fuel : nat) rg (base all_data_exported : bool) recs status : option (StoreRange K * UpdateSliceStatus K * list Z) :=
  match recs, fuel with
  | [], _ => Some (rg, status, [])
  | _, 0 => None
  | (key, _) :: _, S fuel =>
      s ← FindSlice rg (Ordinary key);
      '(rg1, status1, est1) ← finish_paused rg base status s;
      let n := slice_end rg s recs in
      '(rg2, status2, est2) ← update_slice rg1 base (bool_decide (n < length recs) || all_data_exported) s (take n recs) status1;
      '(rg3, status3, est3) ← update_slices fuel rg2 base all_data_exported (drop n recs) status2;
      Some (rg3, status3, est1 ++ est2 ++ est3)
  end.
Definition UpdateSlices rg (base all_data_exported : bool) recs status : option (StoreRange K * UpdateSliceStatus K * list Z) :=
  update_slices (length recs) rg base all_data_exported recs status.

(** ** The parts of a slice: continuing after a pause *)

Definition rec_ok (r : K * Z) : Prop := (0 ≤ r.2 < 2 ^ 31)%Z.
Definition sum_sizes recs : Z := foldr Z.add 0%Z recs.*2.

Lemma update_twice s sz avg sk sk2 q p keys keys2 : update_new_subslices s sz avg sk q keys = Some keys2 → (q < avg)%Z →
  update_new_subslices s sz avg sk2 p keys2 = update_new_subslices s sz avg sk p keys.
Proof.
  unfold update_new_subslices. intros E Hq. destruct (last keys) as [b|] eqn:El.
  - apply last_Some in El as [l ->]. destruct (decide (ci_post_update_size_ b < avg)%Z).
    + destruct (decide (ci_cur_size_ b = sz)); [|done]. injection E as <-. rewrite last_snoc. cbn [ci_post_update_size_ ci_cur_size_ ci_key_]. rewrite decide_True by done. rewrite decide_True by done.
      rewrite !length_app. cbn [length]. rewrite !Nat.add_sub. rewrite (take_app_length l). by rewrite take_app_length.
    + destruct sk as [k|]; [|done]. injection E as <-. rewrite last_snoc. cbn [ci_post_update_size_ ci_cur_size_ ci_key_]. rewrite !decide_True by done.
      cbn [mbind option_bind]. rewrite length_app. cbn [length]. by rewrite Nat.add_sub, take_app_length.
  - injection E as <-. cbn. by rewrite !decide_True.
Qed.
Lemma update_none s sz avg sk q p keys : update_new_subslices s sz avg sk q keys = None → update_new_subslices s sz avg sk p keys = None.
Proof. unfold update_new_subslices. destruct (last keys); [|done]. repeat destruct (decide _); try done. by destruct sk. Qed.

Definition finish_parts s recs (search_key : option K) (post cnt : Z) keys : option (list (SliceChangeInfo K) * Z) :=
  state ← subslices s (sub_size s) (avg_size s) recs search_key post cnt keys; close_parts s state.

(** A part that is recorded before it is full grows as if it were not. *)
Lemma finish_recorded s recs : (avg_size s < 2 ^ 31)%Z → Forall rec_ok recs → ∀ sk sk2 q p cnt keys, (q < avg_size s)%Z → (0 < p < avg_size s)%Z →
  finish_parts s recs sk p cnt keys = (keys2 ← update_new_subslices s (sub_size s) (avg_size s) sk q keys; finish_parts s recs sk2 p cnt keys2).
Proof.
  intros Ha Hr. induction Hr as [|[k size] recs Hk Hr IH]; intros sk sk2 q p cnt keys Hq Hp.
  - unfold finish_parts. cbn [subslices mbind option_bind close_parts]. rewrite decide_True by lia. destruct (update_new_subslices s _ _ sk q keys) as [keys2|] eqn:E.
    + cbn [mbind option_bind]. rewrite decide_True by lia. by rewrite (update_twice _ _ _ _ sk2 _ p _ _ E Hq).
    + by rewrite (update_none _ _ _ _ _ p _ E).
  - unfold finish_parts in *. cbn [subslices]. unfold rec_ok in Hk. cbn in Hk. assert (u32 (p + size) = p + size)%Z as -> by (unfold u32; apply Z.mod_small; lia).
    destruct (decide (avg_size s ≤ p + size)%Z).
    + destruct (update_new_subslices s _ _ sk q keys) as [keys2|] eqn:E; cbn [mbind option_bind].
      * by rewrite (update_twice _ _ _ _ sk2 _ (p + size) _ _ E Hq).
      * by rewrite (update_none _ _ _ _ _ (p + size) _ E).
    + apply IH; lia.
Qed.

(** The records of a slice in two groups. *)
Lemma subslices_app s r1 r2 k size : (avg_size s < 2 ^ 31)%Z → Forall rec_ok r1 → last r1 = Some (k, size) → (0 < size)%Z → ∀ sk p cnt keys, (0 ≤ p < avg_size s)%Z →
  subslices s (sub_size s) (avg_size s) (r1 ++ r2) sk p cnt keys =
    (state ← subslices s (sub_size s) (avg_size s) r1 sk p cnt keys;
     let '(keys1, p1, cnt1, sk1) := state in subslices s (sub_size s) (avg_size s) r2 (if decide (p1 = 0%Z) then fst <$> head r2 else sk1) p1 cnt1 keys1) ∧
  (∀ keys1 p1 cnt1 sk1, subslices s (sub_size s) (avg_size s) r1 sk p cnt keys = Some (keys1, p1, cnt1, sk1) → (0 ≤ p1 < avg_size s)%Z ∧ (p1 = 0%Z → ∃ b, last keys1 = Some b ∧ (avg_size s ≤ ci_post_update_size_ b)%Z)).
Proof.
  intros Ha Hr. induction Hr as [|[k0 size0] r1 Hk Hr IH]; intros Hl Hpos sk p cnt keys Hp; [done|]. cbn [app subslices]. unfold rec_ok in Hk. cbn in Hk.
  assert (u32 (p + size0) = p + size0)%Z as -> by (unfold u32; apply Z.mod_small; lia). destruct r1 as [|r r1].
  - injection Hl as -> ->. cbn [app subslices]. destruct (decide (avg_size s ≤ p + size)%Z) as [Hc|Hc].
    + destruct (update_new_subslices _ _ _ _ _ _) as [keys'|] eqn:E; cbn [mbind option_bind]; [|split; [done|by intros]]. rewrite (decide_True (P := (0 = 0)%Z)) by done. split; [done|]. intros ? ? ? ? [= <- <- <- <-]. split; [lia|]. intros _.
      unfold update_new_subslices in E. destruct (last keys); [destruct (decide _)|]; [destruct (decide _); [|done]|destruct sk; [|done]|]; injection E as <-; rewrite ?last_snoc; by eexists.
    + cbn [mbind option_bind]. rewrite (decide_False (P := (p + size = 0)%Z)) by lia. split; [done|]. intros ? ? ? ? [= <- <- <- <-]. split; [lia|lia].
  - rewrite last_cons_cons in Hl. destruct (decide (avg_size s ≤ p + size0)%Z).
    + destruct (update_new_subslices _ _ _ _ _ _) as [keys'|]; cbn [mbind option_bind]; [|split; [done|by intros]]. apply IH; [done|done|lia].
    + apply IH; [done|done|lia].
Qed.

(** A pause inside a slice does not change its parts. *)
Lemma slice_parts_app s r1 r2 status k size start_key : (0 < avg_size s < 2 ^ 31)%Z → Forall rec_ok r1 → Forall rec_ok r2 → last r1 = Some (k, size) → (0 < size)%Z → r2 ≠ [] →
  (∀ post, resume_post s status = Some post → 0 ≤ post)%Z →
  slice_parts s (r1 ++ r2) status = ('(keys, cnt) ← slice_parts s r1 status; slice_parts s r2 (mkStatus (Some start_key) cnt keys)).
Proof.
  intros Ha H1 H2 Hl Hpos Hne Hres. unfold slice_parts. destruct (resume_post s status) as [post|] eqn:Er; [|done]. cbn [mbind option_bind]. specialize (Hres post eq_refl).
  assert (post < avg_size s)%Z as Hpost.
  { unfold resume_post in Er. destruct (paused_slice_ status); [|injection Er as <-; lia]. destruct (last (paused_split_keys_ status)) as [b|]; [|done]. cbn [mbind option_bind] in Er.
    injection Er as <-. destruct (decide _); lia. }
  assert (head (r1 ++ r2) = head r1) as -> by (by destruct r1).
  destruct (subslices_app s r1 r2 k size ltac:(lia) H1 Hl Hpos (fst <$> head r1) post (paused_slice_rec_cnt_ status) (paused_split_keys_ status)) as [-> Hst]; [lia|].
  destruct (subslices s _ _ r1 _ _ _ _) as [[[[keys1 p1] cnt1] sk1]|]; [|done]. cbn [mbind option_bind]. destruct (Hst _ _ _ _ eq_refl) as [Hp1 Hfull].
  change (close_parts s (keys1, p1, cnt1, sk1)) with
    (keys' ← (if decide (0 < p1)%Z then update_new_subslices s (sub_size s) (avg_size s) sk1 p1 keys1 else Some keys1); Some (keys', cnt1)).
  destruct (decide (p1 = 0%Z)) as [->|Hp0].
  - rewrite decide_False by lia. cbn [mbind option_bind]. unfold resume_post. cbn [paused_slice_ paused_split_keys_ paused_slice_rec_cnt_]. destruct (Hfull eq_refl) as (b & -> & Hb). cbn [mbind option_bind]. rewrite decide_False by lia. done.
  - rewrite decide_True by lia. pose proof (finish_recorded s r2 ltac:(lia) H2 sk1 (fst <$> head r2) p1 p1 cnt1 keys1) as Hfin. unfold finish_parts in Hfin. rewrite Hfin by lia.
    destruct (update_new_subslices s _ _ sk1 p1 keys1) as [keys2|] eqn:E; [|done]. cbn [mbind option_bind]. unfold resume_post. cbn [paused_slice_ paused_split_keys_ paused_slice_rec_cnt_].
    assert (∃ b, last keys2 = Some b ∧ ci_post_update_size_ b = p1) as (b & -> & Hb).
    { unfold update_new_subslices in E. destruct (last keys1); [destruct (decide _)|]; [destruct (decide _); [|done]|destruct sk1; [|done]|]; injection E as <-; rewrite ?last_snoc; by eexists. }
    cbn [mbind option_bind]. rewrite decide_True by lia. by rewrite Hb.
Qed.

(** ** What the parts of a slice are *)

Definition sum_post keys : Z := foldr Z.add 0%Z (ci_post_update_size_ <$> keys).
Lemma sum_post_app keys1 keys2 : sum_post (keys1 ++ keys2) = (sum_post keys1 + sum_post keys2)%Z.
Proof. unfold sum_post. induction keys1 as [|x keys1 IH]; [done|]. cbn. rewrite IH. lia. Qed.
Lemma sum_sizes_app r1 r2 : sum_sizes (r1 ++ r2) = (sum_sizes r1 + sum_sizes r2)%Z.
Proof. unfold sum_sizes. induction r1 as [|x r1 IH]; [done|]. cbn. rewrite IH. lia. Qed.

(** The first part starts where the slice does, the others at keys of records that are not the first
    one. *)
Record part_keys s recs keys (ks : list K) : Prop := {
  pk_keys : ∃ first infos, keys = first :: infos ∧ ci_key_ first = sl_start_key_ s ∧ ci_key_ <$> infos = Ordinary <$> ks;
  pk_records : ks `sublist_of` tail recs.*1;
  pk_sizes b : b ∈ keys → ci_cur_size_ b = sub_size s;
}.
Definition full s (b : SliceChangeInfo K) : Prop := (avg_size s ≤ ci_post_update_size_ b)%Z.

Lemma part_keys_snoc s recs keys ks k post : part_keys s recs keys ks → ks ++ [k] `sublist_of` tail recs.*1 → part_keys s recs (keys ++ [mkChangeInfo (Ordinary k) (sub_size s) post]) (ks ++ [k]).
Proof.
  intros [(first & infos & -> & H1 & H2) _ H4] Hsub. split; [|done|].
  - eexists first, (infos ++ [_]). split; [done|]. split; [done|]. rewrite !fmap_app, H2. done.
  - intros b [Hb| ->%list_elem_of_singleton]%elem_of_app; [by apply H4|done].
Qed.
Lemma tail_app {A} (l1 l2 : list A) : l1 ≠ [] → tail (l1 ++ l2) = tail l1 ++ l2.
Proof. by destruct l1. Qed.
Lemma part_keys_more s recs recs' keys ks : part_keys s recs keys ks → part_keys s (recs ++ recs') keys ks.
Proof.
  intros [H1 H2 H3]. split; [done| |done]. rewrite fmap_app. destruct (decide (recs.*1 = [])) as [E|E]; [rewrite E in H2; apply sublist_nil_r in H2 as ->; apply sublist_nil_l|].
  rewrite tail_app by done. by apply sublist_inserts_r.
Qed.

(** While the records are read: the parts so far are full, and the record that starts the next one
    is known. *)
Record reading s (done rest : list (K * Z)) keys (post : Z) (search_key : option K) : Prop := {
  rd_post : (0 ≤ post < avg_size s)%Z;
  rd_sum : (sum_post keys + post = sum_sizes done)%Z;
  rd_full b : b ∈ keys → full s b;
  rd_keys : keys = [] ∨ ∃ ks, part_keys s done keys ks ∧ done ≠ [] ∧
    ((post = 0%Z ∧ search_key = fst <$> head rest) ∨ ∃ k, search_key = Some k ∧ ks ++ [k] `sublist_of` tail done.*1);
}.

(** The new part that is recorded. *)
Lemma update_reading s recs keys sk p ks : (∀ b, b ∈ keys → full s b) → keys = [] ∨ (part_keys s recs keys ks ∧ ∃ k, sk = Some k ∧ ks ++ [k] `sublist_of` tail recs.*1) →
  ∃ keys' b ks', update_new_subslices s (sub_size s) (avg_size s) sk p keys = Some keys' ∧ keys' = keys ++ [b] ∧ ci_post_update_size_ b = p ∧ part_keys s recs keys' ks'.
Proof.
  intros Hfull Hk. unfold update_new_subslices. destruct (last keys) as [b|] eqn:El.
  - assert (b ∈ keys) as Hb by (by apply last_Some_elem_of). specialize (Hfull b Hb). unfold full in Hfull. rewrite decide_False by lia. destruct Hk as [->|[Hpk (k & -> & Hsub)]]; [done|].
    cbn [mbind option_bind]. eexists _, _, _. split; [done|]. split; [done|]. split; [done|]. by apply part_keys_snoc.
  - apply last_None in El as ->. eexists _, _, []. split; [done|]. split; [done|]. split; [done|]. split; [by eexists _, []|apply sublist_nil_l|by intros b ->%list_elem_of_singleton].
Qed.

(** Reading one record more: where the next part starts. *)
Lemma next_start (done : list (K * Z)) k size (rest : list (K * Z)) (ks : list K) sk (post : Z) : done ≠ [] → ks `sublist_of` tail done.*1 →
  ((post = 0%Z ∧ sk = fst <$> head ((k, size) :: rest)) ∨ ∃ k0, sk = Some k0 ∧ ks ++ [k0] `sublist_of` tail done.*1) → ∃ k0, sk = Some k0 ∧ ks ++ [k0] `sublist_of` tail (done ++ [(k, size)]).*1.
Proof.
  intros Hne Hs [[_ ->]|(k0 & -> & Hk)]; rewrite fmap_app, tail_app by (by destruct done).
  - exists k. split; [done|]. by apply sublist_app.
  - exists k0. split; [done|]. by apply sublist_inserts_r.
Qed.

Lemma subslices_reading s rest : (0 < avg_size s < 2 ^ 31)%Z → Forall rec_ok rest → ∀ done keys post cnt sk, reading s done rest keys post sk →
  ∃ keys' post' sk', subslices s (sub_size s) (avg_size s) rest sk post cnt keys = Some (keys', post', (cnt + Z.of_nat (length (filter (λ r, r.2 ≠ 0%Z) rest)))%Z, sk') ∧ reading s (done ++ rest) [] keys' post' sk'.
Proof.
  intros Ha Hr. induction Hr as [|[k size] rest Hk Hr IH]; intros done keys post cnt sk Hrd.
  { exists keys, post, sk. cbn. rewrite Z.add_0_r, app_nil_r. done. }
  destruct Hrd as [Hp Hsum Hfull Hks]. cbn [subslices]. unfold rec_ok in Hk. cbn in Hk. assert (u32 (post + size) = post + size)%Z as -> by (unfold u32; apply Z.mod_small; lia).
  assert (∀ c, c + Z.of_nat (length (filter (λ r : K * Z, r.2 ≠ 0%Z) ((k, size) :: rest))) = (if decide (size ≠ 0%Z) then c + 1 else c) + Z.of_nat (length (filter (λ r : K * Z, r.2 ≠ 0%Z) rest)))%Z as ->.
  { intros c. rewrite filter_cons. cbn. destruct (decide (size ≠ 0%Z)); cbn; lia. }
  assert (sum_sizes (done ++ [(k, size)]) = sum_sizes done + size)%Z as Hss by (rewrite sum_sizes_app; unfold sum_sizes; cbn; lia).
  assert (keys = [] ∨ ∃ ks, part_keys s (done ++ [(k, size)]) keys ks ∧ ∃ k0, sk = Some k0 ∧ ks ++ [k0] `sublist_of` tail (done ++ [(k, size)]).*1) as Hks'.
  { destruct Hks as [?|(ks & Hpk & Hne & Hsk)]; [by left|]. right. exists ks. split; [by apply part_keys_more|]. eapply next_start; [done|apply Hpk|exact Hsk]. }
  replace (done ++ (k, size) :: rest) with ((done ++ [(k, size)]) ++ rest) by by rewrite <- app_assoc.
  destruct (decide (avg_size s ≤ post + size)%Z) as [Hc|Hc].
  - assert (∃ ks0, keys = [] ∨ (part_keys s (done ++ [(k, size)]) keys ks0 ∧ ∃ k0, sk = Some k0 ∧ ks0 ++ [k0] `sublist_of` tail (done ++ [(k, size)]).*1)) as [ks0 Hks0].
    { destruct Hks' as [?|(ks & ?)]; [exists []; by left|exists ks; by right]. }
    destruct (update_reading s (done ++ [(k, size)]) keys sk (post + size) ks0 Hfull Hks0) as (keys' & b & ks' & -> & -> & Hb & Hpk). cbn [mbind option_bind]. apply IH. split.
    + lia.
    + rewrite sum_post_app, Hss, <- Hsum. unfold sum_post. cbn. lia.
    + intros x [Hx| ->%list_elem_of_singleton]%elem_of_app; [by apply Hfull|]. unfold full. lia.
    + right. exists ks'. split; [done|]. split; [by destruct done as [|? ?]|]. by left.
  - apply IH. split; [lia|lia|done|]. destruct Hks' as [?|(ks & Hpk & Hk0)]; [by left|]. right. exists ks. split; [done|]. split; [by destruct done as [|? ?]|]. by right.
Qed.

(** What [slice_parts_ok] says; the proofs below use it. *)
Lemma slice_parts_spec s recs : (0 < avg_size s < 2 ^ 31)%Z → Forall rec_ok recs →
  ∃ keys, slice_parts s recs status_Reset = Some (keys, Z.of_nat (length (filter (λ r, r.2 ≠ 0%Z) recs))) ∧ sum_post keys = sum_sizes recs ∧
    (∀ b rest, reverse keys = b :: rest → (0 < ci_post_update_size_ b)%Z ∧ ∀ x, x ∈ rest → full s x) ∧ (keys = [] ∨ ∃ ks, part_keys s recs keys ks).
Proof.
  intros Ha Hr. unfold slice_parts. cbn [resume_post status_Reset paused_slice_ paused_slice_rec_cnt_ paused_split_keys_ mbind option_bind].
  destruct (subslices_reading s recs Ha Hr [] [] 0 0 (fst <$> head recs)) as (keys & post & sk & -> & [Hp Hsum Hfull Hks]).
  { split; [lia|done|by intros b ?%not_elem_of_nil|by left]. }
  cbn [mbind option_bind close_parts app] in *. rewrite Z.add_0_l. destruct (decide (0 < post)%Z) as [Hpos|Hz].
  - assert (∃ ks0, keys = [] ∨ (part_keys s recs keys ks0 ∧ ∃ k0, sk = Some k0 ∧ ks0 ++ [k0] `sublist_of` tail recs.*1)) as [ks0 Hks0].
    { destruct Hks as [?|(ks & Hpk & _ & [[? _]|Hk])]; [exists []; by left|lia|exists ks; by right]. }
    destruct (update_reading s recs keys sk post ks0 Hfull Hks0) as (keys' & b & ks' & -> & -> & Hb & Hpk). cbn [mbind option_bind]. eexists. split; [done|]. split_and!.
    + rewrite sum_post_app, <- Hsum. unfold sum_post. cbn. lia.
    + intros x rest. rewrite reverse_app. cbn. intros [= <- <-]. split; [lia|]. intros z Hz. apply Hfull. by apply elem_of_reverse.
    + right. by exists ks'.
  - exists keys. split; [done|]. split_and!; [lia| |destruct Hks as [?|(ks & ? & _)]; [by left|right; by exists ks]].
    intros b rest E. assert (∀ x, x ∈ b :: rest → full s x) as Hx by (rewrite <- E; intros z Hz0; apply Hfull; by apply elem_of_reverse). split; [|intros; apply Hx; by right].
    specialize (Hx b (list_elem_of_here _ _)). unfold full in Hx. lia.
Qed.

(** C29: The parts of a slice: they start at the start of the slice and at keys of its records, in
    order; all but the last one have at least the average size; their sizes add up to those of the
    records. *)
Theorem slice_parts_ok s recs : (0 < avg_size s < 2 ^ 31)%Z → Forall rec_ok recs →
  ∃ keys, slice_parts s recs status_Reset = Some (keys, Z.of_nat (length (filter (λ r, r.2 ≠ 0%Z) recs))) ∧ sum_post keys = sum_sizes recs ∧
    (∀ b rest, reverse keys = b :: rest → (0 < ci_post_update_size_ b)%Z ∧ ∀ x, x ∈ rest → full s x) ∧ (keys = [] ∨ ∃ ks, part_keys s recs keys ks).
Proof. apply slice_parts_spec. Qed.

(** ** Cutting slices of the range *)

Lemma FindSlice_in rg end_key key i s : range_ok rg end_key → key_le (range_start_key_ rg) key → key_less key end_key → slices_ rg !! i = Some s → contains s key → FindSlice rg key = Some s.
Proof.
  intros Hok H1 H2 Hs Hc. destruct (FindSlice_ok rg end_key key Hok H1 H2) as (s0 & j & -> & Hj & _ & Hu). specialize (Hu i s Hs Hc) as ->. congruence.
Qed.

(** The slices that are not cut are found as before. *)
Lemma FindSlice_split rg rg' end_key i s ks key : range_ok rg end_key → range_ok rg' end_key → slices_ rg !! i = Some s → slice_split rg rg' i s ks →
  key_le (range_start_key_ rg) key → key_less key end_key → ¬ contains s key → FindSlice rg' key = FindSlice rg key.
Proof.
  intros Hok Hok' Hs [[Hst _] _ (s' & subs & Ess & _)] H1 H2 Hn. destruct (FindSlice_ok rg end_key key Hok H1 H2) as (s0 & j & -> & Hj & Hc & _).
  assert (∃ j', slices_ rg' !! j' = Some s0) as [j' Hj'].
  { apply list_elem_of_lookup. rewrite Ess. rewrite <- (take_drop_middle (slices_ rg) i s Hs) in Hj. apply list_elem_of_lookup_2, elem_of_app in Hj as [Hj|[->|Hj]%elem_of_cons]; [set_solver|done|set_solver]. }
  apply (FindSlice_in rg' end_key key j'); [done|by rewrite Hst|done..].
Qed.

Definition ready s : Prop := to_alter_ s = false ∧ (0 < avg_size s < 2 ^ 31)%Z.

Lemma cut_slice_ok rg end_key i s recs : range_ok rg end_key → slices_ rg !! i = Some s → ready s → Forall rec_ok recs → scanned s recs.*1 →
  ∃ keys cnt rg', slice_parts s recs status_Reset = Some (keys, cnt) ∧ cut_slice rg s keys = Some rg' ∧ range_ok rg' end_key ∧
    (range_start_key_ rg' = range_start_key_ rg ∧ range_end_key_ rg' = range_end_key_ rg) ∧ boundary_keys_ rg `sublist_of` boundary_keys_ rg' ∧
    (∀ b, b ∈ boundary_keys_ rg' → b ∈ boundary_keys_ rg ∨ b ∈ recs.*1) ∧
    ∀ key, key_le (range_start_key_ rg) key → key_less key end_key → ¬ contains s key → FindSlice rg' key = FindSlice rg key.
Proof.
  intros Hok Hs [Hal Ha] Hr Hsc. destruct (slice_parts_spec s recs Ha Hr) as (keys & E & _ & _ & Hkeys). exists keys. eexists. unfold cut_slice.
  assert (∃ rg' : StoreRange K, Some rg = Some rg' ∧ range_ok rg' end_key ∧ (range_start_key_ rg' = range_start_key_ rg ∧ range_end_key_ rg' = range_end_key_ rg) ∧ boundary_keys_ rg `sublist_of` boundary_keys_ rg' ∧
    (∀ b, b ∈ boundary_keys_ rg' → b ∈ boundary_keys_ rg ∨ b ∈ recs.*1) ∧ ∀ key, key_le (range_start_key_ rg) key → key_less key end_key → ¬ contains s key → FindSlice rg' key = FindSlice rg key) as Hsame.
  { exists rg. split_and!; try done. intros b Hb. by left. }
  destruct (decide (1 < length keys)) as [Hlen|_]; [|destruct Hsame as (rg' & ?); exists rg'; split; [done|done]]. clear Hsame.
  destruct Hkeys as [->|(ks & [(first & infos & -> & Hf & Hks) Hsub _])]; [cbn in Hlen; lia|].
  assert (inside s ks) as Hin by (eapply scanned_inside; [exact Hsc|]; by destruct recs). assert (ks ≠ []) as Hne by (intros ->; destruct infos; [cbn in Hlen; lia|done]).
  unfold alter_slice. rewrite Hal. destruct (UpdateSlice_ok cores rg end_key i s first infos ks Hok Hs Hne Hks Hin) as (rg' & E' & Hok' & Hsp). exists rg'. split; [done|]. split; [done|]. split; [done|]. pose proof Hsp as [Hse Hb _].
  split; [done|]. split; [by eapply slice_split_sublist|]. split.
  - rewrite Hb. intros b [Hb'|[Hb'|Hb']%elem_of_app]%elem_of_app; [left; by apply (subseteq_take i)|right|left; by apply (subseteq_drop i)].
    assert (b ∈ tail recs.*1) as Hb2 by (eapply elem_of_submseteq; [exact Hb'|]; by apply sublist_submseteq). destruct recs; [by apply not_elem_of_nil in Hb2|by right].
  - intros key H1 H2 Hn. by eapply FindSlice_split.
Qed.

(** ** The records of a slice *)

Lemma slice_end_ok rg end_key i s k size recs : range_ok rg end_key → range_end_key_ rg = Some end_key → slices_ rg !! i = Some s → StronglySorted key_lt ((k, size) :: recs).*1 →
  (∀ r, r ∈ (k, size) :: recs → key_less (Ordinary r.1) end_key) → contains s (Ordinary k) →
  let n := slice_end rg s ((k, size) :: recs) in 0 < n ≤ S (length recs) ∧ (∀ r, r ∈ take n ((k, size) :: recs) → contains s (Ordinary r.1)) ∧
  (∀ r, r ∈ drop n ((k, size) :: recs) → key_le (sl_end_key_ s) (Ordinary r.1)).
Proof.
  intros Hok He Hs Hso Hin [Hc1 Hc2]. set (all := (k, size) :: recs) in *. assert (∀ r, r ∈ all → key_le (sl_start_key_ s) (Ordinary r.1)) as Hlo.
  { intros r Hr. cbn in Hso. apply StronglySorted_inv in Hso as [_ Hk]. rewrite Forall_forall in Hk. apply elem_of_cons in Hr as [->|Hr]; [done|]. eapply key_le_trans; [exact Hc1|].
    apply key_less_weaken, search_lt_ordinary, Hk. by apply list_elem_of_fmap_2. }
  unfold slice_end. destruct (decide (Some (sl_end_key_ s) = range_end_key_ rg)) as [E|E].
  - rewrite He in E. injection E as E. cbn zeta. split; [cbn; lia|]. rewrite take_ge, drop_ge by lia. split; [|by intros r ?%not_elem_of_nil]. intros r Hr. split; [by apply Hlo|]. rewrite E. by apply Hin.
  - destruct (partition_point_spec (λ r : K * Z, search_lt (Ordinary r.1) (sl_end_key_ s) = true) all) as (l1 & l2 & El & Hl & H1 & H2). rewrite <- Hl. cbn zeta. rewrite Forall_forall in H1.
    assert (length l1 ≤ length all) as Hle by (rewrite El, length_app; lia). split; [|rewrite El, take_app_length, drop_app_length; split].
    + split; [|done]. destruct l1 as [|r l1]; [|cbn; lia]. exfalso. cbn in El. subst l2. by apply (H2 (k, size)).
    + intros r Hr. split; [apply Hlo; rewrite El; set_solver|by apply H1].
    + intros r Hr. destruct l2 as [|r0 l2]; [by apply not_elem_of_nil in Hr|]. specialize (H2 r0 eq_refl). apply key_le_not in H2. rewrite El, fmap_app in Hso. apply StronglySorted_app in Hso as (_ & _ & Hso).
      apply elem_of_cons in Hr as [->|Hr]; [done|]. eapply key_le_trans; [exact H2|]. cbn in Hso. apply StronglySorted_inv in Hso as [_ Hk]. rewrite Forall_forall in Hk. apply key_less_weaken, search_lt_ordinary, Hk. by apply list_elem_of_fmap_2.
Qed.

(** ** The records of a range *)

(** A batch of records: sorted, in the range, and the slices that will be cut are not being altered and
    their sizes are in bounds. *)
Record batch_ok rg (end_key : SearchKey K) recs : Prop := {
  bo_range : range_ok rg end_key;
  bo_end : range_end_key_ rg = Some end_key;
  bo_sorted : StronglySorted key_lt recs.*1;
  bo_sizes : Forall rec_ok recs;
  bo_inside r : r ∈ recs → key_le (range_start_key_ rg) (Ordinary r.1) ∧ key_less (Ordinary r.1) end_key;
  bo_ready r s : r ∈ recs → FindSlice rg (Ordinary r.1) = Some s → small_slice s = false → ready s;
}.

(** The last record counts, so that a part is known when the batch ends. *)
Definition ends_ok recs : Prop := ∃ k size, last recs = Some (k, size) ∧ (0 < size)%Z.

(** A paused slice has the parts of its records so far, which come before those that follow. *)
Definition paused_ok rg status recs : Prop :=
  status = status_Reset ∨ ∃ i s old cnt keys, slices_ rg !! i = Some s ∧ status = mkStatus (Some (sl_start_key_ s)) cnt keys ∧ small_slice s = false ∧ ready s ∧
    scanned s old.*1 ∧ Forall rec_ok old ∧ ends_ok old ∧ slice_parts s old status_Reset = Some (keys, cnt) ∧ StronglySorted key_lt (old.*1 ++ recs.*1).

(** Two ranges in which the records find the same slices. *)
Record same_slices rg rg' (end_key : SearchKey K) recs : Prop := {
  ss_range : range_ok rg' end_key;
  ss_keys : range_start_key_ rg' = range_start_key_ rg ∧ range_end_key_ rg' = range_end_key_ rg;
  ss_bounds : boundary_keys_ rg `sublist_of` boundary_keys_ rg';
  ss_find r : r ∈ recs → FindSlice rg' (Ordinary r.1) = FindSlice rg (Ordinary r.1);
}.

Lemma same_slices_refl rg end_key recs : range_ok rg end_key → same_slices rg rg end_key recs.
Proof. by split. Qed.
Lemma batch_ok_same rg rg' end_key recs recs' : batch_ok rg end_key recs → same_slices rg rg' end_key recs' → recs' `sublist_of` recs → batch_ok rg' end_key recs'.
Proof.
  intros [H1 H2 H3 H4 H5 H6] [S1 [S2 S3] _ S4] Hsub. assert (∀ r, r ∈ recs' → r ∈ recs) as Hin by (intros r Hr; eapply elem_of_submseteq; [exact Hr|by apply sublist_submseteq]).
  split; [done|congruence|eapply sorted_sublist; [|exact H3]; by apply sublist_fmap|rewrite Forall_forall in *; auto|rewrite S2; auto|]. intros r s Hr. rewrite S4 by done. eauto.
Qed.

(** The slice of a record. *)
Lemma record_slice rg end_key recs r : batch_ok rg end_key recs → r ∈ recs → ∃ s i, FindSlice rg (Ordinary r.1) = Some s ∧ slices_ rg !! i = Some s ∧ contains s (Ordinary r.1) ∧
  ∀ j s', slices_ rg !! j = Some s' → contains s' (Ordinary r.1) → j = i.
Proof. intros [H1 _ _ _ H5 _] Hr. destruct (H5 r Hr) as [Hlo Hhi]. by apply (FindSlice_ok rg end_key). Qed.

Lemma slice_by_start_ok rg end_key i s : range_ok rg end_key → slices_ rg !! i = Some s → slice_by_start rg (sl_start_key_ s) = Some s.
Proof. intros Hok Hs. unfold slice_by_start. by rewrite (SearchSlice_slice rg end_key i s Hok Hs). Qed.

(** The records that follow those of a slice, and are not all in it, are all behind it. *)
Lemma records_behind s (old : list (K * Z)) (r : K * Z) recs : scanned s old.*1 → old ≠ [] → StronglySorted key_lt (old.*1 ++ (r :: recs).*1) → ¬ contains s (Ordinary r.1) → ∀ r', r' ∈ r :: recs → ¬ contains s (Ordinary r'.1).
Proof.
  intros [_ Hc] Hne (H12 & _ & Hs)%StronglySorted_app Hn r' Hr'. destruct old as [|o old]; [done|]. destruct (Hc o.1) as [Ho _]; [by left|].
  assert (key_le (sl_end_key_ s) (Ordinary r.1)) as He.
  { apply key_le_not. intros Hlt. apply Hn. split; [|done]. eapply key_le_trans; [exact Ho|]. apply key_less_weaken, search_lt_ordinary, H12; by left. }
  intros [_ Hlt]. apply (key_le_not (Ordinary r'.1) (sl_end_key_ s)); [|done]. eapply key_le_trans; [exact He|]. apply elem_of_cons in Hr' as [->|Hr']; [apply key_le_not, key_less_irrefl|].
  cbn in Hs. apply StronglySorted_inv in Hs as [_ Hk]. rewrite Forall_forall in Hk. apply key_less_weaken, search_lt_ordinary, Hk. by apply list_elem_of_fmap_2.
Qed.

(** A paused slice is continued, or it is complete and is cut. *)
Lemma finish_paused_ok rg end_key base r recs status i s : batch_ok rg end_key (r :: recs) → paused_ok rg status (r :: recs) → slices_ rg !! i = Some s → contains s (Ordinary r.1) →
  ∃ rg1 status1 est, finish_paused rg base status s = Some (rg1, status1, est) ∧ same_slices rg rg1 end_key (r :: recs) ∧
    (status1 = status_Reset ∨ (rg1 = rg ∧ status1 = status ∧ paused_slice_ status = Some (sl_start_key_ s))).
Proof.
  intros Hb Hp Hs Hc. pose proof Hb as [Hok He Hso Hsz Hin Hrd]. destruct Hp as [->|(j & p & old & cnt & keys & Hj & -> & Hsm & Hpr & Hsc & Hro & Hend & Hparts & Hsorted)].
  { exists rg, status_Reset, []. split; [done|]. split; [by apply same_slices_refl|by left]. }
  unfold finish_paused. cbn [paused_slice_ paused_slice_rec_cnt_ paused_split_keys_]. destruct (decide _) as [E|E].
  { eexists _, _, _. split; [done|]. split; [by apply same_slices_refl|right; by rewrite E]. }
  rewrite (slice_by_start_ok rg end_key j p Hok Hj). cbn [mbind option_bind]. destruct (cut_slice_ok rg end_key j p old Hok Hj Hpr Hro Hsc) as (keys' & cnt' & rg' & E1 & E2 & Hok' & Hse & Hbd & _ & Hfind).
  rewrite Hparts in E1. injection E1 as <- <-. rewrite E2. cbn [mbind option_bind]. eexists _, _, _. split; [done|]. split; [|by left]. split; [done|done|done|].
  intros r' Hr'. destruct (Hin r' Hr') as [Hlo Hhi]. apply Hfind; [done|done|]. eapply records_behind; [exact Hsc|by destruct Hend as (? & ? & ? & _), old|exact Hsorted| |done].
  intros Hcp. destruct (record_slice _ _ _ r Hb (list_elem_of_here _ _)) as (s0 & i0 & _ & _ & _ & Hu). rewrite (Hu i s Hs Hc) in Hs. rewrite (Hu j p Hj Hcp) in Hj. congruence.
Qed.

(** *** One slice *)

(** What the status says about the slice: the records of it that came before. *)
Definition resumed s status (old : list (K * Z)) : Prop :=
  (old = [] ∧ status = status_Reset) ∨
  (scanned s old.*1 ∧ Forall rec_ok old ∧ ends_ok old ∧ small_slice s = false ∧ ready s ∧
   ∃ cnt keys, status = mkStatus (Some (sl_start_key_ s)) cnt keys ∧ slice_parts s old status_Reset = Some (keys, cnt)).

Lemma resumed_parts s status old recs : resumed s status old → Forall rec_ok recs → recs ≠ [] → slice_parts s recs status = slice_parts s (old ++ recs) status_Reset.
Proof.
  intros [[-> ->]|(Hsc & Hro & (k & size & Hl & Hpos) & _ & [_ Ha] & cnt & keys & -> & E)] Hr Hne; [done|].
  rewrite (slice_parts_app s old recs status_Reset k size (sl_start_key_ s)); [by rewrite E|done..|]. cbn. intros post [= <-]. lia.
Qed.

Lemma ends_ok_app old recs : ends_ok recs → ends_ok (old ++ recs).
Proof. intros (k & size & Hl & Hp). exists k, size. split; [|done]. apply last_Some in Hl as [l ->]. by rewrite app_assoc, last_snoc. Qed.

Lemma update_slice_ok rg end_key base (exported : bool) i s recs status old : range_ok rg end_key → slices_ rg !! i = Some s → resumed s status old → (small_slice s = false → ready s) →
  recs ≠ [] → scanned s (old ++ recs).*1 → Forall rec_ok recs → (exported = true ∨ ends_ok recs) →
  ∃ rg2 status2 est, update_slice rg base exported s recs status = Some (rg2, status2, est) ∧
    if exported then status2 = status_Reset ∧ (range_start_key_ rg2 = range_start_key_ rg ∧ range_end_key_ rg2 = range_end_key_ rg) ∧ range_ok rg2 end_key ∧ boundary_keys_ rg `sublist_of` boundary_keys_ rg2 ∧
      ∀ key, key_le (range_start_key_ rg) key → key_less key end_key → ¬ contains s key → FindSlice rg2 key = FindSlice rg key
    else rg2 = rg ∧ resumed s status2 (if small_slice s then [] else old ++ recs).
Proof.
  intros Hok Hs Hres Hrdy Hne Hsc Hr Hend. unfold update_slice. destruct (small_slice s) eqn:Esm.
  - destruct Hres as [[-> ->]|(_ & _ & _ & ? & _)]; [|congruence]. cbn [paused_slice_ status_Reset]. eexists _, _, _. split; [done|]. destruct exported; [done|]. split; [done|by left].
  - specialize (Hrdy eq_refl). rewrite (resumed_parts s status old recs Hres Hr Hne).
    assert (Forall rec_ok (old ++ recs)) as Hro by (apply Forall_app; split; [|done]; by destruct Hres as [[-> _]|(_ & ? & _)]).
    destruct (cut_slice_ok rg end_key i s (old ++ recs) Hok Hs Hrdy Hro Hsc) as (keys & cnt & rg' & Ep & E & Hok' & Hse & Hb & _ & Hf). rewrite Ep. cbn [mbind option_bind]. destruct exported.
    + rewrite E. cbn [mbind option_bind]. eexists _, _, _. split; [done|]. split; [|done]. by destruct Hres as [[_ ->]|(_ & _ & _ & _ & _ & ? & ? & -> & _)].
    + eexists _, _, _. split; [done|]. split; [done|]. right. destruct Hend as [?|Hend]; [done|]. split_and!; [done|done|by apply ends_ok_app|done|done|]. eexists _, _. split; [done|]. exact Ep.
Qed.

(** *** One round of the loop *)

Record round_ok rg end_key (base exported : bool) r recs future status (s : StoreSlice K) (n : nat) rg1 status1 est1 rg2 status2 est2 : Prop := {
  ro_find : FindSlice rg (Ordinary r.1) = Some s;
  ro_end : slice_end rg s (r :: recs) = n ∧ slice_end rg1 s (r :: recs) = n ∧ 0 < n ≤ S (length recs);
  ro_contains r' : r' ∈ take n (r :: recs) → contains s (Ordinary r'.1);
  ro_behind r' : r' ∈ drop n (r :: recs) → key_le (sl_end_key_ s) (Ordinary r'.1);
  ro_finish : finish_paused rg base status s = Some (rg1, status1, est1);
  ro_same1 : same_slices rg rg1 end_key ((r :: recs) ++ future);
  ro_resumed : ∃ old, resumed s status1 old ∧ StronglySorted key_lt (old.*1 ++ ((r :: recs) ++ future).*1);
  ro_update : update_slice rg1 base (bool_decide (n < length (r :: recs)) || exported) s (take n (r :: recs)) status1 = Some (rg2, status2, est2);
  ro_same2 : same_slices rg1 rg2 end_key (drop n (r :: recs) ++ future);
  ro_paused : paused_ok rg2 status2 (drop n (r :: recs) ++ future);
  ro_reset : bool_decide (n < length (r :: recs)) || exported = true → status2 = status_Reset;
}.

Lemma sublist_batch rg end_key recs recs' : batch_ok rg end_key recs → recs' `sublist_of` recs → batch_ok rg end_key recs'.
Proof. intros Hb Hsub. eapply batch_ok_same; [exact Hb| |done]. apply same_slices_refl, Hb. Qed.

(** The status after [finish_paused]. *)
Lemma resumed_status rg end_key i s status status1 recs : range_ok rg end_key → slices_ rg !! i = Some s → paused_ok rg status recs → (status1 = status_Reset ∨ (status1 = status ∧ paused_slice_ status = Some (sl_start_key_ s))) →
  StronglySorted key_lt recs.*1 → ∃ old, resumed s status1 old ∧ StronglySorted key_lt (old.*1 ++ recs.*1).
Proof.
  intros Hok Hs Hp [->|[-> Hst]] Hso; [exists []; split; [by left|done]|]. destruct Hp as [->|(j & p & old & cnt & keys & Hj & -> & Hsm & Hpr & Hsc & Hro & Hend & Hparts & Hsorted)]; [done|].
  injection Hst as Hst. pose proof (SearchSlice_slice rg end_key i s Hok Hs) as E1. pose proof (SearchSlice_slice rg end_key j p Hok Hj) as E2. rewrite Hst, E1 in E2. injection E2 as ->. rewrite Hs in Hj. injection Hj as ->.
  exists old. split; [|done]. right. split_and!; try done. by eexists _, _.
Qed.

Lemma resumed_paused rg i s status old recs : slices_ rg !! i = Some s → resumed s status old → StronglySorted key_lt (old.*1 ++ recs.*1) → paused_ok rg status recs.
Proof.
  intros Hs [[_ ->]|(H1 & H2 & H3 & H4 & H5 & cnt & keys & -> & H6)] Hso; [by left|]. right. exists i, s, old, cnt, keys. done.
Qed.

(** The records behind the slice, those of later batches included. *)
Lemma behind_all s (b rest future : list (K * Z)) r0 : StronglySorted key_lt ((b ++ rest) ++ future).*1 → r0 ∈ rest → (∀ r, r ∈ rest → key_le (sl_end_key_ s) (Ordinary r.1)) → ∀ r, r ∈ rest ++ future → ¬ contains s (Ordinary r.1).
Proof.
  intros Hso H0 Hb r Hr [_ Hlt]. apply (key_le_not (Ordinary r.1) (sl_end_key_ s)); [|done]. apply elem_of_app in Hr as [Hr|Hr]; [by apply Hb|]. eapply key_le_trans; [by apply (Hb r0)|].
  rewrite fmap_app in Hso. apply StronglySorted_app in Hso as (H12 & _). apply key_less_weaken, search_lt_ordinary, H12; apply list_elem_of_fmap_2; [set_solver|done].
Qed.

Lemma one_round rg end_key base (exported : bool) r recs future status : batch_ok rg end_key ((r :: recs) ++ future) → paused_ok rg status ((r :: recs) ++ future) → (exported = true → future = []) →
  (exported = true ∨ ends_ok (r :: recs)) → ∃ s n rg1 status1 est1 rg2 status2 est2, round_ok rg end_key base exported r recs future status s n rg1 status1 est1 rg2 status2 est2.
Proof.
  intros Hb Hp Hfut Hend. destruct (record_slice _ _ _ r Hb (list_elem_of_here _ _)) as (s & i & Hfind & Hs & Hc & Hu).
  destruct (finish_paused_ok rg end_key base r (recs ++ future) status i s Hb Hp Hs Hc) as (rg1 & status1 & est1 & Hfin & Hsame & Hst1).
  pose proof Hb as [Hok He Hso Hsz Hin Hrd]. assert (batch_ok rg1 end_key ((r :: recs) ++ future)) as Hb1 by (by eapply batch_ok_same).
  assert (FindSlice rg1 (Ordinary r.1) = Some s) as Hfind1 by (destruct Hsame as [_ _ _ Hf]; rewrite Hf by (by left); done).
  destruct (record_slice _ _ _ r Hb1 (list_elem_of_here _ _)) as (s' & i1 & Hf' & Hs1 & _ & _). rewrite Hfind1 in Hf'. injection Hf' as <-.
  destruct (resumed_status rg end_key i s status status1 ((r :: recs) ++ future) Hok Hs Hp) as (old & Hres & Hsorted); [naive_solver|done|].
  destruct r as [k size]. assert (StronglySorted key_lt ((k, size) :: recs).*1) as Hso0 by (rewrite fmap_app in Hso; by apply StronglySorted_app in Hso as (_ & ? & _)).
  destruct (slice_end_ok rg end_key i s k size recs Hok He Hs Hso0) as (Hn & Htake & Hdrop); [intros r' Hr'; apply Hin; by apply elem_of_app; left|done|].
  set (n := slice_end rg s ((k, size) :: recs)) in *. set (all := (k, size) :: recs) in *. change (S (length recs)) with (length all) in Hn. set (ex := bool_decide (n < length all) || exported).
  assert (slice_end rg1 s all = n) as Hn1 by (unfold n, slice_end; destruct Hsame as [_ [_ ->] _ _]; done).
  assert (scanned s (old ++ take n all).*1) as Hsc.
  { split.
    - eapply sorted_sublist; [|exact Hsorted]. rewrite fmap_app. apply sublist_app; [done|]. apply sublist_fmap, sublist_inserts_r, sublist_take.
    - intros x Hx. rewrite fmap_app in Hx. apply elem_of_app in Hx as [Hx|(r' & -> & Hr')%list_elem_of_fmap]; [|by apply Htake]. destruct Hres as [[-> _]|([_ Hsc] & _)]; [by apply not_elem_of_nil in Hx|by apply Hsc]. }
  destruct (update_slice_ok rg1 end_key base ex i1 s (take n all) status1 old) as (rg2 & status2 & est2 & Hup & Hcase); [by destruct Hsame|done|done| | |done| | |].
  { intros Hsm. apply (Hrd (k, size)); [by left|done|done]. }
  { unfold all. destruct n; [lia|done]. }
  { apply Forall_take. unfold all. by apply Forall_app in Hsz as [? _]. }
  { unfold ex. destruct (bool_decide_reflect (n < length all)) as [|Hge]; [by left|]. destruct exported; [by left|]. right. rewrite take_ge by lia. by destruct Hend. }
  exists s, n, rg1, status1, est1, rg2, status2, est2. assert (∃ r0, ex = true → drop n all ++ future ≠ [] → r0 ∈ drop n all) as [r0 Hr0].
  { exists (default (k, size) (head (drop n all))). unfold ex. intros Hex Hne. destruct (drop n all) as [|r0 rest] eqn:Ed; [|by left]. exfalso.
    assert (length (drop n all) = 0) as Hl by by rewrite Ed. rewrite length_drop in Hl. rewrite bool_decide_eq_false_2 in Hex by lia. cbn in Hex. by rewrite (Hfut Hex) in Hne. }
  assert (ex = true → ∀ r, r ∈ drop n all ++ future → ¬ contains s (Ordinary r.1)) as Hbeh.
  { intros Hex r Hr. eapply (behind_all s (take n all)); [by rewrite take_drop| |exact Hdrop|exact Hr]. apply Hr0; [done|]. intros E. rewrite E in Hr. by apply not_elem_of_nil in Hr. }
  split; try done; [by exists old| | |].
  - destruct ex; [|destruct Hcase as [-> _]; by apply same_slices_refl, Hsame]. destruct Hcase as (_ & Hse & Hok2 & Hbd & Hf). split; [done|done|done|]. intros r Hr. destruct Hsame as [_ [Hst _] _ _].
    destruct (Hin r) as [Hlo Hhi]; [|apply Hf; [by rewrite Hst|done|by apply Hbeh]]. apply elem_of_app in Hr as [Hr|Hr]; apply elem_of_app; [left; by apply (subseteq_drop n)|by right].
  - destruct ex eqn:Eex; [destruct Hcase as [-> _]; by left|]. destruct Hcase as [-> Hres2]. assert (length all ≤ n) as Hge by (unfold ex in Eex; destruct (bool_decide_reflect (n < length all)); [done|lia]).
    rewrite take_ge in Hres2 by lia. change (drop n ((k, size) :: recs)) with (drop n all); rewrite (drop_ge all n) by lia. eapply resumed_paused; [exact Hs1|exact Hres2|]. destruct (small_slice s); [rewrite fmap_app in Hso; by apply StronglySorted_app in Hso as (_ & _ & ?)|].
    by rewrite fmap_app, <- app_assoc, <- fmap_app.
  - intros Hex. change (ex = true) in Hex. rewrite Hex in Hcase. apply Hcase.
Qed.

(** *** All slices *)

Lemma update_slices_round rg end_key base exported r recs future status s n rg1 status1 est1 rg2 status2 est2 fuel : round_ok rg end_key base exported r recs future status s n rg1 status1 est1 rg2 status2 est2 →
  update_slices (S fuel) rg base exported (r :: recs) status =
    ('(rg3, status3, est3) ← update_slices fuel rg2 base exported (drop n (r :: recs)) status2; Some (rg3, status3, est1 ++ est2 ++ est3)).
Proof.
  intros [H1 [H2 _] _ _ H4 _ _ H6 _ _ _]. destruct r as [k size]. cbn [update_slices]. cbn [fst] in H1. rewrite H1. cbn [mbind option_bind]. rewrite H4. cbn [mbind option_bind]. rewrite H2, H6. done.
Qed.

Lemma same_slices_trans rg rg1 rg2 end_key recs recs' : same_slices rg rg1 end_key recs → same_slices rg1 rg2 end_key recs' → (∀ r, r ∈ recs' → r ∈ recs) → same_slices rg rg2 end_key recs'.
Proof.
  intros [A1 [A2 A3] A4 A5] [B1 [B2 B3] B4 B5] Hin. split; [done|split; congruence|by etrans|]. intros r Hr. rewrite B5 by done. by apply A5, Hin.
Qed.

Lemma same_slices_sub rg rg' end_key recs recs' : same_slices rg rg' end_key recs → (∀ r, r ∈ recs' → r ∈ recs) → same_slices rg rg' end_key recs'.
Proof. intros [A1 A2 A3 A4] Hin. split; [done|done|done|auto]. Qed.

Lemma ends_ok_drop n recs : ends_ok recs → n < length recs → ends_ok (drop n recs).
Proof.
  intros (k & size & Hl & Hp) Hn. exists k, size. split; [|done]. rewrite last_lookup in *. rewrite lookup_drop, length_drop, <- Hl. f_equal. lia.
Qed.

Lemma round_batch rg end_key base exported r recs future status s n rg1 status1 est1 rg2 status2 est2 : batch_ok rg end_key ((r :: recs) ++ future) →
  round_ok rg end_key base exported r recs future status s n rg1 status1 est1 rg2 status2 est2 → batch_ok rg2 end_key (drop n (r :: recs) ++ future).
Proof.
  intros Hb [_ _ _ _ _ H1 _ _ H2 _ _]. eapply (batch_ok_same rg1); [eapply batch_ok_same; [exact Hb|exact H1|done]|exact H2|]. apply sublist_app; [apply sublist_drop|done].
Qed.

Lemma update_slices_ok fuel end_key base exported future : (exported = true → future = []) → ∀ recs rg status, length recs ≤ fuel → batch_ok rg end_key (recs ++ future) → paused_ok rg status (recs ++ future) →
  (exported = true ∨ recs = [] ∨ ends_ok recs) →
  ∃ rg' status' est, update_slices fuel rg base exported recs status = Some (rg', status', est) ∧ same_slices rg rg' end_key future ∧ paused_ok rg' status' future ∧ (recs ≠ [] → exported = true → status' = status_Reset).
Proof.
  intros Hfut. induction fuel as [|fuel IH]; intros recs rg status Hlen Hb Hp Hend.
  - destruct recs; [|cbn in Hlen; lia]. eexists _, _, _. split; [done|]. split; [apply same_slices_refl, Hb|done].
  - destruct recs as [|r recs]; [eexists _, _, _; split; [done|]; split; [apply same_slices_refl, Hb|done]|].
    destruct (one_round rg end_key base exported r recs future status Hb Hp Hfut) as (s & n & rg1 & status1 & est1 & rg2 & status2 & est2 & Hround); [naive_solver|].
    rewrite (update_slices_round _ _ _ _ _ _ _ _ _ _ _ _ _ _ _ _ fuel Hround). pose proof (round_batch _ _ _ _ _ _ _ _ _ _ _ _ _ _ _ _ Hb Hround) as Hb2. destruct Hround as [_ (_ & _ & Hn) _ _ _ Hs1 _ _ Hs2 Hp2 Hreset].
    destruct (IH (drop n (r :: recs)) rg2 status2) as (rg' & status' & est' & E3 & Hs3 & Hp3 & Hre).
    + rewrite length_drop. cbn in Hlen |- *. lia.
    + done.
    + done.
    + destruct Hend as [?|[?|Hend]]; [by left|done|]. destruct (decide (n < length (r :: recs))); [right; right; by apply ends_ok_drop|]. right; left. apply drop_ge. cbn in *. lia.
    + rewrite E3. cbn [mbind option_bind]. eexists _, _, _. split; [done|]. split; [|split; [done|]].
      * eapply same_slices_trans; [eapply same_slices_trans; [exact Hs1|eapply same_slices_sub; [exact Hs2|]|]|exact Hs3|]; [intros x Hx; apply elem_of_app; right; exact Hx|intros x Hx; apply elem_of_app; by right|done].
      * intros _ Hex. destruct (decide (drop n (r :: recs) = [])) as [E|E]; [|by apply Hre]. rewrite E in E3. assert (status' = status2) as -> by (destruct fuel; by injection E3). apply Hreset. rewrite Hex. apply orb_true_r.
Qed.

(** Enough fuel is enough. *)
Lemma update_slices_fuel end_key base exported future : (exported = true → future = []) → ∀ f1 f2 recs rg status, length recs ≤ f1 → length recs ≤ f2 → batch_ok rg end_key (recs ++ future) →
  paused_ok rg status (recs ++ future) → (exported = true ∨ recs = [] ∨ ends_ok recs) → update_slices f1 rg base exported recs status = update_slices f2 rg base exported recs status.
Proof.
  intros Hfut. induction f1 as [|f1 IH]; intros f2 recs rg status Hl1 Hl2 Hb Hp Hend.
  { destruct recs; [by destruct f2|cbn in Hl1; lia]. }
  destruct recs as [|r recs]; [by destruct f2|]. destruct f2 as [|f2]; [cbn in Hl2; lia|].
  destruct (one_round rg end_key base exported r recs future status Hb Hp Hfut) as (s & n & rg1 & status1 & est1 & rg2 & status2 & est2 & Hround); [naive_solver|].
  rewrite !(update_slices_round _ _ _ _ _ _ _ _ _ _ _ _ _ _ _ _ _ Hround). pose proof (round_batch _ _ _ _ _ _ _ _ _ _ _ _ _ _ _ _ Hb Hround) as Hb2. destruct Hround as [_ (_ & _ & Hn) _ _ _ _ _ _ _ Hp2 _].
  rewrite (IH f2); [done|rewrite length_drop; cbn in *; lia..|done|done|]. destruct Hend as [?|[?|Hend]]; [by left|done|].
  destruct (decide (n < length (r :: recs))); [right; right; by apply ends_ok_drop|]. right; left. apply drop_ge. cbn in *. lia.
Qed.

Lemma slice_end_app rg s l1 l2 : slice_end rg s (l1 ++ l2) = if decide (slice_end rg s l1 < length l1) then slice_end rg s l1 else length l1 + slice_end rg s l2.
Proof.
  unfold slice_end. destruct (decide (Some _ = _)); [rewrite decide_False by lia; apply length_app|].
  induction l1 as [|r l1 IH]; [done|]. cbn [app partition_point length]. destruct (decide (search_lt _ _ = true)); [|by rewrite decide_True by lia]. rewrite IH. repeat destruct (decide _); lia.
Qed.

Lemma update_slices_step fuel rg base exported r recs s rg1 status1 est1 status : FindSlice rg (Ordinary r.1) = Some s → finish_paused rg base status s = Some (rg1, status1, est1) →
  update_slices (S fuel) rg base exported (r :: recs) status =
    let n := slice_end rg s (r :: recs) in
    '(rg2, status2, est2) ← update_slice rg1 base (bool_decide (n < length (r :: recs)) || exported) s (take n (r :: recs)) status1;
    '(rg3, status3, est3) ← update_slices fuel rg2 base exported (drop n (r :: recs)) status2; Some (rg3, status3, est1 ++ est2 ++ est3).
Proof. destruct r as [k size]. cbn [fst]. intros H1 H2. cbn [update_slices]. rewrite H1. cbn [mbind option_bind]. rewrite H2. done. Qed.

Lemma slice_end_first rg end_key s q recs : range_end_key_ rg = Some end_key → key_less (Ordinary q.1) end_key → 0 < slice_end rg s (q :: recs) ↔ key_less (Ordinary q.1) (sl_end_key_ s).
Proof.
  intros He Hq. unfold slice_end. destruct (decide _) as [E|E]; [rewrite He in E; injection E as ->; cbn; split; [done|lia]|]. cbn. unfold key_less. destruct (decide _); split; [done|lia|lia|done].
Qed.
Lemma slice_end_le rg s recs : slice_end rg s recs ≤ length recs.
Proof.
  unfold slice_end. destruct (decide _); [done|]. destruct (partition_point_spec (λ r : K * Z, search_lt (Ordinary r.1) (sl_end_key_ s) = true) recs) as (l1 & l2 & E & <- & _). rewrite E, length_app. lia.
Qed.

(** A batch that ends inside a slice: cutting the slice at once, or after the pause. *)
Section pause.
Context rg (end_key : SearchKey K) (base : bool) (i : nat) s (old b1 : list (K * Z)) (q : K * Z) (b2 : list (K * Z)) status (fuel : nat).
Context (Hb : batch_ok rg end_key (q :: b2)) (Hs : slices_ rg !! i = Some s) (Hres : resumed s status old) (Hrdy : small_slice s = false → ready s).
Context (Hends : ends_ok b1) (Hr1 : Forall rec_ok b1) (Hsc : scanned s (old ++ b1).*1) (Hso : StronglySorted key_lt ((old ++ b1).*1 ++ (q :: b2).*1)) (Hfuel : length (q :: b2) ≤ fuel).
Let m := slice_end rg s (q :: b2).

Lemma first_behind : 0 < m ↔ contains s (Ordinary q.1).
Proof.
  destruct Hb as [_ He _ _ Hin _]. destruct (Hin q (list_elem_of_here _ _)) as [_ Hq]. unfold m. rewrite (slice_end_first rg end_key) by done. split; [|by intros [_ ?]]. intros Hlt. split; [|done].
  destruct Hsc as [_ Hc]. apply StronglySorted_app in Hso as (H12 & _). destruct Hends as (k & size & Hl & _). assert (k ∈ (old ++ b1).*1) as Hk.
  { rewrite fmap_app. apply elem_of_app. right. apply list_elem_of_fmap. exists (k, size). split; [done|by apply last_Some_elem_of]. }
  eapply key_le_trans; [apply (Hc k Hk)|]. apply key_less_weaken, search_lt_ordinary, H12; [done|by left].
Qed.

Lemma find_first : 0 < m → FindSlice rg (Ordinary q.1) = Some s.
Proof. intros Hm%first_behind. destruct Hb as [Hok _ _ _ Hin _]. destruct (Hin q (list_elem_of_here _ _)). by eapply FindSlice_in. Qed.

(** The rest of the slice is in the next batch. *)
Lemma pause_continued : 0 < m →
  ('(rg2, status2, est2) ← update_slice rg base true s (b1 ++ take m (q :: b2)) status; '(rg3, status3, est3) ← update_slices fuel rg2 base true (drop m (q :: b2)) status2; Some (rg3, status3, est2 ++ est3)) =
  ('(rg2, status2, est2) ← update_slice rg base false s b1 status; '(rg3, status3, est3) ← update_slices (S fuel) rg2 base true (q :: b2) status2; Some (rg3, status3, est2 ++ est3)).
Proof.
  intros Hm. pose proof (find_first Hm) as Hf. unfold update_slice at 1 2. destruct (small_slice s) eqn:Esm.
  - destruct Hres as [[-> ->]|(_ & _ & _ & ? & _)]; [|congruence]. cbn [paused_slice_ status_Reset mbind option_bind].
    rewrite (update_slices_step _ _ _ _ _ _ s rg status_Reset []); [|exact Hf|done]. cbv zeta. fold m. unfold update_slice. rewrite Esm. cbn [paused_slice_ status_Reset mbind option_bind]. by destruct (update_slices _ _ _ _ _ _) as [[[]]|].
  - rewrite (resumed_parts s status old b1 Hres Hr1) by (by destruct Hends as (? & ? & ? & _), b1).
    rewrite (resumed_parts s status old (b1 ++ take m (q :: b2)) Hres); [|apply Forall_app; split; [done|apply Forall_take, Hb]|by destruct b1, Hends as (? & ? & ? & _)].
    assert (Forall rec_ok (old ++ b1)) as Hro by (apply Forall_app; split; [|done]; by destruct Hres as [[-> _]|(_ & ? & _)]).
    destruct (slice_parts_spec s (old ++ b1)) as (keys & Ek & _); [by apply Hrdy|done|]. rewrite Ek. cbn [mbind option_bind]. set (cnt := Z.of_nat _) in *.
    set (st2 := mkStatus _ cnt keys). assert (resumed s st2 (old ++ b1)) as Hres2.
    { right. split_and!; [done|done|by apply ends_ok_app|done|by apply Hrdy|]. by exists cnt, keys. }
    rewrite (update_slices_step _ _ _ _ _ _ s rg st2 []); [|exact Hf|unfold finish_paused, st2; cbn; by rewrite decide_True].
    cbv zeta. fold m. rewrite orb_true_r. unfold update_slice. rewrite Esm. rewrite (resumed_parts s st2 (old ++ b1) (take m (q :: b2)) Hres2); [|apply Forall_take, Hb|by destruct m; [lia|]]. rewrite <- app_assoc.
    destruct (slice_parts s (old ++ b1 ++ take m (q :: b2)) status_Reset) as [[keys3 cnt3]|]; cbn [mbind option_bind]; [|done].
    destruct (cut_slice rg s keys3) as [rg3|]; cbn [mbind option_bind]; [|done].
    assert ((if paused_slice_ status then status_Reset else mkStatus None (paused_slice_rec_cnt_ status) []) = status_Reset) as -> by (by destruct Hres as [[_ ->]|(_ & _ & _ & _ & _ & ? & ? & -> & _)]).
    change (if paused_slice_ st2 then _ else _) with status_Reset. by destruct (update_slices _ _ _ _ _ _) as [[[]]|].
Qed.

(** The slice is complete: the next batch finds that its first record is not one of it. *)
Lemma pause_complete : m = 0 →
  ('(rg2, status2, est2) ← update_slice rg base true s b1 status; '(rg3, status3, est3) ← update_slices fuel rg2 base true (q :: b2) status2; Some (rg3, status3, est2 ++ est3)) =
  ('(rg2, status2, est2) ← update_slice rg base false s b1 status; '(rg3, status3, est3) ← update_slices (S fuel) rg2 base true (q :: b2) status2; Some (rg3, status3, est2 ++ est3)).
Proof.
  intros Hm. assert (¬ contains s (Ordinary q.1)) as Hnc by (rewrite <- first_behind; lia). unfold update_slice. destruct (small_slice s) eqn:Esm.
  - destruct Hres as [[_ ->]|(_ & _ & _ & ? & _)]; [|congruence]. cbn [paused_slice_ status_Reset mbind option_bind].
    rewrite (update_slices_fuel end_key base true [] (λ _, eq_refl) fuel (S fuel)); [done|done|lia|by rewrite app_nil_r|by left|by left].
  - rewrite (resumed_parts s status old b1 Hres Hr1) by (by destruct Hends as (? & ? & ? & _), b1).
    assert (Forall rec_ok (old ++ b1)) as Hro by (apply Forall_app; split; [|done]; by destruct Hres as [[-> _]|(_ & ? & _)]).
    pose proof Hb as [Hok He Hsq _ Hin _]. destruct (cut_slice_ok rg end_key i s (old ++ b1) Hok Hs (Hrdy eq_refl) Hro Hsc) as (keys & cnt & rg' & -> & Ecut & Hok' & [Hse1 Hse2] & Hbd & _ & Hfind). cbn [mbind option_bind]. rewrite Ecut. cbn [mbind option_bind].
    assert ((if paused_slice_ status then status_Reset else mkStatus None (paused_slice_rec_cnt_ status) []) = status_Reset) as -> by (by destruct Hres as [[_ ->]|(_ & _ & _ & _ & _ & ? & ? & -> & _)]).
    destruct (record_slice _ _ _ q Hb (list_elem_of_here _ _)) as (s2 & i2 & Hf2 & Hs2 & Hc2 & _). assert (same_slices rg rg' end_key (q :: b2)) as Hsame.
    { split; [done|done|done|]. intros r Hr. destruct (Hin r Hr). apply Hfind; [done|done|]. eapply records_behind; [exact Hsc|by destruct Hends as (? & ? & ? & _), b1, old|exact Hso|done|done]. }
    rewrite (update_slices_fuel end_key base true [] (λ _, eq_refl) fuel (S fuel) (q :: b2) rg' status_Reset); [|done|lia|rewrite app_nil_r; by eapply batch_ok_same|by left|by left].
    assert (FindSlice rg' (Ordinary q.1) = Some s2) as Hf2' by (destruct Hsame as [_ _ _ Hf]; rewrite Hf by (by left); done).
    rewrite (update_slices_step _ rg' _ _ _ _ s2 rg' status_Reset []) by done. rewrite (update_slices_step _ rg _ _ _ _ s2 rg' status_Reset (estimate base s cnt)).
    + cbv zeta. assert (slice_end rg' s2 (q :: b2) = slice_end rg s2 (q :: b2)) as -> by (unfold slice_end; by rewrite Hse2). destruct (update_slice rg' _ _ _ _ _) as [[[rg4 st4] est4]|]; cbn [mbind option_bind]; [|done].
      by destruct (update_slices _ _ _ _ _ _) as [[[]]|].
    + done.
    + unfold finish_paused. cbn [paused_slice_ paused_slice_rec_cnt_ paused_split_keys_]. rewrite decide_False.
      * rewrite (slice_by_start_ok rg end_key i s Hok Hs). cbn [mbind option_bind]. by rewrite Ecut.
      * intros E. apply Hnc. pose proof (SearchSlice_slice rg end_key i s Hok Hs) as E1. pose proof (SearchSlice_slice rg end_key i2 s2 Hok Hs2) as E2. rewrite E, E2 in E1. injection E1 as ->. rewrite Hs in Hs2. by injection Hs2 as ->.
Qed.
End pause.

(** Two batches are as good as one. *)
Lemma update_slices_app end_key base fuel : ∀ b1 q b2 rg status, length (b1 ++ q :: b2) ≤ fuel → batch_ok rg end_key (b1 ++ q :: b2) → paused_ok rg status (b1 ++ q :: b2) → ends_ok b1 →
  update_slices fuel rg base true (b1 ++ q :: b2) status =
    ('(rg1, status1, est1) ← update_slices fuel rg base false b1 status; '(rg2, status2, est2) ← update_slices fuel rg1 base true (q :: b2) status1; Some (rg2, status2, est1 ++ est2)).
Proof.
  induction fuel as [|fuel IH]; intros b1 q b2 rg status Hlen Hb Hp Hend; [rewrite length_app in Hlen; cbn in Hlen; lia|]. destruct b1 as [|r b1]; [by destruct Hend as (? & ? & ? & _)|].
  destruct (one_round rg end_key base false r b1 (q :: b2) status Hb Hp) as (s & n & rg1 & status1 & est1 & rg2 & status2 & est2 & Hround); [done|by right|].
  rewrite (update_slices_round _ _ _ _ _ _ _ _ _ _ _ _ _ _ _ _ fuel Hround). pose proof (round_batch _ _ _ _ _ _ _ _ _ _ _ _ _ _ _ _ Hb Hround) as Hb2.
  destruct Hround as [Hf [Hn [Hn1 Hnle]] Hct _ Hfin Hs1 Hres Hup _ Hp2 _]. change ((r :: b1) ++ q :: b2) with (r :: (b1 ++ q :: b2)). rewrite (update_slices_step _ _ _ _ _ _ s rg1 status1 est1) by done. cbv zeta.
  change (r :: (b1 ++ q :: b2)) with ((r :: b1) ++ q :: b2) in *. rewrite slice_end_app, Hn, orb_true_r. set (l1 := r :: b1) in *. change (S (length b1)) with (length l1) in Hnle.
  destruct (decide (n < length l1)) as [Hlt|Hge].
  - rewrite take_app_le, drop_app_le by lia. rewrite bool_decide_eq_true_2 in Hup by done. cbn [orb] in Hup. rewrite Hup. cbn [mbind option_bind].
    rewrite IH; [|rewrite length_app, length_drop in *; cbn in *; lia|done|done|by apply ends_ok_drop].
    destruct (update_slices_ok fuel end_key base false (q :: b2)) with (recs := drop n l1) (rg := rg2) (status := status2) as (rg3 & st3 & e3 & E3 & Hs3 & Hp3 & _); [done|rewrite length_app, length_drop in *; cbn in *; lia|done|done|right; right; by apply ends_ok_drop|].
    rewrite E3. cbn [mbind option_bind]. rewrite (update_slices_fuel end_key base true [] (λ _, eq_refl) fuel (S fuel)); [|rewrite length_app in Hlen; cbn in *; lia..| |by rewrite app_nil_r|by left].
    + destruct (update_slices (S fuel) rg3 base true (q :: b2) st3) as [[[rg4 st4] e4]|]; cbn [mbind option_bind]; [|done]. by rewrite !app_assoc.
    + rewrite app_nil_r. eapply batch_ok_same; [eapply sublist_batch; [exact Hb2|]|exact Hs3|done]. by apply sublist_inserts_l.
  - assert (n = length l1) as -> by lia. rewrite (take_ge l1), (drop_ge l1) in * by lia. rewrite bool_decide_eq_false_2 in Hup by lia. cbn [orb] in Hup.
    assert (update_slices fuel rg2 base false [] status2 = Some (rg2, status2, [])) as -> by (by destruct fuel). cbn [mbind option_bind]. set (m := slice_end rg s (q :: b2)).
    rewrite take_app_add, drop_app_add. assert (m = slice_end rg1 s (q :: b2)) as Em by (unfold m, slice_end; destruct Hs1 as [_ [_ ->] _ _]; done).
    assert (batch_ok rg1 end_key (l1 ++ q :: b2)) as Hb1 by (apply (batch_ok_same rg rg1 end_key (l1 ++ q :: b2)); done). destruct Hres as (old & Hres & Hsorted).
    destruct (record_slice _ _ _ r Hb1) as (s' & i1 & Hf1 & Hi1 & _ & _); [by left|]. assert (s' = s) as ->.
    { destruct Hs1 as [_ _ _ Hff]. rewrite Hff in Hf1 by (by left). rewrite Hf in Hf1. by injection Hf1. }
    assert (scanned s (old ++ l1).*1) as Hsc.
    { split; [eapply sorted_sublist; [|exact Hsorted]; rewrite !fmap_app; apply sublist_app; [done|by apply sublist_inserts_r]|]. intros x Hx. rewrite fmap_app in Hx. apply elem_of_app in Hx as [Hx|(r' & -> & Hr')%list_elem_of_fmap]; [|by apply Hct].
      destruct Hres as [[-> _]|([_ Hsc] & _)]; [by apply not_elem_of_nil in Hx|by apply Hsc]. }
    assert (Forall rec_ok l1) as Hr1 by (destruct Hb as [_ _ _ Hsz _ _]; by apply Forall_app in Hsz as [? _]).
    assert (small_slice s = false → ready s) as Hrdy by (intros; destruct Hb as [_ _ _ _ _ Hrd]; by apply (Hrd r s); [left| |]).
    assert (batch_ok rg1 end_key (q :: b2)) as Hbq by (eapply sublist_batch; [exact Hb1|]; by apply sublist_inserts_l).
    assert (StronglySorted key_lt ((old ++ l1).*1 ++ (q :: b2).*1)) as Hso by (by rewrite <- fmap_app, <- app_assoc, fmap_app).
    assert (length (q :: b2) ≤ fuel) as Hfu by (rewrite length_app in Hlen; cbn in *; lia).
    set (rhs := '(rg3, status3, est3) ← update_slices (S fuel) rg2 base true (q :: b2) status2; Some (rg3, status3, est2 ++ est3)).
    trans ('(a, b, c) ← rhs; Some (a, b, est1 ++ c)).
    2:{ unfold rhs. destruct (update_slices (S fuel) rg2 base true (q :: b2) status2) as [[[rg4 st4] e4]|]; cbn [mbind option_bind]; [|done]. by rewrite app_nil_r, !app_assoc. }
    trans ('(a, b, c) ← ('(rg0, status0, est0) ← update_slice rg1 base true s (l1 ++ take m (q :: b2)) status1;
             '(rg3, status3, est3) ← update_slices fuel rg0 base true (drop m (q :: b2)) status0; Some (rg3, status3, est0 ++ est3)); Some (a, b, est1 ++ c)).
    { destruct (update_slice rg1 base true s _ status1) as [[[rg4 st4] e4]|]; cbn [mbind option_bind]; [|done]. by destruct (update_slices fuel rg4 base true _ st4) as [[[]]|]. }
    unfold rhs. destruct (decide (m = 0)) as [Hm|Hm].
    + pose proof (pause_complete rg1 end_key base i1 s old l1 q b2 status1 fuel Hbq Hi1 Hres Hrdy Hend Hr1 Hsc Hso Hfu (eq_trans (eq_sym Em) Hm)) as E.
      rewrite Hm. cbn [take drop]. rewrite app_nil_r, E, Hup. done.
    + pose proof (pause_continued rg1 end_key base i1 s old l1 q b2 status1 fuel Hbq Hi1 Hres Hrdy Hend Hr1 Hsc Hso Hfu ltac:(lia)) as E. rewrite <- Em in E. rewrite E, Hup. done.
Qed.

(** ** The batches of a checkpoint *)

(** The batches of the scan one after the other; the last one has all that is left. *)
Fixpoint update_batches rg (base : bool) (batches : list (list (K * Z))) status : option (StoreRange K * UpdateSliceStatus K * list Z) :=
  match batches with
  | [] => Some (rg, status, [])
  | b :: rest =>
      '(rg1, status1, est1) ← UpdateSlices rg base (bool_decide (rest = [])) b status;
      '(rg2, status2, est2) ← update_batches rg1 base rest status1;
      Some (rg2, status2, est1 ++ est2)
  end.

Lemma update_batches_cons rg base b rest status : update_batches rg base (b :: rest) status =
  ('(rg1, status1, est1) ← UpdateSlices rg base (bool_decide (rest = [])) b status; '(rg2, status2, est2) ← update_batches rg1 base rest status1; Some (rg2, status2, est1 ++ est2)).
Proof. done. Qed.

Lemma UpdateSlices_app rg end_key base b1 b2 status : batch_ok rg end_key (b1 ++ b2) → paused_ok rg status (b1 ++ b2) → ends_ok b1 → b2 ≠ [] →
  UpdateSlices rg base true (b1 ++ b2) status = ('(rg1, status1, est1) ← UpdateSlices rg base false b1 status; '(rg2, status2, est2) ← UpdateSlices rg1 base true b2 status1; Some (rg2, status2, est1 ++ est2)).
Proof.
  intros Hb Hp Hend Hne. destruct b2 as [|q b2]; [done|]. unfold UpdateSlices. rewrite (update_slices_app end_key base _ b1 q b2) by done.
  rewrite (update_slices_fuel end_key base false (q :: b2) ltac:(done) (length (b1 ++ q :: b2)) (length b1)); [|rewrite length_app; lia|done|done|done|by right; right].
  destruct (update_slices_ok (length b1) end_key base false (q :: b2)) with (recs := b1) (rg := rg) (status := status) as (rg1 & st1 & e1 & -> & Hs1 & Hp1 & _); [done|done|done|done|by right; right|].
  cbn [mbind option_bind]. rewrite (update_slices_fuel end_key base true [] (λ _, eq_refl) (length (b1 ++ q :: b2)) (length (q :: b2))); [done|rewrite length_app; lia|done| |by rewrite app_nil_r|by left].
  rewrite app_nil_r. eapply batch_ok_same; [exact Hb|exact Hs1|]. by apply sublist_inserts_l.
Qed.

Lemma update_batches_whole base end_key batches : ∀ b rg status, batch_ok rg end_key (b ++ concat batches) → paused_ok rg status (b ++ concat batches) →
  (∀ x, x ∈ b :: batches → x ≠ []) → (∀ x rest, reverse (b :: batches) = x :: rest → ∀ y, y ∈ rest → ends_ok y) →
  update_batches rg base (b :: batches) status = UpdateSlices rg base true (b ++ concat batches) status.
Proof.
  induction batches as [|b' batches IH]; intros b rg status Hb Hp Hne Hends.
  { cbn [update_batches concat]. rewrite app_nil_r. rewrite bool_decide_eq_true_2 by done. destruct (UpdateSlices rg base true b status) as [[[rg1 st1] e1]|]; cbn [mbind option_bind]; [|done]. by rewrite app_nil_r. }
  assert (ends_ok b) as Hend.
  { destruct (reverse (b :: b' :: batches)) as [|x rest] eqn:E; [by apply (f_equal length) in E; rewrite length_reverse in E|]. apply (Hends x rest eq_refl). rewrite reverse_cons in E.
    destruct (reverse (b' :: batches)) as [|z rest'] eqn:E'; [by apply (f_equal length) in E'; rewrite length_reverse in E'|]. injection E as _ <-. apply elem_of_app. right. by left. }
  rewrite (UpdateSlices_app rg end_key base b (concat (b' :: batches))); [|done|done|done|]. 2:{ cbn. destruct b'; [|done]. exfalso. apply (Hne []); [by right; left|done]. }
  rewrite update_batches_cons. rewrite bool_decide_eq_false_2 by done.
  destruct (update_slices_ok (length b) end_key base false (concat (b' :: batches))) with (recs := b) (rg := rg) (status := status) as (rg1 & st1 & e1 & E1 & Hs1 & Hp1 & _); [done|done|done|done|by right; right|].
  unfold UpdateSlices at 1 3. rewrite E1. cbn [mbind option_bind]. rewrite IH; [done| |done| |].
  - eapply batch_ok_same; [exact Hb|exact Hs1|]. by apply sublist_inserts_l.
  - intros x Hx. apply Hne. by right.
  - intros x rest E y Hy. apply (Hends x (rest ++ [b])); [by rewrite reverse_cons, E|]. apply elem_of_app. by left.
Qed.

End update.
