(* ===== verification/RangeDemo.v ===== *)
(** * Runs of ranges

    Concrete ranges with integer keys: a range that is built, pinned, split and updated, and the
    inputs for which the source does not do what it is meant to. *)

From stdpp Require Import sorting gmap.
From S2P Require Import Prelude CcProtocol CcEntry LruList CcPages PagesRep PagesInsert RandomPairing StoreSlice StoreRange SlicePins RangeEntry SliceUpdate.

(** ** A range with three slices *)

Definition info (key : SearchKey Z) : SliceInitInfo Z := mkInitInfo key 100 FullyCached.
Definition three_infos : list (SliceInitInfo Z) := [info NegativeInfinity; info (Ordinary 10%Z); info (Ordinary 20%Z)].
Definition whole_range : StoreRange Z := StoreRange_new false 1 NegativeInfinity PositiveInfinity false.
Definition three : StoreRange Z := default whole_range (InitSlices false 1 whole_range three_infos).

Lemma sorted_2 : StronglySorted key_lt [10%Z; 20%Z].
Proof. repeat constructor. Qed.
Lemma inside_all (ks : list Z) : ∀ b, b ∈ ks → key_less NegativeInfinity (Ordinary b) ∧ key_less (Ordinary b) PositiveInfinity.
Proof. done. Qed.

Lemma three_ok : range_ok three PositiveInfinity.
Proof.
  destruct (InitSlices_ok false 1 whole_range (info NegativeInfinity) [info (Ordinary 10%Z); info (Ordinary 20%Z)] [10%Z; 20%Z] PositiveInfinity) as (rg & E & H & _);
    [done|done|apply sorted_2|apply inside_all|]. unfold three, three_infos. rewrite E. exact H.
Qed.

Lemma SplitRange_ok_witness : ∃ removed rg0 rg1 rg2, SplitRange three (Ordinary 20%Z) = Some (true, removed, rg0) ∧ SetRangeEndKey rg0 (Ordinary 20%Z) = Some rg1 ∧
  InitSlices false 1 (StoreRange_new false 1 (Ordinary 20%Z) PositiveInfinity false) removed = Some rg2 ∧ slice_spec <$> slices_ rg1 ++ slices_ rg2 = slice_spec <$> slices_ three.
Proof.
  pose proof (SplitRange_ok false 1 three PositiveInfinity [10%Z] 20%Z [] three_ok eq_refl) as H. destruct H as (removed & rg0 & rg1 & rg2 & H1 & H2 & _ & H3 & _ & H4).
  - intros s Hs. repeat (apply elem_of_cons in Hs as [->|Hs]; [vm_compute; split; [discriminate|reflexivity]|]). by apply not_elem_of_nil in Hs.
  - exists removed, rg0, rg1, rg2. split; [exact H1|]. split; [exact H2|]. split; [exact H3|exact H4].
Defined.

(** ** Split keys of a range that is too large *)

Definition large_slice : StoreSlice Z := SetPostCkptSize (StoreSlice_new NegativeInfinity PositiveInfinity 50 FullyCached false false 1) 100.
Definition large_range : StoreRange Z := mkRange NegativeInfinity (Some PositiveInfinity) [] [large_slice].
Lemma large_ok : range_ok large_range PositiveInfinity.
Proof. split; [constructor|by intros b ?%not_elem_of_nil|done]. Qed.

(** What a scan of the memory finds: the keys of the slice among 1, 2, 3 and 4. *)
Definition within (s : StoreSlice Z) (k : Z) : Prop := search_lt (Ordinary k) (sl_start_key_ s) = false ∧ search_lt (Ordinary k) (sl_end_key_ s) = true.
#[local] Instance within_dec s k : Decision (within s k).
Proof. unfold within. apply _. Defined.
Definition scan (s : StoreSlice Z) : option (list Z) := Some (filter (within s) [1; 2; 3; 4]%Z).
Lemma scan_ok s ks : scan s = Some ks → scanned s ks.
Proof.
  intros [= <-]. split.
  - eapply sorted_sublist; [apply sublist_filter|]. repeat constructor.
  - intros k [[H1 H2] _]%list_elem_of_filter. done.
Qed.

Lemma CalculateRangeSplitKeys_ok_witness : ∃ ok keys rg', CalculateRangeSplitKeys 1 (SampleSubRangeKeys scan (λ _, 0%Z)) large_range 100 2 = Some (ok, keys, rg') ∧
  range_ok rg' PositiveInfinity ∧ StronglySorted key_lt keys.
Proof.
  destruct (CalculateRangeSplitKeys_ok 1 scan (λ _, 0%Z) large_range PositiveInfinity 100 2 large_ok) as (ok & keys & rg' & H1 & H2 & H3 & _).
  - by intros s ->%list_elem_of_singleton.
  - lia.
  - intros s ks. apply scan_ok.
  - exists ok, keys, rg'. split; [exact H1|]. split; [exact H2|exact H3].
Defined.

(** The keys themselves: the slice is cut at key 3. *)
Lemma split_keys_computed : (λ '(ok, keys, rg'), (ok, keys, boundary_keys_ rg')) <$> CalculateRangeSplitKeys 1 (SampleSubRangeKeys scan (λ _, 0%Z)) large_range 100 2 = Some (true, [3%Z], [3%Z]).
Proof. vm_compute. reflexivity. Qed.

(** ** Pinning slices *)

Definition no_cache (key : SearchKey Z) (core : nat) : bool := false.
Definition next_slice (idx : Z) (forward : bool) : Z := if forward then (idx + 1)%Z else (idx - 1)%Z.
Lemma next_slice_ok : prefetch_next_ok next_slice.
Proof. intros i. unfold next_slice. lia. Qed.
Definition pin_env : PinEnv Z := mkEnv Z 0 (λ _, FillStoreSliceCc_new) (λ _, StoreSuccess) 0 1.
Definition pin_args : PinArgs Z := mkPinArgs (Ordinary 15%Z) true None false (Some (7%Z, 0%Z)) false 0 8 true false 0 false false.
Definition unpinned : PinnedRange Z := mkPinned three 0.
Lemma three_few : few (slices_ three).
Proof. intros s Hs. repeat (apply elem_of_cons in Hs as [->|Hs]; [vm_compute; split; [discriminate|reflexivity]|]). by apply not_elem_of_nil in Hs. Qed.
Lemma pin_args_ok : args_ok unpinned pin_args.
Proof. by split. Qed.

Lemma pins_taken_released_witness : ∃ res last r' wake, PinSlices no_cache next_slice unpinned pin_args pin_env = Some res ∧ last_pinned_slice res = Some last ∧
  BatchUnpinSlices (pin_range res) (pin_slice res) last true = Some (r', wake) ∧ sl_pins_ <$> slices_ (pr_range r') = sl_pins_ <$> slices_ three.
Proof.
  destruct (pins_taken_released no_cache next_slice unpinned PositiveInfinity pin_args pin_env three_ok next_slice_ok pin_args_ok three_few) as (res & H1 & H2); [vm_compute; split; [discriminate|reflexivity]|].
  destruct H2 as (last & r' & wake & H3 & H4 & H5 & _).
  - assert (pin_status <$> PinSlices no_cache next_slice unpinned pin_args pin_env = Some Slice_Successful) as Hp by (vm_compute; reflexivity). rewrite H1 in Hp. injection Hp as Hp. exact Hp.
  - exists res, last, r', wake. split; [exact H1|]. split; [exact H3|]. split; [exact H4|exact H5].
Defined.

(** The slices from 10 on are pinned. *)
Lemma pins_computed : (λ res, (sl_pins_ <$> slices_ (pr_range (pin_range res)), last_pinned_slice res, pr_pins_ (pin_range res))) <$> PinSlices no_cache next_slice unpinned pin_args pin_env =
  Some ([0; 1; 1]%Z, Some (Ordinary 20%Z), 2%Z).
Proof. vm_compute. reflexivity. Qed.

(** ** An entry whose slices are read and pinned *)

Definition entry0 : TableRangeEntry Z := with_info (TableRangeEntry_new NegativeInfinity 1 0 None) (RangeInfo_new NegativeInfinity 1 0 (Some PositiveInfinity) false).
Definition life0 : Life := mkLife entry0 0.
Definition entry1 : TableRangeEntry Z := with_range entry0 (Some (mkPinned three 0)).
Definition entry2 : TableRangeEntry Z := with_range entry0 (Some (mkPinned three 1)).

Lemma three_infos_ok : infos_ok entry0 three_infos.
Proof. exists (info NegativeInfinity), [info (Ordinary 10%Z); info (Ordinary 20%Z)], [10%Z; 20%Z]. split; [done|]. split; [done|]. split; [apply sorted_2|]. intros b e Hb [= <-]. done. Qed.

Lemma life_run : rtc (life_step 1 no_cache next_slice) life0 (mkLife entry2 1).
Proof.
  eapply rtc_l; [eapply (life_init _ _ _ entry0 three_infos false false entry1 0); [done|intros _; apply three_infos_ok|vm_compute; reflexivity]|].
  eapply rtc_l; [eapply (life_pin _ _ _ entry1 entry2 0); vm_compute; reflexivity|]. apply rtc_refl.
Qed.

Lemma store_range_free_exact_witness : IsStoreRangeFree entry2 false = false ∧ DropStoreRange entry2 = None.
Proof.
  destruct (store_range_free_exact 1 no_cache next_slice next_slice_ok life0 (mkLife entry2 1) (mkPinned three 1) false) as [H1 H2].
  - split; reflexivity.
  - exact life_run.
  - reflexivity.
  - vm_compute. reflexivity.
  - assert (IsStoreRangeFree entry2 false = false) as Hf by (vm_compute; reflexivity). split; [exact Hf|]. apply H2. exact Hf.
Defined.

Lemma slices_partition_range_witness : ∃ i s, FindSlice three (Ordinary 15%Z) = Some s ∧ slices_ three !! i = Some s ∧ contains s (Ordinary 15%Z).
Proof.
  destruct (slices_partition_range 1 no_cache next_slice next_slice_ok life0 (mkLife entry2 1) (mkPinned three 1) PositiveInfinity (Ordinary 15%Z)) as (i & s & H1 & H2 & H3 & _).
  - split; reflexivity.
  - exact life_run.
  - reflexivity.
  - reflexivity.
  - vm_compute. reflexivity.
  - vm_compute. reflexivity.
  - exists i, s. split; [exact H1|]. split; [exact H2|exact H3].
Defined.

(** ** Cutting a slice during a checkpoint *)

Definition growing_slice : StoreSlice Z := SetPostCkptSize (StoreSlice_new NegativeInfinity PositiveInfinity 10000 FullyCached false false 1) 40000.
Definition growing : StoreRange Z := mkRange NegativeInfinity (Some PositiveInfinity) [] [growing_slice].
Lemma growing_ok : range_ok growing PositiveInfinity.
Proof. split; [constructor|by intros b ?%not_elem_of_nil|done]. Qed.

Definition batch1 : list (Z * Z) := [(1, 15000); (2, 8000)]%Z.
Definition batch2 : list (Z * Z) := [(3, 9000); (4, 8000)]%Z.
Lemma growing_ready : ready growing_slice.
Proof. split; [reflexivity|]. vm_compute. split; reflexivity. Qed.
Lemma growing_batch : batch_ok growing PositiveInfinity (batch1 ++ concat [batch2]).
Proof.
  split.
  - apply growing_ok.
  - reflexivity.
  - repeat constructor.
  - repeat (constructor; [vm_compute; split; [discriminate|reflexivity]|]). constructor.
  - intros r _. split; reflexivity.
  - intros r s _ E _. cbv in E. injection E as <-. apply growing_ready.
Qed.


(** The slice is cut at key 3. *)
Lemma cut_computed : (λ '(rg', status, est), (boundary_keys_ rg', sl_size_ <$> slices_ rg', post_ckpt_size_ <$> slices_ rg', est)) <$> update_batches 1 growing true [batch1; batch2] status_Reset =
  Some ([3%Z], [5000; 5000]%Z, [23000; 17000]%Z, [10000%Z]).
Proof. vm_compute. reflexivity. Qed.

Lemma slice_parts_ok_witness : ∃ keys, slice_parts growing_slice (batch1 ++ batch2) status_Reset = Some (keys, 4%Z) ∧ sum_post keys = 40000%Z.
Proof.
  destruct (slice_parts_ok growing_slice (batch1 ++ batch2)) as (keys & H1 & H2 & _).
  - apply growing_ready.
  - repeat (constructor; [vm_compute; split; [discriminate|reflexivity]|]). constructor.
  - exists keys. split; [exact H1|exact H2].
Defined.

(** ** Where the source does not do what it is meant to *)

(** A batch ends inside a slice, and all its records of the slice are deleted: no part is recorded, and
    the next batch takes the last part of an empty list. *)
Definition deleted_batch : list (Z * Z) := [(1, 0); (2, 0)]%Z.
Lemma deleted_records_pause : ∃ status, UpdateSlices 1 growing true false deleted_batch status_Reset = Some (growing, status, []) ∧ paused_split_keys_ status = [] ∧
  UpdateSlices 1 growing true true batch2 status = None.
Proof. eexists. split; [vm_compute; reflexivity|]. split; vm_compute; reflexivity. Qed.

(** The last batch is empty: the parts of the slice that was not complete are forgotten, and the slice
    is not cut. *)
Lemma empty_batch_forgets : ∃ status, UpdateSlices 1 growing true false (batch1 ++ batch2) status_Reset = Some (growing, status, []) ∧ length (paused_split_keys_ status) = 2 ∧
  UpdateSlices 1 growing true true [] status = Some (growing, status, []).
Proof. eexists. split; [vm_compute; reflexivity|]. split; vm_compute; reflexivity. Qed.

(** A slice that is being loaded has no pins and may be split: its parts are marked as being loaded
    although nothing loads them. *)
Definition loading_slice : StoreSlice Z := set_load (set_status (StoreSlice_new NegativeInfinity PositiveInfinity 50 PartiallyCached false false 1) BeingLoaded) (Some FillStoreSliceCc_new) [].
Definition loading : StoreRange Z := mkRange NegativeInfinity (Some PositiveInfinity) [] [loading_slice].
Lemma split_while_loading : ChangeAllowed loading_slice = true ∧
  (λ rg, (sl_status_ <$> slices_ rg, (λ s, if fetch_slice_cc_ s then false else true) <$> slices_ rg)) <$> UpdateSliceSpec 1 loading loading_slice [5%Z] = Some ([BeingLoaded; BeingLoaded], [false; true]).
Proof. split; vm_compute; reflexivity. Qed.

(** With two cores the executor after core 1 is 2, which is core 0, and then 0: core 0 is taken
    twice. *)
Lemma executor_not_round_robin : ∃ c1 c2 c3, NextExecutor (NonForceLoadController true 0 2) = Some (1%Z, c1) ∧ NextExecutor c1 = Some (2%Z, c2) ∧ NextExecutor c2 = Some (0%Z, c3).
Proof. do 3 eexists. split; [vm_compute; reflexivity|]. split; [vm_compute; reflexivity|]. vm_compute. reflexivity. Qed.
