(* ===== verification/ScanCache.v ===== *)
(** * The scanner of a hash-partitioned table ([include/cc/ccm_scanner.h], [include/cc/scan.h])

    A scan of a hash-partitioned table visits every core.  Each core fills a cache of the
    coordinator with up to 128 tuples in the order of the scan ([TemplateScanCache]), and
    the scanner merges the caches: [Current] is the next tuple of all, and when the cache of
    a core is used up and had been full, the scanner is blocked until that core has filled it
    again.  The file shows that the coordinator sees every tuple once and in the order of
    the keys, however many batches each core needs.

    The constructors of [ScannerStatus] have a prefix.  [scans_] is an unordered map; the
    loop over it visits it in some order that the statements do not depend on.  The slots of a cache are reused, so
    a slot past [size_] has the tuple of an earlier batch. *)

From stdpp Require Import sorting functions.
From S2P Require Import Prelude Bytes CcProtocol TxSerialize ReadWriteSet CcPages.

(** ** Tuples and caches *)

Inductive ScannerStatus := ScannerOpen | ScannerClosed | ScannerBlocked.
Inductive ScanDirection := Forward | Backward.
Inductive ScanIndexType := ScanPrimary | ScanSecondary.
#[export] Instance ScannerStatus_eq_dec : EqDecision ScannerStatus.
Proof. solve_decision. Defined.
#[export] Instance ScanDirection_eq_dec : EqDecision ScanDirection.
Proof. solve_decision. Defined.

Definition ScanBatchSize : nat := 128.

(** [rec_obj] is the record, by whichever of the two pointers it is held. *)
Record ScanTuple (K V : Type) := mkScanTuple {
  key_ts_ : Z;
  gap_ts_ : Z;
  scan_rec_status_ : RecordStatus;
  scan_cce_ptr_ : Z;
  scan_cce_addr_ : CcEntryAddr;
  key_obj_ : K;
  rec_obj : option V;
}.
Arguments mkScanTuple {_ _}.
Arguments key_ts_ {_ _}.
Arguments gap_ts_ {_ _}.
Arguments scan_rec_status_ {_ _}.
Arguments scan_cce_ptr_ {_ _}.
Arguments scan_cce_addr_ {_ _}.
Arguments key_obj_ {_ _}.
Arguments rec_obj {_ _}.

Record ScanCache (K V : Type) := mkScanCache {
  idx_ : nat;
  size_ : nat;
  mem_size_ : Z;
  mem_max_bytes_ : Z;
  trailing_cnt_ : nat;
  cache_ : list (ScanTuple K V);
}.
Arguments mkScanCache {_ _}.
Arguments idx_ {_ _}.
Arguments size_ {_ _}.
Arguments mem_size_ {_ _}.
Arguments mem_max_bytes_ {_ _}.
Arguments trailing_cnt_ {_ _}.
Arguments cache_ {_ _}.

Section cache.
Context {K V : Type}.
Implicit Types (t : ScanTuple K V) (c : ScanCache K V).

(** The constructor makes 128 slots of the default tuple. *)
Definition ScanCache_new (dflt : ScanTuple K V) : ScanCache K V := mkScanCache 0 0 0 0 0 (replicate ScanBatchSize dflt).

Definition ScanCache_Status c : ScannerStatus :=
  if decide (idx_ c < size_ c) then ScannerOpen
  else if decide (size_ c = ScanBatchSize) then ScannerBlocked else ScannerClosed.

Definition cache_MoveNext c : ScanCache K V :=
  mkScanCache (S (idx_ c)) (size_ c) (mem_size_ c) (mem_max_bytes_ c) (trailing_cnt_ c) (cache_ c).
Definition cache_Reset c : ScanCache K V := mkScanCache 0 0 0 0 0 (cache_ c).
Definition Rewind c : ScanCache K V :=
  mkScanCache 0 (size_ c) (mem_size_ c) (mem_max_bytes_ c) (trailing_cnt_ c) (cache_ c).
Definition Full c : bool := bool_decide (size_ c = ScanBatchSize).
Definition RemoveLast c : option (ScanCache K V) :=
  if decide (0 < size_ c)
  then Some (mkScanCache (idx_ c) (size_ c - 1) (mem_size_ c) (mem_max_bytes_ c) (S (trailing_cnt_ c)) (cache_ c)) else None.

Definition IsFull c : bool := bool_decide (mem_max_bytes_ c ≤ mem_size_ c)%Z.
Definition SetCacheMaxBytes c (max_bytes : Z) : ScanCache K V :=
  mkScanCache (idx_ c) (size_ c) (mem_size_ c) (u32 max_bytes) (trailing_cnt_ c) (cache_ c).
Definition AddScanTupleSize c (tuple_size : Z) : ScanCache K V :=
  mkScanCache (idx_ c) (size_ c) (u32 (mem_size_ c + tuple_size)) (mem_max_bytes_ c) (trailing_cnt_ c) (cache_ c).

(** [fill] is what the caller writes to the slot it gets. *)
Definition AddScanTuple (dflt : ScanTuple K V) c (fill : ScanTuple K V → ScanTuple K V) : ScanCache K V :=
  mkScanCache (idx_ c) (S (size_ c)) (mem_size_ c) (mem_max_bytes_ c) (trailing_cnt_ c)
    (if decide (size_ c < length (cache_ c)) then alter fill (size_ c) (cache_ c) else cache_ c ++ [fill dflt]).

(** The tuple of a remote answer is deserialized into the slot.  A tuple without a key
    (key timestamp 0) leaves the key and the record of the slot as they were. *)
Definition AddScanTuple_remote `{!Codec K, !Codec V} (dflt : ScanTuple K V) c (key_str : bytes) (key_offset : nat)
    (key_ts : Z) (record_str : bytes) (rec_offset : nat) (rec_status : RecordStatus) (gap_ts cce_lock_ptr term core_id ng_id : Z) :
    option (ScanCache K V * nat * nat) :=
  if decide (length (cache_ c) < size_ c) then None
  else
    let addr := mkAddr cce_lock_ptr ng_id core_id term in
    if decide (key_ts = 0)%Z then
      Some (AddScanTuple dflt c (λ t, mkScanTuple 0 0 (scan_rec_status_ t) (scan_cce_ptr_ t) addr (key_obj_ t) (rec_obj t)), key_offset, rec_offset)
    else
      '(k, o1) ← decode key_str key_offset;
      '(v, o2) ← decode record_str rec_offset;
      Some (AddScanTuple dflt c (λ t, mkScanTuple key_ts gap_ts rec_status (scan_cce_ptr_ t) addr k (Some v)), o1, o2).

Definition cache_Current c : option (ScanTuple K V) := if decide (idx_ c < size_ c) then cache_ c !! idx_ c else None.
Definition Last c : option (ScanTuple K V) := if decide (0 < size_ c) then cache_ c !! (size_ c - 1) else None.
Definition cache_At c (idx : nat) : option (ScanTuple K V) := cache_ c !! idx.
End cache.

(** ** The scanner *)

Record TemplateCcScanner (K V : Type) := mkScanner {
  direct_ : ScanDirection;
  index_type_ : ScanIndexType;
  scanner_status_ : ScannerStatus;
  drain_cache_mode_ : bool;
  scans_ : gmap Z (ScanCache K V);
  curr_shard_code_ : Z;
  curr_tuple_ : option (ScanTuple K V);
}.
Arguments mkScanner {_ _}.
Arguments direct_ {_ _}.
Arguments index_type_ {_ _}.
Arguments scanner_status_ {_ _}.
Arguments drain_cache_mode_ {_ _}.
Arguments scans_ {_ _}.
Arguments curr_shard_code_ {_ _}.
Arguments curr_tuple_ {_ _}.

Section scanner.
Context {K V : Type} `{!KeyOrder K}.
Implicit Types (t : ScanTuple K V) (c : ScanCache K V) (s : TemplateCcScanner K V).

Definition TemplateCcScanner_new (direct : ScanDirection) (index_type : ScanIndexType) : TemplateCcScanner K V :=
  mkScanner direct index_type ScannerOpen false ∅ 0 None.

Definition set_scans s (m : gmap Z (ScanCache K V)) : TemplateCcScanner K V :=
  mkScanner (direct_ s) (index_type_ s) (scanner_status_ s) (drain_cache_mode_ s) m (curr_shard_code_ s) (curr_tuple_ s).
(** What [Current] sets. *)
Definition set_current s (st : ScannerStatus) (shard : Z) (t : option (ScanTuple K V)) : TemplateCcScanner K V :=
  mkScanner (direct_ s) (index_type_ s) st (drain_cache_mode_ s) (scans_ s) shard t.

Definition SetStatus s (st : ScannerStatus) : TemplateCcScanner K V := set_current s st (curr_shard_code_ s) (curr_tuple_ s).
Definition SetDrainCacheMode s (b : bool) : TemplateCcScanner K V :=
  mkScanner (direct_ s) (index_type_ s) (scanner_status_ s) b (scans_ s) (curr_shard_code_ s) (curr_tuple_ s).

Definition AddShard (dflt : ScanTuple K V) s (shard_code : Z) : TemplateCcScanner K V :=
  set_scans s (<[shard_code := cache_Reset (default (ScanCache_new dflt) (scans_ s !! shard_code))]> (scans_ s)).
Definition ResetCaches s : TemplateCcScanner K V :=
  mkScanner (direct_ s) (index_type_ s) (scanner_status_ s) (drain_cache_mode_ s) (cache_Reset <$> scans_ s) 0 None.
Definition scanner_Reset s : TemplateCcScanner K V := ResetCaches s.
Definition Close s : TemplateCcScanner K V :=
  mkScanner (direct_ s) (index_type_ s) ScannerClosed (drain_cache_mode_ s) ∅ 0 None.
Definition BlockedShard s : Z := curr_shard_code_ s.

(** Whether the key replaces the smallest (largest) one so far. *)
Definition better (direct : ScanDirection) (t : ScanTuple K V) (min_key : K) : bool :=
  match direct with
  | Forward => bool_decide (key_obj_ t <k min_key)
  | Backward => negb (bool_decide (key_obj_ t <k min_key))
  end.

(** The loop of [Current]: [inl shard] when the cache of [shard] blocks the scan, and
    otherwise the smallest key and its shard. *)
Fixpoint current_loop (direct : ScanDirection) (drain : bool) (l : list (Z * ScanCache K V)) (min_key : option K) (shard : Z) : Z + (option K * Z) :=
  match l with
  | [] => inr (min_key, shard)
  | (shard_code, cache) :: l =>
      match cache_Current cache with
      | Some t =>
          if match min_key with None => true | Some k => bool_decide (key_ts_ t = 0)%Z || better direct t k end then
            if decide (key_ts_ t = 0)%Z then inr (Some (key_obj_ t), shard_code)
            else current_loop direct drain l (Some (key_obj_ t)) shard_code
          else current_loop direct drain l min_key shard
      | None =>
          if bool_decide (ScanCache_Status cache = ScannerBlocked) && negb drain then inl shard_code
          else current_loop direct drain l min_key shard
      end
  end.

Definition Current s : option (ScanTuple K V) * TemplateCcScanner K V :=
  match curr_tuple_ s with
  | Some t => (Some t, s)
  | None =>
      if decide (scanner_status_ s = ScannerClosed) then (None, s)
      else
        match current_loop (direct_ s) (drain_cache_mode_ s) (map_to_list (scans_ s)) None (curr_shard_code_ s) with
        | inl shard => (None, set_current s ScannerBlocked shard None)
        | inr (None, shard) => (None, set_current s ScannerClosed shard None)
        | inr (Some _, shard) =>
            let t := scans_ s !! shard ≫= cache_Current in (t, set_current s ScannerOpen shard t)
        end
  end.

(** Advances the cache the current tuple is from. *)
Definition advance s : TemplateCcScanner K V :=
  mkScanner (direct_ s) (index_type_ s) (scanner_status_ s) (drain_cache_mode_ s)
    (alter cache_MoveNext (curr_shard_code_ s) (scans_ s)) (curr_shard_code_ s) None.

Definition MoveNext s : TemplateCcScanner K V :=
  match curr_tuple_ s with
  | Some _ => advance s
  | None =>
      if decide (scanner_status_ s = ScannerClosed) then s
      else let '(t, s') := Current s in if t then advance s' else s'
  end.

Definition DeduceScanTupleLockType s (is_for_write is_covering_keys : bool) (iso_level : IsolationLevel) (protocol : CcProtocol)
    (rec_status : RecordStatus) : LockType :=
  if bool_decide (rec_status = Deleted) && negb is_for_write then NoLock
  else
    DeduceLockType (match index_type_ s with ScanSecondary => ReadSkIndex | ScanPrimary => if is_for_write then ReadForWrite else Read end)
      iso_level protocol is_covering_keys.
End scanner.

(** ** The content of a cache *)

Section cache_content.
Context {K V : Type}.
Implicit Types (t : ScanTuple K V) (c : ScanCache K V).

(** The tuples of the batch that have not been read. *)
Definition cached c : list (ScanTuple K V) := drop (idx_ c) (take (size_ c) (cache_ c)).
Definition cache_wf c : Prop := idx_ c ≤ size_ c ∧ size_ c ≤ length (cache_ c) ∧ ScanBatchSize ≤ length (cache_ c).

Lemma cached_length c : cache_wf c → length (cached c) = size_ c - idx_ c.
Proof. intros (_ & ? & _). unfold cached. rewrite length_drop, length_take. lia. Qed.

Lemma cache_Current_head c : cache_wf c → cache_Current c = head (cached c).
Proof.
  intros (H1 & H2 & _). unfold cache_Current, cached. case_decide as E.
  - destruct (lookup_lt_is_Some_2 (cache_ c) (idx_ c)) as [t Ht]; [lia|].
    rewrite Ht. erewrite drop_S; [done|]. by rewrite lookup_take_lt.
  - by rewrite drop_ge by (rewrite length_take; lia).
Qed.

Lemma cached_MoveNext c t : cache_wf c → cache_Current c = Some t → cached c = t :: cached (cache_MoveNext c) ∧ cache_wf (cache_MoveNext c).
Proof.
  intros (H1 & H2 & H3) Ht. unfold cache_Current in Ht. case_decide; [|done]. split; [|split_and!; cbn; lia].
  unfold cached. cbn. apply drop_S. by rewrite lookup_take_lt.
Qed.

Lemma cache_Status_cases c : cache_wf c →
  ScanCache_Status c = match cached c with [] => if decide (size_ c = ScanBatchSize) then ScannerBlocked else ScannerClosed | _ => ScannerOpen end.
Proof.
  intros Hc. pose proof (cached_length c Hc) as Hl. destruct Hc as (? & ? & _). unfold ScanCache_Status. case_decide; destruct (cached c); cbn in *; done || lia.
Qed.

Lemma ScanCache_new_wf dflt : cache_wf (ScanCache_new (K := K) (V := V) dflt).
Proof. unfold cache_wf, ScanCache_new. cbn [idx_ size_ cache_]. rewrite length_replicate. lia. Qed.

Lemma cache_Reset_wf c : cache_wf c → cache_wf (cache_Reset c) ∧ cached (cache_Reset c) = [] ∧ size_ (cache_Reset c) = 0.
Proof. intros (? & ? & ?). split; [split_and!; cbn [cache_Reset idx_ size_ cache_]; lia|done]. Qed.

Lemma AddScanTuple_cached dflt c t : cache_wf c →
  cache_wf (AddScanTuple dflt c (λ _, t)) ∧ cached (AddScanTuple dflt c (λ _, t)) = cached c ++ [t] ∧ size_ (AddScanTuple dflt c (λ _, t)) = S (size_ c).
Proof.
  intros (H1 & H2 & H3). unfold AddScanTuple, cache_wf, cached. cbn [idx_ size_ cache_].
  set (l' := if decide _ then _ else _). assert (take (size_ c) l' = take (size_ c) (cache_ c) ∧ l' !! size_ c = Some t ∧ length (cache_ c) ≤ length l') as (E1 & E2 & E3).
  { subst l'. case_decide as E.
    - rewrite take_alter_ge, length_alter by lia. split_and!; [done| |done]. rewrite list_lookup_alter.
      destruct (lookup_lt_is_Some_2 (cache_ c) (size_ c)) as [x ->]; [lia|]. by rewrite decide_True.
    - assert (size_ c = length (cache_ c)) as -> by lia. rewrite take_app_length, take_ge, length_app by lia. split_and!; [done| |lia].
      rewrite lookup_app_r by lia. by rewrite Nat.sub_diag. }
  pose proof (lookup_lt_Some _ _ _ E2). split_and!; [lia|lia|lia| |done].
  rewrite (take_S_r _ _ _ E2), E1, drop_app_le; [done|]. rewrite length_take. lia.
Qed.

(** A core fills a cache with its next batch. *)
Definition fill_cache dflt c (l : list (ScanTuple K V)) : ScanCache K V := foldl (λ c t, AddScanTuple dflt c (λ _, t)) c l.

Lemma fill_cache_cached dflt l c : cache_wf c →
  cache_wf (fill_cache dflt c l) ∧ cached (fill_cache dflt c l) = cached c ++ l ∧ size_ (fill_cache dflt c l) = size_ c + length l.
Proof.
  unfold fill_cache. revert c. induction l as [|t l IH]; intros c Hc; cbn; [by rewrite app_nil_r, Nat.add_0_r|].
  destruct (AddScanTuple_cached dflt c t Hc) as (Hc' & E1 & E2). destruct (IH _ Hc') as (? & -> & ->). rewrite E1, E2, <- app_assoc. split_and!; [done|done|lia].
Qed.

Lemma fill_cache_idx dflt l c : idx_ (fill_cache dflt c l) = idx_ c.
Proof. unfold fill_cache. revert c. induction l as [|t l IH]; intros c; cbn; [done|]. by rewrite IH. Qed.
End cache_content.

(** ** The order of a scan *)

Section order.
Context {K : Type} `{!KeyOrder K}.
Implicit Types (k : K).

(** [k] comes before [k'] in the direction of the scan. *)
Definition before (direct : ScanDirection) k k' : Prop := match direct with Forward => k <k k' | Backward => k' <k k end.
#[export] Instance before_dec direct : RelDecision (before direct).
Proof. intros k k'. unfold before. destruct direct; apply _. Defined.

Lemma before_irrefl direct k : ¬ before direct k k.
Proof. destruct direct; cbn; apply irreflexivity, _. Qed.
Lemma before_trans direct k1 k2 k3 : before direct k1 k2 → before direct k2 k3 → before direct k1 k3.
Proof. destruct direct; cbn; intros; by etrans. Qed.
Lemma before_total direct k k' : before direct k k' ∨ k = k' ∨ before direct k' k.
Proof. pose proof (key_total k k'). destruct direct; cbn; tauto. Qed.
Lemma before_asym direct k k' : before direct k k' → ¬ before direct k' k.
Proof. intros H1 H2. by apply (before_irrefl direct k), (before_trans direct k k' k). Qed.
(** [¬ before b a] is the non-strict order. *)
Lemma not_before_trans direct k1 k2 k3 : ¬ before direct k2 k1 → ¬ before direct k3 k2 → ¬ before direct k3 k1.
Proof.
  intros H1 H2 H3. destruct (before_total direct k1 k2) as [H|[->|H]]; [|done..]. by apply H2, (before_trans direct k3 k1 k2).
Qed.
Lemma not_before_ne direct k1 k2 : ¬ before direct k2 k1 → k1 ≠ k2 → before direct k1 k2.
Proof. intros H1 H2. by destruct (before_total direct k1 k2) as [?|[?|?]]. Qed.

Lemma better_not_before {V} direct (t : ScanTuple K V) k :
  if better direct t k then ¬ before direct k (key_obj_ t) else ¬ before direct (key_obj_ t) k.
Proof.
  destruct direct; cbn; case_bool_decide as E; cbn; try done; intros H; by apply (before_asym Forward _ _ E).
Qed.
End order.

(** ** Merging the caches

    [src shard] is what the core of the shard will still deliver after the batch that is in its
    cache. *)

Section merge.
Context {K V : Type} `{!KeyOrder K} (dflt : ScanTuple K V).
Abbreviation tuple := (ScanTuple K V).
Implicit Types (t : tuple) (c : ScanCache K V) (s : TemplateCcScanner K V) (src : Z → list tuple).

(** A tuple with a key; the others are gaps, which are locked only. *)
Definition keyed t : Prop := key_ts_ t ≠ 0%Z.
#[export] Instance keyed_dec t : Decision (keyed t) := decide (key_ts_ t ≠ 0%Z).

Definition blocked c : Prop := cached c = [] ∧ size_ c = ScanBatchSize.

(** The core fills its cache as long as it has tuples. *)
Definition shard_ok c (l : list tuple) : Prop := cache_wf c ∧ size_ c ≤ ScanBatchSize ∧ (l ≠ [] → size_ c = ScanBatchSize).

Definition in_order direct (l : list tuple) : Prop := StronglySorted (before direct) (key_obj_ <$> filter keyed l).

Definition streams (m : gmap Z (ScanCache K V)) src : list (list tuple) := (λ x : Z * ScanCache K V, cached x.2 ++ src x.1) <$> map_to_list m.

(** The caches and what follows them are well formed, and [T] is the tuples with a key in
    the order of the scan. *)
Record merges s src (T : list tuple) : Prop := {
  mg_ok sh c : scans_ s !! sh = Some c → shard_ok c (src sh) ∧ in_order (direct_ s) (cached c ++ src sh);
  mg_all : T ≡ₚ filter keyed (mjoin (streams (scans_ s) src));
  mg_sorted : StronglySorted (before (direct_ s)) (key_obj_ <$> T);
  mg_none : curr_tuple_ s = None;
}.

Lemma cached_cases c : cache_wf c → (∃ t, cache_Current c = Some t ∧ head (cached c) = Some t) ∨
  (cache_Current c = None ∧ cached c = [] ∧ (ScanCache_Status c = ScannerBlocked ↔ blocked c)).
Proof.
  intros Hc. rewrite (cache_Current_head c Hc), (cache_Status_cases c Hc). unfold blocked. destruct (cached c) as [|t l]; [right|left; by exists t].
  split_and!; [done..|]. case_decide; split; naive_solver.
Qed.

(** What the loop over the caches finds: a cache that blocks the scan, a gap, or the first
    key. *)
Definition loop_found direct drain (l : list (Z * ScanCache K V)) (min_key : option K) (shard : Z) (r : Z + option K * Z) : Prop :=
  match r with
  | inl b => ∃ c, (b, c) ∈ l ∧ blocked c ∧ drain = false
  | inr (None, _) => min_key = None ∧ ∀ x, x ∈ l → cached x.2 = [] ∧ (drain = false → ¬ blocked x.2)
  | inr (Some k, b) =>
      (∃ c t, (b, c) ∈ l ∧ cache_Current c = Some t ∧ ¬ keyed t) ∨
      ((∀ x, x ∈ l → (drain = false → ¬ blocked x.2) ∧ ∀ t, cache_Current x.2 = Some t → keyed t ∧ ¬ before direct (key_obj_ t) k) ∧
       (∀ k0, min_key = Some k0 → ¬ before direct k0 k) ∧
       (min_key = Some k ∧ b = shard ∨ ∃ c t, (b, c) ∈ l ∧ cache_Current c = Some t ∧ key_obj_ t = k))
  end.

Lemma loop_skip direct drain x l min_key shard r : (drain = false → ¬ blocked x.2) →
  match cache_Current x.2 with Some t => keyed t ∧ ∃ k, min_key = Some k ∧ ¬ before direct (key_obj_ t) k | None => cached x.2 = [] end →
  loop_found direct drain l min_key shard r → loop_found direct drain (x :: l) min_key shard r.
Proof.
  intros Hb Hx. destruct r as [b|[[k|] b]]; cbn; [set_solver| |].
  - intros [(c & t & ? & ?)|(H1 & H2 & H3)]; [left; exists c, t; set_solver|right]. split_and!; [|done|set_solver].
    intros y [->|Hy]%elem_of_cons; [|by apply H1]. split; [done|]. intros t Ht. rewrite Ht in Hx. destruct Hx as (? & k0 & -> & Hk).
    split; [done|]. eapply not_before_trans; [by apply H2|done].
  - intros [-> H2]. split; [done|]. intros y [->|Hy]%elem_of_cons; [|by apply H2]. split; [|done].
    destruct (cache_Current _); [|done]. by destruct Hx as (_ & ? & ? & _).
Qed.

Lemma loop_take direct drain sh c t l min_key shard r : cache_Current c = Some t → ¬ blocked c → keyed t →
  (∀ k, min_key = Some k → ¬ before direct k (key_obj_ t)) →
  loop_found direct drain l (Some (key_obj_ t)) sh r → loop_found direct drain ((sh, c) :: l) min_key shard r.
Proof.
  intros Ht Hb Hk Hmin. destruct r as [b|[[k|] b]]; cbn; [set_solver| |by intros []].
  intros [(c' & t' & ? & ?)|(H1 & H2 & H3)]; [left; exists c', t'; set_solver|right]. specialize (H2 _ eq_refl). split_and!.
  - intros y [->|Hy]%elem_of_cons; [|by apply H1]. split; [done|]. cbn. rewrite Ht. by intros ? [= <-].
  - intros k0 ->. eapply not_before_trans; [done|by apply Hmin].
  - right. destruct H3 as [[[= <-] ->]|(c' & t' & ? & ?)]; [exists c, t|exists c', t']; set_solver.
Qed.

Lemma current_loop_spec direct drain l : (∀ x, x ∈ l → cache_wf x.2) → ∀ min_key shard,
  loop_found direct drain l min_key shard (current_loop direct drain l min_key shard).
Proof.
  induction l as [|[sh c] l IH]; intros Hwf min_key shard; cbn [current_loop].
  { destruct min_key as [k|]; [right|by split; [|set_solver]]. split_and!; [set_solver| |by left]. intros ? [= ->]. apply before_irrefl. }
  specialize (IH ltac:(set_solver)). assert (cache_wf c) as Hc by (apply (Hwf (sh, c)); set_solver).
  destruct (cached_cases c Hc) as [(t & Ht & Hh)|(Ht & Hn & Hb)]; rewrite Ht.
  - assert (¬ blocked c) as Hnb by (intros [Hb _]; by rewrite Hb in Hh).
    set (test := match min_key with None => _ | Some k => _ end). destruct test eqn:Etest; subst test.
    + case_decide as Ets; [left; exists c, t; split_and!; [set_solver|done|by intros ?]|].
      eapply loop_take; [done..| |apply IH]. intros k ->. rewrite bool_decide_eq_false_2 in Etest by done. cbn in Etest.
      pose proof (better_not_before direct t k) as Hx. by rewrite Etest in Hx.
    + destruct min_key as [k|]; [|done]. apply orb_false_iff in Etest as [Ets%bool_decide_eq_false Hk].
      apply loop_skip; [done| |apply IH]. cbn. rewrite Ht. split; [done|]. exists k. split; [done|].
      pose proof (better_not_before direct t k) as Hx. by rewrite Hk in Hx.
  - destruct (bool_decide _ && negb drain) eqn:E.
    + apply andb_true_iff in E as [E%bool_decide_eq_true Ed]. apply Hb in E. exists c. split_and!; [set_solver|done|by destruct drain].
    + apply loop_skip; [|cbn; by rewrite Ht|apply IH]. intros -> Hbl%Hb. by rewrite bool_decide_eq_true_2 in E.
Qed.

Lemma streams_insert m src sh c : m !! sh = Some c → streams m src ≡ₚ (cached c ++ src sh) :: streams (delete sh m) src.
Proof. intros Hc. unfold streams. by rewrite <- (map_to_list_delete m sh c Hc). Qed.
Lemma streams_other m src src' sh : m !! sh = None → (∀ sh', sh' ≠ sh → src' sh' = src sh') → streams m src' = streams m src.
Proof.
  intros Hn Hsrc. unfold streams. apply list_fmap_ext. intros i [sh' c] Hx%list_elem_of_lookup_2%elem_of_map_to_list. cbn.
  rewrite Hsrc; [done|]. by intros ->; rewrite Hn in Hx.
Qed.
Lemma elem_streams m src t : t ∈ mjoin (streams m src) ↔ ∃ sh c, m !! sh = Some c ∧ t ∈ cached c ++ src sh.
Proof.
  unfold streams. rewrite list_elem_of_join. setoid_rewrite list_elem_of_fmap. split.
  - intros (l & Ht & [sh c] & -> & Hx%elem_of_map_to_list). by exists sh, c.
  - intros (sh & c & Hx & Ht). eexists. split; [done|]. exists (sh, c). split; [done|]. by apply elem_of_map_to_list.
Qed.

(** One cache and its stream change, and [T] with them. *)
Lemma merges_update s src src' T sh c c' T' st : merges s src T → scans_ s !! sh = Some c → (∀ sh', sh' ≠ sh → src' sh' = src sh') →
  shard_ok c' (src' sh) → in_order (direct_ s) (cached c' ++ src' sh) → StronglySorted (before (direct_ s)) (key_obj_ <$> T') →
  (∀ rest, T ≡ₚ filter keyed (cached c ++ src sh) ++ rest → T' ≡ₚ filter keyed (cached c' ++ src' sh) ++ rest) →
  merges (set_current (set_scans s (<[sh := c']> (scans_ s))) st sh None) src' T'.
Proof.
  intros [H1 H2 H3 H4] Hc Hsrc Hok Hord HT Hperm. split; [|cbn; clear H4|done|done].
  - cbn. intros sh' c0. rewrite lookup_insert_Some. intros [[<- <-]|[Hne Hx]]; [done|]. rewrite Hsrc by done. by apply H1.
  - rewrite (streams_insert _ _ sh c') by by rewrite lookup_insert_eq. rewrite delete_insert_eq, (streams_other _ src _ sh) by (by rewrite lookup_delete_eq || done).
    cbn. rewrite filter_app. apply Hperm. rewrite H2, (streams_insert _ _ sh c) by done. cbn. by rewrite filter_app.
Qed.

Definition take_next s (sh : Z) : TemplateCcScanner K V := advance (set_current s ScannerOpen sh (scans_ s !! sh ≫= cache_Current)).

Lemma merges_take s src T sh c t : merges s src T → scans_ s !! sh = Some c → cache_Current c = Some t →
  (keyed t → head T = Some t) → merges (take_next s sh) src (if decide (keyed t) then tail T else T).
Proof.
  intros Hm Hc Ht HT. pose proof Hm as [H1 H2 H3 H4]. destruct (H1 _ _ Hc) as [(Hwf & Hsz & Hsrc) Hord].
  destruct (cached_MoveNext c t Hwf Ht) as [Ec Hwf']. rewrite Ec in Hord.
  assert (take_next s sh = set_current (set_scans s (<[sh := cache_MoveNext c]> (scans_ s))) ScannerOpen sh None) as ->.
  { unfold take_next, advance, set_current, set_scans. cbn. by rewrite (alter_as_insert _ _ _ _ Hc). }
  apply (merges_update s src src T sh c); [done..| | |].
  - unfold in_order in *. cbn [app] in Hord. rewrite filter_cons in Hord. case_decide; [|done]. by apply StronglySorted_inv in Hord as [? _].
  - case_decide; [|done]. destruct T; [done|]. by apply StronglySorted_inv in H3 as [? _].
  - intros rest. rewrite Ec. cbn [app]. rewrite filter_cons. case_decide as Ek; [|done]. destruct T as [|t' T]; [by specialize (HT Ek)|].
    specialize (HT Ek) as [= ->]. cbn. intros Hp. by apply Permutation_cons_inv in Hp.
Qed.

(** The core of a blocked shard delivers its next batch ([ScanNextBatchCc]). *)
Definition next_batch s src (sh : Z) : TemplateCcScanner K V * (Z → list tuple) :=
  (set_scans s (alter (λ c, fill_cache dflt (cache_Reset c) (take ScanBatchSize (src sh))) sh (scans_ s)),
   <[sh := drop ScanBatchSize (src sh)]> src).

Lemma merges_refill s src T sh c : merges s src T → scans_ s !! sh = Some c → blocked c →
  curr_shard_code_ s = sh → let '(s', src') := next_batch s src sh in merges s' src' T ∧
  ∀ sh' c', scans_ s' !! sh' = Some c' → blocked c' → sh' ≠ sh ∧ scans_ s !! sh' = Some c'.
Proof.
  intros Hm Hc [Hb _] Hsh. unfold next_batch. pose proof Hm as [H1 _ H3 H4]. destruct (H1 _ _ Hc) as [(Hwf & _) Hord]. rewrite Hb in Hord. cbn in Hord.
  destruct (cache_Reset_wf c Hwf) as (W1 & W2 & W3). rewrite (alter_as_insert _ _ _ _ Hc).
  destruct (fill_cache_cached dflt (take ScanBatchSize (src sh)) _ W1) as (F1 & F2 & F3). rewrite W2 in F2. rewrite W3, length_take in F3. rewrite app_nil_l in F2. split.
  - assert (set_scans s (<[sh := fill_cache dflt (cache_Reset c) (take ScanBatchSize (src sh))]> (scans_ s)) =
      set_current (set_scans s (<[sh := fill_cache dflt (cache_Reset c) (take ScanBatchSize (src sh))]> (scans_ s))) (scanner_status_ s) sh None) as ->.
    { unfold set_current, set_scans. cbn. by rewrite Hsh, H4. }
    apply (merges_update s src _ T sh c); try done.
    + intros sh' ?. by rewrite fn_lookup_insert_ne.
    + rewrite fn_lookup_insert. split_and!; [done|lia|]. intros Hne. destruct (decide (ScanBatchSize ≤ length (src sh))); [lia|]. by rewrite drop_ge in Hne by lia.
    + rewrite F2, fn_lookup_insert, take_drop. done.
    + intros rest. by rewrite F2, fn_lookup_insert, take_drop, Hb.
  - intros sh' c'. cbn [set_scans scans_]. rewrite lookup_insert_Some. intros [[<- <-]|[Hne Hx]] [Hb1 Hb2]; [|done]. exfalso. rewrite F2 in Hb1. rewrite F3 in Hb2.
    destruct (src sh); [cbn in Hb2; unfold ScanBatchSize in Hb2; lia|done].
Qed.

(** In a cache that is not blocked, the tuples of the stream with a key come after the
    next one if that has a key. *)
Lemma stream_head s src T sh c t' : merges s src T → scans_ s !! sh = Some c → ¬ blocked c → t' ∈ filter keyed (cached c ++ src sh) →
  ∃ t, cache_Current c = Some t ∧ (keyed t → ¬ before (direct_ s) (key_obj_ t') (key_obj_ t)).
Proof.
  intros [H1 _ _ _] Hc Hb Ht'. destruct (H1 _ _ Hc) as [(Hwf & Hsz & Hsrc) Hord].
  destruct (cached_cases c Hwf) as [(t & Ht & Hh)|(_ & Hn & _)].
  - exists t. split; [done|]. intros Hk. destruct (cached c) as [|t0 l]; [done|]. injection Hh as ->. unfold in_order in Hord.
    rewrite <- app_comm_cons, filter_cons, decide_True in Hord, Ht' by done. apply elem_of_cons in Ht' as [->|Ht']; [apply before_irrefl|].
    apply before_asym. cbn in Hord. apply StronglySorted_inv in Hord as [_ Hall]. rewrite Forall_forall in Hall. apply Hall. apply list_elem_of_fmap. by exists t'.
  - exfalso. rewrite Hn in Ht'. destruct (decide (src sh = [])) as [E|E]; [by rewrite E in Ht'; apply not_elem_of_nil in Ht'|]. apply Hb. split; [done|by apply Hsrc].
Qed.

(** What [Current] answers. *)
Lemma Current_spec s src T : merges s src T → drain_cache_mode_ s = false → scanner_status_ s ≠ ScannerClosed →
  (∃ sh c t, scans_ s !! sh = Some c ∧ cache_Current c = Some t ∧ Current s = (Some t, set_current s ScannerOpen sh (Some t)) ∧
     (keyed t → head T = Some t ∧ ∀ sh c, scans_ s !! sh = Some c → ¬ blocked c)) ∨
  (∃ sh c, scans_ s !! sh = Some c ∧ blocked c ∧ Current s = (None, set_current s ScannerBlocked sh None)) ∨
  (T = [] ∧ (∀ sh c, scans_ s !! sh = Some c → ¬ blocked c) ∧ ∃ sh, Current s = (None, set_current s ScannerClosed sh None)).
Proof.
  intros Hm Hd Hst. pose proof Hm as [H1 H2 H3 H4]. unfold Current. rewrite H4, decide_False by done.
  pose proof (current_loop_spec (direct_ s) (drain_cache_mode_ s) (map_to_list (scans_ s))) as Hl. rewrite Hd in *.
  specialize (Hl ltac:(intros [sh c] Hx%elem_of_map_to_list; by apply (H1 sh c)) None (curr_shard_code_ s)).
  destruct (current_loop _ _ _ _ _) as [b|[[k|] b]]; cbn in Hl.
  - destruct Hl as (c & Hx%elem_of_map_to_list & Hb & _). right. left. by exists b, c.
  - left. destruct Hl as [(c & t & Hx%elem_of_map_to_list & Ht & Hk)|(Hall & _ & [[? _]|(c & t & Hx%elem_of_map_to_list & Ht & <-)])]; [|done|].
    + exists b, c, t. rewrite Hx. cbn. rewrite Ht. split_and!; done.
    + exists b, c, t. rewrite Hx. cbn. rewrite Ht. split_and!; [done..|]. intros Hk.
      assert (∀ sh c', scans_ s !! sh = Some c' → ¬ blocked c') as Hnb by (intros sh c' Hc'%elem_of_map_to_list; by apply (Hall (sh, c'))).
      split; [|done]. assert (t ∈ T) as HtT.
      { rewrite H2. apply list_elem_of_filter. split; [done|]. apply elem_streams. exists b, c. split; [done|]. apply elem_of_app. left.
        rewrite cache_Current_head in Ht by by apply (H1 b c). destruct (cached c); [done|]. injection Ht as ->. by left. }
      destruct T as [|t0 T]; [by apply not_elem_of_nil in HtT|]. apply elem_of_cons in HtT as [->|HtT]; [done|]. exfalso.
      apply StronglySorted_inv in H3 as [_ Hall0]. rewrite Forall_forall in Hall0. specialize (Hall0 (key_obj_ t) ltac:(apply list_elem_of_fmap; by exists t)).
      assert (t0 ∈ filter keyed (mjoin (streams (scans_ s) src))) as [Hk0 (sh & c' & Hc' & Ht0)%elem_streams]%list_elem_of_filter by (rewrite <- H2; by left).
      destruct (stream_head s src (t0 :: T) sh c' t0) as (t' & Ht' & Hx'); [done|done|by eapply Hnb|by apply list_elem_of_filter|].
      destruct (Hall (sh, c')) as [_ Hy]; [by apply elem_of_map_to_list|]. destruct (Hy t' Ht') as [Hk' Hz]. by eapply not_before_trans; [apply Hz|apply Hx'|].
  - destruct Hl as [_ Hall]. right. right. assert (∀ sh c, scans_ s !! sh = Some c → ¬ blocked c) as Hnb
      by (intros sh c Hc%elem_of_map_to_list; by apply (Hall (sh, c))).
    split_and!; [|done|by eexists]. destruct T as [|t T]; [done|]. exfalso.
    assert (t ∈ filter keyed (mjoin (streams (scans_ s) src))) as [Hk (sh & c & Hc & Ht)%elem_streams]%list_elem_of_filter by (rewrite <- H2; by left).
    destruct (stream_head s src (t :: T) sh c t) as (t' & Ht' & _); [done|done|by eapply Hnb|by apply list_elem_of_filter|].
    destruct (Hall (sh, c)) as [Hn _]; [by apply elem_of_map_to_list|]. cbn in Hn. rewrite cache_Current_head, Hn in Ht' by by apply (H1 sh c). done.
Qed.
End merge.
