(* ===== verification/ScanNext.v ===== *)
(** * Scans of a transaction ([src/tx_execution.cpp])

    A transaction that scans a table must see its own writes.  [PostProcess(ScanNextOperation)]
    merges what the scanner delivers with the writes of the table that are not committed
    yet, and enters every tuple it has locked in the read set; [Process(ScanNextOperation)]
    asks the core of a blocked shard for its next batch; [DrainScanner] gives back the locks
    of the tuples the transaction will not read.  The main theorem says what the
    batches of a scan are together, whatever the sizes of the caches: the records of the table
    in the order of the keys, each replaced by the transaction's own write if it has one.

    The build is the hash-partitioned one.  The two directions of the source are one function
    here, with the direction as argument.  An iterator into the write set is the list of
    the entries from it to the end; a scan without one has the empty list, which the source
    treats in the same way.  The keys of a batch are all normal keys. *)

From stdpp Require Import sorting functions.
From S2P Require Import Prelude CcProtocol TableName ReadWriteSet CcPages PagesScan ScanCache.

(** ** Data *)

Record ScanBatchTuple (K V : Type) := mkScanBatchTuple {
  sb_key : K;
  sb_record : option V;
  sb_status : RecordStatus;
  sb_version_ts : Z;
  sb_cce_addr : CcEntryAddr;
}.
Arguments mkScanBatchTuple {_ _}.
Arguments sb_key {_ _}.
Arguments sb_record {_ _}.
Arguments sb_status {_ _}.
Arguments sb_version_ts {_ _}.
Arguments sb_cce_addr {_ _}.

(** The members of the scanner that decide which locks it takes. *)
Record ScanFlags := mkScanFlags {
  sf_for_write : bool;
  sf_covering_keys : bool;
  sf_iso_level : IsolationLevel;
  sf_protocol : CcProtocol;
}.

Inductive AdvanceType := AdvanceCcm | AdvanceWriteSet | AdvanceBoth.

Section scan.
Context {K V : Type} `{!KeyOrder K, !Countable K}.
Abbreviation tuple := (ScanTuple K V).
Abbreviation scanner := (TemplateCcScanner K V).
Abbreviation write := (K * WriteSetEntry V)%type.
Abbreviation rwset := (ReadWriteSet K V).
Implicit Types (t : tuple) (s : scanner) (W : list write) (rw : rwset).

(** ** The write set of a table *)

Definition key_le (a b : write) : Prop := ¬ b.1 <k a.1.
#[export] Instance key_le_dec : RelDecision key_le.
Proof. intros a b. unfold key_le. apply _. Defined.

(** The table's part of the write set is an ordered map. *)
Definition table_writes (m : gmap K (WriteSetEntry V)) : list write := merge_sort key_le (map_to_list m).

(** Skips the start key itself if it is excluded. *)
Definition skip_start (start_key : SearchKey K) (inclusive : bool) W : list write :=
  match W with
  | (k, _) :: W' => if bool_decide (Ordinary k = start_key) && negb inclusive then W' else W
  | [] => []
  end.
Definition InitIter (m : gmap K (WriteSetEntry V)) (start_key : SearchKey K) (inclusive : bool) : list write :=
  let l := table_writes m in skip_start start_key inclusive (drop (lower_bound start_key l.*1) l).
Definition InitReverseIter (m : gmap K (WriteSetEntry V)) (start_key : SearchKey K) (inclusive : bool) : list write :=
  let l := table_writes m in skip_start start_key inclusive (reverse (take (upper_bound start_key l.*1) l)).

(** What [PostProcess(ScanOpenOperation)] starts a scan with. *)
Definition scan_open_writes rw (table : TableName) (direct : ScanDirection) (start_key : SearchKey K) (inclusive : bool) : list write :=
  match wset_ rw !! table with
  | Some (_, m) => match direct with Forward => InitIter m start_key inclusive | Backward => InitReverseIter m start_key inclusive end
  | None => []
  end.

(** ** One batch *)

Context (flags : ScanFlags) (table : TableName) (has_command : CcEntryAddr → bool).

Definition tuple_lock s t : LockType :=
  DeduceScanTupleLockType s (sf_for_write flags) (sf_covering_keys flags) (sf_iso_level flags) (sf_protocol flags) (scan_rec_status_ t).

(** A tuple with a lock is entered in the read set; [None] when it is not the version the
    transaction has read before. *)
Definition add_scan_read s t rw : option rwset :=
  if bool_decide (tuple_lock s t ≠ NoLock) && bool_decide (key_ts_ t ≠ 0%Z) && negb (has_command (scan_cce_addr_ t)) then
    let read_ts := if decide (scan_rec_status_ t ≠ Unknown) then key_ts_ t else 0%Z in
    let '(ok, rw') := AddRead rw (scan_cce_addr_ t) read_ts table in if ok then Some rw' else None
  else Some rw.

(** The transaction's own write in the batch. *)
Definition own_write (w : write) (ts : Z) : ScanBatchTuple K V :=
  if decide (op_ w.2 = OpDelete) then mkScanBatchTuple w.1 None Deleted ts CcEntryAddr_new
  else mkScanBatchTuple w.1 (rec_ w.2) Normal ts CcEntryAddr_new.
(** A scanned tuple in the batch; gaps and records that are neither there nor deleted are left
    out. *)
Definition scanned t : list (ScanBatchTuple K V) :=
  if decide (0 < key_ts_ t)%Z then
    if decide (scan_rec_status_ t = Normal) then [mkScanBatchTuple (key_obj_ t) (rec_obj t) Normal (key_ts_ t) (scan_cce_addr_ t)]
    else if decide (scan_rec_status_ t = Deleted) then [mkScanBatchTuple (key_obj_ t) None Deleted (key_ts_ t) (scan_cce_addr_ t)]
    else []
  else [].

Definition advance_type (direct : ScanDirection) t W : AdvanceType :=
  match W with
  | [] => AdvanceCcm
  | (k, _) :: _ =>
      if decide (key_ts_ t = 0)%Z then AdvanceCcm
      else if decide (before direct k (key_obj_ t)) then AdvanceWriteSet
      else if decide (before direct (key_obj_ t) k) then AdvanceCcm else AdvanceBoth
  end.

(** ** Giving back locks *)

Definition drain_tuple s t rw (drain_batch : list (CcEntryAddr * Z)) : rwset * list (CcEntryAddr * Z) :=
  if bool_decide (tuple_lock s t ≠ NoLock) && bool_decide (key_ts_ t ≠ 0%Z) then
    let '(cnt, rw') := RemoveReadEntry rw table (scan_cce_addr_ t) in
    (rw', if decide (cnt = 0%Z)
          then drain_batch ++ [(scan_cce_addr_ t, if decide (scan_rec_status_ t = Unknown) then 0%Z else key_ts_ t)] else drain_batch)
  else (rw, drain_batch).

Fixpoint drain_loop (fuel : nat) s rw (drain_batch : list (CcEntryAddr * Z)) : option (scanner * rwset * list (CcEntryAddr * Z)) :=
  match fuel with
  | 0 => None
  | S fuel =>
      let '(t, s1) := Current s in
      match t with
      | None => Some (s1, rw, drain_batch)
      | Some t =>
          let '(rw', drain') := drain_tuple s t rw drain_batch in
          drain_loop fuel (MoveNext s1) rw' drain'
      end
  end.

Definition DrainScanner (fuel : nat) s rw (drain_batch : list (CcEntryAddr * Z)) : option (scanner * rwset * list (CcEntryAddr * Z)) :=
  let s0 := SetDrainCacheMode s true in
  let '(t, s1) := Current s0 in
  let s2 := match t with None => if decide (scanner_status_ s1 = ScannerBlocked) then MoveNext s1 else s1 | Some _ => s1 end in
  drain_loop fuel s2 rw drain_batch.

(** [TransactionExecution::ScanClose]: the rows that the application does not need any more
    ([unlock_batch]), the last tuple of each cache, which the core has pinned, and the tuples
    that were not read. *)
Record UnlockTuple := mkUnlockTuple { ul_cce_addr : CcEntryAddr; ul_version_ts : Z; ul_status : RecordStatus }.

Definition status_lock s (status : RecordStatus) : LockType :=
  DeduceScanTupleLockType s (sf_for_write flags) (sf_covering_keys flags) (sf_iso_level flags) (sf_protocol flags) status.

Definition unlock_tuple s (x : rwset * list (CcEntryAddr * Z)) (u : UnlockTuple) : rwset * list (CcEntryAddr * Z) :=
  if bool_decide (cce_lock_ptr_ (ul_cce_addr u) = 0%Z) || bool_decide (status_lock s (ul_status u) = NoLock) then x
  else
    let '(cnt, rw') := RemoveReadEntry x.1 table (ul_cce_addr u) in
    (rw', if decide (cnt = 0%Z) then x.2 ++ [(ul_cce_addr u, ul_version_ts u)] else x.2).

Definition unpin_last s (drain_batch : list (CcEntryAddr * Z)) (x : Z * ScanCache K V) : list (CcEntryAddr * Z) :=
  match Last x.2 with
  | Some t =>
      if (bool_decide (tuple_lock s t = NoLock) || bool_decide (key_ts_ t = 0%Z)) && negb (has_command (scan_cce_addr_ t))
      then drain_batch ++ [(scan_cce_addr_ t, key_ts_ t)] else drain_batch
  | None => drain_batch
  end.

Definition ScanClose (fuel : nat) s rw (unlock_batch : list UnlockTuple) : option (scanner * rwset * list (CcEntryAddr * Z)) :=
  let '(rw1, drain1) := foldl (unlock_tuple s) (rw, []) unlock_batch in
  let drain2 := foldl (unpin_last s) drain1 (map_to_list (scans_ s)) in
  '(s2, rw2, drain3) ← DrainScanner fuel s rw1 drain2;
  Some (Close s2, rw2, drain3).

(** ** Process and PostProcess of [ScanNextOperation] *)

Inductive ScanOutcome :=
  | ScanBatchDone (s : scanner) (W : list write) (rw : rwset) (batch : list (ScanBatchTuple K V))
  | BreakRepeatableRead (s : scanner) (rw : rwset) (drain_batch : list (CcEntryAddr * Z)).

(** The loop that merges the caches with the write set. *)
Fixpoint scan_loop (fuel : nat) s W rw (batch : list (ScanBatchTuple K V)) : option ScanOutcome :=
  match fuel with
  | 0 => None
  | S fuel =>
      if decide (scanner_status_ s = ScannerOpen) then
        let '(t, s1) := Current s in
        match t with
        | None => Some (ScanBatchDone (MoveNext s1) W rw batch)
        | Some t =>
            match advance_type (direct_ s1) t W, W with
            | AdvanceWriteSet, w :: W' => scan_loop fuel s1 W' rw (batch ++ [own_write w 1])
            | adv, _ =>
                match add_scan_read s1 t rw with
                | None => '(s2, rw', drain) ← DrainScanner fuel s1 rw []; Some (BreakRepeatableRead s2 rw' drain)
                | Some rw' =>
                    match adv, W with
                    | AdvanceBoth, w :: W' => scan_loop fuel (MoveNext s1) W' rw' (batch ++ [own_write w (key_ts_ t)])
                    | _, _ => scan_loop fuel (MoveNext s1) W rw' (batch ++ scanned t)
                    end
                end
            end
        end
      else Some (ScanBatchDone s W rw batch)
  end.

(** After the loop, the writes up to the end of the batch follow, or all of them when the
    scan is complete. *)
Definition batch_end s (batch : list (ScanBatchTuple K V)) : option K :=
  if decide (scanner_status_ s = ScannerBlocked) then
    sb_key <$> match direct_ s with Forward => last batch | Backward => head batch end
  else None.
Definition within (direct : ScanDirection) (bound : option K) (k : K) : bool :=
  match bound with
  | None => true
  | Some b => match direct with Forward => bool_decide (k <k b) | Backward => bool_decide (b <k k) || bool_decide (b = k) end
  end.
Fixpoint flush_writes (direct : ScanDirection) (bound : option K) W (batch : list (ScanBatchTuple K V)) : list write * list (ScanBatchTuple K V) :=
  match W with
  | w :: W' => if within direct bound w.1 then flush_writes direct bound W' (batch ++ [own_write w 1]) else (W, batch)
  | [] => ([], batch)
  end.

Definition PostProcess_ScanNext (fuel : nat) s W rw : option ScanOutcome :=
  o ← scan_loop fuel s W rw [];
  match o with
  | ScanBatchDone s' W' rw' batch =>
      let '(W2, batch2) := flush_writes (direct_ s') (batch_end s' batch) W' batch in Some (ScanBatchDone s' W2 rw' batch2)
  | BreakRepeatableRead _ _ _ => Some o
  end.

(** Whether [Process] asks for the next batch, and of which shard. *)
Definition Process_ScanNext s : option Z * scanner :=
  let '(t, s1) := Current s in
  (match t with None => if decide (scanner_status_ s1 = ScannerBlocked) then Some (BlockedShard s1) else None | Some _ => None end, s1).

(** One call of the application: [src] is what the cores will deliver.  When the answer is
    there the scanner is open again. *)
Definition scan_next (dflt : tuple) (fuel : nat) s W rw (src : Z → list tuple) : option (ScanOutcome * (Z → list tuple)) :=
  let '(req, s1) := Process_ScanNext s in
  let '(s2, src') := match req with Some sh => next_batch dflt s1 src sh | None => (s1, src) end in
  o ← PostProcess_ScanNext fuel (SetStatus s2 ScannerOpen) W rw;
  Some (o, src').

(** The batches of a scan until the scanner is closed. *)
Fixpoint scan_all (dflt : tuple) (calls fuel : nat) s W rw (src : Z → list tuple) (acc : list (ScanBatchTuple K V)) : option ScanOutcome :=
  match calls with
  | 0 => None
  | S calls =>
      '(o, src') ← scan_next dflt fuel s W rw src;
      match o with
      | ScanBatchDone s' W' rw' batch =>
          if decide (scanner_status_ s' = ScannerClosed) then Some (ScanBatchDone s' W' rw' (acc ++ batch))
          else scan_all dflt calls fuel s' W' rw' src' (acc ++ batch)
      | BreakRepeatableRead _ _ _ => Some o
      end
  end.
End scan.

(** ** The records of a scan with the own writes *)

Section overlay.
Context {K V : Type} `{!KeyOrder K}.
Abbreviation tuple := (ScanTuple K V).
Abbreviation write := (K * WriteSetEntry V)%type.
Implicit Types (t : tuple) (T : list tuple) (W : list write).

(** A tuple that stands for a row. *)
Definition row t : Prop := (0 < key_ts_ t)%Z ∧ (scan_rec_status_ t = Normal ∨ scan_rec_status_ t = Deleted).

Fixpoint overlay (direct : ScanDirection) T : list write → list (ScanBatchTuple K V) :=
  match T with
  | [] => λ W, (λ w, own_write w 1) <$> W
  | t :: T' =>
      fix go W :=
        match W with
        | [] => scanned t ++ overlay direct T' []
        | w :: W' =>
            if decide (before direct w.1 (key_obj_ t)) then own_write w 1 :: go W'
            else if decide (before direct (key_obj_ t) w.1) then scanned t ++ overlay direct T' W
            else own_write w (key_ts_ t) :: overlay direct T' W'
        end
  end.

Lemma overlay_nil_r direct t T : overlay direct (t :: T) [] = scanned t ++ overlay direct T [].
Proof. done. Qed.
Lemma overlay_cons direct t T w W : overlay direct (t :: T) (w :: W) =
  if decide (before direct w.1 (key_obj_ t)) then own_write w 1 :: overlay direct (t :: T) W
  else if decide (before direct (key_obj_ t) w.1) then scanned t ++ overlay direct T (w :: W)
  else own_write w (key_ts_ t) :: overlay direct T W.
Proof. done. Qed.

Lemma sb_key_own (w : write) ts : sb_key (own_write w ts) = w.1.
Proof. unfold own_write. by case_decide. Qed.
Lemma scanned_row t : row t → ∃ x, scanned t = [x] ∧ sb_key x = key_obj_ t.
Proof.
  intros [Hts Hst]. unfold scanned. rewrite decide_True by done. case_decide; [by eexists|]. rewrite decide_True by naive_solver. by eexists.
Qed.

(** The version of a key that the scan found; 1 for a key that is not in the table. *)
Definition scanned_ts T (k : K) : Z := default 1%Z (key_ts_ <$> List.find (λ t, bool_decide (key_obj_ t = k)) T).

Definition sorted_rows direct T : Prop := StronglySorted (before direct) (key_obj_ <$> T).
Definition sorted_writes direct W : Prop := StronglySorted (before direct) W.*1.

(** What the batches of a scan are to have: the transaction's writes, and the rows it has not
    written, by key. *)
Record own_view direct T W (l : list (ScanBatchTuple K V)) : Prop := {
  ov_sorted : StronglySorted (before direct) (sb_key <$> l);
  ov_elem x : x ∈ l ↔ (∃ w, w ∈ W ∧ x = own_write w (scanned_ts T w.1)) ∨ (∃ t, t ∈ T ∧ key_obj_ t ∉ W.*1 ∧ scanned t = [x]);
}.

Lemma sorted_after {A} (f : A → K) direct x l y : StronglySorted (before direct) (f <$> x :: l) → y ∈ l → before direct (f x) (f y).
Proof. cbn. intros [_ H]%StronglySorted_inv Hy. rewrite Forall_forall in H. apply H. apply list_elem_of_fmap. by exists y. Qed.
Lemma sorted_tail {A} (f : A → K) direct x l : StronglySorted (before direct) (f <$> x :: l) → StronglySorted (before direct) (f <$> l).
Proof. cbn. by intros [? _]%StronglySorted_inv. Qed.

Lemma scanned_ts_cons t T k : key_obj_ t ≠ k → scanned_ts (t :: T) k = scanned_ts T k.
Proof. intros Hne. unfold scanned_ts. cbn. by rewrite bool_decide_eq_false_2. Qed.

Lemma scanned_ts_absent T k : (∀ t, t ∈ T → key_obj_ t ≠ k) → scanned_ts T k = 1%Z.
Proof.
  induction T as [|t T IH]; [done|]. intros Hn. rewrite scanned_ts_cons by (apply Hn; by left). apply IH. intros t' ?. apply Hn. by right.
Qed.
Lemma scanned_key t x : row t → scanned t = [x] → sb_key x = key_obj_ t.
Proof. intros Ht Ex. destruct (scanned_row t Ht) as (y & Ey & <-). congruence. Qed.

(** All keys of [T] and [W] come after [k]. *)
Definition all_after direct k T W : Prop := (∀ t, t ∈ T → before direct k (key_obj_ t)) ∧ (∀ w, w ∈ W → before direct k w.1).

Lemma view_sorted_cons direct T W l x : own_view direct T W l → Forall row T → all_after direct (sb_key x) T W →
  StronglySorted (before direct) (sb_key <$> x :: l).
Proof.
  intros [Hs He] Hrow [HT HW]. cbn. constructor; [done|]. apply Forall_forall. rewrite Forall_forall in Hrow.
  intros k (y & -> & [(w & Hw & ->)|(t & Ht & _ & Ey)]%He)%list_elem_of_fmap; [rewrite sb_key_own; by apply HW|].
  rewrite (scanned_key t y) by auto. by apply HT.
Qed.

Lemma all_after_ne direct k T W : all_after direct k T W → (∀ t, t ∈ T → key_obj_ t ≠ k) ∧ k ∉ W.*1.
Proof.
  intros [HT HW]. split; [intros t Ht <-; by apply (before_irrefl direct (key_obj_ t)), HT|].
  intros (w & -> & Hw)%list_elem_of_fmap. by apply (before_irrefl direct w.1), HW.
Qed.

Lemma view_own_first direct T W l w : own_view direct T W l → Forall row T → all_after direct w.1 T W → own_view direct T (w :: W) (own_write w 1 :: l).
Proof.
  intros Hv Hrow Ha. destruct (all_after_ne _ _ _ _ Ha) as [HnT HnW]. split; [eapply view_sorted_cons; [done..|by rewrite sb_key_own]|].
  intros x. change ((w :: W).*1) with (w.1 :: W.*1). rewrite elem_of_cons, (ov_elem _ _ _ _ Hv). setoid_rewrite elem_of_cons. split.
  - intros [->|[(w' & Hw & ->)|(t & Ht & Hk & Ex)]]; [left; exists w; rewrite scanned_ts_absent by done; auto|left; eauto|right; exists t].
    split_and!; [done| |done]. intros [E|?]; [by apply (HnT t)|done].
  - intros [(w' & [->|Hw] & ->)|(t & Ht & Hk & Ex)]; [left; by rewrite scanned_ts_absent|right; left; eauto|right; right; exists t; naive_solver].
Qed.

Lemma view_row_first direct t T W l : own_view direct T W l → row t → Forall row T → all_after direct (key_obj_ t) T W → own_view direct (t :: T) W (scanned t ++ l).
Proof.
  intros Hv Ht Hrow Ha. destruct (all_after_ne _ _ _ _ Ha) as [HnT HnW]. destruct (scanned_row t Ht) as (xt & Ext & Ekt). rewrite Ext.
  split; [eapply view_sorted_cons; [done..|by rewrite Ekt]|].
  assert (∀ w, w ∈ W → scanned_ts (t :: T) w.1 = scanned_ts T w.1) as Hts.
  { intros w Hw. apply scanned_ts_cons. intros E. apply HnW. rewrite E. apply list_elem_of_fmap. by exists w. }
  intros x. cbn [app]. rewrite elem_of_cons, (ov_elem _ _ _ _ Hv). setoid_rewrite elem_of_cons. split.
  - intros [->|[(w & Hw & ->)|(t' & Ht' & Hk & Ex)]]; [right; exists t; auto|left; exists w; by rewrite Hts|right; exists t'; auto].
  - intros [(w & Hw & ->)|(t' & [->|Ht'] & Hk & Ex)]; [right; left; exists w; by rewrite Hts|left; congruence|right; right; eauto].
Qed.

Lemma view_both_first direct t T W l w : own_view direct T W l → key_obj_ t = w.1 → Forall row T → all_after direct w.1 T W →
  own_view direct (t :: T) (w :: W) (own_write w (key_ts_ t) :: l).
Proof.
  intros Hv Ek Hrow Ha. destruct (all_after_ne _ _ _ _ Ha) as [HnT HnW]. split; [eapply view_sorted_cons; [done..|by rewrite sb_key_own]|].
  assert (∀ w', w' ∈ W → scanned_ts (t :: T) w'.1 = scanned_ts T w'.1) as Hts.
  { intros w' Hw. apply scanned_ts_cons. rewrite Ek. intros E. apply HnW. rewrite E. apply list_elem_of_fmap. by exists w'. }
  assert (scanned_ts (t :: T) w.1 = key_ts_ t) as Htw by (unfold scanned_ts; cbn; by rewrite bool_decide_eq_true_2).
  intros x. change ((w :: W).*1) with (w.1 :: W.*1). rewrite elem_of_cons, (ov_elem _ _ _ _ Hv). setoid_rewrite elem_of_cons. split.
  - intros [->|[(w' & Hw & ->)|(t' & Ht' & Hk & Ex)]]; [left; exists w; rewrite Htw; auto|left; exists w'; rewrite Hts by done; auto|right; exists t'].
    split_and!; [auto| |done]. intros [E|?]; [by apply (HnT t')|done].
  - intros [(w' & [->|Hw] & ->)|(t' & [->|Ht'] & Hk & Ex)].
    + left. by rewrite Htw.
    + right. left. exists w'. by rewrite Hts.
    + by destruct Hk; left.
    + right. right. exists t'. naive_solver.
Qed.

Lemma overlay_view direct T : ∀ W, sorted_rows direct T → sorted_writes direct W → Forall row T → own_view direct T W (overlay direct T W).
Proof.
  induction T as [|t T IH]; intros W HT HW Hrow.
  { split; cbn.
    - unfold sorted_writes in HW. rewrite <- list_fmap_compose. erewrite list_fmap_ext; [exact HW|]. intros i w _. apply sb_key_own.
    - intros x. rewrite list_elem_of_fmap. split; [intros (w & -> & Hw); left; by exists w|].
      intros [(w & Hw & ->)|(t & ?%not_elem_of_nil & _)]; [by exists w|done]. }
  apply Forall_cons in Hrow as [Ht Hrow]. pose proof (sorted_tail _ _ _ _ HT) as HT'.
  assert (∀ t', t' ∈ T → before direct (key_obj_ t) (key_obj_ t')) as Hafter by (intros; by eapply sorted_after).
  induction W as [|w W IHW].
  { rewrite overlay_nil_r. apply view_row_first; [by apply IH|done..|]. split; [done|]. by intros w ?%not_elem_of_nil. }
  pose proof (sorted_tail _ _ _ _ HW) as HW'. assert (∀ w', w' ∈ W → before direct w.1 w'.1) as Hafter' by (intros; by eapply sorted_after).
  rewrite overlay_cons. case_decide as E1; [|case_decide as E2].
  - apply view_own_first; [by apply IHW|by constructor|]. split; [|done]. intros t' [->|Ht']%elem_of_cons; [done|]. eapply before_trans; [done|by apply Hafter].
  - apply view_row_first; [by apply IH|done..|]. split; [done|]. intros w' [->|Hw']%elem_of_cons; [done|]. eapply before_trans; [done|by apply Hafter'].
  - assert (key_obj_ t = w.1) as Ek by (destruct (before_total direct (key_obj_ t) w.1) as [?|[?|?]]; done).
    apply view_both_first; [by apply IH|done..|]. rewrite <- Ek in *. split; done.
Qed.
End overlay.

(** ** The scanner while a batch is merged *)

Section peek.
Context {K V : Type} `{!KeyOrder K}.
Abbreviation tuple := (ScanTuple K V).
Abbreviation scanner := (TemplateCcScanner K V).
Implicit Types (t : tuple) (c : ScanCache K V) (s : scanner) (T : list tuple) (src : Z → list tuple).

Definition none_blocked s : Prop := ∀ sh c, scans_ s !! sh = Some c → ¬ blocked c.
Definition one_blocked s : Prop := ∀ sh sh' c c', scans_ s !! sh = Some c → scans_ s !! sh' = Some c' → blocked c → blocked c' → sh = sh'.
(** A gap is not the last tuple of a full batch. *)
Definition gaps_ok s src : Prop := ∀ sh c i t, scans_ s !! sh = Some c → (take (size_ c) (cache_ c) ++ src sh) !! i = Some t → ¬ keyed t → S i `mod` ScanBatchSize ≠ 0.

Record scan_inv s src T : Prop := {
  si_merges : merges s src T;
  si_drain : drain_cache_mode_ s = false;
  si_gaps : gaps_ok s src;
  si_one : one_blocked s;
}.

Definition cached_total s : nat := length (mjoin (streams (scans_ s) (λ _, []))).

Lemma cached_total_update s st sh c c' (t : option tuple) : scans_ s !! sh = Some c →
  cached_total s + length (cached c') = cached_total (set_current (set_scans s (<[sh := c']> (scans_ s))) st sh t) + length (cached c).
Proof.
  intros Hc. unfold cached_total. cbn. rewrite (streams_insert (scans_ s) _ sh c Hc), (streams_insert (<[sh := c']> (scans_ s)) _ sh c') by by rewrite lookup_insert_eq.
  rewrite delete_insert_eq. cbn. rewrite !length_app. cbn. lia.
Qed.

Lemma take_next_eq s sh c : scans_ s !! sh = Some c → take_next s sh = set_current (set_scans s (<[sh := cache_MoveNext c]> (scans_ s))) ScannerOpen sh None.
Proof. intros Hc. unfold take_next, advance, set_current, set_scans. cbn. by rewrite (alter_as_insert _ _ _ _ Hc). Qed.

Lemma take_next_total s sh c t : scans_ s !! sh = Some c → cache_wf c → cache_Current c = Some t → S (cached_total (take_next s sh)) = cached_total s.
Proof.
  intros Hc Hwf Ht. rewrite (take_next_eq s sh c Hc). destruct (cached_MoveNext c t Hwf Ht) as [Ec _].
  pose proof (cached_total_update s ScannerOpen sh c (cache_MoveNext c) None Hc) as Hx. rewrite Ec in Hx. cbn [length] in Hx. lia.
Qed.

(** Reading a tuple keeps the invariant; a gap does not block its cache. *)
Lemma scan_inv_take s src T sh c t : scan_inv s src T → scans_ s !! sh = Some c → cache_Current c = Some t →
  (keyed t → head T = Some t ∧ none_blocked s) →
  scan_inv (take_next s sh) src (if decide (keyed t) then tail T else T) ∧ (¬ keyed t → none_blocked s → none_blocked (take_next s sh)).
Proof.
  intros [Hm Hd Hg Ho] Hc Ht Hk. pose proof (mg_ok _ _ _ Hm sh c Hc) as [(Hwf & Hsz & _) _].
  assert (¬ keyed t → ¬ blocked (cache_MoveNext c)) as Hnb.
  { intros Hnk [Hb Hs]. destruct (cached_MoveNext c t Hwf Ht) as [Ec _]. rewrite Hb in Ec. pose proof (cached_length c Hwf) as Hl. rewrite Ec in Hl. cbn in Hl, Hs.
    apply (Hg sh c (idx_ c) t Hc); [|done|].
    - unfold cache_Current in Ht. case_decide; [|done]. rewrite lookup_app_l by (rewrite length_take; destruct Hwf; lia). by rewrite lookup_take_lt.
    - assert (S (idx_ c) = ScanBatchSize) as -> by lia. done. }
  assert (∀ sh' c', scans_ (take_next s sh) !! sh' = Some c' → blocked c' → sh' = sh ∧ c' = cache_MoveNext c ∧ keyed t ∨ sh' ≠ sh ∧ scans_ s !! sh' = Some c') as Hcases.
  { intros sh' c'. rewrite (take_next_eq s sh c Hc). cbn. rewrite lookup_insert_Some. intros [[<- <-]|[Hne Hx]] Hb; [left|right; done].
    split_and!; [done..|]. destruct (decide (keyed t)); [done|]. by destruct Hnb. }
  split; [split|].
  - eapply merges_take; [done..|]. intros Hk'. by apply Hk.
  - by rewrite (take_next_eq s sh c Hc).
  - intros sh' c' i t'. rewrite (take_next_eq s sh c Hc). cbn. rewrite lookup_insert_Some. intros [[<- <-]|[Hne Hx]]; [apply (Hg sh c i t' Hc)|by apply Hg].
  - intros sh1 sh2 c1 c2 H1 H2 B1 B2. destruct (Hcases _ _ H1 B1) as [(-> & _ & Hk1)|[Hn1 H1']], (Hcases _ _ H2 B2) as [(-> & _ & Hk2)|[Hn2 H2']].
    + done.
    + exfalso. by apply (proj2 (Hk Hk1) sh2 c2).
    + exfalso. by apply (proj2 (Hk Hk2) sh1 c1).
    + by apply (Ho sh1 sh2 c1 c2).
  - intros Hnk Hn sh' c' H1 B1. destruct (Hcases _ _ H1 B1) as [(_ & _ & ?)|[_ H1']]; [done|]. by apply (Hn sh' c').
Qed.

Lemma current_loop_shard direct drain (l : list (Z * ScanCache K V)) : ∀ min_key sh sh',
  match current_loop direct drain l min_key sh with inl b => current_loop direct drain l min_key sh' = inl b | inr _ => True end.
Proof.
  induction l as [|[x c] l IH]; intros min_key sh sh'; cbn [current_loop]; [done|].
  destruct (cache_Current c) as [t|]; [|destruct (_ && _); [done|apply IH]].
  destruct (match min_key with None => _ | Some k => _ end); [|apply IH]. case_decide; [done|]. pose proof (IH (Some (key_obj_ t)) x x). by destruct (current_loop _ _ l _ x).
Qed.

(** [s] is [s0], perhaps with the current tuple. *)
Inductive peeks s0 T : scanner → Prop :=
  | peek_none : peeks s0 T s0
  | peek_tuple sh c t : scans_ s0 !! sh = Some c → cache_Current c = Some t → (keyed t → head T = Some t ∧ none_blocked s0) →
      peeks s0 T (set_current s0 ScannerOpen sh (Some t)).

Lemma peek_cases s0 s src T : scan_inv s0 src T → peeks s0 T s → scanner_status_ s = ScannerOpen →
  (∃ sh c t, let s1 := set_current s0 ScannerOpen sh (Some t) in
     scans_ s0 !! sh = Some c ∧ cache_Current c = Some t ∧ (keyed t → head T = Some t ∧ none_blocked s0) ∧ Current s = (Some t, s1) ∧ MoveNext s1 = take_next s0 sh) ∨
  (∃ sh c s1, let s2 := set_current s0 ScannerBlocked sh None in
     scans_ s0 !! sh = Some c ∧ blocked c ∧ Current s = (None, s1) ∧ MoveNext s1 = s2 ∧ Current s2 = (None, s2)) ∨
  (T = [] ∧ none_blocked s0 ∧ ∃ sh s1, Current s = (None, s1) ∧ MoveNext s1 = set_current s0 ScannerClosed sh None).
Proof.
  intros [Hm Hd _ _] Hp Hst. assert (∀ sh c t, scans_ s0 !! sh = Some c → cache_Current c = Some t →
    MoveNext (set_current s0 ScannerOpen sh (Some t)) = take_next s0 sh) as Hmove.
  { intros sh c t Hc Ht. unfold take_next. rewrite Hc. cbn. by rewrite Ht. }
  destruct Hp as [|sh c t Hc Ht Hk]; [|left; exists sh, c, t; split_and!; try done; by eapply Hmove].
  destruct (Current_spec s0 src T Hm Hd) as [(sh & c & t & Hc & Ht & E & Hk)|[(sh & c & Hc & Hb & E)|(-> & Hn & sh & E)]]; [congruence|left|right; left|right; right].
  - exists sh, c, t. split_and!; try done.
  - exists sh, c, (set_current s0 ScannerBlocked sh None). cbv zeta. assert (Current (set_current s0 ScannerBlocked sh None) = (None, set_current s0 ScannerBlocked sh None)) as Hagain.
    2: { split_and!; [done..| |done]. unfold MoveNext. cbn [curr_tuple_ set_current scanner_status_]. by rewrite decide_False, Hagain. }
    unfold Current in E. rewrite (mg_none _ _ _ Hm), decide_False in E by congruence.
    unfold Current. cbn. pose proof (current_loop_shard (direct_ s0) (drain_cache_mode_ s0) (map_to_list (scans_ s0)) None (curr_shard_code_ s0) sh) as Hsh.
    destruct (current_loop _ _ _ _ (curr_shard_code_ s0)) as [b|[[k|] b]]; [|by injection E as E1; rewrite E1 in *|done]. injection E as <-. by rewrite Hsh.
  - split_and!; [done..|]. exists sh, (set_current s0 ScannerClosed sh None). by split.
Qed.
End peek.

(** ** Draining *)

Section drain.
Context {K V : Type} `{!KeyOrder K, !Countable K} (flags : ScanFlags) (table : TableName) (has_command : CcEntryAddr → bool).
Abbreviation tuple := (ScanTuple K V).
Abbreviation scanner := (TemplateCcScanner K V).
Abbreviation rwset := (ReadWriteSet K V).
Implicit Types (t : tuple) (c : ScanCache K V) (s : scanner) (rw : rwset) (drain : list (CcEntryAddr * Z)).

Record drainable s : Prop := {
  dr_wf sh c : scans_ s !! sh = Some c → cache_wf c;
  dr_mode : drain_cache_mode_ s = true;
  dr_curr t : curr_tuple_ s = Some t → ∃ c, scans_ s !! curr_shard_code_ s = Some c ∧ cache_Current c = Some t;
}.

(** The tuples that the caches still have. *)
Definition unread s : list tuple := mjoin (streams (scans_ s) (λ _, [])).

Lemma drainable_advance s c t : drainable s → curr_tuple_ s = Some t → scans_ s !! curr_shard_code_ s = Some c → cache_Current c = Some t →
  drainable (advance s) ∧ unread s ≡ₚ t :: unread (advance s).
Proof.
  intros [H1 H2 H3] _ Hc Ht. assert (scans_ (advance s) = <[curr_shard_code_ s := cache_MoveNext c]> (scans_ s)) as E by (cbn; by rewrite (alter_as_insert _ _ _ _ Hc)).
  destruct (cached_MoveNext c t (H1 _ _ Hc) Ht) as [Ec Hwf]. split.
  - split; [|done|done]. intros sh c'. rewrite E, lookup_insert_Some. intros [[_ <-]|[_ Hx]]; [done|by apply (H1 sh)].
  - unfold unread. rewrite E, (streams_insert (scans_ s) _ (curr_shard_code_ s) c Hc), (streams_insert (<[_ := _]> _) _ (curr_shard_code_ s) (cache_MoveNext c)) by by rewrite lookup_insert_eq.
    rewrite delete_insert_eq. cbn. by rewrite Ec.
Qed.

Lemma drain_Current s : drainable s → scanner_status_ s ≠ ScannerClosed →
  (∃ t s1, Current s = (Some t, s1) ∧ curr_tuple_ s1 = Some t ∧ drainable s1 ∧ scans_ s1 = scans_ s ∧ index_type_ s1 = index_type_ s ∧ scanner_status_ s1 ≠ ScannerClosed) ∨
  (unread s = [] ∧ ∃ s1, Current s = (None, s1) ∧ scanner_status_ s1 = ScannerClosed ∧ curr_tuple_ s1 = None).
Proof.
  intros Hd Hst. unfold Current. destruct (curr_tuple_ s) as [t|] eqn:E; [left; by exists t, s|]. rewrite decide_False by done. destruct Hd as [H1 H2 H3].
  pose proof (current_loop_spec (direct_ s) (drain_cache_mode_ s) (map_to_list (scans_ s))) as Hl. rewrite H2 in *.
  specialize (Hl ltac:(intros [sh c] Hx%elem_of_map_to_list; by apply (H1 sh c)) None (curr_shard_code_ s)).
  destruct (current_loop _ _ _ _ _) as [b|[[k|] b]]; cbn in Hl.
  - by destruct Hl as (? & _ & _ & ?).
  - left. assert (∃ c t, scans_ s !! b = Some c ∧ cache_Current c = Some t) as (c & t & Hc & Ht).
    { destruct Hl as [(c & t & Hx%elem_of_map_to_list & Ht & _)|(_ & _ & [[? _]|(c & t & Hx%elem_of_map_to_list & Ht & _)])]; [by exists c, t|done|by exists c, t]. }
    rewrite Hc. cbn. rewrite Ht. eexists t, _. split_and!; try done. split; [done|done|]. intros t' [= <-]. cbn. by exists c.
  - right. destruct Hl as [_ Hall]. split; [|by eexists]. unfold unread. destruct (mjoin _) as [|t l] eqn:El; [done|]. exfalso.
    assert (t ∈ mjoin (streams (scans_ s) (λ _, []))) as (sh & c & Hc & Ht)%elem_streams by (rewrite El; by left).
    destruct (Hall (sh, c)) as [Hn _]; [by apply elem_of_map_to_list|]. cbn in Hn. rewrite Hn in Ht. by apply not_elem_of_nil in Ht.
Qed.

(** A tuple whose lock the transaction has to give back, or to validate, at its end. *)
Definition locked_tuple (index : ScanIndexType) t : Prop :=
  tuple_lock flags (TemplateCcScanner_new (K := K) (V := V) Forward index) t ≠ NoLock ∧ keyed t.
Definition in_read_set rw (a : CcEntryAddr) : Prop := is_Some (rset_ rw !! table ≫= (.!! a)).
(** The lock of the entry is known: it will be released with the read set or with the drained
    locks. *)
Definition known rw (drain : list (CcEntryAddr * Z)) a : Prop := in_read_set rw a ∨ a ∈ drain.*1.
Definition accounted rw drain t : Prop := known rw drain (scan_cce_addr_ t).
Definition keeps_known rw drain rw' drain' : Prop := ∀ a, known rw drain a → known rw' drain' a.

Lemma tuple_lock_index s t : tuple_lock flags s t = tuple_lock flags (TemplateCcScanner_new (K := K) (V := V) Forward (index_type_ s)) t.
Proof. done. Qed.

Lemma RemoveReadEntry_in rw a b : let '(cnt, rw') := RemoveReadEntry rw table a in
  (in_read_set rw b → in_read_set rw' b ∨ a = b ∧ cnt = 0%Z) ∧ (in_read_set rw' a ∨ cnt = 0%Z).
Proof.
  unfold RemoveReadEntry, in_read_set. destruct (rset_ rw !! table) as [tbl|] eqn:Et; cbn; [|rewrite Et; cbn; split; [by left|by right]].
  destruct (tbl !! a) as [e|] eqn:Ea; cbn; [|rewrite Et; cbn; split; [by left|by right]]. case_decide; cbn; rewrite lookup_insert_eq; cbn.
  - split; [|by right]. intros Hb. destruct (decide (a = b)); [by right|left]. by rewrite lookup_delete_ne.
  - rewrite lookup_insert_eq. split; [|by left; eexists]. intros Hb. left. destruct (decide (a = b)) as [->|]; [by rewrite lookup_insert_eq; eexists|by rewrite lookup_insert_ne].
Qed.

Lemma drain_grows (cnt : Z) drain (x : CcEntryAddr * Z) : let drain' := if decide (cnt = 0%Z) then drain ++ [x] else drain in
  drain.*1 ⊆ drain'.*1 ∧ (cnt = 0%Z → x.1 ∈ drain'.*1).
Proof. cbv zeta. destruct (decide (cnt = 0%Z)); [|done]. rewrite fmap_app. split; [by apply list_subseteq_app_l|]. intros _. apply elem_of_app. right. by left. Qed.

(** Reading the entry once less keeps its lock known. *)
Lemma remove_read_known rw drain a ts : let '(cnt, rw') := RemoveReadEntry rw table a in
  let drain' := if decide (cnt = 0%Z) then drain ++ [(a, ts)] else drain in
  keeps_known rw drain rw' drain' ∧ known rw' drain' a.
Proof.
  pose proof (λ b, RemoveReadEntry_in rw a b) as Hrem. destruct (RemoveReadEntry rw table a) as [cnt rw'].
  pose proof (drain_grows cnt drain (a, ts)) as [Hsub Hin]. cbv zeta. split.
  - intros b [Hr|Hr]; [|right; by apply Hsub]. destruct (Hrem b) as [Hx _]. destruct (Hx Hr) as [?|[<- Hz]]; [by left|right; by apply Hin].
  - destruct (Hrem a) as [_ [?|Hz]]; [by left|right; by apply Hin].
Qed.

Lemma drain_tuple_ok s t rw drain : let '(rw', drain') := drain_tuple flags table s t rw drain in
  keeps_known rw drain rw' drain' ∧ (locked_tuple (index_type_ s) t → accounted rw' drain' t).
Proof.
  unfold drain_tuple. rewrite tuple_lock_index. destruct (bool_decide _ && bool_decide _) eqn:Eb.
  - set (ts := if decide (scan_rec_status_ t = Unknown) then _ else _). pose proof (remove_read_known rw drain (scan_cce_addr_ t) ts) as H.
    destruct (RemoveReadEntry rw table (scan_cce_addr_ t)) as [cnt rw']. destruct H as [H1 H2]. split; [exact H1|intros _; exact H2].
  - split; [by intros a Ha|]. intros [Hl Hk]. exfalso. apply andb_false_iff in Eb as [Eb%bool_decide_eq_false|Eb%bool_decide_eq_false]; by destruct Eb.
Qed.

Lemma drain_loop_ok fuel : ∀ s rw drain, drainable s → scanner_status_ s ≠ ScannerClosed → length (unread s) < fuel →
  ∃ s' rw' drain', drain_loop flags table fuel s rw drain = Some (s', rw', drain') ∧
    keeps_known rw drain rw' drain' ∧ ∀ t, t ∈ unread s → locked_tuple (index_type_ s) t → accounted rw' drain' t.
Proof.
  induction fuel as [|fuel IH]; intros s rw drain Hd Hst Hf; [lia|]. cbn [drain_loop].
  destruct (drain_Current s Hd Hst) as [(t & s1 & E & Et & Hd1 & Es & Ei & Hst1)|(Hn & s1 & E & _)]; rewrite E.
  - destruct (dr_curr _ Hd1 t Et) as (c & Hc & Ht). destruct (drainable_advance s1 c t Hd1 Et Hc Ht) as [Hd2 Hu].
    assert (MoveNext s1 = advance s1) as -> by (unfold MoveNext; by rewrite Et).
    assert (unread s1 = unread s) as E1 by (unfold unread; by rewrite Es). rewrite E1 in Hu. rewrite Hu in Hf. cbn [length] in Hf.
    pose proof (drain_tuple_ok s t rw drain) as Hr. destruct (drain_tuple flags table s t rw drain) as [rw1 drain1]. destruct Hr as [Hk1 Ht1].
    destruct (IH (advance s1) rw1 drain1) as (s' & rw' & drain' & -> & Hk2 & Hfin); [done|done|lia|].
    exists s', rw', drain'. split; [done|]. split; [intros a Ha; by apply Hk2, Hk1|]. intros t' Hin Hl. rewrite Hu in Hin.
    apply elem_of_cons in Hin as [->|Hin]; [by apply Hk2, Ht1|]. apply Hfin; [done|]. cbn [advance index_type_]. by rewrite Ei.
  - exists s1, rw, drain. split; [done|]. split; [by intros a Ha|]. rewrite Hn. intros t ?%not_elem_of_nil. done.
Qed.

(** What [DrainScanner] and [ScanClose] need of the scanner. *)
Record closable s : Prop := {
  cl_wf sh c : scans_ s !! sh = Some c → cache_wf c;
  cl_open : scanner_status_ s ≠ ScannerClosed;
  cl_curr t : curr_tuple_ s = Some t → ∃ c, scans_ s !! curr_shard_code_ s = Some c ∧ cache_Current c = Some t;
}.

Lemma DrainScanner_ok fuel s rw drain0 : closable s → length (unread s) < fuel →
  ∃ s' rw' drain, DrainScanner flags table fuel s rw drain0 = Some (s', rw', drain) ∧
    keeps_known rw drain0 rw' drain ∧ ∀ t, t ∈ unread s → locked_tuple (index_type_ s) t → accounted rw' drain t.
Proof.
  intros [Hwf Hst Hcur] Hf. unfold DrainScanner. set (s0 := SetDrainCacheMode s true). assert (drainable s0) as Hd by (split; done).
  destruct (drain_Current s0 Hd Hst) as [(t & s1 & E & Et & Hd1 & Es & Ei & Hst1)|(Hn & s1 & E & Ecl & Ecu)]; rewrite E.
  - assert (unread s1 = unread s) as Eu by (unfold unread; by rewrite Es).
    destruct (drain_loop_ok fuel s1 rw drain0) as (s' & rw' & drain & -> & Hk & Hx); [done|done|by rewrite Eu|].
    exists s', rw', drain. split; [done|]. rewrite Eu, Ei in Hx. done.
  - rewrite decide_False by congruence. destruct fuel; [lia|]. cbn [drain_loop]. unfold Current.
    rewrite Ecu, decide_True by done. exists s1, rw, drain0. split; [done|]. split; [by intros a Ha|]. change (unread s) with (unread s0). rewrite Hn.
    intros t ?%not_elem_of_nil. done.
Qed.

(** *** Closing the scan *)

Lemma unlock_tuples_ok s us : ∀ rw drain, let '(rw', drain') := foldl (unlock_tuple flags table s) (rw, drain) us in
  keeps_known rw drain rw' drain' ∧
  ∀ u, u ∈ us → cce_lock_ptr_ (ul_cce_addr u) ≠ 0%Z → status_lock flags s (ul_status u) ≠ NoLock → known rw' drain' (ul_cce_addr u).
Proof.
  induction us as [|u us IH]; intros rw drain; cbn [foldl]; [split; [by intros a Ha|by intros u ?%not_elem_of_nil]|].
  assert (let '(rw', drain') := unlock_tuple flags table s (rw, drain) u in keeps_known rw drain rw' drain' ∧
    (cce_lock_ptr_ (ul_cce_addr u) ≠ 0%Z → status_lock flags s (ul_status u) ≠ NoLock → known rw' drain' (ul_cce_addr u))) as Hu.
  { unfold unlock_tuple. destruct (bool_decide _ || bool_decide _) eqn:Eb.
    - split; [by intros a Ha|]. intros Ha Hl. exfalso. apply orb_true_iff in Eb as [Eb%bool_decide_eq_true|Eb%bool_decide_eq_true]; done.
    - cbn [fst snd]. pose proof (remove_read_known rw drain (ul_cce_addr u) (ul_version_ts u)) as H.
      destruct (RemoveReadEntry rw table (ul_cce_addr u)) as [cnt rw']. destruct H as [H1 H2]. split; [exact H1|intros _ _; exact H2]. }
  destruct (unlock_tuple flags table s (rw, drain) u) as [rw1 drain1]. destruct Hu as [Hk1 Hu]. specialize (IH rw1 drain1).
  destruct (foldl _ (rw1, drain1) us) as [rw' drain']. destruct IH as [Hk2 IH]. split; [intros a Ha; by apply Hk2, Hk1|].
  intros u' [->|Hin]%elem_of_cons Ha Hl; [by apply Hk2, Hu|by apply IH].
Qed.

(** The last tuple of a cache, which the core has pinned for the next batch, when no lock of its
    own covers the pin. *)
Definition pinned s t : Prop :=
  (∃ sh c, scans_ s !! sh = Some c ∧ Last c = Some t) ∧ (tuple_lock flags s t = NoLock ∨ ¬ keyed t) ∧ has_command (scan_cce_addr_ t) = false.

Lemma unpin_last_ok s cs : ∀ drain, let drain' := foldl (unpin_last flags has_command s) drain cs in
  drain.*1 ⊆ drain'.*1 ∧
  ∀ x t, x ∈ cs → Last x.2 = Some t → tuple_lock flags s t = NoLock ∨ ¬ keyed t → has_command (scan_cce_addr_ t) = false → scan_cce_addr_ t ∈ drain'.*1.
Proof.
  induction cs as [|x cs IH]; intros drain; cbn [foldl]; [split; [done|by intros x t ?%not_elem_of_nil]|].
  destruct (IH (unpin_last flags has_command s drain x)) as [Hsub Hall]. split.
  - etrans; [|done]. unfold unpin_last. destruct (Last x.2); [|done]. destruct (_ && _); [|done]. rewrite fmap_app. by apply list_subseteq_app_l.
  - intros y t [->|Hin]%elem_of_cons Hl Hlk Hcmd; [|by eapply Hall]. apply Hsub. unfold unpin_last. rewrite Hl.
    assert ((bool_decide (tuple_lock flags s t = NoLock) || bool_decide (key_ts_ t = 0%Z)) && negb (has_command (scan_cce_addr_ t)) = true) as ->.
    { rewrite Hcmd, andb_true_r. apply orb_true_iff. destruct Hlk as [?|Hk]; [left|right]; apply bool_decide_eq_true; [done|]. unfold keyed in Hk. lia. }
    rewrite fmap_app. apply elem_of_app. right. by left.
Qed.


(** ** The merging loop *)

(** The read is entered in the read set, if it needs to be. *)
Definition noted (index : ScanIndexType) rw t : Prop := locked_tuple index t → has_command (scan_cce_addr_ t) = false → in_read_set rw (scan_cce_addr_ t).
(** The transaction has read an older version of the tuple before. *)
Definition read_before rw t : Prop := ∃ e, rset_ rw !! table ≫= (.!! scan_cce_addr_ t) = Some e ∧ version_ts_ e ≠ 0%Z ∧ (version_ts_ e < key_ts_ t)%Z.

Lemma AddRead_in rw a ts b : let '(ok, rw') := AddRead rw a ts table in
  if ok then in_read_set rw' a ∧ (in_read_set rw b → in_read_set rw' b)
  else ∃ e, rset_ rw !! table ≫= (.!! a) = Some e ∧ version_ts_ e ≠ 0%Z ∧ (version_ts_ e < ts)%Z.
Proof.
  assert (∀ e1 : ReadSetEntry, (is_Some (rset_ rw !! table ≫= (.!! b))) →
    is_Some (<[a := e1]> (default ∅ (rset_ rw !! table)) !! b)) as Hmono.
  { intros e1 Hb. destruct (decide (a = b)) as [->|]; [by rewrite lookup_insert_eq; eexists|]. rewrite lookup_insert_ne by done. destruct (rset_ rw !! table); [exact Hb|by destruct Hb]. }
  unfold AddRead, in_read_set. destruct (default ∅ (rset_ rw !! table) !! a) as [e|] eqn:E.
  - destruct (bool_decide _ && bool_decide _) eqn:Eb.
    + apply andb_true_iff in Eb as [E1%bool_decide_eq_true E2%bool_decide_eq_true]. exists e. by destruct (rset_ rw !! table).
    + cbn. rewrite lookup_insert_eq. cbn. rewrite lookup_insert_eq. split; [by eexists|]. by apply Hmono.
  - cbn. rewrite lookup_insert_eq. cbn. rewrite lookup_insert_eq. split; [by eexists|]. by apply Hmono.
Qed.

Lemma add_scan_read_ok s t rw : match add_scan_read flags table has_command s t rw with
  | Some rw' => noted (index_type_ s) rw' t ∧ ∀ b, in_read_set rw b → in_read_set rw' b
  | None => keyed t ∧ (row t → read_before rw t)
  end.
Proof.
  unfold add_scan_read, noted, locked_tuple. rewrite tuple_lock_index. destruct (bool_decide _ && bool_decide _) eqn:Eb.
  - apply andb_true_iff in Eb as [E1%bool_decide_eq_true E2%bool_decide_eq_true]. destruct (has_command _); cbn; [split; [by intros _|done]|].
    set (ts := if decide _ then _ else _). pose proof (λ b, AddRead_in rw (scan_cce_addr_ t) ts b) as H. destruct (AddRead rw (scan_cce_addr_ t) ts table) as [[] rw'].
    + split; [intros _ _; exact (proj1 (H (scan_cce_addr_ t)))|]. intros b. exact (proj2 (H b)).
    + split; [done|]. intros [_ Hst]. subst ts. rewrite decide_True in H by (destruct Hst as [-> | ->]; done). by apply (H (scan_cce_addr_ t)).
  - cbn. split; [|done]. intros [Hl Hk] _. apply andb_false_iff in Eb as [Eb%bool_decide_eq_false|Eb%bool_decide_eq_false]; by destruct Eb.
Qed.
End drain.

Section loop.
Context {K V : Type} `{!KeyOrder K, !Countable K} (flags : ScanFlags) (table : TableName) (has_command : CcEntryAddr → bool).
Abbreviation tuple := (ScanTuple K V).
Abbreviation scanner := (TemplateCcScanner K V).
Abbreviation write := (K * WriteSetEntry V)%type.
Abbreviation rwset := (ReadWriteSet K V).
Abbreviation noted := (noted flags table has_command).
Abbreviation loop := (scan_loop flags table has_command).
Implicit Types (t : tuple) (c : ScanCache K V) (s : scanner) (T : list tuple) (W : list write) (rw : rwset) (src : Z → list tuple) (P : tuple → Prop) (batch : list (ScanBatchTuple K V)).

(** No lock is forgotten when the scan fails. *)
Definition break_ok s0 T P rw' (drain : list (CcEntryAddr * Z)) : Prop :=
  (∃ t rw, t ∈ T ∧ read_before table rw t) ∧
  ∀ t, P t ∨ t ∈ unread s0 → locked_tuple flags (index_type_ s0) t → has_command (scan_cce_addr_ t) = false → accounted table rw' drain t.

Definition same_caches s0 s' : Prop :=
  direct_ s' = direct_ s0 ∧ index_type_ s' = index_type_ s0 ∧ ∀ sh, size_ <$> scans_ s' !! sh = size_ <$> scans_ s0 !! sh.

Record done_ok s0 src T W P batch s' W' rw' (batch' : list (ScanBatchTuple K V)) b T' : Prop := {
  do_batch : batch' = batch ++ b;
  do_inv : scan_inv s' src T';
  do_same : same_caches s0 s';
  do_overlay : overlay (direct_ s0) T W = b ++ overlay (direct_ s0) T' W';
  do_rows : Forall row T';
  do_writes : W' `suffix_of` W;
  do_sub t : t ∈ T' → t ∈ T;
  do_noted t : P t ∨ t ∈ T → t ∈ T' ∨ noted (index_type_ s0) rw' t;
  do_status : scanner_status_ s' = ScannerClosed ∧ T' = [] ∨
    scanner_status_ s' = ScannerBlocked ∧ batch' ≠ [] ∧ Current s' = (None, s') ∧ ∃ c, scans_ s' !! curr_shard_code_ s' = Some c ∧ blocked c;
}.
Definition loop_ok s0 src T W P batch (o : ScanOutcome (K := K) (V := V)) : Prop :=
  match o with
  | ScanBatchDone s' W' rw' batch' => ∃ b T', done_ok s0 src T W P batch s' W' rw' batch' b T'
  | BreakRepeatableRead s' rw' drain => break_ok s0 T P rw' drain
  end.

Lemma scan_inv_set s src T st sh : scan_inv s src T → scan_inv (set_current s st sh None) src T.
Proof. intros [[H1 H2 H3 H4] Hd Hg Ho]. split; [split|..]; done. Qed.

(** The loop ends at once. *)
Lemma loop_stop s0 src T W rw P batch st sh : scan_inv s0 src T → Forall row T → (∀ t, P t → noted (index_type_ s0) rw t) →
  (st = ScannerClosed ∧ T = [] ∨ st = ScannerBlocked ∧ batch ≠ [] ∧ (let s' := set_current s0 st sh None in Current s' = (None, s')) ∧ ∃ c, scans_ s0 !! sh = Some c ∧ blocked c) →
  loop_ok s0 src T W P batch (ScanBatchDone (set_current s0 st sh None) W rw batch).
Proof.
  intros Hi Hrow HP Hst. exists [], T. split; try done.
  - by rewrite app_nil_r.
  - by apply scan_inv_set.
  - intros t [?|?]; [right; by apply HP|by left].
Qed.

(** A write comes next. *)
Lemma loop_write s0 src t T w W P batch o : before (direct_ s0) w.1 (key_obj_ t) →
  loop_ok s0 src (t :: T) W P (batch ++ [own_write w 1]) o → loop_ok s0 src (t :: T) (w :: W) P batch o.
Proof.
  intros Hb. destruct o as [s' W' rw' batch'|s' rw' drain]; [|done]. intros (b & T' & [H1 H2 H3 H4 H5 H6 Hsub H7 H8]). exists (own_write w 1 :: b), T'. split; try done.
  - by rewrite H1, <- app_assoc.
  - rewrite overlay_cons, decide_True, H4 by done. done.
  - by apply suffix_cons_r.
Qed.

(** A tuple comes next; [x] is what it adds to the batch. *)
Lemma loop_tuple s0 src T W P batch o sh c t T1 W1 x : scan_inv s0 src T → scans_ s0 !! sh = Some c → cache_Current c = Some t →
  (if decide (keyed t) then T = t :: T1 else T = T1) → W1 `suffix_of` W → overlay (direct_ s0) T W = x ++ overlay (direct_ s0) T1 W1 →
  loop_ok (take_next s0 sh) src T1 W1 (λ t', P t' ∨ t' = t) (batch ++ x) o → loop_ok s0 src T W P batch o.
Proof.
  intros Hi Hc Ht HT HW Hov Ho. assert (∀ t', t' ∈ T → t' ∈ T1 ∨ t' = t) as HTin by (case_decide; subst T; set_solver).
  assert (∀ t', t' ∈ T1 → t' ∈ T) as HTin' by (case_decide; subst T; set_solver).
  pose proof (mg_ok _ _ _ (si_merges _ _ _ Hi) sh c Hc) as [(Hwf & _ & _) _]. rewrite (take_next_eq s0 sh c Hc) in Ho.
  destruct o as [s' W' rw' batch'|s' rw' drain].
  - destruct Ho as (b & T' & [H1 H2 (S1 & S2 & S3) H4 H5 H6 Hsub H7 H8]). exists (x ++ b), T'. split; try done.
    + by rewrite H1, app_assoc.
    + split_and!; [done..|]. intros sh'. rewrite S3. cbn. destruct (decide (sh = sh')) as [<-|]; [by rewrite lookup_insert_eq, Hc|by rewrite lookup_insert_ne].
    + cbn in H4. rewrite Hov, H4. by rewrite app_assoc.
    + by etrans.
    + intros t' ?. by apply HTin', Hsub.
    + intros t' [?|Hin]; apply H7; [by left; left|]. destruct (HTin t' Hin); [by right|left; by right].
  - destruct Ho as [(t' & rw & Hin & Hrb) Hacc]. split; [exists t', rw; split; [by apply HTin'|done]|]. intros t1 Ht1. apply Hacc. destruct Ht1 as [?|Hin1]; [by left; left|].
    unfold unread in *. rewrite (streams_insert _ _ sh c Hc) in Hin1. cbn [scans_ set_current set_scans].
    rewrite (streams_insert (<[_ := _]> _) _ sh (cache_MoveNext c)) by by rewrite lookup_insert_eq. rewrite delete_insert_eq.
    destruct (cached_MoveNext c t Hwf Ht) as [Ec _]. rewrite Ec in Hin1. set_solver.
Qed.

(** The state when the loop starts, and when it looks at the tuple [t]. *)
Record loop_pre s0 src T rw batch P : Prop := {
  lp_inv : scan_inv s0 src T;
  lp_rows : Forall row T;
  lp_blocked : batch = [] → none_blocked s0;
  lp_noted t : P t → noted (index_type_ s0) rw t;
}.
Record at_tuple s0 T sh c t T1 : Prop := {
  at_cache : scans_ s0 !! sh = Some c;
  at_current : cache_Current c = Some t;
  at_key : keyed t → head T = Some t ∧ none_blocked s0;
  at_rest : T1 = if decide (keyed t) then tail T else T;
}.
Definition loop_holds fuel : Prop := ∀ s0 s src T W rw batch P, loop_pre s0 src T rw batch P → peeks s0 T s → scanner_status_ s = ScannerOpen →
  cached_total s0 + length W + 1 < fuel → ∃ o, loop fuel s W rw batch = Some o ∧ loop_ok s0 src T W P batch o.

Lemma at_tuple_rest s0 T sh c t T1 : at_tuple s0 T sh c t T1 → if decide (keyed t) then T = t :: T1 else T = T1.
Proof.
  intros [_ _ Hk ->]. case_decide as Ek; [|done]. destruct (Hk Ek) as [Hh _]. destruct T; [done|]. by injection Hh as ->.
Qed.

(** The loop goes on behind the tuple; [x] is what it has added to the batch. *)
Lemma loop_next fuel s0 src T W rw batch P sh c t T1 W1 x rw' : loop_holds fuel → loop_pre s0 src T rw batch P → at_tuple s0 T sh c t T1 →
  cached_total s0 + length W < fuel → W1 `suffix_of` W → (keyed t → x ≠ []) → overlay (direct_ s0) T W = x ++ overlay (direct_ s0) T1 W1 →
  noted (index_type_ s0) rw' t → (∀ b, in_read_set table rw b → in_read_set table rw' b) →
  ∃ o, loop fuel (take_next s0 sh) W1 rw' (batch ++ x) = Some o ∧ loop_ok s0 src T W P batch o.
Proof.
  intros IH [Hi Hrow Hnb HP] Hat Hf HW1 Hx Hov Hnt Hmono. pose proof (at_tuple_rest _ _ _ _ _ _ Hat) as HT. destruct Hat as [Hc Ht Hk HT1].
  destruct (scan_inv_take s0 src T sh c t Hi Hc Ht Hk) as [Hi1 Hnb1]. rewrite <- HT1 in Hi1.
  pose proof (mg_ok _ _ _ (si_merges _ _ _ Hi) sh c Hc) as [(Hwf & _ & _) _]. pose proof (take_next_total s0 sh c t Hc Hwf Ht) as Htot.
  assert (index_type_ (take_next s0 sh) = index_type_ s0) as Eidx by by rewrite (take_next_eq s0 sh c Hc).
  destruct (IH (take_next s0 sh) (take_next s0 sh) src T1 W1 rw' (batch ++ x) (λ t', P t' ∨ t' = t)) as (o & Ho & Hok).
  - split; [done| | |].
    + case_decide; subst T; [by inversion Hrow|done].
    + intros [Eb Ex]%app_eq_nil. destruct (decide (keyed t)) as [Ek|Ek]; [by destruct (Hx Ek)|]. by apply Hnb1, Hnb.
    + rewrite Eidx. intros t' [Hp'| ->]; [|done]. intros Hl Hcmd. by apply Hmono, (HP t' Hp').
  - apply peek_none.
  - by rewrite (take_next_eq s0 sh c Hc).
  - apply suffix_length in HW1. lia.
  - exists o. split; [done|]. by eapply loop_tuple.
Qed.

(** The transaction has read another version of the tuple. *)
Lemma loop_break fuel s0 src T rw batch P sh c t T1 : loop_pre s0 src T rw batch P → at_tuple s0 T sh c t T1 → cached_total s0 < fuel →
  let s1 := set_current s0 ScannerOpen sh (Some t) in add_scan_read flags table has_command s1 t rw = None →
  ∃ s' rw' drain, DrainScanner flags table fuel s1 rw [] = Some (s', rw', drain) ∧ break_ok s0 T P rw' drain.
Proof.
  intros [Hi Hrow _ HP] Hat Hf s1 Hadd. pose proof (at_tuple_rest _ _ _ _ _ _ Hat) as HT. destruct Hat as [Hc Ht Hk _].
  pose proof (add_scan_read_ok flags table has_command s1 t rw) as Hread. rewrite Hadd in Hread. destruct Hread as [Ek Hrb].
  rewrite decide_True in HT by done. subst T. apply Forall_cons in Hrow as [Hrt _].
  destruct (DrainScanner_ok flags table fuel s1 rw []) as (s' & rw' & drain & E & Hknown & Hacc).
  - split; [|done|intros t' [= <-]; by exists c]. intros sh' c' Hc'. by apply (mg_ok _ _ _ (si_merges _ _ _ Hi) sh' c').
  - done.
  - exists s', rw', drain. split; [done|]. split; [exists t, rw; split; [by left|by apply Hrb]|].
    intros t' [Hp|Hin] Hl Hcmd; [|by apply Hacc]. apply Hknown. left. by apply (HP t' Hp).
Qed.

(** The tuple is read, with the write of its key if there is one. *)
Lemma loop_read fuel s0 src T W rw batch P sh c t T1 (s1 := set_current s0 ScannerOpen sh (Some t)) adv : loop_holds fuel → loop_pre s0 src T rw batch P →
  at_tuple s0 T sh c t T1 → cached_total s0 + length W < fuel → MoveNext s1 = take_next s0 sh → adv = advance_type (direct_ s0) t W → adv ≠ AdvanceWriteSet →
  ∃ o, match add_scan_read flags table has_command s1 t rw with
       | None => '(s2, rw', drain) ← DrainScanner flags table fuel s1 rw []; Some (BreakRepeatableRead s2 rw' drain)
       | Some rw' =>
           match adv, W with
           | AdvanceBoth, w :: W' => loop fuel (MoveNext s1) W' rw' (batch ++ [own_write w (key_ts_ t)])
           | _, _ => loop fuel (MoveNext s1) W rw' (batch ++ scanned t)
           end
       end = Some o ∧ loop_ok s0 src T W P batch o.
Proof.
  intros IH Hpre Hat Hf Hmv Eadv Hadv. pose proof (at_tuple_rest _ _ _ _ _ _ Hat) as HT. pose proof (add_scan_read_ok flags table has_command s1 t rw) as Hadd.
  destruct (add_scan_read _ _ _ _ _ _) as [rw'|] eqn:Ea.
  2: { destruct (loop_break fuel s0 src T rw batch P sh c t T1 Hpre Hat) as (s' & rw' & drain & E & Hbr); [lia|done|].
       fold s1 in E. rewrite E. cbn [mbind option_bind]. by eexists. }
  destruct Hadd as [Hnt Hmono]. rewrite Hmv.
  assert (∀ W1 x, W1 `suffix_of` W → (keyed t → x ≠ []) → overlay (direct_ s0) T W = x ++ overlay (direct_ s0) T1 W1 →
    ∃ o, loop fuel (take_next s0 sh) W1 rw' (batch ++ x) = Some o ∧ loop_ok s0 src T W P batch o) as Hnext by (intros; by eapply loop_next).
  assert (keyed t → scanned t ≠ []) as Hsc.
  { intros Ek. rewrite decide_True in HT by done. pose proof (lp_rows _ _ _ _ _ _ Hpre) as Hrow. rewrite HT in Hrow. apply Forall_cons in Hrow as [Hr _].
    by destruct (scanned_row t Hr) as (x & -> & _). }
  assert (¬ keyed t → overlay (direct_ s0) T W = scanned t ++ overlay (direct_ s0) T1 W) as Hgap.
  { intros Ek. rewrite decide_False in HT by done. unfold scanned. rewrite decide_False; [by rewrite HT|]. apply dec_stable in Ek. lia. }
  unfold advance_type in Eadv. destruct W as [|[k e] W]; [|destruct (decide (key_ts_ t = 0%Z)) as [E1|E1]; [|destruct (decide (before (direct_ s0) k (key_obj_ t))) as [E2|E2];
    [|destruct (decide (before (direct_ s0) (key_obj_ t) k)) as [E3|E3]]]]; subst adv.
  - apply Hnext; [done..|]. destruct (decide (keyed t)); [|by apply Hgap]. by rewrite HT.
  - apply Hnext; [done|done|]. apply Hgap. intros Hk. by apply Hk.
  - done.
  - apply Hnext; [done..|]. rewrite decide_True in HT by done. by rewrite HT, overlay_cons, decide_False, decide_True.
  - apply Hnext; [by apply suffix_cons_r|done|]. rewrite decide_True in HT by done. by rewrite HT, overlay_cons, !decide_False.
Qed.

Lemma scan_loop_ok fuel : loop_holds fuel.
Proof.
  induction fuel as [|fuel IH]; intros s0 s src T W rw batch P Hpre Hp Hst Hf; [lia|]. cbn [scan_loop]. rewrite decide_True by done.
  pose proof Hpre as [Hi Hrow Hnb HP].
  destruct (peek_cases s0 s src T Hi Hp Hst) as [(sh & c & t & Hc & Ht & Hk & -> & Hmv)|[(sh & c & s1 & Hc & Hb & -> & -> & Hag)|(-> & Hn & sh & s1 & -> & ->)]].
  - assert (at_tuple s0 T sh c t (if decide (keyed t) then tail T else T)) as Hat by done.
    pose proof (at_tuple_rest _ _ _ _ _ _ Hat) as HT. cbn [direct_ set_current].
    pose proof (λ adv, loop_read fuel s0 src T W rw batch P sh c t _ adv IH Hpre Hat ltac:(lia) Hmv) as Hread.
    destruct (advance_type (direct_ s0) t W) eqn:Eadv; [by apply (Hread AdvanceCcm)| |by apply (Hread AdvanceBoth)].
    unfold advance_type in Eadv. destruct W as [|[k e] W]; [done|]. destruct (decide (key_ts_ t = 0%Z)) as [|E1]; [done|].
    destruct (decide (before (direct_ s0) k (key_obj_ t))) as [E2|]; [|by destruct (decide (before _ _ k))].
    rewrite decide_True in HT by done. destruct (IH s0 (set_current s0 ScannerOpen sh (Some t)) src T W rw (batch ++ [own_write (k, e) 1]) P) as (o & Ho & Hok).
    + split; [done..| |done]. by intros [_ ?]%app_eq_nil.
    + by eapply peek_tuple.
    + done.
    + cbn in Hf. lia.
    + exists o. split; [done|]. rewrite HT in *. by eapply loop_write.
  - eexists. split; [done|]. apply loop_stop; [done..|]. right. split_and!; [done| |done|by exists c]. intros Hx. by apply (Hnb Hx sh c).
  - eexists. split; [done|]. apply loop_stop; [done..|]. by left.
Qed.
End loop.

(** ** The calls of a scan *)

Section calls.
Context {K V : Type} `{!KeyOrder K, !Countable K} (flags : ScanFlags) (table : TableName) (has_command : CcEntryAddr → bool) (dflt : ScanTuple K V).
Abbreviation tuple := (ScanTuple K V).
Abbreviation scanner := (TemplateCcScanner K V).
Abbreviation write := (K * WriteSetEntry V)%type.
Abbreviation rwset := (ReadWriteSet K V).
Abbreviation noted := (noted flags table has_command).
Abbreviation PostProcess := (PostProcess_ScanNext flags table has_command).
Implicit Types (t : tuple) (c : ScanCache K V) (s : scanner) (T : list tuple) (W : list write) (rw : rwset) (src : Z → list tuple) (P : tuple → Prop) (batch : list (ScanBatchTuple K V)).

Lemma flush_all direct W batch : flush_writes direct None W batch = ([], batch ++ ((λ w, own_write w 1) <$> W)).
Proof. revert batch. induction W as [|w W IH]; intros batch; cbn; [by rewrite app_nil_r|]. rewrite IH. by rewrite <- app_assoc. Qed.

Lemma flush_none direct k W batch : (∀ w, w ∈ W → before direct k w.1) → flush_writes direct (Some k) W batch = (W, batch).
Proof.
  intros Hw. destruct W as [|w W]; [done|]. cbn [flush_writes]. assert (within direct (Some k) w.1 = false) as ->; [|done].
  specialize (Hw w ltac:(by left)). destruct direct; cbn in *; [apply bool_decide_eq_false_2, (before_asym Forward), Hw|].
  rewrite !bool_decide_eq_false_2; [done| |by apply (before_asym Forward)]. intros ->. by apply (before_irrefl Forward w.1).
Qed.

(** The writes that are left come after the batch. *)
Lemma batch_before direct T W b T' W' x w : sorted_rows direct T → sorted_writes direct W → Forall row T →
  sorted_rows direct T' → sorted_writes direct W' → Forall row T' → overlay direct T W = b ++ overlay direct T' W' →
  x ∈ b → w ∈ W' → before direct (sb_key x) w.1.
Proof.
  intros HT HW Hrow HT' HW' Hrow' Hov Hx Hw. pose proof (ov_sorted _ _ _ _ (overlay_view direct T W HT HW Hrow)) as Hs. rewrite Hov in Hs.
  assert (own_write w (scanned_ts T' w.1) ∈ overlay direct T' W') as Hin by (apply (ov_elem _ _ _ _ (overlay_view direct T' W' HT' HW' Hrow')); left; by exists w).
  clear -Hs Hx Hin. induction b as [|y b IH]; [by apply not_elem_of_nil in Hx|]. pose proof (sorted_tail _ _ _ _ Hs). apply elem_of_cons in Hx as [->|Hx]; [|by apply IH].
  rewrite <- (sb_key_own w (scanned_ts T' w.1)). eapply sorted_after; [exact Hs|]. apply elem_of_app. by right.
Qed.

Lemma sorted_suffix direct W W' : sorted_writes direct W → W' `suffix_of` W → sorted_writes direct W'.
Proof. unfold sorted_writes. intros HW [l ->]. rewrite fmap_app in HW. by apply StronglySorted_app_1_r in HW. Qed.

(** One call after the caches are there. *)
Definition post_ok s0 src T W P (o : ScanOutcome (K := K) (V := V)) : Prop :=
  match o with
  | ScanBatchDone s' W' rw' batch =>
      if decide (scanner_status_ s' = ScannerClosed) then W' = [] ∧ batch = overlay (direct_ s0) T W ∧ (∀ t, P t ∨ t ∈ T → noted (index_type_ s0) rw' t)
      else ∃ T', done_ok flags table has_command s0 src T W P [] s' W' rw' batch batch T'
  | BreakRepeatableRead s' rw' drain => break_ok flags table has_command s0 T P rw' drain
  end.

Lemma PostProcess_ok fuel s0 s src T W rw P : loop_pre flags table has_command s0 src T rw [] P → peeks s0 T s → scanner_status_ s = ScannerOpen → sorted_writes (direct_ s0) W →
  cached_total s0 + length W + 1 < fuel → ∃ o, PostProcess fuel s W rw = Some o ∧ post_ok s0 src T W P o.
Proof.
  intros Hpre Hp Hst HW Hf. destruct (scan_loop_ok flags table has_command fuel s0 s src T W rw [] P Hpre Hp Hst Hf) as (o & E & Hok).
  unfold PostProcess_ScanNext. rewrite E. cbn [mbind option_bind]. destruct o as [s' W' rw' batch|s' rw' drain]; [|by eexists].
  destruct Hok as (b & T' & Hd). pose proof Hd as [H1 H2 (S1 & S2 & S3) H4 H5 H6 _ H7 H8]. cbn in H1. subst b.
  destruct H8 as [[Est ->]|(Est & Hne & Hcur & Hb)]; unfold batch_end; rewrite Est.
  - rewrite decide_False, flush_all by done. eexists. split; [done|]. cbn. rewrite decide_True by done. split_and!; [done|by rewrite H4|].
    intros t Ht. destruct (H7 t Ht) as [?%not_elem_of_nil|?]; done.
  - rewrite decide_True by done. assert (∀ x w, x ∈ batch → w ∈ W' → before (direct_ s') (sb_key x) w.1) as Hbef.
    { intros x w. rewrite S1. destruct Hpre as [[Hm _ _ _] Hrow _ _]. apply (batch_before (direct_ s0) T W batch T' W' x w); [apply (mg_sorted _ _ _ Hm)|done|done| |by eapply sorted_suffix|done|done].
      rewrite <- S1. apply (mg_sorted _ _ _ (si_merges _ _ _ H2)). }
    assert (∃ x, x ∈ batch ∧ sb_key <$> (match direct_ s' with Forward => last batch | Backward => head batch end) = Some (sb_key x)) as (x & Hx & ->).
    { destruct (direct_ s'); [|destruct batch as [|x l]; [done|exists x; split; [by left|done]]].
      destruct batch as [|x l _] using rev_ind; [done|]. exists x. rewrite last_snoc. split; [set_solver|done]. }
    rewrite flush_none by (intros w Hw; by apply Hbef). eexists. split; [done|]. cbn. rewrite decide_False by congruence. by exists T'.
Qed.
End calls.

(** ** The writes that a scan starts with *)

Section writes.
Context {K V : Type} `{!KeyOrder K, !Countable K}.
Abbreviation write := (K * WriteSetEntry V)%type.
Implicit Types (W : list write) (m : gmap K (WriteSetEntry V)) (start : SearchKey K).

(** The keys that a scan from [start] visits. *)
Definition in_scan (direct : ScanDirection) start (inclusive : bool) (k : K) : Prop :=
  match direct with Forward => search_lt (Ordinary k) start = false | Backward => search_lt start (Ordinary k) = false end ∧
  (inclusive = false → Ordinary k ≠ start).

Lemma elem_table_writes m (w : write) : w ∈ table_writes m ↔ m !! w.1 = Some w.2.
Proof. unfold table_writes. rewrite merge_sort_Permutation. destruct w as [k e]. apply elem_of_map_to_list. Qed.

Lemma table_writes_sorted m : StronglySorted key_lt (table_writes m).*1.
Proof.
  assert (StronglySorted (@key_le K V _) (table_writes m)) as Hs.
  { unfold table_writes. apply StronglySorted_merge_sort.
    - intros a b c. unfold key_le. apply (not_before_trans Forward).
    - intros a b. unfold key_le. destruct (before_total Forward a.1 b.1) as [H|[H|H]]; cbn in H; [left|left|right]; try by apply (before_asym Forward).
      rewrite H. apply (before_irrefl Forward). }
  assert (NoDup (table_writes m).*1) as Hn by (unfold table_writes; rewrite merge_sort_Permutation; apply NoDup_fst_map_to_list).
  induction Hs as [|w W Hs IH Hall]; [constructor|]. cbn in *. apply NoDup_cons in Hn as [Hn Hn']. constructor; [by apply IH|]. apply Forall_forall.
  intros k (w' & -> & Hw')%list_elem_of_fmap. rewrite Forall_forall in Hall. apply (not_before_ne Forward); [by apply Hall|]. intros E. apply Hn. rewrite E. by apply list_elem_of_fmap_2.
Qed.

Lemma skip_start_spec direct start inclusive W : sorted_writes direct W →
  (∀ w, w ∈ W → match direct with Forward => search_lt (Ordinary w.1) start = false | Backward => search_lt start (Ordinary w.1) = false end) →
  skip_start start inclusive W `suffix_of` W ∧ ∀ w, w ∈ skip_start start inclusive W ↔ w ∈ W ∧ (inclusive = false → Ordinary w.1 ≠ start).
Proof.
  intros Hs Hr. destruct W as [|[k e] W]; [split; [done|set_solver]|]. cbn [skip_start].
  assert (∀ w, w ∈ W → Ordinary w.1 ≠ start) as Hne.
  { intros w Hw Es. pose proof (sorted_after fst direct (k, e) W w Hs Hw) as Hb. specialize (Hr (k, e) ltac:(by left)). rewrite <- Es in Hr. cbn in Hr, Hb.
    destruct direct; cbn in *; by apply bool_decide_eq_false in Hr. }
  destruct (bool_decide _ && negb inclusive) eqn:E.
  - apply andb_true_iff in E as [E%bool_decide_eq_true Ei]. destruct inclusive; [done|]. split; [by apply suffix_cons_r|]. intros w. rewrite elem_of_cons. split.
    + intros Hw. split; [by right|]. intros _. by apply Hne.
    + intros [[->|?] Hx]; [|done]. by destruct (Hx eq_refl).
  - split; [done|]. intros w. rewrite elem_of_cons. split; [|tauto]. intros Hw. split; [done|]. intros ->. rewrite andb_true_r in E. apply bool_decide_eq_false in E.
    destruct Hw as [->|Hw]; [done|by apply Hne].
Qed.

Lemma sorted_reverse W : StronglySorted key_lt W.*1 → sorted_writes Backward (reverse W).
Proof.
  unfold sorted_writes. rewrite fmap_reverse. generalize W.*1. intros l. induction 1 as [|k l Hs IH Hall]; [constructor|]. rewrite reverse_cons.
  apply StronglySorted_app_2; [|done|by repeat constructor]. intros x y Hx Hy%list_elem_of_singleton. subst y. rewrite Forall_forall in Hall. rewrite elem_of_reverse in Hx. exact (Hall x Hx).
Qed.

Lemma scan_open_writes_spec (rw : ReadWriteSet K V) table direct start inclusive (W := scan_open_writes rw table direct start inclusive) :
  sorted_writes direct W ∧ ∀ w, w ∈ W ↔ FindWrite rw table w.1 = Some w.2 ∧ in_scan direct start inclusive w.1.
Proof.
  subst W. unfold scan_open_writes, FindWrite. destruct (wset_ rw !! table) as [[v m]|]; cbn; [|split; [constructor|]; intros w; split; [by intros ?%not_elem_of_nil|by intros [? _]]].
  pose proof (table_writes_sorted m) as Hs. destruct direct; unfold InitIter, InitReverseIter, in_scan.
  - destruct (filter_from (λ x, search_lt (Ordinary x) start = true) (table_writes m) (search_lt_down start) Hs) as [E _].
    fold (lower_bound start (table_writes m).*1) in E. rewrite <- E. set (W := filter _ _).
    assert (sorted_writes Forward W) as HW by (unfold sorted_writes, W; rewrite E; eapply StronglySorted_app_1_r; rewrite <- fmap_app, take_drop; exact Hs).
    assert (∀ w, w ∈ W ↔ m !! w.1 = Some w.2 ∧ search_lt (Ordinary w.1) start = false) as Hin
      by (intros w; unfold W; rewrite list_elem_of_filter, elem_table_writes, not_true_iff_false; tauto).
    destruct (skip_start_spec Forward start inclusive W HW) as [Hsuf Hsk]; [intros w Hw; by apply Hin|]. split; [by eapply sorted_suffix|]. intros w. rewrite Hsk, Hin. tauto.
  - destruct (filter_from (λ x, search_lt start (Ordinary x) = false) (table_writes m) (search_le_down start) Hs) as [_ E].
    fold (upper_bound start (table_writes m).*1) in E. rewrite <- E. set (W := reverse (filter _ _)).
    assert (sorted_writes Backward W) as HW by (apply sorted_reverse; rewrite E; eapply StronglySorted_app_1_l; rewrite <- fmap_app, take_drop; exact Hs).
    assert (∀ w, w ∈ W ↔ m !! w.1 = Some w.2 ∧ search_lt start (Ordinary w.1) = false) as Hin
      by (intros w; unfold W; rewrite elem_of_reverse, list_elem_of_filter, elem_table_writes; tauto).
    destruct (skip_start_spec Backward start inclusive W HW) as [Hsuf Hsk]; [intros w Hw; by apply Hin|]. split; [by eapply sorted_suffix|]. intros w. rewrite Hsk, Hin. tauto.
Qed.
End writes.

(** ** Whole scans *)

Section whole.
Context {K V : Type} `{!KeyOrder K, !Countable K} (flags : ScanFlags) (table : TableName) (has_command : CcEntryAddr → bool) (dflt : ScanTuple K V).
Abbreviation tuple := (ScanTuple K V).
Abbreviation scanner := (TemplateCcScanner K V).
Abbreviation write := (K * WriteSetEntry V)%type.
Abbreviation rwset := (ReadWriteSet K V).
Abbreviation noted := (noted flags table has_command).
Implicit Types (t : tuple) (c : ScanCache K V) (s : scanner) (T : list tuple) (W : list write) (rw : rwset) (src : Z → list tuple) (P : tuple → Prop).

(** The scanner between two calls. *)
Definition ready s src T : Prop := scan_inv s src T ∧
  (none_blocked s ∧ scanner_status_ s ≠ ScannerClosed ∨
   scanner_status_ s = ScannerBlocked ∧ Current s = (None, s) ∧ ∃ c, scans_ s !! curr_shard_code_ s = Some c ∧ blocked c).

Lemma refill_inv s src T c : scan_inv s src T → scans_ s !! curr_shard_code_ s = Some c → blocked c →
  let '(s', src') := next_batch dflt s src (curr_shard_code_ s) in scan_inv s' src' T ∧ none_blocked s'.
Proof.
  intros [Hm Hd Hg Ho] Hc Hb. pose proof (merges_refill dflt s src T (curr_shard_code_ s) c Hm Hc Hb eq_refl) as Hr.
  pose proof (mg_ok _ _ _ Hm _ c Hc) as [(Hwf & _ & _) _]. unfold next_batch in *. set (sh := curr_shard_code_ s) in *. destruct Hr as [Hm' Hnb].
  assert (none_blocked (set_scans s (alter (λ c, fill_cache dflt (cache_Reset c) (take ScanBatchSize (src sh))) sh (scans_ s)))) as Hn.
  { intros sh' c' Hc' Hb'. destruct (Hnb sh' c' Hc' Hb') as [Hne Hold]. apply Hne. by apply (Ho sh' sh c' c). }
  split; [|done]. split; [done|done| |].
  - intros sh' c' i t. cbn [scans_ set_scans]. rewrite (alter_as_insert _ _ _ _ Hc), lookup_insert_Some. intros [[<- <-]|[Hne Hx]].
    + rewrite fn_lookup_insert. destruct (cache_Reset_wf c Hwf) as (W1 & W2 & W3). destruct (fill_cache_cached dflt (take ScanBatchSize (src sh)) _ W1) as (F1 & F2 & F3).
      assert (take (size_ (fill_cache dflt (cache_Reset c) (take ScanBatchSize (src sh)))) (cache_ (fill_cache dflt (cache_Reset c) (take ScanBatchSize (src sh)))) = take ScanBatchSize (src sh)) as ->.
      { rewrite W2, app_nil_l in F2. rewrite <- F2 at 3. unfold cached. rewrite fill_cache_idx. done. }
      rewrite take_drop. intros Ht Hk. destruct Hb as [_ Hsz]. pose proof (Hg sh c (ScanBatchSize + i) t Hc) as Hx.
      rewrite lookup_app_r in Hx by (rewrite length_take; destruct Hwf; lia). rewrite length_take in Hx. destruct Hwf as (_ & Hle & _).
      replace (ScanBatchSize + i - size_ c `min` length (cache_ c)) with i in Hx by lia. specialize (Hx Ht Hk). intros Hmod. apply Hx.
      rewrite <- Nat.add_succ_r, Nat.Div0.add_mod, Hmod. done.
    + rewrite fn_lookup_insert_ne by done. by apply Hg.
  - intros sh1 sh2 c1 c2 H1 _ B1 _. by destruct (Hn sh1 c1).
Qed.

(** After [Process] and the answer it may have asked for, no cache is blocked. *)
Lemma Process_ok s src T : ready s src T →
  let '(req, s1) := Process_ScanNext s in
  let '(s2, src') := match req with Some sh => next_batch dflt s1 src sh | None => (s1, src) end in
  ∃ s0, scan_inv s0 src' T ∧ none_blocked s0 ∧ peeks s0 T (SetStatus s2 ScannerOpen) ∧
    direct_ s0 = direct_ s ∧ index_type_ s0 = index_type_ s ∧ size (scans_ s0) = size (scans_ s).
Proof.
  intros [Hi [[Hn Hst]|(Hst & Hcur & c & Hc & Hb)]]; unfold Process_ScanNext.
  - destruct (Current_spec s src T (si_merges _ _ _ Hi) (si_drain _ _ _ Hi) Hst) as [(sh & c & t & Hc & Ht & -> & Hk)|[(sh & c & Hc & Hb & _)|(-> & _ & sh & ->)]].
    + exists s. split_and!; try done. by apply (peek_tuple s T sh c t).
    + by destruct (Hn sh c).
    + cbn. exists (set_current s ScannerOpen sh None). split_and!; try done; [by apply scan_inv_set|constructor].
  - rewrite Hcur, decide_True by done. unfold BlockedShard. pose proof (refill_inv s src T c Hi Hc Hb) as Hr. destruct (next_batch dflt s src (curr_shard_code_ s)) as [s2 src'] eqn:E.
    destruct Hr as [Hi2 Hn2]. unfold next_batch in E. injection E as E1 <-. symmetry in E1.
    exists (set_current s2 ScannerOpen (curr_shard_code_ s2) None). assert (SetStatus s2 ScannerOpen = set_current s2 ScannerOpen (curr_shard_code_ s2) None) as ->.
    { unfold SetStatus. by rewrite (mg_none _ _ _ (si_merges _ _ _ Hi2)). }
    split_and!; [by apply scan_inv_set|done|apply peek_none|..]; subst s2; try done. cbn. apply size_alter.
Qed.

Lemma cached_total_bound s src T : scan_inv s src T → cached_total s ≤ ScanBatchSize * size (scans_ s).
Proof.
  intros [Hm _ _ _]. unfold cached_total, streams. rewrite <- length_map_to_list.
  assert (∀ x, x ∈ map_to_list (scans_ s) → length (cached x.2) ≤ ScanBatchSize) as Hx.
  { intros [sh c] Hc%elem_of_map_to_list. destruct (mg_ok _ _ _ Hm sh c Hc) as [(Hwf & Hsz & _) _]. cbn. rewrite cached_length by done. lia. }
  induction (map_to_list (scans_ s)) as [|x l IH]; [cbn; lia|]. cbn [fmap list_fmap]. change (mjoin (?a :: ?b)) with (a ++ mjoin b). rewrite length_app, app_nil_r.
  specialize (IH ltac:(set_solver)). specialize (Hx x ltac:(by left)). cbn [length]. lia.
Qed.

Lemma same_caches_size s0 s' : same_caches s0 s' → size (scans_ s') = size (scans_ s0).
Proof.
  intros (_ & _ & H). assert (size_ <$> scans_ s' = size_ <$> scans_ s0) as E by (apply map_eq; intros sh; by rewrite !lookup_fmap).
  rewrite <- (map_size_fmap size_ (scans_ s')), E. apply map_size_fmap.
Qed.

Lemma scan_all_ok calls fuel : ∀ s src T W rw P acc, ready s src T → Forall row T → sorted_writes (direct_ s) W → (∀ t, P t → noted (index_type_ s) rw t) →
  length (overlay (direct_ s) T W) < calls → ScanBatchSize * size (scans_ s) + length W + 1 < fuel →
  ∃ o, scan_all flags table has_command dflt calls fuel s W rw src acc = Some o ∧
  match o with
  | ScanBatchDone s' W' rw' out => out = acc ++ overlay (direct_ s) T W ∧ ∀ t, P t ∨ t ∈ T → noted (index_type_ s) rw' t
  | BreakRepeatableRead _ _ _ => ∃ t rw', t ∈ T ∧ read_before table rw' t
  end.
Proof.
  induction calls as [|calls IH]; intros s src T W rw P acc Hr Hrow HW HP Hcalls Hf; [lia|]. cbn [scan_all]. unfold scan_next.
  pose proof (Process_ok s src T Hr) as Hpr. destruct (Process_ScanNext s) as [req s1]. destruct (match req with Some sh => _ | None => _ end) as [s2 src'].
  destruct Hpr as (s0 & Hi & Hn & Hp & Ed & Ei & Esz). pose proof (cached_total_bound _ _ _ Hi) as Hb.
  destruct (PostProcess_ok flags table has_command fuel s0 (SetStatus s2 ScannerOpen) src' T W rw P) as (o & -> & Ho); [by split; [..|rewrite Ei]|done|done|by rewrite Ed|rewrite Esz in Hb; lia|].
  cbn [mbind option_bind]. destruct o as [s' W' rw' batch|s' rw' drain]; [|eexists; split; [done|]; by destruct Ho as [? _]].
  cbn in Ho. rewrite Ed, Ei in Ho. destruct (decide (scanner_status_ s' = ScannerClosed)).
  { destruct Ho as (-> & -> & Hnt). eexists. split; [done|]. done. }
  destruct Ho as (T' & Hd). pose proof Hd as [_ H2 Hsame H4 H5 H6 Hsub H7 [[? _]|(Est & Hne & Hcur & Hblk)]]; [done|]. pose proof (same_caches_size _ _ Hsame) as Esz'.
  destruct Hsame as (S1 & S2 & _). rewrite Ed, Ei in *.
  destruct (IH s' src' T' W' rw' (λ t, noted (index_type_ s) rw' t) (acc ++ batch)) as (o & -> & Ho).
  - split; [done|]. by right.
  - done.
  - rewrite S1. by eapply sorted_suffix.
  - by rewrite S2.
  - rewrite H4, length_app in Hcalls. rewrite S1. destruct batch; [done|]. cbn in Hcalls. lia.
  - apply suffix_length in H6. lia.
  - exists o. split; [done|]. rewrite S1, S2 in Ho. destruct o as [s3 W3 rw3 out|s3 rw3 drain3].
    + destruct Ho as [-> Hnt]. rewrite H4, app_assoc. split; [done|]. intros t Ht. apply Hnt. destruct (H7 t Ht); auto.
    + destruct Ho as (t & rw4 & Hin & Hrb). exists t, rw4. split; [by apply Hsub|done].
Qed.

(** What the cores have for the scan; [T] is the rows of all cores in the order of the scan. *)
Record scan_source direct (M : gmap Z (list tuple)) T : Prop := {
  ss_order sh l : M !! sh = Some l → in_order direct l;
  ss_gaps sh l i t : M !! sh = Some l → l !! i = Some t → ¬ keyed t → S i `mod` ScanBatchSize ≠ 0;
  ss_all : T ≡ₚ filter keyed (mjoin (map_to_list M).*2);
  ss_sorted : sorted_rows direct T;
  ss_rows : Forall row T;
}.

(** The scanner after the scan is opened: every core has delivered its first batch. *)
Definition opened direct (index : ScanIndexType) (M : gmap Z (list tuple)) : scanner :=
  mkScanner direct index ScannerOpen false ((λ l, fill_cache dflt (cache_Reset (ScanCache_new dflt)) (take ScanBatchSize l)) <$> M) 0 None.
Definition rest_of (M : gmap Z (list tuple)) (sh : Z) : list tuple := drop ScanBatchSize (default [] (M !! sh)).

Lemma opened_ready direct index M T : scan_source direct M T → ready (opened direct index M) (rest_of M) T.
Proof.
  intros [H1 H2 H3 H4 H5]. assert (∀ l, let c := fill_cache dflt (cache_Reset (ScanCache_new dflt)) (take ScanBatchSize l) in
    cache_wf c ∧ cached c = take ScanBatchSize l ∧ size_ c = ScanBatchSize `min` length l ∧ idx_ c = 0) as Hfill.
  { intros l. destruct (cache_Reset_wf _ (ScanCache_new_wf dflt)) as (W1 & W2 & W3). destruct (fill_cache_cached dflt (take ScanBatchSize l) _ W1) as (F1 & F2 & F3).
    cbv zeta. rewrite F2, F3, W2, W3, length_take, fill_cache_idx. done. }
  assert (∀ sh c, scans_ (opened direct index M) !! sh = Some c → ∃ l, M !! sh = Some l ∧ rest_of M sh = drop ScanBatchSize l ∧
    c = fill_cache dflt (cache_Reset (ScanCache_new dflt)) (take ScanBatchSize l)) as Hc.
  { intros sh c. cbn [opened scans_]. rewrite lookup_fmap. destruct (M !! sh) as [l|] eqn:E; [|done]. intros [= <-]. exists l. unfold rest_of. by rewrite E. }
  assert (none_blocked (opened direct index M)) as Hn.
  { intros sh c (l & _ & _ & ->)%Hc [Hb1 Hb2]. destruct (Hfill l) as (_ & F2 & F3 & _). rewrite F2 in Hb1. rewrite F3 in Hb2. destruct l; [|done]. unfold ScanBatchSize in Hb2. cbn in Hb2. lia. }
  split; [|by left]. split; [split|done| |].
  - intros sh c (l & Hl & -> & ->)%Hc. destruct (Hfill l) as (F1 & F2 & F3 & _). rewrite F2, take_drop. split; [|by eapply H1]. split_and!; [done|lia|].
    rewrite F3. intros Hne. destruct (decide (ScanBatchSize ≤ length l)); [lia|]. by rewrite drop_ge in Hne by lia.
  - rewrite H3. unfold streams. cbn [opened scans_]. rewrite map_to_list_fmap, <- !list_fmap_compose. do 2 f_equiv. apply reflexive_eq, list_fmap_ext.
    intros i [sh l] Hx%list_elem_of_lookup_2%elem_of_map_to_list. change (l = cached (fill_cache dflt (cache_Reset (ScanCache_new dflt)) (take ScanBatchSize l)) ++ rest_of M sh). unfold rest_of. rewrite Hx. cbn [default from_option id].
    pose proof (Hfill l) as (_ & F2 & _). by rewrite F2, take_drop.
  - done.
  - done.
  - intros sh c i t (l & Hl & -> & ->)%Hc. pose proof (Hfill l) as (F1 & F2 & F3 & F4). unfold cached in F2. rewrite F4 in F2. rewrite drop_0 in F2. rewrite F2, take_drop. by apply (H2 sh).
  - intros sh1 sh2 c1 c2 E1 _ B1 _. by destruct (Hn sh1 c1).
Qed.

Lemma overlay_length direct T W : Forall row T → length (overlay direct T W) ≤ length T + length W.
Proof.
  intros Hrow. revert W. induction Hrow as [|t T Ht _ IH]; intros W; [cbn; by rewrite length_fmap|]. destruct (scanned_row t Ht) as (x & Ex & _).
  induction W as [|w W IHW]; [rewrite overlay_nil_r, Ex; specialize (IH []); cbn [length app] in *; lia|]. rewrite overlay_cons. cbn [length] in IHW |- *.
  case_decide; [cbn [length]; lia|]. case_decide; [rewrite Ex; specialize (IH (w :: W)); cbn [length app] in *; lia|]. specialize (IH W). cbn [length]. lia.
Qed.
End whole.

