(* ===== verification/RangeScanner.v ===== *)
(** * The scanner of a range-partitioned table ([RangePartitionedCcmScanner], [include/cc/ccm_scanner.h])

    A slice of a range is scanned by all cores of a node at the same time.  Each core fills
    a cache of its own and then commits it ([CommitAtCore]): it links its tuples to a chain
    and merges the chain with that of the other cores, without waiting for them.  There is
    room for one finished chain, [head_index_]; a core that finds it occupied takes it out, merges
    both chains outside of the lock and tries again.  The file shows that this ends, and that
    when all cores have committed, the chain has every tuple once and in the order of the scan,
    however the cores interleave.

    A thread executes the critical section of [Merge(head)], or one round of the loop of
    [Merge(left, right)], at a time; the chains that two threads work on have no cell in common,
    so finer steps would not show more.  [None] is a failed assertion or an access out of
    range. *)

From stdpp Require Import sorting.
From S2P Require Import Prelude CcProtocol ReadWriteSet CcPages ScanCache.

(** ** Compound indexes *)

(** A 32-bit word: 10 bits for the core, the others for the position in its cache. *)
Definition CompoundIndex (core_id offset : Z) : Z := Z.lor (u32 (Z.shiftl offset 10)) core_id.
Definition Inf : Z := UINT32_MAX.
Definition CoreId (index : Z) : Z := Z.land index 1023.
Definition Offset (index : Z) : Z := Z.shiftr index 10.

(** What fits into the word and is not infinity. *)
Definition index_ok (core_id offset : Z) : Prop := (0 ≤ core_id < 1024 ∧ 0 ≤ offset < 2 ^ 22 - 1)%Z.

Lemma CompoundIndex_arith core_id offset : index_ok core_id offset → CompoundIndex core_id offset = (offset * 1024 + core_id)%Z.
Proof.
  intros [Hc Ho]. unfold CompoundIndex, u32. rewrite Z.shiftl_mul_pow2 by lia. rewrite Z.mod_small by lia. rewrite <- Z.add_lor_land.
  change (offset * 2 ^ 10)%Z with (offset * 1024)%Z. enough (Z.land (offset * 1024) core_id = 0)%Z by lia. change 1024%Z with (2 ^ 10)%Z in *. apply Z.bits_inj'. intros n Hn. rewrite Z.land_spec, Z.bits_0.
  destruct (decide (n < 10)%Z); [by rewrite Z.mul_pow2_bits_low by lia|]. rewrite (Z.bits_above_log2 core_id); [by rewrite andb_false_r|lia|].
  destruct (decide (core_id = 0)%Z) as [->|]; [cbn; lia|]. apply Z.log2_lt_pow2; [lia|]. apply Z.lt_le_trans with (2 ^ 10)%Z; [lia|]. apply Z.pow_le_mono_r; lia.
Qed.

Lemma CompoundIndex_parts core_id offset : index_ok core_id offset →
  CoreId (CompoundIndex core_id offset) = core_id ∧ Offset (CompoundIndex core_id offset) = offset ∧ CompoundIndex core_id offset ≠ Inf.
Proof.
  intros Hi. rewrite (CompoundIndex_arith _ _ Hi). destruct Hi as [Hc Ho]. unfold CoreId, Offset, Inf, UINT32_MAX.
  change 1023%Z with (Z.ones 10). rewrite Z.land_ones, Z.shiftr_div_pow2 by lia. change (2 ^ 10)%Z with 1024%Z.
  rewrite Z.add_comm, Z.mod_add, Z.div_add, Z.mod_small, Z.div_small by lia. split_and!; lia.
Qed.

(** ** The scanner *)

Record RangeScanner (K V : Type) := mkRangeScanner {
  rs_scans : list (ScanCache K V);
  index_chain_ : list (list Z);
  head_occupied_ : bool;
  head_index_ : Z;
  rs_status_ : ScannerStatus;
  is_require_sort_ : bool;
  partition_ng_term_ : Z;
}.
Arguments mkRangeScanner {_ _}.
Arguments rs_scans {_ _}.
Arguments index_chain_ {_ _}.
Arguments head_occupied_ {_ _}.
Arguments head_index_ {_ _}.
Arguments rs_status_ {_ _}.
Arguments is_require_sort_ {_ _}.
Arguments partition_ng_term_ {_ _}.

(** Where a core is in [CommitAtCore]: before [Merge(head)], before and in the loop of
    [Merge(left, right)], or done. *)
Inductive MergeState :=
  | MergeHead (head : Z)
  | MergeTwo (left_ right_ : Z)
  | MergeLoop (merge_head prev_index left_ right_ : Z)
  | Merged.

Section scanner.
Context {K V : Type} `{!KeyOrder K} (direct : ScanDirection) (dflt : ScanTuple K V).
Abbreviation scanner := (RangeScanner K V).
Implicit Types (s : scanner).

Definition set_chains s (chains : list (list Z)) : scanner :=
  mkRangeScanner (rs_scans s) chains (head_occupied_ s) (head_index_ s) (rs_status_ s) (is_require_sort_ s) (partition_ng_term_ s).
Definition set_head s (occupied : bool) (index : Z) : scanner :=
  mkRangeScanner (rs_scans s) (index_chain_ s) occupied index (rs_status_ s) (is_require_sort_ s) (partition_ng_term_ s).
Definition set_rs_status s (st : ScannerStatus) : scanner :=
  mkRangeScanner (rs_scans s) (index_chain_ s) (head_occupied_ s) (head_index_ s) st (is_require_sort_ s) (partition_ng_term_ s).
Definition set_rs_caches s (scans : list (ScanCache K V)) (chains : list (list Z)) : scanner :=
  mkRangeScanner scans chains (head_occupied_ s) (head_index_ s) (rs_status_ s) (is_require_sort_ s) (partition_ng_term_ s).

Definition RangeScanner_new : scanner := mkRangeScanner [] [] false Inf ScannerOpen true (-1).

(** The caches that were there are emptied; the new ones are empty. *)
Definition rs_AddShard s (shard_code : nat) : scanner :=
  let added := S shard_code - length (rs_scans s) in
  set_rs_caches s ((cache_Reset <$> rs_scans s) ++ replicate added (ScanCache_new dflt))
    (((λ _, []) <$> take (length (rs_scans s)) (index_chain_ s)) ++ drop (length (rs_scans s)) (index_chain_ s) ++ replicate added []).
Definition rs_ResetShards s (shard_cnt : nat) : scanner :=
  let old_size := length (rs_scans s) in
  set_head
    (set_rs_caches s ((cache_Reset <$> take shard_cnt (rs_scans s)) ++ replicate (shard_cnt - old_size) (ScanCache_new dflt))
      (if decide (shard_cnt < old_size) then (λ _, []) <$> take shard_cnt (index_chain_ s)
       else ((λ _, []) <$> take old_size (index_chain_ s)) ++ drop old_size (index_chain_ s) ++ replicate (shard_cnt - old_size) []))
    false Inf.
Definition rs_ResetCaches s : scanner :=
  set_head (set_rs_caches s (cache_Reset <$> rs_scans s) ((λ _, []) <$> index_chain_ s)) false Inf.
Definition SetPartitionNgTerm s (term : Z) : scanner :=
  mkRangeScanner (rs_scans s) (index_chain_ s) (head_occupied_ s) (head_index_ s) (rs_status_ s) (is_require_sort_ s) term.
Definition rs_Reset s : scanner := SetPartitionNgTerm s (-1).
Definition rs_Close s : scanner := mkRangeScanner [] [] false Inf ScannerClosed (is_require_sort_ s) (partition_ng_term_ s).

Definition AdvanceMergeIndex s (index : Z) : option Z := index_chain_ s !! Z.to_nat (CoreId index) ≫= (.!! Z.to_nat (Offset index)).
Definition At s (index : Z) : option (ScanTuple K V) :=
  c ← rs_scans s !! Z.to_nat (CoreId index);
  if decide (Offset index < Z.of_nat (size_ c))%Z then cache_At c (Z.to_nat (Offset index)) else None.
Definition UpdateNextIndex s (prev_index index : Z) : option scanner :=
  chain ← index_chain_ s !! Z.to_nat (CoreId prev_index);
  if decide (Offset prev_index < Z.of_nat (length chain))%Z
  then Some (set_chains s (<[Z.to_nat (CoreId prev_index) := <[Z.to_nat (Offset prev_index) := index]> chain]> (index_chain_ s))) else None.

(** [Merge(head)]: the critical section. *)
Definition merge_head_step s (head : Z) : scanner * MergeState :=
  if negb (head_occupied_ s) then (set_head s true head, Merged)
  else if decide (head = Inf) then (s, Merged)
  else if decide (head_index_ s = Inf) then (set_head s (head_occupied_ s) head, Merged)
  else (set_head s false (head_index_ s), MergeTwo head (head_index_ s)).

(** Which of two tuples comes first. *)
Definition take_left (left_tuple right_tuple : ScanTuple K V) : bool :=
  match direct with
  | Forward => bool_decide (key_obj_ left_tuple <k key_obj_ right_tuple)
  | Backward => negb (bool_decide (key_obj_ left_tuple <k key_obj_ right_tuple))
  end.

(** [Merge(left, right)] up to the loop. *)
Definition merge_two_step s (left_ right_ : Z) : option MergeState :=
  if decide (left_ = Inf) then Some (MergeHead right_)
  else if decide (right_ = Inf) then Some (MergeHead left_)
  else
    lt ← At s left_; rt ← At s right_;
    if take_left lt rt then left_' ← AdvanceMergeIndex s left_; Some (MergeLoop left_ left_ left_' right_)
    else right_' ← AdvanceMergeIndex s right_; Some (MergeLoop right_ right_ left_ right_').

(** One round of the loop, or what follows it. *)
Definition merge_loop_step s (merge_head prev_index left_ right_ : Z) : option (scanner * MergeState) :=
  if decide (left_ ≠ Inf ∧ right_ ≠ Inf) then
    lt ← At s left_; rt ← At s right_;
    if take_left lt rt then
      s' ← UpdateNextIndex s prev_index left_; left_' ← AdvanceMergeIndex s' left_; Some (s', MergeLoop merge_head left_ left_' right_)
    else
      s' ← UpdateNextIndex s prev_index right_; right_' ← AdvanceMergeIndex s' right_; Some (s', MergeLoop merge_head right_ left_ right_')
  else
    s1 ← (if decide (left_ ≠ Inf) then UpdateNextIndex s prev_index left_ else Some s);
    s2 ← (if decide (right_ ≠ Inf) then UpdateNextIndex s1 prev_index right_ else Some s1);
    Some (s2, MergeHead merge_head).

Definition merge_step s (ms : MergeState) : option (scanner * MergeState) :=
  match ms with
  | MergeHead head => Some (merge_head_step s head)
  | MergeTwo left_ right_ => ms' ← merge_two_step s left_ right_; Some (s, ms')
  | MergeLoop merge_head prev left_ right_ => merge_loop_step s merge_head prev left_ right_
  | Merged => None
  end.

(** The chain of the tuples of a cache. *)
Definition first_chain (core_id : Z) (sz : nat) : list Z :=
  ((λ idx, CompoundIndex core_id (Z.of_nat idx + 1)) <$> seq 0 (sz - 1)) ++ [Inf].

Definition CommitAtCore s (core_id : nat) : option (scanner * MergeState) :=
  c ← rs_scans s !! core_id;
  if decide (0 < size_ c) then
    next_chain ← index_chain_ s !! core_id;
    if decide (next_chain = []) then
      let s' := set_chains s (<[core_id := first_chain (Z.of_nat core_id) (size_ c)]> (index_chain_ s)) in
      Some (s', if is_require_sort_ s then MergeHead (CompoundIndex (Z.of_nat core_id) 0) else Merged)
    else None
  else Some (s, Merged).

(** [ConcatAll], for scans that need no order. *)
Fixpoint concat_from (chains : list (list Z)) (core_id : nat) (head : Z) : list (list Z) * Z :=
  match chains with
  | [] => ([], head)
  | chain :: chains =>
      match chain with
      | [] => let '(l, h) := concat_from chains (S core_id) head in ([] :: l, h)
      | _ => let '(l, h) := concat_from chains (S core_id) (CompoundIndex (Z.of_nat core_id) 0) in
             (<[length chain - 1 := head]> chain :: l, h)
      end
  end.
Definition FinalizeCommit s : option scanner :=
  if is_require_sort_ s then Some s
  else if decide (head_index_ s = Inf) then
    let '(chains, head) := concat_from (index_chain_ s) 0 (head_index_ s) in Some (set_head (set_chains s chains) (head_occupied_ s) head)
  else None.

Definition rs_Current s : option (option (ScanTuple K V) * scanner) :=
  if decide (head_index_ s = Inf) then Some (None, set_rs_status s ScannerBlocked)
  else if decide (rs_status_ s = ScannerOpen) then t ← At s (head_index_ s); Some (Some t, s) else None.
Definition rs_MoveNext s : option scanner :=
  if decide (head_index_ s = Inf) then Some s
  else
    next ← AdvanceMergeIndex s (head_index_ s);
    let s' := set_head s (head_occupied_ s) next in Some (if decide (next = Inf) then set_rs_status s' ScannerBlocked else s').

(** The tuples that the client reads. *)
Fixpoint read_scan (fuel : nat) s : option (list (ScanTuple K V)) :=
  match fuel with
  | 0 => None
  | S fuel =>
      '(t, s1) ← rs_Current s;
      match t with
      | None => Some []
      | Some t => s2 ← rs_MoveNext s1; l ← read_scan fuel s2; Some (t :: l)
      end
  end.
End scanner.

(** ** The cores of a node *)

(** [None]: the core has not committed yet. *)
Record Committing (K V : Type) := mkCommitting {
  cm_scanner : RangeScanner K V;
  cm_cores : list (option MergeState);
}.
Arguments mkCommitting {_ _}.
Arguments cm_scanner {_ _}.
Arguments cm_cores {_ _}.

Section cores.
Context {K V : Type} `{!KeyOrder K} (direct : ScanDirection).

Definition core_step (st : Committing K V) (core : nat) : option (Committing K V) :=
  x ← cm_cores st !! core;
  '(s', ms) ← match x with None => CommitAtCore (cm_scanner st) core | Some ms => merge_step direct (cm_scanner st) ms end;
  Some (mkCommitting s' (<[core := Some ms]> (cm_cores st))).

Definition commit_step (st st' : Committing K V) : Prop := ∃ core, core_step st core = Some st'.

Definition all_committed (st : Committing K V) : Prop := Forall (λ x, x = Some Merged) (cm_cores st).
End cores.

(** ** Chains *)

(** From [i] the cells lead over the indexes [l] to [j]. *)
Inductive path (nx : Z → option Z) : Z → list Z → Z → Prop :=
  | path_nil i : path nx i [] i
  | path_cons i i' l j : i ≠ Inf → nx i = Some i' → path nx i' l j → path nx i (i :: l) j.

Lemma path_ext nx nx' i l j : (∀ x, x ∈ l → nx x = nx' x) → path nx i l j → path nx' i l j.
Proof.
  intros He Hp. induction Hp as [|i i' l j Hi Hn Hp IH]; [constructor|]. econstructor; [done| |apply IH; intros; apply He; by right].
  rewrite <- He; [done|by left].
Qed.
Lemma path_snoc nx i l p j : path nx i l p → p ≠ Inf → nx p = Some j → path nx i (l ++ [p]) j.
Proof. intros Hp Hpi Hn. induction Hp as [|i i' l q Hi Hi' Hp IH]; cbn; econstructor; try done; [constructor|by apply IH]. Qed.
Lemma path_app nx i l p l' j : path nx i l p → path nx p l' j → path nx i (l ++ l') j.
Proof. intros Hp Hp'. induction Hp as [|i i' l q Hi Hi' Hp IH]; cbn; [done|]. econstructor; [done..|by apply IH]. Qed.
Lemma path_Inf nx l : path nx Inf l Inf → l = [].
Proof. by inversion 1. Qed.
Lemma path_nonempty nx i l : path nx i l Inf → i ≠ Inf → ∃ i' l', l = i :: l' ∧ nx i = Some i' ∧ path nx i' l' Inf.
Proof. inversion 1; [done|]. eauto. Qed.

Section chains.
Context {K V : Type} `{!KeyOrder K} (direct : ScanDirection) (tup : Z → option (ScanTuple K V)) (W : nat).
Implicit Types (nx : Z → option Z) (l : list Z).

(** The tuple at [i] does not come after that at [j]. *)
Definition le_at (i j : Z) : Prop := ∃ a b, tup i = Some a ∧ tup j = Some b ∧ ¬ before direct (key_obj_ b) (key_obj_ a).
Definition sorted_at l : Prop := StronglySorted le_at l.

Lemma le_at_trans i j k : le_at i j → le_at j k → le_at i k.
Proof.
  intros (a & b & Ea & Eb & H1) (b' & c & Eb' & Ec & H2). exists a, c. split_and!; [done..|]. assert (b' = b) as -> by congruence.
  by eapply not_before_trans.
Qed.

Lemma take_left_spec i j a b : tup i = Some a → tup j = Some b → if take_left direct a b then le_at i j else le_at j i.
Proof.
  intros Ea Eb. unfold take_left, le_at. destruct direct; case_bool_decide as E; cbn [negb].
  - exists a, b. split_and!; [done..|]. by apply (before_asym Forward).
  - exists b, a. by split_and!.
  - exists b, a. split_and!; [done..|]. by apply (before_asym Forward).
  - exists a, b. by split_and!.
Qed.

(** The indexes that a core works on, and a bound for the steps it has before it. *)
Inductive owns nx : option MergeState → list Z → nat → Prop :=
  | owns_start : owns nx None [] (2 * W)
  | owns_merged : owns nx (Some Merged) [] 0
  | owns_head h l : l ≠ [] → path nx h l Inf → sorted_at l → owns nx (Some (MergeHead h)) l (W + 1)
  | owns_two a b la lb : la ≠ [] → lb ≠ [] → path nx a la Inf → path nx b lb Inf → sorted_at la → sorted_at lb →
      owns nx (Some (MergeTwo a b)) (la ++ lb) (2 * W)
  | owns_loop h p a b done la lb : path nx h done p → p ≠ Inf → path nx a la Inf → path nx b lb Inf → la ++ lb ≠ [] →
      sorted_at (done ++ p :: la) → sorted_at (done ++ p :: lb) →
      owns nx (Some (MergeLoop h p a b)) (done ++ p :: la ++ lb) (W + 2 + length la + length lb).

Lemma owns_ext nx nx' x l w : (∀ i, i ∈ l → nx i = nx' i) → owns nx x l w → owns nx' x l w.
Proof.
  intros He Ho. destruct Ho as [| |h l Hn Hp Hs|a b la lb H1 H2 Ha Hb Sa Sb|h p a b done la lb Hh Hp Ha Hb Hn Sa Sb].
  - constructor.
  - constructor.
  - constructor; [done|by eapply path_ext|done].
  - constructor; try done; (eapply path_ext; [|done]); intros i Hi; apply He; set_solver.
  - constructor; try done; (eapply path_ext; [|done]); intros i Hi; apply He; set_solver.
Qed.

Lemma owns_nonempty nx ms l w : owns nx (Some ms) l w → ms ≠ Merged → l ≠ [].
Proof.
  inversion 1 as [| |? ? Hn|? ? la lb Hn|? ? ? ? d]; subst; intros Hm; [done|done| |].
  - by intros [? _]%app_eq_nil.
  - by destruct d.
Qed.

Lemma sorted_cons_le i l j : sorted_at (i :: l) → j ∈ l → le_at i j.
Proof. intros [_ H]%StronglySorted_inv Hj. rewrite Forall_forall in H. by apply H. Qed.
Lemma sorted_merge i j l : le_at i j → sorted_at (j :: l) → sorted_at (i :: j :: l).
Proof.
  intros Hij Hs. constructor; [done|]. constructor; [done|]. apply Forall_forall. intros x Hx. eapply le_at_trans; [done|]. by eapply sorted_cons_le.
Qed.
(** [y] goes between [done] and [l']. *)
Lemma sorted_between done y l l' : sorted_at (done ++ y :: l) → sorted_at (done ++ l') → (∀ x, x ∈ l' → le_at y x) → sorted_at (done ++ y :: l').
Proof.
  unfold sorted_at. rewrite !StronglySorted_app. intros (H1 & _ & H3) (H4 & H5 & H6) Hy. split_and!; [|done|].
  - intros x z Hx [->|Hz]%elem_of_cons; [apply H1; [done|by left]|by apply H4].
  - constructor; [done|]. by apply Forall_forall.
Qed.
Lemma chain_sorted_insert done p y l z l' : sorted_at (done ++ p :: y :: l) → sorted_at (done ++ p :: z :: l') → le_at y z →
  sorted_at ((done ++ [p]) ++ y :: z :: l').
Proof.
  intros H1 H2 Hle. replace (done ++ p :: y :: l) with ((done ++ [p]) ++ y :: l) in H1 by by rewrite <- app_assoc.
  replace (done ++ p :: z :: l') with ((done ++ [p]) ++ z :: l') in H2 by by rewrite <- app_assoc. eapply sorted_between; [done..|].
  intros x [->|Hx]%elem_of_cons; [done|]. eapply le_at_trans; [done|]. unfold sorted_at in H2. apply StronglySorted_app_1_r in H2. by eapply sorted_cons_le.
Qed.
End chains.

(** ** One step of a core *)

Section step.
Context {K V : Type} `{!KeyOrder K} (direct : ScanDirection) (W : nat).
Abbreviation scanner := (RangeScanner K V).
Abbreviation nx s := (AdvanceMergeIndex (K := K) (V := V) s).
Abbreviation owns s := (owns direct (At s) W (nx s)).
Abbreviation sorted s := (sorted_at direct (At s)).
Implicit Types (s : scanner) (l : list Z).

(** An index of a tuple and of a cell. *)
Record cell_ok s (i : Z) : Prop := {
  ce_pos : (0 ≤ i)%Z;
  ce_Inf : i ≠ Inf;
  ce_tuple : is_Some (At s i);
  ce_next : is_Some (nx s i);
}.

Lemma index_inj i j : (0 ≤ i)%Z → (0 ≤ j)%Z → Z.to_nat (CoreId i) = Z.to_nat (CoreId j) → Z.to_nat (Offset i) = Z.to_nat (Offset j) → i = j.
Proof.
  intros Hi Hj. unfold CoreId, Offset. change 1023%Z with (Z.ones 10). rewrite !Z.land_ones, !Z.shiftr_div_pow2 by lia. change (2 ^ 10)%Z with 1024%Z.
  pose proof (Z.mod_pos_bound i 1024 ltac:(lia)). pose proof (Z.mod_pos_bound j 1024 ltac:(lia)). pose proof (Z.div_pos i 1024 ltac:(lia) ltac:(lia)).
  pose proof (Z.div_pos j 1024 ltac:(lia) ltac:(lia)). pose proof (Z.div_mod i 1024 ltac:(lia)). pose proof (Z.div_mod j 1024 ltac:(lia)). lia.
Qed.

(** Only the cells change, and each row keeps its length. *)
Definition same_rows s s' : Prop := ∃ chains, s' = set_chains s chains ∧ ∀ c : nat, length <$> chains !! c = length <$> index_chain_ s !! c.

Lemma UpdateNextIndex_ok s p i : cell_ok s p → ∃ s', UpdateNextIndex s p i = Some s' ∧ same_rows s s' ∧ nx s' p = Some i ∧ ∀ j, (0 ≤ j)%Z → j ≠ p → nx s' j = nx s j.
Proof.
  intros [Hp _ _ [q Hq]]. unfold AdvanceMergeIndex in Hq. unfold UpdateNextIndex, AdvanceMergeIndex.
  destruct (index_chain_ s !! Z.to_nat (CoreId p)) as [chain|] eqn:Ec; [|done]. cbn in Hq |- *. pose proof (lookup_lt_Some _ _ _ Hq) as Hlt. pose proof (lookup_lt_Some _ _ _ Ec) as Hlt'.
  assert (0 ≤ Offset p)%Z as Ho by (unfold Offset; by apply Z.shiftr_nonneg). rewrite decide_True by lia. eexists. split; [done|]. cbn. split_and!.
  - eexists. split; [done|]. intros c. destruct (decide (Z.to_nat (CoreId p) = c)) as [<-|]; [|by rewrite list_lookup_insert_ne].
    rewrite list_lookup_insert_eq, Ec by done. cbn. by rewrite length_insert.
  - rewrite list_lookup_insert_eq by done. cbn. by rewrite list_lookup_insert_eq.
  - intros j Hj Hne. destruct (decide (Z.to_nat (CoreId p) = Z.to_nat (CoreId j))) as [E|]; [|by rewrite list_lookup_insert_ne].
    rewrite <- E, list_lookup_insert_eq, Ec by done. cbn. apply list_lookup_insert_ne. intros E'. by apply Hne, index_inj.
Qed.

Definition head_ok s l : Prop := if head_occupied_ s then l ≠ [] ∧ path (nx s) (head_index_ s) l Inf ∧ sorted s l else l = [].
Definition head_weight s : nat := if head_occupied_ s then W else 0.

(** What a step of a core does to what it owns and to the head. *)
Record stepped s l w hl s' ms' l' w' hl' : Prop := {
  sd_owns : owns s' (Some ms') l' w';
  sd_head : head_ok s' hl';
  sd_all : l' ++ hl' ≡ₚ l ++ hl;
  sd_weight : w' + head_weight s' < w + head_weight s;
  sd_frame i : i ∉ l → (0 ≤ i)%Z → nx s' i = nx s i;
  sd_rows : ∃ s1, same_rows s s1 ∧ ∃ occ h, s' = set_head s1 occ h;
}.

Lemma same_rows_refl s : same_rows s s.
Proof. exists (index_chain_ s). by destruct s. Qed.
Lemma same_rows_trans s1 s2 s3 : same_rows s1 s2 → same_rows s2 s3 → same_rows s1 s3.
Proof. intros (c2 & -> & H2) (c3 & -> & H3). exists c3. split; [done|]. intros c. by rewrite H3, H2. Qed.
Lemma set_head_same s : s = set_head s (head_occupied_ s) (head_index_ s).
Proof. by destruct s. Qed.

Lemma head_step_ok s h l w hl : owns s (Some (MergeHead h)) l w → head_ok s hl →
  let '(s', ms') := merge_head_step s h in ∃ l' w' hl', stepped s l w hl s' ms' l' w' hl'.
Proof.
  intros Ho Hh. inversion Ho as [| |? ? Hn Hp Hs| |]; subst. unfold merge_head_step, head_ok in *. destruct (head_occupied_ s) eqn:Eocc; cbn [negb].
  - destruct Hh as (Hn' & Hp' & Hs'). rewrite !decide_False by (intros E; rewrite E in *; by apply path_Inf in Hp || by apply path_Inf in Hp').
    exists (l ++ hl), (2 * W), []. split.
    + by apply owns_two.
    + done.
    + by rewrite app_nil_r.
    + unfold head_weight. rewrite Eocc. cbn. lia.
    + done.
    + exists s. split; [apply same_rows_refl|by eexists _, _].
  - exists [], 0, l. subst hl. split.
    + constructor.
    + by split_and!.
    + by rewrite app_nil_r.
    + unfold head_weight. rewrite Eocc. cbn. lia.
    + done.
    + exists s. split; [apply same_rows_refl|by eexists _, _].
Qed.

(** A step that leaves the head alone. *)
Lemma stepped_local s l w hl s' ms' l' w' : head_ok s hl → same_rows s s' → (∀ i, i ∉ l → (0 ≤ i)%Z → nx s' i = nx s i) →
  (∀ i, i ∈ hl → i ∉ l ∧ (0 ≤ i)%Z) → owns s' (Some ms') l' w' → l' ≡ₚ l → w' < w → stepped s l w hl s' ms' l' w' hl.
Proof.
  intros Hh Hr Hf Hd Ho Hp Hw. pose proof Hr as (chains & Es & _). split; try done.
  - unfold head_ok in *. rewrite Es. cbn [head_occupied_ set_chains]. destruct (head_occupied_ s); [|done]. destruct Hh as (H1 & H2 & H3). split_and!; [done| |done].
    eapply path_ext; [|exact H2]. intros i Hi. destruct (Hd i Hi). rewrite <- Es. symmetry. by apply Hf.
  - by rewrite Hp.
  - unfold head_weight. rewrite Es. cbn. lia.
  - exists s'. split; [done|]. exists (head_occupied_ s'), (head_index_ s'). apply set_head_same.
Qed.

Lemma two_step_ok s a b l w hl : owns s (Some (MergeTwo a b)) l w → head_ok s hl → (∀ i, i ∈ l ++ hl → cell_ok s i) → NoDup (l ++ hl) → length l + 3 ≤ W →
  ∃ ms' l' w', merge_two_step direct s a b = Some ms' ∧ stepped s l w hl s ms' l' w' hl.
Proof.
  intros Ho Hh Hc Hnd HW. inversion Ho as [| | |? ? la lb Hna Hnb Hpa Hpb Hsa Hsb|]; subst. unfold merge_two_step.
  assert (a ≠ Inf) as Ha by (intros ->; by apply path_Inf in Hpa). assert (b ≠ Inf) as Hb by (intros ->; by apply path_Inf in Hpb). rewrite !decide_False by done.
  destruct (path_nonempty _ _ _ Hpa Ha) as (a' & la' & -> & Ea & Hpa'). destruct (path_nonempty _ _ _ Hpb Hb) as (b' & lb' & -> & Eb & Hpb').
  destruct (ce_tuple _ _ (Hc a ltac:(set_solver))) as [ta Eta]. destruct (ce_tuple _ _ (Hc b ltac:(set_solver))) as [tb Etb].
  rewrite Eta, Etb. cbn [mbind option_bind]. pose proof (take_left_spec direct (At s) a b ta tb Eta Etb) as Hle. rewrite Ea, Eb. cbn [mbind option_bind].
  assert (∀ i, i ∈ hl → i ∉ (a :: la') ++ b :: lb' ∧ (0 ≤ i)%Z) as Hd.
  { intros i Hi. split; [|by apply (Hc i); set_solver]. apply NoDup_app in Hnd as (_ & Hx & _). intros Hin. by apply (Hx i Hin). }
  destruct (take_left direct ta tb).
  - eexists _, ([] ++ a :: la' ++ b :: lb'), _. split; [done|]. apply stepped_local; [done|apply same_rows_refl|done|done| |done|].
    + apply owns_loop; [constructor|done..| |done|by apply (sorted_merge direct (At s) a b lb')]. by intros [_ ?]%app_eq_nil.
    + rewrite length_app in HW. cbn [length] in *. lia.
  - eexists _, ([] ++ b :: (a :: la') ++ lb'), _. split; [done|]. apply stepped_local; [done|apply same_rows_refl|done|done| | |].
    + apply owns_loop; [constructor|done..|by apply (sorted_merge direct (At s) b a la')|done].
    + cbn. rewrite (Permutation_middle (a :: la') lb' b). done.
    + rewrite length_app in HW. cbn [length] in *. lia.
Qed.

(** The last linked index [p] is linked to [x]. *)
Lemma link_ok s h p done rest x : path (nx s) h done p → NoDup (done ++ p :: rest) → (∀ i, i ∈ done ++ p :: rest → cell_ok s i) →
  ∃ s', UpdateNextIndex s p x = Some s' ∧ same_rows s s' ∧ path (nx s') h (done ++ [p]) x ∧
    (∀ i, i ∈ rest → nx s' i = nx s i) ∧ (∀ a l, path (nx s) a l Inf → l ⊆ rest → path (nx s') a l Inf) ∧
    ∀ i, i ∉ done ++ p :: rest → (0 ≤ i)%Z → nx s' i = nx s i.
Proof.
  intros Hp Hnd Hc. assert (cell_ok s p) as Hcp by (apply Hc; set_solver). destruct (UpdateNextIndex_ok s p x Hcp) as (s' & E & Hr & Hx & Hf).
  apply NoDup_app in Hnd as (_ & Hdp & [Hpr _]%NoDup_cons).
  assert (∀ i, i ∈ rest → nx s' i = nx s i) as Hrest.
  { intros i Hi. apply Hf; [apply (Hc i); set_solver|]. intros ->. done. }
  exists s'. split_and!; [done|done| |done| |].
  - apply path_snoc; [|apply Hcp|done]. eapply path_ext; [|exact Hp]. intros i Hi. symmetry. apply Hf; [apply (Hc i); set_solver|]. intros ->. apply (Hdp p Hi). by left.
  - intros a l Hpa Hl. eapply path_ext; [|exact Hpa]. intros i Hi. symmetry. by apply Hrest, Hl.
  - intros i Hi H0. apply Hf; [done|]. intros ->. apply Hi. set_solver.
Qed.

Lemma sorted_set s s' l : same_rows s s' → sorted s l → sorted s' l.
Proof. by intros (chains & -> & _). Qed.

Lemma loop_step_ok s h p a b l w hl : owns s (Some (MergeLoop h p a b)) l w → head_ok s hl → (∀ i, i ∈ l ++ hl → cell_ok s i) → NoDup (l ++ hl) →
  ∃ s' ms' l' w', merge_loop_step direct s h p a b = Some (s', ms') ∧ stepped s l w hl s' ms' l' w' hl.
Proof.
  intros Ho Hh Hc Hnd. inversion Ho as [| | | |? ? ? ? done la lb Hpath Hp Hpa Hpb Hne Hsa Hsb]; subst.
  pose proof Hnd as (Hnd' & Hdisj & _)%NoDup_app. assert (∀ i, i ∈ done ++ p :: la ++ lb → cell_ok s i) as Hc' by (intros i Hi; apply Hc, elem_of_app; by left).
  assert (∀ i, i ∈ hl → i ∉ done ++ p :: la ++ lb ∧ (0 ≤ i)%Z) as Hd.
  { intros i Hi. split; [intros Hin; by apply (Hdisj i Hin)|]. apply (Hc i), elem_of_app. by right. }
  pose proof (λ x, link_ok s h p done (la ++ lb) x Hpath Hnd' Hc') as Hlink. unfold merge_loop_step. destruct (decide (a ≠ Inf ∧ b ≠ Inf)) as [[Ha Hb]|Hend].
  - destruct (path_nonempty _ _ _ Hpa Ha) as (a' & la' & -> & Ea & Hpa'). destruct (path_nonempty _ _ _ Hpb Hb) as (b' & lb' & -> & Eb & Hpb').
    destruct (ce_tuple _ _ (Hc' a ltac:(set_solver))) as [ta Eta]. destruct (ce_tuple _ _ (Hc' b ltac:(set_solver))) as [tb Etb].
    rewrite Eta, Etb. cbn [mbind option_bind]. pose proof (take_left_spec direct (At s) a b ta tb Eta Etb) as Hle. destruct (take_left direct ta tb).
    + destruct (Hlink a) as (s' & -> & Hr & Hp' & Hsame & Hpaths & Hframe). cbn [mbind option_bind]. rewrite (Hsame a) by set_solver. rewrite Ea. cbn [mbind option_bind].
      eexists s', _, ((done ++ [p]) ++ a :: la' ++ b :: lb'), (W + 2 + length la' + length (b :: lb')). split; [done|]. apply stepped_local; [done..| |by rewrite <- app_assoc|cbn [length]; lia].
      apply owns_loop; [done|done|apply Hpaths; [done|set_solver]|apply Hpaths; [done|set_solver]|by intros [_ ?]%app_eq_nil| |];
        eapply sorted_set; try done; [by rewrite <- app_assoc|by eapply chain_sorted_insert].
    + destruct (Hlink b) as (s' & -> & Hr & Hp' & Hsame & Hpaths & Hframe). cbn [mbind option_bind]. rewrite (Hsame b) by set_solver. rewrite Eb. cbn [mbind option_bind].
      eexists s', _, ((done ++ [p]) ++ b :: (a :: la') ++ lb'), (W + 2 + length (a :: la') + length lb'). split; [done|]. apply stepped_local; [done..| | |cbn [length]; lia].
      * apply owns_loop; [done|done|apply Hpaths; [done|set_solver]|apply Hpaths; [done|set_solver]|done| |];
          eapply sorted_set; try done; [by eapply chain_sorted_insert|by rewrite <- app_assoc].
      * rewrite <- app_assoc. cbn. by rewrite (Permutation_middle (a :: la') lb' b).
  - assert (∃ x l', (a = Inf ∧ x = b ∧ la = [] ∧ lb = l' ∨ b = Inf ∧ x = a ∧ lb = [] ∧ la = l') ∧ x ≠ Inf ∧ path (nx s) x l' Inf ∧ la ++ lb = l' ∧ sorted s (done ++ p :: l')) as
      (x & l' & Hcase & Hx & Hpx & El & Hs).
    { destruct (decide (a = Inf)) as [->|Ha].
      - apply path_Inf in Hpa as ->. exists b, lb. split_and!; [by left| |done..]. intros ->. by apply path_Inf in Hpb as ->.
      - destruct (decide (b = Inf)) as [->|Hb]; [|by destruct Hend]. apply path_Inf in Hpb as ->. exists a, la. rewrite app_nil_r. split_and!; [by right|done..]. }
    destruct (Hlink x) as (s' & E & Hr & Hp' & Hsame & Hpaths & Hframe).
    assert ((s1 ← (if decide (a ≠ Inf) then UpdateNextIndex s p a else Some s); s2 ← (if decide (b ≠ Inf) then UpdateNextIndex s1 p b else Some s1); Some (s2, MergeHead h)) = Some (s', MergeHead h)) as ->.
    { destruct Hcase as [(-> & -> & _)|(-> & -> & _)]; [rewrite (decide_False (P := Inf ≠ Inf)) by tauto; cbn [mbind option_bind]; by rewrite decide_True, E|].
      rewrite decide_True, E by done. cbn [mbind option_bind]. by rewrite decide_False by tauto. }
    exists s', (MergeHead h), (done ++ p :: l'), (W + 1). split; [done|]. rewrite El in *. apply stepped_local; [done..| |done|lia].
    apply owns_head; [by destruct done| |by eapply sorted_set]. replace (done ++ p :: l') with ((done ++ [p]) ++ l') by by rewrite <- app_assoc.
    eapply path_app; [exact Hp'|]. by apply Hpaths.
Qed.

Lemma merge_step_ok s ms l w hl : owns s (Some ms) l w → ms ≠ Merged → head_ok s hl → (∀ i, i ∈ l ++ hl → cell_ok s i) → NoDup (l ++ hl) → length l + 3 ≤ W →
  ∃ s' ms' l' w' hl', merge_step direct s ms = Some (s', ms') ∧ stepped s l w hl s' ms' l' w' hl'.
Proof.
  intros Ho Hms Hh Hc Hnd HW. destruct ms as [h|a b|h p a b|]; cbn [merge_step]; [| | |done].
  - pose proof (head_step_ok s h l w hl Ho Hh) as Hx. destruct (merge_head_step s h) as [s' ms']. destruct Hx as (l' & w' & hl' & Hx). by exists s', ms', l', w', hl'.
  - destruct (two_step_ok s a b l w hl Ho Hh Hc Hnd HW) as (ms' & l' & w' & -> & Hx). by exists s, ms', l', w', hl.
  - destruct (loop_step_ok s h p a b l w hl Ho Hh Hc Hnd) as (s' & ms' & l' & w' & -> & Hx). by exists s', ms', l', w', hl.
Qed.
End step.

(** ** All cores *)

Section run.
Context {K V : Type} `{!KeyOrder K} (direct : ScanDirection) (s0 : RangeScanner K V).
Abbreviation scanner := (RangeScanner K V).
Abbreviation nx s := (AdvanceMergeIndex (K := K) (V := V) s).
Implicit Types (s : scanner) (st : Committing K V) (l : list Z) (cores : list (option MergeState)) (c : nat).

Definition cache_size c : nat := from_option size_ 0 (rs_scans s0 !! c).
Definition indexes c : list Z := (λ o, CompoundIndex (Z.of_nat c) (Z.of_nat o)) <$> seq 0 (cache_size c).

(** The caches when the cores begin to commit: filled in the order of the scan, and small
    enough for compound indexes. *)
Record caches_ok : Prop := {
  cs_cores : length (rs_scans s0) < 1024;
  cs_size c cache : rs_scans s0 !! c = Some cache → size_ cache ≤ length (cache_ cache) ∧ (Z.of_nat (size_ cache) < 2 ^ 22)%Z;
  cs_sorted c cache : rs_scans s0 !! c = Some cache →
    StronglySorted (λ a b, ¬ before direct (key_obj_ b) (key_obj_ a)) (take (size_ cache) (cache_ cache));
}.

Definition total_tuples : nat := sum_list (size_ <$> rs_scans s0).
Definition W : nat := total_tuples + 3.
Abbreviation owns s := (owns direct (At s) W (nx s)).

Definition commits c (x : option MergeState) : list Z := match x with None => [] | Some _ => indexes c end.
Definition committed cores : list Z := concat (imap commits cores).

Record commit_inv st (parts : list (list Z * nat)) (hl : list Z) : Prop := {
  ci_owns : Forall2 (λ x q, owns (cm_scanner st) x q.1 q.2) (cm_cores st) parts;
  ci_head : head_ok direct (cm_scanner st) hl;
  ci_all : hl ++ concat parts.*1 ≡ₚ committed (cm_cores st);
  ci_scans : rs_scans (cm_scanner st) = rs_scans s0;
  ci_sort : is_require_sort_ (cm_scanner st) = true;
  ci_status : rs_status_ (cm_scanner st) = ScannerOpen;
  ci_length : length (cm_cores st) = length (rs_scans s0);
  ci_rows c x : cm_cores st !! c = Some x → ∃ row, index_chain_ (cm_scanner st) !! c = Some row ∧ length row = length (commits c x);
  ci_Inf : committed (cm_cores st) = [] → head_index_ (cm_scanner st) = Inf;
}.
Definition measure st (parts : list (list Z * nat)) : nat := sum_list parts.*2 + head_weight W (cm_scanner st).

Lemma At_scans s i : rs_scans s = rs_scans s0 → At s i = At s0 i.
Proof. intros E. unfold At. by rewrite E. Qed.

Lemma elem_of_concat {A} (x : A) (ls : list (list A)) : x ∈ concat ls ↔ ∃ y : list A, y ∈ ls ∧ x ∈ y.
Proof. rewrite list_elem_of_In, in_concat. setoid_rewrite list_elem_of_In. done. Qed.

Lemma elem_committed cores i : i ∈ committed cores ↔ ∃ c x, cores !! c = Some x ∧ i ∈ commits c x.
Proof.
  unfold committed. rewrite elem_of_concat. setoid_rewrite elem_of_lookup_imap. naive_solver.
Qed.

Lemma elem_indexes c i : i ∈ indexes c ↔ ∃ o : nat, i = CompoundIndex (Z.of_nat c) (Z.of_nat o) ∧ o < cache_size c.
Proof. unfold indexes. rewrite list_elem_of_fmap. setoid_rewrite elem_of_seq. naive_solver lia. Qed.

Lemma cache_index_ok c (o : nat) : caches_ok → o < cache_size c → index_ok (Z.of_nat c) (Z.of_nat o) ∧ ∃ cache, rs_scans s0 !! c = Some cache ∧ size_ cache = cache_size c.
Proof.
  intros [H1 H2 _] Ho. unfold cache_size in *. destruct (rs_scans s0 !! c) as [cache|] eqn:E; cbn in Ho; [|lia]. pose proof (lookup_lt_Some _ _ _ E).
  destruct (H2 c cache E). split; [unfold index_ok; lia|by exists cache].
Qed.

Lemma index_fields c (o : nat) : caches_ok → o < cache_size c → let i := CompoundIndex (Z.of_nat c) (Z.of_nat o) in
  Z.to_nat (CoreId i) = c ∧ Z.to_nat (Offset i) = o ∧ Offset i = Z.of_nat o ∧ i ≠ Inf ∧ (0 ≤ i)%Z.
Proof.
  intros Hcs Ho. cbv zeta. destruct (cache_index_ok c o Hcs Ho) as [Hi _]. destruct (CompoundIndex_parts _ _ Hi) as (-> & -> & ?). split_and!; [lia|lia|lia|done|]. rewrite CompoundIndex_arith by done. lia.
Qed.

Lemma indexes_NoDup c : caches_ok → NoDup (indexes c).
Proof.
  intros Hcs. unfold indexes. apply NoDup_fmap_2_strong; [|apply NoDup_seq]. intros o o' Ho%elem_of_seq Ho'%elem_of_seq E.
  pose proof (index_fields c o Hcs ltac:(lia)) as (_ & <- & _). pose proof (index_fields c o' Hcs ltac:(lia)) as (_ & <- & _). by rewrite E.
Qed.

Lemma committed_NoDup cores : caches_ok → NoDup (committed cores).
Proof.
  intros Hcs. unfold committed. enough (∀ k, NoDup (concat (imap (λ c, commits (k + c)) cores)) ∧
    ∀ i, i ∈ concat (imap (λ c, commits (k + c)) cores) → ∃ c, k ≤ c ∧ i ∈ indexes c) as H by apply (H 0).
  induction cores as [|x cores IH]; intros k; [split; [constructor|by intros i ?%not_elem_of_nil]|]. rewrite imap_cons. cbn [concat].
  destruct (IH (S k)) as [I1 I2]. assert (imap ((λ c, commits (k + c)) ∘ S) cores = imap (λ c, commits (S k + c)) cores) as -> by (apply imap_ext; intros; cbn; by rewrite Nat.add_succ_r).
  rewrite Nat.add_0_r. split.
  - apply NoDup_app. split_and!; [destruct x; [by apply indexes_NoDup|constructor]| |done].
    intros i Hi (c & Hc & Hi')%I2. destruct x; [|by apply not_elem_of_nil in Hi]. cbn in Hi. apply elem_indexes in Hi as (o & -> & Ho), Hi' as (o' & E & Ho').
    pose proof (index_fields k o Hcs Ho) as (E1 & _). pose proof (index_fields c o' Hcs Ho') as (E2 & _). rewrite E in E1. lia.
  - intros i [Hi|(c & ? & ?)%I2]%elem_of_app; [|exists c; split; [lia|done]]. destruct x; [by exists k|by apply not_elem_of_nil in Hi].
Qed.

Lemma committed_length cores : length cores = length (rs_scans s0) → length (committed cores) ≤ total_tuples.
Proof.
  intros Hl. unfold committed, total_tuples. enough (∀ k, length (concat (imap (λ c, commits (k + c)) cores)) ≤ sum_list (size_ <$> take (length cores) (drop k (rs_scans s0)))) as H.
  { specialize (H 0). rewrite drop_0, take_ge in H by lia. exact H. }
  clear Hl. induction cores as [|x cores IH]; intros k; [done|]. rewrite imap_cons. cbn [concat length]. rewrite length_app, Nat.add_0_r.
  assert (imap ((λ c, commits (k + c)) ∘ S) cores = imap (λ c, commits (S k + c)) cores) as -> by (apply imap_ext; intros; cbn; by rewrite Nat.add_succ_r).
  specialize (IH (S k)). assert (length (commits k x) ≤ cache_size k) as Hk.
  { destruct x; cbn; [|lia]. unfold indexes. by rewrite length_fmap, length_seq. }
  unfold cache_size in Hk. destruct (rs_scans s0 !! k) as [cache|] eqn:E.
  - rewrite (drop_S _ _ _ E). cbn in *. lia.
  - apply lookup_ge_None in E. cbn in Hk. rewrite drop_ge in IH |- * by lia. rewrite take_nil in *. cbn in *. lia.
Qed.

(** Every index that a core has linked has a tuple and a cell. *)
Lemma committed_cell st parts hl i : caches_ok → commit_inv st parts hl → i ∈ committed (cm_cores st) → cell_ok (cm_scanner st) i.
Proof.
  intros Hcs [_ _ _ Hsc _ _ _ Hrows _] (c & x & Hx & Hi)%elem_committed. destruct x as [ms|]; [|by apply not_elem_of_nil in Hi].
  cbn in Hi. apply elem_indexes in Hi as (o & -> & Ho). destruct (index_fields c o Hcs Ho) as (F1 & F2 & F3 & F4 & F5).
  destruct (cache_index_ok c o Hcs Ho) as (_ & cache & Hc & Hsz). split; [done|done| |].
  - unfold At. rewrite Hsc, F1, Hc. cbn [mbind option_bind]. rewrite F3, decide_True by lia. unfold cache_At. rewrite Nat2Z.id. apply lookup_lt_is_Some. destruct (cs_size Hcs c cache Hc). lia.
  - unfold AdvanceMergeIndex. rewrite F1, F2. destruct (Hrows c _ Hx) as (row & -> & Hlen). cbn. apply lookup_lt_is_Some. rewrite Hlen. cbn. unfold indexes. rewrite length_fmap, length_seq. done.
Qed.

(** The part of core [c], and the others. *)
Lemma parts_split st parts hl c x : commit_inv st parts hl → cm_cores st !! c = Some x →
  ∃ C1 C2 P1 q P2, cm_cores st = C1 ++ x :: C2 ∧ parts = P1 ++ q :: P2 ∧ length C1 = c ∧
    Forall2 (λ x q, owns (cm_scanner st) x q.1 q.2) C1 P1 ∧ owns (cm_scanner st) x q.1 q.2 ∧ Forall2 (λ x q, owns (cm_scanner st) x q.1 q.2) C2 P2.
Proof.
  intros [Ho _ _ _ _ _ _ _ _] (C1 & C2 & E & Hl)%list_elem_of_split_length. rewrite E in Ho. apply Forall2_app_inv_l in Ho as (P1 & P2' & H1 & H2 & ->).
  apply Forall2_cons_inv_l in H2 as (q & P2 & Hq & H2 & ->). by exists C1, C2, P1, q, P2.
Qed.

Lemma committed_middle C1 C2 (x y : option MergeState) : committed (C1 ++ x :: C2) ++ commits (length C1) y ≡ₚ committed (C1 ++ y :: C2) ++ commits (length C1) x.
Proof.
  unfold committed. rewrite !imap_app, !imap_cons, !concat_app. cbn [concat]. rewrite Nat.add_0_r, <- !app_assoc. f_equiv.
  rewrite (Permutation_app_comm (commits _ x)), <- app_assoc. apply Permutation_app_swap_app.
Qed.

(** Core [c] goes on to [y], which owns [l'], and the others keep what they have. *)
Lemma inv_replace st parts hl C1 C2 P1 q P2 x y s' l' w' hl' : commit_inv st parts hl → cm_cores st = C1 ++ x :: C2 → parts = P1 ++ q :: P2 →
  Forall2 (λ x q, owns (cm_scanner st) x q.1 q.2) C1 P1 → Forall2 (λ x q, owns (cm_scanner st) x q.1 q.2) C2 P2 →
  owns s' y l' w' → head_ok direct s' hl' → At s' = At (cm_scanner st) → rs_scans s' = rs_scans (cm_scanner st) →
  is_require_sort_ s' = is_require_sort_ (cm_scanner st) → rs_status_ s' = rs_status_ (cm_scanner st) →
  (∀ i, i ∈ concat (P1 ++ P2).*1 → nx s' i = nx (cm_scanner st) i) → (l' ++ hl') ++ commits (length C1) x ≡ₚ (q.1 ++ hl) ++ commits (length C1) y →
  (∀ c z, (C1 ++ y :: C2) !! c = Some z → ∃ row, index_chain_ s' !! c = Some row ∧ length row = length (commits c z)) →
  (l' ++ hl' = [] → head_index_ s' = head_index_ (cm_scanner st)) → commits (length C1) x ⊆ commits (length C1) y → commit_inv (mkCommitting s' (C1 ++ y :: C2)) (P1 ++ (l', w') :: P2) hl'.
Proof.
  intros [H1 H2 H3 H4 H5 H6 H7 H8 H9] EC EP F1 F2 Ho Hh EAt Esc Eso Est Hfr Hperm Hrows Hinf Hsub. subst parts. rewrite EC in *.
  assert (∀ C P, P ⊆ P1 ++ P2 → Forall2 (λ x q, owns (cm_scanner st) x q.1 q.2) C P → Forall2 (λ x q, owns s' x q.1 q.2) C P) as Hext.
  { intros C P HP HF. induction HF as [|z r C P Hz HF IH]; constructor; [|apply IH; set_solver]. rewrite EAt. eapply owns_ext; [|exact Hz].
    intros i Hi. symmetry. apply Hfr. apply elem_of_concat. exists r.1. split; [|done]. apply list_elem_of_fmap. exists r. split; [done|apply HP; by left]. }
  assert (hl' ++ concat (P1 ++ (l', w') :: P2).*1 ≡ₚ committed (C1 ++ y :: C2)) as Hall.
  { apply (Permutation_app_inv_r (commits (length C1) x)). rewrite <- committed_middle. rewrite <- H3. rewrite !fmap_app, !fmap_cons, !concat_app. cbn [concat fst].
    transitivity (((l' ++ hl') ++ commits (length C1) x) ++ concat P1.*1 ++ concat P2.*1); [|rewrite Hperm]; solve_Permutation. }
  split; cbn [cm_scanner cm_cores]; try congruence.
  - apply Forall2_app; [apply Hext; [set_solver|done]|]. constructor; [done|]. apply Hext; [set_solver|done].
  - rewrite <- H7, !length_app. done.
  - done.
  - intros En. assert (∀ i, i ∉ committed (C1 ++ y :: C2)) as Hno by (rewrite En; intros i; apply not_elem_of_nil). rewrite Hinf.
    + apply H9, elem_of_nil_inv. intros i Hix. apply (Hno i). pose proof (committed_middle C1 C2 x y) as Hm.
      assert (i ∈ committed (C1 ++ y :: C2) ++ commits (length C1) x) as [?|Hx]%elem_of_app by (rewrite <- Hm; apply elem_of_app; by left); [done|].
      apply elem_committed. exists (length C1), y. split; [by rewrite lookup_app_r, Nat.sub_diag|by apply Hsub].
    + apply elem_of_nil_inv. intros i Hix. apply (Hno i). rewrite <- Hall, fmap_app, fmap_cons, concat_app. cbn. set_solver.
Qed.

(** The indexes of one part and of the head are linked, and nobody else has them. *)
Lemma part_facts st hl P1 (q : list Z * nat) P2 : caches_ok → commit_inv st (P1 ++ q :: P2) hl →
  (∀ i, i ∈ q.1 ++ hl → cell_ok (cm_scanner st) i) ∧ NoDup (q.1 ++ hl) ∧ length q.1 + 3 ≤ W ∧
  ∀ i, i ∈ concat (P1 ++ P2).*1 → i ∉ q.1 ∧ cell_ok (cm_scanner st) i.
Proof.
  intros Hcs Hi. assert ((q.1 ++ hl) ++ concat (P1 ++ P2).*1 ≡ₚ committed (cm_cores st)) as Hp.
  { rewrite <- (ci_all _ _ _ Hi), !fmap_app, !fmap_cons, !concat_app. cbn [concat]. solve_Permutation. }
  pose proof (committed_NoDup (cm_cores st) Hcs) as Hnd. rewrite <- Hp in Hnd. apply NoDup_app in Hnd as (Hnd & Hdis & _).
  pose proof (committed_length (cm_cores st) (ci_length _ _ _ Hi)) as Hlen. rewrite <- Hp, !length_app in Hlen.
  assert (∀ i, i ∈ (q.1 ++ hl) ++ concat (P1 ++ P2).*1 → cell_ok (cm_scanner st) i) as Hc by (intros i Hx; rewrite Hp in Hx; by eapply committed_cell).
  split_and!; [intros i Hx; apply Hc; set_solver|done|unfold W; lia|]. intros i Hx. split; [|apply Hc; set_solver]. intros Hq. apply (Hdis i); [set_solver|done].
Qed.

Lemma measure_replace st s' P1 (q : list Z * nat) P2 l' w' cores : w' + head_weight W s' < q.2 + head_weight W (cm_scanner st) →
  measure (mkCommitting s' cores) (P1 ++ (l', w') :: P2) < measure st (P1 ++ q :: P2).
Proof. intros Hw. unfold measure. rewrite !fmap_app, !fmap_cons, !sum_list_with_app. cbn. lia. Qed.

Lemma rows_replace st parts hl C1 C2 x y s' : commit_inv st parts hl → cm_cores st = C1 ++ x :: C2 →
  (∀ c, c ≠ length C1 → length <$> index_chain_ s' !! c = length <$> index_chain_ (cm_scanner st) !! c) →
  (∃ row, index_chain_ s' !! length C1 = Some row ∧ length row = length (commits (length C1) y)) →
  ∀ c z, (C1 ++ y :: C2) !! c = Some z → ∃ row, index_chain_ s' !! c = Some row ∧ length row = length (commits c z).
Proof.
  intros Hi EC Hne Hy c z Hz. destruct (decide (c = length C1)) as [->|Hc]; [rewrite lookup_app_r, Nat.sub_diag in Hz by done; by injection Hz as <-|].
  assert (cm_cores st !! c = Some z) as Hz'.
  { rewrite EC. apply lookup_app_Some in Hz as [Hz|[Hge Hz]]; [by rewrite lookup_app_l by (by eapply lookup_lt_Some)|]. rewrite lookup_app_r by done. destruct (c - length C1) eqn:E; [lia|done]. }
  destruct (ci_rows _ _ _ Hi c z Hz') as (row & Er & Hl). specialize (Hne c Hc). rewrite Er in Hne. destruct (index_chain_ s' !! c) as [row'|]; [|done].
  injection Hne as Hne. exists row'. by rewrite Hne.
Qed.

Lemma merging_core_ok st parts hl c ms : caches_ok → commit_inv st parts hl → cm_cores st !! c = Some (Some ms) → ms ≠ Merged →
  ∃ st' parts' hl', core_step direct st c = Some st' ∧ commit_inv st' parts' hl' ∧ measure st' parts' < measure st parts.
Proof.
  intros Hcs Hi Hx Hms. destruct (parts_split st parts hl c _ Hi Hx) as (C1 & C2 & P1 & q & P2 & EC & -> & Hl & F1 & Hq & F2).
  destruct (part_facts st hl P1 q P2 Hcs Hi) as (Hcell & Hnd & HW & Hothers).
  destruct (merge_step_ok direct W (cm_scanner st) ms q.1 q.2 hl Hq Hms (ci_head _ _ _ Hi) Hcell Hnd HW) as (s' & ms' & l' & w' & hl' & E & [D1 D2 D3 D4 D5 D6]).
  destruct D6 as (s1 & (chains & -> & Hrow) & occ & h & ->). unfold core_step. rewrite Hx. cbn [mbind option_bind]. rewrite E. cbn [mbind option_bind].
  eexists _, (P1 ++ (l', w') :: P2), hl'. split; [done|]. rewrite EC, <- Hl, insert_app_r_alt, Nat.sub_diag by lia. cbn [insert list_insert]. split; [|by apply measure_replace].
  apply (inv_replace st (P1 ++ q :: P2) hl C1 C2 P1 q P2 (Some ms) (Some ms')); try done.
  - intros i Hin. destruct (Hothers i Hin) as [? Hc]. apply D5; [done|apply Hc].
  - by rewrite D3.
  - assert (∀ c, length <$> index_chain_ (set_head (set_chains (cm_scanner st) chains) occ h) !! c = length <$> index_chain_ (cm_scanner st) !! c) as Hrow' by exact Hrow.
    eapply rows_replace; [done..|]. specialize (Hrow' (length C1)). rewrite Hl in *. destruct (ci_rows _ _ _ Hi c _ Hx) as (row & Er & Hlen). rewrite Er in Hrow'.
    destruct (index_chain_ _ !! c) as [row'|]; [|done]. injection Hrow' as Hrow'. exists row'. split; [done|]. by rewrite Hrow', Hlen.
  - intros En. rewrite En in D3. symmetry in D3. apply Permutation_nil_r, app_eq_nil in D3 as [Eq _]. by apply (owns_nonempty _ _ _ _ _ _ _ Hq) in Hms.
Qed.

Lemma first_chain_lookup (c : Z) (n o : nat) : o < n → first_chain c n !! o = Some (if decide (S o < n) then CompoundIndex c (Z.of_nat o + 1) else Inf).
Proof.
  intros Ho. unfold first_chain. case_decide.
  - rewrite lookup_app_l by (rewrite length_fmap, length_seq; lia). rewrite list_lookup_fmap, lookup_seq_lt by lia. done.
  - rewrite lookup_app_r by (rewrite length_fmap, length_seq; lia). rewrite length_fmap, length_seq. by replace (o - (n - 1)) with 0 by lia.
Qed.
Lemma length_first_chain (c : Z) (n : nat) : 0 < n → length (first_chain c n) = n.
Proof. intros Hn. unfold first_chain. rewrite length_app, length_fmap, length_seq. cbn. lia. Qed.

Lemma first_path s c : caches_ok → 0 < cache_size c → index_chain_ s !! c = Some (first_chain (Z.of_nat c) (cache_size c)) →
  path (nx s) (CompoundIndex (Z.of_nat c) 0) (indexes c) Inf.
Proof.
  intros Hcs Hn Hrow. assert (∀ k o, o + k = cache_size c → 0 < k →
    path (nx s) (CompoundIndex (Z.of_nat c) (Z.of_nat o)) ((λ o, CompoundIndex (Z.of_nat c) (Z.of_nat o)) <$> seq o k) Inf) as H.
  { induction k as [|k IH]; intros o Ho Hk; [lia|]. cbn [seq fmap list_fmap]. destruct (index_fields c o Hcs ltac:(lia)) as (F1 & F2 & _ & F4 & _).
    assert (nx s (CompoundIndex (Z.of_nat c) (Z.of_nat o)) = first_chain (Z.of_nat c) (cache_size c) !! o) as En by (unfold AdvanceMergeIndex; by rewrite F1, F2, Hrow).
    rewrite first_chain_lookup in En by lia. econstructor; [done|exact En|]. case_decide as E.
    - replace (Z.of_nat o + 1)%Z with (Z.of_nat (S o)) by lia. apply IH; lia.
    - assert (k = 0) as -> by lia. constructor. }
  apply (H (cache_size c) 0); lia.
Qed.

Lemma first_sorted s c : caches_ok → rs_scans s = rs_scans s0 → sorted_at direct (At s) (indexes c).
Proof.
  intros Hcs Hsc. unfold indexes, cache_size. destruct (rs_scans s0 !! c) as [cache|] eqn:Ec; [cbn|constructor].
  pose proof (cs_sorted Hcs c cache Ec) as Hs. destruct (cs_size Hcs c cache Ec) as [Hsz _].
  assert (∀ (o : nat) t, take (size_ cache) (cache_ cache) !! o = Some t → At s (CompoundIndex (Z.of_nat c) (Z.of_nat o)) = Some t) as HAt.
  { intros o t Ht. pose proof (lookup_lt_Some _ _ _ Ht) as Ho. rewrite length_take in Ho. assert (o < cache_size c) as Ho' by (unfold cache_size; rewrite Ec; cbn; lia).
    destruct (index_fields c o Hcs Ho') as (F1 & F2 & F3 & _). unfold At. rewrite F1, Hsc, Ec. cbn [mbind option_bind]. rewrite F3, decide_True by lia. unfold cache_At.
    rewrite Nat2Z.id. by apply lookup_take_Some in Ht as [? _]. }
  assert (length (take (size_ cache) (cache_ cache)) = size_ cache) as Hlen by (rewrite length_take; lia). rewrite <- Hlen. clear Hsz Ec Hlen. revert HAt Hs.
  generalize (take (size_ cache) (cache_ cache)). intros ts HAt Hs. assert (∀ k : nat, (∀ (o : nat) t, ts !! o = Some t → At s (CompoundIndex (Z.of_nat c) (Z.of_nat (k + o))) = Some t) →
    sorted_at direct (At s) ((λ o : nat, CompoundIndex (Z.of_nat c) (Z.of_nat o)) <$> seq k (length ts))) as H; [|by apply (H 0)].
  clear HAt. induction Hs as [|t ts Hs IH Hall]; intros k HAt; [constructor|]. cbn [length seq fmap list_fmap]. constructor.
  - apply IH. intros o t' Ht'. specialize (HAt (S o) t' Ht'). by rewrite Nat.add_succ_r in HAt.
  - apply Forall_forall. intros i (o & -> & Ho)%list_elem_of_fmap. apply elem_of_seq in Ho. destruct (lookup_lt_is_Some_2 ts (o - S k)) as [t' Ht']; [lia|].
    exists t, t'. split_and!; [specialize (HAt 0 t eq_refl); by rewrite Nat.add_0_r in HAt| |].
    + specialize (HAt (S (o - S k)) t' Ht'). by replace (k + S (o - S k)) with o in HAt by lia.
    + rewrite Forall_forall in Hall. apply Hall. by eapply list_elem_of_lookup_2.
Qed.

(** The frame of a core that links its chain. *)
Lemma first_frame st parts hl c row : caches_ok → commit_inv st parts hl → cm_cores st !! c = Some None →
  let s' := set_chains (cm_scanner st) (<[c := row]> (index_chain_ (cm_scanner st))) in
  (∀ i, i ∈ hl ++ concat parts.*1 → nx s' i = nx (cm_scanner st) i) ∧ head_ok direct s' hl.
Proof.
  intros Hcs Hi Hx s'. assert (∀ i, i ∈ hl ++ concat parts.*1 → nx s' i = nx (cm_scanner st) i) as Hframe.
  { intros i Hin. rewrite (ci_all _ _ _ Hi) in Hin. apply elem_committed in Hin as (c' & z & Hz & Hiz).
    destruct z as [ms|]; [|by apply not_elem_of_nil in Hiz]. apply elem_indexes in Hiz as (o & -> & Ho). destruct (index_fields c' o Hcs Ho) as (G1 & G2 & _).
    unfold AdvanceMergeIndex. rewrite G1, G2. cbn. rewrite list_lookup_insert_ne; [done|]. intros <-. congruence. }
  split; [done|]. pose proof (ci_head _ _ _ Hi) as Hh. unfold head_ok in *. cbn [head_occupied_ s' set_chains head_index_] in *. destruct (head_occupied_ (cm_scanner st)); [|done].
  destruct Hh as (H1 & H2 & H3). split_and!; [done| |done]. eapply path_ext; [|exact H2]. intros i Hin. symmetry. apply Hframe, elem_of_app. by left.
Qed.

Lemma starting_core_ok st parts hl c : caches_ok → commit_inv st parts hl → cm_cores st !! c = Some None →
  ∃ st' parts' hl', core_step direct st c = Some st' ∧ commit_inv st' parts' hl' ∧ measure st' parts' < measure st parts.
Proof.
  intros Hcs Hi Hx. destruct (parts_split st parts hl c _ Hi Hx) as (C1 & C2 & P1 & [ql qw] & P2 & EC & -> & <- & F1 & Hq & F2). cbn in Hq. inversion Hq; subst ql qw.
  pose proof (lookup_lt_Some _ _ _ Hx) as Hlt. rewrite (ci_length _ _ _ Hi) in Hlt. destruct (lookup_lt_is_Some_2 _ _ Hlt) as [cache Hc].
  destruct (ci_rows _ _ _ Hi _ _ Hx) as (row & Er & Hrow). cbn in Hrow. apply nil_length_inv in Hrow as ->.
  assert (cache_size (length C1) = size_ cache) as Esz by (unfold cache_size; by rewrite Hc).
  unfold core_step. rewrite Hx. cbn [mbind option_bind]. unfold CommitAtCore. rewrite (ci_scans _ _ _ Hi), Hc. cbn [mbind option_bind]. case_decide as Hsz.
  - rewrite Er. cbn [mbind option_bind]. rewrite decide_True by done. cbn [mbind option_bind]. rewrite (ci_sort _ _ _ Hi), <- Esz.
    destruct (first_frame st _ hl (length C1) (first_chain (Z.of_nat (length C1)) (cache_size (length C1))) Hcs Hi Hx) as [Hframe Hhead].
    set (s' := set_chains (cm_scanner st) _) in *.
    eexists _, (P1 ++ (indexes (length C1), W + 1) :: P2), hl. split; [done|]. rewrite EC, insert_app_r_alt, Nat.sub_diag by lia. cbn [insert list_insert].
    assert (index_chain_ s' !! length C1 = Some (first_chain (Z.of_nat (length C1)) (cache_size (length C1)))) as Hrow'
      by (cbn; by rewrite list_lookup_insert_eq by (by eapply lookup_lt_Some)).
    split; [|apply measure_replace; unfold W, head_weight; cbn; lia].
    eapply (inv_replace st _ hl C1 C2 P1 _ P2 None (Some (MergeHead (CompoundIndex (Z.of_nat (length C1)) 0)))); try done.
    + apply owns_head; [unfold indexes; rewrite Esz; by destruct (size_ cache); [lia|]|apply first_path; [done|lia|done]|apply first_sorted; [done|apply (ci_scans _ _ _ Hi)]].
    + intros i Hin. apply Hframe. rewrite fmap_app, concat_app in Hin. rewrite fmap_app, fmap_cons, concat_app. cbn. set_solver.
    + cbn. rewrite app_nil_r. solve_Permutation.
    + eapply rows_replace; [done|done| |].
      * intros c Hne. cbn. by rewrite list_lookup_insert_ne.
      * eexists. split; [exact Hrow'|]. cbn. unfold indexes. by rewrite length_first_chain, length_fmap, length_seq by lia.
    + cbn. by intros i ?%not_elem_of_nil.
  - cbn [mbind option_bind]. eexists _, (P1 ++ ([], 0) :: P2), hl. split; [done|]. rewrite EC, insert_app_r_alt, Nat.sub_diag by lia. cbn [insert list_insert].
    assert (indexes (length C1) = []) as Ei by (unfold indexes; rewrite Esz; by replace (size_ cache) with 0 by lia).
    split; [|apply measure_replace; unfold W; cbn; lia].
    eapply (inv_replace st _ hl C1 C2 P1 _ P2 None (Some Merged)); try done; [constructor|apply (ci_head _ _ _ Hi)|by cbn; rewrite Ei| |cbn; by intros i ?%not_elem_of_nil].
    eapply rows_replace; [done..|]. exists []. cbn. by rewrite Er, Ei.
Qed.

(** The cores start with empty chains. *)
Record fresh : Prop := {
  fr_chains : index_chain_ s0 = replicate (length (rs_scans s0)) [];
  fr_head : head_occupied_ s0 = false ∧ head_index_ s0 = Inf;
  fr_sort : is_require_sort_ s0 = true;
  fr_status : rs_status_ s0 = ScannerOpen;
}.
Definition commit_start : Committing K V := mkCommitting s0 (replicate (length (rs_scans s0)) None).

Lemma start_inv : fresh → commit_inv commit_start (replicate (length (rs_scans s0)) ([], 2 * W)) [].
Proof.
  intros [H1 [H2 H3] H4 H5]. assert (∀ n k, concat (imap (λ c, commits (k + c)) (replicate n None)) = []) as Hn.
  { induction n as [|n IH]; intros k; [done|]. cbn [replicate]. rewrite imap_cons. cbn [concat commits app]. rewrite <- (IH (S k)). f_equal. apply imap_ext. intros. cbn. by rewrite Nat.add_succ_r. }
  split; cbn; try done.
  - apply Forall2_replicate. constructor.
  - unfold head_ok. by rewrite H2.
  - rewrite fmap_replicate. cbn. unfold committed. rewrite (Hn _ 0). clear. by induction (length (rs_scans s0)).
  - by rewrite length_replicate.
  - intros c x [-> Hc]%lookup_replicate. exists []. split; [|done]. rewrite H1. by apply lookup_replicate.
Qed.

Lemma run_inv n st : caches_ok → fresh → nsteps (commit_step direct) n commit_start st →
  ∃ parts hl, commit_inv st parts hl ∧ n + measure st parts ≤ 2 * W * length (rs_scans s0).
Proof.
  intros Hcs Hfr. assert (∀ st1 parts hl, commit_inv st1 parts hl → nsteps (commit_step direct) n st1 st →
    ∃ parts' hl', commit_inv st parts' hl' ∧ n + measure st parts' ≤ measure st1 parts) as H.
  { induction n as [|n IH]; intros st1 parts hl Hi Hrun; [inversion Hrun; subst; by exists parts, hl|].
    inversion Hrun as [|? ? st2 ? [c Hc] Hrun']; subst.
    assert (∃ x, cm_cores st1 !! c = Some x ∧ x ≠ Some Merged) as (x & Hx & Hm).
    { unfold core_step in Hc. destruct (cm_cores st1 !! c) as [x|]; [|done]. exists x. split; [done|]. by intros ->. }
    assert (∃ st' parts' hl', core_step direct st1 c = Some st' ∧ commit_inv st' parts' hl' ∧ measure st' parts' < measure st1 parts) as (st' & parts' & hl' & E & Hi' & Hlt).
    { destruct x as [ms|]; [eapply merging_core_ok; try done; congruence|by eapply starting_core_ok]. }
    rewrite Hc in E. injection E as <-. destruct (IH st2 parts' hl' Hi' Hrun') as (parts2 & hl2 & Hi2 & Hle). exists parts2, hl2. split; [done|lia]. }
  intros Hrun. destruct (H _ _ _ (start_inv Hfr) Hrun) as (parts & hl & Hi & Hle). exists parts, hl. split; [done|]. etrans; [exact Hle|].
  unfold measure, head_weight. cbn. destruct (fr_head Hfr) as [-> _]. rewrite fmap_replicate. cbn. clear. induction (length (rs_scans s0)) as [|n IH]; cbn in *; lia.
Qed.

(** The client reads the chain of the head. *)
Lemma read_scan_path fuel : ∀ s l, path (nx s) (head_index_ s) l Inf → (∀ i, i ∈ l → is_Some (At s i)) → (l ≠ [] → rs_status_ s = ScannerOpen) →
  length l < fuel → read_scan fuel s = Some (omap (At s) l).
Proof.
  induction fuel as [|fuel IH]; intros s l Hp Hat Hst Hf; [lia|]. cbn [read_scan]. unfold rs_Current. case_decide as Eh.
  - rewrite Eh in Hp. by apply path_Inf in Hp as ->.
  - destruct (path_nonempty _ _ _ Hp Eh) as (i' & l' & -> & En & Hp'). rewrite decide_True by (by apply Hst). destruct (Hat (head_index_ s)) as [t Ht]; [by left|].
    rewrite Ht. cbn [mbind option_bind]. unfold rs_MoveNext. rewrite decide_False, En by done. cbn [mbind option_bind].
    assert (omap (At s) (head_index_ s :: l') = t :: omap (At s) l') as -> by (cbn; by rewrite Ht).
    destruct (decide (i' = Inf)) as [->|Hi'].
    + apply path_Inf in Hp' as ->. destruct fuel; [cbn in Hf; lia|]. done.
    + rewrite (IH (set_head s (head_occupied_ s) i') l'); [done|exact Hp'| |intros _; by apply Hst|cbn in Hf; lia]. intros j Hj. apply Hat. by right.
Qed.

Lemma omap_sorted s l : sorted_at direct (At s) l → StronglySorted (λ a b, ¬ before direct (key_obj_ b) (key_obj_ a)) (omap (At s) l).
Proof.
  induction 1 as [|i l Hs IH Hall]; [constructor|]. cbn. destruct (At s i) as [t|] eqn:E; [|done]. constructor; [done|]. apply Forall_forall. rewrite Forall_forall in Hall.
  intros t' (j & Hj & Ej)%list_elem_of_omap. destruct (Hall j Hj) as (a & b & E1 & E2 & Hle). congruence.
Qed.

(** The tuples of all cores. *)
Definition all_tuples : list (ScanTuple K V) := concat ((λ cache, take (size_ cache) (cache_ cache)) <$> rs_scans s0).

Lemma omap_indexes c cache : caches_ok → rs_scans s0 !! c = Some cache → omap (At s0) (indexes c) = take (size_ cache) (cache_ cache).
Proof.
  intros Hcs Hc. destruct (cs_size Hcs c cache Hc) as [Hsz _]. unfold indexes. assert (cache_size c = size_ cache) as Esz by (unfold cache_size; by rewrite Hc).
  assert (∀ n k, k + n = size_ cache → omap (At s0) ((λ o, CompoundIndex (Z.of_nat c) (Z.of_nat o)) <$> seq k n) = take n (drop k (cache_ cache))) as H.
  { induction n as [|n IH]; intros k Hk; [done|]. cbn [seq fmap list_fmap omap list_omap]. destruct (index_fields c k Hcs ltac:(lia)) as (F1 & _ & F3 & _).
    assert (At s0 (CompoundIndex (Z.of_nat c) (Z.of_nat k)) = cache_ cache !! k) as ->.
    { unfold At. rewrite F1, Hc. cbn [mbind option_bind]. rewrite F3, decide_True by lia. unfold cache_At. by rewrite Nat2Z.id. }
    destruct (lookup_lt_is_Some_2 (cache_ cache) k) as [t Ht]; [lia|]. rewrite Ht, (drop_S _ _ _ Ht). cbn. f_equal. apply IH. lia. }
  rewrite Esz, (H (size_ cache) 0), drop_0 by lia. done.
Qed.

Lemma omap_committed cores : caches_ok → length cores = length (rs_scans s0) → Forall (λ x, x = Some Merged) cores → omap (At s0) (committed cores) = all_tuples.
Proof.
  intros Hcs Hl Hall. unfold committed, all_tuples. enough (∀ k, omap (At s0) (concat (imap (λ c, commits (k + c)) cores)) =
    concat ((λ cache, take (size_ cache) (cache_ cache)) <$> take (length cores) (drop k (rs_scans s0)))) as H by (specialize (H 0); by rewrite drop_0, take_ge in H by lia).
  clear Hl. induction Hall as [|x cores -> Hall IH]; intros k; [done|]. rewrite imap_cons. cbn [concat]. rewrite omap_app, Nat.add_0_r.
  assert (imap ((λ c, commits (k + c)) ∘ S) cores = imap (λ c, commits (S k + c)) cores) as -> by (apply imap_ext; intros; cbn; by rewrite Nat.add_succ_r).
  rewrite IH. cbn [commits length]. destruct (rs_scans s0 !! k) as [cache|] eqn:E.
  - rewrite (drop_S _ _ _ E). cbn [take fmap list_fmap concat]. by rewrite (omap_indexes k cache Hcs E).
  - unfold indexes, cache_size. rewrite E. apply lookup_ge_None in E. rewrite !drop_ge by lia. by rewrite take_nil.
Qed.
End run.

(** C8: Parallel merging is correct.  However the cores of a node interleave when they commit their
    caches to the scanner of a slice, they come to an end after a bounded number of steps,
    none of them is ever stuck, and no assertion fails; and when all have committed, the client
    reads every tuple of every core exactly once and in the order of the scan. *)
Theorem parallel_commit_sorted {K V : Type} `{!KeyOrder K} direct (s0 : RangeScanner K V) n st : caches_ok direct s0 → fresh s0 →
  nsteps (commit_step direct) n (commit_start s0) st →
  n ≤ 2 * (total_tuples s0 + 3) * length (rs_scans s0) ∧
  (∀ c x, cm_cores st !! c = Some x → x ≠ Some Merged → is_Some (core_step direct st c)) ∧
  (all_committed st → ∃ ts, read_scan (S (total_tuples s0)) (cm_scanner st) = Some ts ∧ ts ≡ₚ all_tuples s0 ∧
     StronglySorted (λ a b, ¬ before direct (key_obj_ b) (key_obj_ a)) ts).
Proof.
  intros Hcs Hfr Hrun. destruct (run_inv direct s0 n st Hcs Hfr Hrun) as (parts & hl & Hi & Hle). split_and!; [unfold W in Hle; lia| |].
  - intros c x Hx Hm. destruct x as [ms|].
    + destruct (merging_core_ok direct s0 st parts hl c ms Hcs Hi Hx) as (st' & _ & _ & -> & _); [congruence|done].
    + by destruct (starting_core_ok direct s0 st parts hl c Hcs Hi Hx) as (st' & _ & _ & -> & _).
  - intros Hall. assert (hl ≡ₚ committed s0 (cm_cores st)) as Hp.
    { rewrite <- (ci_all _ _ _ _ _ Hi). assert (concat parts.*1 = []) as ->; [|by rewrite app_nil_r]. pose proof (ci_owns _ _ _ _ _ Hi) as Ho.
      unfold all_committed in Hall. clear -Ho Hall. induction Ho as [|x q C P Hq _ IH]; [done|]. apply Forall_cons in Hall as [-> Hall]. cbn. rewrite IH by done. by inversion Hq. }
    assert (∀ i, At (cm_scanner st) i = At s0 i) as HAt by (intros i; apply At_scans, (ci_scans _ _ _ _ _ Hi)).
    assert (path (AdvanceMergeIndex (cm_scanner st)) (head_index_ (cm_scanner st)) hl Inf ∧ sorted_at direct (At (cm_scanner st)) hl) as [Hpath Hs].
    { pose proof (ci_head _ _ _ _ _ Hi) as Hh. unfold head_ok in Hh. destruct (head_occupied_ (cm_scanner st)); [tauto|]. subst hl. apply Permutation_nil_l in Hp.
      rewrite (ci_Inf _ _ _ _ _ Hi) by done. split; constructor. }
    exists (omap (At (cm_scanner st)) hl). split_and!; [|rewrite Hp|by apply omap_sorted].
    + apply read_scan_path; [done| |intros _; apply (ci_status _ _ _ _ _ Hi)|].
      * intros i Hin. rewrite Hp in Hin. apply (committed_cell direct s0 st parts hl i Hcs Hi Hin).
      * rewrite Hp. pose proof (committed_length s0 (cm_cores st) (ci_length _ _ _ _ _ Hi)). lia.
    + rewrite <- (omap_committed direct s0 (cm_cores st) Hcs (ci_length _ _ _ _ _ Hi) Hall). apply reflexive_eq, list_omap_ext, Forall_Forall2_diag, Forall_true. exact HAt.
Qed.
