(* ===== verification/ScanDemo.v ===== *)
(** * A scan in numbers

    A table on two cores, a transaction with one write, and the scan it sees; and two
    examples of scans in which the source does not do what it is meant to. *)

From stdpp Require Import sorting.
From S2P Require Import Prelude CcProtocol TableName ReadWriteSet CcPages PagesInsert ScanCache ScanNext RangeScanner.

#[export] Instance Z_key_countable : @Countable Z key_eq_dec := Z_countable.

Definition demo_table : TableName := sample_table.
Definition demo_flags : ScanFlags := mkScanFlags false false RepeatableRead Locking.
Definition no_command (a : CcEntryAddr) : bool := false.
Definition demo_tuple (status : RecordStatus) (k : Z) : ScanTuple Z Z := mkScanTuple 5 0 status 0 (mkAddr (100 + k) 0 0 1) k (Some (k * 10)%Z).
Definition demo_dflt : ScanTuple Z Z := mkScanTuple 0 0 Normal 0 CcEntryAddr_new 0%Z None.

(** Keys 1 and 3 on one core, 2 on the other; the transaction writes 2 and 4. *)
Definition demo_rows : gmap Z (list (ScanTuple Z Z)) := {[ 0%Z := [demo_tuple Normal 1; demo_tuple Normal 3]; 1%Z := [demo_tuple Normal 2] ]}.
Definition demo_rw : ReadWriteSet Z Z :=
  mkRwSet ∅ ∅ {[ demo_table := (1%Z, {[ 2%Z := mkWriteEntry (Some 7%Z) OpUpdate CcEntryAddr_new 0 ∅; 4%Z := mkWriteEntry (Some 8%Z) OpInsert CcEntryAddr_new 0 ∅ ]}) ]} 2 0 0 0 ∅.

Lemma demo_source : scan_source Forward demo_rows [demo_tuple Normal 1; demo_tuple Normal 2; demo_tuple Normal 3].
Proof.
  split.
  - intros sh l. unfold demo_rows. rewrite lookup_insert_Some, lookup_singleton_Some. intros [[_ <-]|[_ [_ <-]]]; unfold in_order; vm_compute filter; repeat constructor.
  - intros sh l i t. unfold demo_rows. rewrite lookup_insert_Some, lookup_singleton_Some.
    intros [[_ <-]|[_ [_ <-]]] Hi Hk; exfalso; apply Hk; destruct i as [|[|]]; by simplify_eq/=.
  - vm_compute. first [apply perm_skip; apply perm_swap | apply perm_swap].
  - repeat constructor.
  - repeat constructor.
Qed.

Lemma demo_scan : from_option (λ o, match o with ScanBatchDone _ _ _ out => (λ x, (sb_key x, sb_record x)) <$> out | _ => [] end) []
  (scan_all demo_flags demo_table no_command demo_dflt 6 400 (opened demo_dflt Forward ScanPrimary demo_rows)
    (scan_open_writes demo_rw demo_table Forward NegativeInfinity true) demo_rw (rest_of demo_rows) []) = [(1, Some 10); (2, Some 7); (3, Some 30); (4, Some 8)]%Z.
Proof. vm_compute. reflexivity. Qed.


(** Rows of a snapshot whose version is not in memory are left out of the batch.  When a
    whole batch of a core is left out, the batch is empty, and all writes of the transaction are
    returned although the scan is not at its end: the write of key 300 comes before row 200. *)
Definition unknown_rows : gmap Z (list (ScanTuple Z Z)) :=
  {[ 0%Z := (demo_tuple VersionUnknown <$> (Z.of_nat <$> seq 1 128)) ++ [demo_tuple Normal 200] ]}.
Definition late_write : ReadWriteSet Z Z :=
  mkRwSet ∅ ∅ {[ demo_table := (1%Z, {[ 300%Z := mkWriteEntry (Some 7%Z) OpInsert CcEntryAddr_new 0 ∅ ]}) ]} 1 0 0 0 ∅.

Lemma empty_batch_flushes_writes : from_option (λ o, match o with ScanBatchDone _ _ _ out => sb_key <$> out | _ => [] end) []
  (scan_all demo_flags demo_table no_command demo_dflt 6 400 (opened demo_dflt Forward ScanPrimary unknown_rows)
    (scan_open_writes late_write demo_table Forward NegativeInfinity true) late_write (rest_of unknown_rows) []) = [300; 200]%Z.
Proof. vm_compute. reflexivity. Qed.

(** The transaction has read key 1 before, and closes a scan that has locked the key again but
    not returned it.  Draining the scanner counts the read of the scan as read, which it was not,
    and takes the earlier read out of the read set: it will not be validated. *)
Definition read_once : ReadWriteSet Z Z := (AddRead ReadWriteSet_Reset (scan_cce_addr_ (demo_tuple Normal 1)) 5 demo_table).2.

Lemma drain_drops_earlier_read :
  in_read_set demo_table read_once (scan_cce_addr_ (demo_tuple Normal 1)) ∧
  from_option (λ r : TemplateCcScanner Z Z * ReadWriteSet Z Z * list (CcEntryAddr * Z), (rset_ r.1.2 !! demo_table ≫= (.!! scan_cce_addr_ (demo_tuple Normal 1)), r.2)) (None, [])
    (DrainScanner demo_flags demo_table 10 (opened demo_dflt Forward ScanPrimary {[ 0%Z := [demo_tuple Normal 1] ]}) read_once [])
  = (None, [(scan_cce_addr_ (demo_tuple Normal 1), 5%Z)]).
Proof. split; [by eexists|]. vm_compute. reflexivity. Qed.

(** The transaction closes the scan of [demo_rows] before it has read anything, and gives back
    the row it has read before. *)
Definition demo_opened : TemplateCcScanner Z Z := opened demo_dflt Forward ScanPrimary demo_rows.
Definition given_back : UnlockTuple := mkUnlockTuple (scan_cce_addr_ (demo_tuple Normal 1)) 5 Normal.

Lemma demo_closable : closable demo_opened.
Proof.
  destruct (opened_ready demo_dflt Forward ScanPrimary demo_rows _ demo_source) as [[Hm _ _ _] _]. split; [|done|done].
  intros sh c Hc. by apply (mg_ok _ _ _ Hm sh c).
Qed.
Lemma demo_unread : demo_tuple Normal 3 ∈ unread demo_opened.
Proof. assert (unread demo_opened = [demo_tuple Normal 2; demo_tuple Normal 1; demo_tuple Normal 3]) as -> by (vm_compute; reflexivity). do 2 right. by left. Qed.


(** ** Two cores commit their caches

    Core 0 has the keys 1 and 3, core 1 has 2; core 1 finds the chain of core 0 and merges. *)

Definition two_cores : RangeScanner Z Z :=
  let fill ks := fill_cache demo_dflt (ScanCache_new demo_dflt) (demo_tuple Normal <$> ks) in
  mkRangeScanner [fill [1; 3]; fill [2]]%Z [[]; []] false Inf ScannerOpen true (-1).

Fixpoint run_cores (st : Committing Z Z) (cores : list nat) : option (Committing Z Z) :=
  match cores with [] => Some st | c :: cores => st' ← core_step Forward st c; run_cores st' cores end.

Lemma run_cores_nsteps cores : ∀ st st', run_cores st cores = Some st' → nsteps (commit_step Forward) (length cores) st st'.
Proof.
  induction cores as [|c cores IH]; intros st st'; cbn [run_cores length]; [intros [= <-]; constructor|].
  destruct (core_step Forward st c) as [st1|] eqn:E; cbn [mbind option_bind]; [|done]. intros Hr. econstructor; [by exists c|by apply IH].
Qed.

Definition two_committed : Committing Z Z := default (commit_start two_cores) (run_cores (commit_start two_cores) [0; 1; 0; 1; 1; 1; 1; 1]).

Lemma two_cores_ok : caches_ok Forward two_cores ∧ fresh two_cores.
Proof.
  split; [split|split; done || by vm_compute].
  - vm_compute. lia.
  - intros [|[|c]] cache; cbn [lookup list_lookup rs_scans two_cores]; intros Hc; try (apply Some_inj in Hc; subst cache; split; vm_compute; (lia || done)). done.
  - intros [|[|c]] cache; cbn [lookup list_lookup rs_scans two_cores]; intros Hc; try (apply Some_inj in Hc; subst cache); [| |done].
    + vm_compute take. repeat constructor; cbn; lia.
    + vm_compute take. repeat constructor.
Qed.

Lemma parallel_commit_sorted_witness : ∃ ts, read_scan 4 (cm_scanner two_committed) = Some ts ∧ key_obj_ <$> ts = [1; 2; 3]%Z ∧ ts ≡ₚ all_tuples two_cores.
Proof.
  destruct (parallel_commit_sorted Forward two_cores 8 two_committed) as (_ & _ & Hread).
  - exact (proj1 two_cores_ok).
  - exact (proj2 two_cores_ok).
  - apply (run_cores_nsteps [0; 1; 0; 1; 1; 1; 1; 1]). vm_compute. reflexivity.
  - destruct Hread as (ts & Hr & Hp & _).
    + vm_compute. repeat constructor.
    + exists ts. split; [exact Hr|]. split; [|exact Hp]. vm_compute in Hr. apply Some_inj in Hr. subst ts. reflexivity.
Defined.
