(* ===== verification/TxCommand.v ===== *)
(** * Replayed commands ([BufferedTxnCmdList], [CcEntry::TryCommitBufferedCommands])

    An object is replicated and recovered by replaying the commands of its
    transactions.  The messages arrive in any order and more than once; each
    names the object version it applies to and the version it produces.  An
    entry buffers what it cannot apply yet.  Source: [include/tx_command.h]
    and the replay part of [include/cc/cc_entry.h]; the guard of a replayed
    log record is in [include/cc/object_cc_map.h].

    The commands themselves ([TxCommand::CreateObject], [CommitOn],
    [IsOverwrite]) are implemented by the storage engines that embed the
    service: they are arguments. *)

From S2P Require Import Prelude CcProtocol CcEntry.
From stdpp Require Import sorting.

(** [TxnCmd]: the commands of one transaction on one object. *)
Record TxnCmd (C : Type) := mkTxnCmd {
  obj_version_ : Z;
  new_version_ : Z;
  ignore_previous_version_ : bool;
  cmd_list_ : list C;
}.
Arguments mkTxnCmd {_}.
Arguments obj_version_ {_}.
Arguments new_version_ {_}.
Arguments ignore_previous_version_ {_}.
Arguments cmd_list_ {_}.

Section replay.
Context {O C : Type}.
Context (CreateObject : C → O) (CommitOn : C → O → option O) (IsOverwrite : C → bool).
Implicit Types (t : TxnCmd C) (l : list (TxnCmd C)) (e : CcEntry O) (p : option O).

(** [EmplaceTxnCmd]: sorted by [new_version_], duplicates dropped; a transaction
    that ignores the previous version drops the ones before it. *)
Fixpoint split_lower (v : Z) l : list (TxnCmd C) * list (TxnCmd C) :=
  match l with
  | [] => ([], [])
  | t :: l' =>
      if decide (new_version_ t < v)%Z then let '(a, b) := split_lower v l' in (t :: a, b)
      else ([], l)
  end.

Definition EmplaceTxnCmd l t : list (TxnCmd C) :=
  let '(before, from) := split_lower (new_version_ t) l in
  match from with
  | t' :: _ =>
      if decide (new_version_ t' = new_version_ t) then l
      else (if ignore_previous_version_ t then [] else before) ++ t :: from
  | [] => (if ignore_previous_version_ t then [] else before) ++ [t]
  end.

(** One command on the payload: a missing object is created first; [CommitOn]
    returns the new object, or null when the command deletes it. *)
Definition apply_cmd p (c : C) : option O :=
  CommitOn c (match p with Some o => o | None => CreateObject c end).

(** One iteration of the loop of [TryCommitBufferedCommands]. *)
Definition apply_txn t p : option O :=
  let p1 :=
    match cmd_list_ t with
    | first_cmd :: _ =>
        if ignore_previous_version_ t && negb (IsOverwrite first_cmd) then None else p
    | [] => p
    end in
  fold_left apply_cmd (cmd_list_ t) p1.

(** The loop: the commands left, the payload and [cur_ver]. *)
Fixpoint TryCommitBufferedCommands l p (cur_ver : Z) : list (TxnCmd C) * option O * Z :=
  match l with
  | [] => ([], p, cur_ver)
  | t :: l' =>
      let cur_ver := if ignore_previous_version_ t then obj_version_ t else cur_ver in
      if decide (obj_version_ t ≠ cur_ver) then (l, p, cur_ver)
      else TryCommitBufferedCommands l' (apply_txn t p) (new_version_ t)
  end.

Definition payload_status p : RecordStatus :=
  match p with None => Deleted | Some _ => Normal end.

(** The entry with its buffered commands. *)
Definition EmplaceAndCommitBufferedTxnCommand (skip_kv : bool) (s : CcEntry O * list (TxnCmd C)) t
    : CcEntry O * list (TxnCmd C) :=
  let '(e, buffered) := s in
  let cur_ver := CommitTs e in
  let status := PayloadStatus e in
  let try_commit := ignore_previous_version_ t || negb (bool_decide (status = Unknown)) in
  let buffered1 := EmplaceTxnCmd buffered t in
  if try_commit then
    let '(rest, p, cur_ver) := TryCommitBufferedCommands buffered1 (cur_payload_ e) cur_ver in
    (SetCommitTsPayloadStatus false skip_kv (set_payload e p) cur_ver (payload_status p), rest)
  else (SetCommitTsPayloadStatus false skip_kv e cur_ver status, buffered1).

(** The guard in front of it when a log record is replayed: commands not newer
    than the entry are discarded. *)
Definition replay_txn (skip_kv : bool) (s : CcEntry O * list (TxnCmd C)) t
    : CcEntry O * list (TxnCmd C) :=
  if decide (CommitTs s.1 < new_version_ t)%Z
  then EmplaceAndCommitBufferedTxnCommand skip_kv s t else s.

(** [BackFill]: the version fetched from the data store arrives for an entry
    that was unknown. *)
Fixpoint drop_stale (commit_ts : Z) l : list (TxnCmd C) :=
  match l with
  | [] => []
  | t :: l' => if decide (commit_ts <= obj_version_ t)%Z then l else drop_stale commit_ts l'
  end.

Definition backfill (skip_kv : bool) (s : CcEntry O * list (TxnCmd C)) (commit_ts : Z)
    (status : RecordStatus) (rec : option O) : CcEntry O * list (TxnCmd C) :=
  let '(e, buffered) := s in
  if decide (PayloadStatus e = Unknown) then
    let e1 := SetCkptTs false (SetCommitTsPayloadStatus false skip_kv e commit_ts status) commit_ts in
    let e2 := match rec with Some o => set_payload e1 (Some o) | None => e1 end in
    match buffered with
    | [] => (e2, [])
    | _ =>
        let '(rest, p, commit_version) :=
          TryCommitBufferedCommands (drop_stale commit_ts buffered) (cur_payload_ e2) commit_ts in
        (SetCommitTsPayloadStatus false skip_kv (set_payload e2 p) commit_version (payload_status p),
         rest)
    end
  else s.

(** ** A log of one object *)

(** The log from version [v] on: versions increase, and a transaction that does
    not ignore the previous version applies to the one before it. *)
Fixpoint chain (v : Z) l : Prop :=
  match l with
  | [] => True
  | t :: l' =>
      (ignore_previous_version_ t = false → obj_version_ t = v) ∧
      (ignore_previous_version_ t = true → cmd_list_ t ≠ []) ∧
      (v < new_version_ t)%Z ∧ is_ts (new_version_ t) ∧ chain (new_version_ t) l'
  end.

Definition apply_all l p : option O := fold_left (λ p t, apply_txn t p) l p.
Definition last_ver (v : Z) l : Z := fold_left (λ _ t, new_version_ t) l v.

Lemma chain_app v l1 l2 : chain v (l1 ++ l2) ↔ chain v l1 ∧ chain (last_ver v l1) l2.
Proof. revert v. induction l1 as [|t l1 IH]; intros v; cbn; [tauto|]. rewrite IH. tauto. Qed.

Lemma chain_newer v l t : chain v l → t ∈ l → (v < new_version_ t)%Z.
Proof.
  revert v. induction l as [|t' l IH]; intros v; [set_solver|].
  intros (_ & _ & Hlt & _ & Hc) [->|Hin]%elem_of_cons; [done|]. specialize (IH _ Hc Hin). lia.
Qed.

Lemma chain_last v l : chain v l → (v ≤ last_ver v l)%Z.
Proof.
  revert v. induction l as [|t l IH]; intros v; cbn; [lia|].
  intros (_ & _ & Hlt & _ & Hc%IH). unfold last_ver in Hc. lia.
Qed.

Lemma chain_upto v l t : chain v l → t ∈ l → (new_version_ t ≤ last_ver v l)%Z.
Proof.
  intros Hc (l1 & l2 & ->)%list_elem_of_split. apply chain_app in Hc as [_ (_ & _ & _ & _ & Hc)].
  apply chain_last in Hc. unfold last_ver in *. rewrite fold_left_app. cbn. lia.
Qed.

Lemma chain_obj v l t :
  chain v l → t ∈ l → ignore_previous_version_ t = false → (v ≤ obj_version_ t)%Z.
Proof.
  revert v. induction l as [|t' l IH]; intros v; [set_solver|].
  intros (Ho & _ & Hlt & _ & Hc) [->|Hin]%elem_of_cons Hi; [by rewrite Ho|].
  specialize (IH _ Hc Hin Hi). lia.
Qed.

Lemma chain_is_ts v l : chain v l → is_ts v → is_ts (last_ver v l).
Proof.
  revert v. induction l as [|t l IH]; intros v; [done|]. intros (_ & _ & _ & Hts & Hc) _.
  by apply (IH (new_version_ t)).
Qed.

(** An overwriting command does not read the object. *)
Context (overwrite_blind : ∀ c o o', IsOverwrite c = true → CommitOn c o = CommitOn c o').

(** A transaction that ignores the previous version has the same effect on
    every object. *)
Lemma apply_txn_ignore t p p' :
  ignore_previous_version_ t = true → cmd_list_ t ≠ [] → apply_txn t p = apply_txn t p'.
Proof.
  intros Hi Hne. unfold apply_txn. rewrite Hi. destruct (cmd_list_ t) as [|c cs]; [done|].
  destruct (IsOverwrite c) eqn:Ho; cbn; [|done]. f_equal. unfold apply_cmd.
  by apply overwrite_blind.
Qed.

(** The loop applies the longest run of delivered transactions. *)
Lemma try_commit_run (Q : TxnCmd C → Prop) `{!∀ t, Decision (Q t)} rest v p :
  chain v rest →
  (∀ l1 t l2, rest = l1 ++ t :: l2 → Q t → ignore_previous_version_ t = true → Forall Q l1) →
  ∃ run rem, rest = run ++ rem ∧ Forall Q run ∧ (∀ t, head rem = Some t → ¬ Q t) ∧
    TryCommitBufferedCommands (filter Q rest) p v =
      (filter Q rem, apply_all run p, last_ver v run).
Proof.
  revert v p. induction rest as [|t rest IH]; intros v p Hc Hig.
  { exists [], []. split; [done|]. split; [done|]. by split. }
  pose proof Hc as (Ho & _ & Hlt & _ & Hc'). destruct (decide (Q t)) as [HQ|HQ].
  - rewrite filter_cons_True by done. cbn [TryCommitBufferedCommands].
    rewrite decide_False by (destruct (ignore_previous_version_ t); [tauto|rewrite Ho; tauto]).
    destruct (IH (new_version_ t) (apply_txn t p)) as (run & rem & -> & Hrun & Hrem & ->); [done| |].
    { intros l1 t' l2 -> HQ' Hi'. pose proof (Hig (t :: l1) t' l2 eq_refl HQ' Hi') as Hf.
      by apply Forall_cons in Hf as [_ ?]. }
    exists (t :: run), rem. split; [done|]. split; [by constructor|]. by split.
  - exists [], (t :: rest). split; [done|]. split; [done|]. split; [by intros ? [= <-]|].
    rewrite filter_cons_False by done.
    destruct (filter Q rest) as [|t2 l] eqn:E; [done|].
    assert (t2 ∈ filter Q rest) as [HQ2 Hin2]%list_elem_of_filter by (rewrite E; set_solver).
    assert (ignore_previous_version_ t2 = false) as Hni.
    { apply not_true_iff_false. intros Hi2.
      apply list_elem_of_split in Hin2 as (l1 & l2 & ->).
      pose proof (Hig (t :: l1) t2 l2 eq_refl HQ2 Hi2) as Hf. by apply Forall_cons in Hf as [? _]. }
    cbn [TryCommitBufferedCommands]. rewrite Hni.
    pose proof (chain_obj _ _ _ Hc' Hin2 Hni). rewrite decide_True by lia. done.
Qed.

Lemma split_lower_app v a b :
  (∀ t, t ∈ a → (new_version_ t < v)%Z) → (∀ t, head b = Some t → (v ≤ new_version_ t)%Z) →
  split_lower v (a ++ b) = (a, b).
Proof.
  intros Ha Hb. induction a as [|t a IH]; cbn.
  - destruct b as [|t b]; [done|]. specialize (Hb t eq_refl). cbn. by rewrite decide_False by lia.
  - rewrite decide_True by (apply Ha; set_solver). rewrite IH; [done|]. intros. apply Ha. set_solver.
Qed.

Lemma emplace_new t a b :
  (∀ t', t' ∈ a → (new_version_ t' < new_version_ t)%Z) →
  (∀ t', t' ∈ b → (new_version_ t < new_version_ t')%Z) →
  EmplaceTxnCmd (a ++ b) t = (if ignore_previous_version_ t then [] else a) ++ t :: b.
Proof.
  intros Ha Hb. unfold EmplaceTxnCmd. rewrite split_lower_app; [|done|].
  - destruct b as [|t' b]; [done|]. rewrite decide_False; [done|].
    specialize (Hb t' ltac:(set_solver)). lia.
  - intros t' Ht'. destruct b as [|t'' b]; [done|]. injection Ht' as ->.
    specialize (Hb t' ltac:(set_solver)). lia.
Qed.

Lemma emplace_duplicate t a b :
  (∀ t', t' ∈ a → (new_version_ t' < new_version_ t)%Z) →
  EmplaceTxnCmd (a ++ t :: b) t = a ++ t :: b.
Proof.
  intros Ha. unfold EmplaceTxnCmd. rewrite split_lower_app; [|done|].
  - by rewrite decide_True.
  - intros t' [= <-]. done.
Qed.

(** ** Delivery in any order *)

Section delivery.
Context (log : list (TxnCmd C)) (v0 : Z) (p0 : option O).
Context (Hlog : chain v0 log) (Hv0 : is_ts v0).

Definition delivered (vs : list Z) t : Prop := new_version_ t ∈ vs.

#[export] Instance delivered_dec vs t : Decision (delivered vs t).
Proof. unfold delivered. apply _. Defined.

(** After the transactions with versions [vs] have been delivered: a prefix of
    the log is applied, the first transaction after it is missing, and the
    buffer holds the delivered ones of the rest, none of which ignores the
    previous version. *)
Record replayed_at (vs : list Z) (s : CcEntry O * list (TxnCmd C))
    (run rem : list (TxnCmd C)) : Prop := {
  ra_log : log = run ++ rem;
  ra_version : CommitTs s.1 = last_ver v0 run;
  ra_payload : cur_payload_ s.1 = apply_all run p0;
  ra_status : PayloadStatus s.1 ≠ Unknown;
  ra_buffer : s.2 = filter (delivered vs) rem;
  ra_missing : ∀ t, head rem = Some t → ¬ delivered vs t;
  ra_dependent : ∀ t, t ∈ rem → delivered vs t → ignore_previous_version_ t = false;
}.

Definition replayed (vs : list Z) (s : CcEntry O * list (TxnCmd C)) : Prop :=
  ∃ run rem, replayed_at vs s run rem.

Lemma set_version skip_kv e p v st :
  is_ts v → (CommitTs e ≤ v)%Z → PayloadStatus e ≠ Unknown → st ≠ Unknown →
  let e' := SetCommitTsPayloadStatus false skip_kv (set_payload e p) v st in
  CommitTs e' = v ∧ cur_payload_ e' = p ∧ PayloadStatus e' ≠ Unknown.
Proof.
  intros Hv Hle Hs Hst e'. subst e'. split; [|split].
  - rewrite SetCommitTs_CommitTs by done. change (CommitTs (set_payload e p)) with (CommitTs e). lia.
  - by destruct (SetCommitTs_other false skip_kv (set_payload e p) v st) as (_ & -> & _).
  - destruct (decide (CommitTs e < v)%Z) as [Hlt|Hge].
    + by destruct (SetCommitTs_newer false skip_kv (set_payload e p) v st Hv Hlt) as [-> _].
    + unfold SetCommitTsPayloadStatus.
      change (Z.shiftr (commit_ts_and_status_ (set_payload e p)) 8) with (CommitTs e).
      rewrite decide_False by lia. destruct (_ && _); [|done].
      by rewrite set_flag_status by auto.
Qed.

Lemma payload_status_known p : payload_status p ≠ Unknown.
Proof. by destruct p. Qed.

(** The run of the loop re-establishes the invariant. *)
Lemma replayed_commit_at skip_kv vs e buffered run rest p v :
  log = run ++ rest → (CommitTs e ≤ last_ver v0 run)%Z → PayloadStatus e ≠ Unknown →
  (∀ l1 t l2, rest = l1 ++ t :: l2 → delivered vs t → ignore_previous_version_ t = true →
     Forall (delivered vs) l1) →
  TryCommitBufferedCommands buffered p v =
    TryCommitBufferedCommands (filter (delivered vs) rest) (apply_all run p0) (last_ver v0 run) →
  ∃ more rem', rest = more ++ rem' ∧ replayed_at vs
    (let '(rem, p, cur_ver) := TryCommitBufferedCommands buffered p v in
     (SetCommitTsPayloadStatus false skip_kv (set_payload e p) cur_ver (payload_status p), rem))
    (run ++ more) rem'.
Proof.
  intros Hrun Hle Hs Hig ->. pose proof Hlog as Hc. rewrite Hrun in Hc.
  apply chain_app in Hc as [Hc1 Hc2].
  destruct (try_commit_run (delivered vs) rest _ (apply_all run p0) Hc2 Hig)
    as (run' & rem & -> & Hf & Hrem & ->).
  assert (last_ver (last_ver v0 run) run' = last_ver v0 (run ++ run')) as Hv
    by (unfold last_ver; by rewrite fold_left_app).
  apply chain_app in Hc2 as [Hc2 Hc3]. pose proof (chain_last _ _ Hc2) as Hge.
  destruct (set_version skip_kv e (apply_all run' (apply_all run p0)) (last_ver (last_ver v0 run) run')
    (payload_status (apply_all run' (apply_all run p0)))) as (H1 & H2 & H3).
  { apply chain_is_ts; [done|]. by apply chain_is_ts. }
  { lia. } { done. } { apply payload_status_known. }
  exists run', rem. split; [done|]. split; cbn [fst snd]; rewrite <-?Hv;
    [by rewrite Hrun, app_assoc|done|rewrite H2; unfold apply_all; by rewrite fold_left_app
    |done|done|done|].
  intros t Hin Hdel. apply not_true_iff_false. intros Hi.
  apply list_elem_of_split in Hin as (l1 & l2 & ->).
  pose proof (Hig (run' ++ l1) t l2 ltac:(by rewrite <-app_assoc) Hdel Hi) as Hall.
  apply Forall_app in Hall as [_ Hall]. destruct l1 as [|t1 l1]; [by apply (Hrem t)|].
  apply Forall_cons in Hall as [Ht1 _]. by apply (Hrem t1).
Qed.

Lemma replayed_commit skip_kv vs e buffered run rest p v :
  log = run ++ rest → (CommitTs e ≤ last_ver v0 run)%Z → PayloadStatus e ≠ Unknown →
  (∀ l1 t l2, rest = l1 ++ t :: l2 → delivered vs t → ignore_previous_version_ t = true →
     Forall (delivered vs) l1) →
  TryCommitBufferedCommands buffered p v =
    TryCommitBufferedCommands (filter (delivered vs) rest) (apply_all run p0) (last_ver v0 run) →
  replayed vs
    (let '(rem, p, cur_ver) := TryCommitBufferedCommands buffered p v in
     (SetCommitTsPayloadStatus false skip_kv (set_payload e p) cur_ver (payload_status p), rem)).
Proof.
  intros. destruct (replayed_commit_at skip_kv vs e buffered run rest p v) as (more & rem & _ & Hr);
    [done..|]. by exists (run ++ more), rem.
Qed.

Lemma delivered_cons vs v t : delivered (v :: vs) t ↔ delivered vs t ∨ new_version_ t = v.
Proof. unfold delivered. set_solver. Qed.

(** Delivering a version that is applied already. *)
Lemma replayed_old vs v s run rem :
  replayed_at vs s run rem → (v ≤ last_ver v0 run)%Z → replayed_at (v :: vs) s run rem.
Proof.
  intros [Hl Hv Hp Hs Hbuf Hhead Hig] Hle.
  pose proof Hlog as Hc. rewrite Hl in Hc. apply chain_app in Hc as [_ Hc].
  assert (∀ t, t ∈ rem → delivered (v :: vs) t ↔ delivered vs t) as Hdel.
  { intros t Ht. rewrite delivered_cons. pose proof (chain_newer _ _ _ Hc Ht). naive_solver lia. }
  split; try done.
  - rewrite Hbuf. apply filter_iff_in. intros t Ht. by rewrite Hdel.
  - intros t Ht. rewrite Hdel; [by apply Hhead|]. destruct rem; set_solver.
  - intros t Ht. rewrite Hdel by done. by apply Hig.
Qed.

(** The neighbours of a transaction in the log. *)
Lemma rem_order run l1 t l2 :
  log = run ++ l1 ++ t :: l2 →
  (∀ t', t' ∈ l1 → (new_version_ t' < new_version_ t)%Z) ∧
  (∀ t', t' ∈ l2 → (new_version_ t < new_version_ t')%Z) ∧
  (last_ver v0 run < new_version_ t)%Z.
Proof.
  intros Hl. pose proof Hlog as Hc. rewrite Hl in Hc.
  apply chain_app in Hc as [_ Hc]. pose proof (chain_newer _ _ t Hc ltac:(set_solver)).
  apply chain_app in Hc as [Hc1 (_ & _ & Hlt & _ & Hc2)].
  split; [|split; [|done]]; intros t' Ht'.
  - pose proof (chain_upto _ _ _ Hc1 Ht'). lia.
  - by eapply chain_newer.
Qed.

(** Delivering a transaction that is ahead of the entry. *)
Lemma replayed_new skip_kv vs e run l1 t l2 :
  replayed_at vs (e, filter (delivered vs) (l1 ++ t :: l2)) run (l1 ++ t :: l2) →
  replayed (new_version_ t :: vs)
    (EmplaceAndCommitBufferedTxnCommand skip_kv (e, filter (delivered vs) (l1 ++ t :: l2)) t).
Proof.
  intros [Hl Hv Hp Hs _ Hhead Hig]. cbn [fst snd] in *.
  destruct (rem_order _ _ _ _ Hl) as (Hb & Ha & Hnew). unfold EmplaceAndCommitBufferedTxnCommand.
  rewrite (bool_decide_eq_false_2 (PayloadStatus e = Unknown)) by done.
  rewrite orb_true_r, Hp, Hv.
  assert (∀ l, (∀ t', t' ∈ l → new_version_ t' ≠ new_version_ t) →
    filter (delivered (new_version_ t :: vs)) l = filter (delivered vs) l) as Hext.
  { intros l Hne. apply filter_iff_in. intros t' Ht'%Hne. rewrite delivered_cons. tauto. }
  destruct (decide (delivered vs t)) as [Hdt|Hdt];
    [|destruct (ignore_previous_version_ t) eqn:Hi].
  - apply (replayed_commit _ _ _ _ run (l1 ++ t :: l2)); [done|lia|done|..].
    + intros k1 t' k2 Hk [Hd|E]%delivered_cons Hi'; exfalso.
      * rewrite (Hig t') in Hi'; [done|rewrite Hk; set_solver|done].
      * assert (delivered vs t') as Hd by (unfold delivered in *; by rewrite E).
        rewrite (Hig t') in Hi'; [done|rewrite Hk; set_solver|done].
    + rewrite !filter_app, !filter_cons_True by (rewrite ?delivered_cons; auto).
      rewrite emplace_duplicate by (intros t' [_ Ht']%list_elem_of_filter; auto).
      by rewrite !Hext by (intros t' Ht'; [apply Hb in Ht' || apply Ha in Ht']; lia).
  - rewrite filter_app, filter_cons_False by done.
    rewrite emplace_new by (intros t' [_ Ht']%list_elem_of_filter; auto). rewrite Hi.
    apply (replayed_commit _ _ _ _ (run ++ l1 ++ [t]) l2).
    + by rewrite Hl, <-!app_assoc.
    + rewrite Hv. unfold last_ver at 2. rewrite !fold_left_app. cbn. lia.
    + done.
    + intros k1 t' k2 -> [Hd|E]%delivered_cons Hi'; exfalso.
      * rewrite (Hig t') in Hi'; [done|set_solver|done].
      * specialize (Ha t' ltac:(set_solver)). lia.
    + cbn [app TryCommitBufferedCommands]. rewrite Hi, decide_False by tauto.
      rewrite Hext by (intros t' Ht'%Ha; lia). unfold apply_all, last_ver. rewrite !fold_left_app. cbn.
      f_equal. apply apply_txn_ignore; [done|].
      pose proof Hlog as Hc. rewrite Hl in Hc. apply chain_app in Hc as [_ Hc].
      apply chain_app in Hc as [_ (_ & Hne & _)]. by apply Hne.
  - apply (replayed_commit _ _ _ _ run (l1 ++ t :: l2)); [done|lia|done|..].
    + intros k1 t' k2 Hk [Hd|E]%delivered_cons Hi'; exfalso.
      * rewrite (Hig t') in Hi'; [done|rewrite Hk; set_solver|done].
      * assert (t' ∈ l1 ++ t :: l2) as Hin by (rewrite Hk; set_solver).
        apply elem_of_app in Hin as [Hin%Hb|[->|Hin%Ha]%elem_of_cons]; [lia|congruence|lia].
    + rewrite filter_app, filter_cons_False by done.
      rewrite emplace_new by (intros t' [_ Ht']%list_elem_of_filter; auto). rewrite Hi.
      rewrite filter_app, filter_cons_True by (rewrite delivered_cons; auto).
      by rewrite !Hext by (intros t' Ht'; [apply Hb in Ht' || apply Ha in Ht']; lia).
Qed.

Lemma replayed_step skip_kv vs s t :
  t ∈ log → replayed vs s → replayed (new_version_ t :: vs) (replay_txn skip_kv s t).
Proof.
  intros Hin (run & rem & Hr). pose proof Hr as [Hl Hv _ _ Hbuf _ _]. unfold replay_txn.
  destruct (decide (CommitTs s.1 < new_version_ t)%Z) as [Hlt|Hge].
  - rewrite Hl in Hin. apply elem_of_app in Hin as [Hin|Hin].
    + pose proof Hlog as Hc. rewrite Hl in Hc. apply chain_app in Hc as [Hc _].
      pose proof (chain_upto _ _ _ Hc Hin). lia.
    + apply list_elem_of_split in Hin as (l1 & l2 & ->). destruct s as [e buffered].
      cbn in Hbuf. subst buffered. by eapply replayed_new.
  - exists run, rem. apply replayed_old; [done|lia].
Qed.

Lemma replayed_all skip_kv ds vs s :
  (∀ t, t ∈ ds → t ∈ log) → replayed vs s →
  ∃ vs', replayed vs' (fold_left (replay_txn skip_kv) ds s) ∧
    (∀ t, t ∈ ds → delivered vs' t) ∧ (∀ v, v ∈ vs → v ∈ vs').
Proof.
  revert vs s. induction ds as [|t ds IH]; intros vs s Hds Hr; cbn.
  { exists vs. split; [done|]. set_solver. }
  destruct (IH (new_version_ t :: vs) (replay_txn skip_kv s t)) as (vs' & H1 & H2 & H3).
  { set_solver. } { apply replayed_step; [set_solver|done]. }
  exists vs'. split; [done|]. split; [|set_solver].
  intros t' [->|Ht']%elem_of_cons; [|by apply H2]. apply H3. set_solver.
Qed.

Lemma replayed_start e0 :
  CommitTs e0 = v0 → cur_payload_ e0 = p0 → PayloadStatus e0 ≠ Unknown → replayed [] (e0, []).
Proof.
  intros. exists [], log. split; try done.
  - symmetry. apply filter_none. intros t _. unfold delivered. set_solver.
  - intros t _. unfold delivered. set_solver.
  - intros t _ Hd. unfold delivered in Hd. set_solver.
Qed.

(** ** The base version arrives last *)

Lemma drop_stale_app c a b :
  (∀ t, t ∈ a → (obj_version_ t < c)%Z) → (∀ t, t ∈ b → (c ≤ obj_version_ t)%Z) →
  drop_stale c (a ++ b) = b.
Proof.
  intros Ha Hb. induction a as [|t a IH]; cbn.
  - destruct b as [|t b]; [done|]. cbn. by rewrite decide_True by (apply Hb; set_solver).
  - rewrite decide_False by (specialize (Ha t ltac:(set_solver)); lia). apply IH. set_solver.
Qed.

(** Buffered transactions that the fetched version already contains are dropped,
    the others are kept. *)
Lemma drop_stale_split vs run rem :
  log = run ++ rem →
  (∀ t, t ∈ log → delivered vs t → ignore_previous_version_ t = false) →
  drop_stale (last_ver v0 run) (filter (delivered vs) log) = filter (delivered vs) rem.
Proof.
  intros Hl Hig. pose proof Hlog as Hc. rewrite Hl in Hc. apply chain_app in Hc as [Hc1 Hc2].
  rewrite Hl, filter_app. apply drop_stale_app; intros t [Hd Ht]%list_elem_of_filter.
  - pose proof (chain_upto _ _ _ Hc1 Ht). assert (obj_version_ t < new_version_ t)%Z; [|lia].
    apply list_elem_of_split in Ht as (l1 & l2 & ->).
    apply chain_app in Hc1 as [_ (Ho & _ & Hlt & _)].
    rewrite Ho; [done|]. apply Hig; [rewrite Hl; set_solver|done].
  - eapply chain_obj; [done|done|]. apply Hig; [|done]. rewrite Hl. set_solver.
Qed.

Lemma backfill_replayed skip_kv vs e run rem :
  log = run ++ rem →
  (∀ t, t ∈ log → delivered vs t → ignore_previous_version_ t = false) →
  PayloadStatus e = Unknown → cur_payload_ e = None → (CommitTs e < last_ver v0 run)%Z →
  ∃ more rem', rem = more ++ rem' ∧ replayed_at vs
    (backfill skip_kv (e, filter (delivered vs) log) (last_ver v0 run)
       (payload_status (apply_all run p0)) (apply_all run p0)) (run ++ more) rem'.
Proof.
  intros Hl Hig Hs Hp Hlt. unfold backfill. rewrite decide_True by done.
  set (v := last_ver v0 run) in *. set (p := apply_all run p0) in *.
  assert (is_ts v) as Hts.
  { apply chain_is_ts; [|done]. pose proof Hlog as Hc. rewrite Hl in Hc.
    by apply chain_app in Hc as [? _]. }
  set (e1 := SetCkptTs false _ v).
  assert (CommitTs e1 = v ∧ PayloadStatus e1 = payload_status p ∧ cur_payload_ e1 = None)
    as (Hv1 & Hs1 & Hp1).
  { unfold e1, SetCkptTs. pose proof (SetCommitTs_CommitTs false skip_kv e v (payload_status p) Hts).
    destruct (SetCommitTs_newer false skip_kv e v (payload_status p) Hts Hlt) as [Hst _].
    destruct (SetCommitTs_other false skip_kv e v (payload_status p)) as (_ & Hpp & _).
    destruct (decide _); [rewrite set_flag_ts, set_flag_status by auto|]; cbn [cur_payload_ set_word];
      rewrite ?Hpp, ?Hp; (split; [lia|done]). }
  clearbody e1. set (e2 := match p with Some o => _ | None => _ end).
  assert (CommitTs e2 = v ∧ PayloadStatus e2 = payload_status p ∧ cur_payload_ e2 = p)
    as (Hv2 & Hs2 & Hp2) by (unfold e2; by destruct p).
  clearbody e2. pose proof (payload_status_known p) as Hk.
  destruct (filter (delivered vs) log) as [|t0 buffered] eqn:Hbuf.
  - exists [], rem. split; [done|]. rewrite app_nil_r. split; cbn [fst snd]; rewrite ?Hv2, ?Hs2; try done.
    + rewrite Hl, filter_app in Hbuf. by apply app_nil in Hbuf as [_ ->].
    + intros t Ht Hd. assert (t ∈ filter (delivered vs) log) as Hin; [|rewrite Hbuf in Hin; set_solver].
      apply list_elem_of_filter. split; [done|]. rewrite Hl. destruct rem; set_solver.
    + intros t Ht. apply Hig. rewrite Hl. set_solver.
  - rewrite <-Hbuf. unfold v at 1. rewrite drop_stale_split with (rem := rem) by done. rewrite Hp2.
    apply (replayed_commit_at _ _ _ _ run rem); [done|fold v; lia|by rewrite Hs2| |done].
    intros l1 t l2 -> Hd Hi. rewrite (Hig t) in Hi; [done|rewrite Hl; set_solver|done].
Qed.
End delivery.
End replay.


(** Objects are lists of numbers; a command appends one, or overwrites with it. *)
Definition demo_commit (c : bool * Z) (o : list Z) : option (list Z) :=
  if c.1 then Some [c.2] else Some (o ++ [c.2]).

Definition demo_log : list (TxnCmd (bool * Z)) :=
  [mkTxnCmd 5 7 false [(false, 1)]; mkTxnCmd 7 9 false [(false, 2)];
   mkTxnCmd 9 12 true [(true, 3); (false, 4)]; mkTxnCmd 12 15 false [(false, 5)]]%Z.

Definition demo_entry : CcEntry (list Z) :=
  set_payload (SetCommitTsPayloadStatus false false CcEntry_new 5 Normal) (Some [0%Z]).


(**  a base version that is fetched late joins the replay correctly.  While
    the entry is unknown, delivered transactions wait in the buffer; when the
    data store returns the object as of any prefix of the log, [BackFill] drops
    the buffered transactions that version contains and applies the rest as far
    as they reach, so the entry is again in the state after a prefix of the log
    that is at least as long. *)
Theorem backfill_resumes_replay {O C} (create : C → O) (commit : C → O → option O)
    (overwrite : C → bool) (skip_kv : bool) (log run rem : list (TxnCmd C)) (v0 : Z)
    (p0 : option O) (vs : list Z) (e : CcEntry O) :
  (∀ c o o', overwrite c = true → commit c o = commit c o') →
  chain v0 log → is_ts v0 → log = run ++ rem →
  (∀ t, t ∈ log → delivered vs t → ignore_previous_version_ t = false) →
  PayloadStatus e = Unknown → cur_payload_ e = None → (CommitTs e < last_ver v0 run)%Z →
  let kv := apply_all create commit overwrite run p0 in
  let '(e', buffered) := backfill create commit overwrite skip_kv
        (e, filter (delivered vs) log) (last_ver v0 run) (payload_status kv) kv in
  ∃ more rem', rem = more ++ rem' ∧ CommitTs e' = last_ver v0 (run ++ more) ∧
    cur_payload_ e' = apply_all create commit overwrite (run ++ more) p0 ∧
    buffered = filter (delivered vs) rem' ∧ (∀ t, head rem' = Some t → ¬ delivered vs t).
Proof.
  intros Hov Hlog Hts Hl Hig Hs Hp Hlt kv.
  destruct (backfill_replayed create commit overwrite Hov log v0 p0 Hlog Hts skip_kv vs e run rem
    Hl Hig Hs Hp Hlt) as (more & rem' & Hrem & Hr). fold kv in Hr.
  destruct (backfill _ _ _ _ _ _ _ _) as [e' buffered]. destruct Hr as [_ Hv' Hp' _ Hb' Hm' _].
  by exists more, rem'.
Qed.

Lemma backfill_resumes_replay_witness :
  let '(e', buffered) := backfill (λ _, []) demo_commit fst false
        (CcEntry_new, filter (delivered [15; 9]%Z) demo_log) 7 Normal (Some [0; 1]%Z) in
  ∃ more rem', drop 1 demo_log = more ++ rem' ∧ CommitTs e' = last_ver 5 (take 1 demo_log ++ more) ∧
    CommitTs e' = 9%Z ∧ cur_payload_ e' = Some [0; 1; 2]%Z ∧ length buffered = 1.
Proof.
  pose proof (backfill_resumes_replay (λ _, []) demo_commit fst false demo_log (take 1 demo_log)
    (drop 1 demo_log) 5 (Some [0%Z]) [15; 9]%Z CcEntry_new) as H.
  cbn zeta in H.
  assert (apply_all (λ _, []) demo_commit fst (take 1 demo_log) (Some [0%Z]) = Some [0; 1]%Z)
    as Hkv by reflexivity.
  rewrite Hkv in H.
  change (payload_status (Some [0; 1]%Z)) with Normal in H.
  change (last_ver 5 (take 1 demo_log)) with 7%Z in H.
  assert (backfill (λ _, []) demo_commit fst false
    (CcEntry_new, filter (delivered [15; 9]%Z) demo_log) 7 Normal (Some [0; 1]%Z) =
    (set_payload (SetCommitTsPayloadStatus false false CcEntry_new 9 Normal) (Some [0; 1; 2]%Z),
     drop 3 demo_log)) as E by (vm_compute; reflexivity).
  rewrite E in H |- *. destruct H as (more & rem' & H1 & H2 & _).
  - intros [b z] o o'. cbn. intros ->. reflexivity.
  - cbn. repeat split; try done; unfold is_ts; lia.
  - unfold is_ts. lia.
  - reflexivity.
  - intros t Ht. unfold demo_log in Ht. unfold delivered. set_unfold. naive_solver lia.
  - reflexivity.
  - reflexivity.
  - vm_compute. reflexivity.
  - exists more, rem'. split; [exact H1|]. split; [exact H2|]. split; [vm_compute; reflexivity|].
    split; vm_compute; reflexivity.
Defined.
