(* ===== verification/KeyLock.v ===== *)
(** * The lock structure of a cc entry ([KeyGapLockAndExtraData])

    A cc entry has no lock of its own: when it is first locked, the shard lends
    it a [KeyGapLockAndExtraData], which carries the key lock and the data that
    only a locked entry needs: the pending command and dirty payload of the
    transaction that holds the write lock, the commands parked until the object
    changes, and the transactions of a log that arrived out of order.  The
    structure goes back to the shard when [IsEmpty].
    Source: [include/cc/non_blocking_lock.h] and [src/cc/non_blocking_lock.cpp]. *)

From S2P Require Import Prelude CcProtocol Queue CircularQueue NonBlockingLock CcEntry TxCommand.

(** [Q] is the queue of the key lock, [QB] the queue of parked commands, [C] the
    commands and [O] the objects.  A pointer is an integer, null is 0. *)
Record KeyGapLock (Q QB C O : Type) := mkKeyGapLock {
  key_lock_ : NonBlockingLock Q;
  in_use_ : bool;
  last_used_ts_ : Z;
  ccm_ : Z;
  page_ : Z;
  entry_ : Z;
  pending_cmd_ : option C;
  dirty_payload_ : option O;
  dirty_payload_status_ : RecordStatus;
  queue_block_cmds_ : QB;
  buffered_cmd_list_ : list (TxnCmd C);
  forward_entry_ : Z;
}.
Arguments mkKeyGapLock {_ _ _ _}.
Arguments key_lock_ {_ _ _ _}.
Arguments in_use_ {_ _ _ _}.
Arguments last_used_ts_ {_ _ _ _}.
Arguments ccm_ {_ _ _ _}.
Arguments page_ {_ _ _ _}.
Arguments entry_ {_ _ _ _}.
Arguments pending_cmd_ {_ _ _ _}.
Arguments dirty_payload_ {_ _ _ _}.
Arguments dirty_payload_status_ {_ _ _ _}.
Arguments queue_block_cmds_ {_ _ _ _}.
Arguments buffered_cmd_list_ {_ _ _ _}.
Arguments forward_entry_ {_ _ _ _}.

Section key_lock.
Context {Q QB C O : Type} `{!QueueOps Q LockQueueEntry, !QueueOps QB CcRequestBase}.
Abbreviation klock := (KeyGapLock Q QB C O).
Implicit Types k : klock.

(** Member assignments. *)
Definition set_key_lock k (lk : NonBlockingLock Q) : klock :=
  mkKeyGapLock lk (in_use_ k) (last_used_ts_ k) (ccm_ k) (page_ k) (entry_ k) (pending_cmd_ k)
    (dirty_payload_ k) (dirty_payload_status_ k) (queue_block_cmds_ k) (buffered_cmd_list_ k)
    (forward_entry_ k).
Definition set_usage k (used : bool) (ts : Z) : klock :=
  mkKeyGapLock (key_lock_ k) used ts (ccm_ k) (page_ k) (entry_ k) (pending_cmd_ k)
    (dirty_payload_ k) (dirty_payload_status_ k) (queue_block_cmds_ k) (buffered_cmd_list_ k)
    (forward_entry_ k).
Definition set_tx_data k (cmd : option C) (dirty : option O) (status : RecordStatus)
    (forward : Z) : klock :=
  mkKeyGapLock (key_lock_ k) (in_use_ k) (last_used_ts_ k) (ccm_ k) (page_ k) (entry_ k) cmd dirty
    status (queue_block_cmds_ k) (buffered_cmd_list_ k) forward.
Definition set_blocked k (q : QB) : klock :=
  mkKeyGapLock (key_lock_ k) (in_use_ k) (last_used_ts_ k) (ccm_ k) (page_ k) (entry_ k)
    (pending_cmd_ k) (dirty_payload_ k) (dirty_payload_status_ k) q (buffered_cmd_list_ k)
    (forward_entry_ k).
Definition set_buffered k (l : list (TxnCmd C)) : klock :=
  mkKeyGapLock (key_lock_ k) (in_use_ k) (last_used_ts_ k) (ccm_ k) (page_ k) (entry_ k)
    (pending_cmd_ k) (dirty_payload_ k) (dirty_payload_status_ k) (queue_block_cmds_ k) l
    (forward_entry_ k).

(** [Reset]. *)
Definition KeyGapLock_Reset k (ccm page entry : Z) : klock :=
  mkKeyGapLock (LockReset (key_lock_ k)) (in_use_ k) (last_used_ts_ k) ccm page entry None None
    NonExistent (q_reset (queue_block_cmds_ k)) [] 0.

(** [ts_base] is the shards' logical clock. *)
Definition SetUsedStatus (ts_base : Z) k (is_used : bool) : klock :=
  set_usage k is_used (if is_used then last_used_ts_ k else ts_base).

Definition recycle_interval_us_ : Z := 30000000.

Definition SafeToRecycle (ts_base : Z) k : bool :=
  negb (in_use_ k) && bool_decide (recycle_interval_us_ <= u64 (ts_base - last_used_ts_ k))%Z.

Definition HasBufferedCommandList k : bool := negb (bool_decide (length (buffered_cmd_list_ k) = 0)).

Definition KeyGapLock_IsEmpty k : bool :=
  if IsEmpty (key_lock_ k)
  then bool_decide (q_size (queue_block_cmds_ k) = 0) && negb (HasBufferedCommandList k)
  else false.

Definition PushBlockRequest k (req : CcRequestBase) : klock :=
  set_blocked k (q_enqueue (queue_block_cmds_ k) req).

(** [KeyGapLockAndExtraData::ClearTx]. *)
Definition KeyGapLock_ClearTx k : klock := set_tx_data k None None NonExistent 0.

(** The first index from [i] whose request satisfies [f]: the loops of
    [PopBlockRequest] and [AbortBlockRequest], which stop at the first hit. *)
Fixpoint find_blocked (f : CcRequestBase → bool) (n i : nat) (q : QB)
    : option (nat * CcRequestBase) :=
  match n with
  | 0 => None
  | S n =>
      match q_get q i with
      | None => None
      | Some req => if f req then Some (i, req) else find_blocked f n (S i) q
      end
  end.

Definition take_blocked (f : CcRequestBase → bool) k : klock * option CcRequestBase :=
  let q := queue_block_cmds_ k in
  match find_blocked f (q_size q) 0 q with
  | Some (i, req) => (set_blocked k (q_erase q i), Some req)
  | None => (k, None)
  end.

(** [PopBlockRequest]: the first parked command that can run on [object] is
    enqueued to the shard.  [AblePopBlockRequest] is a virtual method of the
    commands. *)
Definition PopBlockRequest (AblePopBlockRequest : CcRequestBase → option O → bool) k
    (object : option O) : klock * option CcRequestBase :=
  take_blocked (λ req, AblePopBlockRequest req object) k.

(** [AbortBlockRequest]: the first parked command of the transaction is aborted. *)
Definition AbortBlockRequest k (txid : Z) : klock * option CcRequestBase :=
  take_blocked (λ req, bool_decide (Txn req = txid)) k.
End key_lock.

Section blocked.
Context {Q QB C O : Type} `{!QueueOps QB CcRequestBase, !QueueSpec QB CcRequestBase}.
Implicit Types (q : QB) (k : KeyGapLock Q QB C O).

Lemma find_blocked_spec (f : CcRequestBase → bool) n i q :
  q_ok q → n + i = length (q_list q) →
  match find_blocked f n i q with
  | Some (j, req) =>
      i ≤ j ∧ q_list q !! j = Some req ∧ f req = true ∧
      ∀ j' r, i ≤ j' < j → q_list q !! j' = Some r → f r = false
  | None => ∀ j' r, i ≤ j' → q_list q !! j' = Some r → f r = false
  end.
Proof.
  intros Hq. revert i. induction n as [|n IH]; intros i Hn; cbn.
  { intros j' r Hj Hr. apply lookup_lt_Some in Hr. lia. }
  rewrite q_get_spec by (done || lia).
  destruct (lookup_lt_is_Some_2 (q_list q) i) as [x Hx]; [lia|]. rewrite Hx.
  destruct (f x) eqn:Hf; [split_and!; [lia|done|done|]; intros; lia|].
  specialize (IH (S i) ltac:(lia)).
  destruct (find_blocked f n (S i) q) as [[j req]|].
  - destruct IH as (? & ? & ? & Hlt). split_and!; [lia|done|done|].
    intros j' r Hj Hr. destruct (decide (j' = i)) as [->|]; [congruence|].
    eapply Hlt; [|done]. lia.
  - intros j' r Hj Hr. destruct (decide (j' = i)) as [->|]; [congruence|]. eapply IH; [|done]. lia.
Qed.

(** At most one request leaves, the first that fits; the others keep their
    order. *)
Lemma take_blocked_spec (f : CcRequestBase → bool) k :
  q_ok (queue_block_cmds_ k) →
  let l := q_list (queue_block_cmds_ k) in
  let '(k', r) := take_blocked f k in
  match r with
  | Some req =>
      ∃ before after, l = before ++ req :: after ∧ f req = true ∧
        Forall (λ x, f x = false) before ∧
        q_ok (queue_block_cmds_ k') ∧ q_list (queue_block_cmds_ k') = before ++ after
  | None => k' = k ∧ Forall (λ x, f x = false) l
  end.
Proof.
  intros Hq l. unfold take_blocked.
  pose proof (find_blocked_spec f (q_size (queue_block_cmds_ k)) 0 (queue_block_cmds_ k) Hq) as Hf.
  rewrite q_size_spec in * by done. specialize (Hf ltac:(lia)).
  destruct (find_blocked _ _ _ _) as [[j req]|]; cbn.
  - destruct Hf as (_ & Hj & Hr & Hlt). exists (take j l), (drop (S j) l).
    assert (j < length l) by by eapply lookup_lt_Some.
    split_and!; [by rewrite take_drop_middle|done| |by apply q_erase_ok|by rewrite q_erase_spec].
    apply Forall_lookup. intros i x Hx.
    assert (i < j) by (apply lookup_lt_Some in Hx; rewrite length_take in Hx; lia).
    rewrite lookup_take_lt in Hx by done. eapply (Hlt i); [lia|done].
  - split; [done|]. apply Forall_lookup. intros i x Hx. eapply (Hf i); [lia|done].
Qed.
End blocked.
