(* ===== verification/LockArray.v ===== *)
(** * The lock array of a shard

    A shard owns the lock structures of its entries in [lock_vec_] and lends
    them out: [NewLock] takes a free slot, doubling the array when there is
    none, and [TryResizeLockArray] gives memory back once the array is sparse,
    moving the structures still in use to lower slots.  Entries keep plain
    pointers to the structures, so the array is modelled with a heap: a slot
    holds a pointer, and destroying a structure removes it from the heap.
    Source: [src/cc/cc_shard.cpp]. *)

From S2P Require Import Prelude CcProtocol Queue CircularQueue NonBlockingLock CcEntry TxCommand KeyLock.

#[export] Instance CcRequestBase_inhabited : Inhabited CcRequestBase := populate (mkReq 0 0).

Abbreviation lock_queue := (CircularQueue LockQueueEntry).
Abbreviation block_queue := (CircularQueue CcRequestBase).

Definition LOCK_VECTOR_SHRINK_THRESHOLD : Z := 2.
Definition RESIZE_LOCK_LIMIT : Z := 3.
Definition LOCK_ARRAY_INIT_SIZE : Z := 8192.

Record LockArray (C O : Type) := mkLockArray {
  lock_heap : gmap Z (KeyGapLock lock_queue block_queue C O);
  lock_vec_ : list Z;
  next_lock_idx_ : nat;
  used_lock_count_ : Z;
  lock_sparse_num_ : Z;
}.
Arguments mkLockArray {_ _}.
Arguments lock_heap {_ _}.
Arguments lock_vec_ {_ _}.
Arguments next_lock_idx_ {_ _}.
Arguments used_lock_count_ {_ _}.
Arguments lock_sparse_num_ {_ _}.

Section lock_array.
Context {C O : Type}.
(** The memory allocator: an address that is not in the given set. *)
Context (alloc : gset Z → Z).
Abbreviation klock := (KeyGapLock lock_queue block_queue C O).
Abbreviation heap := (gmap Z klock).
Implicit Types (a : LockArray C O) (h : heap) (vec : list Z).

(** A constructed structure.  The lock's [write_lk_type_] and [wlock_ts_] have no
    initialiser; [NewLock] resets the lock before its first use. *)
Definition KeyGapLock_new : klock :=
  mkKeyGapLock new_lock false 0 0 0 0 None None NonExistent (CircularQueue_new 8) [] 0.

Definition set_heap a h : LockArray C O :=
  mkLockArray h (lock_vec_ a) (next_lock_idx_ a) (used_lock_count_ a) (lock_sparse_num_ a).
Definition set_used_count a (n : Z) : LockArray C O :=
  mkLockArray (lock_heap a) (lock_vec_ a) (next_lock_idx_ a) n (lock_sparse_num_ a).

(** ** [NewLock] *)

(** Circular iteration: the first free slot from [idx] on, within [n] steps. *)
Fixpoint find_unused (used : nat → bool) (size n idx : nat) : option nat :=
  match n with
  | 0 => None
  | S n =>
      if used idx
      then find_unused used size n (if decide (size <= S idx) then 0 else S idx)
      else Some idx
  end.

Definition slot_used h vec (i : nat) : bool :=
  match vec !! i ≫= λ p, h !! p with Some k => in_use_ k | None => true end.

(** [n] times [lock_vec_.emplace_back(std::make_unique<...>())]. *)
Fixpoint emplace_locks (n : nat) h vec : heap * list Z :=
  match n with
  | 0 => (h, vec)
  | S n =>
      let p := alloc ({[0%Z]} ∪ dom h) in
      emplace_locks n (<[p := KeyGapLock_new]> h) (vec ++ [p])
  end.

(** The pointer and the array; [None] where [at] throws. *)
Definition NewLock (ts_base : Z) a (ccm page entry : Z) : option (Z * LockArray C O) :=
  let size := length (lock_vec_ a) in
  let '(h, vec, idx) :=
    match find_unused (slot_used (lock_heap a) (lock_vec_ a)) size size (next_lock_idx_ a) with
    | Some idx => (lock_heap a, lock_vec_ a, idx)
    | None =>
        let new_size := size * 2 in
        let '(h, vec) := emplace_locks (new_size - size) (lock_heap a) (lock_vec_ a) in
        (h, vec, size)
    end in
  p ← vec !! idx;
  k ← h !! p;
  let lk := SetUsedStatus ts_base (KeyGapLock_Reset k ccm page entry) true in
  Some (p,
    mkLockArray (<[p := lk]> h) vec (if decide (S idx = length vec) then 0 else S idx)
      (used_lock_count_ a + 1) (lock_sparse_num_ a)).

Definition DecreaseLockCount a : LockArray C O := set_used_count a (used_lock_count_ a - 1).

(** ** [TryResizeLockArray] *)

Definition slot_safe (ts_base : Z) h vec (i : nat) : bool :=
  match vec !! i ≫= λ p, h !! p with Some k => SafeToRecycle ts_base k | None => false end.

(** [while (low_idx < high_idx && !lock_vec_[low_idx]->SafeToRecycle())]; [n] is
    [high_idx - low_idx]. *)
Fixpoint find_safe (safe : nat → bool) (n low : nat) : nat :=
  match n with
  | 0 => low
  | S n => if safe low then low else find_safe safe n (S low)
  end.

(** [lock_vec_[low] = std::move(lock_vec_[high])]: the structure in [low] is
    destroyed and slot [high] becomes null. *)
Definition move_slot h vec (high low : nat) : heap * list Z :=
  let p := default 0%Z (vec !! high) in
  let old := default 0%Z (vec !! low) in
  (delete old h, <[high := 0%Z]> (<[low := p]> vec)).

Fixpoint shrink_loop (ts_base : Z) (new_size low high : nat) h vec : heap * list Z * nat :=
  match high with
  | 0 => (h, vec, 0)
  | S high' =>
      if decide (new_size <= high /\ low < high) then
        if slot_safe ts_base h vec high
        then shrink_loop ts_base new_size low high' h vec
        else
          let low1 := find_safe (slot_safe ts_base h vec) (high - low) low in
          if decide (low1 = high) then (h, vec, high)
          else
            let '(h1, vec1) := move_slot h vec high low1 in
            shrink_loop ts_base new_size (S low1) high' h1 vec1
      else (h, vec, high)
  end.

(** [lock_vec_.resize(n)] for a smaller [n]: the structures beyond are destroyed. *)
Definition resize_down (n : nat) h vec : heap * list Z :=
  (foldr delete h (drop n vec), take n vec).

Definition TryResizeLockArray (ts_base : Z) a : LockArray C O :=
  let size := Z.of_nat (length (lock_vec_ a)) in
  if bool_decide (LOCK_ARRAY_INIT_SIZE < size)%Z &&
     bool_decide (used_lock_count_ a < Z.shiftr size LOCK_VECTOR_SHRINK_THRESHOLD)%Z then
    if decide (lock_sparse_num_ a < RESIZE_LOCK_LIMIT)%Z then
      mkLockArray (lock_heap a) (lock_vec_ a) (next_lock_idx_ a) (used_lock_count_ a)
        (lock_sparse_num_ a + 1)
    else
      let new_size_expect := Z.to_nat (Z.shiftr size (LOCK_VECTOR_SHRINK_THRESHOLD - 1)) in
      let '(h, vec, high) :=
        shrink_loop ts_base new_size_expect 0 (length (lock_vec_ a) - 1)
          (lock_heap a) (lock_vec_ a) in
      let '(h1, vec1) := resize_down (S high) h vec in
      mkLockArray h1 vec1
        (if decide (length vec1 <= next_lock_idx_ a) then 0 else next_lock_idx_ a)
        (used_lock_count_ a) 0
  else a.
End lock_array.

(** ** The array is well formed *)

Section array_wf.
Context {C O : Type}.
Abbreviation klock := (KeyGapLock lock_queue block_queue C O).
Implicit Types (a : LockArray C O) (h : gmap Z klock) (vec : list Z).

(** The slots hold distinct pointers, to all the live structures. *)
Record slots_ok h vec : Prop := {
  so_nodup : NoDup vec;
  so_null : 0%Z ∉ vec;
  so_live : ∀ p, p ∈ vec ↔ is_Some (h !! p);
}.

Record array_ok a : Prop := {
  ao_slots : slots_ok (lock_heap a) (lock_vec_ a);
  ao_next : next_lock_idx_ a < length (lock_vec_ a);
}.

Lemma slots_insert h vec p k :
  slots_ok h vec → is_Some (h !! p) → slots_ok (<[p := k]> h) vec.
Proof.
  intros [Hn H0 Hl] Hp. split; [done|done|]. intros p'.
  rewrite Hl, lookup_insert_is_Some. destruct (decide (p = p')); naive_solver.
Qed.
End array_wf.

Section array_ok.
Context {C O : Type} (alloc : gset Z → Z).
Hypothesis alloc_fresh : ∀ X, alloc X ∉ X.
Abbreviation klock := (KeyGapLock lock_queue block_queue C O).
Abbreviation heap := (gmap Z klock).
Implicit Types (a : LockArray C O) (h : heap) (vec : list Z).

Lemma find_unused_Some used size n idx i :
  find_unused used size n idx = Some i → idx < size → i < size ∧ used i = false.
Proof.
  revert idx. induction n as [|n IH]; intros idx; cbn; [done|].
  destruct (used idx) eqn:E; [|naive_solver].
  intros H ?. apply IH in H; [done|]. case_decide; lia.
Qed.

(** The scan visits [n] consecutive slots, wrapping around. *)
Lemma find_unused_None used size n idx j :
  find_unused used size n idx = None → idx < size → j < n → used ((idx + j) mod size) = true.
Proof.
  revert idx j. induction n as [|n IH]; intros idx j; cbn; [lia|].
  destruct (used idx) eqn:E; [|done]. intros H Hi Hj.
  destruct j as [|j]; [rewrite Nat.add_0_r, Nat.mod_small by lia; done|].
  case_decide as Hs.
  - assert (S idx = size) as <- by lia.
    rewrite <-(IH 0 j H ltac:(lia) ltac:(lia)). f_equal.
    replace (idx + S j) with (0 + j + 1 * S idx) by lia. by rewrite Nat.Div0.mod_add.
  - replace (idx + S j) with (S idx + j) by lia. apply IH; [done|lia|lia].
Qed.

Lemma find_unused_full used size idx i :
  find_unused used size size idx = None → idx < size → i < size → used i = true.
Proof.
  intros H Hi Hj. destruct (decide (idx ≤ i)).
  - pose proof (find_unused_None used size size idx (i - idx) H Hi ltac:(lia)) as Hu.
    by rewrite (Nat.mod_small (idx + (i - idx))), Nat.add_sub_assoc, Nat.add_comm, Nat.add_sub in Hu by lia.
  - pose proof (find_unused_None used size size idx (size - idx + i) H Hi ltac:(lia)) as Hu.
    replace (idx + (size - idx + i)) with (i + 1 * size) in Hu by lia.
    rewrite Nat.Div0.mod_add, Nat.mod_small in Hu by lia. done.
Qed.

Lemma alloc_ptr h : h !! alloc ({[0%Z]} ∪ dom h) = None ∧ alloc ({[0%Z]} ∪ dom h) ≠ 0%Z.
Proof.
  pose proof (alloc_fresh ({[0%Z]} ∪ dom h)) as Hf. split; [|set_solver].
  apply not_elem_of_dom. set_solver.
Qed.

Lemma slots_emplace h vec p k :
  slots_ok h vec → h !! p = None → p ≠ 0%Z → slots_ok (<[p := k]> h) (vec ++ [p]).
Proof.
  intros [Hn H0 Hl] Hp Hp0.
  assert (p ∉ vec) as Hpv by (rewrite Hl, Hp; by intros [? ?]).
  split.
  - apply NoDup_app. split_and!; [done|set_solver|apply NoDup_singleton].
  - set_solver.
  - intros p'. rewrite elem_of_app, list_elem_of_singleton, Hl, lookup_insert_is_Some.
    destruct (decide (p = p')); naive_solver.
Qed.

Lemma emplace_locks_spec n h vec h' vec' :
  emplace_locks alloc n h vec = (h', vec') → slots_ok h vec →
  slots_ok h' vec' ∧ length vec' = length vec + n ∧ vec `prefix_of` vec' ∧ h ⊆ h' ∧
  (∀ p k, h' !! p = Some k → h !! p = Some k ∨ h !! p = None ∧ k = KeyGapLock_new) ∧
  (∀ i p, length vec ≤ i → vec' !! i = Some p → h !! p = None).
Proof.
  revert h vec. induction n as [|n IH]; cbn; intros h vec H Hok; simplify_eq.
  { split_and!; [done|lia|done|done|naive_solver|].
    intros i p Hi Hp. apply lookup_lt_Some in Hp. lia. }
  destruct (alloc_ptr h) as [Hp Hp0].
  destruct (IH _ _ H) as (Hok' & Hlen & Hpre & Hsub & Hk & Hnew); [by apply slots_emplace|].
  rewrite length_app in *. cbn in *.
  split_and!; [done|lia|..].
  - etrans; [|done]. by eexists.
  - etrans; [by apply (insert_subseteq h)|done].
  - intros p k Hpk. destruct (Hk p k Hpk) as [Hi|[Hi ->]].
    + apply lookup_insert_Some in Hi as [[<- <-]|[? ?]]; [by right|by left].
    + apply lookup_insert_None in Hi as [? ?]. by right.
  - intros i p Hi Hip. destruct (decide (i = length vec)) as [->|].
    + destruct Hpre as [l ->]. rewrite <-app_assoc in Hip. cbn in Hip.
      rewrite list_lookup_middle in Hip by done. by simplify_eq.
    + pose proof (Hnew i p ltac:(lia) Hip) as Hn.
      by apply lookup_insert_None in Hn as [? ?].
Qed.

(** What [NewLock] hands out: a structure that nobody uses, reset for the
    entry; every other structure is untouched. *)
Lemma NewLock_spec ts_base a ccm page entry :
  array_ok a →
  ∃ p a' k,
    NewLock alloc ts_base a ccm page entry = Some (p, a') ∧ array_ok a' ∧
    lock_heap a' !! p = Some (SetUsedStatus ts_base (KeyGapLock_Reset k ccm page entry) true) ∧
    (lock_heap a !! p = Some k ∧ in_use_ k = false ∨ lock_heap a !! p = None ∧ k = KeyGapLock_new) ∧
    (∀ p' k', p' ≠ p → lock_heap a !! p' = Some k' → lock_heap a' !! p' = Some k') ∧
    (∀ p' k', p' ≠ p → lock_heap a' !! p' = Some k' →
              lock_heap a !! p' = Some k' ∨ k' = KeyGapLock_new) ∧
    used_lock_count_ a' = (used_lock_count_ a + 1)%Z.
Proof.
  intros [Hs Hnx]. unfold NewLock.
  destruct (find_unused _ _ _ _) as [idx|] eqn:E.
  - apply find_unused_Some in E as [Hi Hu]; [|done].
    destruct (lookup_lt_is_Some_2 (lock_vec_ a) idx Hi) as [p Hp].
    destruct (proj1 (so_live _ _ Hs p)) as [k Hk]; [by eapply list_elem_of_lookup_2|].
    unfold slot_used in Hu. rewrite Hp in Hu. cbn in Hu. rewrite Hk in Hu.
    cbn. rewrite Hp. cbn. rewrite Hk. cbn. eexists p, _, k. split; [done|]. cbn.
    split_and!; [split; cbn; [by apply slots_insert|case_decide; lia]
      |by rewrite lookup_insert_eq|by left| | |done].
    + intros p' k' Hne ?. by rewrite lookup_insert_ne.
    + intros p' k' Hne. rewrite lookup_insert_ne by done. by left.
  - destruct (emplace_locks _ _ _) as [h vec] eqn:Eh.
    destruct (emplace_locks_spec _ _ _ _ _ Eh Hs) as (Hok & Hlen & Hpre & Hsub & Hk & Hnew).
    destruct (lookup_lt_is_Some_2 vec (length (lock_vec_ a))) as [p Hp]; [lia|].
    destruct (proj1 (so_live _ _ Hok p)) as [k Hkp]; [by eapply list_elem_of_lookup_2|].
    cbn. rewrite Hp. cbn. rewrite Hkp. cbn. eexists p, _, k. split; [done|]. cbn.
    pose proof (Hnew _ _ (le_n _) Hp) as Hp0.
    split_and!; [split; cbn; [by apply slots_insert|case_decide; lia]
      |by rewrite lookup_insert_eq| | | |done].
    + right. split; [done|]. destruct (Hk p k Hkp) as [?|[_ ?]]; [congruence|done].
    + intros p' k' Hne ?. rewrite lookup_insert_ne by done. by eapply lookup_weaken.
    + intros p' k' Hne. rewrite lookup_insert_ne by done. intros H. naive_solver.
Qed.

(** The array grows only when every structure is lent out. *)
Lemma NewLock_full ts_base a ccm page entry p a' :
  array_ok a → NewLock alloc ts_base a ccm page entry = Some (p, a') →
  length (lock_vec_ a') ≠ length (lock_vec_ a) →
  ∀ p' k, lock_heap a !! p' = Some k → in_use_ k = true.
Proof.
  intros [Hs Hnx] H Hlen p' k Hk. unfold NewLock in H.
  destruct (find_unused _ _ _ _) as [idx|] eqn:E.
  { cbn in H. destruct (lock_vec_ a !! idx) as [q|]; cbn in H; [|done].
    destruct (lock_heap a !! q); cbn in H; by simplify_eq. }
  destruct (list_elem_of_lookup_1 _ _ (proj2 (so_live _ _ Hs p') ltac:(by eexists))) as [i Hi].
  pose proof (find_unused_full _ _ _ i E Hnx (lookup_lt_Some _ _ _ Hi)) as Hu.
  unfold slot_used in Hu. rewrite Hi in Hu. cbn in Hu. by rewrite Hk in Hu.
Qed.

End array_ok.

(** ** Shrinking keeps what is in use *)

Section shrink.
Context {C O : Type}.
Abbreviation klock := (KeyGapLock lock_queue block_queue C O).
Abbreviation heap := (gmap Z klock).
Implicit Types (a : LockArray C O) (h : heap) (vec : list Z).

Lemma find_safe_spec safe n low :
  low ≤ find_safe safe n low ≤ low + n ∧
  (find_safe safe n low < low + n → safe (find_safe safe n low) = true).
Proof.
  revert low. induction n as [|n IH]; intros low; cbn; [lia|].
  destruct (safe low) eqn:E; [split; [lia|done]|].
  destruct (IH (S low)) as [? Hs]. split; [lia|]. intros ?. apply Hs. lia.
Qed.

(** The state of the loop: [h0] is the heap at its start and [keep] says which
    structures may not be destroyed. *)
Record shrinking (keep : klock → Prop) h0 h vec (high : nat) : Prop := {
  sh_high : high < length vec;
  sh_once : ∀ i j p, vec !! i = Some p → vec !! j = Some p → p ≠ 0%Z → i = j;
  sh_low : ∀ i p, i ≤ high → vec !! i = Some p → p ≠ 0%Z ∧ is_Some (h !! p);
  sh_keep : ∀ p k, h0 !! p = Some k → keep k →
            h !! p = Some k ∧ ∃ i, i ≤ high ∧ vec !! i = Some p;
  sh_sub : h ⊆ h0;
  sh_live : ∀ p, is_Some (h !! p) → p ∈ vec;
}.

Lemma shrinking_drop keep h0 h vec high :
  shrinking keep h0 h vec (S high) →
  (∀ p k, vec !! S high = Some p → h !! p = Some k → ¬ keep k) →
  shrinking keep h0 h vec high.
Proof.
  intros [Hh Ho Hl Hk Hs Hv] Hd. split; [lia|done| | |done|done].
  - intros i p Hi. apply Hl. lia.
  - intros p k Hp Hkk. destruct (Hk p k Hp Hkk) as (Hp' & i & Hi & Hip).
    split; [done|]. exists i. split; [|done].
    destruct (decide (i = S high)) as [->|]; [|lia]. by destruct (Hd p k Hip Hp').
Qed.

Lemma shrinking_move keep h0 h vec high low :
  shrinking keep h0 h vec (S high) → low < S high →
  (∀ p k, vec !! low = Some p → h !! p = Some k → ¬ keep k) →
  shrinking keep h0 (move_slot h vec (S high) low).1 (move_slot h vec (S high) low).2 high.
Proof.
  intros [Hh Ho Hl Hk Hs Hv] Hlow Hd. unfold move_slot. cbn [fst snd].
  destruct (lookup_lt_is_Some_2 vec (S high) Hh) as [p Hp].
  destruct (lookup_lt_is_Some_2 vec low ltac:(lia)) as [old Hold].
  rewrite Hp, Hold. cbn [from_option id].
  destruct (Hl _ _ (le_n _) Hp) as [Hp0 Hph].
  destruct (Hl low old ltac:(lia) Hold) as [Hold0 _].
  assert (p ≠ old) as Hne by (intros ->; assert (S high = low) by (by eapply Ho); lia).
  assert (∀ i q, <[S high := 0%Z]> (<[low := p]> vec) !! i = Some q → q ≠ 0%Z →
    i = low ∧ q = p ∨ i ≠ low ∧ i ≠ S high ∧ vec !! i = Some q) as Hinv.
  { intros i q Hi Hq. destruct (decide (i = S high)) as [->|].
    - rewrite list_lookup_insert_eq in Hi by (rewrite length_insert; lia). by simplify_eq.
    - rewrite list_lookup_insert_ne in Hi by lia. destruct (decide (i = low)) as [->|].
      + rewrite list_lookup_insert_eq in Hi by lia. left. by simplify_eq.
      + rewrite list_lookup_insert_ne in Hi by lia. by right. }
  assert (∀ i q, i ≠ low → i ≠ S high → vec !! i = Some q →
    <[S high := 0%Z]> (<[low := p]> vec) !! i = Some q) as Hsame
    by (intros; rewrite !list_lookup_insert_ne by lia; done).
  assert (<[S high := 0%Z]> (<[low := p]> vec) !! low = Some p) as Hlowp
    by (rewrite list_lookup_insert_ne, list_lookup_insert_eq by lia; done).
  split.
  - rewrite !length_insert. lia.
  - intros i j q Hi Hj Hq.
    destruct (Hinv i q Hi Hq) as [[-> ->]|(? & ? & Hi')],
      (Hinv j _ Hj Hq) as [[-> Heq]|(? & ? & Hj')]; simplify_eq; [done|..].
    + assert (j = S high) by by eapply Ho. lia.
    + assert (i = S high) by by eapply Ho. lia.
    + by eapply Ho.
  - intros i q Hi Hiq. destruct (decide (i = low)) as [->|].
    + assert (q = p) as -> by congruence. by rewrite lookup_delete_ne by done.
    + assert (vec !! i = Some q) as Hiq'
        by (rewrite !list_lookup_insert_ne in Hiq by lia; done).
      destruct (Hl i q ltac:(lia) Hiq') as [? ?]. split; [done|].
      rewrite lookup_delete_ne; [done|]. intros <-. assert (i = low) by by eapply Ho. lia.
  - intros q k Hq Hkk. destruct (Hk q k Hq Hkk) as (Hq' & i & Hi & Hiq).
    assert (q ≠ old) by (intros ->; by eapply Hd).
    split; [by rewrite lookup_delete_ne|].
    destruct (decide (i = S high)) as [->|].
    + exists low. split; [lia|]. congruence.
    + exists i. split; [lia|]. apply Hsame; [|done|done]. intros ->. congruence.
  - etrans; [apply delete_subseteq|done].
  - intros q [k [Hqo Hq]%lookup_delete_Some].
    destruct (list_elem_of_lookup_1 _ _ (Hv q ltac:(by eexists))) as [i Hi].
    destruct (decide (i = S high)) as [->|].
    + apply (list_elem_of_lookup_2 _ low). congruence.
    + apply (list_elem_of_lookup_2 _ i). apply Hsame; [|done|done]. intros ->. congruence.
Qed.

Lemma slot_safe_keep ts_base h vec i p k :
  slot_safe ts_base h vec i = true → vec !! i = Some p → h !! p = Some k →
  ¬ SafeToRecycle ts_base k = false.
Proof. unfold slot_safe. intros Hs Hp Hk. rewrite Hp in Hs. cbn in Hs. rewrite Hk in Hs. congruence. Qed.

Lemma shrink_loop_spec ts_base new_size low high h0 h vec h' vec' high' :
  shrink_loop ts_base new_size low high h vec = (h', vec', high') →
  shrinking (λ k, SafeToRecycle ts_base k = false) h0 h vec high →
  shrinking (λ k, SafeToRecycle ts_base k = false) h0 h' vec' high'.
Proof.
  revert low h vec. induction high as [|high IH]; intros low h vec H Hs; cbn in H; [by simplify_eq|].
  destruct (decide _) as [[Hns Hlow]|]; [|by simplify_eq].
  destruct (slot_safe ts_base h vec (S high)) eqn:E.
  { eapply IH; [done|]. apply shrinking_drop; [done|]. intros p k ? ?. by eapply slot_safe_keep. }
  destruct (find_safe_spec (slot_safe ts_base h vec) (S high - low) low) as [Hr Hsafe].
  change (match low with 0 => S high | S l => high - l end) with (S high - low) in H.
  set (low1 := find_safe _ _ _) in *. clearbody low1.
  destruct (decide (low1 = S high)); [by simplify_eq|].
  pose proof (shrinking_move _ _ _ _ _ low1 Hs ltac:(lia)) as Hm.
  eapply IH; [done|]. apply Hm. intros p k ? ?. eapply slot_safe_keep; [apply Hsafe; lia|done|done].
Qed.

Lemma foldr_delete_lookup (l : list Z) h p :
  foldr delete h l !! p = if decide (p ∈ l) then None else h !! p.
Proof.
  induction l as [|q l IH]; cbn; [by rewrite decide_False by set_solver|].
  destruct (decide (p = q)) as [->|].
  - rewrite lookup_delete_eq, decide_True by set_solver. done.
  - rewrite lookup_delete_ne, IH by done. repeat case_decide; set_solver.
Qed.

Lemma shrinking_resize keep h0 h vec high :
  shrinking keep h0 h vec high →
  let '(h', vec') := resize_down (S high) h vec in
  slots_ok h' vec' ∧ length vec' = S high ∧ h' ⊆ h0 ∧
  (∀ p k, h0 !! p = Some k → keep k → h' !! p = Some k).
Proof.
  intros [Hh Ho Hl Hk Hs Hv]. unfold resize_down.
  assert (∀ i p, take (S high) vec !! i = Some p → i ≤ high ∧ vec !! i = Some p) as Ht.
  { intros i p [Hp Hi]%lookup_take_Some. split; [lia|done]. }
  assert (∀ i p, i ≤ high → vec !! i = Some p → p ∉ drop (S high) vec) as Hd.
  { intros i p Hi Hp [j Hj]%list_elem_of_lookup_1. rewrite lookup_drop in Hj.
    destruct (Hl i p Hi Hp) as [Hp0 _]. pose proof (Ho _ _ _ Hp Hj Hp0). lia. }
  split_and!.
  - split.
    + apply NoDup_alt. intros i j p [Hi Hp]%Ht [Hj Hp']%Ht.
      eapply Ho; [done|done|]. by destruct (Hl i p Hi Hp).
    + intros [i [Hi Hp]%Ht]%list_elem_of_lookup_1. by destruct (Hl _ _ Hi Hp).
    + intros p. rewrite foldr_delete_lookup. split.
      * intros [i [Hi Hp]%Ht]%list_elem_of_lookup_1. rewrite decide_False by by eapply Hd.
        by destruct (Hl _ _ Hi Hp).
      * case_decide as Hp; [by intros [? ?]|]. intros Hi%Hv.
        rewrite <-(take_drop (S high) vec) in Hi. set_solver.
  - rewrite length_take. lia.
  - apply map_subseteq_spec. intros p k. rewrite foldr_delete_lookup.
    case_decide; [done|]. intros ?. by eapply lookup_weaken.
  - intros p k Hp Hkk. destruct (Hk p k Hp Hkk) as (? & i & Hi & Hip).
    rewrite foldr_delete_lookup, decide_False by by eapply Hd. done.
Qed.

(** Resizing destroys no structure that is in use, and the slots stay well
    formed. *)
Lemma TryResizeLockArray_spec ts_base a :
  array_ok a →
  array_ok (TryResizeLockArray ts_base a) ∧
  lock_heap (TryResizeLockArray ts_base a) ⊆ lock_heap a ∧
  used_lock_count_ (TryResizeLockArray ts_base a) = used_lock_count_ a ∧
  (∀ p k, lock_heap a !! p = Some k → in_use_ k = true →
          lock_heap (TryResizeLockArray ts_base a) !! p = Some k).
Proof.
  intros Ha. pose proof Ha as [[Hn H0 Hl] Hnx]. unfold TryResizeLockArray.
  destruct (_ && _); [|done]. case_decide; [by split_and!; [split; [split|]|..]|].
  destruct (shrink_loop _ _ _ _ _ _) as [[h vec] high] eqn:E.
  eapply shrink_loop_spec in E; [apply shrinking_resize in E|].
  - destruct (resize_down (S high) h vec) as [h1 vec1].
    destruct E as (Hok & Hlen & Hsub & Hkeep). cbn.
    split_and!; [split; cbn; [done|case_decide; lia]|done|done|].
    intros p k Hp Hu. apply Hkeep; [done|]. unfold SafeToRecycle. by rewrite Hu.
  - assert (length (lock_vec_ a) - 1 < length (lock_vec_ a)) by lia. split; [done|..|done|].
    + intros i j p Hi Hj _. by eapply NoDup_lookup.
    + intros i p _ Hp%list_elem_of_lookup_2. split; [by intros ->|by apply Hl].
    + intros p k Hp _. split; [done|].
      destruct (list_elem_of_lookup_1 _ _ (proj2 (Hl p) ltac:(by eexists))) as [i Hi].
      exists i. split; [|done]. apply lookup_lt_Some in Hi. lia.
    + intros p Hp. by apply Hl.
Qed.
End shrink.
