(* ===== verification/ShardLocks.v ===== *)
(** * Locks of a shard ([CcShard], [CcMap], [LruEntry])

    A shard runs on one thread.  Its entries borrow lock structures from the
    lock array, transactions acquire and release locks on entries through the
    cc map, and [lock_holding_txs_] records for every transaction the entries
    it has locked: recovery, failover and deadlock detection find the locks of a
    transaction there, so a lock that is held must be recorded.
    Source: [src/cc/cc_map.cpp], [src/cc/cc_shard.cpp], [include/cc/cc_shard.h],
    [src/cc/cc_entry.cpp].

    The shard is passed explicitly.  A request that a lock operation hands back
    to the shard ([ccs->Enqueue]) is put in [cc_queue_] together with the entry
    it was blocked on, which the request remembers; a message that
    [Sharder::RecoverTx] sends is put in [recover_sent].  A function returns
    [None] where the source would throw or follow a null pointer. *)

From S2P Require Import Prelude CcProtocol Queue CircularQueue NonBlockingLock CcEntry TxCommand.
From S2P Require Import DeadLockCheck KeyLock LockArray.

(** [TxLockInfo]. *)
Record TxLockInfo := mkTxLockInfo {
  tx_coord_term_ : Z;
  tx_wlock_ts_ : Z;
  last_recover_ts_ : Z;
  cce_list_ : gset Z;
  table_type_ : TableType;
}.

(** The arguments of [Sharder::RecoverTx]. *)
Record RecoverMsg := mkRecover {
  rc_lock_tx : Z; rc_tx_coord_term : Z; rc_wlock_ts : Z; rc_cc_ng_id : Z; rc_cc_ng_term : Z;
}.

(** [cc_lock_and_extra_] maps an entry to its lock structure; an entry whose
    pointer is null is not in the map. *)
Record CcShard (C O : Type) := mkShard {
  cc_lock_and_extra_ : gmap Z Z;
  lock_array : LockArray C O;
  lock_holding_txs_ : gmap Z (gmap Z TxLockInfo);
  cc_queue_ : list (Z * CcRequestBase);
  buffered_cmd_cnt_ : Z;
  ts_base_ : Z;
  recover_sent : list RecoverMsg;
}.
Arguments mkShard {_ _}.
Arguments cc_lock_and_extra_ {_ _}.
Arguments lock_array {_ _}.
Arguments lock_holding_txs_ {_ _}.
Arguments cc_queue_ {_ _}.
Arguments buffered_cmd_cnt_ {_ _}.
Arguments ts_base_ {_ _}.
Arguments recover_sent {_ _}.

Section shard.
Context {C O : Type} (alloc : gset Z → Z).
(** [Sharder::LeaderTerm]: the term of this node as leader of a node group. *)
Context (leader_term : Z → Z).
Abbreviation klock := (KeyGapLock lock_queue block_queue C O).
Abbreviation shard := (CcShard C O).
Implicit Types (s : shard) (k : klock) (req : CcRequestBase).

Definition set_locks s (m : gmap Z Z) (a : LockArray C O) : shard :=
  mkShard m a (lock_holding_txs_ s) (cc_queue_ s) (buffered_cmd_cnt_ s) (ts_base_ s)
    (recover_sent s).
Definition set_holding s (m : gmap Z (gmap Z TxLockInfo)) : shard :=
  mkShard (cc_lock_and_extra_ s) (lock_array s) m (cc_queue_ s) (buffered_cmd_cnt_ s) (ts_base_ s)
    (recover_sent s).
Definition set_cc_queue s (q : list (Z * CcRequestBase)) : shard :=
  mkShard (cc_lock_and_extra_ s) (lock_array s) (lock_holding_txs_ s) q (buffered_cmd_cnt_ s)
    (ts_base_ s) (recover_sent s).
Definition set_buffered_cnt s (n : Z) : shard :=
  mkShard (cc_lock_and_extra_ s) (lock_array s) (lock_holding_txs_ s) (cc_queue_ s) n (ts_base_ s)
    (recover_sent s).
Definition set_recover s (l : list RecoverMsg) : shard :=
  mkShard (cc_lock_and_extra_ s) (lock_array s) (lock_holding_txs_ s) (cc_queue_ s)
    (buffered_cmd_cnt_ s) (ts_base_ s) l.

Definition Now s : Z := ts_base_ s.

(** The timestamp only moves forward. *)
Definition UpdateTsBase s (timestamp : Z) : shard :=
  mkShard (cc_lock_and_extra_ s) (lock_array s) (lock_holding_txs_ s) (cc_queue_ s)
    (buffered_cmd_cnt_ s) (if decide (ts_base_ s < timestamp)%Z then timestamp else ts_base_ s)
    (recover_sent s).

Definition UpdateBufferedCommandCnt s (delta : Z) : shard :=
  set_buffered_cnt s (buffered_cmd_cnt_ s + delta).

(** ** The lock of an entry *)

Definition GetKeyLock s (cce : Z) : option klock :=
  p ← cc_lock_and_extra_ s !! cce; lock_heap (lock_array s) !! p.

(** An assignment through the entry's pointer. *)
Definition put_lock s (cce : Z) k : shard :=
  match cc_lock_and_extra_ s !! cce with
  | None => s
  | Some p =>
      set_locks s (cc_lock_and_extra_ s)
        (set_heap (lock_array s) (<[p := k]> (lock_heap (lock_array s))))
  end.

Definition GetOrCreateKeyLock s (ccm page cce : Z) : option (klock * shard) :=
  match cc_lock_and_extra_ s !! cce with
  | Some p => k ← lock_heap (lock_array s) !! p; Some (k, s)
  | None =>
      r ← NewLock alloc (Now s) (lock_array s) ccm page cce;
      let '(p, a) := r in
      k ← lock_heap a !! p;
      Some (k, set_locks s (<[cce := p]> (cc_lock_and_extra_ s)) a)
  end.

(** [cc_lock_and_extra_->SetUsedStatus(false)], [DecreaseLockCount] and
    [cc_lock_and_extra_ = nullptr]. *)
Definition return_lock s (cce : Z) k : shard :=
  let s1 := put_lock s cce (SetUsedStatus (Now s) k false) in
  set_locks s1 (delete cce (cc_lock_and_extra_ s1)) (DecreaseLockCount (lock_array s1)).

Definition RecycleKeyLock s (cce : Z) : bool * shard :=
  match GetKeyLock s cce with
  | Some k => if KeyGapLock_IsEmpty k then (true, return_lock s cce k) else (false, s)
  | None => (false, s)
  end.

(** The lock of [cce] becomes [lk], and [reqs] are enqueued to the shard. *)
Definition put_key_lock s (cce : Z) k (lk : NonBlockingLock lock_queue)
    (reqs : list CcRequestBase) : shard :=
  let s1 := put_lock s cce (set_key_lock k lk) in
  set_cc_queue s1 (cc_queue_ s1 ++ ((λ r, (cce, r)) <$> reqs)).

(** ** The transactions that hold locks *)

Definition tx_info s (ng txn : Z) : option TxLockInfo := lock_holding_txs_ s !! ng ≫= (.!! txn).

Definition put_info s (ng txn : Z) (info : TxLockInfo) : shard :=
  set_holding s (<[ng := <[txn := info]> (default ∅ (lock_holding_txs_ s !! ng))]>
                   (lock_holding_txs_ s)).

Definition UpsertLockHoldingTx s (txn tx_term cce : Z) (is_key_write_lock : bool) (cc_ng_id : Z)
    (table_type : TableType) : shard :=
  let info := default (mkTxLockInfo tx_term 0 0 ∅ Primary) (tx_info s cc_ng_id txn) in
  put_info s cc_ng_id txn
    (mkTxLockInfo (tx_coord_term_ info)
       (if is_key_write_lock then Now s else tx_wlock_ts_ info)
       (Now s) ({[cce]} ∪ cce_list_ info) table_type).

Definition DeleteLockHoldingTx s (txn cce cc_ng_id : Z) : shard :=
  match tx_info s cc_ng_id txn with
  | None => s
  | Some info =>
      let l := cce_list_ info ∖ {[cce]} in
      if decide (l = ∅) then
        set_holding s (<[cc_ng_id := delete txn (default ∅ (lock_holding_txs_ s !! cc_ng_id))]>
                         (lock_holding_txs_ s))
      else
        put_info s cc_ng_id txn
          (mkTxLockInfo (tx_coord_term_ info) (tx_wlock_ts_ info) (last_recover_ts_ info) l
             (table_type_ info))
  end.

(** Five seconds. *)
Definition recover_ts_gap : Z := 5000000.

(** A transaction that has held a lock for long is reported to its coordinator. *)
Definition CheckRecoverTx s (lock_holding_txn cc_ng_id cc_ng_term : Z) : shard :=
  match tx_info s cc_ng_id lock_holding_txn with
  | None => s
  | Some lk_info =>
      if decide (recover_ts_gap <= u64 (Now s - last_recover_ts_ lk_info))%Z then
        let s1 :=
          put_info s cc_ng_id lock_holding_txn
            (mkTxLockInfo (tx_coord_term_ lk_info) (tx_wlock_ts_ lk_info) (Now s)
               (cce_list_ lk_info) (table_type_ lk_info)) in
        if decide (0 < leader_term cc_ng_id)%Z then
          set_recover s1
            (recover_sent s1 ++
             [mkRecover lock_holding_txn (tx_coord_term_ lk_info) (tx_wlock_ts_ lk_info)
                cc_ng_id cc_ng_term])
        else s1
      else s
  end.

(** ** [CcMap]: acquiring *)

Definition RecoverTxForLockConfilct s (lock : NonBlockingLock lock_queue) (lock_type : LockType)
    (ng_id ng_term : Z) : shard :=
  match lock_type with
  | WriteLock =>
      if decide (write_lk_type_ lock = NoWritelock) then
        foldl (λ s read_tx, CheckRecoverTx s read_tx ng_id ng_term) s (elements (read_locks_ lock))
      else CheckRecoverTx s (write_txn_ lock) ng_id ng_term
  | WriteIntent =>
      if decide (write_lk_type_ lock = NoWritelock) then s
      else CheckRecoverTx s (write_txn_ lock) ng_id ng_term
  | ReadLock =>
      if HasWriteLock lock then CheckRecoverTx s (WriteLockTx lock) ng_id ng_term else s
  | _ => s
  end.

(** The reader of a locked entry looks after the writer. *)
Definition check_writer s (lock : option (NonBlockingLock lock_queue)) (tx_number ng_id ng_term : Z)
    : shard :=
  match lock with
  | Some lk =>
      if HasWriteLock lk && bool_decide (WriteLockTx lk ≠ tx_number)
      then CheckRecoverTx s (WriteLockTx lk) ng_id ng_term else s
  | None => s
  end.

(** The part of [AcquireCceKeyLock] that calls [AcquireLock]. *)
Definition acquire_key_lock s (cce page : Z) req (ng_id ng_term tx_term : Z) (lock_type : LockType)
    (protocol : CcProtocol) (lock_ccm : Z) (tbl : TableType)
    : option (LockType * CcErrorCode * shard) :=
  r ← GetOrCreateKeyLock s lock_ccm page cce;
  let '(k, s1) := r in
  let '(status, lk) := AcquireLock (key_lock_ k) req protocol lock_type in
  let s2 := put_key_lock s1 cce k lk [] in
  match status with
  | Successful =>
      let s3 :=
        UpsertLockHoldingTx s2 (Txn req) tx_term cce (bool_decide (lock_type = WriteLock)) ng_id
          tbl in
      Some (lock_type, NO_ERROR, check_writer s3 (Some lk) (Txn req) ng_id ng_term)
  | Failed =>
      let s3 := RecoverTxForLockConfilct s2 lk lock_type ng_id ng_term in
      let err :=
        if bool_decide (lock_type = WriteLock) && bool_decide (write_lk_type_ lk = NoWritelock)
        then ACQUIRE_KEY_LOCK_FAILED_FOR_RW_CONFLICT
        else ACQUIRE_KEY_LOCK_FAILED_FOR_WW_CONFLICT in
      Some (lock_type, err, s3)
  | Blocked =>
      let s3 := RecoverTxForLockConfilct s2 lk lock_type ng_id ng_term in
      Some (lock_type, ACQUIRE_LOCK_BLOCKED, s3)
  end.

(** A snapshot read waits for a writer that locked the entry before the
    snapshot: the lock that makes it wait. *)
Definition must_wait_write s (cce : Z) (cc_op : CcOperation) (iso_level : IsolationLevel)
    (read_ts : Z) : option klock :=
  if bool_decide (iso_level = Snapshot) &&
     (bool_decide (cc_op = Read) || bool_decide (cc_op = ReadSkIndex)) then
    k ← GetKeyLock s cce;
    if HasWriteLock (key_lock_ k) && bool_decide (WLockTs (key_lock_ k) < read_ts)%Z
    then Some k else None
  else None.

(** [ccm] is the cc map the entry belongs to, [tbl] the type of the table of the
    map that handles the request. *)
Definition AcquireCceKeyLock s (cce commit_ts page : Z) (cce_payload_status : RecordStatus) req
    (ng_id ng_term tx_term : Z) (lock_type : LockType) (cc_op : CcOperation)
    (iso_level : IsolationLevel) (protocol : CcProtocol) (read_ts ccm : Z) (tbl : TableType)
    : option (LockType * CcErrorCode * shard) :=
  if bool_decide (iso_level = Snapshot) && bool_decide (cc_op = ReadForWrite) &&
     bool_decide (read_ts < commit_ts)%Z then
    Some (NoLock, MVCC_READ_FOR_WRITE_CONFLICT, s)
  else
    match must_wait_write s cce cc_op iso_level read_ts with
    | Some k =>
        let s1 := put_key_lock s cce k (InsertBlockingQueue (key_lock_ k) req ReadLock) [] in
        Some (NoLock, MVCC_READ_MUST_WAIT_WRITE,
              CheckRecoverTx s1 (WriteLockTx (key_lock_ k)) ng_id ng_term)
    | None =>
        if decide (lock_type = NoLock) then Some (NoLock, NO_ERROR, s)
        else if bool_decide (lock_type = WriteLock) || bool_decide (lock_type = WriteIntent) ||
           bool_decide (cce_payload_status ≠ Deleted) then
          acquire_key_lock s cce page req ng_id ng_term tx_term lock_type protocol ccm tbl
        else
          Some (NoLock, NO_ERROR,
                check_writer s (key_lock_ <$> GetKeyLock s cce) (Txn req) ng_id ng_term)
    end.

(** A request that was blocked and now holds its lock. *)
Definition LockHandleForResumedRequest s (cce commit_ts : Z) (cce_payload_status : RecordStatus)
    req (ng_id tx_term : Z) (cc_op : CcOperation) (iso_level : IsolationLevel)
    (protocol : CcProtocol) (read_ts : Z) (is_covering_keys : bool) (tbl : TableType)
    : option (LockType * CcErrorCode * shard) :=
  let acquired_lock := DeduceLockType cc_op iso_level protocol is_covering_keys in
  k ← GetKeyLock s cce;
  if bool_decide (acquired_lock = ReadLock) && bool_decide (cce_payload_status = Deleted) then
    let '(_, lk, popped) := ReleaseReadLock (key_lock_ k) (Txn req) in
    let s1 := (RecycleKeyLock (put_key_lock s cce k lk popped) cce).2 in
    Some (NoLock, NO_ERROR, DeleteLockHoldingTx s1 (Txn req) cce ng_id)
  else if bool_decide (acquired_lock = WriteIntent) && bool_decide (iso_level = Snapshot) &&
     bool_decide (read_ts < commit_ts)%Z then
    let '(_, lk, popped) := ReleaseWriteIntent (key_lock_ k) (Txn req) in
    let s1 := (RecycleKeyLock (put_key_lock s cce k lk popped) cce).2 in
    Some (NoLock, MVCC_READ_FOR_WRITE_CONFLICT, DeleteLockHoldingTx s1 (Txn req) cce ng_id)
  else
    Some (acquired_lock, NO_ERROR,
          UpsertLockHoldingTx s (Txn req) tx_term cce (bool_decide (acquired_lock = WriteLock))
            ng_id tbl).

(** The resumption of a read that waited for a write ([ReadCc::BlockByPostWrite]):
    the read lock that kept the entry in memory is released. *)
Definition resume_post_write s (cce : Z) req : option shard :=
  k ← GetKeyLock s cce;
  let '(_, lk, popped) := ReleaseReadLock (key_lock_ k) (Txn req) in
  Some (put_key_lock s cce k lk popped).

(** ** [CcMap]: releasing *)

Definition DowngradeCceKeyWriteLock s (cce tx_number : Z) : shard :=
  match GetKeyLock s cce with
  | None => s
  | Some k =>
      let '(lk, popped) := DowngradeWriteLock (key_lock_ k) tx_number in
      put_key_lock s cce k lk popped
  end.

(** The switch of [ReleaseCceLock]: the mode released, the lock and the requests
    popped. *)
Definition unlock (lock : NonBlockingLock lock_queue) (tx_number : Z) (lk_type : LockType)
    : LockType * NonBlockingLock lock_queue * list CcRequestBase :=
  match lk_type with
  | ReadLock =>
      let '(success, lk, popped) := ReleaseReadLock lock tx_number in
      (if success : bool then ReadLock else NoLock, lk, popped)
  | ReadIntent =>
      let '(success, lk) := ReleaseReadIntent lock tx_number in
      (if success : bool then ReadIntent else NoLock, lk, [])
  | WriteLock =>
      let '(success, lk, popped) := ReleaseWriteLock lock tx_number in
      (if success : bool then WriteLock else NoLock, lk, popped)
  | _ => ClearTx lock tx_number
  end.

Definition ReleaseCceLock s (cce tx_number ng_id : Z) (lk_type : LockType) (recycle_lock : bool)
    : shard :=
  match GetKeyLock s cce with
  | None => s
  | Some k =>
      let '(unlock_type, lk, popped) := unlock (key_lock_ k) tx_number lk_type in
      if decide (unlock_type = NoLock) then put_key_lock s cce k lk popped
      else
        let lk1 := if decide (unlock_type = WriteLock) then SetWLockTs lk 0 else lk in
        let s1 := DeleteLockHoldingTx (put_key_lock s cce k lk1 popped) tx_number cce ng_id in
        if recycle_lock then (RecycleKeyLock s1 cce).2 else s1
  end.

(** ** [CcShard]: all locks of a transaction *)

(** One entry of [CcShard::ClearTx]. [keep_catalog] is [FLAGS_cmd_read_catalog]
    in an object store. *)
Definition clear_entry (keep_catalog : bool) (txn : Z) (info : TxLockInfo) s (cce : Z) : shard :=
  match GetKeyLock s cce with
  | None => s
  | Some k =>
      let '(lt, lk, popped) := ClearTx (key_lock_ k) txn in
      let k1 := if decide (lt = WriteLock) then KeyGapLock_ClearTx k else k in
      let s1 := put_key_lock s cce k1 lk popped in
      if keep_catalog && bool_decide (table_type_ info = Catalog) then s1
      else (RecycleKeyLock s1 cce).2
  end.

Definition clear_group (keep_catalog : bool) (txn : Z) s (ng : Z) : shard :=
  match tx_info s ng txn with
  | None => s
  | Some info =>
      let s1 := foldl (clear_entry keep_catalog txn info) s (elements (cce_list_ info)) in
      set_holding s1 (<[ng := delete txn (default ∅ (lock_holding_txs_ s1 !! ng))]>
                        (lock_holding_txs_ s1))
  end.

Definition CcShard_ClearTx (keep_catalog : bool) s (txn : Z) : shard :=
  foldl (clear_group keep_catalog txn) s (elements (dom (lock_holding_txs_ s))).

(** [LruEntry::ClearLocks], on a failover. *)
Definition ClearLocks s (cce ng_id : Z) : shard * list CcRequestBase :=
  match GetKeyLock s cce with
  | None => (s, [])
  | Some k =>
      let lk := key_lock_ k in
      let s1 :=
        if decide (write_lk_type_ lk = NoWritelock) then s
        else DeleteLockHoldingTx s (write_txn_ lk) cce ng_id in
      let del s txn := DeleteLockHoldingTx s txn cce ng_id in
      let s2 := foldl del s1 (elements (read_locks_ lk)) in
      let s3 := foldl del s2 (elements (read_intentions_ lk)) in
      let '(lk1, aborted) := AbortAllQueuedRequests lk in
      let s4 := UpdateBufferedCommandCnt s3 (- Z.of_nat (length (buffered_cmd_list_ k))) in
      (return_lock s4 cce (KeyGapLock_Reset (set_key_lock k lk1) 0 0 0), aborted)
  end.

(** ** The checkpoint timestamp *)

(** The minimum over the transactions with write locks on data tables. *)
Definition min_write_ts (txs : gmap Z TxLockInfo) : Z :=
  map_fold (λ _ info min_ts,
    if negb (IsMeta (table_type_ info)) && bool_decide (tx_wlock_ts_ info ≠ 0%Z)
    then Z.min min_ts (u64 (tx_wlock_ts_ info - 1)) else min_ts) UINT64_MAX txs.

(** [clock_ts] is the system clock and [standby_term] [StandbyNodeTerm]. *)
Definition ActiveTxMinTs s (cc_ng_id clock_ts standby_term : Z) : Z * shard :=
  let cc_ng_term :=
    if decide (leader_term cc_ng_id < 0)%Z then standby_term else leader_term cc_ng_id in
  let txs := default ∅ (lock_holding_txs_ s !! cc_ng_id) in
  let min_ts := min_write_ts txs in
  let s1 := foldl (λ s txn, CheckRecoverTx s txn cc_ng_id cc_ng_term) s (elements (dom txs)) in
  let '(min_ts1, s2) :=
    if decide (min_ts = UINT64_MAX) then
      let max_ts := Z.max (Now s1) clock_ts in
      (u64 (max_ts - 1), UpdateTsBase s1 max_ts)
    else (min_ts, s1) in
  (min_ts1,
   set_locks s2 (cc_lock_and_extra_ s2) (TryResizeLockArray (Now s2) (lock_array s2))).

(** ** Deadlock detection *)

(** The maps of [CheckDeadLockResult] for this core: entries and counts. *)
Definition collect_entry s (txn : Z) (m : gmap Z EntryLockInfo) (cce : Z) : gmap Z EntryLockInfo :=
  match GetKeyLock s cce with
  | None => m
  | Some k =>
      match GetBlockTxIds (key_lock_ k) txn with
      | [] => m
      | vct =>
          let i := default (mkEntryLockInfo ∅ ∅) (m !! cce) in
          <[cce := mkEntryLockInfo ({[txn]} ∪ lock_txids i) (list_to_set vct ∪ wait_txids i)]> m
      end
  end.

Definition collect_tx s (acc : gmap Z EntryLockInfo * gmap Z Z) (tx : Z * TxLockInfo)
    : gmap Z EntryLockInfo * gmap Z Z :=
  (foldl (collect_entry s tx.1) acc.1 (elements (cce_list_ tx.2)),
   match acc.2 !! tx.1 with
   | Some _ => acc.2
   | None => <[tx.1 := Z.of_nat (size (cce_list_ tx.2))]> acc.2
   end).

Definition holding_list s : list (Z * TxLockInfo) :=
  map_to_list (lock_holding_txs_ s) ≫= λ ng, map_to_list ng.2.

Definition CollectLockWaitingInfo s (dlr : gmap Z EntryLockInfo * gmap Z Z)
    : gmap Z EntryLockInfo * gmap Z Z :=
  foldl (collect_tx s) dlr (holding_list s).

(** [AbortTransactionCc::Execute]: the requests aborted. *)
Definition AbortTransactionCc s (entry_addr tx_id_lock tx_id_wait node_id : Z)
    : shard * list CcRequestBase :=
  match tx_info s node_id tx_id_lock with
  | None => (s, [])
  | Some info =>
      if decide (entry_addr ∈ cce_list_ info) then
        match GetKeyLock s entry_addr with
        | None => (s, [])
        | Some k =>
            let '(lk, aborted) := AbortQueueRequest (key_lock_ k) tx_id_wait in
            (put_key_lock s entry_addr k lk [], aborted)
        end
      else (s, [])
  end.
End shard.

(** ** Memory safety: the locks of the entries *)

Section memory.
Context {C O : Type}.
Abbreviation klock := (KeyGapLock lock_queue block_queue C O).
Abbreviation shard := (CcShard C O).
Implicit Types (s : shard) (k : klock) (m : gmap Z Z) (a : LockArray C O).

(** Every entry with a lock points to a live structure that is in use and
    belongs to it, every structure in use belongs to an entry, and
    [used_lock_count_] counts them.  The locks of all structures are orderly. *)
Record owners_ok m a : Prop := {
  oo_array : array_ok a;
  oo_owned : ∀ cce p, m !! cce = Some p →
    ∃ k, lock_heap a !! p = Some k ∧ in_use_ k = true ∧ entry_ k = cce;
  oo_used : ∀ p k, lock_heap a !! p = Some k → in_use_ k = true → m !! entry_ k = Some p;
  oo_count : used_lock_count_ a = Z.of_nat (size m);
  oo_orderly : ∀ p k, lock_heap a !! p = Some k → orderly (key_lock_ k);
}.

Definition locks_ok s : Prop := owners_ok (cc_lock_and_extra_ s) (lock_array s).

(** Reads of the heap after a write. *)
Lemma heap_insert_all (P : klock → Prop) (h : gmap Z klock) p k :
  (∀ q k', h !! q = Some k' → P k') → P k → ∀ q k', <[p := k]> h !! q = Some k' → P k'.
Proof. intros Hh Hk q k' [[_ <-]|[_ ?]]%lookup_insert_Some; eauto. Qed.

Lemma owners_insert m a p k k' :
  owners_ok m a → lock_heap a !! p = Some k → in_use_ k' = in_use_ k → entry_ k' = entry_ k →
  orderly (key_lock_ k') →
  owners_ok m (set_heap a (<[p := k']> (lock_heap a))).
Proof.
  intros [[Hs Hn] Ho Hu Hc Hd] Hp Huse He Hk'.
  split; [split| | |done|by apply heap_insert_all]; cbn.
  - apply slots_insert; [done|by eexists].
  - done.
  - intros cce q Hq. destruct (Ho cce q Hq) as (k1 & Hk1 & ? & ?).
    destruct (decide (p = q)) as [<-|].
    + exists k'. rewrite lookup_insert_eq. simplify_eq. split_and!; [done|congruence|done].
    + exists k1. by rewrite lookup_insert_ne.
  - intros q k1 Hq Hk1. destruct (decide (p = q)) as [<-|].
    + rewrite lookup_insert_eq in Hq. simplify_eq. rewrite He. apply Hu; [done|congruence].
    + rewrite lookup_insert_ne in Hq by done. by apply Hu.
Qed.

Lemma put_lock_ok s cce k k' :
  locks_ok s → GetKeyLock s cce = Some k → in_use_ k' = in_use_ k → entry_ k' = entry_ k →
  orderly (key_lock_ k') → locks_ok (put_lock s cce k').
Proof.
  unfold locks_ok, GetKeyLock, put_lock. intros Hok Hk ? ? ?.
  destruct (cc_lock_and_extra_ s !! cce) as [p|]; [|done]. cbn. by eapply owners_insert.
Qed.

Lemma return_lock_ok s cce k k' :
  locks_ok s → GetKeyLock s cce = Some k → orderly (key_lock_ k') →
  locks_ok (return_lock s cce k').
Proof.
  unfold locks_ok, return_lock, GetKeyLock, put_lock. intros [[Hs Hn] Ho Hu Hc Hd] Hk Hk'.
  destruct (cc_lock_and_extra_ s !! cce) as [p|] eqn:E; [|done]. cbn in *.
  destruct (Ho _ _ E) as (k1 & Hk1 & Hu1 & He1). simplify_eq.
  assert (∀ cce', cce' ≠ entry_ k → cc_lock_and_extra_ s !! cce' ≠ Some p) as Hne.
  { intros cce' Hc' Hm. destruct (Ho _ _ Hm) as (k1 & Hk1 & _ & He1). congruence. }
  split; [split| | | |by apply heap_insert_all]; cbn.
  - apply slots_insert; [done|by eexists].
  - done.
  - intros cce' p' [Hc' Hm]%lookup_delete_Some. destruct (Ho _ _ Hm) as (k1 & Hk1 & ? & ?).
    exists k1. rewrite lookup_insert_ne; [done|]. intros ->. by eapply Hne.
  - intros p' k1 Hp' Huse. destruct (decide (p = p')) as [<-|].
    + rewrite lookup_insert_eq in Hp'. by simplify_eq.
    + rewrite lookup_insert_ne in Hp' by done. pose proof (Hu _ _ Hp' Huse) as Hm.
      rewrite lookup_delete_ne; [done|]. intros Heq. rewrite <-Heq in Hm. congruence.
  - rewrite map_size_delete_Some by by eexists.
    assert (size (cc_lock_and_extra_ s) ≠ 0); [|lia].
    intros H0%map_size_empty_inv. rewrite H0 in E. done.
Qed.

Lemma TryResize_ok s ts :
  locks_ok s → locks_ok (set_locks s (cc_lock_and_extra_ s) (TryResizeLockArray ts (lock_array s))).
Proof.
  unfold locks_ok. intros [Ha Ho Hu Hc Hd]. cbn.
  destruct (TryResizeLockArray_spec ts _ Ha) as (Ha' & Hsub & Hcnt & Hkeep). split; [done|..].
  - intros cce p Hm. destruct (Ho _ _ Hm) as (k & Hk & ? & ?). exists k. split_and!; auto.
  - intros p k Hk. apply Hu. by eapply lookup_weaken.
  - congruence.
  - intros p k Hk. eapply Hd. by eapply lookup_weaken.
Qed.

(** Two entries never share a structure, so a write through one entry is not
    seen through another. *)
Lemma GetKeyLock_put_eq s cce k k' :
  GetKeyLock s cce = Some k → GetKeyLock (put_lock s cce k') cce = Some k'.
Proof.
  unfold GetKeyLock, put_lock. destruct (cc_lock_and_extra_ s !! cce) as [p|] eqn:E; [|done].
  intros _. cbn. rewrite E. cbn. by rewrite lookup_insert_eq.
Qed.

Lemma GetKeyLock_put_ne s cce cce' k :
  locks_ok s → cce ≠ cce' → GetKeyLock (put_lock s cce k) cce' = GetKeyLock s cce'.
Proof.
  intros [_ Ho _ _ _] Hne. unfold GetKeyLock, put_lock.
  destruct (cc_lock_and_extra_ s !! cce) as [p|] eqn:E; [|done]. cbn.
  destruct (cc_lock_and_extra_ s !! cce') as [p'|] eqn:E'; [|done]. cbn.
  rewrite lookup_insert_ne; [done|]. intros <-.
  destruct (Ho _ _ E) as (k1 & ? & _ & ?), (Ho _ _ E') as (k2 & ? & _ & ?). congruence.
Qed.

Lemma GetKeyLock_return_eq s cce k : GetKeyLock (return_lock s cce k) cce = None.
Proof. unfold GetKeyLock, return_lock. cbn. by rewrite lookup_delete_eq. Qed.

Lemma GetKeyLock_return_ne s cce cce' k :
  locks_ok s → cce ≠ cce' → GetKeyLock (return_lock s cce k) cce' = GetKeyLock s cce'.
Proof.
  intros Hok Hne. rewrite <-(GetKeyLock_put_ne s cce cce' (SetUsedStatus (Now s) k false)) by done.
  unfold return_lock, GetKeyLock. cbn. by rewrite lookup_delete_ne.
Qed.

Lemma GetKeyLock_orderly s cce k : locks_ok s → GetKeyLock s cce = Some k → orderly (key_lock_ k).
Proof.
  intros [_ _ _ _ Hd]. unfold GetKeyLock.
  destruct (cc_lock_and_extra_ s !! cce) as [p|]; [|done]. apply Hd.
Qed.

Lemma GetKeyLock_resize s ts cce :
  locks_ok s →
  GetKeyLock (set_locks s (cc_lock_and_extra_ s) (TryResizeLockArray ts (lock_array s))) cce =
  GetKeyLock s cce.
Proof.
  intros [Ha Ho _ _ _]. unfold GetKeyLock. cbn.
  destruct (cc_lock_and_extra_ s !! cce) as [p|] eqn:E; [|done]. cbn.
  destruct (Ho _ _ E) as (k & Hk & Hu & _). rewrite Hk.
  destruct (TryResizeLockArray_spec ts _ Ha) as (_ & _ & _ & Hkeep). by apply Hkeep.
Qed.
End memory.

Section create.
Context {C O : Type} (alloc : gset Z → Z).
Hypothesis alloc_fresh : ∀ X, alloc X ∉ X.
Implicit Types s : CcShard C O.

Lemma new_lock_orderly : orderly new_lock.
Proof.
  apply orderly_reachable_ok. eexists. split; [exact new_lock_queue_ok|]. apply rtc_refl.
Qed.

Lemma orderly_reset (lk : NonBlockingLock lock_queue) : orderly lk → orderly (LockReset lk).
Proof. intros. eapply orderly_step_ok; [apply ostep_reset|done]. Qed.

Lemma GetOrCreate_ok s ccm page cce :
  locks_ok s →
  ∃ k s', GetOrCreateKeyLock alloc s ccm page cce = Some (k, s') ∧ locks_ok s' ∧
    GetKeyLock s' cce = Some k ∧ in_use_ k = true ∧ entry_ k = cce ∧
    (∀ cce', cce' ≠ cce → GetKeyLock s' cce' = GetKeyLock s cce') ∧
    (GetKeyLock s cce = Some k ∨ GetKeyLock s cce = None ∧ ∃ lk, orderly lk ∧ key_lock_ k = LockReset lk) ∧
    lock_holding_txs_ s' = lock_holding_txs_ s ∧ cc_queue_ s' = cc_queue_ s.
Proof.
  unfold locks_ok, GetOrCreateKeyLock, GetKeyLock. intros [Ha Ho Hu Hc Hd].
  destruct (cc_lock_and_extra_ s !! cce) as [p|] eqn:E.
  { destruct (Ho cce p E) as (k & Hk & Huse & He). cbn. rewrite Hk. cbn.
    exists k, s. rewrite E. cbn. split_and!; auto. by split. }
  destruct (NewLock_spec alloc alloc_fresh (Now s) (lock_array s) ccm page cce Ha)
    as (p & a' & k & Hnew & Ha' & Hp & Hold & Hsub & Hsup & Hcnt).
  rewrite Hnew. cbn. rewrite Hp. cbn. eexists _, _. split; [done|]. cbn.
  rewrite lookup_insert_eq. cbn.
  assert (∀ cce' p', cc_lock_and_extra_ s !! cce' = Some p' → p' ≠ p) as Hne.
  { intros cce' p' Hm ->. destruct (Ho _ _ Hm) as (k1 & Hk1 & Hu1 & _).
    destruct Hold as [[Hk Hf]|[Hk _]]; congruence. }
  split_and!; [|done|done|done| | |done|done].
  - split; [done|..].
    + intros cce' p'. destruct (decide (cce = cce')) as [<-|].
      * rewrite lookup_insert_eq. intros [= <-]. eexists. by split_and!.
      * rewrite lookup_insert_ne by done. intros Hm. destruct (Ho _ _ Hm) as (k1 & Hk1 & ? & ?).
        exists k1. split_and!; [|done|done]. apply Hsub; [by eapply Hne|done].
    + intros p' k1 Hp' Hu1. destruct (decide (p' = p)) as [->|Hpp].
      * simplify_eq. cbn. by rewrite lookup_insert_eq.
      * destruct (Hsup _ _ Hpp Hp') as [Hk1| ->]; [|done].
        pose proof (Hu _ _ Hk1 Hu1) as Hm. destruct (decide (entry_ k1 = cce)) as [He|].
        -- rewrite He in Hm. congruence.
        -- by rewrite lookup_insert_ne.
    + rewrite map_size_insert_None by done. lia.
    + intros p' k1 Hp'. destruct (decide (p' = p)) as [->|Hpp].
      * simplify_eq. cbn. apply orderly_reset.
        destruct Hold as [[Hk _]|[_ ->]]; [by eapply Hd|apply new_lock_orderly].
      * destruct (Hsup _ _ Hpp Hp') as [Hk1| ->]; [by eapply Hd|apply new_lock_orderly].
  - intros cce' Hc'. rewrite lookup_insert_ne by done.
    destruct (cc_lock_and_extra_ s !! cce') as [p'|] eqn:E'; [|done]. cbn.
    destruct (Ho _ _ E') as (k1 & Hk1 & _). rewrite Hk1. apply Hsub; [by eapply Hne|done].
  - right. split; [done|]. eexists. split; [|done].
    destruct Hold as [[Hk _]|[_ ->]]; [by eapply Hd|apply new_lock_orderly].
Qed.
End create.

(** ** What the lock operations do to the holders *)

Section held.
Implicit Types lk : NonBlockingLock lock_queue.

Definition held lk (t : Z) : Prop := SearchLock lk t ≠ NoLock.

(** The holders of [lk'] held [lk] before, or were popped from its queue. *)
Definition held_from lk lk' (popped : list CcRequestBase) : Prop :=
  ∀ t, held lk' t → held lk t ∨ t ∈ Txn <$> popped.

Lemma held_from_pop lk lk1 :
  orderly lk → (∀ t, held lk t → held lk1 t) →
  held_from lk1 (TryPopBlockingQueue lk).1 (TryPopBlockingQueue lk).2.
Proof.
  intros (popped & rest & _ & _ & Hp & _ & Ho & _)%pop_contract Hl t Ht.
  rewrite Hp. destruct (decide (t ∈ entry_txn <$> popped)) as [Hin|Hin].
  - right. apply list_elem_of_fmap in Hin as (e & -> & He). rewrite <-list_fmap_compose.
    apply list_elem_of_fmap. by exists e.
  - left. apply Hl. unfold held in *. by rewrite <-Ho.
Qed.

Lemma acquire_held lk req proto ty t :
  orderly lk → held (AcquireLock lk req proto ty).2 t →
  held lk t ∨ t = Txn req ∧ (AcquireLock lk req proto ty).1 = Successful.
Proof.
  intros Hok. pose proof (AcquireLock_outcome_ok lk req proto ty (proj1 Hok)) as H.
  destruct (AcquireLock lk req proto ty) as [[] lk'] eqn:E; cbn in *; intros Hh.
  - destruct H as (_ & _ & _ & _ & Ho & _). destruct (decide (t = Txn req)) as [|Hne]; [by right|].
    left. unfold held in *. by rewrite <-(Ho t Hne).
  - destruct H as (-> & _). by left.
  - destruct H as (-> & _). by left.
Qed.

(** After a release the transaction holds nothing, unless one of its waiting
    requests was granted. *)
Record releases lk (t : Z) lk' (popped : list CcRequestBase) : Prop := {
  rl_orderly : orderly lk';
  rl_from : held_from lk lk' popped;
  rl_self : held lk' t → t ∈ Txn <$> popped;
}.

Lemma releases_pop lk lk1 t :
  orderly lk1 → (∀ t', held lk1 t' → held lk t') → ¬ held lk1 t →
  releases lk t (TryPopBlockingQueue lk1).1 (TryPopBlockingQueue lk1).2.
Proof.
  intros Hok Hl Hn. split; [by apply orderly_pop|by apply held_from_pop|].
  intros Ht. by destruct (held_from_pop lk1 lk1 Hok (λ _, id) t Ht).
Qed.

Lemma held_spec lk t :
  held lk t ↔ is_writer lk t ∨ t ∈ read_locks_ lk ∨ t ∈ read_intentions_ lk.
Proof.
  unfold held. rewrite SearchLock_NoLock.
  destruct (decide (write_lk_type_ lk = NoWritelock)), (decide (write_txn_ lk = t)),
    (decide (t ∈ read_locks_ lk)), (decide (t ∈ read_intentions_ lk)); unfold is_writer; tauto.
Qed.

Lemma release_read_releases lk t :
  orderly lk → t ∈ read_locks_ lk →
  releases lk t (ReleaseReadLock lk t).1.2 (ReleaseReadLock lk t).2.
Proof.
  intros Hok Hr. pose proof Hok as [Hq [Hd Hw Hn Hk]]. unfold ReleaseReadLock.
  rewrite decide_True by done. cbn [with_pop fst snd]. apply releases_pop.
  - eapply orderly_weaken; [..|done]; cbn; [done|set_solver|set_solver|done].
  - intros t'. rewrite !held_spec. cbn. set_solver.
  - rewrite held_spec. cbn. intros [Ht|[?|?]]; [|set_solver|set_solver].
    specialize (Hw t Ht). set_solver.
Qed.

Lemma release_read_intent_releases lk t :
  orderly lk → t ∈ read_intentions_ lk → releases lk t (ReleaseReadIntent lk t).2 [].
Proof.
  intros Hok Hr. pose proof (orderly_release_read_intent lk t Hok) as Hok'.
  pose proof Hok as [Hq [Hd Hw Hn Hk]]. revert Hok'. unfold ReleaseReadIntent.
  rewrite decide_True by done. cbn [fst snd]. intros Hok'. split; [done|..].
  - intros t'. rewrite !held_spec. cbn. set_solver.
  - rewrite held_spec. cbn. intros [Ht|[?|?]]; [|set_solver|set_solver].
    specialize (Hw t Ht). set_solver.
Qed.

Lemma release_writer_releases lk t :
  orderly lk → is_writer lk t →
  releases lk t (TryPopBlockingQueue (set_write lk NoWritelock 0)).1
    (TryPopBlockingQueue (set_write lk NoWritelock 0)).2.
Proof.
  intros Hok Ht. pose proof Hok as [Hq [Hd Hw Hn Hk]].
  apply releases_pop; [by apply orderly_set_no_writer|..].
  - intros t'. rewrite !held_spec. intros [[? _]|?]; [done|by right].
  - specialize (Hw t Ht). rewrite held_spec. cbn. intros [[? _]|[?|?]]; [done|set_solver..].
Qed.

(** [unlock]: it releases when it reports a mode, and is a no-op otherwise. *)
Lemma unlock_releases lk t ty :
  orderly lk →
  let '(ut, lk', popped) := unlock lk t ty in
  (ut ≠ NoLock → releases lk t lk' popped) ∧ (ut = NoLock → lk' = lk ∧ popped = []).
Proof.
  intros Hok. unfold unlock.
  assert (let '(ut, lk', popped) := ClearTx lk t in
    (ut ≠ NoLock → releases lk t lk' popped) ∧ (ut = NoLock → lk' = lk ∧ popped = [])) as Hclear.
  { unfold ClearTx. pose proof (release_read_releases lk t Hok) as Hr. revert Hr.
    unfold ReleaseReadLock. destruct (decide (t ∈ read_locks_ lk)) as [Hin|]; cbn [with_pop fst snd].
    { intros Hr. split; [by intros _; apply Hr|done]. }
    intros _. pose proof (release_read_intent_releases lk t Hok) as Hr. revert Hr.
    unfold ReleaseReadIntent. destruct (decide (t ∈ read_intentions_ lk)) as [Hin|]; cbn [with_pop fst snd].
    { intros Hr. split; [by intros _; apply Hr|done]. }
    intros _. destruct (HasWriteLockOrWriteIntent lk t) eqn:E; [|done].
    apply HasWriteLockOrWriteIntent_spec in E.
    pose proof (release_writer_releases lk t Hok E) as Hr. destruct (TryPopBlockingQueue _).
    split; [done|]. by case_decide. }
  destruct ty; [done| | |done|].
  - pose proof (release_read_intent_releases lk t Hok) as Hr. revert Hr.
    unfold ReleaseReadIntent. case_decide; cbn [with_pop fst snd]; [|done]. intros Hr.
    split; [by intros _; apply Hr|done].
  - pose proof (release_read_releases lk t Hok) as Hr. revert Hr.
    unfold ReleaseReadLock. case_decide; cbn [with_pop fst snd]; [|done]. intros Hr.
    split; [by intros _; apply Hr|done].
  - unfold ReleaseWriteLock. destruct (HasWriteLock_of lk t) eqn:E; cbn [with_pop fst snd]; [|done].
    apply HasWriteLock_of_spec in E as [E1 E2].
    split; [|done]. intros _. apply release_writer_releases; [done|]. split; [by rewrite E1|done].
Qed.

Lemma ClearTx_releases lk t :
  orderly lk → releases lk t (ClearTx lk t).1.2 (ClearTx lk t).2.
Proof.
  intros Hok. pose proof (unlock_releases lk t NoLock Hok) as H. cbn [unlock] in H.
  destruct (ClearTx lk t) as [[ut lk'] popped] eqn:E. destruct H as [H1 H2]. cbn.
  destruct (decide (ut = NoLock)) as [->|]; [|by apply H1].
  destruct (H2 eq_refl) as [-> ->]. split; [done|by left|]. intros Ht. exfalso.
  apply held_spec in Ht. revert E. unfold ClearTx, ReleaseReadLock, ReleaseReadIntent.
  destruct (decide (t ∈ read_locks_ lk)); [done|].
  destruct (decide (t ∈ read_intentions_ lk)); [done|]. cbn [with_pop fst snd].
  destruct (HasWriteLockOrWriteIntent lk t) eqn:E.
  - destruct (TryPopBlockingQueue _). by case_decide.
  - apply not_writer_bool in E. tauto.
Qed.
Lemma reset_not_queued (lk : NonBlockingLock lock_queue) t : orderly lk → ¬ queued (LockReset lk) t.
Proof.
  intros [Hq _]. unfold queued, waiting. cbn -[q_list q_reset]. rewrite q_reset_spec by done.
  cbn. set_solver.
Qed.

Lemma reset_not_held (lk : NonBlockingLock lock_queue) t : ¬ held (LockReset lk) t.
Proof. rewrite held_spec. cbn. intros [[? _]|[?|?]]; [done|set_solver..]. Qed.
End held.

(** ** Held locks are recorded *)

Section recorded.
Context {C O : Type}.
Abbreviation klock := (KeyGapLock lock_queue block_queue C O).
Abbreviation shard := (CcShard C O).
Implicit Types (s : shard) (k : klock) (req : CcRequestBase).

Definition holds_lock s (cce t : Z) : Prop := ∃ k, GetKeyLock s cce = Some k ∧ held (key_lock_ k) t.

Definition recorded s (cce t : Z) : Prop :=
  ∃ ng info, tx_info s ng t = Some info ∧ cce ∈ cce_list_ info.

(** A request of the transaction was granted its lock and waits to be resumed. *)
Definition granted s (cce t : Z) : Prop := ∃ req, Txn req = t ∧ (cce, req) ∈ cc_queue_ s.

(** *** Reading back *)

Lemma put_key_lock_get s cce k k0 lk popped :
  GetKeyLock s cce = Some k0 →
  GetKeyLock (put_key_lock s cce k lk popped) cce = Some (set_key_lock k lk).
Proof. intros H. unfold put_key_lock. by apply (GetKeyLock_put_eq _ _ _ _ H). Qed.

Lemma put_key_lock_get_ne s cce cce' k lk popped :
  locks_ok s → cce ≠ cce' →
  GetKeyLock (put_key_lock s cce k lk popped) cce' = GetKeyLock s cce'.
Proof. intros H Hne. unfold put_key_lock. by apply (GetKeyLock_put_ne s). Qed.

Lemma put_lock_frame s cce k :
  lock_holding_txs_ (put_lock s cce k) = lock_holding_txs_ s ∧
  cc_queue_ (put_lock s cce k) = cc_queue_ s ∧ ts_base_ (put_lock s cce k) = ts_base_ s.
Proof. unfold put_lock. by destruct (cc_lock_and_extra_ s !! cce). Qed.

Lemma put_key_lock_queue s cce k lk popped :
  cc_queue_ (put_key_lock s cce k lk popped) = cc_queue_ s ++ ((λ r, (cce, r)) <$> popped).
Proof. unfold put_key_lock. cbn. by rewrite (proj1 (proj2 (put_lock_frame s cce _))). Qed.

Lemma put_key_lock_granted s cce k lk popped cce' t :
  granted (put_key_lock s cce k lk popped) cce' t ↔
    granted s cce' t ∨ cce' = cce ∧ t ∈ Txn <$> popped.
Proof.
  unfold granted. rewrite put_key_lock_queue. setoid_rewrite elem_of_app.
  setoid_rewrite list_elem_of_fmap. split.
  - intros (req & <- & [Hq|(r & Hr & Hin)]); [left; eauto|]. simplify_eq. right. eauto.
  - intros [(req & <- & Hq)|[-> (r & -> & Hr)]]; eauto 10.
Qed.

Lemma put_key_lock_recorded s cce k lk popped cce' t :
  recorded (put_key_lock s cce k lk popped) cce' t ↔ recorded s cce' t.
Proof.
  unfold recorded, tx_info, put_key_lock. cbn. by rewrite (proj1 (put_lock_frame s cce _)).
Qed.

Lemma put_key_lock_holds s cce k k0 lk popped cce' t :
  locks_ok s → GetKeyLock s cce = Some k0 →
  holds_lock (put_key_lock s cce k lk popped) cce' t →
  cce' = cce ∧ held lk t ∨ cce' ≠ cce ∧ holds_lock s cce' t.
Proof.
  intros Hok Hk (k1 & Hk1 & Hh). destruct (decide (cce' = cce)) as [->|Hne].
  - erewrite put_key_lock_get in Hk1 by done. simplify_eq. by left.
  - rewrite put_key_lock_get_ne in Hk1 by done. right. split; [done|]. by eexists.
Qed.

Lemma put_key_lock_locks_ok s cce k k0 lk popped :
  locks_ok s → GetKeyLock s cce = Some k0 → in_use_ k = in_use_ k0 → entry_ k = entry_ k0 →
  orderly lk → locks_ok (put_key_lock s cce k lk popped).
Proof.
  intros Hok Hk Hu He Hl. unfold put_key_lock.
  by apply (put_lock_ok s cce k0 (set_key_lock k lk)).
Qed.

(** *** The records *)

Lemma tx_info_put s ng txn info ng' txn' :
  tx_info (put_info s ng txn info) ng' txn' =
    if decide (ng = ng' ∧ txn = txn') then Some info else tx_info s ng' txn'.
Proof.
  unfold tx_info, put_info. cbn. destruct (decide (ng = ng')) as [<-|].
  - rewrite lookup_insert_eq. cbn. destruct (decide (txn = txn')) as [<-|].
    + by rewrite lookup_insert_eq, decide_True.
    + rewrite lookup_insert_ne, decide_False by naive_solver.
      by destruct (lock_holding_txs_ s !! ng).
  - rewrite lookup_insert_ne, decide_False by naive_solver. done.
Qed.

Lemma tx_info_delete s ng txn ng' txn' :
  tx_info (set_holding s (<[ng := delete txn (default ∅ (lock_holding_txs_ s !! ng))]>
     (lock_holding_txs_ s))) ng' txn' =
    if decide (ng = ng' ∧ txn = txn') then None else tx_info s ng' txn'.
Proof.
  unfold tx_info. cbn. destruct (decide (ng = ng')) as [<-|].
  - rewrite lookup_insert_eq. cbn. destruct (decide (txn = txn')) as [<-|].
    + by rewrite lookup_delete_eq, decide_True.
    + rewrite lookup_delete_ne, decide_False by naive_solver.
      by destruct (lock_holding_txs_ s !! ng).
  - rewrite lookup_insert_ne, decide_False by naive_solver. done.
Qed.

Lemma Upsert_recorded s txn term cce w ng tbl cce' t :
  recorded s cce' t ∨ t = txn ∧ cce' = cce →
  recorded (UpsertLockHoldingTx s txn term cce w ng tbl) cce' t.
Proof.
  unfold recorded, UpsertLockHoldingTx. setoid_rewrite tx_info_put. intros [H|[-> ->]].
  - destruct H as (ng' & info & Hi & Hc). destruct (decide (ng = ng' ∧ txn = t)) as [[<- <-]|Hne].
    + exists ng. eexists. rewrite decide_True by done. split; [done|]. cbn. rewrite Hi. cbn.
      set_solver.
    + exists ng', info. by rewrite decide_False.
  - exists ng. eexists. rewrite decide_True by done. split; [done|]. cbn. set_solver.
Qed.

Lemma Delete_recorded s txn cce ng cce' t :
  recorded s cce' t → (t = txn ∧ cce' = cce) ∨ recorded (DeleteLockHoldingTx s txn cce ng) cce' t.
Proof.
  intros (ng' & info & Hi & Hc). destruct (decide (t = txn ∧ cce' = cce)) as [?|Hne]; [by left|].
  right. unfold DeleteLockHoldingTx. destruct (tx_info s ng txn) as [info0|] eqn:E.
  2:{ exists ng', info. done. }
  case_decide as Hl.
  - exists ng', info. rewrite tx_info_delete, decide_False; [done|].
    intros [<- <-]. simplify_eq. set_solver.
  - destruct (decide (ng = ng' ∧ txn = t)) as [[<- <-]|Hnt].
    + exists ng. eexists. rewrite tx_info_put, decide_True by done. split; [done|]. cbn.
      simplify_eq. set_solver.
    + exists ng', info. by rewrite tx_info_put, decide_False.
Qed.

(** *** The invariant *)

(** Locks that need no record: the transaction numbers reserved for fetching
    records from the data store pin an entry without being recorded. *)
Context (exempt : Z → Z → Prop).

Definition covered s (cce t : Z) : Prop := recorded s cce t ∨ granted s cce t ∨ exempt cce t.

Record shard_ok s : Prop := {
  sk_locks : locks_ok s;
  sk_covered : ∀ cce t, holds_lock s cce t → covered s cce t;
}.

Lemma covered_mono s s' cce t :
  (recorded s cce t → recorded s' cce t) → (granted s cce t → granted s' cce t) →
  covered s cce t → covered s' cce t.
Proof. unfold covered. tauto. Qed.

Lemma put_key_lock_covered s cce k lk popped cce' t :
  covered s cce' t → covered (put_key_lock s cce k lk popped) cce' t.
Proof. apply covered_mono; rewrite ?put_key_lock_recorded, ?put_key_lock_granted; tauto. Qed.

(** An operation on the lock of one entry. *)
Lemma put_key_lock_ok s cce k k0 lk popped :
  shard_ok s → GetKeyLock s cce = Some k0 → in_use_ k = in_use_ k0 → entry_ k = entry_ k0 →
  orderly lk → held_from (key_lock_ k0) lk popped →
  shard_ok (put_key_lock s cce k lk popped).
Proof.
  intros [Hok Hc] Hk Hu He Hl Hf. split; [by eapply put_key_lock_locks_ok|].
  intros cce' t Hh. eapply put_key_lock_holds in Hh as [[-> Hh]|[Hne Hh]]; [..|done|done].
  - destruct (Hf t Hh) as [Hb|Hp].
    + apply put_key_lock_covered, Hc. by eexists.
    + right. left. apply put_key_lock_granted. by right.
  - by apply put_key_lock_covered, Hc.
Qed.

(** An operation on [lock_holding_txs_] only. *)
Lemma set_holding_ok s m :
  shard_ok s →
  (∀ cce t, holds_lock s cce t → recorded s cce t →
            covered (set_holding s m) cce t) →
  shard_ok (set_holding s m).
Proof.
  intros [Hok Hc] Hr. split; [done|]. intros cce t Hh. change (holds_lock s cce t) in Hh.
  destruct (Hc cce t Hh) as [H|H]; [by apply Hr|by right].
Qed.

Lemma Delete_ok s txn cce ng :
  shard_ok s → (holds_lock s cce txn → granted s cce txn ∨ exempt cce txn) →
  shard_ok (DeleteLockHoldingTx s txn cce ng).
Proof.
  intros Hok Hg.
  assert (∃ m, DeleteLockHoldingTx s txn cce ng = set_holding s m) as [m Hm].
  { unfold DeleteLockHoldingTx, put_info. destruct (tx_info s ng txn); [|by exists (lock_holding_txs_ s); destruct s].
    case_decide; by eexists. }
  rewrite Hm. apply set_holding_ok; [done|]. intros cce' t Hh Hr.
  destruct (Delete_recorded s txn cce ng cce' t Hr) as [[-> ->]|H]; [right; by apply Hg|].
  left. by rewrite <-Hm.
Qed.

Lemma Upsert_ok s txn term cce w ng tbl :
  shard_ok s → shard_ok (UpsertLockHoldingTx s txn term cce w ng tbl).
Proof.
  intros Hok. apply set_holding_ok; [done|]. intros cce' t _ Hr. left.
  by apply (Upsert_recorded s txn term cce w ng tbl); left.
Qed.

Lemma CheckRecoverTx_frame leader_term s txn ng term :
  let s' := CheckRecoverTx leader_term s txn ng term in
  cc_lock_and_extra_ s' = cc_lock_and_extra_ s ∧ lock_array s' = lock_array s ∧
  cc_queue_ s' = cc_queue_ s ∧ ts_base_ s' = ts_base_ s ∧
  ∀ ng' t, match tx_info s ng' t, tx_info s' ng' t with
           | Some i, Some i' =>
               cce_list_ i' = cce_list_ i ∧ tx_wlock_ts_ i' = tx_wlock_ts_ i ∧
               table_type_ i' = table_type_ i
           | None, None => True
           | _, _ => False
           end.
Proof.
  unfold CheckRecoverTx. destruct (tx_info s ng txn) as [info|] eqn:E;
    [|split_and!; try done; intros ng' t; by destruct (tx_info s ng' t)].
  destruct (decide (recover_ts_gap ≤ _)%Z);
    [|split_and!; try done; intros ng' t; by destruct (tx_info s ng' t)].
  assert (∀ i', cce_list_ i' = cce_list_ info → tx_wlock_ts_ i' = tx_wlock_ts_ info →
    table_type_ i' = table_type_ info → ∀ ng' t,
    match tx_info s ng' t, tx_info (put_info s ng txn i') ng' t with
    | Some i, Some i'' =>
        cce_list_ i'' = cce_list_ i ∧ tx_wlock_ts_ i'' = tx_wlock_ts_ i ∧
        table_type_ i'' = table_type_ i
    | None, None => True
    | _, _ => False
    end) as Hput.
  { intros i' ? ? ? ng' t. rewrite tx_info_put. destruct (decide _) as [[<- <-]|].
    - by rewrite E.
    - by destruct (tx_info s ng' t). }
  destruct (decide (0 < leader_term ng)%Z); split_and!; try done; by apply Hput.
Qed.

(** Changes that touch neither the locks, nor the queue, nor who is recorded. *)
Definition same_locks s s' : Prop :=
  cc_lock_and_extra_ s' = cc_lock_and_extra_ s ∧ lock_array s' = lock_array s ∧
  cc_queue_ s' = cc_queue_ s ∧ ∀ cce t, recorded s cce t → recorded s' cce t.

Lemma same_locks_get s s' cce : same_locks s s' → GetKeyLock s' cce = GetKeyLock s cce.
Proof. unfold GetKeyLock. by intros (-> & -> & _). Qed.

Lemma same_locks_holds s s' cce t : same_locks s s' → holds_lock s' cce t ↔ holds_lock s cce t.
Proof. intros H. unfold holds_lock. by rewrite (same_locks_get s s' cce H). Qed.

Lemma same_locks_granted s s' cce t : same_locks s s' → granted s' cce t ↔ granted s cce t.
Proof. unfold granted. by intros (_ & _ & -> & _). Qed.

Lemma same_locks_ok s s' : same_locks s s' → shard_ok s → shard_ok s'.
Proof.
  intros H [Hok Hc]. pose proof H as (Hm & Ha & Hq & Hr). split.
  - unfold locks_ok. by rewrite Hm, Ha.
  - intros cce t Hh%(same_locks_holds s s'); [|done]. apply (covered_mono s); [apply Hr| |by apply Hc].
    by apply same_locks_granted.
Qed.

#[export] Instance same_locks_preorder : PreOrder same_locks.
Proof.
  split; [by intros s|]. intros s1 s2 s3 (H1 & H2 & H3 & H4) (H5 & H6 & H7 & H8).
  unfold same_locks. rewrite H5, H6, H7. split_and!; auto.
Qed.

Lemma CheckRecoverTx_same leader_term s txn ng term :
  same_locks s (CheckRecoverTx leader_term s txn ng term).
Proof.
  destruct (CheckRecoverTx_frame leader_term s txn ng term) as (? & ? & ? & ? & Hi).
  split_and!; [done..|]. intros cce t (ng' & info & Hinfo & Hc). specialize (Hi ng' t).
  rewrite Hinfo in Hi.
  destruct (tx_info (CheckRecoverTx leader_term s txn ng term) ng' t) as [i|] eqn:E; [|done].
  exists ng', i. split; [done|]. destruct Hi as [-> _]. done.
Qed.

Lemma foldl_same {A} (f : shard → A → shard) (l : list A) s :
  (∀ s x, same_locks s (f s x)) → same_locks s (foldl f s l).
Proof.
  intros Hf. revert s. induction l as [|x l IH]; intros s; cbn; [done|].
  transitivity (f s x); [apply Hf|apply IH].
Qed.

Lemma RecoverTxForLockConfilct_same leader_term s lk ty ng term :
  same_locks s (RecoverTxForLockConfilct leader_term s lk ty ng term).
Proof.
  unfold RecoverTxForLockConfilct. destruct ty; [done|done| | |].
  - destruct (HasWriteLock lk); [apply CheckRecoverTx_same|done].
  - case_decide; [done|apply CheckRecoverTx_same].
  - case_decide; [|apply CheckRecoverTx_same]. apply foldl_same. intros. apply CheckRecoverTx_same.
Qed.

Lemma check_writer_same leader_term s lk txn ng term :
  same_locks s (check_writer leader_term s lk txn ng term).
Proof.
  unfold check_writer. destruct lk; [|done]. destruct (_ && _); [apply CheckRecoverTx_same|done].
Qed.

(** *** Recycling *)

Lemma return_lock_covered s cce k cce' t :
  covered s cce' t → covered (return_lock s cce k) cce' t.
Proof.
  destruct (put_lock_frame s cce (SetUsedStatus (Now s) k false)) as (Hh & Hq & _).
  apply covered_mono; unfold recorded, granted, tx_info, return_lock; cbn; [by rewrite Hh|by rewrite Hq].
Qed.

Lemma RecycleKeyLock_ok s cce : shard_ok s → shard_ok (RecycleKeyLock s cce).2.
Proof.
  intros [Hok Hc]. unfold RecycleKeyLock. destruct (GetKeyLock s cce) as [k|] eqn:E; [|done].
  destruct (KeyGapLock_IsEmpty k); [|done]. cbn [snd]. split.
  - eapply return_lock_ok; [done|done|]. by eapply GetKeyLock_orderly.
  - intros cce' t (k1 & Hk1 & Hh). destruct (decide (cce' = cce)) as [->|].
    { by rewrite GetKeyLock_return_eq in Hk1. }
    rewrite GetKeyLock_return_ne in Hk1 by done.
    apply return_lock_covered, Hc. by eexists.
Qed.

Lemma Recycle_frame s cce :
  locks_ok s →
  cc_queue_ (RecycleKeyLock s cce).2 = cc_queue_ s ∧
  lock_holding_txs_ (RecycleKeyLock s cce).2 = lock_holding_txs_ s ∧
  ∀ cce' t, holds_lock (RecycleKeyLock s cce).2 cce' t → holds_lock s cce' t.
Proof.
  intros Hok. unfold RecycleKeyLock. destruct (GetKeyLock s cce) as [k|] eqn:E; [|done].
  destruct (KeyGapLock_IsEmpty k); [|done]. cbn [snd].
  destruct (put_lock_frame s cce (SetUsedStatus (Now s) k false)) as (Hh & Hq & _).
  split_and!; [done|done|]. intros cce' t (k1 & Hk1 & Hh1). exists k1. split; [|done].
  destruct (decide (cce' = cce)) as [->|]; [by rewrite GetKeyLock_return_eq in Hk1|].
  by rewrite GetKeyLock_return_ne in Hk1.
Qed.

(** *** The operations of the cc map *)

(** A release of [txn]'s lock on [cce]: the lock is updated and the record is
    deleted. *)
Lemma release_record_ok s cce k k' txn ng lk popped :
  shard_ok s → GetKeyLock s cce = Some k → in_use_ k' = in_use_ k → entry_ k' = entry_ k →
  releases (key_lock_ k) txn lk popped →
  shard_ok (DeleteLockHoldingTx (put_key_lock s cce k' lk popped) txn cce ng).
Proof.
  intros Hs Hk Hu He [Ho Hf Hself]. apply Delete_ok; [by eapply put_key_lock_ok|].
  intros (k1 & Hk1 & Hh). erewrite put_key_lock_get in Hk1 by done. simplify_eq.
  left. apply put_key_lock_granted. right. split; [done|]. by apply Hself.
Qed.

Lemma orderly_wlock_ts (lk : NonBlockingLock lock_queue) ts : orderly lk → orderly (SetWLockTs lk ts).
Proof. intros. eapply orderly_step_ok; [apply ostep_wlock_ts|done]. Qed.

Lemma releases_wlock_ts (lk lk' : NonBlockingLock lock_queue) t ts popped :
  releases lk t lk' popped → releases lk t (SetWLockTs lk' ts) popped.
Proof. intros [? Hf Hs]. split; [by apply orderly_wlock_ts|done|done]. Qed.

Lemma ReleaseCceLock_ok s cce txn ng ty recycle :
  shard_ok s → shard_ok (ReleaseCceLock s cce txn ng ty recycle).
Proof.
  intros Hs. unfold ReleaseCceLock. destruct (GetKeyLock s cce) as [k|] eqn:E; [|done].
  pose proof (unlock_releases (key_lock_ k) txn ty
    (GetKeyLock_orderly _ _ _ (sk_locks _ Hs) E)) as Hu.
  destruct (unlock (key_lock_ k) txn ty) as [[ut lk] popped]. destruct Hu as [Hrel Hno].
  destruct (decide (ut = NoLock)) as [->|Hut].
  { destruct (Hno eq_refl) as [-> ->]. eapply put_key_lock_ok; [done|done|done|done| |by left].
    by eapply GetKeyLock_orderly, E; apply Hs. }
  assert (shard_ok (DeleteLockHoldingTx (put_key_lock s cce k
    (if decide (ut = WriteLock) then SetWLockTs lk 0 else lk) popped) txn cce ng)) as H1.
  { eapply release_record_ok; [done|done|done|done|].
    case_decide; [apply releases_wlock_ts|]; by apply Hrel. }
  destruct recycle; [by apply RecycleKeyLock_ok|done].
Qed.

Lemma Downgrade_ok s cce txn : shard_ok s → shard_ok (DowngradeCceKeyWriteLock s cce txn).
Proof.
  intros Hs. unfold DowngradeCceKeyWriteLock. destruct (GetKeyLock s cce) as [k|] eqn:E; [|done].
  pose proof (GetKeyLock_orderly _ _ _ (sk_locks _ Hs) E) as Ho.
  unfold DowngradeWriteLock. destruct (HasWriteLock_of (key_lock_ k) txn) eqn:Ew.
  - pose proof (orderly_set_intent _ _ Ew Ho) as Ho1.
    pose proof (held_from_pop _ (key_lock_ k) Ho1) as Hf. pose proof (orderly_pop _ Ho1) as Ho2.
    destruct (TryPopBlockingQueue _) as [lk popped]. eapply put_key_lock_ok; [done..|].
    apply Hf. apply HasWriteLock_of_spec in Ew as [Ew _]. intros t.
    rewrite !held_spec. unfold is_writer. cbn. rewrite Ew. naive_solver.
  - eapply put_key_lock_ok; [done|done|done|done|done|by left].
Qed.

(** *** Clearing a transaction *)

Lemma clear_entry_ok keep txn info s cce :
  shard_ok s →
  shard_ok (clear_entry keep txn info s cce) ∧
  (∀ cce', holds_lock (clear_entry keep txn info s cce) cce' txn →
     holds_lock s cce' txn ∧ cce' ≠ cce ∨ granted (clear_entry keep txn info s cce) cce' txn) ∧
  (∀ cce' t, granted s cce' t → granted (clear_entry keep txn info s cce) cce' t) ∧
  lock_holding_txs_ (clear_entry keep txn info s cce) = lock_holding_txs_ s.
Proof.
  intros Hs. unfold clear_entry. destruct (GetKeyLock s cce) as [k|] eqn:E.
  2:{ split_and!; [done| |done|done]. intros cce' Hh. left. split; [done|].
      intros ->. destruct Hh as (k & ? & _). congruence. }
  pose proof (ClearTx_releases (key_lock_ k) txn
    (GetKeyLock_orderly _ _ _ (sk_locks _ Hs) E)) as Hrel.
  destruct (ClearTx (key_lock_ k) txn) as [[lt lk] popped]. cbn [fst snd] in Hrel.
  set (k1 := if decide (lt = WriteLock) then KeyGapLock_ClearTx k else k).
  assert (in_use_ k1 = in_use_ k ∧ entry_ k1 = entry_ k) as [Hu He]
    by (unfold k1; by case_decide).
  clearbody k1. set (s1 := put_key_lock s cce k1 lk popped).
  assert (shard_ok s1) as Hs1
    by (eapply put_key_lock_ok; [done|done|done|done|apply Hrel|apply Hrel]).
  assert (∀ cce', holds_lock s1 cce' txn → holds_lock s cce' txn ∧ cce' ≠ cce ∨ granted s1 cce' txn)
    as Hh1.
  { intros cce' Hh. eapply put_key_lock_holds in Hh as [[-> Hh]|[Hne Hh]];
      [|by left|apply Hs|done].
    right. apply put_key_lock_granted. right. split; [done|]. by apply Hrel. }
  assert (∀ cce' t, granted s cce' t → granted s1 cce' t) as Hg1
    by (intros; apply put_key_lock_granted; by left).
  assert (lock_holding_txs_ s1 = lock_holding_txs_ s) as Hl1
    by (unfold s1, put_key_lock; cbn; by rewrite (proj1 (put_lock_frame s cce _))).
  destruct (keep && _); [by split_and!|].
  destruct (Recycle_frame s1 cce (sk_locks _ Hs1)) as (Hq & Hl & Hr).
  split_and!; [by apply RecycleKeyLock_ok| | |congruence].
  - intros cce' Hh%Hr%Hh1. unfold granted. by rewrite Hq.
  - intros cce' t Hg%Hg1. unfold granted. by rewrite Hq.
Qed.

Lemma clear_entries_ok keep txn info l s :
  shard_ok s →
  let s' := foldl (clear_entry keep txn info) s l in
  shard_ok s' ∧ (∀ cce, cce ∈ l → holds_lock s' cce txn → granted s' cce txn) ∧
  (∀ cce, holds_lock s' cce txn → holds_lock s cce txn ∨ granted s' cce txn) ∧
  (∀ cce t, granted s cce t → granted s' cce t) ∧
  lock_holding_txs_ s' = lock_holding_txs_ s.
Proof.
  revert s. induction l as [|x l IH]; intros s Hs; cbn.
  { split_and!; [done|set_solver|by left|done|done]. }
  destruct (clear_entry_ok keep txn info s x Hs) as (Hs1 & Hh1 & Hg1 & Hl1).
  destruct (IH _ Hs1) as (Hs2 & Hin & Hh2 & Hg2 & Hl2).
  split_and!; [done|..].
  - intros cce [->|Hc]%elem_of_cons Hh; [|by apply Hin].
    destruct (Hh2 _ Hh) as [Hh'|]; [|done]. destruct (Hh1 _ Hh') as [[_ ?]|]; [done|by apply Hg2].
  - intros cce [Hh|]%Hh2; [|by right]. destruct (Hh1 _ Hh) as [[? _]|]; [by left|right; by apply Hg2].
  - intros cce t Hg. by apply Hg2, Hg1.
  - congruence.
Qed.

Lemma clear_group_ok keep txn s ng :
  shard_ok s →
  shard_ok (clear_group keep txn s ng) ∧
  ∀ ng' t, tx_info (clear_group keep txn s ng) ng' t =
    if decide (ng = ng' ∧ txn = t) then None else tx_info s ng' t.
Proof.
  intros Hs. unfold clear_group. destruct (tx_info s ng txn) as [info|] eqn:E.
  2:{ split; [done|]. intros ng' t. case_decide as Hd; [|done]. by destruct Hd as [<- <-]. }
  destruct (clear_entries_ok keep txn info (elements (cce_list_ info)) s Hs)
    as (Hs1 & Hin & _ & _ & Hl).
  set (s1 := foldl _ _ _) in *. clearbody s1.
  assert (∀ ng' t, tx_info s1 ng' t = tx_info s ng' t) as Hi
    by (intros; unfold tx_info; by rewrite Hl).
  split.
  - apply set_holding_ok; [done|]. intros cce t Hh (ng' & i & Hinfo & Hc).
    destruct (decide (ng = ng' ∧ txn = t)) as [[<- <-]|Hne].
    + right. left. apply Hin; [|done]. rewrite Hi, E in Hinfo. simplify_eq. by apply elem_of_elements.
    + left. exists ng', i. by rewrite tx_info_delete, decide_False.
  - intros ng' t. rewrite tx_info_delete. case_decide; [done|]. apply Hi.
Qed.

Lemma clear_groups_ok keep txn l s :
  shard_ok s →
  shard_ok (foldl (clear_group keep txn) s l) ∧
  ∀ ng t, tx_info (foldl (clear_group keep txn) s l) ng t =
    if decide (ng ∈ l ∧ txn = t) then None else tx_info s ng t.
Proof.
  revert s. induction l as [|x l IH]; intros s Hs; cbn.
  { split; [done|]. intros. rewrite decide_False by set_solver. done. }
  destruct (clear_group_ok keep txn s x Hs) as [Hs1 Hi1]. destruct (IH _ Hs1) as [Hs2 Hi2].
  split; [done|]. intros ng t. rewrite Hi2, Hi1.
  destruct (decide (ng ∈ l ∧ txn = t)), (decide (x = ng ∧ txn = t)), (decide (ng ∈ x :: l ∧ txn = t));
    try done; set_solver.
Qed.

Lemma CcShard_ClearTx_ok keep s txn : shard_ok s → shard_ok (CcShard_ClearTx keep s txn).
Proof. intros. by apply clear_groups_ok. Qed.

Lemma CcShard_ClearTx_forgets keep s txn ng : shard_ok s → tx_info (CcShard_ClearTx keep s txn) ng txn = None.
Proof.
  intros Hs. unfold CcShard_ClearTx. rewrite (proj2 (clear_groups_ok keep txn _ s Hs)).
  case_decide as Hd; [done|]. unfold tx_info.
  destruct (lock_holding_txs_ s !! ng) eqn:E; [|done]. exfalso. apply Hd. split; [|done].
  apply elem_of_elements. by eapply elem_of_dom_2.
Qed.

(** What is left of a cleared transaction: requests already granted. *)
Lemma CcShard_ClearTx_releases keep s txn cce :
  shard_ok s → ¬ exempt cce txn → holds_lock (CcShard_ClearTx keep s txn) cce txn →
  granted (CcShard_ClearTx keep s txn) cce txn.
Proof.
  intros Hs Hr Hh. pose proof (CcShard_ClearTx_ok keep s txn Hs) as [_ Hc].
  destruct (Hc cce txn Hh) as [(ng & info & Hi & _)|[?|?]]; [|done|done].
  by rewrite CcShard_ClearTx_forgets in Hi.
Qed.

(** *** Failover and deadlock *)

Lemma Delete_frame s txn cce ng :
  cc_lock_and_extra_ (DeleteLockHoldingTx s txn cce ng) = cc_lock_and_extra_ s ∧
  lock_array (DeleteLockHoldingTx s txn cce ng) = lock_array s ∧
  cc_queue_ (DeleteLockHoldingTx s txn cce ng) = cc_queue_ s.
Proof.
  unfold DeleteLockHoldingTx. destruct (tx_info s ng txn); [|done]. by case_decide.
Qed.

(** [s'] differs from [s] in records of [cce] only. *)
Definition forgets_entry (cce : Z) s s' : Prop :=
  cc_lock_and_extra_ s' = cc_lock_and_extra_ s ∧ lock_array s' = lock_array s ∧
  cc_queue_ s' = cc_queue_ s ∧
  ∀ cce' t, cce' ≠ cce → recorded s cce' t → recorded s' cce' t.

Lemma forgets_foldl cce ng (l : list Z) s0 s :
  forgets_entry cce s0 s →
  forgets_entry cce s0 (foldl (λ s txn, DeleteLockHoldingTx s txn cce ng) s l).
Proof.
  revert s. induction l as [|x l IH]; intros s (H1 & H2 & H3 & H4); cbn; [done|]. apply IH. unfold forgets_entry.
  destruct (Delete_frame s x cce ng) as (-> & -> & ->). split_and!; [done..|].
  intros cce' t Hne Hr. destruct (Delete_recorded s x cce ng cce' t) as [[_ ?]|]; [by apply H4|done|done].
Qed.

Lemma ClearLocks_ok s cce ng : shard_ok s → shard_ok (ClearLocks s cce ng).1.
Proof.
  intros [Hok Hc]. unfold ClearLocks. destruct (GetKeyLock s cce) as [k|] eqn:E; [|done].
  pose proof (orderly_step_ok _ _ (ostep_abort_all (key_lock_ k)) (GetKeyLock_orderly _ _ _ Hok E)) as Ho.
  destruct (AbortAllQueuedRequests (key_lock_ k)) as [lk1 aborted]. cbn [fst snd] in *.
  match goal with |- context [UpdateBufferedCommandCnt ?s0 _] => set (s3 := s0) end.
  assert (forgets_entry cce s s3) as (H1 & H2 & H3 & H4).
  { do 2 apply forgets_foldl. case_decide; [done|]. apply (forgets_foldl cce ng [_] s s). done. }
  clearbody s3. set (s4 := UpdateBufferedCommandCnt s3 _).
  assert (∀ c, GetKeyLock s4 c = GetKeyLock s c) as Hg by (intros; unfold GetKeyLock; cbn; by rewrite H1, H2).
  assert (locks_ok s4) as Hok4 by (unfold locks_ok; cbn; by rewrite H1, H2).
  split.
  - eapply return_lock_ok; [done|by rewrite Hg|]. by apply orderly_reset.
  - intros cce' t (k1 & Hk1 & Hh). destruct (decide (cce' = cce)) as [->|].
    { by rewrite GetKeyLock_return_eq in Hk1. }
    rewrite GetKeyLock_return_ne, Hg in Hk1 by done. apply return_lock_covered.
    apply (covered_mono s); [by apply H4| |apply Hc; by eexists]. unfold granted. cbn. by rewrite H3.
Qed.

Lemma AbortTransactionCc_ok s cce t1 t2 node : shard_ok s → shard_ok (AbortTransactionCc s cce t1 t2 node).1.
Proof.
  intros Hs. unfold AbortTransactionCc. destruct (tx_info s node t1); [|done].
  case_decide; [|done]. destruct (GetKeyLock s cce) as [k|] eqn:E; [|done].
  pose proof (GetKeyLock_orderly _ _ _ (sk_locks _ Hs) E) as Ho.
  pose proof (orderly_step_ok _ _ (ostep_abort (key_lock_ k) t2) Ho) as Ho'.
  unfold AbortQueueRequest in *. destruct (abort_queue_loop _ _ _ _) as [q aborted]. cbn [fst snd] in *.
  eapply put_key_lock_ok; [done|done|done|done|done|]. by left.
Qed.

Lemma ActiveTxMinTs_ok leader_term s ng clock standby :
  shard_ok s → shard_ok (ActiveTxMinTs leader_term s ng clock standby).2.
Proof.
  intros Hs. unfold ActiveTxMinTs. set (s1 := foldl _ _ _).
  assert (shard_ok s1) as Hs1.
  { eapply same_locks_ok; [|done]. apply foldl_same. intros. apply CheckRecoverTx_same. }
  clearbody s1.
  assert (∀ s2, shard_ok s2 → shard_ok (set_locks s2 (cc_lock_and_extra_ s2)
    (TryResizeLockArray (Now s2) (lock_array s2)))) as Hr.
  { intros s2 [Hok Hc]. split; [by apply TryResize_ok|]. intros cce t (k & Hk & Hh).
    rewrite GetKeyLock_resize in Hk by done. apply (Hc cce t). by eexists. }
  case_decide; [|by apply Hr]. cbn [snd]. apply Hr.
  eapply same_locks_ok; [|done]. by split_and!.
Qed.
End recorded.

(** ** The lock protocol *)

Section protocol.
Context {C O : Type} (alloc : gset Z → Z) (leader_term : Z → Z) (exempt : Z → Z → Prop).
Hypothesis alloc_fresh : ∀ X, alloc X ∉ X.
Abbreviation klock := (KeyGapLock lock_queue block_queue C O).
Abbreviation shard := (CcShard C O).
Implicit Types (s : shard) (k : klock) (req : CcRequestBase).

(** A transaction with a request in the entry's queue makes no further request
    for the entry. *)
Definition not_waiting s (cce : Z) req : Prop :=
  ∀ k, GetKeyLock s cce = Some k → ¬ queued (key_lock_ k) (Txn req).

Lemma acquire_key_lock_ok s cce page req ng ng_term tx_term ty proto ccm tbl :
  shard_ok exempt s → not_waiting s cce req →
  ∃ err s', acquire_key_lock alloc leader_term s cce page req ng ng_term tx_term ty proto ccm tbl =
      Some (ty, err, s') ∧ shard_ok exempt s'.
Proof.
  intros [Hok Hc] Hnw. unfold acquire_key_lock.
  destruct (GetOrCreate_ok alloc alloc_fresh s ccm page cce Hok)
    as (k & s1 & -> & Hok1 & Hk & Hu & He & Hne & Hold & Hhold & Hqueue).
  cbn [mbind option_bind].
  assert (orderly (key_lock_ k)) as Ho by by eapply GetKeyLock_orderly.
  assert (¬ queued (key_lock_ k) (Txn req) ∧
    ∀ t, held (key_lock_ k) t → holds_lock s cce t) as [Hq Hh].
  { destruct Hold as [Hold|(Hold & lk & Hlk & ->)].
    - split; [by apply Hnw|]. intros t ?. by exists k.
    - split; [by apply reset_not_queued|]. intros t Ht. by apply reset_not_held in Ht. }
  assert (∀ c t, covered exempt s c t → covered exempt s1 c t) as Hcov.
  { intros c t. apply covered_mono; unfold recorded, granted, tx_info; by rewrite ?Hhold, ?Hqueue. }
  assert (shard_ok exempt s1) as Hs1.
  { split; [done|]. intros c t (k1 & Hk1 & Ht). apply Hcov, Hc. destruct (decide (c = cce)) as [->|].
    - simplify_eq. by apply Hh.
    - rewrite Hne in Hk1 by done. by exists k1. }
  pose proof (orderly_acquire (key_lock_ k) req proto ty Hq Ho) as Ho'.
  pose proof (acquire_held (key_lock_ k) req proto ty) as Ha.
  destruct (AcquireLock (key_lock_ k) req proto ty) as [status lk]. cbn [fst snd] in *.
  assert (status ≠ Successful → shard_ok exempt (put_key_lock s1 cce k lk [])) as Hput.
  { intros Hst. eapply put_key_lock_ok; [done|done|done|done|done|]. intros t Ht.
    destruct (Ha t Ho Ht) as [|[_ ?]]; [by left|done]. }
  destruct status; eexists _, _; split; try done.
  - eapply same_locks_ok; [apply check_writer_same|]. split; [by eapply put_key_lock_locks_ok|].
    intros c t Hh'. change (holds_lock (put_key_lock s1 cce k lk []) c t) in Hh'.
    assert (covered exempt s1 c t ∨ c = cce ∧ t = Txn req) as [Hc1|[-> ->]].
    { eapply put_key_lock_holds in Hh' as [[-> Hh']|[_ Hh']]; [..|done|done].
      - destruct (Ha t Ho Hh') as [Hb|[-> _]]; [|by right]. left. by apply Hcov, Hc, Hh.
      - left. by apply Hs1. }
    + apply (covered_mono exempt (put_key_lock s1 cce k lk [])); [|done|].
      * intros. apply Upsert_recorded. by left.
      * by apply put_key_lock_covered.
    + left. apply Upsert_recorded. by right.
  - eapply same_locks_ok; [apply RecoverTxForLockConfilct_same|by apply Hput].
  - eapply same_locks_ok; [apply RecoverTxForLockConfilct_same|by apply Hput].
Qed.

Lemma must_wait_write_spec s cce cc_op iso read_ts k :
  must_wait_write s cce cc_op iso read_ts = Some k → GetKeyLock s cce = Some k.
Proof.
  unfold must_wait_write. destruct (_ && _); [|done].
  destruct (GetKeyLock s cce) as [k1|]; [|done]. cbn. destruct (_ && _); congruence.
Qed.

(** [AcquireCceKeyLock] never fails, and every lock held afterwards is accounted
    for. *)
Lemma AcquireCceKeyLock_ok s cce commit_ts page status req ng ng_term tx_term ty op iso proto
    read_ts ccm tbl :
  shard_ok exempt s → not_waiting s cce req →
  (∀ k, must_wait_write s cce op iso read_ts = Some k → ¬ is_writer (key_lock_ k) (Txn req)) →
  ∃ r s', AcquireCceKeyLock alloc leader_term s cce commit_ts page status req ng ng_term tx_term ty
      op iso proto read_ts ccm tbl = Some (r, s') ∧ shard_ok exempt s'.
Proof.
  intros Hs Hnw Hw. unfold AcquireCceKeyLock.
  destruct (bool_decide (iso = Snapshot) && _ && _); [eauto|].
  destruct (must_wait_write s cce op iso read_ts) as [k|] eqn:E.
  - pose proof (must_wait_write_spec _ _ _ _ _ _ E) as Hk. eexists _, _. split; [done|].
    eapply same_locks_ok; [apply CheckRecoverTx_same|].
    eapply put_key_lock_ok; [done|done|done|done| |by left].
    eapply orderly_step_ok; [apply ostep_insert; [by apply Hnw|by apply Hw]|].
    eapply GetKeyLock_orderly; [apply Hs|done].
  - case_decide; [eauto|]. destruct (_ || _ || _).
    + destruct (acquire_key_lock_ok s cce page req ng ng_term tx_term ty proto ccm tbl Hs Hnw)
        as (err & s' & -> & Hs'). eauto.
    + eexists _, _. split; [done|]. eapply same_locks_ok; [apply check_writer_same|done].
Qed.

End protocol.

Section resumed.
Context {C O : Type} (exempt : Z → Z → Prop).
Implicit Types (s : CcShard C O) (req : CcRequestBase).

(** The exemption of one more lock, and its end. *)
Definition exempt_also (cce t : Z) : Z → Z → Prop :=
  λ c t', exempt c t' ∨ c = cce ∧ t' = t.

Lemma exempt_dequeue s cce req q1 q2 :
  shard_ok exempt s → cc_queue_ s = q1 ++ (cce, req) :: q2 →
  shard_ok (exempt_also cce (Txn req)) (set_cc_queue s (q1 ++ q2)).
Proof.
  intros [Hok Hc] Hq. split; [done|]. intros c t Hh. change (holds_lock s c t) in Hh.
  destruct (Hc c t Hh) as [Hr|[(r & Hr & Hin)|Hx]]; [by left| |by right; right; left].
  rewrite Hq in Hin. right.
  apply elem_of_app in Hin as [Hin|[Hin|Hin]%elem_of_cons]; [left|simplify_eq; right; by right|left];
    exists r; (split; [done|]); cbn; apply elem_of_app; auto.
Qed.

Lemma exempt_drop s cce t :
  shard_ok (exempt_also cce t) s → (holds_lock s cce t → covered exempt s cce t) →
  shard_ok exempt s.
Proof.
  intros [Hok Hc] Ht. split; [done|]. intros c t' Hh.
  destruct (Hc c t' Hh) as [?|[?|[?|[-> ->]]]]; [by left|by right; left|by right; right|by apply Ht].
Qed.

(** The release of a lock that is about to be forgotten. *)
Lemma resumed_release_ok s cce k req ng lk popped :
  shard_ok (exempt_also cce (Txn req)) s → GetKeyLock s cce = Some k →
  releases (key_lock_ k) (Txn req) lk popped →
  shard_ok exempt (DeleteLockHoldingTx (RecycleKeyLock (put_key_lock s cce k lk popped) cce).2
    (Txn req) cce ng).
Proof.
  intros Hs Hk Hrel. set (s1 := put_key_lock s cce k lk popped).
  assert (holds_lock s1 cce (Txn req) → granted s1 cce (Txn req)) as Hg.
  { intros Hh. apply put_key_lock_granted. right. split; [done|].
    eapply put_key_lock_holds in Hh as [[_ Hh]|[? _]]; [by apply Hrel|done|apply Hs|done]. }
  assert (shard_ok exempt s1) as Hs1.
  { apply (exempt_drop _ cce (Txn req)); [eapply put_key_lock_ok; try done; apply Hrel|].
    intros Hh. right. left. by apply Hg. }
  destruct (Recycle_frame s1 cce (sk_locks _ _ Hs1)) as (Hq & _ & Hr).
  apply Delete_ok; [by apply RecycleKeyLock_ok|]. intros Hh%Hr%Hg. left.
  unfold granted. by rewrite Hq.
Qed.

Lemma releases_none (lk : NonBlockingLock lock_queue) t :
  orderly lk → SearchLock lk t = NoLock → releases lk t lk [].
Proof. intros Ho Hn. split; [done|by left|]. intros Hh. by destruct Hh. Qed.

Lemma held_mode (lk : NonBlockingLock lock_queue) t :
  (SearchLock lk t = ReadLock → t ∈ read_locks_ lk) ∧
  (SearchLock lk t = WriteIntent → write_lk_type_ lk = WriteIntentHeld ∧ write_txn_ lk = t) ∧
  (SearchLock lk t = NoLock → t ∉ read_locks_ lk ∧ ¬ is_writer lk t).
Proof.
  split_and!.
  - unfold SearchLock. destruct (HasWriteLockOrWriteIntent lk t); repeat case_decide; done.
  - unfold SearchLock. destruct (HasWriteLockOrWriteIntent lk t) eqn:E;
      [|repeat case_decide; done].
    apply HasWriteLockOrWriteIntent_spec in E as [? ?].
    case_decide; [done|]. by destruct (write_lk_type_ lk).
  - rewrite SearchLock_NoLock. tauto.
Qed.

(** The request [req], taken from the queue, is resumed with the lock it was
    granted. *)
Lemma LockHandle_ok s cce commit_ts status req ng tx_term op iso proto read_ts cov tbl k :
  shard_ok (exempt_also cce (Txn req)) s → GetKeyLock s cce = Some k →
  SearchLock (key_lock_ k) (Txn req) = NoLock ∨
    SearchLock (key_lock_ k) (Txn req) = DeduceLockType op iso proto cov →
  ∃ r s', LockHandleForResumedRequest s cce commit_ts status req ng tx_term op iso proto read_ts
      cov tbl = Some (r, s') ∧ shard_ok exempt s'.
Proof.
  intros Hs Hk Hmode. unfold LockHandleForResumedRequest. rewrite Hk. cbn [mbind option_bind].
  pose proof (GetKeyLock_orderly _ _ _ (sk_locks _ _ Hs) Hk) as Ho.
  destruct (held_mode (key_lock_ k) (Txn req)) as (Hrl & Hwi & Hno).
  destruct (bool_decide (_ = ReadLock) && bool_decide (status = Deleted)) eqn:E1.
  { bool_to_prop.
    assert (releases (key_lock_ k) (Txn req) (ReleaseReadLock (key_lock_ k) (Txn req)).1.2
      (ReleaseReadLock (key_lock_ k) (Txn req)).2) as Hrel.
    { destruct Hmode as [Hm|Hm].
      - pose proof (releases_none _ _ Ho Hm) as Hrel. unfold ReleaseReadLock.
        rewrite decide_False; [done|]. by apply Hno.
      - apply release_read_releases; [done|]. apply Hrl. congruence. }
    destruct (ReleaseReadLock _ _) as [[b lk] popped]. eexists _, _. split; [done|].
    by apply resumed_release_ok. }
  destruct (bool_decide (_ = WriteIntent) && _ && _) eqn:E2.
  { bool_to_prop.
    assert (releases (key_lock_ k) (Txn req) (ReleaseWriteIntent (key_lock_ k) (Txn req)).1.2
      (ReleaseWriteIntent (key_lock_ k) (Txn req)).2) as Hrel.
    { unfold ReleaseWriteIntent. destruct Hmode as [Hm|Hm].
      - pose proof (releases_none _ _ Ho Hm) as Hrel. destruct (Hno Hm) as [_ Hnw].
        destruct (_ && _) eqn:E; [|done]. bool_to_prop. destruct Hnw. split; [congruence|done].
      - destruct (Hwi ltac:(congruence)) as [Hw1 Hw2].
        rewrite !bool_decide_eq_true_2 by done. cbn [andb with_pop fst snd].
        apply release_writer_releases; [done|]. split; [congruence|done]. }
    destruct (ReleaseWriteIntent _ _) as [[b lk] popped]. eexists _, _. split; [done|].
    by apply resumed_release_ok. }
  eexists _, _. split; [done|]. apply (exempt_drop _ cce (Txn req)).
  - by apply Upsert_ok.
  - intros _. left. apply Upsert_recorded. by right.
Qed.

Lemma resume_post_write_ok s cce req k :
  shard_ok (exempt_also cce (Txn req)) s → GetKeyLock s cce = Some k →
  SearchLock (key_lock_ k) (Txn req) = NoLock ∨ SearchLock (key_lock_ k) (Txn req) = ReadLock →
  ∃ s', resume_post_write s cce req = Some s' ∧ shard_ok exempt s'.
Proof.
  intros Hs Hk Hmode. unfold resume_post_write. rewrite Hk. cbn [mbind option_bind].
  pose proof (GetKeyLock_orderly _ _ _ (sk_locks _ _ Hs) Hk) as Ho.
  destruct (held_mode (key_lock_ k) (Txn req)) as (Hrl & _ & Hno).
  assert (releases (key_lock_ k) (Txn req) (ReleaseReadLock (key_lock_ k) (Txn req)).1.2
    (ReleaseReadLock (key_lock_ k) (Txn req)).2) as Hrel.
  { destruct Hmode as [Hm|Hm].
    - pose proof (releases_none _ _ Ho Hm) as Hrel. unfold ReleaseReadLock.
      rewrite decide_False; [done|]. by apply Hno.
    - apply release_read_releases; [done|]. by apply Hrl. }
  destruct (ReleaseReadLock _ _) as [[b lk] popped]. cbn [fst snd] in Hrel.
  eexists. split; [done|]. apply (exempt_drop _ cce (Txn req)).
  - eapply put_key_lock_ok; try done; apply Hrel.
  - intros Hh. eapply put_key_lock_holds in Hh as [[_ Hh]|[? _]]; [|done|apply Hs|done].
    right. left. apply put_key_lock_granted. right. split; [done|]. by apply Hrel.
Qed.
End resumed.

(** ** A shard at work *)

Section steps.
Context {C O : Type} (alloc : gset Z → Z) (leader_term : Z → Z) (reserved : gset Z).
Abbreviation shard := (CcShard C O).
Implicit Types (s : shard) (req : CcRequestBase).

(** [Init] with an array of [n] structures. *)
Definition CcShard_Init (n : nat) (ts : Z) : shard :=
  let '(h, vec) := emplace_locks alloc n ∅ [] in
  mkShard ∅ (mkLockArray h vec 0 0 0) ∅ [] 0 ts [].

(** The operations on locks, as the handlers call them.  A transaction with a
    waiting request does not ask for the same entry again; a request taken from
    the queue is resumed with the lock it was granted, or with none when the
    transaction was cleared in between. *)
Inductive shard_step : shard → shard → Prop :=
  | step_acquire s s' cce commit_ts page status req ng ng_term tx_term ty op iso proto read_ts ccm
      tbl r :
      not_waiting s cce req →
      (∀ k, must_wait_write s cce op iso read_ts = Some k → ¬ is_writer (key_lock_ k) (Txn req)) →
      AcquireCceKeyLock alloc leader_term s cce commit_ts page status req ng ng_term tx_term ty op
        iso proto read_ts ccm tbl = Some (r, s') →
      shard_step s s'
  | step_resume s s' q1 q2 cce commit_ts status req ng tx_term op iso proto read_ts cov tbl k r :
      cc_queue_ s = q1 ++ (cce, req) :: q2 → GetKeyLock s cce = Some k →
      SearchLock (key_lock_ k) (Txn req) = NoLock ∨
        SearchLock (key_lock_ k) (Txn req) = DeduceLockType op iso proto cov →
      LockHandleForResumedRequest (set_cc_queue s (q1 ++ q2)) cce commit_ts status req ng tx_term op
        iso proto read_ts cov tbl = Some (r, s') →
      shard_step s s'
  | step_resume_read s s' q1 q2 cce req k :
      cc_queue_ s = q1 ++ (cce, req) :: q2 → GetKeyLock s cce = Some k →
      SearchLock (key_lock_ k) (Txn req) = NoLock ∨
        SearchLock (key_lock_ k) (Txn req) = ReadLock →
      resume_post_write (set_cc_queue s (q1 ++ q2)) cce req = Some s' →
      shard_step s s'
  | step_release s cce txn ng ty recycle : shard_step s (ReleaseCceLock s cce txn ng ty recycle)
  | step_downgrade s cce txn : shard_step s (DowngradeCceKeyWriteLock s cce txn)
  | step_clear_tx s keep txn : shard_step s (CcShard_ClearTx keep s txn)
  | step_clear_locks s cce ng : shard_step s (ClearLocks s cce ng).1
  | step_abort s cce t1 t2 node : shard_step s (AbortTransactionCc s cce t1 t2 node).1
  | step_ckpt_ts s ng clock standby :
      shard_step s (ActiveTxMinTs leader_term s ng clock standby).2
  | step_recycle s cce : shard_step s (RecycleKeyLock s cce).2
  | step_pin s s1 cce ccm page req k :
      not_waiting s cce req → Txn req ∈ reserved →
      GetOrCreateKeyLock alloc s ccm page cce = Some (k, s1) →
      shard_step s (put_key_lock s1 cce k (AcquireReadIntent (key_lock_ k) (Txn req)).2 [])
  | step_extra s cce k k' :
      GetKeyLock s cce = Some k → key_lock_ k' = key_lock_ k → in_use_ k' = in_use_ k →
      entry_ k' = entry_ k → shard_step s (put_lock s cce k')
  | step_tick s ts : shard_step s (UpdateTsBase s ts).

Definition shard_reachable s : Prop :=
  ∃ n ts, rtc shard_step (CcShard_Init (S n) ts) s.

Definition is_reserved : Z → Z → Prop := λ _ t, t ∈ reserved.

Hypothesis alloc_fresh : ∀ X, alloc X ∉ X.

Lemma Init_ok n ts : shard_ok is_reserved (CcShard_Init (S n) ts).
Proof.
  unfold CcShard_Init. destruct (emplace_locks alloc (S n) ∅ []) as [h vec] eqn:E.
  assert (slots_ok (∅ : gmap Z (KeyGapLock lock_queue block_queue C O)) []) as Hs0.
  { split; [constructor|set_solver|]. intros p. rewrite lookup_empty.
    split; [set_solver|by intros [? ?]]. }
  destruct (emplace_locks_spec alloc alloc_fresh _ _ _ _ _ E Hs0) as (Hs & Hlen & _ & _ & Hk & _).
  assert (∀ p k, h !! p = Some k → k = KeyGapLock_new) as Hnew
    by (intros p k [?|[_ ?]]%Hk; [by rewrite lookup_empty in *|done]).
  split.
  - split; cbn.
    + split; cbn; [done|lia].
    + intros cce p H. by rewrite lookup_empty in H.
    + intros p k ->%Hnew. done.
    + done.
    + intros p k ->%Hnew. apply new_lock_orderly.
  - intros cce t (k & Hk1 & _). unfold GetKeyLock in Hk1. cbn in Hk1.
    by rewrite lookup_empty in Hk1.
Qed.

Lemma pin_ok s s1 cce ccm page req k :
  shard_ok is_reserved s → not_waiting s cce req → Txn req ∈ reserved →
  GetOrCreateKeyLock alloc s ccm page cce = Some (k, s1) →
  shard_ok is_reserved (put_key_lock s1 cce k (AcquireReadIntent (key_lock_ k) (Txn req)).2 []).
Proof.
  intros [Hok Hc] Hnw Hr Hget.
  destruct (GetOrCreate_ok alloc alloc_fresh s ccm page cce Hok)
    as (k' & s' & Hget' & Hok1 & Hk & _ & _ & Hne & Hold & Hhold & Hqueue). simplify_eq.
  assert (orderly (key_lock_ k)) as Ho by by eapply GetKeyLock_orderly.
  assert (¬ queued (key_lock_ k) (Txn req) ∧ ∀ t, held (key_lock_ k) t → holds_lock s cce t) as [Hq Hh].
  { destruct Hold as [Hold|(Hold & lk & Hlk & ->)].
    - split; [by apply Hnw|]. intros t ?. by exists k.
    - split; [by apply reset_not_queued|]. intros t Ht. by apply reset_not_held in Ht. }
  assert ((AcquireLock (key_lock_ k) req Locking ReadIntent).2 =
    (AcquireReadIntent (key_lock_ k) (Txn req)).2) as Hacq
    by (cbn; by destruct (AcquireReadIntent (key_lock_ k) (Txn req))).
  rewrite <-Hacq. split.
  - eapply put_key_lock_locks_ok; [done|done|done|done|]. by apply orderly_acquire.
  - intros c t Hh'. apply put_key_lock_covered.
    assert (holds_lock s c t ∨ t = Txn req) as [Hs| ->].
    { eapply put_key_lock_holds in Hh' as [[-> Hh']|[Hc' (k1 & Hk1 & Hh')]]; [..|done|done].
      - destruct (acquire_held _ _ _ _ _ Ho Hh') as [|[-> _]]; [left; by apply Hh|by right].
      - left. exists k1. by rewrite <-Hne. }
    + eapply covered_mono; [..|by apply Hc]; unfold recorded, granted, tx_info; by rewrite ?Hhold, ?Hqueue.
    + right. by right.
Qed.

Lemma extra_ok s cce k k' :
  shard_ok is_reserved s → GetKeyLock s cce = Some k → key_lock_ k' = key_lock_ k →
  in_use_ k' = in_use_ k → entry_ k' = entry_ k → shard_ok is_reserved (put_lock s cce k').
Proof.
  intros [Hok Hc] Hk Hl Hu He. split.
  - eapply put_lock_ok; [done..|]. rewrite Hl. by eapply GetKeyLock_orderly.
  - intros c t (k1 & Hk1 & Hh). destruct (put_lock_frame s cce k') as (Hh1 & Hq1 & _).
    assert (holds_lock s c t).
    { destruct (decide (c = cce)) as [->|].
      - erewrite GetKeyLock_put_eq in Hk1 by done. simplify_eq. rewrite Hl in Hh. by exists k.
      - rewrite GetKeyLock_put_ne in Hk1 by done. by exists k1. }
    eapply covered_mono; [..|by apply Hc]; unfold recorded, granted, tx_info; by rewrite ?Hh1, ?Hq1.
Qed.

Lemma shard_step_ok s s' : shard_step s s' → shard_ok is_reserved s → shard_ok is_reserved s'.
Proof.
  intros Hst Hs. destruct Hst.
  - destruct (AcquireCceKeyLock_ok alloc leader_term is_reserved alloc_fresh s cce commit_ts page
      status req ng ng_term tx_term ty op iso proto read_ts ccm tbl Hs) as (? & ? & ? & ?);
      [done|done|]. congruence.
  - pose proof (exempt_dequeue _ _ cce req q1 q2 Hs ltac:(done)) as Hd.
    destruct (LockHandle_ok _ _ cce commit_ts status req ng tx_term op iso proto read_ts cov tbl k Hd)
      as (? & ? & ? & ?); [done|done|]. congruence.
  - pose proof (exempt_dequeue _ _ cce req q1 q2 Hs ltac:(done)) as Hd.
    destruct (resume_post_write_ok _ _ cce req k Hd) as (? & ? & ?); [done|done|]. congruence.
  - by apply ReleaseCceLock_ok.
  - by apply Downgrade_ok.
  - by apply CcShard_ClearTx_ok.
  - by apply ClearLocks_ok.
  - by apply AbortTransactionCc_ok.
  - by apply ActiveTxMinTs_ok.
  - by apply RecycleKeyLock_ok.
  - by eapply pin_ok.
  - by eapply extra_ok.
  - eapply same_locks_ok; [|done]. by split_and!.
Qed.

Lemma shard_reachable_ok s : shard_reachable s → shard_ok is_reserved s.
Proof.
  intros (n & ts & Hr). assert (shard_ok is_reserved (CcShard_Init (S n) ts)) as H0 by apply Init_ok.
  revert H0. induction Hr; [done|]. intros. eapply IHHr, shard_step_ok; done.
Qed.
End steps.

(** ** The checkpoint timestamp is below every writer *)

Section ckpt_ts.
Context {C O : Type} (leader_term : Z → Z).
Implicit Types (s : CcShard C O) (txs : gmap Z TxLockInfo) (info : TxLockInfo).

(** A transaction that has locked data for writing. *)
Definition data_writer info : Prop := IsMeta (table_type_ info) = false ∧ tx_wlock_ts_ info ≠ 0%Z.

Lemma min_write_ts_spec txs :
  (∀ t info, txs !! t = Some info → is_u64 (tx_wlock_ts_ info)) →
  (min_write_ts txs = UINT64_MAX ∧ (∀ t info, txs !! t = Some info → ¬ data_writer info)) ∨
  (∃ t info, txs !! t = Some info ∧ data_writer info ∧
     min_write_ts txs = (tx_wlock_ts_ info - 1)%Z ∧ (min_write_ts txs < UINT64_MAX)%Z ∧
     ∀ t' info', txs !! t' = Some info' → data_writer info' →
                 (tx_wlock_ts_ info ≤ tx_wlock_ts_ info')%Z).
Proof.
  unfold min_write_ts.
  apply (map_fold_weak_ind (λ (r : Z) (m : gmap Z TxLockInfo),
    (∀ t info, m !! t = Some info → is_u64 (tx_wlock_ts_ info)) →
    (r = UINT64_MAX ∧ (∀ t info, m !! t = Some info → ¬ data_writer info)) ∨
    (∃ t info, m !! t = Some info ∧ data_writer info ∧ r = (tx_wlock_ts_ info - 1)%Z ∧
       (r < UINT64_MAX)%Z ∧
       ∀ t' info', m !! t' = Some info' → data_writer info' →
                   (tx_wlock_ts_ info ≤ tx_wlock_ts_ info')%Z))).
  { intros _. left. split; [done|]. intros t info H. by rewrite lookup_empty in H. }
  intros t info m r Hm IH Hu.
  assert (is_u64 (tx_wlock_ts_ info)) as Hi by (apply (Hu t); by rewrite lookup_insert_eq).
  assert (∀ t' info', <[t := info]> m !! t' = Some info' → info' = info ∨ m !! t' = Some info') as Hin
    by (intros t' info' [[_ ?]|[_ ?]]%lookup_insert_Some; auto).
  assert (∀ t' info', m !! t' = Some info' → <[t := info]> m !! t' = Some info') as Hsub.
  { intros t' info' H. rewrite lookup_insert_ne; [done|]. intros <-. congruence. }
  specialize (IH (λ t' i' H, Hu t' i' (Hsub t' i' H))).
  destruct (negb (IsMeta (table_type_ info)) && bool_decide (tx_wlock_ts_ info ≠ 0%Z)) eqn:E.
  - bool_to_prop. assert (data_writer info) as Hw by done.
    unfold is_u64, UINT64_MAX, u64 in *. rewrite Z.mod_small by lia. right.
    destruct IH as [[-> Hno]|(t1 & i1 & H1 & Hw1 & -> & Hlt & Hmin)].
    + exists t, info. rewrite lookup_insert_eq. split_and!; [done|done|lia|lia|].
      intros t' info' [->|Hx]%Hin Hw'; [lia|]. by apply Hno in Hx.
    + destruct (decide (tx_wlock_ts_ info ≤ tx_wlock_ts_ i1)%Z).
      * exists t, info. rewrite lookup_insert_eq. split_and!; [done|done|lia|lia|].
        intros t' info' [->|Hx]%Hin Hw'; [lia|]. specialize (Hmin _ _ Hx Hw'). lia.
      * exists t1, i1. split_and!; [by apply Hsub|done|lia|lia|].
        intros t' info' [->|Hx]%Hin Hw'; [lia|]. by apply (Hmin t').
  - assert (¬ data_writer info) as Hw.
    { intros [H1 H2]. rewrite H1 in E. cbn in E. by apply bool_decide_eq_false in E. }
    destruct IH as [[-> Hno]|(t1 & i1 & H1 & Hw1 & Hr & Hlt & Hmin)]; [left|right].
    + split; [done|]. intros t' info' [->|Hx]%Hin; [done|by apply (Hno t')].
    + exists t1, i1. split_and!; [by apply Hsub|done|done|done|].
      intros t' info' [->|Hx]%Hin Hw'; [done|by apply (Hmin t')].
Qed.

(** The timestamp a checkpoint may use: just below the oldest write lock on a
    data table, or just below the clock when there is none. *)
Lemma ActiveTxMinTs_spec s ng clock standby :
  (∀ t info, tx_info s ng t = Some info → is_u64 (tx_wlock_ts_ info)) →
  let ts := (ActiveTxMinTs leader_term s ng clock standby).1 in
  (∃ t info, tx_info s ng t = Some info ∧ data_writer info ∧ ts = (tx_wlock_ts_ info - 1)%Z ∧
     ∀ t' info', tx_info s ng t' = Some info' → data_writer info' →
                 (tx_wlock_ts_ info ≤ tx_wlock_ts_ info')%Z) ∨
  ((∀ t info, tx_info s ng t = Some info → ¬ data_writer info) ∧
   ts = u64 (Z.max (Now s) clock - 1)).
Proof.
  intros Hu. unfold ActiveTxMinTs.
  assert (∀ t, default ∅ (lock_holding_txs_ s !! ng) !! t = tx_info s ng t) as Hi.
  { intros t. unfold tx_info. destruct (lock_holding_txs_ s !! ng); cbn; [done|apply lookup_empty]. }
  set (txs := default ∅ (lock_holding_txs_ s !! ng)) in *.
  assert (∀ l, Now (foldl (λ s txn, CheckRecoverTx leader_term s txn ng
    (if decide (leader_term ng < 0)%Z then standby else leader_term ng)) s l) = Now s) as Hnow.
  { intros l. clear. revert s. induction l as [|x l IH]; intros s; cbn; [done|]. rewrite IH.
    unfold Now. by destruct (CheckRecoverTx_frame leader_term s x ng
      (if decide (leader_term ng < 0)%Z then standby else leader_term ng)) as (_ & _ & _ & -> & _). }
  destruct (min_write_ts_spec txs) as [[-> Hno]|(t & info & Ht & Hw & Hr & Hlt & Hmin)].
  - intros t info. rewrite Hi. apply Hu.
  - right. rewrite decide_True by done. cbn [fst]. rewrite Hnow. split; [|done].
    intros t info Ht. apply (Hno t). by rewrite Hi.
  - left. rewrite decide_False by lia. cbn [fst]. exists t, info. rewrite <-Hi.
    split_and!; [done|done|done|]. intros t' info'. rewrite <-Hi. apply Hmin.
Qed.
End ckpt_ts.

(** ** What the deadlock detector is told *)

Section collect.
Context {C O : Type}.
Implicit Types (s : CcShard C O) (m : gmap Z EntryLockInfo).

(** [w] waits on [cce], and [t] is another transaction. *)
Definition waits_on s (cce t w : Z) : Prop :=
  ∃ k, GetKeyLock s cce = Some k ∧ queued (key_lock_ k) w ∧ w ≠ t.

Definition in_lock m (cce t : Z) : Prop := ∃ i, m !! cce = Some i ∧ t ∈ lock_txids i.
Definition in_wait m (cce w : Z) : Prop := ∃ i, m !! cce = Some i ∧ w ∈ wait_txids i.

Lemma collect_entry_spec s txn m cce c x :
  (∀ k, GetKeyLock s cce = Some k → queue_ok (key_lock_ k)) →
  (in_lock (collect_entry s txn m cce) c x ↔
     in_lock m c x ∨ c = cce ∧ x = txn ∧ ∃ w, waits_on s cce txn w) ∧
  (in_wait (collect_entry s txn m cce) c x ↔
     in_wait m c x ∨ c = cce ∧ waits_on s cce txn x).
Proof.
  intros Hok. unfold collect_entry, waits_on.
  destruct (GetKeyLock s cce) as [k|]; [|naive_solver]. specialize (Hok k eq_refl).
  rewrite GetBlockTxIds_spec by done. set (vct := filter _ _).
  assert (∀ w, w ∈ vct ↔ queued (key_lock_ k) w ∧ w ≠ txn) as Hv
    by (intros w; unfold vct; rewrite list_elem_of_filter; unfold queued; tauto).
  assert (∀ w, (∃ k0, Some k = Some k0 ∧ queued (key_lock_ k0) w ∧ w ≠ txn) ↔ w ∈ vct) as Hw
    by (intros w; rewrite Hv; naive_solver).
  setoid_rewrite Hw. clearbody vct. clear Hw Hv.
  destruct vct as [|w vct]; [set_solver|]. unfold in_lock, in_wait.
  destruct (decide (c = cce)) as [->|].
  - rewrite lookup_insert_eq. split.
    + split.
      * intros (i & [= <-] & Hx). cbn in Hx. apply elem_of_union in Hx as [?|Hx]; [right; set_solver|].
        destruct (m !! cce) as [i|]; [left; eauto|set_solver].
      * intros [(i & Hi & Hx)|(_ & -> & _)]; eexists; (split; [done|]); cbn; [rewrite Hi|]; set_solver.
    + split.
      * intros (i & [= <-] & Hx). cbn [wait_txids] in Hx.
        apply elem_of_union in Hx as [Hx|Hx]; [right; set_solver|].
        destruct (m !! cce) as [i|]; [left; eauto|set_solver].
      * intros [(i & Hi & Hx)|(_ & Hx)]; eexists; (split; [done|]); cbn [wait_txids];
          [rewrite Hi|]; set_solver.
  - rewrite lookup_insert_ne by done. naive_solver.
Qed.

Lemma collect_entries_spec s txn l m c x :
  (∀ cce k, GetKeyLock s cce = Some k → queue_ok (key_lock_ k)) →
  (in_lock (foldl (collect_entry s txn) m l) c x ↔
     in_lock m c x ∨ c ∈ l ∧ x = txn ∧ ∃ w, waits_on s c txn w) ∧
  (in_wait (foldl (collect_entry s txn) m l) c x ↔
     in_wait m c x ∨ c ∈ l ∧ waits_on s c txn x).
Proof.
  intros Hok. revert m. induction l as [|y l IH]; intros m; cbn; [set_solver|].
  destruct (IH (collect_entry s txn m y)) as [H1 H2].
  destruct (collect_entry_spec s txn m y c x (Hok y)) as [H3 H4].
  rewrite H1, H2, H3, H4, !elem_of_cons. clear. naive_solver.
Qed.

Lemma collect_txs_spec s l acc c x :
  (∀ cce k, GetKeyLock s cce = Some k → queue_ok (key_lock_ k)) →
  (in_lock (foldl (collect_tx s) acc l).1 c x ↔
     in_lock acc.1 c x ∨ ∃ info w, (x, info) ∈ l ∧ c ∈ cce_list_ info ∧ waits_on s c x w) ∧
  (in_wait (foldl (collect_tx s) acc l).1 c x ↔
     in_wait acc.1 c x ∨ ∃ t info, (t, info) ∈ l ∧ c ∈ cce_list_ info ∧ waits_on s c t x).
Proof.
  intros Hok. revert acc. induction l as [|[t info] l IH]; intros acc; cbn; [set_solver|].
  destruct (IH (collect_tx s acc (t, info))) as [H1 H2].
  destruct (collect_entries_spec s t (elements (cce_list_ info)) acc.1 c x Hok) as [H3 H4].
  cbn in H1, H2. rewrite H1, H2, H3, H4. setoid_rewrite elem_of_cons. setoid_rewrite elem_of_elements.
  clear. split; split.
  - intros [[?|(? & -> & w & ?)]|(i & w & ?)]; [by left|right; exists info, w; naive_solver|].
    right. exists i, w. naive_solver.
  - intros [?|(i & w & [[= -> ->]|?] & ? & ?)]; [by left; left|left; right; eauto|]. right. eauto.
  - intros [[?|(? & ?)]|(t' & i & ?)]; [by left|right; exists t, info; naive_solver|].
    right. exists t', i. naive_solver.
  - intros [?|(t' & i & [[= -> ->]|?] & ? & ?)]; [by left; left|left; right; eauto|]. right. eauto.
Qed.

Lemma holding_list_spec s t info :
  (t, info) ∈ holding_list s ↔ ∃ ng, tx_info s ng t = Some info.
Proof.
  unfold holding_list, tx_info. rewrite list_elem_of_bind. split.
  - intros ([ng m] & Hin%elem_of_map_to_list & Hm%elem_of_map_to_list). exists ng.
    cbn in *. by rewrite Hm.
  - intros [ng H]. destruct (lock_holding_txs_ s !! ng) as [m|] eqn:E; [|done]. cbn in H.
    exists (ng, m). split; by apply elem_of_map_to_list.
Qed.

(** The report names a transaction as holder of an entry exactly when it is
    recorded there and blocks somebody, and as waiter exactly when it waits for
    a recorded holder. *)
Lemma CollectLockWaitingInfo_spec s c x :
  (∀ cce k, GetKeyLock s cce = Some k → queue_ok (key_lock_ k)) →
  (in_lock (CollectLockWaitingInfo s (∅, ∅)).1 c x ↔ recorded s c x ∧ ∃ w, waits_on s c x w) ∧
  (in_wait (CollectLockWaitingInfo s (∅, ∅)).1 c x ↔ ∃ t, recorded s c t ∧ waits_on s c t x).
Proof.
  intros Hok. unfold CollectLockWaitingInfo.
  destruct (collect_txs_spec s (holding_list s) (∅, ∅) c x Hok) as [-> ->].
  assert (∀ y, ¬ in_lock ∅ c y ∧ ¬ in_wait ∅ c y) as Hno
    by (intros y; split; intros (i & Hi & _); by rewrite lookup_empty in Hi).
  setoid_rewrite holding_list_spec. unfold recorded. cbn [fst]. destruct (Hno x). naive_solver.
Qed.
End collect.

(** ** Properties of a shard's locks *)

Section properties.
Context {C O : Type} (alloc : gset Z → Z) (leader_term : Z → Z) (reserved : gset Z).
Implicit Types s : CcShard C O.

(**  memory safety of the lock structures.  Entries hold raw pointers into an
    array of structures that is reused, grown and shrunk.  In every reachable
    state of a shard an entry's pointer is live, refers to a structure that is in
    use and belongs to this entry, is shared with no other entry, and
    [used_lock_count_] is the number of entries with a lock. *)
Theorem entry_locks_valid s :
  (∀ X, alloc X ∉ X) → shard_reachable alloc leader_term reserved s →
  (∀ cce p, cc_lock_and_extra_ s !! cce = Some p →
     p ∈ lock_vec_ (lock_array s) ∧
     ∃ k, lock_heap (lock_array s) !! p = Some k ∧ in_use_ k = true ∧ entry_ k = cce) ∧
  (∀ cce1 cce2 p, cc_lock_and_extra_ s !! cce1 = Some p → cc_lock_and_extra_ s !! cce2 = Some p →
     cce1 = cce2) ∧
  used_lock_count_ (lock_array s) = Z.of_nat (size (cc_lock_and_extra_ s)).
Proof.
  intros Hal [[Ha Ho _ Hc _] _]%shard_reachable_ok; [|done]. split_and!; [|..|done].
  - intros cce p Hp. destruct (Ho _ _ Hp) as (k & Hk & ?). split; [|by exists k].
    apply (so_live _ _ (ao_slots _ Ha)). by eexists.
  - intros cce1 cce2 p H1 H2.
    destruct (Ho _ _ H1) as (k1 & ? & _ & <-), (Ho _ _ H2) as (k2 & ? & _ & <-). congruence.
Qed.

(**  no lock is forgotten.  In every reachable state a transaction that holds
    a lock or intent on an entry is recorded in [lock_holding_txs_] with that
    entry, or the request that was granted the lock is still in the shard's
    queue. *)
Theorem held_lock_recorded s cce k t :
  (∀ X, alloc X ∉ X) → shard_reachable alloc leader_term reserved s → t ∉ reserved →
  GetKeyLock s cce = Some k → SearchLock (key_lock_ k) t ≠ NoLock →
  (∃ ng info, tx_info s ng t = Some info ∧ cce ∈ cce_list_ info) ∨
  (∃ req, Txn req = t ∧ (cce, req) ∈ cc_queue_ s).
Proof.
  intros Hal [_ Hc]%shard_reachable_ok Ht Hk Hh; [|done].
  destruct (Hc cce t) as [?|[?|?]]; [by exists k|by left|by right|done].
Qed.

(** C35: clearing a transaction that died releases all it held: afterwards it is
    recorded nowhere and holds nothing, except where a release just granted it a
    lock it was waiting for. *)
Theorem CcShard_ClearTx_complete s keep t :
  (∀ X, alloc X ∉ X) → shard_reachable alloc leader_term reserved s → t ∉ reserved →
  let s' := CcShard_ClearTx keep s t in
  (∀ ng, tx_info s' ng t = None) ∧
  (∀ cce k, GetKeyLock s' cce = Some k → SearchLock (key_lock_ k) t ≠ NoLock →
     ∃ req, Txn req = t ∧ (cce, req) ∈ cc_queue_ s').
Proof.
  intros Hal Hs%shard_reachable_ok Ht; [|done]. split.
  - intros ng. by eapply CcShard_ClearTx_forgets.
  - intros cce k Hk Hh. eapply CcShard_ClearTx_releases; [done|done|]. by exists k.
Qed.

(**  the checkpoint timestamp.  [ActiveTxMinTs] is one below the oldest
    latest-write-lock time among the transactions recorded with a write lock in a
    data table; without one it is one below the clock. *)
Theorem ActiveTxMinTs_below_writers s ng clock standby :
  (∀ t info, tx_info s ng t = Some info → is_u64 (tx_wlock_ts_ info)) →
  let ts := (ActiveTxMinTs leader_term s ng clock standby).1 in
  (∀ t info, tx_info s ng t = Some info → data_writer info → (ts < tx_wlock_ts_ info)%Z) ∧
  ((∃ t info, tx_info s ng t = Some info ∧ data_writer info ∧ ts = (tx_wlock_ts_ info - 1)%Z) ∨
   ((∀ t info, tx_info s ng t = Some info → ¬ data_writer info) ∧
    ts = u64 (Z.max (Now s) clock - 1))).
Proof.
  intros Hu ts. destruct (ActiveTxMinTs_spec leader_term s ng clock standby Hu)
    as [(t & info & Ht & Hw & Hts & Hmin)|[Hno Hts]]; fold ts in Hts.
  - split; [|left; eauto 10]. intros t' info' Ht' Hw'. specialize (Hmin _ _ Ht' Hw'). lia.
  - split; [|by right]. intros t info Ht Hw. by apply Hno in Ht.
Qed.

(**  the shard's report to the deadlock detector is exact for recorded locks
    and misses no wait: if a transaction holds an entry, its request is not
    waiting to be resumed, and another transaction waits in the entry's queue,
    then the holder and the waiter are reported for this entry. *)
Theorem deadlock_report_complete s cce k t w :
  (∀ X, alloc X ∉ X) → shard_reachable alloc leader_term reserved s → t ∉ reserved →
  GetKeyLock s cce = Some k → SearchLock (key_lock_ k) t ≠ NoLock → ¬ granted s cce t →
  queued (key_lock_ k) w → w ≠ t →
  ∃ i, (CollectLockWaitingInfo s (∅, ∅)).1 !! cce = Some i ∧ t ∈ lock_txids i ∧ w ∈ wait_txids i.
Proof.
  intros Hal Hs%shard_reachable_ok Ht Hk Hh Hg Hq Hne; [|done].
  assert (recorded s cce t) as Hr
    by (destruct (sk_covered _ _ Hs cce t) as [?|[?|?]]; [by exists k|done|done|done]).
  assert (∀ cce k, GetKeyLock s cce = Some k → queue_ok (key_lock_ k)) as Hok
    by (intros ? ? ?; by eapply GetKeyLock_orderly; [apply Hs|]).
  assert (waits_on s cce t w) as Hw by by exists k.
  destruct (CollectLockWaitingInfo_spec s cce t Hok) as [[_ H1] _].
  destruct (CollectLockWaitingInfo_spec s cce w Hok) as [_ [_ H2]].
  destruct H1 as (i & Hi & H1); [by eauto|]. destruct H2 as (i' & Hi' & H2); [by eauto|].
  exists i. split_and!; [done|done|congruence].
Qed.
End properties.

(** ** A concrete shard *)

(** An allocator: the address above all addresses in use. *)
Definition bump_alloc (X : gset Z) : Z := (foldr Z.max 0 (elements X) + 1)%Z.

Lemma bump_alloc_fresh X : bump_alloc X ∉ X.
Proof.
  unfold bump_alloc. rewrite <-elem_of_elements.
  assert (∀ x, x ∈ elements X → (x ≤ foldr Z.max 0 (elements X))%Z) as Hm.
  { induction (elements X) as [|y l IH]; intros x; [set_solver|]. cbn.
    intros [->|Hx]%elem_of_cons; [lia|]. specialize (IH x Hx). lia. }
  intros H%Hm. lia.
Qed.

Abbreviation demo_shard := (CcShard unit unit).

(** Transaction [txn] asks for [ty] on entry 50. *)
Definition demo_acquire (s : demo_shard) (ptr txn : Z) (ty : LockType) : option (LockType * CcErrorCode * demo_shard) :=
  AcquireCceKeyLock bump_alloc (λ _, 1%Z) s 50 1 60 Normal (mkReq ptr txn) 0 1 1 ty Write
    RepeatableRead Locking 0 70 Primary.

(** Transaction 7 write-locks entry 50, and transaction 8 waits for it. *)
Definition demo_w7 : demo_shard :=
  match demo_acquire (CcShard_Init bump_alloc 1 100) 11 7 WriteLock with
  | Some (_, s) => s | None => CcShard_Init bump_alloc 1 100 end.
Definition demo_w7_r8 : demo_shard :=
  match demo_acquire demo_w7 12 8 ReadLock with Some (_, s) => s | None => demo_w7 end.

Lemma demo_reachable : shard_reachable bump_alloc (λ _, 1%Z) ∅ demo_w7_r8.
Proof.
  exists 0, 100%Z. eapply rtc_l; [|apply rtc_once].
  - eapply (step_acquire _ _ _ _ demo_w7 50 1 60 Normal (mkReq 11 7) 0 1 1 WriteLock Write
      RepeatableRead Locking 0 70 Primary); [| |vm_compute; reflexivity].
    + intros k Hk. discriminate Hk.
    + intros k Hk. discriminate Hk.
  - eapply (step_acquire _ _ _ _ demo_w7_r8 50 1 60 Normal (mkReq 12 8) 0 1 1 ReadLock Write
      RepeatableRead Locking 0 70 Primary); [| |vm_compute; reflexivity].
    + intros k Hk Hq. vm_compute in Hk. injection Hk as <-.
      unfold queued in Hq. vm_compute in Hq. by inversion Hq.
    + intros k Hk. vm_compute in Hk. discriminate Hk.
Qed.

Lemma entry_locks_valid_witness :
  used_lock_count_ (lock_array demo_w7_r8) = 1%Z ∧ cc_lock_and_extra_ demo_w7_r8 !! 50%Z = Some 1%Z ∧
  ∃ k, lock_heap (lock_array demo_w7_r8) !! 1%Z = Some k ∧ in_use_ k = true ∧ entry_ k = 50%Z.
Proof.
  split; [reflexivity|]. split; [reflexivity|].
  destruct (entry_locks_valid bump_alloc (λ _, 1%Z) ∅ demo_w7_r8 bump_alloc_fresh demo_reachable)
    as [H _]. apply (H 50%Z 1%Z). reflexivity.
Defined.

Lemma held_lock_recorded_witness :
  ∃ k, GetKeyLock demo_w7_r8 50 = Some k ∧ SearchLock (key_lock_ k) 7 = WriteLock ∧
    ((∃ ng info, tx_info demo_w7_r8 ng 7 = Some info ∧ 50%Z ∈ cce_list_ info) ∨
     (∃ req, Txn req = 7%Z ∧ (50%Z, req) ∈ cc_queue_ demo_w7_r8)).
Proof.
  destruct (GetKeyLock demo_w7_r8 50) as [k|] eqn:Hk; [|vm_compute in Hk; discriminate Hk].
  assert (SearchLock (key_lock_ k) 7 = WriteLock) as H7
    by (vm_compute in Hk; injection Hk as <-; reflexivity).
  exists k. split; [reflexivity|]. split; [exact H7|].
  apply (held_lock_recorded bump_alloc (λ _, 1%Z) ∅ demo_w7_r8 50 k 7 bump_alloc_fresh
    demo_reachable); [set_solver|exact Hk|congruence].
Defined.

Lemma CcShard_ClearTx_complete_witness :
  tx_info demo_w7_r8 0 7 ≠ None ∧
  ∀ ng, tx_info (CcShard_ClearTx false demo_w7_r8 7) ng 7 = None.
Proof.
  split; [vm_compute; discriminate|].
  apply (CcShard_ClearTx_complete bump_alloc (λ _, 1%Z) ∅ demo_w7_r8 false 7 bump_alloc_fresh
    demo_reachable). set_solver.
Defined.

Lemma ActiveTxMinTs_below_writers_witness :
  (ActiveTxMinTs (λ _, 1%Z) demo_w7_r8 0 500 0).1 = 99%Z ∧
  ∀ t info, tx_info demo_w7_r8 0 t = Some info → data_writer info →
    ((ActiveTxMinTs (λ _, 1%Z) demo_w7_r8 0 500 0).1 < tx_wlock_ts_ info)%Z.
Proof.
  split; [reflexivity|].
  apply (ActiveTxMinTs_below_writers (λ _, 1%Z) demo_w7_r8 0 500 0).
  intros t info Hi. unfold tx_info in Hi. vm_compute in Hi. destruct t as [|p|p]; try discriminate Hi.
  assert (p = 7%positive) as -> by (repeat (destruct p as [p|p|]; try discriminate Hi); reflexivity).
  injection Hi as <-. unfold is_u64. cbn. lia.
Defined.

Lemma deadlock_report_complete_witness :
  ∃ i, (CollectLockWaitingInfo demo_w7_r8 (∅, ∅)).1 !! 50%Z = Some i ∧
    7%Z ∈ lock_txids i ∧ 8%Z ∈ wait_txids i.
Proof.
  destruct (GetKeyLock demo_w7_r8 50) as [k|] eqn:Hk; [|vm_compute in Hk; discriminate Hk].
  apply (deadlock_report_complete bump_alloc (λ _, 1%Z) ∅ demo_w7_r8 50 k 7 8 bump_alloc_fresh
    demo_reachable); [set_solver|exact Hk| | | |lia];
    vm_compute in Hk; injection Hk as <-.
  - vm_compute. discriminate.
  - intros (req & _ & Hin). vm_compute in Hin. by inversion Hin.
  - unfold queued. vm_compute. constructor.
Defined.

(** ** Divergences *)

(** [UpsertLockHoldingTx] overwrites [table_type_] with the table of the latest
    lock.  A transaction that write-locked a data entry at 100 and then reads a
    catalog entry is no longer seen by [ActiveTxMinTs], and the timestamp passes
    its write lock. *)
Lemma ActiveTxMinTs_skips_writer :
  let s := UpsertLockHoldingTx demo_w7 7 1 51 false 0 Catalog in
  (∃ info, tx_info s 0 7 = Some info ∧ tx_wlock_ts_ info = 100%Z ∧ 50%Z ∈ cce_list_ info) ∧
  (ActiveTxMinTs (λ _, 1%Z) s 0 500 0).1 = 499%Z.
Proof.
  split; [|vm_compute; reflexivity].
  exists (mkTxLockInfo 1 100 100 {[51; 50]} Catalog)%Z.
  split; [vm_compute; reflexivity|]. split; [reflexivity|]. cbn. set_solver.
Qed.

(** A snapshot read of transaction 9 waits for the write lock of 7.  When it is
    resumed its read lock is released, but the lock structure, now empty, is not
    recycled: entry 50 keeps it and cannot be evicted. *)
Definition demo_wait9 : option (LockType * CcErrorCode * demo_shard) :=
  AcquireCceKeyLock bump_alloc (λ _, 1%Z) demo_w7 50 1 60 Normal (mkReq 13 9) 0 1 1 NoLock Read
    Snapshot OccRead 5 70 Primary.

Definition demo_resumed9 : option demo_shard :=
  r ← demo_wait9;
  resume_post_write (set_cc_queue (ReleaseCceLock r.2 50 7 0 WriteLock true) []) 50 (mkReq 13 9).

Lemma resume_post_write_leaks_lock :
  fst <$> demo_wait9 = Some (NoLock, MVCC_READ_MUST_WAIT_WRITE) ∧
  (r ← demo_wait9; Some (cc_queue_ (ReleaseCceLock r.2 50 7 0 WriteLock true))) =
    Some [(50%Z, mkReq 13 9)] ∧
  (s ← demo_resumed9; k ← GetKeyLock s 50; Some (in_use_ k, KeyGapLock_IsEmpty k)) =
    Some (true, true).
Proof. split_and!; vm_compute; reflexivity. Qed.

(** [AbortTransactionCc] looks its node id up among node group ids.  With the
    group's id the waiting request of 8 is aborted; with another node id nothing
    happens. *)
Lemma AbortTransactionCc_needs_group_id :
  (AbortTransactionCc demo_w7_r8 50 7 8 0).2 = [mkReq 12 8] ∧
  AbortTransactionCc demo_w7_r8 50 7 8 3 = (demo_w7_r8, []).
Proof. split; vm_compute; reflexivity. Qed.
