(* ===== verification/LockModes.v ===== *)
(** * What a transaction holds on an entry, and who can take it away

    The lock operations of a shard seen from one transaction: the mode it holds
    on an entry never becomes weaker by what the others do, and as long as it
    holds a mode the entry keeps its lock structure, so the address the
    transaction was given stays valid. *)

From S2P Require Import Prelude CcProtocol Queue CircularQueue NonBlockingLock CcEntry TxCommand.
From S2P Require Import DeadLockCheck KeyLock LockArray ShardLocks.

(** ** On one lock *)

Section lock.
Context {Q : Type} `{!QueueOps Q LockQueueEntry, !QueueSpec Q LockQueueEntry}.
Implicit Types (lk : NonBlockingLock Q) (t : Z) (req : CcRequestBase).

Definition stronger (t : Z) lk lk' : Prop := lock_rank (SearchLock lk t) ≤ lock_rank (SearchLock lk' t).

Lemma stronger_eq t lk lk' : SearchLock lk' t = SearchLock lk t → stronger t lk lk'.
Proof. unfold stronger. by intros ->. Qed.

Lemma stronger_grant lk e w lk1 t :
  grant_queued lk e = Some lk1 → one_mode lk (e :: w) → stronger t lk lk1.
Proof.
  intros Hg [_ _ _ Hk]. destruct (decide (t = entry_txn e)) as [->|Hne].
  2:{ apply stronger_eq. by eapply grant_other. }
  specialize (Hk e ltac:(set_solver)). unfold wants_weak in Hk. unfold stronger.
  unfold grant_queued in Hg. destruct (lk_type_ e); simplify_eq; [done|done|..]; case_match; simplify_eq.
  - rewrite add_read_lock_self by auto. apply rank_not_writer. auto.
  - rewrite UpgradeLock_self by auto. pose proof (rank_not_writer lk (entry_txn e) ltac:(auto)). cbn in *. lia.
  - rewrite UpgradeLock_self by auto. destruct (SearchLock lk (entry_txn e)); cbn; lia.
Qed.

Lemma stronger_pop lk t : orderly lk → stronger t lk (TryPopBlockingQueue lk).1.
Proof.
  intros [Hok Hm].
  destruct (TryPopBlockingQueue_spec lk Hok) as (popped & rest & lk1 & q & Hw & Hg & _ & -> & _).
  rewrite Hw in Hm. change (stronger t lk lk1). clear Hok Hw. revert lk Hg Hm.
  induction popped as [|e l IH]; cbn; intros lk Hg Hm; simplify_eq; [by unfold stronger|].
  destruct (grant_queued lk e) as [lk2|] eqn:E; [|done].
  pose proof (stronger_grant _ _ _ _ t E Hm) as H1.
  pose proof (IH lk2 Hg (one_mode_grant _ _ _ _ E Hm)) as H2. unfold stronger in *. lia.
Qed.

Lemma stronger_acquire lk req proto ty t :
  queue_ok lk → stronger t lk (AcquireLock lk req proto ty).2.
Proof.
  intros Hok. pose proof (AcquireLock_outcome_ok lk req proto ty Hok) as H. unfold stronger.
  destruct (AcquireLock lk req proto ty) as [[] lk']; cbn in *.
  - destruct H as (_ & _ & _ & Hs & Ho & _). destruct (decide (t = Txn req)) as [->|]; [done|]. by rewrite Ho.
  - by destruct H as [-> _].
  - by destruct H as [-> _].
Qed.

(** A change that takes only [t0] out of the holders. *)
Lemma stronger_drop_read lk t0 t ri rl :
  ri = read_intentions_ lk ∨ ri = read_intentions_ lk ∖ {[t0]} →
  rl = read_locks_ lk ∨ rl = read_locks_ lk ∖ {[t0]} →
  t ≠ t0 → stronger t lk (set_read lk ri rl).
Proof. intros Hi Hl Hne. apply stronger_eq, SearchLock_ext; cbn; set_solver. Qed.

Lemma stronger_drop_writer lk t0 t :
  is_writer lk t0 → t ≠ t0 → stronger t lk (set_write lk NoWritelock 0).
Proof.
  intros [H1 H2] Hne. apply stronger_eq, SearchLock_ext; try done; unfold is_writer; cbn; naive_solver.
Qed.

Lemma stronger_read_release lk t0 t :
  orderly lk → t ≠ t0 → stronger t lk (ReleaseReadLock lk t0).1.2.
Proof.
  intros Hok Hne. unfold ReleaseReadLock. case_decide; [|by unfold stronger]. cbn [with_pop fst snd].
  set (lk1 := set_read _ _ _).
  assert (stronger t lk lk1) as H1 by (apply (stronger_drop_read lk t0); auto).
  pose proof (stronger_pop lk1 t) as H2. unfold stronger in *. etrans; [exact H1|apply H2].
  eapply orderly_weaken; [..|done]; cbn; [done|set_solver|set_solver|done].
Qed.

Lemma stronger_intent_release lk t0 t : t ≠ t0 → stronger t lk (ReleaseReadIntent lk t0).2.
Proof.
  intros Hne. unfold ReleaseReadIntent. case_decide; [|by unfold stronger]. cbn [snd].
  apply (stronger_drop_read lk t0); auto.
Qed.

Lemma stronger_writer_release lk t0 t :
  orderly lk → is_writer lk t0 → t ≠ t0 →
  stronger t lk (TryPopBlockingQueue (set_write lk NoWritelock 0)).1.
Proof.
  intros Hok Hw Hne. pose proof (stronger_drop_writer lk t0 t Hw Hne) as H1.
  pose proof (stronger_pop _ t (orderly_set_no_writer lk Hok)) as H2. unfold stronger in *. lia.
Qed.

Lemma stronger_clear lk t0 t : orderly lk → t ≠ t0 → stronger t lk (ClearTx lk t0).1.2.
Proof.
  intros Hok Hne. unfold ClearTx.
  pose proof (stronger_read_release lk t0 t Hok Hne) as H1.
  destruct (ReleaseReadLock lk t0) as [[[] lk1] out1]; [done|].
  pose proof (stronger_intent_release lk t0 t Hne) as H2.
  destruct (ReleaseReadIntent lk t0) as [[] lk2]; [done|].
  destruct (HasWriteLockOrWriteIntent lk t0) eqn:E; [|by unfold stronger].
  apply HasWriteLockOrWriteIntent_spec in E.
  pose proof (stronger_writer_release lk t0 t Hok E Hne) as H3. by destruct (TryPopBlockingQueue _).
Qed.
End lock.

Lemma stronger_unlock (lk : NonBlockingLock lock_queue) t0 t ty :
  orderly lk → t ≠ t0 → stronger t lk (unlock lk t0 ty).1.2.
Proof.
  intros Hok Hne. unfold unlock. destruct ty; [by apply stronger_clear| | |by apply stronger_clear|].
  - pose proof (stronger_intent_release lk t0 t Hne). by destruct (ReleaseReadIntent lk t0) as [[] ?].
  - pose proof (stronger_read_release lk t0 t Hok Hne). by destruct (ReleaseReadLock lk t0) as [[[] ?] ?].
  - unfold ReleaseWriteLock. destruct (HasWriteLock_of lk t0) eqn:E; [|by unfold stronger].
    apply HasWriteLock_of_spec in E as [E1 E2]. cbn [with_pop fst snd].
    apply (stronger_writer_release lk t0); [done| |done]. split; [by rewrite E1|done].
Qed.

(** ** On the entries of a shard *)

Section shard.
Context {C O : Type}.
Abbreviation klock := (KeyGapLock lock_queue block_queue C O).
Implicit Types (s : CcShard C O) (k : klock) (cce t : Z).

Definition mode s (cce t : Z) : LockType :=
  match GetKeyLock s cce with Some k => SearchLock (key_lock_ k) t | None => NoLock end.

(** From [s] to [s'], [t] keeps what it holds. *)
Record keeps (t : Z) s s' : Prop := {
  kp_mode : ∀ cce, lock_rank (mode s cce t) ≤ lock_rank (mode s' cce t);
  kp_addr : ∀ cce, mode s cce t ≠ NoLock → cc_lock_and_extra_ s' !! cce = cc_lock_and_extra_ s !! cce;
}.

Lemma rank_NoLock m : lock_rank m = 0 ↔ m = NoLock.
Proof. by destruct m. Qed.

Lemma rank_held m m' : lock_rank m ≤ lock_rank m' → m ≠ NoLock → m' ≠ NoLock.
Proof. by destruct m, m'; cbn; try lia. Qed.

#[export] Instance keeps_preorder t : PreOrder (keeps t).
Proof.
  split; [intros s; by split|]. intros s1 s2 s3 [H1 H2] [H3 H4]. split.
  - intros cce. specialize (H1 cce). specialize (H3 cce). lia.
  - intros cce Hm. rewrite (H4 cce), (H2 cce Hm); [done|]. exact (rank_held _ _ (H1 cce) Hm).
Qed.

Lemma keeps_locks t s s' :
  cc_lock_and_extra_ s' = cc_lock_and_extra_ s → lock_array s' = lock_array s → keeps t s s'.
Proof. intros Hm Ha. split; [|by rewrite Hm]. intros cce. unfold mode, GetKeyLock. by rewrite Hm, Ha. Qed.

Lemma keeps_same t s s' : same_locks s s' → keeps t s s'.
Proof. intros (? & ? & _). by apply keeps_locks. Qed.

Lemma put_key_lock_map s cce k lk popped :
  cc_lock_and_extra_ (put_key_lock s cce k lk popped) = cc_lock_and_extra_ s.
Proof. unfold put_key_lock, put_lock. cbn. by destruct (cc_lock_and_extra_ s !! cce). Qed.

Lemma put_key_lock_mode s cce k k0 lk popped cce' t :
  locks_ok s → GetKeyLock s cce = Some k0 →
  mode (put_key_lock s cce k lk popped) cce' t = if decide (cce' = cce) then SearchLock lk t else mode s cce' t.
Proof.
  intros Hok Hk. unfold mode. destruct (decide (cce' = cce)) as [->|Hne].
  - by erewrite put_key_lock_get by done.
  - by rewrite put_key_lock_get_ne.
Qed.

Lemma keeps_put t s cce k k0 lk popped :
  locks_ok s → GetKeyLock s cce = Some k0 → stronger t (key_lock_ k0) lk →
  keeps t s (put_key_lock s cce k lk popped).
Proof.
  intros Hok Hk Hl. split; [|by rewrite put_key_lock_map]. intros cce'.
  rewrite (put_key_lock_mode _ _ _ k0) by done. destruct (decide (cce' = cce)) as [->|]; [|done].
  unfold mode. by rewrite Hk.
Qed.

(** An empty structure is held by nobody. *)
Lemma empty_not_held k t : KeyGapLock_IsEmpty k = true → SearchLock (key_lock_ k) t = NoLock.
Proof.
  unfold KeyGapLock_IsEmpty. destruct (IsEmpty (key_lock_ k)) eqn:E; [|done]. intros _.
  unfold IsEmpty in E. bool_to_prop. apply SearchLock_NoLock.
  unfold is_writer. set_solver.
Qed.

Lemma keeps_recycle t s cce : locks_ok s → keeps t s (RecycleKeyLock s cce).2.
Proof.
  intros Hok. unfold RecycleKeyLock. destruct (GetKeyLock s cce) as [k|] eqn:E; [|done].
  destruct (KeyGapLock_IsEmpty k) eqn:He; [|done]. cbn [snd].
  pose proof (empty_not_held k t He) as Hn.
  assert (∀ cce', mode s cce' t ≠ NoLock → cce' ≠ cce) as Hne.
  { intros cce' Hm ->. unfold mode in Hm. by rewrite E in Hm. }
  split.
  - intros cce'. destruct (decide (mode s cce' t = NoLock)) as [->|Hm]; [cbn; lia|].
    unfold mode. rewrite GetKeyLock_return_ne; [done|done|]. by apply not_eq_sym, Hne.
  - intros cce' Hm%Hne. unfold return_lock. cbn. rewrite lookup_delete_ne by done.
    unfold put_lock. by destruct (cc_lock_and_extra_ s !! cce).
Qed.

Lemma Delete_locks s txn cce ng :
  cc_lock_and_extra_ (DeleteLockHoldingTx s txn cce ng) = cc_lock_and_extra_ s ∧
  lock_array (DeleteLockHoldingTx s txn cce ng) = lock_array s ∧
  ts_base_ (DeleteLockHoldingTx s txn cce ng) = ts_base_ s.
Proof. unfold DeleteLockHoldingTx. destruct (tx_info s ng txn); [|done]. by case_decide. Qed.

Lemma keeps_Delete t s txn cce ng : keeps t s (DeleteLockHoldingTx s txn cce ng).
Proof. destruct (Delete_locks s txn cce ng) as (? & ? & _). by apply keeps_locks. Qed.

(** The release of one transaction's lock leaves the others theirs. *)
Lemma keeps_release t s cce txn ng ty recycle :
  locks_ok s → t ≠ txn → keeps t s (ReleaseCceLock s cce txn ng ty recycle).
Proof.
  intros Hok Hne. unfold ReleaseCceLock. destruct (GetKeyLock s cce) as [k|] eqn:E; [|done].
  pose proof (GetKeyLock_orderly _ _ _ Hok E) as Ho.
  pose proof (stronger_unlock (key_lock_ k) txn t ty Ho Hne) as Hs.
  pose proof (unlock_releases (key_lock_ k) txn ty Ho) as Hr.
  destruct (unlock (key_lock_ k) txn ty) as [[ut lk] popped]. cbn [fst snd] in Hs.
  case_decide as Hut; [by eapply keeps_put|].
  set (lk1 := if decide (ut = WriteLock) then SetWLockTs lk 0 else lk).
  assert (stronger t (key_lock_ k) lk1 ∧ orderly lk1) as [Hs1 Ho1].
  { destruct Hr as [Hr _]. specialize (Hr Hut). destruct Hr as [Ho1 _ _].
    unfold lk1. case_decide; [|done]. split; [done|by apply orderly_wlock_ts]. }
  set (s1 := put_key_lock s cce k lk1 popped).
  assert (keeps t s s1) as H1 by by eapply keeps_put.
  assert (locks_ok s1) as Hok1 by by eapply put_key_lock_locks_ok.
  etrans; [exact H1|]. etrans; [apply keeps_Delete|]. destruct recycle; [|done].
  apply keeps_recycle. destruct (Delete_locks s1 txn cce ng) as (Hm & Ha & _). unfold locks_ok.
  by rewrite Hm, Ha.
Qed.

Lemma Recycle_now s cce : ts_base_ (RecycleKeyLock s cce).2 = ts_base_ s.
Proof.
  unfold RecycleKeyLock. destruct (GetKeyLock s cce) as [k|]; [|done]. destruct (KeyGapLock_IsEmpty k); [|done].
  cbn. by destruct (put_lock_frame s cce (SetUsedStatus (Now s) k false)) as (_ & _ & ?).
Qed.

(** Other entries are not touched. *)
Lemma recycle_other_entry s cce κ t :
  locks_ok s → κ ≠ cce →
  mode (RecycleKeyLock s cce).2 κ t = mode s κ t ∧
  cc_lock_and_extra_ (RecycleKeyLock s cce).2 !! κ = cc_lock_and_extra_ s !! κ.
Proof.
  intros Hok Hne. unfold RecycleKeyLock. destruct (GetKeyLock s cce) as [k|] eqn:E; [|done].
  destruct (KeyGapLock_IsEmpty k); [|done]. cbn [snd]. unfold mode. rewrite GetKeyLock_return_ne by done.
  split; [done|]. unfold return_lock. cbn. rewrite lookup_delete_ne by done. unfold put_lock.
  by destruct (cc_lock_and_extra_ s !! cce).
Qed.

Lemma release_other_entry s cce txn ng ty recycle κ t :
  locks_ok s → κ ≠ cce →
  mode (ReleaseCceLock s cce txn ng ty recycle) κ t = mode s κ t ∧
  cc_lock_and_extra_ (ReleaseCceLock s cce txn ng ty recycle) !! κ = cc_lock_and_extra_ s !! κ.
Proof.
  intros Hok Hne. unfold ReleaseCceLock. destruct (GetKeyLock s cce) as [k|] eqn:E; [|done].
  pose proof (GetKeyLock_orderly _ _ _ Hok E) as Ho. pose proof (unlock_releases (key_lock_ k) txn ty Ho) as Hr.
  destruct (unlock (key_lock_ k) txn ty) as [[ut lk] popped].
  assert (∀ lk1, mode (put_key_lock s cce k lk1 popped) κ t = mode s κ t ∧
            cc_lock_and_extra_ (put_key_lock s cce k lk1 popped) !! κ = cc_lock_and_extra_ s !! κ) as Hput.
  { intros lk1. rewrite put_key_lock_map, (put_key_lock_mode _ _ _ k), decide_False by done. done. }
  case_decide as Hut; [apply Hput|]. set (lk1 := if decide (ut = WriteLock) then SetWLockTs lk 0 else lk).
  assert (orderly lk1) as Ho1.
  { destruct Hr as [Hr _]. specialize (Hr Hut). destruct Hr as [Ho1 _ _]. unfold lk1.
    case_decide; [by apply orderly_wlock_ts|done]. }
  destruct (Delete_locks (put_key_lock s cce k lk1 popped) txn cce ng) as (Hm & Ha & _).
  assert (locks_ok (DeleteLockHoldingTx (put_key_lock s cce k lk1 popped) txn cce ng)) as Hok1.
  { unfold locks_ok. rewrite Hm, Ha. by eapply put_key_lock_locks_ok. }
  assert (mode (DeleteLockHoldingTx (put_key_lock s cce k lk1 popped) txn cce ng) κ t = mode s κ t ∧
    cc_lock_and_extra_ (DeleteLockHoldingTx (put_key_lock s cce k lk1 popped) txn cce ng) !! κ =
      cc_lock_and_extra_ s !! κ) as [H1 H2].
  { unfold mode, GetKeyLock. rewrite Hm, Ha. apply (Hput lk1). }
  destruct recycle; [|done]. destruct (recycle_other_entry _ cce κ t Hok1 Hne) as [-> ->]. done.
Qed.

(** A transaction that does not wait for the entry holds nothing on it after a
    release that names no mode. *)
Lemma release_clears s cce txn ng recycle :
  locks_ok s → (∀ k, GetKeyLock s cce = Some k → ¬ queued (key_lock_ k) txn) →
  mode (ReleaseCceLock s cce txn ng NoLock recycle) cce txn = NoLock.
Proof.
  intros Hok Hq. unfold ReleaseCceLock. destruct (GetKeyLock s cce) as [k|] eqn:E; [|unfold mode; by rewrite E].
  pose proof (GetKeyLock_orderly _ _ _ Hok E) as Ho. pose proof (unlock_releases (key_lock_ k) txn NoLock Ho) as Hr.
  destruct (ClearTx_clears (key_lock_ k) txn Ho (Hq k eq_refl)) as [_ Hc]. cbn [unlock] in *.
  destruct (ClearTx (key_lock_ k) txn) as [[ut lk] popped]. cbn [fst snd] in Hc.
  assert (∀ lk1, SearchLock lk1 txn = NoLock → mode (put_key_lock s cce k lk1 popped) cce txn = NoLock) as Hput.
  { intros lk1 H1. by rewrite (put_key_lock_mode _ _ _ k), decide_True. }
  case_decide as Hut; [by apply Hput|]. set (lk1 := if decide (ut = WriteLock) then SetWLockTs lk 0 else lk).
  assert (SearchLock lk1 txn = NoLock ∧ orderly lk1) as [H1 Ho1].
  { destruct Hr as [Hr _]. specialize (Hr Hut). destruct Hr as [Ho1 _ _]. unfold lk1.
    case_decide; [|done]. split; [done|by apply orderly_wlock_ts]. }
  destruct (Delete_locks (put_key_lock s cce k lk1 popped) txn cce ng) as (Hm & Ha & _).
  set (s1 := DeleteLockHoldingTx (put_key_lock s cce k lk1 popped) txn cce ng) in *.
  assert (mode s1 cce txn = NoLock) as Hs1. { unfold mode, GetKeyLock. rewrite Hm, Ha. by apply Hput. }
  destruct recycle; [|done]. unfold RecycleKeyLock. destruct (GetKeyLock s1 cce) as [k1|] eqn:E1; [|done].
  destruct (KeyGapLock_IsEmpty k1); [|done]. cbn [snd]. unfold mode, GetKeyLock, return_lock. cbn.
  by rewrite lookup_delete_eq.
Qed.

Lemma release_now s cce txn ng ty recycle : ts_base_ (ReleaseCceLock s cce txn ng ty recycle) = ts_base_ s.
Proof.
  unfold ReleaseCceLock. destruct (GetKeyLock s cce) as [k|]; [|done].
  destruct (unlock (key_lock_ k) txn ty) as [[ut lk] popped].
  assert (∀ lk1, ts_base_ (put_key_lock s cce k lk1 popped) = ts_base_ s) as Hput.
  { intros lk1. unfold put_key_lock. cbn. by destruct (put_lock_frame s cce (set_key_lock k lk1)) as (_ & _ & ?). }
  case_decide; [apply Hput|]. set (s1 := DeleteLockHoldingTx _ _ _ _).
  assert (ts_base_ s1 = ts_base_ s) as H1.
  { unfold s1. destruct (Delete_locks (put_key_lock s cce k (if decide (ut = WriteLock) then SetWLockTs lk 0 else lk) popped) txn cce ng)
      as (_ & _ & ->). apply Hput. }
  destruct recycle; [by rewrite Recycle_now|done].
Qed.
End shard.

Section acquire.
Context {C O : Type} (alloc : gset Z → Z) (leader_term : Z → Z).
Hypothesis alloc_fresh : ∀ X, alloc X ∉ X.
Implicit Types (s : CcShard C O) (cce t : Z) (req : CcRequestBase).

Lemma CheckRecoverTx_now s txn ng term : ts_base_ (CheckRecoverTx leader_term s txn ng term) = ts_base_ s.
Proof. by destruct (CheckRecoverTx_frame leader_term s txn ng term) as (_ & _ & _ & ? & _). Qed.

Lemma RecoverTx_now s lk ty ng term :
  ts_base_ (RecoverTxForLockConfilct leader_term s lk ty ng term) = ts_base_ s.
Proof.
  unfold RecoverTxForLockConfilct. destruct ty; try done.
  - destruct (HasWriteLock lk); [apply CheckRecoverTx_now|done].
  - case_decide; [done|apply CheckRecoverTx_now].
  - case_decide; [|apply CheckRecoverTx_now]. generalize (elements (read_locks_ lk)). intros l.
    revert s. induction l as [|x l IH]; intros s; cbn; [done|]. by rewrite IH, CheckRecoverTx_now.
Qed.

Lemma check_writer_now s lk txn ng term : ts_base_ (check_writer leader_term s lk txn ng term) = ts_base_ s.
Proof.
  unfold check_writer. destruct lk; [|done]. destruct (_ && _); [apply CheckRecoverTx_now|done].
Qed.

Lemma put_key_lock_now s cce k lk popped : ts_base_ (put_key_lock s cce k lk popped) = ts_base_ s.
Proof. unfold put_key_lock. cbn. by destruct (put_lock_frame s cce (set_key_lock k lk)) as (_ & _ & ?). Qed.

Lemma keeps_create t s s1 ccm page cce k :
  locks_ok s → GetOrCreateKeyLock alloc s ccm page cce = Some (k, s1) →
  keeps t s s1 ∧ GetKeyLock s1 cce = Some k ∧ locks_ok s1 ∧ ts_base_ s1 = ts_base_ s.
Proof.
  intros Hok Hget. destruct (GetOrCreate_ok alloc alloc_fresh s ccm page cce Hok)
    as (k' & s' & Hget' & Hok1 & Hk & _ & _ & Hne & Hold & _). simplify_eq.
  split_and!; [|done|done|].
  - split.
    + intros cce'. destruct (decide (cce' = cce)) as [->|Hc]; [|unfold mode; by rewrite Hne].
      unfold mode. rewrite Hk. destruct Hold as [-> | [-> _]]; [done|cbn; lia].
    + intros cce' Hm. revert Hget. unfold GetOrCreateKeyLock.
      destruct (cc_lock_and_extra_ s !! cce) as [p|] eqn:E.
      { destruct (lock_heap (lock_array s) !! p); cbn; [by intros [= <- <-]|done]. }
      destruct (NewLock alloc (Now s) (lock_array s) ccm page cce) as [[p a]|]; cbn; [|done].
      destruct (lock_heap a !! p); cbn; [|done]. intros [= <- <-]. cbn.
      rewrite lookup_insert_ne; [done|]. intros <-. unfold mode, GetKeyLock in Hm. by rewrite E in Hm.
  - revert Hget. unfold GetOrCreateKeyLock.
    destruct (cc_lock_and_extra_ s !! cce) as [p|].
    { destruct (lock_heap (lock_array s) !! p); cbn; [by intros [= <- <-]|done]. }
    destruct (NewLock alloc (Now s) (lock_array s) ccm page cce) as [[p a]|]; cbn; [|done].
    destruct (lock_heap a !! p); cbn; [by intros [= <- <-]|done].
Qed.

(** What an acquisition on [cce] for [req] leaves: nobody loses a mode, and a
    successful one gives the transaction at least [ty]. *)
Definition acquired s (cce : Z) req (ty : LockType) (err : CcErrorCode) s' : Prop :=
  (∀ t, keeps t s s') ∧ ts_base_ s' = ts_base_ s ∧
  (err = NO_ERROR → lock_rank ty ≤ lock_rank (mode s' cce (Txn req))).

Lemma acquire_key_lock_modes s cce page req ng ng_term tx_term ty proto ccm tbl ty' err s' :
  locks_ok s →
  acquire_key_lock alloc leader_term s cce page req ng ng_term tx_term ty proto ccm tbl = Some (ty', err, s') →
  ty' = ty ∧ acquired s cce req ty err s'.
Proof.
  intros Hok. unfold acquire_key_lock.
  destruct (GetOrCreateKeyLock alloc s ccm page cce) as [[k s1]|] eqn:Hg; cbn [mbind option_bind]; [|done].
  assert (∀ t, keeps t s s1) as Hk1 by (intros t; by eapply keeps_create).
  destruct (keeps_create 0 _ _ _ _ _ _ Hok Hg) as (_ & Hk & Hok1 & Hnow).
  pose proof (GetKeyLock_orderly _ _ _ Hok1 Hk) as [Hq _].
  pose proof (AcquireLock_outcome_ok (key_lock_ k) req proto ty Hq) as Hout.
  assert (∀ t, stronger t (key_lock_ k) (AcquireLock (key_lock_ k) req proto ty).2) as Hst
    by (intros t; by apply stronger_acquire).
  destruct (AcquireLock (key_lock_ k) req proto ty) as [status lk]. cbn [snd] in Hst.
  set (s2 := put_key_lock s1 cce k lk []).
  assert (∀ t, keeps t s s2) as Hk2.
  { intros t. etrans; [apply Hk1|]. by eapply keeps_put. }
  assert (ts_base_ s2 = ts_base_ s) as Hn2 by (unfold s2; by rewrite put_key_lock_now).
  assert (∀ s3, same_locks s2 s3 → ∀ t, keeps t s s3) as Hsame.
  { intros s3 H3 t. etrans; [apply Hk2|]. by apply keeps_same. }
  destruct status.
  - set (s3 := UpsertLockHoldingTx s2 (Txn req) tx_term cce (bool_decide (ty = WriteLock)) ng tbl).
    pose proof (check_writer_same leader_term s3 (Some lk) (Txn req) ng ng_term) as Hc.
    pose proof (check_writer_now s3 (Some lk) (Txn req) ng ng_term) as Hn3.
    generalize dependent (check_writer leader_term s3 (Some lk) (Txn req) ng ng_term).
    intros s4 Hc Hn3 [= <- <- <-]. split; [done|]. split_and!.
    + apply Hsame. transitivity s3; [|done]. split_and!; try done. intros. apply Upsert_recorded. by left.
    + by rewrite Hn3.
    + intros _. destruct Hout as (_ & _ & Hr & _). unfold mode. rewrite (same_locks_get _ _ _ Hc).
      change (GetKeyLock s3 cce) with (GetKeyLock s2 cce). unfold s2. by erewrite put_key_lock_get.
  - intros [= <- <- <-]. split; [done|]. split_and!; [apply Hsame, RecoverTxForLockConfilct_same|by rewrite RecoverTx_now|].
    by destruct (_ && _).
  - intros [= <- <- <-]. split; [done|]. split_and!; [apply Hsame, RecoverTxForLockConfilct_same|by rewrite RecoverTx_now|done].
Qed.

Lemma AcquireCceKeyLock_modes s cce commit_ts page status req ng ng_term tx_term ty op iso proto read_ts ccm tbl
    ty' err s' :
  locks_ok s →
  AcquireCceKeyLock alloc leader_term s cce commit_ts page status req ng ng_term tx_term ty op iso proto
    read_ts ccm tbl = Some (ty', err, s') →
  (ty' = NoLock ∨ ty' = ty) ∧ acquired s cce req ty' err s' ∧
  (ty = WriteLock → op = Write → ty' = ty).
Proof.
  intros Hok. unfold AcquireCceKeyLock.
  assert (∀ s1 e, (∀ t, keeps t s s1) → ts_base_ s1 = ts_base_ s → acquired s cce req NoLock e s1) as Hno
    by (intros s1 e ? ?; split; [done|]; split; [done|cbn; lia]).
  destruct (bool_decide (iso = Snapshot) && bool_decide (op = ReadForWrite) && _) eqn:E0.
  { intros [= <- <- <-]. bool_to_prop. split_and!; [auto|by apply Hno|by intros _ ->]. }
  destruct (must_wait_write s cce op iso read_ts) as [k|] eqn:E.
  - pose proof (must_wait_write_spec _ _ _ _ _ _ E) as Hk. intros [= <- <- <-].
    split; [auto|]. split.
    + apply Hno; [|by rewrite CheckRecoverTx_now, put_key_lock_now].
      intros t. etrans; [|apply keeps_same, CheckRecoverTx_same].
      eapply keeps_put; [done|done|]. by apply stronger_eq.
    + intros _ ->. unfold must_wait_write in E. by rewrite andb_comm in E.
  - destruct (decide (ty = NoLock)) as [->|Hn]; [intros [= <- <- <-]; split_and!; [auto|by apply Hno|done]|].
    destruct (_ || _ || _) eqn:Eb.
    + intros [-> Ha]%acquire_key_lock_modes; [|done]. auto.
    + intros [= <- <- <-]. bool_to_prop. split_and!; [auto| |naive_solver].
      apply Hno; [|apply check_writer_now]. intros t. apply keeps_same, check_writer_same.
Qed.

(** ** Refused acquisitions *)

Lemma create_modes s s1 ccm page cce k κ t :
  locks_ok s → GetOrCreateKeyLock alloc s ccm page cce = Some (k, s1) → mode s1 κ t = mode s κ t.
Proof.
  intros Hok Hget. destruct (GetOrCreate_ok alloc alloc_fresh s ccm page cce Hok)
    as (k' & s' & Hget' & Hok1 & Hk & _ & _ & Hne & Hold & _). simplify_eq. unfold mode.
  destruct (decide (κ = cce)) as [->|Hc]; [|by rewrite Hne]. rewrite Hk.
  destruct Hold as [-> | (-> & lk & Ho & ->)]; [done|]. apply SearchLock_NoLock.
  pose proof (reset_not_held lk t) as Hn. rewrite held_spec in Hn. tauto.
Qed.

Lemma same_locks_mode s s' κ t : same_locks s s' → mode s' κ t = mode s κ t.
Proof. intros Hs. unfold mode. by rewrite (same_locks_get _ _ _ Hs). Qed.

(** An acquisition that is not successful changes nobody's mode. *)
Lemma refused_modes s cce commit_ts page status req ng ng_term tx_term ty op iso proto read_ts ccm tbl ty' err s' :
  locks_ok s →
  AcquireCceKeyLock alloc leader_term s cce commit_ts page status req ng ng_term tx_term ty op iso proto
    read_ts ccm tbl = Some (ty', err, s') →
  err ≠ NO_ERROR → ∀ κ t, mode s' κ t = mode s κ t.
Proof.
  intros Hok. unfold AcquireCceKeyLock.
  destruct (bool_decide (iso = Snapshot) && bool_decide (op = ReadForWrite) && _); [by intros [= <- <- <-]|].
  destruct (must_wait_write s cce op iso read_ts) as [k|] eqn:E.
  { pose proof (must_wait_write_spec _ _ _ _ _ _ E) as Hk. intros [= <- <- <-] _ κ t.
    rewrite (same_locks_mode _ _ _ _ (CheckRecoverTx_same _ _ _ _ _)), (put_key_lock_mode _ _ _ k) by done.
    destruct (decide (κ = cce)) as [->|]; [|done]. unfold mode. by rewrite Hk. }
  case_decide; [by intros [= <- <- <-]|]. destruct (_ || _ || _); [|by intros [= <- <- <-]]. unfold acquire_key_lock.
  destruct (GetOrCreateKeyLock alloc s ccm page cce) as [[k s1]|] eqn:Hg; cbn [mbind option_bind]; [|done].
  destruct (keeps_create 0 _ _ _ _ _ _ Hok Hg) as (_ & Hk & Hok1 & _).
  pose proof (AcquireLock_outcome_ok (key_lock_ k) req proto ty (proj1 (GetKeyLock_orderly _ _ _ Hok1 Hk))) as Hout.
  destruct (AcquireLock (key_lock_ k) req proto ty) as [st lk].
  assert (st ≠ Successful → ∀ κ t, mode (put_key_lock s1 cce k lk []) κ t = mode s κ t) as Hput.
  { intros Hst κ t. rewrite (put_key_lock_mode _ _ _ k), <-(create_modes _ _ _ _ _ _ κ t Hok Hg) by done.
    destruct (decide (κ = cce)) as [->|]; [|done]. unfold mode. rewrite Hk.
    destruct st; [done|by destruct Hout as [-> _]..]. }
  destruct st; intros [= <- <- <-] Hne κ t; [done|..];
    rewrite (same_locks_mode _ _ _ _ (RecoverTxForLockConfilct_same _ _ _ _ _ _)); by apply Hput.
Qed.
End acquire.

(** ** Resumed requests *)

Section resumed.
Context {C O : Type}.
Implicit Types (s : CcShard C O) (cce t : Z) (req : CcRequestBase).

(** The invariant of the locks is that of the shard without the records. *)
Lemma locks_ok_shard s : locks_ok s ↔ shard_ok (λ _ _, True) s.
Proof. split; [|by intros []]. intros Hs. split; [done|]. intros cce t _. by right; right. Qed.

Lemma exempt_all s cce t : locks_ok s → shard_ok (exempt_also (λ _ _, True) cce t) s.
Proof. intros Hs. split; [done|]. intros c u _. right. right. by left. Qed.

Lemma stronger_write_intent_release (lk : NonBlockingLock lock_queue) t0 t :
  orderly lk → t ≠ t0 → stronger t lk (ReleaseWriteIntent lk t0).1.2.
Proof.
  intros Ho Hne. unfold ReleaseWriteIntent. destruct (_ && _) eqn:E; [|by unfold stronger]. cbn [with_pop fst snd].
  bool_to_prop. apply (stronger_writer_release lk t0); [done| |done]. split; [congruence|done].
Qed.

(** A request gives its lock back and is forgotten. *)
Lemma keeps_forget s cce k lk popped txn ng :
  locks_ok s → GetKeyLock s cce = Some k → orderly lk → (∀ t, t ≠ txn → stronger t (key_lock_ k) lk) →
  let s' := DeleteLockHoldingTx (RecycleKeyLock (put_key_lock s cce k lk popped) cce).2 txn cce ng in
  ts_base_ s' = ts_base_ s ∧ ∀ t, t ≠ txn → keeps t s s'.
Proof.
  intros Hok Hk Ho Hst s'. assert (locks_ok (put_key_lock s cce k lk popped)) as Hok1 by (by eapply put_key_lock_locks_ok).
  split.
  - unfold s'. destruct (Delete_locks (RecycleKeyLock (put_key_lock s cce k lk popped) cce).2 txn cce ng) as (_ & _ & ->).
    by rewrite Recycle_now, put_key_lock_now.
  - intros t Hne. etrans; [eapply keeps_put; [done|exact Hk|by apply Hst]|].
    etrans; [by apply keeps_recycle|]. apply keeps_Delete.
Qed.

(** Only the lock of the resumed request may go. *)
Lemma LockHandle_modes s cce commit_ts status req ng tx_term op iso proto read_ts cov tbl lock err s' :
  locks_ok s →
  mode s cce (Txn req) = NoLock ∨ mode s cce (Txn req) = DeduceLockType op iso proto cov →
  LockHandleForResumedRequest s cce commit_ts status req ng tx_term op iso proto read_ts cov tbl =
    Some (lock, err, s') →
  locks_ok s' ∧ ts_base_ s' = ts_base_ s ∧ (∀ t, t ≠ Txn req → keeps t s s') ∧
  (lock ≠ NoLock → lock = DeduceLockType op iso proto cov ∧
     cc_lock_and_extra_ s' = cc_lock_and_extra_ s ∧ lock_array s' = lock_array s).
Proof.
  intros Hok Hmode Hlh.
  destruct (GetKeyLock s cce) as [k|] eqn:Hk;
    [|unfold LockHandleForResumedRequest in Hlh; by rewrite Hk in Hlh].
  unfold mode in Hmode. rewrite Hk in Hmode. pose proof (GetKeyLock_orderly _ _ _ Hok Hk) as Ho.
  assert (locks_ok s') as Hok'.
  { destruct (LockHandle_ok (λ _ _, True) s cce commit_ts status req ng tx_term op iso proto read_ts cov tbl k)
      as (r0 & s0 & H0 & Hs0); [by apply exempt_all|done|done|]. rewrite H0 in Hlh. injection Hlh as _ <-.
    by apply locks_ok_shard. }
  split; [done|]. unfold LockHandleForResumedRequest in Hlh. rewrite Hk in Hlh. cbn [mbind option_bind] in Hlh.
  destruct (bool_decide (_ = ReadLock) && _).
  { pose proof (λ t, stronger_read_release (key_lock_ k) (Txn req) t Ho) as Hst.
    assert (orderly (ReleaseReadLock (key_lock_ k) (Txn req)).1.2) as Ho1
      by (eapply orderly_step_ok; [apply ostep_release_read|done]).
    destruct (ReleaseReadLock (key_lock_ k) (Txn req)) as [[b lk] popped]. injection Hlh as <- <- <-.
    destruct (keeps_forget s cce k lk popped (Txn req) ng Hok Hk Ho1 Hst). done. }
  destruct (bool_decide (_ = WriteIntent) && _ && _).
  { pose proof (λ t, stronger_write_intent_release (key_lock_ k) (Txn req) t Ho) as Hst.
    assert (orderly (ReleaseWriteIntent (key_lock_ k) (Txn req)).1.2) as Ho1
      by (eapply orderly_step_ok; [apply ostep_release_write_intent|done]).
    destruct (ReleaseWriteIntent (key_lock_ k) (Txn req)) as [[b lk] popped]. injection Hlh as <- <- <-.
    destruct (keeps_forget s cce k lk popped (Txn req) ng Hok Hk Ho1 Hst). done. }
  injection Hlh as <- <- <-. split_and!; [done|intros t _; by apply keeps_locks|done].
Qed.

Lemma resume_post_write_modes s cce req s' :
  locks_ok s → mode s cce (Txn req) = NoLock ∨ mode s cce (Txn req) = ReadLock →
  resume_post_write s cce req = Some s' →
  locks_ok s' ∧ ts_base_ s' = ts_base_ s ∧ ∀ t, t ≠ Txn req → keeps t s s'.
Proof.
  intros Hok Hmode Hr. destruct (GetKeyLock s cce) as [k|] eqn:Hk; [|unfold resume_post_write in Hr; by rewrite Hk in Hr].
  unfold mode in Hmode. rewrite Hk in Hmode. pose proof (GetKeyLock_orderly _ _ _ Hok Hk) as Ho.
  pose proof (λ t, stronger_read_release (key_lock_ k) (Txn req) t Ho) as Hst.
  destruct (resume_post_write_ok (λ _ _, True) s cce req k) as (s0 & H0 & Hs0); [by apply exempt_all|done|done|].
  rewrite H0 in Hr. injection Hr as ->. split; [by apply locks_ok_shard|].
  unfold resume_post_write in H0. rewrite Hk in H0. cbn [mbind option_bind] in H0.
  destruct (ReleaseReadLock (key_lock_ k) (Txn req)) as [[b lk] popped]. injection H0 as <-.
  split; [by rewrite put_key_lock_now|]. intros t Hne. eapply keeps_put; [done|exact Hk|by apply Hst].
Qed.
End resumed.
