(* ===== verification/CcMap.v ===== *)
(** * The cc maps of a shard: reads, write locks, validation, installation
    ([TemplateCcMap::Execute])

    The handlers of the four requests of the commit protocol: [ReadCc],
    [AcquireCc], [PostReadCc] and [PostWriteCc], of [include/cc/template_cc_map.h]
    in the hash-partitioned build.  A shard executes one request at a time; a
    handler gets the shard, the request, and the state of the request it may have
    left in an earlier execution ([CcePtr], [BlockedByLock]).  A handler that
    returns [false] has handed the request to a queue; this is [Again].

    The state is that of a shard with its cc maps.  Entries are addressed as in
    the source; the address a transaction keeps is that of the lock structure.  The
    pages that order the keys are left out: the index maps a key to its entry and
    to the page that holds it.  The following are inputs of the handlers: whether
    the memory limit is reached ([full]), and the answer of the key cache.  The
    sampling of the statistics and the metrics are left out.  A handler is [None]
    where the source follows a null pointer. *)

From S2P Require Import Prelude CcProtocol Queue CircularQueue NonBlockingLock CcEntry TxCommand.
From S2P Require Import DeadLockCheck KeyLock LockArray ShardLocks TableName ReadWriteSet.

Inductive ReadType :=
  | Inside | OutsideNormal | OutsideDeleted | RangeLeftInclusive | RangeRightExclusive | RecoveringRead.

#[export] Instance ReadType_eq_dec : EqDecision ReadType.
Proof. solve_decision. Defined.

(** [ReadCc::BlockType]. *)
Inductive BlockType := NotBlocked | BlockByLock | BlockByPostWrite.

(** How an execution ends: [SetFinished], [SetError], or [return false]. *)
Inductive Outcome := Finished | Error (err : CcErrorCode) | Again.

#[export] Instance Outcome_eq_dec : EqDecision Outcome.
Proof. solve_decision. Defined.

Record AcquireCc (K : Type) := mkAcquire {
  aq_req : CcRequestBase;
  aq_table : TableName;
  aq_key : K;
  aq_ng : Z;
  aq_tx_term : Z;
  aq_schema_version : Z;
  aq_ts : Z;
  aq_proto : CcProtocol;
  aq_iso : IsolationLevel;
  aq_cce : option Z;
  aq_blocked : bool;
  aq_result : AcquireKeyResult;
}.
Arguments mkAcquire {_}.
Arguments aq_req {_}.
Arguments aq_table {_}.
Arguments aq_key {_}.
Arguments aq_ng {_}.
Arguments aq_tx_term {_}.
Arguments aq_schema_version {_}.
Arguments aq_ts {_}.
Arguments aq_proto {_}.
Arguments aq_iso {_}.
Arguments aq_cce {_}.
Arguments aq_blocked {_}.
Arguments aq_result {_}.

Record ReadKeyResult (V : Type) := mkReadResult {
  rr_rec : option V;
  rr_ts_ : Z;
  rr_cce_addr_ : CcEntryAddr;
  rr_rec_status_ : RecordStatus;
  rr_lock_type_ : LockType;
}.
Arguments mkReadResult {_}.
Arguments rr_rec {_}.
Arguments rr_ts_ {_}.
Arguments rr_cce_addr_ {_}.
Arguments rr_rec_status_ {_}.
Arguments rr_lock_type_ {_}.

(** [rd_rec] is the record brought by a read from outside, [rd_archives] its
    older versions. *)
Record ReadCc (K V : Type) := mkRead {
  rd_req : CcRequestBase;
  rd_table : TableName;
  rd_key : K;
  rd_ng : Z;
  rd_tx_term : Z;
  rd_schema_version : Z;
  rd_type : ReadType;
  rd_read_ts : Z;
  rd_proto : CcProtocol;
  rd_iso : IsolationLevel;
  rd_for_write : bool;
  rd_covering_keys : bool;
  rd_in_recovering : bool;
  rd_rec : option V;
  rd_archives : list (VersionRecord V);
  rd_cce : option Z;
  rd_blocked_by : BlockType;
  rd_result : ReadKeyResult V;
}.
Arguments mkRead {_ _}.
Arguments rd_req {_ _}.
Arguments rd_table {_ _}.
Arguments rd_key {_ _}.
Arguments rd_ng {_ _}.
Arguments rd_tx_term {_ _}.
Arguments rd_schema_version {_ _}.
Arguments rd_type {_ _}.
Arguments rd_read_ts {_ _}.
Arguments rd_proto {_ _}.
Arguments rd_iso {_ _}.
Arguments rd_for_write {_ _}.
Arguments rd_covering_keys {_ _}.
Arguments rd_in_recovering {_ _}.
Arguments rd_rec {_ _}.
Arguments rd_archives {_ _}.
Arguments rd_cce {_ _}.
Arguments rd_blocked_by {_ _}.
Arguments rd_result {_ _}.

Record PostReadCc := mkPostRead {
  pr_txn : Z;
  pr_cce_addr : CcEntryAddr;
  pr_key_ts : Z;
  pr_commit_ts : Z;
  pr_table_type : TableType;
}.

(** [pw_cce_addr] is [None] in an upload, which names the key instead. *)
Record PostWriteCc (K V : Type) := mkPostWrite {
  pw_req : CcRequestBase;
  pw_table : TableName;
  pw_cce_addr : option CcEntryAddr;
  pw_key : K;
  pw_ng : Z;
  pw_payload : option V;
  pw_commit_ts : Z;
  pw_op : OperationType;
  pw_initial_insert : bool;
}.
Arguments mkPostWrite {_ _}.
Arguments pw_req {_ _}.
Arguments pw_table {_ _}.
Arguments pw_cce_addr {_ _}.
Arguments pw_key {_ _}.
Arguments pw_ng {_ _}.
Arguments pw_payload {_ _}.
Arguments pw_commit_ts {_ _}.
Arguments pw_op {_ _}.
Arguments pw_initial_insert {_ _}.

(** One cc map. *)
Record CcmInfo := mkCcmInfo {
  ccm_addr : Z;
  schema_ts_ : Z;
  last_dirty_commit_ts_ : Z;
  ccm_has_full_entries_ : bool;
}.

(** A shard with its cc maps: [ccm_index] maps a key to its entry and page. *)
Record ShardMaps (K V C O : Type) `{Countable K} := mkMaps {
  ccm_shard : CcShard C O;
  ccm_info : gmap TableName CcmInfo;
  ccm_index : gmap (TableName * K) (Z * Z);
  cce_heap : gmap Z (CcEntry V);
  page_dirty_ts : gmap Z Z;
  last_read_ts_ : Z;
  cc_wait_list_for_memory_ : list CcRequestBase;
  fetch_sent : list (Z * CcRequestBase);
}.
Arguments mkMaps {_ _ _ _ _ _}.
Arguments ccm_shard {_ _ _ _ _ _}.
Arguments ccm_info {_ _ _ _ _ _}.
Arguments ccm_index {_ _ _ _ _ _}.
Arguments cce_heap {_ _ _ _ _ _}.
Arguments page_dirty_ts {_ _ _ _ _ _}.
Arguments last_read_ts_ {_ _ _ _ _ _}.
Arguments cc_wait_list_for_memory_ {_ _ _ _ _ _}.
Arguments fetch_sent {_ _ _ _ _ _}.

(** The parts of the system around a shard: [alloc] and [cce_alloc] are the memory
    allocators of lock structures and entries, the terms are those of [Sharder], the
    booleans the template argument [VersionedRecord], [txservice_skip_kv] and
    [EnableMvcc], [min_si_ts] is [GlobalMinSiTxStartTs] and [core_id] the core of the
    shard. *)
Record CcEnv := mkEnv {
  alloc : gset Z → Z;
  cce_alloc : gset Z → Z;
  leader_term : Z → Z;
  candidate_leader_term : Z → Z;
  standby_node_term : Z;
  versioned : bool;
  skip_kv : bool;
  enable_mvcc : bool;
  min_si_ts : Z;
  core_id : Z;
}.

(** [Sharder::CheckLeaderTerm]. *)
Definition CheckLeaderTerm (env : CcEnv) (ng_id term : Z) : bool :=
  let node_term := leader_term env ng_id in
  if decide (node_term < 0)%Z then false else bool_decide (term = node_term).

(** [FetchRecordCc::GetFetchRecordTxNumber]. *)
Definition GetFetchRecordTxNumber (node_id : Z) : Z :=
  Z.lor (u64 (Z.shiftl (u64 (Z.shiftl node_id 10)) 32)) UINT32_MAX.

Section handlers.
Context {K V C O : Type} `{Countable K} (env : CcEnv).
(** The page that receives a new key, and a default-constructed record. *)
Context (pick_page : TableName → K → Z) (new_record : V).
Abbreviation maps := (ShardMaps K V C O).
Implicit Types (m : maps) (s : CcShard C O) (e : CcEntry V).

Definition set_shard m s : maps :=
  mkMaps s (ccm_info m) (ccm_index m) (cce_heap m) (page_dirty_ts m) (last_read_ts_ m)
    (cc_wait_list_for_memory_ m) (fetch_sent m).
Definition set_entry m (cce : Z) e : maps :=
  mkMaps (ccm_shard m) (ccm_info m) (ccm_index m) (<[cce := e]> (cce_heap m)) (page_dirty_ts m)
    (last_read_ts_ m) (cc_wait_list_for_memory_ m) (fetch_sent m).
Definition set_last_read m (ts : Z) : maps :=
  mkMaps (ccm_shard m) (ccm_info m) (ccm_index m) (cce_heap m) (page_dirty_ts m) ts
    (cc_wait_list_for_memory_ m) (fetch_sent m).

Definition UpdateLastReadTs m (read_ts : Z) : maps := set_last_read m (Z.max (last_read_ts_ m) read_ts).

Definition EnqueueWaitListIfMemoryFull m (req : CcRequestBase) : maps :=
  mkMaps (ccm_shard m) (ccm_info m) (ccm_index m) (cce_heap m) (page_dirty_ts m) (last_read_ts_ m)
    (cc_wait_list_for_memory_ m ++ [req]) (fetch_sent m).

(** [shard_->Enqueue(&req)]. *)
Definition Enqueue_self m (cce : Z) (req : CcRequestBase) : maps :=
  set_shard m (set_cc_queue (ccm_shard m) (cc_queue_ (ccm_shard m) ++ [(cce, req)])).

(** The shard asks the data store for the record of an entry. *)
Definition FetchRecord m (cce : Z) (req : CcRequestBase) : maps :=
  mkMaps (ccm_shard m) (ccm_info m) (ccm_index m) (cce_heap m) (page_dirty_ts m) (last_read_ts_ m)
    (cc_wait_list_for_memory_ m) (fetch_sent m ++ [(cce, req)]).

(** The entry of the key and its page, created if the memory allows. *)
Definition FindEmplace m (tbl : TableName) (key : K) (full : bool) : option (Z * Z * maps) :=
  match ccm_index m !! (tbl, key) with
  | Some (cce, page) => Some (cce, page, m)
  | None =>
      if full then None
      else
        let cce := cce_alloc env (dom (cce_heap m)) in
        let page := pick_page tbl key in
        Some (cce, page,
          mkMaps (ccm_shard m) (ccm_info m) (<[(tbl, key) := (cce, page)]> (ccm_index m))
            (<[cce := CcEntry_new]> (cce_heap m)) (page_dirty_ts m) (last_read_ts_ m)
            (cc_wait_list_for_memory_ m) (fetch_sent m))
  end.

(** The lock structure of an entry as an address; null is 0. *)
Definition lock_addr s (cce ng ng_term : Z) : CcEntryAddr :=
  mkAddr (default 0%Z (cc_lock_and_extra_ s !! cce)) ng (core_id env) ng_term.

(** [CcEntryAddr::ExtractCce]. *)
Definition ExtractCce m (a : CcEntryAddr) : option Z :=
  k ← lock_heap (lock_array (ccm_shard m)) !! cce_lock_ptr_ a; Some (entry_ k).

(** The key does not exist: status [Deleted] with timestamp 1. *)
Definition set_not_exists e : CcEntry V :=
  SetCkptTs (versioned env) (SetCommitTsPayloadStatus (versioned env) (skip_kv env) e 1 Deleted) 1.

Definition schema_mismatch m (tbl : TableName) (version : Z) : bool :=
  bool_decide (version ≠ 0%Z) && bool_decide (Some version ≠ (schema_ts_ <$> ccm_info m !! tbl)).

(** ** [AcquireCc] *)

Definition set_acquire (r : AcquireCc K) (cce : option Z) (blocked : bool) (res : AcquireKeyResult) : AcquireCc K :=
  mkAcquire (aq_req r) (aq_table r) (aq_key r) (aq_ng r) (aq_tx_term r) (aq_schema_version r) (aq_ts r)
    (aq_proto r) (aq_iso r) cce blocked res.

(** After the lock operation; [key_known] is false where [target_key] is null. *)
Definition acquire_locked m (r : AcquireCc K) (cce ng_term : Z) (key_known : bool)
    (cache : option RangeSliceOpStatus) (err : CcErrorCode) : option (Outcome * AcquireCc K * maps) :=
  let s := ccm_shard m in
  let addr := lock_addr s cce (aq_ng r) ng_term in
  let res := aq_result r in
  if decide (err = NO_ERROR) then
    e ← cce_heap m !! cce;
    k ← GetKeyLock s cce;
    let lock_ts := Z.max (aq_ts r) (Now s) in
    let m1 := set_shard m (put_lock s cce (set_key_lock k (SetWLockTs (key_lock_ k) lock_ts))) in
    let res1 :=
      mkAcquireResult addr (Z.max (last_read_ts_ m) lock_ts)
        (if decide (0 < CommitTs e)%Z then CommitTs e else Now s) in
    match cache with
    | Some answer =>
        if decide (PayloadStatus e = Unknown) then
          if key_known then
            if decide (answer = Slice_Retry) then
              Some (Again, set_acquire r (Some cce) false res1, Enqueue_self m1 cce (aq_req r))
            else
              Some (Finished, set_acquire r (Some cce) (aq_blocked r) res1, set_entry m1 cce (set_not_exists e))
          else None
        else Some (Finished, set_acquire r (Some cce) (aq_blocked r) res1, m1)
    | None => Some (Finished, set_acquire r (Some cce) (aq_blocked r) res1, m1)
    end
  else
    let res1 := mkAcquireResult addr (ar_last_vali_ts_ res) (ar_commit_ts_ res) in
    if decide (err = ACQUIRE_LOCK_BLOCKED) then Some (Again, set_acquire r (Some cce) true res1, m)
    else Some (Error err, set_acquire r (Some cce) (aq_blocked r) res1, m).

(** [cache] is the answer of the key cache, [None] where it is disabled or the
    table is not a base table.  The insert flag of the request, which no caller
    sets, is left out. *)
Definition Execute_AcquireCc m (r : AcquireCc K) (full : bool) (cache : option RangeSliceOpStatus)
    : option (Outcome * AcquireCc K * maps) :=
  let ng_term := leader_term env (aq_ng r) in
  let tbl := aq_table r in
  if decide (ng_term < 0)%Z then Some (Error REQUESTED_NODE_NOT_LEADER, r, m)
  else if schema_mismatch m tbl (aq_schema_version r) then Some (Error REQUESTED_TABLE_SCHEMA_MISMATCH, r, m)
  else
    match aq_cce r with
    | Some cce =>
        e ← cce_heap m !! cce;
        if aq_blocked r then
          l ← LockHandleForResumedRequest (ccm_shard m) cce (CommitTs e) (PayloadStatus e) (aq_req r) (aq_ng r)
                (aq_tx_term r) Write (aq_iso r) (aq_proto r) 0 false (tn_type tbl);
          let '(_, err, s) := l in acquire_locked (set_shard m s) r cce ng_term false cache err
        else
          answer ← cache;
          match answer with
          | Slice_Retry => Some (Again, r, Enqueue_self m cce (aq_req r))
          | Slice_Successful => Some (Finished, r, set_entry m cce (set_not_exists e))
          | _ => Some (Finished, r, m)
          end
    | None =>
        match FindEmplace m tbl (aq_key r) full with
        | None => Some (Again, r, EnqueueWaitListIfMemoryFull m (aq_req r))
        | Some (cce, page, m1) =>
            e ← cce_heap m1 !! cce;
            l ← AcquireCceKeyLock (alloc env) (leader_term env) (ccm_shard m1) cce (CommitTs e) page
                  (PayloadStatus e) (aq_req r) (aq_ng r) ng_term (aq_tx_term r)
                  (DeduceLockType Write (aq_iso r) (aq_proto r) false) Write (aq_iso r) (aq_proto r) 0
                  (from_option ccm_addr 0%Z (ccm_info m !! tbl)) (tn_type tbl);
            let '(_, err, s) := l in acquire_locked (set_shard m1 s) r cce ng_term true cache err
        end
    end.

(** ** [PostReadCc] *)

Definition Execute_PostReadCc m (r : PostReadCc) : option (Outcome * maps) :=
  let a := pr_cce_addr r in
  let ng := node_group_id_ a in
  cce ← ExtractCce m a;
  if negb (CheckLeaderTerm env ng (addr_term_ a)) &&
     (bool_decide (standby_node_term env < 0)%Z || bool_decide (standby_node_term env ≠ addr_term_ a))
  then Some (Error REQUESTED_NODE_NOT_LEADER, m)
  else
    e ← cce_heap m !! cce;
    let release m := set_shard m (ReleaseCceLock (ccm_shard m) cce (pr_txn r) ng NoLock
                                    (bool_decide (pr_table_type r ≠ Catalog))) in
    if bool_decide (PayloadStatus e ≠ Unknown) && bool_decide (0 < pr_key_ts r)%Z &&
       bool_decide (pr_key_ts r ≠ CommitTs e)
    then Some (Error VALIDATION_FAILED_FOR_VERSION_MISMATCH, release m)
    else if decide (0 < pr_key_ts r)%Z then
      let m1 := UpdateLastReadTs m (pr_commit_ts r) in
      let s := ccm_shard m1 in
      match GetKeyLock s cce with
      | Some k =>
          let lk := key_lock_ k in
          if HasWriteLock lk && bool_decide (WriteLockTx lk ≠ pr_txn r) then
            let s1 := CheckRecoverTx (leader_term env) s (WriteLockTx lk) ng (leader_term env ng) in
            Some (Error VALIDATION_FAILED_FOR_CONFILICTED_TXS, release (set_shard m1 s1))
          else Some (Finished, release m1)
      | None => Some (Finished, release m1)
      end
    else Some (Finished, release m).

(** ** [PostWriteCc] *)

(** The entry with the committed value, and the timestamps that tell the
    checkpointer where to look. *)
Definition raise (m : gmap Z Z) (k ts : Z) : gmap Z Z := <[k := Z.max ts (default 0%Z (m !! k))]> m.

Definition install m (r : PostWriteCc K V) (cce page : Z) e (is_upload : bool) : maps :=
  let is_del := bool_decide (pw_op r = OpDelete) in
  let e1 := set_payload e (if is_del then None else pw_payload r) in
  let e2 := SetCommitTsPayloadStatus (versioned env) (skip_kv env) e1 (pw_commit_ts r)
              (if is_del then Deleted else Normal) in
  let e3 := if is_upload && pw_initial_insert r then SetCkptTs (versioned env) e2 1 else e2 in
  let dirty i :=
    mkCcmInfo (ccm_addr i) (schema_ts_ i)
      (if decide (last_dirty_commit_ts_ i < pw_commit_ts r)%Z then pw_commit_ts r else last_dirty_commit_ts_ i)
      (ccm_has_full_entries_ i) in
  mkMaps (ccm_shard m) (alter dirty (pw_table r) (ccm_info m)) (ccm_index m) (<[cce := e3]> (cce_heap m))
    (raise (page_dirty_ts m) page (pw_commit_ts r)) (last_read_ts_ m) (cc_wait_list_for_memory_ m)
    (fetch_sent m).

Definition post_write m (r : PostWriteCc K V) (cce page : Z) (is_upload : bool) : option (Outcome * maps) :=
  e ← cce_heap m !! cce;
  let release m := set_shard m (ReleaseCceLock (ccm_shard m) cce (Txn (pw_req r)) (pw_ng r) WriteLock true) in
  if decide (0 < pw_commit_ts r)%Z then
    let e1 := if enable_mvcc env then ArchiveBeforeUpdate (KickOutArchiveRecords e (min_si_ts env)) else e in
    if decide (pw_commit_ts r < CommitTs e1)%Z then Some (Finished, set_entry m cce e1)
    else Some (Finished, release (install m r cce page e1 is_upload))
  else Some (Finished, release m).

Definition Execute_PostWriteCc m (r : PostWriteCc K V) (full : bool) : option (Outcome * maps) :=
  match pw_cce_addr r with
  | None =>
      match FindEmplace m (pw_table r) (pw_key r) full with
      | None => Some (Again, EnqueueWaitListIfMemoryFull m (pw_req r))
      | Some (cce, page, m1) => post_write m1 r cce page true
      end
  | Some a =>
      if negb (CheckLeaderTerm env (node_group_id_ a) (addr_term_ a))
      then Some (Error REQUESTED_NODE_NOT_LEADER, m)
      else
        cce ← ExtractCce m a;
        match GetKeyLock (ccm_shard m) cce with
        | None => Some (Finished, m)
        | Some k =>
            let lk := key_lock_ k in
            if negb (HasWriteLock lk) || bool_decide (WriteLockTx lk ≠ Txn (pw_req r)) then Some (Finished, m)
            else post_write m r cce (page_ k) false
        end
  end.

(** ** [ReadCc] *)

Definition set_read_req (r : ReadCc K V) (cce : option Z) (b : BlockType) (res : ReadKeyResult V) : ReadCc K V :=
  mkRead (rd_req r) (rd_table r) (rd_key r) (rd_ng r) (rd_tx_term r) (rd_schema_version r) (rd_type r)
    (rd_read_ts r) (rd_proto r) (rd_iso r) (rd_for_write r) (rd_covering_keys r) (rd_in_recovering r)
    (rd_rec r) (rd_archives r) cce b res.

Definition read_operation (r : ReadCc K V) : CcOperation * bool :=
  let is_snapshot := bool_decide (rd_iso r = Snapshot) in
  match tn_type (rd_table r) with
  | Secondary => (ReadSkIndex, is_snapshot)
  | UniqueSecondary =>
      (if rd_for_write r then ReadForWrite else ReadSkIndex, is_snapshot && negb (rd_for_write r))
  | _ => (if rd_for_write r then ReadForWrite else Read, is_snapshot && negb (rd_for_write r))
  end.

(** A read from outside brings the record of the data store into the entry, unless
    another transaction has written it. *)
Definition backfill_record e (r : ReadCc K V) : CcEntry V :=
  let '(payload, status) :=
    if decide (rd_type r = OutsideNormal) then (rd_rec r, Normal) else (Some new_record, Deleted) in
  let e1 :=
    if decide (PayloadStatus e = Unknown) then
      SetCommitTsPayloadStatus (versioned env) (skip_kv env) (set_payload e payload) (rd_read_ts r) status
    else if enable_mvcc env && bool_decide (rd_read_ts r < CommitTs e)%Z
    then AddArchiveRecord e payload status (rd_read_ts r) else e in
  let e2 := SetCkptTs (versioned env) e1 (rd_read_ts r) in
  if enable_mvcc env && (bool_decide (rd_type r = OutsideNormal) || bool_decide (rd_type r = OutsideDeleted))
  then AddArchiveRecords e2 (rd_archives r) else e2.

(** What follows the lock operation. *)
Definition read_entry m (r : ReadCc K V) (cce ng_term : Z) (is_read_snapshot : bool)
    : option (Outcome * ReadCc K V * maps) :=
  e0 ← cce_heap m !! cce;
  let e := if decide (rd_type r = Inside) then e0 else backfill_record e0 r in
  let m1 := set_entry m cce e in
  let res := rd_result r in
  let finish m ts status rec :=
    Some (Finished, set_read_req r (rd_cce r) (rd_blocked_by r)
                      (mkReadResult rec ts (rr_cce_addr_ res) status (rr_lock_type_ res)), m) in
  if is_read_snapshot && versioned env then
    let '(v_rec, last_read) :=
      MvccGet e (rd_read_ts r) (last_read_ts_ m1) (mkResultRecord None Deleted 1) in
    finish (set_last_read m1 last_read) (res_commit_ts v_rec) (res_status v_rec)
      (if decide (res_status v_rec = Normal) then res_payload v_rec else rr_rec res)
  else if bool_decide (PayloadStatus e = Normal) &&
          (bool_decide (rd_type r = Inside) || bool_decide (1 < CommitTs e)%Z) then
    if bool_decide (rd_iso r = ReadCommitted) && bool_decide (0 < CommitTs e)%Z &&
       bool_decide (CommitTs e < rd_read_ts r)%Z
    then
      k ← GetKeyLock (ccm_shard m1) cce;
      let s1 := put_key_lock (ccm_shard m1) cce k (InsertBlockingQueue (key_lock_ k) (rd_req r) ReadLock) [] in
      let s2 := CheckRecoverTx (leader_term env) s1 (WriteLockTx (key_lock_ k)) (rd_ng r) ng_term in
      Some (Again, set_read_req r (rd_cce r) BlockByPostWrite res, set_shard m1 s2)
    else
      payload ← cur_payload_ e;
      finish m1 (CommitTs e) (PayloadStatus e) (Some payload)
  else finish m1 (CommitTs e) (PayloadStatus e) (rr_rec res).

(** After the lock operation of a read inside. *)
Definition read_locked m (r : ReadCc K V) (cce ng_term : Z) (is_read_snapshot : bool) (lock : LockType)
    (err : CcErrorCode) : option (Outcome * ReadCc K V * maps) :=
  let res := rd_result r in
  match err with
  | MVCC_READ_MUST_WAIT_WRITE => Some (Again, set_read_req r (rd_cce r) BlockByPostWrite res, m)
  | NO_ERROR =>
      let res1 := mkReadResult (rr_rec res) (rr_ts_ res) (rr_cce_addr_ res) (rr_rec_status_ res) lock in
      read_entry m (set_read_req r (rd_cce r) (rd_blocked_by r) res1) cce ng_term is_read_snapshot
  | ACQUIRE_LOCK_BLOCKED => Some (Again, set_read_req r (rd_cce r) BlockByLock res, m)
  | _ => Some (Error err, r, m)
  end.

(** The first execution of a read inside. *)
Definition read_first m (r : ReadCc K V) (ng_term : Z) (cc_op : CcOperation) (is_read_snapshot full : bool)
    : option (Outcome * ReadCc K V * maps) :=
  let tbl := rd_table r in
  let ccm := from_option ccm_addr 0%Z (ccm_info m !! tbl) in
  match FindEmplace m tbl (rd_key r) full with
  | None => Some (Again, r, EnqueueWaitListIfMemoryFull m (rd_req r))
  | Some (cce, page, m0) =>
      e0 ← cce_heap m0 !! cce;
      let e1 :=
        if from_option ccm_has_full_entries_ false (ccm_info m !! tbl) && bool_decide (PayloadStatus e0 = Unknown)
        then set_not_exists e0 else e0 in
      if bool_decide (PayloadStatus e1 = Unknown) && negb (skip_kv env) then
        let m1 := set_entry m0 cce e1 in
        c ← GetOrCreateKeyLock (alloc env) (ccm_shard m1) ccm page cce;
        let '(k, s) := c in
        let s1 := put_key_lock s cce k
                    (AcquireReadIntent (key_lock_ k) (GetFetchRecordTxNumber (rd_ng r))).2 [] in
        Some (Again, r, FetchRecord (set_shard m1 s1) cce (rd_req r))
      else
        let e2 :=
          if decide (PayloadStatus e1 = Unknown) then
            SetCommitTsPayloadStatus (versioned env) (skip_kv env) (set_payload e1 None) 1 Deleted
          else e1 in
        let m1 := set_entry m0 cce e2 in
        l ← AcquireCceKeyLock (alloc env) (leader_term env) (ccm_shard m1) cce (CommitTs e2) page
              (PayloadStatus e2) (rd_req r) (rd_ng r) ng_term (rd_tx_term r)
              (DeduceLockType cc_op (rd_iso r) (rd_proto r) (rd_covering_keys r)) cc_op (rd_iso r) (rd_proto r)
              (rd_read_ts r) ccm (tn_type tbl);
        let '(lock, err, s) := l in
        let res := rd_result r in
        let res1 := mkReadResult (rr_rec res) (rr_ts_ res) (lock_addr s cce (rd_ng r) ng_term)
                      (rr_rec_status_ res) (rr_lock_type_ res) in
        read_locked (set_shard m1 s) (set_read_req r (Some cce) (rd_blocked_by r) res1) cce ng_term
          is_read_snapshot lock err
  end.

(** A read that waited is resumed. *)
Definition read_resumed m (r : ReadCc K V) (cce ng_term : Z) (cc_op : CcOperation) (is_read_snapshot : bool)
    : option (Outcome * ReadCc K V * maps) :=
  e ← cce_heap m !! cce;
  let r1 := set_read_req r (Some cce) NotBlocked (rd_result r) in
  match rd_blocked_by r with
  | BlockByPostWrite =>
      s ← resume_post_write (ccm_shard m) cce (rd_req r);
      read_locked (set_shard m s) r1 cce ng_term is_read_snapshot NoLock NO_ERROR
  | BlockByLock =>
      l ← LockHandleForResumedRequest (ccm_shard m) cce (CommitTs e) (PayloadStatus e) (rd_req r) (rd_ng r)
            (rd_tx_term r) cc_op (rd_iso r) (rd_proto r) (rd_read_ts r) (rd_covering_keys r)
            (tn_type (rd_table r));
      let '(lock, err, s) := l in
      read_locked (set_shard m s) r1 cce ng_term is_read_snapshot lock err
  | NotBlocked => None
  end.

Definition Execute_ReadCc m (r : ReadCc K V) (full : bool) : option (Outcome * ReadCc K V * maps) :=
  let ng_id := rd_ng r in
  let ng_term :=
    if rd_in_recovering r then candidate_leader_term env ng_id
    else Z.max (leader_term env ng_id) (standby_node_term env) in
  if decide (ng_term < 0)%Z then Some (Error REQUESTED_NODE_NOT_LEADER, r, m)
  else if schema_mismatch m (rd_table r) (rd_schema_version r)
  then Some (Error REQUESTED_TABLE_SCHEMA_MISMATCH, r, m)
  else
    let '(cc_op, is_read_snapshot) := read_operation r in
    if decide (rd_type r = Inside) then
      match rd_cce r with
      | Some cce => read_resumed m r cce ng_term cc_op is_read_snapshot
      | None => read_first m r ng_term cc_op is_read_snapshot full
      end
    else
      cce ← ExtractCce m (rr_cce_addr_ (rd_result r));
      read_entry m r cce ng_term is_read_snapshot.
End handlers.
