(* ===== verification/TxCommit.v ===== *)
(** * Committing a transaction: the coordinator ([TransactionExecution])

    A transaction executes its statements, which fill its read and write sets, and
    then commits in steps: it locks the keys it writes, fixes its commit timestamp,
    validates its reads, writes the log and installs the writes.  Source:
    [src/tx_execution.cpp] (the [Process] and [PostProcess] functions of these
    operations), [src/tx_operation.cpp] and [src/cc/local_cc_handler.cpp].

    Here is what the coordinator computes between the answers of the shards; the
    requests themselves and their interleaving are in [CommitProtocol].  Commands on
    objects, the locks on buckets and catalog writes within a data transaction, and
    the retries after a timeout are left out. *)

From S2P Require Import Prelude CcProtocol TableName ReadWriteSet.

Inductive TxnStatus :=
  | Ongoing | Committed | Aborted | Committing | Txn_Unknown | Txn_Finished | Txn_Recovering | Txn_Recycled.

#[export] Instance TxnStatus_eq_dec : EqDecision TxnStatus.
Proof. solve_decision. Defined.

Section coordinator.
Context {K R : Type} `{Countable K}.
Abbreviation rwset := (ReadWriteSet K R).
Implicit Types (rw : rwset) (x : TableName * K) (a : CcEntryAddr).

(** The keys of the write set in the order of the loops. *)
Definition write_list rw : list (TableName * K * WriteSetEntry R) :=
  map_to_list (wset_ rw) ≫= λ tw, (λ ke : K * WriteSetEntry R, (tw.1, ke.1, ke.2)) <$> map_to_list tw.2.2.

Definition write_keys rw : list (TableName * K) := (write_list rw).*1.

(** The data entries of the read set, with the version read. *)
Definition data_read_list rw : list (CcEntryAddr * Z) :=
  map_to_list (rset_ rw) ≫= λ tr : TableName * gmap CcEntryAddr ReadSetEntry,
    if IsMeta (tn_type tr.1) then []
    else (λ ae : CcEntryAddr * ReadSetEntry, (ae.1, version_ts_ ae.2)) <$> map_to_list tr.2.

(** An assignment to the write-set entry of a key. *)
Definition update_write rw x (f : WriteSetEntry R → WriteSetEntry R) : rwset :=
  set_writes rw (alter (λ vw, (vw.1, alter f x.2 vw.2)) x.1 (wset_ rw)) (wset_cnt_ rw) (wset_bytes_cnt_ rw)
    (forward_write_cnt_ rw).

Definition with_addr (f : CcEntryAddr → CcEntryAddr) (e : WriteSetEntry R) : WriteSetEntry R :=
  mkWriteEntry (rec_ e) (op_ e) (f (cce_addr_ e)) (key_shard_code_ e) (forward_addr_ e).

Definition with_forward (code : Z) (f : CcEntryAddr → CcEntryAddr) (e : WriteSetEntry R) : WriteSetEntry R :=
  mkWriteEntry (rec_ e) (op_ e) (cce_addr_ e) (key_shard_code_ e) (alter f code (forward_addr_ e)).

(** ** [AcquireWriteOperation] *)

(** The result slots: what [AcquireWrite] sets before it sends the request. *)
Definition empty_result (ng : Z) : AcquireKeyResult := mkAcquireResult (mkAddr 0 ng 0 (-1)) 0 0.

(** The loop of [AggregateAcquiredKeys]: the sets, the results, the index of the
    next result and [rset_has_expired_]. *)
Record Aggregate := mkAgg {
  ag_rw : rwset;
  ag_results : list AcquireKeyResult;
  ag_idx : nat;
  ag_expired : bool;
}.

Definition fail_result (res : AcquireKeyResult) : AcquireKeyResult :=
  mkAcquireResult (SetTerm (ar_cce_addr_ res) (-1)) (ar_last_vali_ts_ res) (ar_commit_ts_ res).

(** The request of one forwarded key; [None] past the end of the results. *)
Definition aggregate_forward x (st : option Aggregate) (code : Z) : option Aggregate :=
  g ← st;
  res ← ag_results g !! ag_idx g;
  let a := ar_cce_addr_ res in
  let next rw results := Some (mkAgg rw results (S (ag_idx g)) (ag_expired g)) in
  if decide (addr_term_ a < 0)%Z then
    next (update_write (ag_rw g) x (with_forward code clear_addr)) (ag_results g)
  else if decide (ar_commit_ts_ res = 0)%Z then
    next (update_write (ag_rw g) x (with_forward code clear_addr)) (<[ag_idx g := fail_result res]> (ag_results g))
  else next (update_write (ag_rw g) x (with_forward code (λ _, a))) (ag_results g).

(** The request of the key itself. *)
Definition aggregate_key x (g : Aggregate) : option Aggregate :=
  res ← ag_results g !! ag_idx g;
  let a := ar_cce_addr_ res in
  if decide (addr_term_ a < 0)%Z then
    Some (mkAgg (update_write (ag_rw g) x (with_addr clear_addr)) (ag_results g) (S (ag_idx g)) (ag_expired g))
  else if decide (ar_commit_ts_ res = 0)%Z then
    Some (mkAgg (update_write (ag_rw g) x (with_addr clear_addr)) (<[ag_idx g := fail_result res]> (ag_results g))
            (S (ag_idx g)) (ag_expired g))
  else
    let '(read_version, rw1) := DedupRead (update_write (ag_rw g) x (with_addr (λ _, a))) a in
    Some (mkAgg rw1 (ag_results g) (S (ag_idx g))
            (ag_expired g || (bool_decide (0 < read_version)%Z && bool_decide (read_version ≠ ar_commit_ts_ res)))).

Definition aggregate_step (st : option Aggregate) x : option Aggregate :=
  g ← st;
  g1 ← aggregate_key x g;
  foldl (aggregate_forward x) (Some g1)
    (from_option (λ e : WriteSetEntry R, (map_to_list (forward_addr_ e)).*1) [] (FindWrite (ag_rw g) x.1 x.2)).

Definition AggregateAcquiredKeys (entries : list (TableName * K)) (results : list AcquireKeyResult) rw
    : option Aggregate :=
  foldl aggregate_step (Some (mkAgg rw results 0 false)) entries.

(** ** [SetCommitTsOperation] *)

Definition max_list (l : list Z) (z : Z) : Z := foldl Z.max z l.

(** The smallest commit timestamp the transaction may have; [catalog_max_ts] is
    [catalog_acquire_all_.MaxTs()]. *)
Definition commit_candidate (commit_ts_bound : Z) (results : list AcquireKeyResult) (catalog_max_ts : Z) rw : Z :=
  let c1 := max_list (results ≫= λ res, [ar_last_vali_ts_ res + 1; ar_commit_ts_ res + 1]%Z) commit_ts_bound in
  let c2 := if decide (0 < CatalogWriteSetSize rw)%Z then Z.max c1 catalog_max_ts else c1 in
  max_list (map_to_list (rset_ rw) ≫= λ tr : TableName * gmap CcEntryAddr ReadSetEntry,
              (λ ae : CcEntryAddr * ReadSetEntry, version_ts_ ae.2 + 1)%Z <$> map_to_list tr.2) c2.

(** [LocalCcHandler::SetCommitTimestamp]: the timestamp and the clock of the
    coordinator's shard afterwards. *)
Definition SetCommitTimestamp (local_ts lower_bound commit_ts : Z) : Z * Z :=
  let ts := Z.max local_ts (Z.max lower_bound commit_ts) in
  (ts, Z.max local_ts (ts + 1)).

(** [PostProcess(AcquireWriteOperation)] and [Process(SetCommitTsOperation)] of a
    transaction that holds its write locks: without catalog writes the timestamp is
    set before the results are cleared ([acquire_write.Reset(0, 0)]), with catalog
    writes it is set after the catalog locks are acquired, when the results are
    gone. *)
Definition candidate_after_acquire (commit_ts_bound : Z) (results : list AcquireKeyResult) (catalog_max_ts : Z) rw
    : Z :=
  commit_candidate commit_ts_bound (if decide (0 < CatalogWriteSetSize rw)%Z then [] else results) catalog_max_ts
    rw.

(** ** [PostProcessOp] *)

Inductive PostRequest :=
  | PostWrite (a : CcEntryAddr) (commit_ts : Z)
  | PostRead (a : CcEntryAddr).

(** The addresses of an entry: its own and the forwarded ones. *)
Definition entry_addrs (e : WriteSetEntry R) : list CcEntryAddr :=
  cce_addr_ e :: (map_to_list (forward_addr_ e)).*2.

Definition release_reads rw : list PostRequest := (λ av, PostRead av.1) <$> data_read_list rw.

(** The write locks of a committed transaction are given back with the commit
    timestamp, those of an aborted one, as far as they were acquired, with 0. *)
Definition commit_posts (commit_ts : Z) rw : list PostRequest :=
  write_list rw ≫= λ ke, (λ a, PostWrite a commit_ts) <$> entry_addrs ke.2.
Definition abort_posts rw : list PostRequest :=
  write_list rw ≫= λ ke, (λ a, PostWrite a 0) <$> filter (λ a, (0 <= addr_term_ a)%Z) (entry_addrs ke.2).

(** The requests of [Process(PostProcessOp)], by the fate of the transaction. *)
Definition post_requests (status : TxnStatus) (commit_ts : Z) rw : list PostRequest :=
  match status with
  | Committed => commit_posts commit_ts rw
  | Txn_Unknown => release_reads rw
  | _ => abort_posts rw ++ release_reads rw
  end.
End coordinator.

Arguments Aggregate _ _ {_ _}.

(** ** The lists of the read and write sets *)

Lemma fmap_bind_list {A B C} (g : B → C) (f : A → list B) (l : list A) : g <$> (l ≫= f) = l ≫= λ x, g <$> f x.
Proof. induction l as [|x l IH]; cbn; [done|]. by rewrite fmap_app, <-IH. Qed.

Lemma NoDup_bind {A B} (f : A → list B) (l : list A) :
  NoDup l → (∀ x, x ∈ l → NoDup (f x)) → (∀ x y b, x ∈ l → y ∈ l → b ∈ f x → b ∈ f y → x = y) → NoDup (l ≫= f).
Proof.
  induction l as [|x l IH]; cbn; intros Hn Hf Hd; [constructor|]. apply NoDup_cons in Hn as [Hx Hn].
  apply NoDup_app. split; [apply Hf; left|]. split.
  - intros b Hb (y & Hby & Hy)%list_elem_of_bind. assert (x = y) as -> by (eapply Hd; eauto; [left|by right]). done.
  - apply IH; [done|intros; apply Hf; by right|intros ? ? b ? ?; apply Hd; by right].
Qed.

Section lists.
Context {K R : Type} `{Countable K}.
Implicit Types (rw : ReadWriteSet K R) (x : TableName * K) (a : CcEntryAddr) (e : WriteSetEntry R).

Lemma elem_write_list rw x e : (x, e) ∈ write_list rw ↔ FindWrite rw x.1 x.2 = Some e.
Proof.
  unfold write_list, FindWrite. rewrite list_elem_of_bind. split.
  - intros ([t [v w]] & Hin & Ht). cbn in Hin. apply list_elem_of_fmap in Hin as ([k e'] & [= -> ->] & Hk).
    apply elem_of_map_to_list in Ht, Hk. cbn. by rewrite Ht.
  - destruct x as [t k]. cbn. destruct (wset_ rw !! t) as [[v w]|] eqn:Ht; cbn; [|done]. intros Hk.
    exists (t, (v, w)). split; [|by apply elem_of_map_to_list]. apply list_elem_of_fmap. exists (k, e).
    split; [done|]. by apply elem_of_map_to_list.
Qed.

Lemma elem_data_reads rw a v :
  (a, v) ∈ data_read_list rw ↔
  ∃ tbl rs (e : ReadSetEntry), rset_ rw !! tbl = Some rs ∧ IsMeta (tn_type tbl) = false ∧ rs !! a = Some e ∧ v = version_ts_ e.
Proof.
  unfold data_read_list. rewrite list_elem_of_bind. split.
  - intros ([t rs] & Hin & Ht). cbn in Hin. apply elem_of_map_to_list in Ht.
    destruct (IsMeta (tn_type t)) eqn:Hm; [set_solver|].
    apply list_elem_of_fmap in Hin as ([a' e] & [= -> ->] & Ha). apply elem_of_map_to_list in Ha.
    by exists t, rs, e.
  - intros (t & rs & e & Ht & Hm & Ha & ->). exists (t, rs). cbn. rewrite Hm.
    split; [|by apply elem_of_map_to_list]. apply list_elem_of_fmap. exists (a, e). split; [done|].
    by apply elem_of_map_to_list.
Qed.

Lemma NoDup_write_keys rw : NoDup (write_keys rw).
Proof.
  unfold write_keys, write_list. rewrite fmap_bind_list. apply NoDup_bind.
  - apply NoDup_map_to_list.
  - intros [t [v w]] _. cbn. rewrite <-list_fmap_compose.
    change (NoDup ((λ ke : K * WriteSetEntry R, (t, ke.1)) <$> map_to_list w)).
    change (NoDup (((λ k, (t, k)) ∘ fst) <$> map_to_list w)). rewrite list_fmap_compose.
    apply NoDup_fmap; [by intros ? ? [= ->]|]. apply NoDup_fst_map_to_list.
  - intros [t1 [v1 w1]] [t2 [v2 w2]] b H1 H2. cbn. rewrite <-!list_fmap_compose.
    intros ([k1 e1] & -> & _)%list_elem_of_fmap ([k2 e2] & [= -> ->] & _)%list_elem_of_fmap.
    apply elem_of_map_to_list in H1, H2. congruence.
Qed.

(** Each address in one table only: then it is once in the list. *)
Definition one_table rw : Prop :=
  ∀ t1 t2 r1 r2 a, rset_ rw !! t1 = Some r1 → rset_ rw !! t2 = Some r2 →
    is_Some (r1 !! a) → is_Some (r2 !! a) → t1 = t2.

Lemma NoDup_data_reads rw : one_table rw → NoDup (data_read_list rw).*1.
Proof.
  intros H1. unfold data_read_list. rewrite fmap_bind_list. apply NoDup_bind.
  - apply NoDup_map_to_list.
  - intros [t rs] _. cbn. destruct (IsMeta _); [constructor|]. rewrite <-list_fmap_compose.
    apply NoDup_fst_map_to_list.
  - intros [t1 r1] [t2 r2] a Ht1 Ht2. apply elem_of_map_to_list in Ht1, Ht2. cbn.
    destruct (IsMeta (tn_type t1)); [set_solver|]. destruct (IsMeta (tn_type t2)); [set_solver|].
    rewrite <-!list_fmap_compose.
    intros ([a1 e1] & -> & Ha1)%list_elem_of_fmap ([a2 e2] & [= ->] & Ha2)%list_elem_of_fmap.
    apply elem_of_map_to_list in Ha1, Ha2.
    assert (t1 = t2) as -> by (eapply H1; [exact Ht1|exact Ht2|by eexists|by eexists]). congruence.
Qed.
End lists.

(** ** What [AggregateAcquiredKeys] does *)

Section aggregate.
Context {K R : Type} `{Countable K}.
Implicit Types (rw : ReadWriteSet K R) (x : TableName * K) (a : CcEntryAddr) (e : WriteSetEntry R)
  (g : Aggregate K R) (res : AcquireKeyResult).

Definition read_at rw (tbl : TableName) a : option ReadSetEntry := rset_ rw !! tbl ≫= (.!! a).

Lemma read_at_Some rw tbl a r : read_at rw tbl a = Some r ↔ ∃ rs, rset_ rw !! tbl = Some rs ∧ rs !! a = Some r.
Proof.
  unfold read_at. destruct (rset_ rw !! tbl) as [rs|]; cbn; [|naive_solver]. naive_solver.
Qed.

Lemma one_table_read rw :
  one_table rw ↔ ∀ t1 t2 a r1 r2, read_at rw t1 a = Some r1 → read_at rw t2 a = Some r2 → t1 = t2.
Proof.
  unfold one_table. setoid_rewrite read_at_Some. split.
  - intros H1 t1 t2 a r1 r2 (s1 & ? & ?) (s2 & ? & ?). by eapply H1.
  - intros H1 t1 t2 r1 r2 a ? ? [e1 ?] [e2 ?]. by eapply (H1 t1 t2 a e1 e2); eauto.
Qed.

Lemma DedupRead_spec rw a v rw' :
  one_table rw → DedupRead rw a = (v, rw') →
  wset_ rw' = wset_ rw ∧ catalog_wset_ rw' = catalog_wset_ rw ∧
  (∀ tbl b, read_at rw' tbl b = if decide (b = a) then None else read_at rw tbl b) ∧
  (∀ tbl r, read_at rw tbl a = Some r → v = version_ts_ r).
Proof.
  intros H1. unfold DedupRead. destruct (find_read rw a) as [[[t tbl] r]|] eqn:E.
  - apply find_read_spec in E as [Ht Ha]. intros [= <- <-]. split; [done|]. split; [done|].
    assert (∀ tbl', is_Some (read_at rw tbl' a) → tbl' = t) as Honly.
    { intros tbl' [r' Hr']. apply (proj1 (one_table_read rw) H1 tbl' t a r' r Hr'). apply read_at_Some. eauto. }
    split.
    + intros tbl' b. unfold read_at. cbn. destruct (decide (tbl' = t)) as [->|Hne].
      * rewrite lookup_insert_eq. cbn. rewrite Ht. cbn. destruct (decide (b = a)) as [->|].
        -- by rewrite lookup_delete_eq.
        -- by rewrite lookup_delete_ne.
      * rewrite lookup_insert_ne by done. destruct (decide (b = a)) as [->|]; [|done].
        destruct (rset_ rw !! tbl' ≫= (.!! a)) eqn:E'; [|done]. destruct Hne. apply Honly. by eexists.
    + intros tbl' r' Hr'. assert (tbl' = t) as -> by (apply Honly; by eexists).
      apply read_at_Some in Hr' as (? & ? & ?). congruence.
  - intros [= <- <-]. split; [done|]. split; [done|].
    assert (∀ tbl', read_at rw tbl' a = None) as Hn.
    { intros tbl'. destruct (read_at rw tbl' a) as [r'|] eqn:E'; [|done].
      apply read_at_Some in E' as (rs & Hrs & Ha). revert E. unfold find_read.
      destruct (list_find _ _) as [[i [t tbl]]|] eqn:El; cbn.
      - apply list_find_Some in El as (_ & [r'' Hr] & _). cbn in Hr. by rewrite Hr.
      - rewrite list_find_None in El. rewrite Forall_forall in El. destruct (El (tbl', rs)).
        + by apply elem_of_map_to_list.
        + by eexists. }
    split; [|intros tbl r; by rewrite Hn]. intros tbl b. destruct (decide (b = a)) as [->|]; [apply Hn|done].
Qed.

Lemma find_update rw x f y :
  FindWrite (update_write rw x f) y.1 y.2 =
    if decide (y = x) then f <$> FindWrite rw x.1 x.2 else FindWrite rw y.1 y.2.
Proof.
  destruct x as [t k], y as [t' k']. unfold FindWrite. cbn. destruct (decide (t' = t)) as [->|Ht].
  - rewrite lookup_alter_eq. destruct (wset_ rw !! t) as [[v w]|]; cbn; [|by case_decide].
    destruct (decide (k' = k)) as [->|Hk].
    + rewrite decide_True by done. by rewrite lookup_alter_eq.
    + rewrite decide_False by naive_solver. by rewrite lookup_alter_ne.
  - rewrite decide_False by naive_solver. by rewrite lookup_alter_ne.
Qed.

Lemma update_write_ok (key_len : K → Z) (rec_len : R → Z) rw x f :
  (∀ e, rec_ (f e) = rec_ e) → rw_ok key_len rec_len rw → rw_ok key_len rec_len (update_write rw x f).
Proof.
  intros Hf [Hr Hw Hb].
  assert (∀ (h : TableName → Z * gmap K (WriteSetEntry R) → Z),
    (∀ v w, h x.1 (v, alter f x.2 w) = h x.1 (v, w)) →
    map_sum h (alter (λ vw, (vw.1, alter f x.2 vw.2)) x.1 (wset_ rw)) = map_sum h (wset_ rw)) as Hsum.
  { intros h Hh. destruct (wset_ rw !! x.1) as [[v w]|] eqn:E; [|by rewrite alter_absent].
    rewrite (alter_as_insert _ _ _ _ E), (map_sum_insert _ _ _ _ _ E). cbn. rewrite Hh. lia. }
  assert (writes (wset_ (update_write rw x f)) = writes (wset_ rw)) as Hw'.
  { unfold writes. cbn. apply Hsum. intros v w. cbn. by rewrite size_alter. }
  assert (live_bytes key_len rec_len (wset_ (update_write rw x f)) = live_bytes key_len rec_len (wset_ rw)) as Hb'.
  { unfold live_bytes. cbn. apply Hsum. intros v w. cbn. destruct (w !! x.2) as [e|] eqn:E; [|by rewrite alter_absent].
    rewrite (alter_as_insert _ _ _ _ E), (map_sum_insert _ _ _ _ _ E). unfold entry_bytes. rewrite Hf. lia. }
  split; [done|by rewrite Hw'|by rewrite Hb'].
Qed.

(** The lock was acquired. *)
Definition success res : Prop := (0 <= addr_term_ (ar_cce_addr_ res))%Z ∧ ar_commit_ts_ res ≠ 0%Z.

(** The address of a write-set entry after its answer. *)
Definition new_addr res e : CcEntryAddr :=
  if decide (success res) then ar_cce_addr_ res else clear_addr (cce_addr_ e).

Definition set_addr res e : WriteSetEntry R := with_addr (λ _, new_addr res e) e.

Definition result_ts res : Z * Z := (ar_last_vali_ts_ res, ar_commit_ts_ res).

(** One key processed: from [g] to [g1] with the answer [res]. *)
Record aggregated x res g g1 : Prop := {
  agd_idx : ag_idx g1 = S (ag_idx g);
  agd_ts : result_ts <$> ag_results g1 = result_ts <$> ag_results g;
  agd_rest : ∀ j, j ≠ ag_idx g → ag_results g1 !! j = ag_results g !! j;
  agd_write : ∀ y, FindWrite (ag_rw g1) y.1 y.2 =
    if decide (y = x) then set_addr res <$> FindWrite (ag_rw g) x.1 x.2
    else FindWrite (ag_rw g) y.1 y.2;
  agd_read : ∀ tbl b, read_at (ag_rw g1) tbl b =
    if decide (success res ∧ b = ar_cce_addr_ res) then None else read_at (ag_rw g) tbl b;
  agd_catalog : catalog_wset_ (ag_rw g1) = catalog_wset_ (ag_rw g);
  agd_ok : ∀ (key_len : K → Z) (rec_len : R → Z), rw_ok key_len rec_len (ag_rw g) → rw_ok key_len rec_len (ag_rw g1);
  agd_expired : ag_expired g1 = false → ag_expired g = false ∧
    ∀ tbl r, success res → read_at (ag_rw g) tbl (ar_cce_addr_ res) = Some r →
      (version_ts_ r <= 0)%Z ∨ version_ts_ r = ar_commit_ts_ res;
}.

Lemma update_addr_failed res x rw y :
  ¬ success res →
  FindWrite (update_write rw x (with_addr clear_addr)) y.1 y.2 =
    if decide (y = x) then set_addr res <$> FindWrite rw x.1 x.2
    else FindWrite rw y.1 y.2.
Proof.
  intros Hs. rewrite find_update. destruct (decide (y = x)) as [Hy|]; [|done].
  destruct (FindWrite rw x.1 x.2) as [e|]; cbn; [|done]. unfold set_addr, with_addr, new_addr. by rewrite decide_False.
Qed.

Lemma aggregate_key_spec x g res :
  one_table (ag_rw g) → ag_results g !! ag_idx g = Some res →
  ∃ g1, aggregate_key x g = Some g1 ∧ aggregated x res g g1.
Proof.
  intros H1 Hres. unfold aggregate_key. rewrite Hres. cbn [mbind option_bind].
  destruct (decide (addr_term_ (ar_cce_addr_ res) < 0)%Z) as [Ht|Ht];
    [|destruct (decide (ar_commit_ts_ res = 0)%Z) as [Hc|Hc]].
  - assert (¬ success res) as Hs by (intros [? _]; lia). eexists. split; [done|]. split; cbn; try done.
    + intros y. by apply update_addr_failed.
    + intros tbl b. by rewrite decide_False by tauto.
    + intros. by apply update_write_ok.
  - assert (¬ success res) as Hs by (intros [_ ?]; lia). eexists. split; [done|]. split; cbn; try done.
    + rewrite list_fmap_insert. apply list_insert_id. by rewrite list_lookup_fmap, Hres.
    + intros j Hj. by rewrite list_lookup_insert_ne.
    + intros y. by apply update_addr_failed.
    + intros tbl b. by rewrite decide_False by tauto.
    + intros. by apply update_write_ok.
  - assert (success res) as Hs by (split; [lia|done]).
    destruct (DedupRead _ (ar_cce_addr_ res)) as [v rw1] eqn:Ed.
    pose proof (DedupRead_spec (update_write (ag_rw g) x (with_addr (λ _, ar_cce_addr_ res))) _ _ _ H1 Ed)
      as (Hw & Hcat & Hread & Hver).
    eexists. split; [done|]. split; cbn; try done.
    + intros y. transitivity (FindWrite (update_write (ag_rw g) x (with_addr (λ _, ar_cce_addr_ res))) y.1 y.2).
      { unfold FindWrite. by rewrite Hw. }
      rewrite find_update. destruct (decide (y = x)) as [Hy|]; [|done].
      destruct (FindWrite (ag_rw g) x.1 x.2) as [e|]; [|done]. cbn. f_equal.
      unfold set_addr, with_addr, new_addr. by rewrite decide_True.
    + intros tbl b. rewrite Hread. destruct (decide (b = ar_cce_addr_ res)) as [->|Hb].
      * by rewrite decide_True.
      * by rewrite decide_False by tauto.
    + intros key_len rec_len Hok. pose proof (DedupRead_ok key_len rec_len _ (ar_cce_addr_ res)
        (update_write_ok key_len rec_len (ag_rw g) x (with_addr (λ _, ar_cce_addr_ res)) (λ _, eq_refl) Hok)) as Hd.
      by rewrite Ed in Hd.
    + intros [He Hv]%orb_false_iff. split; [done|]. intros tbl r _ Hr.
      assert (v = version_ts_ r) as Hvr by (apply (Hver tbl); exact Hr). bool_to_prop.
      destruct Hv as [Hv|Hv]; bool_to_prop; [left; lia|right]. destruct (decide (v = ar_commit_ts_ res)); [congruence|done].
Qed.

(** The keys of [todo] processed, from [g] to [g']. *)
Record aggregated_all (todo : list (TableName * K)) g g' : Prop := {
  aga_ts : result_ts <$> ag_results g' = result_ts <$> ag_results g;
  aga_write : ∀ y e', FindWrite (ag_rw g') y.1 y.2 = Some e' →
    ∃ e0, FindWrite (ag_rw g) y.1 y.2 = Some e0 ∧ forward_addr_ e' = forward_addr_ e0 ∧
      (y ∉ todo ∧ e' = e0 ∨
       ∃ i res, todo !! i = Some y ∧ ag_results g !! (ag_idx g + i) = Some res ∧ cce_addr_ e' = new_addr res e0);
  aga_read : ∀ tbl b r, read_at (ag_rw g') tbl b = Some r ↔
    read_at (ag_rw g) tbl b = Some r ∧
    ∀ i res, i < length todo → ag_results g !! (ag_idx g + i) = Some res → success res → b ≠ ar_cce_addr_ res;
  aga_catalog : catalog_wset_ (ag_rw g') = catalog_wset_ (ag_rw g);
  aga_ok : ∀ (key_len : K → Z) (rec_len : R → Z), rw_ok key_len rec_len (ag_rw g) → rw_ok key_len rec_len (ag_rw g');
  aga_expired : ag_expired g' = false → ag_expired g = false ∧
    ∀ i res tbl r, i < length todo → ag_results g !! (ag_idx g + i) = Some res → success res →
      (∀ i' res', i' < i → ag_results g !! (ag_idx g + i') = Some res' → success res' →
         ar_cce_addr_ res' ≠ ar_cce_addr_ res) →
      read_at (ag_rw g) tbl (ar_cce_addr_ res) = Some r →
      (version_ts_ r <= 0)%Z ∨ version_ts_ r = ar_commit_ts_ res;
}.

Lemma one_table_sub rw rw' :
  (∀ tbl b r, read_at rw' tbl b = Some r → read_at rw tbl b = Some r) → one_table rw → one_table rw'.
Proof.
  intros Hs H1. apply one_table_read. intros t1 t2 a r1 r2 Hr1%Hs Hr2%Hs.
  exact (proj1 (one_table_read rw) H1 t1 t2 a r1 r2 Hr1 Hr2).
Qed.

Lemma agd_read_sub x res g g1 :
  aggregated x res g g1 → ∀ tbl b r, read_at (ag_rw g1) tbl b = Some r → read_at (ag_rw g) tbl b = Some r.
Proof. intros Ha tbl b r. rewrite (agd_read _ _ _ _ Ha). by case_decide. Qed.

Lemma aggregated_cons x res todo g g1 g' :
  ag_results g !! ag_idx g = Some res → x ∉ todo →
  aggregated x res g g1 → aggregated_all todo g1 g' → aggregated_all (x :: todo) g g'.
Proof.
  intros Hres Hx [Hi Ht Hr Hw Hrd Hc Hok He] [Ht' Hw' Hrd' Hc' Hok' He'].
  assert (∀ i, ag_results g1 !! (ag_idx g1 + i) = ag_results g !! (ag_idx g + S i)) as Hnext.
  { intros i. rewrite Hi, Hr by lia. f_equal. lia. }
  split; [by rewrite Ht'| | |by rewrite Hc'|by auto|].
  - intros y e' (e1 & Hf1 & Hfw & Hcase)%Hw'. rewrite Hw in Hf1. destruct (decide (y = x)) as [->|Hy].
    + destruct (FindWrite (ag_rw g) x.1 x.2) as [e0|] eqn:Hf0; cbn in Hf1; [|done]. injection Hf1 as <-.
      exists e0. split_and!; [done|done|]. right. exists 0, res. rewrite Nat.add_0_r.
      destruct Hcase as [[_ ->]|(i & res' & Hin & _)]; [done|].
      destruct Hx. by eapply list_elem_of_lookup_2.
    + exists e1. split_and!; [done|done|]. destruct Hcase as [[Hin ->]|(i & res' & Hin & Hres' & Ha)].
      * left. split; [|done]. rewrite not_elem_of_cons. done.
      * right. exists (S i), res'. rewrite <-Hnext. done.
  - intros tbl b r. rewrite Hrd', Hrd. setoid_rewrite Hnext. split.
    + intros [Hb Hne]. destruct (decide (success res ∧ b = ar_cce_addr_ res)) as [|Hn]; [done|].
      split; [done|]. intros [|i] res' Hlt Hres' Hs; [|by eapply (Hne i); [cbn in Hlt; lia|..]].
      rewrite Nat.add_0_r in Hres'. simplify_eq. tauto.
    + intros [Hb Hne]. split.
      * rewrite decide_False; [done|]. intros [Hs ->]. eapply (Hne 0 res); [cbn; lia| |done|done].
        by rewrite Nat.add_0_r.
      * intros i res' Hlt Hres'. apply (Hne (S i)); [cbn; lia|done].
  - intros (He1 & Hup)%He'. apply He in He1 as [He0 Hup0]. split; [done|].
    intros [|i] res' tbl r Hlt Hres' Hs Hfirst Hread.
    + rewrite Nat.add_0_r in Hres'. simplify_eq. by eapply Hup0.
    + eapply (Hup i res'); [cbn in Hlt; lia|by rewrite Hnext|done| |].
      * intros i' res'' Hi' Hres''. rewrite Hnext in Hres''. apply (Hfirst (S i')); [lia|done].
      * rewrite Hrd, decide_False; [done|]. intros [Hs0 Heq].
        eapply (Hfirst 0 res); [lia|by rewrite Nat.add_0_r|done|done].
Qed.

Lemma aggregate_fold todo g :
  NoDup todo → (∀ y e, FindWrite (ag_rw g) y.1 y.2 = Some e → forward_addr_ e = ∅) → one_table (ag_rw g) →
  ag_idx g + length todo ≤ length (ag_results g) →
  ∃ g', foldl aggregate_step (Some g) todo = Some g' ∧ aggregated_all todo g g'.
Proof.
  revert g. induction todo as [|x todo IH]; intros g Hn Hfw H1 Hlen.
  { exists g. split; [done|]. split; try done.
    - intros y e' He'. exists e'. split_and!; [done|done|]. left. split; [apply not_elem_of_nil|done].
    - intros tbl b r. cbn. split; [|tauto]. intros. split; [done|lia].
    - intros He. split; [done|]. cbn. intros; lia. }
  apply NoDup_cons in Hn as [Hx Hn]. cbn [length] in Hlen.
  destruct (lookup_lt_is_Some_2 (ag_results g) (ag_idx g)) as [res Hres]; [lia|].
  destruct (aggregate_key_spec x g res H1 Hres) as (g1 & Hk & Ha).
  assert (aggregate_step (Some g) x = Some g1) as Hstep.
  { unfold aggregate_step. cbn [mbind option_bind]. rewrite Hk. cbn [mbind option_bind].
    destruct (FindWrite (ag_rw g) x.1 x.2) as [e|] eqn:E; [|done]. cbn [from_option].
    by rewrite (Hfw x e E), map_to_list_empty. }
  destruct (IH g1) as (g' & Hf & Hall).
  - done.
  - intros y e. rewrite (agd_write _ _ _ _ Ha). destruct (decide (y = x)) as [Hy|]; [|apply Hfw].
    destruct (FindWrite (ag_rw g) x.1 x.2) as [e0|] eqn:E; cbn; [|done]. intros [= <-]. exact (Hfw x e0 E).
  - eapply one_table_sub; [by eapply agd_read_sub|done].
  - rewrite (agd_idx _ _ _ _ Ha). pose proof (agd_ts _ _ _ _ Ha) as Hts.
    apply (f_equal length) in Hts. rewrite !length_fmap in Hts. lia.
  - exists g'. cbn [foldl]. rewrite Hstep. split; [done|]. by eapply aggregated_cons.
Qed.
End aggregate.

(** ** What the statements of a transaction change *)

Section statements.
Context {K R : Type} `{Countable K} (key_len : K → Z) (rec_len : R → Z).
Implicit Types (rw : ReadWriteSet K R) (x : TableName * K) (a : CcEntryAddr) (e : WriteSetEntry R).

Lemma elem_reads_at rw a v :
  (a, v) ∈ data_read_list rw ↔
  ∃ tbl r, IsMeta (tn_type tbl) = false ∧ read_at rw tbl a = Some r ∧ v = version_ts_ r.
Proof.
  rewrite elem_data_reads. setoid_rewrite read_at_Some. naive_solver.
Qed.

Lemma data_reads_length rw : data_reads (rset_ rw) = Z.of_nat (length (data_read_list rw)).
Proof.
  unfold data_reads, data_read_list. rewrite map_sum_list.
  induction (map_to_list (rset_ rw)) as [|[t rs] l IH]; [done|]. rewrite bind_cons, length_app, Nat2Z.inj_add, <-IH.
  cbn [foldr fst snd]. unfold read_weight at 1. destruct (IsMeta (tn_type t)); [done|].
  by rewrite length_fmap, length_map_to_list.
Qed.

Lemma no_data_reads rw :
  rw_ok key_len rec_len rw → (Z.of_nat (length (data_read_list rw)) < 2 ^ 64)%Z →
  ¬ (0 < DataReadSetSize rw)%Z → data_read_list rw = [].
Proof.
  intros [Hr _ _] Hlt Hs. unfold DataReadSetSize in Hs. rewrite Hr, data_reads_length in Hs. unfold u64 in Hs.
  rewrite Z.mod_small in Hs by lia. apply nil_length_inv. lia.
Qed.

Lemma no_writes rw x :
  rw_ok key_len rec_len rw → (writes (wset_ rw) < 2 ^ 64)%Z → ¬ (0 < WriteSetSize rw)%Z →
  FindWrite rw x.1 x.2 = None.
Proof.
  intros [_ Hw _] Hlt Hs. unfold WriteSetSize in Hs. rewrite Hw in Hs. unfold u64 in Hs.
  assert (∀ m : gmap TableName (Z * gmap K (WriteSetEntry R)), 0 <= writes m)%Z as Hn.
  { intros m. apply map_sum_nonneg. intros. lia. }
  rewrite Z.mod_small in Hs by (split; [apply Hn|done]). unfold FindWrite.
  destruct (wset_ rw !! x.1) as [[v w]|] eqn:E; cbn; [|done]. destruct (w !! x.2) as [e|] eqn:Ek; [|done].
  unfold writes in *. rewrite (map_sum_delete _ _ _ _ E) in Hs. cbn in Hs. specialize (Hn (delete x.1 (wset_ rw))).
  unfold writes in Hn.
  assert (size w ≠ 0) by (intros ->%map_size_empty_inv; set_solver). lia.
Qed.

Lemma ClearReadSet_reads rw :
  (∀ tbl a r, read_at (ClearReadSet rw) tbl a = Some r → read_at rw tbl a = Some r) ∧
  data_read_list (ClearReadSet rw) = [] ∧ wset_ (ClearReadSet rw) = wset_ rw ∧
  catalog_wset_ (ClearReadSet rw) = catalog_wset_ rw.
Proof.
  unfold ClearReadSet. destruct (foldl _ _ _) as [terms cnt]. split_and!; [|..|done|done].
  - intros tbl a r (rs & Ht & Ha)%read_at_Some. cbn in Ht. apply map_lookup_filter_Some in Ht as [Ht _].
    apply read_at_Some. eauto.
  - destruct (data_read_list _) as [|[a v] l] eqn:E; [done|].
    assert ((a, v) ∈ (a, v) :: l) as Hin by left. rewrite <-E in Hin.
    apply elem_data_reads in Hin as (tbl & rs & r & Ht & Hm & _). cbn in Ht.
    apply map_lookup_filter_Some in Ht as [_ Ht]. unfold is_meta_table in Ht. cbn in Ht. congruence.
Qed.

(** A read: the entry of the address, and nothing else. *)
Lemma AddRead_spec rw a ts tbl ok rw' :
  AddRead rw a ts tbl = (ok, rw') →
  wset_ rw' = wset_ rw ∧ catalog_wset_ rw' = catalog_wset_ rw ∧
  (∀ tbl' b, (tbl', b) ≠ (tbl, a) → read_at rw' tbl' b = read_at rw tbl' b) ∧
  ∃ r', read_at rw' tbl a = Some r' ∧
    if ok then
      match read_at rw tbl a with
      | None => version_ts_ r' = ts
      | Some r => (version_ts_ r = 0%Z ∨ (ts <= version_ts_ r)%Z) ∧
                  version_ts_ r' = if decide (0 < ts)%Z then ts else version_ts_ r
      end
    else rw' = rw.
Proof.
  unfold AddRead. set (m := default ∅ (rset_ rw !! tbl)).
  assert (read_at rw tbl a = m !! a) as Hm.
  { unfold read_at, m. destruct (rset_ rw !! tbl); cbn; [done|by rewrite lookup_empty]. }
  assert (∀ (e : ReadSetEntry) terms cnt tbl' b, (tbl', b) ≠ (tbl, a) →
    read_at (set_reads rw (<[tbl := <[a := e]> m]> (rset_ rw)) terms cnt) tbl' b = read_at rw tbl' b) as Hother.
  { intros e terms cnt tbl' b Hne. unfold read_at. cbn. destruct (decide (tbl' = tbl)) as [->|].
    - rewrite lookup_insert_eq. cbn. rewrite lookup_insert_ne by naive_solver. unfold m.
      destruct (rset_ rw !! tbl); cbn; [done|by rewrite lookup_empty].
    - by rewrite lookup_insert_ne. }
  assert (∀ (e : ReadSetEntry) terms cnt, read_at (set_reads rw (<[tbl := <[a := e]> m]> (rset_ rw)) terms cnt) tbl a = Some e) as Hnew.
  { intros. unfold read_at. cbn. rewrite lookup_insert_eq. cbn. by rewrite lookup_insert_eq. }
  rewrite Hm. destruct (m !! a) as [e|] eqn:E.
  - destruct (_ && _) eqn:Hc; intros [= <- <-].
    + split_and!; [done..|]. exists e. by rewrite Hm.
    + split_and!; [done|done|by intros; apply Hother|]. eexists. split; [apply Hnew|]. cbn. split; [|done].
      apply andb_false_iff in Hc. rewrite !bool_decide_eq_false in Hc.
      destruct (decide (version_ts_ e = 0%Z)); [by left|right]. destruct Hc as [?|[]]; [lia|done].
  - intros [= <- <-]. split_and!; [done|done|by intros; apply Hother|]. eexists. split; [apply Hnew|done].
Qed.

(** A write: no address changes, and a new key has none. *)
Lemma AddWrite_spec rw tbl ver k rec op cu err rw' :
  AddWrite key_len rec_len rw tbl ver k rec op cu = Some (err, rw') →
  rset_ rw' = rset_ rw ∧ catalog_wset_ rw' = catalog_wset_ rw ∧
  ∀ y e', FindWrite rw' y.1 y.2 = Some e' →
    (cce_addr_ e' = CcEntryAddr_new ∧ forward_addr_ e' = ∅) ∨
    ∃ e, FindWrite rw y.1 y.2 = Some e ∧ cce_addr_ e' = cce_addr_ e ∧ forward_addr_ e' = forward_addr_ e.
Proof.
  unfold AddWrite. case_decide; [intros [= _ <-]; naive_solver|].
  destruct (default _ _) as [v w] eqn:Ed.
  assert (∀ y e' e0 cnt bytes fwd,
    FindWrite (set_writes rw (<[tbl := (v, <[k := e0]> w)]> (wset_ rw)) cnt bytes fwd) y.1 y.2 = Some e' →
    e' = e0 ∧ y = (tbl, k) ∨ FindWrite rw y.1 y.2 = Some e') as Hfind.
  { intros [t' k'] e' e0 cnt bytes fwd. unfold FindWrite. cbn. destruct (decide (t' = tbl)) as [->|].
    - rewrite lookup_insert_eq. cbn. destruct (decide (k' = k)) as [->|].
      + rewrite lookup_insert_eq. intros [= ->]. by left.
      + rewrite lookup_insert_ne by done. destruct (wset_ rw !! tbl) as [vw|]; cbn in *.
        * subst vw. by right.
        * injection Ed as <- <-. set_solver.
    - rewrite lookup_insert_ne by done. by right. }
  destruct (w !! k) as [e|] eqn:Ek.
  - destruct (ApplyToWSetEntry e op rec cu) as [[b e1]|] eqn:Ea; cbn; [|done]. intros [= _ <-].
    split_and!; [done..|]. intros y e' [[-> ->]|Hf]%Hfind; [|eauto]. right. exists e. split.
    + unfold FindWrite. cbn. destruct (wset_ rw !! tbl) as [vw|]; cbn in *; [by subst vw|].
      injection Ed as <- <-. set_solver.
    + unfold ApplyToWSetEntry in Ea. destruct (op_ e), op, cu; simplify_eq; done.
  - intros [= _ <-]. split_and!; [done..|]. intros y e' [[-> ->]|Hf]%Hfind; [by left|eauto].
Qed.
End statements.

(** ** The commit timestamp *)

Lemma max_list_ge l z : (z <= max_list l z)%Z ∧ ∀ x, x ∈ l → (x <= max_list l z)%Z.
Proof.
  unfold max_list. revert z. induction l as [|y l IH]; intros z; cbn; [split; [lia|set_solver]|].
  destruct (IH (Z.max z y)) as [H1 H2]. split; [lia|]. intros x [->|Hx]%elem_of_cons; [lia|by apply H2].
Qed.

Section candidate.
Context {K R : Type} `{Countable K}.
Implicit Types (rw : ReadWriteSet K R) (res : AcquireKeyResult).

Lemma commit_candidate_above bound results cmax rw res :
  (result_ts res) ∈ result_ts <$> results →
  (ar_last_vali_ts_ res < commit_candidate bound results cmax rw ∧
   ar_commit_ts_ res < commit_candidate bound results cmax rw)%Z.
Proof.
  intros (res' & [= Hl Hc] & Hin)%list_elem_of_fmap. unfold commit_candidate.
  set (l1 := results ≫= _). set (c1 := max_list l1 bound).
  set (c2 := if decide (0 < CatalogWriteSetSize rw)%Z then Z.max c1 cmax else c1).
  set (l2 := map_to_list (rset_ rw) ≫= _).
  destruct (max_list_ge l1 bound) as [_ H1]. destruct (max_list_ge l2 c2) as [H2 _].
  assert (c1 <= c2)%Z as Hc12 by (unfold c2; case_decide; lia).
  assert (∀ x, x ∈ [ar_last_vali_ts_ res' + 1; ar_commit_ts_ res' + 1]%Z → (x <= c1)%Z) as Hx.
  { intros x Hx. apply H1. apply list_elem_of_bind. by exists res'. }
  rewrite Hl, Hc. pose proof (Hx (ar_last_vali_ts_ res' + 1)%Z ltac:(set_solver)).
  pose proof (Hx (ar_commit_ts_ res' + 1)%Z ltac:(set_solver)). lia.
Qed.

Lemma commit_candidate_reads bound results cmax rw tbl a r :
  read_at rw tbl a = Some r → (version_ts_ r < commit_candidate bound results cmax rw)%Z.
Proof.
  intros (rs & Ht & Ha)%read_at_Some. unfold commit_candidate. set (c2 := if decide _ then _ else _).
  set (l2 := map_to_list (rset_ rw) ≫= _). destruct (max_list_ge l2 c2) as [_ H2].
  enough (version_ts_ r + 1 <= max_list l2 c2)%Z by lia. apply H2, list_elem_of_bind.
  exists (tbl, rs). split; [|by apply elem_of_map_to_list]. apply list_elem_of_fmap. exists (a, r).
  split; [done|]. by apply elem_of_map_to_list.
Qed.
End candidate.

(** With a catalog write in the transaction the answers to the write-lock requests
    are cleared before the timestamp is chosen: a transaction that overwrites
    version 100 may get a commit timestamp below it. *)
Lemma catalog_write_loses_bounds :
  let rw : ReadWriteSet Z Z := AddCatalogWrite ReadWriteSet_Reset 1%Z 7%Z in
  let results := [mkAcquireResult (mkAddr 1 0 0 1) 90 100] in
  candidate_after_acquire 5 results 10 rw = 10%Z.
Proof. vm_compute. reflexivity. Qed.
