(* ===== verification/DataLog.v ===== *)
(** * The log record of a transaction

    A transaction that commits writes one log record: the terms of the node groups it read
    and wrote ([node_terms]), and for every node group that holds a key of its write set a
    blob with the keys, operations and records of that group, table by table
    ([TransactionExecution::FillDataLogRequest], [src/tx_execution.cpp]).  After a failover
    the log service ships the blobs, each with its commit timestamp, and [ParseDataLogCc]
    ([include/cc/cc_request.h]) cuts them into one [ReplayLogCc] request per table.  The
    theorems say when the log is refused, and that the requests contain exactly the writes
    that were logged.

    The types of keys and records are parameters with a [Codec].  The maps of the source are
    unordered; the model visits them in the order of [map_to_list], which no theorem depends
    on. *)

From S2P Require Import Prelude Bytes CcProtocol TableName TxSerialize MetaRecords ReadWriteSet TxCommit.

(** [static_cast<uint8_t>(op_)]. *)
Definition op_code (op : OperationType) : Z :=
  match op with
  | OpUpdate => 1 | OpDelete => 2 | OpInsert => 3 | OpUpsert => 4 | OpCreateTable => 5 | OpDropTable => 6
  | OpTruncateTable => 7 | OpAddIndex => 8 | OpDropIndex => 9 | OpCommitCommands => 10
  end.

(** [Sharder::ShardToCcNodeGroup]. *)
Definition ShardToCcNodeGroup (sharding_code : Z) : Z := Z.shiftr sharding_code 10.

(** The log request; a schema message has the name and type of the table, the old and new
    images and the timestamp of the catalog. *)
Record SchemaOpMessage := mkSchemaMsg {
  msg_table : TableName;
  msg_old_blob : bytes;
  msg_catalog_ts : Z;
  msg_new_blob : bytes;
}.
Record WriteLogRequest := mkLogRequest {
  log_tx_term : Z;
  log_txn_number : Z;
  log_commit_timestamp : Z;
  node_terms : gmap Z Z;
  node_txn_logs : gmap Z bytes;
  schema_logs : list SchemaOpMessage;
}.

(** A request to replay the writes of one table. *)
Record ReplayRequest := mkReplayRequest {
  rp_table : TableName;
  rp_blob : bytes;
  rp_commit_ts : Z;
  rp_first_core : Z;
}.

Section data_log.
Context {K R : Type} `{Countable K} `{!Codec K, !Codec R}.
Abbreviation entry := (WriteSetEntry R).
Abbreviation table_recs := (gmap TableName (list (K * entry))).
Implicit Types (e : entry) (t : TableName) (terms : gmap Z Z) (recs : gmap Z table_recs).

(** ** Writing *)

Definition log_entry (ke : K * entry) : option bytes :=
  let e := ke.2 in
  kb ← encode ke.1;
  rb ← (if decide (op_ e = OpDelete) then Some [] else match rec_ e with Some r => encode r | None => Some [] end);
  Some (kb ++ le_bytes 1 (op_code (op_ e)) ++ rb).

Fixpoint log_entries (l : list (K * entry)) : option bytes :=
  match l with [] => Some [] | x :: l => b ← log_entry x; bs ← log_entries l; Some (b ++ bs) end.

Definition table_log (tl : TableName * list (K * entry)) : option bytes :=
  let name := tn_name tl.1 in
  let tabname_len := (Z.of_nat (length name) mod 256)%Z in
  kvs ← log_entries tl.2;
  Some (le_bytes 1 tabname_len ++ take (Z.to_nat tabname_len) name ++ le_bytes 1 (engine_code (tn_engine tl.1)) ++
        le_bytes 1 (type_code (tn_type tl.1)) ++ le_bytes 4 (Z.of_nat (length kvs)) ++ kvs).

Fixpoint tables_log (l : list (TableName * list (K * entry))) : option bytes :=
  match l with [] => Some [] | x :: l => b ← table_log x; bs ← tables_log l; Some (b ++ bs) end.

(** [ng_table_rec_set[ng][table].emplace_back(...)]. *)
Definition add_rec recs (ng : Z) t (k : K) e : gmap Z table_recs :=
  partial_alter (λ o, let m := default ∅ o in Some (partial_alter (λ l, Some (default [] l ++ [(k, e)])) t m)) ng recs.

Definition add_forwards recs t (k : K) e : gmap Z table_recs :=
  foldl (λ recs fwd, add_rec recs (ShardToCcNodeGroup fwd.1) t k e) recs (map_to_list (forward_addr_ e)).

(** [try_emplace(ng, term)]: [None] when the group has another term. *)
Definition try_term terms (ng term : Z) : option (gmap Z Z) :=
  match terms !! ng with
  | None => Some (<[ng := term]> terms)
  | Some term' => if decide (term' = term) then Some terms else None
  end.

Fixpoint collect (l : list (TableName * K * entry)) terms recs : option (gmap Z Z * gmap Z table_recs) :=
  match l with
  | [] => Some (terms, recs)
  | (t, k, e) :: l =>
      let ng_id := node_group_id_ (cce_addr_ e) in
      terms1 ← try_term terms ng_id (addr_term_ (cce_addr_ e));
      collect l terms1 (add_forwards (add_rec recs ng_id t k e) t k e)
  end.

Fixpoint add_read_terms (l : list (Z * Z)) terms : option (gmap Z Z) :=
  match l with [] => Some terms | (ng, term) :: l => terms1 ← try_term terms ng term; add_read_terms l terms1 end.

(** [schema_msg] reads a catalog key and record of the catalog write set, with the image of
    the current schema.  An exception of a serializer is [None], the error code a [inl]. *)
Context (schema_msg : K → ReplicaWriteSetEntry R → SchemaOpMessage).

Definition FillDataLogRequest (tx_term txn commit_ts : Z) (s : ReadWriteSet K R) : option (CcErrorCode + WriteLogRequest) :=
  match collect (write_list s) ∅ ∅ with
  | None => Some (inl NG_TERM_CHANGED)
  | Some (terms, recs) =>
      logs ← mapM (λ x, b ← tables_log (map_to_list x.2); Some (x.1, b)) (map_to_list recs);
      Some (match add_read_terms (map_to_list (read_lock_ng_terms_ s)) terms with
            | None => inl NG_TERM_CHANGED
            | Some terms' => inr (mkLogRequest tx_term txn commit_ts terms' (list_to_map logs)
                                   ((λ ke, schema_msg ke.1 ke.2) <$> map_to_list (catalog_wset_ s)))
            end)
  end.

(** ** Parsing *)

(** [KeyHash] of the catalog factory reads the first key of the table, [core_cnt] are the
    cores of the node. *)
Context (KeyHash : bytes → nat → Z) (core_cnt : Z).

Definition dest_core (blob : bytes) (offset : nat) (prev : Z) : Z :=
  let hash := KeyHash blob offset in
  if decide (hash ≠ 0)%Z then (Z.land hash 1023 mod core_cnt)%Z else ((prev + 1) mod core_cnt)%Z.

(** A table type that a data log does not have fails an assertion. *)
Definition data_type_of_code (c : Z) : option TableType :=
  if decide (c = 0)%Z then Some Primary else if decide (c = 1)%Z then Some Secondary
  else if decide (c = 2)%Z then Some UniqueSecondary else None.

Fixpoint parse_blob (fuel : nat) (blob : bytes) (offset : nat) (commit_ts core : Z) : option (list ReplayRequest * Z) :=
  if decide (offset < length blob) then
    match fuel with
    | 0 => None
    | S fuel =>
        '(name_len, o1) ← DesrializeFrom 1 blob offset;
        name ← read_bytes (Z.to_nat name_len) blob o1;
        let o2 := o1 + Z.to_nat name_len in
        '(engine, o3) ← DesrializeFrom 1 blob o2;
        table_engine ← engine_of_code engine;
        '(type, o4) ← DesrializeFrom 1 blob o3;
        table_type ← data_type_of_code type;
        '(kv_len, o5) ← DesrializeFrom 4 blob o4;
        let core1 := dest_core blob o5 core in
        kvs ← read_bytes (Z.to_nat kv_len) blob o5;
        '(reqs, core2) ← parse_blob fuel blob (o5 + Z.to_nat kv_len) commit_ts core1;
        Some (mkReplayRequest (mkTableName name table_type table_engine) kvs commit_ts core1 :: reqs, core2)
    end
  else Some ([], core).

Fixpoint parse_log (fuel : nat) (log_records : bytes) (offset : nat) (core : Z) : option (list ReplayRequest) :=
  if decide (offset < length log_records) then
    match fuel with
    | 0 => None
    | S fuel =>
        '(commit_ts, o1) ← DesrializeFrom 8 log_records offset;
        '(blob_length, o2) ← DesrializeFrom 4 log_records o1;
        blob ← read_bytes (Z.to_nat blob_length) log_records o2;
        '(reqs, core1) ← parse_blob (length blob) blob 0 commit_ts core;
        rest ← parse_log fuel log_records (o2 + Z.to_nat blob_length) core1;
        Some (reqs ++ rest)
    end
  else Some [].

(** [ParseDataLogCc::Execute], up to the queues that the requests are put in. *)
Definition ParseDataLogCc_Execute (log_records : bytes) : option (list ReplayRequest) := parse_log (length log_records) log_records 0 0.

(** What the log service ships: timestamp, length and blob of each record. *)
Definition ship (records : list (Z * bytes)) : bytes :=
  records ≫= λ tb, le_bytes 8 tb.1 ++ le_bytes 4 (Z.of_nat (length tb.2)) ++ tb.2.

End data_log.

(** ** Reading back *)

Section reading.
Context {K R : Type} `{!Codec K, !Codec R} (KeyHash : bytes → nat → Z) (core_cnt : Z).
Abbreviation entry := (WriteSetEntry R).
Abbreviation core_of := (dest_core KeyHash core_cnt).
Abbreviation parse_tables := (parse_blob KeyHash core_cnt).
Abbreviation parse_logs := (parse_log KeyHash core_cnt).

Definition log_table_ok (tl : TableName * list (K * entry)) : Prop :=
  length (tn_name tl.1) < 256 ∧ (tn_type tl.1 = Primary ∨ tn_type tl.1 = Secondary ∨ tn_type tl.1 = UniqueSecondary).

(** The request that replays the writes of a table. *)
Definition replays (commit_ts : Z) (tl : TableName * list (K * entry)) (r : ReplayRequest) : Prop :=
  rp_table r = tl.1 ∧ log_entries tl.2 = Some (rp_blob r) ∧ rp_commit_ts r = commit_ts ∧ (0 ≤ rp_first_core r < core_cnt)%Z.

Hypothesis core_cnt_pos : (0 < core_cnt)%Z.

Lemma dest_core_range blob offset prev : (0 ≤ core_of blob offset prev < core_cnt)%Z.
Proof. unfold dest_core. case_decide; by apply Z.mod_pos_bound. Qed.

Lemma log_codes_read t : (tn_type t = Primary ∨ tn_type t = Secondary ∨ tn_type t = UniqueSecondary) →
  engine_of_code (engine_code (tn_engine t)) = Some (tn_engine t) ∧ data_type_of_code (type_code (tn_type t)) = Some (tn_type t) ∧
  is_uint 1 (engine_code (tn_engine t)) ∧ is_uint 1 (type_code (tn_type t)).
Proof. destruct t as [n ty []]; cbn; intros [->|[->| ->]]; by vm_compute. Qed.

(** The fields of a table's log. *)
Definition table_image t (kvs : bytes) : bytes :=
  SerializeToStr 1 (Z.of_nat (length (tn_name t))) ++ tn_name t ++ SerializeToStr 1 (engine_code (tn_engine t)) ++
  SerializeToStr 1 (type_code (tn_type t)) ++ SerializeToStr 4 (Z.of_nat (length kvs)) ++ kvs.

Lemma table_log_image tl tb : log_table_ok tl → table_log tl = Some tb → ∃ kvs, log_entries tl.2 = Some kvs ∧ tb = table_image tl.1 kvs.
Proof.
  intros [Hname _]. unfold table_log. destruct (log_entries tl.2) as [kvs|]; [|done]. cbn [mbind option_bind].
  rewrite Z.mod_small, Nat2Z.id, firstn_all by lia. intros E. exists kvs. split; [done|]. unfold table_image, SerializeToStr. congruence.
Qed.

(** One round of the loop. *)
Lemma parse_blob_table fuel pre tl kvs rest commit_ts core : log_table_ok tl → log_entries tl.2 = Some kvs → (Z.of_nat (length kvs) < 2 ^ 32)%Z →
  ∃ r, parse_tables (S fuel) (pre ++ table_image tl.1 kvs ++ rest) (length pre) commit_ts core =
      ('(reqs, core') ← parse_tables fuel ((pre ++ table_image tl.1 kvs) ++ rest) (length (pre ++ table_image tl.1 kvs)) commit_ts (rp_first_core r);
       Some (r :: reqs, core')) ∧ replays commit_ts tl r.
Proof.
  intros [Hname Hty] Hk Hlen. destruct (log_codes_read tl.1 Hty) as (He & Hd & Ue & Ut). destruct tl as [t l]. cbn [fst snd] in *.
  assert (is_uint 1 (Z.of_nat (length (tn_name t)))) by (unfold is_uint; lia). assert (is_uint 4 (Z.of_nat (length kvs))) by (unfold is_uint; lia).
  cbn [parse_blob]. rewrite decide_True by (rewrite !length_app; unfold table_image; rewrite length_app, length_SerializeToStr; lia).
  pose proof (image_here pre (table_image t kvs) rest) as Hi. rewrite <- app_assoc. set (buf := pre ++ _) in *. unfold table_image in Hi.
  next_field Hi. rewrite Nat2Z.id. apply image_app in Hi as [Hn Hi]. rewrite (read_bytes_image _ _ _ Hn). cbn [mbind option_bind].
  next_field Hi. rewrite He. cbn [mbind option_bind]. next_field Hi. rewrite Hd. cbn [mbind option_bind]. next_field Hi.
  rewrite Nat2Z.id, (read_bytes_image _ _ _ Hi). cbn [mbind option_bind].
  exists (mkReplayRequest (mkTableName (tn_name t) (tn_type t) (tn_engine t)) kvs commit_ts (core_of buf (length pre + 1 + length (tn_name t) + 1 + 1 + 4) core)).
  split; [|split_and!; [by destruct t|done|done|apply dest_core_range..]]. cbn [rp_first_core]. unfold table_image.
  rewrite !length_app, !length_SerializeToStr. do 2 f_equal. lia.
Qed.

Lemma parse_blob_at tables bs pre commit_ts core fuel :
  tables_log tables = Some bs → Forall log_table_ok tables → (Z.of_nat (length bs) < 2 ^ 32)%Z → length bs ≤ fuel →
  ∃ reqs core', parse_tables fuel (pre ++ bs) (length pre) commit_ts core = Some (reqs, core') ∧ Forall2 (replays commit_ts) tables reqs.
Proof.
  revert bs pre core fuel. induction tables as [|tl tables IH]; intros bs pre core fuel Hs Hok Hlen Hfuel.
  { injection Hs as <-. exists [], core. rewrite app_nil_r. destruct fuel; cbn [parse_blob]; rewrite decide_False by lia; by split; [|constructor]. }
  apply Forall_cons in Hok as [Ht Hok]. cbn [tables_log] in Hs. destruct (table_log tl) as [tb|] eqn:Et; [|done]. cbn [mbind option_bind] in Hs.
  destruct (tables_log tables) as [rest|] eqn:Er; [|done]. cbn [mbind option_bind] in Hs. assert (bs = tb ++ rest) as -> by congruence.
  destruct (table_log_image _ _ Ht Et) as (kvs & Hk & ->). rewrite length_app in Hlen, Hfuel.
  assert (S (length kvs) ≤ length (table_image tl.1 kvs)) by (unfold table_image; rewrite !length_app, !length_SerializeToStr; lia).
  destruct fuel as [|fuel]; [lia|]. destruct (parse_blob_table fuel pre tl kvs rest commit_ts core Ht Hk) as (r & -> & Hr); [lia|].
  destruct (IH rest (pre ++ table_image tl.1 kvs) (rp_first_core r) fuel eq_refl Hok) as (reqs & core' & -> & Hf); [lia|lia|].
  exists (r :: reqs), core'. split; [done|by constructor].
Qed.

(** A log record: its timestamp and what each table contributes. *)
Definition log_record_ok (rec : Z * list (TableName * list (K * entry)) * bytes) : Prop :=
  is_uint 8 rec.1.1 ∧ Forall log_table_ok rec.1.2 ∧ tables_log rec.1.2 = Some rec.2 ∧ (Z.of_nat (length rec.2) < 2 ^ 32)%Z.

Lemma parse_log_at records pre core fuel : Forall log_record_ok records →
  length (ship ((λ rec, (rec.1.1, rec.2)) <$> records)) ≤ fuel →
  ∃ reqs, parse_logs fuel (pre ++ ship ((λ rec, (rec.1.1, rec.2)) <$> records)) (length pre) core = Some reqs ∧
    Forall2 (λ x r, replays x.1 x.2 r) (records ≫= λ rec, pair rec.1.1 <$> rec.1.2) reqs.
Proof.
  revert pre core fuel. induction records as [|[[ts tables] blob] records IH]; intros pre core fuel Hok Hfuel.
  { exists []. cbn [ship fmap list_fmap mbind list_bind]. rewrite app_nil_r. destruct fuel; cbn [parse_log]; rewrite decide_False by lia; by split; [|constructor]. }
  apply Forall_cons in Hok as [(Hts & Htab & Hlog & Hlen) Hok]. cbn [fst snd] in *.
  assert (ship ((λ rec, (rec.1.1, rec.2)) <$> (ts, tables, blob) :: records) =
    (SerializeToStr 8 ts ++ SerializeToStr 4 (Z.of_nat (length blob)) ++ blob) ++ ship ((λ rec, (rec.1.1, rec.2)) <$> records)) as E by done.
  rewrite E in Hfuel |- *. clear E. set (rest := ship _) in *. rewrite !length_app, !length_SerializeToStr in Hfuel.
  assert (is_uint 4 (Z.of_nat (length blob))) by (unfold is_uint; lia).
  destruct fuel as [|fuel]; [lia|]. cbn [parse_log]. rewrite decide_True by (rewrite !length_app, !length_SerializeToStr; lia).
  pose proof (image_here pre (SerializeToStr 8 ts ++ SerializeToStr 4 (Z.of_nat (length blob)) ++ blob) rest) as Hi. rewrite app_assoc.
  rewrite app_assoc in Hi. set (buf := _ ++ rest) in *. next_field Hi. next_field Hi. rewrite Nat2Z.id, (read_bytes_image _ _ _ Hi). cbn [mbind option_bind].
  destruct (parse_blob_at tables blob [] ts core (length blob) Hlog Htab Hlen) as (reqs & core1 & Hp & Hreqs); [done|].
  cbn [app length] in Hp. rewrite Hp. cbn [mbind option_bind].
  destruct (IH (pre ++ SerializeToStr 8 ts ++ SerializeToStr 4 (Z.of_nat (length blob)) ++ blob) core1 fuel Hok) as (reqs' & Hp' & Hf'); [lia|].
  rewrite !length_app, !length_SerializeToStr in Hp'. replace (length pre + 8 + 4 + length blob) with (length pre + (8 + (4 + length blob))) by lia.
  unfold buf. rewrite Hp'. cbn [mbind option_bind]. exists (reqs ++ reqs'). split; [done|]. apply Forall2_app; [|done]. by apply Forall2_fmap_l.
Qed.
End reading.

(** ** What is logged *)

Section logged.
Context {K R : Type} `{Countable K} `{!Codec K, !Codec R}.
Abbreviation entry := (WriteSetEntry R).
Abbreviation table_recs := (gmap TableName (list (K * entry))).
Implicit Types (e : entry) (t : TableName) (terms : gmap Z Z) (recs : gmap Z table_recs).

Definition logged recs (ng : Z) t : list (K * entry) := default [] (recs !! ng ≫= (.!! t)).

(** The groups that the entry is written in: its own, and those it is forwarded to. *)
Definition goes_to e (ng : Z) : Prop :=
  node_group_id_ (cce_addr_ e) = ng ∨ ∃ code a, forward_addr_ e !! code = Some a ∧ ShardToCcNodeGroup code = ng.

Lemma logged_add recs ng t k e ng' t' : logged (add_rec recs ng t k e) ng' t' =
  logged recs ng' t' ++ (if decide (ng = ng' ∧ t = t') then [(k, e)] else []).
Proof.
  unfold logged, add_rec. destruct (decide (ng = ng')) as [->|Hne].
  - rewrite lookup_partial_alter_eq. cbn. destruct (decide (t = t')) as [->|Ht].
    + rewrite lookup_partial_alter_eq, decide_True by done. by destruct (recs !! ng').
    + rewrite lookup_partial_alter_ne, decide_False, app_nil_r by (done || tauto). by destruct (recs !! ng').
  - rewrite lookup_partial_alter_ne, decide_False, app_nil_r by (done || tauto). done.
Qed.

Lemma logged_forwards l recs ng t k e x : x ∈ logged (foldl (λ recs (fwd : Z * CcEntryAddr), add_rec recs (ShardToCcNodeGroup fwd.1) t k e) recs l) ng t ↔
  x ∈ logged recs ng t ∨ x = (k, e) ∧ ∃ c a, (c, a) ∈ l ∧ ShardToCcNodeGroup c = ng.
Proof.
  revert recs. induction l as [|[c a] l IH]; intros recs; cbn [foldl].
  { split; [by left|]. intros [?|(_ & c & a & Hin & _)]; [done|]. by apply not_elem_of_nil in Hin. }
  rewrite IH, logged_add. cbn [fst]. case_decide as Hd; rewrite elem_of_app; [destruct Hd as [Hd _]|]; set_solver.
Qed.

Lemma logged_forwards_ne l recs ng t t' k e : t ≠ t' →
  logged (foldl (λ recs (fwd : Z * CcEntryAddr), add_rec recs (ShardToCcNodeGroup fwd.1) t k e) recs l) ng t' = logged recs ng t'.
Proof. intros Hne. revert recs. induction l as [|[c a] l IH]; intros recs; cbn [foldl]; [done|]. by rewrite IH, logged_add, decide_False, app_nil_r by tauto. Qed.

Lemma logged_entry recs t k e ng t' x :
  x ∈ logged (add_forwards (add_rec recs (node_group_id_ (cce_addr_ e)) t k e) t k e) ng t' ↔
  x ∈ logged recs ng t' ∨ t = t' ∧ x = (k, e) ∧ goes_to e ng.
Proof.
  unfold add_forwards, goes_to. destruct (decide (t = t')) as [->|Hne].
  - rewrite logged_forwards, logged_add. setoid_rewrite elem_of_map_to_list. case_decide as Hd; rewrite elem_of_app; [destruct Hd as [Hd _]|]; set_solver.
  - rewrite logged_forwards_ne, logged_add, decide_False, app_nil_r by tauto. tauto.
Qed.

Lemma collect_logged l terms recs terms' recs' : collect l terms recs = Some (terms', recs') →
  ∀ ng t x, x ∈ logged recs' ng t ↔ x ∈ logged recs ng t ∨ (t, x.1, x.2) ∈ l ∧ goes_to x.2 ng.
Proof.
  revert terms recs. induction l as [|[[t k] e] l IH]; intros terms recs; cbn [collect].
  { intros [= <- <-] ng t x. set_solver. }
  destruct (try_term _ _ _) as [terms1|]; [|done]. cbn [mbind option_bind]. intros Hc ng t' x. rewrite (IH _ _ Hc), logged_entry, elem_of_cons.
  destruct x as [k' e']. cbn. naive_solver.
Qed.

(** No table without writes. *)
Definition recs_nonempty recs : Prop := ∀ ng tables t l, recs !! ng = Some tables → tables !! t = Some l → l ≠ [].

Lemma add_rec_nonempty recs ng t k e : recs_nonempty recs → recs_nonempty (add_rec recs ng t k e).
Proof.
  intros Hr ng' tables t' l. unfold add_rec. destruct (decide (ng = ng')) as [<-|]; [|rewrite lookup_partial_alter_ne by done; apply Hr].
  rewrite lookup_partial_alter_eq. intros [= <-]. destruct (decide (t = t')) as [<-|].
  - rewrite lookup_partial_alter_eq. intros [= <-]. by destruct (default [] _).
  - rewrite lookup_partial_alter_ne by done. destruct (recs !! ng) as [tables|] eqn:E; cbn; [by eapply Hr|by rewrite lookup_empty].
Qed.

Lemma collect_nonempty l terms recs terms' recs' : recs_nonempty recs → collect l terms recs = Some (terms', recs') → recs_nonempty recs'.
Proof.
  revert terms recs. induction l as [|[[t k] e] l IH]; intros terms recs Hr; cbn [collect]; [by intros [= <- <-]|].
  destruct (try_term _ _ _) as [terms1|]; [|done]. cbn [mbind option_bind]. apply IH. unfold add_forwards.
  generalize (map_to_list (forward_addr_ e)) (add_rec_nonempty recs (node_group_id_ (cce_addr_ e)) t k e Hr).
  generalize (add_rec recs (node_group_id_ (cce_addr_ e)) t k e). intros recs0 fwds. revert recs0.
  induction fwds as [|x fwds IHf]; intros recs0 H0; cbn [foldl]; [done|]. by apply IHf, add_rec_nonempty.
Qed.

Lemma try_term_spec terms ng term (T : gmap Z Z) :
  (∀ terms', try_term terms ng term = Some terms' → terms' ⊆ T ↔ terms ⊆ T ∧ T !! ng = Some term) ∧
  (try_term terms ng term = None → terms ⊆ T → T !! ng ≠ Some term).
Proof.
  unfold try_term. destruct (terms !! ng) as [term'|] eqn:E; [case_decide as Hd|].
  - subst. split; [|done]. intros terms' [= <-]. split; [intros Hs; split; [done|by eapply lookup_weaken]|tauto].
  - split; [done|]. intros _ Hs HT. pose proof (lookup_weaken _ _ _ _ E Hs). congruence.
  - split; [|done]. intros terms' [= <-]. split.
    + intros Hs. split; [etrans; [by apply insert_subseteq|done]|]. eapply lookup_weaken; [|done]. by rewrite lookup_insert_eq.
    + intros [Hs HT]. by apply insert_subseteq_l.
Qed.

(** [T] has the term of every entry's group. *)
Definition agrees (T : gmap Z Z) (l : list (TableName * K * entry)) : Prop :=
  ∀ t k e, (t, k, e) ∈ l → T !! node_group_id_ (cce_addr_ e) = Some (addr_term_ (cce_addr_ e)).

Lemma agrees_cons T t k e l : agrees T ((t, k, e) :: l) ↔ T !! node_group_id_ (cce_addr_ e) = Some (addr_term_ (cce_addr_ e)) ∧ agrees T l.
Proof. unfold agrees. setoid_rewrite elem_of_cons. naive_solver. Qed.

Lemma collect_terms l terms recs T :
  (∀ terms' recs', collect l terms recs = Some (terms', recs') → terms' ⊆ T ↔ terms ⊆ T ∧ agrees T l) ∧
  (collect l terms recs = None → terms ⊆ T → ¬ agrees T l).
Proof.
  revert terms recs. induction l as [|[[t k] e] l IH]; intros terms recs; cbn [collect].
  { split; [|done]. intros ? ? [= <- <-]. unfold agrees. set_solver. }
  setoid_rewrite agrees_cons. destruct (try_term_spec terms (node_group_id_ (cce_addr_ e)) (addr_term_ (cce_addr_ e)) T) as [H1 H2].
  destruct (try_term _ _ _) as [terms1|]; cbn [mbind option_bind]; [|split; [done|]; intros _ Hs [? _]; by apply H2].
  specialize (H1 terms1 eq_refl). destruct (IH terms1 (add_forwards (add_rec recs (node_group_id_ (cce_addr_ e)) t k e) t k e)) as [I1 I2]. split.
  - intros terms' recs' Hc. rewrite (I1 _ _ Hc), H1. tauto.
  - intros Hc Hs [? ?]. eapply I2; [done|tauto|done].
Qed.

Lemma add_read_terms_spec l terms (T : gmap Z Z) :
  (∀ terms', add_read_terms l terms = Some terms' → terms' ⊆ T ↔ terms ⊆ T ∧ ∀ ng term, (ng, term) ∈ l → T !! ng = Some term) ∧
  (add_read_terms l terms = None → terms ⊆ T → ¬ ∀ ng term, (ng, term) ∈ l → T !! ng = Some term).
Proof.
  revert terms. induction l as [|[ng term] l IH]; intros terms; cbn [add_read_terms].
  { split; [|done]. intros ? [= <-]. set_solver. }
  destruct (try_term_spec terms ng term T) as [H1 H2]. setoid_rewrite elem_of_cons.
  destruct (try_term _ _ _) as [terms1|]; cbn [mbind option_bind]; [|split; [done|]; intros _ Hs Ha; apply H2; [done..|]; apply Ha; by left].
  specialize (H1 terms1 eq_refl). destruct (IH terms1) as [I1 I2]. split.
  - intros terms' Hc. rewrite (I1 _ Hc), H1. naive_solver.
  - intros Hc Hs Ha. apply (I2 Hc); [apply H1; naive_solver|naive_solver].
Qed.

Lemma elem_of_write_list (s : ReadWriteSet K R) t k e : (t, k, e) ∈ write_list s ↔ FindWrite s t k = Some e.
Proof. apply (elem_write_list s (t, k)). Qed.

Lemma log_entries_None (l : list (K * entry)) : log_entries l = None → ∃ x, x ∈ l ∧ log_entry x = None.
Proof.
  induction l as [|x l IH]; [done|]. cbn [log_entries]. destruct (log_entry x) as [b|] eqn:E; [|intros _; exists x; set_solver]. cbn [mbind option_bind].
  destruct (log_entries l); [done|]. intros _. destruct (IH eq_refl) as (y & ? & ?). exists y. set_solver.
Qed.

Lemma tables_log_None (l : list (TableName * list (K * entry))) : tables_log l = None → ∃ t es x, (t, es) ∈ l ∧ x ∈ es ∧ log_entry x = None.
Proof.
  induction l as [|[t es] l IH]; [done|]. cbn [tables_log]. destruct (table_log (t, es)) as [b|] eqn:E.
  - cbn [mbind option_bind]. destruct (tables_log l); [done|]. intros _. destruct (IH eq_refl) as (t' & es' & x & ? & ? & ?). exists t', es', x. set_solver.
  - intros _. unfold table_log in E. cbn [fst snd] in E. destruct (log_entries es) eqn:El; [done|]. destruct (log_entries_None _ El) as (x & ? & ?).
    exists t, es, x. set_solver.
Qed.

Lemma elem_of_logged recs ng tables t l x : recs !! ng = Some tables → tables !! t = Some l → x ∈ l → x ∈ logged recs ng t.
Proof. intros Hng Ht Hx. unfold logged. rewrite Hng. cbn. by rewrite Ht. Qed.

Definition ng_logs recs : option (list (Z * bytes)) := mapM (λ x : Z * table_recs, b ← tables_log (map_to_list x.2); Some (x.1, b)) (map_to_list recs).

Lemma ng_logs_lookup recs logs ng : ng_logs recs = Some logs →
  (list_to_map logs : gmap Z bytes) !! ng = (recs !! ng ≫= λ tables, tables_log (map_to_list tables)).
Proof.
  unfold ng_logs. intros Hm%mapM_Some.
  assert (logs.*1 = (map_to_list recs).*1) as E.
  { induction Hm as [|[ng' tables] [ng'' b] l l' Hx _ IH]; [done|]. cbn in *. destruct (tables_log _); [|done]. injection Hx as <- <-. by rewrite IH. }
  assert (∀ b, (ng, b) ∈ logs ↔ ∃ tables, (ng, tables) ∈ map_to_list recs ∧ tables_log (map_to_list tables) = Some b) as Hin.
  { clear E. induction Hm as [|[ng' tables] [ng'' b'] l l' Hx _ IH]; intros b; [set_solver|]. cbn in Hx. destruct (tables_log (map_to_list tables)) as [b0|] eqn:Et; [|done].
    injection Hx as <- <-. setoid_rewrite elem_of_cons. rewrite IH. naive_solver. }
  apply option_eq. intros b. rewrite <- elem_of_list_to_map by (rewrite E; apply NoDup_fst_map_to_list). rewrite Hin. setoid_rewrite elem_of_map_to_list.
  destruct (recs !! ng) as [tables|]; cbn; naive_solver.
Qed.

(** ** Correctness of the log request *)

Context (schema_msg : K → ReplicaWriteSetEntry R → SchemaOpMessage).
Abbreviation fill_log := (FillDataLogRequest schema_msg).

(** [T] has the term of every group that the transaction wrote or locked for reading. *)
Definition consistent (T : gmap Z Z) (s : ReadWriteSet K R) : Prop :=
  (∀ t k e, FindWrite s t k = Some e → T !! node_group_id_ (cce_addr_ e) = Some (addr_term_ (cce_addr_ e))) ∧ read_lock_ng_terms_ s ⊆ T.

Lemma consistent_agrees T s : consistent T s ↔ agrees T (write_list s) ∧ ∀ ng term, (ng, term) ∈ map_to_list (read_lock_ng_terms_ s) → T !! ng = Some term.
Proof.
  unfold consistent, agrees. setoid_rewrite elem_of_write_list. setoid_rewrite elem_of_map_to_list. by rewrite map_subseteq_spec.
Qed.

Lemma FillDataLogRequest_cases tx_term txn commit_ts s :
  match collect (write_list s) ∅ ∅ with
  | None => fill_log tx_term txn commit_ts s = Some (inl NG_TERM_CHANGED)
  | Some (terms, recs) =>
      match ng_logs recs, add_read_terms (map_to_list (read_lock_ng_terms_ s)) terms with
      | None, _ => fill_log tx_term txn commit_ts s = None
      | Some logs, None => fill_log tx_term txn commit_ts s = Some (inl NG_TERM_CHANGED)
      | Some logs, Some terms' => ∃ msgs, fill_log tx_term txn commit_ts s =
          Some (inr (mkLogRequest tx_term txn commit_ts terms' (list_to_map logs) msgs))
      end
  end.
Proof.
  unfold FillDataLogRequest, ng_logs. destruct (collect _ _ _) as [[terms recs]|]; [|done]. destruct (mapM _ _); cbn [mbind option_bind]; [|done].
  destruct (add_read_terms _ _); [by eexists|done].
Qed.

(** The tables with their writes that a group's blob was made of. *)
Lemma FillDataLogRequest_logs tx_term txn commit_ts s req : fill_log tx_term txn commit_ts s = Some (inr req) →
  log_commit_timestamp req = commit_ts ∧
  ∀ ng, ∃ tables : table_recs, tables_log (map_to_list tables) = Some (default [] (node_txn_logs req !! ng)) ∧
    (∀ t l, tables !! t = Some l → l ≠ []) ∧
    ∀ t k e, (k, e) ∈ default [] (tables !! t) ↔ FindWrite s t k = Some e ∧ goes_to e ng.
Proof.
  intros Hf. pose proof (FillDataLogRequest_cases tx_term txn commit_ts s) as Hc. destruct (collect _ _ _) as [[terms recs]|] eqn:Ec; [|congruence].
  destruct (ng_logs recs) as [logs|] eqn:El; [|congruence]. destruct (add_read_terms _ _) as [terms'|]; [|congruence]. destruct Hc as [msgs Hc].
  assert (req = mkLogRequest tx_term txn commit_ts terms' (list_to_map logs) msgs) as -> by congruence. cbn. split; [done|]. intros ng.
  rewrite (ng_logs_lookup recs logs ng El). exists (default ∅ (recs !! ng)). split_and!.
  - destruct (recs !! ng) as [tables|] eqn:E; cbn; [|by rewrite map_to_list_empty]. destruct (tables_log _) as [b|] eqn:Et; [done|].
    unfold ng_logs in El. assert (is_Some (ng_logs recs)) as Hs by by eexists. unfold ng_logs in Hs. rewrite mapM_is_Some, Forall_forall in Hs.
    specialize (Hs (ng, tables)). rewrite elem_of_map_to_list in Hs. specialize (Hs E). cbn in Hs. rewrite Et in Hs. by destruct Hs.
  - intros t l. assert (recs_nonempty recs) as Hn by (eapply collect_nonempty; [|done]; intros ? ? ? ? Hx; by rewrite lookup_empty in Hx).
    destruct (recs !! ng) eqn:E; cbn; [by eapply Hn|by rewrite lookup_empty].
  - intros t k e. pose proof (collect_logged _ _ _ _ _ Ec ng t (k, e)) as Hl. cbn in Hl. rewrite elem_of_write_list in Hl.
    unfold logged in Hl at 2. rewrite lookup_empty in Hl. cbn in Hl. unfold logged in Hl.
    assert (default [] (recs !! ng ≫= lookup t) = default [] (default ∅ (recs !! ng) !! t)) as <-; [|set_solver].
    destruct (recs !! ng); cbn; [done|by rewrite lookup_empty].
Qed.

End logged.
