(* ===== verification/CcStore.v ===== *)
(** * What a shard promises to the coordinators

    The commit protocol relies on a few promises of the shards: a lock is not
    taken away by others, an entry's version changes only under the write lock,
    and a validated read pushes later writers past the reader's commit timestamp.
    [CcStoreLaws] states them about the events a shard produces when it executes
    the requests of transactions; [TxCommit] is proved against this interface, and
    [CcMapStore] shows that the handlers of [CcMap] implement it. *)

From S2P Require Import Prelude CcProtocol TableName.

(** The executions a coordinator sees, of transaction [t]:
    a read of key [x], which locked entry [cce] whose lock structure is [p] and
    returned version [v] ([None]: the value is not known); a write lock on [x],
    with the timestamps that come back; a validation or a release of a read; the
    installation of a write at [ct], or its release when [ct] is 0.  [EvOther]
    stands for every other execution that takes no lock away, and [EvForeign] for
    what a transaction outside the protocol does, such as a snapshot read. *)
Inductive cc_event (K : Type) :=
  | EvRead (t : Z) (x : TableName * K) (p cce : Z) (v : option Z)
  | EvAcquire (t : Z) (x : TableName * K) (p cce lv cts : Z)
  | EvPostRead (t p kt ct : Z) (ok : bool)
  | EvPostWrite (t p ct : Z)
  | EvOther
  | EvForeign (t : Z).
Arguments EvRead {_}.
Arguments EvAcquire {_}.
Arguments EvPostRead {_}.
Arguments EvPostWrite {_}.
Arguments EvOther {_}.
Arguments EvForeign {_}.

(** Observations: the key of an entry, whether its value is known and its version,
    the mode a transaction holds and the lock structure.  [st_bound] is at least
    every version in the data store. *)
Class CcStore (K S : Type) := {
  st_ok : S → Prop;
  st_step : S → cc_event K → S → Prop;
  st_bound : Z;
  st_last_read : S → Z;
  st_key : S → Z → TableName * K → Prop;
  st_known : S → Z → bool;
  st_ver : S → Z → Z;
  st_mode : S → Z → Z → LockType;
  st_at : S → Z → option Z;
}.

Section events.
Context {K S : Type} `{!CcStore K S}.
Implicit Types (s : S) (ev : cc_event K) (t cce : Z).

(** The event takes [t]'s lock on [cce] away. *)
Definition releases_lock s ev t cce : Prop :=
  match ev with
  | EvPostRead t' p _ _ _ => t' = t ∧ st_at s cce = Some p
  | EvPostWrite t' p _ => t' = t ∧ st_at s cce = Some p
  | EvForeign t' => t' = t
  | _ => False
  end.

(** The event may change the version of [cce]. *)
Definition installs s ev cce : Prop :=
  ∃ t p ct, ev = EvPostWrite t p ct ∧ (0 < ct)%Z ∧ st_at s cce = Some p ∧ st_mode s cce t = WriteLock.
End events.

Class CcStoreLaws (K S : Type) `{!CcStore K S} : Prop := {
  lw_ok s ev s' : st_ok s → st_step s ev s' → st_ok s';
  lw_last_read s ev s' : st_ok s → st_step s ev s' → (st_last_read s <= st_last_read s')%Z;
  lw_key s ev s' cce x : st_ok s → st_step s ev s' → st_key s cce x → st_key s' cce x;
  lw_key_inj s cce cce' x : st_ok s → st_key s cce x → st_key s cce' x → cce = cce';
  lw_key_fun s cce x x' : st_ok s → st_key s cce x → st_key s cce x' → x = x';
  lw_at_inj s cce cce' p : st_ok s → st_at s cce = Some p → st_at s cce' = Some p → cce = cce';
  lw_excl s cce t u : st_ok s → st_mode s cce t = WriteLock → st_mode s cce u = WriteLock → t = u;
  lw_known s ev s' cce : st_ok s → st_step s ev s' → st_known s cce = true →
    st_known s' cce = true ∧ (st_ver s' cce = st_ver s cce ∨ installs s ev cce);
  lw_fresh s ev s' cce : st_ok s → st_step s ev s' → st_known s cce = false → st_known s' cce = true →
    (st_ver s' cce <= st_bound)%Z ∨ installs s ev cce;
  lw_mode s ev s' cce t : st_ok s → st_step s ev s' → ¬ releases_lock s ev t cce →
    lock_rank (st_mode s cce t) ≤ lock_rank (st_mode s' cce t);
  lw_at s ev s' cce t : st_ok s → st_step s ev s' → ¬ releases_lock s ev t cce →
    st_mode s cce t ≠ NoLock → st_at s' cce = st_at s cce;
  lw_read s t x p cce v s' : st_ok s → st_step s (EvRead t x p cce v) s' →
    st_key s' cce x ∧ st_at s' cce = Some p ∧ st_mode s' cce t ≠ NoLock ∧
    ∀ ts, v = Some ts → st_known s' cce = true ∧ st_ver s' cce = ts;
  lw_acquire s t x p cce lv cts s' : st_ok s → st_step s (EvAcquire t x p cce lv cts) s' →
    st_key s' cce x ∧ st_at s' cce = Some p ∧ st_mode s' cce t = WriteLock ∧
    (st_last_read s <= lv)%Z ∧ (0 < cts)%Z ∧
    (if st_known s cce then cts = st_ver s cce else (st_bound <= cts)%Z);
  lw_post_read s t p kt ct s' cce : st_ok s → st_step s (EvPostRead t p kt ct true) s' → (0 < kt)%Z →
    st_at s cce = Some p → st_mode s cce t ≠ NoLock →
    (st_known s cce = true → st_ver s cce = kt) ∧ (∀ u, u ≠ t → st_mode s cce u ≠ WriteLock) ∧
    (ct <= st_last_read s')%Z;
  lw_install s t p ct s' cce : st_ok s → st_step s (EvPostWrite t p ct) s' → (0 < ct)%Z →
    st_at s cce = Some p → st_mode s cce t = WriteLock → (st_known s cce = true → st_ver s cce < ct)%Z →
    st_known s' cce = true ∧ st_ver s' cce = ct;
}.
