(* ===== verification/CommitProtocol.v ===== *)
(** * The commit protocol: coordinators and shards

    A run interleaves the steps of any number of coordinators, each executing one
    request at a time on one shard, with everything else the shards do.  The shards
    are those of the interface [CcStore].  The main theorems say that the commit
    timestamps order the committed transactions serially: between the version a
    transaction read or overwrote and its own commit timestamp no other committed
    transaction has written the key.

    The node groups keep their leaders during a run, the entries of the run stay in
    memory and no bucket migrates.  A coordinator remembers, for the statement of
    the theorems only, the key an address stands for ([gh_read], and [gh_lock] with
    the timestamps that came with the write lock), the versions its reads answered
    ([gh_answers]) and those that were validated ([gh_valid]), and the write locks
    that were given back ([gh_done]). *)

From S2P Require Import Prelude CcProtocol TableName ReadWriteSet TxCommit CcStore.

Inductive Phase :=
  | Executing
  | Acquiring (waiting : gset nat) (failed : bool)
  | SettingTs
  | Validating (left : list (CcEntryAddr * Z)) (failed : bool)
  | Logging
  | PostProcessing (left : list PostRequest)
  | TxDone.

Record Txm (K R : Type) `{Countable K} := mkTxm {
  rw_set_ : ReadWriteSet K R;
  acquire_write_entries_ : list (TableName * K);
  acquire_results_ : list AcquireKeyResult;
  commit_ts_bound_ : Z;
  tx_commit_ts_ : Z;
  tx_status_ : TxnStatus;
  phase : Phase;
  gh_read : gmap CcEntryAddr (TableName * K);
  gh_answers : list (TableName * K * Z);
  gh_lock : gmap CcEntryAddr (TableName * K * Z * Z);
  gh_valid : list (TableName * K * Z);
  gh_done : gset CcEntryAddr;
}.
Arguments mkTxm {_ _ _ _}.
Arguments rw_set_ {_ _ _ _}.
Arguments acquire_write_entries_ {_ _ _ _}.
Arguments acquire_results_ {_ _ _ _}.
Arguments commit_ts_bound_ {_ _ _ _}.
Arguments tx_commit_ts_ {_ _ _ _}.
Arguments tx_status_ {_ _ _ _}.
Arguments phase {_ _ _ _}.
Arguments gh_read {_ _ _ _}.
Arguments gh_answers {_ _ _ _}.
Arguments gh_lock {_ _ _ _}.
Arguments gh_valid {_ _ _ _}.
Arguments gh_done {_ _ _ _}.

Record Sys (K R S : Type) `{Countable K} := mkSys {
  shards : gmap (Z * Z) S;
  txms : gmap Z (Txm K R);
}.
Arguments mkSys {_ _ _ _ _}.
Arguments shards {_ _ _ _ _}.
Arguments txms {_ _ _ _ _}.

(** The shard of an address: node group and core. *)
Definition shard_id (a : CcEntryAddr) : Z * Z := (node_group_id_ a, core_id_ a).

Section protocol.
Context {K R S : Type} `{Countable K, !CcStore K S}.
Context (key_len : K → Z) (rec_len : R → Z).
(** Where a key lives, the term of the leaders, and whether commits are logged. *)
Context (shard_of : TableName * K → Z * Z) (term : Z * Z → Z) (use_log : bool).
Abbreviation txm := (Txm K R).
Abbreviation sys := (Sys K R S).
Implicit Types (c : txm) (y : sys) (rw : ReadWriteSet K R) (t : Z) (a : CcEntryAddr).

Definition addr_of (sid : Z * Z) (p : Z) : CcEntryAddr := mkAddr p sid.1 sid.2 (term sid).

(** Assignments. *)
Definition set_rw c rw : txm :=
  mkTxm rw (acquire_write_entries_ c) (acquire_results_ c) (commit_ts_bound_ c) (tx_commit_ts_ c) (tx_status_ c)
    (phase c) (gh_read c) (gh_answers c) (gh_lock c) (gh_valid c) (gh_done c).
Definition set_phase c (ph : Phase) : txm :=
  mkTxm (rw_set_ c) (acquire_write_entries_ c) (acquire_results_ c) (commit_ts_bound_ c) (tx_commit_ts_ c)
    (tx_status_ c) ph (gh_read c) (gh_answers c) (gh_lock c) (gh_valid c) (gh_done c).
Definition set_fate c (st : TxnStatus) (ph : Phase) : txm :=
  mkTxm (rw_set_ c) (acquire_write_entries_ c) (acquire_results_ c) (commit_ts_bound_ c) (tx_commit_ts_ c)
    st ph (gh_read c) (gh_answers c) (gh_lock c) (gh_valid c) (gh_done c).
Definition set_acquire_op c (entries : list (TableName * K)) (results : list AcquireKeyResult) : txm :=
  mkTxm (rw_set_ c) entries results (commit_ts_bound_ c) (tx_commit_ts_ c) (tx_status_ c)
    (phase c) (gh_read c) (gh_answers c) (gh_lock c) (gh_valid c) (gh_done c).
Definition set_commit_ts c (ts : Z) : txm :=
  mkTxm (rw_set_ c) (acquire_write_entries_ c) (acquire_results_ c) (commit_ts_bound_ c) ts (tx_status_ c)
    (phase c) (gh_read c) (gh_answers c) (gh_lock c) (gh_valid c) (gh_done c).
Definition note_read c a (x : TableName * K) (v : Z) (ok : bool) : txm :=
  mkTxm (rw_set_ c) (acquire_write_entries_ c) (acquire_results_ c) (commit_ts_bound_ c) (tx_commit_ts_ c)
    (tx_status_ c) (phase c) (<[a := x]> (gh_read c)) (if ok then (x, v) :: gh_answers c else gh_answers c)
    (gh_lock c) (gh_valid c) (gh_done c).
Definition note_lock c a (x : TableName * K) (lv cts : Z) : txm :=
  mkTxm (rw_set_ c) (acquire_write_entries_ c) (acquire_results_ c) (commit_ts_bound_ c) (tx_commit_ts_ c)
    (tx_status_ c) (phase c) (gh_read c) (gh_answers c) (<[a := (x, lv, cts)]> (gh_lock c)) (gh_valid c) (gh_done c).
Definition note_valid c a (v : Z) : txm :=
  mkTxm (rw_set_ c) (acquire_write_entries_ c) (acquire_results_ c) (commit_ts_bound_ c) (tx_commit_ts_ c)
    (tx_status_ c) (phase c) (gh_read c) (gh_answers c) (gh_lock c)
    (option_list ((λ x, (x, v)) <$> gh_read c !! a) ++ gh_valid c) (gh_done c).
Definition note_done c a : txm :=
  mkTxm (rw_set_ c) (acquire_write_entries_ c) (acquire_results_ c) (commit_ts_bound_ c) (tx_commit_ts_ c)
    (tx_status_ c) (phase c) (gh_read c) (gh_answers c) (gh_lock c) (gh_valid c) ({[a]} ∪ gh_done c).

(** [InitTxn]: [commit_ts_bound_ = start_ts + 1]. *)
Definition new_txm (start_ts : Z) : txm :=
  mkTxm ReadWriteSet_Reset [] [] (start_ts + 1) 0 Ongoing Executing ∅ [] ∅ [] ∅.

(** [Abort]. *)
Definition Abort c : txm := set_fate c Aborted (PostProcessing (post_requests Aborted 0 (rw_set_ c))).

(** The transaction is committed. *)
Definition finish_commit c : txm :=
  set_fate c Committed (PostProcessing (post_requests Committed (tx_commit_ts_ c) (rw_set_ c))).

(** After validation: the log is written when there is something to write. *)
Definition log_or_commit c : txm :=
  if use_log && bool_decide (0 < WriteSetSize (rw_set_ c))%Z then set_phase c Logging else finish_commit c.

(** [Process(SetCommitTsOperation)] followed by [acquire_write.Reset(0, 0)]. *)
Definition set_ts c (local_ts lower_bound : Z) : txm :=
  let candidate := candidate_after_acquire (commit_ts_bound_ c) (acquire_results_ c) 0 (rw_set_ c) in
  set_phase (set_acquire_op (set_commit_ts c (SetCommitTimestamp local_ts lower_bound candidate).1) [] []) SettingTs.

(** [Commit]. *)
Definition Commit c (local_ts lower_bound : Z) : txm :=
  let c := set_fate c Committing (phase c) in
  if decide (0 < WriteSetSize (rw_set_ c))%Z then
    let keys := write_keys (rw_set_ c) in
    set_phase (set_acquire_op c keys ((λ x, empty_result (shard_of x).1) <$> keys))
      (Acquiring (set_seq 0 (length keys)) false)
  else set_ts c local_ts lower_bound.

(** [AggregateAcquiredKeys] and [PostProcess(AcquireWriteOperation)]. *)
Definition acquired_all c (failed : bool) (local_ts lower_bound : Z) : option txm :=
  g ← AggregateAcquiredKeys (acquire_write_entries_ c) (acquire_results_ c) (rw_set_ c);
  let c1 := set_acquire_op (set_rw c (ag_rw g)) (acquire_write_entries_ c) (ag_results g) in
  Some (if ag_expired g || failed then Abort (set_acquire_op c1 [] []) else set_ts c1 local_ts lower_bound).

(** [PostProcess(SetCommitTsOperation)]. *)
Definition after_set_ts c : txm :=
  if decide (0 < DataReadSetSize (rw_set_ c))%Z
  then set_phase c (Validating (data_read_list (rw_set_ c)) false)
  else log_or_commit c.

(** [ValidateOperation::Forward] when all answers are there, and
    [PostProcess(ValidateOperation)]. *)
Definition after_validate c (failed : bool) : txm :=
  let c1 := set_rw c (ClearReadSet (rw_set_ c)) in
  if failed then Abort c1 else log_or_commit c1.

(** One request on one shard, and what the coordinator does with the answer. *)
Inductive tx_step (t : Z) (sid : Z * Z) : S → txm → S → txm → Prop :=
  | tx_read s s' c x p cce v ok rw :
      phase c = Executing → shard_of x = sid → IsMeta (tn_type x.1) = false →
      st_step s (EvRead t x p cce v) s' →
      AddRead (rw_set_ c) (addr_of sid p) (default 0%Z v) x.1 = (ok, rw) →
      (data_reads (rset_ rw) < 2 ^ 64)%Z →
      tx_step t sid s c s' (note_read (set_rw c rw) (addr_of sid p) x (default 0%Z v) ok)
  | tx_acquire s s' c waiting failed i x p cce lv cts :
      phase c = Acquiring waiting failed → i ∈ waiting → acquire_write_entries_ c !! i = Some x →
      shard_of x = sid → st_step s (EvAcquire t x p cce lv cts) s' →
      tx_step t sid s c s'
        (set_phase
           (note_lock
              (set_acquire_op c (acquire_write_entries_ c)
                 (<[i := mkAcquireResult (addr_of sid p) lv cts]> (acquire_results_ c)))
              (addr_of sid p) x lv cts)
           (Acquiring (waiting ∖ {[i]}) failed))
  | tx_acquire_error s s' c waiting failed i x a :
      phase c = Acquiring waiting failed → i ∈ waiting → acquire_write_entries_ c !! i = Some x →
      shard_of x = sid → st_step s EvOther s' →
      tx_step t sid s c s'
        (set_phase
           (set_acquire_op c (acquire_write_entries_ c) (<[i := mkAcquireResult a 0 0]> (acquire_results_ c)))
           (Acquiring (waiting ∖ {[i]}) true))
  | tx_validate s s' c l1 a v l2 failed ok :
      phase c = Validating (l1 ++ (a, v) :: l2) failed → shard_id a = sid →
      st_step s (EvPostRead t (cce_lock_ptr_ a) v (tx_commit_ts_ c) ok) s' →
      tx_step t sid s c s'
        (set_phase (if ok && bool_decide (0 < v)%Z then note_valid c a v else c)
           (Validating (l1 ++ l2) (failed || negb ok)))
  | tx_post_write s s' c l1 a ts l2 :
      phase c = PostProcessing (l1 ++ PostWrite a ts :: l2) → shard_id a = sid →
      st_step s (EvPostWrite t (cce_lock_ptr_ a) ts) s' →
      tx_step t sid s c s' (set_phase (note_done c a) (PostProcessing (l1 ++ l2)))
  | tx_post_read s s' c l1 a l2 ok :
      phase c = PostProcessing (l1 ++ PostRead a :: l2) → shard_id a = sid →
      st_step s (EvPostRead t (cce_lock_ptr_ a) 0 0 ok) s' →
      tx_step t sid s c s' (set_phase c (PostProcessing (l1 ++ l2))).

(** What the coordinator does on its own. *)
Inductive tx_local : txm → txm → Prop :=
  | tx_write c tbl ver k rec op cu err rw :
      phase c = Executing → IsMeta (tn_type tbl) = false →
      (wset_bytes_cnt_ (rw_set_ c) + (key_len k + rec_size rec_len rec) < 2 ^ 64)%Z →
      AddWrite key_len rec_len (rw_set_ c) tbl ver k rec op cu = Some (err, rw) →
      (writes (wset_ rw) < 2 ^ 64)%Z →
      tx_local c (set_rw c rw)
  | tx_commit c local_ts lower_bound : phase c = Executing → tx_local c (Commit c local_ts lower_bound)
  | tx_rollback c : phase c = Executing → tx_local c (Abort c)
  | tx_acquired c c' failed local_ts lower_bound :
      phase c = Acquiring ∅ failed → acquired_all c failed local_ts lower_bound = Some c' → tx_local c c'
  | tx_ts_set c : phase c = SettingTs → tx_local c (after_set_ts c)
  | tx_ts_error c : phase c = SettingTs → tx_local c (Abort c)
  | tx_validated c failed : phase c = Validating [] failed → tx_local c (after_validate c failed)
  | tx_log_ok c : phase c = Logging → tx_local c (finish_commit c)
  | tx_log_error c : phase c = Logging → tx_local c (Abort c)
  | tx_log_unknown c :
      phase c = Logging →
      tx_local c (set_fate c Txn_Unknown (PostProcessing (post_requests Txn_Unknown 0 (rw_set_ c))))
  | tx_done c : phase c = PostProcessing [] → tx_local c (set_phase c TxDone).

Inductive sys_step : sys → sys → Prop :=
  | sys_begin y t start_ts :
      txms y !! t = None → sys_step y (mkSys (shards y) (<[t := new_txm start_ts]> (txms y)))
  | sys_request y t sid s c s' c' :
      shards y !! sid = Some s → txms y !! t = Some c → tx_step t sid s c s' c' →
      sys_step y (mkSys (<[sid := s']> (shards y)) (<[t := c']> (txms y)))
  | sys_local y t c c' :
      txms y !! t = Some c → tx_local c c' → sys_step y (mkSys (shards y) (<[t := c']> (txms y)))
  | sys_other y sid s s' :
      shards y !! sid = Some s → st_step s EvOther s' →
      sys_step y (mkSys (<[sid := s']> (shards y)) (txms y))
  | sys_foreign y sid s s' u :
      shards y !! sid = Some s → txms y !! u = None → st_step s (EvForeign u) s' →
      sys_step y (mkSys (<[sid := s']> (shards y)) (txms y)).

(** Shards that keep their promises and hold nothing newer than the data store, and
    no transaction yet. *)
Definition sys_init y : Prop :=
  txms y = ∅ ∧
  ∀ sid s, shards y !! sid = Some s →
    st_ok s ∧ ∀ cce, st_known s cce = true → (st_ver s cce <= st_bound)%Z.

Definition sys_reachable y : Prop := ∃ y0, sys_init y0 ∧ rtc sys_step y0 y.
End protocol.
