(* ===== verification/CommitOrder.v ===== *)
(** * Commit timestamps order the committed transactions

    The invariant of the runs of [CommitProtocol] and what follows from it.  It has
    four parts: what a coordinator knows about the entries it holds locks on
    ([tx_sh]), what it knows about its own sets ([tx_ok]), how the reads and writes
    of two coordinators relate ([pairs]), and where the versions on the shards come
    from ([origin]). *)

From S2P Require Import Prelude CcProtocol TableName ReadWriteSet TxCommit CcStore CommitProtocol.

(** ** One shard *)

Section shard.
Context {K S : Type} `{!CcStore K S, !CcStoreLaws K S}.
Implicit Types (s : S) (ev : cc_event K) (t : Z) (a : CcEntryAddr) (x : TableName * K).

(** [t] holds a lock on the entry of [x], whose lock structure is that of [a]; a
    version it was answered is not newer than the current one. *)
Definition sh_read s t a (v : Z) x : Prop :=
  ∃ κ, st_key s κ x ∧ st_at s κ = Some (cce_lock_ptr_ a) ∧ st_mode s κ t ≠ NoLock ∧
    ((0 < v)%Z → st_known s κ = true ∧ (v <= st_ver s κ)%Z).

(** [t] holds the write lock; the version is still [cts], or was unknown when the
    lock was granted and then [cts] is a bound for it. *)
Definition sh_write s t a x (cts : Z) : Prop :=
  ∃ κ, st_key s κ x ∧ st_at s κ = Some (cce_lock_ptr_ a) ∧ st_mode s κ t = WriteLock ∧
    if st_known s κ then (st_ver s κ <= cts)%Z else (st_bound <= cts)%Z.

(** A version not older than [ct] is there. *)
Definition sh_done s x (ct : Z) : Prop :=
  ∃ κ, st_key s κ x ∧ st_known s κ = true ∧ (ct <= st_ver s κ)%Z.

(** The event does not release [t]'s lock at [a]. *)
Definition keeps_addr ev t a : Prop :=
  match ev with
  | EvPostRead t' p _ _ _ | EvPostWrite t' p _ => ¬ (t' = t ∧ p = cce_lock_ptr_ a)
  | EvForeign t' => t' ≠ t
  | _ => True
  end.

(** Versions only grow. *)
Definition grows s s' : Prop :=
  ∀ κ, st_known s κ = true → st_known s' κ = true ∧ (st_ver s κ <= st_ver s' κ)%Z.

Lemma keeps_no_release s ev t a κ :
  keeps_addr ev t a → st_at s κ = Some (cce_lock_ptr_ a) → ¬ releases_lock s ev t κ.
Proof. destruct ev; cbn; naive_solver congruence. Qed.

Lemma lock_rank_held (m m' : LockType) : m ≠ NoLock → lock_rank m ≤ lock_rank m' → m' ≠ NoLock.
Proof. destruct m, m'; cbn; first [done|lia]. Qed.

Lemma lock_rank_write (m : LockType) : lock_rank WriteLock ≤ lock_rank m → m = WriteLock.
Proof. destruct m; cbn; first [done|lia]. Qed.

Lemma sh_read_step s ev s' t a v x :
  st_ok s → st_step s ev s' → grows s s' → keeps_addr ev t a → sh_read s t a v x → sh_read s' t a v x.
Proof.
  intros Hok Hst Hg Hk (κ & Hkey & Hat & Hm & Hv). pose proof (keeps_no_release s ev t a κ Hk Hat) as Hnr.
  exists κ. split_and!.
  - by eapply lw_key.
  - by rewrite (lw_at s ev s' κ t).
  - eapply lock_rank_held; [exact Hm|]. by eapply lw_mode.
  - intros H0. destruct (Hv H0) as [Hkn Hle]. destruct (Hg κ Hkn). split; [done|lia].
Qed.

Lemma no_install s ev t a κ :
  st_ok s → keeps_addr ev t a → st_at s κ = Some (cce_lock_ptr_ a) → st_mode s κ t = WriteLock → ¬ installs s ev κ.
Proof.
  intros Hok Hk Hat Hm (u & p & ct & -> & _ & Hp & Hu). cbn in Hk. apply Hk.
  split; [by eapply lw_excl|congruence].
Qed.

Lemma sh_write_step s ev s' t a x cts :
  st_ok s → st_step s ev s' → keeps_addr ev t a → sh_write s t a x cts → sh_write s' t a x cts.
Proof.
  intros Hok Hst Hk (κ & Hkey & Hat & Hm & Hv). pose proof (keeps_no_release s ev t a κ Hk Hat) as Hnr.
  pose proof (no_install s ev t a κ Hok Hk Hat Hm) as Hni. exists κ. split_and!.
  - by eapply lw_key.
  - rewrite (lw_at s ev s' κ t); [done..|]. by rewrite Hm.
  - apply lock_rank_write. rewrite <-Hm. by eapply lw_mode.
  - destruct (st_known s κ) eqn:Hkn.
    + destruct (lw_known s ev s' κ Hok Hst Hkn) as [-> [->|]]; [done|tauto].
    + destruct (st_known s' κ) eqn:Hkn'; [|done].
      destruct (lw_fresh s ev s' κ Hok Hst Hkn Hkn'); [lia|tauto].
Qed.

Lemma sh_done_step s ev s' x ct :
  st_ok s → st_step s ev s' → grows s s' → sh_done s x ct → sh_done s' x ct.
Proof.
  intros Hok Hst Hg (κ & Hkey & Hkn & Hle). exists κ. destruct (Hg κ Hkn). split_and!; [by eapply lw_key|done|lia].
Qed.

Lemma grows_step s ev s' :
  st_ok s → st_step s ev s' →
  (∀ κ, installs s ev κ → st_known s κ = true → (st_ver s κ <= st_ver s' κ)%Z) → grows s s'.
Proof.
  intros Hok Hst Hi κ Hkn. destruct (lw_known s ev s' κ Hok Hst Hkn) as [Hkn' [->|Hin]]; [done|]. auto.
Qed.

Lemma grows_quiet s ev s' :
  st_ok s → st_step s ev s' → (∀ t p ct, ev = EvPostWrite t p ct → ¬ (0 < ct)%Z) → grows s s'.
Proof.
  intros Hok Hst Hq. eapply grows_step; [done..|]. intros κ (t & p & ct & -> & Hct & _). by destruct (Hq t p ct).
Qed.

(** The installation of a write by the holder of the lock. *)
Lemma install_grows s t a x cts ct s' :
  st_ok s → st_step s (EvPostWrite t (cce_lock_ptr_ a) ct) s' → sh_write s t a x cts → (0 < ct → cts < ct)%Z →
  grows s s' ∧ ((0 < ct)%Z → sh_done s' x ct ∧
    ∀ κ, installs s (EvPostWrite t (cce_lock_ptr_ a) ct) κ → st_key s' κ x ∧ st_ver s' κ = ct).
Proof.
  intros Hok Hst (κ & Hkey & Hat & Hm & Hv) Hlt.
  assert ((0 < ct)%Z → st_known s' κ = true ∧ st_ver s' κ = ct) as Hi.
  { intros H0. eapply lw_install; try done. intros Hkn. rewrite Hkn in Hv. lia. }
  assert (∀ κ', installs s (EvPostWrite t (cce_lock_ptr_ a) ct) κ' → κ' = κ ∧ (0 < ct)%Z) as Hone.
  { intros κ' (t' & p & ct' & [= <- <- <-] & H0 & Hat' & _). split; [by eapply lw_at_inj|done]. }
  split.
  - eapply grows_step; [done..|]. intros κ' [-> H0]%Hone Hkn. rewrite Hkn in Hv. destruct (Hi H0) as [_ ->]. lia.
  - intros H0. destruct (Hi H0) as [Hkn Hver]. split.
    + exists κ. split_and!; [by eapply lw_key|done|lia].
    + intros κ' [-> _]%Hone. split; [by eapply lw_key|done].
Qed.

Lemma at_key s κ κ' x x' p :
  st_ok s → st_at s κ = Some p → st_at s κ' = Some p → st_key s κ x → st_key s κ' x' → x = x'.
Proof. intros Hok H1 H2. rewrite (lw_at_inj s κ κ' p Hok H1 H2). by apply lw_key_fun. Qed.

Lemma write_excl s t u a b x cts cts' :
  st_ok s → sh_write s t a x cts → sh_write s u b x cts' → t = u.
Proof.
  intros Hok (κ & Hk & _ & Hm & _) (κ' & Hk' & _ & Hm' & _).
  assert (κ = κ') as <- by (by eapply lw_key_inj). by eapply lw_excl.
Qed.
End shard.

(** ** The invariant *)

Section invariant.
Context {K R S : Type} `{Countable K, !CcStore K S}.
Context (key_len : K → Z) (rec_len : R → Z) (shard_of : TableName * K → Z * Z) (term : Z * Z → Z).
Abbreviation txm := (Txm K R).
Implicit Types (c d : txm) (rw : ReadWriteSet K R) (t u : Z) (a b : CcEntryAddr) (x : TableName * K)
  (sh : gmap (Z * Z) S).

Definition at_shard sh x (P : S → Prop) : Prop := ∃ s, sh !! shard_of x = Some s ∧ P s.

(** An address of the shard of [x], under the current term. *)
Definition addr_at a x : Prop := a = addr_of term (shard_of x) (cce_lock_ptr_ a).

(** The reads whose lock is still held. *)
Definition post_read (q : PostRequest) : option (CcEntryAddr * Z) :=
  match q with PostRead a => Some (a, 0%Z) | PostWrite _ _ => None end.
Definition post_addr (q : PostRequest) : CcEntryAddr := match q with PostRead a | PostWrite a _ => a end.

Definition reads_left c : list (CcEntryAddr * Z) :=
  match phase c with
  | Executing | Acquiring _ _ | SettingTs => data_read_list (rw_set_ c)
  | Validating rest _ => rest
  | PostProcessing rest => omap post_read rest
  | Logging | TxDone => []
  end.

Record tx_sh sh t c : Prop := {
  ts_read : ∀ a v, (a, v) ∈ reads_left c →
    ∃ x, gh_read c !! a = Some x ∧ addr_at a x ∧ at_shard sh x (λ s, sh_read s t a v x);
  ts_addr : ∀ a x lv cts, gh_lock c !! a = Some (x, lv, cts) → addr_at a x;
  ts_write : ∀ a x lv cts, gh_lock c !! a = Some (x, lv, cts) → a ∉ gh_done c →
    at_shard sh x (λ s, sh_write s t a x cts);
  ts_done : ∀ a x lv cts, gh_lock c !! a = Some (x, lv, cts) → a ∈ gh_done c → tx_status_ c = Committed →
    at_shard sh x (λ s, sh_done s x (tx_commit_ts_ c));
  ts_valid : ∀ x v, (x, v) ∈ gh_valid c → at_shard sh x (λ s, (tx_commit_ts_ c <= st_last_read s)%Z);
}.

(** The version that was read is the one under the transaction's own write lock. *)
Definition upgraded c x (v : Z) : Prop := ∃ a lv, gh_lock c !! a = Some (x, lv, v).

Definition in_reads c x (v : Z) : Prop := ∃ a, gh_read c !! a = Some x ∧ (a, v) ∈ reads_left c.

(** Every answer satisfies [P]. *)
Definition answers c (P : TableName * K → Z → Prop) : Prop := ∀ x v, (x, v) ∈ gh_answers c → (0 < v)%Z → P x v.

(** What holds of the sets in every phase. *)
Record sets_ok c : Prop := {
  so_rw : rw_ok key_len rec_len (rw_set_ c);
  so_reads : (Z.of_nat (length (data_read_list (rw_set_ c))) < 2 ^ 64)%Z;
  so_catalog : catalog_wset_ (rw_set_ c) = ∅;
  so_noted : ∀ tbl a r, read_at (rw_set_ c) tbl a = Some r →
    IsMeta (tn_type tbl) = false ∧ ∃ k, gh_read c !! a = Some (tbl, k);
  so_forward : ∀ x e, FindWrite (rw_set_ c) x.1 x.2 = Some e → forward_addr_ e = ∅;
}.

(** The address of every write is that of a lock of the key. *)
Definition locked c x (e : WriteSetEntry R) : Prop := ∃ lv cts, gh_lock c !! cce_addr_ e = Some (x, lv, cts).
Definition no_addr (e : WriteSetEntry R) : Prop := (addr_term_ (cce_addr_ e) < 0)%Z.
Definition writes_all c (P : TableName * K → WriteSetEntry R → Prop) : Prop :=
  ∀ x e, FindWrite (rw_set_ c) x.1 x.2 = Some e → P x e.

(** The commit timestamp is fixed above everything that was read or locked. *)
Record ts_fixed c : Prop := {
  tf_lock : ∀ a x lv cts, gh_lock c !! a = Some (x, lv, cts) → (lv < tx_commit_ts_ c ∧ 0 < cts < tx_commit_ts_ c)%Z;
  tf_write : writes_all c (locked c);
  tf_answer : answers c (λ _ v, (v < tx_commit_ts_ c)%Z);
}.

Record slots_match c (waiting : gset nat) (failed : bool) : Prop := {
  sl_entries : acquire_write_entries_ c = write_keys (rw_set_ c);
  sl_length : length (acquire_results_ c) = length (acquire_write_entries_ c);
  sl_lock : ∀ i res, acquire_results_ c !! i = Some res → success res →
    ∃ x, acquire_write_entries_ c !! i = Some x ∧
      gh_lock c !! ar_cce_addr_ res = Some (x, ar_last_vali_ts_ res, ar_commit_ts_ res);
  sl_slot : ∀ a x lv cts, gh_lock c !! a = Some (x, lv, cts) →
    ∃ i, acquire_write_entries_ c !! i = Some x ∧ acquire_results_ c !! i = Some (mkAcquireResult a lv cts) ∧
      success (mkAcquireResult a lv cts) ∧ (0 < cts)%Z;
  sl_waiting : ∀ i res, i ∈ waiting → acquire_results_ c !! i = Some res → ¬ success res;
  sl_finished : ∀ i res, i ∉ waiting → failed = false → acquire_results_ c !! i = Some res → success res;
}.

(** The reads that are left are not write locked. *)
Definition reads_apart c : Prop :=
  NoDup (reads_left c).*1 ∧ ∀ a v, (a, v) ∈ reads_left c → gh_lock c !! a = None.

Record post_ok c (rest : list PostRequest) : Prop := {
  po_dup : NoDup (post_addr <$> rest);
  po_read : ∀ a, PostRead a ∈ rest → gh_lock c !! a = None;
  po_write : ∀ a ts, PostWrite a ts ∈ rest →
    a ∉ gh_done c ∧
    (tx_status_ c = Aborted ∧ ts = 0%Z ∧ is_Some (gh_lock c !! a) ∨
     tx_status_ c = Committed ∧ ts = tx_commit_ts_ c ∧
       ∃ x e, FindWrite (rw_set_ c) x.1 x.2 = Some e ∧ cce_addr_ e = a);
}.

Definition fate_ok c : Prop :=
  (tx_status_ c = Aborted ∨ tx_status_ c = Committed ∨ tx_status_ c = Txn_Unknown) ∧
  (tx_status_ c = Committed → ts_fixed c ∧ answers c (λ x v, (x, v) ∈ gh_valid c ∨ upgraded c x v)).

(** Nothing was validated or installed yet. *)
Definition nothing_done c : Prop := gh_valid c = [] ∧ gh_done c = ∅.

Definition phase_ok c : Prop :=
  match phase c with
  | Executing =>
      tx_status_ c = Ongoing ∧ nothing_done c ∧ gh_lock c = ∅ ∧ writes_all c (λ _ e, no_addr e) ∧
      answers c (in_reads c) ∧ (writes (wset_ (rw_set_ c)) < 2 ^ 64)%Z
  | Acquiring waiting failed =>
      tx_status_ c = Committing ∧ nothing_done c ∧ slots_match c waiting failed ∧ answers c (in_reads c)
  | SettingTs =>
      tx_status_ c = Committing ∧ nothing_done c ∧ ts_fixed c ∧ reads_apart c ∧
      answers c (λ x v, in_reads c x v ∨ upgraded c x v)
  | Validating rest failed =>
      tx_status_ c = Committing ∧ gh_done c = ∅ ∧ ts_fixed c ∧ reads_apart c ∧
      (failed = false → answers c (λ x v, in_reads c x v ∨ (x, v) ∈ gh_valid c ∨ upgraded c x v))
  | Logging =>
      tx_status_ c = Committing ∧ gh_done c = ∅ ∧ ts_fixed c ∧ data_read_list (rw_set_ c) = [] ∧
      answers c (λ x v, (x, v) ∈ gh_valid c ∨ upgraded c x v)
  | PostProcessing rest => fate_ok c ∧ post_ok c rest
  | TxDone => fate_ok c
  end.

Definition done_fate c : Prop := gh_done c = ∅ ∨ tx_status_ c = Committed ∨ tx_status_ c = Aborted.

Definition tx_ok c : Prop := sets_ok c ∧ phase_ok c ∧ done_fate c.

(** A write of [d] at [b] was installed at or below [v]. *)
Definition installed_by d b (v : Z) : Prop := b ∈ gh_done d ∧ tx_status_ d = Committed ∧ (tx_commit_ts_ d <= v)%Z.

(** A validated read of [c] against a write lock of [d]. *)
Definition valid_pair c d : Prop :=
  ∀ x v b lv cts, (x, v) ∈ gh_valid c → gh_lock d !! b = Some (x, lv, cts) →
    installed_by d b v ∨ (tx_commit_ts_ c <= lv)%Z ∨ tx_status_ d = Aborted.

(** Two write locks. *)
Definition write_pair c d : Prop :=
  ∀ x a lv cts b lv' cts', gh_lock c !! a = Some (x, lv, cts) → gh_lock d !! b = Some (x, lv', cts') →
    installed_by d b cts ∨ installed_by c a cts' ∨ tx_status_ c = Aborted ∨ tx_status_ d = Aborted.

Definition pairs c d : Prop := valid_pair c d ∧ valid_pair d c ∧ write_pair c d.

(** Version [v] of [x] is from the data store or from a committed transaction. *)
Definition wrote c x : Prop := tx_status_ c = Committed ∧ is_Some (FindWrite (rw_set_ c) x.1 x.2).
Definition origin (txs : gmap Z txm) x (v : Z) : Prop :=
  (v <= st_bound)%Z ∨ ∃ u d, txs !! u = Some d ∧ wrote d x ∧ tx_commit_ts_ d = v.

Definition shard_origin (txs : gmap Z txm) (s : S) : Prop :=
  ∀ κ, st_known s κ = true →
    (st_ver s κ <= st_bound)%Z ∨ ∃ x, st_key s κ x ∧ origin txs x (st_ver s κ).

Record sys_inv (y : Sys K R S) : Prop := {
  si_ok : ∀ sid s, shards y !! sid = Some s → st_ok s;
  si_tx : ∀ t c, txms y !! t = Some c → tx_ok c;
  si_sh : ∀ t c, txms y !! t = Some c → tx_sh (shards y) t c;
  si_pairs : ∀ t u c d, t ≠ u → txms y !! t = Some c → txms y !! u = Some d → pairs c d;
  si_shard : ∀ sid s, shards y !! sid = Some s → shard_origin (txms y) s;
  si_answer : ∀ t c, txms y !! t = Some c → answers c (origin (txms y));
}.

(** *** Changes that leave the other parts alone *)

(** [c] becomes [c'] without a new lock or a new validated read. *)
Record evolves c c' : Prop := {
  ev_lock : gh_lock c' = gh_lock c;
  ev_valid : gh_valid c' = gh_valid c;
  ev_done : gh_done c ⊆ gh_done c';
  ev_commit : nothing_done c ∨ tx_commit_ts_ c' = tx_commit_ts_ c;
  ev_status : tx_status_ c = Committed ∨ tx_status_ c = Aborted → tx_status_ c' = tx_status_ c;
}.

#[export] Instance evolves_refl : Reflexive evolves.
Proof. intros c. split; auto. Qed.

Lemma installed_evolves d d' b v : evolves d d' → installed_by d b v → installed_by d' b v.
Proof.
  intros [_ _ Hd Hc Hs] (Hb & Hst & Hle). split_and!; [set_solver|rewrite Hs; auto|].
  destruct Hc as [[_ Hn]| ->]; [set_solver|done].
Qed.

Lemma pairs_evolves c d c' d' : evolves c c' → evolves d d' → pairs c d → pairs c' d'.
Proof.
  assert (∀ c d c' d', evolves c c' → evolves d d' → valid_pair c d → valid_pair c' d') as Hv.
  { clear. intros c d c' d' Hc Hd Hp x v b lv cts. rewrite (ev_valid _ _ Hc), (ev_lock _ _ Hd). intros Hin Hl.
    destruct (Hp x v b lv cts Hin Hl) as [Hi|[Hi|Hi]]; [left; by eapply installed_evolves|right; left|right; right].
    - destruct (ev_commit _ _ Hc) as [[Hn _]| ->]; [rewrite Hn in Hin; set_solver|done].
    - rewrite (ev_status _ _ Hd); auto. }
  intros Hc Hd (H1 & H2 & H3). split_and!; [by eapply Hv|by eapply Hv|].
  intros x a lv cts b lv' cts'. rewrite (ev_lock _ _ Hc), (ev_lock _ _ Hd). intros Ha Hb.
  destruct (H3 x a lv cts b lv' cts' Ha Hb) as [Hi|[Hi|[Hi|Hi]]].
  - left. by eapply installed_evolves.
  - right; left. by eapply installed_evolves.
  - right; right; left. rewrite (ev_status _ _ Hc); auto.
  - right; right; right. rewrite (ev_status _ _ Hd); auto.
Qed.

Lemma pairs_sym c d : pairs c d → pairs d c.
Proof.
  intros (H1 & H2 & H3). split_and!; [done..|]. intros x a lv cts b lv' cts' Ha Hb.
  destruct (H3 x b lv' cts' a lv cts Hb Ha) as [|[|[|]]]; auto.
Qed.

Lemma at_shard_impl sh x (P Q : S → Prop) : (∀ s, P s → Q s) → at_shard sh x P → at_shard sh x Q.
Proof. intros Hi (s & Hs & HP). exists s. auto. Qed.

Lemma at_shard_step sh sid s s' x (P : S → Prop) :
  sh !! sid = Some s → (shard_of x = sid → P s → P s') → at_shard sh x P → at_shard (<[sid := s']> sh) x P.
Proof.
  intros Hs Hi (s0 & Hs0 & HP). destruct (decide (shard_of x = sid)) as [Heq|Hne].
  - exists s'. rewrite Heq, lookup_insert_eq. split; [done|]. apply Hi; [done|]. congruence.
  - exists s0. by rewrite lookup_insert_ne.
Qed.

Lemma at_shard_new sh x s' (P : S → Prop) : P s' → at_shard (<[shard_of x := s']> sh) x P.
Proof. intros HP. exists s'. by rewrite lookup_insert_eq. Qed.

Lemma addr_inj a b x y : addr_at a x → addr_at b y → shard_of x = shard_of y → cce_lock_ptr_ a = cce_lock_ptr_ b → a = b.
Proof. unfold addr_at. intros Ha Hb Hs Hp. rewrite Hp, Hs in Ha. congruence. Qed.
End invariant.

(** ** The invariant is preserved *)

Section preservation.
Context {K R S : Type} `{Countable K, !CcStore K S, !CcStoreLaws K S}.
Context (key_len : K → Z) (rec_len : R → Z) (shard_of : TableName * K → Z * Z) (term : Z * Z → Z) (use_log : bool).
Context (Hterm : ∀ sid, (0 <= term sid)%Z) (Hkey : ∀ k, (0 <= key_len k)%Z) (Hrec : ∀ r, (0 <= rec_len r)%Z).
Abbreviation txm := (Txm K R).
Abbreviation addr_at := (addr_at shard_of term).
Abbreviation at_shard := (at_shard shard_of).
Abbreviation tx_sh := (tx_sh shard_of term).
Abbreviation sets_ok := (sets_ok key_len rec_len).
Abbreviation tx_ok := (tx_ok key_len rec_len).
Implicit Types (c d : txm) (rw : ReadWriteSet K R) (t u : Z) (a b : CcEntryAddr) (x : TableName * K)
  (sh : gmap (Z * Z) S).

Lemma addr_shard a x : addr_at a x → shard_id a = shard_of x.
Proof. intros ->. unfold shard_id. cbn. by destruct (shard_of x). Qed.

Lemma tx_sh_step sh sid s ev s' t c c' :
  sh !! sid = Some s → st_ok s → st_step s ev s' → grows s s' →
  evolves c c' → gh_read c' = gh_read c → tx_commit_ts_ c' = tx_commit_ts_ c → tx_status_ c' = tx_status_ c →
  (∀ a v, (a, v) ∈ reads_left c' → (a, v) ∈ reads_left c ∧ (shard_id a = sid → keeps_addr ev t a)) →
  (∀ a, is_Some (gh_lock c !! a) → a ∉ gh_done c' → shard_id a = sid → keeps_addr ev t a) →
  (∀ a x lv cts, gh_lock c !! a = Some (x, lv, cts) → a ∈ gh_done c' → a ∉ gh_done c → tx_status_ c = Committed →
     at_shard (<[sid := s']> sh) x (λ s, sh_done s x (tx_commit_ts_ c))) →
  tx_sh sh t c → tx_sh (<[sid := s']> sh) t c'.
Proof.
  intros Hs Hok Hst Hg [El Ev Ed _ _] Er Ec Es Hreads Hkeep Hnew [Hr Ha Hw Hd Hv]. split.
  - intros a v [Hin Hk]%Hreads. destruct (Hr a v Hin) as (x & Hx & Hax & Hat). exists x. rewrite Er.
    split_and!; [done..|]. eapply at_shard_step; [done| |exact Hat]. intros Hsid.
    apply (sh_read_step s ev s'); try done. apply Hk. rewrite (addr_shard a x Hax). done.
  - intros a x lv cts. rewrite El. apply Ha.
  - intros a x lv cts. rewrite El. intros Hl Hnd. eapply at_shard_step; [done| |apply (Hw a x lv cts); set_solver].
    intros Hsid. apply (sh_write_step s ev s'); try done. apply Hkeep; [by rewrite Hl|done|].
    by rewrite (addr_shard a x (Ha a x lv cts Hl)).
  - intros a x lv cts. rewrite El, Es, Ec. intros Hl Hin Hc. destruct (decide (a ∈ gh_done c)) as [Hin0|Hni].
    + eapply at_shard_step; [done| |by eapply Hd]. intros _. by apply (sh_done_step s ev s').
    + by eapply Hnew.
  - intros x v. rewrite Ev, Ec. intros Hin. eapply at_shard_step; [done| |by apply (Hv x v)]. intros _ Hle.
    pose proof (lw_last_read s ev s' Hok Hst). lia.
Qed.

(** An event of another transaction. *)
Lemma tx_sh_other sh sid s ev s' t c :
  sh !! sid = Some s → st_ok s → st_step s ev s' → grows s s' → (∀ a, keeps_addr ev t a) →
  tx_sh sh t c → tx_sh (<[sid := s']> sh) t c.
Proof.
  intros Hs Hok Hst Hg Hk. by eapply tx_sh_step; eauto.
Qed.

(** A step of the coordinator alone. *)
Lemma tx_sh_local sh t c c' :
  evolves c c' → gh_read c' = gh_read c → gh_done c' = gh_done c →
  (gh_done c = ∅ ∨ tx_status_ c' = tx_status_ c) →
  (∀ a v, (a, v) ∈ reads_left c' → ∃ v0, (a, v0) ∈ reads_left c ∧ (v = v0 ∨ v = 0%Z)) →
  tx_sh sh t c → tx_sh sh t c'.
Proof.
  intros [El Ev _ Ec _] Er Ed Es Hreads [Hr Ha Hw Hd Hv]. split.
  - intros a v (v0 & Hin & Hv0)%Hreads. destruct (Hr a v0 Hin) as (x & Hx & Hax & Hat). exists x. rewrite Er.
    split_and!; [done..|]. eapply at_shard_impl; [|exact Hat]. intros s (κ & ? & ? & ? & ?). exists κ.
    split_and!; [done..|]. destruct Hv0 as [->| ->]; [done|lia].
  - intros a x lv cts. rewrite El. apply Ha.
  - intros a x lv cts. rewrite El, Ed. apply Hw.
  - intros a x lv cts. rewrite El, Ed. intros Hl Hin. destruct Es as [Es|Es]; [set_solver|].
    destruct Ec as [[_ Ec]|Ec]; [set_solver|]. rewrite Es, Ec. by apply (Hd a x lv cts).
  - intros x v. rewrite Ev. intros Hin. destruct Ec as [[Ec _]|Ec]; [rewrite Ec in Hin; set_solver|].
    rewrite Ec. by apply (Hv x v).
Qed.

(** The lock structure of an address is that of one key. *)
Lemma read_key sh t c s' a x sid v p cce :
  tx_sh sh t c → sh !! sid = Some s' → st_ok s' → shard_of x = sid → a = addr_of term sid p →
  st_key s' cce x → st_at s' cce = Some p → (a, v) ∈ reads_left c →
  gh_read c !! a = Some x ∧ ((0 < v)%Z → st_known s' cce = true ∧ (v <= st_ver s' cce)%Z).
Proof.
  intros Hsh Hs Hok <- -> Hk Hat Hin. destruct (ts_read _ _ _ _ _ Hsh _ _ Hin) as (x' & Hx' & Hax & (s0 & Hs0 & κ & Hκ)).
  pose proof (addr_shard _ _ Hax) as Hsid. unfold shard_id in Hsid. cbn in Hsid.
  assert (shard_of x = shard_of x') as Heq by (rewrite <-Hsid; by destruct (shard_of x)).
  rewrite <-Heq, Hs in Hs0. injection Hs0 as <-. destruct Hκ as (Hkκ & Hatκ & _ & Hv). cbn in Hatκ.
  assert (κ = cce) as -> by (by eapply lw_at_inj).
  assert (x' = x) as -> by (by eapply (lw_key_fun s')). done.
Qed.

Lemma write_key sh t c s' a x x' sid p cce lv cts :
  tx_sh sh t c → sh !! sid = Some s' → st_ok s' → shard_of x = sid → a = addr_of term sid p →
  st_key s' cce x → st_at s' cce = Some p → gh_lock c !! a = Some (x', lv, cts) → a ∉ gh_done c → x' = x.
Proof.
  intros Hsh Hs Hok <- -> Hk Hat Hl Hnd. pose proof (ts_addr _ _ _ _ _ Hsh _ _ _ _ Hl) as Hax.
  destruct (ts_write _ _ _ _ _ Hsh _ _ _ _ Hl Hnd) as (s0 & Hs0 & κ & Hκ).
  pose proof (addr_shard _ _ Hax) as Hsid. unfold shard_id in Hsid. cbn in Hsid.
  assert (shard_of x = shard_of x') as Heq by (rewrite <-Hsid; by destruct (shard_of x)).
  rewrite <-Heq, Hs in Hs0. injection Hs0 as <-. destruct Hκ as (Hkκ & Hatκ & _ & Hv). cbn in Hatκ.
  assert (κ = cce) as -> by (by eapply lw_at_inj). by eapply (lw_key_fun s').
Qed.

(** *** Composing the parts *)

Abbreviation sys_inv := (sys_inv key_len rec_len shard_of term).
Implicit Types (txs : gmap Z txm).

Definition keeps_writes c c' : Prop := ∀ x, wrote c x → wrote c' x ∧ tx_commit_ts_ c' = tx_commit_ts_ c.

Lemma origin_update txs t c c' x v :
  txs !! t = Some c → keeps_writes c c' → origin txs x v → origin (<[t := c']> txs) x v.
Proof.
  intros Ht Hk [Hb|(u & d & Hu & Hw & Hv)]; [by left|right]. destruct (decide (u = t)) as [->|].
  - assert (d = c) as -> by congruence. destruct (Hk x Hw) as [Hw' Hc]. exists t, c'. rewrite lookup_insert_eq.
    split_and!; [done..|congruence].
  - exists u, d. by rewrite lookup_insert_ne.
Qed.

Lemma shard_origin_update txs t c c' (s : S) :
  txs !! t = Some c → keeps_writes c c' → shard_origin txs s → shard_origin (<[t := c']> txs) s.
Proof.
  intros Ht Hk Hs κ Hkn. destruct (Hs κ Hkn) as [|(x & Hx & Ho)]; [by left|right]. exists x. split; [done|].
  by eapply origin_update.
Qed.

(** What an event installs comes from a committed transaction. *)
Lemma shard_origin_step txs s ev s' :
  st_ok s → st_step s ev s' →
  (∀ κ, installs s ev κ → ∃ x, st_key s' κ x ∧ origin txs x (st_ver s' κ)) →
  shard_origin txs s → shard_origin txs s'.
Proof.
  intros Hok Hst Hni Hs κ Hkn'. destruct (st_known s κ) eqn:Hkn.
  - destruct (lw_known s ev s' κ Hok Hst Hkn) as [_ [->|Hin]]; [|right; by apply Hni].
    destruct (Hs κ Hkn) as [|(x & Hx & Ho)]; [by left|right]. exists x. split; [by eapply lw_key|done].
  - destruct (lw_fresh s ev s' κ Hok Hst Hkn Hkn') as [|Hin]; [by left|right; by apply Hni].
Qed.

(** One transaction and one shard change. *)
Lemma sys_inv_update y sh' t c c' :
  sys_inv y → txms y !! t = Some c →
  (∀ sid s, sh' !! sid = Some s → st_ok s ∧ shard_origin (<[t := c']> (txms y)) s) →
  (∀ u d, u ≠ t → txms y !! u = Some d → tx_sh sh' u d) →
  tx_ok c' → tx_sh sh' t c' → keeps_writes c c' → answers c' (origin (<[t := c']> (txms y))) →
  (∀ u d, u ≠ t → txms y !! u = Some d → pairs c' d) →
  sys_inv (mkSys sh' (<[t := c']> (txms y))).
Proof.
  intros [Hok Htx Hsh Hp Hso Ha] Ht Hsh' Ho Hc' Hs' Hk Ha' Hp'. split; cbn.
  - intros sid s Hs. by apply (Hsh' sid s).
  - intros u d Hu. apply lookup_insert_Some in Hu as [[<- <-]|[Hne Hu]]; [done|by eapply Htx].
  - intros u d Hu. apply lookup_insert_Some in Hu as [[<- <-]|[Hne Hu]]; [done|by apply Ho].
  - intros u1 u2 d1 d2 Hne H1 H2. apply lookup_insert_Some in H1 as [[<- <-]|[Hne1 H1]];
      apply lookup_insert_Some in H2 as [[<- <-]|[Hne2 H2]].
    + done.
    + by eapply Hp'.
    + apply pairs_sym. by eapply Hp'.
    + by eapply (Hp u1 u2).
  - intros sid s Hs. by apply (Hsh' sid s).
  - intros u d Hu. apply lookup_insert_Some in Hu as [[<- <-]|[Hne Hu]]; [done|].
    intros x v Hin Hv. eapply origin_update; [done..|]. by eapply Ha.
Qed.

(** A request of one transaction. *)
Lemma sys_inv_request y sid s ev s' t c c' :
  sys_inv y → shards y !! sid = Some s → txms y !! t = Some c → st_step s ev s' →
  (∀ κ, installs s ev κ → ∃ x, st_key s' κ x ∧ origin (<[t := c']> (txms y)) x (st_ver s' κ)) →
  grows s s' → (∀ u a, u ≠ t → keeps_addr ev u a) →
  tx_ok c' → tx_sh (<[sid := s']> (shards y)) t c' → keeps_writes c c' →
  (st_ok s' → shard_origin (<[t := c']> (txms y)) s' → answers c' (origin (<[t := c']> (txms y)))) →
  (∀ u d, u ≠ t → txms y !! u = Some d → pairs c' d) →
  sys_inv (mkSys (<[sid := s']> (shards y)) (<[t := c']> (txms y))).
Proof.
  intros Hinv Hs Ht Hst Hni Hg Hk Hc' Hs' Hw Ha Hp. pose proof (si_ok _ _ _ _ _ Hinv sid s Hs) as Hok.
  assert (st_ok s' ∧ shard_origin (<[t := c']> (txms y)) s') as [Hok' Hso'].
  { split; [by eapply lw_ok|]. eapply shard_origin_step; [done..|]. eapply shard_origin_update; [done..|].
    by eapply si_shard. }
  eapply sys_inv_update; try done; [| |by apply Ha].
  - intros sid0 s0 [[<- <-]|[Hne Hs0]]%lookup_insert_Some; [done|]. split; [by eapply si_ok|].
    eapply shard_origin_update; [done..|]. by eapply si_shard.
  - intros u d Hne Hu. eapply tx_sh_other; try done; [by intros; apply Hk|by eapply si_sh].
Qed.

(** A step of the coordinator alone. *)
Lemma sys_inv_local y t c c' :
  sys_inv y → txms y !! t = Some c → tx_ok c' → tx_sh (shards y) t c' → keeps_writes c c' →
  evolves c c' → gh_answers c' = gh_answers c → sys_inv (mkSys (shards y) (<[t := c']> (txms y))).
Proof.
  intros Hinv Ht Hc' Hs' Hw He Ha. eapply sys_inv_update; try done.
  - intros sid s Hs. split; [by eapply si_ok|]. eapply shard_origin_update; [done..|]. by eapply si_shard.
  - intros u d Hne Hu. by eapply si_sh.
  - intros x v. rewrite Ha. intros Hin Hv. eapply origin_update; [done..|]. by eapply si_answer.
  - intros u d Hne Hu. eapply pairs_evolves; [done|reflexivity|]. eapply (si_pairs _ _ _ _ _ Hinv t u); auto.
Qed.

Lemma keeps_writes_unfinished c c' : tx_status_ c ≠ Committed → keeps_writes c c'.
Proof. by intros Hn x [Hc _]. Qed.

(** *** A read *)

(** A read-set entry of the address is that of the key. *)
Lemma noted_read c tbl a r x : sets_ok c → read_at (rw_set_ c) tbl a = Some r → phase c = Executing →
  (a, version_ts_ r) ∈ reads_left c ∧ (gh_read c !! a = Some x → tbl = x.1).
Proof.
  intros Hso Hr Hph. destruct (so_noted _ _ _ Hso _ _ _ Hr) as (Hm & k & Hk). split.
  - unfold reads_left. rewrite Hph. apply elem_reads_at. eauto.
  - rewrite Hk. by intros [= <-].
Qed.

Section read.
Context (sh : gmap (Z * Z) S) (t : Z) (c : txm) (s' : S) (x : TableName * K) (p cce : Z) (v : option Z).
Context (ok : bool) (rw : ReadWriteSet K R).
Context (Hsh : tx_sh sh t c) (Hs' : sh !! shard_of x = Some s') (Hok' : st_ok s') (Hso : sets_ok c).
Context (Hph : phase c = Executing) (Hm : IsMeta (tn_type x.1) = false).
Context (Hkx : st_key s' cce x) (Hat : st_at s' cce = Some p) (Hmode : st_mode s' cce t ≠ NoLock).
Context (Hv : ∀ ts, v = Some ts → st_known s' cce = true ∧ st_ver s' cce = ts).
Abbreviation a0 := (addr_of term (shard_of x) p).
Context (Hadd : AddRead (rw_set_ c) a0 (default 0%Z v) x.1 = (ok, rw)).
Abbreviation c' := (note_read (set_rw c rw) a0 x (default 0%Z v) ok).

(** An entry read before at this address is for the same key, at a version that is
    not newer. *)
Lemma read_before tbl r : read_at (rw_set_ c) tbl a0 = Some r →
  tbl = x.1 ∧ gh_read c !! a0 = Some x ∧
  ((0 < version_ts_ r)%Z → st_known s' cce = true ∧ (version_ts_ r <= st_ver s' cce)%Z).
Proof.
  intros Hr. destruct (noted_read c tbl a0 r x Hso Hr Hph) as [Hin Htbl].
  destruct (read_key sh t c s' a0 x (shard_of x) (version_ts_ r) p cce) as [Hg Hver]; try done. auto.
Qed.

Lemma read_value ts : default 0%Z v = ts → (0 < ts)%Z → st_known s' cce = true ∧ st_ver s' cce = ts.
Proof. clear Hadd. intros <- Hlt. destruct v as [ts|]; cbn in *; [by apply Hv|lia]. Qed.

(** The entry of the address afterwards. *)
Lemma read_after tbl r : read_at rw tbl a0 = Some r →
  tbl = x.1 ∧ ((0 < version_ts_ r)%Z → st_known s' cce = true ∧ (version_ts_ r <= st_ver s' cce)%Z) ∧
  (ok = true → (0 < default 0%Z v)%Z → version_ts_ r = default 0%Z v) ∧
  (∀ r0, read_at (rw_set_ c) tbl a0 = Some r0 → (0 < version_ts_ r0)%Z → version_ts_ r = version_ts_ r0).
Proof.
  destruct (AddRead_spec _ _ _ _ _ _ Hadd) as (_ & _ & Hother & r' & Hr' & Hcase). intros Hr.
  assert (tbl = x.1) as ->.
  { destruct (decide (tbl = x.1)) as [|Hne]; [done|]. rewrite Hother in Hr by naive_solver.
    by destruct (read_before _ _ Hr). }
  split; [done|]. rewrite Hr' in Hr. injection Hr as <-. clear Hadd. destruct ok.
  - destruct (read_at (rw_set_ c) x.1 a0) as [r0|] eqn:Hr0.
    + destruct Hcase as [Hle Heq]. destruct (read_before _ _ Hr0) as (_ & _ & Hb0).
      destruct (decide (0 < default 0 v)%Z) as [Hpos|Hnpos]; rewrite Heq.
      * destruct (read_value _ eq_refl Hpos) as [Hkn Hver]. split_and!; [by rewrite Hver|done|].
        intros ? [= <-] H0. destruct (Hb0 H0). lia.
      * split_and!; [done|done|]. by intros ? [= <-].
    + rewrite Hcase. split_and!; [|done|done]. intros H0. destruct (read_value _ eq_refl H0) as [-> ->]. done.
  - subst rw. destruct (read_before _ _ Hr') as (_ & _ & Hb0). split_and!; [done|done|]. intros. congruence.
Qed.

Lemma read_other tbl b : b ≠ a0 → read_at rw tbl b = read_at (rw_set_ c) tbl b.
Proof.
  destruct (AddRead_spec _ _ _ _ _ _ Hadd) as (_ & _ & Hother & _). intros Hne. apply Hother. naive_solver.
Qed.

Lemma read_sets_ok : (data_reads (rset_ rw) < 2 ^ 64)%Z → sets_ok c'.
Proof.
  intros Hlt. destruct (AddRead_spec _ _ _ _ _ _ Hadd) as (Hw & Hcat & _). destruct Hso as [H1 H2 H4 H5 H6].
  split; cbn.
  - pose proof (AddRead_ok key_len rec_len (rw_set_ c) a0 (default 0%Z v) x.1 H1) as Hx. by rewrite Hadd in Hx.
  - by rewrite <-data_reads_length.
  - by rewrite Hcat.
  - intros tbl b r Hr. destruct (decide (b = a0)) as [->|Hne].
    + destruct (read_after _ _ Hr) as [-> _]. split; [done|]. exists x.2. rewrite lookup_insert_eq. by destruct x.
    + rewrite read_other in Hr by done. destruct (H5 _ _ _ Hr) as (? & k & Hk). split; [done|]. exists k.
      by rewrite lookup_insert_ne.
  - intros y e. unfold FindWrite. rewrite Hw. apply H6.
Qed.

Lemma read_left b w : (b, w) ∈ reads_left c' ↔ (b, w) ∈ data_read_list rw.
Proof. unfold reads_left. cbn. by rewrite Hph. Qed.

Lemma read_tx_sh : tx_sh sh t c'.
Proof.
  destruct Hsh as [Hr Ha Hw Hd Hvl]. split; [|done..]. intros b w. rewrite read_left.
  intros (tbl & r & Hmt & Hread & ->)%elem_reads_at. cbn. destruct (decide (b = a0)) as [->|Hne].
  - destruct (read_after _ _ Hread) as (_ & Hver & _). exists x. rewrite lookup_insert_eq. split_and!; [done|done|].
    exists s'. split; [done|]. exists cce. done.
  - rewrite read_other in Hread by done. rewrite lookup_insert_ne by done. apply Hr.
    by destruct (noted_read c tbl b r x Hso Hread Hph).
Qed.

Lemma read_answers : answers c (in_reads c) → answers c' (in_reads c').
Proof.
  destruct (AddRead_spec _ _ _ _ _ _ Hadd) as (_ & _ & _ & r' & Hr' & _).
  destruct (read_after _ _ Hr') as (_ & _ & Hnew & Hold). intros Hans y w Hin H0.
  assert (ok = true ∧ (y, w) = (x, default 0%Z v) ∨ (y, w) ∈ gh_answers c) as [[Hokt [= -> ->]]|Hin0].
  { clear Hadd Hnew. destruct ok; cbn in Hin; [|by right]. apply elem_of_cons in Hin as [|]; auto. }
  - exists a0. cbn. rewrite lookup_insert_eq. split; [done|]. apply read_left, elem_reads_at. exists x.1, r'.
    split_and!; [done..|]. symmetry. by apply Hnew.
  - destruct (Hans y w Hin0 H0) as (b & Hb & Hbw). unfold reads_left in Hbw. rewrite Hph in Hbw.
    apply elem_reads_at in Hbw as (tbl & r & Hmt & Hread & ->). exists b. cbn. rewrite read_left, elem_reads_at.
    destruct (decide (b = a0)) as [->|Hne].
    + destruct (read_before _ _ Hread) as (-> & Hg & _). assert (y = x) as -> by congruence.
      rewrite lookup_insert_eq. split; [done|]. exists x.1, r'. split_and!; [done..|]. symmetry. by apply Hold.
    + rewrite lookup_insert_ne by done. split; [done|]. exists tbl, r. by rewrite read_other.
Qed.
End read.

Lemma step_read y sid s s' t c x p cce v ok rw :
  sys_inv y → shards y !! sid = Some s → txms y !! t = Some c → phase c = Executing → shard_of x = sid →
  IsMeta (tn_type x.1) = false → st_step s (EvRead t x p cce v) s' →
  AddRead (rw_set_ c) (addr_of term sid p) (default 0%Z v) x.1 = (ok, rw) → (data_reads (rset_ rw) < 2 ^ 64)%Z →
  sys_inv (mkSys (<[sid := s']> (shards y))
             (<[t := note_read (set_rw c rw) (addr_of term sid p) x (default 0%Z v) ok]> (txms y))).
Proof.
  intros Hinv Hs Ht Hph <- Hm Hst Hadd Hlt. pose proof (si_ok _ _ _ _ _ Hinv _ _ Hs) as Hok.
  pose proof (lw_ok _ _ _ Hok Hst) as Hok'. destruct (lw_read _ _ _ _ _ _ _ Hok Hst) as (Hkx & Hat & Hmode & Hv).
  destruct (si_tx _ _ _ _ _ Hinv _ _ Ht) as (Hso & Hpo & Hdf). pose proof Hpo as Hpo0. unfold phase_ok in Hpo.
  rewrite Hph in Hpo. destruct Hpo as (Hst0 & [Hnv Hnd] & Hnl & Hna & Hans & Hcnt).
  assert (grows s s') as Hg by (by eapply grows_quiet).
  assert (tx_sh (<[shard_of x := s']> (shards y)) t c) as Hsh.
  { eapply tx_sh_other; try done. by eapply si_sh. }
  assert (<[shard_of x := s']> (shards y) !! shard_of x = Some s') as Hs' by apply lookup_insert_eq.
  destruct (AddRead_spec _ _ _ _ _ _ Hadd) as (Hw & _).
  eapply (sys_inv_request y (shard_of x) s); try done.
  - by intros κ (? & ? & ? & ? & _).
  - split; [by eapply read_sets_ok|]. split; [|done]. unfold phase_ok. cbn [phase note_read set_rw]. rewrite Hph.
    split_and!; [done| |done| | |].
    + split; done.
    + intros z e. cbn. unfold FindWrite. rewrite Hw. apply Hna.
    + by eapply read_answers.
    + cbn. by rewrite Hw.
  - by eapply read_tx_sh.
  - apply keeps_writes_unfinished. congruence.
  - intros _ Hso' z w Hin H0. cbn in Hin.
    assert ((z, w) = (x, default 0%Z v) ∨ (z, w) ∈ gh_answers c) as [[= -> ->]|Hin0].
    { destruct ok; cbn in Hin; [|by right]. apply elem_of_cons in Hin as [|]; auto. }
    + destruct v as [ts|]; cbn in *; [|lia]. destruct (Hv ts eq_refl) as [Hkn Hver].
      destruct (Hso' cce Hkn) as [Hb|(x' & Hx' & Ho)]; [left; lia|]. rewrite Hver in Ho.
      by assert (x' = x) as -> by (by eapply (lw_key_fun s')).
    + eapply origin_update; [done|by apply keeps_writes_unfinished; congruence|]. by eapply si_answer.
  - intros u d Hne Hu. eapply (pairs_evolves c d); [|reflexivity|by eapply (si_pairs _ _ _ _ _ Hinv t u)].
    split; cbn; auto.
Qed.

(** *** A write lock *)

Definition slot_set c (i : nat) (res : AcquireKeyResult) : txm :=
  set_acquire_op c (acquire_write_entries_ c) (<[i := res]> (acquire_results_ c)).

Lemma slots_error c waiting failed i a x :
  slots_match c waiting failed → i ∈ waiting → acquire_write_entries_ c !! i = Some x →
  slots_match (set_phase (slot_set c i (mkAcquireResult a 0 0)) (Acquiring (waiting ∖ {[i]}) true))
    (waiting ∖ {[i]}) true.
Proof.
  intros [H1 H2 H3 H4 H5 H6] Hi Hx. pose proof (lookup_lt_Some _ _ _ Hx) as Hlt. rewrite <-H2 in Hlt.
  split; cbn; [done|by rewrite length_insert|..].
  - intros j res [(<- & <- & _)|[Hne Hj]]%list_lookup_insert_Some; [by intros [_ []]|]. by apply H3.
  - intros b y lv cts Hb. destruct (H4 b y lv cts Hb) as (j & Hj & Hr & Hs & Hc). exists j. split_and!; [done| |done..].
    rewrite list_lookup_insert_ne; [done|]. intros <-. by apply (H5 i _ Hi Hr).
  - intros j res Hj [(<- & <- & _)|[Hne Hr]]%list_lookup_insert_Some; [set_solver|]. apply (H5 j); set_solver.
  - done.
Qed.

Lemma slots_acquired c waiting failed i a x lv cts :
  slots_match c waiting failed → i ∈ waiting → acquire_write_entries_ c !! i = Some x → gh_lock c !! a = None →
  success (mkAcquireResult a lv cts) → (0 < cts)%Z →
  slots_match (set_phase (note_lock (slot_set c i (mkAcquireResult a lv cts)) a x lv cts)
              (Acquiring (waiting ∖ {[i]}) failed)) (waiting ∖ {[i]}) failed.
Proof.
  intros [H1 H2 H3 H4 H5 H6] Hi Hx Hfresh Hsuc Hpos. pose proof (lookup_lt_Some _ _ _ Hx) as Hlt. rewrite <-H2 in Hlt.
  split; cbn; [done|by rewrite length_insert|..].
  - intros j res [(<- & <- & _)|[Hne Hj]]%list_lookup_insert_Some.
    + intros _. exists x. by rewrite lookup_insert_eq.
    + intros Hs. destruct (H3 j res Hj Hs) as (z & Hz & Hl). exists z. split; [done|].
      rewrite lookup_insert_ne; [done|]. congruence.
  - intros b y lv' cts' [[<- [= <- <- <-]]|[Hne Hb]]%lookup_insert_Some.
    + exists i. rewrite list_lookup_insert_eq by done. done.
    + destruct (H4 b y lv' cts' Hb) as (j & Hj & Hr & Hs & Hc). exists j. split_and!; [done| |done..].
      rewrite list_lookup_insert_ne; [done|]. intros <-. by apply (H5 i _ Hi Hr).
  - intros j res Hj [(<- & <- & _)|[Hne Hr]]%list_lookup_insert_Some; [set_solver|]. apply (H5 j); set_solver.
  - intros j res Hj Hf [(<- & <- & _)|[Hne Hr]]%list_lookup_insert_Some; [done|]. apply (H6 j); set_solver.
Qed.

Lemma step_acquire_error y sid s s' t c waiting failed i x a :
  sys_inv y → shards y !! sid = Some s → txms y !! t = Some c → phase c = Acquiring waiting failed → i ∈ waiting →
  acquire_write_entries_ c !! i = Some x → st_step s EvOther s' →
  sys_inv (mkSys (<[sid := s']> (shards y))
             (<[t := set_phase (slot_set c i (mkAcquireResult a 0 0)) (Acquiring (waiting ∖ {[i]}) true)]> (txms y))).
Proof.
  intros Hinv Hs Ht Hph Hi Hx Hst. pose proof (si_ok _ _ _ _ _ Hinv _ _ Hs) as Hok.
  destruct (si_tx _ _ _ _ _ Hinv _ _ Ht) as (Hso & Hpo & Hdf). unfold phase_ok in Hpo.
  rewrite Hph in Hpo. destruct Hpo as (Hst0 & Hnd & Hslots & Hans).
  assert (grows s s') as Hg by (by eapply grows_quiet).
  assert (evolves c (set_phase (slot_set c i (mkAcquireResult a 0 0)) (Acquiring (waiting ∖ {[i]}) true))) as Hev
    by (split; cbn; auto).
  eapply (sys_inv_request y sid s); try done.
  - by intros κ (? & ? & ? & ? & _).
  - split; [by destruct Hso; split|]. split; [|done]. unfold phase_ok. cbn [phase set_phase].
    split_and!; [done|done|by eapply slots_error|]. intros z w Hin H0. destruct (Hans z w Hin H0) as (b & Hb & Hl).
    exists b. split; [done|]. unfold reads_left in *. by rewrite Hph in Hl.
  - eapply (tx_sh_step _ _ s _ s' t c); try done; [|by eapply si_sh].
    intros b v. unfold reads_left. cbn. by rewrite Hph.
  - intros _ _ z w Hin H0. eapply origin_update; [done|by apply keeps_writes_unfinished; congruence|].
    by eapply si_answer.
  - intros u d Hne Hu. eapply (pairs_evolves c d); [done|reflexivity|]. eapply (si_pairs _ _ _ _ _ Hinv t u); auto.
Qed.

Section acquire.
Context (sh : gmap (Z * Z) S) (t : Z) (c : txm) (s s' : S) (x : TableName * K) (p cce lv cts : Z).
Context (waiting : gset nat) (failed : bool) (i : nat).
Context (Hsh : tx_sh sh t c) (Hs' : sh !! shard_of x = Some s') (Hok : st_ok s).
Context (Hph : phase c = Acquiring waiting failed) (Hnd : nothing_done c) (Hslots : slots_match c waiting failed).
Context (Hi : i ∈ waiting) (Hx : acquire_write_entries_ c !! i = Some x).
Context (Hst : st_step s (EvAcquire t x p cce lv cts) s').
Abbreviation a0 := (addr_of term (shard_of x) p).
Abbreviation c' := (set_phase (note_lock (slot_set c i (mkAcquireResult a0 lv cts)) a0 x lv cts)
  (Acquiring (waiting ∖ {[i]}) failed)).

Lemma acquire_success : success (mkAcquireResult a0 lv cts).
Proof.
  destruct (lw_acquire _ _ _ _ _ _ _ _ Hok Hst) as (_ & _ & _ & _ & Hcts & _). split; cbn; [apply Hterm|lia].
Qed.

Lemma acquire_fresh : gh_lock c !! a0 = None.
Proof.
  destruct (gh_lock c !! a0) as [[[x' lv'] cts']|] eqn:Hl; [|done]. exfalso.
  destruct (lw_acquire _ _ _ _ _ _ _ _ Hok Hst) as (Hkx & Hat & _). pose proof (lw_ok _ _ _ Hok Hst) as Hok'.
  assert (x' = x) as ->.
  { eapply (write_key sh t c s' a0 x x' (shard_of x)); try done. destruct Hnd as [_ ->]. set_solver. }
  destruct Hslots as [H1 H2 H3 H4 H5 H6]. destruct (H4 _ _ _ _ Hl) as (j & Hj & Hr & Hsuc & _).
  assert (j = i) as ->.
  { rewrite H1 in Hj, Hx. pose proof (NoDup_write_keys (rw_set_ c)) as Hn.
    rewrite NoDup_alt in Hn. by eapply Hn. }
  by eapply H5.
Qed.

Lemma acquire_sh_write : sh_write s' t a0 x cts.
Proof.
  destruct (lw_acquire _ _ _ _ _ _ _ _ Hok Hst) as (Hkx & Hat & Hm & _ & _ & Hv). exists cce.
  split_and!; [done..|]. destruct (st_known s cce) eqn:Hkn.
  - destruct (lw_known _ _ _ cce Hok Hst Hkn) as [-> [->|(? & ? & ? & ? & _)]]; [lia|done].
  - destruct (st_known s' cce) eqn:Hkn'; [|done].
    destruct (lw_fresh _ _ _ cce Hok Hst Hkn Hkn') as [|(? & ? & ? & ? & _)]; [lia|done].
Qed.

Lemma acquire_tx_sh : tx_sh sh t c'.
Proof.
  destruct Hsh as [Hr Ha Hw Hd Hv]. destruct Hnd as [_ Hnd0]. split.
  - intros b v Hin. apply Hr. unfold reads_left in *. cbn in Hin. by rewrite Hph.
  - cbn. intros b z lv' cts' [[<- [= <- <- <-]]|[Hne Hb]]%lookup_insert_Some; [done|by eapply Ha].
  - cbn. intros b z lv' cts' [[<- [= <- <- <-]]|[Hne Hb]]%lookup_insert_Some Hnin.
    + exists s'. split; [done|]. apply acquire_sh_write.
    + by eapply Hw.
  - cbn. intros b z lv' cts' _. rewrite Hnd0. set_solver.
  - exact Hv.
Qed.

(** Against another coordinator [d], whose own facts hold before and after. *)
Lemma acquire_pairs sh0 u d :
  sh0 !! shard_of x = Some s → tx_sh sh0 u d → tx_sh sh u d → done_fate d → u ≠ t → pairs c d → pairs c' d.
Proof.
  intros Hs0 Hd0 Hd Hdf Hne (H1 & H2 & H3). destruct Hnd as [Hnv Hnd0].
  destruct (lw_acquire _ _ _ _ _ _ _ _ Hok Hst) as (Hkx & Hat & Hm & Hlv & _ & Hcts).
  split_and!.
  - intros z w b lv' cts'. cbn. rewrite Hnv. set_solver.
  - unfold valid_pair. cbn. intros z w b lv' cts' Hin [[<- [= <- <- <-]]|[Hneb Hb]]%lookup_insert_Some; [|by apply (H2 z w b lv' cts')].
    right; left. destruct (ts_valid _ _ _ _ _ Hd0 _ _ Hin) as (s0 & Hs0' & Hle).
    assert (s0 = s) as -> by congruence. lia.
  - unfold write_pair. cbn. intros z a lva ctsa b lvb ctsb [[<- [= <- <- <-]]|[Hnea Ha]]%lookup_insert_Some Hb; [|by apply (H3 z a lva ctsa b lvb ctsb)].
    destruct (decide (b ∈ gh_done d)) as [Hin|Hnin].
    + destruct Hdf as [Hdf|[Hc|Hab]]; [set_solver| |by right; right; right].
      left. split_and!; [done..|]. destruct (ts_done _ _ _ _ _ Hd0 _ _ _ _ Hb Hin Hc) as (s0 & Hs0' & κ & Hk & Hkn & Hle).
      assert (s0 = s) as -> by congruence. pose proof (lw_key _ _ _ _ _ Hok Hst Hk) as Hk'.
      assert (κ = cce) as -> by (eapply lw_key_inj; [by eapply lw_ok|done..]). rewrite Hkn in Hcts. lia.
    + destruct (ts_write _ _ _ _ _ Hd _ _ _ _ Hb Hnin) as (s0 & Hs0' & Hw).
      assert (s0 = s') as -> by congruence. destruct Hne. symmetry.
      eapply (write_excl s' t u); [by eapply lw_ok|apply acquire_sh_write|exact Hw].
Qed.
End acquire.

Lemma step_acquire y sid s s' t c waiting failed i x p cce lv cts :
  sys_inv y → shards y !! sid = Some s → txms y !! t = Some c → phase c = Acquiring waiting failed → i ∈ waiting →
  acquire_write_entries_ c !! i = Some x → shard_of x = sid → st_step s (EvAcquire t x p cce lv cts) s' →
  sys_inv (mkSys (<[sid := s']> (shards y))
    (<[t := set_phase (note_lock (slot_set c i (mkAcquireResult (addr_of term sid p) lv cts))
                         (addr_of term sid p) x lv cts) (Acquiring (waiting ∖ {[i]}) failed)]> (txms y))).
Proof.
  intros Hinv Hs Ht Hph Hi Hx <- Hst. pose proof (si_ok _ _ _ _ _ Hinv _ _ Hs) as Hok.
  destruct (si_tx _ _ _ _ _ Hinv _ _ Ht) as (Hso & Hpo & Hdf). unfold phase_ok in Hpo.
  rewrite Hph in Hpo. destruct Hpo as (Hst0 & Hnd & Hslots & Hans).
  assert (grows s s') as Hg by (by eapply grows_quiet).
  assert (∀ u d, txms y !! u = Some d → tx_sh (<[shard_of x := s']> (shards y)) u d) as Hall.
  { intros u d Hu. eapply tx_sh_other; try done. by eapply si_sh. }
  assert (<[shard_of x := s']> (shards y) !! shard_of x = Some s') as Hs' by apply lookup_insert_eq.
  eapply (sys_inv_request y (shard_of x) s); try done.
  - by intros κ (? & ? & ? & ? & _).
  - split; [by destruct Hso; split|]. split; [|done]. unfold phase_ok. cbn [phase set_phase].
    split_and!; [done|done| |].
    + eapply slots_acquired; try done; [eapply acquire_fresh; eauto|by eapply acquire_success|].
      by destruct (lw_acquire _ _ _ _ _ _ _ _ Hok Hst) as (_ & _ & _ & _ & ? & _).
    + intros z w Hin H0. destruct (Hans z w Hin H0) as (b & Hb & Hl). exists b. split; [done|].
      unfold reads_left in *. by rewrite Hph in Hl.
  - eapply acquire_tx_sh; eauto.
  - intros _ _ z w Hin H0. eapply origin_update; [done|by apply keeps_writes_unfinished; congruence|].
    by eapply si_answer.
  - intros u d Hne Hu. eapply acquire_pairs; eauto; [by eapply si_sh|by eapply si_tx|].
    eapply (si_pairs _ _ _ _ _ Hinv t u); auto.
Qed.

(** *** Releases *)

(** A release at [a] is not one at another address of the shard. *)
Lemma release_elsewhere (ev : cc_event K) t a b x z :
  (∃ kt ct ok, ev = EvPostRead t (cce_lock_ptr_ a) kt ct ok) ∨ (∃ ct, ev = EvPostWrite t (cce_lock_ptr_ a) ct) →
  addr_at a x → addr_at b z → a ≠ b → shard_id b = shard_id a → keeps_addr ev t b.
Proof.
  intros Hev Ha Hb Hne Hsid. assert (cce_lock_ptr_ a ≠ cce_lock_ptr_ b) as Hp.
  { intros Hp. apply Hne. eapply addr_inj; try done. by rewrite <-(addr_shard a x Ha), <-(addr_shard b z Hb). }
  destruct Hev as [(kt & ct & ok & ->)|(ct & ->)]; cbn; naive_solver.
Qed.

Lemma read_addr sh t c a v : tx_sh sh t c → (a, v) ∈ reads_left c → ∃ x, addr_at a x.
Proof. intros Hsh Hin. destruct (ts_read _ _ _ _ _ Hsh _ _ Hin) as (x & _ & Hx & _). eauto. Qed.

Lemma locked_addr sh t c a : tx_sh sh t c → is_Some (gh_lock c !! a) → ∃ x, addr_at a x.
Proof. intros Hsh [[[x lv] cts] Hl]. exists x. by eapply (ts_addr _ _ _ _ _ Hsh). Qed.

(** A release at [a] and the facts about the other addresses. *)
Lemma tx_sh_release sh s (ev : cc_event K) s' t c c' a x :
  sh !! shard_id a = Some s → st_ok s → st_step s ev s' → grows s s' →
  (∃ kt ct ok, ev = EvPostRead t (cce_lock_ptr_ a) kt ct ok) ∨ (∃ ct, ev = EvPostWrite t (cce_lock_ptr_ a) ct) →
  addr_at a x → evolves c c' → gh_read c' = gh_read c → tx_commit_ts_ c' = tx_commit_ts_ c →
  tx_status_ c' = tx_status_ c →
  (∀ b v, (b, v) ∈ reads_left c' → (b, v) ∈ reads_left c ∧ a ≠ b) →
  (∀ b, is_Some (gh_lock c !! b) → b ∉ gh_done c' → a ≠ b) →
  (∀ b z lv cts, gh_lock c !! b = Some (z, lv, cts) → b ∈ gh_done c' → b ∉ gh_done c → tx_status_ c = Committed →
     at_shard (<[shard_id a := s']> sh) z (λ s, sh_done s z (tx_commit_ts_ c))) →
  tx_sh sh t c → tx_sh (<[shard_id a := s']> sh) t c'.
Proof.
  intros Hs Hok Hst Hg Hrel Ha He Hr Hc Hst' Hreads Hlocks Hdone Hsh. eapply tx_sh_step; try done.
  - intros b v [Hin Hne]%Hreads. split; [done|]. intros Hsid. destruct (read_addr _ _ _ _ _ Hsh Hin) as [z Hz].
    by eapply release_elsewhere.
  - intros b Hb Hnd Hsid. destruct (locked_addr _ _ _ _ Hsh Hb) as [z Hz]. eapply release_elsewhere; try done. by apply Hlocks.
Qed.

Lemma NoDup_remove {A B} (f : A → B) l1 y l2 : NoDup (f <$> l1 ++ y :: l2) →
  NoDup (f <$> l1 ++ l2) ∧ ∀ z, z ∈ l1 ++ l2 → f y ≠ f z.
Proof.
  rewrite !fmap_app. cbn. rewrite <-Permutation_middle. rewrite NoDup_cons. intros [Hy Hn]. split; [done|].
  intros z Hz Heq. apply Hy. rewrite <-fmap_app. apply list_elem_of_fmap. eauto.
Qed.

Lemma elem_of_removed {A} (l1 l2 : list A) y z : z ∈ l1 ++ y :: l2 ↔ z = y ∨ z ∈ l1 ++ l2.
Proof. rewrite !elem_of_app, elem_of_cons. tauto. Qed.

(** *** Validation of a read *)

Section validate.
Context (sh : gmap (Z * Z) S) (t : Z) (c : txm) (s s' : S) (a : CcEntryAddr) (v : Z) (ok : bool).
Context (l1 l2 : list (CcEntryAddr * Z)) (failed : bool).
Context (Hsh : tx_sh sh t c) (Hs : sh !! shard_id a = Some s) (Hok : st_ok s).
Context (Hph : phase c = Validating (l1 ++ (a, v) :: l2) failed) (Hap : reads_apart c).
Context (Hst : st_step s (EvPostRead t (cce_lock_ptr_ a) v (tx_commit_ts_ c) ok) s').
Abbreviation sh' := (<[shard_id a := s']> sh).

Lemma validate_grows : grows s s'.
Proof. by eapply grows_quiet. Qed.

(** The facts about what is left. *)
Lemma validate_left f : tx_sh sh' t (set_phase c (Validating (l1 ++ l2) f)).
Proof.
  destruct Hap as [Hn Hl]. unfold reads_left in Hn, Hl. rewrite Hph in Hn, Hl.
  apply NoDup_remove in Hn as [_ Hn].
  assert ((a, v) ∈ reads_left c) as Hin. { unfold reads_left. rewrite Hph. apply elem_of_removed. by left. }
  destruct (read_addr _ _ _ _ _ Hsh Hin) as [x Hx]. eapply (tx_sh_release sh s _ s' t c _ a x); try done.
  - apply validate_grows.
  - left. eauto.
  - split; cbn; auto.
  - unfold reads_left. cbn. rewrite Hph. intros b w Hb. split; [apply elem_of_removed; by right|].
    exact (Hn (b, w) Hb).
  - intros b [z Hb] _ <-. rewrite (Hl a v) in Hb; [done|]. apply elem_of_removed. by left.
Qed.

Lemma validate_apart c0 f : phase c0 = Validating (l1 ++ l2) f → gh_lock c0 = gh_lock c → reads_apart c0.
Proof.
  destruct Hap as [Hn Hl]. unfold reads_left in Hn, Hl. rewrite Hph in Hn, Hl. intros Hp Hg. unfold reads_apart, reads_left.
  rewrite Hp, Hg. split; [by eapply NoDup_remove|]. intros b w Hb. apply (Hl b w), elem_of_removed. by right.
Qed.

(** The entry that was validated. *)
Lemma validate_entry : ok = true → (0 < v)%Z →
  ∃ x κ, gh_read c !! a = Some x ∧ shard_of x = shard_id a ∧ st_key s κ x ∧ st_known s κ = true ∧
    st_ver s κ = v ∧ (∀ u, u ≠ t → st_mode s κ u ≠ WriteLock) ∧ (tx_commit_ts_ c <= st_last_read s')%Z.
Proof.
  intros -> H0. assert ((a, v) ∈ reads_left c) as Hin. { unfold reads_left. rewrite Hph. apply elem_of_removed. by left. }
  destruct (ts_read _ _ _ _ _ Hsh _ _ Hin) as (x & Hx & Hax & s0 & Hs0 & κ & Hk & Hat & Hm & Hv).
  rewrite <-(addr_shard a x Hax), Hs in Hs0. injection Hs0 as <-. destruct (Hv H0) as [Hkn _].
  destruct (lw_post_read _ _ _ _ _ _ κ Hok Hst H0 Hat Hm) as (Hver & Hno & Hle).
  exists x, κ. split_and!; auto. symmetry. by apply addr_shard.
Qed.

Lemma validate_pair u d x :
  ok = true → (0 < v)%Z → gh_read c !! a = Some x → u ≠ t → tx_sh sh u d → done_fate d →
  ∀ b lv cts, gh_lock d !! b = Some (x, lv, cts) → installed_by d b v ∨ tx_status_ d = Aborted.
Proof.
  intros Hokt H0 Hx Hne Hd Hdf b lv cts Hb. destruct (validate_entry Hokt H0) as (x' & κ & Hx' & Hsx & Hk & Hkn & Hver & Hno & _).
  assert (x' = x) as -> by congruence. destruct (decide (b ∈ gh_done d)) as [Hin|Hnin].
  - destruct Hdf as [Hdf|[Hc|Hab]]; [set_solver| |by right]. left. split_and!; [done..|].
    destruct (ts_done _ _ _ _ _ Hd _ _ _ _ Hb Hin Hc) as (s0 & Hs0 & κ' & Hk' & Hkn' & Hle).
    rewrite Hsx, Hs in Hs0. injection Hs0 as <-. assert (κ' = κ) as -> by (by eapply lw_key_inj). lia.
  - destruct (ts_write _ _ _ _ _ Hd _ _ _ _ Hb Hnin) as (s0 & Hs0 & κ' & Hk' & _ & Hm & _).
    rewrite Hsx, Hs in Hs0. injection Hs0 as <-. assert (κ' = κ) as -> by (by eapply lw_key_inj). by destruct (Hno u Hne).
Qed.
End validate.

Lemma ts_fixed_same c c' :
  gh_lock c' = gh_lock c → tx_commit_ts_ c' = tx_commit_ts_ c → wset_ (rw_set_ c') = wset_ (rw_set_ c) →
  gh_answers c' = gh_answers c → ts_fixed c → ts_fixed c'.
Proof.
  intros Hl Hc Hr Ha [H1 H2 H3]. split.
  - intros a x lv cts. rewrite Hl, Hc. apply H1.
  - intros x e. unfold FindWrite, locked. rewrite Hr, Hl. apply H2.
  - intros x v. rewrite Ha, Hc. apply H3.
Qed.

Lemma sets_ok_same c c' : rw_set_ c' = rw_set_ c → gh_read c' = gh_read c → sets_ok c → sets_ok c'.
Proof. intros Hr Hg [H1 H2 H4 H5 H6]. split; rewrite ?Hr, ?Hg; done. Qed.

Lemma step_validate y s s' t c a v l1 l2 failed ok :
  sys_inv y → shards y !! shard_id a = Some s → txms y !! t = Some c →
  phase c = Validating (l1 ++ (a, v) :: l2) failed →
  st_step s (EvPostRead t (cce_lock_ptr_ a) v (tx_commit_ts_ c) ok) s' →
  sys_inv (mkSys (<[shard_id a := s']> (shards y))
    (<[t := set_phase (if ok && bool_decide (0 < v)%Z then note_valid c a v else c)
              (Validating (l1 ++ l2) (failed || negb ok))]> (txms y))).
Proof.
  intros Hinv Hs Ht Hph Hst. pose proof (si_ok _ _ _ _ _ Hinv _ _ Hs) as Hok.
  pose proof (si_sh _ _ _ _ _ Hinv _ _ Ht) as Hsh.
  destruct (si_tx _ _ _ _ _ Hinv _ _ Ht) as (Hso & Hpo & Hdf). unfold phase_ok in Hpo.
  rewrite Hph in Hpo. destruct Hpo as (Hst0 & Hnd & Htf & Hap & Hans).
  set (c' := set_phase _ _).
  assert (∃ new, gh_valid c' = new ++ gh_valid c ∧
            (ok = true → (0 < v)%Z → ∀ x, gh_read c !! a = Some x → (x, v) ∈ new) ∧
            ∀ x w, (x, w) ∈ new → ok = true ∧ (0 < v)%Z ∧ gh_read c !! a = Some x ∧ w = v)
    as (new & Hvalid & Hnew1 & Hnew2).
  { destruct (ok && bool_decide (0 < v)%Z) eqn:E; cbn.
    - apply andb_true_iff in E as [-> E]. apply bool_decide_eq_true in E.
      exists (option_list ((λ x, (x, v)) <$> gh_read c !! a)). split_and!; [done|by intros _ _ x ->; left|].
      intros x w. destruct (gh_read c !! a); cbn; [|set_solver]. intros [= -> ->]%list_elem_of_singleton. done.
    - exists []. split_and!; [done| |set_solver]. intros -> H0. apply andb_false_iff in E as [|E]; [done|].
      by apply bool_decide_eq_false in E. }
  assert (phase c' = Validating (l1 ++ l2) (failed || negb ok) ∧ rw_set_ c' = rw_set_ c ∧ gh_read c' = gh_read c ∧
          gh_lock c' = gh_lock c ∧ gh_done c' = gh_done c ∧ tx_status_ c' = tx_status_ c ∧
          tx_commit_ts_ c' = tx_commit_ts_ c ∧ gh_answers c' = gh_answers c) as (Hp' & Hrw & Hgr & Hgl & Hgd & Hgs & Hgc & Hga).
  { unfold c'. by destruct (_ && _). }
  clearbody c'. eapply (sys_inv_request y (shard_id a) s); try done.
  - by intros κ (? & ? & ? & ? & _).
  - by eapply grows_quiet.
  - cbn. naive_solver.
  - split; [by eapply sets_ok_same|]. split; [|unfold done_fate; rewrite Hgd, Hgs; done].
    unfold phase_ok. rewrite Hp', Hgs, Hgd. split_and!; [done|done| |by eapply validate_apart|].
    + eapply ts_fixed_same; try done. by rewrite Hrw.
    + intros [Hf Hokf]%orb_false_iff. apply negb_false_iff in Hokf. intros x w. rewrite Hga. intros Hin H0.
      destruct (Hans Hf x w Hin H0) as [(b & Hb & Hbw)|[Hval|(b & lv & Hup)]].
      * unfold reads_left in Hbw. rewrite Hph in Hbw. apply elem_of_removed in Hbw as [[= -> ->]|Hbw].
        -- right; left. rewrite Hvalid. apply elem_of_app. left. by apply Hnew1.
        -- left. exists b. unfold reads_left. by rewrite Hp', Hgr.
      * right; left. rewrite Hvalid. apply elem_of_app. by right.
      * right; right. exists b, lv. by rewrite Hgl.
  - pose proof (validate_left (shards y) t c s s' a v ok l1 l2 failed Hsh Hs Hok Hph Hap Hst (failed || negb ok))
      as [Hr1 Ha1 Hw1 Hd1 Hv1]. split.
    + intros b w. unfold reads_left. rewrite Hp', Hgr. apply Hr1.
    + intros b x lv cts. rewrite Hgl. apply Ha1.
    + intros b x lv cts. rewrite Hgl, Hgd. apply Hw1.
    + intros b x lv cts. rewrite Hgl, Hgd, Hgs, Hgc. apply Hd1.
    + intros x w. rewrite Hvalid, Hgc. intros [(Hokt & H0 & Hx & ->)%Hnew2|Hin]%elem_of_app; [|by apply (Hv1 x w)].
      destruct (validate_entry (shards y) t c s s' a v ok l1 l2 failed) as (x' & κ & Hx' & Hsx & _ & _ & _ & _ & Hle); try done.
      assert (x' = x) as -> by congruence. rewrite <-Hsx. by apply at_shard_new.
  - intros x [Hc _]. congruence.
  - intros _ _ x w. rewrite Hga. intros Hin H0. eapply origin_update; [done| |by eapply si_answer].
    intros z [Hc _]. congruence.
  - intros u d Hne Hu. destruct (si_pairs _ _ _ _ _ Hinv t u c d ltac:(done) Ht Hu) as (H1 & H2 & H3). split_and!.
    + intros x w b lv cts. rewrite Hvalid, Hgc. intros [(Hokt & H0 & Hx & ->)%Hnew2|Hin]%elem_of_app Hb; [|by eapply H1].
      destruct (validate_pair (shards y) t c s s' a v ok l1 l2 failed) with u d x b lv cts as [|]; auto;
        [by eapply si_sh|by eapply si_tx].
    + intros x w b lv cts. unfold installed_by. rewrite Hgl, Hgd, Hgs, Hgc. apply H2.
    + intros x b lv cts b' lv' cts'. unfold installed_by. rewrite Hgl, Hgd, Hgs, Hgc. apply H3.
Qed.

(** *** Installing and releasing *)

Lemma fate_same c c' :
  gh_lock c' = gh_lock c → tx_commit_ts_ c' = tx_commit_ts_ c → wset_ (rw_set_ c') = wset_ (rw_set_ c) →
  gh_answers c' = gh_answers c → gh_valid c' = gh_valid c → tx_status_ c' = tx_status_ c → fate_ok c → fate_ok c'.
Proof.
  intros Hl Hc Hr Ha Hv Hs [H1 H2]. unfold fate_ok. rewrite Hs. split; [done|]. intros [Htf Hans]%H2.
  split; [by eapply ts_fixed_same|]. intros x v. rewrite Ha, Hv. unfold upgraded. rewrite Hl. apply Hans.
Qed.

Lemma post_read_left c l b w : phase c = PostProcessing l → (b, w) ∈ reads_left c ↔ PostRead b ∈ l ∧ w = 0%Z.
Proof.
  intros Hp. unfold reads_left. rewrite Hp, list_elem_of_omap. split.
  - intros ([|b'] & Hin & Hq); cbn in Hq; simplify_eq; done.
  - intros [Hin ->]. by exists (PostRead b).
Qed.

(** The lock behind an installation or a release. *)
Lemma post_write_lock c l a ts :
  fate_ok c → post_ok c l → PostWrite a ts ∈ l →
  ∃ x lv cts, gh_lock c !! a = Some (x, lv, cts) ∧
    (tx_status_ c = Aborted ∧ ts = 0%Z ∨
     tx_status_ c = Committed ∧ ts = tx_commit_ts_ c ∧ wrote c x ∧ (0 < cts < ts)%Z).
Proof.
  intros [_ Hfate] Hpo Hin. destruct (po_write _ _ Hpo a ts Hin) as [_ [(Hs & Hts & [[[x lv] cts] Hl])|(Hs & -> & x & e & Hf & <-)]].
  - exists x, lv, cts. split; [done|]. by left.
  - destruct (Hfate Hs) as [[Htl Htw _] _]. destruct (Htw x e Hf) as (lv & cts & Hl). exists x, lv, cts.
    split; [done|]. right. destruct (Htl _ _ _ _ Hl). split_and!; [done|done| |lia..]. split; [done|]. by rewrite Hf.
Qed.

Lemma step_post_write y s s' t c a ts l1 l2 :
  sys_inv y → shards y !! shard_id a = Some s → txms y !! t = Some c →
  phase c = PostProcessing (l1 ++ PostWrite a ts :: l2) → st_step s (EvPostWrite t (cce_lock_ptr_ a) ts) s' →
  sys_inv (mkSys (<[shard_id a := s']> (shards y))
    (<[t := set_phase (note_done c a) (PostProcessing (l1 ++ l2))]> (txms y))).
Proof.
  intros Hinv Hs Ht Hph Hst. pose proof (si_ok _ _ _ _ _ Hinv _ _ Hs) as Hok.
  pose proof (si_sh _ _ _ _ _ Hinv _ _ Ht) as Hsh.
  destruct (si_tx _ _ _ _ _ Hinv _ _ Ht) as (Hso & Hpo & Hdf). unfold phase_ok in Hpo.
  rewrite Hph in Hpo. destruct Hpo as (Hfate & Hpo).
  assert (PostWrite a ts ∈ l1 ++ PostWrite a ts :: l2) as Hin by (apply elem_of_removed; by left).
  destruct (post_write_lock c _ a ts Hfate Hpo Hin) as (x & lv & cts & Hl & Hcase).
  destruct Hpo as [Hdup Hpr Hpw]. destruct (Hpw a ts Hin) as [Hnd _]. apply NoDup_remove in Hdup as [Hdup Hne].
  pose proof (ts_addr _ _ _ _ _ Hsh _ _ _ _ Hl) as Hax.
  destruct (ts_write _ _ _ _ _ Hsh _ _ _ _ Hl Hnd) as (s0 & Hs0 & Hw).
  assert (shard_of x = shard_id a) as Hsx by (symmetry; by apply addr_shard).
  rewrite Hsx, Hs in Hs0. injection Hs0 as <-.
  destruct (install_grows s t a x cts ts s' Hok Hst Hw) as [Hg Hinst]; [destruct Hcase as [[_ ->]|(_ & _ & _ & ?)]; lia|].
  set (c' := set_phase (note_done c a) (PostProcessing (l1 ++ l2))).
  assert (evolves c c') as Hev by (split; cbn; [done|done|set_solver|by right|done]).
  eapply (sys_inv_request y (shard_id a) s); try done.
  - intros κ Hi. assert (0 < ts)%Z as H0 by (destruct Hi as (? & ? & ? & [= _ _ <-] & ? & _); done).
    destruct (Hinst H0) as [_ Hκ]. destruct (Hκ κ Hi) as [Hk Hver]. exists x. split; [done|]. right. exists t, c'.
    rewrite lookup_insert_eq. destruct Hcase as [[_ ->]|(_ & -> & Hwr & _)]; [lia|]. done.
  - cbn. naive_solver.
  - split; [by apply (sets_ok_same c)|]. split.
    + split; [by apply (fate_same c)|]. split; cbn; [done|intros b Hb; apply Hpr, elem_of_removed; by right|].
      intros b ts' Hb. destruct (Hpw b ts') as [Hnb Hb']; [apply elem_of_removed; by right|]. split; [|done].
      specialize (Hne _ Hb). cbn in Hne. set_solver.
    + right. destruct Hcase as [[? _]|(? & _)]; auto.
  - eapply (tx_sh_release _ s _ s' t c c' a x); try done.
    + right. eauto.
    + intros b w. rewrite (post_read_left c'), (post_read_left c) by done. intros [Hb ->].
      split; [split; [apply elem_of_removed; by right|done]|]. exact (Hne _ Hb).
    + cbn. set_solver.
    + cbn. intros b z lv' cts' Hlb Hb Hnb Hc. assert (b = a) as -> by set_solver.
      assert (z = x) as -> by congruence. rewrite <-Hsx. apply at_shard_new.
      destruct Hcase as [[Hc' _]|(_ & -> & _ & ?)]; [congruence|]. apply Hinst. lia.
  - intros _ _ z w Hz H0. eapply origin_update; [done|done|]. by eapply si_answer.
  - intros u d Hneu Hu. eapply (pairs_evolves c d); [done|reflexivity|]. eapply (si_pairs _ _ _ _ _ Hinv t u); auto.
Qed.

Lemma step_post_read y s s' t c a l1 l2 ok :
  sys_inv y → shards y !! shard_id a = Some s → txms y !! t = Some c →
  phase c = PostProcessing (l1 ++ PostRead a :: l2) → st_step s (EvPostRead t (cce_lock_ptr_ a) 0 0 ok) s' →
  sys_inv (mkSys (<[shard_id a := s']> (shards y)) (<[t := set_phase c (PostProcessing (l1 ++ l2))]> (txms y))).
Proof.
  intros Hinv Hs Ht Hph Hst. pose proof (si_ok _ _ _ _ _ Hinv _ _ Hs) as Hok.
  pose proof (si_sh _ _ _ _ _ Hinv _ _ Ht) as Hsh.
  destruct (si_tx _ _ _ _ _ Hinv _ _ Ht) as (Hso & Hpo & Hdf). unfold phase_ok in Hpo.
  rewrite Hph in Hpo. destruct Hpo as (Hfate & [Hdup Hpr Hpw]). apply NoDup_remove in Hdup as [Hdup Hne].
  assert (PostRead a ∈ l1 ++ PostRead a :: l2) as Hin by (apply elem_of_removed; by left).
  set (c' := set_phase c (PostProcessing (l1 ++ l2))).
  assert (evolves c c') as Hev by (split; cbn; auto).
  destruct (read_addr (shards y) t c a 0) as [x Hx]; [done|by apply (post_read_left c _ a 0%Z Hph)|].
  eapply (sys_inv_request y (shard_id a) s); try done.
  - by intros κ (? & ? & ? & ? & _).
  - by eapply grows_quiet.
  - cbn. naive_solver.
  - split; [by apply (sets_ok_same c)|]. split; [|done]. split; [by apply (fate_same c)|]. split; cbn; [done|..].
    + intros b Hb. apply Hpr, elem_of_removed. by right.
    + intros b ts' Hb. apply Hpw, elem_of_removed. by right.
  - eapply (tx_sh_release _ s _ s' t c c' a x); try done.
    + by eapply grows_quiet.
    + left. eauto.
    + intros b w. rewrite (post_read_left c'), (post_read_left c) by done. intros [Hb ->].
      split; [split; [apply elem_of_removed; by right|done]|]. exact (Hne _ Hb).
    + intros b [z Hb] _ <-. by rewrite (Hpr a Hin) in Hb.
  - intros _ _ z w Hz H0. eapply origin_update; [done|done|]. by eapply si_answer.
  - intros u d Hneu Hu. eapply (pairs_evolves c d); [done|reflexivity|]. eapply (si_pairs _ _ _ _ _ Hinv t u); auto.
Qed.

(** *** Other executions on a shard, and new transactions *)

Lemma step_shard y sid s s' ev :
  sys_inv y → shards y !! sid = Some s → st_step s ev s' → (∀ κ, ¬ installs s ev κ) →
  (∀ t c a, txms y !! t = Some c → keeps_addr ev t a) → sys_inv (mkSys (<[sid := s']> (shards y)) (txms y)).
Proof.
  intros Hinv Hs Hst Hni Hk. pose proof (si_ok _ _ _ _ _ Hinv _ _ Hs) as Hok.
  assert (grows s s') as Hg by (eapply grows_step; [done..|]; intros κ Hi; by destruct (Hni κ)).
  destruct Hinv as [H1 H2 H3 H4 H5 H6]. split; cbn; [|done| |done| |done].
  - intros sid0 s0 [[<- <-]|[Hne Hs0]]%lookup_insert_Some; [by eapply lw_ok|by eapply H1].
  - intros t c Ht. eapply tx_sh_other; eauto.
  - intros sid0 s0 [[<- <-]|[Hne Hs0]]%lookup_insert_Some; [|by eapply H5].
    eapply shard_origin_step; [done..| |by eapply H5]. intros κ Hi. by destruct (Hni κ).
Qed.

Lemma no_write_reset x e : FindWrite (ReadWriteSet_Reset : ReadWriteSet K R) x.1 x.2 ≠ Some e.
Proof. unfold FindWrite, ReadWriteSet_Reset. cbn [wset_]. by rewrite lookup_empty. Qed.

Lemma new_txm_ok ts : tx_ok (new_txm ts).
Proof.
  split; [|split; [|by left]].
  - split; [apply Reset_ok|vm_compute; done|done| |].
    + intros tbl a r. unfold read_at. cbn [rw_set_ new_txm rset_ ReadWriteSet_Reset]. by rewrite lookup_empty.
    + intros x e He. by destruct (no_write_reset x e).
  - cbn. split_and!; try done. intros x v. cbn. set_solver.
Qed.

Lemma new_txm_sh sh t ts : tx_sh sh t (new_txm ts : txm).
Proof. split; cbn; set_solver. Qed.

Lemma new_txm_pairs ts d : pairs (new_txm ts) d.
Proof. split_and!; intros x; cbn; set_solver. Qed.

Lemma step_begin y t ts :
  sys_inv y → txms y !! t = None → sys_inv (mkSys (shards y) (<[t := new_txm ts]> (txms y))).
Proof.
  intros [H1 H2 H3 H4 H5 H6] Ht.
  assert (∀ x v, origin (txms y) x v → origin (<[t := new_txm ts]> (txms y)) x v) as Ho.
  { intros x v [|(u & d & Hu & ?)]; [by left|right]. exists u, d. rewrite lookup_insert_ne; [done|congruence]. }
  split; cbn; [done|..].
  - intros u d [[<- <-]|[Hne Hu]]%lookup_insert_Some; [apply new_txm_ok|by eapply H2].
  - intros u d [[<- <-]|[Hne Hu]]%lookup_insert_Some; [apply new_txm_sh|by eapply H3].
  - intros u1 u2 d1 d2 Hne Hu1 Hu2. apply lookup_insert_Some in Hu1 as [[<- <-]|[Hn1 Hu1]]; [apply new_txm_pairs|].
    apply lookup_insert_Some in Hu2 as [[<- <-]|[Hn2 Hu2]]; [apply pairs_sym, new_txm_pairs|by eapply (H4 u1 u2)].
  - intros sid s Hs κ Hkn. destruct (H5 sid s Hs κ Hkn) as [|(x & Hx & Hox)]; [by left|right]. eauto.
  - intros u d [[<- <-]|[Hne Hu]]%lookup_insert_Some x v Hin H0; [cbn in Hin; set_solver|]. apply Ho. by eapply H6.
Qed.

(** *** The coordinator's own steps *)

Record same_ghosts c c' : Prop := {
  sg_read : gh_read c' = gh_read c;
  sg_answers : gh_answers c' = gh_answers c;
  sg_lock : gh_lock c' = gh_lock c;
  sg_valid : gh_valid c' = gh_valid c;
  sg_done : gh_done c' = gh_done c;
}.

(** A step before the fate is decided. *)
Lemma step_same y t c c' :
  sys_inv y → txms y !! t = Some c → same_ghosts c c' → (nothing_done c ∨ tx_commit_ts_ c' = tx_commit_ts_ c) →
  (tx_status_ c = Ongoing ∨ tx_status_ c = Committing) → gh_done c = ∅ →
  (∀ a v, (a, v) ∈ reads_left c' → ∃ v0, (a, v0) ∈ reads_left c ∧ (v = v0 ∨ v = 0%Z)) →
  tx_ok c' → sys_inv (mkSys (shards y) (<[t := c']> (txms y))).
Proof.
  intros Hinv Ht [Hr Ha Hl Hv Hd] Hc Hs Hnd Hreads Hok.
  assert (evolves c c') as Hev. { split; [done|done|by rewrite Hd|done|]. intros [E|E]; rewrite E in Hs; naive_solver. }
  eapply sys_inv_local; try done.
  - eapply tx_sh_local; try done; [by left|by eapply si_sh].
  - intros x [E _]. rewrite E in Hs. naive_solver.
Qed.

Lemma NoDup_write_list rw : NoDup (write_list rw).
Proof. eapply NoDup_fmap_1. apply NoDup_write_keys. Qed.

(** The installations and releases of writes: at most one per key. *)
Lemma write_posts c (f : WriteSetEntry R → list CcEntryAddr) ts :
  writes_all c (λ x e, f e = [] ∨ f e = [cce_addr_ e] ∧ locked c x e) →
  let l := write_list (rw_set_ c) ≫= λ ke, (λ a, PostWrite a ts) <$> f ke.2 in
  NoDup (post_addr <$> l) ∧
  ∀ q, q ∈ l → ∃ x e, q = PostWrite (cce_addr_ e) ts ∧ FindWrite (rw_set_ c) x.1 x.2 = Some e ∧ locked c x e.
Proof.
  intros Hf l.
  assert (∀ ke b, ke ∈ write_list (rw_set_ c) → b ∈ f ke.2 →
    b = cce_addr_ ke.2 ∧ FindWrite (rw_set_ c) ke.1.1 ke.1.2 = Some ke.2 ∧ locked c ke.1 ke.2) as Hone.
  { intros [x e] b Hin%elem_write_list Hb. cbn in Hb. destruct (Hf x e Hin) as [E|[E Hl]]; rewrite E in Hb;
      [set_solver|]. apply list_elem_of_singleton in Hb. done. }
  split.
  - unfold l. rewrite fmap_bind_list. apply NoDup_bind; [apply NoDup_write_list|..].
    + intros [x e] Hin%elem_write_list. cbn. rewrite <-list_fmap_compose. change (post_addr ∘ _) with (@id CcEntryAddr).
      rewrite list_fmap_id. destruct (Hf x e Hin) as [->|[-> _]]; [constructor|apply NoDup_singleton].
    + intros ke ke' b Hin Hin'. rewrite <-!list_fmap_compose. change (post_addr ∘ _) with (@id CcEntryAddr).
      rewrite !list_fmap_id. intros (-> & Hf1 & lv & cts & Hl)%(Hone ke) (Heq & Hf2 & lv' & cts' & Hl')%(Hone ke'); [|done..].
      rewrite Heq, Hl' in Hl. destruct ke as [x e], ke' as [x' e']. cbn in *. congruence.
  - intros q (ke & Hq & Hin)%list_elem_of_bind. apply list_elem_of_fmap in Hq as (b & -> & Hb).
    destruct (Hone ke b Hin Hb) as (-> & Hfw & Hl). eauto.
Qed.

Lemma elem_release_reads rw q : q ∈ release_reads rw ↔ ∃ a v, q = PostRead a ∧ (a, v) ∈ data_read_list rw.
Proof.
  unfold release_reads. rewrite list_elem_of_fmap. split.
  - intros ([a v] & -> & Hin). eauto.
  - intros (a & v & -> & Hin). by exists (a, v).
Qed.

Lemma release_addrs rw : post_addr <$> release_reads rw = (data_read_list rw).*1.
Proof. unfold release_reads. by rewrite <-list_fmap_compose. Qed.

(** The fate is decided. *)
Lemma step_fate y t c c1 st l :
  sys_inv y → txms y !! t = Some c → same_ghosts c c1 → tx_commit_ts_ c1 = tx_commit_ts_ c →
  (tx_status_ c = Ongoing ∨ tx_status_ c = Committing) → gh_done c = ∅ → sets_ok c1 →
  fate_ok (set_fate c1 st (PostProcessing l)) → post_ok (set_fate c1 st (PostProcessing l)) l →
  (∀ a, PostRead a ∈ l → ∃ v, (a, v) ∈ reads_left c) →
  sys_inv (mkSys (shards y) (<[t := set_fate c1 st (PostProcessing l)]> (txms y))).
Proof.
  intros Hinv Ht Hsg Hc Hs Hnd Hso Hfate Hpost Hreads. eapply step_same; try done.
  - by destruct Hsg; split.
  - by right.
  - intros a v. rewrite (post_read_left _ l) by done. intros [Hin ->]. destruct (Hreads a Hin) as [v0 Hv0]. eauto.
  - split; [by apply (sets_ok_same c1)|]. split; [done|]. left. cbn. by rewrite (sg_done _ _ Hsg).
Qed.

Lemma entry_one c x e : sets_ok c → FindWrite (rw_set_ c) x.1 x.2 = Some e → entry_addrs e = [cce_addr_ e].
Proof. intros Hso Hf. unfold entry_addrs. by rewrite (so_forward _ _ _ Hso x e Hf), map_to_list_empty. Qed.

(** The reads of [c1] are still held by [c] and not write locked. *)
Definition reads_held c c1 : Prop :=
  NoDup (data_read_list (rw_set_ c1)).*1 ∧
  ∀ a v, (a, v) ∈ data_read_list (rw_set_ c1) → (a, v) ∈ reads_left c ∧ gh_lock c !! a = None.

Lemma step_abort y t c c1 :
  sys_inv y → txms y !! t = Some c → same_ghosts c c1 → tx_commit_ts_ c1 = tx_commit_ts_ c →
  (tx_status_ c = Ongoing ∨ tx_status_ c = Committing) → gh_done c = ∅ → sets_ok c1 →
  writes_all c1 (λ x e, no_addr e ∨ locked c1 x e) → reads_held c c1 →
  sys_inv (mkSys (shards y) (<[t := Abort c1]> (txms y))).
Proof.
  intros Hinv Ht Hsg Hc Hs Hnd Hso Hw [Hn Hr].
  destruct (write_posts c1 (λ e, filter (λ a, (0 <= addr_term_ a)%Z) (entry_addrs e)) 0) as [Hdup Hel].
  { intros x e Hf. rewrite (entry_one c1 x e Hso Hf), filter_cons, filter_nil. case_decide; [|by left].
    right. split; [done|]. destruct (Hw x e Hf) as [Hna|]; [unfold no_addr in Hna; lia|done]. }
  pose proof (sg_lock _ _ Hsg) as Hl. apply (step_fate y t c c1); try done.
  - split; [by left|done].
  - split.
    + cbn. rewrite fmap_app, release_addrs. apply NoDup_app. split_and!; [done| |done].
      intros b (q & -> & (x & e & -> & _ & lv & cts & Hlk)%Hel)%list_elem_of_fmap ([a v] & Heq & Hin)%list_elem_of_fmap.
      cbn in Heq. destruct (Hr a v Hin) as [_ Hnone]. rewrite Hl, Heq in Hlk. congruence.
    + intros a [(x & e & [=] & _)%Hel|(a' & v & [= <-] & Hin)%elem_release_reads]%elem_of_app. cbn. rewrite Hl. by eapply Hr.
    + intros a ts [(x & e & [= -> ->] & _ & lv & cts & Hlk)%Hel|(a' & v & [=] & Hin)%elem_release_reads]%elem_of_app.
      cbn. rewrite (sg_done _ _ Hsg), Hnd. split; [set_solver|]. left. by rewrite Hlk.
  - intros a [(x & e & [=] & _)%Hel|(a' & v & [= <-] & Hin)%elem_release_reads]%elem_of_app. exists v. by apply Hr.
Qed.

Lemma step_commit_all y t c c1 :
  sys_inv y → txms y !! t = Some c → same_ghosts c c1 → tx_commit_ts_ c1 = tx_commit_ts_ c →
  tx_status_ c = Committing → gh_done c = ∅ → sets_ok c1 → ts_fixed c1 →
  answers c1 (λ x v, (x, v) ∈ gh_valid c1 ∨ upgraded c1 x v) →
  sys_inv (mkSys (shards y) (<[t := finish_commit c1]> (txms y))).
Proof.
  intros Hinv Ht Hsg Hc Hs Hnd Hso Htf Hans.
  destruct (write_posts c1 entry_addrs (tx_commit_ts_ c1)) as [Hdup Hel].
  { intros x e Hf. right. split; [by apply (entry_one c1 x e)|]. by apply (tf_write _ Htf). }
  apply (step_fate y t c c1); try done; [by right| | |].
  - split; [by right; left|]. intros _. split; [by eapply (ts_fixed_same c1)|done].
  - split; [done|by intros a (x & e & [=] & _)%Hel|].
    intros a ts (x & e & [= -> ->] & Hf & _)%Hel. cbn. rewrite (sg_done _ _ Hsg), Hnd. split; [set_solver|]. right. by eauto 10.
  - intros a (x & e & [=] & _)%Hel.
Qed.

Lemma step_log_or_commit y t c c1 :
  sys_inv y → txms y !! t = Some c → same_ghosts c c1 → tx_commit_ts_ c1 = tx_commit_ts_ c →
  tx_status_ c = Committing → tx_status_ c1 = Committing → gh_done c = ∅ → sets_ok c1 → ts_fixed c1 →
  data_read_list (rw_set_ c1) = [] → answers c1 (λ x v, (x, v) ∈ gh_valid c1 ∨ upgraded c1 x v) →
  sys_inv (mkSys (shards y) (<[t := log_or_commit use_log c1]> (txms y))).
Proof.
  intros Hinv Ht Hsg Hc Hs Hs1 Hnd Hso Htf Hr Hans. unfold log_or_commit. destruct (_ && _).
  - eapply step_same; try done.
    + by destruct Hsg; split.
    + by right.
    + by right.
    + unfold reads_left. cbn. set_solver.
    + pose proof (sg_done _ _ Hsg) as Hd. rewrite Hnd in Hd.
      split; [by apply (sets_ok_same c1)|]. split; [|by left]. cbn. split_and!; try done. by apply (ts_fixed_same c1).
  - by apply (step_commit_all y t c c1).
Qed.

Lemma data_reads_same rw rw' : rset_ rw' = rset_ rw → data_read_list rw' = data_read_list rw.
Proof. unfold data_read_list. by intros ->. Qed.

Lemma step_write y t c tbl ver k rec op cu err rw :
  sys_inv y → txms y !! t = Some c → phase c = Executing →
  (wset_bytes_cnt_ (rw_set_ c) + (key_len k + rec_size rec_len rec) < 2 ^ 64)%Z →
  AddWrite key_len rec_len (rw_set_ c) tbl ver k rec op cu = Some (err, rw) → (writes (wset_ rw) < 2 ^ 64)%Z →
  sys_inv (mkSys (shards y) (<[t := set_rw c rw]> (txms y))).
Proof.
  intros Hinv Ht Hph Hb Hadd Hlt.
  destruct (si_tx _ _ _ _ _ Hinv _ _ Ht) as (Hso & Hpo & Hdf). unfold phase_ok in Hpo.
  rewrite Hph in Hpo. destruct Hpo as (Hst0 & Hnd & Hnl & Hna & Hans & Hcnt).
  destruct (AddWrite_spec _ _ _ _ _ _ _ _ _ _ _ Hadd) as (Hrs & Hcat & Hw).
  pose proof (data_reads_same _ _ Hrs) as Hdr. eapply step_same; try done.
  - by right.
  - by left.
  - apply Hnd.
  - unfold reads_left. cbn. rewrite Hph, Hdr. eauto.
  - destruct Hso as [H1 H2 H4 H5 H6]. split; [split; cbn|].
    + by eapply AddWrite_ok.
    + by rewrite Hdr.
    + by rewrite Hcat.
    + intros tbl' a r. unfold read_at. rewrite Hrs. apply H5.
    + intros x e [[_ ?]|(e0 & Hf & _ & ->)]%Hw; [done|by eapply H6].
    + split; [|done]. unfold phase_ok. cbn [phase set_rw]. rewrite Hph. split_and!; [done..| | |done].
      * intros x e [[Hc _]|(e0 & Hf & Hc & _)]%Hw; unfold no_addr; rewrite Hc; [done|by eapply (Hna x)].
      * intros x v Hin H0. destruct (Hans x v Hin H0) as (a & Ha & Hl). exists a. split; [done|].
        unfold reads_left in *. cbn. rewrite Hph in *. by rewrite Hdr.
Qed.

Lemma step_set_ts y t c c1 local_ts lower_bound :
  sys_inv y → txms y !! t = Some c → same_ghosts c c1 → nothing_done c →
  (tx_status_ c = Ongoing ∨ tx_status_ c = Committing) → tx_status_ c1 = Committing → sets_ok c1 → reads_held c c1 →
  writes_all c1 (locked c1) →
  (∀ a x lv cts, gh_lock c1 !! a = Some (x, lv, cts) → (lv, cts) ∈ result_ts <$> acquire_results_ c1 ∧ (0 < cts)%Z) →
  answers c1 (λ x v, (∃ a, gh_read c1 !! a = Some x ∧ (a, v) ∈ data_read_list (rw_set_ c1)) ∨ upgraded c1 x v) →
  sys_inv (mkSys (shards y) (<[t := set_ts c1 local_ts lower_bound]> (txms y))).
Proof.
  intros Hinv Ht Hsg [Hnv Hnd] Hs Hs1 Hso [Hn Hr] Hw Hlock Hans.
  set (c' := set_ts c1 local_ts lower_bound).
  assert (commit_candidate (commit_ts_bound_ c1) (acquire_results_ c1) 0 (rw_set_ c1) <= tx_commit_ts_ c')%Z as Hcand.
  { cbn. unfold candidate_after_acquire. rewrite decide_False; [lia|].
    unfold CatalogWriteSetSize. rewrite (so_catalog _ _ _ Hso), map_size_empty. lia. }
  assert (∀ a x lv cts, gh_lock c1 !! a = Some (x, lv, cts) → lv < tx_commit_ts_ c' ∧ 0 < cts < tx_commit_ts_ c')%Z as Htl.
  { intros a x lv cts Hl. destruct (Hlock a x lv cts Hl) as [Hin Hpos].
    pose proof (commit_candidate_above (commit_ts_bound_ c1) (acquire_results_ c1) 0 (rw_set_ c1)
      (mkAcquireResult a lv cts) Hin) as [? ?]. cbn in *. lia. }
  assert (same_ghosts c c') as Hsg' by (by destruct Hsg; split).
  assert (∀ a, gh_lock c' !! a = gh_lock c !! a) as Hgl by (intros a; by rewrite (sg_lock _ _ Hsg')).
  eapply step_same; try done; [by left| |].
  - unfold reads_left. cbn. intros a v Hin. exists v. split; [by apply Hr|by left].
  - split; [by apply (sets_ok_same c1)|]. split; [|left; by rewrite (sg_done _ _ Hsg')].
    cbn. split_and!; [done|..].
    + split; cbn; [by rewrite (sg_valid _ _ Hsg)|by rewrite (sg_done _ _ Hsg)].
    + split; [done|done|]. intros x v Hin H0. destruct (Hans x v Hin H0) as [(a & _ & Hin')|(a & lv & Hl)].
      * apply elem_reads_at in Hin' as (tbl & r & _ & Hread & ->).
        pose proof (commit_candidate_reads (commit_ts_bound_ c1) (acquire_results_ c1) 0 _ _ _ _ Hread). lia.
      * exact (proj2 (proj2 (Htl _ _ _ _ Hl))).
    + split; [done|]. intros a v Hin. rewrite Hgl. by apply (Hr a v).
    + intros x v Hin H0. apply Hans; done.
Qed.

(** Before any lock is taken. *)
Lemma executing_ok c : sets_ok c → one_table (rw_set_ c).
Proof.
  intros Hso. apply one_table_read. intros t1 t2 a r1 r2 H1 H2.
  destruct (so_noted _ _ _ Hso _ _ _ H1) as (_ & k1 & Hk1), (so_noted _ _ _ Hso _ _ _ H2) as (_ & k2 & Hk2). congruence.
Qed.

Lemma executing_reads c : sets_ok c → phase c = Executing → gh_lock c = ∅ → reads_held c c.
Proof.
  intros Hso Hph Hl. split; [by apply NoDup_data_reads, executing_ok|]. unfold reads_left. rewrite Hph, Hl.
  intros a v Hin. split; [done|apply lookup_empty].
Qed.

Lemma step_rollback y t c :
  sys_inv y → txms y !! t = Some c → phase c = Executing → sys_inv (mkSys (shards y) (<[t := Abort c]> (txms y))).
Proof.
  intros Hinv Ht Hph. destruct (si_tx _ _ _ _ _ Hinv _ _ Ht) as (Hso & Hpo & Hdf). unfold phase_ok in Hpo.
  rewrite Hph in Hpo. destruct Hpo as (Hst0 & [_ Hnd] & Hnl & Hna & Hans & Hcnt).
  apply (step_abort y t c c); auto; [done| |by apply executing_reads]. intros x e Hf. left. by eapply (Hna x).
Qed.

Lemma slots_start c : 
  let keys := write_keys (rw_set_ c) in
  gh_lock c = ∅ →
  slots_match (set_phase (set_acquire_op c keys ((λ x, empty_result (shard_of x).1) <$> keys))
              (Acquiring (set_seq 0 (length keys)) false)) (set_seq 0 (length keys)) false.
Proof.
  intros keys Hl. assert (∀ i res, ((λ x, empty_result (shard_of x).1) <$> keys) !! i = Some res → ¬ success res ∧ i < length keys) as Hempty.
  { intros i res. rewrite list_lookup_fmap. destruct (keys !! i) as [x|] eqn:E; cbn; [|done]. intros [= <-].
    split; [intros [Ht _]; cbn in Ht; lia|by eapply lookup_lt_Some]. }
  split; cbn.
  - done.
  - by rewrite length_fmap.
  - intros i res Hi Hs. by destruct (Hempty i res Hi).
  - rewrite Hl. intros a x lv cts. by rewrite lookup_empty.
  - intros i res _ Hi. by apply (Hempty i).
  - intros i res Hi _ Hr. destruct (Hempty i res Hr). rewrite elem_of_set_seq in Hi. lia.
Qed.

Lemma step_commit y t c local_ts lower_bound :
  sys_inv y → txms y !! t = Some c → phase c = Executing →
  sys_inv (mkSys (shards y) (<[t := Commit shard_of c local_ts lower_bound]> (txms y))).
Proof.
  intros Hinv Ht Hph. destruct (si_tx _ _ _ _ _ Hinv _ _ Ht) as (Hso & Hpo & Hdf). unfold phase_ok in Hpo.
  rewrite Hph in Hpo. destruct Hpo as (Hst0 & Hnd & Hnl & Hna & Hans & Hcnt).
  assert (∀ x v, in_reads c x v → ∃ a, gh_read c !! a = Some x ∧ (a, v) ∈ data_read_list (rw_set_ c)) as Hin.
  { intros x v (a & Ha & Hl). exists a. unfold reads_left in Hl. by rewrite Hph in Hl. }
  unfold Commit. cbn zeta. cbn [rw_set_ set_fate]. case_decide as Hws.
  - eapply step_same; try done; [by right|by left|by apply Hnd| |].
    + unfold reads_left. cbn. rewrite Hph. eauto.
    + split; [by apply (sets_ok_same c)|]. split; [|left; by apply Hnd]. cbn. split_and!; [done|done|by apply (slots_start (set_fate c Committing (phase c)))|].
      intros x v Hx H0. destruct (Hin x v (Hans x v Hx H0)) as (a & ? & ?). by exists a.
  - assert (∀ x, FindWrite (rw_set_ c) x.1 x.2 = None) as Hnw.
    { intros x. by eapply no_writes; [apply Hso|..]. }
    apply (step_set_ts y t c); try done; [by left|by apply (sets_ok_same c)|exact (executing_reads c Hso Hph Hnl)|..].
    + intros x e Hf. cbn [rw_set_ set_fate] in Hf. by rewrite Hnw in Hf.
    + cbn. rewrite Hnl. intros a x lv cts. by rewrite lookup_empty.
    + intros x v Hx H0. left. by apply Hin, Hans.
Qed.

(** *** All write locks were answered *)

(** A read at an address that is write locked is of the locked key. *)
Lemma lock_read_key sh t c a v x x' lv cts :
  (∀ sid s, sh !! sid = Some s → st_ok s) → tx_sh sh t c → (a, v) ∈ reads_left c → gh_read c !! a = Some x →
  gh_lock c !! a = Some (x', lv, cts) → a ∉ gh_done c → x = x'.
Proof.
  intros Hok Hsh Hin Hx Hl Hnd. destruct (ts_read _ _ _ _ _ Hsh _ _ Hin) as (x0 & Hx0 & Hax & s & Hs & κ & Hk & Hat & _).
  pose proof (ts_addr _ _ _ _ _ Hsh _ _ _ _ Hl) as Hax'.
  destruct (ts_write _ _ _ _ _ Hsh _ _ _ _ Hl Hnd) as (s' & Hs' & κ' & Hk' & Hat' & _).
  rewrite <-(addr_shard _ _ Hax') in Hs'. rewrite <-(addr_shard _ _ Hax), Hs' in Hs. injection Hs as ->.
  assert (x0 = x') as -> by (eapply (at_key s κ κ'); eauto). congruence.
Qed.

Section acquired.
Context (c : txm) (failed : bool) (g : Aggregate K R).
Context (Hso : sets_ok c) (Hsl : slots_match c ∅ failed) (Hph : phase c = Acquiring ∅ failed).
Context (Hag : aggregated_all (acquire_write_entries_ c) (mkAgg (rw_set_ c) (acquire_results_ c) 0 false) g).
Abbreviation c1 := (set_acquire_op (set_rw c (ag_rw g)) (acquire_write_entries_ c) (ag_results g)).

Lemma acquired_read tbl a r :
  read_at (ag_rw g) tbl a = Some r ↔ read_at (rw_set_ c) tbl a = Some r ∧ gh_lock c !! a = None.
Proof.
  rewrite (aga_read _ _ _ Hag). cbn. split; intros [Hr Hne]; (split; [done|]).
  - destruct (gh_lock c !! a) as [[[x lv] cts]|] eqn:Hl; [|done]. exfalso.
    destruct (sl_slot _ _ _ Hsl _ _ _ _ Hl) as (i & Hi & Hres & Hs & _).
    by apply (Hne i _ (lookup_lt_Some _ _ _ Hi) Hres Hs).
  - intros i res _ Hres Hs ->. destruct (sl_lock _ _ _ Hsl _ _ Hres Hs) as (x & _ & Hl). congruence.
Qed.

Lemma acquired_sub a v : (a, v) ∈ data_read_list (ag_rw g) → (a, v) ∈ data_read_list (rw_set_ c) ∧ gh_lock c !! a = None.
Proof.
  intros (tbl & r & Hm & [Hr Hl]%acquired_read & ->)%elem_reads_at. split; [|done]. apply elem_reads_at. eauto.
Qed.

Lemma acquired_nodup : NoDup (data_read_list (ag_rw g)).*1.
Proof.
  apply NoDup_data_reads. eapply one_table_sub; [|by apply executing_ok]. intros tbl b r Hr. by apply acquired_read in Hr as [? _].
Qed.

Lemma acquired_write x e' : FindWrite (ag_rw g) x.1 x.2 = Some e' →
  forward_addr_ e' = ∅ ∧ (no_addr e' ∨ locked c x e') ∧ (failed = false → locked c x e').
Proof.
  intros Hf. destruct (aga_write _ _ _ Hag x e' Hf) as (e0 & Hf0 & Hfw & Hcase). cbn in *.
  split; [rewrite Hfw; by eapply (so_forward _ _ _ Hso x)|].
  destruct Hcase as [[Hni _]|(i & res & Hi & Hres & Ha)].
  { destruct Hni. rewrite (sl_entries _ _ _ Hsl). unfold write_keys. apply list_elem_of_fmap. exists (x, e0).
    split; [done|]. by apply elem_write_list. }
  unfold new_addr in Ha. destruct (decide (success res)) as [Hs|Hns].
  - destruct (sl_lock _ _ _ Hsl _ _ Hres Hs) as (x' & Hx' & Hl). assert (x' = x) as -> by congruence.
    assert (locked c x e') by (exists (ar_last_vali_ts_ res), (ar_commit_ts_ res); congruence). auto.
  - split; [left; unfold no_addr; by rewrite Ha|]. intros Hff. destruct Hns.
    by apply (sl_finished _ _ _ Hsl i res (not_elem_of_empty i)).
Qed.

Lemma acquired_sets_ok : sets_ok c1.
Proof.
  destruct Hso as [H1 H2 H4 H5 H6]. split; cbn.
  - by apply (aga_ok _ _ _ Hag).
  - assert (length (data_read_list (ag_rw g)) ≤ length (data_read_list (rw_set_ c))); [|lia].
    apply submseteq_length, NoDup_submseteq; [eapply NoDup_fmap_1, acquired_nodup|].
    intros [a v] Hin. by apply acquired_sub.
  - by rewrite (aga_catalog _ _ _ Hag).
  - intros tbl a r [Hr _]%acquired_read. by eapply H5.
  - intros x e Hf. by apply (acquired_write x e).
Qed.

Lemma acquired_held : reads_held c c1.
Proof.
  split; [apply acquired_nodup|]. intros a v Hin. unfold reads_left. rewrite Hph. by apply acquired_sub.
Qed.

Lemma acquired_results a x lv cts : gh_lock c !! a = Some (x, lv, cts) →
  (lv, cts) ∈ result_ts <$> ag_results g ∧ (0 < cts)%Z.
Proof.
  intros Hl. destruct (sl_slot _ _ _ Hsl _ _ _ _ Hl) as (i & _ & Hres & _ & Hpos). split; [|done].
  rewrite (aga_ts _ _ _ Hag). apply list_elem_of_fmap. exists (mkAcquireResult a lv cts). split; [done|].
  by eapply list_elem_of_lookup_2.
Qed.

(** A read that was upgraded is of the version under the lock. *)
Lemma acquired_upgrade tbl a r x lv cts :
  ag_expired g = false → read_at (rw_set_ c) tbl a = Some r → gh_lock c !! a = Some (x, lv, cts) →
  (0 < version_ts_ r)%Z → version_ts_ r = cts.
Proof.
  intros He Hr Hl H0. destruct (sl_slot _ _ _ Hsl _ _ _ _ Hl) as (i & Hi & Hres & Hs & _).
  destruct (aga_expired _ _ _ Hag He) as [_ Hup]. destruct (Hup i _ tbl r (lookup_lt_Some _ _ _ Hi) Hres Hs) as [|]; [|done|lia|done].
  intros j res' Hj Hres' Hs' Heq. cbn in Heq. destruct (sl_lock _ _ _ Hsl _ _ Hres' Hs') as (x' & Hx' & Hl').
  assert (x' = x) as -> by congruence. pose proof (NoDup_write_keys (rw_set_ c)) as Hn.
  rewrite <-(sl_entries _ _ _ Hsl), NoDup_alt in Hn. assert (i = j) by (by eapply Hn). lia.
Qed.
End acquired.

Lemma step_acquired y t c c' failed local_ts lower_bound :
  sys_inv y → txms y !! t = Some c → phase c = Acquiring ∅ failed →
  acquired_all c failed local_ts lower_bound = Some c' → sys_inv (mkSys (shards y) (<[t := c']> (txms y))).
Proof.
  intros Hinv Ht Hph. destruct (si_tx _ _ _ _ _ Hinv _ _ Ht) as (Hso & Hpo & Hdf). unfold phase_ok in Hpo.
  rewrite Hph in Hpo. destruct Hpo as (Hst0 & Hnd & Hsl & Hans).
  destruct (aggregate_fold (acquire_write_entries_ c) (mkAgg (rw_set_ c) (acquire_results_ c) 0 false)) as (g & Hg & Hag).
  { rewrite (sl_entries _ _ _ Hsl). apply NoDup_write_keys. }
  { apply (so_forward _ _ _ Hso). }
  { by apply executing_ok. }
  { cbn. by rewrite (sl_length _ _ _ Hsl). }
  unfold acquired_all, AggregateAcquiredKeys. rewrite Hg. cbn [mbind option_bind]. intros [= <-].
  destruct (ag_expired g || failed) eqn:Hex.
  - apply (step_abort y t c); try done; [by right|by apply Hnd| | |exact (acquired_held c failed g Hso Hsl Hph Hag)].
    { by eapply sets_ok_same, (acquired_sets_ok c failed g). }
    intros x e Hf. by eapply (acquired_write c failed g).
  - apply orb_false_iff in Hex as [Hex ->].
    apply (step_set_ts y t c); try done; [by right|by eapply (acquired_sets_ok c false g)|by eapply (acquired_held c false g)|..].
    + intros x e Hf. by eapply (acquired_write c false g).
    + intros a x lv cts Hl. by eapply (acquired_results c false g).
    + intros x v Hin H0. destruct (Hans x v Hin H0) as (a & Ha & Hl). pose proof Hl as Hrl. unfold reads_left in Hl.
      rewrite Hph in Hl. apply elem_reads_at in Hl as (tbl & r & Hm & Hr & ->).
      destruct (gh_lock c !! a) as [[[x' lv] cts]|] eqn:Hlk.
      * right. assert (x = x') as <-.
        { eapply lock_read_key; [by eapply si_ok|by eapply si_sh|done..|]. destruct Hnd as [_ ->]. set_solver. }
        exists a, lv. cbn. rewrite Hlk. by erewrite (acquired_upgrade c false g).
      * left. exists a. split; [done|]. cbn. apply elem_reads_at. exists tbl, r. split_and!; [done| |done].
        by apply (acquired_read c false g).
Qed.

(** *** Validation, logging and the end *)

Lemma step_ts_set y t c :
  sys_inv y → txms y !! t = Some c → phase c = SettingTs →
  sys_inv (mkSys (shards y) (<[t := after_set_ts use_log c]> (txms y))).
Proof.
  intros Hinv Ht Hph. destruct (si_tx _ _ _ _ _ Hinv _ _ Ht) as (Hso & Hpo & Hdf). unfold phase_ok in Hpo.
  rewrite Hph in Hpo. destruct Hpo as (Hst0 & Hnd & Htf & Hap & Hans).
  assert (reads_left c = data_read_list (rw_set_ c)) as Hrl by (unfold reads_left; by rewrite Hph).
  unfold after_set_ts. case_decide as Hds.
  - eapply step_same; try done; [by right|by right|by apply Hnd| |].
    + unfold reads_left at 1. cbn. rewrite Hrl. eauto.
    + split; [by apply (sets_ok_same c)|]. split; [|left; by apply Hnd]. cbn.
      split_and!; [done|by apply Hnd|by apply (ts_fixed_same c)| |].
      * unfold reads_apart in *. by rewrite Hrl in Hap.
      * intros _ x v Hin H0. destruct (Hans x v Hin H0) as [(a & Ha & Hl)|Hup]; [left|by right; right].
        exists a. by rewrite Hrl in Hl.
  - assert (data_read_list (rw_set_ c) = []) as Hnil by (eapply no_data_reads; [apply Hso..|done]).
    apply (step_log_or_commit y t c c); try done; [by apply Hnd|].
    intros x v Hin H0. destruct (Hans x v Hin H0) as [(a & Ha & Hl)|]; [|by right]. rewrite Hrl, Hnil in Hl. set_solver.
Qed.

Lemma step_ts_error y t c :
  sys_inv y → txms y !! t = Some c → phase c = SettingTs → sys_inv (mkSys (shards y) (<[t := Abort c]> (txms y))).
Proof.
  intros Hinv Ht Hph. destruct (si_tx _ _ _ _ _ Hinv _ _ Ht) as (Hso & Hpo & Hdf). unfold phase_ok in Hpo.
  rewrite Hph in Hpo. destruct Hpo as (Hst0 & [_ Hnd] & Htf & [Hn Hap] & Hans).
  assert (reads_left c = data_read_list (rw_set_ c)) as Hrl by (unfold reads_left; by rewrite Hph).
  apply (step_abort y t c c); try done; [by right| |].
  - intros x e Hf. right. by apply (tf_write _ Htf).
  - rewrite Hrl in Hn, Hap. split; [done|]. rewrite Hrl. intros a v Hin. split; [done|by eapply Hap].
Qed.

Lemma clear_sets_ok c : sets_ok c → sets_ok (set_rw c (ClearReadSet (rw_set_ c))).
Proof.
  destruct (ClearReadSet_reads (rw_set_ c)) as (Hr & Hn & Hw & Hc). intros [H1 H2 H4 H5 H6]. split; cbn.
  - by apply ClearReadSet_ok.
  - rewrite Hn. done.
  - by rewrite Hc.
  - intros tbl a r Hr'%Hr. by eapply H5.
  - intros x e. unfold FindWrite. rewrite Hw. apply H6.
Qed.

Lemma step_validated y t c failed :
  sys_inv y → txms y !! t = Some c → phase c = Validating [] failed →
  sys_inv (mkSys (shards y) (<[t := after_validate use_log c failed]> (txms y))).
Proof.
  intros Hinv Ht Hph. destruct (si_tx _ _ _ _ _ Hinv _ _ Ht) as (Hso & Hpo & Hdf). unfold phase_ok in Hpo.
  rewrite Hph in Hpo. destruct Hpo as (Hst0 & Hnd & Htf & Hap & Hans).
  pose proof (clear_sets_ok c Hso) as Hso1. destruct (ClearReadSet_reads (rw_set_ c)) as (_ & Hnil & Hw & _).
  set (c1 := set_rw c (ClearReadSet (rw_set_ c))) in *.
  assert (ts_fixed c1) as Htf1 by (by apply (ts_fixed_same c)).
  unfold after_validate. fold c1. destruct failed.
  - apply (step_abort y t c c1); try done; [by right| |].
    + intros x e Hf. right. by apply (tf_write _ Htf1).
    + split; cbn; rewrite Hnil; [constructor|set_solver].
  - apply (step_log_or_commit y t c c1); try done. intros x v Hin H0.
    destruct (Hans eq_refl x v Hin H0) as [(a & Ha & Hl)|[|]]; [|by left|by right].
    unfold reads_left in Hl. rewrite Hph in Hl. set_solver.
Qed.

Lemma step_log y t c c' :
  sys_inv y → txms y !! t = Some c → phase c = Logging →
  c' = finish_commit c ∨ c' = Abort c ∨
  c' = set_fate c Txn_Unknown (PostProcessing (post_requests Txn_Unknown 0 (rw_set_ c))) →
  sys_inv (mkSys (shards y) (<[t := c']> (txms y))).
Proof.
  intros Hinv Ht Hph. destruct (si_tx _ _ _ _ _ Hinv _ _ Ht) as (Hso & Hpo & Hdf). unfold phase_ok in Hpo.
  rewrite Hph in Hpo. destruct Hpo as (Hst0 & Hnd & Htf & Hnil & Hans). intros [->|[->| ->]].
  - by apply (step_commit_all y t c c).
  - apply (step_abort y t c c); try done; [by right| |].
    + intros x e Hf. right. by apply (tf_write _ Htf).
    + split; rewrite Hnil; [constructor|set_solver].
  - cbn. unfold release_reads. rewrite Hnil. cbn. apply (step_fate y t c c); try done; [by right| | |set_solver].
    + split; [by right; right|done].
    + split; [constructor|set_solver..].
Qed.

Lemma step_done y t c :
  sys_inv y → txms y !! t = Some c → phase c = PostProcessing [] →
  sys_inv (mkSys (shards y) (<[t := set_phase c TxDone]> (txms y))).
Proof.
  intros Hinv Ht Hph. destruct (si_tx _ _ _ _ _ Hinv _ _ Ht) as (Hso & Hpo & Hdf). unfold phase_ok in Hpo.
  rewrite Hph in Hpo. destruct Hpo as (Hfate & _).
  assert (evolves c (set_phase c TxDone)) as Hev by (split; cbn; auto).
  eapply sys_inv_local; try done.
  - split; [by apply (sets_ok_same c)|]. split; [|done]. by apply (fate_same c).
  - eapply (tx_sh_local _ t c); try done; [by right|unfold reads_left; cbn; set_solver|by eapply si_sh].
Qed.

(** *** All steps *)

Lemma sys_step_inv y y' :
  sys_inv y → sys_step key_len rec_len shard_of term use_log y y' → sys_inv y'.
Proof.
  intros Hinv Hstep. destruct Hstep as [y t ts Ht|y t sid s c s' c' Hs Ht Hst|y t c c' Ht Hst|y sid s s' Hs Hst|y sid s s' u Hs Hu Hst].
  - by apply step_begin.
  - destruct Hst.
    + by eapply step_read.
    + by eapply step_acquire.
    + by eapply step_acquire_error.
    + subst. by eapply step_validate.
    + subst. by eapply step_post_write.
    + subst. by eapply step_post_read.
  - destruct Hst.
    + by eapply step_write.
    + by apply step_commit.
    + by apply step_rollback.
    + by eapply step_acquired.
    + by apply step_ts_set.
    + by apply step_ts_error.
    + by apply step_validated.
    + eapply step_log; eauto.
    + eapply step_log; eauto.
    + eapply step_log; eauto.
    + by apply step_done.
  - eapply step_shard; try done. by intros κ (? & ? & ? & ? & _).
  - eapply step_shard; try done; [by intros κ (? & ? & ? & ? & _)|]. cbn. intros; congruence.
Qed.

Lemma sys_reachable_inv y : sys_reachable key_len rec_len shard_of term use_log y → sys_inv y.
Proof.
  intros (y0 & [Htx Hsh] & Hrun).
  assert (sys_inv y0) as H0.
  { split; [intros; by eapply Hsh|rewrite Htx; set_solver..| |rewrite Htx; set_solver].
    intros sid s Hs κ Hkn. left. by eapply Hsh. }
  clear Htx Hsh. induction Hrun as [|y1 y2 y3 Hstep _ IH]; [done|]. apply IH. by eapply sys_step_inv.
Qed.
End preservation.

(** ** The order *)

Section order.
Context {K R : Type} `{Countable K}.
Context (key_len : K → Z) (rec_len : R → Z).
Implicit Types (c d : Txm K R) (x : TableName * K).

Lemma committed_fate c : tx_ok key_len rec_len c → tx_status_ c = Committed → fate_ok c.
Proof.
  intros (_ & Hp & _) Hc. unfold phase_ok in Hp. destruct (phase c); try tauto; destruct Hp as [Hs _]; congruence.
Qed.

(** The lock of a committed write. *)
Lemma wrote_lock c x : tx_ok key_len rec_len c → wrote c x →
  ∃ a lv cts, gh_lock c !! a = Some (x, lv, cts) ∧ (lv < tx_commit_ts_ c ∧ 0 < cts < tx_commit_ts_ c)%Z.
Proof.
  intros Hok [Hc [e He]]. destruct (committed_fate c Hok Hc) as [_ Hf]. destruct (Hf Hc) as [[Htl Htw _] _].
  destruct (Htw x e He) as (lv & cts & Hl). exists (cce_addr_ e), lv, cts. split; [done|]. by eapply Htl.
Qed.

(** A write of [d] against a version [cts] that [c] locked. *)
Lemma write_pair_order c d x a lv cts :
  tx_ok key_len rec_len c → tx_ok key_len rec_len d → pairs c d → tx_status_ c = Committed →
  gh_lock c !! a = Some (x, lv, cts) → wrote d x →
  (tx_commit_ts_ d <= cts ∨ tx_commit_ts_ c < tx_commit_ts_ d)%Z.
Proof.
  intros Hc Hd (_ & _ & Hp) Hs Hl Hw. destruct (wrote_lock d x Hd Hw) as (b & lv' & cts' & Hb & Hlt). destruct Hw as [Hsd _].
  destruct (Hp x a lv cts b lv' cts' Hl Hb) as [(_ & _ & ?)|[(_ & _ & ?)|[|]]]; [by left|right; lia|congruence..].
Qed.

Lemma answer_order c d x v :
  tx_ok key_len rec_len c → tx_ok key_len rec_len d → pairs c d → tx_status_ c = Committed →
  (x, v) ∈ gh_answers c → (0 < v)%Z → wrote d x →
  (tx_commit_ts_ d <= v ∨ tx_commit_ts_ c < tx_commit_ts_ d)%Z.
Proof.
  intros Hc Hd Hp Hs Hin H0 Hw. destruct (committed_fate c Hc Hs) as [_ Hf]. destruct (Hf Hs) as [_ Hans].
  destruct (Hans x v Hin H0) as [Hv|(a & lv & Hl)]; [|by eapply write_pair_order].
  destruct (wrote_lock d x Hd Hw) as (b & lv' & cts' & Hb & Hlt). destruct Hw as [Hsd _], Hp as (Hp & _).
  destruct (Hp x v b lv' cts' Hv Hb) as [(_ & _ & ?)|[|]]; [by left|right; lia|congruence].
Qed.
End order.

(** Reads are current at the commit timestamp.  A version that a committed
    transaction was answered lies below its commit timestamp, and no other
    committed transaction wrote the key in between: each wrote it at or below the
    version read, or after the reader's commit timestamp. *)
Lemma reads_current {K R S} `{Countable K, !CcStore K S, !CcStoreLaws K S}
    (key_len : K → Z) (rec_len : R → Z) shard_of term use_log (y : Sys K R S) t c x v :
  (∀ k, 0 <= key_len k)%Z → (∀ r, 0 <= rec_len r)%Z → (∀ sid, 0 <= term sid)%Z →
  sys_reachable key_len rec_len shard_of term use_log y →
  txms y !! t = Some c → tx_status_ c = Committed → (x, v) ∈ gh_answers c → (0 < v)%Z →
  (v < tx_commit_ts_ c)%Z ∧
  ∀ u d, u ≠ t → txms y !! u = Some d → wrote d x → (tx_commit_ts_ d <= v ∨ tx_commit_ts_ c < tx_commit_ts_ d)%Z.
Proof.
  intros Hk Hr Ht Hy Hc Hs Hin H0. apply sys_reachable_inv in Hy as Hinv; [|done..].
  pose proof (si_tx _ _ _ _ _ Hinv _ _ Hc) as Hok. split.
  - destruct (committed_fate _ _ c Hok Hs) as [_ Hf]. destruct (Hf Hs) as [[_ _ Ha] _]. by eapply Ha.
  - intros u d Hne Hd Hw. eapply answer_order; try done; [by eapply si_tx|].
    eapply (si_pairs _ _ _ _ _ Hinv t u); auto.
Qed.

(** Writes of a key are ordered by the commit timestamps: two committed
    transactions that wrote the same key have different ones, and no committed
    write falls between the version a transaction locked and its own. *)
Lemma writes_ordered {K R S} `{Countable K, !CcStore K S, !CcStoreLaws K S}
    (key_len : K → Z) (rec_len : R → Z) shard_of term use_log (y : Sys K R S) t u c d x :
  (∀ k, 0 <= key_len k)%Z → (∀ r, 0 <= rec_len r)%Z → (∀ sid, 0 <= term sid)%Z →
  sys_reachable key_len rec_len shard_of term use_log y →
  t ≠ u → txms y !! t = Some c → txms y !! u = Some d → wrote c x → wrote d x →
  tx_commit_ts_ c ≠ tx_commit_ts_ d ∧
  ∃ a lv cts, gh_lock c !! a = Some (x, lv, cts) ∧ (lv < tx_commit_ts_ c ∧ cts < tx_commit_ts_ c)%Z ∧
    (tx_commit_ts_ d <= cts ∨ tx_commit_ts_ c < tx_commit_ts_ d)%Z.
Proof.
  intros Hk Hr Ht Hy Hne Hc Hd Hwc Hwd. apply sys_reachable_inv in Hy as Hinv; [|done..].
  pose proof (si_tx _ _ _ _ _ Hinv _ _ Hc) as Hokc. pose proof (si_tx _ _ _ _ _ Hinv _ _ Hd) as Hokd.
  destruct (wrote_lock _ _ c x Hokc Hwc) as (a & lv & cts & Hl & Hlt).
  assert (tx_commit_ts_ d <= cts ∨ tx_commit_ts_ c < tx_commit_ts_ d)%Z as Hor.
  { eapply write_pair_order; try done; [by eapply (si_pairs _ _ _ _ _ Hinv t u)|apply Hwc]. }
  split; [lia|]. exists a, lv, cts. split_and!; [done|lia|lia|done].
Qed.

(** Only committed data is read: a version a transaction was answered is not newer
    than the data store, or it is the commit timestamp of a committed transaction
    that wrote the key. *)
Lemma reads_committed {K R S} `{Countable K, !CcStore K S, !CcStoreLaws K S}
    (key_len : K → Z) (rec_len : R → Z) shard_of term use_log (y : Sys K R S) t c x v :
  (∀ k, 0 <= key_len k)%Z → (∀ r, 0 <= rec_len r)%Z → (∀ sid, 0 <= term sid)%Z →
  sys_reachable key_len rec_len shard_of term use_log y →
  txms y !! t = Some c → (x, v) ∈ gh_answers c → (0 < v)%Z →
  (v <= st_bound)%Z ∨ ∃ u d, txms y !! u = Some d ∧ wrote d x ∧ tx_commit_ts_ d = v.
Proof.
  intros Hk Hr Ht Hy Hc Hin H0. apply sys_reachable_inv in Hy as Hinv; [|done..].
  by apply (si_answer _ _ _ _ _ Hinv t c Hc x v).
Qed.
