(* ===== verification/CcMapStore.v ===== *)
(** * The cc maps implement the interface of the commit protocol

    The handlers of [CcMap], as events of a shard, satisfy the laws of
    [CcStoreLaws]; the theorems of [CommitOrder] therefore hold of runs in which the
    shards execute the handlers.

    A shard starts with entries the data store knows, none newer than [bound], which
    the clock of the shard has passed.  The key cache is disabled and uploads, which
    belong to the migration of buckets, do not occur; timestamps fit in 56 bits.  A
    transaction has at most one request waiting for a key. *)

From S2P Require Import Prelude CcProtocol Queue CircularQueue NonBlockingLock CcEntry TxCommand.
From S2P Require Import DeadLockCheck KeyLock LockArray ShardLocks LockModes TableName ReadWriteSet CcMap.
From S2P Require Import CcStore TxCommit CommitProtocol CommitOrder.

(** ** Entries *)

Section entries.
Context {V : Type} (bound : Z).
Implicit Types (e : CcEntry V) (o : option (CcEntry V)).

Definition known e : bool := negb (bool_decide (PayloadStatus e = Unknown)).

(** A value that is not known has timestamp 0. *)
Definition entry_ok e : Prop := if known e then (1 <= CommitTs e)%Z else CommitTs e = 0%Z.

Definition known_of o : bool := from_option known false o.
Definition ver_of o : Z := from_option CommitTs 0%Z o.

(** The versions an entry may take: the current one, one of the data store when it
    was not known, or any when [inst]. *)
Definition entry_next (inst : Prop) o o' : Prop :=
  (known_of o = true → known_of o' = true ∧ (ver_of o' = ver_of o ∨ inst)) ∧
  (known_of o = false → known_of o' = true → (ver_of o' <= bound)%Z ∨ inst).

#[export] Instance entry_next_preorder inst : PreOrder (entry_next inst).
Proof.
  split.
  - intros o. split; [by auto|congruence].
  - intros o1 o2 o3 [H1 H2] [H3 H4]. split.
    + intros Hk. destruct (H1 Hk) as [Hk2 Hv]. destruct (H3 Hk2) as [Hk3 Hv3]. split; [done|].
      destruct Hv as [Hv|]; [|by right]. destruct Hv3 as [Hv3|]; [left; congruence|by right].
    + intros Hk Hk3. destruct (known_of o2) eqn:Hk2; [|by apply H4]. destruct (H3 eq_refl) as [_ [Hv|]]; [|by right].
      rewrite Hv. by apply H2.
Qed.

(** An entry that was not known gets a value of the data store. *)
Lemma set_unknown versioned skip_kv e ts status :
  entry_ok e → known e = false → is_ts ts → (1 <= ts <= bound)%Z → status = Normal ∨ status = Deleted →
  let e' := SetCommitTsPayloadStatus versioned skip_kv e ts status in
  known e' = true ∧ CommitTs e' = ts.
Proof.
  intros Hok Hk Hts Hb Hs. cbn. unfold entry_ok in Hok. rewrite Hk in Hok.
  pose proof (SetCommitTs_CommitTs versioned skip_kv e ts status Hts) as Hc.
  destruct (SetCommitTs_newer versioned skip_kv e ts status Hts) as [Hp _]; [lia|].
  split; [|lia]. unfold known. rewrite Hp. by destruct Hs as [->| ->].
Qed.

Lemma SetCkptTs_word versioned e ts :
  CommitTs (SetCkptTs versioned e ts) = CommitTs e ∧ known (SetCkptTs versioned e ts) = known e.
Proof.
  unfold SetCkptTs, known. destruct versioned; [by case_decide|]. case_decide; [|done].
  by rewrite set_flag_ts, set_flag_status by auto.
Qed.
End entries.

(** ** The invariant of a shard and its changes *)

Section maps.
Context {K V C O : Type} `{Countable K} (bound : Z).
Abbreviation maps := (ShardMaps K V C O).
Implicit Types (m : maps) (s : CcShard C O) (e : CcEntry V) (x : TableName * K) (κ t : Z).

Record ccmaps_ok m : Prop := {
  mo_locks : locks_ok (ccm_shard m);
  mo_inj : ∀ x x' κ pg pg', ccm_index m !! x = Some (κ, pg) → ccm_index m !! x' = Some (κ, pg') → x = x';
  mo_index : ∀ x κ pg, ccm_index m !! x = Some (κ, pg) → is_Some (cce_heap m !! κ);
  mo_entry : ∀ κ e, cce_heap m !! κ = Some e → entry_ok e;
  mo_clock : (bound <= Now (ccm_shard m))%Z;
}.

(** [t] keeps its lock on [κ]. *)
Definition keeps_at t κ s s' : Prop :=
  lock_rank (mode s κ t) ≤ lock_rank (mode s' κ t) ∧
  (mode s κ t ≠ NoLock → cc_lock_and_extra_ s' !! κ = cc_lock_and_extra_ s !! κ).

Lemma keeps_at_all t κ s s' : keeps t s s' → keeps_at t κ s s'.
Proof. intros [H1 H2]. split; auto. Qed.

Lemma keeps_at_trans t κ s1 s2 s3 : keeps_at t κ s1 s2 → keeps_at t κ s2 s3 → keeps_at t κ s1 s3.
Proof.
  intros [H1 H2] [H3 H4]. split; [lia|]. intros Hm. rewrite H4; [by apply H2|]. by eapply rank_held.
Qed.

(** From [m] to [m']: [lost t κ] where [t] may lose its lock, [inst κ] where the
    version may change. *)
Record maps_step (lost : Z → Z → Prop) (inst : Z → Prop) m m' : Prop := {
  mp_ok : ccmaps_ok m';
  mp_last : (last_read_ts_ m <= last_read_ts_ m')%Z;
  mp_index : ccm_index m ⊆ ccm_index m';
  mp_entry : ∀ κ, entry_next bound (inst κ) (cce_heap m !! κ) (cce_heap m' !! κ);
  mp_lock : ∀ t κ, ¬ lost t κ → keeps_at t κ (ccm_shard m) (ccm_shard m');
}.

Definition quiet := maps_step (λ _ _, False) (λ _, False).

Lemma maps_step_trans lost inst m1 m2 m3 :
  maps_step lost inst m1 m2 → maps_step lost inst m2 m3 → maps_step lost inst m1 m3.
Proof.
  intros [_ H2 H3 H4 H5] [G1 G2 G3 G4 G5]. split; [done|lia|by etrans| |].
  - intros κ. etrans; [apply H4|apply G4].
  - intros t κ Hl. eapply keeps_at_trans; [by apply H5|by apply G5].
Qed.

Lemma maps_step_weaken (lost lost' : Z → Z → Prop) (inst inst' : Z → Prop) m m' :
  (∀ t κ, lost t κ → lost' t κ) → (∀ κ, inst κ → inst' κ) → maps_step lost inst m m' → maps_step lost' inst' m m'.
Proof.
  intros Hl Hi [H1 H2 H3 H4 H5]. split; [done|done|done| |].
  - intros κ. destruct (H4 κ) as [G1 G2]. split; naive_solver.
  - intros t κ Hn. apply H5. naive_solver.
Qed.

Lemma quiet_step lost inst m m' : quiet m m' → maps_step lost inst m m'.
Proof. apply maps_step_weaken; done. Qed.

Lemma maps_step_refl lost inst m : ccmaps_ok m → maps_step lost inst m m.
Proof. intros Hok. split; [done|done|done|intros; reflexivity|]. intros t κ _. by split. Qed.

(** Only the locks change. *)
Lemma maps_set_shard lost inst m s' :
  ccmaps_ok m → locks_ok s' → ts_base_ s' = ts_base_ (ccm_shard m) →
  (∀ t κ, ¬ lost t κ → keeps_at t κ (ccm_shard m) s') → maps_step lost inst m (set_shard m s').
Proof.
  intros [H1 H2 H3 H4 H5] Hl Hn Hk. split; cbn; [|done|done|intros; reflexivity|done].
  split; cbn; [done|done|done|done|]. unfold Now. by rewrite Hn.
Qed.

(** Only one entry changes. *)
Lemma maps_set_entry lost inst m κ e e' :
  ccmaps_ok m → cce_heap m !! κ = Some e → entry_ok e' → entry_next bound (inst κ) (Some e) (Some e') →
  maps_step lost inst m (set_entry m κ e').
Proof.
  intros [H1 H2 H3 H4 H5] Hκ He' Hn. split; cbn; [|done|done| |by intros t κ' _; split].
  - split; cbn; [done|done| | |done].
    + intros x κ' pg Hx. destruct (decide (κ' = κ)) as [->|]; [rewrite lookup_insert_eq; by eexists|].
      rewrite lookup_insert_ne by done. by eapply H3.
    + intros κ' e0 [[<- <-]|[Hne Hl]]%lookup_insert_Some; [done|by eapply H4].
  - intros κ'. destruct (decide (κ' = κ)) as [->|]; [by rewrite Hκ, lookup_insert_eq|].
    by rewrite lookup_insert_ne.
Qed.

(** Bookkeeping that the protocol does not see. *)
Lemma maps_same m m' :
  ccmaps_ok m → ccm_index m' = ccm_index m → cce_heap m' = cce_heap m →
  cc_lock_and_extra_ (ccm_shard m') = cc_lock_and_extra_ (ccm_shard m) →
  lock_array (ccm_shard m') = lock_array (ccm_shard m) → (Now (ccm_shard m) <= Now (ccm_shard m'))%Z →
  (last_read_ts_ m <= last_read_ts_ m')%Z → quiet m m'.
Proof.
  intros [H1 H2 H3 H4 H5] Hi Hh Hm Ha Hn Hr. split; [|done|by rewrite Hi|intros; rewrite Hh; reflexivity|].
  - split; rewrite ?Hi, ?Hh; try done; [|lia]. unfold locks_ok. by rewrite Hm, Ha.
  - intros t κ _. apply keeps_at_all, keeps_locks; done.
Qed.
End maps.

Section handlers.
Context {K V C O : Type} `{Countable K} (bound : Z) (env : CcEnv) (pick_page : TableName → K → Z) (new_record : V).
Context (Hbound : (1 <= bound)%Z).
Context (alloc_fresh : ∀ X, alloc env X ∉ X) (cce_fresh : ∀ X, cce_alloc env X ∉ X).
Abbreviation maps := (ShardMaps K V C O).
Abbreviation ccmaps_ok := (ccmaps_ok (K:=K) (V:=V) (C:=C) (O:=O) bound).
Abbreviation maps_step := (maps_step (K:=K) (V:=V) (C:=C) (O:=O) bound).
Abbreviation quiet := (quiet (K:=K) (V:=V) (C:=C) (O:=O) bound).
Implicit Types (m : maps) (s : CcShard C O) (e : CcEntry V) (x : TableName * K) (κ t : Z) (req : CcRequestBase).

Lemma new_entry_ok : entry_ok (CcEntry_new (V:=V)) ∧ known (CcEntry_new (V:=V)) = false.
Proof. done. Qed.

Lemma release_locks_ok s κ t ng ty rc : locks_ok s → locks_ok (ReleaseCceLock s κ t ng ty rc).
Proof. rewrite !locks_ok_shard. apply ReleaseCceLock_ok. Qed.

(** The transaction has no request waiting for the key. *)
Definition free_for m x req : Prop :=
  ∀ κ, (cce_heap m !! κ = None ∨ ∃ pg, ccm_index m !! x = Some (κ, pg)) → not_waiting (ccm_shard m) κ req.

Lemma FindEmplace_step m tbl key full cce page m1 :
  ccmaps_ok m → FindEmplace env pick_page m tbl key full = Some (cce, page, m1) →
  quiet m m1 ∧ ccm_index m1 !! (tbl, key) = Some (cce, page) ∧ is_Some (cce_heap m1 !! cce) ∧
  ccm_shard m1 = ccm_shard m ∧ last_read_ts_ m1 = last_read_ts_ m ∧
  (∀ req, free_for m (tbl, key) req → not_waiting (ccm_shard m) cce req) ∧
  known_of (cce_heap m1 !! cce) = known_of (cce_heap m !! cce) ∧
  ver_of (cce_heap m1 !! cce) = ver_of (cce_heap m !! cce).
Proof.
  intros Hok. pose proof Hok as [H1 H2 H3 H4 H5]. unfold FindEmplace.
  destruct (ccm_index m !! (tbl, key)) as [[κ pg]|] eqn:Hi.
  { intros [= <- <- <-]. split_and!; [by apply maps_step_refl|done|by eapply H3|done|done| |done|done].
    intros req Hf. apply Hf. right. eauto. }
  destruct full; [done|]. set (κ := cce_alloc env _). intros [= <- <- <-]. cbn.
  assert (cce_heap m !! κ = None) as Hnew.
  { apply not_elem_of_dom. apply cce_fresh. }
  assert (∀ x pg, ccm_index m !! x ≠ Some (κ, pg)) as Hni.
  { intros x pg Hx. destruct (H3 _ _ _ Hx) as [? Hx']. congruence. }
  split_and!; [| | |done|done| | |].
  - split; cbn; [|done|by apply insert_subseteq| |by intros t κ' _; split].
    + split; cbn; [done| | | |done].
      * intros x x' κ' pg pg' Hx Hx'. apply lookup_insert_Some in Hx as [[<- Heq]|[Hn1 Hx]];
          apply lookup_insert_Some in Hx' as [[<- Heq']|[Hn2 Hx']]; simplify_eq.
        -- done.
        -- by destruct (Hni _ _ Hx').
        -- by destruct (Hni _ _ Hx).
        -- by eapply H2.
      * intros x κ' pg [[<- [= <- <-]]|[Hn1 Hx]]%lookup_insert_Some; [rewrite lookup_insert_eq; by eexists|].
        destruct (decide (κ' = κ)) as [->|]; [rewrite lookup_insert_eq; by eexists|].
        rewrite lookup_insert_ne by done. by eapply H3.
      * intros κ' e [[<- <-]|[Hn1 He]]%lookup_insert_Some; [apply new_entry_ok|by eapply H4].
    + intros κ'. destruct (decide (κ' = κ)) as [->|]; [|by rewrite lookup_insert_ne].
      rewrite Hnew, lookup_insert_eq. by split.
  - by rewrite lookup_insert_eq.
  - rewrite lookup_insert_eq. by eexists.
  - intros req Hf. apply Hf. by left.
  - by rewrite Hnew, lookup_insert_eq.
  - by rewrite Hnew, lookup_insert_eq.
Qed.

(** *** [AcquireCc] *)

(** The version a write lock is granted on. *)
Definition lock_version (o : option (CcEntry V)) (now : Z) : Z := if decide (0 < ver_of o)%Z then ver_of o else now.

Record acquire_done m (r' : AcquireCc K) cce m' : Prop := {
  ad_cce : aq_cce r' = Some cce;
  ad_addr : is_Some (cc_lock_and_extra_ (ccm_shard m') !! cce) →
    cc_lock_and_extra_ (ccm_shard m') !! cce = Some (cce_lock_ptr_ (ar_cce_addr_ (aq_result r')));
  ad_vali : (last_read_ts_ m <= ar_last_vali_ts_ (aq_result r'))%Z;
  ad_version : ar_commit_ts_ (aq_result r') = lock_version (cce_heap m !! cce) (Now (ccm_shard m));
}.

Lemma wlock_ts_step m cce k ts :
  ccmaps_ok m → GetKeyLock (ccm_shard m) cce = Some k →
  let s' := put_lock (ccm_shard m) cce (set_key_lock k (SetWLockTs (key_lock_ k) ts)) in
  quiet m (set_shard m s') ∧ ∀ κ t, mode s' κ t = mode (ccm_shard m) κ t.
Proof.
  intros Hok Hk s'. pose proof (mo_locks _ _ Hok) as Hl. pose proof (GetKeyLock_orderly _ _ _ Hl Hk) as Ho.
  destruct (put_lock_frame (ccm_shard m) cce (set_key_lock k (SetWLockTs (key_lock_ k) ts))) as (_ & _ & Hn).
  assert (∀ κ t, mode s' κ t = mode (ccm_shard m) κ t) as Hm.
  { intros κ t. transitivity (mode (put_key_lock (ccm_shard m) cce k (SetWLockTs (key_lock_ k) ts) []) κ t); [done|].
    rewrite (put_key_lock_mode _ _ _ k) by done. destruct (decide (κ = cce)) as [->|]; [|done].
    unfold mode. by rewrite Hk. }
  split; [|done]. apply maps_set_shard; [done| |done|].
  - eapply put_lock_ok; [done|done|done|done|]. by apply orderly_wlock_ts.
  - intros t κ _. split; [by rewrite Hm|]. intros _. unfold s', put_lock.
    by destruct (cc_lock_and_extra_ (ccm_shard m) !! cce).
Qed.

Lemma acquire_locked_step m (r : AcquireCc K) cce ng_term kk err o r' m' :
  ccmaps_ok m → acquire_locked env m r cce ng_term kk None err = Some (o, r', m') →
  quiet m m' ∧ ccm_index m' = ccm_index m ∧
  (o = Finished → err = NO_ERROR ∧ acquire_done m r' cce m' ∧
    ∀ κ t, mode (ccm_shard m') κ t = mode (ccm_shard m) κ t).
Proof.
  intros Hok. unfold acquire_locked. destruct (decide (err = NO_ERROR)) as [->|Herr].
  - destruct (cce_heap m !! cce) as [e|] eqn:He; cbn [mbind option_bind]; [|done].
    destruct (GetKeyLock (ccm_shard m) cce) as [k|] eqn:Hk; cbn [mbind option_bind]; [|done].
    intros [= <- <- <-]. set (ts := Z.max (aq_ts r) (Now (ccm_shard m))).
    destruct (wlock_ts_step m cce k ts Hok Hk) as [Hq Hm]. split; [done|]. split; [done|].
    intros _. split; [done|]. split; [|done]. split; cbn; [done| |lia|].
    + unfold put_lock. destruct (cc_lock_and_extra_ (ccm_shard m) !! cce) eqn:E; cbn; rewrite ?E; [done|]. by intros [].
    + unfold lock_version. by rewrite He.
  - case_decide; intros [= <- <- <-]; (split; [by apply maps_step_refl|]); (split; [done|done]).
Qed.

(** What the coordinator is told. *)
Definition acquire_answer m (t : Z) x (r' : AcquireCc K) cce m' : Prop :=
  acquire_done m r' cce m' ∧ (∃ pg, ccm_index m' !! x = Some (cce, pg)) ∧ mode (ccm_shard m') cce t = WriteLock.

Lemma rank_write (ty : LockType) : lock_rank WriteLock ≤ lock_rank ty → ty = WriteLock.
Proof. destruct ty; cbn; first [done|lia]. Qed.

Lemma acquire_first_step m (r : AcquireCc K) full o r' m' :
  ccmaps_ok m → aq_cce r = None → free_for m (aq_table r, aq_key r) (aq_req r) →
  Execute_AcquireCc env pick_page m r full None = Some (o, r', m') →
  quiet m m' ∧
  (o = Finished → ∃ cce, acquire_answer m (Txn (aq_req r)) (aq_table r, aq_key r) r' cce m').
Proof.
  intros Hok Hcce Hfree. unfold Execute_AcquireCc. rewrite Hcce.
  case_decide; [intros [= <- <- <-]; split; [by apply maps_step_refl|done]|].
  destruct (schema_mismatch m (aq_table r) (aq_schema_version r));
    [intros [= <- <- <-]; split; [by apply maps_step_refl|done]|].
  destruct (FindEmplace env pick_page m (aq_table r) (aq_key r) full) as [[[cce page] m1]|] eqn:Hf.
  2:{ intros [= <- <- <-]. split; [|done]. by apply maps_same. }
  destruct (FindEmplace_step m _ _ _ _ _ _ Hok Hf) as (Hq1 & Hidx & [e He] & Hs1 & Hl1 & Hnw & Hkn & Hver).
  pose proof (mp_ok _ _ _ _ _ Hq1) as Hok1. rewrite He. cbn [mbind option_bind].
  destruct (AcquireCceKeyLock_ok (alloc env) (leader_term env) (λ _ _, True) alloc_fresh (ccm_shard m1) cce (CommitTs e)
    page (PayloadStatus e) (aq_req r) (aq_ng r) (leader_term env (aq_ng r)) (aq_tx_term r)
    (DeduceLockType Write (aq_iso r) (aq_proto r) false) Write (aq_iso r) (aq_proto r) 0
    (from_option ccm_addr 0%Z (ccm_info m !! aq_table r)) (tn_type (aq_table r))) as ([ty err] & s & Ha & Hs).
  { apply locks_ok_shard, (mo_locks _ _ Hok1). }
  { rewrite Hs1. by apply Hnw. }
  { intros k. unfold must_wait_write. by rewrite andb_comm. }
  rewrite Ha. cbn [mbind option_bind]. apply locks_ok_shard in Hs.
  destruct (AcquireCceKeyLock_modes (alloc env) (leader_term env) alloc_fresh _ _ _ _ _ _ _ _ _ _ _ _ _ _ _ _ _ _ _
    (mo_locks _ _ Hok1) Ha) as (_ & (Hkeep & Hnow & Hmode) & Hty).
  specialize (Hty eq_refl eq_refl). cbn in Hty. subst ty.
  assert (quiet m1 (set_shard m1 s)) as Hq2.
  { apply maps_set_shard; [done|done|done|]. intros t κ _. apply keeps_at_all, Hkeep. }
  intros Hlk. destruct (acquire_locked_step (set_shard m1 s) r cce _ _ _ _ _ _ (mp_ok _ _ _ _ _ Hq2) Hlk) as (Hq3 & Hi3 & Hfin).
  split; [eapply maps_step_trans; [exact Hq1|]; by eapply maps_step_trans|].
  intros Ho. destruct (Hfin Ho) as (-> & Hd & Hm3). exists cce. split_and!.
  - destruct Hd as [D1 D2 D3 D4]. split; [done|done| |].
    + cbn in D3. by rewrite Hl1 in D3.
    + rewrite D4. cbn. unfold lock_version, Now. by rewrite Hver, Hnow, Hs1.
  - exists page. by rewrite Hi3.
  - rewrite Hm3. apply rank_write. by apply Hmode.
Qed.

(** The request [req] that waited for [cce] is taken from the queue. *)
Definition dequeued m cce req m0 : Prop :=
  ∃ q1 q2, cc_queue_ (ccm_shard m) = q1 ++ (cce, req) :: q2 ∧
    m0 = set_shard m (set_cc_queue (ccm_shard m) (q1 ++ q2)).

Lemma dequeued_step m cce req m0 :
  ccmaps_ok m → dequeued m cce req m0 →
  quiet m m0 ∧ ccm_index m0 = ccm_index m ∧ cce_heap m0 = cce_heap m ∧ last_read_ts_ m0 = last_read_ts_ m ∧
  Now (ccm_shard m0) = Now (ccm_shard m) ∧ ∀ κ t, mode (ccm_shard m0) κ t = mode (ccm_shard m) κ t.
Proof. intros Hok (q1 & q2 & _ & ->). split_and!; try done. by apply maps_same. Qed.

Lemma upsert_step m t term cce w ng tbl :
  ccmaps_ok m → let s' := UpsertLockHoldingTx (ccm_shard m) t term cce w ng tbl in
  quiet m (set_shard m s') ∧ ∀ κ u, mode s' κ u = mode (ccm_shard m) κ u.
Proof. intros Hok s'. split; [|done]. by apply maps_same. Qed.

Lemma acquire_resumed_step m m0 (r : AcquireCc K) cce pg full o r' m' :
  ccmaps_ok m → dequeued m cce (aq_req r) m0 → aq_cce r = Some cce → aq_blocked r = true →
  ccm_index m !! (aq_table r, aq_key r) = Some (cce, pg) → mode (ccm_shard m) cce (Txn (aq_req r)) = WriteLock →
  Execute_AcquireCc env pick_page m0 r full None = Some (o, r', m') →
  quiet m m' ∧
  (o = Finished → acquire_answer m (Txn (aq_req r)) (aq_table r, aq_key r) r' cce m').
Proof.
  intros Hok Hdq Hcce Hbl Hidx Hmode. destruct (dequeued_step m cce _ m0 Hok Hdq) as (Hq0 & Hi0 & Hh0 & Hl0 & Hn0 & Hm0).
  pose proof (mp_ok _ _ _ _ _ Hq0) as Hok0. unfold Execute_AcquireCc. rewrite Hcce, Hbl.
  case_decide; [intros [= <- <- <-]; split; [done|done]|].
  destruct (schema_mismatch m0 (aq_table r) (aq_schema_version r)); [intros [= <- <- <-]; split; [done|done]|].
  destruct (cce_heap m0 !! cce) as [e|] eqn:He; cbn [mbind option_bind]; [|done].
  unfold LockHandleForResumedRequest. destruct (GetKeyLock (ccm_shard m0) cce) as [k|] eqn:Hk; cbn [mbind option_bind]; [|done].
  change (DeduceLockType Write (aq_iso r) (aq_proto r) false) with WriteLock. cbn [bool_decide andb].
  rewrite !bool_decide_eq_false_2 by done. cbn [andb mbind option_bind].
  destruct (upsert_step m0 (Txn (aq_req r)) (aq_tx_term r) cce (bool_decide (WriteLock = WriteLock)) (aq_ng r)
    (tn_type (aq_table r)) Hok0) as [Hq1 Hm1].
  intros Hlk. destruct (acquire_locked_step _ r cce _ _ _ _ _ _ (mp_ok _ _ _ _ _ Hq1) Hlk) as (Hq2 & Hi2 & Hfin).
  split; [eapply maps_step_trans; [exact Hq0|]; by eapply maps_step_trans|].
  intros Ho. destruct (Hfin Ho) as (_ & [D1 D2 D3 D4] & Hm2). split_and!.
  - split; [done|done| |].
    + cbn in D3. by rewrite Hl0 in D3.
    + rewrite D4. cbn. rewrite Hh0. unfold Now in *. cbn. by rewrite Hn0.
  - exists pg. by rewrite Hi2, <-Hidx, <-Hi0.
  - by rewrite Hm2, Hm1, Hm0.
Qed.

(** *** [ReadCc] *)

(** What a read inside leaves and answers. *)
Record read_done m (r : ReadCc K V) cce (lock : LockType) (snap : bool) (r' : ReadCc K V) m' : Prop := {
  rdn_shard : ccm_shard m' = ccm_shard m;
  rdn_index : ccm_index m' = ccm_index m;
  rdn_heap : ∀ κ, cce_heap m' !! κ = cce_heap m !! κ;
  rdn_cce : rd_cce r' = rd_cce r;
  rdn_addr : rr_cce_addr_ (rd_result r') = rr_cce_addr_ (rd_result r);
  rdn_lock : rr_lock_type_ (rd_result r') = lock;
  rdn_ts : snap = false → rr_ts_ (rd_result r') = ver_of (cce_heap m !! cce) ∧
    (rr_rec_status_ (rd_result r') ≠ Unknown → known_of (cce_heap m !! cce) = true);
}.

Lemma MvccGet_last_read e ts lr rec : (lr <= (MvccGet e ts lr rec).2)%Z.
Proof.
  unfold MvccGet. case_decide; [cbn; lia|]. case_decide; [cbn; lia|]. destruct (mvcc_find ts _); cbn; lia.
Qed.

Lemma read_entry_step m (r : ReadCc K V) cce ng_term snap o r' m' :
  ccmaps_ok m → rd_type r = Inside → rd_iso r ≠ ReadCommitted →
  read_entry env new_record m r cce ng_term snap = Some (o, r', m') →
  quiet m m' ∧ o = Finished ∧ read_done m r cce (rr_lock_type_ (rd_result r)) snap r' m'.
Proof.
  intros Hok Hty Hiso. unfold read_entry. destruct (cce_heap m !! cce) as [e|] eqn:He; cbn [mbind option_bind]; [|done].
  rewrite decide_True by done. set (m1 := set_entry m cce e).
  assert (∀ κ, cce_heap m1 !! κ = cce_heap m !! κ) as Hheap.
  { intros κ. cbn. destruct (decide (κ = cce)) as [->|]; [by rewrite He, lookup_insert_eq|by rewrite lookup_insert_ne]. }
  assert (quiet m m1) as Hq1.
  { eapply maps_set_entry; [done|exact He|by eapply (mo_entry _ _ Hok)|reflexivity]. }
  assert (∀ lr, (last_read_ts_ m1 <= lr)%Z → quiet m (set_last_read m1 lr)) as Hq2.
  { intros lr Hle. eapply maps_step_trans; [exact Hq1|]. apply maps_same; try done. by apply Hq1. }
  destruct (snap && versioned env) eqn:Hsnap.
  - destruct (MvccGet e (rd_read_ts r) (last_read_ts_ m1) _) as [v_rec lr] eqn:Hget. intros [= <- <- <-].
    apply andb_true_iff in Hsnap as [-> _]. split; [|split; [done|by split]]. apply Hq2.
    pose proof (MvccGet_last_read e (rd_read_ts r) (last_read_ts_ m1) (mkResultRecord None Deleted 1)) as Hle.
    by rewrite Hget in Hle.
  - assert (∀ rec, read_done m r cce (rr_lock_type_ (rd_result r)) snap
      (set_read_req r (rd_cce r) (rd_blocked_by r)
        (mkReadResult rec (CommitTs e) (rr_cce_addr_ (rd_result r)) (PayloadStatus e) (rr_lock_type_ (rd_result r)))) m1) as Hdone.
    { intros rec. split; cbn; try done. intros _. rewrite He. split; [done|]. cbn. unfold known. intros Hs.
      by rewrite bool_decide_eq_false_2. }
    rewrite (bool_decide_eq_false_2 (rd_iso r = ReadCommitted)) by done. cbn [andb].
    destruct (bool_decide (PayloadStatus e = Normal) && _).
    + destruct (cur_payload_ e) as [v|]; cbn [mbind option_bind]; [|done]. intros [= <- <- <-]. done.
    + intros [= <- <- <-]. done.
Qed.

Lemma read_locked_step m (r : ReadCc K V) cce ng_term snap lock err o r' m' :
  ccmaps_ok m → rd_type r = Inside → rd_iso r ≠ ReadCommitted →
  read_locked env new_record m r cce ng_term snap lock err = Some (o, r', m') →
  quiet m m' ∧ (o = Finished → err = NO_ERROR ∧ read_done m r cce lock snap r' m').
Proof.
  intros Hok Hty Hiso. unfold read_locked.
  destruct err; try (intros [= <- <- <-]; split; [by apply maps_step_refl|done]).
  intros Hr. apply read_entry_step in Hr as (Hq & -> & [D1 D2 D3 D4 D5 D6 D7]); [|done|done|done].
  split; [done|]. intros _. split; [done|]. by split.
Qed.

(** An entry whose value was not known gets one of the data store. *)
Lemma entry_fill inst e e' :
  known e = false → known e' = true → (1 <= CommitTs e' <= bound)%Z →
  entry_ok e' ∧ entry_next bound inst (Some e) (Some e').
Proof.
  intros Hk Hk' Hb. split; [unfold entry_ok; rewrite Hk'; lia|]. split; cbn; [congruence|]. intros _ _. left. lia.
Qed.

Lemma known_Unknown e : known e = false ↔ PayloadStatus e = Unknown.
Proof. unfold known. rewrite negb_false_iff. apply bool_decide_eq_true. Qed.

Lemma not_exists_step inst e :
  entry_ok e → entry_ok (set_not_exists env e) ∧ entry_next bound inst (Some e) (Some (set_not_exists env e)) ∨ known e = true.
Proof.
  intros Hok. destruct (known e) eqn:Hk; [by right|left]. unfold set_not_exists.
  destruct (set_unknown bound (versioned env) (skip_kv env) e 1 Deleted Hok Hk) as [H1 H2]; [by unfold is_ts|lia|by right|].
  set (e1 := SetCommitTsPayloadStatus _ _ _ _ _) in *. destruct (SetCkptTs_word (versioned env) e1 1) as [H3 H4].
  apply entry_fill; [done|congruence|lia].
Qed.

(** The two places where a read gives an unknown entry a value. *)
Lemma read_prepare inst m (r : ReadCc K V) cce e0 :
  ccmaps_ok m → cce_heap m !! cce = Some e0 →
  let e1 := if from_option ccm_has_full_entries_ false (ccm_info m !! rd_table r) && bool_decide (PayloadStatus e0 = Unknown)
            then set_not_exists env e0 else e0 in
  let e2 := if decide (PayloadStatus e1 = Unknown)
            then SetCommitTsPayloadStatus (versioned env) (skip_kv env) (set_payload e1 None) 1 Deleted else e1 in
  (entry_ok e1 ∧ entry_next bound inst (Some e0) (Some e1)) ∧ (entry_ok e2 ∧ entry_next bound inst (Some e0) (Some e2)).
Proof.
  intros Hok He0 e1 e2. pose proof (mo_entry _ _ Hok _ _ He0) as Hok0.
  assert (entry_ok e1 ∧ entry_next bound inst (Some e0) (Some e1)) as [Hok1 Hn1].
  { unfold e1. destruct (_ && _) eqn:E; [|by split]. apply andb_true_iff in E as [_ E%bool_decide_eq_true].
    destruct (not_exists_step inst e0 Hok0) as [|Hk]; [done|]. apply known_Unknown in E. congruence. }
  split; [done|]. unfold e2. case_decide as Hu; [|done]. apply known_Unknown in Hu.
  destruct (set_unknown bound (versioned env) (skip_kv env) (set_payload e1 None) 1 Deleted Hok1 Hu) as [H1 H2];
    [by unfold is_ts|lia|by right|].
  destruct (entry_fill inst e1 _ Hu H1) as [Ha Hb]; [lia|]. split; [done|]. by etrans.
Qed.

(** What the coordinator is told. *)
Record read_answer m' (t : Z) x (r' : ReadCc K V) cce : Prop := {
  ra_cce : rd_cce r' = Some cce;
  ra_key : ∃ pg, ccm_index m' !! x = Some (cce, pg);
  ra_lock : rr_lock_type_ (rd_result r') ≠ NoLock → mode (ccm_shard m') cce t ≠ NoLock;
  ra_addr : is_Some (cc_lock_and_extra_ (ccm_shard m') !! cce) →
    cc_lock_and_extra_ (ccm_shard m') !! cce = Some (cce_lock_ptr_ (rr_cce_addr_ (rd_result r')));
  ra_value : rr_rec_status_ (rd_result r') ≠ Unknown →
    known_of (cce_heap m' !! cce) = true ∧ ver_of (cce_heap m' !! cce) = rr_ts_ (rd_result r');
}.

Lemma pin_step m ng ccm page cce k s :
  ccmaps_ok m → (∀ req, Txn req = GetFetchRecordTxNumber ng → not_waiting (ccm_shard m) cce req) →
  GetOrCreateKeyLock (alloc env) (ccm_shard m) ccm page cce = Some (k, s) →
  quiet m (set_shard m (put_key_lock s cce k (AcquireReadIntent (key_lock_ k) (GetFetchRecordTxNumber ng)).2 [])).
Proof.
  intros Hok Hnw Hget. pose proof (mo_locks _ _ Hok) as Hl.
  destruct (keeps_create (alloc env) alloc_fresh 0 _ _ _ _ _ _ Hl Hget) as (_ & Hk & Hls & Hn).
  destruct (GetOrCreate_ok (alloc env) alloc_fresh (ccm_shard m) ccm page cce Hl) as (k' & s' & Hget' & _ & _ & _ & _ & _ & Hold & _).
  rewrite Hget in Hget'. injection Hget' as <- <-. set (t := GetFetchRecordTxNumber ng). set (req := mkReq 0 t).
  pose proof (GetKeyLock_orderly _ _ _ Hls Hk) as Ho.
  assert (¬ queued (key_lock_ k) (Txn req)) as Hnq.
  { destruct Hold as [Hold|(_ & lk & Hlk & ->)]; [by apply (Hnw req)|by apply reset_not_queued]. }
  pose proof (orderly_acquire (key_lock_ k) req Locking ReadIntent Hnq Ho) as Ho1.
  assert (∀ u, stronger u (key_lock_ k) (AcquireLock (key_lock_ k) req Locking ReadIntent).2) as Hst
    by (intros u; apply stronger_acquire, Ho).
  assert ((AcquireLock (key_lock_ k) req Locking ReadIntent).2 = (AcquireReadIntent (key_lock_ k) t).2) as Heq
    by (cbn; by destruct (AcquireReadIntent (key_lock_ k) t)).
  rewrite Heq in Ho1, Hst. apply maps_set_shard; [done| | |].
  - by eapply put_key_lock_locks_ok.
  - by rewrite put_key_lock_now.
  - intros u κ _. apply keeps_at_all. etrans; [exact (proj1 (keeps_create (alloc env) alloc_fresh u _ _ _ _ _ _ Hl Hget))|]. eapply keeps_put; [done|done|apply Hst].
Qed.

(** The first execution of a read inside, by a transaction that does not wait for
    the key and does not snapshot-read a key it has write locked. *)
Definition read_allowed m (r : ReadCc K V) : Prop :=
  rd_type r = Inside ∧ rd_cce r = None ∧ rd_iso r ≠ ReadCommitted ∧
  free_for m (rd_table r, rd_key r) (rd_req r) ∧
  (∀ req, Txn req = GetFetchRecordTxNumber (rd_ng r) → free_for m (rd_table r, rd_key r) req) ∧
  (rd_iso r = Snapshot → ∀ κ k, GetKeyLock (ccm_shard m) κ = Some k → ¬ is_writer (key_lock_ k) (Txn (rd_req r))).

Lemma mode_addr s κ t : mode s κ t ≠ NoLock → is_Some (cc_lock_and_extra_ s !! κ).
Proof. unfold mode, GetKeyLock. destruct (cc_lock_and_extra_ s !! κ); [by eexists|done]. Qed.

Lemma read_first_step m (r : ReadCc K V) ng_term cc_op snap full o r' m' :
  ccmaps_ok m → read_allowed m r →
  read_first env pick_page new_record m r ng_term cc_op snap full = Some (o, r', m') →
  quiet m m' ∧
  (o = Finished → snap = false → ∃ cce, read_answer m' (Txn (rd_req r)) (rd_table r, rd_key r) r' cce).
Proof.
  intros Hok (Hty & Hcce & Hiso & Hfree & Hfetch & Hsw). unfold read_first.
  destruct (FindEmplace env pick_page m (rd_table r) (rd_key r) full) as [[[cce page] m0]|] eqn:Hf.
  2:{ intros [= <- <- <-]. split; [|done]. by apply maps_same. }
  destruct (FindEmplace_step m _ _ _ _ _ _ Hok Hf) as (Hq0 & Hidx & [e0 He0] & Hs0 & Hl0 & Hnw & _ & _).
  pose proof (mp_ok _ _ _ _ _ Hq0) as Hok0. rewrite He0. cbn [mbind option_bind].
  assert (from_option ccm_has_full_entries_ false (ccm_info m !! rd_table r) =
          from_option ccm_has_full_entries_ false (ccm_info m0 !! rd_table r)) as ->.
  { revert Hf. unfold FindEmplace. destruct (ccm_index m !! _) as [[? ?]|]; [by intros [= <- <- <-]|].
    destruct full; [done|]. by intros [= <- <- <-]. }
  destruct (read_prepare False m0 r cce e0 Hok0 He0) as [[Hok1 Hn1] [Hok2 Hn2]].
  set (e1 := if _ && _ then set_not_exists env e0 else e0) in *.
  set (e2 := if decide (PayloadStatus e1 = Unknown) then _ else e1) in *.
  destruct (bool_decide (PayloadStatus e1 = Unknown) && negb (skip_kv env)).
  - assert (quiet m0 (set_entry m0 cce e1)) as Hq1 by (by eapply maps_set_entry).
    destruct (GetOrCreateKeyLock _ _ _ _ _) as [[k s]|] eqn:Hg; cbn [mbind option_bind]; [|done].
    intros [= <- <- <-]. split; [|done]. eapply maps_step_trans; [exact Hq0|]. eapply maps_step_trans; [exact Hq1|].
    eapply maps_step_trans; [eapply (pin_step _ (rd_ng r)); [apply Hq1| |exact Hg]|].
    + intros req Hreq. cbn. rewrite Hs0. by apply Hnw, Hfetch.
    + apply maps_same; try done. eapply (pin_step _ (rd_ng r)); [apply Hq1| |exact Hg].
      intros req Hreq. cbn. rewrite Hs0. by apply Hnw, Hfetch.
  - assert (quiet m0 (set_entry m0 cce e2)) as Hq1 by (by eapply maps_set_entry). set (m1 := set_entry m0 cce e2) in *.
    pose proof (mp_ok _ _ _ _ _ Hq1) as Hok1'.
    destruct (AcquireCceKeyLock _ _ _ _ _ _ _ _ _ _ _ _ _ _ _ _ _ _) as [[[lock err] s]|] eqn:Ha; cbn [mbind option_bind]; [|done].
    assert (locks_ok s) as Hls.
    { edestruct (AcquireCceKeyLock_ok (alloc env) (leader_term env) (λ _ _, True) alloc_fresh (ccm_shard m1) cce) as (r0 & s0 & Ha' & Hs').
      - apply locks_ok_shard, (mo_locks _ _ Hok1').
      - cbn. rewrite Hs0. by apply Hnw.
      - intros k Hw. pose proof (must_wait_write_spec _ _ _ _ _ _ Hw) as Hk. cbn in Hk. rewrite Hs0 in Hk.
        eapply (Hsw); [|exact Hk]. revert Hw. unfold must_wait_write. destruct (decide (rd_iso r = Snapshot)); [done|].
        by rewrite bool_decide_eq_false_2 by done.
      - rewrite Ha' in Ha. injection Ha as -> ->. by apply locks_ok_shard in Hs'. }
    destruct (AcquireCceKeyLock_modes (alloc env) (leader_term env) alloc_fresh _ _ _ _ _ _ _ _ _ _ _ _ _ _ _ _ _ _ _
      (mo_locks _ _ Hok1') Ha) as (_ & (Hkeep & Hnow & Hmode) & _).
    assert (quiet m1 (set_shard m1 s)) as Hq2.
    { apply maps_set_shard; [done|done|done|]. intros t κ _. apply keeps_at_all, Hkeep. }
    intros Hr. apply read_locked_step in Hr as [Hq3 Hfin]; [|apply Hq2|done|done].
    split; [eapply maps_step_trans; [exact Hq0|]; eapply maps_step_trans; [exact Hq1|]; by eapply maps_step_trans|].
    intros Ho Hsnap. destruct (Hfin Ho) as [-> [D1 D2 D3 D4 D5 D6 D7]]. exists cce. split.
    + by rewrite D4.
    + exists page. by rewrite D2.
    + rewrite D6, D1. cbn. intros Hl. specialize (Hmode eq_refl). intros Hno. rewrite Hno in Hmode.
      apply Hl. apply rank_NoLock. cbn in Hmode. lia.
    + rewrite D1, D5. cbn. intros [q Hq]. by rewrite Hq.
    + intros Hst. destruct (D7 Hsnap) as [Hts Hkn]. rewrite D3, Hts. split; [by apply Hkn|done].
Qed.

Lemma read_operation_snapshot (r : ReadCc K V) : rd_iso r ≠ Snapshot → (read_operation r).2 = false.
Proof.
  intros Hne. unfold read_operation. destruct (tn_type (rd_table r)); cbn; by rewrite bool_decide_eq_false_2 by done.
Qed.

Lemma Execute_read_first m (r : ReadCc K V) full o r' m' :
  ccmaps_ok m → read_allowed m r → Execute_ReadCc env pick_page new_record m r full = Some (o, r', m') →
  quiet m m' ∧
  (o = Finished → rd_iso r ≠ Snapshot → ∃ cce, read_answer m' (Txn (rd_req r)) (rd_table r, rd_key r) r' cce).
Proof.
  intros Hok Hal. pose proof Hal as (Hty & Hcce & _). unfold Execute_ReadCc.
  set (ng_term := if rd_in_recovering r then _ else _).
  case_decide; [intros [= <- <- <-]; split; [by apply maps_step_refl|done]|].
  destruct (schema_mismatch m (rd_table r) (rd_schema_version r));
    [intros [= <- <- <-]; split; [by apply maps_step_refl|done]|].
  pose proof (read_operation_snapshot r) as Hsnap. destruct (read_operation r) as [cc_op snap]. cbn in Hsnap.
  rewrite decide_True, Hcce by done. intros Hr. apply read_first_step in Hr as [Hq Hfin]; [|done|done].
  split; [done|]. intros Ho Hiso. by apply Hfin; [|apply Hsnap].
Qed.

(** A read that waited for a lock or for a write is resumed. *)
Definition resumed_read m (r : ReadCc K V) cce : Prop :=
  rd_type r = Inside ∧ rd_cce r = Some cce ∧ rd_iso r ≠ ReadCommitted ∧
  (mode (ccm_shard m) cce (Txn (rd_req r)) = NoLock ∨
   mode (ccm_shard m) cce (Txn (rd_req r)) =
     match rd_blocked_by r with
     | BlockByPostWrite => ReadLock
     | _ => DeduceLockType (read_operation r).1 (rd_iso r) (rd_proto r) (rd_covering_keys r)
     end).

Lemma Execute_read_resumed m m0 (r : ReadCc K V) cce full o r' m' :
  ccmaps_ok m → dequeued m cce (rd_req r) m0 → resumed_read m r cce →
  Execute_ReadCc env pick_page new_record m0 r full = Some (o, r', m') →
  maps_step (λ t _, t = Txn (rd_req r)) (λ _, False) m m' ∧
  (o = Finished → rd_blocked_by r = BlockByLock → rd_iso r ≠ Snapshot → rr_lock_type_ (rd_result r') ≠ NoLock →
   quiet m m' ∧ ccm_index m' = ccm_index m ∧ rd_cce r' = Some cce ∧
   rr_lock_type_ (rd_result r') = DeduceLockType (read_operation r).1 (rd_iso r) (rd_proto r) (rd_covering_keys r) ∧
   rr_cce_addr_ (rd_result r') = rr_cce_addr_ (rd_result r) ∧
   cc_lock_and_extra_ (ccm_shard m') = cc_lock_and_extra_ (ccm_shard m) ∧
   lock_array (ccm_shard m') = lock_array (ccm_shard m) ∧
   (rr_rec_status_ (rd_result r') ≠ Unknown →
      known_of (cce_heap m' !! cce) = true ∧ ver_of (cce_heap m' !! cce) = rr_ts_ (rd_result r'))).
Proof.
  intros Hok Hdq (Hty & Hcce & Hiso & Hmode). destruct (dequeued_step m cce _ m0 Hok Hdq) as (Hq0 & Hi0 & Hh0 & _ & _ & Hm0).
  assert (cc_lock_and_extra_ (ccm_shard m0) = cc_lock_and_extra_ (ccm_shard m) ∧
          lock_array (ccm_shard m0) = lock_array (ccm_shard m)) as [Hc0 Ha0] by (by destruct Hdq as (? & ? & _ & ->)).
  pose proof (mp_ok _ _ _ _ _ Hq0) as Hok0. pose proof (mo_locks _ _ Hok0) as Hl0. rewrite <-Hm0 in Hmode.
  unfold Execute_ReadCc. set (ng_term := if rd_in_recovering r then _ else _).
  case_decide; [intros [= <- <- <-]; split; [by apply quiet_step|done]|].
  destruct (schema_mismatch m0 (rd_table r) (rd_schema_version r));
    [intros [= <- <- <-]; split; [by apply quiet_step|done]|].
  pose proof (read_operation_snapshot r) as Hsnap. destruct (read_operation r) as [cc_op snap]. cbn in Hsnap, Hmode.
  rewrite decide_True, Hcce by done. unfold read_resumed.
  destruct (cce_heap m0 !! cce) as [e|] eqn:He; cbn [mbind option_bind]; [|done].
  destruct (rd_blocked_by r); [done| |].
  - destruct (LockHandleForResumedRequest _ _ _ _ _ _ _ _ _ _ _ _ _) as [[[lock err] s]|] eqn:Hlh; cbn [mbind option_bind]; [|done].
    apply LockHandle_modes in Hlh as (Hls & Hn & Hkeep & Hlock); [|done|done].
    assert (maps_step (λ t _, t = Txn (rd_req r)) (λ _, False) m0 (set_shard m0 s)) as Hq1.
    { apply maps_set_shard; [done|done|done|]. intros t κ Hne. by apply keeps_at_all, Hkeep. }
    intros Hr. apply read_locked_step in Hr as [Hq2 Hfin]; [|apply Hq1|done|done]. split.
    { eapply maps_step_trans; [by apply quiet_step|]. eapply maps_step_trans; [exact Hq1|]. by apply quiet_step. }
    intros Ho _ Hns Hnl. destruct (Hfin Ho) as [-> [D1 D2 D3 D4 D5 D6 D7]]. rewrite D6 in Hnl.
    destruct (Hlock Hnl) as (Hdl & Hcl & Hla).
    assert (quiet m0 (set_shard m0 s)) as Hq1'.
    { apply maps_set_shard; [done|done|done|]. intros t κ _. by apply keeps_at_all, keeps_locks. }
    split_and!.
    + eapply maps_step_trans; [exact Hq0|]. by eapply maps_step_trans.
    + by rewrite D2.
    + by rewrite D4.
    + by rewrite D6.
    + by rewrite D5.
    + rewrite D1. cbn. by rewrite Hcl.
    + rewrite D1. cbn. by rewrite Hla.
    + intros Hst. destruct (D7 (Hsnap Hns)) as [Hts Hkn]. rewrite D3, Hts. split; [by apply Hkn|done].
  - destruct (resume_post_write _ _ _) as [s|] eqn:Hrp; cbn [mbind option_bind]; [|done].
    apply resume_post_write_modes in Hrp as (Hls & Hn & Hkeep); [|done|done].
    assert (maps_step (λ t _, t = Txn (rd_req r)) (λ _, False) m0 (set_shard m0 s)) as Hq1.
    { apply maps_set_shard; [done|done|done|]. intros t κ Hne. by apply keeps_at_all, Hkeep. }
    intros Hr. apply read_locked_step in Hr as [Hq2 _]; [|apply Hq1|done|done]. split; [|done].
    eapply maps_step_trans; [by apply quiet_step|]. eapply maps_step_trans; [exact Hq1|]. by apply quiet_step.
Qed.

(** A read that waited for its lock was granted it. *)
Lemma Execute_read_granted m m0 (r : ReadCc K V) cce pg full r' m' :
  ccmaps_ok m → dequeued m cce (rd_req r) m0 → resumed_read m r cce → rd_blocked_by r = BlockByLock →
  rd_iso r ≠ Snapshot → ccm_index m !! (rd_table r, rd_key r) = Some (cce, pg) →
  cc_lock_and_extra_ (ccm_shard m) !! cce = Some (cce_lock_ptr_ (rr_cce_addr_ (rd_result r))) →
  mode (ccm_shard m) cce (Txn (rd_req r)) ≠ NoLock →
  Execute_ReadCc env pick_page new_record m0 r full = Some (Finished, r', m') →
  rr_lock_type_ (rd_result r') ≠ NoLock →
  quiet m m' ∧ read_answer m' (Txn (rd_req r)) (rd_table r, rd_key r) r' cce.
Proof.
  intros Hok Hdq Hrs Hbl Hns Hidx Hat Hm Hex Hl.
  destruct (Execute_read_resumed m m0 r cce full Finished r' m' Hok Hdq Hrs Hex) as [_ Hf].
  destruct (Hf eq_refl Hbl Hns Hl) as (Hq & Hi & Hcce & _ & Haddr & Hcl & Hla & Hval). split; [done|]. split.
  - done.
  - exists pg. by rewrite Hi.
  - intros _. unfold mode, GetKeyLock. by rewrite Hcl, Hla.
  - by rewrite Hcl, Haddr.
  - done.
Qed.

(** A read from outside brings a value of the data store. *)
Definition backfill_allowed (r : ReadCc K V) : Prop :=
  rd_type r ≠ Inside ∧ rd_iso r ≠ ReadCommitted ∧ is_ts (rd_read_ts r) ∧ (1 <= rd_read_ts r <= bound)%Z.

Lemma same_word inst e e' :
  CommitTs e' = CommitTs e → known e' = known e → entry_ok e →
  entry_ok e' ∧ entry_next bound inst (Some e) (Some e').
Proof.
  intros Hc Hk Hok. split; [unfold entry_ok; by rewrite Hk, Hc|].
  split; cbn; rewrite Hk, ?Hc; [auto|congruence].
Qed.

Lemma AddArchiveRecord_word e p status ts :
  CommitTs (AddArchiveRecord e p status ts) = CommitTs e ∧ known (AddArchiveRecord e p status ts) = known e.
Proof. unfold AddArchiveRecord. destruct (_ && _); [done|]. by destruct (skip_newer ts _). Qed.

Lemma backfill_entry inst e (r : ReadCc K V) :
  entry_ok e → backfill_allowed r →
  entry_ok (backfill_record env new_record e r) ∧ entry_next bound inst (Some e) (Some (backfill_record env new_record e r)).
Proof.
  intros Hok (Hty & _ & Hts & Hb). unfold backfill_record.
  destruct (if decide (rd_type r = OutsideNormal) then _ else _) as [payload status] eqn:Ep.
  assert (status = Normal ∨ status = Deleted) as Hstat by (case_decide; simplify_eq; auto).
  set (e1 := if decide (PayloadStatus e = Unknown) then _ else _).
  assert (entry_ok e1 ∧ entry_next bound inst (Some e) (Some e1)) as [Hok1 Hn1].
  { unfold e1. destruct (decide (PayloadStatus e = Unknown)) as [Hu|Hu].
    - apply known_Unknown in Hu.
      destruct (set_unknown bound (versioned env) (skip_kv env) (set_payload e payload) (rd_read_ts r) status Hok Hu)
        as [H1 H2]; [done..|]. apply entry_fill; [done|done|lia].
    - destruct (_ && _); [|by apply same_word]. destruct (AddArchiveRecord_word e payload status (rd_read_ts r)).
      by apply same_word. }
  set (e2 := SetCkptTs (versioned env) e1 (rd_read_ts r)).
  destruct (SetCkptTs_word (versioned env) e1 (rd_read_ts r)) as [Hc2 Hk2]. fold e2 in Hc2, Hk2.
  destruct (same_word inst e1 e2 Hc2 Hk2 Hok1) as [Hok2 Hn2]. clearbody e2. clearbody e1.
  destruct (_ && _); [|split; [done|by etrans]].
  destruct (AddArchiveRecords_word e2 (rd_archives r)) as (Hc3 & Hk3 & _).
  destruct (same_word inst e2 (AddArchiveRecords e2 (rd_archives r))) as [Hok3 Hn3]; [done|unfold known; by rewrite Hk3|done|].
  split; [done|]. etrans; [exact Hn1|]. by etrans.
Qed.

Lemma Execute_backfill m (r : ReadCc K V) full o r' m' :
  ccmaps_ok m → backfill_allowed r → Execute_ReadCc env pick_page new_record m r full = Some (o, r', m') → quiet m m'.
Proof.
  intros Hok Hal. pose proof Hal as (Hty & Hiso & _). unfold Execute_ReadCc.
  set (ng_term := if rd_in_recovering r then _ else _).
  case_decide; [intros [= <- <- <-]; by apply maps_step_refl|].
  destruct (schema_mismatch _ _ _); [intros [= <- <- <-]; by apply maps_step_refl|].
  destruct (read_operation r) as [cc_op snap]. rewrite decide_False by done.
  destruct (ExtractCce m _) as [cce|]; cbn [mbind option_bind]; [|done]. unfold read_entry.
  destruct (cce_heap m !! cce) as [e|] eqn:He; cbn [mbind option_bind]; [|done]. rewrite decide_False by done.
  destruct (backfill_entry False e r (mo_entry _ _ Hok _ _ He) Hal) as [Hok1 Hn1].
  set (e1 := backfill_record env new_record e r) in *. set (m1 := set_entry m cce e1).
  assert (quiet m m1) as Hq1 by (by eapply maps_set_entry).
  rewrite (bool_decide_eq_false_2 (rd_iso r = ReadCommitted)) by done. cbn [andb].
  destruct (snap && versioned env).
  - pose proof (MvccGet_last_read e1 (rd_read_ts r) (last_read_ts_ m1) (mkResultRecord None Deleted 1)) as Hle.
    destruct (MvccGet e1 (rd_read_ts r) (last_read_ts_ m1) _) as [v_rec lr]. intros [= <- <- <-].
    eapply maps_step_trans; [exact Hq1|]. apply maps_same; try done. by apply Hq1.
  - destruct (bool_decide (PayloadStatus e1 = Normal) && _).
    + destruct (cur_payload_ e1); cbn [mbind option_bind]; [|done]. by intros [= <- <- <-].
    + by intros [= <- <- <-].
Qed.

(** *** [PostReadCc] and [PostWriteCc] *)

(** [κ] is the entry of a lock structure. *)
Lemma Extract_entry m a κ cce :
  ccmaps_ok m → cc_lock_and_extra_ (ccm_shard m) !! κ = Some (cce_lock_ptr_ a) → ExtractCce m a = Some cce → cce = κ.
Proof.
  intros Hok Hat. destruct (oo_owned _ _ (mo_locks _ _ Hok) _ _ Hat) as (k & Hk & _ & He). unfold ExtractCce.
  rewrite Hk. cbn. congruence.
Qed.

(** [t] may lose its lock on the entry with lock structure [p]. *)
Definition lost_at m t p : Z → Z → Prop := λ t' κ, t' = t ∧ cc_lock_and_extra_ (ccm_shard m) !! κ = Some p.

Lemma release_step inst m0 m cce t p ng ty rc :
  ccmaps_ok m → cc_lock_and_extra_ (ccm_shard m0) !! cce = Some p →
  maps_step (lost_at m0 t p) inst m (set_shard m (ReleaseCceLock (ccm_shard m) cce t ng ty rc)).
Proof.
  intros Hok Hat. pose proof (mo_locks _ _ Hok) as Hl.
  apply maps_set_shard; [done|by apply release_locks_ok|apply release_now|].
  intros t' κ Hn. destruct (decide (t' = t)) as [->|Hne]; [|by apply keeps_at_all, keeps_release].
  destruct (release_other_entry (ccm_shard m) cce t ng ty rc κ t Hl) as [H1 H2].
  { intros ->. by apply Hn. }
  split; [by rewrite H1|done].
Qed.

Lemma Execute_PostRead_step m (r : PostReadCc) κ o m' :
  ccmaps_ok m → cc_lock_and_extra_ (ccm_shard m) !! κ = Some (cce_lock_ptr_ (pr_cce_addr r)) →
  Execute_PostReadCc env m r = Some (o, m') →
  maps_step (lost_at m (pr_txn r) (cce_lock_ptr_ (pr_cce_addr r))) (λ _, False) m m' ∧
  (o = Finished → (0 < pr_key_ts r)%Z →
   (known_of (cce_heap m !! κ) = true → ver_of (cce_heap m !! κ) = pr_key_ts r) ∧
   (∀ u, u ≠ pr_txn r → mode (ccm_shard m) κ u ≠ WriteLock) ∧ (pr_commit_ts r <= last_read_ts_ m')%Z).
Proof.
  intros Hok Hat. unfold Execute_PostReadCc.
  destruct (ExtractCce m (pr_cce_addr r)) as [cce|] eqn:Hex; cbn [mbind option_bind]; [|done].
  pose proof (Extract_entry m _ κ cce Hok Hat Hex) as ->.
  destruct (_ && _); [intros [= <- <-]; split; [by apply maps_step_refl|done]|].
  destruct (cce_heap m !! κ) as [e|] eqn:He; cbn [mbind option_bind]; [|done].
  assert (∀ m1 ng rc, maps_step (lost_at m (pr_txn r) (cce_lock_ptr_ (pr_cce_addr r))) (λ _, False) m m1 →
    maps_step (lost_at m (pr_txn r) (cce_lock_ptr_ (pr_cce_addr r))) (λ _, False) m
      (set_shard m1 (ReleaseCceLock (ccm_shard m1) κ (pr_txn r) ng NoLock rc))) as Hrel.
  { intros m1 ng rc Hm1. eapply maps_step_trans; [exact Hm1|]. apply release_step; [apply Hm1|done]. }
  destruct (bool_decide (PayloadStatus e ≠ Unknown) && _ && _) eqn:Hmis.
  { intros [= <- <-]. split; [apply Hrel; by apply maps_step_refl|done]. }
  destruct (decide (0 < pr_key_ts r)%Z) as [Hkt|Hkt].
  2:{ intros [= <- <-]. split; [apply Hrel; by apply maps_step_refl|]. intros _ H0. lia. }
  set (m1 := UpdateLastReadTs m (pr_commit_ts r)).
  assert (quiet m m1) as Hq1. { apply maps_same; try done. cbn. lia. }
  assert (known_of (Some e) = true → ver_of (Some e) = pr_key_ts r) as Hver.
  { cbn. unfold known. intros Hk%negb_true_iff%bool_decide_eq_false.
    rewrite (bool_decide_eq_true_2 (PayloadStatus e ≠ Unknown)), (bool_decide_eq_true_2 (0 < pr_key_ts r)%Z) in Hmis by done.
    cbn in Hmis. apply bool_decide_eq_false in Hmis. destruct (decide (pr_key_ts r = CommitTs e)); [congruence|done]. }
  destruct (GetKeyLock (ccm_shard m1) κ) as [k|] eqn:Hk.
  - destruct (HasWriteLock (key_lock_ k) && _) eqn:Hw.
    + intros [= <- <-]. split; [|done]. apply Hrel. apply quiet_step. eapply maps_step_trans; [exact Hq1|].
      destruct (CheckRecoverTx_frame (leader_term env) (ccm_shard m1) (WriteLockTx (key_lock_ k))
        (node_group_id_ (pr_cce_addr r)) (leader_term env (node_group_id_ (pr_cce_addr r)))) as (Hc1 & Hc2 & _ & Hc3 & _).
      apply maps_same; try done; [apply Hq1|]. unfold Now. cbn [ccm_shard set_shard].
      change (ccm_shard m) with (ccm_shard m1). by rewrite Hc3.
    + intros [= <- <-]. split; [apply (Hrel m1); by apply quiet_step|]. intros _ _. split_and!; [done| |cbn; lia].
      intros u Hne Hm. unfold mode in Hm. cbn in Hk. rewrite Hk in Hm. apply SearchLock_WriteLock in Hm as [H1 H2].
      unfold HasWriteLock in Hw. rewrite (bool_decide_eq_true_2 _ H1) in Hw. cbn in Hw. apply bool_decide_eq_false in Hw.
      unfold WriteLockTx in Hw. apply Hw. congruence.
  - intros [= <- <-]. split; [apply (Hrel m1); by apply quiet_step|]. intros _ _. split_and!; [done| |cbn; lia].
    intros u _. unfold mode. cbn in Hk. by rewrite Hk.
Qed.

(** The entry before the update: the versions move, the word stays. *)
Lemma archive_word e :
  let e1 := if enable_mvcc env then ArchiveBeforeUpdate (KickOutArchiveRecords e (min_si_ts env)) else e in
  CommitTs e1 = CommitTs e ∧ known e1 = known e.
Proof.
  cbn. destruct (enable_mvcc env); [|done]. unfold ArchiveBeforeUpdate, KickOutArchiveRecords, known.
  set (e0 := match archives_ e with None => e | Some _ => _ end).
  assert (commit_ts_and_status_ e0 = commit_ts_and_status_ e) as Hw.
  { unfold e0. destruct (archives_ e) as [l|]; [|done]. repeat case_decide; try done.
    destruct (skip_newer _ _) as [? [|]]; done. }
  clearbody e0. case_decide; unfold CommitTs, PayloadStatus; cbn; by rewrite Hw.
Qed.

(** The installation of a write that is not older. *)
Lemma install_entry m (r : PostWriteCc K V) cce page e up :
  entry_ok e → is_ts (pw_commit_ts r) → (0 < pw_commit_ts r)%Z → ¬ (pw_commit_ts r < CommitTs e)%Z →
  ∃ e', cce_heap (install env m r cce page e up) = <[cce := e']> (cce_heap m) ∧ entry_ok e' ∧ known e' = true ∧
    CommitTs e' = pw_commit_ts r.
Proof.
  intros Hok Hts H0 Hle. unfold install. cbn [cce_heap].
  set (e1 := set_payload e _). set (st := if bool_decide (pw_op r = OpDelete) then Deleted else Normal).
  set (e2 := SetCommitTsPayloadStatus (versioned env) (skip_kv env) e1 (pw_commit_ts r) st).
  set (e3 := if up && pw_initial_insert r then _ else e2).
  assert (CommitTs e2 = pw_commit_ts r) as Hc2.
  { unfold e2. rewrite SetCommitTs_CommitTs by done. change (CommitTs e1) with (CommitTs e). lia. }
  assert (known e2 = true) as Hk2.
  { destruct (decide (CommitTs e < pw_commit_ts r)%Z) as [Hlt|Hge].
    - destruct (SetCommitTs_newer (versioned env) (skip_kv env) e1 (pw_commit_ts r) st Hts Hlt) as [Hp _].
      unfold known, e2. rewrite Hp. unfold st. by destruct (bool_decide (pw_op r = OpDelete)).
    - assert (known e = true) as Hke. { unfold entry_ok in Hok. destruct (known e); [done|lia]. }
      rewrite <-Hke. unfold e2, SetCommitTsPayloadStatus. rewrite decide_False by exact Hge.
      destruct (negb (versioned env) && skip_kv env && _); [|done]. unfold known. by rewrite set_flag_status by auto. }
  assert (CommitTs e3 = pw_commit_ts r ∧ known e3 = true) as [Hc3 Hk3].
  { unfold e3. destruct (_ && _); [|done]. destruct (SetCkptTs_word (versioned env) e2 1) as [-> ->]. done. }
  exists e3. split_and!; [done| |done|done]. unfold entry_ok. rewrite Hk3. lia.
Qed.

(** The version of [κ] may change. *)
Definition inst_at m t p ct : Z → Prop := λ κ,
  (0 < ct)%Z ∧ cc_lock_and_extra_ (ccm_shard m) !! κ = Some p ∧ mode (ccm_shard m) κ t = WriteLock.

Lemma post_write_step m (r : PostWriteCc K V) cce page o m' p :
  ccmaps_ok m → is_ts (pw_commit_ts r) → cc_lock_and_extra_ (ccm_shard m) !! cce = Some p →
  mode (ccm_shard m) cce (Txn (pw_req r)) = WriteLock →
  post_write env m r cce page false = Some (o, m') →
  maps_step (lost_at m (Txn (pw_req r)) p) (inst_at m (Txn (pw_req r)) p (pw_commit_ts r)) m m' ∧
  ((0 < pw_commit_ts r)%Z → (known_of (cce_heap m !! cce) = true → ver_of (cce_heap m !! cce) < pw_commit_ts r)%Z →
   known_of (cce_heap m' !! cce) = true ∧ ver_of (cce_heap m' !! cce) = pw_commit_ts r).
Proof.
  intros Hok Hts Hat Hmode. unfold post_write.
  destruct (cce_heap m !! cce) as [e|] eqn:He; cbn [mbind option_bind]; [|done].
  pose proof (mo_entry _ _ Hok _ _ He) as Hoke.
  destruct (decide (0 < pw_commit_ts r)%Z) as [H0|H0].
  2:{ intros [= <- <-]. split; [by apply release_step|lia]. }
  destruct (archive_word e) as [Hc1 Hk1]. set (e1 := if enable_mvcc env then _ else e) in *.
  destruct (same_word (inst_at m (Txn (pw_req r)) p (pw_commit_ts r) cce) e e1 Hc1 Hk1 Hoke) as [Hok1 Hn1].
  destruct (decide (pw_commit_ts r < CommitTs e1)%Z) as [Hlt|Hge].
  { intros [= <- <-]. split; [by eapply maps_set_entry|]. intros _. cbn. intros Hv. exfalso.
    unfold entry_ok in Hoke. destruct (known e); [specialize (Hv eq_refl); lia|lia]. }
  intros [= <- <-]. destruct (install_entry m r cce page e1 false Hok1 Hts H0 Hge) as (e' & Hh & Hoke' & Hk' & Hc').
  set (m1 := install env m r cce page e1 false) in *.
  assert (maps_step (lost_at m (Txn (pw_req r)) p) (inst_at m (Txn (pw_req r)) p (pw_commit_ts r)) m m1) as Hq1.
  { assert (entry_next bound (inst_at m (Txn (pw_req r)) p (pw_commit_ts r) cce) (Some e) (Some e')) as Hn.
    { split; cbn; [|auto]; intros _; [split; [done|]|intros _]; right; done. }
    destruct (maps_set_entry bound (lost_at m (Txn (pw_req r)) p) (inst_at m (Txn (pw_req r)) p (pw_commit_ts r)) m cce e e'
      Hok He Hoke' Hn) as [[G1 G2 G3 G4 G5] G6 G7 G8 G9].
    split; [|exact G6|exact G7| |exact G9].
    - split; [exact G1|exact G2| | |exact G5]; rewrite Hh; [exact G3|exact G4].
    - intros κ. rewrite Hh. exact (G8 κ). }
  split.
  - eapply maps_step_trans; [exact Hq1|]. apply (release_step _ m m1); [apply Hq1|done].
  - intros _ _. change (cce_heap (set_shard _ _)) with (cce_heap m1). rewrite Hh, lookup_insert_eq. done.
Qed.

Lemma Execute_PostWrite_step m (r : PostWriteCc K V) a κ full m' :
  ccmaps_ok m → is_ts (pw_commit_ts r) → pw_cce_addr r = Some a →
  cc_lock_and_extra_ (ccm_shard m) !! κ = Some (cce_lock_ptr_ a) →
  Execute_PostWriteCc env pick_page m r full = Some (Finished, m') →
  maps_step (lost_at m (Txn (pw_req r)) (cce_lock_ptr_ a)) (inst_at m (Txn (pw_req r)) (cce_lock_ptr_ a) (pw_commit_ts r)) m m' ∧
  (mode (ccm_shard m) κ (Txn (pw_req r)) = WriteLock → (0 < pw_commit_ts r)%Z →
   (known_of (cce_heap m !! κ) = true → ver_of (cce_heap m !! κ) < pw_commit_ts r)%Z →
   known_of (cce_heap m' !! κ) = true ∧ ver_of (cce_heap m' !! κ) = pw_commit_ts r).
Proof.
  intros Hok Hts Ha Hat. unfold Execute_PostWriteCc. rewrite Ha.
  destruct (CheckLeaderTerm env (node_group_id_ a) (addr_term_ a)); cbn [negb]; [|done].
  destruct (ExtractCce m a) as [cce|] eqn:Hex; cbn [mbind option_bind]; [|done].
  pose proof (Extract_entry m _ κ cce Hok Hat Hex) as ->.
  destruct (GetKeyLock (ccm_shard m) κ) as [k|] eqn:Hk.
  2:{ intros [= <-]. split; [by apply maps_step_refl|]. unfold mode. by rewrite Hk. }
  destruct (negb (HasWriteLock (key_lock_ k)) || _) eqn:Hw.
  { intros [= <-]. split; [by apply maps_step_refl|]. unfold mode. rewrite Hk. intros [H1 H2]%SearchLock_WriteLock. exfalso.
    apply orb_true_iff in Hw as [Hw|Hw].
    - unfold HasWriteLock in Hw. by rewrite bool_decide_eq_true_2 in Hw.
    - apply bool_decide_eq_true in Hw. by unfold WriteLockTx in Hw. }
  apply orb_false_iff in Hw as [Hw1 Hw2]. apply negb_false_iff, bool_decide_eq_true in Hw1. apply bool_decide_eq_false in Hw2.
  assert (mode (ccm_shard m) κ (Txn (pw_req r)) = WriteLock) as Hmode.
  { unfold mode. rewrite Hk. apply SearchLock_WriteLock. split; [done|]. unfold WriteLockTx in Hw2.
    by destruct (decide (write_txn_ (key_lock_ k) = Txn (pw_req r))). }
  intros Hp. destruct (post_write_step m r κ (page_ k) Finished m' (cce_lock_ptr_ a) Hok Hts Hat Hmode Hp) as [Hs Hi].
  split; [done|]. intros _. apply Hi.
Qed.
End handlers.

(** ** The events of a shard *)

Section store.
Context {K V C O : Type} `{Countable K} (bound : Z) (env : CcEnv) (pick_page : TableName → K → Z) (new_record : V).
Abbreviation maps := (ShardMaps K V C O).
Abbreviation read := (Execute_ReadCc env pick_page new_record).
Implicit Types (m : maps) (x : TableName * K) (t p κ : Z).

(** The version a read answers. *)
Definition answered (res : ReadKeyResult V) : option Z :=
  if decide (rr_rec_status_ res = Unknown) then None else Some (rr_ts_ res).

Inductive maps_event : maps → cc_event K → maps → Prop :=
  | me_read m r full r' m' cce :
      read_allowed m r → rd_iso r ≠ Snapshot → read m r full = Some (Finished, r', m') → rd_cce r' = Some cce →
      rr_lock_type_ (rd_result r') ≠ NoLock →
      maps_event m (EvRead (Txn (rd_req r)) (rd_table r, rd_key r) (cce_lock_ptr_ (rr_cce_addr_ (rd_result r'))) cce
                      (answered (rd_result r'))) m'
  | me_read_resumed m m0 r cce pg full r' m' :
      dequeued m cce (rd_req r) m0 → resumed_read m r cce → rd_blocked_by r = BlockByLock → rd_iso r ≠ Snapshot →
      ccm_index m !! (rd_table r, rd_key r) = Some (cce, pg) →
      cc_lock_and_extra_ (ccm_shard m) !! cce = Some (cce_lock_ptr_ (rr_cce_addr_ (rd_result r))) →
      mode (ccm_shard m) cce (Txn (rd_req r)) ≠ NoLock →
      read m0 r full = Some (Finished, r', m') → rr_lock_type_ (rd_result r') ≠ NoLock →
      maps_event m (EvRead (Txn (rd_req r)) (rd_table r, rd_key r) (cce_lock_ptr_ (rr_cce_addr_ (rd_result r'))) cce
                      (answered (rd_result r'))) m'
  | me_acquire m r full r' m' cce :
      aq_cce r = None → free_for m (aq_table r, aq_key r) (aq_req r) →
      Execute_AcquireCc env pick_page m r full None = Some (Finished, r', m') → aq_cce r' = Some cce →
      maps_event m (EvAcquire (Txn (aq_req r)) (aq_table r, aq_key r) (cce_lock_ptr_ (ar_cce_addr_ (aq_result r'))) cce
                      (ar_last_vali_ts_ (aq_result r')) (ar_commit_ts_ (aq_result r'))) m'
  | me_acquire_resumed m m0 r cce pg full r' m' :
      dequeued m cce (aq_req r) m0 → aq_cce r = Some cce → aq_blocked r = true →
      ccm_index m !! (aq_table r, aq_key r) = Some (cce, pg) → mode (ccm_shard m) cce (Txn (aq_req r)) = WriteLock →
      Execute_AcquireCc env pick_page m0 r full None = Some (Finished, r', m') →
      maps_event m (EvAcquire (Txn (aq_req r)) (aq_table r, aq_key r) (cce_lock_ptr_ (ar_cce_addr_ (aq_result r'))) cce
                      (ar_last_vali_ts_ (aq_result r')) (ar_commit_ts_ (aq_result r'))) m'
  | me_post_read m r κ o m' :
      cc_lock_and_extra_ (ccm_shard m) !! κ = Some (cce_lock_ptr_ (pr_cce_addr r)) →
      Execute_PostReadCc env m r = Some (o, m') →
      maps_event m (EvPostRead (pr_txn r) (cce_lock_ptr_ (pr_cce_addr r)) (pr_key_ts r) (pr_commit_ts r)
                      (bool_decide (o = Finished))) m'
  | me_post_write m r a κ full m' :
      pw_cce_addr r = Some a → cc_lock_and_extra_ (ccm_shard m) !! κ = Some (cce_lock_ptr_ a) →
      is_ts (pw_commit_ts r) → Execute_PostWriteCc env pick_page m r full = Some (Finished, m') →
      maps_event m (EvPostWrite (Txn (pw_req r)) (cce_lock_ptr_ a) (pw_commit_ts r)) m'
  | me_other_read m r full o r' m' :
      read_allowed m r → read m r full = Some (o, r', m') → maps_event m EvOther m'
  | me_other_acquire m r full o r' m' :
      aq_cce r = None → free_for m (aq_table r, aq_key r) (aq_req r) →
      Execute_AcquireCc env pick_page m r full None = Some (o, r', m') → maps_event m EvOther m'
  | me_backfill m r full o r' m' :
      backfill_allowed bound r → read m r full = Some (o, r', m') → maps_event m EvOther m'
  | me_tick m ts : maps_event m EvOther (set_shard m (UpdateTsBase (ccm_shard m) ts))
  | me_foreign_read m m0 r cce full o r' m' :
      dequeued m cce (rd_req r) m0 → resumed_read m r cce → read m0 r full = Some (o, r', m') →
      maps_event m (EvForeign (Txn (rd_req r))) m'
  | me_foreign_release m r κ o m' :
      cc_lock_and_extra_ (ccm_shard m) !! κ = Some (cce_lock_ptr_ (pr_cce_addr r)) →
      Execute_PostReadCc env m r = Some (o, m') → maps_event m (EvForeign (pr_txn r)) m'.

#[export] Instance cc_maps_store : CcStore K maps := {|
  st_ok := ccmaps_ok bound;
  st_step := maps_event;
  st_bound := bound;
  st_last_read := last_read_ts_;
  st_key m κ x := ∃ pg, ccm_index m !! x = Some (κ, pg);
  st_known m κ := known_of (cce_heap m !! κ);
  st_ver m κ := ver_of (cce_heap m !! κ);
  st_mode m κ t := mode (ccm_shard m) κ t;
  st_at m κ := cc_lock_and_extra_ (ccm_shard m) !! κ;
|}.

Context (Hbound : (1 <= bound)%Z).
Context (alloc_fresh : ∀ X, alloc env X ∉ X) (cce_fresh : ∀ X, cce_alloc env X ∉ X).

Lemma lost_releases m t p kt ct ok t' κ :
  lost_at m t p t' κ → releases_lock m (EvPostRead t p kt ct ok : cc_event K) t' κ ∧
  releases_lock m (EvPostWrite t p ct : cc_event K) t' κ.
Proof. intros [-> Hat]. done. Qed.

(** Every event is a step of the maps. *)
Lemma event_step m (ev : cc_event K) m' :
  ccmaps_ok bound m → maps_event m ev m' →
  maps_step bound (λ t κ, releases_lock m ev t κ) (λ κ, installs m ev κ) m m'.
Proof.
  intros Hok Hev. destruct Hev.
  - apply quiet_step. by eapply Execute_read_first.
  - apply quiet_step. by eapply Execute_read_granted.
  - apply quiet_step. by eapply acquire_first_step.
  - apply quiet_step. by eapply acquire_resumed_step.
  - eapply maps_step_weaken; [| |by eapply Execute_PostRead_step]; [|done]. intros t' κ' Hl. by eapply lost_releases in Hl as [? _].
  - eapply maps_step_weaken; [| |by eapply Execute_PostWrite_step].
    + intros t' κ' Hl. by eapply (lost_releases _ _ _ 0 _ true) in Hl as [_ ?].
    + intros κ' (? & ? & ?). by exists (Txn (pw_req r)), (cce_lock_ptr_ a), (pw_commit_ts r).
  - apply quiet_step. by eapply Execute_read_first.
  - apply quiet_step. by eapply acquire_first_step.
  - apply quiet_step. by eapply Execute_backfill.
  - apply quiet_step. apply maps_same; try done. unfold Now, UpdateTsBase. cbn. case_decide; lia.
  - apply (maps_step_weaken bound (λ t _, t = Txn (rd_req r)) _ (λ _, False)); [done|done|].
    by eapply Execute_read_resumed.
  - eapply maps_step_weaken; [| |by eapply Execute_PostRead_step]; [|done]. by intros t' κ' [-> _].
Qed.

Lemma mode_write s κ t u : mode (s : CcShard C O) κ t = WriteLock → mode s κ u = WriteLock → t = u.
Proof.
  unfold mode. destruct (GetKeyLock s κ); [|done]. rewrite !SearchLock_WriteLock. intros [_ <-] [_ <-]. done.
Qed.

(** The answer to a granted write lock. *)
Lemma acquire_facts m t x r' cce m' :
  ccmaps_ok bound m → acquire_answer m t x r' cce m' →
  (∃ pg, ccm_index m' !! x = Some (cce, pg)) ∧
  cc_lock_and_extra_ (ccm_shard m') !! cce = Some (cce_lock_ptr_ (ar_cce_addr_ (aq_result (r' : AcquireCc K)))) ∧
  mode (ccm_shard m') cce t = WriteLock ∧ (last_read_ts_ m <= ar_last_vali_ts_ (aq_result r'))%Z ∧
  (0 < ar_commit_ts_ (aq_result r'))%Z ∧
  (if known_of (cce_heap m !! cce) then ar_commit_ts_ (aq_result r') = ver_of (cce_heap m !! cce)
   else (bound <= ar_commit_ts_ (aq_result r'))%Z).
Proof.
  intros Hok ([D1 D2 D3 D4] & Hkey & Hm). split_and!; [done| |done|done| |].
  - apply D2, (mode_addr _ _ t). by rewrite Hm.
  - rewrite D4. unfold lock_version. case_decide; [done|]. pose proof (mo_clock _ _ Hok). lia.
  - rewrite D4. unfold lock_version. pose proof (mo_clock _ _ Hok) as Hclock.
    destruct (cce_heap m !! cce) as [e|] eqn:He; cbn; [|done]. pose proof (mo_entry _ _ Hok _ _ He) as Hoke.
    unfold entry_ok in Hoke. destruct (known e); [by rewrite decide_True by lia|]. rewrite decide_False by lia. done.
Qed.

Lemma read_facts m' t x r' cce :
  read_answer (m' : maps) t x r' cce → rr_lock_type_ (rd_result r') ≠ NoLock →
  (∃ pg, ccm_index m' !! x = Some (cce, pg)) ∧
  cc_lock_and_extra_ (ccm_shard m') !! cce = Some (cce_lock_ptr_ (rr_cce_addr_ (rd_result (r' : ReadCc K V)))) ∧
  mode (ccm_shard m') cce t ≠ NoLock ∧
  ∀ ts, answered (rd_result r') = Some ts → known_of (cce_heap m' !! cce) = true ∧ ver_of (cce_heap m' !! cce) = ts.
Proof.
  intros [D1 D2 D3 D4 D5] Hl. split_and!; [done| |by apply D3|].
  - apply D4. eapply mode_addr. by apply D3.
  - unfold answered. intros ts. case_decide as Hu; [done|]. intros [= <-]. by apply D5.
Qed.

#[export] Instance cc_maps_laws : CcStoreLaws K maps.
Proof.
  split; cbn.
  - intros m ev m' Hok Hev. by eapply mp_ok, event_step.
  - intros m ev m' Hok Hev. by eapply mp_last, event_step.
  - intros m ev m' κ x Hok Hev [pg Hx]. exists pg. eapply lookup_weaken; [exact Hx|]. by eapply mp_index, event_step.
  - intros m κ κ' x Hok [pg Hx] [pg' Hx']. congruence.
  - intros m κ x x' Hok [pg Hx] [pg' Hx']. by eapply (mo_inj _ _ Hok).
  - intros m κ κ' p Hok Hp Hp'. destruct (oo_owned _ _ (mo_locks _ _ Hok) _ _ Hp) as (k & Hk & _ & He).
    destruct (oo_owned _ _ (mo_locks _ _ Hok) _ _ Hp') as (k' & Hk' & _ & He'). congruence.
  - intros m κ t u _. apply mode_write.
  - intros m ev m' κ Hok Hev. by apply (mp_entry _ _ _ _ _ (event_step m ev m' Hok Hev) κ).
  - intros m ev m' κ Hok Hev. by apply (mp_entry _ _ _ _ _ (event_step m ev m' Hok Hev) κ).
  - intros m ev m' κ t Hok Hev Hn. by apply (mp_lock _ _ _ _ _ (event_step m ev m' Hok Hev) t κ).
  - intros m ev m' κ t Hok Hev Hn. by apply (mp_lock _ _ _ _ _ (event_step m ev m' Hok Hev) t κ).
  - intros m t x p cce v m' Hok Hev. inversion Hev as [? r full r' ? ? Hal Hns Hex Hcce Hl|
      ? m0 r ? pg full r' ? Hdq Hrs Hbl Hns Hidx Hat Hm Hex Hl|?|?|?|?|?|?|?|?|?|?]; subst.
    + destruct (Execute_read_first bound env pick_page new_record Hbound alloc_fresh cce_fresh m r full Finished r' m' Hok Hal Hex)
        as [_ Hf]. destruct (Hf eq_refl Hns) as [cce' Ha]. assert (cce' = cce) as -> by (destruct Ha; congruence).
      by apply read_facts.
    + apply read_facts; [|done]. by eapply Execute_read_granted.
  - intros m t x p cce lv cts m' Hok Hev. inversion Hev as [?|?|? r full r' ? ? Hn Hfree Hex Hcce|
      ? m0 r ? pg full r' ? Hdq Hcce Hbl Hidx Hm Hex|?|?|?|?|?|?|?|?]; subst.
    + destruct (acquire_first_step bound env pick_page alloc_fresh cce_fresh m r full Finished r' m' Hok Hn Hfree Hex)
        as [_ Hf]. destruct (Hf eq_refl) as [cce' Ha].
      assert (cce' = cce) as -> by (destruct Ha as [[]]; congruence). by apply (acquire_facts m).
    + apply (acquire_facts m); [done|]. by eapply acquire_resumed_step.
  - intros m t p kt ct m' κ Hok Hev H0 Hat Hm. inversion Hev as [?|?|?|?|? r κ' o ? Hat' Hex|?|?|?|?|?|?|?]; subst.
    assert (o = Finished) as -> by (by eapply bool_decide_eq_true_1).
    destruct (Execute_PostRead_step bound env m r κ Finished m' Hok Hat Hex) as [_ Hf]. by apply Hf.
  - intros m t p ct m' κ Hok Hev H0 Hat Hm Hv. inversion Hev as [?|?|?|?|?|? r a κ' full ? Ha Hat' Hts Hex|?|?|?|?|?|?]; subst.
    destruct (Execute_PostWrite_step bound env pick_page m r a κ full m' Hok Hts Ha Hat Hex) as [_ Hf]. by apply Hf.
Qed.
End store.

