(* ===== verification/LogReplay.v ===== *)
(** * Replay of the log

    After a failover the new leader of a node group replays the log records that
    [ParseDataLogCc] cut into requests ([DataLog]).  A [ReplayLogCc] request starts at one
    core and moves on until every core that owns a key of the record has installed its
    keys ([TemplateCcMap::Execute(ReplayLogCc &)], [include/cc/template_cc_map.h]).
    Requests run on the cores in any order, wait while the memory is full and then start
    over, and the log service may ship a record more than once.

    The theorem says that when all requests are finished every key has the newest of the
    versions that were logged and that it had before, and that with multiple versions a
    snapshot finds the newest one that is not newer than it. *)

From stdpp Require Import sorting functions.
From S2P Require Import Prelude Bytes CcProtocol Queue CircularQueue NonBlockingLock CcEntry TxCommand.
From S2P Require Import DeadLockCheck KeyLock LockArray ShardLocks LockModes TableName TxSerialize MetaRecords ReadWriteSet DataLog CcMap.
From S2P Require Import CcStore TxCommit CommitProtocol CommitOrder CcMapStore.

(** The request: its parsed part, and where it came from. *)
Record ReplayLogCc := mkReplayCc {
  rl_cc : CcRequestBase;
  rl_ng : Z;
  rl : ReplayRequest;
}.

(** [MoveRequest] sends the request to another core; a request that found the memory full is
    executed again from the start. *)
Inductive ReplayOutcome := ReplayFinish | ReplayMove (core : Z) | ReplayAgain.

(** The operation byte; others fail an assertion. *)
Definition replay_op (c : Z) : option OperationType :=
  if decide (c = 1)%Z then Some OpUpdate else if decide (c = 2)%Z then Some OpDelete else if decide (c = 3)%Z then Some OpInsert else None.

Section replay.
Context {K V C O : Type} `{Countable K} `{!Codec K, !Codec V}.
Context (pick_page : TableName → K → Z) (new_record : V).
(** The cores of the node, the hash of a key, and for the check whether a key still belongs
    to the node group the range of a key, the bucket of a range, and the range that a split
    in progress moves the key to ([-1] when there is none). *)
Context (core_cnt : Z) (key_hash : K → Z).
Context (range_id : K → Z) (bucket_of : Z → BucketInfo) (new_range_id : K → Z).
Abbreviation maps := (ShardMaps K V C O).
Implicit Types (m : maps) (e : CcEntry V) (r : ReplayLogCc) (op : OperationType).

Definition key_core (k : K) : Z := (Z.land (key_hash k) 1023 mod core_cnt)%Z.

Definition not_owned (ng range : Z) : bool :=
  bool_decide (bucket_owner_ (bucket_of range) ≠ ng) && bool_decide (dirty_bucket_owner_ (bucket_of range) ≠ ng).

(** The bucket of the new range is looked up with the id of the old one. *)
Definition skip_key (ng : Z) (k : K) : bool :=
  not_owned ng (range_id k) && bool_decide (0 ≤ new_range_id k)%Z && not_owned ng (range_id k).

(** The record behind the operation byte, if there is one. *)
Definition rec_at op (blob : bytes) (offset : nat) : option (option V * nat) :=
  if decide (op = OpInsert ∨ op = OpUpdate) then '(v, o) ← decode blob offset; Some (Some v, o) else Some (None, offset).

(** An entry that is as new as the log record gets it as an old version if there are any;
    otherwise the log record becomes the current version. *)
Definition stale_version (env : CcEnv) e (rec : option V) (commit_ts : Z) : CcEntry V :=
  if enable_mvcc env
  then AddArchiveRecord e (Some (default new_record rec)) (if rec then Normal else Deleted) commit_ts else e.
Definition newer_version (env : CcEnv) (type : TableType) e (rec : option V) (commit_ts : Z) : CcEntry V :=
  let e1 := if versioned env && enable_mvcc env then ArchiveBeforeUpdate e else e in
  let e2 := if rec then set_payload e1 rec else if decide (type ≠ Secondary) then set_payload e1 None else e1 in
  SetCommitTsPayloadStatus (versioned env) (skip_kv env) e2 commit_ts (if rec then Normal else Deleted).

(** The lock of a transaction whose write is now installed is released. *)
Definition release_writer m (cce ng : Z) : maps :=
  match GetKeyLock (ccm_shard m) cce with
  | Some k =>
      if HasWriteLock (key_lock_ k)
      then set_shard m (ReleaseCceLock (ccm_shard m) cce (WriteLockTx (key_lock_ k)) ng WriteLock true) else m
  | None => m
  end.

Definition replay_entry (env : CcEnv) m r (cce page : Z) e (rec : option V) : maps :=
  let commit_ts := rp_commit_ts (rl r) in
  if decide (commit_ts ≤ CommitTs e)%Z then set_entry m cce (stale_version env e rec commit_ts)
  else
    let dirty i :=
      mkCcmInfo (ccm_addr i) (CcMap.schema_ts_ i)
        (if decide (last_dirty_commit_ts_ i < commit_ts)%Z then commit_ts else last_dirty_commit_ts_ i) (ccm_has_full_entries_ i) in
    let e' := newer_version env (tn_type (rp_table (rl r))) e rec commit_ts in
    release_writer
      (mkMaps (ccm_shard m) (alter dirty (rp_table (rl r)) (ccm_info m)) (ccm_index m) (<[cce := e']> (cce_heap m))
        (raise (page_dirty_ts m) page commit_ts) (last_read_ts_ m) (cc_wait_list_for_memory_ m) (fetch_sent m))
      cce (rl_ng r).

(** The smallest core that the request has not visited. *)
Definition next_core_of (this first core next : Z) : Z :=
  if bool_decide (this = first) || bool_decide (core ≠ first) && bool_decide (this < core)%Z then Z.min core next else next.

(** The loop over the record; [full k] says whether there is memory for a new entry of [k]. *)
Fixpoint replay_loop (env : CcEnv) (full : K → bool) (fuel : nat) m r (offset : nat) (next_core : Z) : option (ReplayOutcome * maps) :=
  let log_blob := rp_blob (rl r) in
  if decide (offset < length log_blob) then
    match fuel with
    | 0 => None
    | S fuel =>
        '(k, o1) ← decode log_blob offset;
        '(op_val, o2) ← DesrializeFrom 1 log_blob o1;
        op ← replay_op op_val;
        if decide (key_core k ≠ core_id env) then
          '(_, o3) ← rec_at op log_blob o2;
          replay_loop env full fuel m r o3 (next_core_of (core_id env) (rp_first_core (rl r)) (key_core k) next_core)
        else if skip_key (rl_ng r) k then '(_, o3) ← rec_at op log_blob o2; replay_loop env full fuel m r o3 next_core
        else
          match FindEmplace env pick_page m (rp_table (rl r)) k (full k) with
          | None => Some (ReplayAgain, EnqueueWaitListIfMemoryFull m (rl_cc r))
          | Some (cce, page, m1) =>
              e ← cce_heap m1 !! cce;
              '(rec, o3) ← rec_at op log_blob o2;
              replay_loop env full fuel (replay_entry env m1 r cce page e rec) r o3 next_core
          end
    end
  else Some (if decide (next_core ≠ UINT16_MAX) then ReplayMove next_core else ReplayFinish, m).

Definition Execute_ReplayLogCc (env : CcEnv) (full : K → bool) m r : option (ReplayOutcome * maps) :=
  i ← ccm_info m !! rp_table (rl r);
  if decide (rp_commit_ts (rl r) < CcMap.schema_ts_ i)%Z then Some (ReplayFinish, m)
  else replay_loop env full (length (rp_blob (rl r))) m r 0 UINT16_MAX.
End replay.

(** ** One entry *)

Section entry.
Context {V : Type} (new_record : V).
Implicit Types (e : CcEntry V) (v w : VersionRecord V) (l : list (VersionRecord V)).

(** Versions that no reader can tell apart. *)
Definition same_version v w : Prop :=
  commit_ts_ v = commit_ts_ w ∧ payload_status_ v = payload_status_ w ∧ (payload_status_ v = Normal → payload_ v = payload_ w).

#[export] Instance same_version_equiv : Equivalence same_version.
Proof.
  split; [by intros v|by intros v w (E1 & E2 & E3); split_and!; [..|intros; rewrite E3 by congruence]|].
  intros u v w (E1 & E2 & E3) (F1 & F2 & F3). split_and!; [congruence..|]. intros Hn. rewrite E3, F3 by congruence. done.
Qed.

Lemma version_result_same rec v w : same_version v w → version_result rec v = version_result rec w.
Proof. intros (E1 & E2 & E3). unfold version_result. rewrite <- E2, <- E1. case_decide; [by rewrite E3|done]. Qed.

(** Newest first; a version that was replayed twice can be there twice. *)
Definition newest_first l : Prop := StronglySorted (λ a b, commit_ts_ b ≤ commit_ts_ a)%Z l.

Lemma newest_first_cons v l : newest_first (v :: l) ↔ (∀ w, w ∈ l → commit_ts_ w ≤ commit_ts_ v)%Z ∧ newest_first l.
Proof.
  unfold newest_first. split.
  - intros [Hs Hall]%StronglySorted_inv. by rewrite Forall_forall in Hall.
  - intros [Hall Hs]. constructor; [done|]. by apply Forall_forall.
Qed.

Lemma newest_first_app l k : newest_first (l ++ k) ↔ newest_first l ∧ newest_first k ∧ ∀ v w, v ∈ l → w ∈ k → (commit_ts_ w ≤ commit_ts_ v)%Z.
Proof.
  induction l as [|x l IH]; cbn.
  { split; [intros; split_and!; [constructor|done|set_solver]|tauto]. }
  rewrite !newest_first_cons, IH. set_solver.
Qed.

Lemma mvcc_find_sorted ts l : newest_first l →
  match mvcc_find ts l with
  | Some v => v ∈ l ∧ (commit_ts_ v ≤ ts)%Z ∧ ∀ w, w ∈ l → (commit_ts_ w ≤ ts)%Z → (commit_ts_ w ≤ commit_ts_ v)%Z
  | None => ∀ v, v ∈ l → (ts < commit_ts_ v)%Z
  end.
Proof.
  induction l as [|v l IH]; cbn; [set_solver|]. intros [Hv Hl]%newest_first_cons. case_decide as Hts.
  - split_and!; [set_solver|done|]. intros w [->|Hw]%elem_of_cons _; [lia|by apply Hv].
  - specialize (IH Hl). destruct (mvcc_find ts l) as [u|].
    + destruct IH as (Hu & Hle & Hmax). split_and!; [set_solver|done|]. intros w [->|Hw]%elem_of_cons Hw'; [lia|by apply Hmax].
    + intros w [->|Hw]%elem_of_cons; [lia|by apply IH].
Qed.

(** [e'] is [e] with the version [v]; older versions stay if [mvcc]. *)
Record absorbs (mvcc : bool) e v e' : Prop := {
  ab_ts : CommitTs e' = Z.max (CommitTs e) (commit_ts_ v);
  ab_known : PayloadStatus e' ≠ Unknown;
  ab_sorted : newest_first (versions e');
  ab_sound w : w ∈ versions e' → w ∈ versions e ∨ same_version w v;
  ab_kept w : mvcc = true → w ∈ versions e → w ∈ versions e';
  ab_there : mvcc = true → ∃ w, w ∈ versions e' ∧ commit_ts_ w = commit_ts_ v;
}.

Lemma versions_known e : PayloadStatus e ≠ Unknown → versions e = cur_version e :: default [] (archives_ e).
Proof. intros Hk. unfold versions. by rewrite decide_False. Qed.

Definition logged_version (rec : option V) (ts : Z) : VersionRecord V := mkVersion rec ts (if rec then Normal else Deleted).

Lemma newer_version_absorbs env type e rec ts :
  newest_first (versions e) → (∀ w, w ∈ versions e → commit_ts_ w ≤ CommitTs e)%Z → is_ts ts → (CommitTs e < ts)%Z →
  absorbs (versioned env && enable_mvcc env) e (logged_version rec ts) (newer_version env type e rec ts).
Proof.
  intros Hs Hle Hts Hlt. unfold newer_version. set (mvcc := versioned env && enable_mvcc env).
  set (e1 := if mvcc then _ else e). set (e2 := if rec then _ else _).
  assert (CommitTs e2 = CommitTs e ∧ default [] (archives_ e2) = (if mvcc then versions e else default [] (archives_ e)) ∧ (rec ≠ None → cur_payload_ e2 = rec)) as (Hc & Ha & Hp).
  { assert (CommitTs e1 = CommitTs e ∧ default [] (archives_ e1) = if mvcc then versions e else default [] (archives_ e)) as [E1 E2].
    { subst e1. destruct mvcc; [|done]. unfold ArchiveBeforeUpdate, versions. by case_decide. }
    subst e2. destruct rec; [done|]. case_decide; done. }
  set (st := if rec then Normal else Deleted). assert (st ≠ Unknown) as Hst by (subst st; by destruct rec).
  pose proof (SetCommitTs_CommitTs (versioned env) (skip_kv env) e2 ts st Hts) as Hc'.
  destruct (SetCommitTs_newer (versioned env) (skip_kv env) e2 ts st Hts) as [Hst' _]; [lia|].
  destruct (SetCommitTs_other (versioned env) (skip_kv env) e2 ts st) as (Ha' & Hp' & _).
  set (e' := SetCommitTsPayloadStatus _ _ _ _ _) in *.
  assert (∀ w, w ∈ default [] (archives_ e') → w ∈ versions e) as Hin.
  { intros w. rewrite Ha', Ha. destruct mvcc; [done|]. unfold versions. set_solver. }
  assert (versions e' = cur_version e' :: default [] (archives_ e')) as Hv by (apply versions_known; congruence).
  assert (same_version (cur_version e') (logged_version rec ts)) as Hcur.
  { split_and!; cbn; [lia|done|]. rewrite Hst', Hp'. subst st. destruct rec; [by intros; apply Hp|done]. }
  split; cbn [commit_ts_ logged_version]; [lia|congruence| | | |].
  - rewrite Hv. apply newest_first_cons. split; [intros w Hw%Hin%Hle; cbn; lia|]. rewrite Ha', Ha. destruct mvcc; [done|].
    unfold versions in Hs. by apply newest_first_app in Hs as (_ & ? & _).
  - intros w. rewrite Hv, elem_of_cons. intros [->|Hw]; [by right|left; by apply Hin].
  - intros w Hm Hw. rewrite Hv, Ha', Ha, Hm, elem_of_cons. by right.
  - intros _. exists (cur_version e'). rewrite Hv, elem_of_cons. split; [by left|cbn; lia].
Qed.

Lemma add_archive_sorted e p st ts :
  newest_first (default [] (archives_ e)) → (ts ≠ 1)%Z → let l := default [] (archives_ (AddArchiveRecord e p st ts)) in
  newest_first l ∧ (∀ w, w ∈ default [] (archives_ e) → w ∈ l) ∧ (∀ w, w ∈ l → w ∈ default [] (archives_ e) ∨ w = mkVersion p ts st) ∧
  (∃ w, w ∈ l ∧ commit_ts_ w = ts).
Proof.
  intros Hs Hts. unfold AddArchiveRecord. rewrite bool_decide_eq_false_2 by done. cbn [andb].
  destruct (skip_newer ts (default [] (archives_ e))) as [a b] eqn:E. rewrite (skip_newer_app _ _ _ _ E) in Hs |- *.
  destruct (skip_newer_spec _ _ _ _ E) as [Ha Hb]. cbn [archives_ set_archives default from_option id]. clear E.
  apply newest_first_app in Hs as (Hsa & Hsb & Hab). destruct b as [|v b].
  - rewrite app_nil_r. split_and!; [|set_solver|set_solver|exists (mkVersion p ts st); set_solver].
    apply newest_first_app. split_and!; [done|repeat constructor|]. intros x y Hx ->%list_elem_of_singleton. cbn. specialize (Ha x Hx). lia.
  - specialize (Hb v eq_refl). destruct (decide (commit_ts_ v < ts)%Z) as [Hlt|Hge].
    + split_and!; [|set_solver|set_solver|exists (mkVersion p ts st); set_solver]. apply newest_first_app. split_and!; [done| |].
      * apply newest_first_cons. split; [|done]. apply newest_first_cons in Hsb as [Hv _]. intros w [->|Hw]%elem_of_cons; cbn; [lia|]. specialize (Hv w Hw). lia.
      * intros x y Hx [->|Hy]%elem_of_cons; [cbn; specialize (Ha x Hx); lia|by apply Hab].
    + split_and!; [by apply newest_first_app|done|by left|]. exists v. split; [set_solver|lia].
Qed.

Lemma stale_version_absorbs env e rec ts :
  PayloadStatus e ≠ Unknown → newest_first (versions e) → (1 < ts)%Z → (ts ≤ CommitTs e)%Z →
  absorbs (enable_mvcc env) e (logged_version rec ts) (stale_version new_record env e rec ts).
Proof.
  intros Hk Hs H1 Hle. unfold stale_version. destruct (enable_mvcc env); [|split; cbn; [lia|done|done|by left|done|done]].
  rewrite (versions_known e Hk) in Hs. apply newest_first_cons in Hs as [Hall Hs].
  set (st := if rec then Normal else Deleted). set (p := Some (default new_record rec)).
  destruct (add_archive_sorted e p st ts Hs) as (S1 & S2 & S3 & w0 & S4 & S5); [lia|].
  assert (∀ e', e' = AddArchiveRecord e p st ts → CommitTs e' = CommitTs e ∧ PayloadStatus e' = PayloadStatus e ∧ cur_version e' = cur_version e) as Hw.
  { intros e' ->. unfold AddArchiveRecord. destruct (_ && _); [done|]. by destruct (skip_newer _ _). }
  destruct (Hw _ eq_refl) as (W1 & W2 & W3). set (e' := AddArchiveRecord e p st ts) in *.
  assert (versions e' = cur_version e :: default [] (archives_ e')) as Hv by (rewrite versions_known by congruence; by rewrite W3).
  assert (same_version (mkVersion p ts st) (logged_version rec ts)) as Hsame by (split_and!; [done|done|]; cbn; subst st p; by destruct rec).
  split; cbn [commit_ts_ logged_version]; [lia|congruence| | | |].
  - rewrite Hv. apply newest_first_cons. split; [|done]. intros w [Hw'| ->]%S3; [by apply Hall|done].
  - rewrite Hv, (versions_known e Hk). setoid_rewrite elem_of_cons. intros w [->|[Hw'| ->]%S3]; [by left; left|by left; right|by right].
  - rewrite Hv, (versions_known e Hk). setoid_rewrite elem_of_cons. intros w _ [->|Hw']; [by left|right; by apply S2].
  - intros _. exists w0. rewrite Hv, elem_of_cons. tauto.
Qed.

(** What the entries of a shard satisfy: an unknown entry has no versions. *)
Definition replayable e : Prop :=
  entry_ok e ∧ newest_first (versions e) ∧ ∀ w, w ∈ versions e → (commit_ts_ w ≤ CommitTs e)%Z.

Lemma absorbs_replayable mvcc e v e' : replayable e → (0 < commit_ts_ v)%Z → absorbs mvcc e v e' → replayable e'.
Proof.
  intros (_ & _ & Hle) Hts [A1 A2 A3 A4 _ _]. split_and!; [|done|].
  - unfold entry_ok, known. rewrite bool_decide_eq_false_2 by done. cbn. lia.
  - rewrite versions_known in * by done. apply newest_first_cons in A3 as [Hall _]. intros w [->|Hw]%elem_of_cons; [cbn; lia|]. by apply Hall.
Qed.

Definition replayed (env : CcEnv) (type : TableType) e (rec : option V) (ts : Z) : CcEntry V :=
  if decide (ts ≤ CommitTs e)%Z then stale_version new_record env e rec ts else newer_version env type e rec ts.

Lemma replayed_absorbs env type e rec ts : (enable_mvcc env = true → versioned env = true) →
  replayable e → is_ts ts → (1 < ts)%Z → absorbs (enable_mvcc env) e (logged_version rec ts) (replayed env type e rec ts).
Proof.
  intros Hv (Hok & Hs & Hle) Hts H1. unfold replayed. case_decide as Hd.
  - apply stale_version_absorbs; [|done..]. unfold entry_ok, known in Hok. case_bool_decide; [cbn in Hok; lia|done].
  - replace (enable_mvcc env) with (versioned env && enable_mvcc env); [apply newer_version_absorbs; [done..|lia]|].
    destruct (enable_mvcc env); [by rewrite Hv|apply andb_false_r].
Qed.
End entry.

(** ** One shard *)

Section shard.
Context {K V C O : Type} `{Countable K} `{!Codec K, !Codec V, !CodecOk K, !CodecOk V} (bound : Z).
Context (pick_page : TableName → K → Z) (new_record : V) (core_cnt : Z) (key_hash : K → Z).
Context (range_id : K → Z) (bucket_of : Z → BucketInfo) (new_range_id : K → Z).
Context (env : CcEnv) (cce_fresh : ∀ X, cce_alloc env X ∉ X) (mvcc_versioned : enable_mvcc env = true → versioned env = true).
Abbreviation maps := (ShardMaps K V C O).
Abbreviation core_of := (key_core core_cnt key_hash).
Abbreviation skipped := (skip_key range_id bucket_of new_range_id).
Abbreviation loop := (replay_loop pick_page new_record core_cnt key_hash range_id bucket_of new_range_id env).
Implicit Types (m : maps) (e : CcEntry V) (r : ReplayLogCc) (x : TableName * K) (κ : Z) (w : WriteSetEntry V).

Definition entry_at m x : option (CcEntry V) := '(κ, _) ← ccm_index m !! x; cce_heap m !! κ.

Record replay_ok m : Prop := {
  ro_maps : ccmaps_ok bound m;
  ro_entry κ e : cce_heap m !! κ = Some e → replayable e;
}.

(** The schema of a table, which decides whether a record is replayed. *)
Definition schema_of m t : option Z := CcMap.schema_ts_ <$> ccm_info m !! t.

Lemma new_replayable : replayable (CcEntry_new (V := V)).
Proof. split_and!; [done|constructor|]. intros w Hw. by apply not_elem_of_nil in Hw. Qed.

Lemma entry_replayable m x : replay_ok m → replayable (default CcEntry_new (entry_at m x)).
Proof.
  intros Hok. unfold entry_at. destruct (ccm_index m !! x) as [[κ pg]|]; cbn; [|apply new_replayable].
  destruct (cce_heap m !! κ) as [e|] eqn:He; cbn; [by eapply ro_entry|apply new_replayable].
Qed.

Lemma FindEmplace_entry m t k full κ pg m1 : replay_ok m → FindEmplace env pick_page m t k full = Some (κ, pg, m1) →
  replay_ok m1 ∧ ccm_index m1 !! (t, k) = Some (κ, pg) ∧ cce_heap m1 !! κ = Some (default CcEntry_new (entry_at m (t, k))) ∧
  (∀ x, x ≠ (t, k) → entry_at m1 x = entry_at m x) ∧ ccm_info m1 = ccm_info m.
Proof.
  intros Hok Hf. destruct (FindEmplace_step bound env pick_page cce_fresh m t k full κ pg m1 (ro_maps _ Hok) Hf) as ([Hm1 _ _ _ _] & Hi & _).
  pose proof (ro_maps _ Hok) as [_ _ Hidx _ _].
  unfold FindEmplace in Hf. unfold entry_at at 1. destruct (ccm_index m !! (t, k)) as [[κ' pg']|] eqn:Hx.
  { injection Hf as -> -> <-. destruct (Hidx _ _ _ Hx) as [e He]. cbn. rewrite He. split_and!; done. }
  destruct full; [done|]. set (κ0 := cce_alloc env _) in *. injection Hf as <- <- <-. cbn in *.
  assert (cce_heap m !! κ0 = None) as Hnew by (apply not_elem_of_dom, cce_fresh).
  split_and!; [split; [done|]|done|by rewrite lookup_insert_eq| |done].
  - intros κ e. cbn. intros [[<- <-]|[_ He]]%lookup_insert_Some; [apply new_replayable|by eapply ro_entry].
  - intros x Hne. unfold entry_at. cbn. rewrite lookup_insert_ne by done. destruct (ccm_index m !! x) as [[κ1 pg1]|] eqn:E; [|done]. cbn.
    destruct (Hidx _ _ _ E) as [e He]. rewrite lookup_insert_ne; [done|]. intros <-. congruence.
Qed.

Lemma release_writer_same m κ ng : let m' := release_writer m κ ng in
  ccm_index m' = ccm_index m ∧ cce_heap m' = cce_heap m ∧ ccm_info m' = ccm_info m ∧
  (locks_ok (ccm_shard m) → locks_ok (ccm_shard m')) ∧ Now (ccm_shard m') = Now (ccm_shard m).
Proof.
  unfold release_writer. destruct (GetKeyLock _ _) as [k|]; [|done]. destruct (HasWriteLock _); [|done]. split_and!; [done..| |].
  - apply release_locks_ok.
  - apply release_now.
Qed.

Lemma replay_entry_ok m r κ pg e rec x : replay_ok m → ccm_index m !! x = Some (κ, pg) → cce_heap m !! κ = Some e →
  rp_table (rl r) = x.1 → is_ts (rp_commit_ts (rl r)) → (1 < rp_commit_ts (rl r))%Z →
  let m' := replay_entry new_record env m r κ pg e rec in
  replay_ok m' ∧ entry_at m' x = Some (replayed new_record env (tn_type x.1) e rec (rp_commit_ts (rl r))) ∧
  (∀ y, y ≠ x → entry_at m' y = entry_at m y) ∧ ∀ t, schema_of m' t = schema_of m t.
Proof.
  intros [[H1 H2 H3 H4 H5] Hent] Hx He Ht Hts Hlt m'.
  set (e' := replayed new_record env (tn_type x.1) e rec (rp_commit_ts (rl r))).
  assert (replayable e') as Hr'.
  { eapply absorbs_replayable; [by eapply Hent| |apply replayed_absorbs; [done|by eapply Hent|done|done]]. cbn. lia. }
  assert (ccm_index m' = ccm_index m ∧ cce_heap m' = <[κ := e']> (cce_heap m) ∧ (∀ t, schema_of m' t = schema_of m t) ∧
    locks_ok (ccm_shard m') ∧ Now (ccm_shard m') = Now (ccm_shard m)) as (Ei & Eh & Es & El & En).
  { subst m' e'. unfold replay_entry, replayed. case_decide; [done|]. rewrite Ht.
    destruct (release_writer_same (mkMaps (ccm_shard m) (alter (λ i, mkCcmInfo (ccm_addr i) (CcMap.schema_ts_ i)
      (if decide (last_dirty_commit_ts_ i < rp_commit_ts (rl r))%Z then rp_commit_ts (rl r) else last_dirty_commit_ts_ i) (ccm_has_full_entries_ i)) x.1 (ccm_info m))
      (ccm_index m) (<[κ := newer_version env (tn_type x.1) e rec (rp_commit_ts (rl r))]> (cce_heap m)) (raise (page_dirty_ts m) pg (rp_commit_ts (rl r)))
      (last_read_ts_ m) (cc_wait_list_for_memory_ m) (fetch_sent m)) κ (rl_ng r)) as (R1 & R2 & R3 & R4 & R5).
    split_and!; [by rewrite R1|by rewrite R2| |by apply R4|by rewrite R5]. intros t. unfold schema_of. rewrite R3. cbn.
    destruct (decide (x.1 = t)) as [<-|]; [rewrite lookup_alter_eq; by destruct (ccm_info m !! x.1)|by rewrite lookup_alter_ne]. }
  clearbody m' e'. split_and!; [|unfold entry_at; by rewrite Ei, Eh, Hx; cbn; rewrite lookup_insert_eq| |done].
  - assert (∀ κ0 e0, cce_heap m' !! κ0 = Some e0 → replayable e0) as Hall.
    { intros κ0 e0. rewrite Eh. intros [[<- <-]|[_ ?]]%lookup_insert_Some; [done|by eapply Hent]. }
    split; [|done]. split; [done|by rewrite Ei| |intros κ0 e0 He0; by apply (Hall κ0)|lia].
    intros y κ0 pg0. rewrite Ei, Eh. intros Hy. destruct (decide (κ = κ0)) as [<-|]; [rewrite lookup_insert_eq; by eexists|].
    rewrite lookup_insert_ne by done. by eapply H3.
  - intros y Hne. unfold entry_at. rewrite Ei, Eh. destruct (ccm_index m !! y) as [[κ0 pg0]|] eqn:Hy; [|done]. cbn.
    rewrite lookup_insert_ne; [done|]. intros <-. by rewrite (H2 _ _ _ _ _ Hx Hy) in Hne.
Qed.

(** *** The loop over the entries of a record *)

Definition outcome_of (next : Z) : ReplayOutcome := if decide (next ≠ UINT16_MAX) then ReplayMove next else ReplayFinish.

Fixpoint replay_list (full : K → bool) (l : list (K * WriteSetEntry V)) m r (next : Z) : option (ReplayOutcome * maps) :=
  match l with
  | [] => Some (outcome_of next, m)
  | (k, w) :: l =>
      if decide (core_of k ≠ core_id env) then
        replay_list full l m r (next_core_of (core_id env) (rp_first_core (rl r)) (core_of k) next)
      else if skipped (rl_ng r) k then replay_list full l m r next
      else
        match FindEmplace env pick_page m (rp_table (rl r)) k (full k) with
        | None => Some (ReplayAgain, EnqueueWaitListIfMemoryFull m (rl_cc r))
        | Some (κ, pg, m1) => e ← cce_heap m1 !! κ; replay_list full l (replay_entry new_record env m1 r κ pg e (entry_effect w)) r next
        end
  end.

(** A write whose key and record can be read back from the log. *)
Definition loggable (ke : K * WriteSetEntry V) : Prop :=
  encodable ke.1 ∧ (op_ ke.2 = OpDelete ∨ (op_ ke.2 = OpInsert ∨ op_ ke.2 = OpUpdate) ∧ ∃ v, rec_ ke.2 = Some v ∧ encodable v).

(** The loop reads an entry of the record. *)
Lemma read_entry_at ke bs buf offset : loggable ke → log_entry ke = Some bs → image_at buf offset bs →
  ∃ o1 c, decode buf offset = Some (ke.1, o1) ∧ DesrializeFrom 1 buf o1 = Some (c, o1 + 1) ∧ replay_op c = Some (op_ ke.2) ∧
    rec_at (op_ ke.2) buf (o1 + 1) = Some (entry_effect ke.2, offset + length bs) ∧ 1 ≤ length bs.
Proof.
  destruct ke as [k w]. intros [Hk Hop] Hl Hi. unfold log_entry in Hl. cbn [fst snd] in *. destruct (encode k) as [kb|] eqn:Ek; [|done]. cbn [mbind option_bind] in Hl.
  assert (∃ rb, bs = kb ++ SerializeToStr 1 (op_code (op_ w)) ++ rb ∧
    (op_ w = OpDelete ∧ rb = [] ∨ (op_ w = OpInsert ∨ op_ w = OpUpdate) ∧ ∃ v, rec_ w = Some v ∧ encodable v ∧ encode v = Some rb)) as (rb & -> & Hrb).
  { destruct Hop as [Hop|(Hop & v & Hv & Hev)]; rewrite ?Hv in Hl.
    - rewrite decide_True in Hl by done. cbn [mbind option_bind] in Hl. exists []. split; [unfold SerializeToStr; congruence|by left].
    - rewrite decide_False in Hl by (destruct Hop; congruence). destruct (encode v) as [rb|] eqn:Ev; [|done]. cbn [mbind option_bind] in Hl.
      exists rb. split; [unfold SerializeToStr; congruence|]. right. eauto. }
  apply image_app in Hi as [H1 Hi]. exists (offset + length kb), (op_code (op_ w)). rewrite (decode_encode k kb) by done. split; [done|].
  assert (is_uint 1 (op_code (op_ w))) by (destruct (op_ w); by vm_compute). next_field Hi. split; [done|].
  split; [destruct Hrb as [[-> _]|[[->| ->] _]]; done|]. rewrite !length_app, length_SerializeToStr. split; [|lia]. unfold rec_at, entry_effect.
  destruct Hrb as [[Ho ->]|(Ho & v & Hv & Hev & Eb)].
  - rewrite Ho, decide_False by (intros [?|?]; done). cbn [length]. do 2 f_equal. lia.
  - rewrite decide_True by done. rewrite (decode_encode v rb) by done. cbn [mbind option_bind]. rewrite Hv. destruct Ho as [->| ->]; do 2 f_equal; lia.
Qed.

Lemma replay_loop_list full l m r pre bs next fuel : rp_blob (rl r) = pre ++ bs → log_entries l = Some bs → Forall loggable l → length bs ≤ fuel →
  loop full fuel m r (length pre) next = replay_list full l m r next.
Proof.
  revert m pre bs next fuel. induction l as [|[k w] l IH]; intros m pre bs next fuel Hb Hl Hok Hfuel; cbn [log_entries] in Hl.
  { injection Hl as <-. rewrite app_nil_r in Hb. destruct fuel; cbn [replay_loop replay_list]; rewrite Hb, decide_False by lia; done. }
  apply Forall_cons in Hok as [Hke Hok]. destruct (log_entry (k, w)) as [b|] eqn:Eb; [|done]. cbn [mbind option_bind] in Hl.
  destruct (log_entries l) as [rest|] eqn:El; [|done]. cbn [mbind option_bind] in Hl. assert (bs = b ++ rest) as -> by congruence. clear Hl.
  assert (image_at (rp_blob (rl r)) (length pre) b) as Hi by (rewrite Hb; apply image_here).
  destruct (read_entry_at _ _ _ _ Hke Eb Hi) as (o1 & c & E1 & E2 & E3 & E4 & Hlen). cbn [fst snd] in *. rewrite length_app in Hfuel.
  destruct fuel as [|fuel]; [lia|]. cbn [replay_loop replay_list]. rewrite decide_True by (rewrite Hb, !length_app; lia).
  rewrite E1. cbn [mbind option_bind]. rewrite E2. cbn [mbind option_bind]. rewrite E3. cbn [mbind option_bind]. rewrite E4. cbn [mbind option_bind].
  assert (∀ m' next', loop full fuel m' r (length pre + length b) next' = replay_list full l m' r next') as Hrest.
  { intros m' next'. rewrite <- length_app. apply (IH _ _ rest); [by rewrite Hb, app_assoc|done..|lia]. }
  case_decide; [apply Hrest|]. destruct (skipped _ k); [apply Hrest|]. destruct (FindEmplace _ _ _ _ _ _) as [[[κ pg] m1]|]; [|done].
  destruct (cce_heap m1 !! κ) as [e|]; [|done]. apply Hrest.
Qed.

(** *** What a request does to a shard *)

(** The versions that the log has of a key. *)
Context (P : TableName * K → VersionRecord V → Prop).

Definition view m x : CcEntry V := default CcEntry_new (entry_at m x).

(** An entry only gets newer, its versions are its own or logged, and old versions stay if
    there are any. *)
Definition grows (Q : VersionRecord V → Prop) e e' : Prop :=
  (CommitTs e ≤ CommitTs e')%Z ∧ (PayloadStatus e ≠ Unknown → PayloadStatus e' ≠ Unknown) ∧
  (∀ v, v ∈ versions e' → v ∈ versions e ∨ ∃ v', Q v' ∧ same_version v v') ∧
  (enable_mvcc env = true → ∀ v, v ∈ versions e → v ∈ versions e').

Definition covered e (v : VersionRecord V) : Prop :=
  (commit_ts_ v ≤ CommitTs e)%Z ∧ PayloadStatus e ≠ Unknown ∧ (enable_mvcc env = true → ∃ v', v' ∈ versions e ∧ commit_ts_ v' = commit_ts_ v).

Record shard_grows m m' : Prop := {
  sg_ok : replay_ok m';
  sg_schema t : schema_of m' t = schema_of m t;
  sg_view x : grows (P x) (view m x) (view m' x);
}.

Lemma grows_refl Q e : grows Q e e.
Proof. split_and!; [lia|done|by left|done]. Qed.
Lemma grows_trans Q e1 e2 e3 : grows Q e1 e2 → grows Q e2 e3 → grows Q e1 e3.
Proof. intros (A1 & A2 & A3 & A4) (B1 & B2 & B3 & B4). split_and!; [lia|auto| |auto]. intros v [Hv|?]%B3; [by apply A3|by right]. Qed.
Lemma grows_covered Q e e' v : grows Q e e' → covered e v → covered e' v.
Proof. intros (A1 & A2 & _ & A4) (B1 & B2 & B3). split_and!; [lia|auto|]. intros Hm. destruct (B3 Hm) as (v' & ? & ?). exists v'. split; [by apply A4|done]. Qed.

Lemma shard_grows_refl m : replay_ok m → shard_grows m m.
Proof. intros Hok. split; [done|done|]. intros x. apply grows_refl. Qed.
Lemma shard_grows_trans m1 m2 m3 : shard_grows m1 m2 → shard_grows m2 m3 → shard_grows m1 m3.
Proof. intros [_ A2 A3] [B1 B2 B3]. split; [done|intros; by rewrite B2|]. intros x. by eapply grows_trans. Qed.

(** One entry of the record. *)
Lemma replay_key_grows m r k rec full κ pg m1 : replay_ok m → is_ts (rp_commit_ts (rl r)) → (1 < rp_commit_ts (rl r))%Z →
  let x := (rp_table (rl r), k) in let v := logged_version rec (rp_commit_ts (rl r)) in P x v →
  FindEmplace env pick_page m (rp_table (rl r)) k full = Some (κ, pg, m1) →
  ∃ e, cce_heap m1 !! κ = Some e ∧ let m' := replay_entry new_record env m1 r κ pg e rec in shard_grows m m' ∧ covered (view m' x) v.
Proof.
  intros Hok Hts Hlt x v HP Hf. destruct (FindEmplace_entry _ _ _ _ _ _ _ Hok Hf) as (Hok1 & Hi & He & Hoth & Hinfo).
  fold (view m x) in He. exists (view m x). split; [done|]. cbn zeta.
  destruct (replay_entry_ok m1 r κ pg (view m x) rec x Hok1 Hi He eq_refl Hts Hlt) as (Hok2 & Hx & Hy & Hs). cbn zeta in *.
  set (m' := replay_entry new_record env m1 r κ pg (view m x) rec) in *.
  pose proof (replayed_absorbs new_record env (tn_type x.1) (view m x) rec _ mvcc_versioned (entry_replayable m x Hok) Hts Hlt) as [A1 A2 A3 A4 A5 A6].
  assert (view m' x = replayed new_record env (tn_type x.1) (view m x) rec (rp_commit_ts (rl r))) as Ev by (unfold view at 1; by rewrite Hx).
  split; [split; [done|intros t; rewrite Hs; unfold schema_of; by rewrite Hinfo|]|].
  - intros y. destruct (decide (y = x)) as [->|Hne]; [rewrite Ev|unfold view; rewrite Hy, Hoth by done; apply grows_refl].
    split_and!; [rewrite A1; lia|done| |by intros; apply A5]. intros w [?|?]%A4; [by left|right; eauto].
  - rewrite Ev. split_and!; [rewrite A1; unfold v; lia|done|done].
Qed.

Definition next_of r (l : list (K * WriteSetEntry V)) (next : Z) : Z :=
  foldl (λ n ke, if decide (core_of ke.1 ≠ core_id env) then next_core_of (core_id env) (rp_first_core (rl r)) (core_of ke.1) n else n) next l.

Lemma full_again m (req : CcRequestBase) : replay_ok m → shard_grows m (EnqueueWaitListIfMemoryFull m req).
Proof. intros Hok. split; [|done|intros x; apply grows_refl]. destruct Hok as [[H1 H2 H3 H4 H5] H6]. split; [split|]; done. Qed.

Lemma replay_list_grows full r l m next : replay_ok m → is_ts (rp_commit_ts (rl r)) → (1 < rp_commit_ts (rl r))%Z →
  (∀ k w, (k, w) ∈ l → core_of k = core_id env → skipped (rl_ng r) k = false → P (rp_table (rl r), k) (logged_version (entry_effect w) (rp_commit_ts (rl r)))) →
  ∃ out m', replay_list full l m r next = Some (out, m') ∧ shard_grows m m' ∧
    (out = ReplayAgain ∧ (∃ k, full k = true) ∨ out = outcome_of (next_of r l next) ∧
     ∀ k w, (k, w) ∈ l → core_of k = core_id env → skipped (rl_ng r) k = false →
       covered (view m' (rp_table (rl r), k)) (logged_version (entry_effect w) (rp_commit_ts (rl r)))).
Proof.
  intros Hok Hts Hlt. revert m next Hok. induction l as [|[k w] l IH]; intros m next Hok HP; cbn [replay_list].
  { do 2 eexists. split; [done|]. split; [by apply shard_grows_refl|]. right. split; [done|]. intros k w Hin. by apply not_elem_of_nil in Hin. }
  assert (∀ k' w', (k', w') ∈ l → core_of k' = core_id env → skipped (rl_ng r) k' = false → P (rp_table (rl r), k') (logged_version (entry_effect w') (rp_commit_ts (rl r)))) as HP'
    by (intros k' w' Hin; apply HP; set_solver). cbn [next_of foldl fst]. destruct (decide (core_of k ≠ core_id env)) as [Hne|Heq].
  { destruct (IH m (next_core_of (core_id env) (rp_first_core (rl r)) (core_of k) next) Hok HP') as (out & m' & -> & Hg & Ho).
    do 2 eexists. split; [done|]. split; [done|]. destruct Ho as [Ho|[Ho Hc]]; [by left|]. right. split; [done|]. intros k' w' [[= -> ->]|Hin]%elem_of_cons; [done|by apply Hc]. }
  apply dec_stable in Heq. destruct (skipped (rl_ng r) k) eqn:Hsk.
  { destruct (IH m next Hok HP') as (out & m' & -> & Hg & Ho).
    do 2 eexists. split; [done|]. split; [done|]. destruct Ho as [Ho|[Ho Hc]]; [by left|]. right. split; [done|]. intros k' w' [[= -> ->]|Hin]%elem_of_cons; [congruence|by apply Hc]. }
  destruct (FindEmplace env pick_page m (rp_table (rl r)) k (full k)) as [[[κ pg] m1]|] eqn:Hf.
  2:{ do 2 eexists. split; [done|]. split; [by apply full_again|]. left. split; [done|]. exists k. unfold FindEmplace in Hf. by destruct (ccm_index m !! _) as [[]|], (full k). }
  destruct (replay_key_grows m r k (entry_effect w) (full k) κ pg m1 Hok Hts Hlt) as (e & -> & Hg1 & Hc1); [apply HP; set_solver|done|]. cbn [mbind option_bind].
  destruct (IH (replay_entry new_record env m1 r κ pg e (entry_effect w)) next (sg_ok _ _ Hg1) HP') as (out & m' & -> & Hg & Ho).
  do 2 eexists. split; [done|]. split; [by eapply shard_grows_trans|]. destruct Ho as [Ho|[Ho Hc]]; [by left|]. right. split; [done|].
  intros k' w' [[= -> ->]|Hin]%elem_of_cons; [intros; eapply grows_covered; [apply Hg|done]|by apply Hc].
Qed.
End shard.

(** ** All cores of a node *)

Section system.
Context {K V C O : Type} `{Countable K} `{!Codec K, !Codec V, !CodecOk K, !CodecOk V} (bound : Z).
Context (pick_page : TableName → K → Z) (new_record : V) (core_cnt : Z) (key_hash : K → Z).
Context (range_id : K → Z) (bucket_of : Z → BucketInfo) (new_range_id : K → Z).
(** The environment of a core, and whether the node keeps old versions. *)
Context (env : Z → CcEnv) (mvcc : bool) (ng : Z).
Abbreviation maps := (ShardMaps K V C O).
Abbreviation core_of := (key_core core_cnt key_hash).
Abbreviation skipped := (skip_key range_id bucket_of new_range_id).
Abbreviation Execute := (Execute_ReplayLogCc pick_page new_record core_cnt key_hash range_id bucket_of new_range_id).
Implicit Types (r : ReplayLogCc) (x : TableName * K) (c : Z).

(** The shards by core, and the requests with the core they are at. *)
Record Replaying := mkReplaying {
  shards : Z → maps;
  pending : list (ReplayLogCc * Z);
}.

Definition moved (l : list (ReplayLogCc * Z)) (i : nat) r (out : ReplayOutcome) : list (ReplayLogCc * Z) :=
  match out with ReplayAgain => l | ReplayMove c' => <[i := (r, c')]> l | ReplayFinish => delete i l end.

(** Any request is executed on its core. *)
Inductive replay_step : Replaying → Replaying → Prop :=
  | step_exec s i r c full out m' : pending s !! i = Some (r, c) → Execute (env c) full (shards s c) r = Some (out, m') →
      replay_step s (mkReplaying (<[c := m']> (shards s)) (moved (pending s) i r out)).

Definition replay_init (sh : Z → maps) (reqs : list ReplayLogCc) : Replaying := mkReplaying sh ((λ r, (r, rp_first_core (rl r))) <$> reqs).

Context (tagged : list (ReplayLogCc * list (K * WriteSetEntry V))) (P : TableName * K → VersionRecord V → Prop) (sh0 : Z → maps).

(** A request with the entries its blob was made of. *)
Record request_ok r (l : list (K * WriteSetEntry V)) : Prop := {
  rq_blob : log_entries l = Some (rp_blob (rl r));
  rq_loggable : Forall loggable l;
  rq_ts : is_ts (rp_commit_ts (rl r)) ∧ (1 < rp_commit_ts (rl r))%Z;
  rq_core : (0 ≤ rp_first_core (rl r) < core_cnt)%Z;
  rq_ng : rl_ng r = ng;
  rq_logged k w : (k, w) ∈ l → skipped ng k = false → P (rp_table (rl r), k) (logged_version (entry_effect w) (rp_commit_ts (rl r)));
  rq_schema c : (0 ≤ c < core_cnt)%Z → ∃ ts, schema_of (sh0 c) (rp_table (rl r)) = Some ts ∧ (ts ≤ rp_commit_ts (rl r))%Z;
}.

Hypothesis cores : (0 < core_cnt < UINT16_MAX)%Z.
Hypothesis env_ok : ∀ c, core_id (env c) = c ∧ enable_mvcc (env c) = mvcc ∧ (mvcc = true → versioned (env c) = true) ∧ ∀ X, cce_alloc (env c) X ∉ X.
Hypothesis shards_ok : ∀ c, replay_ok bound (sh0 c).
Hypothesis requests_ok : ∀ r l, (r, l) ∈ tagged → request_ok r l.

Lemma key_core_range k : (0 ≤ core_of k < core_cnt)%Z.
Proof. unfold LogReplay.key_core. apply Z.mod_pos_bound. lia. Qed.

(** A core that the request goes to after [c]. *)
Definition eligible r c (core : Z) : Prop := core ≠ c ∧ (c = rp_first_core (rl r) ∨ core ≠ rp_first_core (rl r) ∧ (c < core)%Z).

Lemma next_of_spec r c (l : list (K * WriteSetEntry V)) start : core_id (env c) = c → let n := next_of core_cnt key_hash (env c) r l start in
  (n ≤ start)%Z ∧ (∀ k w, (k, w) ∈ l → eligible r c (core_of k) → n ≤ core_of k)%Z ∧ (n = start ∨ ∃ k, eligible r c n ∧ n = core_of k).
Proof.
  intros Hc. unfold next_of. rewrite Hc. revert start. induction l as [|[k w] l IH]; intros start; cbn [foldl].
  { split_and!; [lia| |by left]. intros k w Hin. by apply not_elem_of_nil in Hin. }
  cbn [fst]. set (start' := if decide _ then _ else start).
  assert ((start' ≤ start)%Z ∧ (eligible r c (core_of k) → start' ≤ core_of k)%Z ∧ (start' = start ∨ eligible r c start' ∧ start' = core_of k)) as (S1 & S2 & S3).
  { subst start'. unfold eligible, next_core_of. case_decide as Hne; [|split_and!; [lia|tauto|by left]].
    destruct (bool_decide (c = rp_first_core (rl r))) eqn:B1; bool_to_prop; cbn [orb]; [|destruct (bool_decide (core_of k ≠ rp_first_core (rl r)) && bool_decide (c < core_of k)%Z) eqn:B2].
    - split_and!; [lia|lia|]. destruct (Z.min_spec (core_of k) start) as [[? ->]|[? ->]]; [right; tauto|by left].
    - bool_to_prop. split_and!; [lia|lia|]. destruct (Z.min_spec (core_of k) start) as [[? ->]|[? ->]]; [right; tauto|by left].
    - split_and!; [lia| |by left]. intros [_ [?|[? ?]]]; [done|]. apply andb_false_iff in B2 as [B2|B2]; bool_to_prop; tauto. }
  destruct (IH start') as (I1 & I2 & I3). split_and!; [lia| |].
  - intros k' w' [[= -> ->]|Hin]%elem_of_cons He; [specialize (S2 He); lia|by eapply I2].
  - destruct I3 as [->|?]; [|by right]. destruct S3 as [->|[? ?]]; [by left|right; eauto].
Qed.

(** One execution. *)
Lemma Execute_ok r l c full m : (r, l) ∈ tagged → (0 ≤ c < core_cnt)%Z → shard_grows bound (env c) P (sh0 c) m →
  ∃ out m', Execute (env c) full m r = Some (out, m') ∧ shard_grows bound (env c) P m m' ∧
    (out = ReplayAgain ∧ (∃ k, full k = true) ∨ out = outcome_of (next_of core_cnt key_hash (env c) r l UINT16_MAX) ∧
     ∀ k w, (k, w) ∈ l → core_of k = c → skipped ng k = false →
       covered (env c) (view m' (rp_table (rl r), k)) (logged_version (entry_effect w) (rp_commit_ts (rl r)))).
Proof.
  intros Hin Hc Hg. destruct (requests_ok r l Hin) as [Q1 Q2 [Q3 Q3'] Q4 Q5 Q6 Q7]. destruct (env_ok c) as (Ec & Em & Ev & Ea).
  destruct (Q7 c Hc) as (ts & Hs & Hle). rewrite <- (sg_schema _ _ _ _ _ Hg) in Hs. unfold schema_of in Hs.
  unfold Execute_ReplayLogCc. destruct (ccm_info m !! _) as [i|]; [|done]. injection Hs as <-. cbn [mbind option_bind]. rewrite decide_False by lia.
  rewrite (replay_loop_list pick_page new_record core_cnt key_hash range_id bucket_of new_range_id (env c) full l m r [] (rp_blob (rl r))) by done.
  assert (enable_mvcc (env c) = true → versioned (env c) = true) as Hmv by by rewrite Em.
  destruct (replay_list_grows bound pick_page new_record core_cnt key_hash range_id bucket_of new_range_id (env c) Ea Hmv P full r l m UINT16_MAX)
    as (out & m' & -> & Hg' & Ho); [apply Hg|done|done|intros k w Hk _; rewrite Q5; by apply Q6|].
  rewrite Ec, Q5 in Ho. by exists out, m'.
Qed.

(** *** The invariant *)

(** The core is [c] or one that the request still goes to. *)
Definition to_visit r c (core : Z) : Prop := core = c ∨ eligible r c core.

Record replaying_ok s : Prop := {
  sy_shards c : shard_grows bound (env c) P (sh0 c) (shards s c);
  sy_pending r c : (r, c) ∈ pending s → (0 ≤ c < core_cnt)%Z ∧ ∃ l, (r, l) ∈ tagged;
  sy_entries r l k w : (r, l) ∈ tagged → (k, w) ∈ l → skipped ng k = false →
    covered (env (core_of k)) (view (shards s (core_of k)) (rp_table (rl r), k)) (logged_version (entry_effect w) (rp_commit_ts (rl r))) ∨
    ∃ c, (r, c) ∈ pending s ∧ to_visit r c (core_of k);
}.

Lemma replaying_init : replaying_ok (replay_init sh0 tagged.*1).
Proof.
  split; cbn.
  - intros c. by apply shard_grows_refl.
  - intros r c (r' & [= -> ->] & ([r0 l] & -> & Hin)%list_elem_of_fmap)%list_elem_of_fmap. cbn. destruct (requests_ok _ _ Hin) as [_ _ _ ? _ _ _]. eauto.
  - intros r l k w Hin Hk Hsk. right. exists (rp_first_core (rl r)). split.
    + apply list_elem_of_fmap. exists r. split; [done|]. apply list_elem_of_fmap. by exists (r, l).
    + unfold to_visit, eligible. destruct (decide (core_of k = rp_first_core (rl r))); [by left|right]. tauto.
Qed.

Lemma moved_elem (l : list (ReplayLogCc * Z)) i r out y : y ∈ moved l i r out → y ∈ l ∨ ∃ c', out = ReplayMove c' ∧ y = (r, c').
Proof.
  destruct out as [|c'|]; cbn; [|intros [j Hj]%list_elem_of_lookup|by left].
  - intros [j Hj]%list_elem_of_lookup. rewrite list_lookup_delete in Hj. left. case_decide; by eapply list_elem_of_lookup_2.
  - apply list_lookup_insert_Some in Hj as [(_ & <- & _)|[_ Hj]]; [right; eauto|left; by eapply list_elem_of_lookup_2].
Qed.

Lemma moved_other (l : list (ReplayLogCc * Z)) i r c out y : l !! i = Some (r, c) → y ∈ l → y ∈ moved l i r out ∨ y = (r, c).
Proof.
  intros Hi [j Hj]%list_elem_of_lookup. destruct (decide (j = i)) as [->|Hne]; [right; congruence|left]. destruct out as [|c'|]; cbn.
  - apply list_elem_of_lookup. destruct (decide (j < i)); [exists j; by rewrite list_lookup_delete_lt|].
    exists (pred j). rewrite list_lookup_delete_ge by lia. by replace (S (pred j)) with j by lia.
  - apply list_elem_of_lookup. exists j. by rewrite list_lookup_insert_ne.
  - by eapply list_elem_of_lookup_2.
Qed.

(** Where an execution that is not repeated takes the request. *)
Lemma outcome_move r c (l : list (K * WriteSetEntry V)) c' : outcome_of (next_of core_cnt key_hash (env c) r l UINT16_MAX) = ReplayMove c' →
  eligible r c c' ∧ (0 ≤ c' < core_cnt)%Z ∧ ∀ k w, (k, w) ∈ l → eligible r c (core_of k) → to_visit r c' (core_of k).
Proof.
  unfold outcome_of. case_decide as Hn; [|done]. intros [= <-]. destruct (next_of_spec r c l UINT16_MAX) as (_ & N2 & N3); [apply env_ok|].
  destruct N3 as [?|(k0 & He & Hk0)]; [done|]. split_and!; [done|rewrite Hk0; apply key_core_range..|].
  intros k w Hk Hek. specialize (N2 k w Hk Hek). set (n := next_of _ _ _ _ _ _) in *. unfold to_visit, eligible in *.
  destruct (decide (core_of k = n)); [by left|right]. split; [done|]. right. split; [|lia]. destruct Hek as [? [->|[? ?]]]; [congruence|done].
Qed.

Lemma outcome_finish r c (l : list (K * WriteSetEntry V)) k w : outcome_of (next_of core_cnt key_hash (env c) r l UINT16_MAX) = ReplayFinish → (k, w) ∈ l → ¬ eligible r c (core_of k).
Proof.
  unfold outcome_of. case_decide as Hn; [done|]. intros _ Hk He. destruct (next_of_spec r c l UINT16_MAX) as (_ & N2 & _); [apply env_ok|].
  specialize (N2 k w Hk He). pose proof (key_core_range k). cbn zeta in N2. rewrite Hn in N2. lia.
Qed.

Lemma replaying_step s s' : replaying_ok s → replay_step s s' → replaying_ok s'.
Proof.
  intros Hok Hst. destruct Hst as [s0 i r c full out m' Hi Hex]. destruct Hok as [S1 S2 S3]. pose proof (S2 r c (list_elem_of_lookup_2 _ _ _ Hi)) as [Hc [l0 Hl0]].
  assert (∀ l, (r, l) ∈ tagged → shard_grows bound (env c) P (shards s0 c) m' ∧ (out = ReplayAgain ∨ out = outcome_of (next_of core_cnt key_hash (env c) r l UINT16_MAX) ∧
     ∀ k w, (k, w) ∈ l → core_of k = c → skipped ng k = false → covered (env c) (view m' (rp_table (rl r), k)) (logged_version (entry_effect w) (rp_commit_ts (rl r))))) as Hexec.
  { intros l Hl. destruct (Execute_ok r l c full (shards s0 c) Hl Hc (S1 c)) as (out' & m'' & Hex' & Hg & Ho). rewrite Hex in Hex'. injection Hex' as <- <-.
    split; [done|]. destruct Ho as [[? _]|?]; [by left|by right]. }
  destruct (Hexec l0 Hl0) as [Hg Hout0].
  assert (∀ c', shard_grows bound (env c') P (shards s0 c') (<[c := m']> (shards s0) c')) as Hgrow.
  { intros c'. destruct (decide (c = c')) as [<-|]; [by rewrite fn_lookup_insert|rewrite fn_lookup_insert_ne by done; apply shard_grows_refl, S1]. }
  split; cbn.
  - intros c'. eapply shard_grows_trans; [apply S1|apply Hgrow].
  - intros r' c' [Hin|(c1 & -> & [= -> ->])]%moved_elem; [by apply S2|]. destruct Hout0 as [?|[Ho _]]; [done|]. symmetry in Ho.
    destruct (outcome_move _ _ _ _ Ho) as (_ & ? & _). eauto.
  - intros r' l k w Hl Hk Hsk. destruct (S3 r' l k w Hl Hk Hsk) as [Hcov|(c1 & Hp & Hv)].
    { left. eapply grows_covered; [apply Hgrow|done]. }
    destruct (moved_other _ _ _ _ out _ Hi Hp) as [Hin|[= -> ->]]; [right; eauto|].
    destruct (Hexec l Hl) as [_ [->|[Ho Hcov]]]; [right; exists c; split; [by eapply list_elem_of_lookup_2|done]|].
    destruct Hv as [Hv|Hv]; [left; rewrite Hv, fn_lookup_insert; by apply Hcov|]. destruct out as [|c'|].
    + symmetry in Ho. by destruct (outcome_finish _ _ _ _ _ Ho Hk).
    + symmetry in Ho. destruct (outcome_move _ _ _ _ Ho) as (_ & _ & Ht). right. exists c'. split; [|by eapply Ht]. cbn.
      apply list_elem_of_lookup. exists i. apply list_lookup_insert_eq. by eapply lookup_lt_Some.
    + unfold outcome_of in Ho. by case_decide.
Qed.

(** *** Termination *)

Definition rank r c : nat := if decide (c = rp_first_core (rl r)) then Z.to_nat core_cnt else Z.to_nat (core_cnt - 1 - c).
Definition work (l : list (ReplayLogCc * Z)) : nat := sum_list ((λ rc, S (rank rc.1 rc.2)) <$> l).

Lemma eligible_rank r c c' : eligible r c c' → (0 ≤ c < core_cnt)%Z → (0 ≤ c' < core_cnt)%Z → rank r c' < rank r c.
Proof. unfold eligible, rank. intros [? [->|[? ?]]] ? ?; repeat case_decide; try congruence; lia. Qed.

Lemma replay_progress s r c : replaying_ok s → head (pending s) = Some (r, c) → ∃ s', replay_step s s' ∧ replaying_ok s' ∧ work (pending s') < work (pending s).
Proof.
  intros Hok Hh. destruct (pending s) as [|[r0 c0] rest] eqn:Hp; [done|]. injection Hh as -> ->.
  destruct (sy_pending _ Hok r c) as [Hc [l Hl]]; [rewrite Hp; set_solver|].
  destruct (Execute_ok r l c (λ _, false) (shards s c) Hl Hc (sy_shards _ Hok c)) as (out & m' & Hex & _ & Ho).
  eassert (replay_step s _) as Hstep; [eapply (step_exec s 0); [by rewrite Hp|done]|]. eexists. split; [exact Hstep|]. split; [by eapply replaying_step|].
  rewrite Hp. cbn. destruct Ho as [[_ [k ?]]|[Ho _]]; [done|]. destruct out as [|c'|]; cbn [moved list_insert list_delete delete insert].
  - unfold work. cbn. lia.
  - symmetry in Ho. destruct (outcome_move _ _ _ _ Ho) as (He & Hr & _). pose proof (eligible_rank _ _ _ He Hc Hr). unfold work. cbn. lia.
  - unfold outcome_of in Ho. by case_decide.
Qed.

Lemma replay_completes s : replaying_ok s → ∃ s', rtc replay_step s s' ∧ pending s' = [].
Proof.
  remember (work (pending s)) as n eqn:Hn. revert s Hn. induction n as [n IH] using lt_wf_ind. intros s -> Hok.
  destruct (head (pending s)) as [[r c]|] eqn:Hh; [|exists s; split; [done|by destruct (pending s)]].
  destruct (replay_progress s r c Hok Hh) as (s1 & Hs & Hok1 & Hlt). destruct (IH _ Hlt s1 eq_refl Hok1) as (s' & Hr & Hd). exists s'. split; [by eapply rtc_l|done].
Qed.

(** *** The result *)

(** [w] is the newest of the versions [Q]. *)
Definition newest_of (Q : VersionRecord V → Prop) (w : VersionRecord V) : Prop :=
  (∃ v, Q v ∧ same_version w v) ∧ ∀ v, Q v → (commit_ts_ v ≤ commit_ts_ w)%Z.

(** The current version of the entry is the newest of [Q], and a snapshot reads the newest
    one that it may see. *)
Definition recovered (Q : VersionRecord V → Prop) (e : CcEntry V) : Prop :=
  newest_of Q (cur_version e) ∧
  (mvcc = true → ∀ ts last_read rec, (∃ v, Q v ∧ (commit_ts_ v ≤ ts)%Z) →
    ∃ v, newest_of (λ v, Q v ∧ (commit_ts_ v ≤ ts)%Z) v ∧ (MvccGet e ts last_read rec).1 = version_result rec v).

Hypothesis logged_complete : ∀ x v, P x v →
  ∃ r l w, (r, l) ∈ tagged ∧ rp_table (rl r) = x.1 ∧ (x.2, w) ∈ l ∧ skipped ng x.2 = false ∧ v = logged_version (entry_effect w) (rp_commit_ts (rl r)).

Lemma replayed_recovered s x : replaying_ok s → pending s = [] → (∃ v, P x v) →
  ∃ e, entry_at (shards s (core_of x.2)) x = Some e ∧ recovered (λ v, P x v ∨ v ∈ versions (view (sh0 (core_of x.2)) x)) e.
Proof.
  intros [S1 _ S3] Hp [v0 HP0]. set (c := core_of x.2). set (e := view (shards s c) x). set (e0 := view (sh0 c) x).
  assert (∀ v, P x v → covered (env c) e v) as Hcov.
  { intros v (r & l & w & Hl & Ht & Hk & Hsk & ->)%logged_complete. destruct (S3 r l x.2 w Hl Hk Hsk) as [Hc|(c1 & Hin & _)].
    - subst e c. destruct x as [t k]. cbn in *. by rewrite Ht in Hc.
    - rewrite Hp in Hin. by apply not_elem_of_nil in Hin. }
  destruct (Hcov v0 HP0) as (_ & Hk & _). destruct (S1 c) as [Hok _ Hv]. destruct (Hv x) as (G1 & _ & G3 & G4). fold e e0 in G1, G3, G4.
  pose proof (entry_replayable bound (shards s c) x Hok) as (_ & Hsort & _). fold (view (shards s c) x) in Hsort. fold e in Hsort.
  pose proof (entry_replayable bound (sh0 c) x (shards_ok c)) as (_ & _ & Hle0). fold (view (sh0 c) x) in Hle0. fold e0 in Hle0.
  assert (entry_at (shards s c) x = Some e) as Hat by (unfold e, view in *; by destruct (entry_at (shards s c) x)).
  set (Q := λ v, P x v ∨ v ∈ versions e0).
  assert (∀ w, w ∈ versions e → ∃ v, Q v ∧ same_version w v) as Hsound.
  { intros w [Hw|(v & ? & ?)]%G3; [exists w; split; [by right|done]|exists v; split; [by left|done]]. }
  exists e. split; [done|]. split; [split|].
  - apply Hsound. rewrite versions_known by done. apply elem_of_cons. by left.
  - intros v [Hv'|Hv']; cbn; [by destruct (Hcov v Hv')|]. specialize (Hle0 v Hv'). lia.
  - intros Hm ts last_read rec (v1 & HQ1 & Hle1). destruct (env_ok c) as (_ & Em & _).
    assert (∀ v, Q v → ∃ w, w ∈ versions e ∧ commit_ts_ w = commit_ts_ v) as Hthere.
    { intros v [Hv'|Hv']; [destruct (Hcov v Hv') as (_ & _ & Hx); apply Hx; congruence|]. exists v. split; [apply G4; [congruence|done]|done]. }
    rewrite (MvccGet_find e ts last_read rec Hk). cbn. pose proof (mvcc_find_sorted ts _ Hsort) as Hf. destruct (mvcc_find ts (versions e)) as [w|].
    + destruct Hf as (Hw & Hwle & Hmax). exists w. split; [|done]. split.
      * destruct (Hsound w Hw) as (v & HQ & Hsame). exists v. split; [|done]. split; [done|]. destruct Hsame as (<- & _). done.
      * intros v [HQ Hle]. destruct (Hthere v HQ) as (w' & Hw' & E). rewrite <- E. apply Hmax; [done|lia].
    + destruct (Hthere v1 HQ1) as (w' & Hw' & E). specialize (Hf w' Hw'). lia.
Qed.
End system.

(** ** From the log of the transactions to the recovered node *)

Section recovery.
Context {K V C O : Type} `{Countable K} `{!Codec K, !Codec V, !CodecOk K, !CodecOk V} (bound : Z).
Context (pick_page : TableName → K → Z) (new_record : V) (core_cnt : Z) (key_hash : K → Z).
Context (range_id : K → Z) (bucket_of : Z → BucketInfo) (new_range_id : K → Z).
Context (env : Z → CcEnv) (mvcc : bool) (ng : Z).
Context (schema_msg : K → ReplicaWriteSetEntry V → SchemaOpMessage) (KeyHash : bytes → nat → Z).
Abbreviation maps := (ShardMaps K V C O).
Abbreviation skipped := (skip_key range_id bucket_of new_range_id).

(** A transaction that wrote its log: commit timestamp, sets and log request. *)
Abbreviation logged_tx := (Z * ReadWriteSet K V * WriteLogRequest)%type.
Implicit Types (txs : list logged_tx) (sh : Z → maps).

Record tx_logged sh (tx : logged_tx) : Prop := {
  tl_fill : ∃ tx_term txn, FillDataLogRequest schema_msg tx_term txn tx.1.1 tx.1.2 = Some (inr tx.2);
  tl_ts : is_ts tx.1.1 ∧ (1 < tx.1.1)%Z;
  tl_size blob : node_txn_logs tx.2 !! ng = Some blob → (Z.of_nat (length blob) < 2 ^ 32)%Z;
  tl_write t k w : FindWrite tx.1.2 t k = Some w →
    loggable (k, w) ∧ length (tn_name t) < 256 ∧ (tn_type t = Primary ∨ tn_type t = Secondary ∨ tn_type t = UniqueSecondary) ∧
    ∀ c, (0 ≤ c < core_cnt)%Z → ∃ ts, schema_of (sh c) t = Some ts ∧ (ts ≤ tx.1.1)%Z;
}.

(** The versions of a key that the transactions wrote in the node group, except those that
    the replay skips. *)
Definition wrote txs (x : TableName * K) (v : VersionRecord V) : Prop :=
  ∃ tx w, tx ∈ txs ∧ FindWrite tx.1.2 x.1 x.2 = Some w ∧ goes_to w ng ∧ skipped ng x.2 = false ∧ v = logged_version (entry_effect w) tx.1.1.

(** What the log service ships: the logs of the transactions for the node group.  The list
    has them in the order they are shipped, which can be any, and can have repetitions. *)
Definition shipped txs : list (Z * bytes) := omap (λ tx : logged_tx, pair tx.1.1 <$> node_txn_logs tx.2 !! ng) txs.

Lemma tables_log_nil (l : list (TableName * list (K * WriteSetEntry V))) : tables_log l = Some [] → l = [].
Proof.
  destruct l as [|x l]; [done|]. cbn [tables_log]. unfold table_log. destruct (log_entries x.2); [|done]. cbn [mbind option_bind].
  destruct (tables_log l); [|done]. cbn [mbind option_bind]. done.
Qed.

Lemma tables_of sh tx : tx_logged sh tx → ∃ tables, tables_log tables = Some (default [] (node_txn_logs tx.2 !! ng)) ∧ Forall (λ tl, log_table_ok tl ∧ tl.2 ≠ []) tables ∧
  ∀ t k w, (∃ l, (t, l) ∈ tables ∧ (k, w) ∈ l) ↔ FindWrite tx.1.2 t k = Some w ∧ goes_to w ng.
Proof.
  intros [(tx_term & txn & Hf) [Hts _] Hsz Hw].
  pose proof (FillDataLogRequest_logs _ _ _ _ _ _ Hf) as [_ Hl]. destruct (Hl ng) as (tables & Ht & Hne & Hel).
  assert (∀ t k w, (∃ l, (t, l) ∈ map_to_list tables ∧ (k, w) ∈ l) ↔ FindWrite tx.1.2 t k = Some w ∧ goes_to w ng) as Heq.
  { intros t k w. rewrite <- Hel. setoid_rewrite elem_of_map_to_list. destruct (tables !! t) as [l|] eqn:E; cbn; [naive_solver|]. split; [by intros (? & ? & _)|by intros ?%not_elem_of_nil]. }
  exists (map_to_list tables). split_and!; [done| |done].
  apply Forall_forall. intros [t l] Htl. pose proof Htl as Hl'%elem_of_map_to_list. destruct l as [|[k w] l]; [by destruct (Hne _ _ Hl')|].
  destruct (proj1 (Heq t k w)) as [Hfw _]; [eexists; split; [done|set_solver]|]. by destruct (Hw t k w Hfw) as (_ & ? & ? & _).
Qed.

(** The records with the tables they were made of. *)
Lemma shipped_records sh txs : Forall (tx_logged sh) txs → ∃ recs : list (Z * list (TableName * list (K * WriteSetEntry V)) * bytes),
  Forall (λ rec, log_record_ok rec ∧ Forall (λ tl, tl.2 ≠ []) rec.1.2) recs ∧ (λ rec, (rec.1.1, rec.2)) <$> recs = shipped txs ∧
  ∀ ts t k w, (∃ tables blob l, (ts, tables, blob) ∈ recs ∧ (t, l) ∈ tables ∧ (k, w) ∈ l) ↔
    ∃ tx, tx ∈ txs ∧ tx.1.1 = ts ∧ FindWrite tx.1.2 t k = Some w ∧ goes_to w ng.
Proof.
  induction 1 as [|tx txs Htx _ (recs & Hok & Hmap & Heq)]; [exists []; split_and!; [constructor|done|set_solver]|].
  destruct (tables_of sh tx Htx) as (tables & Ht & Htok & Hel). destruct Htx as [_ [Hts _] Hsz _].
  destruct (node_txn_logs tx.2 !! ng) as [blob|] eqn:Hb; cbn in Ht.
  - exists ((tx.1.1, tables, blob) :: recs). split_and!.
    + apply Forall_and in Htok as [Htok Hne]. constructor; [|done]. split; [|done]. split_and!; [unfold is_uint, is_ts in *; cbn; lia|done|done|by apply Hsz].
    + unfold shipped. cbn. rewrite Hb. cbn. by rewrite Hmap.
    + intros ts t k w. setoid_rewrite elem_of_cons. specialize (Heq ts t k w). specialize (Hel t k w). naive_solver.
  - apply tables_log_nil in Ht as ->. exists recs. split_and!; [done|unfold shipped; cbn; rewrite Hb; cbn; done|].
    intros ts t k w. rewrite Heq. setoid_rewrite elem_of_cons. specialize (Hel t k w). split; [naive_solver|].
    intros (tx' & [->|?] & ? & ? & ?); [|by eauto]. destruct (proj2 Hel) as (l & Hl & _); [done|]. by apply not_elem_of_nil in Hl.
Qed.

(** The requests that they are cut into, with the entries of each. *)
Lemma shipped_requests sh txs : Forall (tx_logged sh) txs → (0 < core_cnt)%Z →
  ∃ reqs (ls : list (Z * (TableName * list (K * WriteSetEntry V)))),
    ParseDataLogCc_Execute KeyHash core_cnt (ship (shipped txs)) = Some reqs ∧ Forall2 (λ x r, replays core_cnt x.1 x.2 r) ls reqs ∧
    Forall (λ x, x.2.2 ≠ []) ls ∧ ∀ ts t k w, (∃ l, (ts, (t, l)) ∈ ls ∧ (k, w) ∈ l) ↔ ∃ tx, tx ∈ txs ∧ tx.1.1 = ts ∧ FindWrite tx.1.2 t k = Some w ∧ goes_to w ng.
Proof.
  intros Htxs Hc. destruct (shipped_records sh txs Htxs) as (recs & [Hok Hne]%Forall_and & Hmap & Heq).
  destruct (parse_log_at KeyHash core_cnt Hc recs [] 0 (length (ship (shipped txs))) Hok) as (reqs & Hp & Hf); [by rewrite Hmap|].
  rewrite Hmap in Hp. cbn [app length] in Hp. exists reqs, (recs ≫= λ rec, pair rec.1.1 <$> rec.1.2). split_and!; [done|done| |].
  { apply Forall_forall. intros [ts [t l]] (rec & ([t' l'] & [= -> -> ->] & Hin)%list_elem_of_fmap & Hrec)%list_elem_of_bind. cbn.
    rewrite Forall_forall in Hne. specialize (Hne _ Hrec). rewrite Forall_forall in Hne. by apply (Hne (t', l')). }
  intros ts t k w. rewrite <- Heq. setoid_rewrite list_elem_of_bind. setoid_rewrite list_elem_of_fmap. split.
  - intros (l & ([[ts' tables] blob] & ([t' l'] & [= -> -> ->] & Hin) & Hrec) & Hk). cbn in *. eauto 10.
  - intros (tables & blob & l & Hrec & Htl & Hk). exists l. split; [|done]. exists (ts, tables, blob). cbn. split; [|done]. by exists (t, l).
Qed.

Abbreviation node_step := (replay_step pick_page new_record core_cnt key_hash range_id bucket_of new_range_id env).
Abbreviation core_of := (key_core core_cnt key_hash).

(** The requests with the entries they were cut from. *)
Definition tag (ccs : list ReplayLogCc) (ls : list (Z * (TableName * list (K * WriteSetEntry V)))) : list (ReplayLogCc * list (K * WriteSetEntry V)) :=
  zip_with (λ cc x, (cc, x.2.2)) ccs ls.

Lemma tag_elem ccs ls r l : Forall2 (λ x r, replays core_cnt x.1 x.2 r) ls (rl <$> ccs) →
  (r, l) ∈ tag ccs ls → r ∈ ccs ∧ ∃ ts t, (ts, (t, l)) ∈ ls ∧ replays core_cnt ts (t, l) (rl r).
Proof.
  intros Hf Hin. unfold tag in Hin. apply elem_of_lookup_zip_with in Hin as (i & cc & [ts [t l']] & [= -> ->] & Hc & Hx).
  split; [by eapply list_elem_of_lookup_2|]. exists ts, t. split; [by eapply list_elem_of_lookup_2|].
  eapply (Forall2_lookup_lr _ _ _ i (ts, (t, l')) (rl cc) Hf Hx). by rewrite list_lookup_fmap, Hc.
Qed.

Lemma tag_there ccs ls ts t l : Forall2 (λ x r, replays core_cnt x.1 x.2 r) ls (rl <$> ccs) →
  (ts, (t, l)) ∈ ls → ∃ r, (r, l) ∈ tag ccs ls ∧ replays core_cnt ts (t, l) (rl r).
Proof.
  intros Hf [i Hi]%list_elem_of_lookup. destruct (Forall2_lookup_l _ _ _ i _ Hf Hi) as (y & Hy & Hr). rewrite list_lookup_fmap in Hy.
  destruct (ccs !! i) as [r|] eqn:Hc; [|done]. injection Hy as <-. exists r. split; [|done]. apply elem_of_lookup_zip_with. by exists i, r, (ts, (t, l)).
Qed.

Lemma tagged_ok txs sh ccs ls : Forall (tx_logged sh) txs → Forall2 (λ x r, replays core_cnt x.1 x.2 r) ls (rl <$> ccs) → Forall (λ r, rl_ng r = ng) ccs →
  (∀ ts t k w, (∃ l, (ts, (t, l)) ∈ ls ∧ (k, w) ∈ l) ↔ ∃ tx, tx ∈ txs ∧ tx.1.1 = ts ∧ FindWrite tx.1.2 t k = Some w ∧ goes_to w ng) →
  Forall (λ x, x.2.2 ≠ []) ls →
  ∀ r l, (r, l) ∈ tag ccs ls → request_ok core_cnt range_id bucket_of new_range_id ng (wrote txs) sh r l.
Proof.
  intros Htxs Hf Hng Heq Hne r l Hin. rewrite Forall_forall in Htxs. rewrite Forall_forall in Hng. rewrite Forall_forall in Hne. destruct (tag_elem _ _ _ _ Hf Hin) as (Hr & ts & t & Hl & E1 & E2 & E3 & E4).
  cbn in E1, E2. assert (∀ k w, (k, w) ∈ l → ∃ tx, tx ∈ txs ∧ tx.1.1 = ts ∧ FindWrite tx.1.2 t k = Some w ∧ goes_to w ng) as Htx by (intros k w Hk; apply Heq; eauto).
  assert (∃ k w, (k, w) ∈ l) as (k0 & w0 & Hk0) by (specialize (Hne _ Hl); cbn in Hne; destruct l as [|[k w] l]; [done|]; exists k, w; set_solver).
  destruct (Htx k0 w0 Hk0) as (tx0 & Htx0 & <- & Hfw0 & _). destruct (Htxs _ Htx0) as [_ Hts0 _ Hw0].
  split; [done| |by rewrite E3|done|by apply Hng| |].
  - apply Forall_forall. intros [k w] Hk. destruct (Htx k w Hk) as (tx & Hx & _ & Hfw & _). destruct (Htxs _ Hx) as [_ _ _ Hw]. by apply (Hw t k w).
  - intros k w Hk Hsk. rewrite E1, E3. destruct (Htx k w Hk) as (tx & Hx & Ets & Hfw & Hg). exists tx, w. rewrite Ets. split_and!; done.
  - intros c Hc. rewrite E1, E3. by apply (Hw0 t k0 w0).
Qed.

(** What is assumed of the cores: each has its own number, entries get fresh addresses, and
    old versions are kept only for versioned records. *)
Definition cores_ok : Prop :=
  (0 < core_cnt < UINT16_MAX)%Z ∧
  ∀ c, core_id (env c) = c ∧ enable_mvcc (env c) = mvcc ∧ (mvcc = true → versioned (env c) = true) ∧ ∀ X, cce_alloc (env c) X ∉ X.

End recovery.
