(* ===== verification/CommitSafety.v ===== *)
(** * The transactions on the cc maps are serializable

    The commit protocol of [CommitProtocol] on shards whose requests are executed by
    the handlers of [CcMap].  The order of the committed transactions is the one of
    their commit timestamps: [CommitOrder] proves it of every store with the laws of
    [CcStoreLaws], and [CcMapStore] proves those of the handlers. *)

From S2P Require Import Prelude CcProtocol Queue CircularQueue NonBlockingLock CcEntry TxCommand.
From S2P Require Import DeadLockCheck KeyLock LockArray ShardLocks LockModes TableName ReadWriteSet CcMap.
From S2P Require Import CcStore TxCommit CommitProtocol CommitOrder CcMapStore.

Section last_write.
Context {K R S : Type} `{Countable K}.
Implicit Types (y : Sys K R S) (x : TableName * K).

#[export] Instance wrote_dec (c : Txm K R) x : Decision (wrote c x).
Proof. unfold wrote. apply _. Defined.

(** The commit timestamps below [ts] of the committed transactions other than [t]
    that wrote [x], and the last of them. *)
Definition writes_before y t x (ts : Z) : list Z :=
  omap (λ ud : Z * Txm K R,
    if decide (ud.1 ≠ t ∧ wrote ud.2 x ∧ tx_commit_ts_ ud.2 < ts)%Z then Some (tx_commit_ts_ ud.2) else None)
    (map_to_list (txms y)).
Definition last_write_before y t x (ts v0 : Z) : Z := max_list (writes_before y t x ts) v0.

Lemma elem_writes_before y t x ts w :
  w ∈ writes_before y t x ts ↔
  ∃ u d, u ≠ t ∧ txms y !! u = Some d ∧ wrote d x ∧ tx_commit_ts_ d = w ∧ (w < ts)%Z.
Proof.
  unfold writes_before. rewrite list_elem_of_omap. split.
  - intros ([u d] & Hin & Hd). apply elem_of_map_to_list in Hin. cbn [fst snd] in Hd. case_decide as Hc; [|done].
    destruct Hc as (? & ? & ?). injection Hd as <-. by exists u, d.
  - intros (u & d & Hne & Hu & Hw & <- & Hlt). exists (u, d). split; [by apply elem_of_map_to_list|].
    by rewrite decide_True.
Qed.

Lemma max_list_le l z m : (z <= m)%Z → (∀ w, w ∈ l → (w <= m)%Z) → (max_list l z <= m)%Z.
Proof.
  unfold max_list. revert z. induction l as [|w l IH]; intros z Hz Hl; cbn; [done|].
  apply IH; [|set_solver]. specialize (Hl w ltac:(set_solver)). lia.
Qed.

Lemma last_write_unique y t x ts v0 v :
  (v0 <= v)%Z → v = v0 ∨ v ∈ writes_before y t x ts → (∀ w, w ∈ writes_before y t x ts → (w <= v)%Z) →
  last_write_before y t x ts v0 = v.
Proof.
  intros H0 Hv Hle. destruct (max_list_ge (writes_before y t x ts) v0) as [Hge Hin]. apply Z.le_antisymm.
  - by apply max_list_le.
  - destruct Hv as [->|?]; [done|by apply Hin].
Qed.
End last_write.

Section safety.
Context {K V C O : Type} `{Countable K} (bound : Z) (env : CcEnv) (pick_page : TableName → K → Z) (new_record : V).
Context (key_len : K → Z) (rec_len : V → Z) (shard_of : TableName * K → Z * Z) (term : Z * Z → Z) (use_log : bool).
Abbreviation maps := (ShardMaps K V C O).
#[local] Instance store : CcStore K maps := cc_maps_store bound env pick_page new_record.

(** What the surroundings guarantee: the data store holds no version above the
    clock of a starting shard, an allocator returns free addresses, sizes and terms
    are not negative. *)
Record surroundings : Prop := {
  su_bound : (1 <= bound)%Z;
  su_alloc : ∀ X, alloc env X ∉ X;
  su_cce : ∀ X, cce_alloc env X ∉ X;
  su_key : ∀ k, (0 <= key_len k)%Z;
  su_rec : ∀ r, (0 <= rec_len r)%Z;
  su_term : ∀ sid, (0 <= term sid)%Z;
}.

(** The systems of coordinators and cc maps that runs of the protocol reach. *)
Definition reachable (y : Sys K V maps) : Prop := sys_reachable key_len rec_len shard_of term use_log y.
End safety.


(** C2: Committed writes of a key are totally ordered: two committed transactions that
    wrote the same key have different commit timestamps, and no other committed write
    of the key lies between the version a transaction locked and its own. *)
Theorem committed_writes_ordered {K V C O} `{Countable K} bound env pick_page (new_record : V)
    (key_len : K → Z) rec_len shard_of term use_log (y : Sys K V (ShardMaps K V C O)) t u c d x :
  surroundings bound env key_len rec_len term →
  reachable bound env pick_page new_record key_len rec_len shard_of term use_log y →
  t ≠ u → txms y !! t = Some c → txms y !! u = Some d → wrote c x → wrote d x →
  tx_commit_ts_ c ≠ tx_commit_ts_ d ∧
  ∃ a lv cts, gh_lock c !! a = Some (x, lv, cts) ∧ (lv < tx_commit_ts_ c ∧ cts < tx_commit_ts_ c)%Z ∧
    (tx_commit_ts_ d <= cts ∨ tx_commit_ts_ c < tx_commit_ts_ d)%Z.
Proof.
  intros [H1 H2 H3 H4 H5 H6] Hy Hne Hc Hd Hwc Hwd.
  pose proof (cc_maps_laws bound env pick_page new_record H1 H2 H3 (K:=K) (C:=C) (O:=O)) as Hlaws.
  exact (writes_ordered _ _ _ _ _ _ _ _ _ _ _ H4 H5 H6 Hy Hne Hc Hd Hwc Hwd).
Qed.

