(* ===== verification/CommitDemo.v ===== *)
(** * A run of the commit protocol on the cc maps

    An interpreter of the protocol whose shards execute the handlers of [CcMap],
    and a run of two transactions.  The first reads and writes a key; the second
    reads the version the first has written and another key, and writes the first
    key.  The theorems of [CommitSafety] apply to the run. *)

From S2P Require Import Prelude CcProtocol Queue CircularQueue NonBlockingLock CcEntry TxCommand.
From S2P Require Import DeadLockCheck KeyLock LockArray ShardLocks LockModes TableName ReadWriteSet CcMap.
From S2P Require Import CcStore TxCommit CommitProtocol CommitOrder CcMapStore CommitSafety.

Definition demo_env : CcEnv := mkEnv bump_alloc bump_alloc (λ _, 1%Z) (λ _, 1%Z) (-1) true false false 0 0.
Definition demo_bound : Z := 50.
Definition demo_page (tbl : TableName) (k : Z) : Z := 1.
Definition demo_shard_of (x : TableName * Z) : Z * Z := (0%Z, 0%Z).
Definition demo_term (sid : Z * Z) : Z := 1.
Definition demo_key_len (k : Z) : Z := 8.
Definition demo_rec_len (r : Z) : Z := 8.

Abbreviation dmaps := (ShardMaps Z Z unit unit).
Abbreviation dsys := (Sys Z Z dmaps).
#[local] Instance demo_store : CcStore Z dmaps := cc_maps_store demo_bound demo_env demo_page 0%Z.
Abbreviation demo_step := (sys_step demo_key_len demo_rec_len demo_shard_of demo_term true).

(** No request of [t] waits on the shard. *)
Definition no_waiter (m : dmaps) (t : Z) : Prop :=
  map_Forall (λ _ k, t ∉ entry_txn <$> waiting (key_lock_ k)) (lock_heap (lock_array (ccm_shard m))).
#[local] Instance no_waiter_dec m t : Decision (no_waiter m t).
Proof. unfold no_waiter. apply _. Defined.

Lemma no_waiter_free m x t req : no_waiter m t → Txn req = t → free_for m x req.
Proof.
  intros Hn <- κ _ k Hk. unfold GetKeyLock in Hk.
  destruct (cc_lock_and_extra_ (ccm_shard m) !! κ) as [p|]; [|done]. exact (Hn p k Hk).
Qed.

(** The requests the coordinators send. *)
Definition demo_read (t : Z) (x : TableName * Z) : ReadCc Z Z :=
  mkRead (mkReq t t) x.1 x.2 0 1 0 Inside 0 OCC RepeatableRead false false false None [] None NotBlocked
    (mkReadResult None 0 CcEntryAddr_new Unknown NoLock).
Definition demo_acquire_req (t : Z) (x : TableName * Z) : AcquireCc Z :=
  mkAcquire (mkReq t t) x.1 x.2 0 1 0 0 OCC RepeatableRead None false (empty_result 0).

(** The commands of the interpreter: one step of one coordinator. *)
Inductive cmd :=
  | CBegin (t start_ts : Z)
  | CRead (t : Z) (x : TableName * Z)
  | CWrite (t : Z) (x : TableName * Z) (rec : Z)
  | CCommit (t local_ts : Z)
  | CAcquire (t : Z) (i : nat)
  | CNext (t local_ts : Z)
  | CValidate (t : Z)
  | CPost (t : Z).

Definition guard_ (P : Prop) `{Decision P} : option unit := if decide P then Some tt else None.

Definition put (y : dsys) (s : dmaps) (t : Z) (c : Txm Z Z) : dsys :=
  mkSys (<[(0%Z, 0%Z) := s]> (shards y)) (<[t := c]> (txms y)).

Definition do_read (y : dsys) (s : dmaps) (c : Txm Z Z) (t : Z) (x : TableName * Z) : option dsys :=
  _ ← guard_ (no_waiter s t ∧ no_waiter s (GetFetchRecordTxNumber 0) ∧ IsMeta (tn_type x.1) = false);
  match phase c, Execute_ReadCc demo_env demo_page 0%Z s (demo_read t x) false with
  | Executing, Some (Finished, r', s') =>
      cce ← rd_cce r';
      _ ← guard_ (rr_lock_type_ (rd_result r') ≠ NoLock);
      let p := cce_lock_ptr_ (rr_cce_addr_ (rd_result r')) in
      let v := default 0%Z (answered (rd_result r')) in
      let '(ok, rw) := AddRead (rw_set_ c) (addr_of demo_term (0%Z, 0%Z) p) v x.1 in
      _ ← guard_ (data_reads (rset_ rw) < 2 ^ 64)%Z;
      Some (put y s' t (note_read (set_rw c rw) (addr_of demo_term (0%Z, 0%Z) p) x v ok))
  | _, _ => None
  end.

Definition do_acquire (y : dsys) (s : dmaps) (c : Txm Z Z) (t : Z) (i : nat) : option dsys :=
  x ← acquire_write_entries_ c !! i;
  _ ← guard_ (no_waiter s t);
  match phase c, Execute_AcquireCc demo_env demo_page s (demo_acquire_req t x) false None with
  | Acquiring waiting failed, Some (Finished, r', s') =>
      _ ← aq_cce r';
      _ ← guard_ (i ∈ waiting);
      let a := addr_of demo_term (0%Z, 0%Z) (cce_lock_ptr_ (ar_cce_addr_ (aq_result r'))) in
      let lv := ar_last_vali_ts_ (aq_result r') in
      let cts := ar_commit_ts_ (aq_result r') in
      Some (put y s' t
        (set_phase
           (note_lock (set_acquire_op c (acquire_write_entries_ c) (<[i := mkAcquireResult a lv cts]> (acquire_results_ c)))
              a x lv cts)
           (Acquiring (waiting ∖ {[i]}) failed)))
  | _, _ => None
  end.

Definition post_read_req (t : Z) (a : CcEntryAddr) (v ct : Z) : PostReadCc := mkPostRead t a v ct Primary.
Definition post_write_req (t : Z) (a : CcEntryAddr) (ct : Z) : PostWriteCc Z Z :=
  mkPostWrite (mkReq t t) (mkTableName [] Primary EloqKv) (Some a) 0%Z 0 (Some 1%Z) ct OpUpdate false.

(** The entry of a lock structure. *)
Definition at_entry (s : dmaps) (p : Z) : option Z :=
  κ ← entry_ <$> lock_heap (lock_array (ccm_shard s)) !! p;
  if decide (cc_lock_and_extra_ (ccm_shard s) !! κ = Some p) then Some κ else None.

Definition do_validate (y : dsys) (s : dmaps) (c : Txm Z Z) (t : Z) : option dsys :=
  match phase c with
  | Validating ((a, v) :: rest) failed =>
      _ ← at_entry s (cce_lock_ptr_ a);
      _ ← guard_ (shard_id a = (0%Z, 0%Z));
      r ← Execute_PostReadCc demo_env s (post_read_req t a v (tx_commit_ts_ c));
      let ok := bool_decide (r.1 = Finished) in
      Some (put y r.2 t (set_phase (if ok && bool_decide (0 < v)%Z then note_valid c a v else c)
                           (Validating rest (failed || negb ok))))
  | _ => None
  end.

Definition do_post (y : dsys) (s : dmaps) (c : Txm Z Z) (t : Z) : option dsys :=
  match phase c with
  | PostProcessing (PostWrite a ts :: rest) =>
      _ ← at_entry s (cce_lock_ptr_ a);
      _ ← guard_ (shard_id a = (0%Z, 0%Z) ∧ (0 <= ts < 2 ^ 56)%Z);
      match Execute_PostWriteCc demo_env demo_page s (post_write_req t a ts) false with
      | Some (Finished, s') => Some (put y s' t (set_phase (note_done c a) (PostProcessing rest)))
      | _ => None
      end
  | _ => None
  end.

Definition do_local (y : dsys) (t : Z) (c : Txm Z Z) : dsys := mkSys (shards y) (<[t := c]> (txms y)).

Definition do_next (c : Txm Z Z) (local_ts : Z) : option (Txm Z Z) :=
  match phase c with
  | Acquiring waiting failed => if decide (waiting = ∅) then acquired_all c failed local_ts 0 else None
  | SettingTs => Some (after_set_ts true c)
  | Validating [] failed => Some (after_validate true c failed)
  | Logging => Some (finish_commit c)
  | PostProcessing [] => Some (set_phase c TxDone)
  | _ => None
  end.

Definition executing (c : Txm Z Z) : option unit := match phase c with Executing => Some tt | _ => None end.

Definition do_write (c : Txm Z Z) (x : TableName * Z) (rec : Z) : option (Txm Z Z) :=
  _ ← guard_ (IsMeta (tn_type x.1) = false ∧
              (wset_bytes_cnt_ (rw_set_ c) + (demo_key_len x.2 + rec_size demo_rec_len (Some rec)) < 2 ^ 64)%Z);
  _ ← executing c;
  r ← AddWrite demo_key_len demo_rec_len (rw_set_ c) x.1 0 x.2 (Some rec) OpUpdate false;
  _ ← guard_ (writes (wset_ r.2) < 2 ^ 64)%Z;
  Some (set_rw c r.2).

Definition exec (y : dsys) (k : cmd) : option dsys :=
  match k with
  | CBegin t ts => match txms y !! t with None => Some (do_local y t (new_txm ts)) | Some _ => None end
  | CRead t x => s ← shards y !! (0%Z, 0%Z); c ← txms y !! t; do_read y s c t x
  | CWrite t x rec => c ← txms y !! t; c' ← do_write c x rec; Some (do_local y t c')
  | CCommit t ts => c ← txms y !! t; _ ← executing c; Some (do_local y t (Commit demo_shard_of c ts 0))
  | CAcquire t i => s ← shards y !! (0%Z, 0%Z); c ← txms y !! t; do_acquire y s c t i
  | CNext t ts => c ← txms y !! t; c' ← do_next c ts; Some (do_local y t c')
  | CValidate t => s ← shards y !! (0%Z, 0%Z); c ← txms y !! t; do_validate y s c t
  | CPost t => s ← shards y !! (0%Z, 0%Z); c ← txms y !! t; do_post y s c t
  end.

Definition demo_table : TableName := mkTableName [116]%Z Primary EloqKv.
Definition demo_entry (v ts : Z) : CcEntry Z :=
  SetCommitTsPayloadStatus true false (set_payload CcEntry_new (Some v)) ts Normal.
Definition demo_maps : dmaps :=
  mkMaps (CcShard_Init bump_alloc 4 100) {[demo_table := mkCcmInfo 1 0 0 false]}
    {[(demo_table, 5%Z) := (70%Z, 1%Z); (demo_table, 6%Z) := (71%Z, 1%Z)]}
    {[70%Z := demo_entry 500 10; 71%Z := demo_entry 600 12]} ∅ 0 [] [].
Definition demo_start : dsys := mkSys {[(0%Z, 0%Z) := demo_maps]} ∅.

Definition demo_cmds : list cmd :=
  let x := (demo_table, 5%Z) in
  let z := (demo_table, 6%Z) in
  [CBegin 1 20; CRead 1 x; CWrite 1 x 501; CCommit 1 100; CAcquire 1 0; CNext 1 101; CNext 1 0; CNext 1 0;
   CBegin 2 30; CPost 1; CNext 1 0;
   CRead 2 x; CRead 2 z; CWrite 2 x 502; CCommit 2 103; CAcquire 2 0; CNext 2 104; CNext 2 0;
   CValidate 2; CNext 2 0; CNext 2 0; CPost 2; CNext 2 0].

Fixpoint run (l : list cmd) (y : dsys) : option dsys :=
  match l with [] => Some y | k :: l => y' ← exec y k; run l y' end.
Definition demo_final : dsys := default demo_start (run demo_cmds demo_start).
Definition demo_tx (t : Z) : Txm Z Z := default (new_txm 0) (txms demo_final !! t).

(** ** The interpreter is sound *)

Lemma guard_Some (P : Prop) `{Decision P} u : guard_ P = Some u → P.
Proof. unfold guard_. by case_decide. Qed.

Lemma demo_bump_fresh : (∀ X, alloc demo_env X ∉ X) ∧ ∀ X, cce_alloc demo_env X ∉ X.
Proof. split; apply bump_alloc_fresh. Qed.

Lemma do_read_sound y s c t x y' :
  shards y !! (0%Z, 0%Z) = Some s → txms y !! t = Some c → do_read y s c t x = Some y' → demo_step y y'.
Proof.
  intros Hs Hc. destruct x as [tn k]. unfold do_read. destruct (guard_ _) as [u|] eqn:Hg; cbn [mbind option_bind]; [|done].
  apply guard_Some in Hg as (Hw1 & Hw2 & Hm). destruct (phase c) eqn:Hph; try done.
  destruct (Execute_ReadCc _ _ _ _ _ _) as [[[o r'] s']|] eqn:Hex; [|done]. destruct o; try done.
  destruct (rd_cce r') as [cce|] eqn:Hcce; cbn [mbind option_bind]; [|done].
  destruct (guard_ (rr_lock_type_ _ ≠ _)) as [u'|] eqn:Hg'; cbn [mbind option_bind]; [|done]. apply guard_Some in Hg'.
  destruct (AddRead _ _ _ _) as [ok rw] eqn:Hadd.
  destruct (guard_ (data_reads _ < _)%Z) as [u''|] eqn:Hg''; cbn [mbind option_bind]; [|done]. apply guard_Some in Hg''.
  intros [= <-]. eapply sys_request; [exact Hs|exact Hc|]. eapply tx_read; try done.
  apply (me_read demo_bound demo_env demo_page 0%Z s (demo_read t (tn, k)) false r' s' cce); try done.
  split_and!; try done.
  - by apply (no_waiter_free s _ t).
  - intros req Hreq. by apply (no_waiter_free s _ (GetFetchRecordTxNumber 0)).
Qed.

Lemma do_acquire_sound y s c t i y' :
  shards y !! (0%Z, 0%Z) = Some s → txms y !! t = Some c → do_acquire y s c t i = Some y' → demo_step y y'.
Proof.
  intros Hs Hc. unfold do_acquire. destruct (acquire_write_entries_ c !! i) as [[tn k]|] eqn:Hx; cbn [mbind option_bind]; [|done].
  destruct (guard_ (no_waiter s t)) as [u|] eqn:Hg; cbn [mbind option_bind]; [|done]. apply guard_Some in Hg.
  destruct (phase c) eqn:Hph; try done.
  destruct (Execute_AcquireCc _ _ _ _ _ _) as [[[o r'] s']|] eqn:Hex; [|done]. destruct o; try done.
  destruct (aq_cce r') as [cce|] eqn:Hcce; cbn [mbind option_bind]; [|done].
  destruct (guard_ (i ∈ _)) as [u'|] eqn:Hg'; cbn [mbind option_bind]; [|done]. apply guard_Some in Hg'.
  intros [= <-]. eapply sys_request; [exact Hs|exact Hc|]. eapply tx_acquire; try done.
  apply (me_acquire demo_bound demo_env demo_page 0%Z s (demo_acquire_req t (tn, k)) false r' s' cce); try done. by apply (no_waiter_free s _ t).
Qed.

Lemma at_entry_spec s p κ : at_entry s p = Some κ → cc_lock_and_extra_ (ccm_shard s) !! κ = Some p.
Proof.
  unfold at_entry. destruct (entry_ <$> _) as [κ'|]; cbn [mbind option_bind]; [|done]. case_decide; [|done]. congruence.
Qed.

Lemma do_validate_sound y s c t y' :
  shards y !! (0%Z, 0%Z) = Some s → txms y !! t = Some c → do_validate y s c t = Some y' → demo_step y y'.
Proof.
  intros Hs Hc. unfold do_validate. destruct (phase c) as [| | |[|[a v] rest] failed| | |] eqn:Hph; try done.
  destruct (at_entry s _) as [κ|] eqn:Hat; cbn [mbind option_bind]; [|done]. apply at_entry_spec in Hat.
  destruct (guard_ _) as [u|] eqn:Hg; cbn [mbind option_bind]; [|done]. apply guard_Some in Hg.
  destruct (Execute_PostReadCc _ _ _) as [[o s']|] eqn:Hex; cbn [mbind option_bind]; [|done].
  intros [= <-]. eapply sys_request; [exact Hs|exact Hc|].
  eapply (tx_validate demo_shard_of demo_term t (0%Z, 0%Z) s s' c [] a v rest failed); [done|done|].
  exact (me_post_read _ _ _ _ s (post_read_req t a v (tx_commit_ts_ c)) κ o s' Hat Hex).
Qed.

Lemma do_post_sound y s c t y' :
  shards y !! (0%Z, 0%Z) = Some s → txms y !! t = Some c → do_post y s c t = Some y' → demo_step y y'.
Proof.
  intros Hs Hc. unfold do_post. destruct (phase c) as [| | | | |[|[a ts|] rest]|] eqn:Hph; try done.
  destruct (at_entry s _) as [κ|] eqn:Hat; cbn [mbind option_bind]; [|done]. apply at_entry_spec in Hat.
  destruct (guard_ _) as [u|] eqn:Hg; cbn [mbind option_bind]; [|done]. apply guard_Some in Hg as [Hsid Hts].
  destruct (Execute_PostWriteCc _ _ _ _ _) as [[o s']|] eqn:Hex; [|done]. destruct o; try done.
  intros [= <-]. eapply sys_request; [exact Hs|exact Hc|].
  eapply (tx_post_write demo_shard_of demo_term t (0%Z, 0%Z) s s' c [] a ts rest); [done|done|].
  exact (me_post_write _ _ _ _ s (post_write_req t a ts) a κ false s' eq_refl Hat Hts Hex).
Qed.

Lemma do_next_sound c ts c' : do_next c ts = Some c' → tx_local demo_key_len demo_rec_len demo_shard_of true c c'.
Proof.
  unfold do_next. destruct (phase c) as [|waiting failed| |[|] failed| |[|]|] eqn:Hph; try done.
  - case_decide as Hw; [|done]. subst waiting. intros Ha. by eapply tx_acquired.
  - intros [= <-]. by apply tx_ts_set.
  - intros [= <-]. by apply tx_validated.
  - intros [= <-]. by apply tx_log_ok.
  - intros [= <-]. by apply tx_done.
Qed.

Lemma executing_spec c u : executing c = Some u → phase c = Executing.
Proof. unfold executing. by destruct (phase c). Qed.

Lemma do_write_sound c x rec c' :
  do_write c x rec = Some c' → tx_local demo_key_len demo_rec_len demo_shard_of true c c'.
Proof.
  unfold do_write. destruct (guard_ _) as [u|] eqn:Hg; cbn [mbind option_bind]; [|done]. apply guard_Some in Hg as [Hm Hb].
  destruct (executing c) as [u0|] eqn:Hph; cbn [mbind option_bind]; [|done]. apply executing_spec in Hph.
  destruct (AddWrite _ _ _ _ _ _ _ _ _) as [[err rw]|] eqn:Hadd; cbn [mbind option_bind]; [|done].
  destruct (guard_ (writes _ < _)%Z) as [u'|] eqn:Hg'; cbn [mbind option_bind]; [|done]. apply guard_Some in Hg'.
  intros [= <-]. by eapply tx_write.
Qed.

Lemma exec_sound y k y' : exec y k = Some y' → demo_step y y'.
Proof.
  destruct k as [t ts|t x|t x rec|t ts|t i|t ts|t|t]; cbn [exec].
  - destruct (txms y !! t) eqn:Ht; [done|]. intros [= <-]. by apply sys_begin.
  - destruct (shards y !! _) as [s|] eqn:Hs; cbn [mbind option_bind]; [|done].
    destruct (txms y !! t) as [c|] eqn:Hc; cbn [mbind option_bind]; [|done]. by apply do_read_sound.
  - destruct (txms y !! t) as [c|] eqn:Hc; cbn [mbind option_bind]; [|done].
    destruct (do_write c x rec) as [c'|] eqn:Hd; cbn [mbind option_bind]; [|done]. intros [= <-].
    eapply sys_local; [exact Hc|]. by eapply do_write_sound.
  - destruct (txms y !! t) as [c|] eqn:Hc; cbn [mbind option_bind]; [|done].
    destruct (executing c) as [u|] eqn:Hph; cbn [mbind option_bind]; [|done]. apply executing_spec in Hph.
    intros [= <-]. eapply sys_local; [exact Hc|]. by apply tx_commit.
  - destruct (shards y !! _) as [s|] eqn:Hs; cbn [mbind option_bind]; [|done].
    destruct (txms y !! t) as [c|] eqn:Hc; cbn [mbind option_bind]; [|done]. by apply do_acquire_sound.
  - destruct (txms y !! t) as [c|] eqn:Hc; cbn [mbind option_bind]; [|done].
    destruct (do_next c ts) as [c'|] eqn:Hd; cbn [mbind option_bind]; [|done]. intros [= <-].
    eapply sys_local; [exact Hc|]. by eapply do_next_sound.
  - destruct (shards y !! _) as [s|] eqn:Hs; cbn [mbind option_bind]; [|done].
    destruct (txms y !! t) as [c|] eqn:Hc; cbn [mbind option_bind]; [|done]. by apply do_validate_sound.
  - destruct (shards y !! _) as [s|] eqn:Hs; cbn [mbind option_bind]; [|done].
    destruct (txms y !! t) as [c|] eqn:Hc; cbn [mbind option_bind]; [|done]. by apply do_post_sound.
Qed.

Lemma run_sound l y y' : run l y = Some y' → rtc demo_step y y'.
Proof.
  revert y. induction l as [|k l IH]; intros y; cbn [run]; [by intros [= <-]|].
  destruct (exec y k) as [y1|] eqn:E; cbn [mbind option_bind]; [|done]. intros Hr.
  eapply rtc_l; [by eapply exec_sound|by apply IH].
Qed.

(** ** The run *)

Lemma demo_maps_ok : ccmaps_ok demo_bound demo_maps.
Proof.
  split.
  - eapply sk_locks, (Init_ok bump_alloc ∅ bump_alloc_fresh 3 100).
  - intros x x' κ pg pg'. cbn. intros Hx Hx'.
    apply lookup_insert_Some in Hx as [[<- [= <- <-]]|[_ Hx]]; apply lookup_insert_Some in Hx' as [[<- He]|[_ Hx']];
      simplify_map_eq; done.
  - intros x κ pg Hx. cbn in Hx. apply lookup_insert_Some in Hx as [[<- [= <- <-]]|[_ Hx]]; [by eexists|].
    apply lookup_singleton_Some in Hx as [<- [= <- <-]]. by eexists.
  - intros κ e He. cbn in He. apply lookup_insert_Some in He as [[_ <-]|[_ He]]; [done|].
    by apply lookup_singleton_Some in He as [_ <-].
  - by vm_compute.
Qed.

Lemma demo_surroundings : surroundings demo_bound demo_env demo_key_len demo_rec_len demo_term.
Proof. split; try apply bump_alloc_fresh; done. Qed.

Lemma demo_run : run demo_cmds demo_start = Some demo_final.
Proof. vm_compute. reflexivity. Qed.

Lemma demo_run_reachable l y :
  run l demo_start = Some y →
  reachable demo_bound demo_env demo_page 0%Z demo_key_len demo_rec_len demo_shard_of demo_term true y.
Proof.
  intros Hr. exists demo_start. split; [|by apply (run_sound l)]. split; [done|].
  intros sid s Hs. unfold demo_start in Hs. cbn [shards] in Hs. apply lookup_singleton_Some in Hs as [_ <-]. split; [apply demo_maps_ok|].
  intros cce. cbn. destruct (<[70%Z := _]> _ !! cce) as [e|] eqn:He; cbn; [intros _|done].
  apply lookup_insert_Some in He as [[_ <-]|[_ He]]; [done|]. by apply lookup_singleton_Some in He as [_ <-].
Qed.

Lemma demo_final_reachable :
  reachable demo_bound demo_env demo_page 0%Z demo_key_len demo_rec_len demo_shard_of demo_term true demo_final.
Proof. apply (demo_run_reachable demo_cmds), demo_run. Qed.

(** The first transaction commits at 101.  The second commits at 104; it has read the
    version 101 of the first. *)
Definition demo_key : TableName * Z := (demo_table, 5%Z).


Lemma committed_writes_ordered_witness :
  tx_commit_ts_ (demo_tx 1) ≠ tx_commit_ts_ (demo_tx 2) ∧
  ∃ a lv cts, gh_lock (demo_tx 1) !! a = Some (demo_key, lv, cts) ∧
    (lv < tx_commit_ts_ (demo_tx 1) ∧ cts < tx_commit_ts_ (demo_tx 1))%Z ∧
    (tx_commit_ts_ (demo_tx 2) <= cts ∨ tx_commit_ts_ (demo_tx 1) < tx_commit_ts_ (demo_tx 2))%Z.
Proof.
  apply (committed_writes_ordered demo_bound demo_env demo_page 0%Z demo_key_len demo_rec_len demo_shard_of demo_term true
           demo_final 1 2 (demo_tx 1) (demo_tx 2) demo_key demo_surroundings demo_final_reachable).
  - lia.
  - vm_compute. reflexivity.
  - vm_compute. reflexivity.
  - split; [vm_compute; reflexivity|]. apply (bool_decide_unpack _). vm_compute. exact I.
  - split; [vm_compute; reflexivity|]. apply (bool_decide_unpack _). vm_compute. exact I.
Defined.

