(* ===== verification/ReplayDemo.v ===== *)
(** * A replay of one log record

    Two cores with the entries of [CommitDemo], and a transaction that updated one key and
    deleted another one; [LogReplay.committed_writes_recovered] applies to it. *)

From S2P Require Import Prelude Bytes CcProtocol Queue CircularQueue NonBlockingLock CcEntry TxCommand.
From S2P Require Import DeadLockCheck KeyLock LockArray ShardLocks LockModes TableName TxSerialize MetaRecords ReadWriteSet DataLog CcMap.
From S2P Require Import CcStore TxCommit CommitProtocol CommitOrder CcMapStore CommitSafety CommitDemo LogReplay.

(** Keys and records are integers of eight bytes. *)
#[local] Instance int_codec : Codec Z := {| encode v := Some (SerializeToStr 8 v); decode := DesrializeFrom 8; encodable := is_uint 8 |}.
#[local] Instance int_codec_ok : CodecOk Z.
Proof. intros v bs buf offset Hv [= <-] Hi. cbn [decode int_codec]. by rewrite (DesrializeFrom_at 8 v). Qed.

Definition replay_env (c : Z) : CcEnv := mkEnv bump_alloc bump_alloc (λ _, 1%Z) (λ _, 1%Z) (-1) true false true 0 c.

Definition demo_write (s : ReadWriteSet Z Z) (k : Z) (rec : option Z) (op : OperationType) : ReadWriteSet Z Z :=
  match AddWrite demo_key_len demo_rec_len s demo_table 1 k rec op false with Some (_, s') => s' | None => s end.
Definition demo_writes : ReadWriteSet Z Z := demo_write (demo_write ReadWriteSet_Reset 5 (Some 77%Z) OpUpdate) 6 None OpDelete.
Definition demo_msg (k : Z) (e : ReplicaWriteSetEntry Z) : SchemaOpMessage := mkSchemaMsg demo_table [] 0 [].
Definition demo_log : WriteLogRequest :=
  match FillDataLogRequest demo_msg 1 7 100 demo_writes with Some (inr req) => req | _ => mkLogRequest 0 0 0 ∅ ∅ [] end.
Definition demo_tx : Z * ReadWriteSet Z Z * WriteLogRequest := (100%Z, demo_writes, demo_log).

Lemma demo_replay_ok : replay_ok demo_bound demo_maps.
Proof.
  split; [apply demo_maps_ok|]. intros κ e He. cbn in He.
  assert (∀ v ts, (1 ≤ ts < 1000)%Z → replayable (demo_entry v ts)) as Hd.
  { intros v ts Hts. unfold demo_entry. assert (is_ts ts) as Hi by (unfold is_ts; lia).
    pose proof (SetCommitTs_CommitTs true false (set_payload CcEntry_new (Some v)) ts Normal Hi) as Hc.
    destruct (SetCommitTs_newer true false (set_payload CcEntry_new (Some v)) ts Normal Hi) as [Hp _]; [change (0 < ts)%Z; lia|].
    destruct (SetCommitTs_other true false (set_payload CcEntry_new (Some v)) ts Normal) as (Ha & _).
    set (e' := SetCommitTsPayloadStatus _ _ _ _ _) in *. change (CommitTs (set_payload CcEntry_new (Some v))) with 0%Z in Hc.
    assert (versions e' = [cur_version e']) as Hv by (unfold versions; rewrite Hp, Ha; done).
    split_and!; [unfold entry_ok, known; rewrite Hp; cbn [bool_decide negb]; rewrite Hc; change (1 ≤ Z.max 0 ts)%Z; lia|rewrite Hv; repeat constructor|]. rewrite Hv. by intros w ->%list_elem_of_singleton. }
  apply lookup_insert_Some in He as [[_ <-]|[_ He]]; [by apply Hd|]. apply lookup_singleton_Some in He as [_ <-]. by apply Hd.
Qed.

Lemma demo_tx_logged : tx_logged 2 0 demo_msg (λ _, demo_maps) demo_tx.
Proof.
  split.
  - exists 1%Z, 7%Z. vm_compute. reflexivity.
  - by vm_compute.
  - intros blob Hb. assert (node_txn_logs demo_tx.2 !! 0%Z = Some (default [] (node_txn_logs demo_log !! 0%Z))) as E by (vm_compute; reflexivity).
    rewrite E in Hb. apply Some_inj in Hb. rewrite <- Hb. by vm_compute.
  - intros t k w Hw%elem_of_write_list.
    assert (write_list demo_writes = [(demo_table, 5%Z, mkWriteEntry (Some 77%Z) OpUpdate CcEntryAddr_new 0 ∅);
      (demo_table, 6%Z, mkWriteEntry None OpDelete CcEntryAddr_new 0 ∅)]) as E by (vm_compute; reflexivity).
    cbn [fst snd demo_tx] in Hw. rewrite E, !elem_of_cons in Hw. clear E.
    assert (∀ c, (0 ≤ c < 2)%Z → ∃ ts, schema_of demo_maps demo_table = Some ts ∧ (ts ≤ 100)%Z) as Hs by (intros c _; exists 0%Z; by vm_compute).
    assert (is_uint 8 5 ∧ is_uint 8 6 ∧ is_uint 8 77) as (U5 & U6 & U77) by by vm_compute.
    destruct Hw as [[[-> ->]%pair_eq ->]%pair_eq|[[[-> ->]%pair_eq ->]%pair_eq|Hw]]; [| |by apply not_elem_of_nil in Hw].
    + split_and!; [split; [exact U5|right]|cbn; lia|by left|exact Hs]. split; [by right|]. by exists 77%Z.
    + split_and!; [split; [exact U6|by left]|cbn; lia|by left|exact Hs].
Qed.

