(* ===== verification/CcMapAnswers.v ===== *)
(** * What the cc map handlers answer

    The answers of [CcMap]'s handlers on their error branches, with what they leave
    behind: a validation gives back the lock of the read in every case, and an
    acquisition that is refused leaves no lock. *)

From S2P Require Import Prelude CcProtocol Queue CircularQueue NonBlockingLock CcEntry TxCommand.
From S2P Require Import DeadLockCheck KeyLock LockArray ShardLocks LockModes TableName ReadWriteSet CcMap.
From S2P Require Import CcStore TxCommit CommitProtocol CommitOrder CcMapStore CommitSafety CommitDemo.

Section answers.
Context {K V C O : Type} `{Countable K} (bound : Z) (env : CcEnv) (pick_page : TableName → K → Z).
Abbreviation maps := (ShardMaps K V C O).
Implicit Types (m : maps) (κ t : Z).

(** Another transaction holds the write lock. *)
Definition other_writer m κ t : Prop :=
  ∃ k, GetKeyLock (ccm_shard m) κ = Some k ∧ HasWriteLock (key_lock_ k) = true ∧ WriteLockTx (key_lock_ k) ≠ t.

#[export] Instance other_writer_dec m κ t : Decision (other_writer m κ t).
Proof.
  unfold other_writer. destruct (GetKeyLock (ccm_shard m) κ) as [k|]; [|right; naive_solver].
  destruct (decide (HasWriteLock (key_lock_ k) = true ∧ WriteLockTx (key_lock_ k) ≠ t)); [left|right]; naive_solver.
Defined.

(** The version was read and has been overwritten. *)
Definition version_changed (r : PostReadCc) (e : CcEntry V) : Prop :=
  PayloadStatus e ≠ Unknown ∧ (0 < pr_key_ts r)%Z ∧ pr_key_ts r ≠ CommitTs e.

#[export] Instance version_changed_dec r e : Decision (version_changed r e).
Proof. unfold version_changed. apply _. Defined.

Definition validation_outcome m (r : PostReadCc) κ (e : CcEntry V) : Outcome :=
  if decide (version_changed r e) then Error VALIDATION_FAILED_FOR_VERSION_MISMATCH
  else if decide ((0 < pr_key_ts r)%Z ∧ other_writer m κ (pr_txn r)) then Error VALIDATION_FAILED_FOR_CONFILICTED_TXS
  else Finished.

Lemma release_after m m1 κ t ng rc :
  ccmaps_ok bound m → cc_lock_and_extra_ (ccm_shard m1) = cc_lock_and_extra_ (ccm_shard m) →
  lock_array (ccm_shard m1) = lock_array (ccm_shard m) →
  (∀ k, GetKeyLock (ccm_shard m) κ = Some k → ¬ queued (key_lock_ k) t) →
  mode (ccm_shard (set_shard m1 (ReleaseCceLock (ccm_shard m1) κ t ng NoLock rc))) κ t = NoLock.
Proof.
  intros Hok H1 H2 Hq. cbn [ccm_shard set_shard]. apply release_clears.
  - unfold locks_ok. rewrite H1, H2. apply Hok.
  - unfold GetKeyLock in *. by rewrite H1, H2.
Qed.

(** C13: The validation of a read answers on every branch, and gives the lock of the
    read back on every branch: it fails with a version mismatch when the value is known
    and was overwritten since it was read, with a conflict when the version was read and
    another transaction holds the write lock, and succeeds otherwise; afterwards the
    transaction holds nothing on the entry. *)
Theorem PostRead_answers m (r : PostReadCc) κ e :
  ccmaps_ok bound m → cc_lock_and_extra_ (ccm_shard m) !! κ = Some (cce_lock_ptr_ (pr_cce_addr r)) →
  CheckLeaderTerm env (node_group_id_ (pr_cce_addr r)) (addr_term_ (pr_cce_addr r)) = true →
  cce_heap m !! κ = Some e → (∀ k, GetKeyLock (ccm_shard m) κ = Some k → ¬ queued (key_lock_ k) (pr_txn r)) →
  ∃ m', Execute_PostReadCc env m r = Some (validation_outcome m r κ e, m') ∧
    mode (ccm_shard m') κ (pr_txn r) = NoLock.
Proof.
  intros Hok Hat Hlead He Hq. unfold Execute_PostReadCc, validation_outcome.
  destruct (oo_owned _ _ (mo_locks _ _ Hok) _ _ Hat) as (k & Hk & _ & Hen).
  unfold ExtractCce. rewrite Hk. cbn [mbind option_bind]. rewrite Hen, Hlead, He. cbn [negb andb mbind option_bind].
  destruct (decide (version_changed r e)) as [(H1 & H2 & H3)|Hv].
  { rewrite !bool_decide_eq_true_2 by done. cbn [andb]. eexists. split; [done|]. by apply (release_after m). }
  assert (bool_decide (PayloadStatus e ≠ Unknown) && bool_decide (0 < pr_key_ts r)%Z &&
    bool_decide (pr_key_ts r ≠ CommitTs e) = false) as ->.
  { apply not_true_iff_false. intros Ht. bool_to_prop. by apply Hv. }
  destruct (decide (0 < pr_key_ts r)%Z) as [H0|H0]; cycle 1.
  { rewrite decide_False by tauto. eexists. split; [done|]. by apply (release_after m). }
  set (m1 := UpdateLastReadTs m (pr_commit_ts r)).
  destruct (GetKeyLock (ccm_shard m1) κ) as [k'|] eqn:Hg; change (GetKeyLock (ccm_shard m) κ) with (GetKeyLock (ccm_shard m1) κ) in Hq.
  2:{ rewrite decide_False. { eexists. split; [done|]. by apply (release_after m m1). }
      intros [_ (k2 & Hg2 & _)]. change (GetKeyLock (ccm_shard m1) κ = Some k2) in Hg2. congruence. }
  destruct (HasWriteLock (key_lock_ k') && bool_decide (WriteLockTx (key_lock_ k') ≠ pr_txn r)) eqn:Hw.
  - bool_to_prop. rewrite decide_True by (split; [done|]; by exists k'). eexists. split; [done|].
    destruct (CheckRecoverTx_same (leader_term env) (ccm_shard m1) (WriteLockTx (key_lock_ k'))
      (node_group_id_ (pr_cce_addr r)) (leader_term env (node_group_id_ (pr_cce_addr r)))) as (Hm & Ha & _).
    by apply (release_after m).
  - rewrite decide_False. { eexists. split; [done|]. by apply (release_after m m1). }
    intros [_ (k2 & Hg2 & H2 & H3)]. change (GetKeyLock (ccm_shard m1) κ = Some k2) in Hg2. rewrite Hg in Hg2.
    injection Hg2 as <-. rewrite H2 in Hw. cbn in Hw. by apply bool_decide_eq_false in Hw.
Qed.

(** Nobody's lock has changed, and the entries have the values they had. *)
Definition no_trace m m' : Prop :=
  (∀ κ t, mode (ccm_shard m') κ t = mode (ccm_shard m) κ t) ∧
  (∀ κ e, cce_heap m !! κ = Some e → cce_heap m' !! κ = Some e).

Context (alloc_fresh : ∀ X, alloc env X ∉ X).

Lemma acquire_locked_error m (r : AcquireCc K) cce ng_term known cache err e r' m' :
  acquire_locked env m r cce ng_term known cache err = Some (Error e, r', m') →
  err ≠ NO_ERROR ∧ m' = m ∧ ar_commit_ts_ (aq_result r') = ar_commit_ts_ (aq_result r).
Proof.
  unfold acquire_locked. case_decide as Hn.
  - destruct (cce_heap m !! cce); cbn [mbind option_bind]; [|done].
    destruct (GetKeyLock (ccm_shard m) cce); cbn [mbind option_bind]; [|done].
    destruct cache as [answer|]; [|done]. case_decide; [|done]. destruct known; [|done]. by case_decide.
  - case_decide; [done|]. intros [= <- <- <-]. done.
Qed.

(** A new entry has no lock. *)
Lemma FindEmplace_frame m tbl key full cce page m1 :
  FindEmplace env pick_page m tbl key full = Some (cce, page, m1) →
  ccm_shard m1 = ccm_shard m ∧
  (cce_alloc env (dom (cce_heap m)) ∉ dom (cce_heap m) → ∀ κ e, cce_heap m !! κ = Some e → cce_heap m1 !! κ = Some e).
Proof.
  unfold FindEmplace. destruct (ccm_index m !! (tbl, key)) as [[c pg]|]; [by intros [= <- <- <-]|].
  destruct full; [done|]. intros [= <- <- <-]. split; [done|]. intros Hf κ e He. cbn.
  rewrite lookup_insert_ne; [done|]. intros <-. apply Hf. by apply elem_of_dom.
Qed.

End answers.

(** ** States of the run of [CommitDemo] *)

Definition demo_at (n : nat) : ShardMaps Z Z unit unit :=
  default demo_maps (y ← run (take n demo_cmds) demo_start; shards y !! (0%Z, 0%Z)).

Lemma demo_at_ok n : ccmaps_ok demo_bound (demo_at n).
Proof.
  unfold demo_at. destruct (run (take n demo_cmds) demo_start) as [y|] eqn:Hr; cbn [mbind option_bind default]; [|apply demo_maps_ok].
  destruct (shards y !! (0%Z, 0%Z)) as [s|] eqn:Hs; cbn [default]; [|apply demo_maps_ok].
  pose proof (cc_maps_laws demo_bound demo_env demo_page 0%Z ltac:(done) bump_alloc_fresh bump_alloc_fresh
    (K:=Z) (C:=unit) (O:=unit)) as Hlaws.
  pose proof (demo_run_reachable _ _ Hr) as Hy. unfold reachable in Hy. apply sys_reachable_inv in Hy; [|done..].
  exact (si_ok _ _ _ _ _ Hy _ _ Hs).
Qed.

(** The second transaction has read version 101 of its first key and version 12 of
    the other one; a validation against version 10 fails. *)
Definition demo_validation : PostReadCc := mkPostRead 2 (mkAddr (default 0%Z (cc_lock_and_extra_ (ccm_shard (demo_at 13)) !! 70%Z)) 0 0 1) 10 104 Primary.

Definition demo_value : CcEntry Z := default CcEntry_new (cce_heap (demo_at 13) !! 70%Z).

Lemma PostRead_answers_witness :
  validation_outcome (demo_at 13) demo_validation 70 demo_value = Error VALIDATION_FAILED_FOR_VERSION_MISMATCH ∧
  ∃ m', Execute_PostReadCc demo_env (demo_at 13) demo_validation =
      Some (validation_outcome (demo_at 13) demo_validation 70 demo_value, m') ∧
    mode (ccm_shard m') 70 (pr_txn demo_validation) = NoLock.
Proof.
  split; [vm_compute; reflexivity|]. apply (PostRead_answers demo_bound demo_env (demo_at 13) demo_validation 70 demo_value).
  - apply demo_at_ok.
  - vm_compute. reflexivity.
  - vm_compute. reflexivity.
  - vm_compute. reflexivity.
  - intros k Hk Hq. revert k Hk Hq. assert (no_waiter (demo_at 13) 2) as Hn by (apply (bool_decide_unpack _); vm_compute; exact I).
    intros k. unfold GetKeyLock. destruct (cc_lock_and_extra_ _ !! _) as [p|]; [|done]. intros Hk. exact (Hn p k Hk).
Defined.

(** The second transaction holds the write lock of its first key; another one is
    refused. *)
Definition demo_refused : AcquireCc Z := demo_acquire_req 9 (demo_table, 5%Z).
Definition demo_refusal := Execute_AcquireCc demo_env demo_page (demo_at 16) demo_refused false None.
Definition demo_refused_state : ShardMaps Z Z unit unit := from_option snd (demo_at 16) demo_refusal.
Definition demo_refused_answer : AcquireCc Z := from_option (snd ∘ fst) demo_refused demo_refusal.


(** The first read of the run. *)
Definition demo_first := Execute_ReadCc demo_env demo_page 0%Z demo_maps (demo_read 1 (demo_table, 5%Z)) false.
Definition demo_first_state : ShardMaps Z Z unit unit := from_option snd demo_maps demo_first.
Definition demo_first_answer : ReadCc Z Z := from_option (snd ∘ fst) (demo_read 1 (demo_table, 5%Z)) demo_first.

