(* ===== verification/Standby.v ===== *)
(** * Replication to standby nodes

    A primary forwards every committed command to its standby nodes.  Each core
    numbers its messages with a sequence id, keeps the last
    [txservice_max_standby_lag] of them for retransmission, and remembers for
    each standby the last id that was written to its stream.  A standby that
    falls behind the buffer is told that it is out of sync and must subscribe
    again.  On the standby a [StandbySequenceGroup] per primary core tracks up to
    which id, and thereby up to which timestamp, the local data is complete.
    Source: [include/standby.h], [include/cc/cc_shard.h], [src/cc/cc_shard.cpp].

    Entries are owned by [standby_fwd_vec_], which only grows, so a pointer to an
    entry is its index.  Whether a write to a stream succeeds is an argument. *)

From S2P Require Import Prelude.

(** [StandbyForwardEntry]; [M] is the message body. *)
Record StandbyForwardEntry (M : Type) := mkFwd {
  fe_in_use : bool;
  fe_sequence_id : Z;
  fe_msg : M;
}.
Arguments mkFwd {_}.
Arguments fe_in_use {_}.
Arguments fe_sequence_id {_}.
Arguments fe_msg {_}.

(** What is written to the stream of a standby: a forwarded message with its
    sequence id, or the out-of-sync notice. *)
Inductive fwd_msg (M : Type) := Forward (seq_id : Z) (m : M) | OutOfSync (seq_id : Z).
Arguments Forward {_}.
Arguments OutOfSync {_}.

(** An entry of [subscribed_standby_nodes_], with the start of the subscription
    and what was written to the stream since. *)
Record Subscriber (M : Type) := mkSub {
  sub_last : Z;
  sub_term : Z;
  sub_start : Z;
  sub_stream : list (fwd_msg M);
}.
Arguments mkSub {_}.
Arguments sub_last {_}.
Arguments sub_term {_}.
Arguments sub_start {_}.
Arguments sub_stream {_}.

(** [forwarded] is the history: the messages numbered 1, 2, ... *)
Record Primary (M : Type) := mkPrimary {
  standby_fwd_vec_ : list (StandbyForwardEntry M);
  standby_fwded_msg_buffer_ : list (option nat);
  next_foward_idx_ : nat;
  next_forward_sequence_id_ : Z;
  subscribed_standby_nodes_ : gmap Z (Subscriber M);
  retry_in_use : bool;
  forwarded : list M;
}.
Arguments mkPrimary {_}.
Arguments standby_fwd_vec_ {_}.
Arguments standby_fwded_msg_buffer_ {_}.
Arguments next_foward_idx_ {_}.
Arguments next_forward_sequence_id_ {_}.
Arguments subscribed_standby_nodes_ {_}.
Arguments retry_in_use {_}.
Arguments forwarded {_}.

Section primary.
Context {M : Type} (empty_msg : M) (lag : nat).
Abbreviation entry := (StandbyForwardEntry M).
Abbreviation primary := (Primary M).
Implicit Types (p : primary) (e : entry).

Definition set_fwd p vec buf idx : primary :=
  mkPrimary vec buf idx (next_forward_sequence_id_ p) (subscribed_standby_nodes_ p)
    (retry_in_use p) (forwarded p).
Definition set_subscribed p m retry : primary :=
  mkPrimary (standby_fwd_vec_ p) (standby_fwded_msg_buffer_ p) (next_foward_idx_ p)
    (next_forward_sequence_id_ p) m retry (forwarded p).

Definition StandbyForwardEntry_new : entry := mkFwd false UINT64_MAX empty_msg.

(** [Init]: [lag] is [txservice_max_standby_lag]. *)
Definition Primary_Init : primary :=
  mkPrimary (replicate lag StandbyForwardEntry_new) (replicate lag None) 0 1 ∅ false [].

(** ** [GetNextStandbyForwardEntry] *)

Definition entry_available (next_seq : Z) e : bool :=
  negb (fe_in_use e) &&
  (bool_decide (fe_sequence_id e = UINT64_MAX) ||
   bool_decide (Z.of_nat lag <= u64 (next_seq - fe_sequence_id e))%Z).

Fixpoint find_available (next_seq : Z) (vec : list entry) (n idx : nat) : option nat :=
  match n with
  | 0 => None
  | S n =>
      match vec !! idx with
      | Some e =>
          if entry_available next_seq e then Some idx
          else find_available next_seq vec n (if decide (length vec <= S idx) then 0 else S idx)
      | None => None
      end
  end.

Definition reset_entry e : entry := mkFwd true UINT64_MAX empty_msg.

(** The index of the entry handed out; [None] where [at] throws. *)
Definition GetNextStandbyForwardEntry p : option (nat * primary) :=
  let old_size := length (standby_fwd_vec_ p) in
  let '(vec, idx) :=
    match find_available (next_forward_sequence_id_ p) (standby_fwd_vec_ p) old_size
            (next_foward_idx_ p) with
    | Some idx => (standby_fwd_vec_ p, idx)
    | None =>
        let new_size := old_size * 3 / 2 in
        (standby_fwd_vec_ p ++ replicate (new_size - old_size) StandbyForwardEntry_new, old_size)
    end in
  e ← vec !! idx;
  Some (idx,
    set_fwd p (<[idx := reset_entry e]> vec) (standby_fwded_msg_buffer_ p)
      (if decide (S idx = length vec) then 0 else S idx)).

(** The holder of an entry fills in its message, or gives it back unused. *)
Definition write_entry p (idx : nat) (m : M) : primary :=
  set_fwd p (alter (λ e, mkFwd (fe_in_use e) (fe_sequence_id e) m) idx (standby_fwd_vec_ p))
    (standby_fwded_msg_buffer_ p) (next_foward_idx_ p).
Definition Free p (idx : nat) : primary :=
  set_fwd p (alter (λ e, mkFwd false (fe_sequence_id e) (fe_msg e)) idx (standby_fwd_vec_ p))
    (standby_fwded_msg_buffer_ p) (next_foward_idx_ p).

(** ** [ForwardStandbyMessage] *)

(** One subscriber: only the one that has everything before is written to. *)
Definition forward_to (send_ok : Z → bool) (seq_id : Z) (m : M) (node : Z) (sub : Subscriber M)
    : Subscriber M :=
  if bool_decide (sub_last sub = u64 (seq_id - 1)) && send_ok node then
    mkSub (u64 (sub_last sub + 1)) (sub_term sub) (sub_start sub) (sub_stream sub ++ [Forward seq_id m])
  else sub.

Definition ForwardStandbyMessage (send_ok : Z → bool) p (idx : nat) : option primary :=
  e ← standby_fwd_vec_ p !! idx;
  let seq_id := next_forward_sequence_id_ p in
  let buf_idx := Z.to_nat (seq_id mod Z.of_nat lag) in
  let subs := subscribed_standby_nodes_ p in
  let failed node sub := negb (bool_decide (sub_last sub = u64 (seq_id - 1)) && send_ok node) in
  let any_failed := existsb (λ ns, failed ns.1 ns.2) (map_to_list subs) in
  Some (mkPrimary
    (<[idx := mkFwd false seq_id (fe_msg e)]> (standby_fwd_vec_ p))
    (<[buf_idx := Some idx]> (standby_fwded_msg_buffer_ p))
    (next_foward_idx_ p) (u64 (seq_id + 1))
    (map_imap (λ node sub, Some (forward_to send_ok seq_id (fe_msg e) node sub)) subs)
    (retry_in_use p || any_failed) (forwarded p ++ [fe_msg e])).

(** ** [ResendFailedForwardMessages] *)

(** The buffered message [seq_id], if it is still there. *)
Definition buffered p (seq_id : Z) : option M :=
  slot ← standby_fwded_msg_buffer_ p !! Z.to_nat (seq_id mod Z.of_nat lag);
  idx ← slot;
  e ← standby_fwd_vec_ p !! idx;
  if negb (fe_in_use e) && bool_decide (fe_sequence_id e = seq_id) then Some (fe_msg e) else None.

(** The loop for one subscriber; [n] bounds the messages of one round. The result
    says whether a write failed. *)
Fixpoint resend_loop (send_ok : Z → Z → bool) p (node : Z) (n : nat) (sub : Subscriber M)
    : bool * Subscriber M :=
  match n with
  | 0 => (false, sub)
  | S n =>
      if decide (sub_last sub < u64 (next_forward_sequence_id_ p - 1))%Z then
        let seq := u64 (sub_last sub + 1) in
        match buffered p seq with
        | Some m =>
            if send_ok node seq then
              resend_loop send_ok p node n
                (mkSub seq (sub_term sub) (sub_start sub) (sub_stream sub ++ [Forward seq m]))
            else (true, sub)
        | None =>
            (false,
             let notice := u64 (next_forward_sequence_id_ p - 1) in
             mkSub UINT64_MAX (sub_term sub) (sub_start sub)
               (sub_stream sub ++ (if send_ok node notice then [OutOfSync notice] else [])))
        end
      else (false, sub)
  end.

Definition resend_to (send_ok : Z → Z → bool) p (node : Z) (sub : Subscriber M)
    : bool * Subscriber M :=
  if bool_decide (sub_last sub = u64 (next_forward_sequence_id_ p - 1)) ||
     bool_decide (sub_last sub = UINT64_MAX) then (true, sub)
  else
    let '(failed, sub1) := resend_loop send_ok p node 500 sub in
    (negb failed &&
     negb (bool_decide (sub_last sub1 < u64 (next_forward_sequence_id_ p - 1))%Z), sub1).

Definition ResendFailedForwardMessages (send_ok : Z → Z → bool) p : bool * primary :=
  let subs := subscribed_standby_nodes_ p in
  (forallb (λ ns, (resend_to send_ok p ns.1 ns.2).1) (map_to_list subs),
   set_subscribed p (map_imap (λ node sub, Some (resend_to send_ok p node sub).2) subs)
     (retry_in_use p)).

(** [RetryFailedStandbyMsgCc::Execute]: the request is freed when nothing is left
    to send and queued again otherwise. *)
Definition RetryFailedStandbyMsgCc_Execute (send_ok : Z → Z → bool) p : primary :=
  let '(all_msgs_sent, p1) := ResendFailedForwardMessages send_ok p in
  set_subscribed p1 (subscribed_standby_nodes_ p1) (negb all_msgs_sent).

(** ** Subscriptions *)

Definition AddSubscribedStandby p (node_id start_seq_id standby_node_term : Z) : primary :=
  let fresh := mkSub (u64 (start_seq_id - 1)) standby_node_term start_seq_id [] in
  match subscribed_standby_nodes_ p !! node_id with
  | None => set_subscribed p (<[node_id := fresh]> (subscribed_standby_nodes_ p)) (retry_in_use p)
  | Some sub =>
      if decide (sub_term sub < standby_node_term)%Z
      then set_subscribed p (<[node_id := fresh]> (subscribed_standby_nodes_ p)) (retry_in_use p)
      else p
  end.

(** Another core found that the standby fell behind. *)
Definition unsubscribe p (node_id unsubscribe_standby_term : Z) : primary :=
  match subscribed_standby_nodes_ p !! node_id with
  | Some sub =>
      if decide (sub_term sub <= unsubscribe_standby_term)%Z then
        set_subscribed p
          (<[node_id := mkSub UINT64_MAX (sub_term sub) (sub_start sub) (sub_stream sub)]>
             (subscribed_standby_nodes_ p)) (retry_in_use p)
      else p
  | None => p
  end.

Definition ResetStandbySequence p : primary :=
  mkPrimary ((λ e, mkFwd false UINT64_MAX (fe_msg e)) <$> standby_fwd_vec_ p)
    (standby_fwded_msg_buffer_ p) (next_foward_idx_ p) 1 ∅ (retry_in_use p) [].
End primary.

(** ** The stream of a standby *)

Section stream.
Context {M : Type}.
Implicit Types (hist l : list M).

(** Messages numbered from [start]. *)
Definition numbered (start : Z) l : list (fwd_msg M) :=
  imap (λ i m, Forward (start + Z.of_nat i)%Z m) l.

Definition segment hist (start : Z) (n : nat) : list M := take n (drop (Z.to_nat (start - 1)) hist).

Lemma numbered_snoc start l m :
  numbered start (l ++ [m]) = numbered start l ++ [Forward (start + Z.of_nat (length l))%Z m].
Proof. unfold numbered. rewrite imap_app. cbn. by rewrite Nat.add_0_r. Qed.

Lemma segment_snoc hist start n m :
  (1 ≤ start)%Z → hist !! Z.to_nat (start - 1 + Z.of_nat n) = Some m →
  segment hist start (S n) = segment hist start n ++ [m] ∧ length (segment hist start n) = n.
Proof.
  intros Hs Hm. unfold segment.
  assert (drop (Z.to_nat (start - 1)) hist !! n = Some m) as Hd.
  { rewrite lookup_drop. rewrite <-Hm. f_equal. lia. }
  split; [by apply take_S_r|]. rewrite length_take. apply lookup_lt_Some in Hd. lia.
Qed.

Lemma segment_app hist start n m :
  (1 ≤ start)%Z → (start - 1 + Z.of_nat n ≤ Z.of_nat (length hist))%Z →
  segment (hist ++ [m]) start n = segment hist start n.
Proof.
  intros Hs Hn. unfold segment. rewrite drop_app_le by lia. apply take_app_le.
  rewrite length_drop. lia.
Qed.
End stream.

Section primary_ok.
Context {M : Type} (empty_msg : M) (lag : nat).
Abbreviation primary := (Primary M).
Implicit Types (p : primary) (e : StandbyForwardEntry M) (sub : Subscriber M).

(** What a subscriber was sent: the history from the start of its subscription,
    in order and without gaps; once it is out of sync, possibly the notice. *)
Record sub_ok p sub : Prop := {
  so_start : (1 ≤ sub_start sub)%Z;
  so_stream : ∃ n,
    (sub_start sub - 1 + Z.of_nat n < next_forward_sequence_id_ p)%Z ∧
    ((sub_last sub = (sub_start sub - 1 + Z.of_nat n)%Z ∧
      sub_stream sub = numbered (sub_start sub) (segment (forwarded p) (sub_start sub) n)) ∨
     (sub_last sub = UINT64_MAX ∧ ∃ tail, (tail = [] ∨ ∃ q, tail = [OutOfSync q]) ∧
      sub_stream sub = numbered (sub_start sub) (segment (forwarded p) (sub_start sub) n) ++ tail));
}.

Record primary_ok p : Prop := {
  po_next : next_forward_sequence_id_ p = (Z.of_nat (length (forwarded p)) + 1)%Z;
  po_bound : (next_forward_sequence_id_ p < UINT64_MAX)%Z;
  po_buffer : length (standby_fwded_msg_buffer_ p) = lag;
  po_entry : ∀ i e, standby_fwd_vec_ p !! i = Some e →
    (fe_in_use e = true → fe_sequence_id e = UINT64_MAX) ∧
    (fe_sequence_id e ≠ UINT64_MAX →
       (1 ≤ fe_sequence_id e < next_forward_sequence_id_ p)%Z ∧
       forwarded p !! Z.to_nat (fe_sequence_id e - 1) = Some (fe_msg e));
  po_recent : ∀ q, (1 ≤ q < next_forward_sequence_id_ p)%Z →
    (next_forward_sequence_id_ p - q < Z.of_nat lag)%Z → is_Some (buffered lag p q);
  po_subs : ∀ node sub, subscribed_standby_nodes_ p !! node = Some sub → sub_ok p sub;
}.

(** A buffered message is the one with that number. *)
Lemma buffered_forwarded p q m :
  primary_ok p → q ≠ UINT64_MAX → buffered lag p q = Some m →
  (1 ≤ q < next_forward_sequence_id_ p)%Z ∧ forwarded p !! Z.to_nat (q - 1) = Some m.
Proof.
  intros Hp Hq. unfold buffered.
  destruct (standby_fwded_msg_buffer_ p !! _) as [[i|]|]; cbn; [|done|done].
  destruct (standby_fwd_vec_ p !! i) as [e|] eqn:E; cbn; [|done].
  destruct (negb (fe_in_use e) && bool_decide (fe_sequence_id e = q)) eqn:Eb; [|done].
  intros [= <-]. bool_to_prop. subst q. by apply (po_entry _ Hp i e).
Qed.

Lemma find_available_Some next vec n idx i :
  find_available lag next vec n idx = Some i → ∃ e, vec !! i = Some e ∧ entry_available lag next e = true.
Proof.
  revert idx. induction n as [|n IH]; intros idx; cbn; [done|].
  destruct (vec !! idx) as [e|] eqn:E; [|done].
  destruct (entry_available lag next e) eqn:Ea; [|by apply IH]. intros [= <-]. eauto.
Qed.

(** Replacing an entry that is not a recent message. *)
Lemma buffered_other p vec idx q :
  (∀ i, i ≠ idx → i < length (standby_fwd_vec_ p) → vec !! i = standby_fwd_vec_ p !! i) →
  (∀ e, standby_fwd_vec_ p !! idx = Some e → fe_in_use e = true ∨ fe_sequence_id e ≠ q) →
  is_Some (buffered lag p q) →
  is_Some (buffered lag (set_fwd p vec (standby_fwded_msg_buffer_ p) (next_foward_idx_ p)) q).
Proof.
  intros Hv Hi. unfold buffered. cbn.
  destruct (standby_fwded_msg_buffer_ p !! _) as [[i|]|]; cbn; [|done|done].
  destruct (standby_fwd_vec_ p !! i) as [e|] eqn:E; cbn; [|by intros [? ?]].
  destruct (decide (i = idx)) as [->|Hne].
  - destruct (Hi e E) as [Hu|Hs].
    + rewrite Hu. cbn. by intros [? ?].
    + rewrite bool_decide_eq_false_2, andb_false_r by done. by intros [? ?].
  - rewrite Hv, E by (done || by eapply lookup_lt_Some). done.
Qed.

(** A change of the entries only. *)
Lemma set_vec_ok p vec idx nidx :
  primary_ok p →
  (∀ i, i ≠ idx → i < length (standby_fwd_vec_ p) → vec !! i = standby_fwd_vec_ p !! i) →
  (∀ e, standby_fwd_vec_ p !! idx = Some e → fe_in_use e = true ∨ fe_sequence_id e = UINT64_MAX ∨
     (Z.of_nat lag ≤ next_forward_sequence_id_ p - fe_sequence_id e)%Z) →
  (∀ i e, vec !! i = Some e → fe_sequence_id e = UINT64_MAX ∨ standby_fwd_vec_ p !! i = Some e) →
  primary_ok (set_fwd p vec (standby_fwded_msg_buffer_ p) nidx).
Proof.
  intros Hp Hv Hi He. pose proof Hp as [Hn Hb Hl Hen Hr Hs]. split; cbn; [done|done|done| | |].
  - intros i e Hie. destruct (He i e Hie) as [Hmax|Hold]; [|by apply (Hen i)]. by rewrite Hmax.
  - intros q Hq Hlag. unfold UINT64_MAX in *. apply (buffered_other p vec idx q Hv); [|by apply Hr].
    intros e Hie. destruct (Hi e Hie) as [?|[Hx|?]]; [by left|right|right]; lia.
  - intros node sub Hsub. destruct (Hs node sub Hsub) as [? ?]. by split.
Qed.

Lemma entry_available_old p i e :
  primary_ok p → standby_fwd_vec_ p !! i = Some e →
  entry_available lag (next_forward_sequence_id_ p) e = true →
  fe_sequence_id e = UINT64_MAX ∨ (Z.of_nat lag ≤ next_forward_sequence_id_ p - fe_sequence_id e)%Z.
Proof.
  intros Hp He. unfold entry_available. rewrite andb_true_iff, orb_true_iff, !bool_decide_eq_true.
  intros [_ [?|Ha]]; [by left|].
  destruct (decide (fe_sequence_id e = UINT64_MAX)) as [Hm|Hm]; [by left|right].
  destruct (proj2 (po_entry _ Hp i e He) Hm) as [? _]. pose proof (po_bound _ Hp).
  rewrite u64_small in Ha; [done|]. unfold UINT64_MAX in *. lia.
Qed.

(** Replacing one entry by one that carries no message. *)
Lemma insert_entry_ok p idx e e' nidx :
  primary_ok p → standby_fwd_vec_ p !! idx = Some e → fe_sequence_id e' = UINT64_MAX →
  fe_in_use e = true ∨ fe_sequence_id e = UINT64_MAX ∨
    (Z.of_nat lag ≤ next_forward_sequence_id_ p - fe_sequence_id e)%Z →
  primary_ok (set_fwd p (<[idx := e']> (standby_fwd_vec_ p)) (standby_fwded_msg_buffer_ p) nidx).
Proof.
  intros Hp He He' Hold. apply set_vec_ok with (idx := idx); [done|..].
  - intros. by rewrite list_lookup_insert_ne.
  - intros e1 ?. by simplify_eq.
  - intros i' e1 Hi'. destruct (decide (i' = idx)) as [->|].
    + rewrite list_lookup_insert_eq in Hi' by (by eapply lookup_lt_Some). simplify_eq. by left.
    + rewrite list_lookup_insert_ne in Hi' by done. by right.
Qed.

Lemma grow_ok p n nidx :
  primary_ok p →
  primary_ok (set_fwd p (standby_fwd_vec_ p ++ replicate n (StandbyForwardEntry_new empty_msg))
    (standby_fwded_msg_buffer_ p) nidx).
Proof.
  intros Hp. apply set_vec_ok with (idx := length (standby_fwd_vec_ p)); [done|..].
  - intros i _ Hi. by rewrite lookup_app_l.
  - intros e He. apply lookup_lt_Some in He. lia.
  - intros i e [Hi|[_ [-> _]%lookup_replicate]]%lookup_app_Some; [by right|by left].
Qed.

(** The entry handed out is in use and carries no sequence id. *)
Lemma GetNext_ok p i p' :
  primary_ok p → GetNextStandbyForwardEntry empty_msg lag p = Some (i, p') →
  primary_ok p' ∧ ∃ e, standby_fwd_vec_ p' !! i = Some e ∧ fe_in_use e = true.
Proof.
  intros Hp. unfold GetNextStandbyForwardEntry.
  destruct (find_available _ _ _ _ _) as [idx|] eqn:E; cbn.
  - apply find_available_Some in E as (e & He & Ha). rewrite He. cbn. intros [= <- <-].
    split; [|cbn; eexists; rewrite list_lookup_insert_eq by (by eapply lookup_lt_Some); done].
    apply insert_entry_ok with (e := e); [done..|]. right. by eapply entry_available_old.
  - set (vec := standby_fwd_vec_ p ++ _). destruct (vec !! _) as [e|] eqn:He; cbn; [|done].
    intros [= <- <-].
    split; [|cbn; eexists; rewrite list_lookup_insert_eq by (by eapply lookup_lt_Some); done].
    set (p1 := set_fwd p vec (standby_fwded_msg_buffer_ p) (next_foward_idx_ p)).
    apply (insert_entry_ok p1) with (e := e); [by apply grow_ok|done..|].
    right; left. subst vec. rewrite lookup_app_r in He by done.
    by apply lookup_replicate in He as [-> _].
Qed.

Lemma alter_insert_entry {A} (f : A → A) (l : list A) (i : nat) x : l !! i = Some x → alter f i l = <[i := f x]> l.
Proof.
  intros Hx. apply list_eq. intros j. destruct (decide (i = j)) as [<-|].
  - rewrite list_lookup_alter_eq, Hx, list_lookup_insert_eq by (by eapply lookup_lt_Some). done.
  - by rewrite list_lookup_alter_ne, list_lookup_insert_ne.
Qed.

(** Only an entry in use is written. *)
Lemma alter_entry_ok p f idx e :
  primary_ok p → standby_fwd_vec_ p !! idx = Some e → fe_in_use e = true →
  fe_sequence_id (f e) = fe_sequence_id e →
  primary_ok (set_fwd p (alter f idx (standby_fwd_vec_ p)) (standby_fwded_msg_buffer_ p)
    (next_foward_idx_ p)).
Proof.
  intros Hp He Hu Hf. rewrite (alter_insert_entry _ _ _ e) by done.
  apply insert_entry_ok with (e := e); [done..| |by left].
  rewrite Hf. by apply (po_entry _ Hp idx e).
Qed.

Lemma sub_ok_forwarded p p' sub m :
  forwarded p' = forwarded p ++ [m] → next_forward_sequence_id_ p = (Z.of_nat (length (forwarded p)) + 1)%Z →
  next_forward_sequence_id_ p' = (next_forward_sequence_id_ p + 1)%Z →
  sub_ok p sub → sub_ok p' sub.
Proof.
  intros Hf Hn Hn' [Hs (n & Hlt & Hd)]. split; [done|]. exists n.
  rewrite Hf, segment_app by lia. split; [lia|done].
Qed.

(** Appending the next message to a stream that is complete. *)
Lemma sub_ok_next p sub n m :
  sub_ok p sub → sub_last sub = (sub_start sub - 1 + Z.of_nat n)%Z →
  (sub_last sub + 1 < next_forward_sequence_id_ p < UINT64_MAX)%Z →
  forwarded p !! Z.to_nat (sub_last sub) = Some m →
  sub_ok p (mkSub (sub_last sub + 1)%Z (sub_term sub) (sub_start sub)
    (sub_stream sub ++ [Forward (sub_last sub + 1)%Z m])).
Proof.
  intros [Hs (n' & Hlt & [[Hl Hst]|[Hl _]])] Hn Hb Hm; [|unfold UINT64_MAX in *; lia].
  assert (n' = n) as -> by lia. split; cbn; [done|]. exists (S n).
  rewrite Hl in Hm. destruct (segment_snoc _ _ _ _ Hs Hm) as [Hseg Hlen].
  split; [lia|left]. split; [lia|]. rewrite Hst, Hseg, numbered_snoc, Hlen.
  do 3 f_equal. lia.
Qed.

Lemma mod_distinct q q' : (0 < Z.of_nat lag)%Z → (q < q' < q + Z.of_nat lag)%Z →
  (0 ≤ q)%Z → Z.to_nat (q mod Z.of_nat lag) ≠ Z.to_nat (q' mod Z.of_nat lag).
Proof.
  intros Hl Hq Hq0 E.
  assert (q mod Z.of_nat lag = q' mod Z.of_nat lag)%Z as Em
    by (pose proof (Z.mod_pos_bound q _ Hl); pose proof (Z.mod_pos_bound q' _ Hl); lia).
  pose proof (Z.div_mod q (Z.of_nat lag) ltac:(lia)) as H1.
  pose proof (Z.div_mod q' (Z.of_nat lag) ltac:(lia)) as H2. rewrite Em in H1.
  clear E Em. generalize dependent (q' mod Z.of_nat lag)%Z. intros r.
  generalize (q / Z.of_nat lag)%Z (q' / Z.of_nat lag)%Z. intros a b ??.
  destruct (Z_le_gt_dec b a); nia.
Qed.

Lemma forward_to_ok p p' send_ok m node sub :
  (next_forward_sequence_id_ p' < UINT64_MAX)%Z →
  forwarded p' = forwarded p ++ [m] → next_forward_sequence_id_ p = (Z.of_nat (length (forwarded p)) + 1)%Z →
  next_forward_sequence_id_ p' = (next_forward_sequence_id_ p + 1)%Z →
  sub_ok p sub → sub_ok p' (forward_to send_ok (next_forward_sequence_id_ p) m node sub).
Proof.
  intros Hb Hf Hn Hn' Hs. assert (sub_ok p' sub) as Hs' by by eapply sub_ok_forwarded.
  unfold forward_to. destruct (bool_decide _) eqn:E; cbn; [|done]. destruct (send_ok node); [|done].
  bool_to_prop. unfold UINT64_MAX in *. rewrite u64_small in E by lia.
  assert (next_forward_sequence_id_ p = (sub_last sub + 1)%Z) as Hnl by lia.
  rewrite u64_small by lia. rewrite Hnl.
  pose proof (so_stream _ _ Hs) as (n & Hlt & [[Hl _]|[Hl _]]); [|unfold UINT64_MAX in *; lia].
  apply sub_ok_next with n; [done|done|unfold UINT64_MAX; lia|].
  rewrite Hf. apply list_lookup_middle. lia.
Qed.

Lemma Forward_recent p idx e q vec buf nidx next subs retry fwd :
  primary_ok p → standby_fwd_vec_ p !! idx = Some e → fe_in_use e = true → 0 < lag →
  next = (next_forward_sequence_id_ p + 1)%Z → (1 ≤ q < next)%Z → (next - q < Z.of_nat lag)%Z →
  vec = <[idx := mkFwd false (next_forward_sequence_id_ p) (fe_msg e)]> (standby_fwd_vec_ p) →
  buf = <[Z.to_nat (next_forward_sequence_id_ p mod Z.of_nat lag) := Some idx]> (standby_fwded_msg_buffer_ p) →
  is_Some (buffered lag (mkPrimary vec buf nidx next subs retry fwd) q).
Proof.
  intros Hp He Hu Hlag Hn Hq Hql -> ->. unfold buffered. cbn.
  pose proof (Z.mod_pos_bound (next_forward_sequence_id_ p) (Z.of_nat lag) ltac:(lia)).
  destruct (decide (q = next_forward_sequence_id_ p)) as [->|Hne].
  - rewrite list_lookup_insert_eq by (rewrite (po_buffer _ Hp); lia). cbn.
    rewrite list_lookup_insert_eq by (by eapply lookup_lt_Some). cbn. rewrite bool_decide_eq_true_2; eauto.
  - rewrite list_lookup_insert_ne by (apply not_eq_sym, mod_distinct; lia).
    destruct (po_recent _ Hp q) as [m Hm]; [lia|lia|]. revert Hm. unfold buffered.
    destruct (standby_fwded_msg_buffer_ p !! _) as [[i|]|]; cbn; [|done|done].
    destruct (decide (i = idx)) as [->|]; [rewrite He; cbn; by rewrite Hu|].
    rewrite list_lookup_insert_ne by done. eauto.
Qed.

Lemma ForwardStandbyMessage_ok send_ok p idx e p' :
  primary_ok p → 0 < lag → standby_fwd_vec_ p !! idx = Some e → fe_in_use e = true →
  (next_forward_sequence_id_ p + 1 < UINT64_MAX)%Z →
  ForwardStandbyMessage lag send_ok p idx = Some p' →
  primary_ok p' ∧ forwarded p' = forwarded p ++ [fe_msg e].
Proof.
  intros Hp Hlag He Hu Hb. unfold ForwardStandbyMessage. rewrite He. cbn. intros [= <-].
  pose proof (po_next _ Hp) as Hn. split; [|done].
  assert (u64 (next_forward_sequence_id_ p + 1) = next_forward_sequence_id_ p + 1)%Z as Hu64
    by (apply u64_small; unfold UINT64_MAX in *; lia).
  split; cbn; rewrite ?Hu64.
  - rewrite length_app. cbn. lia.
  - done.
  - rewrite length_insert. apply Hp.
  - intros i e' Hi. destruct (decide (i = idx)) as [->|Hne].
    + rewrite list_lookup_insert_eq in Hi by (by eapply lookup_lt_Some). simplify_eq. cbn.
      split; [done|]. intros _. split; [lia|]. apply list_lookup_middle. lia.
    + rewrite list_lookup_insert_ne in Hi by done. destruct (po_entry _ Hp i e' Hi) as [H1 H2].
      split; [done|]. intros Hm. destruct (H2 Hm). split; [lia|]. by apply lookup_app_l_Some.
  - intros q Hq Hql. by eapply Forward_recent.
  - intros node sub. rewrite map_lookup_imap.
    destruct (subscribed_standby_nodes_ p !! node) as [s0|] eqn:Es; cbn; [|done]. intros [= <-].
    eapply forward_to_ok; cbn; rewrite ?Hu64; [done..|]. by eapply po_subs.
Qed.

(** ** Retransmission *)

Lemma resend_loop_ok send_ok p node n sub r :
  primary_ok p → 0 < lag → sub_ok p sub → sub_last sub ≠ UINT64_MAX →
  resend_loop lag send_ok p node n sub = r →
  sub_ok p r.2 ∧
  (sub_last r.2 = UINT64_MAX ∧ (Z.of_nat lag < next_forward_sequence_id_ p - sub_last sub)%Z ∨
   (sub_last sub ≤ sub_last r.2 < next_forward_sequence_id_ p)%Z ∧ (sub_last r.2 ≠ UINT64_MAX)).
Proof.
  intros Hp Hlag Hs Hm <-. revert sub Hs Hm. induction n as [|n IH]; intros sub Hs Hm; cbn -[u64].
  all: pose proof (so_stream _ _ Hs) as (k & Hk & [[Hl Hst]|[Hl _]]); [|done].
  all: pose proof (po_bound _ Hp); pose proof (po_next _ Hp); pose proof (so_start _ _ Hs).
  { split; [done|right]. split; [lia|done]. }
  assert (0 ≤ sub_last sub + 1 < UINT64_MAX)%Z as Hr by lia.
  rewrite !(u64_small (next_forward_sequence_id_ p - 1)), (u64_small (sub_last sub + 1))
    by (unfold UINT64_MAX in *; lia).
  destruct (decide _) as [Hlt|Hge]; cbn -[u64]; [|split; [done|right; split; [lia|done]]].
  destruct (buffered lag p (sub_last sub + 1)) as [m|] eqn:Eb.
  - destruct (send_ok node _); cbn; [|split; [done|right; split; [lia|done]]].
    destruct (buffered_forwarded p (sub_last sub + 1)%Z m Hp ltac:(lia) Eb) as [_ Hfwd].
    destruct (IH (mkSub (sub_last sub + 1) (sub_term sub) (sub_start sub)
      (sub_stream sub ++ [Forward (sub_last sub + 1)%Z m]))) as [IH1 IH2].
    + apply sub_ok_next with k; [done|done|lia|]. rewrite <-Hfwd. f_equal. lia.
    + cbn. lia.
    + split; [done|]. cbn in IH2. destruct IH2 as [[? ?]|[? ?]]; [left|right]; split; (done || lia).
  - assert (Z.of_nat lag < next_forward_sequence_id_ p - sub_last sub)%Z as Hdrop.
    { destruct (decide (next_forward_sequence_id_ p - (sub_last sub + 1) < Z.of_nat lag)%Z); [|lia].
      destruct (po_recent _ Hp (sub_last sub + 1)) as [? ?]; [lia|done|congruence]. }
    cbn. split; [|by left]. split; cbn; [done|]. exists k. split; [done|right]. split; [done|].
    rewrite Hst. eexists; split; [|done]. destruct (send_ok _ _); [right; eauto|by left].
Qed.

Lemma resend_to_ok send_ok p node sub :
  primary_ok p → 0 < lag → sub_ok p sub → sub_ok p (resend_to lag send_ok p node sub).2.
Proof.
  intros Hp Hlag Hs. unfold resend_to.
  destruct (bool_decide (sub_last sub = u64 _)); [done|]. cbn [orb].
  destruct (bool_decide (sub_last sub = UINT64_MAX)) eqn:E; [done|]. bool_to_prop.
  destruct (resend_loop _ _ _ _ _ _) as [f s1] eqn:Er. cbn.
  by destruct (resend_loop_ok _ _ _ _ _ _ Hp Hlag Hs E Er).
Qed.

Lemma set_subscribed_ok p m retry :
  primary_ok p → (∀ node sub, m !! node = Some sub → sub_ok p sub) → primary_ok (set_subscribed p m retry).
Proof.
  intros [Hn Hb Hl Hen Hr _] Hs. split; cbn; [done..|].
  intros node sub Hsub. destruct (Hs node sub Hsub). by split.
Qed.

Lemma Resend_ok send_ok p :
  primary_ok p → 0 < lag → primary_ok (ResendFailedForwardMessages lag send_ok p).2.
Proof.
  intros Hp Hlag. apply set_subscribed_ok; [done|]. intros node sub. rewrite map_lookup_imap.
  destruct (_ !! node) as [s0|] eqn:Es; cbn; [|done]. intros [= <-].
  apply resend_to_ok; [done|done|]. by eapply po_subs.
Qed.

Lemma Retry_ok send_ok p :
  primary_ok p → 0 < lag → primary_ok (RetryFailedStandbyMsgCc_Execute lag send_ok p).
Proof.
  intros Hp Hlag. unfold RetryFailedStandbyMsgCc_Execute.
  pose proof (Resend_ok send_ok p Hp Hlag) as Hr.
  destruct (ResendFailedForwardMessages lag send_ok p) as [b p1].
  apply set_subscribed_ok; [done|]. intros node sub. by apply po_subs.
Qed.

(** ** Subscriptions *)

Lemma fresh_sub_ok p start term :
  (1 ≤ start ≤ next_forward_sequence_id_ p)%Z → (next_forward_sequence_id_ p < UINT64_MAX)%Z →
  sub_ok p (mkSub (u64 (start - 1)) term start []).
Proof.
  intros Hs Hb. split; cbn; [lia|]. exists 0. split; [lia|left].
  unfold segment, numbered. cbn. rewrite u64_small by (unfold UINT64_MAX in *; lia). split; [lia|done].
Qed.

Lemma insert_sub_ok p node sub retry :
  primary_ok p → sub_ok p sub →
  primary_ok (set_subscribed p (<[node := sub]> (subscribed_standby_nodes_ p)) retry).
Proof.
  intros Hp Hs. apply set_subscribed_ok; [done|].
  intros node' sub' [[_ <-]|[_ ?]]%lookup_insert_Some; [done|by eapply po_subs].
Qed.

Lemma AddSubscribedStandby_ok p node start term :
  primary_ok p → (1 ≤ start ≤ next_forward_sequence_id_ p)%Z →
  primary_ok (AddSubscribedStandby p node start term).
Proof.
  intros Hp Hs. pose proof (po_bound _ Hp). unfold AddSubscribedStandby.
  destruct (_ !! node); [destruct (decide _); [|done]|]; apply insert_sub_ok, fresh_sub_ok; done.
Qed.

Lemma unsubscribe_ok p node term : primary_ok p → primary_ok (unsubscribe p node term).
Proof.
  intros Hp. unfold unsubscribe. destruct (_ !! node) as [sub|] eqn:E; [|done].
  destruct (decide _); [|done]. apply insert_sub_ok; [done|].
  destruct (po_subs _ Hp node sub E) as [Hs (n & Hn & [[Hl Hst]|[Hl Hst]])]; split; cbn; [done| |done|];
    exists n; (split; [done|right]); split; [done| |done|done].
  exists []. rewrite app_nil_r. auto.
Qed.

Lemma ResetStandbySequence_ok p : primary_ok p → primary_ok (ResetStandbySequence p).
Proof.
  intros Hp. split; cbn.
  - done.
  - unfold UINT64_MAX. lia.
  - apply Hp.
  - intros i e Hi. rewrite list_lookup_fmap in Hi.
    destruct (standby_fwd_vec_ p !! i); cbn in Hi; simplify_eq. by split.
  - intros q ? ?. lia.
  - intros node sub. by rewrite lookup_empty.
Qed.

Lemma Primary_Init_ok : primary_ok (Primary_Init empty_msg lag).
Proof.
  split; cbn.
  - done.
  - unfold UINT64_MAX. lia.
  - apply length_replicate.
  - intros i e [-> _]%lookup_replicate. by split.
  - intros q ? ?. lia.
  - intros node sub. by rewrite lookup_empty.
Qed.
End primary_ok.

(** ** Executions of a primary core *)

Section primary_runs.
Context {M : Type} (empty_msg : M) (lag : nat).
Implicit Types p : Primary M.

(** Only the holder of an entry writes, frees or forwards it; a subscription
    starts at an id the primary has handed out; ids do not wrap around. *)
Inductive primary_step p : Primary M → Prop :=
  | step_get i p' :
      GetNextStandbyForwardEntry empty_msg lag p = Some (i, p') → primary_step p p'
  | step_write idx e m :
      standby_fwd_vec_ p !! idx = Some e → fe_in_use e = true → primary_step p (write_entry p idx m)
  | step_free idx e :
      standby_fwd_vec_ p !! idx = Some e → fe_in_use e = true → primary_step p (Free p idx)
  | step_forward send_ok idx e p' :
      standby_fwd_vec_ p !! idx = Some e → fe_in_use e = true →
      (next_forward_sequence_id_ p + 1 < UINT64_MAX)%Z →
      ForwardStandbyMessage lag send_ok p idx = Some p' → primary_step p p'
  | step_retry send_ok : primary_step p (RetryFailedStandbyMsgCc_Execute lag send_ok p)
  | step_subscribe node start term :
      (1 <= start <= next_forward_sequence_id_ p)%Z →
      primary_step p (AddSubscribedStandby p node start term)
  | step_unsubscribe node term : primary_step p (unsubscribe p node term)
  | step_reset : primary_step p (ResetStandbySequence p).

Definition primary_reachable : Primary M → Prop := rtc primary_step (Primary_Init empty_msg lag).

Lemma primary_step_ok p p' : 0 < lag → primary_ok lag p → primary_step p p' → primary_ok lag p'.
Proof.
  intros Hlag Hp [i q Hg|idx e m He Hu|idx e He Hu|so idx e q He Hu Hb Hf|so|node st t Hs|node t|].
  - by eapply GetNext_ok.
  - by eapply alter_entry_ok.
  - by eapply alter_entry_ok.
  - by eapply ForwardStandbyMessage_ok.
  - by apply Retry_ok.
  - by apply AddSubscribedStandby_ok.
  - by apply unsubscribe_ok.
  - by apply ResetStandbySequence_ok.
Qed.

Lemma primary_reachable_ok p : 0 < lag → primary_reachable p → primary_ok lag p.
Proof.
  intros Hlag. apply rtc_ind_r.
  - apply Primary_Init_ok.
  - intros ? ? _ ? ?. by eapply primary_step_ok.
Qed.
End primary_runs.

(** ** Progress of the retransmission *)

Section retry_progress.
Context {M : Type} (lag : nat).
Implicit Types (p : Primary M) (sub : Subscriber M).

Lemma resend_loop_all p node n sub :
  primary_ok lag p → sub_ok p sub → sub_last sub ≠ UINT64_MAX →
  (resend_loop lag (λ _ _, true) p node n sub).1 = false ∧
  (sub_last (resend_loop lag (λ _ _, true) p node n sub).2 = UINT64_MAX ∨
   sub_last (resend_loop lag (λ _ _, true) p node n sub).2 =
     Z.min (next_forward_sequence_id_ p - 1) (sub_last sub + Z.of_nat n)).
Proof.
  intros Hp Hs Hm. revert sub Hs Hm. induction n as [|n IH]; intros sub Hs Hm; cbn -[u64 Z.of_nat].
  all: pose proof (so_stream _ _ Hs) as (k & Hk & [[Hl Hst]|[Hl _]]); [|done].
  all: pose proof (po_bound _ _ Hp); pose proof (po_next _ _ Hp); pose proof (so_start _ _ Hs).
  { split; [done|right; lia]. }
  rewrite !(u64_small (next_forward_sequence_id_ p - 1)), (u64_small (sub_last sub + 1))
    by (unfold UINT64_MAX in *; lia).
  destruct (decide _) as [Hlt|Hge]; cbn -[u64 Z.of_nat]; [|split; [done|right; lia]].
  destruct (buffered lag p (sub_last sub + 1)) as [m|] eqn:Eb; [|cbn; auto].
  destruct (buffered_forwarded lag p (sub_last sub + 1)%Z m Hp ltac:(lia) Eb) as [_ Hfwd].
  destruct (IH (mkSub (sub_last sub + 1) (sub_term sub) (sub_start sub)
    (sub_stream sub ++ [Forward (sub_last sub + 1)%Z m]))) as [IH1 IH2].
  - apply sub_ok_next with k; [done|done|lia|]. rewrite <-Hfwd. f_equal. lia.
  - cbn. lia.
  - split; [done|]. destruct IH2 as [IH2|IH2]; [by left|right]. rewrite IH2. cbn. lia.
Qed.

(** At most [500 * k] messages are left for a subscriber that is in sync. *)
Definition behind_at_most p (k : nat) sub : Prop :=
  sub_last sub = UINT64_MAX ∨
  (next_forward_sequence_id_ p - 1 - sub_last sub <= 500 * Z.of_nat k)%Z.

Lemma resend_to_progress p node sub k :
  primary_ok lag p → sub_ok p sub → behind_at_most p (S k) sub →
  behind_at_most p k (resend_to lag (λ _ _, true) p node sub).2 ∧
  (k = 0 → (resend_to lag (λ _ _, true) p node sub).1 = true).
Proof.
  intros Hp Hs Hb. pose proof (po_bound _ _ Hp). pose proof (po_next _ _ Hp).
  unfold resend_to. rewrite !u64_small by (unfold UINT64_MAX in *; lia).
  destruct (bool_decide (sub_last sub = (_ - 1)%Z)) eqn:E; cbn [orb].
  { bool_to_prop. cbn. split; [right; lia|done]. }
  destruct (bool_decide (sub_last sub = UINT64_MAX)) eqn:E2; bool_to_prop.
  { cbn. split; [by left|done]. }
  pose proof (resend_loop_all p node 500 sub Hp Hs E2) as [Hf Hl]. destruct (resend_loop _ _ _ _ _ _) as [f s1].
  cbn in Hf, Hl |- *. subst f. destruct Hb as [Hb|Hb]; [done|].
  destruct Hl as [Hl|Hl]; rewrite Hl.
  - split; [by left|]. intros _. rewrite bool_decide_eq_false_2; [done|]. lia.
  - split; [right; lia|]. intros ->. rewrite bool_decide_eq_false_2; [done|]. lia.
Qed.

Lemma Retry_shape send_ok p :
  RetryFailedStandbyMsgCc_Execute lag send_ok p =
  set_subscribed p
    (map_imap (λ node sub, Some (resend_to lag send_ok p node sub).2) (subscribed_standby_nodes_ p))
    (negb (forallb (λ ns, (resend_to lag send_ok p ns.1 ns.2).1) (map_to_list (subscribed_standby_nodes_ p)))).
Proof. done. Qed.

Lemma Retry_step p k :
  primary_ok lag p → (∀ node sub, subscribed_standby_nodes_ p !! node = Some sub → behind_at_most p (S k) sub) →
  let p' := RetryFailedStandbyMsgCc_Execute lag (λ _ _, true) p in
  (∀ node sub, subscribed_standby_nodes_ p' !! node = Some sub → behind_at_most p' k sub) ∧
  (k = 0 → retry_in_use p' = false).
Proof.
  intros Hp Hb. rewrite Retry_shape. cbn. split.
  - intros node sub. rewrite map_lookup_imap. destruct (_ !! node) as [s0|] eqn:E; cbn; [|done].
    intros [= <-].
    by destruct (resend_to_progress p node s0 k Hp (po_subs _ _ Hp _ _ E) (Hb _ _ E)) as [Hx _].
  - intros ->. apply negb_false_iff, forallb_forall.
    intros [node sub] Hin%list_elem_of_In%elem_of_map_to_list.
    cbn. destruct (resend_to_progress p node sub 0) as [_ ->]; [done|by eapply po_subs|by eapply Hb|done|done].
Qed.

Lemma Retry_iter p k :
  primary_ok lag p → 0 < lag → 0 < k →
  (∀ node sub, subscribed_standby_nodes_ p !! node = Some sub → behind_at_most p k sub) →
  let p' := Nat.iter k (RetryFailedStandbyMsgCc_Execute lag (λ _ _, true)) p in
  retry_in_use p' = false ∧
  ∀ node sub, subscribed_standby_nodes_ p' !! node = Some sub → behind_at_most p' 0 sub.
Proof.
  intros Hp Hlag Hk. revert p Hp. induction k as [|[|k] IH]; intros p Hp Hb; [lia| |].
  - destruct (Retry_step p 0 Hp Hb) as [H1 H2]. split; [by apply H2|done].
  - destruct (Retry_step p (S k) Hp Hb) as [H1 _]. cbv zeta. rewrite Nat.iter_succ_r.
    apply IH; [lia|by apply Retry_ok|done].
Qed.
End retry_progress.

(** ** What a standby receives *)

(** C36: On every execution of a primary core, what was written to the stream of a
    subscribed standby is the forwarded history from the first message of its
    subscription on, numbered consecutively, in order, without a gap or a
    duplicate; only a standby that is out of sync may have got one more message,
    the notice. *)
Theorem standby_stream_gapless {M} (empty_msg : M) (lag : nat) p node sub :
  0 < lag → primary_reachable empty_msg lag p → subscribed_standby_nodes_ p !! node = Some sub →
  ∃ n tail,
    sub_stream sub = numbered (sub_start sub) (segment (forwarded p) (sub_start sub) n) ++ tail ∧
    (sub_start sub - 1 + Z.of_nat n <= Z.of_nat (length (forwarded p)))%Z ∧
    (sub_last sub ≠ UINT64_MAX → tail = [] ∧ sub_last sub = (sub_start sub - 1 + Z.of_nat n)%Z) ∧
    (tail = [] ∨ ∃ q, tail = [OutOfSync q]).
Proof.
  intros Hlag Hr Hs. pose proof (primary_reachable_ok empty_msg lag p Hlag Hr) as Hp.
  destruct (po_subs _ _ Hp node sub Hs) as [_ (n & Hn & Hd)]. pose proof (po_next _ _ Hp).
  exists n. destruct Hd as [[Hl ->]|(Hl & tail & Ht & ->)].
  - exists []. rewrite app_nil_r. repeat split; [lia|done|auto].
  - exists tail. split; [done|]. split; [lia|]. done.
Qed.

(**   Retransmission gives up on a standby only when the messages it misses no
    longer fit the buffer of [txservice_max_standby_lag] messages. *)
Theorem standby_dropped_only_when_lagging {M} (empty_msg : M) (lag : nat) p send_ok node sub sub' :
  0 < lag → primary_reachable empty_msg lag p →
  subscribed_standby_nodes_ p !! node = Some sub → sub_last sub ≠ UINT64_MAX →
  subscribed_standby_nodes_ (ResendFailedForwardMessages lag send_ok p).2 !! node = Some sub' →
  sub_last sub' = UINT64_MAX →
  (Z.of_nat lag < next_forward_sequence_id_ p - sub_last sub)%Z.
Proof.
  intros Hlag Hr Hs Hne Hs' Hmax. pose proof (primary_reachable_ok empty_msg lag p Hlag Hr) as Hp.
  unfold ResendFailedForwardMessages in Hs'. cbn [snd set_subscribed subscribed_standby_nodes_] in Hs'.
  rewrite map_lookup_imap, Hs in Hs'. cbn in Hs'. injection Hs' as <-. unfold resend_to in Hmax.
  destruct (bool_decide _ || bool_decide _); [done|].
  destruct (resend_loop _ _ _ _ _ _) as [f s1] eqn:El.
  destruct (resend_loop_ok lag _ _ _ _ _ _ Hp Hlag (po_subs _ _ Hp node sub Hs) Hne El) as [_ [[_ ?]|[_ Hc]]]; done.
Qed.

(**  When writes succeed, [k] executions of the retry request are enough to
    bring every standby that misses at most [500 * k] messages up to date, or to
    find it out of sync, and the request is then freed. *)
Theorem retry_catches_up {M} (empty_msg : M) (lag : nat) p k :
  0 < lag → 0 < k → primary_reachable empty_msg lag p →
  (∀ node sub, subscribed_standby_nodes_ p !! node = Some sub → behind_at_most p k sub) →
  let p' := Nat.iter k (RetryFailedStandbyMsgCc_Execute lag (λ _ _, true)) p in
  retry_in_use p' = false ∧
  ∀ node sub, subscribed_standby_nodes_ p' !! node = Some sub →
    sub_last sub = UINT64_MAX ∨ sub_last sub = (next_forward_sequence_id_ p' - 1)%Z.
Proof.
  intros Hlag Hk Hr Hb p'. pose proof (primary_reachable_ok empty_msg lag p Hlag Hr) as Hp.
  destruct (Retry_iter lag p k Hp Hlag Hk Hb) as [H1 H2]. split; [done|].
  assert (primary_ok lag p') as Hp' by (apply Nat.iter_invariant; [intros; by apply Retry_ok|done]).
  intros node sub Hs. destruct (po_subs _ _ Hp' node sub Hs) as [_ (n & Hn & [[Hl _]|[Hl _]])]; [|by left].
  destruct (H2 node sub Hs) as [?|Hle]; [by left|right]. fold p' in Hle. lia.
Qed.

(** ** A sample execution *)

(** An entry is obtained, filled in and forwarded. *)
Definition forward_message {M} (empty_msg : M) (lag : nat) (p : Primary M) (m : M) (ok : bool)
    : Primary M :=
  match GetNextStandbyForwardEntry empty_msg lag p with
  | Some (i, p1) => default p (ForwardStandbyMessage lag (λ _, ok) (write_entry p1 i m) i)
  | None => p
  end.

Lemma forward_message_reachable {M} (empty_msg : M) lag p m ok :
  0 < lag → primary_reachable empty_msg lag p → (next_forward_sequence_id_ p + 1 < UINT64_MAX)%Z →
  primary_reachable empty_msg lag (forward_message empty_msg lag p m ok).
Proof.
  intros Hlag Hr Hb. unfold forward_message.
  destruct (GetNextStandbyForwardEntry empty_msg lag p) as [[i p1]|] eqn:Eg; [|done].
  destruct (GetNext_ok empty_msg lag p i p1 (primary_reachable_ok _ _ _ Hlag Hr) Eg) as [_ (e & He & Hu)].
  assert (next_forward_sequence_id_ p1 = next_forward_sequence_id_ p) as Hn.
  { revert Eg. unfold GetNextStandbyForwardEntry. destruct (find_available _ _ _ _ _);
      intros (? & _ & [= <- <-])%bind_Some; done. }
  destruct (ForwardStandbyMessage _ _ _ _) as [p2|] eqn:Ef; [|done]. cbn.
  eapply rtc_r; [eapply rtc_r; [eapply rtc_r; [exact Hr|by eapply step_get]|by apply (step_write _ _ _ _ _ m He)]|].
  eapply (step_forward _ _ _ _ i (mkFwd (fe_in_use e) (fe_sequence_id e) m)); [|exact Hu|cbn; lia|exact Ef].
  cbn. by rewrite list_lookup_alter_eq, He.
Qed.

(** A node subscribes; the write of the second of three messages fails. *)
Definition sample_primary : Primary Z :=
  let p0 := AddSubscribedStandby (Primary_Init 0%Z 4) 7 1 1 in
  let p1 := forward_message 0%Z 4 p0 10%Z true in
  let p2 := forward_message 0%Z 4 p1 20%Z false in
  forward_message 0%Z 4 p2 30%Z true.

(** Four more messages later the second one is gone from the buffer. *)
Definition sample_lagging : Primary Z :=
  let p4 := forward_message 0%Z 4 sample_primary 40%Z true in
  let p5 := forward_message 0%Z 4 p4 50%Z true in
  forward_message 0%Z 4 p5 60%Z true.

Lemma sample_primary_reachable : primary_reachable 0%Z 4 sample_primary.
Proof.
  unfold sample_primary. do 3 (apply forward_message_reachable; [lia| |vm_compute; reflexivity]).
  apply rtc_once, step_subscribe. vm_compute. split; discriminate.
Qed.

Lemma sample_lagging_reachable : primary_reachable 0%Z 4 sample_lagging.
Proof.
  unfold sample_lagging. do 3 (apply forward_message_reachable; [lia| |vm_compute; reflexivity]).
  apply sample_primary_reachable.
Qed.

Lemma standby_stream_gapless_witness :
  ∃ sub, subscribed_standby_nodes_ sample_primary !! 7%Z = Some sub ∧ sub_stream sub = [Forward 1 10%Z] ∧
    ∃ n tail, sub_stream sub = numbered (sub_start sub) (segment (forwarded sample_primary) (sub_start sub) n) ++ tail.
Proof.
  eexists. split; [vm_compute; reflexivity|]. split; [reflexivity|].
  edestruct (standby_stream_gapless 0%Z 4 sample_primary 7) as (n & tail & E & _);
    [lia|apply sample_primary_reachable|vm_compute; reflexivity|].
  by exists n, tail.
Defined.

Lemma standby_dropped_only_when_lagging_witness :
  ∃ sub sub', subscribed_standby_nodes_ sample_lagging !! 7%Z = Some sub ∧
    subscribed_standby_nodes_ (ResendFailedForwardMessages 4 (λ _ _, true) sample_lagging).2 !! 7%Z = Some sub' ∧
    sub_last sub' = UINT64_MAX ∧ (4 < next_forward_sequence_id_ sample_lagging - sub_last sub)%Z.
Proof.
  eexists _, _. split; [vm_compute; reflexivity|]. split; [vm_compute; reflexivity|]. split; [reflexivity|].
  eapply (standby_dropped_only_when_lagging 0%Z 4 sample_lagging (λ _ _, true) 7);
    [lia|apply sample_lagging_reachable|vm_compute; reflexivity|vm_compute; discriminate
    |vm_compute; reflexivity|reflexivity].
Defined.

Lemma retry_catches_up_witness :
  let p' := RetryFailedStandbyMsgCc_Execute 4 (λ _ _, true) sample_primary in
  retry_in_use sample_primary = true ∧ retry_in_use p' = false ∧
  (sub_stream <$> subscribed_standby_nodes_ p' !! 7%Z) = Some [Forward 1 10%Z; Forward 2 20%Z; Forward 3 30%Z].
Proof.
  split; [vm_compute; reflexivity|]. split; [|vm_compute; reflexivity].
  apply (retry_catches_up 0%Z 4 sample_primary 1); [lia|lia|apply sample_primary_reachable|].
  intros node sub Hs.
  assert (Forall (λ ns, behind_at_most sample_primary 1 ns.2)
    (map_to_list (subscribed_standby_nodes_ sample_primary))) as Hf.
  { vm_compute. constructor; [right; discriminate|constructor]. }
  rewrite Forall_forall in Hf. exact (Hf (node, sub) (proj2 (elem_of_map_to_list _ _ _) Hs)).
Defined.

(** A subscription that starts in the past does not schedule the retransmission:
    the messages forwarded since its start are sent only after the next one. *)
Lemma late_subscription_not_scheduled :
  let p := AddSubscribedStandby (forward_message 0%Z 4 (Primary_Init 0%Z 4) 10%Z true) 7 1 1 in
  retry_in_use p = false ∧ (sub_last <$> subscribed_standby_nodes_ p !! 7%Z) = Some 0%Z ∧
  next_forward_sequence_id_ p = 2%Z.
Proof. vm_compute. done. Qed.
