(* ===== verification/StandbyGroup.v ===== *)
(** * The standby side of the replication

    A standby keeps one [StandbySequenceGroup] per core of its primary: the id
    its subscription starts at, the largest id received, the checkpoint
    timestamps the primary announced for ids that are still missing, and the
    largest timestamp up to which the data of the group is complete.  The minimum
    over the groups is the timestamp the standby may checkpoint.
    Source: [include/standby.h], [src/cc/cc_shard.cpp], [include/cc/cc_request.h]
    ([KeyObjectStandbyForwardCc]), [include/util.h]. *)

From stdpp Require Import sorting.
From S2P Require Import Prelude Standby.

Record StandbySequenceGroup := mkGroup {
  initial_sequnce_id_ : Z;
  next_expecting_standby_sequence_id_ : Z;
  last_consistent_standby_sequence_id_ : Z;
  missing_standby_seqeunce_ids_ : gset Z;
  last_standby_consistent_ts_ : Z;
  pending_standby_consistent_ts_ : list (Z * Z);
  subscribed_ : bool;
}.

Definition StandbySequenceGroup_new : StandbySequenceGroup := mkGroup 0 0 0 ∅ 0 [] false.

Definition Subscribe (initial_seq_id : Z) : StandbySequenceGroup :=
  mkGroup initial_seq_id initial_seq_id (u64 (initial_seq_id - 1)) ∅ 0 [] true.

Definition Unsubscribe (g : StandbySequenceGroup) : StandbySequenceGroup :=
  mkGroup (initial_sequnce_id_ g) (next_expecting_standby_sequence_id_ g)
    (last_consistent_standby_sequence_id_ g) (missing_standby_seqeunce_ids_ g)
    (last_standby_consistent_ts_ g) (pending_standby_consistent_ts_ g) false.

Definition set_progress (g : StandbySequenceGroup) last ts pending : StandbySequenceGroup :=
  mkGroup (initial_sequnce_id_ g) (next_expecting_standby_sequence_id_ g) last
    (missing_standby_seqeunce_ids_ g) ts pending (subscribed_ g).

(** [standby_sequence_grps_]. *)
Abbreviation groups := (gmap Z StandbySequenceGroup).

Definition SubsribeToPrimaryNode (grps : groups) (seq_grp seq_id : Z) : groups :=
  <[seq_grp := Subscribe seq_id]> grps.

(** The loop that moves announced timestamps whose id has arrived. *)
Fixpoint pop_pending (last ts : Z) (pending : list (Z * Z)) : Z * list (Z * Z) :=
  match pending with
  | (q, t) :: rest => if decide (q <= last)%Z then pop_pending last (Z.max ts t) rest else (ts, pending)
  | [] => (ts, [])
  end.

Definition advance (g : StandbySequenceGroup) (seq_id : Z) : StandbySequenceGroup :=
  let last := Z.max seq_id (last_consistent_standby_sequence_id_ g) in
  let '(ts, pending) := pop_pending last (last_standby_consistent_ts_ g) (pending_standby_consistent_ts_ g) in
  set_progress g last ts pending.

Definition seq_id_of {M} (msg : fwd_msg M) : Z :=
  match msg with Forward q _ | OutOfSync q => q end.

(** [UpdateLastReceivedStandbySequenceId] on one group: whether the message is to
    be processed, whether the node asks to follow the primary again
    ([cur_prim_term] is [PrimaryNodeTerm()]), and the new group. *)
Definition update_group {M} (cur_prim_term : Z) (g : StandbySequenceGroup) (msg : fwd_msg M)
    : bool * bool * StandbySequenceGroup :=
  if negb (subscribed_ g) then (false, false, g)
  else if decide (seq_id_of msg < initial_sequnce_id_ g)%Z then (false, false, g)
  else match msg with
       | OutOfSync _ => (false, bool_decide (0 < cur_prim_term)%Z, Unsubscribe g)
       | Forward seq_id _ => (true, false, advance g seq_id)
       end.

(** [None] where [at] throws. *)
Definition UpdateLastReceivedStandbySequenceId {M} (cur_prim_term : Z) (grps : groups) (grp : Z)
    (msg : fwd_msg M) : option (bool * bool * groups) :=
  g ← grps !! grp;
  let '(process, refollow, g1) := update_group cur_prim_term g msg in
  Some (process, refollow, <[grp := g1]> grps).

Definition announce (g : StandbySequenceGroup) (seq_id consistent_ts : Z) : StandbySequenceGroup :=
  if negb (subscribed_ g) then g
  else if decide (seq_id <= last_consistent_standby_sequence_id_ g)%Z then
    set_progress g (last_consistent_standby_sequence_id_ g)
      (Z.max (last_standby_consistent_ts_ g) consistent_ts) (pending_standby_consistent_ts_ g)
  else
    set_progress g (last_consistent_standby_sequence_id_ g) (last_standby_consistent_ts_ g)
      (pending_standby_consistent_ts_ g ++ [(seq_id, consistent_ts)]).

Definition UpdateStandbyConsistentTs (grps : groups) (seq_grp seq_id consistent_ts : Z) : option groups :=
  g ← grps !! seq_grp;
  Some (<[seq_grp := announce g seq_id consistent_ts]> grps).

Definition MinLastStandbyConsistentTs (grps : groups) : Z :=
  map_fold (λ _ g min_ts,
    if subscribed_ g then Z.min (last_standby_consistent_ts_ g) min_ts else min_ts) UINT64_MAX grps.

(** ** Terms *)

Definition PrimaryTermFromStandbyTerm (standby_term : Z) : Z := Z.shiftr standby_term 32.
Definition SubscribeIdFromStandbyTerm (standby_term : Z) : Z := Z.land standby_term 4294967295.

(** The term a standby follows under. *)
Definition standby_term_of (primary_term subscribe_id : Z) : Z :=
  Z.lor (Z.shiftl primary_term 32) subscribe_id.

(** [ValidTermCheck] of a forwarded message: the result and the new [ng_term_]. *)
Definition KeyObjectStandbyForwardCc_ValidTermCheck
    (StandbyNodeTerm CandidateStandbyNodeTerm ng_term primary_leader_term : Z) : bool * Z :=
  let standby_node_term :=
    if decide (StandbyNodeTerm < 0)%Z then CandidateStandbyNodeTerm else StandbyNodeTerm in
  if decide (standby_node_term < 0)%Z then (false, ng_term)
  else
    let ng_term1 := if decide (ng_term < 0)%Z then standby_node_term else ng_term in
    (negb (bool_decide (ng_term1 < 0)%Z || negb (bool_decide (standby_node_term = ng_term1)) ||
           negb (bool_decide (PrimaryTermFromStandbyTerm standby_node_term = primary_leader_term))),
     ng_term1).

(** ** Executions of a group *)

Section runs.
Context {M : Type}.

(** What reaches a group: a message of the stream, or the announcement that the
    messages up to an id contain every change up to a timestamp. *)
Inductive group_event := Received (msg : fwd_msg M) | Announced (seq_id consistent_ts : Z).

(** The messages processed and the group after the events. *)
Fixpoint run_group (cur_prim_term : Z) (g : StandbySequenceGroup) (evs : list group_event)
    : list M * StandbySequenceGroup :=
  match evs with
  | [] => ([], g)
  | Received msg :: evs =>
      let '(process, _, g1) := update_group cur_prim_term g msg in
      let '(ms, g2) := run_group cur_prim_term g1 evs in
      (match msg with Forward _ m => if process : bool then m :: ms else ms | OutOfSync _ => ms end, g2)
  | Announced q t :: evs => run_group cur_prim_term (announce g q t) evs
  end.

Definition announced (evs : list group_event) : list (Z * Z) :=
  omap (λ ev, match ev with Announced q t => Some (q, t) | Received _ => None end) evs.
End runs.
Arguments group_event : clear implicits.

(** ** Lemmas *)

Lemma pop_pending_spec last ts pending ts' pending' :
  pop_pending last ts pending = (ts', pending') →
  ∃ popped, pending = popped ++ pending' ∧ Forall (λ x, x.1 <= last)%Z popped ∧
    (∀ x, head pending' = Some x → (last < x.1)%Z) ∧ (ts <= ts')%Z ∧
    Forall (λ x, x.2 <= ts')%Z popped ∧ (ts' = ts ∨ ∃ x, x ∈ popped ∧ x.2 = ts').
Proof.
  revert ts. induction pending as [|[q t] rest IH]; intros ts; cbn.
  - intros [= <- <-]. exists []. repeat split; [constructor|done|lia|constructor|by left].
  - destruct (decide _) as [Hq|Hq].
    + intros (popped & -> & H1 & H2 & H3 & H4 & H5)%IH. exists ((q, t) :: popped).
      repeat split; [by constructor|done|lia|constructor; [cbn; lia|done]|].
      destruct H5 as [->|(x & Hx & <-)].
      * destruct (Z.max_spec ts t) as [[_ ->]|[_ ->]]; [right|by left]. exists (q, t). split; [left|done].
      * right. exists x. split; [by right|done].
    + intros [= <- <-]. exists []. repeat split; [constructor| |lia|constructor|by left].
      intros x [= <-]. cbn. lia.
Qed.

(** Where the group stands after the announcements [ann]. *)
Record group_ok (ann : list (Z * Z)) (g : StandbySequenceGroup) : Prop := {
  go_ts : last_standby_consistent_ts_ g = 0%Z ∨
    ∃ x, x ∈ ann ∧ x.2 = last_standby_consistent_ts_ g ∧ (x.1 <= last_consistent_standby_sequence_id_ g)%Z;
  go_all : ∀ x, x ∈ ann → (x.2 <= last_standby_consistent_ts_ g)%Z ∨ x ∈ pending_standby_consistent_ts_ g;
  go_pending : ∀ x, x ∈ pending_standby_consistent_ts_ g → x ∈ ann;
  go_head : ∀ x, head (pending_standby_consistent_ts_ g) = Some x →
    (last_consistent_standby_sequence_id_ g < x.1)%Z;
  go_sorted : StronglySorted (λ x y, x.1 <= y.1)%Z ann →
    StronglySorted (λ x y, x.1 <= y.1)%Z (pending_standby_consistent_ts_ g);
}.

Lemma Subscribe_ok seq_id : group_ok [] (Subscribe seq_id).
Proof.
  split; cbn.
  - by left.
  - intros x Hx. by apply elem_of_nil in Hx.
  - done.
  - done.
  - constructor.
Qed.

Lemma announce_ok ann g q t :
  group_ok ann g → subscribed_ g = true → group_ok (ann ++ [(q, t)]) (announce g q t).
Proof.
  intros [Hts Hall Hpend Hhead Hsort] Hsub. unfold announce. rewrite Hsub. cbn [negb].
  destruct (decide _) as [Hq|Hq]; split; cbn.
  - destruct (Z.max_spec (last_standby_consistent_ts_ g) t) as [[_ ->]|[_ ->]].
    + right. exists (q, t). split; [set_solver|done].
    + destruct Hts as [?|(x & ? & ?)]; [by left|right]. exists x. split; [set_solver|done].
  - intros x [Hx| ->%list_elem_of_singleton]%elem_of_app; [|left; cbn; lia].
    destruct (Hall x Hx); [left; lia|by right].
  - intros x Hx. apply elem_of_app. left. by apply Hpend.
  - done.
  - intros (_ & H1 & _)%StronglySorted_app. by apply Hsort.
  - destruct Hts as [?|(x & ? & ?)]; [by left|right]. exists x. split; [set_solver|done].
  - intros x [Hx| ->%list_elem_of_singleton]%elem_of_app; [|right; set_solver].
    destruct (Hall x Hx); [by left|right; set_solver].
  - intros x [Hx|Hx]%elem_of_app; apply elem_of_app; [left; by apply Hpend|by right].
  - intros x. destruct (pending_standby_consistent_ts_ g); cbn; [|apply Hhead]. intros [= <-]. cbn. lia.
  - intros (H0 & H1 & H2)%StronglySorted_app. apply StronglySorted_app. split; [|by split; [apply Hsort|]].
    intros x1 x2 Hx1. apply H0. by apply Hpend.
Qed.

Lemma advance_ok ann g seq_id : group_ok ann g → group_ok ann (advance g seq_id).
Proof.
  intros [Hts Hall Hpend Hhead Hsort]. unfold advance.
  destruct (pop_pending _ _ _) as [ts' pend'] eqn:E.
  destruct (pop_pending_spec _ _ _ _ _ E) as (popped & Ep & H1 & H2 & H3 & H4 & H5). clear E.
  rewrite Forall_forall in H1, H4. rewrite Ep in Hall, Hpend, Hsort. clear Ep Hhead. split; cbn.
  - destruct H5 as [->|(x & Hx & <-)].
    + destruct Hts as [?|(x & ? & ? & ?)]; [by left|right]. exists x. repeat split; [done..|lia].
    + right. exists x. split; [|split; [done|by apply H1]]. apply Hpend, elem_of_app. by left.
  - intros x Hx. destruct (Hall x Hx) as [?|[Hp|Hp]%elem_of_app]; [left; lia|left; by apply H4|by right].
  - intros x Hx. apply Hpend, elem_of_app. by right.
  - done.
  - intros Hs. by apply Hsort, StronglySorted_app in Hs as (_ & _ & ?).
Qed.

Lemma subscribed_run {M} t g (evs : list (group_event M)) :
  subscribed_ (run_group t g evs).2 = true → subscribed_ g = true.
Proof.
  revert g. induction evs as [|[msg|q ts] evs IH]; intros g; cbn; [done| |].
  - destruct (update_group t g msg) as [[b r] g1] eqn:E. destruct (run_group t g1 evs) as [ms g2] eqn:Er. cbn.
    intros Hs. assert (subscribed_ g1 = true) as Hg1 by (apply IH; by rewrite Er).
    revert E. unfold update_group. destruct (subscribed_ g) eqn:Eg; [done|]. cbn. intros [= <- <- <-]. congruence.
  - intros Hs%IH. unfold announce in Hs. destruct (subscribed_ g) eqn:Eg; [done|]. cbn in Hs. congruence.
Qed.

Lemma update_group_ok {M} ann t g (msg : fwd_msg M) b r g1 :
  group_ok ann g → update_group t g msg = (b, r, g1) → subscribed_ g1 = true → group_ok ann g1.
Proof.
  intros Hg. unfold update_group. destruct (subscribed_ g) eqn:Es; cbn [negb]; [|congruence].
  destruct (decide _); [congruence|]. destruct msg; intros [= <- <- <-]; [|done]. intros _. by apply advance_ok.
Qed.

Lemma run_group_ok {M} ann t g (evs : list (group_event M)) :
  group_ok ann g → subscribed_ (run_group t g evs).2 = true →
  group_ok (ann ++ announced evs) (run_group t g evs).2.
Proof.
  revert ann g. induction evs as [|[msg|q ts] evs IH]; intros ann g Hg Hs.
  - cbn. by rewrite app_nil_r.
  - cbn in Hs |- *. destruct (update_group t g msg) as [[b r] g1] eqn:E.
    specialize (IH ann g1). pose proof (subscribed_run t g1 evs) as Hs1.
    destruct (run_group t g1 evs) as [ms g2]. cbn in *.
    apply IH; [|done]. eapply update_group_ok; eauto.
  - cbn in Hs |- *. rewrite cons_middle, app_assoc. apply IH; [|done].
    pose proof (subscribed_run _ _ _ Hs) as Hs1. apply announce_ok; [done|].
    unfold announce in Hs1. destruct (subscribed_ g) eqn:Eg; [done|]. cbn in Hs1. congruence.
Qed.

Lemma head_sorted_above last (l : list (Z * Z)) :
  StronglySorted (λ x y, x.1 <= y.1)%Z l → (∀ x, head l = Some x → (last < x.1)%Z) →
  ∀ x, x ∈ l → (last < x.1)%Z.
Proof.
  intros Hs Hh x Hx. destruct Hs as [|y l Hs Hf]; [by apply elem_of_nil in Hx|].
  specialize (Hh y eq_refl). apply elem_of_cons in Hx as [->|Hx]; [done|].
  rewrite Forall_forall in Hf. specialize (Hf x Hx). cbn in Hf. lia.
Qed.

(** Receiving consecutive messages. *)
Lemma run_numbered {M} t g (start : Z) (ms : list M) :
  subscribed_ g = true → (initial_sequnce_id_ g <= start)%Z →
  last_consistent_standby_sequence_id_ g = (start - 1)%Z →
  ∃ g', run_group t g (Received <$> numbered start ms) = (ms, g') ∧ subscribed_ g' = true ∧
    initial_sequnce_id_ g' = initial_sequnce_id_ g ∧
    last_consistent_standby_sequence_id_ g' = (start - 1 + Z.of_nat (length ms))%Z.
Proof.
  revert g start. induction ms as [|m ms IH]; intros g start Hs Hi Hl.
  - exists g. cbn. repeat split; [done|lia].
  - assert (numbered start (m :: ms) = Forward start m :: numbered (start + 1) ms) as ->.
    { unfold numbered. rewrite imap_cons, Z.add_0_r. f_equal. apply imap_ext. intros. cbn. f_equal. lia. }
    cbn -[numbered]. unfold update_group. rewrite Hs. cbn [negb seq_id_of].
    destruct (decide _) as [Hlt|_]; [lia|].
    assert (subscribed_ (advance g start) = true ∧ initial_sequnce_id_ (advance g start) = initial_sequnce_id_ g ∧
      last_consistent_standby_sequence_id_ (advance g start) = start) as (H1 & H2 & H3).
    { unfold advance. destruct (pop_pending _ _ _). cbn. repeat split; [done|lia]. }
    destruct (IH (advance g start) (start + 1)%Z) as (g' & -> & ? & ? & Hl'); [done|lia|lia|].
    exists g'. repeat split; [done|congruence|]. rewrite Hl'. lia.
Qed.

Lemma run_group_app {M} t g (e1 e2 : list (group_event M)) :
  run_group t g (e1 ++ e2) =
  let '(ms1, g1) := run_group t g e1 in let '(ms2, g2) := run_group t g1 e2 in (ms1 ++ ms2, g2).
Proof.
  revert g. induction e1 as [|[msg|q ts] e1 IH]; intros g; cbn.
  - by destruct (run_group t g e2).
  - destruct (update_group t g msg) as [[b r] g1]. rewrite IH. destruct (run_group t g1 e1) as [ms1 g2].
    destruct (run_group t g2 e2). destruct msg; [by destruct b|done].
  - apply IH.
Qed.

(** A prefix of numbered messages is the numbering of a prefix. *)
Lemma numbered_prefix {M} start (ms : list M) l k :
  numbered start ms = l ++ k → ∃ n, l = numbered start (take n ms) ∧ n <= length ms.
Proof.
  intros E. exists (length l).
  assert (length (numbered start ms) = length ms) as Hlen by apply length_imap.
  split; [|rewrite <-Hlen, E, length_app; lia].
  assert (l = take (length l) (numbered start ms)) as Hl by (by rewrite E, take_app_length).
  rewrite Hl at 1. apply list_eq. intros i. unfold numbered.
  destruct (decide (i < length l)).
  - rewrite lookup_take_lt, !list_lookup_imap, lookup_take_lt by done. done.
  - rewrite lookup_take_ge, !list_lookup_imap, lookup_take_ge by lia. done.
Qed.

Lemma segment_take {M} (hist : list M) start n k :
  take k (segment hist start n) = segment hist start (k `min` n).
Proof. unfold segment. by rewrite take_take. Qed.

(** ** What a standby has *)

(** C37: A standby that subscribed at the id its subscription on the primary starts
    with, and has received any part of its stream in order, has processed exactly
    the primary's history from there on, each message once and in order, and its
    [last_consistent_standby_sequence_id_] is the id of the last one. *)
Theorem standby_applies_history {M} (empty_msg : M) (lag : nat) p node sub t received rest :
  0 < lag → primary_reachable empty_msg lag p → subscribed_standby_nodes_ p !! node = Some sub →
  (sub_start sub < UINT64_MAX)%Z → sub_stream sub = received ++ rest →
  ∃ n, let r := run_group t (Subscribe (sub_start sub)) (Received <$> received) in
    r.1 = segment (forwarded p) (sub_start sub) n ∧ length r.1 = n ∧
    last_consistent_standby_sequence_id_ r.2 = (sub_start sub - 1 + Z.of_nat n)%Z ∧
    (received = numbered (sub_start sub) r.1 ∨
     ∃ q, received = numbered (sub_start sub) r.1 ++ [OutOfSync q]).
Proof.
  intros Hlag Hr Hs Hmax Hst. pose proof (primary_reachable_ok empty_msg lag p Hlag Hr) as Hp.
  destruct (po_subs _ _ Hp node sub Hs) as [H1 (n & Hn & Hd)].
  assert (∃ k tail, k <= n ∧ received = numbered (sub_start sub) (segment (forwarded p) (sub_start sub) k) ++ tail ∧
    (tail = [] ∨ ∃ q, tail = [OutOfSync q])) as (k & tail & Hk & -> & Ht).
  { assert (∃ tail, (tail = [] ∨ ∃ q, tail = [OutOfSync q]) ∧
      received ++ rest = numbered (sub_start sub) (segment (forwarded p) (sub_start sub) n) ++ tail) as (tail & Ht & E).
    { destruct Hd as [[_ Hst']|[_ (tail & Ht & Hst')]]; [exists []|exists tail]; rewrite <-Hst, Hst', ?app_nil_r; auto. }
    apply app_eq_app in E as (l & [[-> ->]|[E ->]]).
    - exists n, l. repeat split; [done|]. destruct Ht as [Ht|[q Ht]].
      + apply app_eq_nil in Ht as [-> _]. by left.
      + destruct l as [|x l]; [by left|right]. exists q. injection Ht as -> Ht. by apply app_eq_nil in Ht as [-> _].
    - apply numbered_prefix in E as (k & -> & Hk). rewrite segment_take. exists (k `min` n), [].
      rewrite app_nil_r. repeat split; [lia|by left]. }
  pose proof (po_next _ _ Hp) as Hnext.
  assert (length (segment (forwarded p) (sub_start sub) k) = k) as Hlen.
  { unfold segment. rewrite length_take, length_drop. lia. }
  exists k. cbv zeta. rewrite fmap_app, run_group_app.
  destruct (run_numbered t (Subscribe (sub_start sub)) (sub_start sub) (segment (forwarded p) (sub_start sub) k))
    as (g' & -> & Hsub & Hi & Hl); [done|done| |].
  { cbn. apply u64_small. unfold UINT64_MAX in *. lia. }
  rewrite Hlen in Hl. destruct Ht as [->|[q ->]]; cbn.
  - rewrite !app_nil_r. auto.
  - unfold update_group. rewrite Hsub. cbn [negb seq_id_of].
    destruct (decide _); cbn; rewrite app_nil_r; eauto 10.
Qed.

(** A part of the stream of the sample execution after one retry. *)
Lemma standby_applies_history_witness :
  let p := RetryFailedStandbyMsgCc_Execute 4 (λ _ _, true) sample_primary in
  ∃ n, (run_group 1 (Subscribe 1) (Received <$> [Forward 1 10%Z; Forward 2 20%Z])).1 = segment (forwarded p) 1 n.
Proof.
  cbv zeta.
  edestruct (standby_applies_history 0%Z 4 (RetryFailedStandbyMsgCc_Execute 4 (λ _ _, true) sample_primary) 7)
    with (t := 1%Z) (received := [Forward 1 10%Z; Forward 2 20%Z]) (rest := [Forward 3 30%Z]) as (n & Hn & _);
    [lia|eapply rtc_r; [apply sample_primary_reachable|apply step_retry]|vm_compute; reflexivity
    |vm_compute; reflexivity|reflexivity|].
  exists n. exact Hn.
Defined.



Lemma MinLastStandbyConsistentTs_spec grps :
  (∀ k g, grps !! k = Some g → subscribed_ g = true →
     (MinLastStandbyConsistentTs grps <= last_standby_consistent_ts_ g)%Z) ∧
  (MinLastStandbyConsistentTs grps = UINT64_MAX ∨
   ∃ k g, grps !! k = Some g ∧ subscribed_ g = true ∧
     MinLastStandbyConsistentTs grps = last_standby_consistent_ts_ g).
Proof.
  unfold MinLastStandbyConsistentTs.
  apply (map_fold_weak_ind (λ r m,
    (∀ k g, m !! k = Some g → subscribed_ g = true → (r <= last_standby_consistent_ts_ g)%Z) ∧
    (r = UINT64_MAX ∨ ∃ k g, m !! k = Some g ∧ subscribed_ g = true ∧ r = last_standby_consistent_ts_ g))).
  - split; [|by left]. intros k g. by rewrite lookup_empty.
  - intros k g m r Hk [IH1 IH2]. split.
    + intros k' g' [[<- <-]|[_ Hk']]%lookup_insert_Some Hs.
      * rewrite Hs. lia.
      * specialize (IH1 _ _ Hk' Hs). destruct (subscribed_ g); lia.
    + destruct (subscribed_ g) eqn:Es.
      * destruct (Z.min_spec (last_standby_consistent_ts_ g) r) as [[_ ->]|[_ ->]].
        { right. exists k, g. by rewrite lookup_insert_eq. }
        destruct IH2 as [?|(k' & g' & Hk' & ?)]; [by left|right]. exists k', g'.
        rewrite lookup_insert_ne by congruence. done.
      * destruct IH2 as [?|(k' & g' & Hk' & ?)]; [by left|right]. exists k', g'.
        rewrite lookup_insert_ne by congruence. done.
Qed.

(** A standby term packs the primary's term and the subscription id, both of
    which are read back from it. *)
Lemma standby_term_roundtrip primary_term subscribe_id :
  (0 <= subscribe_id < 2 ^ 32)%Z →
  PrimaryTermFromStandbyTerm (standby_term_of primary_term subscribe_id) = primary_term ∧
  SubscribeIdFromStandbyTerm (standby_term_of primary_term subscribe_id) = subscribe_id.
Proof.
  intros Hs. unfold PrimaryTermFromStandbyTerm, SubscribeIdFromStandbyTerm, standby_term_of.
  change 4294967295%Z with (Z.ones 32). split.
  - rewrite Z.shiftr_lor, Z.shiftr_shiftl_l, Z.sub_diag, Z.shiftl_0_r by lia.
    rewrite (Z.shiftr_div_pow2 subscribe_id) by lia. rewrite Z.div_small by done. apply Z.lor_0_r.
  - rewrite Z.land_lor_distr_l, !Z.land_ones, Z.shiftl_mul_pow2 by lia.
    rewrite Z.mod_mul, Z.lor_0_l by lia. by apply Z.mod_small.
Qed.

(** A forwarded message is processed only under the term of the primary that sent
    it, and under the same standby term as long as it is being processed. *)
Lemma ValidTermCheck_spec st cst ng_term prim ng_term1 :
  KeyObjectStandbyForwardCc_ValidTermCheck st cst ng_term prim = (true, ng_term1) →
  (0 <= ng_term1)%Z ∧ (ng_term1 = st ∨ (st < 0)%Z ∧ ng_term1 = cst) ∧
  ((0 <= ng_term)%Z → ng_term1 = ng_term) ∧ PrimaryTermFromStandbyTerm ng_term1 = prim.
Proof.
  unfold KeyObjectStandbyForwardCc_ValidTermCheck.
  set (cur := if decide (st < 0)%Z then cst else st).
  assert (cur = st ∨ (st < 0)%Z ∧ cur = cst) as Hcur
    by (unfold cur; destruct (decide (st < 0)%Z); [right; done|by left]). clearbody cur.
  destruct (decide (cur < 0)%Z); [done|]. intros [Hb Ht]%pair_equal_spec.
  apply negb_true_iff, orb_false_iff in Hb as [[_ Hc]%orb_false_iff Hprim].
  apply negb_false_iff, bool_decide_eq_true in Hc. apply negb_false_iff, bool_decide_eq_true in Hprim.
  rewrite Ht in Hc. subst cur. split; [lia|]. split; [done|]. split; [|done].
  intros ?. rewrite <-Ht. destruct (decide (ng_term < 0)%Z); [lia|done].
Qed.
